(* ===== verification/_CoqProject ===== *)
-Q . S2P
Prelude.v
JsList.v
JsString.v
JsValue.v
CanonicalJson.v
Contracts.v
JsonView.v
ReviewStateMachine.v
FourEyesPolicy.v
PolicyConflicts.v
ReviewStore.v
ReviewStoreOps.v
ReviewStoreInv.v
ReviewPersistence.v
JobLock.v
HashChain.v
LockEventChain.v
ConsolidationLock.v
NodePath.v
Decimal.v
Tenant.v
TenantProof.v
AirGap.v
TestCaseValidator.v
TestCaseSchema.v
ReplayCache.v
PersistentCache.v
JsonSchemaSubset.v
LlmTypes.v
IdempotencyCache.v
FinOpsBudget.v
FinOpsRecorder.v
FinOpsReport.v
ReviewStoreProps.v
CircuitBreaker.v
LlmGateway.v
GatewayDecoding.v
GatewayResponse.v
GatewayConfig.v
RateLimit.v
WorkflowMachine.v
WorkflowSearch.v
WorkflowValidator.v
CrossFamily.v
HumanReview.v
JudgeConsensus.v
AgentRoleProfile.v
ArtifactFiles.v
AgentHarness.v
HarnessCheckpoint.v
CheckpointStore.v
FvSyntax.v
FvModel.v
CtlChecker.v
CtlCorrect.v
LtlTranslation.v
KripkeProof.v
FvTokens.v
FvParser.v
FvParserProof.v
FormalVerification.v
CounterexampleProof.v
FormalReport.v
FormalClaims.v
CaseMerger.v
FilePrograms.v
HumanReviewQueue.v
HumanReviewQueueProps.v
HumanReviewQueueSpec.v
RepairLoop.v
RepairLoopProps.v
CrossFieldEngine.v
CrossFieldRegistry.v
CrossFieldGate.v
CrossFieldProps.v
SelfConsistency.v
CoverageOptimizer.v
CoverageOptimizerProps.v
IntentDelta.v
TestCaseDelta.v
