(* ===== verification/Prelude.v ===== *)
(** * Test Intelligence: a verification library

    Test Intelligence generates test cases from UI designs with language models and
    puts them through gates: validators and judges check a generated list, a policy
    gate decides on every case, reviewers approve cases in a review store (some only
    by two different people), and tenants share one installation without seeing each
    other. This development models the deterministic core of that pipeline as
    executable definitions and proves what makes it correct. The packages are under
    [src/packages/]; each file's comment names the modules it models.

    ** How the parts interact

    - A generated list is checked by the structural validator and by the gateway's
      schema ([TestCaseValidator], [TestCaseSchema]). The replay caches
      ([ReplayCache], [PersistentCache]) store and return only lists the validator
      accepts; the persistent one is bound to a tenant scope and calls the tenant
      guard ([Tenant]) before it touches the disk, and the air-gap guard ([AirGap])
      when it is built. Its cache-wide claim is the isolation proof ([TenantProof]).
    - The gateway client ([LlmGateway]) guards a request, looks it up in the
      idempotency cache ([IdempotencyCache]) and repeats attempts behind a circuit
      breaker ([CircuitBreaker]), whose state is saved in a file ([PersistentCache]).
      One attempt is a dispatch ([GatewayResponse]): [GatewayDecoding] builds what is
      sent, [JsonSchemaSubset] checks what comes back, and [GatewayConfig] says which
      configurations make a client at all. The HTTP shell is protected by a rate
      limiter ([RateLimit]).
    - Budgets ([FinOpsBudget]) limit what a run may spend; a recorder
      ([FinOpsRecorder]) adds up what its calls used, and the report ([FinOpsReport])
      compares the sums with the limits.
    - Several samples of a list are merged by a field-wise majority vote
      ([SelfConsistency]), which sends what the samples disagree on to review.
    - How many cases of which technique to ask for is planned offline by a genetic search
      for Pareto fronts ([CoverageOptimizer]).
    - Two revisions of the intent of a job are compared element by element ([IntentDelta]);
      the verdicts on the cases of two generations ([TestCaseDelta]) build on that delta and
      on the fingerprints that also find duplicates.
    - Judges form a panel ([CrossFamily]) whose verdicts are merged into a consensus
      ([JudgeConsensus]); a human decision is an envelope around it ([HumanReview]).
      The repair loop ([RepairLoop]) regenerates a list with the judges' instructions
      until they accept or reject it. Cases that need a human wait in a queue on disk
      ([HumanReviewQueue]), where reviewers leave signed verdicts and missed deadlines
      are found.
      Workflow state machines ([WorkflowMachine], [WorkflowSearch],
      [WorkflowValidator]) gate the step sequences of the cases, and cross-field
      invariants ([CrossFieldEngine], [CrossFieldRegistry], [CrossFieldGate]) provide
      boundary values over several fields and gate which screens exercise them.
    - The policy gate prunes resolved conflicts ([PolicyConflicts]) and the four-eyes
      policy ([FourEyesPolicy]) says which cases need two approvers. The review store
      ([ReviewStore] to [ReviewStoreProps], [ReviewPersistence], [JobLock]) seeds
      a snapshot from both, and moves every case along the review state machine
      ([ReviewStateMachine]) while it appends to an event log.
    - Lessons are consolidated under a lock on disk ([ConsolidationLock]) that writes
      a hash-chained event log ([LockEventChain]).
    - A role of the pipeline runs as a step of the agent harness ([AgentHarness]), with
      the attempts its profile allows ([AgentRoleProfile]); every step leaves a
      checkpoint in a hash chain ([HarnessCheckpoint]) on disk ([CheckpointStore]).
    - The rule packs are verified by a model checker of the repository: a source is
      parsed ([FvTokens], [FvParser]), its Kripke structure is built ([FvModel]), every
      formula is checked ([CtlChecker], linear-time ones after [LtlTranslation]), and a
      report gates the release ([FormalVerification], [FormalReport]).

    ** Files

    Shared: this file (notations, [outcome], comparators), [JsList] ([sort], [Set],
    [find] and [Map] of JavaScript), [JsString], [JsValue] (JSON values and object literals),
    [CanonicalJson] ([canonicalJson] of [security/src/content-hash.ts] and the digest
    interface), [JsonView] (reading typed values back from JSON, and object spreads),
    [Contracts] (label sets and records of [contracts/src/index.ts]), [NodePath] (POSIX paths), [Decimal] (numerals), [HashChain]
    (chains of linked hashes), [ArtifactFiles] (atomic writes of JSON files),
    [FilePrograms] (calls as trees of single file operations, pools of interleaved
    calls, and a rely-guarantee rule for them).

    Review: [ReviewStateMachine] ([review/src/review-state-machine.ts]),
    [FourEyesPolicy] ([review/src/four-eyes-policy.ts]), [PolicyConflicts]
    ([production-runner/src/policy-gate.ts], pruning), [ReviewStore] (data and helpers
    of [production-runner/src/review-store.ts]), [ReviewStoreOps] ([seedSnapshot],
    [refreshPolicyDecisions], [recordTransition] as lists of file writes, so that a
    crash between two writes is a reachable directory), [ReviewStoreInv] (the
    invariant by induction on reachable directories), [ReviewPersistence] (validators
    and readers of both files), [JobLock] ([withJobLock] as a step system),
    [ReviewStoreProps] (what the operations guarantee, and scenarios).
    [HumanReviewQueue] ([review/src/human-review-queue.ts]), [HumanReviewQueueProps]
    (calls stay in their tenant; the invariant of the directory under interleaving),
    [HumanReviewQueueSpec] (every call against its specification, and scenarios).

    Locks: [LockEventChain] and [ConsolidationLock]
    ([agentic-harness/src/lessons-consolidation-lock.ts]; an operation is a state
    machine of single file operations, so that processes interleave).

    Agent harness: [AgentRoleProfile] ([model-gateway/src/agent-role-profile.ts]),
    [AgentHarness] ([agentic-harness/src/agent-harness.ts]), [HarnessCheckpoint] and
    [CheckpointStore] ([agentic-harness/src/agent-harness-checkpoint.ts]: the chain and
    its files), [CaseMerger] ([agentic-harness/src/case-merger.ts]).

    Formal verification ([agentic-harness/src/formal-verification.ts]): [FvSyntax],
    [FvModel], [CtlChecker], [LtlTranslation], [FvTokens], [FvParser],
    [FormalVerification] and [FormalReport] model the module in the order of its
    stages; [CtlCorrect] (the fixed points against the semantics over infinite paths),
    [KripkeProof] (the states are the reachable valuations), [FvParserProof] (the parser
    returns), [CounterexampleProof] and [FormalClaims] prove them.

    Tenants and caches: [Tenant] ([tenant/src/tenant-scope-segments.ts],
    [tenant-isolation-guard.ts]; flows of several tenants interleave over shared
    contexts), [TenantProof] ([tenant/src/tenant-isolation-proof.ts]), [AirGap]
    ([production-runner/src/air-gap-guard.ts]), [TestCaseValidator] and
    [TestCaseSchema] ([core-engine/src/generated-test-case-*.ts]), [ReplayCache]
    ([model-gateway/src/replay-cache.ts]), [PersistentCache]
    ([production-runner/src/replay-cache-persistent.ts]).

    Gateways: [CircuitBreaker] ([model-gateway/src/llm-circuit-breaker.ts]),
    [LlmTypes] (gateway contracts), [IdempotencyCache] ([llm-gateway-idempotency.ts],
    over a [Map]), [LlmGateway] ([generate] of [llm-gateway.ts], [llm-token-estimator.ts]),
    [GatewayDecoding] ([constrained-decoding.ts] and the request body),
    [JsonSchemaSubset] (the response schema check), [GatewayResponse] ([dispatchOnce] and
    the response), [GatewayConfig] (construction), [RateLimit] ([server/src/rate-limit*.ts]).

    Budgets: [FinOpsBudget] ([model-gateway/src/finops-budget.ts]), [FinOpsRecorder] and
    [FinOpsReport] ([finops-report.ts], [per-source-cost.ts]).

    Workflows and judges: [WorkflowMachine], [WorkflowSearch]
    ([core-engine/src/workflow-state-machine.ts]), [WorkflowValidator]
    ([workflow-state-machine-validator.ts]), [CrossFieldEngine], [CrossFieldRegistry] and
    [CrossFieldGate] ([core-engine/src/cross-field-invariant-*.ts]) with [CrossFieldProps],
    [CrossFamily]
    ([quality/src/cross-family-judge-policy.ts]), [HumanReview]
    ([production-runner/src/human-review-agent.ts]), [JudgeConsensus]
    ([production-runner/src/judge-consensus.ts]), [RepairLoop]
    ([production-runner/src/repair-loop.ts]) with [RepairLoopProps] (a program logic over
    traces, the invariant of the loop and the theorems), [SelfConsistency]
    ([quality/src/self-consistency-voter.ts]), [CoverageOptimizer] and
    [CoverageOptimizerProps] ([quality/src/coverage-plan-optimizer.ts]: NSGA-II over the
    quotas of test techniques, over doubles and with [Math.exp] as a class).

    Revisions: [IntentDelta] ([core-engine/src/intent-delta.ts]) and [TestCaseDelta]
    ([core-engine/src/test-case-duplicate.ts] and [test-case-delta.ts]).

    ** What the theorems show

    - Review store: in every directory that operations and crashes can produce the log
      is numbered and append-only, the snapshot is sorted, counted and consistent, both
      files read back as what was written; approval of a four-eyes case takes two
      different people who are not its last editor, and no blocked case is approved.
      Each operation is specified on every branch. The job lock excludes, is fair and
      loses no caller.
    - Human-review queue: however calls interleave, as long as no two running ones share
      a temporary file, a stored verdict is well-formed, signed and about a stored item,
      and tenants do not interfere; records are append-only as long as calls do not
      overlap; the lists of pending items, missed
      deadlines and verdicts of a run are exact.
    - Consolidation lock: a first acquisition is exclusive under every interleaving;
      uninterrupted operations always return and refine an abstract lock; the event
      chain verifies and is tamper-evident up to collisions of the digest.
    - Tenants: directories and the guard agree on which scopes are equal; what flows are
      let through to do under a context belongs to its scope and is what its attestation
      lists, however flows interleave; caches of
      different tenants cannot influence each other.
    - Caches: a stored list is found again up to property order, replay never
      generates, corrupt entries heal as far as file calls work, eviction is least-recently-used and minimal. The
      client [executeWithReplayCache] is proved against the class [ReplayCacheLaws],
      of which all three caches are instances.
    - Validator: it decides exactly a schema of its own ([validator_schema], a reference
      written down for this comparison), which differs from the gateway's.
    - Circuit breaker and rate limiter: admission on every branch, one probe at a time,
      at most [limit] requests per window, and refinements of abstract counters and of a
      restored breaker.
    - Gateway: attempts are bounded, numbered and admitted one by one by the breaker; a
      success was checked against the request's schema and budget; a failure is retried
      exactly when it is flagged; a stored result answers later calls across restarts;
      requests in flight are shared by key; only public https endpoints are accepted.
    - Budgets: validation accepts exactly the stated limits, the recorder counts and adds up
      what its calls were, and the report lists exactly the limits the sums exceed.
    - Workflows and judges: the search is sound, complete and shortest; the gate agrees
      with walks of the machine; panels, votes and consensus follow their stated rules.
    - Cross-field invariants: a verdict is the truth of its formula and depends on the
      collected fields only; a registry holds sound invariants, the whole catalogue
      among them; their test data walks both sides of the boundary; the gate blocks
      exactly the screens that lack a side.
    - Repair loop: a list is accepted only when its own judges accepted it; every outcome
      is explained by the rounds; the generator stays within its guard, each call follows
      its plan, and the loop returns when failures are to be survived.
    - Self-consistency vote: one merged case per target; a disagreement is reported
      exactly when a field has no majority, and a majority decides the merged case.
    - Coverage optimizer: the fast sort computes the Pareto fronts; every generation stays
      in the quota windows and keeps what nothing dominates; the published front is one,
      and the recommended plan a member that meets the criteria, whatever the draws.
    - Revisions: the delta of two intents has exactly one entry per element that was added,
      removed or changed in its hashed properties; every case gets one verdict; a case called unchanged has the same
      fingerprint, and the intents agree on what they share on its screens. Duplicates are
      exactly the pairs above the threshold.
    - Agent harness: a step ends within its attempts and completes its job only with
      accepted work; the checkpoint chain is tamper-evident, its runs form a tree, and it
      survives the disk and a crash while it is written. A merge of two passes has one
      case per signature, with the coverage of both, whatever the order of a pass as
      long as signatures and ids differ.
    - Formal verification: every source gets a result or an error; the model has exactly
      the reachable valuations; the model checker computes exactly the states at which a
      CTL formula holds; a linear-time formula that passes holds on every run as long as
      temporal operators occur positively, and exactly so in a named fragment; a
      counterexample is a run that violates the formula.

    ** Conventions

    - A [throw] is [Throw] of [outcome], with a constructor per kind of error instead of
      the message text. Object mutation is explicit state passing; file operations are
      separate steps where a crash or another process can come between them.
    - Strings are lists of code units below 256. JSON values are [JsValue.json];
      numbers are rationals or integers where the code uses them so, with one zero. The text of a JSON
      value is identified with the value it parses to; [JSON.parse] of another text is
      [None].
    - SHA-256 is the class [JsonDigest], of which only the shape of the result is
      assumed; theorems that need injectivity say "unless the digest collides" and
      exhibit the collision. [localeCompare] is a total preorder ([LocaleCompare]); the
      URL parser, regular expressions (which may refuse a pattern), [Math.exp], the order of
      directory listings, which file calls of the persistent cache fail, what [stat]
      reports of a modification time that was set, the length of texts in bytes, secret
      redaction, public keys and their signatures, and the liveness probe of the lock are
      parameters. A theorem over a parameter holds for every choice of it that has the
      stated laws. The clock, random draws and what files, the network and callbacks
      answer are arguments of each operation. [Date.parse] ([DateParse]) is a parameter.
    - The cross-field engine and the coverage optimizer compute with IEEE doubles
      ([JsValue.Double]: every result is rounded to the nearest double, a tie to the even
      one, and overflows to an infinity). Formal verification computes with integers and
      ends with an error of its own at a numeral or a sum that is not an exact double
      (2^53 and beyond). Elsewhere arithmetic is exact: sums, times and thresholds are
      taken to be within the range in which doubles are.
    - [writeFile] in a call that interleaves with others is two operations, truncation and
      the text; a file that is only half written is not JSON. In the review store and the
      checkpoints, where one call at a time writes, a crash is possible between any two
      calls on files.
    - Fuel: [CircuitBreaker.FUEL] is 2, and [beforeRequest_admission] shows that two
      rounds of the retry loop suffice; the search loop gets as much fuel as the machine
      has states and transitions, and [findShortestTransitionPath_correct] shows that it
      always returns; an operation of the consolidation lock gets 10 file
      operations, and [lock_operations_refine_spec] shows that it returns within them;
      [toString(36)] gets one digit per bit. A harness step gets 5 rounds for at most 4
      attempts ([harness_step_returns]); [KRIPKE_FUEL] is one round per state within the
      limit and two more ([model_is_the_transition_system]); the fixed points get a round
      per state ([model_checker_correct]), the loop over a range [DOMAIN_FUEL] rounds, one more
      than the widest accepted domain has values ([verification_returns]), the tokenizer one per character and the
      parser one per token ([verification_returns]).

    ** Not modelled

    Integrations with third-party services (ALM, Jira, QC exporters), the CLI and HTTP
    shell, node:crypto, PDF and Markdown rendering, the evaluation harness: I/O or glue
    around other systems. The rule catalogue of the policy gate, the ingestion
    heuristics of [multi-source] and the Figma adapters: configuration-sized lists of
    independent rules. Tenant bundles and evidence manifests: archives and signatures of
    files, whose formats and digests are the work of node:crypto and the file system.
    The production runner: it calls the parts above in an order set by its options, and
    most of what it does is to call services. *)

From stdpp Require Export base tactics list gmap strings pretty sorting.
From Stdlib Require Export QArith Qround.
From Stdlib Require Import Sorted.

#[global] Open Scope string_scope.
#[global] Open Scope list_scope.
#[global] Open Scope Z_scope.

(** ** Tactics shared by the development *)

(** Case analysis on every boolean test, [decide] and [match] of the goal and
    the hypotheses, closing the contradictory branches. *)
Ltac crush_match :=
  repeat (first [ progress simplify_eq/= | case_decide | case_match ]); try done.

(** Splits conjunctions of the goal down to their atoms. *)
Ltac split_all := repeat match goal with |- _ ∧ _ => split end.

Create HintDb js.
Create Rewrite HintDb js_rw.

(** ** Errors: a [throw] in the source is the left side of a sum *)

Inductive outcome (E A : Type) : Type :=
| Ok (a : A)
| Throw (e : E).
Arguments Ok {E A} a.
Arguments Throw {E A} e.

#[global] Instance outcome_eq_dec {E A} `{EqDecision E, EqDecision A} :
  EqDecision (outcome E A).
Proof. solve_decision. Defined.

Definition outcome_bind {E A B} (m : outcome E A) (k : A → outcome E B) : outcome E B :=
  match m with Ok a => k a | Throw e => Throw e end.

Definition outcome_map {E A B} (f : A → B) (m : outcome E A) : outcome E B :=
  outcome_bind m (λ a, Ok (f a)).

(** [guard_throw b e] is [if (b) throw e]. *)
Definition guard_throw {E} (b : bool) (e : E) : outcome E unit :=
  if b then Throw e else Ok tt.

Declare Scope outcome_scope.
Delimit Scope outcome_scope with outcome.
Notation "'let*' x ':=' m 'in' k" := (outcome_bind m (λ x, k))
  (at level 10, x pattern, k at level 200) : outcome_scope.
Notation "m ';;;' k" := (outcome_bind m (λ _, k))
  (at level 199, right associativity) : outcome_scope.

(** A loop over a list whose body may throw. *)
Fixpoint outcome_foldl {E A B} (f : B → A → outcome E B) (b : B) (l : list A) :
    outcome E B :=
  match l with
  | [] => Ok b
  | x :: l' => outcome_bind (f b x) (λ b', outcome_foldl f b' l')
  end.

Lemma outcome_bind_Ok {E A B} (m : outcome E A) (k : A → outcome E B) b :
  outcome_bind m k = Ok b ↔ ∃ a, m = Ok a ∧ k a = Ok b.
Proof. destruct m; simpl; naive_solver. Qed.

Lemma guard_throw_Ok {E} (b : bool) (e : E) u :
  guard_throw b e = Ok u ↔ b = false.
Proof. destruct b, u; simpl; naive_solver. Qed.

(** A statement that may throw before the rest of the body. *)
Lemma outcome_then_Ok {E B} (m : outcome E unit) (k : outcome E B) b :
  outcome_bind m (λ _, k) = Ok b ↔ m = Ok tt ∧ k = Ok b.
Proof. destruct m as [[]|]; simpl; naive_solver. Qed.

Lemma outcome_foldl_app {E A B} (f : B → A → outcome E B) b l1 l2 :
  outcome_foldl f b (l1 ++ l2) =
  outcome_bind (outcome_foldl f b l1) (λ b', outcome_foldl f b' l2).
Proof.
  revert b; induction l1 as [|x l1 IH]; intros b; simpl; [done|].
  destruct (f b x); simpl; [apply IH|done].
Qed.

(** ** Booleans *)

Lemma bool_decide_prop (P : Prop) `{Decision P} : Is_true (bool_decide P) ↔ P.
Proof. apply bool_decide_spec. Qed.

#[export] Hint Rewrite @outcome_bind_Ok @guard_throw_Ok : js_rw.

(** ** Comparators

    A JavaScript comparator returns a number of which only the sign matters;
    it is modelled by [comparison] ([Lt]: negative, [Eq]: zero, [Gt]:
    positive). *)

Class CmpOk {A} (cmp : A → A → comparison) : Prop := {
  cmp_refl x : cmp x x = Eq;
  cmp_antisym x y : cmp y x = CompOpp (cmp x y);
  cmp_trans x y z : cmp x y ≠ Gt → cmp y z ≠ Gt → cmp x z ≠ Gt;
}.

(** A comparator that only calls equal values equal. *)
Class CmpStrict {A} (cmp : A → A → comparison) : Prop := {
  cmp_strict_ok :: CmpOk cmp;
  cmp_eq x y : cmp x y = Eq → x = y;
}.

(** [a.k - b.k], [f(a).localeCompare(f(b))]: comparing by a key. *)
Definition cmp_on {A B} (f : A → B) (cmp : B → B → comparison) (x y : A) :=
  cmp (f x) (f y).

(** [c1(a,b) || c2(a,b)] and its spelled-out form
    [const o = c1(a,b); if (o !== 0) return o; return c2(a,b)]. *)
Definition cmp_then {A} (c1 c2 : A → A → comparison) (x y : A) : comparison :=
  match c1 x y with Eq => c2 x y | r => r end.

#[export] Instance cmp_on_ok {A B} (f : A → B) cmp : CmpOk cmp → CmpOk (cmp_on f cmp).
Proof.
  intros [Hr Ha Ht]. split; unfold cmp_on; intros; [apply Hr|apply Ha|].
  by eapply Ht.
Qed.

Lemma cmp_eq_trans {A} (cmp : A → A → comparison) `{!CmpOk cmp} x y z :
  cmp x y = Eq → cmp x z = cmp y z.
Proof.
  intros Hxy.
  assert (Hyx : cmp y x = Eq) by (by rewrite (cmp_antisym x y), Hxy).
  pose proof (cmp_trans x y z) as H1. pose proof (cmp_trans y x z) as H2.
  pose proof (cmp_trans z x y) as H3. pose proof (cmp_trans z y x) as H4.
  pose proof (cmp_antisym x z) as Ha. pose proof (cmp_antisym y z) as Hb.
  rewrite Hxy in *. rewrite Hyx in *.
  destruct (cmp x z), (cmp y z), (cmp z x), (cmp z y); simpl in *;
    try discriminate; try reflexivity; exfalso;
    first [ by apply H1 | by apply H2 | by apply H3 | by apply H4 ].
Qed.

#[export] Instance cmp_then_ok {A} (c1 c2 : A → A → comparison) :
  CmpOk c1 → CmpOk c2 → CmpOk (cmp_then c1 c2).
Proof.
  intros H1 H2. split; unfold cmp_then.
  - intros x. by rewrite !cmp_refl.
  - intros x y. rewrite (cmp_antisym (cmp:=c1) x y).
    destruct (c1 x y); simpl; [apply cmp_antisym|done|done].
  - intros x y z H12 H23 H13.
    destruct (c1 x y) eqn:E1; [|clear H12|done].
    + rewrite (cmp_eq_trans c1 x y z E1) in H13.
      destruct (c1 y z); [|done|done]. by eapply (cmp_trans (cmp:=c2) x y z).
    + assert (c1 x z = Lt) as E3; [|by rewrite E3 in H13].
      destruct (c1 x z) eqn:E3; [|done|].
      * exfalso. pose proof (cmp_eq_trans c1 x z y E3) as E4.
        rewrite E1, (cmp_antisym (cmp:=c1) y z) in E4.
        destruct (c1 y z); simpl in *; done.
      * exfalso. refine (cmp_trans (cmp:=c1) x y z _ _ E3); [congruence|].
        destruct (c1 y z); done.
Qed.

#[export] Instance Z_compare_strict : CmpStrict Z.compare.
Proof.
  split; [split|].
  - apply Z.compare_refl.
  - intros x y. apply Z.compare_antisym.
  - intros x y z ??. rewrite Z.compare_gt_iff in *. lia.
  - apply Z.compare_eq.
Qed.

Lemma string_compare_refl s : String.compare s s = Eq.
Proof.
  induction s as [|c s IH]; simpl; [done|].
  unfold Ascii.compare. by rewrite N.compare_refl.
Qed.

Lemma string_compare_trans x y z :
  String.compare x y ≠ Gt → String.compare y z ≠ Gt → String.compare x z ≠ Gt.
Proof.
  revert y z; induction x as [|a x IH]; intros [|b y] [|c z]; simpl; try done.
  unfold Ascii.compare.
  destruct (N.compare_spec (Ascii.N_of_ascii a) (Ascii.N_of_ascii b)),
    (N.compare_spec (Ascii.N_of_ascii b) (Ascii.N_of_ascii c)),
    (N.compare_spec (Ascii.N_of_ascii a) (Ascii.N_of_ascii c)); try done;
    try lia. by intros; eapply IH.
Qed.

(** The order of [Array.prototype.sort] without a comparator. *)
#[export] Instance string_compare_strict : CmpStrict String.compare.
Proof.
  split; [split|].
  - apply string_compare_refl.
  - intros x y. apply String.compare_antisym.
  - apply string_compare_trans.
  - apply String.compare_eq_iff.
Qed.

(** ** Collation

    [String.prototype.localeCompare] depends on the host's collation data, so
    it is an interface: the development relies only on the consistency that
    ECMA-402 requires of a collator (a total preorder); two different strings
    may compare equal. [code_unit_collation] is one such collator. *)
Class LocaleCompare := {
  localeCompare : string → string → comparison;
  localeCompare_ok :: CmpOk localeCompare;
}.

Definition code_unit_collation : LocaleCompare :=
  {| localeCompare := String.compare |}.
