(* ===== verification/JsList.v ===== *)
(** * JavaScript arrays, sets and maps

    [Array.prototype.sort] as a stable insertion sort, [Set] as a list in
    insertion order, [Array.prototype.find]/[map] updates by key, [Map], and
    the lemmas the components share about them. *)


From S2P Require Import Prelude.

(** ** Stable sorting *)

Lemma StronglySorted_impl {A} (R R' : A → A → Prop) l :
  (∀ x y, R x y → R' x y) → StronglySorted R l → StronglySorted R' l.
Proof. intros HR. induction 1; constructor; [done|]. eapply Forall_impl; eauto. Qed.

Section sort.
Context {A : Type} (cmp : A → A → comparison).

Fixpoint js_insert (x : A) (l : list A) : list A :=
  match l with
  | [] => [x]
  | y :: l' => match cmp x y with Gt => y :: js_insert x l' | _ => x :: l end
  end.

(** Inserting from the right keeps equal elements in their order. *)
Definition js_sort (l : list A) : list A := foldr js_insert [] l.

Definition cmp_le (x y : A) : Prop := cmp x y ≠ Gt.

Lemma js_insert_Permutation x l : js_insert x l ≡ₚ x :: l.
Proof.
  induction l as [|y l IH]; simpl; [done|].
  destruct (cmp x y); [done|done|]. rewrite IH. constructor.
Qed.

Lemma js_sort_Permutation l : js_sort l ≡ₚ l.
Proof.
  induction l as [|x l IH]; simpl; [done|]. by rewrite js_insert_Permutation, IH.
Qed.

Lemma elem_of_js_sort x l : x ∈ js_sort l ↔ x ∈ l.
Proof. by rewrite js_sort_Permutation. Qed.

Lemma length_js_sort l : length (js_sort l) = length l.
Proof. by rewrite js_sort_Permutation. Qed.

Lemma NoDup_js_sort l : NoDup (js_sort l) ↔ NoDup l.
Proof. by rewrite js_sort_Permutation. Qed.

Lemma js_insert_le x l : Forall (cmp_le x) l → js_insert x l = x :: l.
Proof. destruct l as [|y l]; simpl; [done|]. intros [H _]%Forall_cons. unfold cmp_le in H. by destruct (cmp x y). Qed.

Lemma js_sort_id l : StronglySorted cmp_le l → js_sort l = l.
Proof.
  induction 1 as [|x l Hs IH Hx]; simpl; [done|]. by rewrite IH, js_insert_le.
Qed.

Context `{!CmpOk cmp}.

#[local] Instance cmp_le_trans : Transitive cmp_le.
Proof. intros x y z. apply cmp_trans. Qed.

Lemma cmp_gt_le x y : cmp x y = Gt → cmp_le y x.
Proof. intros H. unfold cmp_le. by rewrite (cmp_antisym x y), H. Qed.

Lemma js_insert_sorted x l :
  StronglySorted cmp_le l → StronglySorted cmp_le (js_insert x l).
Proof.
  induction 1 as [|y l Hs IH Hy]; simpl; [by repeat constructor|].
  destruct (cmp x y) eqn:E.
  - assert (cmp_le x y) by (unfold cmp_le; congruence).
    constructor; [by constructor|]. constructor; [done|].
    eapply Forall_impl; [exact Hy|]. intros z ?. by trans y.
  - assert (cmp_le x y) by (unfold cmp_le; congruence).
    constructor; [by constructor|]. constructor; [done|].
    eapply Forall_impl; [exact Hy|]. intros z ?. by trans y.
  - constructor; [done|]. rewrite js_insert_Permutation. constructor; [|done].
    by apply cmp_gt_le.
Qed.

Lemma js_sort_sorted l : StronglySorted cmp_le (js_sort l).
Proof. induction l; simpl; [constructor|by apply js_insert_sorted]. Qed.

Lemma js_sort_idemp l : js_sort (js_sort l) = js_sort l.
Proof. apply js_sort_id, js_sort_sorted. Qed.

(** The sort is stable: equal elements stay in the order of the input. *)
Lemma js_sort_stable k l :
  filter (λ y, cmp k y = Eq) (js_sort l) = filter (λ y, cmp k y = Eq) l.
Proof.
  assert (∀ x m, filter (λ y, cmp k y = Eq) (js_insert x m) =
                 filter (λ y, cmp k y = Eq) (x :: m)) as Hins.
  { intros x m. induction m as [|y m IH]; simpl; [done|].
    destruct (cmp x y) eqn:E; simpl; [done|done|].
    rewrite filter_cons, IH, filter_cons, (filter_cons _ x), (filter_cons _ y).
    repeat case_decide; try done. exfalso.
    rewrite <- (cmp_eq_trans cmp k x y) in E by done. congruence. }
  induction l as [|x l IH]; simpl; [done|].
  rewrite Hins, !filter_cons. by rewrite IH.
Qed.
End sort.

(** A comparator that separates different values sorts a list to the same
    result whatever the order the values arrive in. *)
Lemma js_sort_unique {A} (cmp : A → A → comparison) `{!CmpStrict cmp} l1 l2 :
  l1 ≡ₚ l2 → js_sort cmp l1 = js_sort cmp l2.
Proof.
  intros Hp.
  assert (AntiSymm (=) (cmp_le cmp)).
  { intros x y H1 H2. apply (cmp_eq (cmp:=cmp)). unfold cmp_le in *.
    rewrite (cmp_antisym (cmp:=cmp) x y) in H2. by destruct (cmp x y). }
  eapply (StronglySorted_unique (cmp_le cmp)).
  - apply js_sort_sorted, _.
  - apply js_sort_sorted, _.
  - by rewrite !js_sort_Permutation.
Qed.

(** ** [Set]: membership, [add], and iteration in insertion order *)

Section js_set.
Context {A : Type} `{EqDecision A}.

Definition set_add (s : list A) (x : A) : list A :=
  if bool_decide (x ∈ s) then s else s ++ [x].

(** [new Set(xs)] *)
Definition set_of (xs : list A) : list A := foldl set_add [] xs.

Lemma elem_of_set_add x y s : y ∈ set_add s x ↔ y ∈ s ∨ y = x.
Proof. unfold set_add. case_bool_decide; set_solver. Qed.

Lemma NoDup_set_add x s : NoDup s → NoDup (set_add s x).
Proof.
  intros Hs. unfold set_add. case_bool_decide; [done|].
  apply NoDup_app. split; [done|]. split; [set_solver|apply NoDup_singleton].
Qed.

Lemma elem_of_foldl_set_add xs s y : y ∈ foldl set_add s xs ↔ y ∈ s ∨ y ∈ xs.
Proof.
  revert s; induction xs as [|x xs IH]; intros s; simpl; [set_solver|].
  rewrite IH, elem_of_set_add. set_solver.
Qed.

Lemma NoDup_foldl_set_add xs s : NoDup s → NoDup (foldl set_add s xs).
Proof.
  revert s; induction xs as [|x xs IH]; intros s Hs; simpl; [done|].
  by apply IH, NoDup_set_add.
Qed.

Lemma elem_of_set_of xs y : y ∈ set_of xs ↔ y ∈ xs.
Proof. unfold set_of. rewrite elem_of_foldl_set_add. set_solver. Qed.

Lemma NoDup_set_of xs : NoDup (set_of xs).
Proof. apply NoDup_foldl_set_add, NoDup_nil_2. Qed.

Lemma foldl_set_add_disjoint s xs :
  NoDup (s ++ xs) → foldl set_add s xs = s ++ xs.
Proof.
  revert s; induction xs as [|x xs IH]; intros s Hs; simpl; [by rewrite app_nil_r|].
  unfold set_add. rewrite bool_decide_eq_false_2.
  - rewrite IH; [by rewrite <- app_assoc|]. by rewrite <- app_assoc.
  - apply NoDup_app in Hs as (_ & Hs & _). set_solver.
Qed.

Lemma set_of_NoDup xs : NoDup xs → set_of xs = xs.
Proof. intros. by apply (foldl_set_add_disjoint []). Qed.
End js_set.

#[export] Hint Resolve NoDup_set_of NoDup_set_add : js.
#[export] Hint Rewrite @elem_of_set_of @elem_of_set_add @elem_of_js_sort
@length_js_sort : js_rw.

Lemma length_omap_le {A B} (f : A → option B) l : (length (omap f l) ≤ length l)%nat.
Proof.
  unfold omap. induction l as [|x l IH]; simpl; [done|]. destruct (f x); simpl; lia.
Qed.

(** ** Arrays of records looked up and replaced by a key *)

Section keyed.
Context {A : Type} (key : A → string).

(** [xs.find((x) => key(x) === k)] *)
Definition find_by (k : string) (xs : list A) : option A :=
  head (filter (λ x, key x = k) xs).

(** [xs.map((x) => key(x) === k ? v : x)] *)
Definition replace_by (k : string) (v : A) (xs : list A) : list A :=
  (λ x, if bool_decide (key x = k) then v else x) <$> xs.

Lemma find_by_Some k xs x : find_by k xs = Some x → x ∈ xs ∧ key x = k.
Proof.
  unfold find_by. intros H.
  assert (x ∈ filter (λ x, key x = k) xs) as Hin.
  { destruct (filter _ xs); simplify_eq/=. constructor. }
  apply list_elem_of_filter in Hin. naive_solver.
Qed.

Lemma find_by_None k xs : find_by k xs = None ↔ ∀ x, x ∈ xs → key x ≠ k.
Proof.
  unfold find_by. split.
  - intros H x Hx Hk. assert (x ∈ filter (λ x, key x = k) xs) as Hin.
    { by apply list_elem_of_filter. }
    destruct (filter _ xs); [by apply not_elem_of_nil in Hin|done].
  - intros H. destruct (filter _ xs) as [|x l] eqn:E; [done|].
    assert (x ∈ filter (λ x, key x = k) xs) as Hin by (rewrite E; constructor).
    apply list_elem_of_filter in Hin as [? ?]. naive_solver.
Qed.

Lemma replace_by_keys k v xs :
  key v = k → key <$> replace_by k v xs = key <$> xs.
Proof.
  intros Hv. unfold replace_by. rewrite <- list_fmap_compose.
  apply list_fmap_ext. intros i x _. simpl. by case_bool_decide; subst.
Qed.

Lemma elem_of_replace_by k v xs x :
  x ∈ replace_by k v xs → x = v ∨ (x ∈ xs ∧ key x ≠ k).
Proof.
  unfold replace_by. intros (y & -> & Hy)%list_elem_of_fmap.
  case_bool_decide; naive_solver.
Qed.

Lemma elem_of_replace_by_eq k v xs :
  k ∈ key <$> xs → v ∈ replace_by k v xs.
Proof.
  intros (y & -> & Hy)%list_elem_of_fmap. unfold replace_by.
  apply list_elem_of_fmap. exists y. by rewrite bool_decide_eq_true_2.
Qed.

Lemma elem_of_replace_by_ne k v xs x :
  x ∈ xs → key x ≠ k → x ∈ replace_by k v xs.
Proof.
  intros Hx Hk. unfold replace_by. apply list_elem_of_fmap. exists x.
  by rewrite bool_decide_eq_false_2.
Qed.

Lemma find_by_cons k x xs :
  find_by k (x :: xs) = if bool_decide (key x = k) then Some x else find_by k xs.
Proof. unfold find_by. rewrite filter_cons. case_decide; case_bool_decide; done. Qed.

Lemma find_by_app k xs ys :
  find_by k (xs ++ ys) = match find_by k xs with Some x => Some x | None => find_by k ys end.
Proof.
  induction xs as [|x xs IH]; [done|]. rewrite <- app_comm_cons, !find_by_cons, IH.
  by case_bool_decide.
Qed.

Lemma find_by_replace_by_ne k k' v xs :
  key v = k' → k ≠ k' → find_by k (replace_by k' v xs) = find_by k xs.
Proof.
  intros Hv Hk. induction xs as [|x xs IH]; [done|].
  change (replace_by k' v (x :: xs))
    with ((if bool_decide (key x = k') then v else x) :: replace_by k' v xs).
  rewrite !find_by_cons, IH. repeat case_bool_decide; congruence.
Qed.

Lemma find_by_replace_by_eq k v xs :
  key v = k → is_Some (find_by k xs) → find_by k (replace_by k v xs) = Some v.
Proof.
  intros Hv. induction xs as [|x xs IH]; [by intros [? ?]|].
  change (replace_by k v (x :: xs))
    with ((if bool_decide (key x = k) then v else x) :: replace_by k v xs).
  rewrite !find_by_cons. repeat case_bool_decide; try congruence. apply IH.
Qed.

Lemma find_by_unique k xs x :
  NoDup (key <$> xs) → x ∈ xs → key x = k → find_by k xs = Some x.
Proof.
  intros Hnd Hx Hk. destruct (find_by k xs) as [y|] eqn:E.
  - apply find_by_Some in E as [Hy Hky]. f_equal.
    apply list_elem_of_lookup in Hx as [i Hi], Hy as [j Hj].
    assert (i = j) as ->; [|congruence].
    eapply (NoDup_lookup (key <$> xs) i j k); [done| |];
      rewrite list_lookup_fmap; [by rewrite Hi; simpl; f_equal|].
    by rewrite Hj; simpl; f_equal.
  - by rewrite find_by_None in E; apply E in Hx.
Qed.
End keyed.

(** ** Sorting by a key *)

Lemma StronglySorted_on {A B} (f : A → B) (cmp : B → B → comparison) l :
StronglySorted (cmp_le (cmp_on f cmp)) l ↔ StronglySorted (cmp_le cmp) (f <$> l).
Proof.
  split; induction l as [|x l IH]; simpl; try by constructor.
  - intros [Hx Hs]%StronglySorted_cons. constructor; [by apply IH|by apply Forall_fmap].
  - intros [Hx Hs]%StronglySorted_cons. constructor; [by apply IH|].
    by apply (proj1 (Forall_fmap _ _ _)) in Hx.
Qed.

(** Replacing elements of a sorted array without changing their keys leaves it
    sorted, so that sorting it again moves nothing. *)
Lemma js_sort_same_keys {A B} (f : A → B) (cmp : B → B → comparison) l l' :
StronglySorted (cmp_le (cmp_on f cmp)) l → f <$> l' = f <$> l →
  js_sort (cmp_on f cmp) l' = l'.
Proof.
  intros Hs Hk. apply js_sort_id, StronglySorted_on. rewrite Hk.
  exact (proj1 (StronglySorted_on _ _ _) Hs).
Qed.

Lemma seqZ_sorted i n : StronglySorted (cmp_le Z.compare) (seqZ i (Z.of_nat n)).
Proof.
  revert i; induction n as [|n IH]; intros i; [by rewrite seqZ_nil by lia; constructor|].
  rewrite seqZ_cons by lia. replace (Z.pred (Z.of_nat (S n))) with (Z.of_nat n) by lia.
  constructor; [apply IH|]. apply Forall_forall. intros x Hx%elem_of_seqZ.
  unfold cmp_le. rewrite Z.compare_gt_iff. lia.
Qed.

(** ** [Map] with string keys: its entries in insertion order

    Setting a key that is present keeps its place. *)

Section js_map.
Context {A : Type}.
Implicit Types m : list (string * A).

Definition map_get (k : string) m : option A := snd <$> find_by fst k m.

(** [map.set(k, v)] *)
Definition map_set (k : string) (v : A) m : list (string * A) :=
  match find_by fst k m with
  | Some _ => replace_by fst k (k, v) m
  | None => m ++ [(k, v)]
  end.

Definition map_delete (k : string) m : list (string * A) := filter (λ p, p.1 ≠ k) m.

Definition map_has (k : string) m : bool := bool_decide (is_Some (map_get k m)).

Lemma map_get_nil k : map_get k [] = None.
Proof. done. Qed.

Lemma map_get_set k k' v m : map_get k (map_set k' v m) = if bool_decide (k = k') then Some v else map_get k m.
Proof.
  unfold map_get, map_set. destruct (find_by fst k' m) as [p|] eqn:E; case_bool_decide as Hk.
  - subst k'. rewrite find_by_replace_by_eq; [done|done|by eexists].
  - by rewrite find_by_replace_by_ne.
  - subst k'. by rewrite find_by_app, E, find_by_cons, bool_decide_eq_true_2.
  - rewrite find_by_app, find_by_cons, bool_decide_eq_false_2 by (simpl; congruence).
    by destruct (find_by fst k m).
Qed.

Lemma map_get_delete k k' m : map_get k (map_delete k' m) = if bool_decide (k = k') then None else map_get k m.
Proof.
  unfold map_delete. induction m as [|[k0 v] m IH]; [by case_bool_decide|].
  rewrite filter_cons. unfold map_get in *. rewrite (find_by_cons fst k). cbn [fst snd].
  destruct (decide (k0 ≠ k')) as [Hd|Hd]; rewrite ?find_by_cons; cbn [fst].
  - destruct (decide (k0 = k)) as [->|Hk]; [|rewrite !(bool_decide_eq_false_2 (k0 = k)) by done; exact IH].
    by rewrite (bool_decide_eq_true_2 (k = k)), (bool_decide_eq_false_2 (k = k')) by done.
  - apply dec_stable in Hd as ->. rewrite IH. destruct (decide (k = k')) as [->|Hk].
    + by rewrite !bool_decide_eq_true_2.
    + by rewrite !bool_decide_eq_false_2 by congruence.
Qed.

Lemma map_get_elem k v m : map_get k m = Some v → (k, v) ∈ m.
Proof.
  unfold map_get. intros ([k' v'] & E & ->)%fmap_Some. apply find_by_Some in E as [Hin Ek].
  simpl in *. by subst.
Qed.

Lemma map_get_unique k v m : NoDup m.*1 → (k, v) ∈ m → map_get k m = Some v.
Proof. intros Hnd Hin. unfold map_get. by rewrite (find_by_unique fst k m (k, v)). Qed.

Lemma map_get_None k m : map_get k m = None ↔ k ∉ m.*1.
Proof.
  unfold map_get. rewrite fmap_None, find_by_None. split.
  - intros H Hk. apply list_elem_of_fmap in Hk as (p & -> & Hp). by apply (H p).
  - intros Hn p Hp <-. apply Hn. by apply list_elem_of_fmap_2.
Qed.

Lemma map_get_is_Some k m : is_Some (map_get k m) ↔ k ∈ m.*1.
Proof.
  rewrite <- not_eq_None_Some, map_get_None. split; [apply dec_stable|tauto].
Qed.

Lemma map_set_keys k v m : (map_set k v m).*1 = if map_has k m then m.*1 else m.*1 ++ [k].
Proof.
  unfold map_has, map_set, map_get. destruct (find_by fst k m) as [p|] eqn:E; simpl.
  - by apply replace_by_keys.
  - by rewrite fmap_app.
Qed.

Lemma map_set_NoDup k v m : NoDup m.*1 → NoDup (map_set k v m).*1.
Proof.
  intros Hnd. rewrite map_set_keys. unfold map_has. case_bool_decide as Hk; [done|].
  apply NoDup_app. split_all; [done| |by apply NoDup_singleton].
  intros x Hx ->%list_elem_of_singleton. apply Hk. by apply map_get_is_Some.
Qed.

Lemma map_set_length k v m : (length (map_set k v m) ≤ S (length m))%nat.
Proof.
  unfold map_set. destruct (find_by fst k m); [unfold replace_by; rewrite length_fmap; lia|].
  rewrite length_app. simpl. lia.
Qed.

Lemma map_set_length_has k v m : is_Some (map_get k m) → length (map_set k v m) = length m.
Proof.
  unfold map_get, map_set. intros [w Hw]. destruct (find_by fst k m); [|done].
  unfold replace_by. by rewrite length_fmap.
Qed.

Lemma map_delete_length k m : (length (map_delete k m) ≤ length m)%nat.
Proof. apply length_filter. Qed.
End js_map.
