(* ===== verification/JsString.v ===== *)
(** * JavaScript string operations

    Strings are sequences of UTF-16 code units restricted to the code units
    below 256; the operations the components use on them. *)

From S2P Require Import Prelude.
From Stdlib Require Import Ascii.

(** White space of [String.prototype.trim]: TAB, LF, VT, FF, CR, SP and NBSP. *)
Definition is_space (c : ascii) : bool :=
  let n := nat_of_ascii c in
  bool_decide (n ∈ [9; 10; 11; 12; 13; 32; 160]%nat).

Fixpoint trim_start (s : string) : string :=
  match s with
  | String c r => if is_space c then trim_start r else s
  | EmptyString => EmptyString
  end.

Fixpoint trim_end (s : string) : string :=
  match s with
  | EmptyString => EmptyString
  | String c r =>
      match trim_end r with
      | EmptyString => if is_space c then EmptyString else String c EmptyString
      | r' => String c r'
      end
  end.

Definition trim (s : string) : string := trim_end (trim_start s).

(** [s.trim().length === 0] *)
Definition is_blank (s : string) : bool := bool_decide (trim s = "").

(** [s.startsWith(p)], giving the rest. *)
Fixpoint strip_prefix (p s : string) : option string :=
  match p, s with
  | EmptyString, _ => Some s
  | String a p', String b s' => if Ascii.eqb a b then strip_prefix p' s' else None
  | String _ _, EmptyString => None
  end.

(** [s.endsWith(p)], giving the part before it. *)
Fixpoint strip_suffix (p s : string) : option string :=
  if bool_decide (s = p) then Some ""
  else match s with
       | EmptyString => None
       | String c r => String c <$> strip_suffix p r
       end.

Definition starts_with (p s : string) : bool := bool_decide (is_Some (strip_prefix p s)).

(** [s.includes(p)] *)
Fixpoint includes (p s : string) : bool :=
  starts_with p s ||
  match s with EmptyString => false | String _ r => includes p r end.

(** [s.split(c)] for a one-character separator. *)
Fixpoint split_on (c : ascii) (s : string) : list string :=
  match s with
  | EmptyString => [""]
  | String a r =>
      if Ascii.eqb a c then "" :: split_on c r
      else match split_on c r with
           | x :: xs => String a x :: xs
           | [] => [String a ""]
           end
  end.

(** [xs.join(sep)] *)
Fixpoint join (sep : string) (xs : list string) : string :=
  match xs with
  | [] => ""
  | [x] => x
  | x :: r => x +:+ sep +:+ join sep r
  end.

(** Whether a regular expression's [.+] matches the whole string: it is not
    empty and has no line terminator (LF, CR). *)
Fixpoint no_line_terminator (s : string) : bool :=
  match s with
  | EmptyString => true
  | String c r =>
      negb (bool_decide (nat_of_ascii c ∈ [10; 13]%nat)) && no_line_terminator r
  end.

Definition dot_plus (s : string) : bool :=
  negb (bool_decide (s = "")) && no_line_terminator s.

(** The character [c] occurs in [s]. *)
Fixpoint has_char (c : ascii) (s : string) : bool :=
  match s with EmptyString => false | String a r => Ascii.eqb a c || has_char c r end.

(** [/^[0-9a-f]{64}$/] *)
Definition is_hex_digit (c : ascii) : bool :=
  let n := nat_of_ascii c in
  ((48 <=? n) && (n <=? 57) || (97 <=? n) && (n <=? 102))%nat.

Fixpoint all_chars (p : ascii → bool) (s : string) : bool :=
  match s with EmptyString => true | String c r => p c && all_chars p r end.

Definition isHex64 (value : string) : bool :=
  (String.length value =? 64)%nat && all_chars is_hex_digit value.

(** [s.toLowerCase()] *)
Definition lower_char (c : ascii) : ascii :=
  let n := nat_of_ascii c in
  if ((65 <=? n) && (n <=? 90) || (192 <=? n) && (n <=? 222) && negb (n =? 215))%nat
  then ascii_of_nat (n + 32) else c.

Fixpoint to_lower (s : string) : string :=
  match s with EmptyString => EmptyString | String c r => String (lower_char c) (to_lower r) end.

(** [Buffer.byteLength(s, "utf8")]; code units are below 256. *)
Fixpoint utf8_length (s : string) : Z :=
  match s with
  | EmptyString => 0
  | String c r => (if (nat_of_ascii c <? 128)%nat then 1 else 2) + utf8_length r
  end.

(** [\d] *)
Definition is_decimal_digit (c : ascii) : bool :=
  let n := nat_of_ascii c in ((48 <=? n) && (n <=? 57))%nat.

(** The rest of a string after one character of each class. *)
Fixpoint match_classes (classes : list (ascii → bool)) (s : string) : option string :=
  match classes, s with
  | [], _ => Some s
  | p :: classes', String c r => if p c then match_classes classes' r else None
  | _ :: _, EmptyString => None
  end.

Definition lit (c : ascii) : ascii → bool := Ascii.eqb c.

(** [\d{4}-\d{2}-\d{2}T\d{2}:\d{2}:\d{2}] *)
Definition date_time_classes : list (ascii → bool) :=
  let d := is_decimal_digit in
  [d; d; d; d; lit "-"; d; d; lit "-"; d; d;
   lit "T"; d; d; lit ":"; d; d; lit ":"; d; d].

Lemma strip_prefix_Some p s r : strip_prefix p s = Some r ↔ s = p +:+ r.
Proof.
  revert s; induction p as [|a p IH]; intros s; simpl.
  { split; [by intros [= ->]|by intros ->]. }
  destruct s as [|b s]; [done|].
  destruct (Ascii.eqb_spec a b) as [->|Hne].
  - rewrite IH. split; [by intros ->|by intros [= ->]].
  - split; [done|]. by intros [= -> _].
Qed.

Lemma strip_suffix_Some p s r : strip_suffix p s = Some r → s = r +:+ p.
Proof.
  revert r; induction s as [|c s IH]; intros r; simpl; case_bool_decide as E.
  - by intros [= <-].
  - done.
  - by intros [= <-].
  - intros (r' & E' & ->)%fmap_Some_1. by apply (f_equal (String c)), IH.
Qed.

Lemma string_app_assoc (a b c : string) : (a +:+ b) +:+ c = a +:+ (b +:+ c).
Proof. induction a as [|x a IH]; simpl; [done|]. by apply (f_equal (String x)). Qed.

Lemma string_app_inj_l (a b c : string) : a +:+ b = a +:+ c → b = c.
Proof. induction a as [|x a IH]; simpl; [done|]. intros [=]. by apply IH. Qed.

(** A separator that occurs in neither first part determines the split. *)
Lemma app_sep_inj c (a1 a2 b1 b2 : string) :
  has_char c a1 = false → has_char c a2 = false →
  a1 +:+ String c b1 = a2 +:+ String c b2 → a1 = a2 ∧ b1 = b2.
Proof.
  revert a2; induction a1 as [|x a1 IH]; intros [|y a2]; simpl.
  - intros _ _ [= ->]. done.
  - intros _ H [= -> _]. by rewrite Ascii.eqb_refl in H.
  - intros H _ [= -> _]. by rewrite Ascii.eqb_refl in H.
  - intros [_ H1]%orb_false_elim [_ H2]%orb_false_elim [= -> E].
    destruct (IH a2 H1 H2 E) as [-> ->]. done.
Qed.

Lemma length_string_app (a b : string) :
  String.length (a +:+ b) = (String.length a + String.length b)%nat.
Proof. induction a as [|x a IH]; simpl; [done|]. by rewrite IH. Qed.

Lemma string_app_inj_r (a b c : string) : a +:+ c = b +:+ c → a = b.
Proof.
  revert b; induction a as [|x a IH]; intros [|y b]; simpl; [done| | |].
  - intros E. apply (f_equal String.length) in E. rewrite !length_string_app in E. simpl in E. lia.
  - intros E. apply (f_equal String.length) in E. rewrite !length_string_app in E. simpl in E. lia.
  - intros [= -> E]. f_equal. by apply IH.
Qed.
