(* ===== verification/JsValue.v ===== *)
(** * JavaScript numbers and parsed JSON values

    [jsnum] is the value of a JavaScript number as the components observe it:
    finite numbers are exact rationals (comparisons, [Number.isInteger],
    [Number.isSafeInteger] and [Math.floor] are exact on them), and the three
    non-finite values are kept apart because the validators test for them. The
    operations of [Math] and [+] on them are at the end; [Double] has the operators
    as a double computes them, each result rounded ([+] at the end is exact).
    [json] is the result of [JSON.parse]. *)

From Stdlib Require Import Qabs.
From S2P Require Import Prelude JsList.

Inductive jsnum : Type :=
| NaN
| PosInf
| NegInf
| Fin (q : Q).

Definition num (z : Z) : jsnum := Fin (inject_Z z).

Module Number.
Definition q_is_integer (q : Q) : bool := Qeq_bool q (inject_Z (Qfloor q)).

Definition MAX_SAFE_INTEGER : Z := 2 ^ 53 - 1.

Definition isFinite (n : jsnum) : bool :=
  match n with Fin _ => true | _ => false end.

Definition isInteger (n : jsnum) : bool :=
  match n with Fin q => q_is_integer q | _ => false end.

Definition isSafeInteger (n : jsnum) : bool :=
  match n with
  | Fin q => q_is_integer q && (Z.abs (Qfloor q) <=? MAX_SAFE_INTEGER)
  | _ => false
  end.

(** [a <= b] and [a < b]: false as soon as one side is [NaN]. *)
Definition leb (a b : jsnum) : bool :=
  match a, b with
  | NaN, _ | _, NaN => false
  | NegInf, _ | _, PosInf => true
  | _, NegInf | PosInf, _ => false
  | Fin p, Fin q => Qle_bool p q
  end.

Definition eqb (a b : jsnum) : bool := leb a b && leb b a.

Definition ltb (a b : jsnum) : bool := leb a b && negb (leb b a).

(** [Math.floor] on a finite number. *)
Definition floor (n : jsnum) : jsnum :=
  match n with Fin q => num (Qfloor q) | _ => n end.

Lemma q_is_integer_inject z : q_is_integer (inject_Z z) = true.
Proof. unfold q_is_integer. rewrite Qfloor_Z. apply Qeq_bool_iff. reflexivity. Qed.

Lemma isInteger_num z : isInteger (num z) = true.
Proof. apply q_is_integer_inject. Qed.

Lemma isSafeInteger_num z :
  isSafeInteger (num z) = (Z.abs z <=? MAX_SAFE_INTEGER).
Proof. unfold isSafeInteger, num. by rewrite q_is_integer_inject, Qfloor_Z. Qed.

Lemma leb_num a b : leb (num a) (num b) = (a <=? b).
Proof. simpl. unfold Qle_bool, inject_Z. simpl. by rewrite !Z.mul_1_r. Qed.

Lemma ltb_num a b : ltb (num a) (num b) = (a <? b).
Proof.
  unfold ltb. rewrite !leb_num. destruct (Z.leb_spec a b), (Z.leb_spec b a), (Z.ltb_spec a b);
    simpl; try done; lia.
Qed.

Lemma eqb_num a b : eqb (num a) (num b) = (a =? b).
Proof.
  unfold eqb. rewrite !leb_num. destruct (Z.leb_spec a b), (Z.leb_spec b a), (Z.eqb_spec a b);
    simpl; try done; lia.
Qed.

Lemma ltb_Fin p q : ltb (Fin p) (Fin q) = true ↔ (p < q)%Q.
Proof.
  unfold ltb. simpl. rewrite andb_true_iff, negb_true_iff. split.
  - intros [_ Hq]. apply Qnot_le_lt. intros Hle%Qle_bool_iff. congruence.
  - intros Hlt. split; [by apply Qle_bool_iff, Qlt_le_weak|].
    apply not_true_iff_false. by intros ?%Qle_bool_iff%Qle_not_lt.
Qed.

Lemma ltb_Fin_false p q : ltb (Fin p) (Fin q) = false ↔ (q <= p)%Q.
Proof.
  rewrite <- not_true_iff_false, ltb_Fin. split; [apply Qnot_lt_le|apply Qle_not_lt].
Qed.

(** An integer above 0 is at least 1. *)
Lemma positive_integer q : q_is_integer q = true → (0 < q)%Q → 1 <= Qfloor q.
Proof.
  unfold q_is_integer. intros Hq%Qeq_bool_iff Hpos. rewrite Hq in Hpos.
  change 0%Q with (inject_Z 0) in Hpos. rewrite <- Zlt_Qlt in Hpos. lia.
Qed.

Lemma isFinite_inv n : isFinite n = true → ∃ q, n = Fin q.
Proof. destruct n; naive_solver. Qed.
End Number.

#[export] Hint Rewrite Number.isInteger_num Number.isSafeInteger_num
Number.leb_num Number.ltb_num Number.eqb_num : js_rw.

(** ** Parsed JSON

    A JSON number is finite. Property order is kept, and a key occurs once in
    an object the development builds. *)
Inductive json : Type :=
| JNull
| JBool (b : bool)
| JNumber (q : Q)
| JString (s : string)
| JArray (l : list json)
| JObject (fields : list (string * json)).

Module Json.
(** [value[k]] on an object; [None] is [undefined]. *)
Fixpoint get (k : string) (fields : list (string * json)) : option json :=
  match fields with
  | [] => None
  | (k', v) :: r => if String.eqb k k' then Some v else get k r
  end.

(** [typeof v === "string"] and the like on an optional property. *)
Definition is_string (v : option json) : bool :=
  match v with Some (JString _) => true | _ => false end.
Definition is_number (v : option json) : bool :=
  match v with Some (JNumber _) => true | _ => false end.
Definition is_bool (v : option json) : bool :=
  match v with Some (JBool _) => true | _ => false end.
Definition is_integer (v : option json) : bool :=
  match v with Some (JNumber q) => Number.q_is_integer q | _ => false end.

(** [v === s] for a string literal [s]. *)
Definition eq_string (v : option json) (s : string) : bool :=
  match v with Some (JString s') => bool_decide (s' = s) | _ => false end.

Definition isRecord (v : json) : bool :=
  match v with JObject _ => true | _ => false end.

Definition jint (z : Z) : json := JNumber (inject_Z z).

Lemma get_app k f1 f2 :
  get k (f1 ++ f2) = match get k f1 with Some v => Some v | None => get k f2 end.
Proof. induction f1 as [|[k' v] f1 IH]; simpl; [done|]. by destruct (String.eqb k k'). Qed.

(** An object literal some of whose properties may be absent, as a spread
    [...(x !== undefined ? { k: x } : {})] leaves them. *)
Fixpoint literal (fields : list (string * option json)) : list (string * json) :=
  match fields with
  | [] => []
  | (k, Some v) :: r => (k, v) :: literal r
  | (_, None) :: r => literal r
  end.

Fixpoint literal_get (k : string) (fields : list (string * option json)) : option json :=
  match fields with
  | [] => None
  | (k', o) :: r =>
      if String.eqb k k' then match o with Some v => Some v | None => literal_get k r end
      else literal_get k r
  end.

Lemma get_literal k fields : get k (literal fields) = literal_get k fields.
Proof.
  induction fields as [|[k' [v|]] r IH]; simpl; [done|..].
  - by rewrite IH.
  - rewrite IH. by destruct (String.eqb k k').
Qed.
End Json.

(** ** Arithmetic *)

(** [Math.min], [Math.max(0, n)], [Math.trunc] and [+] on numbers. *)
Definition js_min (a b : jsnum) : jsnum :=
  match a, b with NaN, _ | _, NaN => NaN | _, _ => if Number.leb a b then a else b end.
Definition max_zero (n : jsnum) : jsnum :=
  match n with NaN => NaN | _ => if Number.leb (num 0) n then n else num 0 end.
Definition trunc (n : jsnum) : jsnum :=
  match n with Fin q => if Qle_bool 0 q then num (Qfloor q) else num (Qceiling q) | _ => n end.
Definition js_plus (a b : jsnum) : jsnum :=
  match a, b with
  | NaN, _ | _, NaN | PosInf, NegInf | NegInf, PosInf => NaN
  | PosInf, _ | _, PosInf => PosInf
  | NegInf, _ | _, NegInf => NegInf
  | Fin p, Fin q => Fin (Qred (p + q))
  end.

(** What [JSON.stringify] writes for a number. *)
Definition json_of_number (n : jsnum) : json := match n with Fin q => JNumber q | _ => JNull end.

(** ** Doubles *)

Module Double.
Definition pow2 (k : Z) : Q := if 0 <=? k then inject_Z (2 ^ k) else / inject_Z (2 ^ (- k)).

(** The nearest integer, a tie to the even one. *)
Definition round_half_even (q : Q) : Z :=
  let f := Qfloor q in
  match Qcompare (q - inject_Z f) (1 # 2) with
  | Lt => f
  | Gt => f + 1
  | Eq => if Z.even f then f else f + 1
  end.

(** The exponent of the last bit of the significand of a number that is not 0:
    [2 ^ e <= |q| < 2 ^ (e + 1)] has 52 bits below [e], but no bit below [2 ^ -1074]. *)
Definition last_bit (q : Q) : Z :=
  let e := Z.log2 (Z.abs (Qnum q)) - Z.log2 (Zpos (Qden q)) in
  let e := if Qle_bool (pow2 e) (Qabs q) then e else e - 1 in
  Z.max (e - 52) (- 1074).

(** The double nearest to a rational; from [2 ^ 1024] on, an infinity. The two zeros are
    one. *)
Definition round (q : Q) : jsnum :=
  if Qeq_bool q 0 then num 0
  else
    let unit := pow2 (last_bit q) in
    let r := Qred (inject_Z (round_half_even (q / unit)) * unit) in
    if Qle_bool (pow2 1024) (Qabs r) then (if Qle_bool 0 q then PosInf else NegInf) else Fin r.

Definition opp (a : jsnum) : jsnum :=
  match a with NaN => NaN | PosInf => NegInf | NegInf => PosInf | Fin q => Fin (Qred (- q)) end.

Definition abs (a : jsnum) : jsnum :=
  match a with NaN => NaN | PosInf | NegInf => PosInf | Fin q => Fin (Qred (Qabs q)) end.

Definition add (a b : jsnum) : jsnum :=
  match a, b with
  | NaN, _ | _, NaN | PosInf, NegInf | NegInf, PosInf => NaN
  | PosInf, _ | _, PosInf => PosInf
  | NegInf, _ | _, NegInf => NegInf
  | Fin p, Fin q => round (p + q)
  end.

Definition sub (a b : jsnum) : jsnum := add a (opp b).

(** An infinity with the sign of the comparison with 0; 0 gives [NaN]. *)
Definition signed_infinity (c : comparison) : jsnum := match c with Lt => NegInf | Gt => PosInf | Eq => NaN end.

Definition sign (a : jsnum) : comparison :=
  match a with PosInf => Gt | NegInf => Lt | Fin q => Qcompare q 0 | NaN => Eq end.

Definition mul (a b : jsnum) : jsnum :=
  match a, b with
  | NaN, _ | _, NaN => NaN
  | Fin p, Fin q => round (p * q)
  | PosInf, x | x, PosInf => signed_infinity (sign x)
  | NegInf, x | x, NegInf => signed_infinity (CompOpp (sign x))
  end.

(** [a / b] for [b] other than 0. *)
Definition div (a b : jsnum) : jsnum :=
  match a, b with
  | NaN, _ | _, NaN => NaN
  | Fin p, Fin q => round (p / q)
  | Fin _, _ => num 0
  | PosInf, Fin q => signed_infinity (sign b)
  | NegInf, Fin q => signed_infinity (CompOpp (sign b))
  | _, _ => NaN
  end.

Definition max (a b : jsnum) : jsnum :=
  match a, b with NaN, _ | _, NaN => NaN | _, _ => if Number.leb a b then b else a end.

End Double.
