(* ===== verification/CanonicalJson.v ===== *)
(** * Canonical JSON

    [canonicalJson] of [packages/security/src/content-hash.ts]: the
    serialization behind every content hash, every persisted artifact and
    [reviewSnapshotsEqual]. [JSON.stringify] is injective on JSON values (and
    [JSON.parse] its inverse), so the text is represented by the value it
    encodes, an object by its properties in enumeration order. *)

From Stdlib Require Import Ascii.
From S2P Require Import Prelude JsString JsList JsValue.

(** ** Property order

    A JavaScript object enumerates its array-index keys first, in numeric
    order, and then its other keys in insertion order. *)

Fixpoint decimal_value (acc : Z) (s : string) : option Z :=
  match s with
  | EmptyString => Some acc
  | String c r =>
      if is_decimal_digit c
      then decimal_value (10 * acc + Z.of_nat (nat_of_ascii c) - 48) r else None
  end.

(** The canonical decimal form of an integer below 2^32 - 1. *)
Definition array_index (k : string) : option Z :=
  match k with
  | EmptyString => None
  | String c r =>
      if Ascii.eqb c "0"%char && negb (bool_decide (r = "")) then None
      else n ← decimal_value 0 k; if n <? 2 ^ 32 - 1 then Some n else None
  end.

Definition is_index (p : string * json) : bool := bool_decide (is_Some (array_index p.1)).

Definition index_cmp (p q : string * json) : comparison :=
  default 0 (array_index p.1) ?= default 0 (array_index q.1).

(** The enumeration order of an object whose properties were created in the
    order of [fields]. *)
Definition own_order (fields : list (string * json)) : list (string * json) :=
  js_sort index_cmp (filter (λ p, is_index p = true) fields)
  ++ filter (λ p, is_index p = false) fields.

Definition PROTO : string := "__proto__".

(** Creating the properties one by one on [{}]: an assignment to [__proto__]
    runs the setter of [Object.prototype] and creates no property. *)
Definition assign_all (fields : list (string * json)) : list (string * json) :=
  own_order (filter (λ p, p.1 ≠ PROTO) fields).

Definition key_cmp : string * json → string * json → comparison := cmp_on fst String.compare.

Fixpoint sortValue (value : json) : json :=
  match value with
  | JArray l => JArray (map sortValue l)
  | JObject fields =>
      JObject (assign_all (js_sort key_cmp (map (λ p, (p.1, sortValue p.2)) fields)))
  | _ => value
  end.

Definition canonicalJson (value : json) : json := sortValue value.

(** The digest [createHash("sha256")] takes of the text of a value, in
    hexadecimal. *)
Class JsonDigest := {
  json_digest : json → string;
  json_digest_isHex64 v : isHex64 (json_digest v) = true;
}.

Definition sha256Hex_json `{JsonDigest} (value : json) : string := json_digest (canonicalJson value).

(** A digest function to evaluate examples with: every text has the digest 00...0. *)
Definition zero_digest : JsonDigest.
Proof.
  refine {| json_digest _ := "0000000000000000000000000000000000000000000000000000000000000000" |}.
  intros v. reflexivity.
Defined.

(** Two different texts with one digest. *)
Definition digest_collision `{JsonDigest} : Prop :=
  ∃ v1 v2 : json, v1 ≠ v2 ∧ json_digest v1 = json_digest v2.

(** The digest of a value that can be read back from its canonical text
    identifies the value, short of a collision. *)
Lemma sha256Hex_json_inj `{JsonDigest} {A} `{EqDecision A} (enc : A → json) (dec : json → option A) x y :
  (∀ z, dec (canonicalJson (enc z)) = Some z) →
  sha256Hex_json (enc x) = sha256Hex_json (enc y) → x = y ∨ digest_collision.
Proof.
  intros Hdec E. destruct (decide (x = y)) as [|Hne]; [by left|]. right.
  exists (canonicalJson (enc x)), (canonicalJson (enc y)). split; [|done].
  intros Ec. apply Hne. assert (Some x = Some y) as [= ->]; [|done]. by rewrite <- !Hdec, Ec.
Qed.

(** ** Induction on JSON values *)

Section json_induction.
Context (P : json → Prop).
Hypothesis Hnull : P JNull.
Hypothesis Hbool : ∀ b, P (JBool b).
Hypothesis Hnumber : ∀ q, P (JNumber q).
Hypothesis Hstring : ∀ s, P (JString s).
Hypothesis Harray : ∀ l, Forall P l → P (JArray l).
Hypothesis Hobject : ∀ fields, Forall (λ p, P p.2) fields → P (JObject fields).

Fixpoint json_nested_ind (v : json) : P v :=
  match v with
  | JNull => Hnull
  | JBool b => Hbool b
  | JNumber q => Hnumber q
  | JString s => Hstring s
  | JArray l =>
      Harray l ((fix go (l : list json) : Forall P l :=
                   match l with
                   | [] => Forall_nil_2 _
                   | x :: r => Forall_cons_2 _ _ _ (json_nested_ind x) (go r)
                   end) l)
  | JObject fields =>
      Hobject fields ((fix go (l : list (string * json)) : Forall (λ p, P p.2) l :=
                         match l with
                         | [] => Forall_nil_2 _
                         | p :: r => Forall_cons_2 (λ p, P p.2) _ _ (json_nested_ind p.2) (go r)
                         end) fields)
  end.
End json_induction.

(** ** Deciding equality *)

Fixpoint json_eqb (a b : json) : bool :=
  match a, b with
  | JNull, JNull => true
  | JBool x, JBool y => Bool.eqb x y
  | JNumber p, JNumber q => (Qnum p =? Qnum q) && (Qden p =? Qden q)%positive
  | JString s, JString t => String.eqb s t
  | JArray l, JArray m =>
      (fix go l m := match l, m with
                     | [], [] => true
                     | x :: l', y :: m' => json_eqb x y && go l' m'
                     | _, _ => false
                     end) l m
  | JObject f, JObject g =>
      (fix go f g := match f, g with
                     | [], [] => true
                     | p :: f', q :: g' => String.eqb p.1 q.1 && json_eqb p.2 q.2 && go f' g'
                     | _, _ => false
                     end) f g
  | _, _ => false
  end.

Lemma json_eqb_eq a b : json_eqb a b = true ↔ a = b.
Proof.
  revert b. induction a as [|x|p|s|l IH|f IH] using json_nested_ind; intros b; destruct b as [|y|q|t|m|g];
    simpl; try done.
  - rewrite eqb_true_iff. naive_solver.
  - rewrite andb_true_iff, Z.eqb_eq, Pos.eqb_eq. destruct p, q; simpl. naive_solver.
  - rewrite String.eqb_eq. naive_solver.
  - revert m. induction IH as [|x l Hx _ IHl]; intros [|y m]; try done.
    rewrite andb_true_iff, Hx, IHl. naive_solver.
  - revert g. induction IH as [|[k x] f Hx _ IHf]; intros [|[k' y] g]; try done. simpl in *.
    rewrite !andb_true_iff, String.eqb_eq, Hx, IHf. naive_solver.
Qed.

#[export] Instance json_eq_dec : EqDecision json.
Proof.
  intros a b. destruct (json_eqb a b) eqn:E; [left; by apply json_eqb_eq|right].
  intros Hab%json_eqb_eq. congruence.
Defined.

(** ** Equality up to property order *)

Inductive json_equiv : json → json → Prop :=
| je_null : json_equiv JNull JNull
| je_bool b : json_equiv (JBool b) (JBool b)
| je_number q : json_equiv (JNumber q) (JNumber q)
| je_string s : json_equiv (JString s) (JString s)
| je_array l1 l2 : Forall2 json_equiv l1 l2 → json_equiv (JArray l1) (JArray l2)
| je_object f1 f2 f2' :
    Forall2 (λ p q, p.1 = q.1 ∧ json_equiv p.2 q.2) f1 f2' → f2' ≡ₚ f2 →
    json_equiv (JObject f1) (JObject f2).

(** What [JSON.parse] and object literals produce: the keys of an object are
    distinct; here also none of them is [__proto__]. *)
Fixpoint plain (v : json) : Prop :=
  match v with
  | JArray l => foldr (λ x R, plain x ∧ R) True l
  | JObject fields =>
      NoDup (fields.*1) ∧ ¬ PROTO ∈ fields.*1 ∧ foldr (λ p R, plain p.2 ∧ R) True fields
  | _ => True
  end.

(** ** Lemmas *)

Lemma foldr_and_Forall {A} (P : A → Prop) l : foldr (λ x R, P x ∧ R) True l ↔ Forall P l.
Proof. induction l as [|x l IH]; simpl; [split; constructor|]. by rewrite Forall_cons, IH. Qed.

Lemma filter_partition {A} (f : A → bool) l :
  filter (λ x, f x = true) l ++ filter (λ x, f x = false) l ≡ₚ l.
Proof.
  induction l as [|x l IH]; simpl; [done|]. rewrite !filter_cons.
  destruct (f x); simpl; [by rewrite IH|]. by rewrite <- Permutation_middle, IH.
Qed.

Lemma own_order_Permutation fields : own_order fields ≡ₚ fields.
Proof. unfold own_order. by rewrite js_sort_Permutation, filter_partition. Qed.

Lemma filter_id {A} (P : A → Prop) `{∀ x, Decision (P x)} l : Forall P l → filter P l = l.
Proof.
  induction 1 as [|x l Hx _ IH]; [done|]. rewrite filter_cons, decide_True by done. by rewrite IH.
Qed.

Lemma filter_none {A} (P : A → Prop) `{∀ x, Decision (P x)} l : (∀ x, ¬ P x) → filter P l = [].
Proof. intros Hn. induction l as [|x l IH]; [done|]. by rewrite filter_cons, decide_False. Qed.

(** Two arrangements of the same elements with the same distinct keys in the
    same order are equal. *)
Lemma Permutation_same_keys {A B} (f : A → B) l1 l2 :
  l1 ≡ₚ l2 → f <$> l1 = f <$> l2 → NoDup (f <$> l1) → l1 = l2.
Proof.
  revert l2; induction l1 as [|x l1 IH]; intros l2 Hp Hk Hnd.
  { by apply Permutation_nil in Hp. }
  destruct l2 as [|y l2]; [done|]. simpl in Hk. injection Hk as Hxy Hk.
  apply NoDup_cons in Hnd as [Hx Hnd].
  assert (x = y) as <-.
  { assert (y ∈ x :: l1) as [->|Hy]%elem_of_cons by (rewrite Hp; by left); [done|].
    destruct Hx. rewrite Hxy. by apply list_elem_of_fmap_2. }
  f_equal. apply IH; [by eapply Permutation_cons_inv|done..].
Qed.

Lemma js_sort_perm_keys {A B} (f : A → B) (cmp : B → B → comparison) `{!CmpStrict cmp} l1 l2 :
  l1 ≡ₚ l2 → NoDup (f <$> l1) → js_sort (cmp_on f cmp) l1 = js_sort (cmp_on f cmp) l2.
Proof.
  intros Hp Hnd. apply (Permutation_same_keys f).
  - by rewrite !js_sort_Permutation.
  - rewrite <- (js_sort_id cmp (f <$> js_sort _ l1)), <- (js_sort_id cmp (f <$> js_sort _ l2)).
    + apply js_sort_unique; [done|]. by rewrite !js_sort_Permutation, Hp.
    + apply (StronglySorted_on f), js_sort_sorted, _.
    + apply (StronglySorted_on f), js_sort_sorted, _.
  - by rewrite js_sort_Permutation.
Qed.

Lemma sortValue_object fields :
  PROTO ∉ (fields.*1) →
  ∃ out, sortValue (JObject fields) = JObject out ∧
         out ≡ₚ map (λ p, (p.1, sortValue p.2)) fields.
Proof.
  intros Hp. eexists. split; [reflexivity|]. unfold assign_all.
  rewrite own_order_Permutation, filter_id, js_sort_Permutation; [done|].
  rewrite js_sort_Permutation. apply Forall_forall. intros [k v] Hin Hk. simpl in Hk. subst k.
  apply list_elem_of_In, in_map_iff in Hin as ([k' v'] & [= -> _] & Hin).
  apply Hp. apply list_elem_of_fmap. exists (PROTO, v'). by rewrite list_elem_of_In.
Qed.

(** Sorting only reorders properties. *)
Lemma sortValue_equiv v : plain v → json_equiv v (sortValue v).
Proof.
  induction v as [| | | |l IH|fields IH] using json_nested_ind; try by constructor.
  - simpl. rewrite foldr_and_Forall. intros Hpl. constructor.
    induction IH as [|x l Hx _ IHl]; simpl; constructor.
    + apply Hx. by inversion Hpl.
    + apply IHl. by inversion Hpl.
  - intros (_ & Hp & Hpl). rewrite (foldr_and_Forall (λ p, plain p.2)) in Hpl.
    destruct (sortValue_object fields Hp) as (out & -> & Hout).
    econstructor; [|symmetry; exact Hout]. clear Hp Hout.
    induction IH as [|x l Hx _ IHl]; simpl; constructor.
    + split; [done|]. apply Hx. by inversion Hpl.
    + apply IHl. by inversion Hpl.
Qed.

(** Values that differ only in property order sort to the same value. *)
Lemma sortValue_canonical v1 v2 : plain v1 → json_equiv v1 v2 → sortValue v1 = sortValue v2.
Proof.
  revert v2; induction v1 as [| | | |l IH|fields IH] using json_nested_ind; intros v2 Hpl He;
    inversion He as [| | | |l1 l2 HF E|f1 f2 f2' HF Hperm E]; subst; try done.
  - simpl. f_equal. simpl in Hpl. rewrite foldr_and_Forall in Hpl. clear He.
    revert IH Hpl. induction HF as [|x y l l' Hxy _ IHl]; intros IH Hpl; simpl; [done|].
    inversion IH; inversion Hpl; subst. f_equal; auto.
  - destruct Hpl as (Hnd & _ & Hpl). rewrite (foldr_and_Forall (λ p, plain p.2)) in Hpl.
    simpl. do 2 f_equal.
    assert (map (λ p, (p.1, sortValue p.2)) fields = map (λ p, (p.1, sortValue p.2)) f2') as Hm.
    { clear He Hperm Hnd. revert IH Hpl.
      induction HF as [|x y l l' [Hk Hxy] _ IHl]; intros IH Hpl; simpl; [done|].
      inversion IH; inversion Hpl; subst. f_equal; [|auto]. f_equal; auto. }
    rewrite Hm. apply js_sort_perm_keys; [apply _|by apply Permutation_map|].
    rewrite <- Hm. change (NoDup (fst <$> ((λ p, (p.1, sortValue p.2)) <$> fields))).
    by rewrite <- list_fmap_compose.
Qed.

(** The canonical text of a parsed canonical text is the same text. *)
Lemma canonicalJson_idemp v : plain v → canonicalJson (canonicalJson v) = canonicalJson v.
Proof. intros Hv. symmetry. apply sortValue_canonical; [done|]. by apply sortValue_equiv. Qed.

#[export] Instance json_equiv_sym : Symmetric json_equiv.
Proof.
  intros v1. induction v1 as [| | | |l IH|fields IH] using json_nested_ind; intros v2 He;
    inversion He as [| | | |l1 l2 HF E|f1 f2 f2' HF Hperm E]; subst; try by constructor.
  - constructor. clear He. revert IH. induction HF as [|x y l l' Hxy _ IHl]; intros IH; constructor.
    + inversion IH; subst. auto.
    + inversion IH; subst. auto.
  - assert (Forall2 (λ p q : string * json, p.1 = q.1 ∧ json_equiv p.2 q.2) f2' fields) as HF'.
    { clear He Hperm. revert IH. induction HF as [|x y l l' [Hk Hxy] _ IHl]; intros IH; constructor.
      - inversion IH; subst. auto.
      - inversion IH; subst. auto. }
    destruct (Permutation_Forall2 Hperm HF') as (f1' & Hp1 & HF1). by econstructor.
Qed.

#[export] Instance json_equiv_trans : Transitive json_equiv.
Proof.
  intros v1. induction v1 as [| | | |l IH|fields IH] using json_nested_ind; intros v2 v3 He1 He2;
    inversion He1 as [| | | |l1 l2 HF1 E|f1 f2 f2' HF1 Hperm1 E]; subst; try done.
  - inversion He2 as [| | | |l2' l3 HF2 E|]; subst. constructor. clear He1 He2.
    revert l3 HF2 IH. induction HF1 as [|x y l l' Hxy _ IHl]; intros l3 HF2 IH;
      inversion HF2; subst; constructor; inversion IH; subst; eauto.
  - inversion He2 as [| | | | |f2'' f3 f3' HF2 Hperm2 E]; subst.
    destruct (Permutation_Forall2 (Permutation_sym Hperm1) HF2) as (f3'' & Hp3 & HF3).
    apply (je_object _ _ f3''); [|by rewrite <- Hp3]. clear He1 He2 HF2 Hperm1 Hperm2 Hp3.
    revert f3'' HF3 IH. induction HF1 as [|x y l l' [Hk Hxy] _ IHl]; intros f3'' HF3 IH;
      inversion HF3 as [|? z ? ? [Hk' Hyz]]; subst; constructor; inversion IH; subst; eauto.
    split; [congruence|eauto].
Qed.

(** ** Reading a sorted object *)

Lemma get_filter k fields :
  Json.get k fields = snd <$> head (filter (λ p, p.1 = k) fields).
Proof.
  induction fields as [|[k' v] r IH]; [done|]. rewrite filter_cons. simpl.
  destruct (String.eqb_spec k k') as [->|Hne]; [by rewrite decide_True|].
  by rewrite decide_False by congruence.
Qed.

Lemma filter_key_sort (cmp : string * json → string * json → comparison) `{!CmpOk cmp} k l :
  (∀ p q, p.1 = q.1 → cmp p q = Eq) →
  filter (λ p, p.1 = k) (js_sort cmp l) = filter (λ p, p.1 = k) l.
Proof.
  intros Hc.
  assert (∀ m : list (string * json), filter (λ p : string * json, p.1 = k) m =
    filter (λ p : string * json, p.1 = k) (filter (λ y, cmp (k, JNull) y = Eq) m)) as Hf.
  { intros m. rewrite list_filter_filter. apply list_filter_iff. intros p. split; [|tauto].
    intros Hp. split; [done|]. by apply Hc. }
  by rewrite Hf, js_sort_stable, <- Hf.
Qed.

Lemma filter_key_partition k l :
  filter (λ p, p.1 = k) (filter (λ p, is_index p = true) l)
  ++ filter (λ p, p.1 = k) (filter (λ p, is_index p = false) l) =
  filter (λ p : string * json, p.1 = k) l.
Proof.
  rewrite !list_filter_filter. destruct (is_index (k, JNull)) eqn:Ek.
  - rewrite (list_filter_iff (λ p, p.1 = k ∧ is_index p = true) (λ p, p.1 = k)).
    2:{ intros [k' v]. unfold is_index in *. simpl in *. split; [tauto|]. intros Hk. by rewrite Hk. }
    rewrite (filter_none (λ p, p.1 = k ∧ is_index p = false)); [by rewrite app_nil_r|].
    intros [k' v] [Hk Hi]. unfold is_index in *. simpl in *. subst k'. by rewrite Hi in Ek.
  - rewrite (list_filter_iff (λ p, p.1 = k ∧ is_index p = false) (λ p, p.1 = k)).
    2:{ intros [k' v]. unfold is_index in *. simpl in *. split; [tauto|]. intros Hk. by rewrite Hk. }
    rewrite (filter_none (λ p, p.1 = k ∧ is_index p = true)); [done|].
    intros [k' v] [Hk Hi]. unfold is_index in *. simpl in *. subst k'. by rewrite Hi in Ek.
Qed.

Lemma filter_key_own_order k l :
  filter (λ p, p.1 = k) (own_order l) = filter (λ p, p.1 = k) l.
Proof.
  unfold own_order. rewrite filter_app, filter_key_sort; [apply filter_key_partition|..].
  - apply (cmp_on_ok (λ p : string * json, default 0 (array_index p.1)) Z.compare), _.
  - intros p q E. unfold index_cmp. rewrite E. apply Z.compare_refl.
Qed.

(** Reading a property of a sorted object gives the sorted property. *)
Lemma get_sortValue k fields :
  k ≠ PROTO →
  ∃ out, sortValue (JObject fields) = JObject out ∧
         Json.get k out = sortValue <$> Json.get k fields.
Proof.
  intros Hk. eexists. split; [reflexivity|]. unfold assign_all.
  rewrite !get_filter, filter_key_own_order, list_filter_filter.
  rewrite (list_filter_iff (λ p : string * json, p.1 = k ∧ p.1 ≠ PROTO) (λ p, p.1 = k)).
  2:{ intros [k' v]. simpl. split; [tauto|]. by intros ->. }
  rewrite filter_key_sort.
  - induction fields as [|[k' v] r IH]; [done|]. simpl. rewrite !filter_cons. simpl.
    case_decide; [done|apply IH].
  - apply cmp_on_ok, _.
  - intros p q E. unfold key_cmp, cmp_on. rewrite E. apply string_compare_refl.
Qed.

(** ** Properties *)

(** C39. Canonical JSON is a canonical form: two JSON values none of whose objects, at
    any depth, has a property named [__proto__] have the same canonical text (and with
    it the same content hash input) exactly when they differ at most in the order of
    object properties, at any depth, and canonicalizing again changes nothing. *)
Theorem canonicalJson_equal_iff v1 v2 :
  plain v1 → plain v2 →
  (canonicalJson v1 = canonicalJson v2 ↔ json_equiv v1 v2) ∧
  canonicalJson (canonicalJson v1) = canonicalJson v1.
Proof.
  intros H1 H2. unfold canonicalJson. split; [split|].
  - intros E. transitivity (sortValue v1); [by apply sortValue_equiv|].
    rewrite E. symmetry. by apply sortValue_equiv.
  - by apply sortValue_canonical.
  - symmetry. apply sortValue_canonical; [done|]. by apply sortValue_equiv.
Qed.

Lemma filter_js_insert {A} (cmp : A → A → comparison) (P : A → Prop) `{∀ x, Decision (P x)} x l :
  ¬ P x → filter P (js_insert cmp x l) = filter P l.
Proof.
  intros Hx. induction l as [|y l IH]; simpl; [by rewrite filter_cons, decide_False|].
  destruct (cmp x y); rewrite ?(filter_cons _ x), ?decide_False by done; try done.
  rewrite !filter_cons. by case_decide; rewrite IH.
Qed.

(** A property named [__proto__], which [JSON.parse] creates like any other,
    leaves no trace in the canonical text: whatever its value, the object has
    the canonical form, and so the content hash, of the object without it. *)
Theorem proto_property_not_hashed x fields :
  canonicalJson (JObject ((PROTO, x) :: fields)) = canonicalJson (JObject fields).
Proof.
  unfold canonicalJson. simpl. unfold assign_all. do 2 f_equal. apply filter_js_insert.
  simpl. tauto.
Qed.

Lemma canonicalJson_equal_iff_witness :
  let v1 := JObject [("b", JArray [JNull]); ("10", JBool true); ("9", JString "x")] in
  let v2 := JObject [("9", JString "x"); ("b", JArray [JNull]); ("10", JBool true)] in
  json_equiv v1 v2 ∧
  canonicalJson v1 = JObject [("9", JString "x"); ("10", JBool true); ("b", JArray [JNull])].
Proof.
  intros v1 v2. split; [|vm_compute; reflexivity].
  assert (∀ l : list string, bool_decide (NoDup l ∧ PROTO ∉ l) = true → NoDup l ∧ ¬ PROTO ∈ l) as Hd.
  { intros l. rewrite bool_decide_eq_true. done. }
  apply (proj1 (canonicalJson_equal_iff v1 v2
    ltac:(split; [apply Hd; reflexivity|split; [apply Hd; reflexivity|simpl; tauto]])
    ltac:(split; [apply Hd; reflexivity|split; [apply Hd; reflexivity|simpl; tauto]]))).
  vm_compute. reflexivity.
Defined.
