(* ===== verification/Contracts.v ===== *)
(** * The shared vocabulary of the contracts package

    Closed string unions of [packages/contracts/src/index.ts] as inductive
    types; [label] is the string a constructor stands for and [labels] the
    [ALLOWED_*] array of the source, in its order. *)

From S2P Require Import Prelude JsList.

Class Label (A : Type) := {
  label_eq_dec :: EqDecision A;
  label : A → string;
  labels : list A;
  labels_complete a : a ∈ labels;
  labels_distinct : NoDup (label <$> labels);
}.

(** [ALLOWED.includes(s)], giving the constructor when it holds. *)
Definition parse_label {A} `{Label A} (s : string) : option A := find_by label s labels.

Lemma parse_label_label {A} `{Label A} (a : A) : parse_label (label a) = Some a.
Proof. apply find_by_unique; [apply labels_distinct|apply labels_complete|done]. Qed.

Lemma parse_label_Some {A} `{Label A} s (a : A) : parse_label s = Some a ↔ s = label a.
Proof.
  split; [|intros ->; apply parse_label_label].
  intros H1. by apply find_by_Some in H1 as [_ <-].
Qed.

#[export] Instance label_inj {A} `{Label A} : Inj (=) (=) (@label A _).
Proof.
  intros a b E. assert (Some a = Some b); [|congruence].
  by rewrite <- !parse_label_label, E.
Qed.

(** [xs.sort()] on an array of labels. *)
Definition label_cmp {A} `{Label A} : A → A → comparison := cmp_on label String.compare.

#[export] Instance label_cmp_strict {A} `{Label A} : CmpStrict (@label_cmp A _).
Proof.
  split; [unfold label_cmp; apply cmp_on_ok, _|].
  intros a b E. apply (inj label), String.compare_eq_iff, E.
Qed.

(** [Array.from(new Set(values)).sort()] *)
Definition dedupeAndSort {A} `{Label A} (values : list A) : list A :=
  js_sort label_cmp (set_of values).

Lemma elem_of_dedupeAndSort {A} `{Label A} (x : A) l : x ∈ dedupeAndSort l ↔ x ∈ l.
Proof. unfold dedupeAndSort. by rewrite elem_of_js_sort, elem_of_set_of. Qed.

Lemma NoDup_dedupeAndSort {A} `{Label A} (l : list A) : NoDup (dedupeAndSort l).
Proof. apply NoDup_js_sort, NoDup_set_of. Qed.

(** [dedupeAndSort] depends only on which values occur: it is a canonical
    form of a set of labels. *)
Lemma dedupeAndSort_ext {A} `{Label A} (l1 l2 : list A) :
  (∀ x, x ∈ l1 ↔ x ∈ l2) → dedupeAndSort l1 = dedupeAndSort l2.
Proof.
  intros Hx. apply js_sort_unique; [apply _|].
  apply NoDup_Permutation; [apply NoDup_set_of..|].
  intros x. by rewrite !elem_of_set_of.
Qed.

Lemma dedupeAndSort_idemp {A} `{Label A} (l : list A) :
  dedupeAndSort (dedupeAndSort l) = dedupeAndSort l.
Proof. apply dedupeAndSort_ext. intros x. apply elem_of_dedupeAndSort. Qed.

(** Declares the [Label] instance of an enumeration. *)
Ltac solve_label_complete :=
  intros; match goal with |- ?a ∈ _ => destruct a end; apply (bool_decide_unpack _); vm_compute; exact I.
Ltac solve_label_distinct := apply (bool_decide_unpack _); vm_compute; exact I.

Definition TEST_INTELLIGENCE_CONTRACT_VERSION : string := "1.39.0".
Definition REVIEW_GATE_SCHEMA_VERSION : string := "1.0.0".

(** ** Review gate *)

Inductive ReviewState : Type :=
| st_generated | st_needs_review | st_pending_secondary_approval | st_approved
| st_rejected | st_edited | st_exported | st_transferred.

#[export] Instance ReviewState_eq_dec : EqDecision ReviewState.
Proof. solve_decision. Defined.

Definition ReviewState_label (s : ReviewState) : string :=
  match s with
  | st_generated => "generated"
  | st_needs_review => "needs_review"
  | st_pending_secondary_approval => "pending_secondary_approval"
  | st_approved => "approved"
  | st_rejected => "rejected"
  | st_edited => "edited"
  | st_exported => "exported"
  | st_transferred => "transferred"
  end.

Definition ALLOWED_REVIEW_STATES : list ReviewState :=
  [st_generated; st_needs_review; st_pending_secondary_approval; st_approved;
   st_rejected; st_edited; st_exported; st_transferred].

#[export] Program Instance ReviewState_Label : Label ReviewState :=
  {| label := ReviewState_label; labels := ALLOWED_REVIEW_STATES |}.
Next Obligation. solve_label_complete. Qed.
Next Obligation. solve_label_distinct. Qed.

Inductive ReviewEventKind : Type :=
| ev_generated | ev_review_started | ev_approved | ev_primary_approved
| ev_secondary_approved | ev_rejected | ev_edited | ev_exported
| ev_transferred | ev_note.

#[export] Instance ReviewEventKind_eq_dec : EqDecision ReviewEventKind.
Proof. solve_decision. Defined.

Definition ReviewEventKind_label (k : ReviewEventKind) : string :=
  match k with
  | ev_generated => "generated"
  | ev_review_started => "review_started"
  | ev_approved => "approved"
  | ev_primary_approved => "primary_approved"
  | ev_secondary_approved => "secondary_approved"
  | ev_rejected => "rejected"
  | ev_edited => "edited"
  | ev_exported => "exported"
  | ev_transferred => "transferred"
  | ev_note => "note"
  end.

Definition ALLOWED_REVIEW_EVENT_KINDS : list ReviewEventKind :=
  [ev_generated; ev_review_started; ev_approved; ev_primary_approved;
   ev_secondary_approved; ev_rejected; ev_edited; ev_exported; ev_transferred;
   ev_note].

#[export] Program Instance ReviewEventKind_Label : Label ReviewEventKind :=
  {| label := ReviewEventKind_label; labels := ALLOWED_REVIEW_EVENT_KINDS |}.
Next Obligation. solve_label_complete. Qed.
Next Obligation. solve_label_distinct. Qed.

Inductive TestCasePolicyDecision : Type := pd_approved | pd_blocked | pd_needs_review.

#[export] Instance TestCasePolicyDecision_eq_dec : EqDecision TestCasePolicyDecision.
Proof. solve_decision. Defined.

Definition TestCasePolicyDecision_label (d : TestCasePolicyDecision) : string :=
  match d with
  | pd_approved => "approved"
  | pd_blocked => "blocked"
  | pd_needs_review => "needs_review"
  end.

Definition ALLOWED_TEST_CASE_POLICY_DECISIONS : list TestCasePolicyDecision :=
  [pd_approved; pd_blocked; pd_needs_review].

#[export] Program Instance TestCasePolicyDecision_Label : Label TestCasePolicyDecision :=
  {| label := TestCasePolicyDecision_label;
     labels := ALLOWED_TEST_CASE_POLICY_DECISIONS |}.
Next Obligation. solve_label_complete. Qed.
Next Obligation. solve_label_distinct. Qed.

(** ** Four-eyes policy *)

Inductive TestCaseRiskCategory : Type :=
| rc_low | rc_medium | rc_high | rc_regulated_data | rc_financial_transaction.

#[export] Instance TestCaseRiskCategory_eq_dec : EqDecision TestCaseRiskCategory.
Proof. solve_decision. Defined.

Definition TestCaseRiskCategory_label (r : TestCaseRiskCategory) : string :=
  match r with
  | rc_low => "low"
  | rc_medium => "medium"
  | rc_high => "high"
  | rc_regulated_data => "regulated_data"
  | rc_financial_transaction => "financial_transaction"
  end.

#[export] Program Instance TestCaseRiskCategory_Label : Label TestCaseRiskCategory :=
  {| label := TestCaseRiskCategory_label;
     labels := [rc_low; rc_medium; rc_high; rc_regulated_data; rc_financial_transaction] |}.
Next Obligation. solve_label_complete. Qed.
Next Obligation. solve_label_distinct. Qed.

Inductive VisualSidecarValidationOutcome : Type :=
| vo_ok | vo_schema_invalid | vo_low_confidence | vo_fallback_used
| vo_possible_pii | vo_prompt_injection_like_text
| vo_conflicts_with_figma_metadata | vo_primary_unavailable.

#[export] Instance VisualSidecarValidationOutcome_eq_dec :
  EqDecision VisualSidecarValidationOutcome.
Proof. solve_decision. Defined.

Definition VisualSidecarValidationOutcome_label
    (o : VisualSidecarValidationOutcome) : string :=
  match o with
  | vo_ok => "ok"
  | vo_schema_invalid => "schema_invalid"
  | vo_low_confidence => "low_confidence"
  | vo_fallback_used => "fallback_used"
  | vo_possible_pii => "possible_pii"
  | vo_prompt_injection_like_text => "prompt_injection_like_text"
  | vo_conflicts_with_figma_metadata => "conflicts_with_figma_metadata"
  | vo_primary_unavailable => "primary_unavailable"
  end.

Definition ALLOWED_VISUAL_SIDECAR_VALIDATION_OUTCOMES :
    list VisualSidecarValidationOutcome :=
  [vo_ok; vo_schema_invalid; vo_low_confidence; vo_fallback_used;
   vo_possible_pii; vo_prompt_injection_like_text;
   vo_conflicts_with_figma_metadata; vo_primary_unavailable].

#[export] Program Instance VisualSidecarValidationOutcome_Label :
    Label VisualSidecarValidationOutcome :=
  {| label := VisualSidecarValidationOutcome_label;
     labels := ALLOWED_VISUAL_SIDECAR_VALIDATION_OUTCOMES |}.
Next Obligation. solve_label_complete. Qed.
Next Obligation. solve_label_distinct. Qed.

Inductive FourEyesEnforcementReason : Type :=
| fr_risk_category | fr_visual_low_confidence | fr_visual_fallback_used
| fr_visual_possible_pii | fr_visual_prompt_injection
| fr_visual_metadata_conflict | fr_multi_source_conflict_present.

#[export] Instance FourEyesEnforcementReason_eq_dec :
  EqDecision FourEyesEnforcementReason.
Proof. solve_decision. Defined.

Definition FourEyesEnforcementReason_label (r : FourEyesEnforcementReason) : string :=
  match r with
  | fr_risk_category => "risk_category"
  | fr_visual_low_confidence => "visual_low_confidence"
  | fr_visual_fallback_used => "visual_fallback_used"
  | fr_visual_possible_pii => "visual_possible_pii"
  | fr_visual_prompt_injection => "visual_prompt_injection"
  | fr_visual_metadata_conflict => "visual_metadata_conflict"
  | fr_multi_source_conflict_present => "multi_source_conflict_present"
  end.

Definition ALLOWED_FOUR_EYES_ENFORCEMENT_REASONS : list FourEyesEnforcementReason :=
  [fr_risk_category; fr_visual_low_confidence; fr_visual_fallback_used;
   fr_visual_possible_pii; fr_visual_prompt_injection;
   fr_visual_metadata_conflict; fr_multi_source_conflict_present].

#[export] Program Instance FourEyesEnforcementReason_Label :
    Label FourEyesEnforcementReason :=
  {| label := FourEyesEnforcementReason_label;
     labels := ALLOWED_FOUR_EYES_ENFORCEMENT_REASONS |}.
Next Obligation. solve_label_complete. Qed.
Next Obligation. solve_label_distinct. Qed.

Definition DEFAULT_FOUR_EYES_REQUIRED_RISK_CATEGORIES : list TestCaseRiskCategory :=
  [rc_financial_transaction; rc_regulated_data; rc_high].

Definition DEFAULT_FOUR_EYES_VISUAL_SIDECAR_TRIGGERS :
    list VisualSidecarValidationOutcome :=
  [vo_low_confidence; vo_fallback_used; vo_possible_pii;
   vo_prompt_injection_like_text; vo_conflicts_with_figma_metadata].

(** [FourEyesPolicy] *)
Record FourEyesPolicy := {
  requiredRiskCategories : list TestCaseRiskCategory;
  visualSidecarTriggerOutcomes : list VisualSidecarValidationOutcome;
}.

#[export] Instance FourEyesPolicy_eq_dec : EqDecision FourEyesPolicy.
Proof. solve_decision. Defined.

(** The part of [GeneratedTestCase] the review gate reads: its id, its risk
    category and the screens of its Figma trace references. *)
Record GeneratedTestCase := {
  tc_id : string;
  tc_riskCategory : TestCaseRiskCategory;
  tc_traceScreenIds : list string;
}.

(** [VisualSidecarValidationRecord], as far as the review gate reads it. *)
Record VisualSidecarValidationRecord := {
  vr_screenId : string;
  vr_outcomes : list VisualSidecarValidationOutcome;
}.
