(* ===== verification/JsonView.v ===== *)
(** * Views of JSON objects

    Reading the properties of a parsed value: the tests validators make, the
    typed view a type assertion stands for, and what both give on the canonical
    text of an object literal; and object spreads, which keep distinct keys, the value
    of the other properties and equality up to property order. *)

From S2P Require Import Prelude JsString JsList JsValue CanonicalJson Contracts.

(** [value[k]]; [None] is [undefined]. *)
Definition field (k : string) (v : json) : option json :=
  match v with JObject fields => Json.get k fields | _ => None end.

(** ** Tests *)

(** [typeof v === "string" && SET.has(v)] *)
Definition in_labels A `{Label A} (v : option json) : bool :=
  match v with Some (JString s) => bool_decide (is_Some (parse_label (A := A) s)) | _ => false end.

(** [v === undefined || test(v)] *)
Definition undefined_or (test : option json → bool) (v : option json) : bool :=
  match v with None => true | Some _ => test v end.

(** [Number.isInteger(v) && v >= least] on a number. *)
Definition integer_from (least : Z) (v : option json) : bool :=
  match v with
  | Some (JNumber q) => Number.q_is_integer q && Qle_bool (inject_Z least) q
  | _ => false
  end.

(** A string that passes a test. *)
Definition string_where (test : string → bool) (v : option json) : bool :=
  match v with Some (JString s) => test s | _ => false end.

Definition array_of (test : json → bool) (v : option json) : bool :=
  match v with Some (JArray l) => forallb test l | _ => false end.

Definition is_string_value (v : json) : bool := match v with JString _ => true | _ => false end.

(** ** Typed views *)

Definition as_string (v : json) : option string :=
  match v with JString s => Some s | _ => None end.
Definition as_label {A} `{Label A} (v : json) : option A := as_string v ≫= parse_label.
(** The string of a property. *)
Definition text_field (k : string) (c : json) : option string := field k c ≫= as_string.
Definition as_bool (v : json) : option bool := match v with JBool b => Some b | _ => None end.
Definition as_integer (v : json) : option Z :=
  match v with JNumber q => if Number.q_is_integer q then Some (Qfloor q) else None | _ => None end.
Definition as_array {A} (f : json → option A) (v : json) : option (list A) :=
  match v with JArray l => mapM f l | _ => None end.

(** A required and an optional property. *)
Definition req {A} (k : string) (f : json → option A) (v : json) : option A := field k v ≫= f.
Definition opt {A} (k : string) (f : json → option A) (v : json) : option (option A) :=
  match field k v with None => Some None | Some x => Some <$> f x end.

Definition jlabel {A} `{Label A} (a : A) : json := JString (label a).

(** ** Canonical objects *)

Lemma field_canonical k fields :
  k ≠ PROTO →
  field k (canonicalJson (JObject (Json.literal fields))) =
  canonicalJson <$> Json.literal_get k fields.
Proof.
  intros Hk. unfold canonicalJson.
  destruct (get_sortValue k (Json.literal fields) Hk) as (out & -> & Hg).
  simpl. by rewrite Hg, Json.get_literal.
Qed.

Lemma field_canonicalJson k c : k ≠ PROTO → field k (canonicalJson c) = canonicalJson <$> field k c.
Proof.
  intros Hk. destruct c as [| | | | |fields]; try done.
  destruct (get_sortValue k fields Hk) as (out & E & Hg). unfold canonicalJson. rewrite E. exact Hg.
Qed.

Lemma as_string_canonical v : as_string (canonicalJson v) = as_string v.
Proof. by destruct v. Qed.

Lemma string_where_canonical test v : string_where test (canonicalJson <$> v) = string_where test v.
Proof. by destruct v as [[]|]. Qed.

Lemma text_field_canonical k c : k ≠ PROTO → text_field k (canonicalJson c) = text_field k c.
Proof.
  intros Hk. unfold text_field. rewrite field_canonicalJson by done.
  destruct (field k c); simpl; [apply as_string_canonical|done].
Qed.

Lemma isRecord_canonical fields : Json.isRecord (canonicalJson (JObject fields)) = true.
Proof. done. Qed.

Lemma canonical_array {A} (f : A → json) l :
  canonicalJson (JArray (f <$> l)) = JArray ((λ x, canonicalJson (f x)) <$> l).
Proof.
  unfold canonicalJson. simpl. f_equal. induction l as [|x l IH]; simpl; [done|]. by f_equal.
Qed.

Lemma opt_eta {A} (o : option A) : match o with Some v => Some v | None => None end = o.
Proof. by destruct o. Qed.

(** Evaluates the properties read from a canonical object literal. *)
Ltac read_fields :=
  repeat match goal with
  | |- context [field ?k (canonicalJson (JObject (Json.literal ?fs)))] =>
      rewrite (field_canonical k fs) by discriminate; cbn -[canonicalJson]; rewrite ?opt_eta
  end.

Lemma array_of_canonical {A} (f : A → json) (test : json → bool) l :
  (∀ x, x ∈ l → test (canonicalJson (f x)) = true) →
  array_of test (Some (canonicalJson (JArray (f <$> l)))) = true.
Proof.
  intros Ht. rewrite canonical_array. simpl. apply forallb_forall. intros v Hv.
  apply in_map_iff in Hv as (x & <- & Hx). apply Ht. by apply list_elem_of_In.
Qed.

Lemma as_array_canonical {A} (f : A → json) (g : json → option A) l :
  (∀ x, x ∈ l → g (canonicalJson (f x)) = Some x) →
  as_array g (canonicalJson (JArray (f <$> l))) = Some l.
Proof.
  intros Hg. rewrite canonical_array. simpl. apply mapM_Some. apply Forall2_fmap_l.
  apply Forall_Forall2_diag, Forall_forall. auto.
Qed.

Lemma in_labels_label {A} `{Label A} (a : A) : in_labels A (Some (jlabel a)) = true.
Proof. simpl. rewrite parse_label_label. by apply bool_decide_eq_true_2. Qed.

Lemma as_label_label {A} `{Label A} (a : A) : as_label (jlabel a) = Some a.
Proof. unfold as_label. simpl. apply parse_label_label. Qed.

Lemma as_integer_jint z : as_integer (Json.jint z) = Some z.
Proof. unfold as_integer, Json.jint. by rewrite Number.q_is_integer_inject, Qfloor_Z. Qed.

Lemma integer_from_jint least z : least <= z → integer_from least (Some (Json.jint z)) = true.
Proof.
  intros Hz. unfold integer_from, Json.jint. rewrite Number.q_is_integer_inject. simpl.
  apply Qle_bool_iff. unfold Qle. simpl. lia.
Qed.

Lemma undefined_or_canonical {A} (f : A → json) test o :
  (∀ x, o = Some x → test (Some (canonicalJson (f x))) = true) →
  undefined_or test (canonicalJson <$> (f <$> o)) = true.
Proof. destruct o as [x|]; simpl; auto. Qed.

Lemma opt_canonical {A} k (f : A → json) (g : json → option A) o v :
  field k v = canonicalJson <$> (f <$> o) →
  (∀ x, o = Some x → g (canonicalJson (f x)) = Some x) → opt k g v = Some o.
Proof. unfold opt. intros -> Hg. destruct o as [x|]; simpl; [|done]. by rewrite Hg. Qed.

Lemma req_canonical {A} k (f : A → json) (g : json → option A) x v :
  field k v = Some (canonicalJson (f x)) → g (canonicalJson (f x)) = Some x → req k g v = Some x.
Proof. unfold req. by intros -> Hg. Qed.

(** The property [k] of a canonical literal, as [opt_canonical] and
    [req_canonical] expect it. *)
Ltac solve_field :=
  match goal with |- field ?k (canonicalJson (JObject (Json.literal ?fs))) = _ =>
    rewrite (field_canonical k fs) by discriminate; cbn -[canonicalJson]; rewrite ?opt_eta;
    reflexivity
  end.

Ltac solve_valid :=
  repeat match goal with |- (_ && _) = true => apply andb_true_intro; split end;
  read_fields; try reflexivity;
  first [ apply in_labels_label
        | apply undefined_or_canonical; intros ? Heq; first [reflexivity | apply in_labels_label | idtac]
        | idtac ].

(** Reads the next property of a typed view. *)
Ltac typed_req f := erewrite (req_canonical _ f); [|solve_field|try reflexivity].
Ltac typed_opt f := erewrite (opt_canonical _ f); [|solve_field|intros ? Heq; try reflexivity].

(** ** Object spreads: [{ ...value, key: v }] *)

(** Assigning a property keeps its place; a new one is added at the end. *)
Fixpoint set_field (k : string) (v : json) (f : list (string * json)) : list (string * json) :=
  match f with
  | [] => [(k, v)]
  | (k', v') :: rest => if String.eqb k k' then (k, v) :: rest else (k', v') :: set_field k v rest
  end.

(** [{ ...value, [k]: v }] for an object or a missing value. *)
Definition spread_with (value : option json) (k : string) (v : json) : json :=
  JObject (set_field k v (match value with Some (JObject f) => f | _ => [] end)).

(** ** Reading *)

Lemma get_elem k f v : Json.get k f = Some v → (k, v) ∈ f.
Proof.
  induction f as [|[k' v'] f IH]; simpl; [done|].
  destruct (String.eqb_spec k k') as [->|_]; [intros [= ->]; constructor|].
  intros H. constructor. by apply IH.
Qed.

Lemma get_None k f : Json.get k f = None ↔ k ∉ f.*1.
Proof.
  induction f as [|[k' v'] f IH]; simpl; [split; [intros _; apply not_elem_of_nil|done]|].
  rewrite not_elem_of_cons. destruct (String.eqb_spec k k') as [->|Hne]; [naive_solver|].
  rewrite IH. tauto.
Qed.

Lemma elem_get k f v : NoDup f.*1 → (k, v) ∈ f → Json.get k f = Some v.
Proof.
  induction f as [|[k' v'] f IH]; simpl; [by intros _ ?%not_elem_of_nil|].
  intros [Hnin Hnd]%NoDup_cons [[= -> ->]|Hin]%elem_of_cons; [by rewrite String.eqb_refl|].
  destruct (String.eqb_spec k k') as [->|_]; [|by apply IH].
  exfalso. apply Hnin. apply list_elem_of_fmap. by exists (k', v).
Qed.

Lemma get_Permutation k f f' : NoDup f.*1 → f ≡ₚ f' → Json.get k f = Json.get k f'.
Proof.
  intros Hnd Hp. assert (NoDup f'.*1) as Hnd' by by rewrite <- Hp.
  destruct (Json.get k f) as [v|] eqn:E.
  - symmetry. apply elem_get; [done|]. rewrite <- Hp. by apply get_elem.
  - symmetry. apply get_None. rewrite <- Hp. by apply get_None.
Qed.

Lemma get_set_field k k' v f :
  Json.get k (set_field k' v f) = if String.eqb k k' then Some v else Json.get k f.
Proof.
  induction f as [|[k1 v1] f IH]; simpl; [by destruct (String.eqb k k')|].
  destruct (String.eqb_spec k' k1) as [->|Hne]; simpl; [by destruct (String.eqb k k1)|].
  rewrite IH. destruct (String.eqb_spec k k1) as [->|]; [|done].
  by destruct (String.eqb_spec k1 k').
Qed.

(** ** Keys *)

Lemma set_field_keys k v f k' : k' ∈ (set_field k v f).*1 ↔ k' = k ∨ k' ∈ f.*1.
Proof.
  induction f as [|[k1 v1] f IH]; simpl; [set_solver|].
  destruct (String.eqb_spec k k1) as [->|Hne]; simpl; rewrite !elem_of_cons; [tauto|].
  rewrite IH. tauto.
Qed.

Lemma set_field_Permutation k v f :
  NoDup f.*1 → set_field k v f ≡ₚ (k, v) :: filter (λ p, p.1 ≠ k) f.
Proof.
  induction f as [|[k1 v1] f IH]; simpl; [done|]. intros [Hnin Hnd]%NoDup_cons.
  rewrite filter_cons. simpl. destruct (String.eqb_spec k k1) as [->|Hne].
  - rewrite decide_False by tauto. f_equiv. symmetry. rewrite filter_id; [done|].
    apply Forall_forall. intros [k2 v2] Hin E. simpl in E. subst k2. apply Hnin.
    apply list_elem_of_fmap. by exists (k1, v2).
  - rewrite decide_True by done. rewrite IH by done. apply Permutation_swap.
Qed.

Lemma set_field_NoDup k v f : NoDup f.*1 → NoDup (set_field k v f).*1.
Proof.
  induction f as [|[k1 v1] f IH]; simpl; [intros _; apply NoDup_singleton|].
  intros [Hnin Hnd]%NoDup_cons. destruct (String.eqb_spec k k1) as [->|Hne]; simpl.
  - by apply NoDup_cons.
  - apply NoDup_cons. split; [|by apply IH]. rewrite set_field_keys. naive_solver.
Qed.

Lemma plain_object fields :
  plain (JObject fields) ↔
  NoDup (fields.*1) ∧ ¬ PROTO ∈ fields.*1 ∧ Forall (λ p, plain p.2) fields.
Proof. cbn [plain]. by rewrite (foldr_and_Forall (λ p, plain p.2)). Qed.

Lemma plain_set_field k v f :
  k ≠ PROTO → plain v → plain (JObject f) → plain (JObject (set_field k v f)).
Proof.
  rewrite !plain_object. intros Hk Hv (Hnd & Hp & Hf). split_all.
  - by apply set_field_NoDup.
  - rewrite set_field_keys. naive_solver.
  - rewrite set_field_Permutation by done. constructor; [done|].
    apply Forall_forall. intros p [_ Hin]%list_elem_of_filter. rewrite Forall_forall in Hf. by apply Hf.
Qed.

Lemma plain_get k f v : plain (JObject f) → Json.get k f = Some v → plain v.
Proof.
  rewrite plain_object, Forall_forall. intros (_ & _ & Hf) Hg%get_elem. by apply (Hf (k, v)).
Qed.

(** ** Equality up to property order *)

Lemma json_equiv_get f1 f2 k :
  NoDup f1.*1 → json_equiv (JObject f1) (JObject f2) →
  option_Forall2 json_equiv (Json.get k f1) (Json.get k f2).
Proof.
  intros Hnd He. inversion He as [| | | | |? ? f2' HF Hp]; subst.
  assert (f1.*1 = f2'.*1) as Hk.
  { clear -HF. induction HF as [|p q l l' [E _] _ IH]; [done|]. by rewrite !fmap_cons, E, IH. }
  rewrite <- (get_Permutation k f2' f2) by (rewrite <- ?Hk; done).
  clear He Hp Hnd Hk. induction HF as [|[k1 v1] [k2 v2] l l' [E Hv] _ IH]; simpl; [constructor|].
  simpl in *. subst k2. destruct (String.eqb k k1); [by constructor|done].
Qed.

Lemma json_equiv_set_field k v1 v2 f1 f2 :
  NoDup f1.*1 → json_equiv (JObject f1) (JObject f2) → json_equiv v1 v2 →
  json_equiv (JObject (set_field k v1 f1)) (JObject (set_field k v2 f2)).
Proof.
  intros Hnd He Hv. inversion He as [| | | | |? ? f2' HF Hp]; subst.
  assert (f1.*1 = f2'.*1) as Hk.
  { clear -HF. induction HF as [|p q l l' [E _] _ IH]; [done|]. by rewrite !fmap_cons, E, IH. }
  rewrite Hk in Hnd. apply je_object with (f2' := set_field k v2 f2').
  - clear He Hp Hnd Hk. induction HF as [|[k1 w1] [k2 w2] l l' [E Hw] HF IH]; simpl in *;
      [by repeat constructor|].
    subst k2. destruct (String.eqb k k1); by constructor.
  - assert (NoDup f2.*1) by by rewrite <- Hp.
    rewrite !set_field_Permutation by done. by rewrite Hp.
Qed.
