(* ===== verification/ReviewStateMachine.v ===== *)
(** * Review-gate state machine

    [packages/review/src/review-state-machine.ts]: the transition table, the
    transition function with its policy refusals, the seeding of fresh cases,
    the legal events of a state and the terminal states. *)

From S2P Require Import Prelude JsList Contracts.

Inductive ReviewTransitionRefusalCode : Type :=
| transition_not_allowed
| policy_blocks_approval
| policy_requires_review.

#[export] Instance ReviewTransitionRefusalCode_eq_dec :
  EqDecision ReviewTransitionRefusalCode.
Proof. solve_decision. Defined.

(** [TRANSITIONS[kind][from]]; [None] is [undefined]. *)
Definition TRANSITIONS (kind : ReviewEventKind) (from : ReviewState) : option ReviewState :=
  match kind with
  | ev_generated =>
      match from with st_generated => Some st_generated | _ => None end
  | ev_review_started =>
      match from with
      | st_generated | st_needs_review | st_approved | st_edited
      | st_pending_secondary_approval => Some st_needs_review
      | _ => None
      end
  | ev_approved =>
      match from with
      | st_generated | st_needs_review | st_edited => Some st_approved
      | _ => None
      end
  | ev_primary_approved =>
      match from with
      | st_needs_review | st_edited => Some st_pending_secondary_approval
      | _ => None
      end
  | ev_secondary_approved =>
      match from with
      | st_pending_secondary_approval => Some st_approved
      | _ => None
      end
  | ev_rejected =>
      match from with
      | st_generated | st_needs_review | st_edited
      | st_pending_secondary_approval => Some st_rejected
      | _ => None
      end
  | ev_edited =>
      match from with
      | st_needs_review | st_edited | st_approved
      | st_pending_secondary_approval => Some st_edited
      | _ => None
      end
  | ev_exported =>
      match from with st_approved => Some st_exported | _ => None end
  | ev_transferred =>
      match from with st_exported => Some st_transferred | _ => None end
  | ev_note =>
      match from with
      | st_generated => Some st_generated
      | st_needs_review => Some st_needs_review
      | st_pending_secondary_approval => Some st_pending_secondary_approval
      | st_approved => Some st_approved
      | st_rejected => Some st_rejected
      | st_edited => Some st_edited
      | st_exported => Some st_exported
      | st_transferred => Some st_transferred
      end
  end.

Definition is_approval_kind (kind : ReviewEventKind) : bool :=
  bool_decide (kind = ev_approved) || bool_decide (kind = ev_primary_approved)
  || bool_decide (kind = ev_secondary_approved).

(** The optional [policyDecision] is [None] when the caller leaves it out. *)
Definition transitionReviewState (from : ReviewState) (kind : ReviewEventKind)
    (policyDecision : option TestCasePolicyDecision) :
    outcome ReviewTransitionRefusalCode ReviewState :=
  match TRANSITIONS kind from with
  | None => Throw transition_not_allowed
  | Some to =>
      if is_approval_kind kind && bool_decide (policyDecision = Some pd_blocked)
      then Throw policy_blocks_approval
      else if bool_decide (kind = ev_approved)
           && bool_decide (policyDecision = Some pd_needs_review)
           && bool_decide (from = st_generated)
      then Throw policy_requires_review
      else Ok to
  end.

Definition seedReviewStateFromPolicy (decision : TestCasePolicyDecision) : ReviewState :=
  if bool_decide (decision = pd_approved) then st_approved else st_needs_review.

(** [Object.keys(TRANSITIONS)], in declaration order. *)
Definition TRANSITIONS_keys : list ReviewEventKind :=
  [ev_generated; ev_review_started; ev_approved; ev_primary_approved;
   ev_secondary_approved; ev_rejected; ev_edited; ev_exported; ev_transferred;
   ev_note].

Definition legalEventKindsFrom (from : ReviewState) : list ReviewEventKind :=
  filter (λ kind, TRANSITIONS kind from ≠ None) TRANSITIONS_keys.

Definition isTerminalReviewState (state : ReviewState) : bool :=
  bool_decide (state = st_rejected) || bool_decide (state = st_transferred).

(** ** Runs of the state machine *)

(** One accepted event: the kind, and the policy decision attached to the case
    at that moment. *)
Record transition_step := { ts_kind : ReviewEventKind; ts_policy : option TestCasePolicyDecision }.

(** [run_review s steps]: every event is accepted in turn. *)
Fixpoint run_review (s : ReviewState) (steps : list transition_step) :
    outcome ReviewTransitionRefusalCode ReviewState :=
  match steps with
  | [] => Ok s
  | x :: r => outcome_bind (transitionReviewState s (ts_kind x) (ts_policy x))
                (λ s', run_review s' r)
  end.

(** An approving event that the policy did not block. *)
Definition unblocked_approval (x : transition_step) : Prop :=
  is_approval_kind (ts_kind x) = true ∧ ts_policy x ≠ Some pd_blocked.

(** States in which the case counts as approved. *)
Definition past_approval (s : ReviewState) : bool :=
  match s with st_approved | st_exported | st_transferred => true | _ => false end.

(** ** Lemmas *)

Lemma transitionReviewState_Ok from kind p to :
  transitionReviewState from kind p = Ok to →
  TRANSITIONS kind from = Some to ∧
  (is_approval_kind kind = true → p ≠ Some pd_blocked).
Proof.
  unfold transitionReviewState. destruct (TRANSITIONS kind from); [|done].
  destruct (is_approval_kind kind); simpl; repeat case_bool_decide; simpl;
    intros; simplify_eq; done.
Qed.

Lemma TRANSITIONS_terminal kind from to :
  isTerminalReviewState from = true → TRANSITIONS kind from = Some to →
  kind = ev_note ∧ to = from.
Proof. destruct from, kind; simpl; intros; simplify_eq; done. Qed.

Lemma past_approval_entered kind from to :
  TRANSITIONS kind from = Some to → past_approval to = true →
  past_approval from = false → is_approval_kind kind = true ∧ to = st_approved.
Proof. destruct from, kind; simpl; intros; simplify_eq; done. Qed.

Lemma run_review_terminal s steps s' :
  isTerminalReviewState s = true → run_review s steps = Ok s' → s' = s.
Proof.
  intros Ht. induction steps as [|x r IH]; simpl; [by intros [= <-]|].
  intros (s1 & [H1 _]%transitionReviewState_Ok & Hr)%outcome_bind_Ok.
  apply TRANSITIONS_terminal in H1 as [_ ->]; [|done]. by apply IH.
Qed.

#[export] Hint Resolve transitionReviewState_Ok : js.

(** ** Properties *)

(** A case that was not approved when a run of accepted events began and
    is approved, exported or transferred at its end passed through an approving
    event that the policy in force at that moment did not block. *)
Theorem approved_only_through_unblocked_approval s steps s' :
  past_approval s = false → run_review s steps = Ok s' → past_approval s' = true →
  Exists unblocked_approval steps.
Proof.
  revert s. induction steps as [|x r IH]; intros s Hs; simpl; [by intros [= <-] ?; congruence|].
  intros (s1 & H1 & Hr)%outcome_bind_Ok Hs'.
  apply transitionReviewState_Ok in H1 as [Ht Hb].
  destruct (past_approval s1) eqn:E1; [|right; by eapply IH].
  apply past_approval_entered in Ht as [Hk _]; [|done..].
  left. split; auto.
Qed.

Lemma approved_only_through_unblocked_approval_witness :
  let steps := [ {| ts_kind := ev_review_started; ts_policy := Some pd_needs_review |};
                 {| ts_kind := ev_edited; ts_policy := Some pd_needs_review |};
                 {| ts_kind := ev_approved; ts_policy := Some pd_needs_review |};
                 {| ts_kind := ev_exported; ts_policy := Some pd_approved |} ] in
  run_review st_generated steps = Ok st_exported ∧ Exists unblocked_approval steps.
Proof.
  split; [reflexivity|].
  apply (approved_only_through_unblocked_approval st_generated _ st_exported);
    reflexivity.
Defined.

(** The terminal states are exactly the states no accepted run leaves. *)
Theorem terminal_iff_no_way_out s :
  isTerminalReviewState s = true ↔ ∀ steps s', run_review s steps = Ok s' → s' = s.
Proof.
  split; [intros; by eapply run_review_terminal|].
  intros H. pose (via := λ k, H [ {| ts_kind := k; ts_policy := None |} ]).
  destruct s; try reflexivity; exfalso.
  - by specialize (via ev_review_started _ eq_refl).
  - by specialize (via ev_edited _ eq_refl).
  - by specialize (via ev_edited _ eq_refl).
  - by specialize (via ev_edited _ eq_refl).
  - by specialize (via ev_rejected _ eq_refl).
  - by specialize (via ev_transferred _ eq_refl).
Qed.

(** [legalEventKindsFrom] lists, without duplicates, exactly the kinds that
    [transitionReviewState] accepts from that state under an approving
    policy. *)
Theorem legalEventKindsFrom_spec from :
  NoDup (legalEventKindsFrom from) ∧
  ∀ kind, kind ∈ legalEventKindsFrom from ↔
          ∃ to, transitionReviewState from kind (Some pd_approved) = Ok to.
Proof.
  split; [destruct from; apply (bool_decide_unpack _); vm_compute; exact I|].
  intros kind. unfold legalEventKindsFrom. rewrite list_elem_of_filter.
  destruct from, kind; simpl; split; try (intros [? _]; done); try (intros [? ?]; done);
    intros _; try (eexists; reflexivity); (split; [done|]);
    apply (bool_decide_unpack _); vm_compute; exact I.
Qed.

(** The module's comment lists the accepted transitions and declares every
    other pair invalid; the list has no edit of an approved case, which the
    table accepts and which takes the case out of [approved]. *)
Theorem approved_case_can_be_edited p :
  transitionReviewState st_approved ev_edited p = Ok st_edited.
Proof. reflexivity. Qed.
