(* ===== verification/FourEyesPolicy.v ===== *)
(** * Four-eyes review policy

    [packages/review/src/four-eyes-policy.ts]: resolving the operator's
    configuration, validating it, and evaluating whether a case needs two
    distinct approvers. *)

From S2P Require Import Prelude JsList Contracts.

(** [VISUAL_OUTCOME_TO_REASON] *)
Definition VISUAL_OUTCOME_TO_REASON (o : VisualSidecarValidationOutcome) :
    option FourEyesEnforcementReason :=
  match o with
  | vo_low_confidence => Some fr_visual_low_confidence
  | vo_fallback_used => Some fr_visual_fallback_used
  | vo_possible_pii => Some fr_visual_possible_pii
  | vo_prompt_injection_like_text => Some fr_visual_prompt_injection
  | vo_conflicts_with_figma_metadata => Some fr_visual_metadata_conflict
  | _ => None
  end.

Definition EU_BANKING_DEFAULT_FOUR_EYES_POLICY : FourEyesPolicy :=
  {| requiredRiskCategories :=
       js_sort label_cmp DEFAULT_FOUR_EYES_REQUIRED_RISK_CATEGORIES;
     visualSidecarTriggerOutcomes :=
       js_sort label_cmp DEFAULT_FOUR_EYES_VISUAL_SIDECAR_TRIGGERS |}.

Definition cloneFourEyesPolicy (policy : FourEyesPolicy) : FourEyesPolicy :=
  {| requiredRiskCategories := dedupeAndSort (requiredRiskCategories policy);
     visualSidecarTriggerOutcomes := dedupeAndSort (visualSidecarTriggerOutcomes policy) |}.

(** One dimension of the operator's configuration: the property may be absent,
    present with the value [undefined], or an array of arbitrary strings. *)
Inductive config_dim : Type :=
| dim_absent
| dim_undefined
| dim_values (values : list string).

Record ResolveFourEyesPolicyInput := {
  in_fourEyesRequiredRiskCategories : config_dim;
  in_fourEyesVisualSidecarTriggerOutcomes : config_dim;
}.

(** [hasOwnProperty(input, k) ? input[k] ?? [] : dflt], filtered to the allowed
    values. *)
Definition resolve_dim {A} `{Label A} (d : config_dim) (dflt : list A) : list A :=
  match d with
  | dim_absent => omap parse_label (label <$> dflt)
  | dim_undefined => []
  | dim_values raw => omap parse_label raw
  end.

Definition resolveFourEyesPolicy (input : option ResolveFourEyesPolicyInput) :
    FourEyesPolicy :=
  let risk := from_option in_fourEyesRequiredRiskCategories dim_absent input in
  let visual := from_option in_fourEyesVisualSidecarTriggerOutcomes dim_absent input in
  {| requiredRiskCategories :=
       dedupeAndSort (resolve_dim risk DEFAULT_FOUR_EYES_REQUIRED_RISK_CATEGORIES);
     visualSidecarTriggerOutcomes :=
       dedupeAndSort (resolve_dim visual DEFAULT_FOUR_EYES_VISUAL_SIDECAR_TRIGGERS) |}.

Inductive FourEyesIssueCode : Type :=
| unknown_risk_category
| unknown_visual_sidecar_outcome.

(** A validation issue: the array it is about, the index, the code, and the
    unknown value that the message quotes. *)
Record FourEyesPolicyValidationIssue := {
  fi_path : string * nat;
  fi_code : FourEyesIssueCode;
  fi_value : string;
}.

Definition dim_list (d : config_dim) : list string :=
  match d with dim_values raw => raw | _ => [] end.

(** One of the two validation loops, from index [i]. *)
Fixpoint validate_dim A `{Label A} (field : string) (code : FourEyesIssueCode)
    (i : nat) (raw : list string) : list FourEyesPolicyValidationIssue :=
  match raw with
  | [] => []
  | value :: rest =>
      (if bool_decide (@parse_label A _ value = None)
       then [ {| fi_path := (field, i); fi_code := code; fi_value := value |} ]
       else []) ++ validate_dim A field code (S i) rest
  end.

Definition validateFourEyesPolicy (input : option ResolveFourEyesPolicyInput) :
    bool * list FourEyesPolicyValidationIssue :=
  let risk := dim_list (from_option in_fourEyesRequiredRiskCategories dim_absent input) in
  let visual :=
    dim_list (from_option in_fourEyesVisualSidecarTriggerOutcomes dim_absent input) in
  let issues :=
    validate_dim TestCaseRiskCategory "fourEyesRequiredRiskCategories"
      unknown_risk_category 0 risk ++
    validate_dim VisualSidecarValidationOutcome "fourEyesVisualSidecarTriggerOutcomes"
      unknown_visual_sidecar_outcome 0 visual in
  (bool_decide (length issues = 0%nat), issues).

(** The body of the inner loop: one outcome of a matching record. *)
Definition add_outcome_reason (triggers : list VisualSidecarValidationOutcome)
    (reasons : list FourEyesEnforcementReason) (out : VisualSidecarValidationOutcome) :
    list FourEyesEnforcementReason :=
  if bool_decide (out ∈ triggers) then
    match VISUAL_OUTCOME_TO_REASON out with
    | Some reason => set_add reasons reason
    | None => reasons
    end
  else reasons.

(** The body of the outer loop: one record of the report. *)
Definition add_record_reasons (testCase : GeneratedTestCase)
    (triggers : list VisualSidecarValidationOutcome)
    (reasons : list FourEyesEnforcementReason) (record : VisualSidecarValidationRecord) :
    list FourEyesEnforcementReason :=
  if bool_decide (vr_screenId record ∈ tc_traceScreenIds testCase)
  then foldl (add_outcome_reason triggers) reasons (vr_outcomes record)
  else reasons.

(** [collectVisualReasonsForCase]: the reasons in the order the loops add them. *)
Definition collectVisualReasonsForCase (testCase : GeneratedTestCase)
    (triggers : list VisualSidecarValidationOutcome)
    (visualReport : option (list VisualSidecarValidationRecord)) :
    list FourEyesEnforcementReason :=
  match visualReport with
  | None => []
  | Some records =>
      if bool_decide (triggers = []) then []
      else if bool_decide (tc_traceScreenIds testCase = []) then []
      else
        foldl (add_record_reasons testCase triggers) [] records
  end.

Record FourEyesEnforcementEvaluation := {
  fe_enforced : bool;
  fe_reasons : list FourEyesEnforcementReason;
}.

Definition evaluateFourEyesEnforcement (testCase : GeneratedTestCase)
    (policy : FourEyesPolicy)
    (visualReport : option (list VisualSidecarValidationRecord)) :
    FourEyesEnforcementEvaluation :=
  let reasons0 :=
    if bool_decide (tc_riskCategory testCase ∈ requiredRiskCategories policy)
    then [fr_risk_category] else [] in
  let reasons := foldl set_add reasons0
    (collectVisualReasonsForCase testCase (visualSidecarTriggerOutcomes policy)
       visualReport) in
  let sortedReasons := js_sort label_cmp reasons in
  {| fe_enforced := (0 <? length sortedReasons)%nat;
     fe_reasons := sortedReasons |}.

Definition isFourEyesEnforcementReason (value : string) : bool :=
  bool_decide (@parse_label FourEyesEnforcementReason _ value ≠ None).

(** ** Specification of the evaluation *)

(** A record of a screen the case references carries a configured trigger that
    maps to reason [r]. *)
Definition visual_reason_present (tc : GeneratedTestCase)
    (triggers : list VisualSidecarValidationOutcome)
    (records : list VisualSidecarValidationRecord) (r : FourEyesEnforcementReason) : Prop :=
  ∃ record out, record ∈ records ∧ vr_screenId record ∈ tc_traceScreenIds tc ∧
    out ∈ vr_outcomes record ∧ out ∈ triggers ∧ VISUAL_OUTCOME_TO_REASON out = Some r.

Definition four_eyes_reason (tc : GeneratedTestCase) (policy : FourEyesPolicy)
    (report : option (list VisualSidecarValidationRecord))
    (r : FourEyesEnforcementReason) : Prop :=
  (r = fr_risk_category ∧ tc_riskCategory tc ∈ requiredRiskCategories policy) ∨
  visual_reason_present tc (visualSidecarTriggerOutcomes policy) (default [] report) r.

(** ** Lemmas *)

Lemma elem_of_collect_outcomes triggers outs reasons r :
  r ∈ foldl (add_outcome_reason triggers) reasons outs ↔
  r ∈ reasons ∨
  ∃ out, out ∈ outs ∧ out ∈ triggers ∧ VISUAL_OUTCOME_TO_REASON out = Some r.
Proof.
  revert reasons; induction outs as [|o outs IH]; intros reasons; simpl.
  { set_solver. }
  rewrite IH. setoid_rewrite elem_of_cons. unfold add_outcome_reason.
  case_bool_decide; [destruct (VISUAL_OUTCOME_TO_REASON o) eqn:E|];
    rewrite ?elem_of_set_add; naive_solver.
Qed.

Lemma elem_of_collect_records tc triggers records reasons r :
  r ∈ foldl (add_record_reasons tc triggers) reasons records ↔
  r ∈ reasons ∨ visual_reason_present tc triggers records r.
Proof.
  unfold visual_reason_present.
  revert reasons; induction records as [|x records IH]; intros reasons; simpl.
  { set_solver. }
  rewrite IH. setoid_rewrite elem_of_cons. unfold add_record_reasons.
  case_bool_decide; rewrite ?elem_of_collect_outcomes; naive_solver.
Qed.

Lemma elem_of_collectVisualReasonsForCase tc triggers report r :
  r ∈ collectVisualReasonsForCase tc triggers report ↔
  visual_reason_present tc triggers (default [] report) r.
Proof.
  unfold collectVisualReasonsForCase, visual_reason_present.
  destruct report as [records|]; simpl; [|set_solver].
  case_bool_decide as E1; [rewrite E1; set_solver|].
  case_bool_decide as E2; [rewrite E2; set_solver|].
  rewrite elem_of_collect_records. unfold visual_reason_present. set_solver.
Qed.

Lemma visual_reason_not_risk tc triggers records :
  ¬ visual_reason_present tc triggers records fr_risk_category.
Proof. intros (rec & o & _ & _ & _ & _ & E). by destruct o. Qed.

Lemma elem_of_evaluate tc policy report r :
  r ∈ fe_reasons (evaluateFourEyesEnforcement tc policy report) ↔
  four_eyes_reason tc policy report r.
Proof.
  simpl. rewrite elem_of_js_sort, elem_of_foldl_set_add,
    elem_of_collectVisualReasonsForCase. unfold four_eyes_reason.
  case_bool_decide; set_solver.
Qed.

Lemma fe_enforced_iff tc policy report :
  fe_enforced (evaluateFourEyesEnforcement tc policy report) = true ↔
  ∃ r, four_eyes_reason tc policy report r.
Proof.
  unfold fe_enforced, evaluateFourEyesEnforcement. rewrite Nat.ltb_lt.
  setoid_rewrite <- elem_of_evaluate. simpl. destruct (js_sort _ _) as [|r rs]; simpl.
  - split; [lia|]. intros [r Hr]. by apply not_elem_of_nil in Hr.
  - split; [intros _; exists r; constructor|lia].
Qed.

Lemma NoDup_evaluate tc policy report :
  NoDup (fe_reasons (evaluateFourEyesEnforcement tc policy report)).
Proof.
  simpl. apply NoDup_js_sort, NoDup_foldl_set_add.
  case_bool_decide; [apply NoDup_singleton|apply NoDup_nil_2].
Qed.

Lemma validate_dim_nil A `{Label A} field code i raw :
  validate_dim A field code i raw = [] ↔ label <$> omap (@parse_label A _) raw = raw.
Proof.
  revert i; induction raw as [|v raw IH]; intros i; simpl; [done|].
  destruct (parse_label v) as [a|] eqn:E; simpl.
  - apply parse_label_Some in E as ->. rewrite IH.
    split; [intros E'; f_equal; exact E'|by intros [= E']].
  - split; [done|]. intros E'%(f_equal length). exfalso.
    pose proof (length_omap_le (@parse_label A _) raw) as Hl.
    unfold omap in *. simpl in *. rewrite length_fmap in E'. lia.
Qed.

(** ** Properties *)

(** Evaluating a case: it is enforced exactly when some reason applies, and
    the reported reasons are exactly the ones that apply, sorted and without
    duplicates. *)
Theorem evaluateFourEyesEnforcement_spec tc policy report :
  let e := evaluateFourEyesEnforcement tc policy report in
  (fe_enforced e = true ↔ ∃ r, four_eyes_reason tc policy report r) ∧
  (∀ r, r ∈ fe_reasons e ↔ four_eyes_reason tc policy report r) ∧
  NoDup (fe_reasons e) ∧ StronglySorted (cmp_le label_cmp) (fe_reasons e).
Proof.
  intros e. split; [|split; [|split]].
  - apply fe_enforced_iff.
  - apply elem_of_evaluate.
  - apply NoDup_evaluate.
  - apply js_sort_sorted, _.
Qed.

(** A resolved policy is in normal form: cloning it changes nothing, and
    the built-in EU-banking policy is what an absent configuration resolves
    to. *)
Theorem resolveFourEyesPolicy_normal_form input :
  cloneFourEyesPolicy (resolveFourEyesPolicy input) = resolveFourEyesPolicy input ∧
  resolveFourEyesPolicy None = EU_BANKING_DEFAULT_FOUR_EYES_POLICY.
Proof.
  split; [|vm_compute; reflexivity].
  unfold cloneFourEyesPolicy, resolveFourEyesPolicy; simpl.
  by rewrite !dedupeAndSort_idemp.
Qed.

(** Validation accepts a configuration exactly when resolving it drops no
    configured value. *)
Theorem validateFourEyesPolicy_ok_iff_nothing_dropped risk visual :
  let input := {| in_fourEyesRequiredRiskCategories := dim_values risk;
                  in_fourEyesVisualSidecarTriggerOutcomes := dim_values visual |} in
  (validateFourEyesPolicy (Some input)).1 = true ↔
  (∀ s, s ∈ risk → s ∈ label <$> requiredRiskCategories (resolveFourEyesPolicy (Some input))) ∧
  (∀ s, s ∈ visual →
     s ∈ label <$> visualSidecarTriggerOutcomes (resolveFourEyesPolicy (Some input))).
Proof.
  assert (∀ A `{Label A} raw, (∀ s, s ∈ raw → s ∈ label <$> dedupeAndSort (omap (@parse_label A _) raw))
            ↔ label <$> omap (@parse_label A _) raw = raw) as Hdim.
  { intros A HA raw. setoid_rewrite list_elem_of_fmap. setoid_rewrite elem_of_dedupeAndSort.
    split.
    - intros Hall. induction raw as [|v raw IH]; simpl; [done|].
      destruct (Hall v ltac:(constructor)) as (a & -> & _).
      rewrite parse_label_label; simpl. f_equal. apply IH. intros s Hs.
      destruct (Hall s ltac:(by right)) as (b & -> & _).
      exists b. split; [done|]. apply list_elem_of_omap. exists (label b).
      by rewrite parse_label_label.
    - intros Heq s Hs. rewrite <- Heq in Hs. by apply list_elem_of_fmap in Hs. }
  cbv zeta. unfold validateFourEyesPolicy, resolveFourEyesPolicy.
  cbn [from_option in_fourEyesRequiredRiskCategories
    in_fourEyesVisualSidecarTriggerOutcomes dim_list resolve_dim fst
    requiredRiskCategories visualSidecarTriggerOutcomes].
  rewrite bool_decide_eq_true, !Hdim, <- !validate_dim_nil, length_app.
  split; [|intros [-> ->]; done].
  intros Hl. split; apply nil_length_inv; lia.
Qed.

(** Two trigger outcomes that configuration and validation accept can never
    enforce four-eyes, although the module says that any configured trigger on
    a referenced screen does: a policy made of [schema_invalid] and
    [primary_unavailable] enforces nothing whatever the report says. *)
Theorem unmapped_triggers_never_enforce tc report :
  fe_enforced (evaluateFourEyesEnforcement tc
    {| requiredRiskCategories := [];
       visualSidecarTriggerOutcomes := [vo_schema_invalid; vo_primary_unavailable; vo_ok] |}
    report) = false.
Proof.
  destruct (fe_enforced _) eqn:E; [exfalso|done].
  apply fe_enforced_iff in E as (r & [[_ Hr]|(x & o & _ & _ & _ & Ho & Hm)]).
  - simpl in Hr. set_solver.
  - simpl in Ho. set_unfold. naive_solver.
Qed.
