(* ===== verification/PolicyConflicts.v ===== *)
(** * Multi-source conflict pruning

    The part of [packages/production-runner/src/policy-gate.ts] the review
    store relies on: [pruneResolvedMultiSourceConflictViolations], with the
    parsing of the conflict ids out of a violation's reason and the
    escalation lattice of policy decisions. *)

From S2P Require Import Prelude JsString JsList Contracts.

Inductive TestCaseValidationSeverity : Type := sev_error | sev_warning | sev_info.

#[export] Instance TestCaseValidationSeverity_eq_dec :
  EqDecision TestCaseValidationSeverity.
Proof. solve_decision. Defined.

(** [TestCasePolicyViolation]; the outcome is kept as its string. *)
Record TestCasePolicyViolation := {
  pv_rule : string;
  pv_outcome : string;
  pv_severity : TestCaseValidationSeverity;
  pv_reason : string;
  pv_path : option string;
}.

Record TestCasePolicyDecisionRecord := {
  pd_testCaseId : string;
  pd_decision : TestCasePolicyDecision;
  pd_violations : list TestCasePolicyViolation;
}.

(** [TestCasePolicyReport] without the fields that no operation of the
    development reads or writes. *)
Record TestCasePolicyReport := {
  pr_jobId : string;
  pr_policyProfileId : string;
  pr_policyProfileVersion : string;
  pr_totalTestCases : Z;
  pr_approvedCount : Z;
  pr_blockedCount : Z;
  pr_needsReviewCount : Z;
  pr_blocked : bool;
  pr_decisions : list TestCasePolicyDecisionRecord;
  pr_jobLevelViolations : list TestCasePolicyViolation;
}.

Definition decisionRank (d : TestCasePolicyDecision) : Z :=
  match d with pd_approved => 0 | pd_needs_review => 1 | pd_blocked => 2 end.

Definition escalate (current candidate : TestCasePolicyDecision) : TestCasePolicyDecision :=
  if decisionRank current <? decisionRank candidate then candidate else current.

Definition severityToDecision (s : TestCaseValidationSeverity) : TestCasePolicyDecision :=
  match s with
  | sev_error => pd_blocked
  | sev_warning => pd_needs_review
  | sev_info => pd_approved
  end.

(** The named group [ids] of [MULTI_SOURCE_CONFLICT_CASE_REASON_RE]. *)
Definition match_case_reason (reason : string) : option string :=
  rest ← strip_prefix "multi-source conflict" reason;
  let rest := default rest (strip_prefix "(s)" rest) in
  rest ← strip_prefix " " rest;
  ids ← strip_suffix " affect this case" rest;
  if dot_plus ids then Some ids else None.

(** The named group [ids] of [MULTI_SOURCE_CONFLICT_JOB_REASON_RE]. *)
Definition match_job_reason (reason : string) : option string :=
  ids ← strip_prefix "multi-source conflict artifact present: " reason;
  if dot_plus ids then Some ids else None.

Definition comma : Ascii.ascii := Ascii.ascii_of_nat 44.

Definition parseMultiSourceConflictIds (reason : string) : option (list string) :=
  ids ← (match match_case_reason reason with
         | Some ids => Some ids
         | None => match_job_reason reason
         end);
  let values := filter (λ e, e ≠ "") (trim <$> split_on comma ids) in
  if bool_decide (values = []) then None else Some values.

Inductive rewrite_kind : Type := rk_case | rk_job.

Definition conflict_reason (kind : rewrite_kind) (ids : list string) : string :=
  match kind with
  | rk_case => "multi-source conflict(s) " +:+ join ", " ids +:+ " affect this case"
  | rk_job => "multi-source conflict artifact present: " +:+ join ", " ids
  end.

(** The body of the loop of [rewriteViolations]: what one violation becomes. *)
Definition rewrite_violation (isConflictResolved : string → bool) (kind : rewrite_kind)
    (v : TestCasePolicyViolation) : list TestCasePolicyViolation :=
  if bool_decide (pv_outcome v ≠ "multi_source_conflict_present") then [v]
  else
    match parseMultiSourceConflictIds (pv_reason v) with
    | None => [v]
    | Some conflictIds =>
        let unresolved := filter (λ c, isConflictResolved c = false) conflictIds in
        if bool_decide (unresolved = []) then []
        else [ {| pv_rule := pv_rule v; pv_outcome := pv_outcome v;
                  pv_severity := pv_severity v;
                  pv_reason := conflict_reason kind unresolved;
                  pv_path := pv_path v |} ]
    end.

Definition rewriteViolations (isConflictResolved : string → bool)
    (violations : list TestCasePolicyViolation) (kind : rewrite_kind) :
    list TestCasePolicyViolation :=
  flat_map (rewrite_violation isConflictResolved kind) violations.

(** The decision recomputed from the remaining violations. *)
Definition violations_decision (violations : list TestCasePolicyViolation) :
    TestCasePolicyDecision :=
  foldl (λ d v, escalate d (severityToDecision (pv_severity v))) pd_approved violations.

Definition count_decisions (d : TestCasePolicyDecision)
    (ds : list TestCasePolicyDecisionRecord) : Z :=
  Z.of_nat (length (filter (λ r, pd_decision r = d) ds)).

Definition prune_decision (isConflictResolved : string → bool)
    (d : TestCasePolicyDecisionRecord) : TestCasePolicyDecisionRecord :=
  let violations := rewriteViolations isConflictResolved (pd_violations d) rk_case in
  {| pd_testCaseId := pd_testCaseId d;
     pd_decision := violations_decision violations;
     pd_violations := violations |}.

Definition pruneResolvedMultiSourceConflictViolations
    (report : TestCasePolicyReport) (isConflictResolved : string → bool) :
    TestCasePolicyReport :=
  let decisions := prune_decision isConflictResolved <$> pr_decisions report in
  let jobLevelViolations :=
    rewriteViolations isConflictResolved (pr_jobLevelViolations report) rk_job in
  {| pr_jobId := pr_jobId report;
     pr_policyProfileId := pr_policyProfileId report;
     pr_policyProfileVersion := pr_policyProfileVersion report;
     pr_totalTestCases := pr_totalTestCases report;
     pr_approvedCount := count_decisions pd_approved decisions;
     pr_blockedCount := count_decisions pd_blocked decisions;
     pr_needsReviewCount := count_decisions pd_needs_review decisions;
     pr_blocked :=
       existsb (λ d, bool_decide (pd_decision d = pd_blocked)) decisions
       || existsb (λ v, bool_decide (pv_severity v = sev_error)) jobLevelViolations;
     pr_decisions := decisions;
     pr_jobLevelViolations := jobLevelViolations |}.

(** ** Lemmas *)

Lemma escalate_rank a b :
  decisionRank (escalate a b) = decisionRank a `max` decisionRank b.
Proof. destruct a, b; reflexivity. Qed.

Lemma fold_decision_rank d vs :
  decisionRank (foldl (λ d v, escalate d (severityToDecision (pv_severity v))) d vs) =
  foldr (λ v r, decisionRank (severityToDecision (pv_severity v)) `max` r) (decisionRank d) vs.
Proof.
  revert d; induction vs as [|v vs IH]; intros d; simpl; [done|].
  rewrite IH, escalate_rank. clear IH.
  induction vs as [|w vs IH]; simpl; [apply Z.max_comm|]. rewrite IH. lia.
Qed.

Lemma decisionRank_inj : Inj (=) (=) decisionRank.
Proof. intros [] []; naive_solver. Qed.

Lemma rewrite_violation_severity f kind v w :
  w ∈ rewrite_violation f kind v → pv_severity w = pv_severity v.
Proof.
  unfold rewrite_violation. case_bool_decide; [set_solver|].
  destruct (parseMultiSourceConflictIds _); [|set_solver].
  case_bool_decide; set_solver.
Qed.

Lemma violations_rank_le f kind vs r :
  0 <= r →
  foldr (λ v r, decisionRank (severityToDecision (pv_severity v)) `max` r) r
    (rewriteViolations f vs kind) <=
  foldr (λ v r, decisionRank (severityToDecision (pv_severity v)) `max` r) r vs.
Proof.
  intros Hr. unfold rewriteViolations. induction vs as [|v vs IH]; simpl; [done|].
  unfold rewrite_violation at 1. case_bool_decide; simpl; [lia|].
  destruct (parseMultiSourceConflictIds _); simpl; [|lia].
  case_bool_decide; simpl; lia.
Qed.

(** The partition of a report's decisions over the three counters. *)
Lemma count_decisions_total ds :
  count_decisions pd_approved ds + count_decisions pd_blocked ds
  + count_decisions pd_needs_review ds = Z.of_nat (length ds).
Proof.
  unfold count_decisions. induction ds as [|d ds IH]; [done|].
  rewrite !filter_cons. destruct (pd_decision d) eqn:E; repeat case_decide; simpl in *;
    try congruence; lia.
Qed.

(** ** Properties *)

(** Pruning resolved conflicts never makes a case stricter than its own
    violations do, and the counters of the pruned report partition its
    decisions. *)
Theorem prune_never_escalates report f i d :
  pr_decisions report !! i = Some d →
  (∃ d', pr_decisions (pruneResolvedMultiSourceConflictViolations report f) !! i = Some d' ∧
     pd_testCaseId d' = pd_testCaseId d ∧
     decisionRank (pd_decision d') <= decisionRank (violations_decision (pd_violations d))) ∧
  let r := pruneResolvedMultiSourceConflictViolations report f in
  pr_approvedCount r + pr_blockedCount r + pr_needsReviewCount r =
    Z.of_nat (length (pr_decisions report)).
Proof.
  intros Hd. split.
  - exists (prune_decision f d). simpl. rewrite list_lookup_fmap, Hd. split; [done|].
    split; [done|]. simpl. unfold violations_decision. rewrite !fold_decision_rank.
    by apply violations_rank_le.
  - simpl. by rewrite count_decisions_total, length_fmap.
Qed.

(** A warning about two conflicts, of which the first one is resolved. *)
Definition two_conflicts : TestCasePolicyReport :=
  {| pr_jobId := "job"; pr_policyProfileId := "p"; pr_policyProfileVersion := "1";
     pr_totalTestCases := 1; pr_approvedCount := 0; pr_blockedCount := 0;
     pr_needsReviewCount := 1; pr_blocked := false;
     pr_decisions :=
       [ {| pd_testCaseId := "tc-1"; pd_decision := pd_needs_review;
            pd_violations :=
              [ {| pv_rule := "r"; pv_outcome := "multi_source_conflict_present";
                   pv_severity := sev_warning;
                   pv_reason := "multi-source conflict(s) c1, c2 affect this case";
                   pv_path := None |} ] |} ];
     pr_jobLevelViolations := [] |}.

Example two_conflicts_pruned :
  (pv_reason <$> flat_map pd_violations (pr_decisions
     (pruneResolvedMultiSourceConflictViolations two_conflicts (λ c, bool_decide (c = "c1"))))) =
    ["multi-source conflict(s) c2 affect this case"] ∧
  (pd_decision <$> pr_decisions
     (pruneResolvedMultiSourceConflictViolations two_conflicts (λ _, true))) = [pd_approved].
Proof. split; vm_compute; reflexivity. Qed.

Lemma prune_never_escalates_witness :
  ∃ d', pr_decisions (pruneResolvedMultiSourceConflictViolations two_conflicts (λ _, true))
          !! 0%nat = Some d' ∧ decisionRank (pd_decision d') <= 1.
Proof.
  edestruct (prune_never_escalates two_conflicts (λ _, true) 0) as [(d' & Hd & _ & Hr) _];
    [reflexivity|]. exists d'. split; [exact Hd|exact Hr].
Defined.
