(* ===== verification/ReviewStore.v ===== *)
(** * Review store: data and operations

    [packages/production-runner/src/review-store.ts]: the event log and the
    per-job snapshot, [seedSnapshot], [refreshPolicyDecisions] and
    [recordTransition], with the four-eyes refusals and the snapshot effects of
    each event.

    An operation reads the two files of its job's directory and returns its
    result with the list of atomic file writes it makes, in order
    ([writeAtomicJson] replaces a whole file). The uuids that [randomUUID]
    returns are arguments. *)

From S2P Require Import Prelude JsString JsList JsValue Contracts ReviewStateMachine.
From S2P Require Import FourEyesPolicy PolicyConflicts.

Definition NOTE_MAX_LENGTH : Z := 1024.
Definition ACTOR_MAX_LENGTH : Z := 256.

(** ** Data *)

(** A value of the flat metadata of an event. *)
Inductive meta_value : Type :=
| MetaString (s : string)
| MetaNumber (q : Q)
| MetaBool (b : bool)
| MetaNull.

(** [ReviewEvent]; the two version fields are constants. *)
Record ReviewEvent := {
  re_id : string;
  re_jobId : string;
  re_testCaseId : option string;
  re_kind : ReviewEventKind;
  re_at : string;
  re_actor : option string;
  re_note : option string;
  re_fromState : option ReviewState;
  re_toState : option ReviewState;
  re_sequence : Z;
  re_metadata : option (gmap string meta_value);
}.

(** [ReviewSnapshot]: the entry of one test case. *)
Record ReviewSnapshot := {
  rs_testCaseId : string;
  rs_state : ReviewState;
  rs_policyDecision : TestCasePolicyDecision;
  rs_lastEventId : string;
  rs_lastEventAt : string;
  rs_fourEyesEnforced : bool;
  rs_approvers : list string;
  rs_fourEyesReasons : option (list FourEyesEnforcementReason);
  rs_primaryReviewer : option string;
  rs_primaryApprovalAt : option string;
  rs_secondaryReviewer : option string;
  rs_secondaryApprovalAt : option string;
  rs_lastEditor : option string;
}.

#[export] Instance ReviewSnapshot_eq_dec : EqDecision ReviewSnapshot.
Proof. solve_decision. Defined.

Record SnapshotCounts := {
  approvedCount : Z;
  needsReviewCount : Z;
  rejectedCount : Z;
  pendingSecondaryApprovalCount : Z;
}.

#[export] Instance SnapshotCounts_eq_dec : EqDecision SnapshotCounts.
Proof. solve_decision. Defined.

(** [ReviewGateSnapshot], with its counters grouped as [computeCounts] returns
    them. *)
Record ReviewGateSnapshot := {
  rg_jobId : string;
  rg_generatedAt : string;
  rg_perTestCase : list ReviewSnapshot;
  rg_counts : SnapshotCounts;
  rg_fourEyesPolicy : option FourEyesPolicy;
}.

(** [PersistedReviewEventsEnvelope] *)
Record PersistedReviewEventsEnvelope := {
  en_jobId : string;
  en_events : list ReviewEvent;
  en_nextSequence : Z;
}.

(** The two files of a job's directory; [None]: the file does not exist. *)
Record job_dir := {
  dir_events : option PersistedReviewEventsEnvelope;
  dir_snapshot : option ReviewGateSnapshot;
}.

Definition empty_dir : job_dir := {| dir_events := None; dir_snapshot := None |}.

Inductive file_write : Type :=
| WriteEvents (en : PersistedReviewEventsEnvelope)
| WriteSnapshot (sn : ReviewGateSnapshot).

Definition apply_write (d : job_dir) (w : file_write) : job_dir :=
  match w with
  | WriteEvents en => {| dir_events := Some en; dir_snapshot := dir_snapshot d |}
  | WriteSnapshot sn => {| dir_events := dir_events d; dir_snapshot := Some sn |}
  end.

Definition apply_writes (d : job_dir) (ws : list file_write) : job_dir :=
  foldl apply_write d ws.

Inductive FourEyesRefusalCode : Type :=
| four_eyes_actor_required
| self_approval_refused
| duplicate_principal_refused
| primary_approval_required
| four_eyes_not_required.

Inductive StoreRefusal : Type :=
| snapshot_missing
| test_case_unknown
| test_case_id_required
| note_too_long
| actor_too_long
| kind_unknown
| transition_refused (c : ReviewTransitionRefusalCode)
| four_eyes_refused (c : FourEyesRefusalCode)
| policy_report_job_mismatch
| policy_report_test_case_mismatch
| envelope_job_mismatch.

Record RecordTransitionInput := {
  rt_jobId : string;
  rt_testCaseId : option string;
  rt_kind : string;
  rt_at : string;
  rt_actor : option string;
  rt_note : option string;
  rt_metadata : option (gmap string meta_value);
}.

Record RefreshPolicyDecisionsInput := {
  rp_jobId : string;
  rp_at : string;
  rp_policy : TestCasePolicyReport;
}.

Record SeedSnapshotInput := {
  si_jobId : string;
  si_generatedAt : string;
  si_testCases : list GeneratedTestCase;
  si_policy : TestCasePolicyReport;
  si_fourEyesPolicy : option FourEyesPolicy;
  si_visualReport : option (list VisualSidecarValidationRecord);
}.

(** ** Helpers of the store *)

Definition add_count (c : SnapshotCounts) (entry : ReviewSnapshot) : SnapshotCounts :=
  match rs_state entry with
  | st_approved | st_exported | st_transferred =>
      {| approvedCount := approvedCount c + 1; needsReviewCount := needsReviewCount c;
         rejectedCount := rejectedCount c;
         pendingSecondaryApprovalCount := pendingSecondaryApprovalCount c |}
  | st_needs_review | st_edited =>
      {| approvedCount := approvedCount c; needsReviewCount := needsReviewCount c + 1;
         rejectedCount := rejectedCount c;
         pendingSecondaryApprovalCount := pendingSecondaryApprovalCount c |}
  | st_pending_secondary_approval =>
      {| approvedCount := approvedCount c; needsReviewCount := needsReviewCount c;
         rejectedCount := rejectedCount c;
         pendingSecondaryApprovalCount := pendingSecondaryApprovalCount c + 1 |}
  | st_rejected =>
      {| approvedCount := approvedCount c; needsReviewCount := needsReviewCount c;
         rejectedCount := rejectedCount c + 1;
         pendingSecondaryApprovalCount := pendingSecondaryApprovalCount c |}
  | st_generated => c
  end.

Definition computeCounts (perTestCase : list ReviewSnapshot) : SnapshotCounts :=
  foldl add_count
    {| approvedCount := 0; needsReviewCount := 0; rejectedCount := 0;
       pendingSecondaryApprovalCount := 0 |} perTestCase.

Definition sortSnapshotEntries `{LocaleCompare} (entries : list ReviewSnapshot) :
    list ReviewSnapshot :=
  js_sort (cmp_on rs_testCaseId localeCompare) entries.

(** [readEnvelope] on a file that parses and validates: the only check left is
    that it belongs to the job. *)
Definition readEnvelope (jobId : string) (d : job_dir) :
    outcome StoreRefusal (option PersistedReviewEventsEnvelope) :=
  match dir_events d with
  | None => Ok None
  | Some en =>
      if bool_decide (en_jobId en ≠ jobId) then Throw envelope_job_mismatch
      else Ok (Some en)
  end.

Definition readSnapshotInternal (d : job_dir) : option ReviewGateSnapshot := dir_snapshot d.

(** [readConflictAwarePolicy]: [resolved] is the set of resolved conflict ids
    projected from the run's reconciliation report, [None] when the run has no
    such report. *)
Definition readConflictAwarePolicy (resolved : option (list string))
    (policy : TestCasePolicyReport) : TestCasePolicyReport :=
  match resolved with
  | None => policy
  | Some ids =>
      pruneResolvedMultiSourceConflictViolations policy (λ c, bool_decide (c ∈ ids))
  end.

Definition resolveEventKind (inbound : ReviewEventKind) (entry : option ReviewSnapshot) :
    ReviewEventKind :=
  match entry with
  | None => inbound
  | Some e =>
      if bool_decide (inbound ≠ ev_approved) then inbound
      else if negb (rs_fourEyesEnforced e) then ev_approved
      else match rs_state e with
           | st_needs_review | st_edited | st_generated => ev_primary_approved
           | st_pending_secondary_approval => ev_secondary_approved
           | _ => ev_approved
           end
  end.

(** The four approval fields and the approver list, dropped. *)
Definition clear_approvals (e : ReviewSnapshot) : ReviewSnapshot :=
  {| rs_testCaseId := rs_testCaseId e; rs_state := rs_state e;
     rs_policyDecision := rs_policyDecision e; rs_lastEventId := rs_lastEventId e;
     rs_lastEventAt := rs_lastEventAt e; rs_fourEyesEnforced := rs_fourEyesEnforced e;
     rs_approvers := []; rs_fourEyesReasons := rs_fourEyesReasons e;
     rs_primaryReviewer := None; rs_primaryApprovalAt := None;
     rs_secondaryReviewer := None; rs_secondaryApprovalAt := None;
     rs_lastEditor := rs_lastEditor e |}.

Definition set_state_and_approvers (e : ReviewSnapshot) (st : ReviewState)
    (eventId eventAt : string) (approvers : list string) : ReviewSnapshot :=
  {| rs_testCaseId := rs_testCaseId e; rs_state := st;
     rs_policyDecision := rs_policyDecision e; rs_lastEventId := eventId;
     rs_lastEventAt := eventAt; rs_fourEyesEnforced := rs_fourEyesEnforced e;
     rs_approvers := approvers; rs_fourEyesReasons := rs_fourEyesReasons e;
     rs_primaryReviewer := rs_primaryReviewer e;
     rs_primaryApprovalAt := rs_primaryApprovalAt e;
     rs_secondaryReviewer := rs_secondaryReviewer e;
     rs_secondaryApprovalAt := rs_secondaryApprovalAt e;
     rs_lastEditor := rs_lastEditor e |}.

Definition set_primary (e : ReviewSnapshot) (actor at_ : string) : ReviewSnapshot :=
  {| rs_testCaseId := rs_testCaseId e; rs_state := rs_state e;
     rs_policyDecision := rs_policyDecision e; rs_lastEventId := rs_lastEventId e;
     rs_lastEventAt := rs_lastEventAt e; rs_fourEyesEnforced := rs_fourEyesEnforced e;
     rs_approvers := rs_approvers e; rs_fourEyesReasons := rs_fourEyesReasons e;
     rs_primaryReviewer := Some actor; rs_primaryApprovalAt := Some at_;
     rs_secondaryReviewer := rs_secondaryReviewer e;
     rs_secondaryApprovalAt := rs_secondaryApprovalAt e;
     rs_lastEditor := rs_lastEditor e |}.

Definition set_secondary (e : ReviewSnapshot) (actor at_ : string) : ReviewSnapshot :=
  {| rs_testCaseId := rs_testCaseId e; rs_state := rs_state e;
     rs_policyDecision := rs_policyDecision e; rs_lastEventId := rs_lastEventId e;
     rs_lastEventAt := rs_lastEventAt e; rs_fourEyesEnforced := rs_fourEyesEnforced e;
     rs_approvers := rs_approvers e; rs_fourEyesReasons := rs_fourEyesReasons e;
     rs_primaryReviewer := rs_primaryReviewer e;
     rs_primaryApprovalAt := rs_primaryApprovalAt e;
     rs_secondaryReviewer := Some actor; rs_secondaryApprovalAt := Some at_;
     rs_lastEditor := rs_lastEditor e |}.

Definition set_lastEditor (e : ReviewSnapshot) (editor : option string) : ReviewSnapshot :=
  {| rs_testCaseId := rs_testCaseId e; rs_state := rs_state e;
     rs_policyDecision := rs_policyDecision e; rs_lastEventId := rs_lastEventId e;
     rs_lastEventAt := rs_lastEventAt e; rs_fourEyesEnforced := rs_fourEyesEnforced e;
     rs_approvers := rs_approvers e; rs_fourEyesReasons := rs_fourEyesReasons e;
     rs_primaryReviewer := rs_primaryReviewer e;
     rs_primaryApprovalAt := rs_primaryApprovalAt e;
     rs_secondaryReviewer := rs_secondaryReviewer e;
     rs_secondaryApprovalAt := rs_secondaryApprovalAt e;
     rs_lastEditor := editor |}.

Definition next_approvers (entry : ReviewSnapshot) (actor : option string)
    (kind : ReviewEventKind) : list string :=
  match actor with
  | Some a =>
      if is_approval_kind kind && negb (bool_decide (a ∈ rs_approvers entry))
      then js_sort String.compare (rs_approvers entry ++ [a])
      else rs_approvers entry
  | None => rs_approvers entry
  end.

Definition applyEntryEffects (entry : ReviewSnapshot) (toState : ReviewState)
    (eventId eventAt : string) (actor : option string) (kind : ReviewEventKind) :
    ReviewSnapshot :=
  let updated := set_state_and_approvers entry toState eventId eventAt
                   (next_approvers entry actor kind) in
  let updated := match actor with
                 | Some a => if bool_decide (kind = ev_primary_approved)
                             then set_primary updated a eventAt else updated
                 | None => updated
                 end in
  let updated := match actor with
                 | Some a => if bool_decide (kind = ev_secondary_approved)
                             then set_secondary updated a eventAt else updated
                 | None => updated
                 end in
  let updated := if bool_decide (kind = ev_edited)
                 then clear_approvals (set_lastEditor updated actor) else updated in
  if bool_decide (kind = ev_review_started)
     && bool_decide (rs_state entry ∈ [st_approved; st_pending_secondary_approval; st_edited])
  then clear_approvals updated else updated.

Definition actor_missing (actor : option string) : bool :=
  match actor with None => true | Some a => bool_decide (a = "") end.

Definition opt_mem (actor : option string) (l : list string) : bool :=
  match actor with Some a => bool_decide (a ∈ l) | None => false end.

Definition applyFourEyesRefusals (actor : option string) (resolvedKind : ReviewEventKind)
    (entry : option ReviewSnapshot) : option FourEyesRefusalCode :=
  match entry with
  | None => None
  | Some e =>
      let is_primary := bool_decide (resolvedKind = ev_primary_approved) in
      let is_secondary := bool_decide (resolvedKind = ev_secondary_approved) in
      let is_editor := bool_decide (is_Some (rs_lastEditor e))
                       && bool_decide (rs_lastEditor e = actor) in
      if (is_primary || is_secondary) && negb (rs_fourEyesEnforced e)
      then Some four_eyes_not_required
      else if (is_primary || is_secondary) && actor_missing actor
      then Some four_eyes_actor_required
      else if is_primary && is_editor then Some self_approval_refused
      else if is_primary && opt_mem actor (rs_approvers e)
      then Some duplicate_principal_refused
      else if is_secondary
              && negb (bool_decide (rs_state e = st_pending_secondary_approval))
      then Some primary_approval_required
      else if is_secondary && bool_decide (is_Some (rs_primaryReviewer e))
              && bool_decide (rs_primaryReviewer e = actor)
      then Some self_approval_refused
      else if is_secondary && opt_mem actor (rs_approvers e)
      then Some duplicate_principal_refused
      else if is_secondary && is_editor then Some self_approval_refused
      else None
  end.
