(* ===== verification/ReviewStoreOps.v ===== *)
(** * Review store: the three operations

    [recordTransition], [refreshPolicyDecisions] and [seedSnapshot] of
    [FileSystemReviewStore], each as the result it returns and the writes it
    makes. [withJobLock] runs the operations of one job one after the other
    (file JobLock). *)

From S2P Require Import Prelude JsString JsList JsValue Contracts ReviewStateMachine.
From S2P Require Import FourEyesPolicy PolicyConflicts ReviewStore.

(** ** recordTransition *)

Definition too_long (limit : Z) (s : option string) : bool :=
  match s with Some x => limit <? Z.of_nat (String.length x) | None => false end.

(** The entry the event is about; [Ok None] is a job-level note. *)
Definition find_entry (kind : ReviewEventKind) (testCaseId : option string)
    (entries : list ReviewSnapshot) : outcome StoreRefusal (option ReviewSnapshot) :=
  match testCaseId with
  | None => if bool_decide (kind = ev_note) then Ok None else Throw test_case_id_required
  | Some id =>
      match find_by rs_testCaseId id entries with
      | None => Throw test_case_unknown
      | Some e => Ok (Some e)
      end
  end.

Definition transition_event (input : RecordTransitionInput) (kind : ReviewEventKind)
    (eventId : string) (fromState toState : ReviewState) (sequence : Z) : ReviewEvent :=
  {| re_id := eventId; re_jobId := rt_jobId input;
     re_testCaseId := rt_testCaseId input; re_kind := kind; re_at := rt_at input;
     re_actor := rt_actor input; re_note := rt_note input;
     re_fromState := Some fromState; re_toState := Some toState;
     re_sequence := sequence; re_metadata := rt_metadata input |}.

Definition append_event (en : PersistedReviewEventsEnvelope) (ev : ReviewEvent) :
    PersistedReviewEventsEnvelope :=
  {| en_jobId := en_jobId en; en_events := en_events en ++ [ev];
     en_nextSequence := en_nextSequence en + 1 |}.

(** [{ ...snapshot, perTestCase: sorted, ...counts }] *)
Definition with_entries `{LocaleCompare} (sn : ReviewGateSnapshot)
    (entries : list ReviewSnapshot) : ReviewGateSnapshot :=
  let sorted := sortSnapshotEntries entries in
  {| rg_jobId := rg_jobId sn; rg_generatedAt := rg_generatedAt sn;
     rg_perTestCase := sorted; rg_counts := computeCounts sorted;
     rg_fourEyesPolicy := rg_fourEyesPolicy sn |}.

(** The entry after the event: the full effects, or for a note the touch of the
    last-event pointer. *)
Definition updated_entry (input : RecordTransitionInput) (entry : ReviewSnapshot)
    (toState : ReviewState) (eventId : string) (kind : ReviewEventKind) : ReviewSnapshot :=
  if bool_decide (kind = ev_note)
  then set_state_and_approvers entry (rs_state entry) eventId (rt_at input) (rs_approvers entry)
  else applyEntryEffects entry toState eventId (rt_at input) (rt_actor input) kind.

Definition transition_effects `{LocaleCompare} (input : RecordTransitionInput)
    (eventId : string) (kind : ReviewEventKind)
    (en : PersistedReviewEventsEnvelope) (sn : ReviewGateSnapshot) :
    outcome StoreRefusal (ReviewEvent * ReviewGateSnapshot * PersistedReviewEventsEnvelope) :=
  (let* entry := find_entry kind (rt_testCaseId input) (rg_perTestCase sn) in
   let fromState := match entry with Some e => rs_state e | None => st_generated end in
   let resolvedKind := resolveEventKind kind entry in
   match applyFourEyesRefusals (rt_actor input) resolvedKind entry with
   | Some c => Throw (four_eyes_refused c)
   | None =>
       match transitionReviewState fromState resolvedKind (rs_policyDecision <$> entry) with
       | Throw c => Throw (transition_refused c)
       | Ok toState =>
           let event := transition_event input resolvedKind eventId fromState toState
                          (en_nextSequence en) in
           let nextEntries :=
             match entry with
             | Some e => replace_by rs_testCaseId (rs_testCaseId e)
                           (updated_entry input e toState eventId resolvedKind)
                           (rg_perTestCase sn)
             | None => rg_perTestCase sn
             end in
           Ok (event, with_entries sn nextEntries, append_event en event)
       end
   end)%outcome.

Definition recordTransition `{LocaleCompare} (d : job_dir) (input : RecordTransitionInput)
    (eventId : string) :
    outcome StoreRefusal (ReviewEvent * ReviewGateSnapshot) * list file_write :=
  let r :=
    (guard_throw (too_long NOTE_MAX_LENGTH (rt_note input)) note_too_long ;;;
     guard_throw (too_long ACTOR_MAX_LENGTH (rt_actor input)) actor_too_long ;;;
     match @parse_label ReviewEventKind _ (rt_kind input) with
     | None => Throw kind_unknown
     | Some kind =>
         let* envelope := readEnvelope (rt_jobId input) d in
         match envelope, readSnapshotInternal d with
         | Some en, Some sn => transition_effects input eventId kind en sn
         | _, _ => Throw snapshot_missing
         end
     end)%outcome in
  match r with
  | Throw e => (Throw e, [])
  | Ok (event, snapshot, envelope) =>
      (Ok (event, snapshot), [WriteEvents envelope; WriteSnapshot snapshot])
  end.

(** ** refreshPolicyDecisions *)

Definition MULTI_SOURCE_CONFLICT : string := "multi_source_conflict_present".
Definition CUSTOM_CONTEXT_ESCALATION : string := "custom_context_risk_escalation".

Definition has_outcome (out : string) (d : TestCasePolicyDecisionRecord) : bool :=
  existsb (λ v, bool_decide (pv_outcome v = out)) (pd_violations d).

(** The loop over the report's decisions: the map of decisions, refused when a
    row is unknown or repeated. *)
Definition add_decision (known : list string)
    (decisions : list TestCasePolicyDecisionRecord) (d : TestCasePolicyDecisionRecord) :
    outcome StoreRefusal (list TestCasePolicyDecisionRecord) :=
  if negb (bool_decide (pd_testCaseId d ∈ known))
     || bool_decide (pd_testCaseId d ∈ pd_testCaseId <$> decisions)
  then Throw policy_report_test_case_mismatch
  else Ok (decisions ++ [d]).

(** The entry with the report's decision and the recomputed reasons. *)
Definition refreshed_entry (d : TestCasePolicyDecisionRecord) (entry : ReviewSnapshot) :
    ReviewSnapshot :=
  let reasons := filter (λ r, r ≠ fr_multi_source_conflict_present)
                   (set_of (default [] (rs_fourEyesReasons entry))) in
  let reasons := if has_outcome MULTI_SOURCE_CONFLICT d
                 then set_add reasons fr_multi_source_conflict_present else reasons in
  let sortedReasons := js_sort label_cmp reasons in
  {| rs_testCaseId := rs_testCaseId entry; rs_state := rs_state entry;
     rs_policyDecision := pd_decision d; rs_lastEventId := rs_lastEventId entry;
     rs_lastEventAt := rs_lastEventAt entry;
     rs_fourEyesEnforced := (0 <? length sortedReasons)%nat;
     rs_approvers := rs_approvers entry;
     rs_fourEyesReasons := if (0 <? length sortedReasons)%nat then Some sortedReasons else None;
     rs_primaryReviewer := rs_primaryReviewer entry;
     rs_primaryApprovalAt := rs_primaryApprovalAt entry;
     rs_secondaryReviewer := rs_secondaryReviewer entry;
     rs_secondaryApprovalAt := rs_secondaryApprovalAt entry;
     rs_lastEditor := rs_lastEditor entry |}.

(** [changedEntries]: the refreshed entries that differ from the stored ones. *)
Definition changed_entry (decisions : list TestCasePolicyDecisionRecord)
    (entry : ReviewSnapshot) : option ReviewSnapshot :=
  match find_by pd_testCaseId (rs_testCaseId entry) decisions with
  | None => None
  | Some d =>
      let next := refreshed_entry d entry in
      if bool_decide (entry = next) then None else Some next
  end.

Definition changed_entries (decisions : list TestCasePolicyDecisionRecord)
    (entries : list ReviewSnapshot) : list ReviewSnapshot :=
  flat_map (λ e, match changed_entry decisions e with Some x => [x] | None => [] end) entries.

(** A changed entry with its new last-event pointer; a blocked decision takes an
    approved, pending or edited case back to review without approvals. *)
Definition touch_changed (eventId at_ : string) (changed : ReviewSnapshot) : ReviewSnapshot :=
  let next := set_state_and_approvers changed (rs_state changed) eventId at_
                (rs_approvers changed) in
  if bool_decide (rs_policyDecision next = pd_blocked)
     && bool_decide (rs_state next ∈ [st_approved; st_pending_secondary_approval; st_edited])
  then clear_approvals (set_state_and_approvers next st_needs_review eventId at_ [])
  else next.

(** [new Map(changedEntries.map((e) => [e.testCaseId, e])).get(id)]: of several
    entries with one id the last wins. *)
Definition changed_lookup (changed : list ReviewSnapshot) (id : string) : option ReviewSnapshot :=
  find_by rs_testCaseId id (reverse changed).

Definition REFRESH_NOTE : string :=
  "Policy decisions refreshed from override-aware policy report.".

Definition refresh_event (input : RefreshPolicyDecisionsInput) (policy : TestCasePolicyReport)
    (eventId : string) (sequence : Z) (changedCount : Z) : ReviewEvent :=
  {| re_id := eventId; re_jobId := rp_jobId input; re_testCaseId := None;
     re_kind := ev_note; re_at := rp_at input; re_actor := None;
     re_note := Some REFRESH_NOTE; re_fromState := None; re_toState := None;
     re_sequence := sequence;
     re_metadata := Some
       (list_to_map [("policyDecisionRefresh", MetaString "semantic_content_overrides");
        ("changedCount", MetaNumber (inject_Z changedCount));
        ("policyProfileId", MetaString (pr_policyProfileId policy));
        ("policyProfileVersion", MetaString (pr_policyProfileVersion policy))]) |}.

(** What an accepted refresh returns: the snapshot, the number of changed
    entries, and the event when there were any. *)
Record RefreshResult := {
  rr_snapshot : ReviewGateSnapshot;
  rr_changedCount : Z;
  rr_event : option ReviewEvent;
}.

Definition refreshPolicyDecisions `{LocaleCompare} (d : job_dir)
    (resolved : option (list string)) (input : RefreshPolicyDecisionsInput)
    (eventId : string) : outcome StoreRefusal RefreshResult * list file_write :=
  let r :=
    (let* envelope := readEnvelope (rp_jobId input) d in
     match envelope, readSnapshotInternal d with
     | Some en, Some sn =>
         let policy := readConflictAwarePolicy resolved (rp_policy input) in
         guard_throw (bool_decide (pr_jobId policy ≠ rp_jobId input))
           policy_report_job_mismatch ;;;
         guard_throw (bool_decide (pr_totalTestCases policy ≠
                                   Z.of_nat (length (rg_perTestCase sn))))
           policy_report_test_case_mismatch ;;;
         let* decisions := outcome_foldl
           (add_decision (rs_testCaseId <$> rg_perTestCase sn)) [] (pr_decisions policy) in
         let changed := changed_entries decisions (rg_perTestCase sn) in
         if bool_decide (changed = [])
         then Ok ({| rr_snapshot := sn; rr_changedCount := 0; rr_event := None |}, None)
         else
           let count := Z.of_nat (length changed) in
           let event := refresh_event input policy eventId (en_nextSequence en) count in
           let nextEntries :=
             (λ e, match changed_lookup changed (rs_testCaseId e) with
                   | None => e
                   | Some c => touch_changed eventId (rp_at input) c
                   end) <$> rg_perTestCase sn in
           Ok ({| rr_snapshot := with_entries sn nextEntries; rr_changedCount := count;
                  rr_event := Some event |},
               Some (append_event en event))
     | _, _ => Throw snapshot_missing
     end)%outcome in
  match r with
  | Throw e => (Throw e, [])
  | Ok (res, None) => (Ok res, [])
  | Ok (res, Some en) => (Ok res, [WriteEvents en; WriteSnapshot (rr_snapshot res)])
  end.

(** ** seedSnapshot *)

(** The decision of a case: the last row about it, [needs_review] when there is
    none. *)
Definition seed_decision (policy : TestCasePolicyReport) (id : string) :
    TestCasePolicyDecision :=
  match find_by pd_testCaseId id (reverse (pr_decisions policy)) with
  | Some d => pd_decision d
  | None => pd_needs_review
  end.

Definition escalated (out : string) (policy : TestCasePolicyReport) (id : string) : bool :=
  existsb (λ d, bool_decide (pd_testCaseId d = id) && has_outcome out d) (pr_decisions policy).

(** The reasons four-eyes is enforced for a fresh case. *)
Definition seed_reasons (input : SeedSnapshotInput) (policy : TestCasePolicyReport)
    (tc : GeneratedTestCase) : list FourEyesEnforcementReason :=
  let reasons := match si_fourEyesPolicy input with
                 | Some p => fe_reasons (evaluateFourEyesEnforcement tc p (si_visualReport input))
                 | None => []
                 end in
  let reasons := match si_fourEyesPolicy input with
                 | Some p => if escalated CUSTOM_CONTEXT_ESCALATION policy (tc_id tc)
                                && bool_decide (rc_regulated_data ∈ requiredRiskCategories p)
                             then set_add reasons fr_risk_category else reasons
                 | None => reasons
                 end in
  let reasons := if escalated MULTI_SOURCE_CONFLICT policy (tc_id tc)
                 then set_add reasons fr_multi_source_conflict_present else reasons in
  js_sort label_cmp reasons.

Definition seed_event (input : SeedSnapshotInput) (policy : TestCasePolicyReport)
    (tc : GeneratedTestCase) (eventId : string) (sequence : Z) : ReviewEvent :=
  let decision := seed_decision policy (tc_id tc) in
  {| re_id := eventId; re_jobId := si_jobId input; re_testCaseId := Some (tc_id tc);
     re_kind := ev_generated; re_at := si_generatedAt input; re_actor := None;
     re_note := None; re_fromState := Some st_generated;
     re_toState := Some (seedReviewStateFromPolicy decision); re_sequence := sequence;
     re_metadata := Some {["policyDecision" := MetaString (label decision)]} |}.

Definition seed_entry (input : SeedSnapshotInput) (policy : TestCasePolicyReport)
    (tc : GeneratedTestCase) (eventId : string) : ReviewSnapshot :=
  let decision := seed_decision policy (tc_id tc) in
  let reasons := seed_reasons input policy tc in
  {| rs_testCaseId := tc_id tc; rs_state := seedReviewStateFromPolicy decision;
     rs_policyDecision := decision; rs_lastEventId := eventId;
     rs_lastEventAt := si_generatedAt input;
     rs_fourEyesEnforced := (0 <? length reasons)%nat; rs_approvers := [];
     rs_fourEyesReasons := if (0 <? length reasons)%nat then Some reasons else None;
     rs_primaryReviewer := None; rs_primaryApprovalAt := None;
     rs_secondaryReviewer := None; rs_secondaryApprovalAt := None;
     rs_lastEditor := None |}.

(** The loop over the generated cases; [uuid n] is the [n]-th [randomUUID()]. *)
Definition seed_loop (input : SeedSnapshotInput) (policy : TestCasePolicyReport)
    (uuid : nat → string) : list ReviewEvent * list ReviewSnapshot * Z :=
  foldl (λ acc tc,
    let '(events, entries, sequence) := acc in
    let eventId := uuid (length events) in
    (events ++ [seed_event input policy tc eventId sequence],
     entries ++ [seed_entry input policy tc eventId], sequence + 1))
    ([], [], 1) (si_testCases input).

Definition seedSnapshot `{LocaleCompare} (d : job_dir) (resolved : option (list string))
    (input : SeedSnapshotInput) (uuid : nat → string) :
    ReviewGateSnapshot * list file_write :=
  match readSnapshotInternal d with
  | Some existing => (existing, [])
  | None =>
      let policy := readConflictAwarePolicy resolved (si_policy input) in
      let '(events, perTestCase, sequence) := seed_loop input policy uuid in
      let sortedEntries := sortSnapshotEntries perTestCase in
      let snapshot :=
        {| rg_jobId := si_jobId input; rg_generatedAt := si_generatedAt input;
           rg_perTestCase := sortedEntries; rg_counts := computeCounts sortedEntries;
           rg_fourEyesPolicy := cloneFourEyesPolicy <$> si_fourEyesPolicy input |} in
      let envelope :=
        {| en_jobId := si_jobId input; en_events := events; en_nextSequence := sequence |} in
      (snapshot, [WriteEvents envelope; WriteSnapshot snapshot])
  end.
