(* ===== verification/ReviewStoreInv.v ===== *)
(** * Review store: reachable directories and their invariant

    The directories a job can be in under any sequence of store operations,
    each possibly interrupted between its two file writes, and the invariant
    that all of them satisfy. *)

From S2P Require Import Prelude JsString JsList JsValue Contracts ReviewStateMachine.
From S2P Require Import FourEyesPolicy PolicyConflicts ReviewStore ReviewStoreOps.

(** ** Reachability *)

Inductive store_op : Type :=
| OpSeed (resolved : option (list string)) (input : SeedSnapshotInput) (uuid : nat → string)
| OpRecord (input : RecordTransitionInput) (eventId : string)
| OpRefresh (resolved : option (list string)) (input : RefreshPolicyDecisionsInput)
    (eventId : string).

Definition op_jobId (op : store_op) : string :=
  match op with
  | OpSeed _ input _ => si_jobId input
  | OpRecord input _ => rt_jobId input
  | OpRefresh _ input _ => rp_jobId input
  end.

Definition op_writes `{LocaleCompare} (d : job_dir) (op : store_op) : list file_write :=
  match op with
  | OpSeed resolved input uuid => (seedSnapshot d resolved input uuid).2
  | OpRecord input eventId => (recordTransition d input eventId).2
  | OpRefresh resolved input eventId => (refreshPolicyDecisions d resolved input eventId).2
  end.

(** [k] is the number of writes that reached the disk before a crash. *)
Inductive reachable `{LocaleCompare} (jobId : string) : job_dir → Prop :=
| reach_empty : reachable jobId empty_dir
| reach_op d op k :
    reachable jobId d → op_jobId op = jobId →
    reachable jobId (apply_writes d (take k (op_writes d op))).

(** ** The invariant *)

(** Approval bookkeeping of one entry, by its state. *)
Definition entry_inv (e : ReviewSnapshot) : Prop :=
  match rs_state e with
  | st_needs_review | st_edited | st_generated =>
      rs_approvers e = [] ∧ rs_primaryReviewer e = None ∧ rs_secondaryReviewer e = None
  | st_pending_secondary_approval =>
      ∃ p, rs_primaryReviewer e = Some p ∧ p ≠ "" ∧ rs_approvers e = [p] ∧
           rs_secondaryReviewer e = None ∧ rs_lastEditor e ≠ Some p
  | st_approved | st_exported | st_transferred =>
      match rs_secondaryReviewer e with
      | Some s => ∃ p, rs_primaryReviewer e = Some p ∧ p ≠ "" ∧ s ≠ "" ∧ p ≠ s ∧
                       rs_approvers e = js_sort String.compare [p; s] ∧
                       rs_lastEditor e ≠ Some p ∧ rs_lastEditor e ≠ Some s
      | None => rs_primaryReviewer e = None
      end
  | st_rejected => True
  end.

(** A blocked case is neither approved nor waiting for its second approval. *)
Definition blocked_inv (e : ReviewSnapshot) : Prop :=
  rs_policyDecision e = pd_blocked →
  rs_state e ≠ st_approved ∧ rs_state e ≠ st_pending_secondary_approval.

(** The event log numbers its events 1, 2, 3, ... without a gap. *)
Definition sequence_numbers (n : nat) : list Z := (λ i, Z.of_nat i + 1) <$> seq 0 n.

Record log_inv (jobId : string) (en : PersistedReviewEventsEnvelope) : Prop := {
  li_jobId : en_jobId en = jobId;
  li_sequence : re_sequence <$> en_events en = sequence_numbers (length (en_events en));
  li_next : en_nextSequence en = Z.of_nat (length (en_events en)) + 1;
  li_events_job : Forall (λ ev, re_jobId ev = jobId) (en_events en);
}.

Definition event_ids (en : PersistedReviewEventsEnvelope) : list string :=
  re_id <$> en_events en.

Record snap_inv `{LocaleCompare} (en : PersistedReviewEventsEnvelope)
    (sn : ReviewGateSnapshot) : Prop := {
  sv_counts : rg_counts sn = computeCounts (rg_perTestCase sn);
  sv_sorted : StronglySorted (cmp_le (cmp_on rs_testCaseId localeCompare)) (rg_perTestCase sn);
  sv_entries : Forall entry_inv (rg_perTestCase sn);
  sv_blocked : Forall blocked_inv (rg_perTestCase sn);
  sv_events : Forall (λ e, rs_lastEventId e ∈ event_ids en) (rg_perTestCase sn);
}.

Record dir_inv `{LocaleCompare} (jobId : string) (d : job_dir) : Prop := {
  di_log en : dir_events d = Some en → log_inv jobId en;
  di_snap sn : dir_snapshot d = Some sn →
    ∃ en, dir_events d = Some en ∧ snap_inv en sn;
}.

(** What an operation may write: nothing, or an extended log that the stored
    snapshot still agrees with, followed by a snapshot that agrees with it. *)
Definition good_writes `{LocaleCompare} (jobId : string) (d : job_dir)
    (ws : list file_write) : Prop :=
  ws = [] ∨
  ∃ en sn, ws = [WriteEvents en; WriteSnapshot sn] ∧ log_inv jobId en ∧ snap_inv en sn ∧
           ∀ sn0, dir_snapshot d = Some sn0 → snap_inv en sn0.

Section proofs.
Context `{LocaleCompare}.

(** ** Lemmas on entries *)

Lemma clear_approvals_inv e :
  rs_state e ∈ [st_needs_review; st_edited; st_generated] → entry_inv (clear_approvals e).
Proof. unfold entry_inv. simpl. destruct (rs_state e); set_solver. Qed.

Lemma set_last_event_inv e eventId at_ :
  entry_inv e →
  entry_inv (set_state_and_approvers e (rs_state e) eventId at_ (rs_approvers e)).
Proof. done. Qed.

Lemma applyFourEyesRefusals_primary actor e :
  applyFourEyesRefusals actor ev_primary_approved (Some e) = None →
  ∃ a, actor = Some a ∧ a ≠ "" ∧ rs_fourEyesEnforced e = true ∧
       rs_lastEditor e ≠ Some a ∧ a ∉ rs_approvers e.
Proof.
  unfold applyFourEyesRefusals. simpl.
  destruct (rs_fourEyesEnforced e); simpl; [|done].
  destruct actor as [a|]; simpl; [|done].
  case_bool_decide; simpl; [done|]. intros Hr. exists a. repeat split; [done|..].
  - intros E. rewrite E in Hr. simpl in Hr. by rewrite bool_decide_eq_true_2 in Hr.
  - intros E. rewrite (bool_decide_eq_true_2 (a ∈ _)) in Hr by done.
    by destruct (bool_decide (is_Some _) && _).
Qed.

Lemma applyFourEyesRefusals_secondary actor e :
  applyFourEyesRefusals actor ev_secondary_approved (Some e) = None →
  ∃ a, actor = Some a ∧ a ≠ "" ∧ rs_fourEyesEnforced e = true ∧
       rs_state e = st_pending_secondary_approval ∧ rs_primaryReviewer e ≠ Some a ∧
       rs_lastEditor e ≠ Some a ∧ a ∉ rs_approvers e.
Proof.
  unfold applyFourEyesRefusals. simpl.
  destruct (rs_fourEyesEnforced e); simpl; [|done].
  destruct actor as [a|]; simpl; [|done].
  case_bool_decide; simpl; [done|].
  destruct (bool_decide (rs_state e = _)) eqn:Es; simpl; [|done].
  apply bool_decide_eq_true in Es. intros Hr. exists a.
  destruct (bool_decide (is_Some (rs_primaryReviewer e)) &&
            bool_decide (rs_primaryReviewer e = Some a)) eqn:E1; [done|].
  destruct (bool_decide (a ∈ rs_approvers e)) eqn:E2; [done|].
  destruct (bool_decide (is_Some (rs_lastEditor e)) &&
            bool_decide (rs_lastEditor e = Some a)) eqn:E3; [done|].
  apply bool_decide_eq_false in E2. repeat split; try done.
  - intros E. rewrite E in E1. simpl in E1. by rewrite bool_decide_eq_true_2 in E1.
  - intros E. rewrite E in E3. simpl in E3. by rewrite bool_decide_eq_true_2 in E3.
Qed.

Lemma applyEntryEffects_inv e kind to eventId at_ actor :
  entry_inv e → kind ≠ ev_note → TRANSITIONS kind (rs_state e) = Some to →
  applyFourEyesRefusals actor kind (Some e) = None →
  entry_inv (applyEntryEffects e to eventId at_ actor kind).
Proof.
  intros He Hn Ht Hr. unfold entry_inv in He.
  destruct kind; try done.
  4: { apply applyFourEyesRefusals_primary in Hr as (a & -> & Hne & _ & Hed & Ha).
       destruct (rs_state e) eqn:Es; simplify_eq/=;
         destruct He as (Hap & Hp & Hsec);
         (exists a; split_all; try done; simpl;
          rewrite (bool_decide_eq_false_2 (a ∈ _)) by done; by rewrite Hap). }
  4: { apply applyFourEyesRefusals_secondary in Hr as (a & -> & Hne & _ & Es & Hp' & Hed & Ha).
       rewrite Es in He, Ht. destruct He as (p & Hp & Hpn & Hap & Hsec & Hpe). simplify_eq/=.
       unfold entry_inv. simpl. exists p. split_all; try done; [congruence|].
       rewrite (bool_decide_eq_false_2 (a ∈ _)) by done. by rewrite Hap. }
  all: destruct (rs_state e) eqn:Es; simplify_eq/=; unfold applyEntryEffects, entry_inv;
    rewrite ?Es; destruct actor as [a|]; simpl; try tauto;
    try (by destruct He as (-> & -> & ->)); try (by destruct He as (_ & -> & ->)).
Qed.

Lemma resolveEventKind_note kind e : resolveEventKind kind e = ev_note → kind = ev_note.
Proof.
  destruct e as [e|]; simpl; [|done]. case_bool_decide; [done|].
  destruct (rs_fourEyesEnforced e); simpl; [|done]. by destruct (rs_state e).
Qed.

Lemma updated_entry_inv input e kind to eventId :
  entry_inv e → TRANSITIONS kind (rs_state e) = Some to →
  applyFourEyesRefusals (rt_actor input) kind (Some e) = None →
  entry_inv (updated_entry input e to eventId kind).
Proof.
  intros He Ht Hr. unfold updated_entry. case_bool_decide; [by apply set_last_event_inv|].
  by eapply applyEntryEffects_inv.
Qed.

Lemma applyEntryEffects_fields e to eventId at_ actor kind :
  rs_testCaseId (applyEntryEffects e to eventId at_ actor kind) = rs_testCaseId e ∧
  rs_lastEventId (applyEntryEffects e to eventId at_ actor kind) = eventId ∧
  rs_state (applyEntryEffects e to eventId at_ actor kind) = to.
Proof.
  unfold applyEntryEffects. repeat case_bool_decide; destruct actor; simpl; try done;
    by repeat case_match.
Qed.

Lemma updated_entry_fields input e to eventId kind :
  rs_testCaseId (updated_entry input e to eventId kind) = rs_testCaseId e ∧
  rs_lastEventId (updated_entry input e to eventId kind) = eventId.
Proof.
  unfold updated_entry. case_bool_decide; [done|].
  by destruct (applyEntryEffects_fields e to eventId (rt_at input) (rt_actor input) kind)
    as (? & ? & _).
Qed.

Lemma updated_entry_state input e to eventId kind :
  TRANSITIONS kind (rs_state e) = Some to →
  rs_state (updated_entry input e to eventId kind) = to ∧
  rs_policyDecision (updated_entry input e to eventId kind) = rs_policyDecision e.
Proof.
  intros Ht. unfold updated_entry. case_bool_decide as E.
  - subst. simpl. split; [|done]. destruct (rs_state e); by simplify_eq/=.
  - unfold applyEntryEffects. repeat case_bool_decide; destruct (rt_actor input); simpl;
      try done; by repeat case_match.
Qed.

Lemma updated_entry_blocked input e to eventId kind :
  blocked_inv e →
  transitionReviewState (rs_state e) kind (Some (rs_policyDecision e)) = Ok to →
  blocked_inv (updated_entry input e to eventId kind).
Proof.
  intros Hb [Ht Hp]%transitionReviewState_Ok.
  destruct (updated_entry_state input e to eventId kind Ht) as [Hs Hd].
  unfold blocked_inv in *. rewrite Hs, Hd. intros Hbl. specialize (Hb Hbl). rewrite Hbl in Hp.
  destruct kind, (rs_state e); simplify_eq/=;
    first [done | by split | by destruct (Hp eq_refl) | by destruct Hb | by rewrite <- Ht].
Qed.

Lemma touch_changed_blocked eventId at_ e : blocked_inv (touch_changed eventId at_ e).
Proof.
  unfold touch_changed. intros Hb. revert Hb.
  destruct (bool_decide _ && bool_decide _) eqn:E; simpl; [done|].
  intros Hb. simpl in E. rewrite Hb in E. simpl in E.
  apply bool_decide_eq_false in E. set_solver.
Qed.

Lemma seed_entry_blocked input policy tc eventId :
  blocked_inv (seed_entry input policy tc eventId).
Proof. unfold blocked_inv, seed_entry, seedReviewStateFromPolicy. simpl. by intros ->. Qed.

Lemma refreshed_entry_inv d e : entry_inv e → entry_inv (refreshed_entry d e).
Proof. done. Qed.

Lemma touch_changed_inv eventId at_ e : entry_inv e → entry_inv (touch_changed eventId at_ e).
Proof.
  intros He. unfold touch_changed. case_match; [|by apply set_last_event_inv].
  apply clear_approvals_inv. simpl. set_solver.
Qed.

Lemma touch_changed_lastEventId eventId at_ e :
  rs_lastEventId (touch_changed eventId at_ e) = eventId.
Proof. unfold touch_changed. by case_match. Qed.

Lemma seed_entry_inv input policy tc eventId : entry_inv (seed_entry input policy tc eventId).
Proof.
  unfold entry_inv, seed_entry, seedReviewStateFromPolicy. simpl. by case_bool_decide.
Qed.

(** ** Lemmas on logs and snapshots *)

Lemma sequence_numbers_S n : sequence_numbers (S n) = sequence_numbers n ++ [Z.of_nat n + 1].
Proof. unfold sequence_numbers. by rewrite seq_S, fmap_app. Qed.

Lemma log_inv_append jobId en ev :
  log_inv jobId en → re_jobId ev = jobId → re_sequence ev = en_nextSequence en →
  log_inv jobId (append_event en ev).
Proof.
  intros [Hj Hs Hn Hf] Hje Hse. split; simpl.
  - done.
  - rewrite fmap_app, length_app, Nat.add_1_r, sequence_numbers_S, Hs. simpl.
    by rewrite Hse, Hn.
  - rewrite length_app, Hn. simpl. lia.
  - apply Forall_app. split; [done|]. by constructor.
Qed.

Lemma event_ids_append en ev id :
  id ∈ event_ids (append_event en ev) ↔ id ∈ event_ids en ∨ id = re_id ev.
Proof. unfold event_ids. simpl. rewrite fmap_app, elem_of_app. set_solver. Qed.

Lemma snap_inv_append en ev sn : snap_inv en sn → snap_inv (append_event en ev) sn.
Proof.
  intros [Hc Hs He Hb Hv]. split; [done..|]. eapply Forall_impl; [exact Hv|].
  intros e Hin. apply event_ids_append. by left.
Qed.

Lemma with_entries_inv en sn entries :
  Forall entry_inv entries → Forall blocked_inv entries →
  Forall (λ e, rs_lastEventId e ∈ event_ids en) entries →
  snap_inv en (with_entries sn entries).
Proof.
  intros He Hb Hv. split; simpl; [done|apply js_sort_sorted, _| | |];
    unfold sortSnapshotEntries; by rewrite js_sort_Permutation.
Qed.

Lemma find_entry_Some kind id entries e :
  find_entry kind id entries = Ok (Some e) → e ∈ entries ∧ id = Some (rs_testCaseId e).
Proof.
  unfold find_entry. destruct id as [id|]; [|by case_bool_decide].
  destruct (find_by _ _ _) eqn:E; [|done]. intros [= ->].
  apply find_by_Some in E as [? <-]. done.
Qed.

Lemma transition_effects_Ok input eventId kind en sn ev sn' en' :
  transition_effects input eventId kind en sn = Ok (ev, sn', en') →
  ∃ entry to,
    let from := match entry with Some e => rs_state e | None => st_generated end in
    let kind' := resolveEventKind kind entry in
    find_entry kind (rt_testCaseId input) (rg_perTestCase sn) = Ok entry ∧
    applyFourEyesRefusals (rt_actor input) kind' entry = None ∧
    transitionReviewState from kind' (rs_policyDecision <$> entry) = Ok to ∧
    ev = transition_event input kind' eventId from to (en_nextSequence en) ∧
    en' = append_event en ev ∧
    sn' = with_entries sn
            match entry with
            | Some e => replace_by rs_testCaseId (rs_testCaseId e)
                          (updated_entry input e to eventId kind') (rg_perTestCase sn)
            | None => rg_perTestCase sn
            end.
Proof.
  unfold transition_effects. intros (entry & Hf & Hr)%outcome_bind_Ok.
  destruct (applyFourEyesRefusals _ _ _) eqn:E1; [done|].
  destruct (transitionReviewState _ _ _) as [to|] eqn:E2; [|done].
  simplify_eq. by exists entry, to.
Qed.

Lemma replace_by_Forall (P : ReviewSnapshot → Prop) k v l :
  P v → Forall P l → Forall P (replace_by rs_testCaseId k v l).
Proof.
  intros Hv Hl. apply Forall_forall. intros x [->|[Hx _]]%elem_of_replace_by; [done|].
  by eapply Forall_forall in Hl.
Qed.

Lemma transition_effects_inv jobId input eventId kind en sn ev sn' en' :
  log_inv jobId en → snap_inv en sn → rt_jobId input = jobId →
  transition_effects input eventId kind en sn = Ok (ev, sn', en') →
  log_inv jobId en' ∧ snap_inv en' sn' ∧ snap_inv en' sn.
Proof.
  intros Hl Hs Hj (entry & to & Hf & Hr & Ht & -> & -> & ->)%transition_effects_Ok.
  split; [by apply log_inv_append|]. split; [|by apply snap_inv_append].
  assert (Forall (λ e, rs_lastEventId e ∈ event_ids (append_event en
     (transition_event input (resolveEventKind kind entry) eventId
        match entry with Some e => rs_state e | None => st_generated end to
        (en_nextSequence en)))) (rg_perTestCase sn)) as Hids.
  { eapply Forall_impl; [apply (sv_events _ _ Hs)|]. intros e ?. apply event_ids_append. by left. }
  destruct entry as [e|]; [|apply with_entries_inv; [apply Hs|apply Hs|done]].
  apply find_entry_Some in Hf as [He _].
  destruct (updated_entry_fields input e to eventId (resolveEventKind kind (Some e)))
    as [_ Hid].
  apply with_entries_inv; apply replace_by_Forall; try done.
  - apply updated_entry_inv; [|by eapply transitionReviewState_Ok|done].
    destruct Hs as [_ _ Hs _ _]. by eapply Forall_forall in Hs.
  - apply Hs.
  - apply updated_entry_blocked; [|done].
    destruct Hs as [_ _ _ Hs _]. by eapply Forall_forall in Hs.
  - apply Hs.
  - cbv beta. rewrite Hid. apply event_ids_append. by right.
Qed.

Lemma changed_entry_inv decisions e x :
  changed_entry decisions e = Some x → entry_inv e →
  entry_inv x ∧ rs_lastEventId x = rs_lastEventId e.
Proof.
  unfold changed_entry. destruct (find_by _ _ _) as [d|]; [|done].
  case_bool_decide; [done|]. intros [= <-] He. done.
Qed.

Lemma elem_of_changed_entries decisions entries x :
  x ∈ changed_entries decisions entries ↔
  ∃ e, e ∈ entries ∧ changed_entry decisions e = Some x.
Proof.
  unfold changed_entries. induction entries as [|e es IH]; simpl; [set_solver|].
  rewrite elem_of_app, IH. setoid_rewrite elem_of_cons.
  destruct (changed_entry decisions e) eqn:E.
  - rewrite list_elem_of_singleton. naive_solver.
  - set_solver.
Qed.

Lemma readEnvelope_Some jobId d en :
  readEnvelope jobId d = Ok (Some en) → dir_events d = Some en.
Proof.
  unfold readEnvelope. destruct (dir_events d); [|done].
  case_bool_decide; [done|]. by intros [= ->].
Qed.

(** ** The operations write well *)

Lemma recordTransition_good jobId d input eventId :
  dir_inv jobId d → rt_jobId input = jobId →
  good_writes jobId d (recordTransition d input eventId).2.
Proof.
  intros [Hl Hs] Hj. unfold recordTransition.
  destruct (outcome_bind _ _) as [[[ev sn'] en']|] eqn:E; [|by left].
  right. exists en', sn'. split; [done|].
  apply outcome_bind_Ok in E as (_ & _ & E). apply outcome_bind_Ok in E as (_ & _ & E).
  destruct (parse_label _) as [kind|]; [|done].
  apply outcome_bind_Ok in E as ([en|] & Hen & E); [|done].
  apply readEnvelope_Some in Hen as Hen'.
  unfold readSnapshotInternal in E. destruct (dir_snapshot d) as [sn|] eqn:Hsn; [|done].
  destruct (Hs sn eq_refl) as (en0 & Hen0 & Hsi). rewrite Hen' in Hen0. simplify_eq.
  eapply transition_effects_inv in E as (? & ? & ?); [|by apply Hl|done|done].
  split_all; try done. by intros ? [= <-].
Qed.

Lemma refreshPolicyDecisions_good jobId d resolved input eventId :
  dir_inv jobId d → rp_jobId input = jobId →
  good_writes jobId d (refreshPolicyDecisions d resolved input eventId).2.
Proof.
  intros [Hl Hs] Hj. unfold refreshPolicyDecisions.
  destruct (outcome_bind _ _) as [[res [en'|]]|] eqn:E; [|by left|by left].
  right. exists en', (rr_snapshot res). split; [done|].
  apply outcome_bind_Ok in E as ([en|] & Hen & E); [|done].
  apply readEnvelope_Some in Hen.
  unfold readSnapshotInternal in E. destruct (dir_snapshot d) as [sn|] eqn:Hsn; [|done].
  apply outcome_bind_Ok in E as (_ & _ & E). apply outcome_bind_Ok in E as (_ & _ & E).
  apply outcome_bind_Ok in E as (decisions & _ & E).
  case_bool_decide; [done|]. simplify_eq. simpl.
  destruct (Hs sn eq_refl) as (en0 & Hen0 & Hsi). rewrite Hen in Hen0. simplify_eq.
  split; [by apply log_inv_append; [apply Hl|..]|].
  split; [|by intros ? [= <-]; apply snap_inv_append].
  assert (∀ e, e ∈ rg_perTestCase sn → ∀ c,
    changed_lookup (changed_entries decisions (rg_perTestCase sn)) (rs_testCaseId e) = Some c →
    entry_inv c) as Hc.
  { intros e He c (Hc & _)%find_by_Some. rewrite elem_of_reverse in Hc.
    apply elem_of_changed_entries in Hc as (e0 & He0 & Hc).
    eapply changed_entry_inv in Hc as [Hc _]; [done|].
    pose proof (sv_entries _ _ Hsi) as Hall. rewrite Forall_forall in Hall. by apply Hall. }
  destruct Hsi as [_ _ Hei Hbi Hids]. rewrite Forall_forall in Hei, Hbi, Hids.
  apply with_entries_inv; apply Forall_fmap, Forall_forall; intros e He; simpl;
    specialize (Hc e He); destruct (changed_lookup _ _) as [c|] eqn:Ec; auto.
  - by apply touch_changed_inv, Hc.
  - apply touch_changed_blocked.
  - rewrite touch_changed_lastEventId. apply event_ids_append. by right.
  - apply event_ids_append. left. by apply Hids.
Qed.

(** The loop of [seedSnapshot], at any point. *)
Definition seed_step (input : SeedSnapshotInput) (policy : TestCasePolicyReport)
    (uuid : nat → string) (acc : list ReviewEvent * list ReviewSnapshot * Z)
    (tc : GeneratedTestCase) : list ReviewEvent * list ReviewSnapshot * Z :=
  let '(events, entries, sequence) := acc in
  let eventId := uuid (length events) in
  (events ++ [seed_event input policy tc eventId sequence],
   entries ++ [seed_entry input policy tc eventId], sequence + 1).

Definition seed_inv (input : SeedSnapshotInput)
    (acc : list ReviewEvent * list ReviewSnapshot * Z) : Prop :=
  let '(events, entries, sequence) := acc in
  let en := {| en_jobId := si_jobId input; en_events := events; en_nextSequence := sequence |} in
  log_inv (si_jobId input) en ∧ Forall entry_inv entries ∧ Forall blocked_inv entries ∧
  Forall (λ e, rs_lastEventId e ∈ event_ids en) entries.

Lemma seed_step_inv input policy uuid acc tc :
  seed_inv input acc → seed_inv input (seed_step input policy uuid acc tc).
Proof.
  destruct acc as [[events entries] sequence]. intros (Hl & He & Hb & Hv). simpl.
  split; [|split; [|split]].
  - eapply (log_inv_append _ _ (seed_event input policy tc (uuid (length events)) sequence))
      in Hl; done.
  - apply Forall_app. split; [done|]. constructor; [apply seed_entry_inv|done].
  - apply Forall_app. split; [done|]. constructor; [apply seed_entry_blocked|done].
  - apply Forall_app. unfold event_ids in *. simpl in *. setoid_rewrite fmap_app. split.
    + eapply Forall_impl; [exact Hv|]. intros e ?. apply elem_of_app. by left.
    + constructor; [|done]. apply elem_of_app. right. simpl. by left.
Qed.

Lemma seed_loop_inv input policy uuid : seed_inv input (seed_loop input policy uuid).
Proof.
  unfold seed_loop. change (λ acc tc, _) with (seed_step input policy uuid).
  assert (∀ tcs acc, seed_inv input acc →
            seed_inv input (foldl (seed_step input policy uuid) acc tcs)) as Hf.
  { induction tcs as [|tc tcs IH]; intros acc Hacc; simpl; [done|].
    by apply IH, seed_step_inv. }
  apply Hf. split; [|split; [|split]; constructor]. by split.
Qed.

Lemma seedSnapshot_good jobId d resolved input uuid :
  dir_inv jobId d → si_jobId input = jobId →
  good_writes jobId d (seedSnapshot d resolved input uuid).2.
Proof.
  intros _ <-. unfold seedSnapshot, readSnapshotInternal.
  destruct (dir_snapshot d) as [sn|] eqn:Hsn; [by left|]. right.
  pose proof (seed_loop_inv input (readConflictAwarePolicy resolved (si_policy input)) uuid)
    as Hinv.
  destruct (seed_loop _ _ _) as [[events entries] sequence].
  destruct Hinv as (Hl & He & Hb & Hv). simpl. eexists _, _. split; [done|].
  split; [exact Hl|]. split; [|by rewrite Hsn].
  split; simpl; [done|apply js_sort_sorted, _| | |];
    unfold sortSnapshotEntries; by rewrite js_sort_Permutation.
Qed.

Lemma op_writes_good jobId d op :
  dir_inv jobId d → op_jobId op = jobId → good_writes jobId d (op_writes d op).
Proof.
  intros Hd Hj. destruct op; simpl in *; auto using seedSnapshot_good,
    recordTransition_good, refreshPolicyDecisions_good.
Qed.

(** Any prefix of the writes of an operation keeps the directory consistent:
    this is what writing the log before the snapshot buys. *)
Lemma good_writes_inv jobId d ws k :
  dir_inv jobId d → good_writes jobId d ws →
  dir_inv jobId (apply_writes d (take k ws)).
Proof.
  intros Hd [->|(en & sn & -> & Hl & Hs & H0)]; [by rewrite take_nil|].
  destruct k as [|[|k]]; simpl; [done| |]; rewrite ?take_nil; split; simpl.
  - by intros ? [= <-].
  - intros sn0 Hsn0. exists en. auto.
  - by intros ? [= <-].
  - intros ? [= <-]. by exists en.
Qed.

Lemma reachable_inv jobId d : reachable jobId d → dir_inv jobId d.
Proof.
  induction 1 as [|d op k Hd IH Hj]; [by split|].
  by apply good_writes_inv, op_writes_good.
Qed.
End proofs.
