(* ===== verification/ReviewPersistence.v ===== *)
(** * The files of the review store

    [writeAtomicJson], the validators and the readers of
    [packages/production-runner/src/review-store.ts] (lines 202-380 and
    502-569). [ReviewStore] keeps the two files of a job as typed values; here
    they are the canonical JSON the code writes, the readers validate them as
    the code does, and every directory the store can produce is shown to be
    read back as the typed values it stands for. *)

From S2P Require Import Prelude JsString JsList JsValue CanonicalJson Contracts JsonView.
From S2P Require Import ReviewStateMachine FourEyesPolicy PolicyConflicts.
From S2P Require Import ReviewStore ReviewStoreOps ReviewStoreInv.

(** ** Validators *)

Definition isFlatValue (v : json) : bool :=
  match v with JNull | JString _ | JNumber _ | JBool _ => true | _ => false end.

Definition isFlatMetadata (value : json) : bool :=
  match value with JObject fields => forallb (λ p, isFlatValue p.2) fields | _ => false end.

Definition isReviewEvent (value : json) : bool :=
  Json.isRecord value &&
  Json.eq_string (field "schemaVersion" value) REVIEW_GATE_SCHEMA_VERSION &&
  Json.eq_string (field "contractVersion" value) TEST_INTELLIGENCE_CONTRACT_VERSION &&
  Json.is_string (field "id" value) &&
  Json.is_string (field "jobId" value) &&
  Json.is_string (field "at" value) &&
  integer_from 1 (field "sequence" value) &&
  in_labels ReviewEventKind (field "kind" value) &&
  undefined_or Json.is_string (field "testCaseId" value) &&
  undefined_or Json.is_string (field "actor" value) &&
  undefined_or Json.is_string (field "note" value) &&
  undefined_or (in_labels ReviewState) (field "fromState" value) &&
  undefined_or (in_labels ReviewState) (field "toState" value) &&
  undefined_or (λ v, default false (isFlatMetadata <$> v)) (field "metadata" value).

Definition is_reason (v : json) : bool := in_labels FourEyesEnforcementReason (Some v).

Definition isReviewSnapshotEntry (value : json) : bool :=
  Json.isRecord value &&
  Json.is_string (field "testCaseId" value) &&
  in_labels ReviewState (field "state" value) &&
  Json.is_string (field "policyDecision" value) &&
  Json.is_string (field "lastEventId" value) &&
  Json.is_string (field "lastEventAt" value) &&
  Json.is_bool (field "fourEyesEnforced" value) &&
  array_of is_string_value (field "approvers" value) &&
  undefined_or (array_of is_reason) (field "fourEyesReasons" value) &&
  forallb (λ k, undefined_or Json.is_string (field k value))
    ["primaryReviewer"; "primaryApprovalAt"; "secondaryReviewer"; "secondaryApprovalAt";
     "lastEditor"].

Definition isFourEyesPolicy (value : json) : bool :=
  Json.isRecord value &&
  array_of is_string_value (field "requiredRiskCategories" value) &&
  array_of is_string_value (field "visualSidecarTriggerOutcomes" value).

Definition isReviewGateSnapshot (value : json) : bool :=
  Json.isRecord value &&
  Json.eq_string (field "schemaVersion" value) REVIEW_GATE_SCHEMA_VERSION &&
  Json.eq_string (field "contractVersion" value) TEST_INTELLIGENCE_CONTRACT_VERSION &&
  Json.is_string (field "jobId" value) &&
  Json.is_string (field "generatedAt" value) &&
  Json.is_number (field "approvedCount" value) &&
  Json.is_number (field "needsReviewCount" value) &&
  Json.is_number (field "rejectedCount" value) &&
  array_of isReviewSnapshotEntry (field "perTestCase" value) &&
  undefined_or Json.is_integer (field "pendingSecondaryApprovalCount" value) &&
  undefined_or (λ v, default false (isFourEyesPolicy <$> v)) (field "fourEyesPolicy" value).

Definition isPersistedEnvelope (value : json) : bool :=
  Json.isRecord value &&
  Json.eq_string (field "schemaVersion" value) REVIEW_GATE_SCHEMA_VERSION &&
  Json.eq_string (field "contractVersion" value) TEST_INTELLIGENCE_CONTRACT_VERSION &&
  Json.is_string (field "jobId" value) &&
  array_of isReviewEvent (field "events" value) &&
  integer_from 1 (field "nextSequence" value).

(** ** Files *)

(** The file is missing, holds text that is not JSON, or the text of a value. *)
Inductive raw_file : Type :=
| Absent
| NotJson
| JsonText (v : json).

(** [writeAtomicJson]: the renamed file holds the whole canonical text. *)
Definition writeAtomicJson (payload : json) : raw_file := JsonText (canonicalJson payload).

Inductive ReadError : Type :=
| events_not_json | events_not_envelope | events_job_mismatch
| state_not_json | state_not_snapshot.

Definition read_events_file (jobId : string) (f : raw_file) : outcome ReadError (option json) :=
  match f with
  | Absent => Ok None
  | NotJson => Throw events_not_json
  | JsonText parsed =>
      if negb (isPersistedEnvelope parsed) then Throw events_not_envelope
      else if negb (Json.eq_string (field "jobId" parsed) jobId) then Throw events_job_mismatch
      else Ok (Some parsed)
  end.

Definition read_state_file (f : raw_file) : outcome ReadError (option json) :=
  match f with
  | Absent => Ok None
  | NotJson => Throw state_not_json
  | JsonText parsed =>
      if negb (isReviewGateSnapshot parsed) then Throw state_not_snapshot else Ok (Some parsed)
  end.

(** ** The objects the store writes *)

Definition meta_json (m : meta_value) : json :=
  match m with
  | MetaString s => JString s | MetaNumber q => JNumber q | MetaBool b => JBool b
  | MetaNull => JNull
  end.

Definition metadata_json (m : gmap string meta_value) : json :=
  JObject (prod_map id meta_json <$> map_to_list m).

Definition event_fields (ev : ReviewEvent) : list (string * option json) :=
  [("schemaVersion", Some (JString REVIEW_GATE_SCHEMA_VERSION));
   ("contractVersion", Some (JString TEST_INTELLIGENCE_CONTRACT_VERSION));
   ("id", Some (JString (re_id ev)));
   ("jobId", Some (JString (re_jobId ev)));
   ("testCaseId", JString <$> re_testCaseId ev);
   ("kind", Some (jlabel (re_kind ev)));
   ("at", Some (JString (re_at ev)));
   ("actor", JString <$> re_actor ev);
   ("note", JString <$> re_note ev);
   ("fromState", jlabel <$> re_fromState ev);
   ("toState", jlabel <$> re_toState ev);
   ("sequence", Some (Json.jint (re_sequence ev)));
   ("metadata", metadata_json <$> re_metadata ev)].

Definition event_json (ev : ReviewEvent) : json := JObject (Json.literal (event_fields ev)).

Definition entry_fields (e : ReviewSnapshot) : list (string * option json) :=
  [("testCaseId", Some (JString (rs_testCaseId e)));
   ("state", Some (jlabel (rs_state e)));
   ("policyDecision", Some (jlabel (rs_policyDecision e)));
   ("lastEventId", Some (JString (rs_lastEventId e)));
   ("lastEventAt", Some (JString (rs_lastEventAt e)));
   ("fourEyesEnforced", Some (JBool (rs_fourEyesEnforced e)));
   ("approvers", Some (JArray (JString <$> rs_approvers e)));
   ("fourEyesReasons", (λ l, JArray (jlabel <$> l)) <$> rs_fourEyesReasons e);
   ("primaryReviewer", JString <$> rs_primaryReviewer e);
   ("primaryApprovalAt", JString <$> rs_primaryApprovalAt e);
   ("secondaryReviewer", JString <$> rs_secondaryReviewer e);
   ("secondaryApprovalAt", JString <$> rs_secondaryApprovalAt e);
   ("lastEditor", JString <$> rs_lastEditor e)].

Definition entry_json (e : ReviewSnapshot) : json := JObject (Json.literal (entry_fields e)).

Definition policy_fields (p : FourEyesPolicy) : list (string * option json) :=
  [("requiredRiskCategories", Some (JArray (jlabel <$> requiredRiskCategories p)));
   ("visualSidecarTriggerOutcomes", Some (JArray (jlabel <$> visualSidecarTriggerOutcomes p)))].

Definition policy_json (p : FourEyesPolicy) : json := JObject (Json.literal (policy_fields p)).

Definition snapshot_fields (sn : ReviewGateSnapshot) : list (string * option json) :=
  [("schemaVersion", Some (JString REVIEW_GATE_SCHEMA_VERSION));
   ("contractVersion", Some (JString TEST_INTELLIGENCE_CONTRACT_VERSION));
   ("jobId", Some (JString (rg_jobId sn)));
   ("generatedAt", Some (JString (rg_generatedAt sn)));
   ("perTestCase", Some (JArray (entry_json <$> rg_perTestCase sn)));
   ("approvedCount", Some (Json.jint (approvedCount (rg_counts sn))));
   ("needsReviewCount", Some (Json.jint (needsReviewCount (rg_counts sn))));
   ("rejectedCount", Some (Json.jint (rejectedCount (rg_counts sn))));
   ("pendingSecondaryApprovalCount",
     Some (Json.jint (pendingSecondaryApprovalCount (rg_counts sn))));
   ("fourEyesPolicy", policy_json <$> rg_fourEyesPolicy sn)].

Definition snapshot_json (sn : ReviewGateSnapshot) : json :=
  JObject (Json.literal (snapshot_fields sn)).

Definition envelope_fields (en : PersistedReviewEventsEnvelope) : list (string * option json) :=
  [("schemaVersion", Some (JString REVIEW_GATE_SCHEMA_VERSION));
   ("contractVersion", Some (JString TEST_INTELLIGENCE_CONTRACT_VERSION));
   ("jobId", Some (JString (en_jobId en)));
   ("events", Some (JArray (event_json <$> en_events en)));
   ("nextSequence", Some (Json.jint (en_nextSequence en)))].

Definition envelope_json (en : PersistedReviewEventsEnvelope) : json :=
  JObject (Json.literal (envelope_fields en)).

(** [canonicalJson(left) === canonicalJson(right)]; [JSON.stringify] leaves out
    properties that are [undefined]. *)
Definition reviewSnapshotsEqual (left right : ReviewSnapshot) : Prop :=
  canonicalJson (entry_json left) = canonicalJson (entry_json right).

(** ** The typed view of a validated value

    What the type assertion of a validator lets the rest of the store assume:
    each property read at its type. [None] when a property does not have it. *)

Definition as_meta (v : json) : option meta_value :=
  match v with
  | JString s => Some (MetaString s) | JNumber q => Some (MetaNumber q)
  | JBool b => Some (MetaBool b) | JNull => Some MetaNull | _ => None
  end.
Definition as_metadata (v : json) : option (gmap string meta_value) :=
  match v with
  | JObject fields => list_to_map <$> mapM (λ p, pair p.1 <$> as_meta p.2) fields
  | _ => None
  end.

Definition as_event (v : json) : option ReviewEvent :=
  id ← req "id" as_string v; jobId ← req "jobId" as_string v;
  testCaseId ← opt "testCaseId" as_string v; kind ← req "kind" as_label v;
  at_ ← req "at" as_string v; actor ← opt "actor" as_string v; note ← opt "note" as_string v;
  fromState ← opt "fromState" as_label v; toState ← opt "toState" as_label v;
  sequence ← req "sequence" as_integer v; metadata ← opt "metadata" as_metadata v;
  Some {| re_id := id; re_jobId := jobId; re_testCaseId := testCaseId; re_kind := kind;
          re_at := at_; re_actor := actor; re_note := note; re_fromState := fromState;
          re_toState := toState; re_sequence := sequence; re_metadata := metadata |}.

Definition as_entry (v : json) : option ReviewSnapshot :=
  testCaseId ← req "testCaseId" as_string v; state ← req "state" as_label v;
  policyDecision ← req "policyDecision" as_label v;
  lastEventId ← req "lastEventId" as_string v; lastEventAt ← req "lastEventAt" as_string v;
  enforced ← req "fourEyesEnforced" as_bool v;
  approvers ← req "approvers" (as_array as_string) v;
  reasons ← opt "fourEyesReasons" (as_array as_label) v;
  primary ← opt "primaryReviewer" as_string v; primaryAt ← opt "primaryApprovalAt" as_string v;
  secondary ← opt "secondaryReviewer" as_string v;
  secondaryAt ← opt "secondaryApprovalAt" as_string v;
  lastEditor ← opt "lastEditor" as_string v;
  Some {| rs_testCaseId := testCaseId; rs_state := state; rs_policyDecision := policyDecision;
          rs_lastEventId := lastEventId; rs_lastEventAt := lastEventAt;
          rs_fourEyesEnforced := enforced; rs_approvers := approvers;
          rs_fourEyesReasons := reasons; rs_primaryReviewer := primary;
          rs_primaryApprovalAt := primaryAt; rs_secondaryReviewer := secondary;
          rs_secondaryApprovalAt := secondaryAt; rs_lastEditor := lastEditor |}.

Definition as_policy (v : json) : option FourEyesPolicy :=
  risk ← req "requiredRiskCategories" (as_array as_label) v;
  visual ← req "visualSidecarTriggerOutcomes" (as_array as_label) v;
  Some {| requiredRiskCategories := risk; visualSidecarTriggerOutcomes := visual |}.

(** An absent count of pending cases is 0. *)
Definition as_snapshot (v : json) : option ReviewGateSnapshot :=
  jobId ← req "jobId" as_string v; generatedAt ← req "generatedAt" as_string v;
  entries ← req "perTestCase" (as_array as_entry) v;
  approved ← req "approvedCount" as_integer v; needsReview ← req "needsReviewCount" as_integer v;
  rejected ← req "rejectedCount" as_integer v;
  pending ← opt "pendingSecondaryApprovalCount" as_integer v;
  policy ← opt "fourEyesPolicy" as_policy v;
  Some {| rg_jobId := jobId; rg_generatedAt := generatedAt; rg_perTestCase := entries;
          rg_counts := {| approvedCount := approved; needsReviewCount := needsReview;
                          rejectedCount := rejected;
                          pendingSecondaryApprovalCount := default 0 pending |};
          rg_fourEyesPolicy := policy |}.

Definition as_envelope (v : json) : option PersistedReviewEventsEnvelope :=
  jobId ← req "jobId" as_string v; events ← req "events" (as_array as_event) v;
  nextSequence ← req "nextSequence" as_integer v;
  Some {| en_jobId := jobId; en_events := events; en_nextSequence := nextSequence |}.

(** ** Reading back what was written *)

(** The metadata of an event names no property [__proto__]. *)
Definition clean_metadata (m : option (gmap string meta_value)) : Prop :=
  match m with Some m => m !! PROTO = None | None => True end.

(** The metadata object of a file: its properties in some order. *)
Lemma metadata_canonical m :
  clean_metadata (Some m) →
  ∃ l, l ≡ₚ map_to_list m ∧ canonicalJson (metadata_json m) = JObject (prod_map id meta_json <$> l).
Proof.
  intros Hc. unfold canonicalJson, metadata_json.
  destruct (sortValue_object (prod_map id meta_json <$> map_to_list m)) as (out & -> & Hout).
  - rewrite <- list_fmap_compose. intros ([k v] & Hk & Hin)%list_elem_of_fmap. simpl in *. subst k.
    apply elem_of_map_to_list in Hin. by rewrite Hin in Hc.
  - assert (map (λ p, (p.1, sortValue p.2)) (prod_map id meta_json <$> map_to_list m) =
            map (prod_map id meta_json) (map_to_list m)) as E.
    { change (map ?f ?l) with (f <$> l). rewrite <- list_fmap_compose.
      apply list_fmap_ext. intros _ [k []] _; reflexivity. }
    rewrite E in Hout. destruct (Permutation_map_inv _ _ Hout) as (l & -> & Hl).
    exists l. split; [by symmetry|done].
Qed.

Lemma metadata_valid m :
  clean_metadata (Some m) → isFlatMetadata (canonicalJson (metadata_json m)) = true.
Proof.
  intros (l & _ & ->)%metadata_canonical. simpl. apply forallb_forall.
  intros p ([k v] & <- & _)%in_map_iff. by destruct v.
Qed.

Lemma metadata_typed m :
  clean_metadata (Some m) → as_metadata (canonicalJson (metadata_json m)) = Some m.
Proof.
  intros (l & Hl & ->)%metadata_canonical. simpl.
  assert (mapM (λ p, pair p.1 <$> as_meta p.2) (prod_map id meta_json <$> l) = Some l) as ->.
  { apply mapM_Some, Forall2_fmap_l, Forall_Forall2_diag, Forall_forall. by intros [k []] _. }
  simpl. f_equal. rewrite <- (list_to_map_to_list m). apply list_to_map_proper; [|done].
  rewrite Hl. apply NoDup_fst_map_to_list.
Qed.

Lemma event_valid ev :
  1 <= re_sequence ev → clean_metadata (re_metadata ev) →
  isReviewEvent (canonicalJson (event_json ev)) = true.
Proof.
  intros Hs Hc. unfold isReviewEvent, event_json. solve_valid.
  - by apply integer_from_jint.
  - rewrite Heq in Hc. simpl. by apply metadata_valid.
Qed.

Lemma event_typed ev :
  clean_metadata (re_metadata ev) → as_event (canonicalJson (event_json ev)) = Some ev.
Proof.
  intros Hc. unfold as_event, event_json.
  typed_req JString. typed_req JString. typed_opt JString.
  typed_req (@jlabel ReviewEventKind _); [|apply as_label_label].
  typed_req JString. typed_opt JString. typed_opt JString.
  typed_opt (@jlabel ReviewState _); [|apply as_label_label].
  typed_opt (@jlabel ReviewState _); [|apply as_label_label].
  typed_req Json.jint; [|apply as_integer_jint].
  typed_opt metadata_json; [|rewrite Heq in Hc; by apply metadata_typed].
  by destruct ev.
Qed.

(** The entry object with an arbitrary text in its policy decision. *)
Definition entry_fields_with (decision : string) (e : ReviewSnapshot) :
    list (string * option json) :=
  <[2%nat := ("policyDecision", Some (JString decision))]> (entry_fields e).

Lemma entry_valid_with decision e :
  isReviewSnapshotEntry (canonicalJson (JObject (Json.literal (entry_fields_with decision e)))) = true.
Proof.
  unfold isReviewSnapshotEntry. cbn [forallb]. solve_valid.
  - apply (array_of_canonical JString). by intros.
  - rewrite canonical_array. simpl. apply forallb_forall.
    intros v (r & <- & _)%in_map_iff. exact (in_labels_label r).
Qed.

Lemma entry_valid e : isReviewSnapshotEntry (canonicalJson (entry_json e)) = true.
Proof. exact (entry_valid_with (label (rs_policyDecision e)) e). Qed.

Lemma entry_typed e : as_entry (canonicalJson (entry_json e)) = Some e.
Proof.
  unfold as_entry, entry_json.
  typed_req JString. typed_req (@jlabel ReviewState _); [|apply as_label_label].
  typed_req (@jlabel TestCasePolicyDecision _); [|apply as_label_label].
  typed_req JString. typed_req JString. typed_req JBool.
  typed_req (λ l, JArray (JString <$> l)); [|by apply as_array_canonical].
  typed_opt (λ l, JArray (@jlabel FourEyesEnforcementReason _ <$> l));
    [|apply as_array_canonical; intros; apply as_label_label].
  do 5 typed_opt JString. by destruct e.
Qed.

Lemma policy_valid p : isFourEyesPolicy (canonicalJson (policy_json p)) = true.
Proof.
  unfold isFourEyesPolicy, policy_json. solve_valid; apply array_of_canonical; by intros.
Qed.

Lemma policy_typed p : as_policy (canonicalJson (policy_json p)) = Some p.
Proof.
  unfold as_policy, policy_json.
  typed_req (λ l, JArray (@jlabel TestCaseRiskCategory _ <$> l));
    [|apply as_array_canonical; intros; apply as_label_label].
  typed_req (λ l, JArray (@jlabel VisualSidecarValidationOutcome _ <$> l));
    [|apply as_array_canonical; intros; apply as_label_label].
  by destruct p.
Qed.

Lemma snapshot_valid sn : isReviewGateSnapshot (canonicalJson (snapshot_json sn)) = true.
Proof.
  unfold isReviewGateSnapshot, snapshot_json. solve_valid.
  - apply array_of_canonical. intros e _. apply entry_valid.
  - apply Number.q_is_integer_inject.
  - simpl. apply policy_valid.
Qed.

Lemma snapshot_typed sn : as_snapshot (canonicalJson (snapshot_json sn)) = Some sn.
Proof.
  unfold as_snapshot, snapshot_json. typed_req JString. typed_req JString.
  typed_req (λ l, JArray (entry_json <$> l)); [|apply as_array_canonical; intros; apply entry_typed].
  do 3 (typed_req Json.jint; [|apply as_integer_jint]).
  erewrite (opt_canonical _ Json.jint _ (Some (pendingSecondaryApprovalCount (rg_counts sn))));
    [|solve_field|intros ? [= <-]; apply as_integer_jint].
  typed_opt policy_json; [|apply policy_typed].
  by destruct sn as [? ? ? [] ?].
Qed.

Lemma envelope_valid en :
  1 <= en_nextSequence en →
  (∀ ev, ev ∈ en_events en → 1 <= re_sequence ev ∧ clean_metadata (re_metadata ev)) →
  isPersistedEnvelope (canonicalJson (envelope_json en)) = true.
Proof.
  intros Hn He. unfold isPersistedEnvelope, envelope_json. solve_valid.
  - apply array_of_canonical. intros ev Hev. apply event_valid; by apply He.
  - by apply integer_from_jint.
Qed.

Lemma envelope_typed en :
  (∀ ev, ev ∈ en_events en → clean_metadata (re_metadata ev)) →
  as_envelope (canonicalJson (envelope_json en)) = Some en.
Proof.
  intros He. unfold as_envelope, envelope_json. typed_req JString.
  typed_req (λ l, JArray (event_json <$> l));
    [|apply as_array_canonical; intros; by apply event_typed, He].
  typed_req Json.jint; [|apply as_integer_jint]. by destruct en.
Qed.

(** The files of a job's directory. *)
Definition events_file (d : job_dir) : raw_file :=
  match dir_events d with None => Absent | Some en => writeAtomicJson (envelope_json en) end.
Definition state_file (d : job_dir) : raw_file :=
  match dir_snapshot d with None => Absent | Some sn => writeAtomicJson (snapshot_json sn) end.

(** A reader found the file of [typed]: a validated value whose typed view is
    it, or no file. *)
Definition reads_as {A} (view : json → option A) (r : outcome ReadError (option json))
    (typed : option A) : Prop :=
  match typed with
  | None => r = Ok None
  | Some x => ∃ v, r = Ok (Some v) ∧ view v = Some x
  end.

Lemma envelope_jobId en jobId :
  Json.eq_string (field "jobId" (canonicalJson (envelope_json en))) jobId =
  bool_decide (en_jobId en = jobId).
Proof. unfold envelope_json. by rewrite (field_canonical "jobId") by discriminate. Qed.

Lemma log_inv_positive jobId en :
  log_inv jobId en → 1 <= en_nextSequence en ∧ ∀ ev, ev ∈ en_events en → 1 <= re_sequence ev.
Proof.
  intros [_ Hs Hn _]. split; [lia|]. intros ev Hev.
  assert (re_sequence ev ∈ sequence_numbers (length (en_events en))) as Hin
    by (rewrite <- Hs; by apply list_elem_of_fmap_2).
  unfold sequence_numbers in Hin. apply list_elem_of_fmap in Hin as (i & -> & _). lia.
Qed.

(** ** Properties *)

(** C5. Persistence round trip: in every directory the store can produce, crash
    states included, both files are accepted by their readers, and their typed
    views are exactly the log and the snapshot they were written from, as long
    as no event carries a metadata property named [__proto__]. *)
Theorem store_files_read_back `{LocaleCompare} jobId d :
  reachable jobId d →
  (∀ en ev, dir_events d = Some en → ev ∈ en_events en → clean_metadata (re_metadata ev)) →
  reads_as as_envelope (read_events_file jobId (events_file d)) (dir_events d) ∧
  reads_as as_snapshot (read_state_file (state_file d)) (dir_snapshot d).
Proof.
  intros Hr Hc. apply reachable_inv in Hr as [Hlog _]. split.
  - unfold events_file, read_events_file. destruct (dir_events d) as [en|]; [|done].
    specialize (Hlog en eq_refl). destruct (log_inv_positive jobId en Hlog) as [Hn Hs].
    cbn [writeAtomicJson]. rewrite envelope_valid by (try done; intros ev Hev; eauto).
    rewrite envelope_jobId, (li_jobId _ _ Hlog), bool_decide_eq_true_2 by done.
    eexists. split; [reflexivity|]. apply envelope_typed. eauto.
  - unfold state_file, read_state_file. destruct (dir_snapshot d) as [sn|]; [|done].
    cbn [writeAtomicJson]. rewrite snapshot_valid. eexists. split; [reflexivity|].
    apply snapshot_typed.
Qed.

(** The comparison of canonical texts that decides whether a refresh changed
    an entry is equality of entries. *)
Theorem reviewSnapshotsEqual_spec left right :
  reviewSnapshotsEqual left right ↔ left = right.
Proof.
  unfold reviewSnapshotsEqual. split; [|by intros ->]. intros E.
  assert (Some left = Some right) as [= ->]; [|done].
  by rewrite <- !entry_typed, E.
Qed.

(** The validator of snapshot entries accepts any text as a policy decision,
    so that it vouches for objects that are no [ReviewSnapshot]. *)
Theorem entry_guard_ignores_decision decision e :
  let v := canonicalJson (JObject (Json.literal (entry_fields_with decision e))) in
  isReviewSnapshotEntry v = true ∧
  (parse_label (A := TestCasePolicyDecision) decision = None → as_entry v = None).
Proof.
  intros v. split; [apply entry_valid_with|]. intros Hd. unfold as_entry.
  assert (req (A := TestCasePolicyDecision) "policyDecision" as_label v = None) as ->.
  { unfold req, v. rewrite field_canonical by discriminate. cbn -[parse_label].
    unfold as_label. cbn -[parse_label]. by rewrite Hd. }
  by destruct (req "testCaseId" _ _), (req "state" _ _).
Qed.
