(* ===== verification/JobLock.v ===== *)
(** * Per-job serialization of the review store

    [buildJobLock] and [FileSystemReviewStore.withJobLock]: a caller takes the
    promise stored for its job, stores its own in its place, awaits the one it
    took, runs, and in [finally] resolves its own promise and removes it if it
    is still the stored one. Callers are numbered in the order they call. *)

From S2P Require Import Prelude.

Inductive phase : Type :=
| Waiting   (** suspended in [await previous] *)
| Running   (** inside [work()] *)
| Finished. (** past [finally]: its promise is resolved *)

#[export] Instance phase_eq_dec : EqDecision phase.
Proof. solve_decision. Defined.

Record task := {
  t_job : string;
  t_previous : option nat;
  t_phase : phase;
}.

(** [locks] is the store's map; a promise is the number of the task that
    resolves it. *)
Record lock_state := {
  locks : gmap string nat;
  tasks : gmap nat task;
  next_task : nat;
}.

Definition lock_init : lock_state := {| locks := ∅; tasks := ∅; next_task := 0 |}.

(** From the call to the first suspension point. *)
Definition acquire (job : string) (s : lock_state) : lock_state :=
  let previous := locks s !! job in
  let me := next_task s in
  {| locks := <[job := me]> (locks s);
     tasks := <[me := {| t_job := job; t_previous := previous;
                         t_phase := match previous with
                                    | Some _ => Waiting
                                    | None => Running
                                    end |}]> (tasks s);
     next_task := S me |}.

Definition set_phase (t : task) (p : phase) : task :=
  {| t_job := t_job t; t_previous := t_previous t; t_phase := p |}.

Definition finished (s : lock_state) (n : nat) : bool :=
  match tasks s !! n with
  | Some t => bool_decide (t_phase t = Finished)
  | None => false
  end.

(** [await previous] returns once the promise is resolved. *)
Definition resume (n : nat) (s : lock_state) : option lock_state :=
  t ← tasks s !! n;
  p ← t_previous t;
  if bool_decide (t_phase t = Waiting) && finished s p
  then Some {| locks := locks s; tasks := <[n := set_phase t Running]> (tasks s);
               next_task := next_task s |}
  else None.

(** The end of [work()], with or without an exception, and [finally]. *)
Definition finish (n : nat) (s : lock_state) : option lock_state :=
  t ← tasks s !! n;
  if bool_decide (t_phase t = Running)
  then Some {| locks := if bool_decide (locks s !! t_job t = Some n)
                        then delete (t_job t) (locks s) else locks s;
               tasks := <[n := set_phase t Finished]> (tasks s);
               next_task := next_task s |}
  else None.

Inductive lock_step : lock_state → lock_state → Prop :=
| step_acquire job s : lock_step s (acquire job s)
| step_resume n s s' : resume n s = Some s' → lock_step s s'
| step_finish n s s' : finish n s = Some s' → lock_step s s'.

Definition lock_reachable : lock_state → Prop := rtc lock_step lock_init.

(** ** Invariant *)

Definition all_finished_before (s : lock_state) (job : string) (n : nat) : Prop :=
  ∀ m t, tasks s !! m = Some t → t_job t = job → (m < n)%nat → t_phase t = Finished.

Record lock_inv (s : lock_state) : Prop := {
  lk_fresh n t : tasks s !! n = Some t → (n < next_task s)%nat;
  (** a task that is past its wait comes after finished tasks only *)
  lk_order n t : tasks s !! n = Some t → t_phase t ≠ Waiting →
    all_finished_before s (t_job t) n;
  (** a waiting task waits for the task of its job called just before it *)
  lk_waiting n t : tasks s !! n = Some t → t_phase t = Waiting →
    ∃ p tp, t_previous t = Some p ∧ tasks s !! p = Some tp ∧ t_job tp = t_job t ∧
      (p < n)%nat ∧
      ∀ m tm, tasks s !! m = Some tm → t_job tm = t_job t → (m < n)%nat → (m ≤ p)%nat;
  (** the stored promise belongs to the last task of the job *)
  lk_tail job n : locks s !! job = Some n →
    ∃ t, tasks s !! n = Some t ∧ t_job t = job ∧ t_phase t ≠ Finished ∧
      ∀ m tm, tasks s !! m = Some tm → t_job tm = job → (m ≤ n)%nat;
  lk_free job : locks s !! job = None →
    ∀ n t, tasks s !! n = Some t → t_job t = job → t_phase t = Finished;
}.

Lemma lock_init_inv : lock_inv lock_init.
Proof. split; simpl; intros; simplify_map_eq. Qed.

Lemma acquire_inv job s : lock_inv s → lock_inv (acquire job s).
Proof.
  intros [Hf Ho Hw Ht Hl]. unfold acquire.
  split; unfold all_finished_before in *; simpl.
  - intros n t [[<- <-]|[? ?%Hf]]%lookup_insert_Some; lia.
  - intros n t Hn Hp m tm Hm Hj Hlt.
    apply lookup_insert_Some in Hn as [[<- <-]|[? Hn]];
      apply lookup_insert_Some in Hm as [[<- <-]|[? Hm]]; simpl in *; try lia.
    + destruct (locks s !! job) eqn:E; [done|]. by eapply Hl.
    + apply Hf in Hn. lia.
    + exact (Ho n t Hn Hp m tm Hm Hj Hlt).
  - intros n t Hn Hp.
    apply lookup_insert_Some in Hn as [[<- <-]|[Hne Hn]]; simpl in *.
    + destruct (locks s !! job) as [p|] eqn:E; [|done].
      destruct (Ht _ _ E) as (tp & Hp' & Hj & _ & Hmax). pose proof (Hf _ _ Hp').
      exists p, tp. split_and!; try done.
      * rewrite lookup_insert_ne by lia. done.
      * intros m tm Hm Hjm Hlt. rewrite lookup_insert_ne in Hm by lia. by eapply Hmax.
    + destruct (Hw _ _ Hn Hp) as (p & tp & Hpr & Htp & Hj & Hlt & Hmax).
      pose proof (Hf _ _ Hn). exists p, tp. split_and!; try done.
      * rewrite lookup_insert_ne by lia. done.
      * intros m tm Hm Hjm Hlt'. rewrite lookup_insert_ne in Hm by lia. by eapply Hmax.
  - intros j n [[<- <-]|[Hne Hj]]%lookup_insert_Some.
    + eexists. rewrite lookup_insert_eq. split_and!; try done.
      * by destruct (locks s !! job).
      * intros m tm [[<- _]|[_ ?%Hf]]%lookup_insert_Some _; lia.
    + destruct (Ht _ _ Hj) as (t & Hn & Hjt & Hp & Hmax). pose proof (Hf _ _ Hn).
      exists t. rewrite lookup_insert_ne by lia. split_and!; try done.
      intros m tm Hm Hjm. apply lookup_insert_Some in Hm as [[<- <-]|[_ Hm]]; [done|].
      by eapply Hmax.
  - intros j [Hj Hne]%lookup_insert_None n t Hn Hjt.
    apply lookup_insert_Some in Hn as [[<- <-]|[_ Hn]]; [done|]. by eapply Hl.
Qed.

Lemma resume_inv n s s' : lock_inv s → resume n s = Some s' → lock_inv s'.
Proof.
  intros [Hf Ho Hw Ht Hl]. unfold resume, finished.
  destruct (tasks s !! n) as [t|] eqn:En; simpl; [|done].
  destruct (t_previous t) as [p|] eqn:Ep; simpl; [|done].
  case_bool_decide as Hph; simpl; [|done].
  destruct (tasks s !! p) as [tp|] eqn:Etp; [|done]. case_bool_decide as Hfin; [|done].
  intros [= <-].
  destruct (Hw _ _ En Hph) as (p' & tp' & Hpr & Htp & Hj & Hlt & Hmax). simplify_eq.
  assert (all_finished_before s (t_job t) n) as Hbefore.
  { intros m tm Hm Hjm Hlt'. pose proof (Hmax _ _ Hm Hjm Hlt') as Hle.
    destruct (decide (m = p)) as [->|]; [by simplify_eq|].
    refine (Ho _ _ Etp _ _ _ Hm _ _); [by rewrite Hfin|congruence|lia]. }
  split; unfold all_finished_before in *; simpl.
  - intros m tm [[<- <-]|[_ ?%Hf]]%lookup_insert_Some; [by eapply Hf|done].
  - intros m tm Hm Hp k tk Hk Hjk Hlt'.
    apply lookup_insert_Some in Hm as [[<- <-]|[Hne Hm]];
      apply lookup_insert_Some in Hk as [[<- <-]|[? Hk]]; simpl in *; try lia.
    + by eapply Hbefore.
    + exfalso. pose proof (Ho _ _ Hm Hp _ _ En Hjk Hlt'). congruence.
    + exact (Ho m tm Hm Hp k tk Hk Hjk Hlt').
  - intros m tm [[<- <-]|[Hne Hm]]%lookup_insert_Some Hp; [done|].
    destruct (Hw _ _ Hm Hp) as (q & tq & Hq & Htq & Hjq & Hltq & Hmaxq).
    destruct (decide (n = q)) as [->|].
    + eexists q, _. rewrite lookup_insert_eq. split_and!; try done; simpl; [congruence|].
      intros k tk Hk Hjk Hltk. apply lookup_insert_Some in Hk as [[<- <-]|[_ Hk]]; [done|].
      by eapply Hmaxq.
    + exists q, tq. rewrite lookup_insert_ne by done. split_and!; try done.
      intros k tk Hk Hjk Hltk. apply lookup_insert_Some in Hk as [[<- <-]|[_ Hk]];
        by eapply Hmaxq.
  - intros j m Hm. destruct (Ht _ _ Hm) as (tm & Htm & Hjm & Hpm & Hmaxm).
    destruct (decide (n = m)) as [->|].
    + eexists. rewrite lookup_insert_eq. simplify_eq. split_and!; try done.
      intros k tk Hk Hjk. apply lookup_insert_Some in Hk as [[<- <-]|[_ Hk]]; [done|].
      by eapply Hmaxm.
    + exists tm. rewrite lookup_insert_ne by done. split_and!; try done.
      intros k tk Hk Hjk. apply lookup_insert_Some in Hk as [[<- <-]|[_ Hk]];
        by eapply Hmaxm.
  - intros j Hjn m tm Hm Hjm. apply lookup_insert_Some in Hm as [[<- <-]|[_ Hm]].
    + exfalso. simpl in Hjm. pose proof (Hl _ Hjn _ _ En Hjm). congruence.
    + by eapply Hl.
Qed.

Lemma finish_inv n s s' : lock_inv s → finish n s = Some s' → lock_inv s'.
Proof.
  intros [Hf Ho Hw Ht Hl]. unfold finish.
  destruct (tasks s !! n) as [t|] eqn:En; simpl; [|done].
  case_bool_decide as Hph; simpl; [|done]. intros [= <-].
  assert (all_finished_before s (t_job t) n) as Hbefore.
  { eapply Ho; [done|]. by rewrite Hph. }
  split; unfold all_finished_before in *; simpl.
  - intros m tm [[<- <-]|[_ ?%Hf]]%lookup_insert_Some; [by eapply Hf|done].
  - intros m tm Hm Hp k tk Hk Hjk Hlt'.
    apply lookup_insert_Some in Hm as [[<- <-]|[Hne Hm]];
      apply lookup_insert_Some in Hk as [[<- <-]|[? Hk]]; simpl in *; try lia; try done.
    + by eapply Hbefore.
    + exact (Ho m tm Hm Hp k tk Hk Hjk Hlt').
  - intros m tm [[<- <-]|[Hne Hm]]%lookup_insert_Some Hp; [done|].
    destruct (Hw _ _ Hm Hp) as (q & tq & Hq & Htq & Hjq & Hltq & Hmaxq).
    destruct (decide (n = q)) as [->|].
    + eexists q, _. rewrite lookup_insert_eq. split_and!; try done; simpl; [congruence|].
      intros k tk Hk Hjk Hltk. apply lookup_insert_Some in Hk as [[<- <-]|[_ Hk]]; [done|].
      by eapply Hmaxq.
    + exists q, tq. rewrite lookup_insert_ne by done. split_and!; try done.
      intros k tk Hk Hjk Hltk. apply lookup_insert_Some in Hk as [[<- <-]|[_ Hk]];
        by eapply Hmaxq.
  - intros j m Hm. assert (n ≠ m ∧ locks s !! j = Some m) as [Hne Hm'].
    { case_bool_decide as E.
      - apply lookup_delete_Some in Hm as [Hne Hm]. split; [|done]. intros ->.
        destruct (Ht _ _ Hm) as (tm & Htm & Hjm & _). by simplify_eq.
      - split; [|done]. intros ->. destruct (Ht _ _ Hm) as (tm & Htm & Hjm & _).
        by simplify_eq. }
    destruct (Ht _ _ Hm') as (tm & Htm & Hjm & Hpm & Hmaxm).
    exists tm. rewrite lookup_insert_ne by done. split_and!; try done.
    intros k tk Hk Hjk. apply lookup_insert_Some in Hk as [[<- <-]|[_ Hk]];
      by eapply Hmaxm.
  - intros j Hjn m tm Hm Hjm. apply lookup_insert_Some in Hm as [[<- <-]|[Hnm Hm]]; [done|].
    case_bool_decide as E; [|by eapply Hl].
    apply lookup_delete_None in Hjn as [<-|Hjn]; [|by eapply Hl].
    destruct (Ht _ _ E) as (tt & _ & _ & _ & Hmax).
    eapply Hbefore; [done..|]. pose proof (Hmax _ _ Hm Hjm). lia.
Qed.

Lemma lock_step_inv s s' : lock_step s s' → lock_inv s → lock_inv s'.
Proof. intros [] Hs; eauto using acquire_inv, resume_inv, finish_inv. Qed.

Lemma lock_reachable_inv s : lock_reachable s → lock_inv s.
Proof.
  unfold lock_reachable. generalize lock_init_inv. generalize lock_init.
  intros s0 H0. induction 1; eauto using lock_step_inv.
Qed.

(** ** Properties *)

(** C27. Mutual exclusion: at no moment are two callers of one job inside their
    work. *)
Theorem job_lock_mutual_exclusion s n m tn tm :
  lock_reachable s → tasks s !! n = Some tn → tasks s !! m = Some tm →
  t_job tn = t_job tm → t_phase tn = Running → t_phase tm = Running → n = m.
Proof.
  intros [_ Ho _ _ _]%lock_reachable_inv Hn Hm Hj Hpn Hpm.
  destruct (lt_eq_lt_dec n m) as [[Hlt|]|Hlt]; [exfalso|done|exfalso].
  - enough (t_phase tn = Finished) by congruence.
    eapply (Ho _ _ Hm); [by rewrite Hpm|done..].
  - enough (t_phase tm = Finished) by congruence.
    eapply (Ho _ _ Hn); [by rewrite Hpn|done..].
Qed.

(** C28. Callers of a job run in the order they called, and none is lost: while
    some caller of the job has not finished, the earliest such caller is either
    running or can resume at once. *)
Theorem job_lock_fifo_progress s job n t :
  lock_reachable s → tasks s !! n = Some t → t_job t = job → t_phase t ≠ Finished →
  all_finished_before s job n → t_phase t = Running ∨ is_Some (resume n s).
Proof.
  intros [_ _ Hw _ _]%lock_reachable_inv Hn <- Hp Hb.
  destruct (t_phase t) eqn:Ep; [right|by left|done].
  destruct (Hw _ _ Hn Ep) as (p & tp & Hpr & Htp & Hj & Hlt & _).
  unfold resume, finished. rewrite Hn. simpl. rewrite Hpr. simpl. rewrite Htp.
  rewrite !bool_decide_eq_true_2; [by eexists|by eapply Hb|done].
Qed.

(** Three callers of one job: the second and third wait in turn. *)
Definition three_callers : lock_state := acquire "job" (acquire "job" (acquire "job" lock_init)).

Lemma three_callers_reachable : lock_reachable three_callers.
Proof. do 3 (eapply rtc_r; [|apply step_acquire]). constructor. Qed.

Lemma job_lock_mutual_exclusion_witness :
  ∃ tn, tasks three_callers !! 0%nat = Some tn ∧ t_phase tn = Running ∧
    ∀ m tm, tasks three_callers !! m = Some tm → t_job tm = "job" →
            t_phase tm = Running → 0%nat = m.
Proof.
  eexists. split; [reflexivity|]. split; [reflexivity|]. intros m tm Hm Hj Hp.
  eapply (job_lock_mutual_exclusion three_callers 0 m _ tm three_callers_reachable
    eq_refl Hm); [by rewrite Hj|reflexivity|done].
Defined.

(** After the first caller finished, the second can resume. *)
Definition first_finished : lock_state := default lock_init (finish 0 three_callers).

Lemma job_lock_fifo_progress_witness :
  is_Some (resume 0 first_finished) ∨ is_Some (resume 1 first_finished).
Proof.
  assert (Hr : lock_reachable first_finished).
  { eapply rtc_r; [apply three_callers_reachable|]. by apply (step_finish 0). }
  assert (Hb : all_finished_before first_finished "job" 1).
  { intros [|m] t Hm _ Hlt; [|lia]. vm_compute in Hm. by simplify_eq. }
  right. edestruct (job_lock_fifo_progress first_finished "job" 1) as [Hrun|Hres];
    [exact Hr|reflexivity|reflexivity|discriminate|exact Hb|discriminate|exact Hres].
Defined.
