(* ===== verification/HashChain.v ===== *)
(** * Hash chains

    The theory the lock events and the checkpoints share: a list whose elements
    are each linked to the hash of the one before. [link i prev e] says that [e]
    may stand at position [i] after an element that hashes to [prev]. *)

From S2P Require Import Prelude.

Section hash_chain.
Context {E : Type} (hash : E → string) (link : Z → string → E → Prop).

Fixpoint hash_chain (i : Z) (prev : string) (es : list E) : Prop :=
  match es with
  | [] => True
  | e :: rest => link i prev e ∧ hash_chain (i + 1) (hash e) rest
  end.

(** The hash of the last element, [prev] when there is none. *)
Definition chain_head (prev : string) (es : list E) : string :=
  match last es with None => prev | Some e => hash e end.

Lemma chain_head_cons prev e es : chain_head prev (e :: es) = chain_head (hash e) es.
Proof. unfold chain_head. rewrite last_cons. by destruct (last es). Qed.

Lemma chain_head_snoc prev es e : chain_head prev (es ++ [e]) = hash e.
Proof. unfold chain_head. by rewrite last_snoc. Qed.

Lemma hash_chain_app i prev l1 l2 :
  hash_chain i prev (l1 ++ l2) ↔
  hash_chain i prev l1 ∧ hash_chain (i + Z.of_nat (length l1)) (chain_head prev l1) l2.
Proof.
  revert i prev; induction l1 as [|x l1 IH]; intros i prev; simpl.
  - rewrite Z.add_0_r. unfold chain_head. simpl. tauto.
  - rewrite IH, chain_head_cons.
    replace (i + 1 + Z.of_nat (length l1)) with (i + Z.of_nat (S (length l1))) by lia. tauto.
Qed.

Lemma hash_chain_snoc i prev es e :
  hash_chain i prev (es ++ [e]) ↔
  hash_chain i prev es ∧ link (i + Z.of_nat (length es)) (chain_head prev es) e.
Proof. rewrite hash_chain_app. simpl. tauto. Qed.

(** The element at position [k] of a chain. *)
Lemma hash_chain_lookup i prev es k e :
  hash_chain i prev es → es !! k = Some e →
  link (i + Z.of_nat k) (chain_head prev (take k es)) e.
Proof.
  intros Hc Hk. rewrite <- (take_drop_middle es k e Hk) in Hc.
  apply hash_chain_app in Hc as (_ & He & _). apply lookup_lt_Some in Hk.
  by rewrite length_take_le in He by lia.
Qed.

(** When linked elements carry their position as a key, the keys are consecutive. *)
Lemma hash_chain_keys (key : E → Z) i prev es :
  (∀ j p e, link j p e → key e = j) →
  hash_chain i prev es → key <$> es = seqZ i (Z.of_nat (length es)).
Proof.
  intros Hkey Hc. apply list_eq. intros k. rewrite list_lookup_fmap.
  destruct (es !! k) as [e|] eqn:Ek; simpl.
  - rewrite (Hkey _ _ _ (hash_chain_lookup _ _ _ _ _ Hc Ek)). symmetry. apply lookup_seqZ_lt.
    apply lookup_lt_Some in Ek. lia.
  - symmetry. apply lookup_seqZ_ge. apply lookup_ge_None in Ek. lia.
Qed.

(** Two chains of one length with one head hash agree up to [R], or two elements
    that are not related have the same hash ([C]). *)
Section tamper.
Context (R : E → E → Prop) (C : Prop).
Hypothesis hash_inj : ∀ e1 e2, hash e1 = hash e2 → R e1 e2 ∨ C.
Hypothesis link_parent : ∀ i p1 p2 e1 e2, 0 < i → link i p1 e1 → link i p2 e2 → R e1 e2 → p1 = p2.

Lemma hash_chain_tamper root es1 es2 :
  hash_chain 0 root es1 → hash_chain 0 root es2 → length es1 = length es2 →
  chain_head root es1 = chain_head root es2 → Forall2 R es1 es2 ∨ C.
Proof.
  revert es2. induction es1 as [|e1 es1 IH] using rev_ind; intros es2 H1 H2 Hl Hh.
  { left. symmetry in Hl. apply length_zero_iff_nil in Hl as ->. constructor. }
  destruct es2 as [|e2 es2 _] using rev_ind; [rewrite length_app in Hl; simpl in Hl; lia|].
  rewrite !length_app in Hl. simpl in Hl. rewrite !chain_head_snoc in Hh.
  apply hash_chain_snoc in H1 as [H1 L1], H2 as [H2 L2].
  destruct (hash_inj e1 e2 Hh) as [He|]; [|by right].
  assert (length es1 = length es2) as Hlen by lia.
  destruct (IH es2 H1 H2 Hlen) as [Hes|]; [|left|by right].
  - destruct es1 as [|x1 es1], es2 as [|x2 es2]; try done. rewrite <- Hlen in L2.
    eapply link_parent; [|exact L1|exact L2|done]. simpl. lia.
  - apply Forall2_app; [done|by constructor].
Qed.
End tamper.
End hash_chain.
