(* ===== verification/LockEventChain.v ===== *)
(** * The event chain of the consolidation lock

    The first half of
    [packages/agentic-harness/src/lessons-consolidation-lock.ts]: lock events,
    their stamping with the hash of the previous event, and the offline verifier
    of a chain. An event is hashed as the canonical text of its object; process
    ids and times are integers. *)

From S2P Require Import Prelude HashChain JsString JsList JsValue CanonicalJson Contracts JsonView.

(** ** Constants *)

Definition CONSOLIDATION_LOCK_SCHEMA_VERSION : string := "1.0.0".
Definition CONSOLIDATION_LOCK_EVENT_TYPES : list string :=
  ["lock_acquired"; "lock_released"; "lock_rolled_back"; "lock_takeover"].
Definition CONSOLIDATION_LOCK_ROOT_PARENT_HASH : string :=
  "0000000000000000000000000000000000000000000000000000000000000000".

(** ** Events *)

(** [ConsolidationLockEvent] without its chain stamp. *)
Record LockEventSeed := {
  ls_eventType : string;
  ls_holderId : string;
  ls_holderPid : Z;
  ls_holderHost : string;
  ls_priorHolderId : option string;
  ls_priorHolderPid : option Z;
  ls_priorHolderHost : option string;
  ls_priorAcquiredAtMs : option Z;
  ls_occurredAtMs : Z;
}.

#[export] Instance LockEventSeed_eq_dec : EqDecision LockEventSeed.
Proof. solve_decision. Defined.

(** [ConsolidationLockEvent] *)
Record LockEvent := {
  le_schemaVersion : string;
  le_seed : LockEventSeed;
  le_parentHash : string;
  le_chainIndex : Z;
}.

#[export] Instance LockEvent_eq_dec : EqDecision LockEvent.
Proof. solve_decision. Defined.

Inductive LockEventError : Type :=
| lv_schema_version | lv_event_type | lv_holder_id | lv_holder_pid | lv_holder_host
| lv_occurred_at | lv_parent_hash | lv_chain_index | lv_root_parent
| lv_prior_holder_id | lv_prior_holder_pid | lv_prior_holder_host.

#[export] Instance LockEventError_eq_dec : EqDecision LockEventError.
Proof. solve_decision. Defined.

Definition is_blank_id (s : option string) : bool :=
  match s with None => true | Some s => bool_decide (s = "") end.

Definition assertLockEvent (event : LockEvent) : outcome LockEventError unit :=
  let seed := le_seed event in
  (guard_throw (bool_decide (le_schemaVersion event ≠ CONSOLIDATION_LOCK_SCHEMA_VERSION))
     lv_schema_version ;;;
   guard_throw (negb (bool_decide (ls_eventType seed ∈ CONSOLIDATION_LOCK_EVENT_TYPES)))
     lv_event_type ;;;
   guard_throw (bool_decide (ls_holderId seed = "")) lv_holder_id ;;;
   guard_throw (ls_holderPid seed <? 1) lv_holder_pid ;;;
   guard_throw (bool_decide (ls_holderHost seed = "")) lv_holder_host ;;;
   guard_throw (ls_occurredAtMs seed <? 0) lv_occurred_at ;;;
   guard_throw (negb (isHex64 (le_parentHash event))) lv_parent_hash ;;;
   guard_throw (le_chainIndex event <? 0) lv_chain_index ;;;
   guard_throw ((le_chainIndex event =? 0)
                && bool_decide (le_parentHash event ≠ CONSOLIDATION_LOCK_ROOT_PARENT_HASH))
     lv_root_parent ;;;
   (if bool_decide (ls_eventType seed = "lock_takeover") then
      guard_throw (is_blank_id (ls_priorHolderId seed)) lv_prior_holder_id ;;;
      guard_throw (default false ((λ pid, pid <? 1) <$> ls_priorHolderPid seed))
        lv_prior_holder_pid ;;;
      guard_throw (bool_decide (ls_priorHolderHost seed = Some "")) lv_prior_holder_host
    else Ok tt))%outcome.

(** The object whose canonical text is hashed and written. *)
Definition lock_event_fields (ev : LockEvent) : list (string * option json) :=
  let seed := le_seed ev in
  [("schemaVersion", Some (JString (le_schemaVersion ev)));
   ("eventType", Some (JString (ls_eventType seed)));
   ("holderId", Some (JString (ls_holderId seed)));
   ("holderPid", Some (Json.jint (ls_holderPid seed)));
   ("holderHost", Some (JString (ls_holderHost seed)));
   ("priorHolderId", JString <$> ls_priorHolderId seed);
   ("priorHolderPid", Json.jint <$> ls_priorHolderPid seed);
   ("priorHolderHost", JString <$> ls_priorHolderHost seed);
   ("priorAcquiredAtMs", Json.jint <$> ls_priorAcquiredAtMs seed);
   ("occurredAtMs", Some (Json.jint (ls_occurredAtMs seed)));
   ("parentHash", Some (JString (le_parentHash ev)));
   ("chainIndex", Some (Json.jint (le_chainIndex ev)))].

Definition lock_event_json (ev : LockEvent) : json := JObject (Json.literal (lock_event_fields ev)).

Definition computeEventHash `{JsonDigest} (event : LockEvent) : string :=
  sha256Hex_json (lock_event_json event).

(** ** Verifying a chain *)

Inductive ChainBreakReason : Type :=
| chain_index_mismatch | duplicate_chain_index | missing_root | parent_hash_mismatch
| schema_invalid.

Inductive VerifyResult : Type :=
| chain_ok (headOfChainHash : string) (chainLength : Z)
| chain_break (firstBreakIndex : Z) (reason : ChainBreakReason).

Fixpoint verify_loop `{JsonDigest} (i : Z) (seen : list Z) (previousHash : string)
    (events : list LockEvent) : VerifyResult :=
  match events with
  | [] => chain_ok previousHash i
  | event :: rest =>
      if bool_decide (le_chainIndex event ∈ seen)
      then chain_break (le_chainIndex event) duplicate_chain_index
      else if negb (le_chainIndex event =? i) then chain_break i chain_index_mismatch
      else match assertLockEvent event with
           | Throw _ => chain_break i schema_invalid
           | Ok _ =>
               if (i =? 0) && bool_decide (le_parentHash event ≠ CONSOLIDATION_LOCK_ROOT_PARENT_HASH)
               then chain_break 0 missing_root
               else if negb (i =? 0) && bool_decide (le_parentHash event ≠ previousHash)
               then chain_break i parent_hash_mismatch
               else verify_loop (i + 1) (le_chainIndex event :: seen) (computeEventHash event) rest
           end
  end.

Definition verifyConsolidationLockEventChain `{JsonDigest} (events : list LockEvent) :
    VerifyResult :=
  verify_loop 0 [] CONSOLIDATION_LOCK_ROOT_PARENT_HASH events.

(** ** Lemmas on chains *)

Definition as_lock_event (v : json) : option LockEvent :=
  schemaVersion ← req "schemaVersion" as_string v; eventType ← req "eventType" as_string v;
  holderId ← req "holderId" as_string v; holderPid ← req "holderPid" as_integer v;
  holderHost ← req "holderHost" as_string v; priorId ← opt "priorHolderId" as_string v;
  priorPid ← opt "priorHolderPid" as_integer v; priorHost ← opt "priorHolderHost" as_string v;
  priorAt ← opt "priorAcquiredAtMs" as_integer v; occurredAt ← req "occurredAtMs" as_integer v;
  parentHash ← req "parentHash" as_string v; chainIndex ← req "chainIndex" as_integer v;
  Some {| le_schemaVersion := schemaVersion;
          le_seed := {| ls_eventType := eventType; ls_holderId := holderId;
                        ls_holderPid := holderPid; ls_holderHost := holderHost;
                        ls_priorHolderId := priorId; ls_priorHolderPid := priorPid;
                        ls_priorHolderHost := priorHost; ls_priorAcquiredAtMs := priorAt;
                        ls_occurredAtMs := occurredAt |};
          le_parentHash := parentHash; le_chainIndex := chainIndex |}.

Lemma lock_event_typed ev : as_lock_event (canonicalJson (lock_event_json ev)) = Some ev.
Proof.
  unfold as_lock_event, lock_event_json. do 3 typed_req JString.
  typed_req Json.jint; [|apply as_integer_jint]. typed_req JString. typed_opt JString.
  typed_opt Json.jint; [|apply as_integer_jint]. typed_opt JString.
  do 1 (typed_opt Json.jint; [|apply as_integer_jint]).
  typed_req Json.jint; [|apply as_integer_jint]. typed_req JString.
  typed_req Json.jint; [|apply as_integer_jint]. by destruct ev as [? [] ? ?].
Qed.

Section chain.
Context `{JsonDigest}.

Lemma computeEventHash_inj e1 e2 :
  computeEventHash e1 = computeEventHash e2 → e1 = e2 ∨ digest_collision.
Proof.
  apply (sha256Hex_json_inj lock_event_json as_lock_event). apply lock_event_typed.
Qed.

(** The event at position [i] of a chain whose predecessor hashes to [prev]. *)
Definition chained (i : Z) (prev : string) (event : LockEvent) : Prop :=
  le_chainIndex event = i ∧ assertLockEvent event = Ok tt ∧
  le_parentHash event = (if i =? 0 then CONSOLIDATION_LOCK_ROOT_PARENT_HASH else prev).

#[local] Abbreviation chain_from := (hash_chain computeEventHash chained).
#[local] Abbreviation head_hash := (chain_head computeEventHash).

Lemma seen_below i seen : Forall (λ k, k < i) seen → Forall (λ k, k < i + 1) (i :: seen).
Proof. intros Hs. constructor; [lia|]. eapply Forall_impl; [exact Hs|]. simpl. lia. Qed.

Lemma verify_step i seen prev e es :
  Forall (λ k, k < i) seen → chained i prev e →
  verify_loop i seen prev (e :: es) = verify_loop (i + 1) (i :: seen) (computeEventHash e) es.
Proof.
  intros Hs (Hi & Ha & Hp). simpl. rewrite Hi, Ha, Hp, Z.eqb_refl. simpl.
  rewrite bool_decide_eq_false_2.
  - destruct (Z.eqb_spec i 0) as [->|]; simpl; rewrite ?bool_decide_eq_false_2 by tauto; done.
  - intros Hin. rewrite Forall_forall in Hs. specialize (Hs i Hin). lia.
Qed.

Lemma verify_break i seen prev e es :
  Forall (λ k, k < i) seen → ¬ chained i prev e →
  ∃ j reason, verify_loop i seen prev (e :: es) = chain_break j reason ∧
              (j = i ∨ j = le_chainIndex e ∧ j ∈ seen).
Proof.
  intros Hs Hn. simpl. case_bool_decide as Hin; [by eauto 6|].
  destruct (Z.eqb_spec (le_chainIndex e) i) as [Hi|]; simpl; [|by eauto 6].
  destruct (assertLockEvent e) as [[]|] eqn:Ea; [|by eauto 6].
  destruct (Z.eqb_spec i 0) as [->|Hi0]; simpl; case_bool_decide as Hp; simpl; eauto 6;
    exfalso; apply Hn; (split; [done|]); (split; [done|]).
  - destruct (decide (le_parentHash e = CONSOLIDATION_LOCK_ROOT_PARENT_HASH)); [done|tauto].
  - destruct (Z.eqb_spec i 0); [done|]. destruct (decide (le_parentHash e = prev)); [done|tauto].
Qed.

Lemma verify_chain_from i seen prev es :
  Forall (λ k, k < i) seen → chain_from i prev es →
  verify_loop i seen prev es = chain_ok (head_hash prev es) (i + Z.of_nat (length es)).
Proof.
  revert i seen prev; induction es as [|e es IH]; intros i seen prev Hs Hc.
  - simpl. f_equal. lia.
  - destruct Hc as [He Hc]. rewrite verify_step, IH, chain_head_cons by auto using seen_below.
    f_equal. simpl. lia.
Qed.

Lemma verify_loop_ok i seen prev es h n :
  Forall (λ k, k < i) seen → verify_loop i seen prev es = chain_ok h n →
  chain_from i prev es ∧ h = head_hash prev es ∧ n = i + Z.of_nat (length es).
Proof.
  revert i seen prev; induction es as [|e es IH]; intros i seen prev Hs Hv.
  - simpl in *. injection Hv as <- <-. split_all; try done. lia.
  - assert (Decision (chained i prev e)) as Hd by (unfold chained; apply _).
    destruct Hd as [He|He].
    + rewrite verify_step in Hv by done. apply IH in Hv as (Hc & -> & ->).
      2:{ by apply seen_below. }
      rewrite chain_head_cons. split_all; try done. simpl. lia.
    + destruct (verify_break i seen prev e es Hs He) as (j & r & E & _). congruence.
Qed.

Lemma verify_loop_app i seen prev l1 l2 :
  Forall (λ k, k < i) seen → chain_from i prev l1 →
  ∃ seen', Forall (λ k, k < i + Z.of_nat (length l1)) seen' ∧
    verify_loop i seen prev (l1 ++ l2) =
    verify_loop (i + Z.of_nat (length l1)) seen' (head_hash prev l1) l2.
Proof.
  revert i seen prev; induction l1 as [|e l1 IH]; intros i seen prev Hs Hc.
  - exists seen. simpl. rewrite Z.add_0_r. by split.
  - destruct Hc as [He Hc]. destruct (IH (i + 1) (i :: seen) (computeEventHash e))
      as (seen' & Hs' & E); [by apply seen_below|done|].
    exists seen'. simpl length.
    replace (i + Z.of_nat (S (length l1))) with (i + 1 + Z.of_nat (length l1)) by lia.
    split; [done|]. rewrite chain_head_cons, <- E. simpl app. by rewrite verify_step.
Qed.

(** ** Properties of chains *)

(** The chain is tamper-evident: two chains of one length that verify with
    the same head hash are the same events, unless two different texts with the
    same digest have been found. *)
Theorem chain_tamper_evident es1 es2 h n :
  verifyConsolidationLockEventChain es1 = chain_ok h n →
  verifyConsolidationLockEventChain es2 = chain_ok h n →
  es1 = es2 ∨ digest_collision.
Proof.
  unfold verifyConsolidationLockEventChain.
  intros (Hc1 & -> & ->)%verify_loop_ok (Hc2 & Hh & Hn)%verify_loop_ok; try by constructor.
  destruct (hash_chain_tamper computeEventHash chained eq digest_collision computeEventHash_inj)
    with (root := CONSOLIDATION_LOCK_ROOT_PARENT_HASH) (es1 := es1) (es2 := es2)
    as [Heq|]; [|done|done|lia|done|left; by apply list_eq_Forall2|by right].
  intros i p1 p2 e1 e2 Hi (_ & _ & H1) (_ & _ & H2) <-.
  destruct (Z.eqb_spec i 0); [lia|congruence].
Qed.

(** Replacing an event that is not the last one of a verified chain by a
    different one is detected, at its position, at the next one, or at the
    earlier position whose index the replacement repeats, unless two different
    texts with the same digest have been found. *)
Theorem middle_mutation_detected es h n k e e' :
  verifyConsolidationLockEventChain es = chain_ok h n →
  es !! k = Some e → Z.of_nat k + 1 < n → e' ≠ e →
  (∃ j reason, verifyConsolidationLockEventChain (<[k := e']> es) = chain_break j reason ∧
     (j = Z.of_nat k ∨ j = Z.of_nat k + 1 ∨ (j = le_chainIndex e' ∧ j < Z.of_nat k))) ∨
  digest_collision.
Proof.
  unfold verifyConsolidationLockEventChain. intros (Hc & _ & Hn)%verify_loop_ok Hk Hlt Hne;
    [|by constructor].
  apply list_elem_of_split_length in Hk as (l1 & l2 & -> & ->).
  rewrite insert_app_r_alt, Nat.sub_diag by done. simpl insert.
  destruct l2 as [|e2 l2]; [rewrite length_app in Hn; simpl in Hn; lia|].
  apply hash_chain_app in Hc as (Hc1 & He & He2 & _).
  destruct (verify_loop_app 0 [] CONSOLIDATION_LOCK_ROOT_PARENT_HASH l1 (e' :: e2 :: l2))
    as (seen & Hs & ->); [by constructor|done|].
  rewrite Z.add_0_l in *.
  assert (Decision (chained (Z.of_nat (length l1)) (head_hash CONSOLIDATION_LOCK_ROOT_PARENT_HASH l1) e'))
    as [He'|He'] by (unfold chained; apply _).
  - rewrite verify_step by done.
    assert (¬ chained (Z.of_nat (length l1) + 1) (computeEventHash e') e2 ∨ digest_collision)
      as [Hbad|]; [|left|by right].
    { destruct He2 as (_ & _ & Hp). destruct (Z.eqb_spec (Z.of_nat (length l1) + 1) 0); [lia|].
      destruct (decide (computeEventHash e' = computeEventHash e)) as [Eh|Eh].
      - destruct (computeEventHash_inj _ _ Eh); [done|by right].
      - left. intros (_ & _ & Hp'). destruct (Z.eqb_spec (Z.of_nat (length l1) + 1) 0); [lia|].
        congruence. }
    destruct (verify_break _ (Z.of_nat (length l1) :: seen) _ _ l2 (seen_below _ _ Hs) Hbad)
      as (j & r & -> & Hj).
    exists j, r. split; [done|]. right. left. destruct Hj as [->|[-> _]]; [done|].
    by destruct He2 as [-> _].
  - left. destruct (verify_break _ _ _ _ (e2 :: l2) Hs He') as (j & r & -> & Hj).
    exists j, r. split; [done|]. destruct Hj as [->|[-> Hin]]; [by left|].
    right. right. split; [done|]. by rewrite Forall_forall in Hs; apply Hs.
Qed.
End chain.

Abbreviation chain_from := (hash_chain computeEventHash chained).
Abbreviation head_hash := (chain_head computeEventHash).
