(* ===== verification/ConsolidationLock.v ===== *)
(** * The consolidation lock

    The second half of
    [packages/agentic-harness/src/lessons-consolidation-lock.ts]: the lock file
    with acquire, takeover, release and rollback.

    The file system is a lock file with its modification time and a directory of
    event files named by their chain index. An operation is a sequence of atomic
    file operations separated by [await], so that operations of several
    processes interleave between them. What [stat] reports of a time that [utimes]
    set is the class [FileTimes]: the code divides milliseconds by 1000, and neither
    the quotient nor the file system need keep every digit. The default liveness
    probe asks the operating system and is a parameter of the caller. *)

From S2P Require Import Prelude JsString JsList JsValue CanonicalJson Contracts JsonView.
From S2P Require Import HashChain LockEventChain.

Definition CONSOLIDATION_LOCK_HOLDER_TIMEOUT_MS : Z := 60 * 60 * 1000.

(** [restored ms] is the modification time in milliseconds that [stat] reports after
    [utimes(path, ms / 1000, ms / 1000)]. *)
Class FileTimes := restored : Q → Q.

(** ** The directory *)

(** [ConsolidationLockBody]; [state] is [held] or [released]. *)
Record LockBody := {
  lb_held : bool;
  lb_holderId : string;
  lb_holderPid : Z;
  lb_holderHost : string;
  lb_acquiredAtMs : Z;
}.

#[export] Instance LockBody_eq_dec : EqDecision LockBody.
Proof. solve_decision. Defined.

(** The lock file with its modification time, and the event files by the chain
    index in their names. *)
Record lessons_dir := {
  ld_lock : option (LockBody * Q);
  ld_events : gmap Z LockEvent;
}.

Definition fresh_lessons_dir : lessons_dir := {| ld_lock := None; ld_events := ∅ |}.

(** [readEventChain]: the events of all files, sorted by their own index. *)
Definition readEventChain (d : lessons_dir) : list LockEvent :=
  js_sort (cmp_on le_chainIndex Z.compare) (map_to_list (ld_events d)).*2.

Definition set_lock (d : lessons_dir) (lock : option (LockBody * Q)) : lessons_dir :=
  {| ld_lock := lock; ld_events := ld_events d |}.

(** The event [appendLockEvent] writes after reading the chain. *)
Definition stamp_event `{JsonDigest} (previous : list LockEvent) (seed : LockEventSeed) : LockEvent :=
  {| le_schemaVersion := CONSOLIDATION_LOCK_SCHEMA_VERSION; le_seed := seed;
     le_parentHash := match last previous with
                      | None => CONSOLIDATION_LOCK_ROOT_PARENT_HASH
                      | Some e => computeEventHash e
                      end;
     le_chainIndex := match last previous with None => 0 | Some e => le_chainIndex e + 1 end |}.

(** [rename(tempPath, finalPath)]: an existing file of that name is replaced. *)
Definition write_event (d : lessons_dir) (event : LockEvent) : lessons_dir :=
  {| ld_lock := ld_lock d; ld_events := <[le_chainIndex event := event]> (ld_events d) |}.

(** [readLockBody]'s check of a parsed body. *)
Definition valid_body (b : LockBody) : bool :=
  negb (bool_decide (lb_holderId b = "")) && (1 <=? lb_holderPid b)
  && negb (bool_decide (lb_holderHost b = "")) && (0 <=? lb_acquiredAtMs b).

(** ** Operations as sequences of file operations *)

(** The caller of an operation: its identity, its clock reading and its
    liveness probe. *)
Record caller := {
  ca_holderId : string;
  ca_holderPid : Z;
  ca_holderHost : string;
  ca_nowMs : Z;
  ca_isAlive : Z → string → bool;
}.

Definition held_body (c : caller) : LockBody :=
  {| lb_held := true; lb_holderId := ca_holderId c; lb_holderPid := ca_holderPid c;
     lb_holderHost := ca_holderHost c; lb_acquiredAtMs := ca_nowMs c |}.

Definition released_body (b : LockBody) : LockBody :=
  {| lb_held := false; lb_holderId := lb_holderId b; lb_holderPid := lb_holderPid b;
     lb_holderHost := lb_holderHost b; lb_acquiredAtMs := lb_acquiredAtMs b |}.

Definition event_seed (eventType : string) (b : LockBody) (nowMs : Z) : LockEventSeed :=
  {| ls_eventType := eventType; ls_holderId := lb_holderId b; ls_holderPid := lb_holderPid b;
     ls_holderHost := lb_holderHost b; ls_priorHolderId := None; ls_priorHolderPid := None;
     ls_priorHolderHost := None; ls_priorAcquiredAtMs := None; ls_occurredAtMs := nowMs |}.

Definition takeover_seed (c : caller) (prior : LockBody) : LockEventSeed :=
  {| ls_eventType := "lock_takeover"; ls_holderId := ca_holderId c;
     ls_holderPid := ca_holderPid c; ls_holderHost := ca_holderHost c;
     ls_priorHolderId := Some (lb_holderId prior); ls_priorHolderPid := Some (lb_holderPid prior);
     ls_priorHolderHost := Some (lb_holderHost prior);
     ls_priorAcquiredAtMs := Some (lb_acquiredAtMs prior); ls_occurredAtMs := ca_nowMs c |}.

Definition stale (c : caller) (b : LockBody) : bool :=
  (CONSOLIDATION_LOCK_HOLDER_TIMEOUT_MS <? ca_nowMs c - lb_acquiredAtMs b)
  || negb (ca_isAlive c (lb_holderPid b) (lb_holderHost b)).

Inductive LockError : Type :=
| lk_holder_id | lk_bad_body | lk_bad_event (e : LockEventError) | lk_lock_missing.

(** What an operation returns: [acquired priorMtimeMs tookOver],
    [lock_held_by_other], [released] and [rolledBack], or an exception. *)
Inductive op_result : Type :=
| acquired (priorMtimeMs : Q) (tookOver : bool)
| lock_held_by_other (b : LockBody) (holderAgeMs : Z)
| released (ok : bool)
| rolled_back (ok : bool)
| failed (e : LockError).

Inductive op_kind : Type :=
| Acquire
| Release
| Rollback (priorMtimeMs : Q).

(** Where an operation stands between two file operations. *)
Inductive pc : Type :=
| Read (k : op_kind)
| Stat (k : op_kind) (b : LockBody)
| LinkNew
| Rename (b : LockBody) (mtime : Q) (seeds : list LockEventSeed) (r : op_result)
| Utimes (mtime : Q) (seeds : list LockEventSeed) (r : op_result)
| ReadChain (seeds : list LockEventSeed) (r : op_result)
| WriteEvent (event : LockEvent) (seeds : list LockEventSeed) (r : op_result)
| Done (r : op_result).

Definition acquire_seed (c : caller) : LockEventSeed :=
  event_seed "lock_acquired" (held_body c) (ca_nowMs c).

(** The branch an operation takes after reading the lock file, and once it also knows its
    modification time. *)
Definition after_read (k : op_kind) (existing : option LockBody) : pc :=
  match existing with
  | None =>
      match k with
      | Acquire => LinkNew
      | Release => Done (released false)
      | Rollback _ => Done (rolled_back false)
      end
  | Some b => if negb (valid_body b) then Done (failed lk_bad_body) else Stat k b
  end.

Definition after_stat (c : caller) (k : op_kind) (b : LockBody) (mtime : Q) : pc :=
  match k with
  | Acquire =>
      if negb (lb_held b) then Rename (held_body c) mtime [acquire_seed c] (acquired mtime false)
      else if negb (stale c b) then Done (lock_held_by_other b (ca_nowMs c - lb_acquiredAtMs b))
      else Rename (held_body c) mtime [takeover_seed c b; acquire_seed c] (acquired mtime true)
  | Release =>
      if bool_decide (lb_holderId b ≠ ca_holderId c) then Done (released false)
      else if negb (lb_held b) then Done (released false)
      else Rename (released_body b) (inject_Z (ca_nowMs c))
             [event_seed "lock_released" b (ca_nowMs c)] (released true)
  | Rollback priorMtimeMs =>
      if bool_decide (lb_holderId b ≠ ca_holderId c) then Done (rolled_back false)
      else Rename (released_body b) priorMtimeMs
             [event_seed "lock_rolled_back" b (ca_nowMs c)] (rolled_back true)
  end.

(** One file operation; [fs_now] is the modification time the file system gives
    to a file written now. *)
Definition op_step `{JsonDigest} `{FileTimes} (fs_now : Q) (c : caller) (p : pc) (d : lessons_dir) :
    option (pc * lessons_dir) :=
  match p with
  | Read k =>
      match k with
      | Acquire => if bool_decide (ca_holderId c = "") then Some (Done (failed lk_holder_id), d)
                   else Some (after_read k (fst <$> ld_lock d), d)
      | _ => Some (after_read k (fst <$> ld_lock d), d)
      end
  | Stat k b =>
      match ld_lock d with
      | None => Some (Done (failed lk_lock_missing), d)
      | Some (_, mtime) => Some (after_stat c k b mtime, d)
      end
  | LinkNew =>
      match ld_lock d with
      | Some _ => Some (Read Acquire, d)
      | None => Some (ReadChain [acquire_seed c] (acquired 0 false),
                      set_lock d (Some (held_body c, fs_now)))
      end
  | Rename b mtime seeds r => Some (Utimes mtime seeds r, set_lock d (Some (b, fs_now)))
  | Utimes mtime seeds r =>
      match ld_lock d with
      | None => Some (Done (failed lk_lock_missing), d)
      | Some (b, _) => Some (ReadChain seeds r, set_lock d (Some (b, restored mtime)))
      end
  | ReadChain seeds r =>
      match seeds with
      | [] => Some (Done r, d)
      | seed :: rest =>
          let event := stamp_event (readEventChain d) seed in
          match assertLockEvent event with
          | Throw e => Some (Done (failed (lk_bad_event e)), d)
          | Ok _ => Some (WriteEvent event rest r, d)
          end
      end
  | WriteEvent event seeds r => Some (ReadChain seeds r, write_event d event)
  | Done _ => None
  end.

(** An operation that runs with no other process in between. *)
Fixpoint op_run `{JsonDigest} `{FileTimes} (fuel : nat) (fs_now : Q) (c : caller) (p : pc) (d : lessons_dir) :
    option (op_result * lessons_dir) :=
  match fuel with
  | O => None
  | S fuel' =>
      match op_step fs_now c p d with
      | None => match p with Done r => Some (r, d) | _ => None end
      | Some (p', d') => op_run fuel' fs_now c p' d'
      end
  end.

(** Nine file operations are enough: reading the lock and its time, linking or renaming,
    setting the time, and reading and writing the chain for at most two events. *)
Definition OP_FUEL : nat := 10.

Definition tryAcquireConsolidationLock `{JsonDigest} `{FileTimes} (fs_now : Q) (c : caller) (d : lessons_dir) :
    option (op_result * lessons_dir) := op_run OP_FUEL fs_now c (Read Acquire) d.

Definition releaseConsolidationLock `{JsonDigest} `{FileTimes} (fs_now : Q) (c : caller) (d : lessons_dir) :
    option (op_result * lessons_dir) := op_run OP_FUEL fs_now c (Read Release) d.

Definition rollbackConsolidationLock `{JsonDigest} `{FileTimes} (fs_now priorMtimeMs : Q) (c : caller)
    (d : lessons_dir) : option (op_result * lessons_dir) :=
  op_run OP_FUEL fs_now c (Read (Rollback priorMtimeMs)) d.

Definition readLastConsolidatedAtMs (d : lessons_dir) : option Q := snd <$> ld_lock d.

(** ** Several processes *)

Record system := { sy_dir : lessons_dir; sy_procs : list (caller * pc) }.

Inductive sys_step `{JsonDigest} `{FileTimes} : system → system → Prop :=
| sys_proc d procs i c p p' d' fs_now :
    procs !! i = Some (c, p) → op_step fs_now c p d = Some (p', d') →
    sys_step {| sy_dir := d; sy_procs := procs |}
             {| sy_dir := d'; sy_procs := <[i := (c, p')]> procs |}.

(** ** Lemmas on operations that run alone *)

Section serial.
Context `{JsonDigest} {times : FileTimes}.

Record wf_caller (c : caller) : Prop := {
  wc_holderId : ca_holderId c ≠ "";
  wc_holderPid : 1 <= ca_holderPid c;
  wc_holderHost : ca_holderHost c ≠ "";
  wc_nowMs : 0 <= ca_nowMs c;
}.

(** A directory whose event files form the chain [es] and whose lock body, if
    any, passes the reader's check. *)
Record wf_dir (d : lessons_dir) (es : list LockEvent) : Prop := {
  wd_events : ld_events d = map_seqZ 0 es;
  wd_chain : chain_from 0 CONSOLIDATION_LOCK_ROOT_PARENT_HASH es;
  wd_lock b mtime : ld_lock d = Some (b, mtime) → valid_body b = true;
}.

(** A seed whose stamped event passes [assertLockEvent]. *)
Definition wf_seed (seed : LockEventSeed) : Prop :=
  ∀ parent i, isHex64 parent = true → 0 <= i →
    (i = 0 → parent = CONSOLIDATION_LOCK_ROOT_PARENT_HASH) →
    assertLockEvent {| le_schemaVersion := CONSOLIDATION_LOCK_SCHEMA_VERSION; le_seed := seed;
                       le_parentHash := parent; le_chainIndex := i |} = Ok tt.

Lemma chain_from_index i prev es k e :
  chain_from i prev es → es !! k = Some e → le_chainIndex e = i + Z.of_nat k.
Proof. intros Hc Hk. by destruct (hash_chain_lookup _ _ _ _ _ _ _ Hc Hk). Qed.

Lemma chain_keys i prev es :
  chain_from i prev es → le_chainIndex <$> es = seqZ i (Z.of_nat (length es)).
Proof. apply hash_chain_keys. by intros j p e []. Qed.

Lemma readEventChain_chain d es : wf_dir d es → readEventChain d = es.
Proof.
  intros [He Hc _]. unfold readEventChain. rewrite He.
  assert ((map_to_list (map_seqZ 0 es : gmap Z LockEvent)).*2 ≡ₚ es) as Hp.
  { rewrite map_to_list_seqZ, snd_zip; [done|]. rewrite length_seqZ. lia. }
  pose proof (chain_keys _ _ _ Hc) as Hk.
  rewrite (js_sort_perm_keys le_chainIndex Z.compare _ es); [|done|].
  - apply js_sort_id, StronglySorted_on. rewrite Hk. apply seqZ_sorted.
  - rewrite Hp, Hk. apply NoDup_seqZ.
Qed.
(** Stamping and writing the events of an operation one after the other. *)
Definition append_seeds (es : list LockEvent) (seeds : list LockEventSeed) : list LockEvent :=
  foldl (λ es seed, es ++ [stamp_event es seed]) es seeds.

Lemma head_hash_isHex64 es : isHex64 (head_hash CONSOLIDATION_LOCK_ROOT_PARENT_HASH es) = true.
Proof. unfold chain_head. destruct (last es); [apply json_digest_isHex64|reflexivity]. Qed.

Lemma stamp_chained es seed :
  chain_from 0 CONSOLIDATION_LOCK_ROOT_PARENT_HASH es → wf_seed seed →
  chained (Z.of_nat (length es)) (head_hash CONSOLIDATION_LOCK_ROOT_PARENT_HASH es)
    (stamp_event es seed).
Proof.
  intros Hc Hs. assert (le_chainIndex (stamp_event es seed) = Z.of_nat (length es)) as Hi.
  { simpl. destruct (last es) as [e|] eqn:El.
    - rewrite last_lookup in El. rewrite (chain_from_index _ _ _ _ _ Hc El).
      apply lookup_lt_Some in El. lia.
    - apply last_None in El as ->. done. }
  assert (le_parentHash (stamp_event es seed) = head_hash CONSOLIDATION_LOCK_ROOT_PARENT_HASH es)
    as Hp by reflexivity.
  assert (Z.of_nat (length es) = 0 → head_hash CONSOLIDATION_LOCK_ROOT_PARENT_HASH es =
          CONSOLIDATION_LOCK_ROOT_PARENT_HASH) as H0 by (by destruct es).
  split; [done|]. split.
  - assert (stamp_event es seed =
      {| le_schemaVersion := CONSOLIDATION_LOCK_SCHEMA_VERSION; le_seed := seed;
         le_parentHash := head_hash CONSOLIDATION_LOCK_ROOT_PARENT_HASH es;
         le_chainIndex := Z.of_nat (length es) |}) as ->.
    { unfold stamp_event in *. simpl in Hi. by f_equal. }
    apply Hs; [apply head_hash_isHex64|lia|done].
  - rewrite Hp. destruct (Z.eqb_spec (Z.of_nat (length es)) 0); auto.
Qed.

Lemma wf_dir_append d es seed :
  wf_dir d es → wf_seed seed →
  wf_dir (write_event d (stamp_event es seed)) (es ++ [stamp_event es seed]).
Proof.
  intros [He Hc Hl] Hs. pose proof (stamp_chained es seed Hc Hs) as Hst. split.
  - unfold write_event. cbn [ld_events]. rewrite (proj1 Hst), He, map_seqZ_snoc. by rewrite Z.add_0_l.
  - apply hash_chain_snoc. by rewrite Z.add_0_l.
  - exact Hl.
Qed.

Lemma wf_dir_set_lock d es b mtime :
  wf_dir d es → valid_body b = true → wf_dir (set_lock d (Some (b, mtime))) es.
Proof. intros [He Hc Hl] Hb. split; [done|done|]. by intros ? ? [= <- <-]. Qed.

Lemma run_append fs_now c d es seeds r fuel :
  wf_dir d es → Forall wf_seed seeds → (2 * length seeds + 2 <= fuel)%nat →
  ∃ d', op_run fuel fs_now c (ReadChain seeds r) d = Some (r, d') ∧
        ld_lock d' = ld_lock d ∧ wf_dir d' (append_seeds es seeds).
Proof.
  revert d es fuel; induction seeds as [|seed seeds IH]; intros d es fuel Hd Hs Hf.
  - destruct fuel as [|[|fuel]]; simpl in Hf; try lia. exists d. done.
  - destruct fuel as [|[|fuel]]; simpl in Hf; try lia.
    apply Forall_cons in Hs as [Hseed Hs].
    pose proof (stamp_chained es seed (wd_chain _ _ Hd) Hseed) as (_ & Ha & _).
    cbn [op_run op_step]. rewrite (readEventChain_chain d es Hd), Ha.
    destruct (IH (write_event d (stamp_event es seed)) (es ++ [stamp_event es seed]) fuel)
      as (d' & Hr & Hl & Hd'); [by apply wf_dir_append|done|lia|].
    exists d'. split; [exact Hr|]. split; [exact Hl|exact Hd'].
Qed.

Lemma assertLockEvent_Ok seed parent i :
  ls_eventType seed ∈ CONSOLIDATION_LOCK_EVENT_TYPES → ls_holderId seed ≠ "" →
  1 <= ls_holderPid seed → ls_holderHost seed ≠ "" → 0 <= ls_occurredAtMs seed →
  isHex64 parent = true → 0 <= i → (i = 0 → parent = CONSOLIDATION_LOCK_ROOT_PARENT_HASH) →
  (ls_eventType seed = "lock_takeover" →
   is_blank_id (ls_priorHolderId seed) = false ∧
   default false ((λ pid, pid <? 1) <$> ls_priorHolderPid seed) = false ∧
   ls_priorHolderHost seed ≠ Some "") →
  assertLockEvent {| le_schemaVersion := CONSOLIDATION_LOCK_SCHEMA_VERSION; le_seed := seed;
                     le_parentHash := parent; le_chainIndex := i |} = Ok tt.
Proof.
  intros Hty Hid Hpid Hhost Hat Hp Hi Hroot Htk. unfold assertLockEvent.
  cbn [le_schemaVersion le_seed le_parentHash le_chainIndex].
  rewrite !outcome_then_Ok, !guard_throw_Ok, Hp, negb_false_iff, !bool_decide_eq_false,
    bool_decide_eq_true, !Z.ltb_ge.
  split_all; try done.
  - by intros [].
  - destruct (Z.eqb_spec i 0) as [E|]; [|done]. simpl. rewrite bool_decide_eq_false_2; [done|].
    intros []. by apply Hroot.
  - case_bool_decide as Et; [|done]. destruct (Htk Et) as (Hb & Hpd & Hh).
    rewrite Hb, Hpd, bool_decide_eq_false_2 by done. done.
Qed.

Lemma valid_body_spec b :
  valid_body b = true →
  lb_holderId b ≠ "" ∧ 1 <= lb_holderPid b ∧ lb_holderHost b ≠ "" ∧ 0 <= lb_acquiredAtMs b.
Proof.
  unfold valid_body. rewrite !andb_true_iff, !negb_true_iff, !bool_decide_eq_false, !Z.leb_le.
  tauto.
Qed.

Lemma wf_event_seed ty b now :
  ty ∈ ["lock_acquired"; "lock_released"; "lock_rolled_back"] → valid_body b = true → 0 <= now →
  wf_seed (event_seed ty b now).
Proof.
  intros Hty (Hid & Hpid & Hhost & _)%valid_body_spec Hnow parent i Hp Hi Hroot.
  apply assertLockEvent_Ok; try done; simpl.
  - unfold CONSOLIDATION_LOCK_EVENT_TYPES. set_solver.
  - intros ->. revert Hty. by rewrite !elem_of_cons, elem_of_nil; intros [?|[?|[?|[]]]].
Qed.

Lemma wf_takeover_seed c b : wf_caller c → valid_body b = true → wf_seed (takeover_seed c b).
Proof.
  intros [Hid Hpid Hhost Hnow] (Hbid & Hbpid & Hbhost & _)%valid_body_spec parent i Hp Hi Hroot.
  apply assertLockEvent_Ok; try done; simpl.
  - unfold CONSOLIDATION_LOCK_EVENT_TYPES. set_solver.
  - intros _. rewrite bool_decide_eq_false_2, Z.ltb_ge by done. split_all; [done|lia|congruence].
Qed.

Lemma valid_held_body c : wf_caller c → valid_body (held_body c) = true.
Proof.
  intros [Hid Hpid Hhost Hnow]. unfold valid_body. simpl.
  rewrite !bool_decide_eq_false_2 by done. simpl.
  rewrite (proj2 (Z.leb_le _ _) Hpid). simpl. by apply Z.leb_le.
Qed.
Lemma valid_released_body b : valid_body (released_body b) = valid_body b.
Proof. done. Qed.

(** ** Properties of operations that run alone *)

(** What an operation is meant to do, on the lock alone: its result, the lock
    file after it and the events it appends. *)
Definition lock_spec (fs_now : Q) (c : caller) (k : op_kind) (lock : option (LockBody * Q)) :
    op_result * option (LockBody * Q) * list LockEventSeed :=
  match k, lock with
  | Acquire, None => (acquired 0 false, Some (held_body c, fs_now), [acquire_seed c])
  | Acquire, Some (b, mtime) =>
      if lb_held b && negb (stale c b)
      then (lock_held_by_other b (ca_nowMs c - lb_acquiredAtMs b), lock, [])
      else (acquired mtime (lb_held b), Some (held_body c, restored mtime),
            (if lb_held b then [takeover_seed c b] else []) ++ [acquire_seed c])
  | Release, Some (b, mtime) =>
      if bool_decide (lb_holderId b = ca_holderId c) && lb_held b
      then (released true, Some (released_body b, restored (inject_Z (ca_nowMs c))),
            [event_seed "lock_released" b (ca_nowMs c)])
      else (released false, lock, [])
  | Release, None => (released false, None, [])
  | Rollback prior, Some (b, mtime) =>
      if bool_decide (lb_holderId b = ca_holderId c)
      then (rolled_back true, Some (released_body b, restored prior),
            [event_seed "lock_rolled_back" b (ca_nowMs c)])
      else (rolled_back false, lock, [])
  | Rollback _, None => (rolled_back false, None, [])
  end.

Lemma run_rename fs_now c d es b mtime seeds r fuel :
  wf_dir d es → valid_body b = true → Forall wf_seed seeds → (2 * length seeds + 4 <= fuel)%nat →
  ∃ d', op_run fuel fs_now c (Rename b mtime seeds r) d = Some (r, d') ∧
        ld_lock d' = Some (b, restored mtime) ∧ wf_dir d' (append_seeds es seeds).
Proof.
  intros Hd Hb Hs Hf. destruct fuel as [|[|fuel]]; [lia|lia|]. cbn [op_run op_step set_lock ld_lock].
  apply (run_append fs_now c (set_lock d (Some (b, restored mtime))) es seeds r fuel);
    [by apply wf_dir_set_lock|done|lia].
Qed.

Lemma run_spec fs_now c k d es :
  wf_caller c → wf_dir d es →
  ∃ d', op_run OP_FUEL fs_now c (Read k) d = Some ((lock_spec fs_now c k (ld_lock d)).1.1, d') ∧
        ld_lock d' = (lock_spec fs_now c k (ld_lock d)).1.2 ∧
        wf_dir d' (append_seeds es (lock_spec fs_now c k (ld_lock d)).2).
Proof.
  intros Hc Hd. pose proof (wc_nowMs _ Hc) as Hnow. pose proof (valid_held_body c Hc) as Hheld.
  assert (wf_seed (acquire_seed c)) as Hacq by (apply wf_event_seed; [set_solver|done..]).
  assert (op_run OP_FUEL fs_now c (Read k) d = op_run 9 fs_now c (after_read k (fst <$> ld_lock d)) d) as ->.
  { unfold OP_FUEL. cbn [op_run op_step]. destruct k; try done.
    rewrite bool_decide_eq_false_2 by apply Hc. done. }
  unfold lock_spec, after_read. destruct (ld_lock d) as [[b mtime]|] eqn:El; cbn [fmap option_fmap option_map fst].
  - pose proof (wd_lock _ _ Hd _ _ El) as Hb. rewrite Hb. cbn [negb]. cbv iota.
    assert (op_run 9 fs_now c (Stat k b) d = op_run 8 fs_now c (after_stat c k b mtime) d) as ->
      by (cbn [op_run op_step]; by rewrite El).
    remember 8%nat as n eqn:Hn. unfold after_stat.
    destruct k as [| |prior].
    + destruct (lb_held b); cbn [negb andb app fst snd]; [destruct (stale c b); cbn [negb andb app fst snd]|].
      * apply run_rename; try done; [|simpl; lia].
        repeat constructor; [by apply wf_takeover_seed|done].
      * subst n. by exists d.
      * apply run_rename; try done; [|simpl; lia]. by repeat constructor.
    + case_bool_decide as E1; case_bool_decide as E2; try done; cbn [negb andb app fst snd]; [subst n; by exists d|].
      destruct (lb_held b); cbn [negb andb app fst snd]; [|subst n; by exists d].
      apply run_rename; try done; [|simpl; lia]. repeat constructor. apply wf_event_seed; set_solver.
    + case_bool_decide as E1; case_bool_decide as E2; try done; cbn [negb andb app fst snd]; [subst n; by exists d|].
      apply run_rename; try done; [|simpl; lia]. repeat constructor. apply wf_event_seed; set_solver.
  - destruct k as [| |prior]; [|by exists d..].
    cbn [op_run op_step]. rewrite El.
    apply (run_append fs_now c (set_lock d (Some (held_body c, fs_now))) es [acquire_seed c]
      (acquired 0 false) 8); [by apply wf_dir_set_lock|by repeat constructor|simpl; lia].
Qed.
(** The exported operation of a kind. *)
Definition run_operation (fs_now : Q) (c : caller) (k : op_kind) (d : lessons_dir) :
    option (op_result * lessons_dir) :=
  match k with
  | Acquire => tryAcquireConsolidationLock fs_now c d
  | Release => releaseConsolidationLock fs_now c d
  | Rollback prior => rollbackConsolidationLock fs_now prior c d
  end.

Lemma run_operation_eq fs_now c k d : run_operation fs_now c k d = op_run OP_FUEL fs_now c (Read k) d.
Proof. by destruct k. Qed.

(** C30. For a caller with a name, a host, a process id and a clock that pass the checks of
    the events, on a directory whose lock body passes its reader and whose events form
    a chain: an operation that no other process interrupts always returns, and does
    what [lock_spec] says. Acquiring succeeds exactly on a missing, released or
    stale lock and sets the time of an existing file to the one it had, releasing and
    rolling back touch only the caller's own lock, each time as far as [restored] keeps
    it, and each success appends its events to the chain. *)
Theorem lock_operations_refine_spec fs_now c k d es :
  wf_caller c → wf_dir d es →
  ∃ d', run_operation fs_now c k d = Some ((lock_spec fs_now c k (ld_lock d)).1.1, d') ∧
        ld_lock d' = (lock_spec fs_now c k (ld_lock d)).1.2 ∧
        wf_dir d' (append_seeds es (lock_spec fs_now c k (ld_lock d)).2).
Proof. rewrite run_operation_eq. apply run_spec. Qed.

(** A failed run does not move the consolidation time when file times keep it: acquiring
    an existing lock and rolling back with the time the acquisition reported restores
    it, while a release sets it to the time of the release. *)
Theorem failed_run_keeps_cursor fs1 fs2 c c' d es d1 prior tookOver :
  wf_caller c → wf_caller c' → ca_holderId c' = ca_holderId c → wf_dir d es →
  ld_lock d ≠ None → (∀ mtime, readLastConsolidatedAtMs d = Some mtime → restored mtime = mtime) →
  tryAcquireConsolidationLock fs1 c d = Some (acquired prior tookOver, d1) →
  readLastConsolidatedAtMs d1 = readLastConsolidatedAtMs d ∧
  (∃ d2, rollbackConsolidationLock fs2 prior c' d1 = Some (rolled_back true, d2) ∧
         readLastConsolidatedAtMs d2 = readLastConsolidatedAtMs d) ∧
  (∃ d2, releaseConsolidationLock fs2 c' d1 = Some (released true, d2) ∧
         readLastConsolidatedAtMs d2 = Some (restored (inject_Z (ca_nowMs c')))).
Proof.
  intros Hc Hc' Hid Hd Hl Hkept Ha.
  destruct (run_spec fs1 c Acquire d es Hc Hd) as (d1' & Hr & Hl1 & Hd1).
  unfold tryAcquireConsolidationLock in Ha. rewrite Ha in Hr. injection Hr as Hr <-.
  destruct (ld_lock d) as [[b mtime]|] eqn:El; [|done]. cbn [lock_spec fst snd] in *.
  destruct (lb_held b && negb (stale c b)); cbn [fst snd] in *; [done|].
  injection Hr as -> ->. unfold readLastConsolidatedAtMs in *. rewrite El, Hl1 in *. cbn [fmap option_fmap option_map snd] in *.
  specialize (Hkept mtime eq_refl). rewrite Hkept in *. split; [done|].
  split.
  - destruct (run_spec fs2 c' (Rollback mtime) d1 _ Hc' Hd1) as (d2 & Hr2 & Hl2 & _).
    rewrite Hl1 in Hr2, Hl2. cbn [lock_spec held_body lb_holderId lb_held] in Hr2, Hl2.
    rewrite bool_decide_eq_true_2 in Hr2, Hl2 by done. exists d2. rewrite Hl2. cbn. rewrite ?Hkept. by split.
  - destruct (run_spec fs2 c' Release d1 _ Hc' Hd1) as (d2 & Hr2 & Hl2 & _).
    rewrite Hl1 in Hr2, Hl2. cbn [lock_spec held_body lb_holderId lb_held] in Hr2, Hl2.
    rewrite bool_decide_eq_true_2 in Hr2, Hl2 by done. exists d2. rewrite Hl2. cbn. rewrite ?Hkept. by split.
Qed.

(** Operations one after the other. *)
Fixpoint run_operations (ops : list (Q * caller * op_kind)) (d : lessons_dir) : option lessons_dir :=
  match ops with
  | [] => Some d
  | (fs_now, c, k) :: rest => r ← run_operation fs_now c k d; run_operations rest r.2
  end.

Lemma append_seeds_prefix es seeds : es `prefix_of` append_seeds es seeds.
Proof.
  revert es; induction seeds as [|x seeds IH]; intros es; simpl; [done|].
  etransitivity; [|apply IH]. by apply prefix_app_r.
Qed.

Lemma run_operations_wf ops d es :
  Forall (λ '(_, c, _), wf_caller c) ops → wf_dir d es →
  ∃ d' es', run_operations ops d = Some d' ∧ wf_dir d' es' ∧ es `prefix_of` es'.
Proof.
  revert d es; induction ops as [|[[fs_now c] k] ops IH]; intros d es Hops Hd; simpl.
  - by exists d, es.
  - apply Forall_cons in Hops as [Hc Hops].
    destruct (run_spec fs_now c k d es Hc Hd) as (d1 & Hr & _ & Hd1).
    rewrite run_operation_eq, Hr. simpl.
    destruct (IH d1 _ Hops Hd1) as (d' & es' & Hr' & Hd' & Hp).
    exists d', es'. split; [done|]. split; [done|].
    etransitivity; [apply append_seeds_prefix|done].
Qed.

(** Operations that do not overlap keep the log: from a fresh directory, any
    sequence of them returns and leaves a chain that verifies, and later
    operations only extend it. *)
Theorem serial_chain_verifies ops1 ops2 :
  Forall (λ '(_, c, _), wf_caller c) (ops1 ++ ops2) →
  ∃ d1 d2, run_operations ops1 fresh_lessons_dir = Some d1 ∧ run_operations ops2 d1 = Some d2 ∧
    (∃ h, verifyConsolidationLockEventChain (readEventChain d2) =
          chain_ok h (Z.of_nat (length (readEventChain d2)))) ∧
    readEventChain d1 `prefix_of` readEventChain d2.
Proof.
  intros [H1 H2]%Forall_app.
  assert (wf_dir fresh_lessons_dir []) as H0 by (split; [done|done|done]).
  destruct (run_operations_wf ops1 _ _ H1 H0) as (d1 & es1 & Hr1 & Hd1 & _).
  destruct (run_operations_wf ops2 _ _ H2 Hd1) as (d2 & es2 & Hr2 & Hd2 & Hp).
  exists d1, d2. rewrite (readEventChain_chain d1 es1), (readEventChain_chain d2 es2) by done.
  split_all; try done. eexists. unfold verifyConsolidationLockEventChain.
  rewrite verify_chain_from; [by rewrite Z.add_0_l|constructor|apply Hd2].
Qed.
End serial.

(** ** Several processes *)

Section concurrent.
Context `{JsonDigest} {times : FileTimes}.

(** An acquirer that has not created the lock, and will not while it exists. *)
Definition waiting (c : caller) (p : pc) : Prop :=
  match p with
  | Read Acquire | LinkNew => True
  | Stat Acquire b => lb_held b = true ∧ stale c b = false
  | Done (acquired _ _) => False
  | Done _ => True
  | _ => False
  end.

(** An acquirer that created the lock file and is writing its event. *)
Definition linked (p : pc) : Prop :=
  match p with ReadChain _ _ | WriteEvent _ _ _ | Done _ => True | _ => False end.

(** No caller of the system considers a lock of another one stale. *)
Definition never_stale (procs : list (caller * pc)) : Prop :=
  ∀ c c' p p', (c, p) ∈ procs → (c', p') ∈ procs → stale c (held_body c') = false.

(** While the lock file is missing nobody has created it; then it is held by a
    caller [w] and everybody else waits. *)
Definition acquire_inv (s : system) : Prop :=
  match ld_lock (sy_dir s) with
  | None => ∀ i c p, sy_procs s !! i = Some (c, p) → waiting c p
  | Some (b, _) => ∃ w cw pw,
      sy_procs s !! w = Some (cw, pw) ∧ b = held_body cw ∧ linked pw ∧
      ∀ i c p, i ≠ w → sy_procs s !! i = Some (c, p) → waiting c p
  end.

Lemma callers_insert (procs : list (caller * pc)) i c p p' :
  procs !! i = Some (c, p) → (<[i := (c, p')]> procs).*1 = procs.*1.
Proof.
  intros Hi. rewrite list_fmap_insert. simpl. apply list_insert_id.
  by rewrite list_lookup_fmap, Hi.
Qed.

Lemma never_stale_callers procs procs' :
  procs'.*1 = procs.*1 → never_stale procs → never_stale procs'.
Proof.
  intros E Hs c c' p p' Hc Hc'.
  assert (∀ c p, (c, p) ∈ procs' → ∃ p, (c, p) ∈ procs) as Hin.
  { intros c0 p0 H0. apply (list_elem_of_fmap_2 fst) in H0. rewrite E in H0. simpl in H0.
    apply list_elem_of_fmap in H0 as ([c1 p1] & -> & H1). by exists p1. }
  destruct (Hin _ _ Hc) as [q Hq], (Hin _ _ Hc') as [q' Hq']. by eapply Hs.
Qed.

(** A step of a waiting acquirer: either the directory is untouched and it waits
    on, or it has created the missing lock. *)
Lemma waiting_step fs_now c p d p' d' :
  waiting c p → op_step fs_now c p d = Some (p', d') →
  (∀ b m, ld_lock d = Some (b, m) → lb_held b = true ∧ stale c b = false) →
  (d' = d ∧ waiting c p') ∨
  (ld_lock d = None ∧ ld_lock d' = Some (held_body c, fs_now) ∧ linked p').
Proof.
  intros Hw Hs Hl. destruct p as [[]|[] b| | | | | |[]]; try done; simpl in Hs.
  - case_bool_decide; injection Hs as <- <-; [by left|]. left. split; [done|].
    unfold after_read. destruct (ld_lock d) as [[b m]|]; [|done]. cbn.
    destruct (valid_body b); [|done]. cbn. by apply (Hl b m).
  - left. destruct (ld_lock d) as [[b' m]|]; injection Hs as <- <-; [|done]. destruct Hw as [Hh Hst].
    cbn. by rewrite Hh, Hst.
  - destruct (ld_lock d); injection Hs as <- <-; [by left|by right].
Qed.

(** A step of the acquirer that created the lock does not touch the lock. *)
Lemma linked_step fs_now c p d p' d' :
  linked p → op_step fs_now c p d = Some (p', d') → linked p' ∧ ld_lock d' = ld_lock d.
Proof.
  intros Hk Hs. destruct p as [| | | | |seeds r|ev seeds r|]; try done; simpl in Hs.
  - destruct seeds as [|seed seeds]; [by injection Hs as <- <-|].
    destruct (assertLockEvent _); by injection Hs as <- <-.
  - by injection Hs as <- <-.
Qed.

Lemma acquire_inv_step s s' :
  sys_step s s' → never_stale (sy_procs s) → acquire_inv s → acquire_inv s'.
Proof.
  intros [d procs i c p p' d' fs_now Hi Hs] Hst Hinv. unfold acquire_inv in *.
  cbn [sy_dir sy_procs] in *.
  assert (i < length procs)%nat as Hlen by (by eapply lookup_lt_Some).
  destruct (ld_lock d) as [[b m]|] eqn:El.
  - destruct Hinv as (w & cw & pw & Hw & -> & Hlk & Hrest).
    destruct (decide (i = w)) as [->|Hne].
    + rewrite Hi in Hw. injection Hw as -> ->. destruct (linked_step _ _ _ _ _ _ Hlk Hs) as [Hp' ->].
      rewrite El. exists w, cw, p'. rewrite list_lookup_insert_eq by done. split_all; try done.
      intros j cj pj Hj. rewrite list_lookup_insert_ne by done. by apply Hrest.
    + destruct (waiting_step _ _ _ _ _ _ (Hrest i c p Hne Hi) Hs) as [[-> Hp']|[? _]].
      * intros b' m' Hb'. rewrite El in Hb'. injection Hb' as <- <-. split; [done|].
        eapply Hst; by eapply list_elem_of_lookup_2.
      * rewrite El. exists w, cw, pw. rewrite list_lookup_insert_ne by done. split_all; try done.
        intros j cj pj Hj Hpj. destruct (decide (i = j)) as [<-|].
        -- rewrite list_lookup_insert_eq in Hpj by done. congruence.
        -- rewrite list_lookup_insert_ne in Hpj by done. by eapply Hrest.
      * congruence.
  - destruct (waiting_step _ _ _ _ _ _ (Hinv i c p Hi) Hs) as [[-> Hp']|(_ & -> & Hp')].
    + intros b' m' Hb'. congruence.
    + rewrite El. intros j cj pj Hpj. destruct (decide (i = j)) as [<-|].
      * rewrite list_lookup_insert_eq in Hpj by done. congruence.
      * rewrite list_lookup_insert_ne in Hpj by done. by eapply Hinv.
    + exists i, c, p'. rewrite list_lookup_insert_eq by done. split_all; try done.
      intros j cj pj Hj Hpj. rewrite list_lookup_insert_ne in Hpj by done. by eapply Hinv.
Qed.

Lemma acquire_inv_steps s s' :
  rtc sys_step s s' → never_stale (sy_procs s) → acquire_inv s → acquire_inv s'.
Proof.
  induction 1 as [|s1 s2 s3 Hs _ IH]; [done|]. intros Hst Hinv. apply IH.
  - destruct Hs. simpl in *. by eapply never_stale_callers; [eapply callers_insert|].
  - by eapply acquire_inv_step.
Qed.

(** C29. The first acquisition is exclusive: when any number of processes try to
    acquire a lock that was never taken, however their file operations
    interleave, at most one of them succeeds, as long as none considers
    another's fresh lock stale. *)
Theorem first_acquire_exclusive d procs s i j ci cj mi ti mj tj :
  ld_lock d = None → Forall (λ '(_, p), p = Read Acquire) procs → never_stale procs →
  rtc sys_step {| sy_dir := d; sy_procs := procs |} s →
  sy_procs s !! i = Some (ci, Done (acquired mi ti)) →
  sy_procs s !! j = Some (cj, Done (acquired mj tj)) → i = j.
Proof.
  intros Hl Hp Hst Hs Hi Hj.
  assert (acquire_inv s) as Hinv.
  { eapply acquire_inv_steps; [exact Hs|exact Hst|]. unfold acquire_inv. simpl. rewrite Hl.
    intros k c p Hk. rewrite Forall_lookup in Hp. specialize (Hp k _ Hk). simpl in Hp. by subst p. }
  unfold acquire_inv in Hinv. destruct (ld_lock (sy_dir s)) as [[b m]|].
  - destruct Hinv as (w & cw & pw & _ & _ & _ & Hrest).
    destruct (decide (i = w)) as [->|Hiw]; [|by specialize (Hrest i _ _ Hiw Hi)].
    destruct (decide (j = w)) as [->|Hjw]; [done|by specialize (Hrest j _ _ Hjw Hj)].
  - by specialize (Hinv i _ _ Hi).
Qed.
End concurrent.

(** ** Schedules *)

(** The system after the processes named by [sched] took one step each. *)
Fixpoint run_schedule `{JsonDigest} `{FileTimes} (fs_now : Q) (sched : list nat) (s : system) : option system :=
  match sched with
  | [] => Some s
  | i :: rest =>
      cp ← sy_procs s !! i;
      pd ← op_step fs_now cp.1 cp.2 (sy_dir s);
      run_schedule fs_now rest {| sy_dir := pd.2; sy_procs := <[i := (cp.1, pd.1)]> (sy_procs s) |}
  end.

Lemma run_schedule_steps `{JsonDigest} `{FileTimes} fs_now sched s s' :
  run_schedule fs_now sched s = Some s' → rtc sys_step s s'.
Proof.
  revert s; induction sched as [|i sched IH]; intros s; simpl; [by intros [= ->]|].
  destruct (sy_procs s !! i) as [[c p]|] eqn:Ei; simpl; [|done].
  destruct (op_step fs_now c p (sy_dir s)) as [[p' d']|] eqn:Es; simpl; [|done].
  intros Hr. eapply rtc_l; [|by apply IH]. destruct s as [d procs]. by econstructor.
Qed.

(** A digest that records the chain index of an event. *)
Definition index_digit (v : json) : string :=
  match field "chainIndex" v with
  | Some (JNumber q) => if Qeq_bool q 0 then "a" else if Qeq_bool q 1 then "b" else "c"
  | _ => "f"
  end.

Definition sixty_three_zeros : string :=
  "000000000000000000000000000000000000000000000000000000000000000".

#[local] Instance index_digest : JsonDigest.
Proof.
  refine {| json_digest v := sixty_three_zeros +:+ index_digit v |}.
  intros v. unfold index_digit. destruct (field _ _) as [[| |q| | |]|]; try reflexivity.
  destruct (Qeq_bool q 0); [reflexivity|]. destruct (Qeq_bool q 1); reflexivity.
Defined.

(** A file system that keeps every time. *)
#[local] Instance exact_times : FileTimes := λ ms, ms.

Definition acquirer (id : string) (now : Z) : caller :=
  {| ca_holderId := id; ca_holderPid := 7; ca_holderHost := "host"; ca_nowMs := now;
     ca_isAlive := λ _ _, true |}.

(** A directory whose lock was released at time 500. *)
Definition released_dir : lessons_dir :=
  {| ld_lock := Some (released_body (held_body (acquirer "zoe" 100)), 500%Q); ld_events := ∅ |}.

Definition racing : list (caller * pc) :=
  [(acquirer "ann" 1000, Read Acquire); (acquirer "bob" 1000, Read Acquire)].

Lemma racing_never_stale : never_stale racing.
Proof.
  intros c1 c2 p1 p2. unfold racing. rewrite !elem_of_cons, !elem_of_nil.
  intros [[= -> _]|[[= -> _]|[]]] [[= -> _]|[[= -> _]|[]]]; reflexivity.
Qed.

(** Two acquirers that both read the lock before either takes it, and both read
    the chain before either writes its event. *)
Definition double_acquire : option system :=
  run_schedule 900 [0; 1; 0; 1; 0; 0; 1; 1; 0; 1; 0; 1; 0; 1]%nat
    {| sy_dir := released_dir;
       sy_procs := racing |}.

(** Re-acquiring a released lock is not exclusive: two processes that
    interleave both acquire it, the file ends up naming one of them, and the
    other one's event is lost from a log that still verifies. *)
Theorem released_lock_acquired_twice :
  ∃ procs s,
    rtc sys_step {| sy_dir := released_dir; sy_procs := procs |} s ∧
    never_stale procs ∧
    (∃ c1 c2, ca_holderId c1 ≠ ca_holderId c2 ∧
       sy_procs s = [(c1, Done (acquired 500 false)); (c2, Done (acquired 500 false))] ∧
       ld_lock (sy_dir s) = Some (held_body c2, 500%Q) ∧
       (ls_holderId ∘ le_seed) <$> readEventChain (sy_dir s) = [ca_holderId c2]) ∧
    ∃ h, verifyConsolidationLockEventChain (readEventChain (sy_dir s)) = chain_ok h 1.
Proof.
  assert (∃ s, double_acquire = Some s) as [s Hs] by (eexists; vm_compute; reflexivity).
  exists racing, s. split; [by eapply run_schedule_steps|]. split; [exact racing_never_stale|].
  vm_compute in Hs. injection Hs as <-. split.
  - exists (acquirer "ann" 1000), (acquirer "bob" 1000). split; [done|]. split; [reflexivity|].
    split; vm_compute; reflexivity.
  - eexists. vm_compute. reflexivity.
Qed.

(** Rolling back does not ask whether the lock is held: after its own release
    a holder can still roll back, to any time, and the consolidation time moves
    back behind the release. *)
Theorem rollback_rewinds_released_lock `{JsonDigest} `{FileTimes} fs_now prior c d es b mtime :
  wf_caller c → wf_dir d es → ld_lock d = Some (b, mtime) → lb_held b = false →
  lb_holderId b = ca_holderId c →
  ∃ d', rollbackConsolidationLock fs_now prior c d = Some (rolled_back true, d') ∧
        readLastConsolidatedAtMs d' = Some (restored prior) ∧
        (∃ d'', releaseConsolidationLock fs_now c d = Some (released false, d'')).
Proof.
  intros Hc Hd Hl Hb Hid.
  destruct (run_spec fs_now c (Rollback prior) d es Hc Hd) as (d1 & Hr1 & Hl1 & _).
  destruct (run_spec fs_now c Release d es Hc Hd) as (d2 & Hr2 & _ & _).
  rewrite Hl in Hr1, Hl1, Hr2. cbn [lock_spec] in Hr1, Hl1, Hr2.
  rewrite bool_decide_eq_true_2 in Hr1, Hl1, Hr2 by done. rewrite Hb in Hr2.
  exists d1. split; [done|]. split; [|by exists d2].
  unfold readLastConsolidatedAtMs. by rewrite Hl1.
Qed.

(** The verifier never reports [missing_root]: an event at index 0 with another
    parent already fails [assertLockEvent]. *)
Lemma missing_root_never_reported `{JsonDigest} events j :
  verifyConsolidationLockEventChain events ≠ chain_break j missing_root.
Proof.
  unfold verifyConsolidationLockEventChain. generalize 0 at 1 as i.
  generalize (@nil Z) as seen, CONSOLIDATION_LOCK_ROOT_PARENT_HASH at 1 as prev.
  induction events as [|e es IH]; intros seen prev i; simpl; [done|].
  case_bool_decide; [done|]. destruct (Z.eqb_spec (le_chainIndex e) i) as [Hi|]; simpl; [|done].
  destruct (assertLockEvent e) eqn:Ea; [|done].
  destruct (Z.eqb_spec i 0) as [->|]; simpl.
  - case_bool_decide as Hp; [exfalso|apply IH].
    unfold assertLockEvent in Ea. rewrite Hi in Ea. destruct a.
    rewrite !outcome_then_Ok, !guard_throw_Ok in Ea.
    destruct Ea as (_ & _ & _ & _ & _ & _ & _ & _ & Er & _).
    simpl in Er. by apply bool_decide_eq_false in Er.
  - case_bool_decide; [done|apply IH].
Qed.

(** ** Witnesses *)

Lemma acquirer_wf id now : id ≠ "" → 0 <= now → wf_caller (acquirer id now).
Proof. by split. Qed.

Lemma released_dir_wf : wf_dir released_dir [].
Proof. split; [done|done|]. by intros b mtime [= <- <-]. Qed.

(** The chain after an acquisition and a release. *)
Definition two_event_dir : lessons_dir :=
  default fresh_lessons_dir
    (run_operations [(5%Q, acquirer "ann" 10, Acquire); (6%Q, acquirer "ann" 20, Release)]
       fresh_lessons_dir).
Definition two_events : list LockEvent := readEventChain two_event_dir.

Lemma serial_chain_verifies_witness :
  ∃ h, verifyConsolidationLockEventChain two_events = chain_ok h 2.
Proof.
  destruct (serial_chain_verifies
    [(5%Q, acquirer "ann" 10, Acquire); (6%Q, acquirer "ann" 20, Release)] [])
    as (d1 & d2 & Hr1 & Hr2 & (h & Hv) & _).
  { repeat constructor; done. }
  injection Hr2 as <-. exists h.
  assert (readEventChain d1 = two_events) as E by (unfold two_events, two_event_dir; by rewrite Hr1).
  rewrite E in Hv. rewrite Hv. vm_compute. reflexivity.
Defined.

Lemma chain_tamper_evident_witness :
  two_events = two_events ∨ digest_collision.
Proof.
  eapply chain_tamper_evident; vm_compute; reflexivity.
Defined.

Lemma middle_mutation_detected_witness :
  ∃ e e', two_events !! 0%nat = Some e ∧
    ((∃ j reason, verifyConsolidationLockEventChain (<[0%nat := e']> two_events) =
                  chain_break j reason) ∨ digest_collision).
Proof.
  assert (∃ e, two_events !! 0%nat = Some e ∧ le_chainIndex e = 0) as (e & He & Hi)
    by (eexists; split; [vm_compute; reflexivity|reflexivity]).
  set (e' := {| le_schemaVersion := "0"; le_seed := le_seed e; le_parentHash := le_parentHash e;
                le_chainIndex := 5 |}).
  exists e, e'. split; [exact He|].
  destruct (middle_mutation_detected two_events (sixty_three_zeros +:+ "b") 2 0 e e')
    as [(j & r & Hj & _)|Hc];
    [vm_compute; reflexivity|exact He|lia| |left; by exists j, r|by right].
  intros E. apply (f_equal le_chainIndex) in E. rewrite Hi in E. discriminate E.
Defined.

Lemma lock_operations_refine_spec_witness :
  ∃ d', tryAcquireConsolidationLock 900 (acquirer "ann" 1000) released_dir =
        Some (acquired 500 false, d').
Proof.
  destruct (lock_operations_refine_spec 900 (acquirer "ann" 1000) Acquire released_dir []
    (acquirer_wf "ann" 1000 ltac:(discriminate) ltac:(lia)) released_dir_wf) as (d' & Hr & _).
  exists d'. exact Hr.
Defined.

Lemma failed_run_keeps_cursor_witness :
  ∃ d1 d2, tryAcquireConsolidationLock 900 (acquirer "ann" 1000) released_dir =
           Some (acquired 500 false, d1) ∧
           rollbackConsolidationLock 950 500 (acquirer "ann" 2000) d1 = Some (rolled_back true, d2) ∧
           readLastConsolidatedAtMs d2 = Some 500%Q.
Proof.
  assert (∃ d1, tryAcquireConsolidationLock 900 (acquirer "ann" 1000) released_dir =
                Some (acquired 500 false, d1)) as [d1 H1] by (eexists; vm_compute; reflexivity).
  destruct (failed_run_keeps_cursor 900 950 (acquirer "ann" 1000) (acquirer "ann" 2000)
    released_dir [] d1 500 false
    (acquirer_wf "ann" 1000 ltac:(discriminate) ltac:(lia))
    (acquirer_wf "ann" 2000 ltac:(discriminate) ltac:(lia)) eq_refl released_dir_wf
    ltac:(discriminate) ltac:(reflexivity) H1) as (_ & (d2 & H2 & Hm) & _).
  exists d1, d2. auto.
Defined.

Lemma rollback_rewinds_released_lock_witness :
  ∃ d', rollbackConsolidationLock 900 1 (acquirer "zoe" 1000) released_dir =
        Some (rolled_back true, d') ∧ readLastConsolidatedAtMs d' = Some 1%Q.
Proof.
  destruct (rollback_rewinds_released_lock 900 1 (acquirer "zoe" 1000) released_dir []
    (released_body (held_body (acquirer "zoe" 100))) 500
    (acquirer_wf "zoe" 1000 ltac:(discriminate) ltac:(lia)) released_dir_wf eq_refl eq_refl eq_refl)
    as (d' & Hr & Hm & _).
  exists d'. auto.
Defined.

(** Two processes race for a lock that was never taken; the first to link it
    acquires it, and the second one does not. *)
Lemma first_acquire_exclusive_witness :
  ∃ s c, run_schedule 900 [0; 1; 0; 1; 1; 1; 0; 0; 0]%nat
           {| sy_dir := fresh_lessons_dir; sy_procs := racing |} = Some s ∧
         sy_procs s !! 0%nat = Some (c, Done (acquired 0 false)) ∧
         ∀ c', sy_procs s !! 1%nat ≠ Some (c', Done (acquired 0 false)).
Proof.
  assert (∃ s c, run_schedule 900 [0; 1; 0; 1; 1; 1; 0; 0; 0]%nat
            {| sy_dir := fresh_lessons_dir; sy_procs := racing |} = Some s ∧
            sy_procs s !! 0%nat = Some (c, Done (acquired 0 false))) as (s & c & Hs & H0).
  { eexists _, _. split; vm_compute; reflexivity. }
  exists s, c. split; [exact Hs|]. split; [exact H0|]. intros c' H1.
  assert (0 = 1)%nat as E; [|discriminate E].
  refine (first_acquire_exclusive fresh_lessons_dir racing s 0 1 c c' 0 false 0 false
    eq_refl _ racing_never_stale (run_schedule_steps 900 _ _ _ Hs) H0 H1).
  repeat constructor.
Defined.
