(* ===== verification/NodePath.v ===== *)
(** * File names and paths

    [join] of node:path on POSIX systems, whose documented normalization is defined
    here, the components a path splits into, and file-name extensions. *)

From Stdlib Require Import Ascii.
From S2P Require Import Prelude JsString JsList CanonicalJson.

(** ** Definitions *)

Definition ends_with (suffix s : string) : bool := bool_decide (is_Some (strip_suffix suffix s)).

(** A path component that names an entry of its directory. *)
Record proper_component (c : string) : Prop := {
  pc_nonempty : c ≠ "";
  pc_dot : c ≠ ".";
  pc_dotdot : c ≠ "..";
  pc_slash : has_char "/"%char c = false;
  pc_backslash : has_char "\"%char c = false;
  pc_nul : has_char "000"%char c = false;
}.

(** One component of a path; the components so far are in reverse order. *)
Definition normalize_step (absolute : bool) (acc : list string) (c : string) : list string :=
  if bool_decide (c = "") || bool_decide (c = ".") then acc
  else if bool_decide (c = "..") then
    match acc with
    | [] => if absolute then [] else [".."]
    | last :: rest => if bool_decide (last = "..") then ".." :: acc else rest
    end
  else c :: acc.

Fixpoint ends_with_slash (s : string) : bool :=
  match s with
  | EmptyString => false
  | String c EmptyString => Ascii.eqb c "/"%char
  | String _ r => ends_with_slash r
  end.

Definition posix_normalize (path : string) : string :=
  if bool_decide (path = "") then "."
  else
    let absolute := starts_with "/" path in
    let trailing := ends_with_slash path in
    let body := join "/" (reverse (foldl (normalize_step absolute) [] (split_on "/"%char path))) in
    if bool_decide (body = "") then if absolute then "/" else if trailing then "./" else "."
    else
      let body' := if trailing then body +:+ "/" else body in
      if absolute then "/" +:+ body' else body'.

Definition posix_join (parts : list string) : string :=
  match filter (λ p, p ≠ "") parts with
  | [] => "."
  | parts' => posix_normalize (join "/" parts')
  end.

(** ** Splitting *)

Lemma split_on_no_char c s : has_char c s = false → split_on c s = [s].
Proof.
  induction s as [|a s IH]; simpl; [done|]. intros [Ha Hs]%orb_false_elim.
  by rewrite Ha, IH.
Qed.

Lemma split_on_app c s r : has_char c s = false → split_on c (s +:+ String c r) = s :: split_on c r.
Proof.
  induction s as [|a s IH]; simpl; [by rewrite Ascii.eqb_refl|].
  intros [Ha Hs]%orb_false_elim. by rewrite Ha, IH.
Qed.

(** Joining components that do not contain the separator loses nothing. *)
Lemma split_on_join c xs :
  xs ≠ [] → Forall (λ x, has_char c x = false) xs → split_on c (join (String c "") xs) = xs.
Proof.
  intros Hne Hx. induction Hx as [|x xs Hx Hxs IH]; [done|].
  destruct xs as [|y xs]; [by apply split_on_no_char|].
  change (join (String c "") (x :: y :: xs)) with (x +:+ String c (join (String c "") (y :: xs))).
  rewrite split_on_app by done. f_equal. by apply IH.
Qed.

Lemma split_components segments :
  segments ≠ [] → Forall proper_component segments →
  split_on "/"%char (join "/" segments) = segments.
Proof.
  intros Hne H. apply (split_on_join "/"%char); [done|].
  eapply Forall_impl; [exact H|]. apply pc_slash.
Qed.

Lemma all_chars_has_char p c s : all_chars p s = true → p c = false → has_char c s = false.
Proof.
  intros Hs Hc. induction s as [|a s IH]; simpl in *; [done|].
  apply andb_true_iff in Hs as [Ha Hs]. rewrite IH by done.
  destruct (Ascii.eqb_spec a c); [congruence|done].
Qed.

Lemma has_char_app c a b : has_char c (a +:+ b) = has_char c a || has_char c b.
Proof. induction a as [|x a IH]; simpl; [done|]. by rewrite IH, orb_assoc. Qed.

(** ** Joining proper components *)

Lemma join_cons2 sep x y xs : join sep (x :: y :: xs) = x +:+ (sep +:+ join sep (y :: xs)).
Proof. done. Qed.

Lemma join_nonempty x xs : x ≠ "" → join "/" (x :: xs) ≠ "".
Proof. destruct x; [done|]. by destruct xs. Qed.

Lemma ends_with_slash_app a b : b ≠ "" → ends_with_slash (a +:+ b) = ends_with_slash b.
Proof.
  intros Hb. induction a as [|c a IH]; [done|]. simpl. destruct (a +:+ b) eqn:E; [|by rewrite <- IH].
  by destruct a, b.
Qed.

Lemma ends_with_slash_has s : has_char "/"%char s = false → ends_with_slash s = false.
Proof.
  induction s as [|c s IH]; simpl; [done|]. intros [Hc Hs]%orb_false_elim.
  destruct s; [done|by apply IH].
Qed.

Lemma ends_with_slash_join x xs :
  Forall proper_component (x :: xs) → ends_with_slash (join "/" (x :: xs)) = false.
Proof.
  revert x; induction xs as [|y xs IH]; intros x Hx.
  - apply Forall_cons in Hx as [[] _]. by apply ends_with_slash_has.
  - apply Forall_cons in Hx as [Hx Hy]. rewrite join_cons2.
    rewrite ends_with_slash_app by done. rewrite (ends_with_slash_app "/"); [by apply IH|].
    apply Forall_cons in Hy as [[] _]. by apply join_nonempty.
Qed.

Lemma starts_with_slash_join x xs :
  Forall proper_component (x :: xs) → starts_with "/" (join "/" (x :: xs)) = false.
Proof.
  intros [Hx _]%Forall_cons. pose proof (pc_nonempty _ Hx) as Hne. apply pc_slash in Hx.
  unfold starts_with. apply bool_decide_eq_false_2.
  destruct x as [|c x]; [done|]. simpl in Hx. apply orb_false_elim in Hx as [Hc _].
  destruct (Ascii.eqb_spec c "/"%char) as [->|Hcs]; [done|].
  assert (∀ r, strip_prefix "/" (String c r) = None) as Hstrip.
  { intros r. cbn [strip_prefix]. by destruct (Ascii.eqb_spec "/"%char c); [congruence|]. }
  assert (strip_prefix "/" (join "/" (String c x :: xs)) = None) as ->; [|by intros [? ?]].
  destruct xs; apply Hstrip.
Qed.

Lemma normalize_proper absolute xs acc :
  Forall proper_component xs → foldl (normalize_step absolute) acc xs = reverse xs ++ acc.
Proof.
  intros Hx. revert acc; induction Hx as [|x xs [] _ IH]; intros acc; [done|].
  simpl. rewrite IH, reverse_cons, <- app_assoc. f_equal. unfold normalize_step.
  by rewrite !bool_decide_eq_false_2 by done.
Qed.

Lemma posix_join_proper xs :
  xs ≠ [] → Forall proper_component xs → posix_join xs = join "/" xs.
Proof.
  intros Hne Hx. unfold posix_join. destruct xs as [|x xs]; [done|].
  rewrite filter_id; [|eapply Forall_impl; [exact Hx|]; intros y []; done].
  assert (join "/" (x :: xs) ≠ "") as Hj by (apply Forall_cons in Hx as [[] _]; by apply join_nonempty).
  unfold posix_normalize. rewrite bool_decide_eq_false_2 by done.
  rewrite starts_with_slash_join, ends_with_slash_join by done.
  assert (split_on "/"%char (join "/" (x :: xs)) = x :: xs) as -> by by apply (split_components (x :: xs)).
  rewrite normalize_proper, app_nil_r, reverse_involutive by done.
  by rewrite bool_decide_eq_false_2.
Qed.

(** ** Below a root *)

(** A normalized root directory, relative or absolute, that is not the root of the
    file system. *)
Definition rooted (root : string) : Prop :=
  ∃ comps, comps ≠ [] ∧ Forall proper_component comps ∧
           (root = join "/" comps ∨ root = "/" +:+ join "/" comps).

Lemma join_app xs ys :
  xs ≠ [] → ys ≠ [] → join "/" (xs ++ ys) = join "/" xs +:+ ("/" +:+ join "/" ys).
Proof.
  intros Hx Hy. induction xs as [|x xs IH]; [done|]. destruct xs as [|x' xs]; [by destruct ys|].
  change ((x :: x' :: xs) ++ ys) with (x :: x' :: (xs ++ ys)). rewrite !join_cons2.
  change (x' :: (xs ++ ys)) with ((x' :: xs) ++ ys). rewrite IH by done.
  by rewrite !string_app_assoc.
Qed.

Lemma posix_normalize_absolute xs :
  xs ≠ [] → Forall proper_component xs →
  posix_normalize ("/" +:+ join "/" xs) = "/" +:+ join "/" xs.
Proof.
  intros Hne Hx. assert (join "/" xs ≠ "") as Hj.
  { destruct xs as [|x xs]; [done|]. apply Forall_cons in Hx as [[] _]. by apply join_nonempty. }
  unfold posix_normalize. rewrite bool_decide_eq_false_2 by done.
  rewrite ends_with_slash_app by done.
  assert (ends_with_slash (join "/" xs) = false) as ->
    by (destruct xs; [done|by apply ends_with_slash_join]).
  assert (split_on "/"%char ("/" +:+ join "/" xs) = "" :: xs) as ->.
  { transitivity ("" :: split_on "/"%char (join "/" xs)); [done|]. f_equal.
    by apply (split_components xs). }
  assert (starts_with "/" ("/" +:+ join "/" xs) = true) as ->.
  { apply bool_decide_eq_true_2. eexists. by apply strip_prefix_Some. }
  cbn [foldl]. rewrite normalize_proper by done. unfold normalize_step. simpl orb. cbv iota.
  rewrite app_nil_r, reverse_involutive. by rewrite bool_decide_eq_false_2.
Qed.

(** Below a normalized root, joining proper components only adds them. *)
Lemma posix_join_rooted root xs :
  rooted root → xs ≠ [] → Forall proper_component xs →
  posix_join (root :: xs) = root +:+ ("/" +:+ join "/" xs).
Proof.
  intros (comps & Hc & Hp & Hr) Hx Hxp.
  assert (Forall proper_component (comps ++ xs)) as Hall by by apply Forall_app.
  assert (comps ++ xs ≠ []) as Hne by by destruct comps.
  assert (root ≠ "") as Hroot.
  { destruct Hr as [->| ->]; [|done]. destruct comps as [|c comps]; [done|].
    apply Forall_cons in Hp as [[] _]. by apply join_nonempty. }
  assert (posix_join (root :: xs) = posix_normalize (join "/" (root :: xs))) as ->.
  { unfold posix_join. rewrite filter_id; [done|]. constructor; [done|].
    eapply Forall_impl; [exact Hxp|]. by intros y []. }
  assert (join "/" (root :: xs) = root +:+ ("/" +:+ join "/" xs)) as -> by by destruct xs.
  destruct Hr as [->| ->].
  - rewrite <- join_app by done. etransitivity; [|by apply posix_join_proper].
    unfold posix_join. rewrite filter_id; [by destruct (comps ++ xs)|].
    eapply Forall_impl; [exact Hall|]. by intros y [].
  - rewrite string_app_assoc, <- join_app by done. by apply posix_normalize_absolute.
Qed.

Lemma posix_join_rooted_inj root xs ys :
  rooted root → xs ≠ [] → ys ≠ [] → Forall proper_component xs → Forall proper_component ys →
  posix_join (root :: xs) = posix_join (root :: ys) → xs = ys.
Proof.
  intros Hr Hx Hy Px Py. rewrite !posix_join_rooted by done.
  intros E%string_app_inj_l%string_app_inj_l%(f_equal (split_on "/"%char)).
  by rewrite !(split_components _) in E by done.
Qed.

(** ** Extensions *)

Lemma strip_suffix_app p r : is_Some (strip_suffix p (r +:+ p)).
Proof.
  induction r as [|c r IH].
  - change ("" +:+ p) with p. destruct p; cbn [strip_suffix]; by rewrite bool_decide_eq_true_2.
  - change (String c r +:+ p) with (String c (r +:+ p)). cbn [strip_suffix].
    case_bool_decide; [done|]. destruct IH as [s ->]. done.
Qed.

Lemma ends_with_spec suffix s : ends_with suffix s = true ↔ ∃ r, s = r +:+ suffix.
Proof.
  unfold ends_with. rewrite bool_decide_eq_true. split.
  - intros [r Hr%strip_suffix_Some]. by exists r.
  - intros [r ->]. apply strip_suffix_app.
Qed.

Lemma split_on_snoc c a b :
  has_char c b = false → ∃ x xs, split_on c (a +:+ String c b) = (x :: xs) ++ [b].
Proof.
  intros Hb. induction a as [|y a IH].
  - exists "", []. change ("" +:+ String c b) with (String c b). simpl.
    by rewrite Ascii.eqb_refl, split_on_no_char.
  - change (String y a +:+ String c b) with (String y (a +:+ String c b)). cbn [split_on].
    destruct IH as (x & xs & ->). destruct (Ascii.eqb y c).
    + by exists "", (x :: xs).
    + by exists (String y x), xs.
Qed.

(** Different extensions make different names. *)
Lemma extension_ne a b x y :
  has_char "."%char x = false → has_char "."%char y = false → x ≠ y →
  a +:+ ("." +:+ x) ≠ b +:+ ("." +:+ y).
Proof.
  intros Hx Hy Hne E. apply (f_equal (split_on "."%char)) in E.
  change ("." +:+ x) with (String "."%char x) in E. change ("." +:+ y) with (String "."%char y) in E.
  destruct (split_on_snoc "."%char a x Hx) as (? & ? & Ea), (split_on_snoc "."%char b y Hy) as (? & ? & Eb).
  rewrite Ea, Eb in E. by apply app_inj_tail in E as [_ ?].
Qed.

(** ** The last component *)

Definition base_name (path : string) : string := default "" (last (split_on "/"%char path)).

(** A name of a file in a directory. *)
Definition file_name_ok (name : string) : bool :=
  negb (has_char "/" name) && negb (bool_decide (name ∈ [""; "."; ".."])).

Lemma file_name_ok_spec name :
  file_name_ok name = true ↔ has_char "/" name = false ∧ name ≠ "" ∧ name ≠ "." ∧ name ≠ "..".
Proof.
  unfold file_name_ok. rewrite andb_true_iff, !negb_true_iff, bool_decide_eq_false. set_solver.
Qed.

Lemma proper_file_name name : proper_component name → file_name_ok name = true.
Proof. intros []. by apply file_name_ok_spec. Qed.

Lemma base_name_snoc xs name :
  has_char "/" name = false → base_name (join "/" (xs ++ [name])) = name.
Proof.
  intros Hs. unfold base_name. destruct xs as [|x xs].
  - simpl. by rewrite split_on_no_char.
  - rewrite join_app by done. change ("/" +:+ join "/" [name]) with (String "/" name).
    destruct (split_on_snoc "/" (join "/" (x :: xs)) name Hs) as (y & ys & ->). by rewrite last_snoc.
Qed.

Lemma split_on_trailing a name :
  has_char "/" name = false → ∃ xs, split_on "/" (a +:+ ("/" +:+ name)) = xs ++ [name].
Proof.
  intros Hs. destruct (split_on_snoc "/" a name Hs) as (y & ys & E). by exists (y :: ys).
Qed.

Lemma base_name_normalize path xs name :
  file_name_ok name = true → split_on "/" path = xs ++ [name] → ends_with_slash path = false → path ≠ "" →
  base_name (posix_normalize path) = name.
Proof.
  intros (Hs & Hne & Hd & Hdd)%file_name_ok_spec Hsplit Hslash Hp. unfold posix_normalize.
  rewrite bool_decide_eq_false_2, Hslash by done.
  assert (∀ absolute acc, normalize_step absolute acc name = name :: acc) as Hstep.
  { intros absolute acc. unfold normalize_step. by rewrite !bool_decide_eq_false_2. }
  rewrite Hsplit, foldl_app. cbn [foldl]. rewrite Hstep, reverse_cons.
  set (comps := reverse _).
  assert (join "/" (comps ++ [name]) ≠ "") as Hj.
  { destruct comps as [|x comps]; [done|]. rewrite join_app by done. intros E.
    apply (f_equal String.length) in E. rewrite length_string_app in E. simpl in E. lia. }
  rewrite bool_decide_eq_false_2 by done. destruct (starts_with "/" path); [|by apply base_name_snoc].
  apply (base_name_snoc ("" :: comps)) in Hs. etransitivity; [|exact Hs].
  destruct comps; done.
Qed.

(** The last component of a file in a directory is its name. *)
Lemma base_name_join dir name :
  file_name_ok name = true → base_name (posix_join [dir; name]) = name.
Proof.
  intros Hn. pose proof Hn as (Hs & Hne & _)%file_name_ok_spec. unfold posix_join.
  rewrite !filter_cons. rewrite (decide_True (P := name ≠ "")) by done. rewrite filter_nil.
  destruct (decide (dir ≠ "")).
  - destruct (split_on_trailing dir name Hs) as [xs Hx]. apply (base_name_normalize _ xs); try done.
    + change (join "/" [dir; name]) with (dir +:+ ("/" +:+ name)).
      rewrite !ends_with_slash_app by done. by apply ends_with_slash_has.
    + by destruct dir.
  - apply (base_name_normalize _ []); try done; [by apply split_on_no_char|by apply ends_with_slash_has].
Qed.

Lemma split_on_nonempty c s : split_on c s ≠ [].
Proof. destruct s as [|x s]; simpl; [done|]. destruct (Ascii.eqb x c); [done|]. by destruct (split_on c s). Qed.

(** A path ends with its last component. *)
Lemma base_name_suffix path : ∃ dir, path = dir +:+ base_name path.
Proof.
  unfold base_name. enough ((∀ x, split_on "/" path = [x] → path = x) ∧
                            ∃ dir, path = dir +:+ default "" (last (split_on "/" path))) as [_ H] by exact H.
  induction path as [|c r [IHs [a IH]]]; [split; [by intros x [= <-]|by exists ""]|]. simpl.
  pose proof (split_on_nonempty "/" r) as Hne. destruct (Ascii.eqb_spec c "/"%char) as [->|Hc].
  - split; [by intros x [= _ ?]|]. exists (String "/" a). rewrite last_cons.
    destruct (last (split_on "/" r)) eqn:El; [|by apply last_None in El].
    simpl in *. by rewrite IH at 1.
  - destruct (split_on "/" r) as [|x xs] eqn:Er; [done|]. split.
    + intros y [= <- ->]. by rewrite (IHs x).
    + rewrite last_cons in *. destruct (last xs) as [z|] eqn:El; simpl in *.
      * exists (String c a). by rewrite IH at 1.
      * exists "". apply last_None in El as ->. simpl. by rewrite (IHs x).
Qed.

Lemma posix_join_extension dir name suffix :
  file_name_ok name = true → ends_with suffix name = true → ends_with suffix (posix_join [dir; name]) = true.
Proof.
  intros Hn (r & Hr)%ends_with_spec. destruct (base_name_suffix (posix_join [dir; name])) as [a Ha].
  rewrite base_name_join in Ha by done. apply ends_with_spec. exists (a +:+ r).
  by rewrite string_app_assoc, <- Hr.
Qed.

(** ** A file in a directory below a root *)

Lemma starts_with_slash_app a b : a ≠ "" → starts_with "/" (a +:+ b) = starts_with "/" a.
Proof.
  destruct a as [|c a]; [done|]. intros _. change (String c a +:+ b) with (String c (a +:+ b)).
  apply bool_decide_ext. cbn [strip_prefix].
  destruct (Ascii.eqb "/" c); [|done]. cbn [strip_prefix]. split; intros _; eauto.
Qed.

Lemma rooted_nonempty root : rooted root → root ≠ "".
Proof.
  intros (comps & Hc & Hp & [->| ->]); [|done]. destruct comps as [|c comps]; [done|].
  apply Forall_cons in Hp as [[] _]. by apply join_nonempty.
Qed.

(** The name need not be a proper component: on POSIX it may hold a backslash. *)
Lemma posix_join_file root name :
  rooted root → file_name_ok name = true → posix_join [root; name] = root +:+ ("/" +:+ name).
Proof.
  intros Hroot Hn. pose proof (rooted_nonempty _ Hroot) as Hne.
  apply file_name_ok_spec in Hn as (Hs & Hn & Hd & Hdd). destruct Hroot as (comps & Hc & Hp & Hr).
  assert (Hj : join "/" (comps ++ [name]) = join "/" comps +:+ ("/" +:+ name)) by by apply join_app.
  assert (Hsplit : split_on "/" (join "/" (comps ++ [name])) = comps ++ [name]).
  { apply split_on_join; [by destruct comps|]. apply Forall_app. split; [|by constructor].
    eapply Forall_impl; [exact Hp|]. apply pc_slash. }
  assert (Hfold : ∀ absolute, foldl (normalize_step absolute) [] (comps ++ [name]) = name :: reverse comps).
  { intros absolute. rewrite foldl_app, (normalize_proper absolute comps), app_nil_r by done. cbn [foldl]. unfold normalize_step.
    by rewrite !bool_decide_eq_false_2. }
  assert (Hbody : join "/" (reverse (name :: reverse comps)) = join "/" comps +:+ ("/" +:+ name))
    by (rewrite reverse_cons, reverse_involutive; exact Hj).
  assert (Hend : ends_with_slash (root +:+ ("/" +:+ name)) = false)
    by (rewrite !ends_with_slash_app by (done || by destruct name); by apply ends_with_slash_has).
  unfold posix_join. rewrite filter_id by (repeat constructor; done).
  change (join "/" [root; name]) with (root +:+ ("/" +:+ name)). unfold posix_normalize.
  rewrite bool_decide_eq_false_2 by (by destruct root). rewrite Hend, starts_with_slash_app by done.
  destruct comps as [|c comps]; [done|]. destruct Hr as [->| ->].
  - rewrite starts_with_slash_join by done. rewrite <- Hj, Hsplit, Hfold, Hbody, <- Hj.
    rewrite bool_decide_eq_false_2; [done|]. rewrite Hj. by destruct (join "/" (c :: comps)).
  - assert (starts_with "/" ("/" +:+ join "/" (c :: comps)) = true) as ->.
    { apply bool_decide_eq_true_2. eexists. by apply strip_prefix_Some. }
    rewrite string_app_assoc, <- Hj.
    assert (split_on "/" ("/" +:+ join "/" ((c :: comps) ++ [name])) = "" :: ((c :: comps) ++ [name])) as ->
      by (transitivity ("" :: split_on "/" (join "/" ((c :: comps) ++ [name]))); [done|by rewrite Hsplit]).
    cbn [foldl]. rewrite (Hfold true : foldl _ (normalize_step true [] "") _ = _), Hbody, <- Hj.
    rewrite bool_decide_eq_false_2; [done|]. rewrite Hj. by destruct (join "/" (c :: comps)).
Qed.

Lemma rooted_child root c : rooted root → proper_component c → rooted (posix_join [root; c]).
Proof.
  intros Hr Hc. rewrite posix_join_file by (done || by apply proper_file_name).
  destruct Hr as (comps & Hne & Hp & Hr). exists (comps ++ [c]). split; [by destruct comps|].
  split; [apply Forall_app; split; [done|]; by apply Forall_singleton|]. rewrite join_app by done.
  destruct Hr as [->| ->]; [by left|right]. by rewrite string_app_assoc.
Qed.
