(* ===== verification/Decimal.v ===== *)
(** * Decimal numerals

    Reading back the decimal numeral of a number, and its characters. *)

From Stdlib Require Import Ascii.
From S2P Require Import Prelude JsString NodePath CanonicalJson.

Lemma digit_value k s acc :
  0 <= k < 10 →
  decimal_value acc (String (pretty_N_char (Z.to_N k)) s) = decimal_value (10 * acc + k) s.
Proof.
  intros Hk.
  assert (is_decimal_digit (pretty_N_char (Z.to_N k)) = true ∧
          Z.of_nat (nat_of_ascii (pretty_N_char (Z.to_N k))) = 48 + k) as [Hd Hv].
  { assert (k ∈ seqZ 0 10) as Hin by (apply elem_of_seqZ; lia). clear Hk.
    repeat (apply elem_of_cons in Hin as [->|Hin]); [by vm_compute..|by apply elem_of_nil in Hin]. }
  cbn [decimal_value]. rewrite Hd, Hv. f_equal. lia.
Qed.

Lemma decimal_value_go (x : N) s : decimal_value 0 (pretty_N_go x s) = decimal_value (Z.of_N x) s.
Proof.
  revert s. induction (N.lt_wf_0 x) as [x _ IH]; intros s.
  destruct (decide (x = 0)%N) as [->|Hx]; [done|].
  rewrite pretty_N_go_step, IH by (try apply N.div_lt; lia).
  replace (x `mod` 10)%N with (Z.to_N (Z.of_N x mod 10)) by (rewrite <- (N2Z.id (x `mod` 10)), N2Z.inj_mod; done).
  rewrite digit_value by (apply Z.mod_pos_bound; lia). rewrite N2Z.inj_div. f_equal.
  pose proof (Z.div_mod (Z.of_N x) 10). lia.
Qed.

Lemma decimal_value_pretty (x : N) : decimal_value 0 (pretty x) = Some (Z.of_N x).
Proof.
  unfold pretty, pretty_N. destruct (decide (x = 0)%N) as [->|]; [done|]. by rewrite decimal_value_go.
Qed.

Lemma decimal_value_digits acc s k : decimal_value acc s = Some k → all_chars is_decimal_digit s = true.
Proof.
  revert acc; induction s as [|c s IH]; intros acc; simpl; [done|].
  destruct (is_decimal_digit c); [|done]. apply IH.
Qed.

Lemma pretty_N_digits (x : N) : all_chars is_decimal_digit (pretty x) = true.
Proof. eapply decimal_value_digits, decimal_value_pretty. Qed.

(** A character that is neither a digit nor the sign is not in the numeral. *)
Lemma pretty_Z_no_char c (z : Z) :
  is_decimal_digit c = false → c ≠ "-"%char → has_char c (pretty z) = false.
Proof.
  intros Hd Hc. unfold pretty, pretty_Z. destruct z as [|p|p].
  - by apply (all_chars_has_char is_decimal_digit).
  - eapply all_chars_has_char; [apply (pretty_N_digits (Npos p))|done].
  - rewrite has_char_app. apply orb_false_iff. split; [|by eapply all_chars_has_char; [apply (pretty_N_digits (Npos p))|]].
    apply orb_false_iff. split; [|done]. by apply Ascii.eqb_neq.
Qed.
