(* ===== verification/Tenant.v ===== *)
(** * Tenant scopes and the tenant-isolation guard

    [packages/tenant/src/tenant-scope-segments.ts] and
    [packages/tenant/src/tenant-isolation-guard.ts].

    The guard keeps the active scope in an [AsyncLocalStorage]. Its contexts are
    mutable objects shared by every flow that runs under them, so they live in a
    heap; a flow is a stack of frames, each with the context [getStore()] finds
    there. Asynchronous flows interleave one call at a time. *)

From Stdlib Require Import Ascii.
From S2P Require Import Prelude JsString NodePath JsList JsValue CanonicalJson JsonView.

(** ** Scopes *)

Record TenantScope := {
  ts_tenantId : string;
  ts_environmentId : string;
  ts_projectId : option string;
}.

#[export] Instance TenantScope_eq_dec : EqDecision TenantScope.
Proof. solve_decision. Defined.

Definition tenantScopesEqual (left right : TenantScope) : bool :=
  bool_decide (ts_tenantId left = ts_tenantId right)
  && bool_decide (ts_environmentId left = ts_environmentId right)
  && bool_decide (default "default" (ts_projectId left) = default "default" (ts_projectId right)).

Inductive SegmentError : Type :=
| segment_empty (field : string)
| segment_traversal (field : string)
| segment_separator (field : string)
| segment_nul (field : string).

Definition assertSegment (field value : string) : outcome SegmentError unit :=
  (guard_throw (bool_decide (value = "")) (segment_empty field) ;;;
   guard_throw (bool_decide (value = ".") || bool_decide (value = "..")) (segment_traversal field) ;;;
   guard_throw (has_char "\"%char value || has_char "/"%char value) (segment_separator field) ;;;
   guard_throw (has_char "000"%char value) (segment_nul field))%outcome.

Definition resolveTenantScopeSegments (scope : TenantScope) : outcome SegmentError (list string) :=
  let projectId := default "default" (ts_projectId scope) in
  (assertSegment "tenantId" (ts_tenantId scope) ;;;
   assertSegment "environmentId" (ts_environmentId scope) ;;;
   assertSegment "projectId" projectId ;;;
   Ok [ts_tenantId scope; ts_environmentId scope; projectId])%outcome.

(** ** The guard *)

Record TenantIsolationReadEntry := {
  tr_operation : string;
  tr_scope : TenantScope;
  tr_sequence : Z;
}.

#[export] Instance TenantIsolationReadEntry_eq_dec : EqDecision TenantIsolationReadEntry.
Proof. solve_decision. Defined.

Record TenantIsolationContext := {
  tc_scope : TenantScope;
  tc_reads : list TenantIsolationReadEntry;
  tc_nextSequence : Z;
}.

Record TenantIsolationViolation := {
  tv_operation : string;
  tv_expected : TenantScope;
  tv_actual : TenantScope;
}.

(** The contexts created so far; a store is the number of one of them. *)
Definition contexts : Type := list TenantIsolationContext.
Definition store : Type := option nat.

Definition getStore (h : contexts) (s : store) : option TenantIsolationContext :=
  i ← s; h !! i.

Definition getCurrentTenantScope (h : contexts) (s : store) : option TenantScope :=
  tc_scope <$> getStore h s.

Definition assertTenantScope (operation : string) (expected actual : TenantScope) :
    outcome TenantIsolationViolation unit :=
  guard_throw (negb (tenantScopesEqual expected actual))
    {| tv_operation := operation; tv_expected := expected; tv_actual := actual |}.

(** [ctx.reads.push(...)] and the increment of the counter. *)
Definition push_read (operation : string) (ctx : TenantIsolationContext) : TenantIsolationContext :=
  {| tc_scope := tc_scope ctx;
     tc_reads := tc_reads ctx ++ [{| tr_operation := operation; tr_scope := tc_scope ctx;
                                     tr_sequence := tc_nextSequence ctx |}];
     tc_nextSequence := tc_nextSequence ctx + 1 |}.

Definition push_to (operation : string) (h : contexts) (s : store) : contexts :=
  match s with Some i => alter (push_read operation) i h | None => h end.

Definition recordPersistentStoreRead (operation : string) (recordedScope : TenantScope)
    (h : contexts) (s : store) : outcome TenantIsolationViolation contexts :=
  match getStore h s with
  | None => Ok h
  | Some ctx =>
      (assertTenantScope operation (tc_scope ctx) recordedScope ;;;
       Ok (push_to operation h s))%outcome
  end.

Definition recordTenantIdRead (operation recordedTenantId : string)
    (h : contexts) (s : store) : outcome TenantIsolationViolation contexts :=
  match getStore h s with
  | None => Ok h
  | Some ctx =>
      if bool_decide (ts_tenantId (tc_scope ctx) ≠ recordedTenantId)
      then Throw {| tv_operation := operation; tv_expected := tc_scope ctx;
                    tv_actual := {| ts_tenantId := recordedTenantId;
                                    ts_environmentId := ts_environmentId (tc_scope ctx);
                                    ts_projectId := ts_projectId (tc_scope ctx) |} |}
      else Ok (push_to operation h s)
  end.

Definition recordActiveTenantRead (operation : string) (h : contexts) (s : store) : contexts :=
  match getStore h s with None => h | Some _ => push_to operation h s end.

Definition snapshotTenantIsolationReads (h : contexts) (s : store) : list TenantIsolationReadEntry :=
  match getStore h s with None => [] | Some ctx => tc_reads ctx end.

(** The store [fn] runs under, or the violation. *)
Definition withTenantScope (scope : TenantScope) (h : contexts) (s : store) :
    outcome TenantIsolationViolation (contexts * store) :=
  match getStore h s with
  | Some existing =>
      if negb (tenantScopesEqual (tc_scope existing) scope)
      then Throw {| tv_operation := "withTenantScope"; tv_expected := tc_scope existing;
                    tv_actual := scope |}
      else Ok (h, s)
  | None =>
      Ok (h ++ [{| tc_scope := scope; tc_reads := []; tc_nextSequence := 0 |}], Some (length h))
  end.

(** ** Attestation *)

Definition TENANT_ISOLATION_ATTESTATION_SCHEMA_VERSION : string := "1.0.0".
Definition TENANT_ISOLATION_ATTESTATION_CERTIFICATION : string :=
  "no cross-tenant persistent-store read occurred during this run".

Record TenantIsolationAttestation := {
  ta_jobId : string;
  ta_generatedAt : string;
  ta_tenantScope : TenantScope;
  ta_persistentStoreReads : list TenantIsolationReadEntry;
  ta_attestationSha256 : string;
  ta_readCount : Z;
}.

Definition scope_fields (s : TenantScope) : list (string * option json) :=
  [("tenantId", Some (JString (ts_tenantId s)));
   ("environmentId", Some (JString (ts_environmentId s)));
   ("projectId", JString <$> ts_projectId s)].
Definition scope_json (s : TenantScope) : json := JObject (Json.literal (scope_fields s)).

Definition read_fields_of (r : TenantIsolationReadEntry) : list (string * option json) :=
  [("operation", Some (JString (tr_operation r)));
   ("scope", Some (scope_json (tr_scope r)));
   ("sequence", Some (Json.jint (tr_sequence r)))].
Definition read_json (r : TenantIsolationReadEntry) : json := JObject (Json.literal (read_fields_of r)).

Definition attestation_payload (scope : TenantScope) (reads : list TenantIsolationReadEntry) : json :=
  JObject (Json.literal
    [("schemaVersion", Some (JString TENANT_ISOLATION_ATTESTATION_SCHEMA_VERSION));
     ("tenantScope", Some (scope_json scope));
     ("persistentStoreReads", Some (JArray (read_json <$> reads)))]).

(** The reads in order of their numbers, numbered again from [index]. *)
Fixpoint attest_reads (tenantScope : TenantScope) (index : Z)
    (reads : list TenantIsolationReadEntry) :
    outcome TenantIsolationViolation (list TenantIsolationReadEntry) :=
  match reads with
  | [] => Ok []
  | entry :: rest =>
      if bool_decide (ts_tenantId (tr_scope entry) ≠ ts_tenantId tenantScope)
      then Throw {| tv_operation := tr_operation entry; tv_expected := tenantScope;
                    tv_actual := tr_scope entry |}
      else (let* rest' := attest_reads tenantScope (index + 1) rest in
            Ok ({| tr_operation := tr_operation entry; tr_scope := tr_scope entry;
                   tr_sequence := index |} :: rest'))%outcome
  end.

Definition by_sequence : TenantIsolationReadEntry → TenantIsolationReadEntry → comparison :=
  cmp_on tr_sequence Z.compare.

Definition buildTenantIsolationAttestation `{JsonDigest} (jobId generatedAt : string)
    (tenantScope : TenantScope) (reads : list TenantIsolationReadEntry) :
    outcome TenantIsolationViolation TenantIsolationAttestation :=
  (let* reads' := attest_reads tenantScope 0 (js_sort by_sequence reads) in
   Ok {| ta_jobId := jobId; ta_generatedAt := generatedAt; ta_tenantScope := tenantScope;
         ta_persistentStoreReads := reads';
         ta_attestationSha256 := sha256Hex_json (attestation_payload tenantScope reads');
         ta_readCount := Z.of_nat (length reads') |})%outcome.

(** ** Flows *)

(** What a program does with the guard: the three hooks, opening a scope around a
    body, starting a flow without waiting for it, and catching exceptions. *)
Inductive code : Type :=
| Return
| StoreRead (operation : string) (recordedScope : TenantScope) (rest : code)
| TenantIdRead (operation recordedTenantId : string) (rest : code)
| ActiveRead (operation : string) (rest : code)
| WithScope (scope : TenantScope) (body rest : code)
| Spawn (body rest : code)
| TryCatch (body rest : code).

(** [fr_try] says that the frame is the body of a [try]. *)
Record frame := { fr_store : store; fr_code : code; fr_try : bool }.

Inductive flow : Type :=
| Running (frames : list frame)
| Crashed (v : TenantIsolationViolation).

(** An exception leaves frames until it leaves the body of a [try]. *)
Fixpoint raise (v : TenantIsolationViolation) (frames : list frame) : flow :=
  match frames with
  | [] => Crashed v
  | f :: rest => if fr_try f then Running rest else raise v rest
  end.

(** One call of the topmost frame: the new contexts, the flow after it and the
    flow it started, if any. *)
Definition flow_step (h : contexts) (frames : list frame) : option (contexts * flow * option flow) :=
  match frames with
  | [] => None
  | {| fr_store := s; fr_code := c; fr_try := t |} :: below =>
      let continue h' rest := (h', Running ({| fr_store := s; fr_code := rest; fr_try := t |} :: below), None) in
      let record (m : outcome TenantIsolationViolation contexts) rest :=
        match m with
        | Ok h' => continue h' rest
        | Throw v => (h, raise v frames, None)
        end in
      Some match c with
      | Return => (h, Running below, None)
      | StoreRead operation scope rest => record (recordPersistentStoreRead operation scope h s) rest
      | TenantIdRead operation id rest => record (recordTenantIdRead operation id h s) rest
      | ActiveRead operation rest => continue (recordActiveTenantRead operation h s) rest
      | WithScope scope body rest =>
          match withTenantScope scope h s with
          | Ok (h', s') =>
              (h', Running ({| fr_store := s'; fr_code := body; fr_try := false |}
                            :: {| fr_store := s; fr_code := rest; fr_try := t |} :: below), None)
          | Throw v => (h, raise v frames, None)
          end
      | Spawn body rest =>
          (h, Running ({| fr_store := s; fr_code := rest; fr_try := t |} :: below),
           Some (Running [{| fr_store := s; fr_code := body; fr_try := false |}]))
      | TryCatch body rest =>
          (h, Running ({| fr_store := s; fr_code := body; fr_try := true |}
                       :: {| fr_store := s; fr_code := rest; fr_try := t |} :: below), None)
      end
  end.

Record process := { pr_contexts : contexts; pr_flows : list flow }.

(** Independent entry points, none of them under a scope. *)
Definition start (programs : list code) : process :=
  {| pr_contexts := [];
     pr_flows := (λ c, Running [{| fr_store := None; fr_code := c; fr_try := false |}]) <$> programs |}.

Inductive process_step : process → process → Prop :=
| step_flow h flows i frames h' f' spawned :
    flows !! i = Some (Running frames) → flow_step h frames = Some (h', f', spawned) →
    process_step {| pr_contexts := h; pr_flows := flows |}
                 {| pr_contexts := h'; pr_flows := <[i := f']> flows ++ option_list spawned |}.

(** ** What flows get to do *)

(** What a call lets a flow do: read a store whose bytes were written under a scope, or
    for a tenant id, or that only the working directory tells apart; run a body that was
    opened for a scope. *)
Inductive access : Type :=
| of_scope (scope : TenantScope)
| of_tenant (tenantId : string)
| of_run_directory
| body_of (scope : TenantScope).

Record event := { ev_context : nat; ev_operation : string; ev_access : access }.

(** Whether the call of the topmost of [frames] returned: an exception leaves frames. *)
Definition returned (frames : list frame) (f' : flow) : bool :=
  match f' with Running frames' => (length frames <=? length frames')%nat | Crashed _ => false end.

(** What the call let happen under a context. *)
Definition let_through (frames : list frame) (f' : flow) : list event :=
  match frames with
  | [] => []
  | f :: _ =>
      let event operation a k := {| ev_context := k; ev_operation := operation; ev_access := a |} in
      if returned frames f' then
        match fr_code f with
        | StoreRead operation scope _ => option_list (event operation (of_scope scope) <$> fr_store f)
        | TenantIdRead operation id _ => option_list (event operation (of_tenant id) <$> fr_store f)
        | ActiveRead operation _ => option_list (event operation of_run_directory <$> fr_store f)
        | WithScope scope _ _ =>
            match f' with
            | Running (body :: _) => option_list (event "withTenantScope" (body_of scope) <$> fr_store body)
            | _ => []
            end
        | _ => []
        end
      else []
  end.

(** The processes with what their flows were let through to do so far. *)
Inductive observed_step : process * list event → process * list event → Prop :=
| observe h flows i frames h' f' spawned log :
    flows !! i = Some (Running frames) → flow_step h frames = Some (h', f', spawned) →
    observed_step ({| pr_contexts := h; pr_flows := flows |}, log)
                  ({| pr_contexts := h'; pr_flows := <[i := f']> flows ++ option_list spawned |},
                   log ++ let_through frames f').

(** ** Equal scopes *)

(** Scopes with the same segments are interchangeable. *)
#[export] Instance TenantScope_equiv : Equiv TenantScope :=
  λ left right, tenantScopesEqual left right = true.

Lemma tenantScopesEqual_spec left right :
  left ≡ right ↔
  ts_tenantId left = ts_tenantId right ∧ ts_environmentId left = ts_environmentId right ∧
  default "default" (ts_projectId left) = default "default" (ts_projectId right).
Proof.
  change (left ≡ right) with (tenantScopesEqual left right = true). unfold tenantScopesEqual.
  rewrite !andb_true_iff, !bool_decide_eq_true. tauto.
Qed.

#[export] Instance TenantScope_equivalence : Equivalence (≡@{TenantScope}).
Proof.
  split.
  - intros s. by rewrite tenantScopesEqual_spec.
  - intros s1 s2. rewrite !tenantScopesEqual_spec. naive_solver.
  - intros s1 s2 s3. rewrite !tenantScopesEqual_spec. intuition congruence.
Qed.

#[export] Instance tenantScopesEqual_proper : Proper ((≡) ==> (≡) ==> (=)) tenantScopesEqual.
Proof.
  intros s1 s1' H1 s2 s2' H2. apply eq_true_iff_eq.
  change (s1 ≡ s2 ↔ s1' ≡ s2'). by rewrite H1, H2.
Qed.

#[export] Instance resolveTenantScopeSegments_proper :
  Proper ((≡) ==> (=)) resolveTenantScopeSegments.
Proof.
  intros s1 s2 (E1 & E2 & E3)%tenantScopesEqual_spec. unfold resolveTenantScopeSegments.
  by rewrite E1, E2, E3.
Qed.

(** ** Segments *)

Lemma assertSegment_Ok field value : assertSegment field value = Ok tt ↔ proper_component value.
Proof.
  unfold assertSegment. rewrite !outcome_then_Ok, !guard_throw_Ok, !orb_false_iff, !bool_decide_eq_false.
  split; [intros (? & [? ?] & [? ?] & ?); by split|intros []; by split_all].
Qed.

Lemma Forall_cons3 {A} (P : A → Prop) x y z : Forall P [x; y; z] ↔ P x ∧ P y ∧ P z.
Proof. rewrite !Forall_cons, Forall_nil. tauto. Qed.

Lemma resolveTenantScopeSegments_Ok scope segments :
  resolveTenantScopeSegments scope = Ok segments ↔
  segments = [ts_tenantId scope; ts_environmentId scope; default "default" (ts_projectId scope)] ∧
  Forall proper_component segments.
Proof.
  unfold resolveTenantScopeSegments. rewrite !outcome_then_Ok, !assertSegment_Ok. split.
  - intros (H1 & H2 & H3 & [= <-]). by rewrite Forall_cons3.
  - intros [-> (H1 & H2 & H3)%Forall_cons3]. by split_all.
Qed.

Lemma resolved_segments_equal s1 s2 g1 g2 :
  resolveTenantScopeSegments s1 = Ok g1 → resolveTenantScopeSegments s2 = Ok g2 →
  g1 = g2 ↔ s1 ≡ s2.
Proof.
  rewrite !resolveTenantScopeSegments_Ok, tenantScopesEqual_spec.
  intros [-> _] [-> _]. split; [by intros [= ? ? ?]|].
  intros (E1 & E2 & E3). by rewrite E1, E2, E3.
Qed.

(** The directory of a scope below the root of a store. *)
Definition scope_path (segments : list string) : string := join "/" segments.

Lemma split_scope_path segments :
  segments ≠ [] → Forall proper_component segments →
  split_on "/"%char (scope_path segments) = segments.
Proof.
  apply split_components.
Qed.

(** The directories of tenants agree with the guard: a scope that is accepted
    names three proper path components, its directory splits back into them, so
    that it lies three levels below the root and inside no other tenant's
    directory, and two accepted scopes share a directory exactly when
    [tenantScopesEqual] calls them equal. *)
Theorem scope_directories_agree s1 s2 g1 g2 :
  resolveTenantScopeSegments s1 = Ok g1 → resolveTenantScopeSegments s2 = Ok g2 →
  length g1 = 3%nat ∧ Forall proper_component g1 ∧
  split_on "/"%char (scope_path g1) = g1 ∧
  (split_on "/"%char (scope_path g1) `prefix_of` split_on "/"%char (scope_path g2) ∨
   scope_path g1 = scope_path g2 ↔ tenantScopesEqual s1 s2 = true).
Proof.
  intros H1 H2. pose proof (resolved_segments_equal _ _ _ _ H1 H2) as Heq.
  apply resolveTenantScopeSegments_Ok in H1 as [E1 P1], H2 as [E2 P2].
  assert (length g1 = 3%nat ∧ length g2 = 3%nat) as [L1 L2] by (subst; done).
  assert (split_on "/"%char (scope_path g1) = g1) as S1
    by (apply split_scope_path; [by destruct g1|done]).
  assert (split_on "/"%char (scope_path g2) = g2) as S2
    by (apply split_scope_path; [by destruct g2|done]).
  split_all; [done..|]. rewrite S1, S2. change (tenantScopesEqual s1 s2 = true) with (s1 ≡ s2).
  rewrite <- Heq. split; [|intros ->; by left].
  intros [[k ->]|E].
  - rewrite length_app in L2. destruct k; [by rewrite app_nil_r|simpl in L2; lia].
  - by rewrite <- S1, <- S2, E.
Qed.

(** ** The audit buffer of a context *)

(** Every read is recorded under the scope of its context and numbered in order. *)
Record context_ok (ctx : TenantIsolationContext) : Prop := {
  co_scope : Forall (λ r, tr_scope r = tc_scope ctx) (tc_reads ctx);
  co_sequence : tr_sequence <$> tc_reads ctx = seqZ 0 (Z.of_nat (length (tc_reads ctx)));
  co_next : tc_nextSequence ctx = Z.of_nat (length (tc_reads ctx));
}.

Lemma push_read_ok operation ctx : context_ok ctx → context_ok (push_read operation ctx).
Proof.
  intros [Hs Hq Hn]. unfold push_read. split; simpl.
  - apply Forall_app. split; [done|]. by constructor.
  - rewrite fmap_app, Hq, length_app, Hn. simpl.
    replace (Z.of_nat (length (tc_reads ctx) + 1)) with (Z.of_nat (length (tc_reads ctx)) + 1) by lia.
    rewrite seqZ_app by lia. done.
  - rewrite length_app, Hn. simpl. lia.
Qed.

Lemma Forall_alter_self {A} (P : A → Prop) f i (l : list A) :
  (∀ x, P x → P (f x)) → Forall P l → Forall P (alter f i l).
Proof. intros Hf Hl. apply Forall_alter; [done|]. intros x Hx Px. by apply Hf. Qed.

Lemma push_to_ok operation h s : Forall context_ok h → Forall context_ok (push_to operation h s).
Proof. intros Hh. destruct s as [i|]; [|done]. by apply Forall_alter_self; [apply push_read_ok|]. Qed.

Lemma length_push_to operation h s : length (push_to operation h s) = length h.
Proof. destruct s; [|done]. apply length_alter. Qed.

#[export] Hint Resolve push_to_ok : js.

(** What the three hooks may do to the contexts. *)
Inductive recorded (h : contexts) (s : store) : contexts → Prop :=
| recorded_nothing : recorded h s h
| recorded_read operation : recorded h s (push_to operation h s).

Lemma recordPersistentStoreRead_recorded operation scope h s h' :
  recordPersistentStoreRead operation scope h s = Ok h' → recorded h s h'.
Proof.
  unfold recordPersistentStoreRead. destruct (getStore h s); [|intros [= ->]; constructor].
  intros (_ & [= <-])%outcome_then_Ok. constructor.
Qed.

Lemma recordTenantIdRead_recorded operation id h s h' :
  recordTenantIdRead operation id h s = Ok h' → recorded h s h'.
Proof.
  unfold recordTenantIdRead. destruct (getStore h s); [|intros [= ->]; constructor].
  case_bool_decide; [done|]. intros [= <-]. constructor.
Qed.

Lemma recordActiveTenantRead_recorded operation h s :
  recorded h s (recordActiveTenantRead operation h s).
Proof. unfold recordActiveTenantRead. destruct (getStore h s); constructor. Qed.

Lemma recorded_ok h s h' : recorded h s h' → Forall context_ok h → Forall context_ok h'.
Proof. intros []; auto with js. Qed.

Lemma recorded_length h s h' : recorded h s h' → length h' = length h.
Proof. intros []; [done|apply length_push_to]. Qed.

(** ** Flows stay in one tenant *)

(** A frame below another runs under no scope or under the same one. *)
Definition nested (above below : frame) : Prop :=
  fr_store below = None ∨ fr_store below = fr_store above.

#[export] Instance nested_trans : Transitive nested.
Proof. unfold nested. intros f g k [?|?] [?|?]; intuition congruence. Qed.

Record frames_ok (n : nat) (frames : list frame) : Prop := {
  fo_nested : StronglySorted nested frames;
  fo_live : Forall (λ f, ∀ i, fr_store f = Some i → (i < n)%nat) frames;
}.

Definition flow_ok (n : nat) (f : flow) : Prop :=
  match f with Running frames => frames_ok n frames | Crashed _ => True end.

Record process_ok (p : process) : Prop := {
  po_contexts : Forall context_ok (pr_contexts p);
  po_flows : Forall (flow_ok (length (pr_contexts p))) (pr_flows p);
}.

Lemma frames_ok_tail n f frames : frames_ok n (f :: frames) → frames_ok n frames.
Proof. intros [[_ ?]%StronglySorted_cons [_ ?]%Forall_cons]. by split. Qed.

Lemma frames_ok_same n f f' frames :
  fr_store f' = fr_store f → frames_ok n (f :: frames) → frames_ok n (f' :: frames).
Proof.
  intros E [[Hf Hs]%StronglySorted_cons [Hl Hls]%Forall_cons]. split.
  - constructor; [done|]. eapply Forall_impl; [exact Hf|]. intros g. unfold nested. by rewrite E.
  - constructor; [by rewrite E|done].
Qed.

(** Entering a body under the store [s] of the topmost frame. *)
Lemma frames_ok_push n f body frames :
  (fr_store body = fr_store f ∨ fr_store f = None) →
  (∀ i, fr_store body = Some i → (i < n)%nat) →
  frames_ok n (f :: frames) → frames_ok n (body :: f :: frames).
Proof.
  intros E Hb [Hs Hl]. split; [|by constructor]. constructor; [done|].
  assert (nested body f) as Hn by (unfold nested; naive_solver).
  constructor; [done|]. apply StronglySorted_cons in Hs as [Hf _].
  eapply Forall_impl; [exact Hf|]. intros g Hg. by trans f.
Qed.

Lemma flow_ok_weaken n n' f : (n ≤ n')%nat → flow_ok n f → flow_ok n' f.
Proof.
  intros Hn. destruct f as [frames|]; [|done]. intros [Hs Hl]. split; [done|].
  eapply Forall_impl; [exact Hl|]. intros g Hg i Hi. specialize (Hg i Hi). lia.
Qed.

Lemma raise_ok n v frames : frames_ok n frames → flow_ok n (raise v frames).
Proof.
  induction frames as [|f frames IH]; intros Hf; simpl; [done|].
  apply frames_ok_tail in Hf. destruct (fr_try f); [done|by apply IH].
Qed.

(** The frames and contexts after [withTenantScope]. *)
Lemma withTenantScope_ok scope h s h' s' :
  withTenantScope scope h s = Ok (h', s') → Forall context_ok h →
  (∀ i, s = Some i → (i < length h)%nat) →
  Forall context_ok h' ∧ (length h ≤ length h')%nat ∧ (s' = s ∨ s = None) ∧
  (∀ i, s' = Some i → (i < length h')%nat).
Proof.
  unfold withTenantScope. intros Hw Hh Hs. destruct (getStore h s) as [ctx|] eqn:Hg.
  - destruct (tenantScopesEqual _ _); simpl in Hw; [|done]. injection Hw as <- <-.
    split_all; [done|lia|by left|done].
  - injection Hw as <- <-. rewrite length_app. simpl. split_all; [|lia| |].
    + apply Forall_app. split; [done|]. constructor; [|done]. by split; simpl; try constructor.
    + right. destruct s as [i|]; [|done]. exfalso. specialize (Hs i eq_refl).
      simpl in Hg. apply lookup_ge_None in Hg. lia.
    + intros i [= <-]. lia.
Qed.

Definition spawned_ok (n : nat) (spawned : option flow) : Prop :=
  ∀ f, spawned = Some f → flow_ok n f.

(** A hook either records its read or raises, and stays in its frame. *)
Lemma hook_step_ok h f rest below frames (m : outcome TenantIsolationViolation contexts) r :
  Forall context_ok h → frames_ok (length h) (f :: below) → frames_ok (length h) frames →
  fr_store rest = fr_store f → (∀ h', m = Ok h' → recorded h (fr_store f) h') →
  match m with
  | Ok h' => (h', Running (rest :: below), None)
  | Throw v => (h, raise v frames, None)
  end = r →
  Forall context_ok r.1.1 ∧ (length h ≤ length r.1.1)%nat ∧
  flow_ok (length r.1.1) r.1.2 ∧ spawned_ok (length r.1.1) r.2.
Proof.
  intros Hh Hf Hfs E Hm <-. destruct m as [h'|v]; simpl.
  - specialize (Hm h' eq_refl). rewrite (recorded_length _ _ _ Hm).
    split_all; [by eapply recorded_ok|lia| |done]. by eapply frames_ok_same.
  - split_all; [done|lia| |done]. by apply raise_ok.
Qed.

Lemma frames_ok_singleton n f : (∀ i, fr_store f = Some i → (i < n)%nat) → frames_ok n [f].
Proof. intros H. split; [repeat constructor|by constructor]. Qed.

(** The topmost frame moves on to other code under its store. *)
Ltac same_frame := eapply frames_ok_same; [|eassumption]; done.

Lemma flow_step_ok h frames r :
  Forall context_ok h → frames_ok (length h) frames → flow_step h frames = Some r →
  Forall context_ok r.1.1 ∧ (length h ≤ length r.1.1)%nat ∧
  flow_ok (length r.1.1) r.1.2 ∧ spawned_ok (length r.1.1) r.2.
Proof.
  intros Hh Hf Hst. destruct frames as [|[s c t] below]; [done|]. injection Hst as Hr.
  pose proof (Forall_inv (fo_live _ _ Hf)) as Hlive. simpl in Hlive.
  destruct c as [|op sc rest|op id rest|op rest|sc body rest|body rest|body rest].
  - subst r. simpl. split_all; [done|lia| |done]. by eapply frames_ok_tail.
  - eapply hook_step_ok; [done|exact Hf|exact Hf| |apply recordPersistentStoreRead_recorded|exact Hr]; done.
  - eapply hook_step_ok; [done|exact Hf|exact Hf| |apply recordTenantIdRead_recorded|exact Hr]; done.
  - eapply (hook_step_ok h _ _ below _ (Ok (recordActiveTenantRead op h s)));
      [done|exact Hf|exact Hf| | |exact Hr]; [done|].
    intros h' [= <-]. apply recordActiveTenantRead_recorded.
  - destruct (withTenantScope sc h s) as [[h' s']|v] eqn:Hw; subst r; simpl.
    + destruct (withTenantScope_ok _ _ _ _ _ Hw Hh Hlive) as (Hh' & Hle & Hs' & Hl').
      split_all; [done|lia| |done]. apply frames_ok_push; [done|done|].
      apply (flow_ok_weaken (length h) _ (Running _)); [lia|]. same_frame.
    + split_all; [done|lia|exact (raise_ok _ v _ Hf)|done].
  - subst r. simpl. split_all; [done|lia|same_frame|].
    intros f [= <-]. by apply frames_ok_singleton.
  - subst r. simpl. split_all; [done|lia| |done].
    apply frames_ok_push; [by left|done|]. same_frame.
Qed.

Lemma process_step_ok p p' : process_ok p → process_step p p' → process_ok p'.
Proof.
  intros [Hh Hfl] Hst. destruct Hst as [h flows i frames h' f' spawned Hi Hs]. simpl in *.
  pose proof (Forall_lookup_1 _ _ _ _ Hfl Hi) as Hf.
  destruct (flow_step_ok _ _ _ Hh Hf Hs) as (Hh' & Hle & Hf' & Hsp). simpl in *.
  split; [done|]. simpl. apply Forall_app. split.
  - apply Forall_insert; [|done]. eapply Forall_impl; [exact Hfl|]. intros g. by apply flow_ok_weaken.
  - destruct spawned as [f|]; [|constructor]. constructor; [by apply Hsp|constructor].
Qed.

Lemma start_ok programs : process_ok (start programs).
Proof.
  split; [constructor|]. apply Forall_fmap, Forall_forall. intros c _. simpl.
  by apply frames_ok_singleton.
Qed.

Lemma reachable_ok programs p : rtc process_step (start programs) p → process_ok p.
Proof.
  intros Hr. generalize (start_ok programs). induction Hr; [done|].
  eauto using process_step_ok.
Qed.

(** ** Flows do what belongs to their scope *)

Definition same_scope (left right : TenantScope) : Prop :=
  ts_tenantId left = ts_tenantId right ∧ ts_environmentId left = ts_environmentId right ∧
  default "default" (ts_projectId left) = default "default" (ts_projectId right).

(** What a flow under [scope] may do. *)
Definition belongs (scope : TenantScope) (a : access) : Prop :=
  match a with
  | of_scope recorded => same_scope scope recorded
  | of_tenant id => ts_tenantId scope = id
  | of_run_directory => True
  | body_of requested => same_scope scope requested
  end.

Definition is_read (e : event) : Prop := match ev_access e with body_of _ => False | _ => True end.

#[export] Instance is_read_dec e : Decision (is_read e).
Proof. unfold is_read. destruct (ev_access e); apply _. Defined.

Definition reads_under (k : nat) (log : list event) : list event :=
  filter is_read (filter (λ e, ev_context e = k) log).

(** Everything belongs to the scope of its context, and the context has recorded exactly
    the reads, in order. *)
Record log_ok (h : contexts) (log : list event) : Prop := {
  lg_belongs : Forall (λ e, ∃ ctx, h !! ev_context e = Some ctx ∧ belongs (tc_scope ctx) (ev_access e)) log;
  lg_recorded k ctx : h !! k = Some ctx → tr_operation <$> tc_reads ctx = ev_operation <$> reads_under k log;
}.

Lemma reads_under_snoc k log e :
  reads_under k (log ++ [e]) =
  reads_under k log ++ (if decide (ev_context e = k ∧ is_read e) then [e] else []).
Proof.
  unfold reads_under. rewrite !filter_app. f_equal. rewrite filter_cons, filter_nil.
  destruct (decide (ev_context e = k)) as [E|E]; [rewrite filter_cons, filter_nil|]; repeat case_decide; tauto.
Qed.

(** A read that belongs to its context, and is recorded. *)
Lemma log_read h log k ctx operation a :
  log_ok h log → h !! k = Some ctx → belongs (tc_scope ctx) a →
  is_read {| ev_context := k; ev_operation := operation; ev_access := a |} →
  log_ok (push_to operation h (Some k)) (log ++ [{| ev_context := k; ev_operation := operation; ev_access := a |}]).
Proof.
  unfold push_to, contexts in *. cbv iota. intros [Hb Hr] Hk Ha Hread. unfold contexts in *.
  assert (Hscope : ∀ j c, h !! j = Some c → ∃ c', alter (push_read operation) k h !! j = Some c' ∧ tc_scope c' = tc_scope c).
  { intros j c Hj. destruct (decide (k = j)) as [<-|Hne].
    - rewrite list_lookup_alter_eq, Hj. by eexists.
    - rewrite list_lookup_alter_ne by done. by exists c. }
  split.
  - apply Forall_app. split; [|constructor; [|constructor]].
    + eapply Forall_impl; [exact Hb|]. intros e (c & Hc & Hbe). destruct (Hscope _ _ Hc) as (c' & Hc' & Es).
      exists c'. by rewrite Es.
    + destruct (Hscope _ _ Hk) as (c' & Hc' & Es). exists c'. by rewrite Es.
  - intros j c' Hj. unfold contexts in Hj. rewrite reads_under_snoc. cbn [ev_context]. destruct (decide (k = j)) as [<-|Hne].
    + rewrite list_lookup_alter_eq, Hk in Hj. injection Hj as <-. rewrite decide_True by done.
      cbn [push_read tc_reads]. by rewrite !fmap_app, (Hr k ctx Hk).
    + rewrite list_lookup_alter_ne in Hj by done. rewrite decide_False, app_nil_r by tauto. by apply Hr.
Qed.

Lemma log_body h log k ctx operation scope :
  log_ok h log → h !! k = Some ctx → same_scope (tc_scope ctx) scope →
  log_ok h (log ++ [{| ev_context := k; ev_operation := operation; ev_access := body_of scope |}]).
Proof.
  intros [Hb Hr] Hk Hs. split.
  - apply Forall_app. split; [done|]. constructor; [|done]. by exists ctx.
  - intros j c Hj. rewrite reads_under_snoc, decide_False, app_nil_r by (intros [_ []]). by apply Hr.
Qed.

Lemma log_new_context h log scope :
  log_ok h log → log_ok (h ++ [{| tc_scope := scope; tc_reads := []; tc_nextSequence := 0 |}]) log.
Proof.
  intros [Hb Hr]. split.
  - eapply Forall_impl; [exact Hb|]. intros e (c & Hc & Hbe). exists c. split; [|done]. by apply lookup_app_l_Some.
  - intros k ctx [Hk|[Hk Hn]]%lookup_app_Some; [by apply Hr|]. apply list_lookup_singleton_Some in Hn as [Hk0 <-].
    assert (reads_under k log = []) as ->; [|done]. unfold reads_under.
    assert (filter (λ e, ev_context e = k) log = []) as ->; [|done].
    destruct (filter _ log) as [|e l] eqn:E; [done|].
    assert (e ∈ filter (λ e, ev_context e = k) log) as He by (rewrite E; left).
    apply list_elem_of_filter in He as [Ek He]. rewrite Forall_forall in Hb.
    destruct (Hb e He) as (c & Hc & _). apply lookup_lt_Some in Hc. lia.
Qed.

Lemma raise_returned v f below : returned (f :: below) (raise v (f :: below)) = false.
Proof.
  assert (Hr : ∀ frames, match raise v frames with Running fs => (length fs < length frames)%nat | Crashed _ => True end).
  { induction frames as [|g frames IH]; [done|]. cbn [raise]. destruct (fr_try g); [cbn; lia|].
    destruct (raise v frames); cbn; [lia|done]. }
  specialize (Hr (f :: below)). unfold returned. destruct (raise v (f :: below)); [|done]. apply Nat.leb_gt. lia.
Qed.

Lemma same_scope_spec left right : tenantScopesEqual left right = true ↔ same_scope left right.
Proof. apply tenantScopesEqual_spec. Qed.

(** A hook under the store [s]: it throws and nothing changes, or the read belongs to the
    scope and is recorded; without a scope it does nothing. *)
Lemma hook_log h log f below rest operation a (m : outcome TenantIsolationViolation contexts) :
  let event k := {| ev_context := k; ev_operation := operation; ev_access := a |} in
  log_ok h log → (∀ i, fr_store f = Some i → (i < length h)%nat) → (∀ k, is_read (event k)) →
  (∀ h', m = Ok h' → h' = push_to operation h (fr_store f) ∧
    ∀ k ctx, fr_store f = Some k → h !! k = Some ctx → belongs (tc_scope ctx) a) →
  let r := match m with Ok h' => (h', Running (rest :: below)) | Throw v => (h, raise v (f :: below)) end in
  log_ok r.1 (log ++ (if returned (f :: below) r.2 then option_list (event <$> fr_store f) else [])).
Proof.
  intros event Hl Hlive Hread Hm. destruct m as [h'|v]; cbn [fst snd].
  - destruct (Hm h' eq_refl) as [-> Hb]. unfold returned. cbn [length]. rewrite Nat.leb_refl.
    destruct (fr_store f) as [k|]; cbn [fmap option_fmap option_map option_list]; [|by rewrite app_nil_r].
    destruct (lookup_lt_is_Some_2 h k (Hlive k eq_refl)) as [ctx Hk].
    apply (log_read h log k ctx); [done|done|by apply (Hb k)|apply Hread].
  - rewrite raise_returned, app_nil_r. done.
Qed.

Lemma getStore_live h s : (∀ i, s = Some i → (i < length h)%nat) → getStore h s = None → s = None.
Proof.
  intros Hlive Hg. destruct s as [i|]; [|done]. cbn in Hg. apply lookup_ge_None in Hg. specialize (Hlive i eq_refl). lia.
Qed.

Lemma flow_step_log h log frames r :
  log_ok h log → frames_ok (length h) frames → flow_step h frames = Some r →
  log_ok r.1.1 (log ++ let_through frames r.1.2).
Proof.
  intros Hl Hf Hst. destruct frames as [|[s c t] below]; [done|]. injection Hst as <-.
  pose proof (Forall_inv (fo_live _ _ Hf)) as Hlive. cbn [fr_store] in Hlive.
  pose proof (getStore_live h s Hlive) as Hnone. pose proof (app_nil_r log) as Hnil.
  destruct c as [|op sc rest|op id rest|op rest|sc body rest|body rest|body rest]; cbn [let_through fr_code fr_store].
  - case_match; by rewrite Hnil.
  - pose proof (hook_log h log {| fr_store := s; fr_code := StoreRead op sc rest; fr_try := t |} below
      {| fr_store := s; fr_code := rest; fr_try := t |} op (of_scope sc) (recordPersistentStoreRead op sc h s) Hl Hlive) as Hh.
    cbn [fr_store] in Hh. destruct (recordPersistentStoreRead op sc h s) as [h'|v] eqn:E; apply Hh; try done.
    unfold recordPersistentStoreRead, assertTenantScope in E. intros ? [= <-]. destruct (getStore h s) as [ctx|] eqn:Eg.
    + apply outcome_then_Ok in E as [Eq%guard_throw_Ok%negb_false_iff%same_scope_spec [= <-]]. split; [done|].
      intros k ctx' -> Hk. cbn in Eg. by assert (ctx' = ctx) as -> by congruence.
    + injection E as <-. rewrite (Hnone eq_refl). by split.
  - pose proof (hook_log h log {| fr_store := s; fr_code := TenantIdRead op id rest; fr_try := t |} below
      {| fr_store := s; fr_code := rest; fr_try := t |} op (of_tenant id) (recordTenantIdRead op id h s) Hl Hlive) as Hh.
    cbn [fr_store] in Hh. destruct (recordTenantIdRead op id h s) as [h'|v] eqn:E; apply Hh; try done.
    unfold recordTenantIdRead in E. intros ? [= <-]. destruct (getStore h s) as [ctx|] eqn:Eg.
    + case_bool_decide as Eid; [done|]. injection E as <-. split; [done|].
      intros k ctx' -> Hk. cbn in Eg. by assert (ctx' = ctx) as -> by congruence.
    + injection E as <-. rewrite (Hnone eq_refl). by split.
  - apply (hook_log h log {| fr_store := s; fr_code := ActiveRead op rest; fr_try := t |} below
      {| fr_store := s; fr_code := rest; fr_try := t |} op of_run_directory (Ok (recordActiveTenantRead op h s)) Hl Hlive); [done|].
    intros ? [= <-]. split; [|done]. unfold recordActiveTenantRead. destruct (getStore h s) eqn:Eg; [done|]. by rewrite (Hnone eq_refl).
  - unfold withTenantScope. destruct (getStore h s) as [ctx|] eqn:Eg.
    + destruct (tenantScopesEqual (tc_scope ctx) sc) eqn:Es; cbn [negb fst snd].
      * unfold returned. cbn [length]. rewrite (proj2 (Nat.leb_le _ _)) by lia.
        destruct s as [k|]; [|done]. apply (log_body h log k ctx); [done|exact Eg|by apply same_scope_spec].
      * pose proof (raise_returned {| tv_operation := "withTenantScope"; tv_expected := tc_scope ctx; tv_actual := sc |}
          {| fr_store := s; fr_code := WithScope sc body rest; fr_try := t |} below) as Er.
        unfold raise in *. fold raise in *. cbn [fr_try] in *. by rewrite Er, Hnil.
    + cbn [fst snd]. unfold returned. cbn [length]. rewrite (proj2 (Nat.leb_le _ _)) by lia.
      eapply log_body; [by apply log_new_context|by apply list_lookup_middle|done].
  - case_match; by rewrite Hnil.
  - case_match; by rewrite Hnil.
Qed.

Lemma observed_ok programs p log :
  rtc observed_step (start programs, []) (p, log) → process_ok p ∧ log_ok (pr_contexts p) log.
Proof.
  intros Hr. change p with (p, log).1. change log with (p, log).2 at 3.
  assert (H0 : process_ok (start programs, @nil event).1 ∧ log_ok (pr_contexts (start programs, @nil event).1) (start programs, @nil event).2).
  { split; [apply start_ok|]. split; [constructor|]. done. }
  revert H0. induction Hr as [|x y z Hs _ IH]; [done|]. intros [Hp Hl]. apply IH. clear IH.
  destruct Hs as [h flows i frames h' f' spawned l Hi Hs]. cbn [fst snd] in *. split.
  - eapply process_step_ok; [exact Hp|]. by econstructor.
  - eapply (flow_step_log h l frames (h', f', spawned)); [done| |done]. exact (Forall_lookup_1 _ _ _ _ (po_flows _ Hp) Hi).
Qed.

(** ** Properties of the guard *)

Lemma attest_reads_numbered scope i reads :
  Forall (λ r, tr_scope r = scope) reads →
  tr_sequence <$> reads = seqZ i (Z.of_nat (length reads)) →
  attest_reads scope i reads = Ok reads.
Proof.
  revert i; induction reads as [|r reads IH]; intros i; [done|].
  intros [Hr Hrs]%Forall_cons. cbn [length fmap list_fmap].
  rewrite Nat2Z.inj_succ, seqZ_cons by lia. intros [= Hi Hq].
  simpl. rewrite Hr, bool_decide_eq_false_2 by naive_solver.
  rewrite IH by (try done; rewrite Hq; f_equal; lia). simpl.
  destruct r as [op sc n]. simpl in *. by subst.
Qed.

(** C31. Whatever the programs do, however their flows interleave and whether or not
    they catch violations: all that a flow under a context is let through to do belongs
    to the scope of the context (a store read under a scope, a read for a tenant id, a
    body opened for a scope), and the attestation of the context is built for its scope
    and lists exactly these reads, in their order, numbered from 0. *)
Theorem tenant_reads_attested `{JsonDigest} programs p log k ctx jobId generatedAt :
  rtc observed_step (start programs, []) (p, log) → pr_contexts p !! k = Some ctx →
  Forall (λ e, ev_context e = k → belongs (tc_scope ctx) (ev_access e)) log ∧
  ∃ a, buildTenantIsolationAttestation jobId generatedAt (tc_scope ctx) (tc_reads ctx) = Ok a ∧
       ta_tenantScope a = tc_scope ctx ∧
       ta_persistentStoreReads a =
         imap (λ i e, {| tr_operation := ev_operation e; tr_scope := tc_scope ctx; tr_sequence := Z.of_nat i |})
              (reads_under k log) ∧
       ta_readCount a = Z.of_nat (length (reads_under k log)).
Proof.
  intros [Hp [Hb Hr]]%observed_ok Hk. split.
  { eapply Forall_impl; [exact Hb|]. intros e (c & Hc & Hbe) <-. by assert (ctx = c) as -> by congruence. }
  destruct (Forall_lookup_1 _ _ _ _ (po_contexts _ Hp) Hk) as [Hs Hq Hn]. specialize (Hr k ctx Hk).
  assert (Elen : length (reads_under k log) = length (tc_reads ctx)) by (apply (f_equal length) in Hr; by rewrite !length_fmap in Hr).
  unfold buildTenantIsolationAttestation. rewrite js_sort_id by (apply StronglySorted_on; rewrite Hq; apply seqZ_sorted).
  rewrite attest_reads_numbered by done. eexists. split; [reflexivity|]. cbn [ta_tenantScope ta_persistentStoreReads ta_readCount].
  split; [done|]. split; [|by rewrite Elen]. apply list_eq. intros i. rewrite list_lookup_imap.
  assert (Hri : tr_operation <$> tc_reads ctx !! i = ev_operation <$> reads_under k log !! i) by by rewrite <- !list_lookup_fmap, Hr.
  assert (Hqi : tr_sequence <$> tc_reads ctx !! i = seqZ 0 (Z.of_nat (length (tc_reads ctx))) !! i) by by rewrite <- list_lookup_fmap, Hq.
  destruct (tc_reads ctx !! i) as [[op sc n]|] eqn:Ei; destruct (reads_under k log !! i) as [e|] eqn:Ee; try done.
  cbn [fmap option_fmap option_map tr_operation tr_sequence] in *. apply lookup_lt_Some in Ei as Hi. rewrite lookup_seqZ_lt in Hqi by lia.
  pose proof (Forall_lookup_1 _ _ _ _ Hs Ei) as Esc. cbn in Esc. subst sc.
  do 2 f_equal; [congruence|]. injection Hqi as ->. lia.
Qed.

Lemma nested_same frames f g a b :
  StronglySorted nested frames → f ∈ frames → g ∈ frames →
  fr_store f = Some a → fr_store g = Some b → a = b.
Proof.
  intros Hs Hf Hg Ea Eb. induction Hs as [|k frames Hs IH Hk]; [by apply not_elem_of_nil in Hf|].
  rewrite Forall_forall in Hk. unfold nested in Hk.
  apply elem_of_cons in Hf as [->|Hf], Hg as [->|Hg].
  - congruence.
  - destruct (Hk g Hg); congruence.
  - destruct (Hk f Hf); congruence.
  - by apply IH.
Qed.

(** A flow never has two tenants at once: all the frames of a flow that are
    under a scope share one context, and a store read through any of them either
    belongs to its scope and is recorded, or throws. *)
Theorem flow_reads_one_tenant programs p i frames f g a b :
  rtc process_step (start programs) p → pr_flows p !! i = Some (Running frames) →
  f ∈ frames → g ∈ frames → fr_store f = Some a → fr_store g = Some b →
  a = b ∧ ∃ ctx, getStore (pr_contexts p) (Some a) = Some ctx ∧
    ∀ operation scope,
      recordPersistentStoreRead operation scope (pr_contexts p) (Some a) =
      if tenantScopesEqual (tc_scope ctx) scope
      then Ok (push_to operation (pr_contexts p) (Some a))
      else Throw {| tv_operation := operation; tv_expected := tc_scope ctx; tv_actual := scope |}.
Proof.
  intros [_ Hfl]%reachable_ok Hi Hf Hg Ea Eb.
  destruct (Forall_lookup_1 _ _ _ _ Hfl Hi) as [Hs Hl].
  split; [exact (nested_same _ _ _ _ _ Hs Hf Hg Ea Eb)|].
  rewrite Forall_forall in Hl. destruct (lookup_lt_is_Some_2 (pr_contexts p) a) as [ctx Hctx];
    [by apply (Hl f)|].
  assert (getStore (pr_contexts p) (Some a) = Some ctx) as Hst by exact Hctx.
  exists ctx. split; [done|]. intros operation scope. unfold recordPersistentStoreRead.
  rewrite Hst. unfold assertTenantScope, guard_throw. by destruct (tenantScopesEqual _ _).
Qed.

(** A flow that no [try] protects ends at a read of another tenant's store, and
    the read is not recorded. *)
Lemma foreign_read_crashes h s ctx operation scope rest t below :
  getStore h s = Some ctx → tenantScopesEqual (tc_scope ctx) scope = false →
  t = false → Forall (λ f, fr_try f = false) below →
  flow_step h ({| fr_store := s; fr_code := StoreRead operation scope rest; fr_try := t |} :: below) =
  Some (h, Crashed {| tv_operation := operation; tv_expected := tc_scope ctx; tv_actual := scope |}, None).
Proof.
  intros Hg Hne -> Hb. simpl. unfold recordPersistentStoreRead, assertTenantScope.
  rewrite Hg, Hne. simpl. do 3 f_equal. induction Hb as [|f below E _ IH]; simpl; [done|]. by rewrite E.
Qed.

(** ** Properties of attestations *)

Definition as_scope (v : json) : option TenantScope :=
  tenantId ← req "tenantId" as_string v; environmentId ← req "environmentId" as_string v;
  projectId ← opt "projectId" as_string v;
  Some {| ts_tenantId := tenantId; ts_environmentId := environmentId; ts_projectId := projectId |}.

Lemma scope_typed s : as_scope (canonicalJson (scope_json s)) = Some s.
Proof.
  unfold as_scope, scope_json. do 2 typed_req JString. typed_opt JString. by destruct s.
Qed.

Definition as_read (v : json) : option TenantIsolationReadEntry :=
  operation ← req "operation" as_string v; scope ← req "scope" as_scope v;
  sequence ← req "sequence" as_integer v;
  Some {| tr_operation := operation; tr_scope := scope; tr_sequence := sequence |}.

Lemma read_typed r : as_read (canonicalJson (read_json r)) = Some r.
Proof.
  unfold as_read, read_json. typed_req JString. typed_req scope_json; [|apply scope_typed].
  typed_req Json.jint; [|apply as_integer_jint]. by destruct r.
Qed.

Definition as_payload (v : json) : option (TenantScope * list TenantIsolationReadEntry) :=
  scope ← req "tenantScope" as_scope v;
  reads ← req "persistentStoreReads" (as_array as_read) v; Some (scope, reads).

Lemma payload_typed x : as_payload (canonicalJson (attestation_payload x.1 x.2)) = Some x.
Proof.
  destruct x as [scope reads]. unfold as_payload, attestation_payload. cbn [fst snd].
  typed_req scope_json; [|apply scope_typed].
  typed_req (λ l, JArray (read_json <$> l)); [|apply as_array_canonical; intros; apply read_typed].
  done.
Qed.

Lemma attest_reads_Ok scope i reads out :
  attest_reads scope i reads = Ok out →
  Forall (λ r, ts_tenantId (tr_scope r) = ts_tenantId scope) reads ∧
  out = imap (λ k r, {| tr_operation := tr_operation r; tr_scope := tr_scope r;
                        tr_sequence := i + Z.of_nat k |}) reads.
Proof.
  revert i out; induction reads as [|r reads IH]; intros i out; simpl; [by intros [= <-]|].
  case_bool_decide as Hr; [done|]. intros H. apply outcome_bind_Ok in H. destruct H as (out' & Ho & H). injection H as <-.
  apply IH in Ho as [Hrs ->]. split; [by constructor|].
  simpl. f_equal; [f_equal; lia|]. apply imap_ext. intros k x _. simpl. f_equal. lia.
Qed.

Lemma attest_reads_accepts scope i reads :
  (∃ out, attest_reads scope i reads = Ok out) ↔
  Forall (λ r, ts_tenantId (tr_scope r) = ts_tenantId scope) reads.
Proof.
  split; [by intros [out [? _]%attest_reads_Ok]|].
  intros Hr. revert i; induction Hr as [|r reads Hr Hrs IH]; intros i; simpl; [by eexists|].
  rewrite bool_decide_eq_false_2 by (by intros []).
  destruct (IH (i + 1)) as [out ->]. by eexists.
Qed.

(** An attestation commits to its contents: it is refused exactly when some
    read belongs to another tenant id, the order in which reads with different
    numbers are given does not matter, and two attestations with one digest have
    the same scope and the same reads, unless the digest collides. *)
Theorem attestation_commits `{JsonDigest} job1 job2 at1 at2 s1 s2 reads1 reads2 :
  ((∃ a, buildTenantIsolationAttestation job1 at1 s1 reads1 = Ok a) ↔
   Forall (λ r, ts_tenantId (tr_scope r) = ts_tenantId s1) reads1) ∧
  (NoDup (tr_sequence <$> reads1) → reads1 ≡ₚ reads2 →
   buildTenantIsolationAttestation job1 at1 s1 reads1 =
   buildTenantIsolationAttestation job1 at1 s1 reads2) ∧
  (∀ a1 a2, buildTenantIsolationAttestation job1 at1 s1 reads1 = Ok a1 →
            buildTenantIsolationAttestation job2 at2 s2 reads2 = Ok a2 →
            ta_attestationSha256 a1 = ta_attestationSha256 a2 →
            (s1 = s2 ∧ ta_persistentStoreReads a1 = ta_persistentStoreReads a2) ∨
            digest_collision).
Proof.
  unfold buildTenantIsolationAttestation. split_all.
  - rewrite <- (Forall_Permutation _ _ (reflexivity _) (js_sort by_sequence reads1)),
      <- (attest_reads_accepts s1 0) by apply js_sort_Permutation.
    split; [intros [a H1]; apply outcome_bind_Ok in H1 as (o & Ho & _); by exists o|].
    intros [o ->]. by eexists.
  - intros Hnd Hp.
    by rewrite (js_sort_perm_keys tr_sequence Z.compare reads1 reads2 Hp Hnd : js_sort by_sequence _ = _).
  - intros a1 a2 H1 H2. apply outcome_bind_Ok in H1 as (o1 & _ & H1), H2 as (o2 & _ & H2).
    injection H1 as <-. injection H2 as <-. simpl. intros E.
    destruct (sha256Hex_json_inj (λ x, attestation_payload x.1 x.2) as_payload (s1, o1) (s2, o2)
      payload_typed E) as [[= -> ->]|Hc]; [by left|by right].
Qed.

(** ** Witnesses *)

Definition acme_prod : TenantScope :=
  {| ts_tenantId := "acme"; ts_environmentId := "prod"; ts_projectId := None |}.
Definition acme_prod_default : TenantScope :=
  {| ts_tenantId := "acme"; ts_environmentId := "prod"; ts_projectId := Some "default" |}.
Definition globex_prod : TenantScope :=
  {| ts_tenantId := "globex"; ts_environmentId := "prod"; ts_projectId := None |}.

Lemma scope_directories_agree_witness :
  scope_path ["acme"; "prod"; "default"] = "acme/prod/default" ∧
  tenantScopesEqual acme_prod acme_prod_default = true ∧
  tenantScopesEqual acme_prod globex_prod = false ∧
  ¬ (split_on "/"%char "acme/prod/default" `prefix_of` split_on "/"%char "globex/prod/default").
Proof.
  split; [reflexivity|]. split.
  - apply (scope_directories_agree acme_prod acme_prod_default
      ["acme"; "prod"; "default"] ["acme"; "prod"; "default"]); [reflexivity..|by right].
  - split; [reflexivity|]. intros Hp.
    assert (tenantScopesEqual acme_prod globex_prod = true) as E; [|vm_compute in E; discriminate].
    apply (scope_directories_agree acme_prod globex_prod
      ["acme"; "prod"; "default"] ["globex"; "prod"; "default"]); [reflexivity..|by left].
Defined.

(** One flow reads under two nested scopes of one tenant and starts another flow;
    a second flow works for another tenant and catches its foreign read. *)
Definition two_tenants : list code :=
  [WithScope acme_prod
     (StoreRead "cache.lookup" acme_prod
        (Spawn (ActiveRead "lessons" Return)
           (WithScope acme_prod_default (TenantIdRead "baseline" "acme" Return) Return))) Return;
   WithScope globex_prod (TryCatch (StoreRead "cache.lookup" acme_prod Return)
                            (ActiveRead "lessons" Return)) Return].

(** Runs the flows named by the schedule, one call each. *)
Fixpoint run_flows (schedule : list nat) (p : process) : option process :=
  match schedule with
  | [] => Some p
  | i :: rest =>
      f ← pr_flows p !! i;
      match f with
      | Crashed _ => None
      | Running frames =>
          r ← flow_step (pr_contexts p) frames;
          run_flows rest {| pr_contexts := r.1.1;
                            pr_flows := <[i := r.1.2]> (pr_flows p) ++ option_list r.2 |}
      end
  end.

Lemma run_flows_steps schedule p p' : run_flows schedule p = Some p' → rtc process_step p p'.
Proof.
  revert p; induction schedule as [|i schedule IH]; intros p; simpl; [by intros [= ->]|].
  destruct (pr_flows p !! i) as [[frames|]|] eqn:Ei; simpl; [|done..].
  destruct (flow_step (pr_contexts p) frames) as [[[h' f'] spawned]|] eqn:Es; simpl; [|done].
  intros Hr. eapply rtc_l; [|by apply IH]. destruct p as [h flows]. by econstructor.
Qed.

Definition two_tenants_run : process :=
  default (start two_tenants) (run_flows [0; 1; 0; 1; 0; 1; 2; 1; 0; 0]%nat (start two_tenants)).

(** The same run with what its flows were let through to do. *)
Fixpoint observe_flows (schedule : list nat) (st : process * list event) : option (process * list event) :=
  match schedule with
  | [] => Some st
  | i :: rest =>
      f ← pr_flows st.1 !! i;
      match f with
      | Crashed _ => None
      | Running frames =>
          r ← flow_step (pr_contexts st.1) frames;
          observe_flows rest ({| pr_contexts := r.1.1; pr_flows := <[i := r.1.2]> (pr_flows st.1) ++ option_list r.2 |},
                              st.2 ++ let_through frames r.1.2)
      end
  end.

Lemma observe_flows_steps schedule st st' : observe_flows schedule st = Some st' → rtc observed_step st st'.
Proof.
  revert st; induction schedule as [|i schedule IH]; intros [p log]; simpl; [by intros [= ->]|].
  destruct (pr_flows p !! i) as [[frames|]|] eqn:Ei; simpl; [|done..].
  destruct (flow_step (pr_contexts p) frames) as [[[h' f'] spawned]|] eqn:Es; simpl; [|done].
  intros Hr. eapply rtc_l; [|by apply IH]. destruct p as [h flows]. by econstructor.
Qed.

Definition two_tenants_observed : process * list event :=
  default (start two_tenants, []) (observe_flows [0; 1; 0; 1; 0; 1; 2; 1; 0; 0]%nat (start two_tenants, [])).

Lemma two_tenants_reachable : rtc process_step (start two_tenants) two_tenants_run.
Proof. apply (run_flows_steps [0; 1; 0; 1; 0; 1; 2; 1; 0; 0]%nat). vm_compute. reflexivity. Qed.

Lemma tenant_reads_attested_witness :
  ∃ ctx a, pr_contexts two_tenants_observed.1 !! 0%nat = Some ctx ∧
    @buildTenantIsolationAttestation zero_digest "job" "now" (tc_scope ctx) (tc_reads ctx) = Ok a ∧
    ta_readCount a = 3 ∧ ev_operation <$> two_tenants_observed.2 =
      ["withTenantScope"; "withTenantScope"; "cache.lookup"; "lessons"; "lessons"; "withTenantScope"; "baseline"].
Proof.
  assert (∃ ctx, pr_contexts two_tenants_observed.1 !! 0%nat = Some ctx) as [ctx Hctx] by (vm_compute; by eexists).
  assert (rtc observed_step (start two_tenants, []) (two_tenants_observed.1, two_tenants_observed.2)) as Hrun
    by (apply (observe_flows_steps [0; 1; 0; 1; 0; 1; 2; 1; 0; 0]%nat); vm_compute; reflexivity).
  destruct (@tenant_reads_attested zero_digest two_tenants _ _ 0 ctx "job" "now" Hrun Hctx) as (_ & a & Ha & _ & _ & Hn).
  exists ctx, a. split; [exact Hctx|]. split; [exact Ha|]. split; [rewrite Hn; vm_compute; reflexivity|].
  vm_compute. reflexivity.
Defined.

Lemma flow_reads_one_tenant_witness :
  ∃ frames f g ctx, pr_flows two_tenants_run !! 0%nat = Some (Running frames) ∧
    f ∈ frames ∧ g ∈ frames ∧ fr_store f = Some 0%nat ∧ fr_store g = Some 0%nat ∧
    getStore (pr_contexts two_tenants_run) (Some 0%nat) = Some ctx ∧
    ¬ is_Some (match recordPersistentStoreRead "x" globex_prod (pr_contexts two_tenants_run) (Some 0%nat)
               with Ok h => Some h | Throw _ => None end).
Proof.
  set (f := {| fr_store := Some 0%nat; fr_code := Return; fr_try := false |}).
  set (frames := [f; f; {| fr_store := None; fr_code := Return; fr_try := false |}]).
  assert (pr_flows two_tenants_run !! 0%nat = Some (Running frames)) as Hi by (vm_compute; reflexivity).
  assert (f ∈ frames) as Hf by constructor.
  destruct (flow_reads_one_tenant two_tenants two_tenants_run 0 frames f f 0 0
    two_tenants_reachable Hi Hf Hf eq_refl eq_refl) as (_ & ctx & Hctx & Hr).
  exists frames, f, f, ctx. split; [exact Hi|]. split; [exact Hf|]. split; [exact Hf|].
  split; [reflexivity|]. split; [reflexivity|]. split; [exact Hctx|].
  rewrite Hr. assert (tc_scope ctx = acme_prod) as -> by (vm_compute in Hctx; injection Hctx as <-; reflexivity).
  vm_compute. intros [h Hh]. discriminate.
Defined.

Lemma attestation_commits_witness :
  @buildTenantIsolationAttestation zero_digest "job" "now" acme_prod
    [{| tr_operation := "b"; tr_scope := acme_prod; tr_sequence := 1 |};
     {| tr_operation := "a"; tr_scope := acme_prod; tr_sequence := 0 |}] =
  @buildTenantIsolationAttestation zero_digest "job" "now" acme_prod
    [{| tr_operation := "a"; tr_scope := acme_prod; tr_sequence := 0 |};
     {| tr_operation := "b"; tr_scope := acme_prod; tr_sequence := 1 |}].
Proof.
  apply (@attestation_commits zero_digest "job" "job" "now" "now" acme_prod acme_prod).
  - repeat constructor; vm_compute; set_solver.
  - constructor.
Defined.
