(* ===== verification/TenantProof.v ===== *)
(** * The tenant-isolation proof artifact

    [packages/tenant/src/tenant-isolation-proof.ts]: the storage paths of two
    tenants, the commitments to tenant scopes, the table of worked witnesses and
    the evidence of penetration tests. The constant prose sections of the artifact
    and the digest over them are left out. The paths are built with [posix.join]
    of node:path ([NodePath]). *)

From Stdlib Require Import Ascii.
From S2P Require Import Prelude JsString NodePath JsList JsValue CanonicalJson JsonView Tenant.

(** ** Checks *)

Inductive ProofError : Type :=
| bad_cache_key_digest (digest : string)
| bad_generated_at (value : string)
| bad_segment (e : SegmentError)
| too_few_scopes
| no_cache_keys
| no_distinct_pair
| equivalent_scopes
| no_attempts.

(** [ISO_RE] *)
Definition is_iso_millis (value : string) : bool :=
  bool_decide (match_classes (date_time_classes ++ [lit "."; is_decimal_digit; is_decimal_digit; is_decimal_digit; lit "Z"])
                 value = Some "").

Definition assertCacheKeyDigest (digest : string) : outcome ProofError unit :=
  guard_throw (negb (isHex64 digest)) (bad_cache_key_digest digest).

Definition assertIsoTimestamp (value : string) : outcome ProofError unit :=
  guard_throw (negb (is_iso_millis value)) (bad_generated_at value).

Definition scopesAreEquivalent (a b : TenantScope) : bool :=
  bool_decide (ts_tenantId a = ts_tenantId b)
  && bool_decide (ts_environmentId a = ts_environmentId b)
  && bool_decide (default "default" (ts_projectId a) = default "default" (ts_projectId b)).

Definition segments_of (scope : TenantScope) : outcome ProofError (list string) :=
  match resolveTenantScopeSegments scope with Ok g => Ok g | Throw e => Throw (bad_segment e) end.

(** ** Commitments *)

Definition commitment_json (segments : list string) : json :=
  JObject (Json.literal
    [("tenantId", JString <$> segments !! 0%nat); ("environmentId", JString <$> segments !! 1%nat);
     ("projectId", JString <$> segments !! 2%nat)]).

Definition computeTenantCommitmentSha256 `{JsonDigest} (scope : TenantScope) :
    outcome ProofError string :=
  (let* segments := segments_of scope in Ok (sha256Hex_json (commitment_json segments)))%outcome.

Record TenantCommitment := { tcm_tenantScope : TenantScope; tcm_commitmentSha256 : string }.

(** ** Witnesses *)

Record PreImageDistinctnessWitness := {
  pw_cacheKeyLabel : string;
  pw_cacheKeyDigest : string;
  pw_scopeA : TenantScope;
  pw_pathA : string;
  pw_scopeB : TenantScope;
  pw_pathB : string;
  pw_differingSegmentIndex : Z;
}.

(** The path [createPersistentReplayCache] gives to a key of a scope. *)
Definition storage_path (rootDir : string) (segments : list string) (digest : string) : string :=
  posix_join (rootDir :: segments ++ [digest +:+ ".json"]).

(** The loop for [differingSegmentIndex]; [-1] when no segment differs. *)
Fixpoint differing_index (i : Z) (aSegments bSegments : list string) : Z :=
  match aSegments, bSegments with
  | a :: aSegments', b :: bSegments' =>
      if bool_decide (a ≠ b) then i else differing_index (i + 1) aSegments' bSegments'
  | _, _ => -1
  end.

Definition buildWitness (a b : TenantScope) (cacheKeyLabel cacheKeyDigest : string) :
    outcome ProofError PreImageDistinctnessWitness :=
  (let* aSegments := segments_of a in
   let* bSegments := segments_of b in
   let differingSegmentIndex := differing_index 0 aSegments bSegments in
   if differingSegmentIndex =? -1 then Throw equivalent_scopes
   else Ok {| pw_cacheKeyLabel := cacheKeyLabel; pw_cacheKeyDigest := cacheKeyDigest;
              pw_scopeA := a; pw_pathA := storage_path "<rootDir>" aSegments cacheKeyDigest;
              pw_scopeB := b; pw_pathB := storage_path "<rootDir>" bSegments cacheKeyDigest;
              pw_differingSegmentIndex := differingSegmentIndex |})%outcome.

Definition compareWitness : PreImageDistinctnessWitness → PreImageDistinctnessWitness → comparison :=
  cmp_then (cmp_on pw_cacheKeyLabel String.compare)
    (cmp_then (cmp_on pw_pathA String.compare) (cmp_on pw_pathB String.compare)).

(** ** The artifact *)

Record cache_key_example := { ck_label : string; ck_digest : string }.

Definition DEFAULT_TENANT_SCOPE_EXAMPLES : list TenantScope :=
  [{| ts_tenantId := "tenant-a"; ts_environmentId := "prod"; ts_projectId := Some "proj-x" |};
   {| ts_tenantId := "tenant-b"; ts_environmentId := "prod"; ts_projectId := Some "proj-x" |};
   {| ts_tenantId := "tenant-a"; ts_environmentId := "staging"; ts_projectId := Some "proj-x" |};
   {| ts_tenantId := "tenant-a"; ts_environmentId := "prod"; ts_projectId := Some "proj-y" |}].

Definition DEFAULT_CACHE_KEY_EXAMPLES : list cache_key_example :=
  [{| ck_label := "fixture-key-alpha";
      ck_digest := "0123456789abcdef0123456789abcdef0123456789abcdef0123456789abcdef" |};
   {| ck_label := "fixture-key-beta";
      ck_digest := "fedcba9876543210fedcba9876543210fedcba9876543210fedcba9876543210" |};
   {| ck_label := "fixture-key-gamma";
      ck_digest := "abcdef0123456789abcdef0123456789abcdef0123456789abcdef0123456789" |}].

(** The pairs [i < j] of the nested loops. *)
Fixpoint later_pairs {A} (xs : list A) : list (A * A) :=
  match xs with [] => [] | x :: rest => ((x,.) <$> rest) ++ later_pairs rest end.

(** The pairs that are not skipped, each with every cache key. *)
Definition witness_inputs (scopes : list TenantScope) (cacheKeys : list cache_key_example) :
    list (TenantScope * TenantScope * cache_key_example) :=
  ab ← filter (λ ab, scopesAreEquivalent ab.1 ab.2 = false) (later_pairs scopes);
  (ab,.) <$> cacheKeys.

(** A loop that appends what its body returns and stops at the first exception. *)
Fixpoint collect {E A B} (f : A → outcome E B) (xs : list A) : outcome E (list B) :=
  match xs with
  | [] => Ok []
  | x :: rest => (let* y := f x in let* ys := collect f rest in Ok (y :: ys))%outcome
  end.

Definition commitment_of `{JsonDigest} (scope : TenantScope) : outcome ProofError TenantCommitment :=
  (let* sha := computeTenantCommitmentSha256 scope in
   Ok {| tcm_tenantScope := scope; tcm_commitmentSha256 := sha |})%outcome.

Definition witness_of (x : TenantScope * TenantScope * cache_key_example) :
    outcome ProofError PreImageDistinctnessWitness :=
  buildWitness x.1.1 x.1.2 (ck_label x.2) (ck_digest x.2).

Record TenantIsolationProof := {
  tp_generatedAt : string;
  tp_tenantCommitments : list TenantCommitment;
  tp_preImageDistinctnessWitnesses : list PreImageDistinctnessWitness;
}.

Definition buildTenantIsolationProof `{JsonDigest} (generatedAt : string)
    (tenantScopes : option (list TenantScope)) (cacheKeyExamples : option (list cache_key_example)) :
    outcome ProofError TenantIsolationProof :=
  let scopes := default DEFAULT_TENANT_SCOPE_EXAMPLES tenantScopes in
  let cacheKeys := default DEFAULT_CACHE_KEY_EXAMPLES cacheKeyExamples in
  (assertIsoTimestamp generatedAt ;;;
   guard_throw (length scopes <? 2)%nat too_few_scopes ;;;
   guard_throw (bool_decide (cacheKeys = [])) no_cache_keys ;;;
   (let* _ := collect (λ example, assertCacheKeyDigest (ck_digest example)) cacheKeys in
    let* tenantCommitments := collect commitment_of scopes in
    let* witnesses := collect witness_of (witness_inputs scopes cacheKeys) in
    guard_throw (bool_decide (length witnesses = 0%nat)) no_distinct_pair ;;;
    Ok {| tp_generatedAt := generatedAt; tp_tenantCommitments := tenantCommitments;
          tp_preImageDistinctnessWitnesses := js_sort compareWitness witnesses |}))%outcome.

(** ** Penetration-test evidence *)

Record TenantIsolationPentestAttempt := {
  pa_scenario : string;
  pa_attackerScope : TenantScope;
  pa_victimScope : TenantScope;
  pa_leaked : bool;
  pa_observation : string;
}.

Record TenantIsolationPentestEvidence := {
  pe_generatedAt : string;
  pe_attempts : list TenantIsolationPentestAttempt;
  pe_totalAttempts : Z;
  pe_leakCount : Z;
  pe_verdict : string;
}.

Definition compareAttempt :
    TenantIsolationPentestAttempt → TenantIsolationPentestAttempt → comparison :=
  cmp_then (cmp_on pa_scenario String.compare)
    (cmp_then (cmp_on (ts_tenantId ∘ pa_attackerScope) String.compare)
       (cmp_on (ts_tenantId ∘ pa_victimScope) String.compare)).

Definition buildTenantIsolationPentestEvidence (generatedAt : string)
    (attempts : list TenantIsolationPentestAttempt) :
    outcome ProofError TenantIsolationPentestEvidence :=
  (assertIsoTimestamp generatedAt ;;;
   guard_throw (bool_decide (length attempts = 0%nat)) no_attempts ;;;
   let sorted := js_sort compareAttempt attempts in
   let leakCount := foldl (λ n a, n + (if pa_leaked a then 1 else 0)) 0 sorted in
   Ok {| pe_generatedAt := generatedAt; pe_attempts := sorted;
         pe_totalAttempts := Z.of_nat (length sorted); pe_leakCount := leakCount;
         pe_verdict := if leakCount =? 0 then "pass" else "fail" |})%outcome.

(** [TenantIsolationLeakageDetected], with the count it carries. *)
Definition assertTenantIsolationPentestPasses (evidence : TenantIsolationPentestEvidence) :
    outcome Z unit :=
  guard_throw (negb (pe_leakCount evidence =? 0)) (pe_leakCount evidence).

(** ** File names of cache entries *)

Lemma entry_file_proper digest : isHex64 digest = true → proper_component (digest +:+ ".json").
Proof.
  intros [Hl Hc]%andb_true_iff. apply Nat.eqb_eq in Hl.
  assert (String.length (digest +:+ ".json") = 69%nat) as Hlen by (rewrite length_string_app, Hl; done).
  split; try (by intros E; rewrite E in Hlen);
    (rewrite has_char_app, (all_chars_has_char is_hex_digit) by done; done).
Qed.

Lemma entry_components segments digest :
  Forall proper_component segments → isHex64 digest = true →
  Forall proper_component (segments ++ [digest +:+ ".json"]).
Proof.
  intros Hs Hd. apply Forall_app. split; [done|]. constructor; [|done]. by apply entry_file_proper.
Qed.

Lemma snoc_nonempty {A} (l : list A) x : l ++ [x] ≠ [].
Proof. by destruct l. Qed.

#[export] Hint Resolve entry_components snoc_nonempty : js.

Lemma storage_path_inj root s1 s2 g1 g2 d1 d2 :
  rooted root →
  resolveTenantScopeSegments s1 = Ok g1 → resolveTenantScopeSegments s2 = Ok g2 →
  isHex64 d1 = true → isHex64 d2 = true →
  storage_path root g1 d1 = storage_path root g2 d2 ↔ scopesAreEquivalent s1 s2 = true ∧ d1 = d2.
Proof.
  intros Hr H1 H2 Hd1 Hd2. pose proof (resolved_segments_equal _ _ _ _ H1 H2) as Heq.
  change (scopesAreEquivalent s1 s2 = true) with (s1 ≡ s2). rewrite <- Heq.
  apply resolveTenantScopeSegments_Ok in H1 as [_ P1], H2 as [_ P2].
  split; [|by intros [-> ->]]. intros E%posix_join_rooted_inj; [|auto with js..].
  apply app_inj_tail in E as [-> E]. split; [done|]. by apply string_app_inj_r in E.
Qed.

(** Cross-tenant pre-image distinctness, the claim of the artifact: below one
    normalized root directory, absolute or relative, the storage paths of two
    accepted scopes and two cache keys coincide exactly when the scopes are equal
    and the keys have the same digest. *)
Theorem storage_paths_distinct root s1 s2 g1 g2 d1 d2 :
  rooted root →
  resolveTenantScopeSegments s1 = Ok g1 → resolveTenantScopeSegments s2 = Ok g2 →
  isHex64 d1 = true → isHex64 d2 = true →
  storage_path root g1 d1 = storage_path root g2 d2 ↔ scopesAreEquivalent s1 s2 = true ∧ d1 = d2.
Proof. apply storage_path_inj. Qed.

(** ** Loops *)

Lemma collect_Ok {E A B} (f : A → outcome E B) xs ys :
  collect f xs = Ok ys ↔ Forall2 (λ x y, f x = Ok y) xs ys.
Proof.
  revert ys; induction xs as [|x xs IH]; intros ys; simpl.
  - split; [intros [= <-]; constructor|]. by intros ->%Forall2_nil_inv_l.
  - rewrite outcome_bind_Ok. setoid_rewrite outcome_bind_Ok. split.
    + intros (y & Hy & ys' & Hys & [= <-]). constructor; [done|by apply IH].
    + intros (y & ys' & Hy & Hys & ->)%Forall2_cons_inv_l.
      exists y. split; [done|]. exists ys'. split; [by apply IH|done].
Qed.

Lemma collect_accepts {E A B} (f : A → outcome E B) xs :
  (∃ ys, collect f xs = Ok ys) ↔ Forall (λ x, ∃ y, f x = Ok y) xs.
Proof.
  split.
  - intros [ys H%collect_Ok]. eapply Forall2_Forall_l; [exact H|].
    apply Forall_forall. intros y _ x Hx. by exists y.
  - induction 1 as [|x xs [y Hy] _ [ys Hys]]; [by exists []|].
    exists (y :: ys). simpl. by rewrite Hy, Hys.
Qed.

Lemma elem_of_witness_inputs scopes cacheKeys a b k :
  (a, b, k) ∈ witness_inputs scopes cacheKeys ↔
  (a, b) ∈ later_pairs scopes ∧ scopesAreEquivalent a b = false ∧ k ∈ cacheKeys.
Proof.
  unfold witness_inputs. rewrite list_elem_of_bind. setoid_rewrite list_elem_of_fmap. split.
  - intros (x & (k' & [= <- <-] & Hk) & Hx). apply list_elem_of_filter in Hx as [He Hx]. done.
  - intros (Hp & He & Hk). exists (a, b). split; [by exists k|]. by apply list_elem_of_filter.
Qed.

Lemma later_pairs_elem {A} (xs : list A) a b : (a, b) ∈ later_pairs xs → a ∈ xs ∧ b ∈ xs.
Proof.
  induction xs as [|x xs IH]; simpl; [by intros ?%not_elem_of_nil|].
  intros [(y & [= -> ->] & Hy)%list_elem_of_fmap|[??]%IH]%elem_of_app;
    split; rewrite elem_of_cons; auto.
Qed.

(** ** Commitments *)

Definition as_commitment (v : json) : option (string * string * string) :=
  tenantId ← req "tenantId" as_string v; environmentId ← req "environmentId" as_string v;
  projectId ← req "projectId" as_string v; Some (tenantId, environmentId, projectId).

Lemma commitment_typed x :
  as_commitment (canonicalJson (commitment_json [x.1.1; x.1.2; x.2])) = Some x.
Proof.
  destruct x as [[t e] p]. unfold as_commitment, commitment_json. cbn [fst snd].
  do 3 typed_req JString. done.
Qed.

Lemma segments_of_Ok scope segments :
  segments_of scope = Ok segments ↔ resolveTenantScopeSegments scope = Ok segments.
Proof. unfold segments_of. destruct (resolveTenantScopeSegments scope); split; congruence. Qed.

(** The commitment of a scope identifies it up to the default project id: equal
    scopes have one commitment, and scopes with one commitment are equal, unless
    the digest collides. *)
Theorem commitment_identifies_scope `{JsonDigest} s1 s2 c1 c2 :
  computeTenantCommitmentSha256 s1 = Ok c1 → computeTenantCommitmentSha256 s2 = Ok c2 →
  (scopesAreEquivalent s1 s2 = true → c1 = c2) ∧
  (c1 = c2 → scopesAreEquivalent s1 s2 = true ∨ digest_collision).
Proof.
  unfold computeTenantCommitmentSha256. intros H1 H2.
  apply outcome_bind_Ok in H1 as (g1 & H1 & E1), H2 as (g2 & H2 & E2).
  apply segments_of_Ok in H1, H2. injection E1 as <-. injection E2 as <-.
  pose proof (resolved_segments_equal _ _ _ _ H1 H2) as Heq.
  change (scopesAreEquivalent s1 s2 = true) with (s1 ≡ s2). rewrite <- Heq.
  split; [by intros ->|]. apply resolveTenantScopeSegments_Ok in H1 as [-> _], H2 as [-> _].
  intros E. destruct (sha256Hex_json_inj (λ x, commitment_json [x.1.1; x.1.2; x.2]) as_commitment
    (ts_tenantId s1, ts_environmentId s1, default "default" (ts_projectId s1))
    (ts_tenantId s2, ts_environmentId s2, default "default" (ts_projectId s2))
    commitment_typed E) as [[= -> -> ->]|?]; [by left|by right].
Qed.

(** ** Witnesses *)

Lemma differing_index_spec i xs ys :
  length xs = length ys →
  (differing_index i xs ys = -1 ∧ xs = ys) ∨
  (∃ n x y, differing_index i xs ys = i + Z.of_nat n ∧ xs !! n = Some x ∧ ys !! n = Some y ∧
            x ≠ y ∧ take n xs = take n ys).
Proof.
  revert i ys; induction xs as [|x xs IH]; intros i [|y ys]; simpl; try done; [by left|].
  intros [= Hl]. case_bool_decide as Hxy.
  - right. exists 0%nat, x, y. simpl. split_all; try done. lia.
  - subst y. destruct (IH (i + 1) ys Hl) as [[-> ->]|(n & x' & y' & -> & H)].
    + by left.
    + right. exists (S n), x', y'. simpl. destruct H as (? & ? & ? & ->). split_all; try done. lia.
Qed.

(** What a witness says of its two scopes. *)
Record witness_ok (a b : TenantScope) (k : cache_key_example) (w : PreImageDistinctnessWitness) :
    Prop := {
  wo_label : pw_cacheKeyLabel w = ck_label k;
  wo_digest : pw_cacheKeyDigest w = ck_digest k;
  wo_scopes : pw_scopeA w = a ∧ pw_scopeB w = b;
  wo_paths : pw_pathA w ≠ pw_pathB w;
  wo_index : ∃ n g1 g2 x y, pw_differingSegmentIndex w = Z.of_nat n ∧ (n < 3)%nat ∧
    resolveTenantScopeSegments a = Ok g1 ∧ resolveTenantScopeSegments b = Ok g2 ∧
    pw_pathA w = "<rootDir>" +:+ ("/" +:+ join "/" (g1 ++ [ck_digest k +:+ ".json"])) ∧
    pw_pathB w = "<rootDir>" +:+ ("/" +:+ join "/" (g2 ++ [ck_digest k +:+ ".json"])) ∧
    g1 !! n = Some x ∧ g2 !! n = Some y ∧ x ≠ y ∧ take n g1 = take n g2;
}.

Lemma root_rooted : rooted "<rootDir>".
Proof. exists ["<rootDir>"]. split; [done|]. split; [by repeat constructor|by left]. Qed.

Lemma storage_path_join root segments digest :
  rooted root → Forall proper_component segments → isHex64 digest = true →
  storage_path root segments digest =
  root +:+ ("/" +:+ join "/" (segments ++ [digest +:+ ".json"])).
Proof. intros. apply posix_join_rooted; auto with js. Qed.

Lemma buildWitness_spec a b k g1 g2 :
  resolveTenantScopeSegments a = Ok g1 → resolveTenantScopeSegments b = Ok g2 →
  isHex64 (ck_digest k) = true → scopesAreEquivalent a b = false →
  ∃ w, buildWitness a b (ck_label k) (ck_digest k) = Ok w ∧ witness_ok a b k w.
Proof.
  intros H1 H2 Hk Hne. unfold buildWitness.
  rewrite (proj2 (segments_of_Ok a g1) H1), (proj2 (segments_of_Ok b g2) H2). simpl.
  pose proof (storage_path_inj "<rootDir>" a b g1 g2 _ _ root_rooted H1 H2 Hk Hk) as Hpath.
  pose proof (resolved_segments_equal _ _ _ _ H1 H2) as Heq.
  pose proof H1 as [L1 P1]%resolveTenantScopeSegments_Ok.
  pose proof H2 as [L2 P2]%resolveTenantScopeSegments_Ok.
  destruct (differing_index_spec 0 g1 g2) as [[_ E]|(n & x & y & -> & Hx & Hy & Hxy & Ht)];
    [by subst|exfalso; apply Heq in E; change (scopesAreEquivalent a b = true) in E; congruence|].
  destruct (Z.eqb_spec (0 + Z.of_nat n) (-1)); [lia|]. eexists. split; [done|].
  split; simpl; [done|done|done|rewrite Hpath, Hne; by intros []|].
  exists n, g1, g2, x, y. rewrite !storage_path_join by (done || apply root_rooted).
  split_all; try done. apply lookup_lt_Some in Hx. by rewrite L1 in Hx.
Qed.

(** ** The artifact *)

Section artifact.
Context `{JsonDigest}.

Lemma build_proof_Ok generatedAt tenantScopes cacheKeyExamples p :
  let scopes := default DEFAULT_TENANT_SCOPE_EXAMPLES tenantScopes in
  let cacheKeys := default DEFAULT_CACHE_KEY_EXAMPLES cacheKeyExamples in
  buildTenantIsolationProof generatedAt tenantScopes cacheKeyExamples = Ok p ↔
  is_iso_millis generatedAt = true ∧ (2 ≤ length scopes)%nat ∧ cacheKeys ≠ [] ∧
  Forall (λ k, isHex64 (ck_digest k) = true) cacheKeys ∧
  ∃ commitments witnesses,
    Forall2 (λ s c, commitment_of s = Ok c) scopes commitments ∧
    Forall2 (λ x w, witness_of x = Ok w) (witness_inputs scopes cacheKeys) witnesses ∧
    length witnesses ≠ 0%nat ∧
    p = {| tp_generatedAt := generatedAt; tp_tenantCommitments := commitments;
           tp_preImageDistinctnessWitnesses := js_sort compareWitness witnesses |}.
Proof.
  intros scopes cacheKeys. unfold buildTenantIsolationProof, assertIsoTimestamp.
  fold scopes. fold cacheKeys.
  assert ((∃ u, collect (λ example, assertCacheKeyDigest (ck_digest example)) cacheKeys = Ok u) ↔
          Forall (λ k, isHex64 (ck_digest k) = true) cacheKeys) as Hdigests.
  { rewrite collect_accepts. apply Forall_iff. intros k. unfold assertCacheKeyDigest.
    destruct (isHex64 (ck_digest k)); simpl; [split; [done|by eexists]|by split; [intros [? ?]|]]. }
  rewrite !outcome_then_Ok, !guard_throw_Ok, negb_false_iff, bool_decide_eq_false, Nat.ltb_ge.
  rewrite <- Hdigests. split.
  - intros (? & ? & ? & Hb). apply outcome_bind_Ok in Hb as (u & Hu & Hb).
    apply outcome_bind_Ok in Hb as (cs & Hcs%collect_Ok & Hb).
    apply outcome_bind_Ok in Hb as (ws & Hws%collect_Ok & Hb).
    apply outcome_then_Ok in Hb as [Hl%guard_throw_Ok%bool_decide_eq_false Hb].
    injection Hb as <-. split_all; try done; [by exists u|]. by exists cs, ws.
  - intros (? & ? & ? & [u ->] & cs & ws & Hcs & Hws & Hl & ->). split_all; try done. simpl.
    rewrite (proj2 (collect_Ok commitment_of _ _) Hcs). simpl.
    rewrite (proj2 (collect_Ok witness_of _ _) Hws). simpl.
    by rewrite bool_decide_eq_false_2.
Qed.

Lemma commitment_of_accepts s : (∃ c, commitment_of s = Ok c) ↔ ∃ g, resolveTenantScopeSegments s = Ok g.
Proof.
  unfold commitment_of, computeTenantCommitmentSha256, segments_of.
  destruct (resolveTenantScopeSegments s); simpl; naive_solver.
Qed.

(** Every pair of distinct scopes has its witness with every cache key. *)
Lemma witnesses_exist scopes cacheKeys :
  Forall (λ s, ∃ g, resolveTenantScopeSegments s = Ok g) scopes →
  Forall (λ k, isHex64 (ck_digest k) = true) cacheKeys →
  Forall (λ x, ∃ w, witness_of x = Ok w ∧ witness_ok x.1.1 x.1.2 x.2 w)
    (witness_inputs scopes cacheKeys).
Proof.
  rewrite !Forall_forall. intros Hs Hk [[a b] k] (Hab & Hne & Hk')%elem_of_witness_inputs.
  apply later_pairs_elem in Hab as [[ga Ha]%Hs [gb Hb]%Hs].
  destruct (buildWitness_spec a b k ga gb Ha Hb (Hk k Hk') Hne) as (w & Hw & Hok). by exists w.
Qed.

(** The artifact is built exactly from a millisecond timestamp, at least two
    acceptable scopes of which some pair is distinct, and at least one cache key,
    all of them digests; it then holds a commitment for every scope and, sorted,
    exactly one witness for every pair of distinct scopes and every cache key,
    each with two different paths that first differ at the reported segment. *)
Theorem isolation_proof_spec generatedAt tenantScopes cacheKeyExamples :
  let scopes := default DEFAULT_TENANT_SCOPE_EXAMPLES tenantScopes in
  let cacheKeys := default DEFAULT_CACHE_KEY_EXAMPLES cacheKeyExamples in
  ((∃ p, buildTenantIsolationProof generatedAt tenantScopes cacheKeyExamples = Ok p) ↔
   is_iso_millis generatedAt = true ∧ (2 ≤ length scopes)%nat ∧ cacheKeys ≠ [] ∧
   Forall (λ k, isHex64 (ck_digest k) = true) cacheKeys ∧
   Forall (λ s, ∃ g, resolveTenantScopeSegments s = Ok g) scopes ∧
   ∃ a b, (a, b) ∈ later_pairs scopes ∧ scopesAreEquivalent a b = false) ∧
  ∀ p, buildTenantIsolationProof generatedAt tenantScopes cacheKeyExamples = Ok p →
    Forall2 (λ s c, tcm_tenantScope c = s ∧ computeTenantCommitmentSha256 s = Ok (tcm_commitmentSha256 c))
      scopes (tp_tenantCommitments p) ∧
    StronglySorted (cmp_le compareWitness) (tp_preImageDistinctnessWitnesses p) ∧
    ∃ ws, tp_preImageDistinctnessWitnesses p ≡ₚ ws ∧
      Forall2 (λ x w, witness_ok x.1.1 x.1.2 x.2 w) (witness_inputs scopes cacheKeys) ws.
Proof.
  intros scopes cacheKeys. pose proof (build_proof_Ok generatedAt tenantScopes cacheKeyExamples) as Hb.
  fold scopes in Hb. fold cacheKeys in Hb. cbv zeta in Hb. split.
  - split.
    + intros [p (H1 & H2 & H3 & H4 & cs & ws & Hcs & Hws & Hl & _)%Hb]. split_all; try done.
      * eapply Forall2_Forall_l; [exact Hcs|]. apply Forall_forall.
        intros c _ s Hc. apply commitment_of_accepts. by exists c.
      * destruct ws as [|w ws]; [done|].
        apply Forall2_cons_inv_r in Hws as ([[a b] k] & xs & _ & _ & Hx).
        destruct (proj1 (elem_of_witness_inputs scopes cacheKeys a b k)) as (Hab & Hne & _);
          [rewrite Hx; constructor|]. by exists a, b.
    + intros (H1 & H2 & H3 & H4 & H5 & a & b & Hab & Hne).
      destruct (proj2 (collect_accepts commitment_of scopes)) as [cs Hcs%collect_Ok];
        [eapply Forall_impl; [exact H5|]; intros s; apply commitment_of_accepts|].
      destruct (proj2 (collect_accepts witness_of (witness_inputs scopes cacheKeys))) as [ws Hws%collect_Ok];
        [eapply Forall_impl; [by apply witnesses_exist|]; intros x (w & ? & _); by exists w|].
      eexists. apply Hb. split_all; try done. exists cs, ws. split_all; try done.
      intros E. apply Forall2_length in Hws. rewrite E in Hws.
      destruct cacheKeys as [|k ks] eqn:Ek; [done|].
      assert ((a, b, k) ∈ witness_inputs scopes (k :: ks)) as Hin
        by (apply elem_of_witness_inputs; split_all; [done|done|constructor]).
      apply length_zero_iff_nil in Hws. rewrite Hws in Hin. by apply not_elem_of_nil in Hin.
  - intros p (H1 & H2 & H3 & H4 & cs & ws & Hcs & Hws & Hl & ->)%Hb. simpl.
    assert (Forall (λ s, ∃ g, resolveTenantScopeSegments s = Ok g) scopes) as H5.
    { eapply Forall2_Forall_l; [exact Hcs|]. apply Forall_forall.
      intros c _ s Hc. apply commitment_of_accepts. by exists c. }
    split_all.
    + eapply Forall2_impl; [exact Hcs|]. intros s c Hc. unfold commitment_of in Hc.
      apply outcome_bind_Ok in Hc as (sha & Hsha & [= <-]). done.
    + apply js_sort_sorted, _.
    + exists ws. split; [apply js_sort_Permutation|].
      pose proof (witnesses_exist _ _ H5 H4) as Hok. revert Hok Hws. clear.
      generalize (witness_inputs scopes cacheKeys). intros xs Hok Hws.
      induction Hws as [|x w xs ws Hw _ IH]; [constructor|].
      apply Forall_cons in Hok as [(w' & Hw' & Hwok) Hok]. constructor; [|by apply IH].
      by assert (w = w') as -> by congruence.
Qed.
End artifact.

(** ** Penetration-test evidence *)

Lemma leak_count_foldl n xs :
  foldl (λ n a, n + (if pa_leaked a then 1 else 0)) n xs =
  n + Z.of_nat (length (filter (λ a, pa_leaked a = true) xs)).
Proof.
  revert n; induction xs as [|x xs IH]; intros n; simpl; [lia|].
  rewrite IH, filter_cons. destruct (pa_leaked x); simpl; lia.
Qed.

(** Evidence contains every attempt, counts them, and passes the gate exactly
    when no attempt leaked, which is also when its verdict is [pass]. *)
Theorem pentest_passes_iff_no_leak generatedAt attempts evidence :
  buildTenantIsolationPentestEvidence generatedAt attempts = Ok evidence →
  pe_attempts evidence ≡ₚ attempts ∧ pe_totalAttempts evidence = Z.of_nat (length attempts) ∧
  (assertTenantIsolationPentestPasses evidence = Ok tt ↔ Forall (λ a, pa_leaked a = false) attempts) ∧
  (pe_verdict evidence = "pass" ↔ assertTenantIsolationPentestPasses evidence = Ok tt).
Proof.
  unfold buildTenantIsolationPentestEvidence. rewrite !outcome_then_Ok.
  intros (_ & _ & [= <-]). simpl. unfold assertTenantIsolationPentestPasses.
  rewrite !guard_throw_Ok, negb_false_iff. simpl. rewrite leak_count_foldl, Z.add_0_l, Z.eqb_eq.
  split_all.
  - apply js_sort_Permutation.
  - by rewrite length_js_sort.
  - rewrite (Permutation_length (filter_Permutation _ _ _ (js_sort_Permutation compareAttempt attempts))).
    induction attempts as [|a attempts IH]; simpl; [done|]. rewrite filter_cons, Forall_cons.
    destruct (pa_leaked a); simpl; [split; [lia|by intros []]|]. rewrite IH. naive_solver.
  - destruct (Z.eqb_spec (Z.of_nat (length (filter (λ a, pa_leaked a = true)
      (js_sort compareAttempt attempts)))) 0); split; congruence || done.
Qed.

(** ** Witnesses *)

Definition alpha_digest : string :=
  "0123456789abcdef0123456789abcdef0123456789abcdef0123456789abcdef".

Lemma storage_paths_distinct_witness :
  storage_path "<rootDir>" ["acme"; "prod"; "default"] alpha_digest ≠
  storage_path "<rootDir>" ["globex"; "prod"; "default"] alpha_digest.
Proof.
  intros E. apply (storage_paths_distinct "<rootDir>" acme_prod globex_prod
    ["acme"; "prod"; "default"] ["globex"; "prod"; "default"] alpha_digest alpha_digest root_rooted)
    in E as [E _]; [vm_compute in E; discriminate|reflexivity..].
Defined.

Lemma commitment_identifies_scope_witness :
  @computeTenantCommitmentSha256 zero_digest acme_prod =
  @computeTenantCommitmentSha256 zero_digest acme_prod_default.
Proof.
  destruct (@computeTenantCommitmentSha256 zero_digest acme_prod) as [c1|] eqn:E1; [|discriminate].
  destruct (@computeTenantCommitmentSha256 zero_digest acme_prod_default) as [c2|] eqn:E2; [|discriminate].
  f_equal. apply (@commitment_identifies_scope zero_digest acme_prod acme_prod_default c1 c2 E1 E2).
  reflexivity.
Defined.

Lemma isolation_proof_spec_witness :
  ∃ p, @buildTenantIsolationProof zero_digest "1970-01-01T00:00:00.000Z" None None = Ok p ∧
       length (tp_preImageDistinctnessWitnesses p) = 18%nat.
Proof.
  destruct (@isolation_proof_spec zero_digest "1970-01-01T00:00:00.000Z" None None) as [_ Hs].
  eexists. split; [vm_compute; reflexivity|].
  destruct (Hs _ eq_refl) as (_ & _ & ws & Hp & Hw).
  apply Permutation_length in Hp. apply Forall2_length in Hw. rewrite <- Hw in Hp.
  etransitivity; [exact Hp|vm_compute; reflexivity].
Defined.

Definition leaky_attempts : list TenantIsolationPentestAttempt :=
  [{| pa_scenario := "lookup"; pa_attackerScope := acme_prod; pa_victimScope := globex_prod;
      pa_leaked := true; pa_observation := "hit" |}].

Lemma pentest_passes_iff_no_leak_witness :
  ∃ evidence,
    buildTenantIsolationPentestEvidence "1970-01-01T00:00:00.000Z" leaky_attempts = Ok evidence ∧
    assertTenantIsolationPentestPasses evidence ≠ Ok tt.
Proof.
  destruct (buildTenantIsolationPentestEvidence "1970-01-01T00:00:00.000Z" leaky_attempts)
    as [evidence|] eqn:E; [|vm_compute in E; discriminate].
  exists evidence. split; [reflexivity|]. intros Hp.
  destruct (pentest_passes_iff_no_leak _ _ _ E) as (_ & _ & Hl & _).
  apply Hl, Forall_inv in Hp.
  vm_compute in Hp. discriminate.
Defined.
