(* ===== verification/AirGap.v ===== *)
(** * The air-gap guard

    [packages/production-runner/src/air-gap-guard.ts]. The environment is a finite
    map; the URL parser is the platform's and a parameter: on a text it gives the
    host name and the serialized URL, or throws. *)

From S2P Require Import Prelude JsString JsList.
From Stdlib Require Import Ascii.

Definition AIR_GAP_MODE_ENV : string := "TEST_INTELLIGENCE_AIR_GAP_MODE".
Definition AIR_GAP_ALLOWED_HOSTS_ENV : string := "TEST_INTELLIGENCE_AIR_GAP_ALLOWED_HOSTS".

Definition env : Type := gmap string string.

Definition truthy (value : option string) : bool :=
  match value with
  | None => false
  | Some value => bool_decide (to_lower (trim value) ∈ ["1"; "true"; "yes"])
  end.

Definition isAirGapModeEnabled (e : env) : bool := truthy (e !! AIR_GAP_MODE_ENV).

Definition readAirGapAllowedHosts (e : env) : list string :=
  match e !! AIR_GAP_ALLOWED_HOSTS_ENV with
  | None => []
  | Some raw => filter (λ entry, entry ≠ "") ((to_lower ∘ trim) <$> split_on ","%char raw)
  end.

(** What [fetch] is called with: a text, a URL object, a request with a [url], or
    anything else. *)
Inductive resource : Type :=
| a_string (s : string)
| a_url (serialized : string)
| a_request (url : string)
| other_value.

(** A class for the platform's URL parser: the host name and the serialization. *)
Class UrlParser := { parse_url : string → option (string * string) }.

Definition href_of (r : resource) : string :=
  match r with a_string s | a_url s | a_request s => s | other_value => "" end.

Definition extractHost `{UrlParser} (r : resource) : option (string * string) :=
  let href := href_of r in
  if bool_decide (href = "") then None
  else if starts_with "data:" href || starts_with "blob:" href then None
  else match parse_url href with
       | Some (hostname, serialized) => Some (to_lower hostname, serialized)
       | None => Some ("", href)
       end.

Inductive AirGapNetworkPolicyError : Type :=
| unparseable_url (url : string)
| host_not_allowed (url host : string) (allowList : list string).

(** The guarded [fetch]: [Ok] forwards the call to the inner implementation. *)
Definition guarded_fetch `{UrlParser} (allowedHosts : option (list string)) (e : env) (r : resource) :
    outcome AirGapNetworkPolicyError resource :=
  let explicitHosts := to_lower <$> default [] allowedHosts in
  if negb (isAirGapModeEnabled e) then Ok r
  else match extractHost r with
       | None => Ok r
       | Some (host, href) =>
           if bool_decide (host = "") then Throw (unparseable_url href)
           else
             let allowList :=
               if (0 <? length explicitHosts)%nat then explicitHosts else readAirGapAllowedHosts e in
             if bool_decide (host ∈ allowList) then Ok r
             else Throw (host_not_allowed href host allowList)
       end.

Definition REMOTE_SCHEMES : list string :=
  ["s3:"; "http:"; "https:"; "gs:"; "azure:"; "az:"; "ftp:"; "ftps:"; "sftp:"; "wasb:"; "wasbs:";
   "abfs:"; "abfss:"].

Inductive AirGapResourceLocationError : Type :=
| empty_location (location : string)
| remote_location (location scheme : string).

(** The loop over the schemes. *)
Fixpoint refuse_schemes (location lowered : string) (schemes : list string) :
    outcome AirGapResourceLocationError unit :=
  match schemes with
  | [] => Ok tt
  | scheme :: rest =>
      if starts_with scheme lowered then Throw (remote_location location scheme)
      else refuse_schemes location lowered rest
  end.

Definition assertLocalFilesystemPath (location : string) (e : env) :
    outcome AirGapResourceLocationError unit :=
  if negb (isAirGapModeEnabled e) then Ok tt
  else
    let trimmed := trim location in
    if bool_decide (trimmed = "") then Throw (empty_location location)
    else refuse_schemes location (to_lower trimmed) REMOTE_SCHEMES.

(** ** Properties *)

(** In air-gap mode the guard fails closed: a request is forwarded exactly when
    it carries no network address (no address at all, or a data: or blob: one) or
    its parsed, lower-cased host name is in the allow-list, which is the explicit
    one unless that is empty; outside air-gap mode every request is forwarded. *)
Theorem guarded_fetch_forwards_iff `{UrlParser} allowedHosts e r :
  guarded_fetch allowedHosts e r = Ok r ↔
  isAirGapModeEnabled e = false ∨
  href_of r = "" ∨ starts_with "data:" (href_of r) = true ∨ starts_with "blob:" (href_of r) = true ∨
  ∃ hostname serialized, parse_url (href_of r) = Some (hostname, serialized) ∧
    to_lower hostname ≠ "" ∧
    to_lower hostname ∈ (if bool_decide (default [] allowedHosts = []) then readAirGapAllowedHosts e
                         else to_lower <$> default [] allowedHosts).
Proof.
  unfold guarded_fetch, extractHost.
  destruct (isAirGapModeEnabled e); simpl; [|split; [by left|done]].
  case_bool_decide as E; [split; [by right; left|done]|].
  destruct (starts_with "data:" (href_of r)) eqn:Ed; simpl; [split; [by auto|done]|].
  destruct (starts_with "blob:" (href_of r)) eqn:Eb; simpl; [split; [by auto|done]|].
  rewrite length_fmap.
  assert (bool_decide (default [] allowedHosts = []) = negb (0 <? length (default [] allowedHosts))%nat) as ->
    by by destruct (default [] allowedHosts).
  destruct (parse_url (href_of r)) as [[hostname serialized]|] eqn:Ep.
  - case_bool_decide as Eh; [split; [done|naive_solver]|].
    destruct (0 <? length (default [] allowedHosts))%nat; simpl;
      case_bool_decide as Ha; (split; [|naive_solver]); intros; naive_solver.
  - simpl. split; [done|]. naive_solver.
Qed.

Lemma refuse_schemes_Ok location lowered schemes :
  refuse_schemes location lowered schemes = Ok tt ↔
  Forall (λ scheme, starts_with scheme lowered = false) schemes.
Proof.
  induction schemes as [|s schemes IH]; simpl; [by split|]. rewrite Forall_cons.
  destruct (starts_with s lowered); [split; [done|by intros []]|]. rewrite IH. tauto.
Qed.

(** In air-gap mode a storage root is accepted exactly when, trimmed and in
    lower case, it is not empty and starts with none of the remote schemes. *)
Theorem assertLocalFilesystemPath_Ok_iff location e :
  assertLocalFilesystemPath location e = Ok tt ↔
  (isAirGapModeEnabled e = true →
   trim location ≠ "" ∧
   ∀ scheme rest, scheme ∈ REMOTE_SCHEMES → to_lower (trim location) ≠ scheme +:+ rest).
Proof.
  unfold assertLocalFilesystemPath. destruct (isAirGapModeEnabled e); cbn [negb]; cbv zeta; [|by split].
  case_bool_decide as E; [split; [done|naive_solver]|].
  etransitivity; [apply refuse_schemes_Ok|]. rewrite Forall_forall. unfold starts_with.
  setoid_rewrite bool_decide_eq_false. split.
  - intros H _. split; [done|]. intros scheme rest Hs Er. apply (H scheme Hs). exists rest.
    by apply strip_prefix_Some.
  - intros H scheme Hs [rest Hr%strip_prefix_Some]. destruct (H eq_refl) as [_ Hn]. by eapply Hn.
Qed.
