(* ===== verification/TestCaseValidator.v ===== *)
(** * The structural validator of generated test cases

    [packages/core-engine/src/generated-test-case-validator.ts] with its helpers,
    tables and field validators: every check of a [GeneratedTestCaseList], in the
    order in which the code reports its errors, with their paths and messages. The
    values checked are JSON values; reading a property that is not there gives
    [None]. *)

From S2P Require Import Prelude JsString JsList JsValue Contracts.
From Stdlib Require Import Ascii.

(** ** Constants of the contract *)

Definition GENERATED_TEST_CASE_SCHEMA_VERSION : string := "1.4.0".
Definition TEST_INTELLIGENCE_PROMPT_TEMPLATE_VERSION : string := "1.7.3".
Definition ALLOWED_GENERATED_TEST_CASE_POLARITIES : list string :=
  ["positive"; "negative"; "boundary"; "validation"; "navigation"; "accessibility"].
Definition ALLOWED_GENERATED_TEST_CASE_CATEGORIES : list string :=
  ["positive_path"; "negative_path"; "boundary_value"; "validation_rule"; "navigation_flow";
   "accessibility"].
Definition ALLOWED_REGULATORY_RELEVANCE_DOMAINS : list string := ["banking"; "insurance"; "general"].

(** ** Tables *)

Definition TECHNIQUES : list string :=
  ["equivalence_partitioning"; "boundary_value_analysis"; "decision_table"; "state_transition";
   "use_case"; "exploratory"; "error_guessing"; "syntax_testing"; "classification_tree"].
Definition LEVELS : list string := ["unit"; "component"; "integration"; "system"; "acceptance"].
Definition TYPES : list string :=
  ["functional"; "negative"; "boundary"; "validation"; "navigation"; "regression"; "exploratory";
   "accessibility"].
Definition PRIORITIES : list string := ["p0"; "p1"; "p2"; "p3"].
Definition RISK_CATEGORIES : list string :=
  ["low"; "medium"; "high"; "regulated_data"; "financial_transaction"].
Definition REVIEW_STATES : list string := ["draft"; "auto_approved"; "needs_review"; "rejected"].

Definition ROOT_KEYS : list string := ["schemaVersion"; "jobId"; "testCases"].
Definition TEST_CASE_KEYS : list string :=
  ["id"; "sourceJobId"; "contractVersion"; "schemaVersion"; "promptTemplateVersion"; "title";
   "objective"; "level"; "type"; "polarity"; "category"; "priority"; "riskCategory"; "technique";
   "preconditions"; "testData"; "steps"; "expectedResults"; "figmaTraceRefs"; "assumptions";
   "openQuestions"; "qcMappingPreview"; "qualitySignals"; "confidence"; "confidenceComponents";
   "reviewState"; "audit"; "regulatoryRelevance"].
Definition REGULATORY_RELEVANCE_KEYS : list string := ["domain"; "rationale"].
Definition STEP_KEYS : list string :=
  ["index"; "action"; "data"; "expected"; "fieldLifecycleTransitionId"].
Definition FIGMA_TRACE_REF_KEYS : list string := ["screenId"; "nodeId"; "nodeName"; "nodePath"].
Definition QC_MAPPING_KEYS : list string :=
  ["folderHint"; "mappingProfileId"; "decisionBasis"; "exportable"; "blockingReasons"].
Definition QUALITY_SIGNAL_KEYS : list string :=
  ["coveredFieldIds"; "coveredActionIds"; "coveredValidationIds"; "coveredNavigationIds";
   "coveredRequirementIds"; "confidence"; "ambiguity"].
Definition CONFIDENCE_COMPONENT_KEYS : list string :=
  ["judgePanelAgreement"; "faithfulnessScore"; "selfConsistencyAgreement"; "ragHitStrength";
   "oracleResolved"; "rawScore"].
Definition AMBIGUITY_KEYS : list string := ["reason"].
Definition AUDIT_KEYS : list string :=
  ["jobId"; "generatedAt"; "contractVersion"; "schemaVersion"; "promptTemplateVersion";
   "redactionPolicyVersion"; "visualSidecarSchemaVersion"; "cacheHit"; "cacheKey"; "inputHash";
   "promptHash"; "schemaHash"; "truncatedInstructionCount"; "snapshotSource"].
Definition SNAPSHOT_SOURCE_KEYS : list string :=
  ["snapshotId"; "snapshotDigest"; "nodeIndexDigest"; "scopeDigest"; "selectedNodeIds";
   "selectedPageIds"; "selectedFrameIds"].

(** [(?:\.\d{1,9})?] *)
Fixpoint skip_digits (most : nat) (s : string) : string :=
  match most, s with
  | S most', String c r => if is_decimal_digit c then skip_digits most' r else s
  | _, _ => s
  end.

Definition skip_fraction (s : string) : string :=
  match s with
  | String c (String d r) => if Ascii.eqb c "." && is_decimal_digit d then skip_digits 8 r else s
  | _ => s
  end.

(** [ISO_8601_PATTERN] *)
Definition is_iso_8601 (s : string) : bool :=
  match match_classes date_time_classes s with
  | None => false
  | Some rest =>
      let zone := skip_fraction rest in
      bool_decide (zone = "Z")
      || match zone with
         | String c r =>
             (Ascii.eqb c "+" || Ascii.eqb c "-")
             && bool_decide (match_classes [is_decimal_digit; is_decimal_digit; lit ":";
                                            is_decimal_digit; is_decimal_digit] r = Some "")
         | EmptyString => false
         end
  end.

(** ** Helpers *)

Record ValidationError := { ve_path : string; ve_message : string }.

#[export] Instance ValidationError_eq_dec : EqDecision ValidationError.
Proof. solve_decision. Defined.

Definition report (path message : string) : list ValidationError :=
  [{| ve_path := path; ve_message := message |}].

Definition fields : Type := list (string * json).

Definition isObject (value : option json) : option fields :=
  match value with Some (JObject f) => Some f | _ => None end.

Definition expectString (value : option json) (path : string) : list ValidationError :=
  match value with
  | Some (JString s) => if bool_decide (s = "") then report path "expected non-empty string" else []
  | _ => report path "expected non-empty string"
  end.

(** The text between double quotes. *)
Definition quoted (s : string) : string := String "034" (s +:+ String "034" "").

Definition expectConst (value : option json) (expected path : string) : list ValidationError :=
  match value with
  | Some (JString s) =>
      if bool_decide (s = expected) then [] else report path ("expected " +:+ quoted expected)
  | _ => report path ("expected " +:+ quoted expected)
  end.

Definition expectEnum (value : option json) (allowed : list string) (path : string) :
    list ValidationError :=
  match value with
  | Some (JString s) =>
      if bool_decide (s ∈ allowed) then [] else report path ("expected one of " +:+ join ", " allowed)
  | _ => report path ("expected one of " +:+ join ", " allowed)
  end.

(** [`${path}[${i}]`] *)
Definition at_index (path : string) (i : nat) : string := path +:+ "[" +:+ pretty i +:+ "]".

(** A loop that checks every element of an array. *)
Definition each (check : json → string → list ValidationError) (path : string) (items : list json) :
    list ValidationError :=
  mjoin (imap (λ i v, check v (at_index path i)) items).

Definition expectStringItem (value : json) (path : string) : list ValidationError :=
  match value with JString _ => [] | _ => report path "expected string" end.

Definition expectStringArray (value : option json) (path : string) : list ValidationError :=
  match value with
  | Some (JArray items) => each expectStringItem path items
  | _ => report path "expected array"
  end.

Definition expectHash (value : option json) (path : string) : list ValidationError :=
  match value with
  | Some (JString s) => if isHex64 s then [] else report path "expected sha256 hex digest"
  | _ => report path "expected sha256 hex digest"
  end.

Definition expectUnitIntervalNumber (value : option json) (path : string) : list ValidationError :=
  match value with
  | Some (JNumber q) =>
      if Qle_bool 0 q && Qle_bool q 1 then [] else report path "expected number in [0, 1]"
  | _ => report path "expected number in [0, 1]"
  end.

Definition expectBoolean (value : option json) (path : string) : list ValidationError :=
  match value with Some (JBool _) => [] | _ => report path "expected boolean" end.

Definition expectExactKeys (value : fields) (allowedKeys : list string) (path : string) :
    list ValidationError :=
  match list_find (λ kv, kv.1 ∉ allowedKeys) value with
  | Some (_, kv) => report path ("unexpected property " +:+ quoted kv.1)
  | None => []
  end.

(** [if (value[key] !== undefined) check(value[key], ...)] *)
Definition when_present (value : option json) (check : option json → list ValidationError) :
    list ValidationError :=
  match value with None => [] | Some _ => check value end.

(** ** Field validators *)

Definition expectIntegerFrom (least : Z) (value : option json) (path message : string) :
    list ValidationError :=
  match value with
  | Some (JNumber q) =>
      if Number.q_is_integer q && Qle_bool (inject_Z least) q then [] else report path message
  | _ => report path message
  end.

Definition expectStep (step : json) (path : string) : list ValidationError :=
  match isObject (Some step) with
  | None => report path "expected object"
  | Some f =>
      expectExactKeys f STEP_KEYS path
      ++ expectIntegerFrom 1 (Json.get "index" f) (path +:+ ".index") "expected integer >= 1"
      ++ expectString (Json.get "action" f) (path +:+ ".action")
      ++ when_present (Json.get "data" f) (λ v, expectString v (path +:+ ".data"))
      ++ when_present (Json.get "expected" f) (λ v, expectString v (path +:+ ".expected"))
      ++ when_present (Json.get "fieldLifecycleTransitionId" f)
           (λ v, expectString v (path +:+ ".fieldLifecycleTransitionId"))
  end.

Definition expectStepsArray (value : option json) (path : string) : list ValidationError :=
  match value with
  | Some (JArray items) =>
      match items with
      | [] => report path "expected non-empty array"
      | _ => each expectStep path items
      end
  | _ => report path "expected non-empty array"
  end.

Definition expectTraceRef (ref : json) (path : string) : list ValidationError :=
  match isObject (Some ref) with
  | None => report path "expected object"
  | Some f =>
      expectExactKeys f FIGMA_TRACE_REF_KEYS path
      ++ expectString (Json.get "screenId" f) (path +:+ ".screenId")
      ++ when_present (Json.get "nodeId" f) (λ v, expectString v (path +:+ ".nodeId"))
      ++ when_present (Json.get "nodeName" f) (λ v, expectString v (path +:+ ".nodeName"))
      ++ when_present (Json.get "nodePath" f) (λ v, expectString v (path +:+ ".nodePath"))
  end.

Definition expectTraceRefs (value : option json) (path : string) : list ValidationError :=
  match value with
  | Some (JArray items) => each expectTraceRef path items
  | _ => report path "expected array"
  end.

Definition expectQcMapping (value : option json) (path : string) : list ValidationError :=
  match isObject value with
  | None => report path "expected object"
  | Some f =>
      expectExactKeys f QC_MAPPING_KEYS path
      ++ expectBoolean (Json.get "exportable" f) (path +:+ ".exportable")
      ++ when_present (Json.get "folderHint" f) (λ v, expectString v (path +:+ ".folderHint"))
      ++ when_present (Json.get "mappingProfileId" f)
           (λ v, expectString v (path +:+ ".mappingProfileId"))
      ++ when_present (Json.get "decisionBasis" f)
           (λ v, expectConst v "mapping_preview_only" (path +:+ ".decisionBasis"))
      ++ when_present (Json.get "blockingReasons" f)
           (λ v, expectStringArray v (path +:+ ".blockingReasons"))
  end.

Definition expectAmbiguity (value : option json) (path : string) : list ValidationError :=
  match isObject value with
  | None => report path "expected object"
  | Some f =>
      expectExactKeys f AMBIGUITY_KEYS path
      ++ expectString (Json.get "reason" f) (path +:+ ".reason")
  end.

Definition expectQualitySignals (value : option json) (path : string) : list ValidationError :=
  match isObject value with
  | None => report path "expected object"
  | Some f =>
      expectExactKeys f QUALITY_SIGNAL_KEYS path
      ++ expectStringArray (Json.get "coveredFieldIds" f) (path +:+ ".coveredFieldIds")
      ++ expectStringArray (Json.get "coveredActionIds" f) (path +:+ ".coveredActionIds")
      ++ expectStringArray (Json.get "coveredValidationIds" f) (path +:+ ".coveredValidationIds")
      ++ expectStringArray (Json.get "coveredNavigationIds" f) (path +:+ ".coveredNavigationIds")
      ++ when_present (Json.get "coveredRequirementIds" f)
           (λ v, expectStringArray v (path +:+ ".coveredRequirementIds"))
      ++ expectUnitIntervalNumber (Json.get "confidence" f) (path +:+ ".confidence")
      ++ when_present (Json.get "ambiguity" f) (λ v, expectAmbiguity v (path +:+ ".ambiguity"))
  end.

Definition expectConfidenceComponents (value : option json) (path : string) : list ValidationError :=
  match isObject value with
  | None => report path "expected object"
  | Some f =>
      expectExactKeys f CONFIDENCE_COMPONENT_KEYS path
      ++ expectUnitIntervalNumber (Json.get "judgePanelAgreement" f) (path +:+ ".judgePanelAgreement")
      ++ expectUnitIntervalNumber (Json.get "faithfulnessScore" f) (path +:+ ".faithfulnessScore")
      ++ expectUnitIntervalNumber (Json.get "selfConsistencyAgreement" f)
           (path +:+ ".selfConsistencyAgreement")
      ++ expectUnitIntervalNumber (Json.get "ragHitStrength" f) (path +:+ ".ragHitStrength")
      ++ expectBoolean (Json.get "oracleResolved" f) (path +:+ ".oracleResolved")
      ++ expectUnitIntervalNumber (Json.get "rawScore" f) (path +:+ ".rawScore")
  end.

Definition expectTimestamp (value : option json) (path : string) : list ValidationError :=
  match value with
  | Some (JString s) => if is_iso_8601 s then [] else report path "expected ISO-8601 timestamp"
  | _ => report path "expected ISO-8601 timestamp"
  end.

Definition expectSnapshotSource (value : option json) (path : string) : list ValidationError :=
  match isObject value with
  | None => report path "expected object"
  | Some f =>
      expectExactKeys f SNAPSHOT_SOURCE_KEYS path
      ++ expectString (Json.get "snapshotId" f) (path +:+ ".snapshotId")
      ++ expectHash (Json.get "snapshotDigest" f) (path +:+ ".snapshotDigest")
      ++ expectHash (Json.get "nodeIndexDigest" f) (path +:+ ".nodeIndexDigest")
      ++ expectHash (Json.get "scopeDigest" f) (path +:+ ".scopeDigest")
      ++ expectStringArray (Json.get "selectedNodeIds" f) (path +:+ ".selectedNodeIds")
      ++ expectStringArray (Json.get "selectedPageIds" f) (path +:+ ".selectedPageIds")
      ++ expectStringArray (Json.get "selectedFrameIds" f) (path +:+ ".selectedFrameIds")
  end.

Definition expectAudit (value : option json) (path : string) : list ValidationError :=
  match isObject value with
  | None => report path "expected object"
  | Some f =>
      expectExactKeys f AUDIT_KEYS path
      ++ expectString (Json.get "jobId" f) (path +:+ ".jobId")
      ++ expectTimestamp (Json.get "generatedAt" f) (path +:+ ".generatedAt")
      ++ expectConst (Json.get "contractVersion" f) TEST_INTELLIGENCE_CONTRACT_VERSION
           (path +:+ ".contractVersion")
      ++ expectConst (Json.get "schemaVersion" f) GENERATED_TEST_CASE_SCHEMA_VERSION
           (path +:+ ".schemaVersion")
      ++ expectConst (Json.get "promptTemplateVersion" f) TEST_INTELLIGENCE_PROMPT_TEMPLATE_VERSION
           (path +:+ ".promptTemplateVersion")
      ++ expectString (Json.get "redactionPolicyVersion" f) (path +:+ ".redactionPolicyVersion")
      ++ expectString (Json.get "visualSidecarSchemaVersion" f)
           (path +:+ ".visualSidecarSchemaVersion")
      ++ expectBoolean (Json.get "cacheHit" f) (path +:+ ".cacheHit")
      ++ expectString (Json.get "cacheKey" f) (path +:+ ".cacheKey")
      ++ expectHash (Json.get "inputHash" f) (path +:+ ".inputHash")
      ++ expectHash (Json.get "promptHash" f) (path +:+ ".promptHash")
      ++ expectHash (Json.get "schemaHash" f) (path +:+ ".schemaHash")
      ++ when_present (Json.get "truncatedInstructionCount" f)
           (λ v, expectIntegerFrom 0 v (path +:+ ".truncatedInstructionCount")
                   "expected non-negative integer when present")
      ++ when_present (Json.get "snapshotSource" f)
           (λ v, expectSnapshotSource v (path +:+ ".snapshotSource"))
  end.

Definition expectRationale (value : option json) (path : string) : list ValidationError :=
  match value with
  | Some (JString s) =>
      if bool_decide (s = "") || (240 <? String.length s)%nat
      then report path "expected non-empty string of length 1..240" else []
  | _ => report path "expected non-empty string of length 1..240"
  end.

Definition expectRegulatoryRelevance (value : option json) (path : string) : list ValidationError :=
  match isObject value with
  | None => report path "expected object"
  | Some f =>
      expectExactKeys f REGULATORY_RELEVANCE_KEYS path
      ++ expectEnum (Json.get "domain" f) ALLOWED_REGULATORY_RELEVANCE_DOMAINS (path +:+ ".domain")
      ++ expectRationale (Json.get "rationale" f) (path +:+ ".rationale")
  end.

(** ** The validator *)

Definition validateTestCaseIdentity (tc : fields) (path : string) : list ValidationError :=
  expectString (Json.get "id" tc) (path +:+ ".id")
  ++ expectString (Json.get "sourceJobId" tc) (path +:+ ".sourceJobId")
  ++ expectConst (Json.get "contractVersion" tc) TEST_INTELLIGENCE_CONTRACT_VERSION
       (path +:+ ".contractVersion")
  ++ expectConst (Json.get "schemaVersion" tc) GENERATED_TEST_CASE_SCHEMA_VERSION
       (path +:+ ".schemaVersion")
  ++ expectConst (Json.get "promptTemplateVersion" tc) TEST_INTELLIGENCE_PROMPT_TEMPLATE_VERSION
       (path +:+ ".promptTemplateVersion")
  ++ expectString (Json.get "title" tc) (path +:+ ".title")
  ++ expectString (Json.get "objective" tc) (path +:+ ".objective").

Definition validateTestCaseClassification (tc : fields) (path : string) : list ValidationError :=
  expectEnum (Json.get "level" tc) LEVELS (path +:+ ".level")
  ++ expectEnum (Json.get "type" tc) TYPES (path +:+ ".type")
  ++ when_present (Json.get "polarity" tc)
       (λ v, expectEnum v ALLOWED_GENERATED_TEST_CASE_POLARITIES (path +:+ ".polarity"))
  ++ when_present (Json.get "category" tc)
       (λ v, expectEnum v ALLOWED_GENERATED_TEST_CASE_CATEGORIES (path +:+ ".category"))
  ++ expectEnum (Json.get "priority" tc) PRIORITIES (path +:+ ".priority")
  ++ expectEnum (Json.get "riskCategory" tc) RISK_CATEGORIES (path +:+ ".riskCategory")
  ++ expectEnum (Json.get "technique" tc) TECHNIQUES (path +:+ ".technique")
  ++ expectEnum (Json.get "reviewState" tc) REVIEW_STATES (path +:+ ".reviewState").

Definition validateTestCaseBody (tc : fields) (path : string) : list ValidationError :=
  expectStringArray (Json.get "preconditions" tc) (path +:+ ".preconditions")
  ++ expectStringArray (Json.get "testData" tc) (path +:+ ".testData")
  ++ expectStepsArray (Json.get "steps" tc) (path +:+ ".steps")
  ++ expectStringArray (Json.get "expectedResults" tc) (path +:+ ".expectedResults")
  ++ expectTraceRefs (Json.get "figmaTraceRefs" tc) (path +:+ ".figmaTraceRefs")
  ++ expectStringArray (Json.get "assumptions" tc) (path +:+ ".assumptions")
  ++ expectStringArray (Json.get "openQuestions" tc) (path +:+ ".openQuestions")
  ++ expectQcMapping (Json.get "qcMappingPreview" tc) (path +:+ ".qcMappingPreview")
  ++ expectQualitySignals (Json.get "qualitySignals" tc) (path +:+ ".qualitySignals")
  ++ when_present (Json.get "confidence" tc)
       (λ v, expectUnitIntervalNumber v (path +:+ ".confidence"))
  ++ when_present (Json.get "confidenceComponents" tc)
       (λ v, expectConfidenceComponents v (path +:+ ".confidenceComponents"))
  ++ expectAudit (Json.get "audit" tc) (path +:+ ".audit")
  ++ when_present (Json.get "regulatoryRelevance" tc)
       (λ v, expectRegulatoryRelevance v (path +:+ ".regulatoryRelevance")).

Definition validateTestCase (value : json) (path : string) : list ValidationError :=
  match isObject (Some value) with
  | None => report path "expected object"
  | Some tc =>
      expectExactKeys tc TEST_CASE_KEYS path
      ++ validateTestCaseIdentity tc path
      ++ validateTestCaseClassification tc path
      ++ validateTestCaseBody tc path
  end.

(** The errors; the list is valid when there are none. *)
Definition validateGeneratedTestCaseList (value : json) : list ValidationError :=
  match isObject (Some value) with
  | None => report "$" "expected object"
  | Some root =>
      expectExactKeys root ROOT_KEYS "$"
      ++ expectConst (Json.get "schemaVersion" root) GENERATED_TEST_CASE_SCHEMA_VERSION
           "$.schemaVersion"
      ++ expectString (Json.get "jobId" root) "$.jobId"
      ++ match Json.get "testCases" root with
         | Some (JArray testCases) => each validateTestCase "$.testCases" testCases
         | _ => report "$.testCases" "expected array"
         end
  end.

Definition valid (value : json) : bool :=
  bool_decide (length (validateGeneratedTestCaseList value) = 0%nat).
