(* ===== verification/TestCaseSchema.v ===== *)
(** * The schema of generated test cases

    [packages/core-engine/src/generated-test-case-zod-schema.ts]: the schema given
    to structured-output gateways, as a value of a small schema language for the
    combinators of zod it uses, with their documented meaning. The validator of
    TestCaseValidator.v is compared with it. *)

From S2P Require Import Prelude JsString JsList JsValue Contracts CanonicalJson JsonView.
From S2P Require Import TestCaseValidator.
From Stdlib Require Import Ascii.

(** ** A schema language *)

Inductive text_format : Type :=
| any_text
| one_of (labels : list string)   (** [z.literal], [z.enum] *)
| sha256_hex                      (** [z.string().regex(SHA256_HEX_PATTERN)] *)
| iso_8601.                       (** [z.string().regex(ISO_8601_PATTERN)] *)

#[export] Instance text_format_eq_dec : EqDecision text_format.
Proof. solve_decision. Defined.

Inductive schema : Type :=
| SText (least : nat) (most : option nat) (format : text_format)
| SUnitInterval                                  (** [z.number().min(0).max(1)] *)
| SInteger (least : Z) (safe : bool)             (** [z.number().int().min(least)] *)
| SBoolean
| SArray (least : nat) (item : schema)
| SObject (properties : list (string * (bool * schema))).  (** [z.strictObject]; [true] is [.optional()] *)

Definition has_format (format : text_format) (s : string) : bool :=
  match format with
  | any_text => true
  | one_of labels => bool_decide (s ∈ labels)
  | sha256_hex => isHex64 s
  | iso_8601 => is_iso_8601 s
  end.

Definition length_within (least : nat) (most : option nat) (s : string) : bool :=
  (least <=? String.length s)%nat
  && match most with None => true | Some most => (String.length s <=? most)%nat end.

(** zod 4 accepts only safe integers. *)
Definition integer_within (least : Z) (safe : bool) (q : Q) : bool :=
  Number.q_is_integer q && Qle_bool (inject_Z least) q
  && (negb safe || (Qle_bool (inject_Z (- Number.MAX_SAFE_INTEGER)) q
                    && Qle_bool q (inject_Z Number.MAX_SAFE_INTEGER))).

Definition known_keys {A} (properties : list (string * A)) (f : fields) : bool :=
  forallb (λ kv, bool_decide (kv.1 ∈ properties.*1)) f.

Fixpoint accepts (s : schema) (value : json) : bool :=
  match s, value with
  | SText least most format, JString x => length_within least most x && has_format format x
  | SUnitInterval, JNumber q => Qle_bool 0 q && Qle_bool q 1
  | SInteger least safe, JNumber q => integer_within least safe q
  | SBoolean, JBool _ => true
  | SArray least item, JArray items => (least <=? length items)%nat && forallb (accepts item) items
  | SObject properties, JObject f =>
      known_keys properties f
      && forallb (λ p, match Json.get p.1 f with
                       | Some v => accepts p.2.2 v
                       | None => p.2.1
                       end) properties
  | _, _ => false
  end.

(** ** The gateway's schema *)

Definition text1 : schema := SText 1 None any_text.
Definition text : schema := SText 0 None any_text.
Definition literal (x : string) : schema := SText 0 None (one_of [x]).
Definition enum (xs : list string) : schema := SText 0 None (one_of xs).
Definition sha256_text : schema := SText 0 None sha256_hex.
Definition texts : schema := SArray 0 text.
Definition texts1 : schema := SArray 0 text1.
Definition needed {A} (s : A) : bool * A := (false, s).
Definition optional {A} (s : A) : bool * A := (true, s).

Definition step_zod : schema :=
  SObject [("index", needed (SInteger 1 true)); ("action", needed text1); ("data", optional text);
           ("expected", optional text); ("fieldLifecycleTransitionId", optional text1)].

Definition trace_ref_zod : schema :=
  SObject [("screenId", needed text1); ("nodeId", optional text); ("nodeName", optional text);
           ("nodePath", optional text)].

Definition qc_mapping_zod : schema :=
  SObject [("folderHint", optional text); ("mappingProfileId", optional text);
           ("decisionBasis", optional (literal "mapping_preview_only"));
           ("exportable", needed SBoolean); ("blockingReasons", optional texts1)].

Definition quality_signals_zod : schema :=
  SObject [("coveredFieldIds", needed texts); ("coveredActionIds", needed texts);
           ("coveredValidationIds", needed texts); ("coveredNavigationIds", needed texts);
           ("coveredRequirementIds", optional texts); ("confidence", needed SUnitInterval);
           ("ambiguity", optional (SObject [("reason", needed text1)]))].

Definition confidence_components_zod : schema :=
  SObject [("judgePanelAgreement", needed SUnitInterval); ("faithfulnessScore", needed SUnitInterval);
           ("selfConsistencyAgreement", needed SUnitInterval); ("ragHitStrength", needed SUnitInterval);
           ("oracleResolved", needed SBoolean); ("rawScore", needed SUnitInterval)].

Definition snapshot_source_zod : schema :=
  SObject [("snapshotId", needed text1); ("snapshotDigest", needed sha256_text);
           ("nodeIndexDigest", needed sha256_text); ("scopeDigest", needed sha256_text);
           ("selectedNodeIds", needed texts1); ("selectedPageIds", needed texts1);
           ("selectedFrameIds", needed texts1)].

Definition audit_zod : schema :=
  SObject [("jobId", needed text1); ("generatedAt", needed (SText 0 None iso_8601));
           ("contractVersion", needed (literal TEST_INTELLIGENCE_CONTRACT_VERSION));
           ("schemaVersion", needed (literal GENERATED_TEST_CASE_SCHEMA_VERSION));
           ("promptTemplateVersion", needed (literal TEST_INTELLIGENCE_PROMPT_TEMPLATE_VERSION));
           ("redactionPolicyVersion", needed text1); ("visualSidecarSchemaVersion", needed text1);
           ("cacheHit", needed SBoolean); ("cacheKey", needed text1);
           ("inputHash", needed sha256_text); ("promptHash", needed sha256_text);
           ("schemaHash", needed sha256_text);
           ("truncatedInstructionCount", optional (SInteger 0 true));
           ("snapshotSource", optional snapshot_source_zod)].

Definition regulatory_relevance_zod : schema :=
  SObject [("domain", needed (enum ALLOWED_REGULATORY_RELEVANCE_DOMAINS));
           ("rationale", needed (SText 1 (Some 240%nat) any_text))].

Definition test_case_zod : schema :=
  SObject [("id", needed text1); ("sourceJobId", needed text1);
           ("contractVersion", needed (literal TEST_INTELLIGENCE_CONTRACT_VERSION));
           ("schemaVersion", needed (literal GENERATED_TEST_CASE_SCHEMA_VERSION));
           ("promptTemplateVersion", needed (literal TEST_INTELLIGENCE_PROMPT_TEMPLATE_VERSION));
           ("title", needed (SText 1 (Some 200%nat) any_text));
           ("objective", needed (SText 1 (Some 1000%nat) any_text));
           ("level", needed (enum LEVELS)); ("type", needed (enum TYPES));
           ("polarity", optional (enum ALLOWED_GENERATED_TEST_CASE_POLARITIES));
           ("category", optional (enum ALLOWED_GENERATED_TEST_CASE_CATEGORIES));
           ("priority", needed (enum PRIORITIES)); ("riskCategory", needed (enum RISK_CATEGORIES));
           ("technique", needed (enum TECHNIQUES)); ("preconditions", needed texts);
           ("testData", needed texts); ("steps", needed (SArray 1 step_zod));
           ("expectedResults", needed texts); ("figmaTraceRefs", needed (SArray 0 trace_ref_zod));
           ("assumptions", needed texts); ("openQuestions", needed texts);
           ("qcMappingPreview", needed qc_mapping_zod);
           ("qualitySignals", needed quality_signals_zod); ("confidence", optional SUnitInterval);
           ("confidenceComponents", optional confidence_components_zod);
           ("reviewState", needed (enum REVIEW_STATES)); ("audit", needed audit_zod);
           ("regulatoryRelevance", optional regulatory_relevance_zod)].

Definition generatedTestCaseListZodSchema : schema :=
  SObject [("schemaVersion", needed (literal GENERATED_TEST_CASE_SCHEMA_VERSION));
           ("jobId", needed text1); ("testCases", needed (SArray 0 test_case_zod))].

(** ** Comparing schemas *)

Definition sub_format (f g : text_format) : bool :=
  match g with any_text => true | _ => bool_decide (f = g) end.

Definition sub_most (m n : option nat) : bool :=
  match n, m with
  | None, _ => true
  | Some n, Some m => (m <=? n)%nat
  | Some _, None => false
  end.

Definition lookup_property {A} (k : string) (properties : list (string * A)) : option A :=
  snd <$> find_by fst k properties.

(** The places where [s] accepts values that [t] may refuse. *)
Fixpoint drift (path : string) (s t : schema) : list string :=
  match s, t with
  | SText l1 m1 f1, SText l2 m2 f2 =>
      if (l2 <=? l1)%nat && sub_most m1 m2 && sub_format f1 f2 then [] else [path]
  | SUnitInterval, SUnitInterval | SBoolean, SBoolean => []
  | SInteger l1 s1, SInteger l2 s2 => if (l2 <=? l1) && implb s2 s1 then [] else [path]
  | SArray l1 i1, SArray l2 i2 =>
      (if (l2 <=? l1)%nat then [] else [path]) ++ drift (path +:+ "[]") i1 i2
  | SObject ps1, SObject ps2 =>
      (if forallb (λ p, bool_decide (p.1 ∈ ps2.*1)) ps1
          && forallb (λ q, bool_decide (q.1 ∈ ps1.*1) || q.2.1) ps2
          && bool_decide (NoDup ps2.*1) then [] else [path])
      ++ mjoin (map (λ p, match lookup_property p.1 ps2 with
                          | None => [path +:+ "." +:+ p.1]
                          | Some (o2, t2) =>
                              (if implb p.2.1 o2 then [] else [path +:+ "." +:+ p.1])
                              ++ drift (path +:+ "." +:+ p.1) p.2.2 t2
                          end) ps1)
  | _, _ => [path]
  end.

(** ** Induction on schemas *)

Section schema_induction.
Context (P : schema → Prop).
Hypothesis Htext : ∀ l m f, P (SText l m f).
Hypothesis Hunit : P SUnitInterval.
Hypothesis Hinteger : ∀ l b, P (SInteger l b).
Hypothesis Hboolean : P SBoolean.
Hypothesis Harray : ∀ l item, P item → P (SArray l item).
Hypothesis Hobject : ∀ ps, Forall (λ p, P p.2.2) ps → P (SObject ps).

Fixpoint schema_nested_ind (s : schema) : P s :=
  match s with
  | SText l m f => Htext l m f
  | SUnitInterval => Hunit
  | SInteger l b => Hinteger l b
  | SBoolean => Hboolean
  | SArray l item => Harray l item (schema_nested_ind item)
  | SObject ps =>
      Hobject ps ((fix go ps : Forall (λ p, P p.2.2) ps :=
                     match ps with
                     | [] => Forall_nil_2 _
                     | p :: ps' => Forall_cons_2 _ p ps' (schema_nested_ind p.2.2) (go ps')
                     end) ps)
  end.
End schema_induction.

(** ** Comparing schemas is sound *)

Lemma if_nil {A} (b : bool) (x : A) : (if b then [] else [x]) = [] ↔ b = true.
Proof. by destruct b. Qed.

Lemma mjoin_nil {A B} (f : A → list B) xs : mjoin (map f xs) = [] ↔ Forall (λ x, f x = []) xs.
Proof.
  induction xs as [|x xs IH]; simpl; [by split|]. by rewrite app_nil, Forall_cons, IH.
Qed.

Lemma lookup_property_Some {A} k (ps : list (string * A)) a :
  NoDup ps.*1 → (k, a) ∈ ps → lookup_property k ps = Some a.
Proof.
  intros Hnd Hin. unfold lookup_property. by rewrite (find_by_unique fst k ps (k, a)).
Qed.

Lemma forallb_true {A} (f : A → bool) xs : forallb f xs = true ↔ Forall (λ x, f x = true) xs.
Proof.
  induction xs as [|x xs IH]; simpl; [by split|]. by rewrite andb_true_iff, Forall_cons, IH.
Qed.

(** A property that may be absent. *)
Definition property_ok (v : option json) (p : bool * schema) : Prop :=
  match v with Some v => accepts p.2 v = true | None => p.1 = true end.

Lemma accepts_object ps f :
  accepts (SObject ps) (JObject f) = true ↔
  Forall (λ kv, kv.1 ∈ ps.*1) f ∧ Forall (λ p, property_ok (Json.get p.1 f) p.2) ps.
Proof.
  simpl. unfold known_keys. rewrite andb_true_iff, !forallb_true.
  split; intros [H1 H2]; (split; [eapply Forall_impl; [exact H1|];
    intros x; by rewrite bool_decide_eq_true|]); (eapply Forall_impl; [exact H2|]);
    intros p; unfold property_ok; by destruct (Json.get p.1 f).
Qed.

Lemma sub_text l1 m1 f1 l2 m2 f2 x :
  (l2 <= l1)%nat → sub_most m1 m2 = true → sub_format f1 f2 = true →
  length_within l1 m1 x && has_format f1 x = true →
  length_within l2 m2 x && has_format f2 x = true.
Proof.
  unfold length_within. intros Hl Hm Hf [[H1 H2]%andb_true_iff H3]%andb_true_iff.
  apply Nat.leb_le in H1. rewrite (proj2 (Nat.leb_le _ _)) by lia. simpl.
  apply andb_true_intro. split.
  - destruct m2 as [n2|]; [|done]. destruct m1 as [n1|]; [|done]. simpl in Hm.
    apply Nat.leb_le in Hm, H2. apply Nat.leb_le. lia.
  - destruct f2; simpl in Hf; try done; apply bool_decide_eq_true in Hf; by subst.
Qed.

Lemma sub_integer l1 s1 l2 s2 q :
  (l2 <=? l1) && implb s2 s1 = true → integer_within l1 s1 q = true → integer_within l2 s2 q = true.
Proof.
  unfold integer_within. intros [Hl Hs]%andb_true_iff [[Hi Hq]%andb_true_iff H3]%andb_true_iff.
  rewrite Hi. simpl. apply Z.leb_le in Hl. apply andb_true_intro. split.
  - apply Qle_bool_iff in Hq. apply Qle_bool_iff. eapply Qle_trans; [|exact Hq].
    unfold Qle. simpl. lia.
  - destruct s2; simpl in *; [by subst s1|done].
Qed.

(** The step of [drift_sound] for one property of an object. *)
Lemma sub_property (p q : bool * schema) path v :
  (∀ w, drift path p.2 q.2 = [] → accepts p.2 w = true → accepts q.2 w = true) →
  (if implb p.1 q.1 then [] else [path]) ++ drift path p.2 q.2 = [] →
  property_ok v p → property_ok v q.
Proof.
  intros IH [Hi%if_nil Hd]%app_nil. destruct v as [w|]; simpl; [by apply IH|].
  intros Hp. by rewrite Hp in Hi.
Qed.

(** A comparison without drift is sound. *)
Lemma drift_sound s t path v : drift path s t = [] → accepts s v = true → accepts t v = true.
Proof.
  revert t path v. induction s as [l1 m1 f1| |l1 b1| |l1 i1 IH|ps1 IH] using schema_nested_ind;
    intros t path v Hd Hv; destruct t as [l2 m2 f2| |l2 b2| |l2 i2|ps2]; try done.
  - simpl in Hd. apply if_nil in Hd. apply andb_true_iff in Hd as [[Hl Hm]%andb_true_iff Hf].
    destruct v; try done. simpl in *. apply Nat.leb_le in Hl. by eapply sub_text.
  - destruct v; try done. simpl in *. apply if_nil in Hd. by eapply sub_integer.
  - destruct v as [| | | |items|]; try done. simpl in *. apply app_nil in Hd as [Hl Hi].
    apply if_nil, Nat.leb_le in Hl. apply andb_true_iff in Hv as [Hn Hv]. apply Nat.leb_le in Hn.
    rewrite (proj2 (Nat.leb_le _ _)) by lia. simpl. rewrite forallb_true in *.
    eapply Forall_impl; [exact Hv|]. intros x. by apply IH with (path := path +:+ "[]").
  - destruct v as [| | | | |f]; try done.
    cbn [drift] in Hd. apply app_nil in Hd as [Hk Hp]. apply if_nil in Hk. apply mjoin_nil in Hp.
    rewrite !andb_true_iff, !forallb_true, bool_decide_eq_true in Hk. destruct Hk as [[Hk1 Hk2] Hnd].
    apply accepts_object in Hv as [Hf Hv]. apply accepts_object. rewrite !Forall_forall in *. split.
    + intros kv Hin. destruct (proj1 (list_elem_of_fmap _ _ _) (Hf kv Hin)) as (p & E & Hp').
      specialize (Hk1 p Hp'). apply bool_decide_eq_true in Hk1. by rewrite E.
    + intros [k q] Hq. specialize (Hk2 (k, q) Hq). simpl in *.
      destruct (decide (k ∈ ps1.*1)) as [Hin|Hnin].
      * apply list_elem_of_fmap in Hin as ([k' p] & -> & Hp'). simpl in *.
        specialize (Hp (k', p) Hp'). simpl in Hp.
        rewrite (lookup_property_Some k' ps2 q Hnd Hq) in Hp. destruct q as [o2 t2].
        eapply (sub_property p (o2, t2)); [|exact Hp|exact (Hv _ Hp')].
        intros w. apply (IH (k', p) Hp').
      * rewrite bool_decide_eq_false_2 in Hk2 by done.
        destruct (Json.get k f) as [w|] eqn:Eg; [|done]. exfalso. apply Hnin.
        apply (Hf (k, w)). by apply get_elem.
Qed.

(** ** The validator as a schema *)

Definition step_checked : schema :=
  SObject [("index", needed (SInteger 1 false)); ("action", needed text1); ("data", optional text1);
           ("expected", optional text1); ("fieldLifecycleTransitionId", optional text1)].

Definition trace_ref_checked : schema :=
  SObject [("screenId", needed text1); ("nodeId", optional text1); ("nodeName", optional text1);
           ("nodePath", optional text1)].

Definition qc_mapping_checked : schema :=
  SObject [("exportable", needed SBoolean); ("folderHint", optional text1);
           ("mappingProfileId", optional text1);
           ("decisionBasis", optional (literal "mapping_preview_only"));
           ("blockingReasons", optional texts)].

Definition snapshot_source_checked : schema :=
  SObject [("snapshotId", needed text1); ("snapshotDigest", needed sha256_text);
           ("nodeIndexDigest", needed sha256_text); ("scopeDigest", needed sha256_text);
           ("selectedNodeIds", needed texts); ("selectedPageIds", needed texts);
           ("selectedFrameIds", needed texts)].

Definition audit_checked : schema :=
  SObject [("jobId", needed text1); ("generatedAt", needed (SText 0 None iso_8601));
           ("contractVersion", needed (literal TEST_INTELLIGENCE_CONTRACT_VERSION));
           ("schemaVersion", needed (literal GENERATED_TEST_CASE_SCHEMA_VERSION));
           ("promptTemplateVersion", needed (literal TEST_INTELLIGENCE_PROMPT_TEMPLATE_VERSION));
           ("redactionPolicyVersion", needed text1); ("visualSidecarSchemaVersion", needed text1);
           ("cacheHit", needed SBoolean); ("cacheKey", needed text1);
           ("inputHash", needed sha256_text); ("promptHash", needed sha256_text);
           ("schemaHash", needed sha256_text);
           ("truncatedInstructionCount", optional (SInteger 0 false));
           ("snapshotSource", optional snapshot_source_checked)].

Definition identity_checked : list (string * (bool * schema)) :=
  [("id", needed text1); ("sourceJobId", needed text1);
   ("contractVersion", needed (literal TEST_INTELLIGENCE_CONTRACT_VERSION));
   ("schemaVersion", needed (literal GENERATED_TEST_CASE_SCHEMA_VERSION));
   ("promptTemplateVersion", needed (literal TEST_INTELLIGENCE_PROMPT_TEMPLATE_VERSION));
   ("title", needed text1); ("objective", needed text1)].

Definition classification_checked : list (string * (bool * schema)) :=
  [("level", needed (enum LEVELS)); ("type", needed (enum TYPES));
   ("polarity", optional (enum ALLOWED_GENERATED_TEST_CASE_POLARITIES));
   ("category", optional (enum ALLOWED_GENERATED_TEST_CASE_CATEGORIES));
   ("priority", needed (enum PRIORITIES)); ("riskCategory", needed (enum RISK_CATEGORIES));
   ("technique", needed (enum TECHNIQUES)); ("reviewState", needed (enum REVIEW_STATES))].

Definition body_checked : list (string * (bool * schema)) :=
  [("preconditions", needed texts); ("testData", needed texts);
   ("steps", needed (SArray 1 step_checked)); ("expectedResults", needed texts);
   ("figmaTraceRefs", needed (SArray 0 trace_ref_checked)); ("assumptions", needed texts);
   ("openQuestions", needed texts); ("qcMappingPreview", needed qc_mapping_checked);
   ("qualitySignals", needed quality_signals_zod); ("confidence", optional SUnitInterval);
   ("confidenceComponents", optional confidence_components_zod); ("audit", needed audit_checked);
   ("regulatoryRelevance", optional regulatory_relevance_zod)].

(** What the validator accepts: titles and objectives of any length, and optional
    texts only when they are not empty. *)
Definition validator_schema : schema :=
  SObject [("schemaVersion", needed (literal GENERATED_TEST_CASE_SCHEMA_VERSION));
           ("jobId", needed text1);
           ("testCases", needed (SArray 0
              (SObject (identity_checked ++ classification_checked ++ body_checked))))].

(** A check that reports nothing exactly on the values of a schema. *)
Definition checks (check : option json → string → list ValidationError) (p : bool * schema) : Prop :=
  ∀ value path, check value path = [] ↔ property_ok value p.

Lemma expectString_checks : checks expectString (needed text1).
Proof.
  intros [[| | |x| |]|] path; simpl; try done. case_bool_decide as E; [by subst|].
  split; [|done]. intros _. destruct x; [done|]. reflexivity.
Qed.

Lemma expectConst_checks c : checks (λ v, expectConst v c) (needed (literal c)).
Proof.
  intros [[| | |x| |]|] path; simpl; try done.
  case_bool_decide as E; [subst; by rewrite bool_decide_eq_true_2 by constructor|].
  by rewrite bool_decide_eq_false_2 by set_solver.
Qed.

Lemma expectEnum_checks xs : checks (λ v, expectEnum v xs) (needed (enum xs)).
Proof. intros [[| | |x| |]|] path; simpl; try done. by case_bool_decide. Qed.

Lemma expectHash_checks : checks expectHash (needed sha256_text).
Proof. intros [[| | |x| |]|] path; simpl; try done. by destruct (isHex64 x). Qed.

Lemma expectTimestamp_checks : checks expectTimestamp (needed (SText 0 None iso_8601)).
Proof. intros [[| | |x| |]|] path; simpl; try done. by destruct (is_iso_8601 x). Qed.

Lemma expectBoolean_checks : checks expectBoolean (needed SBoolean).
Proof. by intros [[| | | | |]|] path. Qed.

Lemma expectUnitIntervalNumber_checks : checks expectUnitIntervalNumber (needed SUnitInterval).
Proof. intros [[| |q| | |]|] path; simpl; try done. by destruct (Qle_bool 0 q && Qle_bool q 1). Qed.

Lemma expectIntegerFrom_checks least message :
  checks (λ v path, expectIntegerFrom least v path message) (needed (SInteger least false)).
Proof.
  intros [[| |q| | |]|] path; simpl; try done. unfold integer_within. rewrite andb_true_r.
  by destruct (Number.q_is_integer q && _).
Qed.

Lemma expectRationale_checks : checks expectRationale (needed (SText 1 (Some 240%nat) any_text)).
Proof.
  intros [[| | |x| |]|] path; simpl; try done. unfold length_within.
  rewrite andb_true_r, Nat.leb_antisym, (Nat.leb_antisym 240). simpl.
  case_bool_decide as E; [by subst|]. simpl.
  replace (String.length x <? 1)%nat with false by (destruct x; done). simpl.
  by destruct (240 <? String.length x)%nat.
Qed.

(** ** Checks of arrays and objects *)

Lemma each_nil (check : json → string → list ValidationError) s path items :
  (∀ v p, check v p = [] ↔ accepts s v = true) →
  each check path items = [] ↔ forallb (accepts s) items = true.
Proof.
  intros Hc. unfold each. rewrite forallb_true.
  assert (∀ k, mjoin (imap (λ i v, check v (at_index path (k + i)%nat)) items) = [] ↔
               Forall (λ v, accepts s v = true) items) as H; [|exact (H 0%nat)].
  induction items as [|v items IH]; intros k; simpl; [by split|].
  rewrite app_nil, Forall_cons, Hc. f_equiv. rewrite <- (IH (S k)).
  erewrite (imap_ext (_ ∘ S)); [done|]. intros i x _. simpl. do 2 f_equal. lia.
Qed.

Lemma expectStringArray_checks : checks expectStringArray (needed texts).
Proof.
  intros [[| | | |items|]|] path; try done. apply (each_nil expectStringItem text).
  by intros [] p.
Qed.

Lemma when_present_nil v check s :
  (∀ w, check w = [] ↔ property_ok w (needed s)) →
  when_present v check = [] ↔ property_ok v (optional s).
Proof. intros Hc. destruct v as [v|]; [exact (Hc (Some v))|by split]. Qed.

Lemma expectExactKeys_nil f keys path :
  expectExactKeys f keys path = [] ↔ Forall (λ kv, kv.1 ∈ keys) f.
Proof.
  unfold expectExactKeys. destruct (list_find _ f) as [[i kv]|] eqn:E.
  - apply list_find_Some in E as (Hi & Hn & _). split; [done|]. intros Hf. exfalso. apply Hn.
    exact (Forall_lookup_1 _ _ _ _ Hf Hi).
  - apply list_find_None in E. split; [intros _|done]. eapply Forall_impl; [exact E|].
    intros kv Hkv. by apply dec_stable.
Qed.

Definition same_keys (keys keys' : list string) : bool :=
  forallb (λ k, bool_decide (k ∈ keys')) keys && forallb (λ k, bool_decide (k ∈ keys)) keys'.

Lemma same_keys_spec keys keys' : same_keys keys keys' = true → ∀ k, k ∈ keys ↔ k ∈ keys'.
Proof.
  unfold same_keys. rewrite andb_true_iff, !forallb_true, !Forall_forall.
  intros [H1 H2] k. split; intros Hk; [apply (bool_decide_eq_true (k ∈ keys')), H1, Hk|].
  apply (bool_decide_eq_true (k ∈ keys)), H2, Hk.
Qed.

Lemma object_nil ps keys f path rest :
  same_keys keys ps.*1 = true →
  rest = [] ↔ Forall (λ p, property_ok (Json.get p.1 f) p.2) ps →
  expectExactKeys f keys path ++ rest = [] ↔ accepts (SObject ps) (JObject f) = true.
Proof.
  intros Hk Hr. rewrite app_nil, expectExactKeys_nil, Hr, accepts_object. f_equiv.
  apply Forall_iff. intros kv. by apply same_keys_spec.
Qed.

(** One check of a property. *)
Ltac solve_check :=
  first [ apply expectString_checks | apply expectConst_checks | apply expectEnum_checks
        | apply expectHash_checks | apply expectTimestamp_checks | apply expectBoolean_checks
        | apply expectUnitIntervalNumber_checks | apply expectIntegerFrom_checks
        | apply expectRationale_checks | apply expectStringArray_checks ].

(** Splits a sequence of checks into the properties of a schema; [tac] solves the
    checks of nested values. *)
Ltac solve_properties tac :=
  repeat (rewrite app_nil, Forall_cons; f_equiv); rewrite ?Forall_singleton; cbn [fst snd];
  first [ solve_check | tac | apply when_present_nil; intros w; first [solve_check | tac] ].

(** The check of an object is the check of its keys and of its properties. *)
Ltac solve_object def schema tac :=
  let v := fresh "value" in let p := fresh "path" in
  intros v p; unfold def, schema;
  destruct v as [[| | | | |f]|]; try done; cbn [isObject property_ok needed fst snd];
  apply object_nil; [reflexivity|solve_properties tac].

(** ** The checks of the parts of a test case *)

Lemma expectStep_nil value path : expectStep value path = [] ↔ accepts step_checked value = true.
Proof.
  enough (checks (λ v p, match v with Some v => expectStep v p | None => report p "" end)
            (needed step_checked)) as H by exact (H (Some value) path).
  solve_object expectStep step_checked fail.
Qed.

Lemma expectStepsArray_checks : checks expectStepsArray (needed (SArray 1 step_checked)).
Proof.
  intros [[| | | |[|v items]|]|] path; try done.
  exact (each_nil expectStep step_checked path (v :: items) expectStep_nil).
Qed.

Lemma expectTraceRef_nil value path :
  expectTraceRef value path = [] ↔ accepts trace_ref_checked value = true.
Proof.
  enough (checks (λ v p, match v with Some v => expectTraceRef v p | None => report p "" end)
            (needed trace_ref_checked)) as H by exact (H (Some value) path).
  solve_object expectTraceRef trace_ref_checked fail.
Qed.

Lemma expectTraceRefs_checks : checks expectTraceRefs (needed (SArray 0 trace_ref_checked)).
Proof.
  intros [[| | | |items|]|] path; try done.
  exact (each_nil expectTraceRef trace_ref_checked path items expectTraceRef_nil).
Qed.

Lemma expectQcMapping_checks : checks expectQcMapping (needed qc_mapping_checked).
Proof. solve_object expectQcMapping qc_mapping_checked fail. Qed.

Lemma expectAmbiguity_checks : checks expectAmbiguity (needed (SObject [("reason", needed text1)])).
Proof. solve_object expectAmbiguity text1 fail. Qed.

Lemma expectQualitySignals_checks : checks expectQualitySignals (needed quality_signals_zod).
Proof.
  solve_object expectQualitySignals quality_signals_zod ltac:(apply expectAmbiguity_checks).
Qed.

Lemma expectConfidenceComponents_checks :
  checks expectConfidenceComponents (needed confidence_components_zod).
Proof. solve_object expectConfidenceComponents confidence_components_zod fail. Qed.

Lemma expectSnapshotSource_checks : checks expectSnapshotSource (needed snapshot_source_checked).
Proof. solve_object expectSnapshotSource snapshot_source_checked fail. Qed.

Lemma expectAudit_checks : checks expectAudit (needed audit_checked).
Proof. solve_object expectAudit audit_checked ltac:(apply expectSnapshotSource_checks). Qed.

Lemma expectRegulatoryRelevance_checks :
  checks expectRegulatoryRelevance (needed regulatory_relevance_zod).
Proof. solve_object expectRegulatoryRelevance regulatory_relevance_zod fail. Qed.

Ltac solve_nested :=
  first [ apply expectStepsArray_checks | apply expectTraceRefs_checks
        | apply expectQcMapping_checks | apply expectQualitySignals_checks
        | apply expectConfidenceComponents_checks | apply expectAudit_checks
        | apply expectRegulatoryRelevance_checks ].

(** The properties [ps] of [tc] pass their checks. *)
Definition properties_ok (tc : fields) (ps : list (string * (bool * schema))) : Prop :=
  Forall (λ p, property_ok (Json.get p.1 tc) p.2) ps.

Lemma identity_nil tc path :
  validateTestCaseIdentity tc path = [] ↔ properties_ok tc identity_checked.
Proof. unfold validateTestCaseIdentity, properties_ok, identity_checked. solve_properties fail. Qed.

Lemma classification_nil tc path :
  validateTestCaseClassification tc path = [] ↔ properties_ok tc classification_checked.
Proof.
  unfold validateTestCaseClassification, properties_ok, classification_checked.
  solve_properties fail.
Qed.

Lemma body_nil tc path : validateTestCaseBody tc path = [] ↔ properties_ok tc body_checked.
Proof. unfold validateTestCaseBody, properties_ok, body_checked. solve_properties solve_nested. Qed.

Lemma validateTestCase_nil value path :
  validateTestCase value path = [] ↔
  accepts (SObject (identity_checked ++ classification_checked ++ body_checked)) value = true.
Proof.
  unfold validateTestCase. destruct value as [| | | | |f]; try done. cbn [isObject].
  apply object_nil; [reflexivity|].
  by rewrite !app_nil, !Forall_app, identity_nil, classification_nil, body_nil.
Qed.

Lemma validator_nil value :
  validateGeneratedTestCaseList value = [] ↔ accepts validator_schema value = true.
Proof.
  unfold validateGeneratedTestCaseList, validator_schema.
  destruct value as [| | | | |f]; try done. cbn [isObject].
  apply object_nil; [reflexivity|]. rewrite app_nil, Forall_cons. f_equiv; [apply expectConst_checks|].
  rewrite app_nil, Forall_cons. f_equiv; [apply expectString_checks|].
  rewrite Forall_singleton. cbn [fst snd]. destruct (Json.get "testCases" f) as [[| | | |items|]|]; try done.
  exact (each_nil validateTestCase _ "$.testCases" items validateTestCase_nil).
Qed.

Lemma valid_iff value : valid value = true ↔ accepts validator_schema value = true.
Proof.
  unfold valid. rewrite bool_decide_eq_true, <- validator_nil. apply length_zero_iff_nil.
Qed.

(** ** Properties *)

(** The same schema with optional texts required to be non-empty when present. *)
Fixpoint without_empty_options (s : schema) : schema :=
  match s with
  | SArray least item => SArray least (without_empty_options item)
  | SObject ps =>
      SObject (map (λ p, (p.1, (p.2.1, match p.2 with
                                      | (true, SText 0 most any_text) => SText 1 most any_text
                                      | _ => without_empty_options p.2.2
                                      end))) ps)
  | _ => s
  end.

Definition strings (xs : list string) : json := JArray (JString <$> xs).
Definition hex64 : string := "0123456789abcdef0123456789abcdef0123456789abcdef0123456789abcdef".

(** A list with one test case, of the given title and with the given test data in
    its only step. *)
Definition sample_list (title data : string) : json :=
  JObject
    [("schemaVersion", JString GENERATED_TEST_CASE_SCHEMA_VERSION); ("jobId", JString "job");
     ("testCases", JArray
        [JObject
           [("id", JString "tc-1"); ("sourceJobId", JString "job");
            ("contractVersion", JString TEST_INTELLIGENCE_CONTRACT_VERSION);
            ("schemaVersion", JString GENERATED_TEST_CASE_SCHEMA_VERSION);
            ("promptTemplateVersion", JString TEST_INTELLIGENCE_PROMPT_TEMPLATE_VERSION);
            ("title", JString title); ("objective", JString "log in"); ("level", JString "system");
            ("type", JString "functional"); ("priority", JString "p1");
            ("riskCategory", JString "low"); ("technique", JString "use_case");
            ("preconditions", strings []); ("testData", strings []);
            ("steps", JArray [JObject [("index", Json.jint 1); ("action", JString "open the page");
                                       ("data", JString data)]]);
            ("expectedResults", strings ["the page opens"]); ("figmaTraceRefs", JArray []);
            ("assumptions", strings []); ("openQuestions", strings []);
            ("qcMappingPreview", JObject [("exportable", JBool true)]);
            ("qualitySignals", JObject
               [("coveredFieldIds", strings []); ("coveredActionIds", strings []);
                ("coveredValidationIds", strings []); ("coveredNavigationIds", strings []);
                ("confidence", JNumber (1 # 2))]);
            ("reviewState", JString "draft");
            ("audit", JObject
               [("jobId", JString "job"); ("generatedAt", JString "2026-01-02T03:04:05.678Z");
                ("contractVersion", JString TEST_INTELLIGENCE_CONTRACT_VERSION);
                ("schemaVersion", JString GENERATED_TEST_CASE_SCHEMA_VERSION);
                ("promptTemplateVersion", JString TEST_INTELLIGENCE_PROMPT_TEMPLATE_VERSION);
                ("redactionPolicyVersion", JString "1"); ("visualSidecarSchemaVersion", JString "1");
                ("cacheHit", JBool false); ("cacheKey", JString "key"); ("inputHash", JString hex64);
                ("promptHash", JString hex64); ("schemaHash", JString hex64)])]])].

Definition long_title : string := hex64 +:+ hex64 +:+ hex64 +:+ hex64.

(** The gateway's schema and the validator have drifted apart at exactly these
    places. A list that conforms to the schema is accepted by the validator
    whenever its optional texts are not empty, but there are conforming lists it
    refuses, and it accepts lists that do not conform. *)
Theorem gateway_schema_drift :
  drift "$" generatedTestCaseListZodSchema validator_schema =
    ["$.testCases[].steps[].data"; "$.testCases[].steps[].expected";
     "$.testCases[].figmaTraceRefs[].nodeId"; "$.testCases[].figmaTraceRefs[].nodeName";
     "$.testCases[].figmaTraceRefs[].nodePath"; "$.testCases[].qcMappingPreview.folderHint";
     "$.testCases[].qcMappingPreview.mappingProfileId"] ∧
  drift "$" validator_schema generatedTestCaseListZodSchema =
    ["$.testCases[].title"; "$.testCases[].objective"; "$.testCases[].steps[].index";
     "$.testCases[].qcMappingPreview.blockingReasons[]";
     "$.testCases[].audit.truncatedInstructionCount";
     "$.testCases[].audit.snapshotSource.selectedNodeIds[]";
     "$.testCases[].audit.snapshotSource.selectedPageIds[]";
     "$.testCases[].audit.snapshotSource.selectedFrameIds[]"] ∧
  (∀ value, accepts (without_empty_options generatedTestCaseListZodSchema) value = true →
            validateGeneratedTestCaseList value = []) ∧
  (accepts generatedTestCaseListZodSchema (sample_list "title" "") = true ∧
   validateGeneratedTestCaseList (sample_list "title" "") =
     report "$.testCases[0].steps[0].data" "expected non-empty string") ∧
  (validateGeneratedTestCaseList (sample_list long_title "data") = [] ∧
   accepts generatedTestCaseListZodSchema (sample_list long_title "data") = false).
Proof.
  split_all; [vm_compute; reflexivity|vm_compute; reflexivity| |vm_compute; reflexivity..].
  intros value Hv. apply validator_nil.
  apply (drift_sound (without_empty_options generatedTestCaseListZodSchema) validator_schema "$");
    [vm_compute; reflexivity|exact Hv].
Qed.
