(* ===== verification/ReplayCache.v ===== *)
(** * The replay cache

    [packages/model-gateway/src/replay-cache.ts]: the interface [ReplayCache], the
    execution of a generation through it, and the memory and file-system caches.
    A cache is a record of operations on a state; test-case lists and cache keys
    are JSON values. *)

From S2P Require Import Prelude JsString JsList JsValue CanonicalJson Contracts JsonView.
From S2P Require Import Tenant TestCaseValidator TestCaseSchema.

(** ** Entries *)

Record ReplayCacheEntry := {
  re_key : string;
  re_storedAt : string;
  re_testCases : json;
}.

Inductive ReplayCacheLookupResult : Type :=
| hit (entry : ReplayCacheEntry)
| miss (key : string).

(** [ReplayCacheValidationError]: what was wrong with an entry; a [TypeError] of
    [markAuditCacheHit]; the violation a cache bound to a tenant scope throws; a file that
    exists and cannot be read. *)
Inductive CacheError : Type :=
| not_json
| entry_not_object
| entry_key_mismatch
| entry_missing_storedAt
| entry_missing_testCases
| schema_violations (errors : list ValidationError)
| not_a_list
| isolation_violation (v : TenantIsolationViolation)
| unreadable (name : string).

(** The interface, on a state [S]. *)
Record ReplayCache (S : Type) := {
  rc_lookup : json → S → outcome CacheError ReplayCacheLookupResult * S;
  rc_store : json → json → S → outcome CacheError unit * S;
}.
Arguments rc_lookup {S}.
Arguments rc_store {S}.

Definition computeReplayCacheKeyDigest `{JsonDigest} (key : json) : string := sha256Hex_json key.

(** ** Executing a generation *)

Definition mark_case (cacheHit : bool) (testCase : json) : json :=
  spread_with (Some testCase) "audit"
    (spread_with (match testCase with JObject f => Json.get "audit" f | _ => None end)
       "cacheHit" (JBool cacheHit)).

(** [testCases.testCases.map] is a [TypeError] when there is no such array. *)
Definition markAuditCacheHit (testCases : json) (cacheHit : bool) : outcome CacheError json :=
  match testCases with
  | JObject f =>
      match Json.get "testCases" f with
      | Some (JArray cases) =>
          Ok (spread_with (Some testCases) "testCases" (JArray (mark_case cacheHit <$> cases)))
      | _ => Throw not_a_list
      end
  | _ => Throw not_a_list
  end.

Record ReplayCacheExecutionResult := {
  ex_cacheHit : bool;
  ex_key : string;
  ex_testCases : json;
}.

(** The result, the state after it and the digests [generate] was called with. *)
Definition executeWithReplayCache {S} (cache : ReplayCache S) (cacheKey : json)
    (generate : string → json) (s : S) :
    outcome CacheError ReplayCacheExecutionResult * S * list string :=
  match rc_lookup cache cacheKey s with
  | (Throw e, s1) => (Throw e, s1, [])
  | (Ok (hit entry), s1) =>
      match markAuditCacheHit (re_testCases entry) true with
      | Throw e => (Throw e, s1, [])
      | Ok testCases =>
          (Ok {| ex_cacheHit := true; ex_key := re_key entry; ex_testCases := testCases |}, s1, [])
      end
  | (Ok (miss key), s1) =>
      match markAuditCacheHit (generate key) false with
      | Throw e => (Throw e, s1, [key])
      | Ok generated =>
          match rc_store cache cacheKey generated s1 with
          | (Throw e, s2) => (Throw e, s2, [key])
          | (Ok _, s2) =>
              (Ok {| ex_cacheHit := false; ex_key := key; ex_testCases := generated |}, s2, [key])
          end
      end
  end.

(** ** The memory cache *)

Definition EPOCH : string := "1970-01-01T00:00:00.000Z".

Definition stored_entry `{JsonDigest} (key testCases : json) : ReplayCacheEntry :=
  {| re_key := computeReplayCacheKeyDigest key; re_storedAt := EPOCH; re_testCases := testCases |}.

Definition memory_lookup `{JsonDigest} (key : json) (s : gmap string ReplayCacheEntry) :
    outcome CacheError ReplayCacheLookupResult * gmap string ReplayCacheEntry :=
  let digest := computeReplayCacheKeyDigest key in
  (Ok match s !! digest with None => miss digest | Some found => hit found end, s).

Definition memory_store `{JsonDigest} (key testCases : json) (s : gmap string ReplayCacheEntry) :
    outcome CacheError unit * gmap string ReplayCacheEntry :=
  let digest := computeReplayCacheKeyDigest key in
  if negb (valid testCases)
  then (Throw (schema_violations (validateGeneratedTestCaseList testCases)), s)
  else (Ok tt, <[digest := stored_entry key testCases]> s).

Definition createMemoryReplayCache `{JsonDigest} : ReplayCache (gmap string ReplayCacheEntry) :=
  {| rc_lookup := memory_lookup; rc_store := memory_store |}.

(** ** The file-system cache *)

Definition cache_entry_fields (entry : ReplayCacheEntry) : list (string * option json) :=
  [("key", Some (JString (re_key entry))); ("storedAt", Some (JString (re_storedAt entry)));
   ("testCases", Some (re_testCases entry))].
Definition cache_entry_json (entry : ReplayCacheEntry) : json := JObject (Json.literal (cache_entry_fields entry)).

Definition decodeEntry (digest : string) (parsed : json) : outcome CacheError ReplayCacheEntry :=
  match parsed with
  | JObject candidate =>
      if negb (Json.eq_string (Json.get "key" candidate) digest) then Throw entry_key_mismatch
      else match Json.get "storedAt" candidate with
           | Some (JString storedAt) =>
               match Json.get "testCases" candidate with
               | Some (JObject _ as testCases) | Some (JArray _ as testCases) =>
                   Ok {| re_key := digest; re_storedAt := storedAt; re_testCases := testCases |}
               | _ => Throw entry_missing_testCases
               end
           | _ => Throw entry_missing_storedAt
           end
  | _ => Throw entry_not_object
  end.

(** The text of a cache file: the value it parses to, if it is JSON. *)
Definition file_text : Type := option json.

(** Decoding and validating the text of an entry. *)
Definition read_entry (digest : string) (raw : file_text) : outcome CacheError ReplayCacheEntry :=
  match raw with
  | None => Throw not_json
  | Some parsed =>
      (let* entry := decodeEntry digest parsed in
       if negb (valid (re_testCases entry))
       then Throw (schema_violations (validateGeneratedTestCaseList (re_testCases entry)))
       else Ok entry)%outcome
  end.

(** The files of the root directory by digest. *)
Definition fs_lookup `{JsonDigest} (key : json) (s : gmap string file_text) :
    outcome CacheError ReplayCacheLookupResult * gmap string file_text :=
  let digest := computeReplayCacheKeyDigest key in
  (match s !! digest with
   | None => Ok (miss digest)
   | Some raw => outcome_map hit (read_entry digest raw)
   end, s).

Definition fs_store `{JsonDigest} (key testCases : json) (s : gmap string file_text) :
    outcome CacheError unit * gmap string file_text :=
  let digest := computeReplayCacheKeyDigest key in
  if negb (valid testCases)
  then (Throw (schema_violations (validateGeneratedTestCaseList testCases)), s)
  else (Ok tt, <[digest := Some (canonicalJson (cache_entry_json (stored_entry key testCases)))]> s).

Definition createFileSystemReplayCache `{JsonDigest} : ReplayCache (gmap string file_text) :=
  {| rc_lookup := fs_lookup; rc_store := fs_store |}.

(** ** Validity of marked and of canonical lists *)

(** The schema names no property [__proto__], which canonical texts lose. *)
Fixpoint proto_free (s : schema) : bool :=
  match s with
  | SArray _ item => proto_free item
  | SObject ps => forallb (λ p, negb (String.eqb p.1 PROTO) && proto_free p.2.2) ps
  | _ => true
  end.

Lemma own_order_keys f : (own_order f).*1 ≡ₚ f.*1.
Proof. by rewrite own_order_Permutation. Qed.

Lemma sorted_keys f out k :
  sortValue (JObject f) = JObject out → k ∈ out.*1 → k ∈ f.*1.
Proof.
  simpl. intros [= <-]. unfold assign_all. rewrite own_order_keys.
  intros (p & -> & [_ Hp]%list_elem_of_filter)%list_elem_of_fmap.
  rewrite js_sort_Permutation in Hp. apply list_elem_of_fmap in Hp as (q & -> & Hq).
  apply list_elem_of_fmap. by exists q.
Qed.

Lemma accepts_canonical s v :
  proto_free s = true → accepts s v = true → accepts s (canonicalJson v) = true.
Proof.
  unfold canonicalJson. revert v.
  induction s as [l m f| |l b| |l item IH|ps IH] using schema_nested_ind; intros v Hp Hv;
    destruct v as [| | | |items|f']; try done.
  - simpl in *. apply andb_true_iff in Hv as [Hl Hv]. rewrite length_map.
    rewrite Hl. simpl. rewrite forallb_true in *. apply Forall_map.
    eapply Forall_impl; [exact Hv|]. intros x. by apply IH.
  - apply accepts_object in Hv as [Hk Hv].
    destruct (sortValue (JObject f')) as [| | | | |out] eqn:Es; try (simpl in Es; discriminate).
    apply accepts_object. split.
    + rewrite Forall_forall in *. intros kv Hin.
      assert (kv.1 ∈ f'.*1) as Hin'
        by (eapply sorted_keys; [exact Es|]; apply list_elem_of_fmap; by exists kv).
      apply list_elem_of_fmap in Hin' as (q & -> & Hq). by apply Hk.
    + simpl in Hp. rewrite forallb_true in Hp. rewrite Forall_forall in *. intros p Hin.
      specialize (Hp p Hin). apply andb_true_iff in Hp as [Hpk Hpp].
      destruct (String.eqb_spec p.1 PROTO) as [|Hne]; [done|].
      destruct (get_sortValue p.1 f' Hne) as (out' & Es' & Hg). rewrite Es in Es'.
      injection Es' as <-. specialize (Hv p Hin). unfold property_ok in *. rewrite Hg.
      destruct (Json.get p.1 f') as [w|]; simpl; [|done]. by apply (IH p Hin).
Qed.

Lemma valid_canonical v : valid v = true → valid (canonicalJson v) = true.
Proof. rewrite !valid_iff. apply accepts_canonical. reflexivity. Qed.

Lemma lookup_property_elem {A} k (ps : list (string * A)) a : lookup_property k ps = Some a → (k, a) ∈ ps.
Proof.
  unfold lookup_property. intros ([k' a'] & E & ->)%fmap_Some. apply find_by_Some in E as [Hin Ek].
  simpl in Ek. by subst.
Qed.

(** Replacing a property by a value its schema accepts. *)
Lemma accepts_set_field ps f k o s v :
  bool_decide (NoDup ps.*1) = true → lookup_property k ps = Some (o, s) → accepts s v = true →
  accepts (SObject ps) (JObject f) = true →
  accepts (SObject ps) (JObject (set_field k v f)) = true.
Proof.
  intros Hnd%bool_decide_eq_true Hk Hv [Hf Hp]%accepts_object.
  pose proof (lookup_property_elem _ _ _ Hk) as Hin.
  apply accepts_object. rewrite !Forall_forall in *. split.
  - intros kv Hkv. destruct (proj1 (set_field_keys k v f kv.1)) as [->|Hin'];
      [apply list_elem_of_fmap; by exists kv|apply list_elem_of_fmap; by exists (k, (o, s))|].
    apply list_elem_of_fmap in Hin' as (q & -> & Hq). by apply Hf.
  - intros [k' p] Hp'. unfold property_ok. cbn [fst snd]. rewrite get_set_field.
    destruct (String.eqb_spec k' k) as [->|_]; [|by apply (Hp (k', p))].
    rewrite (lookup_property_Some k ps p Hnd Hp') in Hk. by injection Hk as ->.
Qed.

(** A property an object must have. *)
Lemma accepts_get ps f k s :
  lookup_property k ps = Some (false, s) → accepts (SObject ps) (JObject f) = true →
  ∃ v, Json.get k f = Some v ∧ accepts s v = true.
Proof.
  intros Hin%lookup_property_elem [_ Hp]%accepts_object. rewrite Forall_forall in Hp.
  specialize (Hp _ Hin). simpl in Hp. destruct (Json.get k f) as [v|]; [by exists v|done].
Qed.

Definition test_case_properties : list (string * (bool * schema)) :=
  identity_checked ++ classification_checked ++ body_checked.
Definition test_case_checked : schema := SObject test_case_properties.
Definition audit_properties : list (string * (bool * schema)) :=
  match audit_checked with SObject ps => ps | _ => [] end.
Definition root_properties : list (string * (bool * schema)) :=
  match validator_schema with SObject ps => ps | _ => [] end.

Lemma mark_case_accepts b tc :
  accepts test_case_checked tc = true → accepts test_case_checked (mark_case b tc) = true.
Proof.
  intros Htc. destruct tc as [| | | | |f]; try done.
  destruct (accepts_get test_case_properties f "audit" audit_checked eq_refl Htc) as (a & Hg & Ha).
  destruct a as [| | | | |fa]; try done.
  unfold mark_case, spread_with. rewrite Hg.
  apply (accepts_set_field test_case_properties f "audit" false audit_checked);
    [vm_compute; reflexivity|reflexivity| |done].
  by apply (accepts_set_field audit_properties fa "cacheHit" false SBoolean);
    [vm_compute; reflexivity|reflexivity| |].
Qed.

Lemma valid_list v :
  valid v = true →
  ∃ f cases, v = JObject f ∧ Json.get "testCases" f = Some (JArray cases) ∧
             Forall (λ tc, accepts test_case_checked tc = true) cases.
Proof.
  intros Hv%valid_iff. destruct v as [| | | | |f]; try done.
  destruct (accepts_get root_properties f "testCases" (SArray 0 test_case_checked) eq_refl Hv)
    as (l & Hg & Hl).
  destruct l as [| | | |cases|]; try done. exists f, cases. split_all; try done.
  by apply forallb_true.
Qed.

(** Marking a valid list is possible and gives a valid list. *)
Lemma markAuditCacheHit_valid v b :
  valid v = true → ∃ v', markAuditCacheHit v b = Ok v' ∧ valid v' = true.
Proof.
  intros Hv. destruct (valid_list v Hv) as (f & cases & -> & Hg & Hc).
  eexists. cbn [markAuditCacheHit]. rewrite Hg. split; [done|]. apply valid_iff. apply valid_iff in Hv.
  apply (accepts_set_field root_properties f "testCases" false (SArray 0 test_case_checked));
    [vm_compute; reflexivity|reflexivity| |done].
  apply (forallb_true (accepts test_case_checked)), Forall_fmap.
  eapply Forall_impl; [exact Hc|]. intros tc. apply mark_case_accepts.
Qed.

Lemma markAuditCacheHit_Ok v b v' :
  markAuditCacheHit v b = Ok v' ↔
  ∃ f cases, v = JObject f ∧ Json.get "testCases" f = Some (JArray cases) ∧
             v' = JObject (set_field "testCases" (JArray (mark_case b <$> cases)) f).
Proof.
  unfold markAuditCacheHit. split.
  - destruct v as [| | | | |f]; try done.
    destruct (Json.get "testCases" f) as [[| | | |cases|]|] eqn:Hg; try done.
    intros [= <-]. by exists f, cases.
  - by intros (f & cases & -> & -> & ->).
Qed.

(** ** Marking and property order *)

Lemma plain_nil : plain (JObject []).
Proof. apply plain_object. split_all; [constructor|set_solver|constructor]. Qed.

Lemma plain_spread o k v :
  k ≠ PROTO → plain v → (∀ w, o = Some w → plain w) → plain (spread_with o k v).
Proof.
  intros Hk Hv Ho. apply plain_set_field; [done|done|].
  destruct o as [[| | | | |f]|]; try apply plain_nil. by apply Ho.
Qed.

Lemma plain_mark_case b tc : plain tc → plain (mark_case b tc).
Proof.
  intros Hp. apply plain_spread; [done| |by intros w [= <-]].
  apply plain_spread; [done|done|]. intros w Hw.
  destruct tc as [| | | | |ft]; try done. by eapply plain_get.
Qed.

Lemma json_equiv_refl v : plain v → json_equiv v v.
Proof. intros Hp. trans (sortValue v); [|symmetry]; by apply sortValue_equiv. Qed.

Lemma spread_equiv o1 o2 k v1 v2 :
  (∀ w, o1 = Some w → plain w) → option_Forall2 json_equiv o1 o2 → json_equiv v1 v2 →
  json_equiv (spread_with o1 k v1) (spread_with o2 k v2).
Proof.
  intros Hp Ho Hv. unfold spread_with.
  assert (json_equiv (JObject []) (JObject [])) as Hnil by (apply json_equiv_refl, plain_nil).
  destruct Ho as [w1 w2 Hw|].
  - specialize (Hp w1 eq_refl).
    destruct w1 as [| | | | |f1]; inversion Hw as [| | | | |? f2 ? ? ?]; subst;
      try (apply json_equiv_set_field; [constructor|done|done]).
    apply json_equiv_set_field; [|done|done]. by apply plain_object in Hp as [? _].
  - apply json_equiv_set_field; [constructor|done|done].
Qed.

Lemma mark_case_equiv b tc1 tc2 :
  plain tc1 → json_equiv tc1 tc2 → json_equiv (mark_case b tc1) (mark_case b tc2).
Proof.
  intros Hp He. apply spread_equiv; [by intros w [= <-]|by constructor|].
  apply spread_equiv; [| |constructor].
  - intros w Hw. destruct tc1 as [| | | | |f1]; try done. by eapply plain_get.
  - destruct tc1 as [| | | | |f1]; inversion He as [| | | | |? f2 ? ? ?]; subst; try constructor.
    apply json_equiv_get; [|done]. by apply plain_object in Hp as [? _].
Qed.

(** Marking does not depend on the order of properties. *)
Lemma mark_canonical v b v' :
  plain v → markAuditCacheHit v b = Ok v' →
  ∃ v'', markAuditCacheHit (canonicalJson v) b = Ok v'' ∧ canonicalJson v'' = canonicalJson v'.
Proof.
  intros Hp (f & cases & -> & Hg & ->)%markAuditCacheHit_Ok.
  pose proof (sortValue_equiv _ Hp) as He.
  destruct (get_sortValue "testCases" f) as (out & Es & Hg'); [done|].
  rewrite Hg in Hg'. simpl in Hg'. rewrite Es in He.
  eexists. split; [apply markAuditCacheHit_Ok; exists out, (map sortValue cases)|].
  { by split_all. }
  symmetry. apply sortValue_canonical.
  - apply plain_set_field; [done| |done]. cbn [plain]. rewrite (foldr_and_Forall plain).
    pose proof (plain_get _ _ _ Hp Hg) as Hc. cbn [plain] in Hc. rewrite (foldr_and_Forall plain) in Hc.
    apply Forall_fmap. eapply Forall_impl; [exact Hc|]. intros tc. apply plain_mark_case.
  - apply json_equiv_set_field; [by apply plain_object in Hp as [? _]|done|]. constructor.
    pose proof (plain_get _ _ _ Hp Hg) as Hc. cbn [plain] in Hc. rewrite (foldr_and_Forall plain) in Hc.
    clear -Hc. induction Hc as [|tc cases Htc _ IH]; simpl; constructor; [|done].
    apply mark_case_equiv; [done|]. by apply sortValue_equiv.
Qed.

(** ** Entries read back *)

(** A written entry is read back, its list in canonical order. *)
Lemma read_entry_canonical entry :
  valid (re_testCases entry) = true →
  read_entry (re_key entry) (Some (canonicalJson (cache_entry_json entry))) =
  Ok {| re_key := re_key entry; re_storedAt := re_storedAt entry;
        re_testCases := canonicalJson (re_testCases entry) |}.
Proof.
  intros Hv. set (fs := Json.literal (cache_entry_fields entry)).
  destruct (get_sortValue "key" fs) as (out & Es & Hk); [done|].
  destruct (get_sortValue "storedAt" fs) as (out2 & Es2 & Hs); [done|].
  destruct (get_sortValue "testCases" fs) as (out3 & Es3 & Ht); [done|].
  rewrite Es in Es2, Es3. injection Es2 as <-. injection Es3 as <-.
  unfold canonicalJson at 1, cache_entry_json. fold fs. rewrite Es. cbn [read_entry decodeEntry].
  rewrite Hk, Hs, Ht. cbn. rewrite bool_decide_eq_true_2 by done. cbn [negb].
  destruct (valid_list _ (valid_canonical _ Hv)) as (f & cases & Ec & _ & _).
  change (sortValue (re_testCases entry)) with (canonicalJson (re_testCases entry)).
  rewrite Ec. cbn [outcome_bind re_testCases]. rewrite <- Ec, valid_canonical by done. done.
Qed.

Lemma read_entry_Ok digest raw entry :
  read_entry digest raw = Ok entry → re_key entry = digest ∧ valid (re_testCases entry) = true.
Proof.
  destruct raw as [parsed|]; [|done]. cbn [read_entry]. intros H.
  apply outcome_bind_Ok in H as (e & Hd & H). destruct (valid (re_testCases e)) eqn:Hv; [|done].
  simpl in H. injection H as <-. split; [|done]. revert Hd. clear.
  destruct parsed as [| | | | |f]; try done. simpl. destruct (negb _); [done|].
  destruct (Json.get "storedAt" f) as [[]|]; try done.
  by destruct (Json.get "testCases" f) as [[]|]; try done; intros [= <-].
Qed.

(** ** The contract of a cache

    [ReplayCacheLaws read write] says of two caches on one state (the same cache
    at two times) what the client relies on: a list stored by [write] is found by
    [read], up to property order, as long as the cache [keeps] it; only valid
    lists are stored; a miss reports the digest of the key. *)
Class ReplayCacheLaws `{JsonDigest} {S} (read write : ReplayCache S)
    (keeps : json → json → S → Prop) : Prop := {
  law_store_found key testCases s s' :
    rc_store write key testCases s = (Ok tt, s') → keeps key testCases s →
    ∃ entry s'', rc_lookup read key s' = (Ok (hit entry), s'') ∧
      re_key entry = computeReplayCacheKeyDigest key ∧
      (re_testCases entry = testCases ∨ re_testCases entry = canonicalJson testCases);
  law_store_valid key testCases s s' :
    rc_store write key testCases s = (Ok tt, s') → valid testCases = true;
  law_miss_key key s k s' :
    rc_lookup write key s = (Ok (miss k), s') → k = computeReplayCacheKeyDigest key;
}.

Section replay.
Context `{JsonDigest} {S : Type} (read write : ReplayCache S) (keeps : json → json → S → Prop).
Context `{!ReplayCacheLaws read write keeps}.

Lemma execute_miss key generate s result s' calls :
  executeWithReplayCache write key generate s = (Ok result, s', calls) → ex_cacheHit result = false →
  ∃ s1, rc_lookup write key s = (Ok (miss (computeReplayCacheKeyDigest key)), s1) ∧
        calls = [computeReplayCacheKeyDigest key] ∧ ex_key result = computeReplayCacheKeyDigest key ∧
        markAuditCacheHit (generate (computeReplayCacheKeyDigest key)) false = Ok (ex_testCases result) ∧
        rc_store write key (ex_testCases result) s1 = (Ok tt, s').
Proof.
  unfold executeWithReplayCache.
  destruct (rc_lookup write key s) as [[[entry|k]|e] s1] eqn:El; [| |done].
  - by destruct (markAuditCacheHit (re_testCases entry) true); intros [= <- _ _].
  - pose proof (law_miss_key _ _ _ _ El) as ->.
    destruct (markAuditCacheHit (generate _) false) as [g|] eqn:Eg; [|done].
    destruct (rc_store write key g s1) as [[[]|] s2] eqn:Es; [|done].
    intros [= <- <- <-] _. by exists s1.
Qed.

Lemma replay_found key generate generate' s result s' calls :
  executeWithReplayCache write key generate s = (Ok result, s', calls) → ex_cacheHit result = false →
  keeps key (ex_testCases result) (rc_lookup write key s).2 →
  ∃ result' s'' replayed,
    executeWithReplayCache read key generate' s' = (Ok result', s'', []) ∧
    ex_cacheHit result' = true ∧ ex_key result' = ex_key result ∧
    markAuditCacheHit (ex_testCases result) true = Ok replayed ∧
    (plain (ex_testCases result) → canonicalJson (ex_testCases result') = canonicalJson replayed).
Proof.
  intros He Hf Hk. destruct (execute_miss _ _ _ _ _ _ He Hf) as (s1 & El & _ & Ekey & _ & Es).
  rewrite El in Hk. simpl in Hk.
  destruct (law_store_found _ _ _ _ Es Hk) as (entry & s'' & El' & Ek & Et).
  pose proof (law_store_valid _ _ _ _ Es) as Hv.
  destruct (markAuditCacheHit_valid _ true Hv) as (replayed & Hr & _).
  assert (valid (re_testCases entry) = true) as Hve by (destruct Et as [->| ->]; by try apply valid_canonical).
  destruct (markAuditCacheHit_valid _ true Hve) as (found & Hfd & _).
  unfold executeWithReplayCache. rewrite El', Hfd. eexists _, s'', replayed. split; [done|].
  split; [done|]. split; [simpl; congruence|]. split; [done|]. simpl. intros Hp.
  destruct Et as [Et|Et]; rewrite Et in Hfd; [congruence|].
  destruct (mark_canonical _ _ _ Hp Hr) as (v'' & Hv'' & E). congruence.
Qed.
End replay.

Lemma plain_markAuditCacheHit v b v' : plain v → markAuditCacheHit v b = Ok v' → plain v'.
Proof.
  intros Hp (f & cases & -> & Hg & ->)%markAuditCacheHit_Ok.
  pose proof (plain_get _ _ _ Hp Hg) as Hc. cbn [plain] in Hc. rewrite (foldr_and_Forall plain) in Hc.
  apply plain_set_field; [done| |done]. cbn [plain]. rewrite (foldr_and_Forall plain).
  apply Forall_fmap. eapply Forall_impl; [exact Hc|]. intros tc. apply plain_mark_case.
Qed.

Section caches.
Context `{JsonDigest}.

#[export] Instance memory_laws :
  ReplayCacheLaws createMemoryReplayCache createMemoryReplayCache (λ _ _ _, True).
Proof.
  split; cbn; unfold memory_store, memory_lookup;
    [intros key testCases s s'|intros key testCases s s'|intros key s k s'].
  - destruct (valid testCases); [|done]. intros [= <-] _. rewrite lookup_insert_eq.
    eexists _, _. split_all; [done|done|by left].
  - by destruct (valid testCases).
  - by destruct (s !! _); intros [= <-].
Qed.

Lemma fs_store_Ok key testCases s s' :
  fs_store key testCases s = (Ok tt, s') →
  valid testCases = true ∧
  s' = <[computeReplayCacheKeyDigest key :=
           Some (canonicalJson (cache_entry_json (stored_entry key testCases)))]> s.
Proof. unfold fs_store. by destruct (valid testCases); intros H0; inversion H0. Qed.

#[export] Instance file_system_laws :
  ReplayCacheLaws createFileSystemReplayCache createFileSystemReplayCache (λ _ _ _, True).
Proof.
  split; [intros key testCases s s' Hs _|intros key testCases s s' Hs|intros key s k s' Hl].
  - apply fs_store_Ok in Hs as [Hv ->]. cbn [rc_lookup createFileSystemReplayCache]. unfold fs_lookup.
    cbv zeta. rewrite lookup_insert_eq.
    pose proof (read_entry_canonical (stored_entry key testCases) Hv) as E. cbn [re_key stored_entry] in E.
    rewrite E. eexists _, _. split_all; [done|done|by right].
  - by apply fs_store_Ok in Hs as [Hv _].
  - revert Hl. cbn. unfold fs_lookup. destruct (s !! _); [|by intros [= <-]].
    by destruct (read_entry _ _).
Qed.

Lemma execute_fresh key generate s :
  s !! computeReplayCacheKeyDigest key = None →
  valid (generate (computeReplayCacheKeyDigest key)) = true →
  ∃ first s', executeWithReplayCache createFileSystemReplayCache key generate s =
                (Ok first, s', [computeReplayCacheKeyDigest key]) ∧
              ex_cacheHit first = false ∧ ex_key first = computeReplayCacheKeyDigest key ∧
              markAuditCacheHit (generate (computeReplayCacheKeyDigest key)) false =
                Ok (ex_testCases first) ∧ valid (ex_testCases first) = true.
Proof.
  intros Hs Hv. destruct (markAuditCacheHit_valid _ false Hv) as (g & Hg & Hvg).
  unfold executeWithReplayCache. cbn. unfold fs_lookup, fs_store. rewrite Hs, Hg, Hvg. simpl.
  by eexists _, _.
Qed.

(** The file-system cache replays a generation: when a key is new and the
    generated list is valid, the execution generates once, with the key's digest,
    and returns the list marked as generated; every later execution of that key
    leaves the cache alone, never generates, and returns the same list marked as a
    cache hit, up to the order of properties. *)
Theorem replay_reproduces_generation key generate s :
  let digest := computeReplayCacheKeyDigest key in
  s !! digest = None → valid (generate digest) = true → plain (generate digest) →
  ∃ first s' again replayed,
    executeWithReplayCache createFileSystemReplayCache key generate s = (Ok first, s', [digest]) ∧
    markAuditCacheHit (generate digest) false = Ok (ex_testCases first) ∧
    (∀ generate', executeWithReplayCache createFileSystemReplayCache key generate' s' =
                    (Ok again, s', [])) ∧
    ex_cacheHit first = false ∧ ex_cacheHit again = true ∧
    ex_key first = digest ∧ ex_key again = digest ∧
    valid (ex_testCases first) = true ∧ valid (ex_testCases again) = true ∧
    markAuditCacheHit (ex_testCases first) true = Ok replayed ∧
    canonicalJson (ex_testCases again) = canonicalJson replayed.
Proof.
  intros digest Hs Hv Hp.
  destruct (execute_fresh _ _ _ Hs Hv) as (first & s' & He & Hh & Hk & Hm & Hvf).
  destruct (replay_found createFileSystemReplayCache createFileSystemReplayCache (λ _ _ _, True)
              _ _ generate _ _ _ _ He Hh I) as (again & s'' & replayed & He' & Hh' & Hk' & Hr & Hc).
  assert (s'' = s' ∧ ∀ generate',
    executeWithReplayCache createFileSystemReplayCache key generate' s' =
    executeWithReplayCache createFileSystemReplayCache key generate s' ∧ 
    valid (ex_testCases again) = true) as [-> Hg].
  { revert He'. unfold executeWithReplayCache. cbn. unfold fs_lookup.
    destruct (s' !! _) as [raw|].
    - destruct (read_entry _ raw) as [entry|] eqn:Er; [|done]. cbn.
      apply read_entry_Ok in Er as [_ Hve].
      destruct (markAuditCacheHit_valid _ true Hve) as (v' & -> & Hv'). by intros [= <- <-].
    - cbn. destruct (markAuditCacheHit _ _); [|done]. by destruct (fs_store _ _ _) as [[[]|] ?]. }
  exists first, s', again, replayed. split_all; try done.
  - intros generate'. by rewrite (proj1 (Hg generate')).
  - by rewrite Hk'.
  - by apply Hg.
  - apply Hc. by eapply plain_markAuditCacheHit.
Qed.
End caches.

Lemma replay_reproduces_generation_witness :
  ∃ first s' again replayed,
    @executeWithReplayCache _ (@createFileSystemReplayCache zero_digest) (JString "k")
      (λ _, sample_list "title" "data") ∅ =
      (Ok first, s', [@computeReplayCacheKeyDigest zero_digest (JString "k")]) ∧
    (∀ generate', @executeWithReplayCache _ (@createFileSystemReplayCache zero_digest) (JString "k")
                    generate' s' = (Ok again, s', [])) ∧
    markAuditCacheHit (ex_testCases first) true = Ok replayed ∧
    canonicalJson (ex_testCases again) = canonicalJson replayed.
Proof.
  destruct (@replay_reproduces_generation zero_digest (JString "k") (λ _, sample_list "title" "data") ∅)
    as (first & s' & again & replayed & H1 & H2 & H3 & H4 & H5 & H6 & H7 & H8 & H9 & H10 & H11).
  - vm_compute. reflexivity.
  - vm_compute. reflexivity.
  - by repeat first [exact I | split | by apply (bool_decide_unpack _)].
  - by exists first, s', again, replayed.
Defined.
