(* ===== verification/PersistentCache.v ===== *)
(** * The persistent replay cache

    [packages/production-runner/src/replay-cache-persistent.ts]: a replay cache on
    disk, partitioned by tenant scope and bounded by a byte budget.

    The disk maps directories to their files by name, so that [join(dir, name)]
    is the file [name] of [dir]. The world also holds what the operations read of
    their surroundings: the clock, the contexts of the tenant guard with the store
    the caller runs under, and the unique part of the next temporary name. Reading,
    [stat], removing and renaming away can fail, and so can [utimes]; creating the
    directory of a store and writing and renaming its file are taken to succeed. *)

From Stdlib Require Import Ascii.
From S2P Require Import Prelude JsString NodePath JsList JsValue CanonicalJson Contracts JsonView.
From S2P Require Import Tenant TenantProof AirGap TestCaseValidator TestCaseSchema ReplayCache.

(** ** The file system *)

Record cache_file := { cf_text : file_text; cf_size : Z; cf_mtime : Z }.
#[warnings="-notation-for-abbreviation"] Notation directory := (gmap string cache_file).

(** What the operating system decides: the order of a listing, the length of a
    text in bytes, and which calls on a file fail. *)
Class FileSystem := {
  readdir : directory → list string;
  readdir_names d : readdir d ≡ₚ (map_to_list d).*1;
  byte_length : json → Z;
  byte_length_nonneg v : 0 ≤ byte_length v;
  can_read : string → string → bool;
  can_stat : string → string → bool;
  can_remove : string → string → bool;
  can_rename : string → string → bool;
  can_touch : string → string → bool;
}.

Record world := {
  w_disk : gmap string directory;
  w_now : Z;
  w_unique : string;
  w_contexts : contexts;
  w_store : store;
}.

Definition with_disk (f : gmap string directory → gmap string directory) (w : world) : world :=
  {| w_disk := f (w_disk w); w_now := w_now w; w_unique := w_unique w;
     w_contexts := w_contexts w; w_store := w_store w |}.
Definition with_contexts (h : contexts) (w : world) : world :=
  {| w_disk := w_disk w; w_now := w_now w; w_unique := w_unique w;
     w_contexts := h; w_store := w_store w |}.

Definition file_at (dir name : string) (w : world) : option cache_file :=
  files ← w_disk w !! dir; files !! name.

(** ** Options *)

Definition DEFAULT_PERSISTENT_REPLAY_CACHE_BYTE_BUDGET : Z := 100 * 1024 * 1024.
Definition DEFAULT_PERSISTENT_REPLAY_CACHE_STALE_THRESHOLD_MS : Z := 10 * 60 * 1000.

Record PersistentReplayCacheOptions := {
  po_tenantScope : TenantScope;
  po_byteBudget : option Z;
  po_staleThresholdMs : option Z;
}.

(** ** Helpers *)

Definition base36_digit (d : Z) : ascii :=
  ascii_of_nat (Z.to_nat (if d <? 10 then 48 + d else 87 + d)).
Fixpoint base36 (fuel : nat) (n : Z) (acc : string) : string :=
  match fuel with
  | O => acc
  | S fuel' =>
      let acc' := String (base36_digit (n mod 36)) acc in
      if n <? 36 then acc' else base36 fuel' (n / 36) acc'
  end.

(** [n.toString(36)] of an integer. *)
Definition to_string36 (n : Z) : string :=
  let digits := base36 (S (Z.to_nat (Z.log2 (Z.abs n)))) (Z.abs n) "" in
  if n <? 0 then String "-"%char digits else digits.

Section operations.
Context `{FileSystem}.

Definition quarantineCorruptCacheEntry (dir name : string) (w : world) : world :=
  match file_at dir name w with
  | None => w
  | Some file =>
      if can_rename dir name
      then with_disk (alter (λ files, <[name +:+ ".corrupt-" +:+ to_string36 (w_now w) := file]>
                                        (delete name files)) dir) w
      else if can_remove dir name then with_disk (alter (delete name) dir) w
      else w
  end.

(** [utimes(path, now, now)]. *)
Definition touch (dir name : string) (w : world) : world :=
  if can_touch dir name
  then with_disk (alter (alter (λ file, {| cf_text := cf_text file; cf_size := cf_size file;
                                           cf_mtime := w_now w |}) name) dir) w
  else w.

Definition is_stale (dir : string) (now thresholdMs : Z) (files : directory) (name : string) : bool :=
  match files !! name with
  | Some file => can_stat dir name && (now - cf_mtime file >? thresholdMs) && can_remove dir name
  | None => false
  end.

(** Each of the deletions concerns its own name. *)
Definition cleanStaleTmpFiles (dir : string) (thresholdMs : Z) (w : world) : world :=
  match w_disk w !! dir with
  | None => w
  | Some files =>
      let names := filter (λ name, ends_with ".tmp" name) (readdir files) in
      with_disk (insert dir
        (foldl (λ d name, if is_stale dir (w_now w) thresholdMs files name then delete name d else d)
               files names)) w
  end.

Record CacheFileInfo := { ci_name : string; ci_size : Z; ci_mtimeMs : Z }.

Definition stat_info (dir : string) (files : directory) (name : string) : option CacheFileInfo :=
  if can_stat dir name
  then (λ file, {| ci_name := name; ci_size := cf_size file; ci_mtimeMs := cf_mtime file |}) <$> files !! name
  else None.

Definition total_size (infos : list CacheFileInfo) : Z := foldl (λ sum f, sum + ci_size f) 0 infos.

Definition by_mtime : CacheFileInfo → CacheFileInfo → comparison := cmp_on ci_mtimeMs Z.compare.

(** The loop over the files from the oldest on. *)
Fixpoint evict_from (dir : string) (byteBudget remaining : Z) (infos : list CacheFileInfo)
    (files : directory) : directory :=
  match infos with
  | [] => files
  | info :: rest =>
      if remaining <=? byteBudget then files
      else if can_remove dir (ci_name info)
      then evict_from dir byteBudget (remaining - ci_size info) rest (delete (ci_name info) files)
      else evict_from dir byteBudget remaining rest files
  end.

Definition cache_infos (dir : string) (files : directory) : list CacheFileInfo :=
  omap (stat_info dir files) (filter (λ name, ends_with ".json" name) (readdir files)).

Definition evict_files (dir : string) (byteBudget : Z) (files : directory) : directory :=
  if bool_decide (filter (λ name, ends_with ".json" name) (readdir files) = []) then files
  else
    let infos := cache_infos dir files in
    let totalBytes := total_size infos in
    if totalBytes <=? byteBudget then files
    else evict_from dir byteBudget totalBytes (js_sort by_mtime infos) files.

Definition evictLru (dir : string) (byteBudget : Z) (w : world) : world :=
  match w_disk w !! dir with
  | None => w
  | Some files => with_disk (insert dir (evict_files dir byteBudget files)) w
  end.

(** ** The cache *)

(** [mkdir(dir, { recursive: true })]. *)
Definition make_directory (dir : string) : world → world :=
  with_disk (partial_alter (λ d, Some (default ∅ d)) dir).

(** [writeFile] to a temporary name, then [rename]. *)
Definition publish (dir name tmp : string) (v : json) (w : world) : world :=
  let file := {| cf_text := Some v; cf_size := byte_length v; cf_mtime := w_now w |} in
  with_disk (alter (λ files, <[name := file]> (delete tmp (<[tmp := file]> files))) dir) w.

Record persistent_cache := {
  pc_tenantScope : TenantScope;
  pc_scopeDir : string;
  pc_byteBudget : Z;
  pc_staleThresholdMs : Z;
}.

Context `{JsonDigest}.

(** [new Date(now).toISOString()]. *)
Context (toISOString : Z → string).

Definition file_name (digest : string) : string := digest +:+ ".json".
Definition tmp_name (digest : string) (w : world) : string := digest +:+ "." +:+ w_unique w +:+ ".tmp".

Definition persistent_lookup (c : persistent_cache) (key : json) (w : world) :
    outcome CacheError ReplayCacheLookupResult * world :=
  let digest := computeReplayCacheKeyDigest key in
  match recordPersistentStoreRead "replay-cache.lookup" (pc_tenantScope c) (w_contexts w) (w_store w) with
  | Throw v => (Throw (isolation_violation v), w)
  | Ok h =>
      let w := with_contexts h w in
      match file_at (pc_scopeDir c) (file_name digest) w with
      | None => (Ok (miss digest), w)
      | Some file =>
          if negb (can_read (pc_scopeDir c) (file_name digest)) then (Throw (unreadable (file_name digest)), w)
          else
            match read_entry digest (cf_text file) with
            | Throw _ => (Ok (miss digest), quarantineCorruptCacheEntry (pc_scopeDir c) (file_name digest) w)
            | Ok entry => (Ok (hit entry), touch (pc_scopeDir c) (file_name digest) w)
            end
      end
  end.

Definition persistent_store (c : persistent_cache) (key testCases : json) (w : world) :
    outcome CacheError unit * world :=
  let digest := computeReplayCacheKeyDigest key in
  match recordPersistentStoreRead "replay-cache.store" (pc_tenantScope c) (w_contexts w) (w_store w) with
  | Throw v => (Throw (isolation_violation v), w)
  | Ok h =>
      let w := with_contexts h w in
      if negb (valid testCases)
      then (Throw (schema_violations (validateGeneratedTestCaseList testCases)), w)
      else
        let w := make_directory (pc_scopeDir c) w in
        let w := cleanStaleTmpFiles (pc_scopeDir c) (pc_staleThresholdMs c) w in
        let entry := {| re_key := digest; re_storedAt := toISOString (w_now w); re_testCases := testCases |} in
        let w := publish (pc_scopeDir c) (file_name digest) (tmp_name digest w)
                   (canonicalJson (cache_entry_json entry)) w in
        (Ok tt, evictLru (pc_scopeDir c) (pc_byteBudget c) w)
  end.

Definition persistent_operations (c : persistent_cache) : ReplayCache world :=
  {| rc_lookup := persistent_lookup c; rc_store := persistent_store c |}.

Inductive ConstructionError : Type :=
| remote_root (e : AirGapResourceLocationError)
| bad_scope (e : SegmentError).

Definition createPersistentReplayCache (rootDir : string) (options : PersistentReplayCacheOptions)
    (e : env) : outcome ConstructionError persistent_cache :=
  match assertLocalFilesystemPath rootDir e with
  | Throw err => Throw (remote_root err)
  | Ok _ =>
      match resolveTenantScopeSegments (po_tenantScope options) with
      | Throw err => Throw (bad_scope err)
      | Ok segments =>
          Ok {| pc_tenantScope := po_tenantScope options;
                pc_scopeDir := posix_join (rootDir :: segments);
                pc_byteBudget := default DEFAULT_PERSISTENT_REPLAY_CACHE_BYTE_BUDGET (po_byteBudget options);
                pc_staleThresholdMs :=
                  default DEFAULT_PERSISTENT_REPLAY_CACHE_STALE_THRESHOLD_MS (po_staleThresholdMs options) |}
      end
  end.
End operations.

(** ** The state file of the circuit breaker

    The entries are JSON values by key; the key is none of the names that every
    object inherits from [Object.prototype]. *)

Definition PERSISTENT_CIRCUIT_BREAKER_STATE_SCHEMA_VERSION : string := "1.0.0".

Inductive CircuitStateError : Type :=
| state_syntax_error
| state_not_object
| state_entries_not_object.

(** The entries of the decoded file. *)
Definition decodePersistentCircuitBreakerStateFile (parsed : json) :
    outcome CircuitStateError (list (string * json)) :=
  match parsed with
  | JObject candidate =>
      match Json.get "entries" candidate with
      | Some (JObject entries) => Ok entries
      | _ => Throw state_entries_not_object
      end
  | _ => Throw state_not_object
  end.

(** [JSON.parse] of the text, then the decoder. *)
Definition parse_state (raw : file_text) : outcome CircuitStateError (list (string * json)) :=
  match raw with
  | None => Throw state_syntax_error
  | Some parsed => decodePersistentCircuitBreakerStateFile parsed
  end.

Definition loadPersistentCircuitBreakerState (file : option file_text) (key : string) :
    outcome CircuitStateError (option json) :=
  match file with
  | None => Ok None
  | Some raw => outcome_map (Json.get key) (parse_state raw)
  end.

Definition circuit_state_file (entries : list (string * json)) : json :=
  JObject (Json.literal
    [("schemaVersion", Some (JString PERSISTENT_CIRCUIT_BREAKER_STATE_SCHEMA_VERSION));
     ("entries", Some (JObject entries))]).

Definition writePersistentCircuitBreakerState (file : option file_text) (key : string) (entry : json) :
    outcome CircuitStateError file_text :=
  (let* entries :=
     match file with
     | None => Ok []
     | Some raw =>
         match parse_state raw with
         | Throw state_syntax_error => Ok []
         | r => r
         end
     end in
   Ok (Some (canonicalJson (circuit_state_file (set_field key entry entries)))))%outcome.

Lemma load_state_file entries key :
  key ≠ PROTO →
  loadPersistentCircuitBreakerState (Some (Some (canonicalJson (circuit_state_file entries)))) key =
  Ok (canonicalJson <$> Json.get key entries).
Proof.
  intros Hk. unfold circuit_state_file. set (fs := Json.literal _).
  destruct (get_sortValue "entries" fs) as (out & Es & Hg); [done|].
  destruct (get_sortValue key entries Hk) as (out' & Es' & Hg').
  unfold canonicalJson at 1. rewrite Es.
  assert (Json.get "entries" fs = Some (JObject entries)) as E by reflexivity.
  rewrite E in Hg. cbn [fmap option_fmap option_map] in Hg. rewrite Es' in Hg.
  cbn [loadPersistentCircuitBreakerState parse_state decodePersistentCircuitBreakerStateFile].
  rewrite Hg. unfold outcome_map. cbn [outcome_bind]. by rewrite Hg'.
Qed.

(** The state file of the circuit breaker is a map: a missing file has no
    entries; writing an entry fails only on a file whose JSON is not an object with
    an object of entries, and recovers from a text that is not JSON, which loading
    rejects; after a write the key holds the entry and every other key what it held
    before, in canonical property order. *)
Theorem circuit_state_write_then_load file key entry :
  key ≠ PROTO →
  match writePersistentCircuitBreakerState file key entry with
  | Throw err =>
      ∃ v, file = Some (Some v) ∧ decodePersistentCircuitBreakerStateFile v = Throw err ∧
           loadPersistentCircuitBreakerState file key = Throw err
  | Ok file' =>
      loadPersistentCircuitBreakerState (Some file') key = Ok (Some (canonicalJson entry)) ∧
      ∀ other, other ≠ PROTO → other ≠ key →
        loadPersistentCircuitBreakerState (Some file') other =
        match loadPersistentCircuitBreakerState file other with
        | Ok o => Ok (canonicalJson <$> o)
        | Throw _ => Ok None
        end ∧
        (loadPersistentCircuitBreakerState file other = Throw state_syntax_error ↔ file = Some None)
  end.
Proof.
  intros Hk.
  assert (∀ v, decodePersistentCircuitBreakerStateFile v ≠ Throw state_syntax_error) as Hns.
  { intros [| | | | |f]; try done. simpl. by destruct (Json.get "entries" f) as [[]|]. }
  assert (∀ entries, loadPersistentCircuitBreakerState
      (Some (Some (canonicalJson (circuit_state_file (set_field key entry entries))))) key =
      Ok (Some (canonicalJson entry))) as Hkey.
  { intros entries. rewrite load_state_file, get_set_field by done. by rewrite String.eqb_refl. }
  assert (∀ entries other, other ≠ PROTO → other ≠ key →
      loadPersistentCircuitBreakerState (Some (Some (canonicalJson (circuit_state_file (set_field key entry entries))))) other =
      Ok (canonicalJson <$> Json.get other entries)) as Hother.
  { intros entries other Ho Hne. rewrite load_state_file, get_set_field by done.
    by destruct (String.eqb_spec other key). }
  unfold writePersistentCircuitBreakerState. destruct file as [[v|]|]; simpl parse_state.
  - destruct (decodePersistentCircuitBreakerStateFile v) as [entries|err] eqn:Ed.
    + cbn [outcome_bind]. split; [apply Hkey|]. intros other Ho Hne. split.
      * rewrite Hother by done. cbn [loadPersistentCircuitBreakerState parse_state]. by rewrite Ed.
      * cbn [loadPersistentCircuitBreakerState parse_state]. by rewrite Ed.
    + specialize (Hns v). destruct err; [congruence|..]; cbn [outcome_bind];
        (exists v; split_all; [done|done|]; cbn [loadPersistentCircuitBreakerState parse_state]; by rewrite Ed).
  - cbn [outcome_bind]. split; [apply Hkey|]. intros other Ho Hne. split; [|done]. by rewrite Hother.
  - cbn [outcome_bind]. split; [apply Hkey|]. intros other Ho Hne. split; [|done]. by rewrite Hother.
Qed.

Lemma circuit_state_write_then_load_witness :
  loadPersistentCircuitBreakerState
    (Some (Some (canonicalJson (circuit_state_file (set_field "judge" (JString "open") []))))) "judge" =
  Ok (Some (JString "open")).
Proof.
  by destruct (circuit_state_write_then_load None "judge" (JString "open") ltac:(done)) as [H _].
Defined.

(** ** Eviction *)

Section eviction.
Context `{FileSystem}.

Lemma total_size_from acc l : foldl (λ sum f, sum + ci_size f) acc l = acc + total_size l.
Proof.
  unfold total_size. revert acc. induction l as [|i l IH]; intros acc; cbn [foldl]; [lia|].
  rewrite (IH (acc + _)), (IH (0 + ci_size i)). lia.
Qed.

Lemma total_size_cons i l : total_size (i :: l) = ci_size i + total_size l.
Proof. unfold total_size at 1. cbn [foldl]. rewrite total_size_from. lia. Qed.

Lemma total_size_app l1 l2 : total_size (l1 ++ l2) = total_size l1 + total_size l2.
Proof. induction l1 as [|i l1 IH]; [done|]. simpl. rewrite !total_size_cons, IH. lia. Qed.

#[export] Instance total_size_Permutation : Proper ((≡ₚ) ==> (=)) total_size.
Proof. induction 1; rewrite ?total_size_cons; lia. Qed.

Lemma elem_of_readdir files name : name ∈ readdir files ↔ is_Some (files !! name).
Proof.
  rewrite readdir_names, list_elem_of_fmap. split.
  - intros ([n f] & -> & Hin%elem_of_map_to_list). by exists f.
  - intros [f Hf]. exists (name, f). split; [done|]. by apply elem_of_map_to_list.
Qed.

Lemma NoDup_readdir files : NoDup (readdir files).
Proof. rewrite readdir_names. apply NoDup_fst_map_to_list. Qed.

(** The files the eviction counts. *)
Definition counted (files : directory) (i : CacheFileInfo) : Prop :=
  ends_with ".json" (ci_name i) = true ∧
  ∃ file, files !! ci_name i = Some file ∧ ci_size i = cf_size file ∧ ci_mtimeMs i = cf_mtime file.

Lemma elem_of_cache_infos dir files i :
  i ∈ cache_infos dir files ↔ can_stat dir (ci_name i) = true ∧ counted files i.
Proof.
  unfold cache_infos, counted. rewrite list_elem_of_omap. unfold stat_info. split.
  - intros (name & [He%Is_true_true Hin]%list_elem_of_filter & Hi). destruct (can_stat dir name) eqn:Hc; [|done].
    apply fmap_Some in Hi as (file & Hf & ->). simpl. split; [done|]. split; [done|]. by exists file.
  - intros (Hc & He & file & Hf & Hs & Hm). exists (ci_name i). split.
    + apply list_elem_of_filter. split; [by apply Is_true_true|]. apply elem_of_readdir. by exists file.
    + rewrite Hc, Hf. simpl. destruct i; simpl in *. congruence.
Qed.

Lemma NoDup_cache_infos dir files : NoDup (ci_name <$> cache_infos dir files).
Proof.
  unfold cache_infos. pose proof (NoDup_filter (λ name, ends_with ".json" name) _ (NoDup_readdir files)) as Hnd.
  induction Hnd as [|name names Hn Hnd IH]; simpl; [constructor|].
  unfold stat_info at 1. destruct (can_stat dir name); [|done].
  destruct (files !! name) as [file|]; simpl; [|done]. constructor; [|done].
  intros (i & -> & (name' & Hin & Hi)%list_elem_of_omap)%list_elem_of_fmap. apply Hn. simpl.
  unfold stat_info in Hi. destruct (can_stat dir name'); [|done].
  by apply fmap_Some in Hi as (? & _ & ->).
Qed.

Lemma evict_from_split dir budget remaining infos files :
  (∀ name, can_remove dir name = true) →
  ∃ evicted kept,
    infos = evicted ++ kept ∧
    (∀ name, evict_from dir budget remaining infos files !! name =
             if bool_decide (name ∈ ci_name <$> evicted) then None else files !! name) ∧
    (kept ≠ [] → remaining - total_size evicted ≤ budget) ∧
    (∀ before last, evicted = before ++ [last] → budget < remaining - total_size before).
Proof.
  intros Hr. revert remaining files. induction infos as [|i infos IH]; intros remaining files; simpl.
  - exists [], []. split_all; [done|done|done|]. by intros [].
  - destruct (Z.leb_spec remaining budget) as [Hle|Hlt].
    + exists [], (i :: infos). split_all; [done|done| |by intros []].
      intros _. change (total_size []) with 0. lia.
    + rewrite Hr. destruct (IH (remaining - ci_size i) (delete (ci_name i) files))
        as (evicted & kept & -> & Hl & Hk & He).
      exists (i :: evicted), kept. split_all; [done| | |].
      * intros name. rewrite Hl, fmap_cons, lookup_delete.
        repeat case_bool_decide; try case_decide; set_solver.
      * intros Hne. specialize (Hk Hne). rewrite total_size_cons. lia.
      * intros [|i' before] last; simpl; [intros [= -> ->]; change (total_size []) with 0; lia|].
        intros [= <- E]. specialize (He _ _ E). rewrite total_size_cons. lia.
Qed.

(** What the eviction does to a directory. *)
Record evicts (dir : string) (budget : Z) (files files' : directory) (evicted kept : list CacheFileInfo)
    : Prop := {
  ev_counted i : i ∈ evicted ++ kept ↔ counted files i;
  ev_names : NoDup (ci_name <$> evicted ++ kept);
  ev_oldest_first : StronglySorted (λ i j, ci_mtimeMs i ≤ ci_mtimeMs j) (evicted ++ kept);
  ev_files name : files' !! name = if bool_decide (name ∈ ci_name <$> evicted) then None else files !! name;
  ev_budget : total_size kept ≤ budget;
  ev_needed before last : evicted = before ++ [last] → budget < total_size (last :: kept);
}.

#[export] Instance by_mtime_ok : CmpOk by_mtime.
Proof. apply cmp_on_ok, _. Qed.

Lemma by_mtime_le i j : cmp_le by_mtime i j → ci_mtimeMs i ≤ ci_mtimeMs j.
Proof. unfold cmp_le, by_mtime, cmp_on. by rewrite Z.compare_le_iff. Qed.

Lemma sorted_infos dir files :
  StronglySorted (λ i j, ci_mtimeMs i ≤ ci_mtimeMs j) (js_sort by_mtime (cache_infos dir files)).
Proof. eapply StronglySorted_impl; [apply by_mtime_le|]. apply (js_sort_sorted by_mtime). Qed.

Lemma evict_files_evicts dir budget files :
  (∀ name, can_stat dir name = true) → (∀ name, can_remove dir name = true) → 0 ≤ budget →
  ∃ evicted kept, evicts dir budget files (evict_files dir budget files) evicted kept.
Proof.
  intros Hs Hr Hb. set (infos := cache_infos dir files).
  assert (∀ l, l ≡ₚ infos → ∀ i, i ∈ l ↔ counted files i) as Hc.
  { intros l Hl i. rewrite Hl. unfold infos. rewrite elem_of_cache_infos, Hs. tauto. }
  assert (∀ l, l ≡ₚ infos → NoDup (ci_name <$> l)) as Hn.
  { intros l Hl. rewrite Hl. apply NoDup_cache_infos. }
  assert (total_size infos ≤ budget →
          evicts dir budget files files [] (js_sort by_mtime infos)) as Hall.
  { intros Hle. pose proof (js_sort_Permutation by_mtime infos) as Hp. split; simpl.
    - by apply Hc.
    - by apply Hn.
    - apply sorted_infos.
    - done.
    - by rewrite Hp.
    - by intros []. }
  unfold evict_files. case_bool_decide as Hnil; [|cbv zeta; fold infos; destruct (Z.leb_spec (total_size infos) budget)].
  - eexists _, _. apply Hall. unfold infos, cache_infos. rewrite Hnil. done.
  - eexists _, _. by apply Hall.
  - destruct (evict_from_split dir budget (total_size infos) (js_sort by_mtime infos) files Hr)
      as (evicted & kept & E & Hl & Hk & He).
    pose proof (js_sort_Permutation by_mtime infos) as Hp. rewrite E in Hp.
    assert (total_size infos = total_size evicted + total_size kept) as Ht
      by by rewrite <- total_size_app, Hp.
    exists evicted, kept. split.
    + by apply Hc.
    + by apply Hn.
    + rewrite <- E. apply sorted_infos.
    + done.
    + destruct kept; [done|]. specialize (Hk ltac:(done)). lia.
    + intros before last ->. specialize (He _ _ eq_refl). rewrite total_size_app, total_size_cons in Ht.
      change (total_size []) with 0 in Ht. rewrite total_size_cons. lia.
Qed.

(** Eviction is LRU and minimal: when its calls succeed, it deletes exactly a
    prefix [evicted] of the directory's .json files from the oldest on, what it
    keeps fits the byte budget, keeping the last deleted file too would not, and
    files of other names and other directories stay as they are. *)
Theorem evictLru_spec dir budget w files :
  (∀ name, can_stat dir name = true) → (∀ name, can_remove dir name = true) → 0 ≤ budget →
  w_disk w !! dir = Some files →
  ∃ evicted kept files',
    w_disk (evictLru dir budget w) = <[dir := files']> (w_disk w) ∧
    evicts dir budget files files' evicted kept.
Proof.
  intros Hs Hr Hb Hd. destruct (evict_files_evicts dir budget files Hs Hr Hb) as (evicted & kept & He).
  exists evicted, kept, (evict_files dir budget files). split; [|done].
  unfold evictLru. by rewrite Hd.
Qed.
End eviction.

(** ** File names *)

Lemma base36_digit_no_dot d : 0 ≤ d < 36 → Ascii.eqb (base36_digit d) "."%char = false.
Proof.
  intros Hd. assert (d ∈ seqZ 0 36) as Hin by (apply elem_of_seqZ; lia).
  clear Hd. revert d Hin. apply Forall_forall. by apply (bool_decide_unpack _).
Qed.

Lemma base36_no_dot fuel n acc :
  0 ≤ n → has_char "."%char acc = false → has_char "."%char (base36 fuel n acc) = false.
Proof.
  revert n acc. induction fuel as [|fuel IH]; intros n acc Hn Ha; [done|]. cbn [base36].
  assert (has_char "."%char (String (base36_digit (n mod 36)) acc) = false) as Ha'.
  { cbn [has_char]. rewrite base36_digit_no_dot by (apply Z.mod_pos_bound; lia). done. }
  destruct (n <? 36); [done|]. apply IH; [|done]. apply Z.div_pos; lia.
Qed.

Lemma to_string36_no_dot n : has_char "."%char (to_string36 n) = false.
Proof.
  unfold to_string36. pose proof (base36_no_dot (S (Z.to_nat (Z.log2 (Z.abs n)))) (Z.abs n) "") as H.
  specialize (H (Z.abs_nonneg _) eq_refl). destruct (n <? 0); [|done]. by simpl.
Qed.

Lemma file_name_json digest : ends_with ".json" (file_name digest) = true.
Proof. apply ends_with_spec. by exists digest. Qed.

Lemma tmp_not_json name : ends_with ".tmp" name = true → ends_with ".json" name = false.
Proof.
  intros [r ->]%ends_with_spec. destruct (ends_with ".json" (r +:+ ".tmp")) eqn:E; [|done].
  apply ends_with_spec in E as [r' E]. by apply (extension_ne r r' "tmp" "json") in E.
Qed.

Lemma tmp_name_tmp digest w : ends_with ".tmp" (tmp_name digest w) = true.
Proof. apply ends_with_spec. exists (digest +:+ "." +:+ w_unique w). unfold tmp_name. by rewrite !string_app_assoc. Qed.

(** Quarantined entries are no cache files. *)
Lemma corrupt_not_json name n : ends_with ".json" (name +:+ ".corrupt-" +:+ to_string36 n) = false.
Proof.
  destruct (ends_with ".json" _) eqn:E; [|done]. apply ends_with_spec in E as [r E].
  apply (extension_ne name r ("corrupt-" +:+ to_string36 n) "json") in E; [done| |done|done].
  simpl. apply to_string36_no_dot.
Qed.

#[export] Hint Resolve file_name_json tmp_not_json tmp_name_tmp corrupt_not_json : js.

(** ** One tenant's operations *)

(** What an operation on the cache of [dir] leaves alone. *)
Record confined (dir : string) (w w' : world) : Prop := {
  cf_store : w_store w' = w_store w;
  cf_now : w_now w' = w_now w;
  cf_scopes : tc_scope <$> w_contexts w' = tc_scope <$> w_contexts w;
  cf_disk d : d ≠ dir → w_disk w' !! d = w_disk w !! d;
}.

#[export] Instance confined_preorder dir : PreOrder (confined dir).
Proof.
  split; [by split|]. intros w1 w2 w3 [S1 N1 C1 D1] [S2 N2 C2 D2]. split; [congruence..|].
  intros d Hd. by rewrite D2, D1.
Qed.

Lemma confined_with_disk dir f w :
  (∀ d, d ≠ dir → f (w_disk w) !! d = w_disk w !! d) → confined dir w (with_disk f w).
Proof. by split. Qed.

Lemma confined_alter dir f w : confined dir w (with_disk (alter f dir) w).
Proof. apply confined_with_disk. intros d Hd. by apply lookup_alter_ne. Qed.

Lemma confined_insert dir files w : confined dir w (with_disk (insert dir files) w).
Proof. apply confined_with_disk. intros d Hd. by apply lookup_insert_ne. Qed.

Lemma push_read_scopes operation h s : tc_scope <$> push_to operation h s = tc_scope <$> h.
Proof.
  destruct s as [i|]; [|done]. unfold push_to. revert i.
  induction h as [|ctx h IH]; intros [|i]; try done. change (alter ?f (S i) (ctx :: h)) with (ctx :: alter f i h).
  by rewrite !fmap_cons, IH.
Qed.

(** The guard's verdict depends on the active scope only. *)
Lemma guard_cases operation scope h s :
  (∃ h', recordPersistentStoreRead operation scope h s = Ok h' ∧ tc_scope <$> h' = tc_scope <$> h ∧
         ∀ active, getCurrentTenantScope h s = Some active → tenantScopesEqual active scope = true) ∨
  (∃ active, getCurrentTenantScope h s = Some active ∧ tenantScopesEqual active scope = false ∧
             recordPersistentStoreRead operation scope h s =
               Throw {| tv_operation := operation; tv_expected := active; tv_actual := scope |}).
Proof.
  unfold getCurrentTenantScope, recordPersistentStoreRead, assertTenantScope.
  destruct (getStore h s) as [ctx|]; simpl; [|by left; exists h].
  destruct (tenantScopesEqual (tc_scope ctx) scope) eqn:E; simpl.
  - left. eexists. split_all; [done|apply push_read_scopes|]. by intros ? [= <-].
  - right. by exists (tc_scope ctx).
Qed.

Lemma active_scopes h h' s :
  tc_scope <$> h' = tc_scope <$> h → getCurrentTenantScope h' s = getCurrentTenantScope h s.
Proof.
  intros E. unfold getCurrentTenantScope, getStore. destruct s as [i|]; [|done]. simpl.
  apply (f_equal (λ l, l !! i)) in E. by rewrite !list_lookup_fmap in E.
Qed.

Section isolation.
Context `{FileSystem, JsonDigest}.
Context (toISOString : Z → string).

Lemma lookup_confined c key w : confined (pc_scopeDir c) w (persistent_lookup c key w).2.
Proof.
  unfold persistent_lookup.
  destruct (guard_cases "replay-cache.lookup" (pc_tenantScope c) (w_contexts w) (w_store w))
    as [(h & -> & Hh & _)|(active & _ & _ & ->)]; [|done].
  trans (with_contexts h w); [by split|]. generalize (with_contexts h w). clear. intros w.
  destruct (file_at _ _ w) as [file|] eqn:Ef; [|done]. destruct (negb _); [done|].
  destruct (read_entry _ _) as [entry|]; simpl.
  - unfold touch. case_match; [apply confined_alter|done].
  - unfold quarantineCorruptCacheEntry. rewrite Ef. repeat case_match; (apply confined_alter || done).
Qed.

Lemma store_confined c key testCases w :
  confined (pc_scopeDir c) w (persistent_store toISOString c key testCases w).2.
Proof.
  unfold persistent_store.
  destruct (guard_cases "replay-cache.store" (pc_tenantScope c) (w_contexts w) (w_store w))
    as [(h & -> & Hh & _)|(active & _ & _ & ->)]; [|done].
  trans (with_contexts h w); [by split|]. generalize (with_contexts h w). clear. intros w.
  destruct (negb _); [done|]. cbv zeta. cbn [snd].
  trans (make_directory (pc_scopeDir c) w).
  { apply confined_with_disk. intros d Hd. by apply lookup_partial_alter_ne. }
  generalize (make_directory (pc_scopeDir c) w). clear. intros w.
  trans (cleanStaleTmpFiles (pc_scopeDir c) (pc_staleThresholdMs c) w).
  { unfold cleanStaleTmpFiles. case_match; [apply confined_insert|done]. }
  generalize (cleanStaleTmpFiles (pc_scopeDir c) (pc_staleThresholdMs c) w). clear. intros w.
  etrans; [|unfold evictLru; case_match; [apply confined_insert|done]]. apply confined_alter.
Qed.

(** The operations of a cache. *)
Inductive cache_op : Type :=
| op_lookup (key : json)
| op_store (key testCases : json).

Definition run_op (c : persistent_cache) (w : world) (op : cache_op) : world :=
  match op with
  | op_lookup key => (persistent_lookup c key w).2
  | op_store key testCases => (persistent_store toISOString c key testCases w).2
  end.
Definition run_ops (c : persistent_cache) (ops : list cache_op) (w : world) : world := foldl (run_op c) w ops.

Lemma run_ops_confined c ops w : confined (pc_scopeDir c) w (run_ops c ops w).
Proof.
  revert w. induction ops as [|op ops IH]; intros w; [done|]. simpl. etrans; [|apply IH].
  destruct op; [apply lookup_confined|apply store_confined].
Qed.

(** What a lookup answers depends on the active scope and on its own directory. *)
Lemma lookup_same c key w w' :
  w_store w' = w_store w → tc_scope <$> w_contexts w' = tc_scope <$> w_contexts w →
  w_disk w' !! pc_scopeDir c = w_disk w !! pc_scopeDir c →
  (persistent_lookup c key w').1 = (persistent_lookup c key w).1.
Proof.
  intros Es Eh Ed. unfold persistent_lookup. rewrite Es.
  pose proof (active_scopes _ _ (w_store w) Eh) as Ea.
  destruct (guard_cases "replay-cache.lookup" (pc_tenantScope c) (w_contexts w) (w_store w))
    as [(h & -> & _ & H1)|(a & H1 & H1' & ->)],
    (guard_cases "replay-cache.lookup" (pc_tenantScope c) (w_contexts w') (w_store w))
    as [(h' & -> & _ & H2)|(a' & H2 & H2' & ->)]; cbv zeta.
  - unfold file_at, with_contexts. cbn [w_disk]. rewrite Ed.
    destruct (w_disk w !! _ ≫= _) as [file|]; [|done]. destruct (negb _); [done|]. by destruct (read_entry _ _).
  - rewrite Ea in H2. specialize (H1 _ H2). congruence.
  - rewrite Ea in H2. specialize (H2 _ H1). congruence.
  - simpl. congruence.
Qed.

Lemma foreign_scope_refused c op w active :
  getCurrentTenantScope (w_contexts w) (w_store w) = Some active →
  tenantScopesEqual active (pc_tenantScope c) = false → run_op c w op = w.
Proof.
  intros Ha Hne. destruct op; simpl; unfold persistent_lookup, persistent_store.
  - destruct (guard_cases "replay-cache.lookup" (pc_tenantScope c) (w_contexts w) (w_store w))
      as [(h & _ & _ & Hs)|(? & _ & _ & ->)]; [|done]. specialize (Hs _ Ha). congruence.
  - destruct (guard_cases "replay-cache.store" (pc_tenantScope c) (w_contexts w) (w_store w))
      as [(h & _ & _ & Hs)|(? & _ & _ & ->)]; [|done]. specialize (Hs _ Ha). congruence.
Qed.

(** C32. Tenants do not interfere on disk: two caches below one normalized root
    share a directory exactly when their scopes are equal; otherwise no sequence
    of lookups and stores of the one changes the other's directory or the answer
    of any of its lookups; and under an active scope that differs from a cache's
    own, its operations leave the world as it is. *)
Theorem persistent_cache_isolated rootDir options1 options2 e c1 c2 :
  rooted rootDir →
  createPersistentReplayCache rootDir options1 e = Ok c1 →
  createPersistentReplayCache rootDir options2 e = Ok c2 →
  (pc_scopeDir c1 = pc_scopeDir c2 ↔
     tenantScopesEqual (po_tenantScope options1) (po_tenantScope options2) = true) ∧
  (tenantScopesEqual (po_tenantScope options1) (po_tenantScope options2) = false →
   ∀ ops w, w_disk (run_ops c1 ops w) !! pc_scopeDir c2 = w_disk w !! pc_scopeDir c2 ∧
            ∀ key, (persistent_lookup c2 key (run_ops c1 ops w)).1 = (persistent_lookup c2 key w).1) ∧
  (∀ ops w active, getCurrentTenantScope (w_contexts w) (w_store w) = Some active →
     tenantScopesEqual active (po_tenantScope options1) = false → run_ops c1 ops w = w).
Proof.
  intros Hr H1 H2. unfold createPersistentReplayCache in H1, H2.
  destruct (assertLocalFilesystemPath rootDir e); [|done].
  destruct (resolveTenantScopeSegments (po_tenantScope options1)) as [g1|] eqn:E1; [|done].
  destruct (resolveTenantScopeSegments (po_tenantScope options2)) as [g2|] eqn:E2; [|done].
  injection H1 as <-. injection H2 as <-.
  pose proof (resolved_segments_equal _ _ _ _ E1 E2) as Heq.
  apply resolveTenantScopeSegments_Ok in E1 as [L1 P1], E2 as [L2 P2].
  assert (g1 ≠ [] ∧ g2 ≠ []) as [N1 N2] by by subst.
  set (c1 := {| pc_tenantScope := _ |}). set (c2 := {| pc_tenantScope := _ |}).
  assert (pc_scopeDir c1 = pc_scopeDir c2 ↔
          tenantScopesEqual (po_tenantScope options1) (po_tenantScope options2) = true) as Hdir.
  { etrans; [|exact Heq]. split; [by apply posix_join_rooted_inj|]. by simpl; intros ->. }
  split_all; [done| |].
  - intros Hne ops w. assert (pc_scopeDir c2 ≠ pc_scopeDir c1) as Hd.
    { intros Hd. symmetry in Hd. apply Hdir in Hd. congruence. }
    pose proof (run_ops_confined c1 ops w) as [Hs _ Hc Hk]. specialize (Hk _ Hd). split; [done|].
    intros key. by apply lookup_same.
  - intros ops w active Ha Hne. induction ops as [|op ops IH]; [done|]. simpl.
    by rewrite (foreign_scope_refused c1 op w active Ha Hne).
Qed.
End isolation.

(** ** Lookups *)

Lemma file_at_alter dir f name w :
  file_at dir name (with_disk (alter f dir) w) = (files ← w_disk w !! dir; f files !! name).
Proof.
  unfold file_at, with_disk. cbn [w_disk]. rewrite lookup_alter. case_decide; [|done].
  by destruct (w_disk w !! dir).
Qed.

Section lookups.
Context `{FileSystem, JsonDigest}.

(** The own file is gone, other cache files stay. *)
Lemma quarantine_removes dir name w :
  ends_with ".json" name = true →
  let w' := quarantineCorruptCacheEntry dir name w in
  (can_rename dir name || can_remove dir name = true → file_at dir name w' = None) ∧
  (∀ other, other ≠ name → ends_with ".json" other = true → file_at dir other w' = file_at dir other w).
Proof.
  intros Hj. cbv zeta. unfold quarantineCorruptCacheEntry.
  destruct (file_at dir name w) as [file|] eqn:Ef; [|done].
  assert (∀ other, ends_with ".json" other = true → name +:+ ".corrupt-" +:+ to_string36 (w_now w) ≠ other) as Hc.
  { intros other Ho <-. by rewrite corrupt_not_json in Ho. }
  destruct (can_rename dir name); [|destruct (can_remove dir name)]; simpl.
  - split; [intros _|intros other Hne Ho]; rewrite file_at_alter.
    + destruct (w_disk w !! dir) as [files|]; [|done]. simpl.
      rewrite lookup_insert_ne by by apply Hc. apply lookup_delete_eq.
    + unfold file_at. destruct (w_disk w !! dir) as [files|]; [|done]. simpl.
      rewrite lookup_insert_ne by by apply Hc. by apply lookup_delete_ne.
  - split; [intros _|intros other Hne _]; rewrite file_at_alter.
    + destruct (w_disk w !! dir) as [files|]; [|done]. apply lookup_delete_eq.
    + unfold file_at. destruct (w_disk w !! dir) as [files|]; [|done]. by apply lookup_delete_ne.
  - by split.
Qed.

Lemma touch_text dir name other w :
  cf_text <$> file_at dir other (touch dir name w) = cf_text <$> file_at dir other w.
Proof.
  unfold touch. destruct (can_touch dir name); [|done]. rewrite file_at_alter. unfold file_at.
  destruct (w_disk w !! dir) as [files|]; [|done]. simpl. rewrite lookup_alter.
  case_decide as E; [|done]. subst. by destruct (files !! other).
Qed.

(** A lookup of the persistent cache throws a tenant-isolation violation, which leaves
    the world as it is, or because the entry's file exists and cannot be read, which
    leaves the files as they are; a hit is an entry for the key whose list passes the schema, read from a file that stays with its text;
    otherwise it is a miss for the key's digest, with no readable valid entry there,
    after which the entry's file is gone (a corrupt one renamed away or removed, unless neither call works) and
    the other entries are as before. *)
Theorem persistent_lookup_heals c key w :
  let digest := computeReplayCacheKeyDigest key in
  let dir := pc_scopeDir c in
  let name := file_name digest in
  let w' := (persistent_lookup c key w).2 in
  match (persistent_lookup c key w).1 with
  | Throw err =>
      (∃ active, getCurrentTenantScope (w_contexts w) (w_store w) = Some active ∧
        tenantScopesEqual active (pc_tenantScope c) = false ∧ w' = w ∧
        err = isolation_violation {| tv_operation := "replay-cache.lookup"; tv_expected := active;
                                     tv_actual := pc_tenantScope c |}) ∨
      err = unreadable name ∧ is_Some (file_at dir name w) ∧ can_read dir name = false ∧ w_disk w' = w_disk w
  | Ok (hit entry) =>
      re_key entry = digest ∧ valid (re_testCases entry) = true ∧
      (∃ text, cf_text <$> file_at dir name w = Some text ∧ read_entry digest text = Ok entry) ∧
      ∀ other, cf_text <$> file_at dir other w' = cf_text <$> file_at dir other w
  | Ok (miss missed) =>
      missed = digest ∧
      (∀ file, file_at dir name w = Some file → ∃ err, read_entry digest (cf_text file) = Throw err) ∧
      (can_rename dir name || can_remove dir name = true → file_at dir name w' = None) ∧
      ∀ other, other ≠ name → ends_with ".json" other = true → file_at dir other w' = file_at dir other w
  end.
Proof.
  cbv zeta. unfold persistent_lookup.
  destruct (guard_cases "replay-cache.lookup" (pc_tenantScope c) (w_contexts w) (w_store w))
    as [(h & -> & _ & _)|(active & Ha & Hne & ->)]; cbv zeta; [|left; by exists active].
  set (digest := computeReplayCacheKeyDigest key).
  change (file_at ?d ?n w) with (file_at d n (with_contexts h w)). set (w1 := with_contexts h w).
  destruct (file_at (pc_scopeDir c) (file_name digest) w1) as [file|] eqn:Ef.
  - destruct (can_read (pc_scopeDir c) (file_name digest)) eqn:Ec; cbn [negb]; [|by right].
    destruct (read_entry digest (cf_text file)) as [entry|] eqn:Er; cbn [fst snd].
    + destruct (read_entry_Ok _ _ _ Er) as [Hk Hv]. split_all; [done|done| |].
      * by exists (cf_text file).
      * intros other. apply touch_text.
    + split; [done|]. split; [|apply quarantine_removes; auto with js].
      intros file' [= <-]. by eexists.
  - done.
Qed.
End lookups.

(** ** Stores *)

Section stores.
Context `{FileSystem, JsonDigest}.
Context (toISOString : Z → string).

Lemma foldl_delete_other (P : string → bool) (names : list string) (files : directory) name :
  name ∉ names → foldl (λ d n, if P n then delete n d else d) files names !! name = files !! name.
Proof.
  revert files. induction names as [|n names IH]; intros files Hn; [done|]. simpl.
  rewrite IH by set_solver. destruct (P n); [|done]. apply lookup_delete_ne. set_solver.
Qed.

Lemma file_at_insert dir files name w :
  file_at dir name (with_disk (insert dir files) w) = files !! name.
Proof. unfold file_at, with_disk. cbn [w_disk]. by rewrite lookup_insert_eq. Qed.

(** Cleaning removes temporary files only. *)
Lemma clean_keeps dir threshold name w :
  ends_with ".tmp" name = false → file_at dir name (cleanStaleTmpFiles dir threshold w) = file_at dir name w.
Proof.
  intros Hn. unfold cleanStaleTmpFiles. destruct (w_disk w !! dir) as [files|] eqn:Ed; [|done].
  rewrite file_at_insert, foldl_delete_other.
  - unfold file_at. by rewrite Ed.
  - intros [Ht%Is_true_true _]%list_elem_of_filter. congruence.
Qed.

Definition written_entry (key testCases : json) (w : world) : ReplayCacheEntry :=
  {| re_key := computeReplayCacheKeyDigest key; re_storedAt := toISOString (w_now w);
     re_testCases := testCases |}.

Definition written_file (key testCases : json) (w : world) : cache_file :=
  let v := canonicalJson (cache_entry_json (written_entry key testCases w)) in
  {| cf_text := Some v; cf_size := byte_length v; cf_mtime := w_now w |}.

Lemma json_not_tmp name : ends_with ".json" name = true → ends_with ".tmp" name = false.
Proof. intros Hj. destruct (ends_with ".tmp" name) eqn:E; [|done]. apply tmp_not_json in E. congruence. Qed.

(** The directory the eviction finds. *)
Lemma store_before_eviction c key testCases w w' :
  persistent_store toISOString c key testCases w = (Ok tt, w') →
  valid testCases = true ∧
  ∃ w2 files, w_disk w2 !! pc_scopeDir c = Some files ∧ w' = evictLru (pc_scopeDir c) (pc_byteBudget c) w2 ∧
    files !! file_name (computeReplayCacheKeyDigest key) = Some (written_file key testCases w) ∧
    (∀ other, other ≠ file_name (computeReplayCacheKeyDigest key) → ends_with ".json" other = true →
       files !! other = file_at (pc_scopeDir c) other w) ∧
    w_store w2 = w_store w ∧ w_now w2 = w_now w ∧ tc_scope <$> w_contexts w2 = tc_scope <$> w_contexts w.
Proof.
  set (digest := computeReplayCacheKeyDigest key). set (dir := pc_scopeDir c). unfold persistent_store.
  destruct (guard_cases "replay-cache.store" (pc_tenantScope c) (w_contexts w) (w_store w))
    as [(h & -> & Hh & _)|(active & _ & _ & ->)]; [|done].
  destruct (valid testCases); [|done]. cbv zeta. cbn [negb]. intros E. split; [done|].
  fold digest dir in E. set (w1 := with_contexts h w) in E.
  set (wc := cleanStaleTmpFiles dir (pc_staleThresholdMs c) (make_directory dir w1)) in E.
  assert (∃ files, w_disk wc !! dir = Some files ∧
            ∀ other, ends_with ".json" other = true → files !! other = file_at dir other w)
    as (files & Hf & Ho).
  { assert (is_Some (w_disk wc !! dir)) as [files Hf].
    { unfold wc, cleanStaleTmpFiles, make_directory. cbn [with_disk w_disk].
      rewrite lookup_partial_alter_eq. cbn [with_disk w_disk]. by rewrite lookup_insert_eq. }
    exists files. split; [done|]. intros other Hj%json_not_tmp.
    pose proof (clean_keeps dir (pc_staleThresholdMs c) other (make_directory dir w1) Hj) as Hk.
    fold wc in Hk. unfold file_at in Hk at 1. rewrite Hf in Hk. simpl in Hk. rewrite Hk.
    unfold file_at, make_directory. cbn [with_disk w_disk]. rewrite lookup_partial_alter_eq. simpl.
    destruct (w_disk w !! dir); [done|]. simpl. apply lookup_empty. }
  assert (w_now wc = w_now w ∧ w_store wc = w_store w ∧ w_contexts wc = h) as (En & Es & Ec).
  { unfold wc, cleanStaleTmpFiles. by destruct (w_disk (make_directory dir w1) !! dir). }
  injection E as <-. eexists _, _. split; [|split; [reflexivity|]].
  { unfold publish. cbn [with_disk w_disk]. rewrite lookup_alter_eq, Hf. reflexivity. }
  split_all; [| |done..|].
  - rewrite lookup_insert_eq. unfold written_file, written_entry. by rewrite En.
  - intros other Hne Hj. rewrite lookup_insert_ne by done.
    assert (tmp_name digest wc ≠ other) as Ht.
    { intros <-. pose proof (tmp_name_tmp digest wc) as Ht%tmp_not_json. congruence. }
    rewrite lookup_delete_ne, lookup_insert_ne by done. by apply Ho.
  - change (w_contexts (publish _ _ _ _ wc)) with (w_contexts wc). by rewrite Ec.
Qed.

(** In a list sorted by age, a file newer than all others comes last. *)
Lemma newest_last l (i : CacheFileInfo) :
  StronglySorted (λ i j, ci_mtimeMs i ≤ ci_mtimeMs j) l → NoDup (ci_name <$> l) → i ∈ l →
  (∀ j, j ∈ l → j ≠ i → ci_mtimeMs j < ci_mtimeMs i) → ∃ before, l = before ++ [i].
Proof.
  intros Hs Hn (l1 & l2 & E)%list_elem_of_split Hold. exists l1. rewrite E.
  destruct l2 as [|j l2]; [done|]. exfalso. rewrite E in Hs, Hn.
  assert (ci_mtimeMs i ≤ ci_mtimeMs j) as Hle.
  { apply (StronglySorted_app_1_elem_of (λ i j, ci_mtimeMs i ≤ ci_mtimeMs j) (l1 ++ [i]) (j :: l2));
      [|set_solver..].
    by rewrite <- app_assoc. }
  assert (j ≠ i) as Hne.
  { intros ->. rewrite fmap_app, !fmap_cons in Hn. apply NoDup_app in Hn as (_ & _ & Hn).
    apply NoDup_cons in Hn as [Hn _]. set_solver. }
  specialize (Hold j). rewrite E in Hold. specialize (Hold ltac:(set_solver) Hne). lia.
Qed.

(** The newest of the counted files is deleted last, if it alone is too big. *)
Lemma evicts_newest dir budget files files' evicted kept name file :
  evicts dir budget files files' evicted kept →
  files !! name = Some file → ends_with ".json" name = true →
  (∀ other f, other ≠ name → ends_with ".json" other = true → files !! other = Some f →
     0 ≤ cf_size f ∧ cf_mtime f < cf_mtime file) →
  files' !! name = if cf_size file <=? budget then Some file else None.
Proof.
  intros [Hc Hn Hs Hf Hb Hm] Hfile Hj Hold.
  set (i := {| ci_name := name; ci_size := cf_size file; ci_mtimeMs := cf_mtime file |}).
  assert (i ∈ evicted ++ kept) as Hi by (apply Hc; split; [done|by exists file]).
  assert (∀ j, j ∈ evicted ++ kept → j ≠ i → 0 ≤ ci_size j ∧ ci_mtimeMs j < ci_mtimeMs i) as Holder.
  { intros j Hj' Hne. pose proof (proj1 (Hc j) Hj') as (He & f & Hf' & Es & Em).
    destruct (decide (ci_name j = name)) as [E|E].
    - exfalso. apply Hne. rewrite E, Hfile in Hf'. injection Hf' as <-. destruct j; simpl in *; by subst.
    - rewrite Es, Em. by apply (Hold (ci_name j)). }
  destruct (newest_last _ _ Hs Hn Hi) as [before E]; [naive_solver|].
  rewrite Hf. destruct kept as [|k kept _] using rev_ind.
  - rewrite app_nil_r in E. subst evicted. specialize (Hm _ _ eq_refl). rewrite total_size_cons in Hm.
    change (total_size []) with 0 in Hm. simpl in Hm.
    rewrite bool_decide_eq_true_2 by (rewrite fmap_app; set_solver).
    destruct (Z.leb_spec (cf_size file) budget); [lia|done].
  - rewrite app_assoc in E. apply app_inj_tail in E as [_ ->].
    rewrite !fmap_app in Hn. apply NoDup_app in Hn as (_ & Hnew & [_ [Hn _]]%NoDup_app).
    rewrite bool_decide_eq_false_2 by (intros Hin; apply (Hnew name Hin); set_solver).
    destruct (Z.leb_spec (cf_size file) budget) as [_|Hgt]; [done|]. exfalso.
    rewrite total_size_app, total_size_cons in Hb. change (total_size []) with 0 in Hb. simpl in Hb.
    assert (Forall (λ j, 0 ≤ ci_size j) kept) as Hpos.
    { apply Forall_forall. intros j Hj'. apply Holder; [set_solver|]. intros ->.
      apply (Hn (ci_name i)); [by apply list_elem_of_fmap_2|set_solver]. }
    assert (0 ≤ total_size kept); [|lia].
    clear -Hpos. induction Hpos; [done|]. rewrite total_size_cons. lia.
Qed.

(** What makes a written entry stay: the file calls of the directory succeed and the
    other cache files are older. *)
Record settled (c : persistent_cache) (name : string) (w : world) : Prop := {
  st_read n : can_read (pc_scopeDir c) n = true;
  st_stat n : can_stat (pc_scopeDir c) n = true;
  st_remove n : can_remove (pc_scopeDir c) n = true;
  st_budget : 0 ≤ pc_byteBudget c;
  st_older other file : other ≠ name → ends_with ".json" other = true →
    file_at (pc_scopeDir c) other w = Some file → 0 ≤ cf_size file ∧ cf_mtime file < w_now w;
}.

Lemma store_then_file c key testCases w w' :
  persistent_store toISOString c key testCases w = (Ok tt, w') →
  settled c (file_name (computeReplayCacheKeyDigest key)) w →
  valid testCases = true ∧
  file_at (pc_scopeDir c) (file_name (computeReplayCacheKeyDigest key)) w' =
    (if cf_size (written_file key testCases w) <=? pc_byteBudget c
     then Some (written_file key testCases w) else None) ∧
  w_store w' = w_store w ∧ tc_scope <$> w_contexts w' = tc_scope <$> w_contexts w.
Proof.
  intros Hs [_ Hst Hrm Hb Hold]. apply store_before_eviction in Hs as (Hv & w2 & files & Hf & -> & Hw & Ho & Es & _ & Ec).
  destruct (evict_files_evicts (pc_scopeDir c) (pc_byteBudget c) files Hst Hrm Hb) as (evicted & kept & He).
  unfold evictLru. rewrite Hf. split_all; [done| |done|done].
  rewrite file_at_insert. eapply evicts_newest; [exact He|done|auto with js|].
  intros other f Hne Hj Hfo. rewrite Ho in Hfo by done. by apply (Hold other).
Qed.

(** A lookup of the file just written. *)
Lemma lookup_written c key testCases w w' :
  can_read (pc_scopeDir c) (file_name (computeReplayCacheKeyDigest key)) = true →
  valid testCases = true →
  file_at (pc_scopeDir c) (file_name (computeReplayCacheKeyDigest key)) w' = Some (written_file key testCases w) →
  (∀ active, getCurrentTenantScope (w_contexts w') (w_store w') = Some active →
     tenantScopesEqual active (pc_tenantScope c) = true) →
  (persistent_lookup c key w').1 =
  Ok (hit {| re_key := computeReplayCacheKeyDigest key; re_storedAt := toISOString (w_now w);
             re_testCases := canonicalJson testCases |}).
Proof.
  intros Hcr Hv Hf Ha. unfold persistent_lookup.
  destruct (guard_cases "replay-cache.lookup" (pc_tenantScope c) (w_contexts w') (w_store w'))
    as [(h & -> & _ & _)|(active & Hac & Hne & _)]; [|specialize (Ha _ Hac); congruence].
  cbv zeta. change (file_at ?d ?n (with_contexts h w')) with (file_at d n w'). rewrite Hf, Hcr. cbn [negb].
  pose proof (read_entry_canonical (written_entry key testCases w) Hv) as E. cbn [re_key written_entry] in E.
  unfold written_file. cbv zeta. cbn [cf_text]. by rewrite E.
Qed.

Lemma store_active c key testCases w w' :
  persistent_store toISOString c key testCases w = (Ok tt, w') →
  ∀ active, getCurrentTenantScope (w_contexts w) (w_store w) = Some active →
    tenantScopesEqual active (pc_tenantScope c) = true.
Proof.
  intros Hs active Ha. unfold persistent_store in Hs.
  destruct (guard_cases "replay-cache.store" (pc_tenantScope c) (w_contexts w) (w_store w))
    as [(h & _ & _ & H1)|(a & _ & _ & E)]; [by apply H1|]. by rewrite E in Hs.
Qed.

Lemma store_then_lookup c key testCases w w' :
  persistent_store toISOString c key testCases w = (Ok tt, w') →
  settled c (file_name (computeReplayCacheKeyDigest key)) w →
  (persistent_lookup c key w').1 =
  if cf_size (written_file key testCases w) <=? pc_byteBudget c
  then Ok (hit {| re_key := computeReplayCacheKeyDigest key; re_storedAt := toISOString (w_now w);
                  re_testCases := canonicalJson testCases |})
  else Ok (miss (computeReplayCacheKeyDigest key)).
Proof.
  intros Hs Hset. pose proof (store_active _ _ _ _ _ Hs) as Ha.
  destruct (store_then_file _ _ _ _ _ Hs Hset) as (Hv & Hf & Es & Ec).
  rewrite <- (active_scopes _ _ _ Ec), <- Es in Ha.
  destruct (Z.leb_spec (cf_size (written_file key testCases w)) (pc_byteBudget c)).
  - apply lookup_written; [apply (st_read _ _ _ Hset)|done..].
  - unfold persistent_lookup.
    destruct (guard_cases "replay-cache.lookup" (pc_tenantScope c) (w_contexts w') (w_store w'))
      as [(h & -> & _ & _)|(active & Hac & Hne & _)]; [|specialize (Ha _ Hac); congruence].
    cbv zeta. change (file_at ?d ?n (with_contexts h w')) with (file_at d n w'). by rewrite Hf.
Qed.

(** A stored list is found again: when the store succeeds, the file calls of the
    directory work and the other cache files are older, a lookup of the key hits
    with the list in canonical property order if the entry's text fits the byte
    budget, and misses if it does not, since the eviction has removed it again. *)
Theorem persistent_store_then_lookup c key testCases w w' :
  persistent_store toISOString c key testCases w = (Ok tt, w') →
  settled c (file_name (computeReplayCacheKeyDigest key)) w →
  (persistent_lookup c key w').1 =
  if cf_size (written_file key testCases w) <=? pc_byteBudget c
  then Ok (hit {| re_key := computeReplayCacheKeyDigest key; re_storedAt := toISOString (w_now w);
                  re_testCases := canonicalJson testCases |})
  else Ok (miss (computeReplayCacheKeyDigest key)).
Proof. apply store_then_lookup. Qed.

Definition kept_by (c : persistent_cache) (key testCases : json) (w : world) : Prop :=
  settled c (file_name (computeReplayCacheKeyDigest key)) w ∧
  cf_size (written_file key testCases w) ≤ pc_byteBudget c.

(** The persistent cache is a replay cache. *)
#[export] Instance persistent_laws c :
  ReplayCacheLaws (persistent_operations toISOString c) (persistent_operations toISOString c) (kept_by c).
Proof.
  split; cbn [rc_lookup rc_store persistent_operations].
  - intros key testCases w w' Hs [Hset Hle]. pose proof (store_then_lookup _ _ _ _ _ Hs Hset) as Hl.
    destruct (Z.leb_spec (cf_size (written_file key testCases w)) (pc_byteBudget c)); [|lia].
    destruct (persistent_lookup c key w') as [r w'']. simpl in Hl. subst r.
    eexists _, _. split_all; [done|done|by right].
  - intros key testCases w w' Hs. by apply store_before_eviction in Hs as [Hv _].
  - intros key w k w' Hl. unfold persistent_lookup in Hl.
    destruct (recordPersistentStoreRead _ _ _ _); [|done]. cbv zeta in Hl.
    destruct (file_at _ _ _) as [file|]; [|by injection Hl as <-]. destruct (negb _); [done|].
    destruct (read_entry _ _); [done|by injection Hl as <-].
Qed.
End stores.

(** ** Witnesses *)

(** A file system whose calls succeed and whose texts are 100 bytes long. *)
Definition plain_fs : FileSystem.
Proof.
  refine {| readdir d := (map_to_list d).*1; byte_length _ := 100;
            can_read _ _ := true; can_stat _ _ := true; can_remove _ _ := true; can_rename _ _ := true; can_touch _ _ := true |}.
  - done.
  - lia.
Defined.

Definition old_file (mtime : Z) : cache_file := {| cf_text := None; cf_size := 60; cf_mtime := mtime |}.
Definition sample_files : directory := {["a.json" := old_file 5; "b.json" := old_file 3; "c.tmp" := old_file 1]}.
Definition sample_world : world :=
  {| w_disk := {["d" := sample_files]}; w_now := 10; w_unique := "1.ab"; w_contexts := []; w_store := None |}.

Lemma evictLru_spec_witness :
  ∃ evicted kept files',
    w_disk (@evictLru plain_fs "d" 100 sample_world) = <["d" := files']> (w_disk sample_world) ∧
    evicts "d" 100 sample_files files' evicted kept ∧
    w_disk (@evictLru plain_fs "d" 100 sample_world) =
      {["d" := {["a.json" := old_file 5; "c.tmp" := old_file 1]}]}.
Proof.
  destruct (@evictLru_spec plain_fs "d" 100 sample_world sample_files (λ _, eq_refl) (λ _, eq_refl)
              ltac:(lia) eq_refl) as (evicted & kept & files' & H1 & H2).
  exists evicted, kept, files'. split; [exact H1|]. split; [exact H2|]. vm_compute. reflexivity.
Defined.

Definition options_of (tenant : string) : PersistentReplayCacheOptions :=
  {| po_tenantScope := {| ts_tenantId := tenant; ts_environmentId := "prod"; ts_projectId := None |};
     po_byteBudget := None; po_staleThresholdMs := None |}.
Definition cache_of (tenant : string) : persistent_cache :=
  {| pc_tenantScope := po_tenantScope (options_of tenant);
     pc_scopeDir := "<rootDir>/" +:+ tenant +:+ "/prod/default";
     pc_byteBudget := DEFAULT_PERSISTENT_REPLAY_CACHE_BYTE_BUDGET;
     pc_staleThresholdMs := DEFAULT_PERSISTENT_REPLAY_CACHE_STALE_THRESHOLD_MS |}.

Lemma persistent_cache_isolated_witness :
  pc_scopeDir (cache_of "acme") ≠ pc_scopeDir (cache_of "globex") ∧
  (@persistent_lookup plain_fs zero_digest (cache_of "globex") (JString "k")
     (@run_ops plain_fs zero_digest (λ _, EPOCH) (cache_of "acme")
        [op_store (JString "k") (sample_list "title" "data")] sample_world)).1 =
  (@persistent_lookup plain_fs zero_digest (cache_of "globex") (JString "k") sample_world).1.
Proof.
  assert (createPersistentReplayCache "<rootDir>" (options_of "acme") ∅ = Ok (cache_of "acme")) as E1
    by (vm_compute; reflexivity).
  assert (createPersistentReplayCache "<rootDir>" (options_of "globex") ∅ = Ok (cache_of "globex")) as E2
    by (vm_compute; reflexivity).
  pose proof (@persistent_cache_isolated plain_fs zero_digest (λ _, EPOCH) "<rootDir>" (options_of "acme")
                (options_of "globex") ∅ (cache_of "acme") (cache_of "globex") root_rooted E1 E2) as (H1 & H2 & _).
  split; [by intros E%H1|].
  exact (proj2 (H2 eq_refl [op_store (JString "k") (sample_list "title" "data")] sample_world) (JString "k")).
Defined.

Lemma persistent_store_then_lookup_witness :
  (@persistent_lookup plain_fs zero_digest (cache_of "acme") (JString "k")
     (@persistent_store plain_fs zero_digest (λ _, EPOCH) (cache_of "acme") (JString "k")
        (sample_list "title" "data") sample_world).2).1 =
  Ok (hit {| re_key := @computeReplayCacheKeyDigest zero_digest (JString "k"); re_storedAt := EPOCH;
             re_testCases := canonicalJson (sample_list "title" "data") |}).
Proof.
  rewrite (@persistent_store_then_lookup plain_fs zero_digest (λ _, EPOCH) (cache_of "acme") (JString "k")
    (sample_list "title" "data") sample_world (@persistent_store plain_fs zero_digest (λ _, EPOCH)
      (cache_of "acme") (JString "k") (sample_list "title" "data") sample_world).2).
  - vm_compute. reflexivity.
  - vm_compute. reflexivity.
  - split; [done|done|done|done|]. intros other file _ _ E. vm_compute in E. discriminate E.
Defined.
