(* ===== verification/JsonSchemaSubset.v ===== *)
(** * The response schema check of the gateway

    [validateJsonSchemaSubset] of [packages/model-gateway/src/llm-gateway.ts]:
    the subset of JSON Schema a structured output is checked against before the
    gateway returns it, and the conformance relation it decides. Regular
    expressions and JSON text are parameters. JSON numbers have one zero: the negative
    zero, which [Object.is] tells apart, is not modelled. *)

From S2P Require Import Prelude JsString JsList JsValue CanonicalJson Contracts JsonView.

(** [JSON.stringify], and [JSON.parse], which throws on [None]. *)
Class JsonText := { json_stringify : json → string; json_parse : string → option json }.

(** [new RegExp(pattern).test(value)], or the message of the error that the constructor
    throws when the pattern is no expression. *)
Class RegExpTest := { regexp_test : string → string → outcome string bool }.

(** ** Values *)

(** The check also reads properties a record inherits: the methods of
    [Object.prototype], and the prototype itself. *)
Inductive jsvalue : Type :=
| js_json (v : json)
| js_function
| js_prototype.

Definition PROTOTYPE_NAMES : list string :=
  ["constructor"; "__defineGetter__"; "__defineSetter__"; "hasOwnProperty"; "__lookupGetter__"; "__lookupSetter__";
   "isPrototypeOf"; "propertyIsEnumerable"; "toString"; "valueOf"; PROTO; "toLocaleString"].

(** An object that is no array. *)
Definition is_object_value (v : jsvalue) : bool :=
  match v with js_json (JObject _) | js_prototype => true | _ => false end.

(** [k in record] *)
Definition has_property (k : string) (v : jsvalue) : bool :=
  match v with
  | js_json (JObject fields) => bool_decide (is_Some (Json.get k fields)) || bool_decide (k ∈ PROTOTYPE_NAMES)
  | js_prototype => bool_decide (k ∈ PROTOTYPE_NAMES)
  | _ => false
  end.

(** [record[k]] for a property the record has. *)
Definition property (k : string) (v : jsvalue) : jsvalue :=
  match v with
  | js_json (JObject fields) =>
      match Json.get k fields with
      | Some x => js_json x
      | None => if bool_decide (k = PROTO) then js_prototype else js_function
      end
  | _ => if bool_decide (k = PROTO) then js_json JNull else js_function
  end.

(** [Object.keys(record)] *)
Definition own_keys (v : jsvalue) : list string :=
  match v with js_json (JObject fields) => (own_order fields).*1 | _ => [] end.

(** [Object.is(value, c)] for a value of its own and a constant of the schema:
    objects and arrays are never the same. *)
Definition object_is (v : jsvalue) (c : json) : bool :=
  match v, c with
  | js_json JNull, JNull => true
  | js_json (JBool a), JBool b => Bool.eqb a b
  | js_json (JNumber p), JNumber q => Qeq_bool p q
  | js_json (JString s), JString t => String.eqb s t
  | _, _ => false
  end.

(** ** The check *)

(** What ends the check early: a violation, whose message is returned, or an exception. *)
Inductive fault : Type :=
| violation (message : string)
| bad_pattern (message : string).

(** A violation when something is wrong; the first fault counts. *)
Definition complain (wrong : bool) (message : string) : option fault := if wrong then Some (violation message) else None.
Definition first_error (checks : list (option fault)) : option fault := head (omap id checks).

Definition validateJsonSchemaType (value : jsvalue) (type path : string) : option fault :=
  let must_be ok what := complain (negb ok) (path +:+ " must be " +:+ what) in
  if String.eqb type "object" then must_be (is_object_value value) "an object"
  else if String.eqb type "array" then must_be (match value with js_json (JArray _) => true | _ => false end) "an array"
  else if String.eqb type "string" then must_be (match value with js_json (JString _) => true | _ => false end) "a string"
  else if String.eqb type "number" then must_be (match value with js_json (JNumber _) => true | _ => false end) "a number"
  else if String.eqb type "integer"
  then must_be (match value with js_json (JNumber q) => Number.q_is_integer q | _ => false end) "an integer"
  else if String.eqb type "boolean" then must_be (match value with js_json (JBool _) => true | _ => false end) "a boolean"
  else if String.eqb type "null" then must_be (match value with js_json JNull => true | _ => false end) "null"
  else None.

Section check.
Context `{JsonText} `{RegExpTest}.

Definition check_const (value : jsvalue) (schema : json) (path : string) : option fault :=
  match field "const" schema with
  | Some c => complain (negb (object_is value c)) (path +:+ " must equal " +:+ json_stringify c)
  | None => None
  end.

Definition check_enum (value : jsvalue) (schema : json) (path : string) : option fault :=
  match field "enum" schema with
  | Some (JArray l) => complain (negb (existsb (object_is value) l)) (path +:+ " must be one of the allowed enum values")
  | _ => None
  end.

Definition check_type (value : jsvalue) (schema : json) (path : string) : option fault :=
  match field "type" schema with Some (JString type) => validateJsonSchemaType value type path | _ => None end.

Definition check_required (value : jsvalue) (schema : json) (path : string) : option fault :=
  match field "required" schema with
  | Some (JArray required) =>
      first_error ((λ key, match key with
                           | JString key => complain (negb (has_property key value)) (path +:+ "." +:+ key +:+ " is required")
                           | _ => None
                           end) <$> required)
  | _ => None
  end.

(** The schemas of the properties; none when there is no such object. *)
Definition property_schemas (schema : json) : list (string * json) :=
  match field "properties" schema with Some (JObject fields) => own_order fields | _ => [] end.

Definition check_additional (value : jsvalue) (schema : json) (path : string) : option fault :=
  match field "additionalProperties" schema with
  | Some (JBool false) =>
      first_error ((λ key, complain (negb (bool_decide (key ∈ (property_schemas schema).*1)))
                             (path +:+ "." +:+ key +:+ " is not allowed")) <$> own_keys value)
  | _ => None
  end.

Definition check_string (value : jsvalue) (schema : json) (path : string) : option fault :=
  match value with
  | js_json (JString s) =>
      let length := inject_Z (Z.of_nat (String.length s)) in
      first_error
        [match field "minLength" schema with
         | Some (JNumber n) => complain (negb (Qle_bool n length))
                                 (path +:+ " must be at least " +:+ json_stringify (JNumber n) +:+ " characters")
         | _ => None
         end;
         match field "maxLength" schema with
         | Some (JNumber n) => complain (negb (Qle_bool length n))
                                 (path +:+ " must be at most " +:+ json_stringify (JNumber n) +:+ " characters")
         | _ => None
         end;
         match field "pattern" schema with
         | Some (JString p) =>
             match regexp_test p s with
             | Ok matches => complain (negb matches) (path +:+ " must match " +:+ p)
             | Throw error => Some (bad_pattern error)
             end
         | _ => None
         end]
  | _ => None
  end.

Definition check_number (value : jsvalue) (schema : json) (path : string) : option fault :=
  match value with
  | js_json (JNumber q) =>
      first_error
        [match field "minimum" schema with
         | Some (JNumber n) => complain (negb (Qle_bool n q)) (path +:+ " must be >= " +:+ json_stringify (JNumber n))
         | _ => None
         end;
         match field "maximum" schema with
         | Some (JNumber n) => complain (negb (Qle_bool q n)) (path +:+ " must be <= " +:+ json_stringify (JNumber n))
         | _ => None
         end]
  | _ => None
  end.

(** [fuel] bounds the nesting of the schema. *)
Fixpoint validate_nested (fuel : nat) (value : jsvalue) (schema : json) (path : string) : option fault :=
  match fuel with
  | O => None
  | S fuel =>
      first_error
        [check_const value schema path;
         check_enum value schema path;
         check_type value schema path;
         if Json.eq_string (field "type" schema) "object"
         then if negb (is_object_value value) then Some (violation (path +:+ " must be an object"))
              else first_error
                [check_required value schema path;
                 first_error ((λ p : string * json,
                   if has_property p.1 value && Json.isRecord p.2
                   then validate_nested fuel (property p.1 value) p.2 (path +:+ "." +:+ p.1)
                   else None) <$> property_schemas schema);
                 check_additional value schema path]
         else None;
         if Json.eq_string (field "type" schema) "array"
         then match value with
              | js_json (JArray l) =>
                  first_error
                    [match field "minItems" schema with
                     | Some (JNumber n) =>
                         complain (negb (Qle_bool n (inject_Z (Z.of_nat (length l)))))
                           (path +:+ " must contain at least " +:+ json_stringify (JNumber n) +:+ " items")
                     | _ => None
                     end;
                     match field "items" schema with
                     | Some (JObject items) =>
                         first_error (imap (λ index x,
                           validate_nested fuel (js_json x) (JObject items)
                             (path +:+ "[" +:+ pretty (Z.of_nat index) +:+ "]")) l)
                     | _ => None
                     end]
              | _ => Some (violation (path +:+ " must be an array"))
              end
         else None;
         check_string value schema path;
         check_number value schema path]
  end.
End check.

(** Levels of nesting. *)
Fixpoint json_depth (v : json) : nat :=
  match v with
  | JArray l => S (foldr (λ x n, Nat.max (json_depth x) n) O l)
  | JObject fields => S (foldr (λ p n, Nat.max (json_depth p.2) n) O fields)
  | _ => O
  end.

Definition validateJsonSchemaSubset `{JsonText} `{RegExpTest} (value : json) (schema : option json) : option fault :=
  match schema with
  | None => None
  | Some schema => validate_nested (S (json_depth schema)) (js_json value) schema "$"
  end.

(** ** Conformance *)

Section conformance.
Context `{RegExpTest}.

(** The names of its types; a name that is not known allows every value. *)
Definition types_of (v : jsvalue) : list string :=
  match v with
  | js_json JNull => ["null"]
  | js_json (JBool _) => ["boolean"]
  | js_json (JNumber q) => "number" :: if Number.q_is_integer q then ["integer"] else []
  | js_json (JString _) => ["string"]
  | js_json (JArray _) => ["array"]
  | js_json (JObject _) | js_prototype => ["object"]
  | js_function => []
  end.

Definition KNOWN_TYPES : list string := ["object"; "array"; "string"; "number"; "integer"; "boolean"; "null"].
Definition has_type (type : string) (v : jsvalue) : Prop := type ∈ KNOWN_TYPES → type ∈ types_of v.

(** The bounds on strings and numbers. *)
Definition within_bounds (schema : json) (v : jsvalue) : Prop :=
  match v with
  | js_json (JString s) =>
      (∀ n, field "minLength" schema = Some (JNumber n) → (n <= inject_Z (Z.of_nat (String.length s)))%Q) ∧
      (∀ n, field "maxLength" schema = Some (JNumber n) → (inject_Z (Z.of_nat (String.length s)) <= n)%Q) ∧
      (∀ p, field "pattern" schema = Some (JString p) → regexp_test p s = Ok true)
  | js_json (JNumber q) =>
      (∀ n, field "minimum" schema = Some (JNumber n) → (n <= q)%Q) ∧
      (∀ n, field "maximum" schema = Some (JNumber n) → (q <= n)%Q)
  | _ => True
  end.

Inductive conforms (schema : json) (v : jsvalue) : Prop :=
| conforms_intro :
    (∀ c, field "const" schema = Some c → object_is v c = true) →
    (∀ l, field "enum" schema = Some (JArray l) → ∃ c, c ∈ l ∧ object_is v c = true) →
    (∀ type, field "type" schema = Some (JString type) → has_type type v) →
    (field "type" schema = Some (JString "object") →
       ∀ keys k, field "required" schema = Some (JArray keys) → JString k ∈ keys → has_property k v = true) →
    (field "type" schema = Some (JString "object") →
       ∀ props k s, field "properties" schema = Some (JObject props) → (k, JObject s) ∈ props →
       has_property k v = true → conforms (JObject s) (property k v)) →
    (field "type" schema = Some (JString "object") → field "additionalProperties" schema = Some (JBool false) →
       ∀ k, k ∈ own_keys v → k ∈ (property_schemas schema).*1) →
    (field "type" schema = Some (JString "array") →
       ∀ l n, v = js_json (JArray l) → field "minItems" schema = Some (JNumber n) →
       (n <= inject_Z (Z.of_nat (length l)))%Q) →
    (field "type" schema = Some (JString "array") →
       ∀ l items x, v = js_json (JArray l) → field "items" schema = Some (JObject items) → x ∈ l →
       conforms (JObject items) (js_json x)) →
    within_bounds schema v →
    conforms schema v.
End conformance.

(** ** The check decides conformance *)

Lemma complain_None wrong message : complain wrong message = None ↔ wrong = false.
Proof. by destruct wrong. Qed.

Lemma first_error_None checks : first_error checks = None ↔ ∀ x, x ∈ checks → x = None.
Proof.
  unfold first_error. induction checks as [|[m|] l IH]; simpl.
  - split; [|done]. by intros _ x ?%elem_of_nil.
  - split; [done|]. intros Hx. by specialize (Hx (Some m) (list_elem_of_here _ _)).
  - rewrite IH. split; [intros Hx x [->|]%elem_of_cons; auto|]. intros Hx x ?. apply Hx. by right.
Qed.

Lemma first_error_cons x l : first_error (x :: l) = None ↔ x = None ∧ first_error l = None.
Proof. unfold first_error. destruct x; simpl; [|tauto]. split; [done|intros [? _]; done]. Qed.

Lemma eq_string_true v s : Json.eq_string v s = true ↔ v = Some (JString s).
Proof.
  destruct v as [[]|]; simpl; try (split; [discriminate|intros [=]]).
  rewrite bool_decide_eq_true. split; [by intros ->|by intros [= ->]].
Qed.

Lemma depth_field k schema v : field k schema = Some v → (json_depth v < json_depth schema)%nat.
Proof.
  destruct schema as [| | | | |fields]; try discriminate. simpl. intros Hk.
  enough (json_depth v ≤ foldr (λ p n, Nat.max (json_depth p.2) n) O fields)%nat by lia.
  induction fields as [|[k' v'] l IH]; simpl in *; [discriminate|].
  destruct (String.eqb k k'); [injection Hk as ->; lia|]. specialize (IH Hk). lia.
Qed.

Lemma depth_elem k v fields : (k, v) ∈ fields → (json_depth v < json_depth (JObject fields))%nat.
Proof.
  simpl. induction fields as [|p l IH]; [by intros ?%elem_of_nil|].
  intros [<-|Hin]%elem_of_cons; simpl; [lia|]. specialize (IH Hin). lia.
Qed.

(** ** Each check *)

Section checks.
Context `{JsonText} `{RegExpTest} (v : jsvalue) (schema : json) (path : string).

Lemma check_const_None :
  check_const v schema path = None ↔ ∀ c, field "const" schema = Some c → object_is v c = true.
Proof.
  unfold check_const. destruct (field "const" schema) as [c|]; [|by split].
  rewrite complain_None, negb_false_iff. split; [by intros Hc ? [= <-]|auto].
Qed.

Lemma check_enum_None :
  check_enum v schema path = None ↔
  ∀ l, field "enum" schema = Some (JArray l) → ∃ c, c ∈ l ∧ object_is v c = true.
Proof.
  unfold check_enum. destruct (field "enum" schema) as [[]|]; try (by split).
  rewrite complain_None, negb_false_iff, existsb_exists. setoid_rewrite list_elem_of_In.
  split; [by intros Hc ? [= <-]|auto].
Qed.

Lemma validateJsonSchemaType_known type :
  type ∈ KNOWN_TYPES →
  validateJsonSchemaType v type path = complain (negb (bool_decide (type ∈ types_of v))) (path +:+ " must be " +:+
    default "" (match type with
                | "object" => Some "an object" | "array" => Some "an array" | "string" => Some "a string"
                | "number" => Some "a number" | "integer" => Some "an integer" | "boolean" => Some "a boolean"
                | "null" => Some "null" | _ => None
                end)).
Proof.
  unfold KNOWN_TYPES. rewrite !elem_of_cons.
  intros [->|[->|[->|[->|[->|[->|[->|Hn%elem_of_nil]]]]]]];
    try (destruct Hn); destruct v as [[| |q| | |]| |]; try reflexivity.
  all: unfold validateJsonSchemaType, types_of; destruct (Number.q_is_integer q); reflexivity.
Qed.

Lemma validateJsonSchemaType_None type : validateJsonSchemaType v type path = None ↔ has_type type v.
Proof.
  unfold has_type. destruct (decide (type ∈ KNOWN_TYPES)) as [Hin|Hout].
  - rewrite validateJsonSchemaType_known, complain_None, negb_false_iff, bool_decide_eq_true by done. tauto.
  - split; [done|intros _]. unfold KNOWN_TYPES in Hout. rewrite !not_elem_of_cons in Hout.
    unfold validateJsonSchemaType. destruct Hout as (?&?&?&?&?&?&?&_). by rewrite !(proj2 (String.eqb_neq _ _)).
Qed.

Lemma check_type_None :
  check_type v schema path = None ↔ ∀ type, field "type" schema = Some (JString type) → has_type type v.
Proof.
  unfold check_type. destruct (field "type" schema) as [[]|]; try (by split).
  rewrite validateJsonSchemaType_None. split; [by intros Hc ? [= <-]|auto].
Qed.

Lemma check_required_None :
  check_required v schema path = None ↔
  ∀ keys k, field "required" schema = Some (JArray keys) → JString k ∈ keys → has_property k v = true.
Proof.
  unfold check_required. destruct (field "required" schema) as [[]|]; try (by split).
  rewrite first_error_None. split.
  - intros Hx ? k [= <-] Hk. apply negb_false_iff, (complain_None _ (path +:+ "." +:+ k +:+ " is required")), Hx.
    apply list_elem_of_fmap. by exists (JString k).
  - intros Hx ? (x & -> & Hin)%list_elem_of_fmap. destruct x; try done.
    apply complain_None, negb_false_iff. by eapply Hx.
Qed.

Lemma check_additional_None :
  check_additional v schema path = None ↔
  (field "additionalProperties" schema = Some (JBool false) → ∀ k, k ∈ own_keys v → k ∈ (property_schemas schema).*1).
Proof.
  unfold check_additional. destruct (field "additionalProperties" schema) as [[|[]| | | |]|]; try (by split).
  rewrite first_error_None. split.
  - intros Hx _ k Hk. apply (bool_decide_eq_true_1 _), negb_false_iff.
    apply (complain_None _ (path +:+ "." +:+ k +:+ " is not allowed")), Hx. apply list_elem_of_fmap. by exists k.
  - intros Hx ? (k & -> & Hin)%list_elem_of_fmap. apply complain_None, negb_false_iff, bool_decide_eq_true. auto.
Qed.

(** A bound that may be missing. *)
Lemma bound_None k (ok : Q → bool) (message : Q → string) :
  match field k schema with Some (JNumber n) => complain (negb (ok n)) (message n) | _ => None end = None ↔
  ∀ n, field k schema = Some (JNumber n) → ok n = true.
Proof.
  destruct (field k schema) as [[]|]; try (by split).
  rewrite complain_None, negb_false_iff. split; [by intros Hc ? [= <-]|auto].
Qed.

Lemma bounds_None : check_string v schema path = None ∧ check_number v schema path = None ↔ within_bounds schema v.
Proof.
  destruct v as [[| |q|s| |]| |]; try (by split); simpl; rewrite !first_error_cons; unfold first_error; simpl.
  - rewrite (bound_None "minimum" (λ n, Qle_bool n q)), (bound_None "maximum" (λ n, Qle_bool q n)).
    setoid_rewrite Qle_bool_iff. tauto.
  - rewrite (bound_None "minLength" (λ n, Qle_bool n _)), (bound_None "maxLength" (λ n, Qle_bool _ n)).
    setoid_rewrite Qle_bool_iff.
    assert (match field "pattern" schema with
      | Some (JString p) =>
          match regexp_test p s with
          | Ok matches => complain (negb matches) (path +:+ " must match " +:+ p)
          | Throw error => Some (bad_pattern error)
          end
      | _ => None end = None ↔
      ∀ p, field "pattern" schema = Some (JString p) → regexp_test p s = Ok true) as ->; [|tauto].
    destruct (field "pattern" schema) as [[| | |p| |]|]; try (by split). split.
    + intros Hc ? [= <-]. destruct (regexp_test p s) as [[]|]; done.
    + intros Hp. by rewrite (Hp p eq_refl).
Qed.
End checks.

(** ** The whole check *)

Section whole.
Context `{JsonText} `{RegExpTest}.

Lemma elem_of_property_schemas schema k s :
  (k, s) ∈ property_schemas schema ↔ ∃ props, field "properties" schema = Some (JObject props) ∧ (k, s) ∈ props.
Proof.
  unfold property_schemas. destruct (field "properties" schema) as [[| | | | |props]|];
    try (split; [by intros ?%elem_of_nil|by intros (? & ? & ?)]).
  rewrite own_order_Permutation. split; [by exists props|by intros (? & [= ->] & ?)].
Qed.

(** The part about the properties of an object, given the nested check. *)
Lemma properties_None (nested : jsvalue → json → string → option fault) v schema path :
  first_error ((λ p : string * json,
    if has_property p.1 v && Json.isRecord p.2 then nested (property p.1 v) p.2 (path +:+ "." +:+ p.1) else None)
      <$> property_schemas schema) = None ↔
  ∀ props k s, field "properties" schema = Some (JObject props) → (k, JObject s) ∈ props → has_property k v = true →
    nested (property k v) (JObject s) (path +:+ "." +:+ k) = None.
Proof.
  rewrite first_error_None. split.
  - intros Hx props k s Hp Hin Hk. specialize (Hx (nested (property k v) (JObject s) (path +:+ "." +:+ k))).
    apply Hx, list_elem_of_fmap. exists (k, JObject s). simpl. rewrite Hk. split; [done|].
    apply elem_of_property_schemas. by exists props.
  - intros Hx ? ([k s] & -> & (props & Hp & Hin)%elem_of_property_schemas)%list_elem_of_fmap. simpl.
    destruct (has_property k v) eqn:Hk; [|done]. destruct s; try done. by eapply Hx.
Qed.

(** The part about the elements of an array. *)
Lemma items_None (nested : jsvalue → json → string → option fault) l schema path :
  match field "items" schema with
  | Some (JObject items) =>
      first_error (imap (λ index x,
        nested (js_json x) (JObject items) (path +:+ "[" +:+ pretty (Z.of_nat index) +:+ "]")) l)
  | _ => None
  end = None ↔
  ∀ items index x, field "items" schema = Some (JObject items) → l !! index = Some x →
    nested (js_json x) (JObject items) (path +:+ "[" +:+ pretty (Z.of_nat index) +:+ "]") = None.
Proof.
  destruct (field "items" schema) as [[| | | | |items]|]; try (by split).
  rewrite first_error_None. split.
  - intros Hx ? index x [= <-] Hl. apply Hx, list_elem_of_lookup. exists index. by rewrite list_lookup_imap, Hl.
  - intros Hx ? (index & Hl)%list_elem_of_lookup. rewrite list_lookup_imap in Hl.
    destruct (l !! index) as [y|] eqn:E; [|done]. injection Hl as <-. by eapply Hx.
Qed.

(** An object or array type leaves only objects or arrays. *)
Lemma has_type_object v : has_type "object" v → is_object_value v = true.
Proof.
  intros Hty. specialize (Hty ltac:(by left)). destruct v as [[| |q| | |]| |]; try done; simpl in Hty;
    try destruct (Number.q_is_integer q); set_solver.
Qed.

Lemma has_type_array v : has_type "array" v → ∃ l, v = js_json (JArray l).
Proof.
  intros Hty. specialize (Hty ltac:(right; by left)). destruct v as [[| |q| |l|]| |]; simpl in Hty;
    try destruct (Number.q_is_integer q); try set_solver.
Qed.

Section one_level.
Context (fuel : nat) (schema : json).
Hypothesis Hfuel : (json_depth schema < S fuel)%nat.
Hypothesis IH : ∀ v schema path, (json_depth schema < fuel)%nat → validate_nested fuel v schema path = None ↔ conforms schema v.

Lemma nested_property props k s v path :
  field "properties" schema = Some (JObject props) → (k, JObject s) ∈ props →
  validate_nested fuel v (JObject s) path = None ↔ conforms (JObject s) v.
Proof. intros Hp%depth_field Hin%depth_elem. apply IH. lia. Qed.

Lemma nested_items items v path :
  field "items" schema = Some (JObject items) →
  validate_nested fuel v (JObject items) path = None ↔ conforms (JObject items) v.
Proof. intros Hp%depth_field. apply IH. lia. Qed.

Lemma validate_level_sound v path : validate_nested (S fuel) v schema path = None → conforms schema v.
Proof.
  cbn [validate_nested]. rewrite !first_error_cons, check_const_None, check_enum_None, check_type_None.
  intros (Hc & He & Ht & Ho & Ha & Hs & Hn & _).
  assert (field "type" schema = Some (JString "object") →
    check_required v schema path = None ∧ check_additional v schema path = None ∧
    ∀ props k s, field "properties" schema = Some (JObject props) → (k, JObject s) ∈ props → has_property k v = true →
      validate_nested fuel (property k v) (JObject s) (path +:+ "." +:+ k) = None) as Hobj.
  { intros E. rewrite (proj2 (eq_string_true _ _) E), (has_type_object v) in Ho by auto. cbn [negb] in Ho.
    rewrite !first_error_cons, properties_None in Ho. tauto. }
  assert (field "type" schema = Some (JString "array") → ∀ l, v = js_json (JArray l) →
    (∀ n, field "minItems" schema = Some (JNumber n) → Qle_bool n (inject_Z (Z.of_nat (length l))) = true) ∧
    ∀ items index x, field "items" schema = Some (JObject items) → l !! index = Some x →
      validate_nested fuel (js_json x) (JObject items) (path +:+ "[" +:+ pretty (Z.of_nat index) +:+ "]") = None) as Harr.
  { intros E l ->. rewrite (proj2 (eq_string_true _ _) E) in Ha.
    rewrite !first_error_cons, (bound_None schema "minItems" (λ n, Qle_bool n _)), items_None in Ha. tauto. }
  constructor; [exact Hc|exact He|exact Ht|..].
  - intros E. apply (check_required_None v schema path). by apply Hobj.
  - intros E props k s Hp Hin Hk. destruct (Hobj E) as (_ & _ & Hn'). by eapply nested_property, Hn'.
  - intros E. apply (check_additional_None v schema path). by apply Hobj.
  - intros E l n Hl Hmin. apply Qle_bool_iff. by apply (Harr E l Hl).
  - intros E l items x Hl Hi (index & Hx)%list_elem_of_lookup. destruct (Harr E l Hl) as [_ Hn'].
    by eapply nested_items, Hn'.
  - by apply (bounds_None v schema path).
Qed.

Lemma validate_level_complete v path : conforms schema v → validate_nested (S fuel) v schema path = None.
Proof.
  intros [Hc He Ht Hr Hp Had Hmin Hi Hb]. apply (bounds_None v schema path) in Hb as [Hs Hn].
  cbn [validate_nested]. rewrite !first_error_cons, check_const_None, check_enum_None, check_type_None.
  split_all; try done.
  - destruct (Json.eq_string (field "type" schema) "object") eqn:E; [|done]. apply eq_string_true in E.
    rewrite (has_type_object v) by auto. cbn [negb]. rewrite !first_error_cons, properties_None.
    split_all; [apply check_required_None; by apply Hr| |apply check_additional_None; by apply Had|done].
    intros props k s Hf' Hin Hk. eapply nested_property; [done..|]. by eapply Hp.
  - destruct (Json.eq_string (field "type" schema) "array") eqn:E; [|done]. apply eq_string_true in E.
    destruct (has_type_array v) as [l ->]; [auto|].
    rewrite !first_error_cons, (bound_None schema "minItems" (λ n, Qle_bool n _)), items_None. split_all; [| |done].
    + intros n Hm. apply Qle_bool_iff. eauto.
    + intros items index x Hf' Hl. eapply nested_items; [done|].
      eapply Hi; [done..|by eapply list_elem_of_lookup_2].
Qed.
End one_level.

(** With fuel for its nesting the check finds nothing exactly on the values that
    conform, whatever the path. *)
Lemma validate_nested_None fuel v schema path :
  (json_depth schema < fuel)%nat → validate_nested fuel v schema path = None ↔ conforms schema v.
Proof.
  revert v schema path. induction fuel as [|fuel IH]; intros v schema path Hf; [lia|].
  split; [by apply validate_level_sound|by apply validate_level_complete].
Qed.
End whole.

(** ** Properties *)

(** The check is a decision procedure. However deeply values and schema nest,
    it returns no message exactly when the value conforms to the schema. *)
Theorem schema_check_decides_conformance `{JsonText} `{RegExpTest} value schema :
  validateJsonSchemaSubset value (Some schema) = None ↔ conforms schema (js_json value).
Proof. apply validate_nested_None. lia. Qed.

(** A required property may be one that every object inherits. *)
Lemma inherited_property_satisfies_required `{JsonText} `{RegExpTest} :
  validateJsonSchemaSubset (JObject [])
    (Some (JObject [("type", JString "object"); ("required", JArray [JString "toString"])])) = None.
Proof. reflexivity. Qed.

(** No value equals a constant that is an object, not even an equal one. *)
Lemma object_constant_rejects_all `{JsonText} `{RegExpTest} value fields :
  validateJsonSchemaSubset value (Some (JObject [("const", JObject fields)])) ≠ None.
Proof.
  unfold validateJsonSchemaSubset. rewrite validate_nested_None by lia. intros [Hc _ _ _ _ _ _ _ _]. specialize (Hc _ eq_refl).
  by destruct value.
Qed.
