(* ===== verification/LlmTypes.v ===== *)
(** * The vocabulary of the LLM gateway

    The part of [packages/contracts/src/index.ts] the gateway components share:
    requests, results, configuration and constrained-decoding metadata. A client
    configuration comes in two forms, as an operator gives it, with any strings
    and numbers, and as it is after validation. *)

From S2P Require Import Prelude JsList JsValue Contracts.

(** ** Structured outputs *)

Inductive LlmGatewayWireStructuredOutputMode : Type := wire_json_schema | wire_json_object | wire_none.

#[export] Instance wire_mode_eq_dec : EqDecision LlmGatewayWireStructuredOutputMode.
Proof. solve_decision. Defined.

Definition LlmGatewayWireStructuredOutputMode_label (m : LlmGatewayWireStructuredOutputMode) : string :=
  match m with wire_json_schema => "json_schema" | wire_json_object => "json_object" | wire_none => "none" end.

#[export] Program Instance wire_mode_Label : Label LlmGatewayWireStructuredOutputMode :=
  {| label := LlmGatewayWireStructuredOutputMode_label; labels := [wire_json_schema; wire_json_object; wire_none] |}.
Next Obligation. solve_label_complete. Qed.
Next Obligation. solve_label_distinct. Qed.

Inductive LlmConstrainedDecodingAdapterId : Type :=
| openai_json_schema | openai_json_object | prompt_only | outlines | llguidance.

#[export] Instance adapter_id_eq_dec : EqDecision LlmConstrainedDecodingAdapterId.
Proof. solve_decision. Defined.

Definition LlmConstrainedDecodingAdapterId_label (a : LlmConstrainedDecodingAdapterId) : string :=
  match a with
  | openai_json_schema => "openai_json_schema" | openai_json_object => "openai_json_object"
  | prompt_only => "prompt_only" | outlines => "outlines" | llguidance => "llguidance"
  end.

#[export] Program Instance adapter_id_Label : Label LlmConstrainedDecodingAdapterId :=
  {| label := LlmConstrainedDecodingAdapterId_label;
     labels := [openai_json_schema; openai_json_object; prompt_only; outlines; llguidance] |}.
Next Obligation. solve_label_complete. Qed.
Next Obligation. solve_label_distinct. Qed.

Inductive LlmConstrainedDecodingEnforcement : Type := enforced_by_provider | enforced_by_sampler | enforced_by_prompt.

Definition LlmConstrainedDecodingEnforcement_label (e : LlmConstrainedDecodingEnforcement) : string :=
  match e with
  | enforced_by_provider => "provider" | enforced_by_sampler => "sampler" | enforced_by_prompt => "prompt_only"
  end.

Record LlmConstrainedDecodingConfig := {
  dc_preferredAdapter : LlmConstrainedDecodingAdapterId;
  dc_fallbackAdapter : option LlmConstrainedDecodingAdapterId;
  dc_adapterVersion : option string;
}.

(** [requested] is always true. *)
Record LlmConstrainedDecodingMetadata := {
  dm_adapterId : LlmConstrainedDecodingAdapterId;
  dm_enforcement : LlmConstrainedDecodingEnforcement;
  dm_wireMode : LlmGatewayWireStructuredOutputMode;
  dm_fallback : bool;
  dm_fallbackReason : option string;
  dm_adapterVersion : option string;
}.

Definition decoding_json (m : LlmConstrainedDecodingMetadata) : json :=
  JObject (Json.literal
    [("requested", Some (JBool true));
     ("adapterId", Some (JString (LlmConstrainedDecodingAdapterId_label (dm_adapterId m))));
     ("enforcement", Some (JString (LlmConstrainedDecodingEnforcement_label (dm_enforcement m))));
     ("wireMode", Some (JString (LlmGatewayWireStructuredOutputMode_label (dm_wireMode m))));
     ("fallback", Some (JBool (dm_fallback m))); ("fallbackReason", JString <$> dm_fallbackReason m);
     ("adapterVersion", JString <$> dm_adapterVersion m)]).

(** ** Requests *)

Inductive LlmImageTokenStrategy : Type := openai_tiles | llama_tiles | raw_bytes.

Definition LlmImageTokenStrategy_label (s : LlmImageTokenStrategy) : string :=
  match s with openai_tiles => "openai_tiles" | llama_tiles => "llama_tiles" | raw_bytes => "raw_bytes" end.

#[export] Instance image_strategy_eq_dec : EqDecision LlmImageTokenStrategy.
Proof. solve_decision. Defined.

#[export] Program Instance image_strategy_Label : Label LlmImageTokenStrategy :=
  {| label := LlmImageTokenStrategy_label; labels := [openai_tiles; llama_tiles; raw_bytes] |}.
Next Obligation. solve_label_complete. Qed.
Next Obligation. solve_label_distinct. Qed.

Record LlmImageInput := {
  im_mimeType : string;
  im_base64Data : string;
  im_widthPx : option jsnum;
  im_heightPx : option jsnum;
}.

Record GatewayInFlightDedupInputs := {
  dd_inputHash : string;
  dd_promptHash : string;
  dd_modelBinding : string;
  dd_schemaHash : string;
  dd_policyProfileHash : string;
  dd_source : option string;
}.

Record GatewayIdempotencyInputs := {
  gi_jobId : string;
  gi_roleStepId : string;
  gi_attempt : jsnum;
  gi_promptVersion : string;
  gi_schemaHash : string;
  gi_inputHash : string;
}.

(** The abort signal is part of the surroundings of a dispatch. *)
Record LlmGenerationRequest := {
  rq_systemPrompt : string;
  rq_userPrompt : string;
  rq_responseSchema : option json;
  rq_responseSchemaName : option string;
  rq_imageInputs : list LlmImageInput;      (** absent and empty are the same *)
  rq_seed : option jsnum;
  rq_reasoningEffort : option string;
  rq_maxInputTokens : option jsnum;
  rq_maxOutputTokens : option jsnum;
  rq_maxWallClockMs : option jsnum;
  rq_maxRetries : option jsnum;
  rq_idempotency : option GatewayIdempotencyInputs;
  rq_inFlightDedup : option GatewayInFlightDedupInputs;
}.

(** ** Results *)

Record token_usage := { tu_inputTokens : option jsnum; tu_outputTokens : option jsnum }.

(** The content may be [undefined]. *)
Record LlmGenerationSuccess := {
  ls_content : option json;
  ls_rawTextContent : option string;
  ls_constrainedDecoding : option LlmConstrainedDecodingMetadata;
  ls_finishReason : string;
  ls_usage : token_usage;
  ls_modelDeployment : string;
  ls_modelRevision : string;
  ls_gatewayRelease : string;
  ls_attempt : Z;
}.

Record LlmGenerationFailure := {
  lf_errorClass : string;
  lf_message : string;
  lf_constrainedDecoding : option LlmConstrainedDecodingMetadata;
  lf_retryable : bool;
  lf_attempt : Z;
}.

Inductive LlmGenerationResult : Type :=
| gen_success (s : LlmGenerationSuccess)
| gen_failure (f : LlmGenerationFailure).

(** ** Configuration *)

Definition ALLOWED_LLM_GATEWAY_ROLES : list string :=
  ["test_generation"; "visual_primary"; "visual_fallback"; "requirements_synthesis"; "logic_judge"; "a11y_judge";
   "coverage_planner"; "risk_ranker"].
Definition ALLOWED_LLM_GATEWAY_COMPATIBILITY_MODES : list string := ["openai_chat"].
Definition ALLOWED_LLM_GATEWAY_AUTH_MODES : list string := ["api_key"; "bearer_token"; "none"].

Record LlmGatewayCapabilities := {
  cp_structuredOutputs : bool;
  cp_seedSupport : bool;
  cp_reasoningEffortSupport : bool;
  cp_maxOutputTokensSupport : bool;
  cp_streamingSupport : bool;
  cp_imageInputSupport : bool;
}.

(** A configuration as it is given. *)
Record raw_config := {
  rc_role : string;
  rc_compatibilityMode : string;
  rc_baseUrl : string;
  rc_deployment : string;
  rc_modelRevision : string;
  rc_gatewayRelease : string;
  rc_ictRegisterRef : option string;
  rc_modelWeightsSha256 : option string;
  rc_authMode : string;
  rc_declaredCapabilities : LlmGatewayCapabilities;
  rc_timeoutMs : jsnum;
  rc_maxRetries : jsnum;
  rc_failureThreshold : jsnum;
  rc_resetTimeoutMs : jsnum;
  rc_maxResponseBytes : option jsnum;
  rc_wireStructuredOutputMode : option string;
  rc_constrainedDecoding : option (string * option string * option string);
      (** the preferred adapter, the fallback adapter and the version *)
  rc_imageTokenStrategy : option string;
}.

(** A validated configuration, as far as calls use it. *)
Record LlmGatewayClientConfig := {
  gc_role : string;
  gc_compatibilityMode : string;
  gc_baseUrl : string;
  gc_deployment : string;
  gc_modelRevision : string;
  gc_gatewayRelease : string;
  gc_authMode : string;
  gc_capabilities : LlmGatewayCapabilities;
  gc_timeoutMs : Q;
  gc_maxRetries : Z;
  gc_maxResponseBytes : option Z;
  gc_wireStructuredOutputMode : option LlmGatewayWireStructuredOutputMode;
  gc_constrainedDecoding : option LlmConstrainedDecodingConfig;
  gc_imageTokenStrategy : option LlmImageTokenStrategy;
}.

(** The integer a number is; [0] stands for what no integer is. *)
Definition integer_part (n : jsnum) : Z := match n with Fin q => Qfloor q | _ => 0 end.
Definition finite_part (n : jsnum) : Q := match n with Fin q => q | _ => 0 end.

(** A number as [JSON.stringify] writes it. *)
Definition json_number (n : jsnum) : json := match n with Fin q => JNumber q | _ => JNull end.
