(* ===== verification/IdempotencyCache.v ===== *)
(** * The idempotency cache of the LLM gateway

    [packages/model-gateway/src/llm-gateway-idempotency.ts]: keys, the memory map
    with its cap and time to live, and the files behind it. The keyed digest is
    a parameter; a file of JSON text is identified with the value it parses to;
    what the clock, the secret provider and the file calls answer is an argument
    of each operation, and an operation runs without interruption. *)

From Stdlib Require Import Ascii.
From S2P Require Import Prelude JsString JsList JsValue CanonicalJson Contracts JsonView LlmTypes.

(** [createHmac("sha256", secret).update(payload).digest("hex")] *)
Class Hmac := {
  createHmac : string → json → string;
  createHmac_isHex64 secret payload : isHex64 (createHmac secret payload) = true;
}.

Definition GATEWAY_IDEMPOTENCY_CACHE_DIRNAME : string := "agent/idempotency-cache".
Definition DEFAULT_GATEWAY_IDEMPOTENCY_TTL_MS : Z := 24 * 60 * 60 * 1000.
Definition DEFAULT_GATEWAY_IDEMPOTENCY_MAX_ENTRIES : Z := 1024.
Definition GATEWAY_IDEMPOTENCY_KEY_SCHEMA_VERSION : string := "1.0.0".

(** ** Data *)

(** The schema version is fixed. *)
Record GatewayIdempotencyKey := {
  gk_jobId : string;
  gk_roleStepId : string;
  gk_attempt : Z;
  gk_promptVersion : string;
  gk_schemaHash : string;
  gk_inputHash : string;
  gk_hmac : string;
}.

Record MemoryEntry := {
  me_key : GatewayIdempotencyKey;
  me_result : LlmGenerationSuccess;
  me_storedAtMs : Q;
}.

(** A [RangeError], by what it refuses; a provider that rejects; the error of
    [timingSafeEqual] on buffers of different lengths. *)
Inductive IdempotencyError : Type :=
| refused (what : string)
| provider_failed
| lengths_differ.

(** ** The secret *)

Inductive GatewayIdempotencySecretProvider : Type :=
| secret_literal (s : string)
| secret_callback.

(** What the callback answers. *)
Inductive provided : Type :=
| provides (s : string)
| provides_other
| provider_throws.

Definition resolveSecret (p : GatewayIdempotencySecretProvider) (answer : provided) :
    outcome IdempotencyError string :=
  match p with
  | secret_literal s => Ok s
  | secret_callback =>
      match answer with
      | provides s => Ok s
      | provides_other => Throw (refused "hmac secret provider")
      | provider_throws => Throw provider_failed
      end
  end.

(** ** Keys *)

Definition toCanonicalInputs (i : GatewayIdempotencyInputs) : json :=
  JObject [("attempt", json_number (gi_attempt i)); ("inputHash", JString (gi_inputHash i));
           ("jobId", JString (gi_jobId i)); ("promptVersion", JString (gi_promptVersion i));
           ("roleStepId", JString (gi_roleStepId i)); ("schemaHash", JString (gi_schemaHash i))].

Definition computeGatewayIdempotencyHmac `{Hmac} (i : GatewayIdempotencyInputs)
    (p : GatewayIdempotencySecretProvider) (answer : provided) : outcome IdempotencyError string :=
  (let* secret := resolveSecret p answer in
   guard_throw (bool_decide (secret = "")) (refused "hmac secret") ;;;
   Ok (createHmac secret (canonicalJson (toCanonicalInputs i))))%outcome.

Definition assertNonEmptyString (value field : string) : outcome IdempotencyError unit :=
  guard_throw (bool_decide (value = "")) (refused field).
Definition assertHexDigest (value field : string) : outcome IdempotencyError unit :=
  guard_throw (negb (isHex64 value)) (refused field).

Definition validateInputs (i : GatewayIdempotencyInputs) : outcome IdempotencyError unit :=
  (assertNonEmptyString (gi_jobId i) "jobId" ;;;
   assertNonEmptyString (gi_roleStepId i) "roleStepId" ;;;
   assertNonEmptyString (gi_promptVersion i) "promptVersion" ;;;
   assertHexDigest (gi_schemaHash i) "schemaHash" ;;;
   assertHexDigest (gi_inputHash i) "inputHash" ;;;
   guard_throw (negb (Number.isInteger (gi_attempt i)) || Number.ltb (gi_attempt i) (num 1))
     (refused "attempt"))%outcome.

(** The number of an attempt that was checked to be an integer. *)
Definition computeKey `{Hmac} (p : GatewayIdempotencySecretProvider) (answer : provided)
    (i : GatewayIdempotencyInputs) : outcome IdempotencyError GatewayIdempotencyKey :=
  (validateInputs i ;;;
   let* hmac := computeGatewayIdempotencyHmac i p answer in
   Ok {| gk_jobId := gi_jobId i; gk_roleStepId := gi_roleStepId i; gk_attempt := integer_part (gi_attempt i);
         gk_promptVersion := gi_promptVersion i; gk_schemaHash := gi_schemaHash i;
         gk_inputHash := gi_inputHash i; gk_hmac := hmac |})%outcome.

(** ** Comparing digests *)

(** The digits of [Buffer.from(s, "hex")], which accepts both cases. *)
Definition hex_value (c : ascii) : option nat :=
  let n := nat_of_ascii c in
  if ((48 <=? n) && (n <=? 57))%nat then Some (n - 48)%nat
  else if ((97 <=? n) && (n <=? 102))%nat then Some (n - 87)%nat
  else if ((65 <=? n) && (n <=? 70))%nat then Some (n - 55)%nat
  else None.

(** Decoding stops at the first pair that is not hexadecimal. *)
Fixpoint hex_bytes (s : string) : list nat :=
  match s with
  | String a (String b r) =>
      match hex_value a, hex_value b with
      | Some x, Some y => (16 * x + y)%nat :: hex_bytes r
      | _, _ => []
      end
  | _ => []
  end.

Definition timingSafeEqual (a b : list nat) : outcome IdempotencyError bool :=
  if (length a =? length b)%nat then Ok (bool_decide (a = b)) else Throw lengths_differ.

Definition hmacMatches (a b : string) : outcome IdempotencyError bool :=
  if negb (String.length a =? String.length b)%nat then Ok false
  else timingSafeEqual (hex_bytes a) (hex_bytes b).

(** The file of a digest below the cache directory. *)
Definition resolveCachePath (hmac : string) : outcome IdempotencyError string :=
  if negb (isHex64 hmac) then Throw (refused "hmac") else Ok (hmac +:+ ".json").

(** ** Files *)

(** The text of a cache file: the value it parses to, if it is JSON. *)
#[warnings="-notation-for-abbreviation"] Notation cache_disk := (gmap string (option json)).

Definition key_json (k : GatewayIdempotencyKey) : json :=
  JObject (Json.literal
    [("schemaVersion", Some (JString GATEWAY_IDEMPOTENCY_KEY_SCHEMA_VERSION));
     ("jobId", Some (JString (gk_jobId k))); ("roleStepId", Some (JString (gk_roleStepId k)));
     ("attempt", Some (Json.jint (gk_attempt k))); ("promptVersion", Some (JString (gk_promptVersion k)));
     ("schemaHash", Some (JString (gk_schemaHash k))); ("inputHash", Some (JString (gk_inputHash k)));
     ("hmac", Some (JString (gk_hmac k)))]).

Definition usage_json (u : token_usage) : json :=
  JObject (Json.literal [("inputTokens", json_number <$> tu_inputTokens u);
                         ("outputTokens", json_number <$> tu_outputTokens u)]).

Definition success_json (r : LlmGenerationSuccess) : json :=
  JObject (Json.literal
    [("outcome", Some (JString "success")); ("content", ls_content r);
     ("rawTextContent", JString <$> ls_rawTextContent r);
     ("constrainedDecoding", decoding_json <$> ls_constrainedDecoding r);
     ("finishReason", Some (JString (ls_finishReason r))); ("usage", Some (usage_json (ls_usage r)));
     ("modelDeployment", Some (JString (ls_modelDeployment r)));
     ("modelRevision", Some (JString (ls_modelRevision r)));
     ("gatewayRelease", Some (JString (ls_gatewayRelease r))); ("attempt", Some (Json.jint (ls_attempt r)))]).

Definition envelope_fields (e : MemoryEntry) : list (string * option json) :=
  [("schemaVersion", Some (JString GATEWAY_IDEMPOTENCY_KEY_SCHEMA_VERSION));
   ("storedAtMs", Some (JNumber (me_storedAtMs e))); ("key", Some (key_json (me_key e)));
   ("result", Some (success_json (me_result e)))].

Definition serialiseDiskEntry (e : MemoryEntry) : json :=
  canonicalJson (JObject (Json.literal (envelope_fields e))).

Definition as_number (v : json) : option jsnum := match v with JNumber q => Some (Fin q) | _ => None end.
Definition as_finite (v : json) : option Q := match v with JNumber q => Some q | _ => None end.

Definition parseKey (v : json) : option GatewayIdempotencyKey :=
  if negb (Json.eq_string (field "schemaVersion" v) GATEWAY_IDEMPOTENCY_KEY_SCHEMA_VERSION) then None
  else
    jobId ← req "jobId" as_string v;
    roleStepId ← req "roleStepId" as_string v;
    promptVersion ← req "promptVersion" as_string v;
    schemaHash ← req "schemaHash" as_string v;
    inputHash ← req "inputHash" as_string v;
    hmac ← req "hmac" as_string v;
    attempt ← req "attempt" as_integer v;
    Some {| gk_jobId := jobId; gk_roleStepId := roleStepId; gk_attempt := attempt;
            gk_promptVersion := promptVersion; gk_schemaHash := schemaHash; gk_inputHash := inputHash;
            gk_hmac := hmac |}.

Definition ALLOWED_FINISH_REASONS : list string := ["stop"; "length"; "content_filter"; "tool_calls"; "other"].
Definition isFinishReason (value : string) : bool := bool_decide (value ∈ ALLOWED_FINISH_REASONS).

(** [typeof value === "object" && value !== null] *)
Definition is_object (v : json) : option json :=
  match v with JObject _ | JArray _ => Some v | _ => None end.

Definition parseSuccess (v : json) : option LlmGenerationSuccess :=
  if negb (Json.eq_string (field "outcome" v) "success") then None
  else
    modelDeployment ← req "modelDeployment" as_string v;
    modelRevision ← req "modelRevision" as_string v;
    gatewayRelease ← req "gatewayRelease" as_string v;
    finishReason ← req "finishReason" as_string v;
    attempt ← req "attempt" as_integer v;
    usage ← req "usage" is_object v;
    if negb (isFinishReason finishReason) then None
    else Some {| ls_content := field "content" v; ls_rawTextContent := None; ls_constrainedDecoding := None;
                 ls_finishReason := finishReason;
                 ls_usage := {| tu_inputTokens := req "inputTokens" as_number usage;
                                tu_outputTokens := req "outputTokens" as_number usage |};
                 ls_modelDeployment := modelDeployment; ls_modelRevision := modelRevision;
                 ls_gatewayRelease := gatewayRelease; ls_attempt := attempt |}.

(** [None] is [undefined]; the comparison of digests may throw. *)
Definition parseDiskEntry (raw : option json) (expectedKey : GatewayIdempotencyKey) :
    outcome IdempotencyError (option MemoryEntry) :=
  let read :=
    v ← raw;
    if negb (Json.eq_string (field "schemaVersion" v) GATEWAY_IDEMPOTENCY_KEY_SCHEMA_VERSION) then None
    else
      storedAtMs ← req "storedAtMs" as_finite v;
      key ← req "key" parseKey v;
      Some (v, storedAtMs, key) in
  match read with
  | None => Ok None
  | Some (v, storedAtMs, key) =>
      (let* same := hmacMatches (gk_hmac key) (gk_hmac expectedKey) in
       Ok (if same
           then result ← req "result" parseSuccess v;
                Some {| me_key := key; me_result := result; me_storedAtMs := storedAtMs |}
           else None))%outcome
  end.

(** What is never stored is dropped. *)
Definition sanitiseResultForStorage (r : LlmGenerationSuccess) : LlmGenerationSuccess :=
  {| ls_content := ls_content r; ls_rawTextContent := None; ls_constrainedDecoding := None;
     ls_finishReason := ls_finishReason r; ls_usage := ls_usage r;
     ls_modelDeployment := ls_modelDeployment r; ls_modelRevision := ls_modelRevision r;
     ls_gatewayRelease := ls_gatewayRelease r; ls_attempt := ls_attempt r |}.

(** ** The cache *)

Record CreateLlmGatewayIdempotencyCacheOptions := {
  op_hmacSecret : GatewayIdempotencySecretProvider;
  op_ttlMs : option jsnum;
  op_diskRoot : option string;
  op_maxEntries : option jsnum;
}.

Definition is_positive_finite (n : jsnum) : bool := Number.isFinite n && Number.ltb (num 0) n.
Definition is_positive_integer (n : jsnum) : bool := Number.isInteger n && Number.leb (num 1) n.

(** [value !== undefined && !test(value)] *)
Definition refuse_unless {A} (test : A → bool) (value : option A) (what : string) :
    outcome IdempotencyError unit :=
  match value with Some v => guard_throw (negb (test v)) (refused what) | None => Ok tt end.

Definition validateOptions (o : CreateLlmGatewayIdempotencyCacheOptions) : outcome IdempotencyError unit :=
  (match op_hmacSecret o with
   | secret_literal s => guard_throw (bool_decide (s = "")) (refused "hmacSecret")
   | secret_callback => Ok tt
   end ;;;
   refuse_unless is_positive_finite (op_ttlMs o) "ttlMs" ;;;
   refuse_unless is_positive_integer (op_maxEntries o) "maxEntries" ;;;
   refuse_unless (λ root, negb (bool_decide (root = ""))) (op_diskRoot o) "diskRoot")%outcome.

(** What a cache was made with. *)
Record cache_config := {
  cc_secret : GatewayIdempotencySecretProvider;
  cc_ttlMs : Q;
  cc_maxEntries : Z;
  cc_hasDisk : bool;
}.

Definition createLlmGatewayIdempotencyCache (o : CreateLlmGatewayIdempotencyCacheOptions) :
    outcome IdempotencyError cache_config :=
  (validateOptions o ;;;
   Ok {| cc_secret := op_hmacSecret o;
         cc_ttlMs := finite_part (default (num DEFAULT_GATEWAY_IDEMPOTENCY_TTL_MS) (op_ttlMs o));
         cc_maxEntries := integer_part (default (num DEFAULT_GATEWAY_IDEMPOTENCY_MAX_ENTRIES) (op_maxEntries o));
         cc_hasDisk := bool_decide (is_Some (op_diskRoot o)) |})%outcome.

Inductive counter : Type :=
| replays | stores | misses | diskReads | diskReadFailures | diskWrites | diskWriteFailures
| memoryEvictions | ttlExpirations.

#[export] Instance counter_eq_dec : EqDecision counter.
Proof. solve_decision. Defined.

Definition GatewayIdempotencyMetrics : Type := counter → Z.

(** [counters[c] += 1] *)
Definition bump (c : counter) (m : GatewayIdempotencyMetrics) : GatewayIdempotencyMetrics :=
  λ c', if bool_decide (c' = c) then m c' + 1 else m c'.

(** The memory and the counters of a process, and the files. *)
Record cache_state := {
  cs_memory : list (string * MemoryEntry);
  cs_counters : GatewayIdempotencyMetrics;
  cs_disk : cache_disk;
}.

(** A new process finds the files there are. *)
Definition new_process (disk : cache_disk) : cache_state :=
  {| cs_memory := []; cs_counters := λ _, 0; cs_disk := disk |}.

Definition count (c : counter) (s : cache_state) : cache_state :=
  {| cs_memory := cs_memory s; cs_counters := bump c (cs_counters s); cs_disk := cs_disk s |}.
Definition with_memory (m : list (string * MemoryEntry)) (s : cache_state) : cache_state :=
  {| cs_memory := m; cs_counters := cs_counters s; cs_disk := cs_disk s |}.

(** What the surroundings answer to one call. *)
Record surroundings := {
  en_now : Q;             (** [clock()] *)
  en_secret : provided;
  en_readable : bool;     (** [readFile] succeeds when the file exists *)
  en_writable : bool;     (** [mkdir], [writeFile] and [rename] succeed *)
}.

Inductive GatewayIdempotencyLookupResult : Type :=
| replay_hit (key : GatewayIdempotencyKey) (result : LlmGenerationSuccess)
| replay_miss (key : GatewayIdempotencyKey).

Section cache.
Context `{Hmac} (c : cache_config).

Definition isFresh (storedAtMs nowMs : Q) : bool := negb (Qle_bool (cc_ttlMs c) (nowMs - storedAtMs)).

Definition evictOldest (s : cache_state) : cache_state :=
  match cs_memory s with
  | [] => s
  | (oldest, _) :: _ => count memoryEvictions (with_memory (map_delete oldest (cs_memory s)) s)
  end.

Definition tryDiskRead (key : GatewayIdempotencyKey) (en : surroundings) (s : cache_state) :
    outcome IdempotencyError (option MemoryEntry) * cache_state :=
  if negb (cc_hasDisk c) then (Ok None, s)
  else match resolveCachePath (gk_hmac key) with
       | Throw e => (Throw e, s)
       | Ok path =>
           match (if en_readable en then cs_disk s !! path else None) with
           | None => (Ok None, count diskReadFailures s)
           | Some raw =>
               match parseDiskEntry raw key with
               | Throw e => (Throw e, s)
               | Ok None => (Ok None, count diskReadFailures s)
               | Ok (Some e) => (Ok (Some e), count diskReads s)
               end
           end
       end.

Definition persistDiskEntry (e : MemoryEntry) (en : surroundings) (s : cache_state) :
    outcome IdempotencyError unit * cache_state :=
  if negb (cc_hasDisk c) then (Ok tt, s)
  else match resolveCachePath (gk_hmac (me_key e)) with
       | Throw err => (Throw err, s)
       | Ok path =>
           (Ok tt,
            if en_writable en
            then {| cs_memory := cs_memory s; cs_counters := bump diskWrites (cs_counters s);
                    cs_disk := <[path := Some (serialiseDiskEntry e)]> (cs_disk s) |}
            else count diskWriteFailures s)
       end.

(** An entry that was found: expired, the one asked for, or another. *)
Definition answer_from (e : MemoryEntry) (key : GatewayIdempotencyKey) (nowMs : Q) :
    outcome IdempotencyError (option bool) :=
  if negb (isFresh (me_storedAtMs e) nowMs) then Ok None
  else outcome_map Some (hmacMatches (gk_hmac (me_key e)) (gk_hmac key)).

(** The part of [lookup] after the memory had no answer. *)
Definition lookup_disk (key : GatewayIdempotencyKey) (en : surroundings) (s : cache_state) :
    outcome IdempotencyError GatewayIdempotencyLookupResult * cache_state :=
  match tryDiskRead key en s with
  | (Throw e, s) => (Throw e, s)
  | (Ok None, s) => (Ok (replay_miss key), count misses s)
  | (Ok (Some e), s) =>
      match answer_from e key (en_now en) with
      | Throw err => (Throw err, s)
      | Ok None => (Ok (replay_miss key), count misses (count ttlExpirations s))
      | Ok (Some true) =>
          (Ok (replay_hit key (me_result e)),
           count replays (with_memory (map_set (gk_hmac key) e (cs_memory s)) s))
      | Ok (Some false) => (Ok (replay_miss key), count misses s)
      end
  end.

Definition lookup (i : GatewayIdempotencyInputs) (en : surroundings) (s : cache_state) :
    outcome IdempotencyError GatewayIdempotencyLookupResult * cache_state :=
  match computeKey (cc_secret c) (en_secret en) i with
  | Throw e => (Throw e, s)
  | Ok key =>
      match map_get (gk_hmac key) (cs_memory s) with
      | None => lookup_disk key en s
      | Some e =>
          match answer_from e key (en_now en) with
          | Throw err => (Throw err, s)
          | Ok None =>
              lookup_disk key en
                (count ttlExpirations (with_memory (map_delete (gk_hmac key) (cs_memory s)) s))
          | Ok (Some true) => (Ok (replay_hit key (me_result e)), count replays s)
          | Ok (Some false) => lookup_disk key en s
          end
      end
  end.

Definition store (key : GatewayIdempotencyKey) (result : LlmGenerationSuccess) (en : surroundings)
    (s : cache_state) : outcome IdempotencyError unit * cache_state :=
  let s := if (cc_maxEntries c <=? Z.of_nat (length (cs_memory s))) && negb (map_has (gk_hmac key) (cs_memory s))
           then evictOldest s else s in
  let e := {| me_key := key; me_result := sanitiseResultForStorage result; me_storedAtMs := en_now en |} in
  persistDiskEntry e en (count stores (with_memory (map_set (gk_hmac key) e (cs_memory s)) s)).

(** The calls of a job, and the restarts of its worker. *)
Inductive cache_call : Type :=
| call_lookup (i : GatewayIdempotencyInputs) (en : surroundings)
| call_store (key : GatewayIdempotencyKey) (result : LlmGenerationSuccess) (en : surroundings)
| call_restart.

Definition perform_call (call : cache_call) (s : cache_state) : cache_state :=
  match call with
  | call_lookup i en => (lookup i en s).2
  | call_store key result en => (store key result en s).2
  | call_restart => new_process (cs_disk s)
  end.

Definition run_calls (calls : list cache_call) (s : cache_state) : cache_state :=
  foldl (λ s call, perform_call call s) s calls.
End cache.

(** ** Digests *)

Lemma hmacMatches_refl h : hmacMatches h h = Ok true.
Proof.
  unfold hmacMatches, timingSafeEqual. rewrite !Nat.eqb_refl. simpl. by rewrite bool_decide_eq_true_2.
Qed.

Lemma computeKey_isHex64 `{Hmac} p answer i key : computeKey p answer i = Ok key → isHex64 (gk_hmac key) = true.
Proof.
  unfold computeKey, computeGatewayIdempotencyHmac. rewrite outcome_then_Ok, outcome_bind_Ok.
  intros (_ & h & Hh & [= <-]). apply outcome_bind_Ok in Hh as (secret & _ & Hh).
  apply outcome_then_Ok in Hh as (_ & [= <-]). apply createHmac_isHex64.
Qed.

Definition cache_path (hmac : string) : string := hmac +:+ ".json".

Lemma resolveCachePath_Ok h path : resolveCachePath h = Ok path ↔ path = cache_path h ∧ isHex64 h = true.
Proof. unfold resolveCachePath. destruct (isHex64 h); simpl; naive_solver. Qed.

Lemma cache_path_inj h1 h2 : cache_path h1 = cache_path h2 → h1 = h2.
Proof. apply string_app_inj_r. Qed.

(** ** Files are read back *)

(** What a file keeps: the content in canonical order, and finite counts. *)
Definition disk_tokens (n : option jsnum) : option jsnum :=
  match n with Some (Fin q) => Some (Fin q) | _ => None end.

Definition disk_result (r : LlmGenerationSuccess) : LlmGenerationSuccess :=
  {| ls_content := canonicalJson <$> ls_content r; ls_rawTextContent := None; ls_constrainedDecoding := None;
     ls_finishReason := ls_finishReason r;
     ls_usage := {| tu_inputTokens := disk_tokens (tu_inputTokens (ls_usage r));
                    tu_outputTokens := disk_tokens (tu_outputTokens (ls_usage r)) |};
     ls_modelDeployment := ls_modelDeployment r; ls_modelRevision := ls_modelRevision r;
     ls_gatewayRelease := ls_gatewayRelease r; ls_attempt := ls_attempt r |}.

Definition disk_view (e : MemoryEntry) : MemoryEntry :=
  {| me_key := me_key e; me_result := disk_result (me_result e); me_storedAtMs := me_storedAtMs e |}.

Lemma canonical_string s : canonicalJson (JString s) = JString s.
Proof. done. Qed.

(** Reads the properties of the canonical text of one literal. *)
Ltac read_literal :=
  match goal with |- context [canonicalJson (JObject (Json.literal ?fs))] =>
    let v := fresh "v" in let Hv := fresh "Hv" in
    pose proof (λ k Hk, field_canonical k fs Hk) as Hv;
    generalize dependent (canonicalJson (JObject (Json.literal fs))); intros v Hv;
    rewrite !Hv by discriminate; clear v Hv; cbn -[canonicalJson isFinishReason Json.jint usage_json as_string];
    rewrite ?canonical_string; cbn -[canonicalJson isFinishReason Json.jint usage_json]
  end.

Lemma parseKey_canonical k : parseKey (canonicalJson (key_json k)) = Some k.
Proof.
  unfold parseKey, key_json, req. read_literal.
  change (canonicalJson (Json.jint (gk_attempt k))) with (Json.jint (gk_attempt k)).
  rewrite as_integer_jint. by destruct k.
Qed.

Lemma read_tokens k fields n :
  k ≠ PROTO → Json.literal_get k fields = json_number <$> n →
  field k (canonicalJson (JObject (Json.literal fields))) ≫= as_number = disk_tokens n.
Proof.
  intros Hk E. rewrite field_canonical, E by done. by destruct n as [[]|].
Qed.

Lemma parseSuccess_canonical r :
  parseSuccess (canonicalJson (success_json r)) =
  if isFinishReason (ls_finishReason r) then Some (disk_result r) else None.
Proof.
  unfold parseSuccess, success_json, req. read_literal.
  change (canonicalJson (Json.jint (ls_attempt r))) with (Json.jint (ls_attempt r)).
  change (is_object (canonicalJson (usage_json (ls_usage r)))) with (Some (canonicalJson (usage_json (ls_usage r)))).
  rewrite as_integer_jint. cbn -[canonicalJson isFinishReason usage_json].
  destruct (isFinishReason (ls_finishReason r)); [|done]. cbn -[canonicalJson usage_json].
  unfold usage_json, disk_result.
  rewrite (read_tokens "inputTokens" _ (tu_inputTokens (ls_usage r))) by
    (try done; by destruct (tu_inputTokens (ls_usage r))).
  rewrite (read_tokens "outputTokens" _ (tu_outputTokens (ls_usage r))) by
    (try done; by destruct (tu_outputTokens (ls_usage r))).
  by destruct (ls_content r).
Qed.

(** What the cache writes it reads back under the same digest. *)
Lemma parse_serialise e key :
  gk_hmac (me_key e) = gk_hmac key →
  parseDiskEntry (Some (serialiseDiskEntry e)) key =
  Ok (if isFinishReason (ls_finishReason (me_result e)) then Some (disk_view e) else None).
Proof.
  intros Hh. unfold parseDiskEntry, serialiseDiskEntry, req. cbn [mbind option_bind].
  pose proof (λ k Hk, field_canonical k (envelope_fields e) Hk) as Hv.
  generalize dependent (canonicalJson (JObject (Json.literal (envelope_fields e)))). intros v Hv.
  rewrite !Hv by discriminate.
  cbn -[canonicalJson isFinishReason key_json success_json parseKey parseSuccess hmacMatches field].
  rewrite parseKey_canonical, canonical_string.
  change (canonicalJson (JNumber (me_storedAtMs e))) with (JNumber (me_storedAtMs e)).
  rewrite bool_decide_eq_true_2 by done. cbn -[canonicalJson isFinishReason success_json parseSuccess hmacMatches field].
  rewrite Hh, hmacMatches_refl, Hv by discriminate.
  cbn -[canonicalJson isFinishReason success_json parseSuccess].
  rewrite parseSuccess_canonical. by destruct (isFinishReason _).
Qed.

(** ** What the operations change *)

Section effects.
Context `{Hmac} (c : cache_config).

(** An entry the file of its digest holds. *)
Definition on_disk (disk : cache_disk) (h : string) (e : MemoryEntry) : Prop :=
  ∃ key raw, gk_hmac key = h ∧ isHex64 h = true ∧ disk !! cache_path h = Some raw ∧
             parseDiskEntry raw key = Ok (Some e).

Lemma tryDiskRead_state key en s :
  let s' := (tryDiskRead c key en s).2 in cs_memory s' = cs_memory s ∧ cs_disk s' = cs_disk s.
Proof.
  unfold tryDiskRead. destruct (negb (cc_hasDisk c)); [done|].
  destruct (resolveCachePath _) as [path|]; [|done].
  destruct (if en_readable en then _ else _) as [raw|]; [|done].
  by destruct (parseDiskEntry raw key) as [[e|]|].
Qed.

Lemma tryDiskRead_Some key en s e :
  (tryDiskRead c key en s).1 = Ok (Some e) → on_disk (cs_disk s) (gk_hmac key) e.
Proof.
  unfold tryDiskRead. destruct (negb (cc_hasDisk c)); [done|].
  destruct (resolveCachePath _) as [path|] eqn:Ep; [|done]. apply resolveCachePath_Ok in Ep as [-> Hh].
  destruct (en_readable en); [|done].
  destruct (cs_disk s !! _) as [raw|] eqn:Er; [|done].
  destruct (parseDiskEntry raw key) as [[e'|]|] eqn:Ee; [|done|done].
  intros [= <-]. by exists key, raw.
Qed.

Lemma lookup_disk_effect key en s :
  let s' := (lookup_disk c key en s).2 in
  cs_disk s' = cs_disk s ∧
  ∀ h e, map_get h (cs_memory s') = Some e → map_get h (cs_memory s) = Some e ∨ on_disk (cs_disk s) h e.
Proof.
  unfold lookup_disk. pose proof (tryDiskRead_state key en s) as [Hm Hd].
  pose proof (tryDiskRead_Some key en s) as Hs.
  destruct (tryDiskRead c key en s) as [[[e|]|err] s1]; simpl in *; rewrite ?Hm, ?Hd; auto.
  destruct (answer_from c e key (en_now en)) as [[[]|]|]; simpl; rewrite ?Hm, ?Hd; auto.
  split; [done|]. intros h e'. rewrite map_get_set. case_bool_decide as Hh; [|auto].
  intros [= <-]. right. rewrite Hh. by apply Hs.
Qed.

Lemma lookup_effect i en s :
  let s' := (lookup c i en s).2 in
  cs_disk s' = cs_disk s ∧
  ∀ h e, map_get h (cs_memory s') = Some e → map_get h (cs_memory s) = Some e ∨ on_disk (cs_disk s) h e.
Proof.
  unfold lookup. destruct (computeKey _ _ _) as [key|]; [|auto].
  destruct (map_get (gk_hmac key) (cs_memory s)) as [e|]; [|apply lookup_disk_effect].
  destruct (answer_from c e key (en_now en)) as [[[]|]|]; [auto|apply lookup_disk_effect| |auto].
  pose proof (lookup_disk_effect key en
    (count ttlExpirations (with_memory (map_delete (gk_hmac key) (cs_memory s)) s))) as [Hd Hm].
  split; [exact Hd|]. intros h e' He. apply Hm in He as [He|He]; [|by right]. left.
  simpl in He. rewrite map_get_delete in He. by case_bool_decide.
Qed.

Definition admitted_entry (key : GatewayIdempotencyKey) (result : LlmGenerationSuccess) (en : surroundings) : MemoryEntry :=
  {| me_key := key; me_result := sanitiseResultForStorage result; me_storedAtMs := en_now en |}.

Lemma evictOldest_get h e s : map_get h (cs_memory (evictOldest s)) = Some e → map_get h (cs_memory s) = Some e.
Proof.
  unfold evictOldest. destruct (cs_memory s) as [|[k e0] m] eqn:E; [by rewrite E|].
  change (map_get h (map_delete k ((k, e0) :: m)) = Some e → map_get h ((k, e0) :: m) = Some e).
  rewrite map_get_delete. by case_bool_decide.
Qed.

Lemma evictOldest_disk s : cs_disk (evictOldest s) = cs_disk s.
Proof. unfold evictOldest. by destruct (cs_memory s) as [|[]]. Qed.

Lemma persistDiskEntry_effect e en s :
  let s' := (persistDiskEntry c e en s).2 in
  cs_memory s' = cs_memory s ∧
  cs_disk s' = if cc_hasDisk c && isHex64 (gk_hmac (me_key e)) && en_writable en
               then <[cache_path (gk_hmac (me_key e)) := Some (serialiseDiskEntry e)]> (cs_disk s)
               else cs_disk s.
Proof.
  unfold persistDiskEntry, resolveCachePath. destruct (cc_hasDisk c); [|done].
  destruct (isHex64 (gk_hmac (me_key e))); simpl; [|done]. by destruct (en_writable en).
Qed.

Lemma store_effect key r en s :
  let s' := (store c key r en s).2 in let e := admitted_entry key r en in
  (∀ h e', map_get h (cs_memory s') = Some e' →
     (h = gk_hmac key ∧ e' = e) ∨ (h ≠ gk_hmac key ∧ map_get h (cs_memory s) = Some e')) ∧
  map_get (gk_hmac key) (cs_memory s') = Some e ∧
  cs_disk s' = if cc_hasDisk c && isHex64 (gk_hmac key) && en_writable en
               then <[cache_path (gk_hmac key) := Some (serialiseDiskEntry e)]> (cs_disk s)
               else cs_disk s.
Proof.
  unfold store. match goal with |- context [if ?b then evictOldest s else s] => set (s1 := if b then evictOldest s else s) end.
  assert (∀ h e', map_get h (cs_memory s1) = Some e' → map_get h (cs_memory s) = Some e') as Hget.
  { intros h e'. unfold s1. case_match; [apply evictOldest_get|done]. }
  assert (cs_disk s1 = cs_disk s) as Hdisk by (unfold s1; case_match; [apply evictOldest_disk|done]).
  cbv zeta. match goal with |- context [persistDiskEntry c ?e en ?t] =>
    pose proof (persistDiskEntry_effect e en t) as [Hm Hd] end.
  rewrite Hm, Hd. cbn [cs_memory count with_memory cs_disk me_key]. rewrite Hdisk. split; [|split; [|done]].
  - intros h e'. rewrite map_get_set. case_bool_decide as Hh; [intros [= <-]; by left|].
    intros He. right. auto.
  - by rewrite map_get_set, bool_decide_eq_true_2.
Qed.
End effects.

(** ** What the cache holds *)

Section histories.
Context `{Hmac} (c : cache_config).

(** The result as it was stored, or as a file gives it back. *)
Definition same_result (r res : LlmGenerationSuccess) : Prop :=
  res = sanitiseResultForStorage r ∨ res = disk_result (sanitiseResultForStorage r).

(** The memory entry comes from the store of [r] under [key] at [t0]. *)
Definition comes_from (key : GatewayIdempotencyKey) (r : LlmGenerationSuccess) (t0 : Q) (e : MemoryEntry) : Prop :=
  me_key e = key ∧ me_storedAtMs e = t0 ∧ same_result r (me_result e).

Lemma comes_from_disk key r en h e :
  gk_hmac key = h → on_disk {[cache_path h := Some (serialiseDiskEntry (admitted_entry key r en))]} h e →
  comes_from key r (en_now en) e.
Proof.
  intros Hh (k & raw & Hk & _ & Hraw & Hp). rewrite lookup_singleton_eq in Hraw. injection Hraw as <-.
  rewrite parse_serialise in Hp by (simpl; congruence).
  destruct (isFinishReason _); [|done]. injection Hp as <-. split; [done|]. split; [done|]. by right.
Qed.

(** The store of [r] is on disk, and nothing else is in memory under its key. *)
Definition keeps (key : GatewayIdempotencyKey) (r : LlmGenerationSuccess) (en : surroundings) (s : cache_state) : Prop :=
  cs_disk s !! cache_path (gk_hmac key) = Some (Some (serialiseDiskEntry (admitted_entry key r en))) ∧
  ∀ e, map_get (gk_hmac key) (cs_memory s) = Some e → comes_from key r (en_now en) e.

Lemma keeps_disk key r en s e : keeps key r en s → on_disk (cs_disk s) (gk_hmac key) e → comes_from key r (en_now en) e.
Proof.
  intros [Hd _] (k & raw & Hk & Hx & Hraw & Hp). apply (comes_from_disk key r en (gk_hmac key)); [done|].
  exists k, raw. rewrite lookup_singleton_eq. split_all; try done. congruence.
Qed.

(** The call does not store under [h]. *)
Definition not_stored (h : string) (call : cache_call) : Prop :=
  match call with call_store key _ _ => gk_hmac key ≠ h | _ => True end.

Lemma keeps_perform key r en call s :
  not_stored (gk_hmac key) call → keeps key r en s → keeps key r en (perform_call c call s).
Proof.
  intros Hn Hk. pose proof Hk as [Hd Hm]. destruct call as [i en'|key' r' en'|]; simpl in *.
  - destruct (lookup_effect c i en' s) as [Hd' Hm']. split; [by rewrite Hd'|].
    intros e He. apply Hm' in He as [He|He]; [by apply Hm|by eapply keeps_disk].
  - destruct (store_effect c key' r' en' s) as (Hm' & _ & Hd'). split.
    + rewrite Hd'. case_match; [|done]. rewrite lookup_insert_ne; [done|]. by intros ?%cache_path_inj.
    + intros e He. apply Hm' in He as [[? _]|[_ He]]; [congruence|by apply Hm].
  - split; [done|]. by intros e.
Qed.

Lemma keeps_run key r en calls s :
  Forall (not_stored (gk_hmac key)) calls → keeps key r en s → keeps key r en (run_calls c calls s).
Proof.
  intros Hall. revert s. induction Hall as [|call calls Hc _ IH]; intros s Hk; [done|].
  simpl. apply IH. by apply keeps_perform.
Qed.

(** A kept result that is still fresh is found. *)
Lemma keeps_lookup key r en i en' s :
  computeKey (cc_secret c) (en_secret en') i = Ok key → cc_hasDisk c = true → en_readable en' = true →
  isFinishReason (ls_finishReason r) = true → isFresh c (en_now en) (en_now en') = true →
  keeps key r en s →
  ∃ res, (lookup c i en' s).1 = Ok (replay_hit key res) ∧ same_result r res.
Proof.
  intros Hkey Hdisk Hread Hfin Hfresh [Hd Hm].
  assert (∀ e, comes_from key r (en_now en) e → answer_from c e key (en_now en') = Ok (Some true)) as Ha.
  { intros e (Hke & Ht & _). unfold answer_from. by rewrite Ht, Hfresh, Hke, hmacMatches_refl. }
  unfold lookup. rewrite Hkey. destruct (map_get (gk_hmac key) (cs_memory s)) as [e|] eqn:Ee.
  - pose proof (Hm e eq_refl) as He. rewrite Ha by done. exists (me_result e). split; [done|apply He].
  - unfold lookup_disk, tryDiskRead. rewrite Hdisk. simpl.
    rewrite (proj2 (resolveCachePath_Ok _ _)) by (split; [done|by eapply computeKey_isHex64]).
    rewrite Hread, Hd, parse_serialise by done. simpl. rewrite Hfin.
    rewrite Ha by (split; [done|split; [done|by right]]). simpl.
    exists (disk_result (sanitiseResultForStorage r)). split; [done|by right].
Qed.

Lemma keeps_store key r en s :
  isHex64 (gk_hmac key) = true → cc_hasDisk c = true → en_writable en = true →
  keeps key r en (store c key r en s).2.
Proof.
  intros Hx Hdisk Hw. destruct (store_effect c key r en s) as (Hm & _ & Hd). split.
  - rewrite Hd, Hdisk, Hx, Hw. simpl. by rewrite lookup_insert_eq.
  - intros e He. apply Hm in He as [[_ ->]|[? _]]; [|done]. split; [done|]. split; [done|]. by left.
Qed.

(** ** Where a hit comes from *)

(** Some store of the history admitted this result at this time under [h]. *)
Definition admitted (calls : list cache_call) (h : string) (e : MemoryEntry) : Prop :=
  ∃ key r en, call_store key r en ∈ calls ∧ gk_hmac key = h ∧ comes_from key r (en_now en) e.

Record recorded (calls : list cache_call) (s : cache_state) : Prop := {
  rd_memory h e : map_get h (cs_memory s) = Some e → admitted calls h e;
  rd_disk path raw : cs_disk s !! path = Some raw →
    ∃ key r en, call_store key r en ∈ calls ∧ path = cache_path (gk_hmac key) ∧
                raw = Some (serialiseDiskEntry (admitted_entry key r en));
}.

Lemma recorded_disk calls s h e : recorded calls s → on_disk (cs_disk s) h e → admitted calls h e.
Proof.
  intros [_ Hd] (k & raw & Hk & Hx & Hraw & Hp). apply Hd in Hraw as (key & r & en & Hin & Hpath & ->).
  apply cache_path_inj in Hpath as ->. exists key, r, en. split; [done|]. split; [done|].
  apply (comes_from_disk key r en (gk_hmac key)); [done|]. exists k, (Some (serialiseDiskEntry (admitted_entry key r en))).
  by rewrite lookup_singleton_eq.
Qed.

Lemma admitted_more calls call h e : admitted calls h e → admitted (calls ++ [call]) h e.
Proof. intros (key & r & en & Hin & ?). exists key, r, en. split; [|done]. apply elem_of_app. by left. Qed.

Lemma recorded_perform calls call s : recorded calls s → recorded (calls ++ [call]) (perform_call c call s).
Proof.
  intros Hr. assert (recorded (calls ++ [call]) s) as Hr'.
  { destruct Hr as [Hm Hd]. split; [intros; by apply admitted_more, Hm|].
    intros path raw Hraw. destruct (Hd path raw Hraw) as (key & r & en & Hin & ?). exists key, r, en.
    split; [|done]. apply elem_of_app. by left. }
  destruct call as [i en|key r en|]; simpl.
  - destruct (lookup_effect c i en s) as [Hd Hm]. split.
    + intros h e He. apply Hm in He as [He|He]; [by apply Hr'|by eapply recorded_disk].
    + intros path raw. rewrite Hd. apply Hr'.
  - assert (call_store key r en ∈ calls ++ [call_store key r en]) as Hin by (apply elem_of_app; right; constructor).
    destruct (store_effect c key r en s) as (Hm & _ & Hd). split.
    + intros h e He. apply Hm in He as [[-> ->]|[_ He]]; [|by apply Hr'].
      exists key, r, en. split; [done|]. split; [done|]. split; [done|]. split; [done|by left].
    + intros path raw. rewrite Hd. case_match; [|apply Hr'].
      rewrite lookup_insert_Some. intros [[<- <-]|[_ Hraw]]; [by exists key, r, en|by apply Hr'].
  - split; [by intros h e|apply Hr'].
Qed.

Lemma recorded_run calls : recorded calls (run_calls c calls (new_process ∅)).
Proof.
  induction calls as [|call calls IH] using rev_ind.
  - split; [by intros h e|]. intros path raw Hraw. change ((∅ : cache_disk) !! path = Some raw) in Hraw. by rewrite lookup_empty in Hraw.
  - unfold run_calls in *. rewrite foldl_app. by apply recorded_perform.
Qed.

(** A hit is fresh, and an entry of memory or disk. *)
Lemma lookup_hit i en s key res :
  (lookup c i en s).1 = Ok (replay_hit key res) →
  computeKey (cc_secret c) (en_secret en) i = Ok key ∧
  ∃ e, (map_get (gk_hmac key) (cs_memory s) = Some e ∨ on_disk (cs_disk s) (gk_hmac key) e) ∧
       isFresh c (me_storedAtMs e) (en_now en) = true ∧ res = me_result e.
Proof.
  assert (∀ key0 s0, (lookup_disk c key0 en s0).1 = Ok (replay_hit key res) →
    key0 = key ∧ ∃ e, on_disk (cs_disk s0) (gk_hmac key) e ∧
                      isFresh c (me_storedAtMs e) (en_now en) = true ∧ res = me_result e) as Hdisk.
  { intros key0 s0. unfold lookup_disk. pose proof (tryDiskRead_Some c key0 en s0) as Hs.
    destruct (tryDiskRead c key0 en s0) as [[[e|]|err] s1]; simpl in *; try done.
    unfold answer_from. destruct (isFresh c _ _) eqn:Ef; simpl; [|done].
    destruct (hmacMatches _ _) as [[]|]; simpl; try done. intros [= <- <-].
    split; [done|]. exists e. split_all; [by apply Hs|done|done]. }
  unfold lookup. destruct (computeKey _ _ _) as [key0|]; [|done].
  destruct (map_get (gk_hmac key0) (cs_memory s)) as [e|] eqn:Ee.
  - unfold answer_from at 1. destruct (isFresh c _ _) eqn:Ef; simpl.
    + destruct (hmacMatches _ _) as [[]|]; simpl; [|intros (-> & e' & ? & ? & ?)%Hdisk; eauto 10|done].
      intros [= <- <-]. eauto 10.
    + intros (-> & e' & ? & ? & ?)%Hdisk. eauto 10.
  - intros (-> & e' & ? & ? & ?)%Hdisk. eauto 10.
Qed.

(** A lookup that returns answers for the computed key. *)
Lemma lookup_key i en s :
  match (lookup c i en s).1 with
  | Ok (replay_hit key _) | Ok (replay_miss key) => computeKey (cc_secret c) (en_secret en) i = Ok key
  | Throw _ => True
  end.
Proof.
  assert (∀ key s0, match (lookup_disk c key en s0).1 with
    | Ok (replay_hit key' _) | Ok (replay_miss key') => key' = key | Throw _ => True end) as Hdisk.
  { intros key s0. unfold lookup_disk. destruct (tryDiskRead c key en s0) as [[[e|]|err] s1]; simpl; try done.
    destruct (answer_from c e key (en_now en)) as [[[]|]|]; done. }
  unfold lookup. destruct (computeKey _ _ _) as [key|]; [|done].
  assert (∀ s0, match (lookup_disk c key en s0).1 with
    | Ok (replay_hit key' _) | Ok (replay_miss key') => Ok key = Ok key' :> outcome IdempotencyError _
    | Throw _ => True end) as Hk.
  { intros s0. specialize (Hdisk key s0). destruct (lookup_disk c key en s0) as [[[]|] ?]; simpl in *; congruence. }
  destruct (map_get (gk_hmac key) (cs_memory s)) as [e|]; [|apply Hk].
  destruct (answer_from c e key (en_now en)) as [[[]|]|]; try done; apply Hk.
Qed.
End histories.

(** ** The memory cap *)

Lemma lookup_memory_only `{Hmac} c i en s :
  cc_hasDisk c = false → (length (cs_memory (lookup c i en s).2) ≤ length (cs_memory s))%nat.
Proof.
  intros Hdisk. assert (∀ key s, cs_memory (lookup_disk c key en s).2 = cs_memory s) as Hl.
  { intros key s0. unfold lookup_disk, tryDiskRead. by rewrite Hdisk. }
  unfold lookup. destruct (computeKey _ _ _) as [key|]; [|done].
  destruct (map_get (gk_hmac key) (cs_memory s)) as [e|]; [|by rewrite Hl].
  destruct (answer_from c e key (en_now en)) as [[[]|]|]; rewrite ?Hl; try done.
  apply map_delete_length.
Qed.

Lemma evictOldest_length s : (1 ≤ length (cs_memory s) → length (cs_memory (evictOldest s)) < length (cs_memory s))%nat.
Proof.
  unfold evictOldest. destruct (cs_memory s) as [|[k e] m] eqn:E; simpl; [lia|]. intros _.
  unfold map_delete. rewrite filter_cons, decide_False by (simpl; tauto).
  pose proof (map_delete_length k m). unfold map_delete in *. lia.
Qed.

(** Without a disk the memory stays within the cap. *)
Lemma memory_within_cap `{Hmac} c calls disk :
  cc_hasDisk c = false → 1 ≤ cc_maxEntries c →
  Z.of_nat (length (cs_memory (run_calls c calls (new_process disk)))) ≤ cc_maxEntries c.
Proof.
  intros Hdisk Hcap. induction calls as [|call calls IH] using rev_ind; [simpl; lia|].
  unfold run_calls in *. rewrite foldl_app. simpl.
  set (s := foldl _ _ calls) in *. destruct call as [i en|key r en|]; simpl; [|unfold store|lia].
  - pose proof (lookup_memory_only c i en s Hdisk). lia.
  - rewrite (proj1 (persistDiskEntry_effect c _ en _)). cbn [cs_memory count with_memory].
    destruct (Z.leb_spec (cc_maxEntries c) (Z.of_nat (length (cs_memory s)))); simpl.
    + destruct (map_has (gk_hmac key) (cs_memory s)) eqn:Eh; simpl.
      * unfold map_has in Eh. apply bool_decide_eq_true in Eh. rewrite map_set_length_has by done. lia.
      * match goal with |- context [map_set ?k ?v ?m] => pose proof (map_set_length k v m) end.
        pose proof (evictOldest_length s). lia.
    + match goal with |- context [map_set ?k ?v ?m] => pose proof (map_set_length k v m) end. lia.
Qed.

(** ** Properties *)

(** A stored result outlives the worker. When a result was stored under the key
    of some inputs and its file was written, then after any further calls,
    evictions and restarts, in any order and at any clock readings, in which
    nothing else is stored under that key, a lookup of the inputs within the time
    to live is a hit and returns the stored result: the same one from memory,
    or, from the file, the one with its content in canonical order. *)
Theorem stored_result_outlives_worker `{Hmac} c i key r en calls en' s :
  computeKey (cc_secret c) (en_secret en') i = Ok key → cc_hasDisk c = true →
  isFinishReason (ls_finishReason r) = true → en_writable en = true → en_readable en' = true →
  isFresh c (en_now en) (en_now en') = true → Forall (not_stored (gk_hmac key)) calls →
  ∃ res, (lookup c i en' (run_calls c calls (store c key r en s).2)).1 = Ok (replay_hit key res) ∧
         same_result r res.
Proof.
  intros Hkey Hdisk Hfin Hw Hr Hfresh Hcalls. apply (keeps_lookup c key r en); try done.
  apply keeps_run; [done|]. apply keeps_store; [by eapply computeKey_isHex64|done|done].
Qed.

(** No hit is made up or stale. Starting without files, after any calls and
    restarts, a hit returns the result of some earlier store under the same
    digest that is younger than the time to live, never its raw text, as it was
    stored or as a file gives it back. *)
Theorem hit_is_a_fresh_store `{Hmac} c calls i en key res :
  (lookup c i en (run_calls c calls (new_process ∅))).1 = Ok (replay_hit key res) →
  computeKey (cc_secret c) (en_secret en) i = Ok key ∧ ls_rawTextContent res = None ∧
  ∃ key' r en', call_store key' r en' ∈ calls ∧ gk_hmac key' = gk_hmac key ∧ same_result r res ∧
                isFresh c (en_now en') (en_now en) = true.
Proof.
  intros Hhit. destruct (lookup_hit c i en _ key res Hhit) as (Hkey & e & He & Hf & ->).
  split; [done|].
  assert (admitted calls (gk_hmac key) e) as (key' & r & en' & Hin & Hh & _ & Ht & Hres).
  { pose proof (recorded_run c calls) as Hrec. destruct He as [He|He]; [by apply Hrec|by eapply recorded_disk]. }
  split; [by destruct Hres as [->| ->]|]. exists key', r, en'. by rewrite <- Ht.
Qed.

(** ** Concrete caches *)

Definition digest_a : string := "aaaaaaaaaaaaaaaaaaaaaaaaaaaaaaaaaaaaaaaaaaaaaaaaaaaaaaaaaaaaaaaa".
Definition digest_b : string := "bbbbbbbbbbbbbbbbbbbbbbbbbbbbbbbbbbbbbbbbbbbbbbbbbbbbbbbbbbbbbbbb".

(** Job [a] has the digest aa...a, every other one bb...b. *)
Definition sample_hmac : Hmac.
Proof.
  refine {| createHmac _ payload :=
    if Json.eq_string (field "jobId" payload) "a" then digest_a else digest_b |}.
  intros _ payload. by destruct (Json.eq_string _ _).
Defined.

#[local] Existing Instance sample_hmac.

Definition sample_inputs (job : string) : GatewayIdempotencyInputs :=
  {| gi_jobId := job; gi_roleStepId := "generator"; gi_attempt := num 1; gi_promptVersion := "p1";
     gi_schemaHash := digest_a; gi_inputHash := digest_b |}.

Definition sample_key (job hmac : string) : GatewayIdempotencyKey :=
  {| gk_jobId := job; gk_roleStepId := "generator"; gk_attempt := 1; gk_promptVersion := "p1";
     gk_schemaHash := digest_a; gk_inputHash := digest_b; gk_hmac := hmac |}.

Definition sample_success : LlmGenerationSuccess :=
  {| ls_content := Some (JObject [("b", JNull); ("a", JBool true)]); ls_rawTextContent := Some "raw";
     ls_constrainedDecoding := None; ls_finishReason := "stop";
     ls_usage := {| tu_inputTokens := Some (num 5); tu_outputTokens := None |};
     ls_modelDeployment := "d"; ls_modelRevision := "r"; ls_gatewayRelease := "g"; ls_attempt := 1 |}.

Definition small_cache : cache_config :=
  {| cc_secret := secret_literal "s"; cc_ttlMs := 100; cc_maxEntries := 1; cc_hasDisk := true |}.

Definition at_time (now : Q) : surroundings :=
  {| en_now := now; en_secret := provides_other; en_readable := true; en_writable := true |}.

Example stored_result_outlives_worker_witness :
  ∃ res, (lookup small_cache (sample_inputs "a") (at_time 60)
           (run_calls small_cache [call_restart; call_store (sample_key "z" digest_b) sample_success (at_time 20)]
              (store small_cache (sample_key "a" digest_a) sample_success (at_time 10) (new_process ∅)).2)).1 =
         Ok (replay_hit (sample_key "a" digest_a) res) ∧ same_result sample_success res.
Proof.
  apply (@stored_result_outlives_worker sample_hmac small_cache (sample_inputs "a") (sample_key "a" digest_a));
    try reflexivity. repeat constructor; vm_compute; congruence.
Defined.

Example hit_is_a_fresh_store_witness :
  ∃ res key' r en',
    (lookup small_cache (sample_inputs "a") (at_time 60)
      (run_calls small_cache [call_store (sample_key "a" digest_a) sample_success (at_time 10); call_restart]
         (new_process ∅))).1 = Ok (replay_hit (sample_key "a" digest_a) res) ∧
    call_store key' r en' ∈ [call_store (sample_key "a" digest_a) sample_success (at_time 10); call_restart] ∧
    same_result r res.
Proof.
  eexists. destruct (@hit_is_a_fresh_store sample_hmac small_cache
    [call_store (sample_key "a" digest_a) sample_success (at_time 10); call_restart] (sample_inputs "a")
    (at_time 60) (sample_key "a" digest_a) (disk_result (sanitiseResultForStorage sample_success)))
    as (_ & _ & key' & r & en' & Hin & _ & Hres & _); [vm_compute; reflexivity|].
  exists key', r, en'. split; [vm_compute; reflexivity|]. split; [exact Hin|exact Hres].
Defined.

(** A file whose key carries 64 characters that are not hexadecimal makes every
    lookup of its digest throw, instead of counting as a failed read. *)
Lemma malformed_digest_breaks_lookup :
  let file := canonicalJson (JObject (Json.literal (envelope_fields
    (admitted_entry (sample_key "a" "gggggggggggggggggggggggggggggggggggggggggggggggggggggggggggggggg")
       sample_success (at_time 10))))) in
  (lookup small_cache (sample_inputs "a") (at_time 60)
     (new_process {[cache_path digest_a := Some file]})).1 = Throw lengths_differ.
Proof. vm_compute. reflexivity. Qed.

(** Hits from disk are put into memory beyond its cap. *)
Lemma disk_hits_exceed_cap :
  let s := run_calls small_cache [call_store (sample_key "a" digest_a) sample_success (at_time 10);
                                  call_store (sample_key "z" digest_b) sample_success (at_time 20)] (new_process ∅) in
  length (cs_memory s) = 1%nat ∧
  length (cs_memory (lookup small_cache (sample_inputs "a") (at_time 60) s).2) = 2%nat.
Proof. vm_compute. done. Qed.

(** Storing again under a key keeps its place, so the next eviction takes the
    newest result and not the oldest. *)
Lemma restored_entry_evicted_first :
  let c := {| cc_secret := secret_literal "s"; cc_ttlMs := 100; cc_maxEntries := 2; cc_hasDisk := false |} in
  let put job h t := call_store (sample_key job h) sample_success (at_time t) in
  (cs_memory (run_calls c [put "a" digest_a 10%Q; put "z" digest_b 20%Q; put "a" digest_a 30%Q;
                put "y" "third" 40%Q] (new_process ∅))).*1 = [digest_b; "third"].
Proof. vm_compute. reflexivity. Qed.
