(* ===== verification/FinOpsBudget.v ===== *)
(** * FinOps budget envelopes

    [packages/model-gateway/src/finops-budget.ts]: the built-in envelopes, cloning,
    validation, the source quotas and the limits derived from an envelope. A role
    budget is the finite map of its numeric fields; the roles of an envelope are
    its own properties in their order. Arithmetic on numbers is exact. *)

From Stdlib Require Import Qminmax.
From S2P Require Import Prelude JsList JsValue.

Definition ALLOWED_FINOPS_ROLES : list string :=
  ["test_generation"; "visual_primary"; "visual_fallback"; "jira_api_requests";
   "jira_paste_ingest"; "custom_context_ingest"].

Definition MAX_JIRA_API_REQUESTS_PER_JOB : Z := 200.
Definition MAX_JIRA_PASTE_BYTES_PER_JOB : Z := 8388608.
Definition MAX_CUSTOM_CONTEXT_BYTES_PER_JOB : Z := 4194304.

Definition ADVERSARIAL_CRITIC_BUDGET_FRACTION : Q := 1 # 4.
Definition PRODUCTION_GENERATOR_WALL_CLOCK_MS : Z := 24 * 60 * 60 * 1000.
Definition VISUAL_SIDECAR_WALL_CLOCK_MS : Z := 60000.

(** ** Envelopes *)

Definition FinOpsRoleBudget : Type := gmap string jsnum.

Record FinOpsBudgetEnvelope := {
  fe_budgetId : string;
  fe_budgetVersion : string;
  fe_maxJobWallClockMs : option jsnum;
  fe_maxReplayCacheMissRate : option jsnum;
  fe_maxEstimatedCost : option jsnum;
  fe_roles : list (string * FinOpsRoleBudget);
  fe_sourceQuotas : option (gmap string jsnum);
}.

(** [envelope.roles[role]] *)
Definition role_budget (role : string) (e : FinOpsBudgetEnvelope) : option FinOpsRoleBudget :=
  snd <$> find_by fst role (fe_roles e).

Definition limits (fields : list (string * Z)) : FinOpsRoleBudget :=
  list_to_map ((λ p, (p.1, num p.2)) <$> fields).

Definition DEFAULT_FINOPS_BUDGET_ENVELOPE : FinOpsBudgetEnvelope :=
  {| fe_budgetId := "default-permissive"; fe_budgetVersion := "1.0.0"; fe_maxJobWallClockMs := None;
     fe_maxReplayCacheMissRate := None; fe_maxEstimatedCost := None; fe_roles := [];
     fe_sourceQuotas := None |}.

Definition EU_BANKING_DEFAULT_FINOPS_BUDGET : FinOpsBudgetEnvelope :=
  {| fe_budgetId := "eu-banking-default"; fe_budgetVersion := "1.1.0";
     fe_maxJobWallClockMs := Some (num PRODUCTION_GENERATOR_WALL_CLOCK_MS);
     fe_maxReplayCacheMissRate := Some (num 1); fe_maxEstimatedCost := None;
     fe_roles :=
       [("test_generation", limits
          [("maxInputTokensPerRequest", 200000); ("maxOutputTokensPerRequest", 32000);
           ("maxTotalInputTokens", 2000000); ("maxTotalOutputTokens", 200000);
           ("maxWallClockMsPerRequest", PRODUCTION_GENERATOR_WALL_CLOCK_MS);
           ("maxRetriesPerRequest", 6); ("maxAttempts", 12)]);
        ("visual_primary", limits
          [("maxInputTokensPerRequest", 100000); ("maxOutputTokensPerRequest", 16000);
           ("maxWallClockMsPerRequest", VISUAL_SIDECAR_WALL_CLOCK_MS);
           ("maxRetriesPerRequest", 4); ("maxAttempts", 6);
           ("maxImageBytesPerRequest", 16 * 1024 * 1024)]);
        ("visual_fallback", limits
          [("maxInputTokensPerRequest", 100000); ("maxOutputTokensPerRequest", 16000);
           ("maxWallClockMsPerRequest", VISUAL_SIDECAR_WALL_CLOCK_MS);
           ("maxRetriesPerRequest", 4); ("maxAttempts", 6);
           ("maxImageBytesPerRequest", 16 * 1024 * 1024); ("maxFallbackAttempts", 6)]);
        ("jira_api_requests", limits [("maxAttempts", MAX_JIRA_API_REQUESTS_PER_JOB)]);
        ("jira_paste_ingest", limits [("maxIngestBytesPerJob", MAX_JIRA_PASTE_BYTES_PER_JOB)]);
        ("custom_context_ingest", limits [("maxIngestBytesPerJob", MAX_CUSTOM_CONTEXT_BYTES_PER_JOB)])];
     fe_sourceQuotas := Some (limits
       [("maxJiraApiRequestsPerJob", MAX_JIRA_API_REQUESTS_PER_JOB);
        ("maxJiraPasteBytesPerJob", MAX_JIRA_PASTE_BYTES_PER_JOB);
        ("maxCustomContextBytesPerJob", MAX_CUSTOM_CONTEXT_BYTES_PER_JOB)]) |}.

Definition PRODUCTION_FINOPS_BUDGET_ENVELOPE : FinOpsBudgetEnvelope :=
  {| fe_budgetId := "production-default"; fe_budgetVersion := "1.1.0";
     fe_maxJobWallClockMs := Some (num PRODUCTION_GENERATOR_WALL_CLOCK_MS);
     fe_maxReplayCacheMissRate := Some (num 1); fe_maxEstimatedCost := None;
     fe_roles :=
       [("test_generation", limits
          [("maxInputTokensPerRequest", 200000); ("maxTotalInputTokens", 2000000);
           ("maxOutputTokensPerRequest", 32000); ("maxTotalOutputTokens", 200000);
           ("maxRetriesPerRequest", 6); ("maxAttempts", 12);
           ("maxWallClockMsPerRequest", PRODUCTION_GENERATOR_WALL_CLOCK_MS);
           ("maxLiveSmokeCalls", 0)]);
        ("visual_primary", limits
          [("maxInputTokensPerRequest", 100000); ("maxOutputTokensPerRequest", 16000);
           ("maxImageBytesPerRequest", 16 * 1024 * 1024); ("maxRetriesPerRequest", 4);
           ("maxAttempts", 6); ("maxWallClockMsPerRequest", VISUAL_SIDECAR_WALL_CLOCK_MS)]);
        ("visual_fallback", limits
          [("maxInputTokensPerRequest", 100000); ("maxOutputTokensPerRequest", 16000);
           ("maxImageBytesPerRequest", 16 * 1024 * 1024); ("maxRetriesPerRequest", 4);
           ("maxAttempts", 6); ("maxWallClockMsPerRequest", VISUAL_SIDECAR_WALL_CLOCK_MS);
           ("maxFallbackAttempts", 6)])];
     fe_sourceQuotas := None |}.

(** ** Cloning *)

Definition ROLE_BUDGET_KEYS : list string :=
  ["maxInputTokensPerRequest"; "maxOutputTokensPerRequest"; "maxTotalInputTokens";
   "maxTotalOutputTokens"; "maxWallClockMsPerRequest"; "maxTotalWallClockMs";
   "maxRetriesPerRequest"; "maxAttempts"; "maxImageBytesPerRequest"; "maxFallbackAttempts";
   "maxLiveSmokeCalls"; "maxIngestBytesPerJob"].

Definition cloneRoleBudget (input : FinOpsRoleBudget) : FinOpsRoleBudget :=
  foldl (λ out key, match input !! key with Some value => <[key := value]> out | None => out end)
    (∅ : gmap string jsnum) ROLE_BUDGET_KEYS.

Definition cloneFinOpsBudgetEnvelope (e : FinOpsBudgetEnvelope) : FinOpsBudgetEnvelope :=
  {| fe_budgetId := fe_budgetId e; fe_budgetVersion := fe_budgetVersion e;
     fe_maxJobWallClockMs := fe_maxJobWallClockMs e;
     fe_maxReplayCacheMissRate := fe_maxReplayCacheMissRate e;
     fe_maxEstimatedCost := fe_maxEstimatedCost e;
     fe_roles := omap (λ role, (role,.) ∘ cloneRoleBudget <$> role_budget role e) ALLOWED_FINOPS_ROLES;
     fe_sourceQuotas := fe_sourceQuotas e |}.

Definition cloneEuBankingDefaultFinOpsBudget : FinOpsBudgetEnvelope :=
  cloneFinOpsBudgetEnvelope EU_BANKING_DEFAULT_FINOPS_BUDGET.
Definition cloneProductionFinOpsBudgetEnvelope : FinOpsBudgetEnvelope :=
  cloneFinOpsBudgetEnvelope PRODUCTION_FINOPS_BUDGET_ENVELOPE.

(** ** Validation *)

Record FinOpsBudgetValidationIssue := { fi_path : string; fi_message : string }.

Definition issue (path message : string) : list FinOpsBudgetValidationIssue :=
  [{| fi_path := path; fi_message := message |}].

(** [if (value !== undefined && bad(value)) errors.push(...)] *)
Definition issue_if (bad : jsnum → bool) (value : option jsnum) (path message : string) :
    list FinOpsBudgetValidationIssue :=
  match value with Some v => if bad v then issue path message else [] | None => [] end.

Definition POSITIVE_INTEGER_FIELDS : list string := ROLE_BUDGET_KEYS.

Definition INGEST_ONLY_ROLES : list string := ["jira_paste_ingest"; "custom_context_ingest"].
Definition JIRA_API_ROLES : list string := ["jira_api_requests"].

(** Fields that may be zero. *)
Definition zero_allowed (field : string) : bool :=
  bool_decide (field ∈ ["maxRetriesPerRequest"; "maxAttempts"; "maxFallbackAttempts"; "maxLiveSmokeCalls"]).

Definition not_natural (v : jsnum) : bool := negb (Number.isSafeInteger v) || Number.ltb v (num 0).

Definition check_field (role : string) (budget : FinOpsRoleBudget) (field : string) :
    list FinOpsBudgetValidationIssue :=
  let path := "$.roles." +:+ role +:+ "." +:+ field in
  match budget !! field with
  | None => []
  | Some value =>
      if not_natural value then issue path (field +:+ " must be a non-negative safe integer")
      else if negb (zero_allowed field) && Number.eqb value (num 0)
      then issue path (field +:+ " must be > 0 when supplied")
      else []
  end.

(** Whether some of the fields are supplied. *)
Definition supplies (budget : FinOpsRoleBudget) (fields : list string) : bool :=
  existsb (λ field, bool_decide (is_Some (budget !! field))) fields.

Definition validateRoleBudget (role : string) (budget : FinOpsRoleBudget) :
    list FinOpsBudgetValidationIssue :=
  (POSITIVE_INTEGER_FIELDS ≫= check_field role budget)
  ++ (if bool_decide (role = "test_generation")
         && supplies budget ["maxImageBytesPerRequest"; "maxFallbackAttempts"]
      then issue "$.roles.test_generation"
             "test_generation does not accept image input or fallback; remove maxImageBytesPerRequest / maxFallbackAttempts"
      else [])
  ++ (if bool_decide (role = "visual_primary") && supplies budget ["maxFallbackAttempts"]
      then issue "$.roles.visual_primary.maxFallbackAttempts"
             "maxFallbackAttempts is only enforced for visual_fallback; move the limit there"
      else [])
  ++ (if bool_decide (role ∈ INGEST_ONLY_ROLES)
         && supplies budget ["maxInputTokensPerRequest"; "maxOutputTokensPerRequest";
                             "maxImageBytesPerRequest"; "maxFallbackAttempts"]
      then issue ("$.roles." +:+ role)
             (role +:+ " is an ingest role and does not accept LLM or image limits; use maxIngestBytesPerJob / maxAttempts only")
      else [])
  ++ (if bool_decide (role ∈ JIRA_API_ROLES)
         && supplies budget ["maxInputTokensPerRequest"; "maxOutputTokensPerRequest";
                             "maxImageBytesPerRequest"; "maxIngestBytesPerJob"]
      then issue ("$.roles." +:+ role) (role +:+ " is a Jira API role; use maxAttempts only")
      else []).

Definition SOURCE_QUOTA_FIELDS : list string :=
  ["maxJiraApiRequestsPerJob"; "maxJiraPasteBytesPerJob"; "maxCustomContextBytesPerJob"].

Definition validateFinOpsBudgetEnvelope (e : FinOpsBudgetEnvelope) : list FinOpsBudgetValidationIssue :=
  (if bool_decide (fe_budgetId e = "") then issue "$.budgetId" "budgetId must be a non-empty string" else [])
  ++ (if bool_decide (fe_budgetVersion e = "")
      then issue "$.budgetVersion" "budgetVersion must be a non-empty string" else [])
  ++ issue_if (λ v, negb (Number.isSafeInteger v) || Number.leb v (num 0)) (fe_maxJobWallClockMs e)
       "$.maxJobWallClockMs" "maxJobWallClockMs must be a positive safe integer"
  ++ issue_if (λ v, negb (Number.isFinite v) || Number.ltb v (num 0) || Number.ltb (num 1) v)
       (fe_maxReplayCacheMissRate e)
       "$.maxReplayCacheMissRate" "maxReplayCacheMissRate must be a number in [0, 1]"
  ++ issue_if (λ v, negb (Number.isFinite v) || Number.ltb v (num 0)) (fe_maxEstimatedCost e)
       "$.maxEstimatedCost" "maxEstimatedCost must be a non-negative finite number"
  ++ (ALLOWED_FINOPS_ROLES ≫= λ role,
        match role_budget role e with Some budget => validateRoleBudget role budget | None => [] end)
  ++ ((fe_roles e).*1 ≫= λ key,
        if bool_decide (key ∈ ALLOWED_FINOPS_ROLES) then []
        else issue ("$.roles." +:+ key) ("roles." +:+ key +:+ " is not a known FinOps role"))
  ++ match fe_sourceQuotas e with
     | None => []
     | Some quotas =>
         SOURCE_QUOTA_FIELDS ≫= λ field,
           issue_if not_natural (quotas !! field) ("$.sourceQuotas." +:+ field)
             ("sourceQuotas." +:+ field +:+ " must be a non-negative safe integer")
     end.

Definition envelope_valid (e : FinOpsBudgetEnvelope) : bool :=
  (length (validateFinOpsBudgetEnvelope e) =? 0)%nat.

(** ** Source quotas *)

Record SourceQuotaBreach := { sq_reason : string; sq_planned : jsnum; sq_cap : jsnum }.

(** [cap === undefined || planned <= cap]; the breach carries what its message shows. *)
Definition check_quota (reason : string) (cap : option jsnum) (planned : jsnum) : option SourceQuotaBreach :=
  match cap with
  | None => None
  | Some cap =>
      if Number.leb planned cap then None
      else Some {| sq_reason := reason; sq_planned := planned; sq_cap := cap |}
  end.

(** [envelope.sourceQuotas?.[quota] ?? envelope.roles[role]?.[limit]] *)
Definition quota_cap (e : FinOpsBudgetEnvelope) (quota role limit : string) : option jsnum :=
  match fe_sourceQuotas e ≫= (.!! quota) with
  | Some cap => Some cap
  | None => role_budget role e ≫= (.!! limit)
  end.

Definition checkJiraApiQuota (e : FinOpsBudgetEnvelope) (plannedCalls : jsnum) : option SourceQuotaBreach :=
  check_quota "jira_api_quota_exceeded"
    (quota_cap e "maxJiraApiRequestsPerJob" "jira_api_requests" "maxAttempts") plannedCalls.
Definition checkJiraPasteQuota (e : FinOpsBudgetEnvelope) (pasteBytes : jsnum) : option SourceQuotaBreach :=
  check_quota "jira_paste_quota_exceeded"
    (quota_cap e "maxJiraPasteBytesPerJob" "jira_paste_ingest" "maxIngestBytesPerJob") pasteBytes.
Definition checkCustomContextQuota (e : FinOpsBudgetEnvelope) (inputBytes : jsnum) : option SourceQuotaBreach :=
  check_quota "custom_context_quota_exceeded"
    (quota_cap e "maxCustomContextBytesPerJob" "custom_context_ingest" "maxIngestBytesPerJob") inputBytes.

(** ** Derived limits *)

Record request_limits := {
  rl_maxInputTokens : option jsnum;
  rl_maxOutputTokens : option jsnum;
  rl_maxWallClockMs : option jsnum;
  rl_maxRetries : option jsnum;
}.

Definition resolveFinOpsRequestLimits (budget : option FinOpsRoleBudget) : request_limits :=
  {| rl_maxInputTokens := budget ≫= (.!! "maxInputTokensPerRequest");
     rl_maxOutputTokens := budget ≫= (.!! "maxOutputTokensPerRequest");
     rl_maxWallClockMs := budget ≫= (.!! "maxWallClockMsPerRequest");
     rl_maxRetries := budget ≫= (.!! "maxRetriesPerRequest") |}.

Definition quarterBudget (value : option jsnum) : option jsnum :=
  match value with
  | Some (Fin q) =>
      if Qle_bool q 0 then None
      else Some (num (Z.max 1 (Qfloor (q * ADVERSARIAL_CRITIC_BUDGET_FRACTION))))
  | _ => None
  end.

(** [Math.max(0, Math.min(1, value))] *)
Definition clamp01 (v : jsnum) : jsnum :=
  match v with
  | NaN => NaN
  | _ => if Number.leb v (num 0) then num 0 else if Number.leb (num 1) v then num 1 else v
  end.

Definition resolveAdversarialCriticBudgetLimits (generatorBudget : option FinOpsRoleBudget) : request_limits :=
  {| rl_maxInputTokens := quarterBudget (generatorBudget ≫= (.!! "maxInputTokensPerRequest"));
     rl_maxOutputTokens := quarterBudget (generatorBudget ≫= (.!! "maxOutputTokensPerRequest"));
     rl_maxWallClockMs := quarterBudget (generatorBudget ≫= (.!! "maxWallClockMsPerRequest"));
     rl_maxRetries := clamp01 <$> (generatorBudget ≫= (.!! "maxRetriesPerRequest")) |}.

(** ** The wall-clock budget *)

Record FinOpsWallClockBudgetPolicy := {
  wc_baseMs : Q;
  wc_perCaseMs : Q;
  wc_perAdditionalJudgeMs : Q;
  wc_perAdversarialRoundMs : Q;
  wc_visualSidecarMs : Q;
  wc_hardCeilingMs : Q;
}.

Definition DEFAULT_FINOPS_WALL_CLOCK_BUDGET_POLICY : FinOpsWallClockBudgetPolicy :=
  {| wc_baseMs := 150000; wc_perCaseMs := 4000; wc_perAdditionalJudgeMs := 20000;
     wc_perAdversarialRoundMs := 30000; wc_visualSidecarMs := 30000; wc_hardCeilingMs := 1800000 |}.

Definition resolveFinOpsWallClockBudgetPolicy (policy : option FinOpsWallClockBudgetPolicy) :
    FinOpsWallClockBudgetPolicy :=
  default DEFAULT_FINOPS_WALL_CLOCK_BUDGET_POLICY policy.

Record ResolveWallClockBudgetInput := {
  wi_caseCount : jsnum;
  wi_judgePanelSize : jsnum;
  wi_adversarialRounds : jsnum;
  wi_visualSidecarEnabled : bool;
}.

(** The number, when it is a non-negative safe integer; the error names the field. *)
Definition assertNonNegativeSafeInteger (value : jsnum) (label : string) : outcome string Z :=
  match value with
  | Fin q => if not_natural value then Throw label else Ok (Qfloor q)
  | _ => Throw label
  end.

Definition unclamped_budget (c : FinOpsWallClockBudgetPolicy) (cases judges rounds : Z) (visual : bool) : Q :=
  (wc_baseMs c + wc_perCaseMs c * inject_Z cases
   + wc_perAdditionalJudgeMs c * inject_Z (Z.max 0 (judges - 1))
   + wc_perAdversarialRoundMs c * inject_Z rounds
   + (if visual then wc_visualSidecarMs c else 0))%Q.

Definition resolveWallClockBudget (input : ResolveWallClockBudgetInput)
    (coefficients : option FinOpsWallClockBudgetPolicy) : outcome string Q :=
  let c := default DEFAULT_FINOPS_WALL_CLOCK_BUDGET_POLICY coefficients in
  (let* cases := assertNonNegativeSafeInteger (wi_caseCount input) "caseCount" in
   let* judges := assertNonNegativeSafeInteger (wi_judgePanelSize input) "judgePanelSize" in
   let* rounds := assertNonNegativeSafeInteger (wi_adversarialRounds input) "adversarialRounds" in
   Ok (Qmin (unclamped_budget c cases judges rounds (wi_visualSidecarEnabled input))
            (wc_hardCeilingMs c)))%outcome.

Record ResolvedFinOpsWallClockBudget := {
  wr_mode : string;
  wr_resolvedMs : Q;
  wr_formulaMs : Q;
  wr_overrideMs : option Q;
  wr_coefficients : FinOpsWallClockBudgetPolicy;
  wr_breakdown : list Q;
}.

(** The breakdown lists the terms, their sum and the ceiling. *)
Definition resolveTestGenerationWallClockBudget (input : ResolveWallClockBudgetInput)
    (explicitOverrideMs : option Q) (profileRules : option FinOpsWallClockBudgetPolicy) :
    outcome string ResolvedFinOpsWallClockBudget :=
  let c := resolveFinOpsWallClockBudgetPolicy profileRules in
  (let* formulaMs := resolveWallClockBudget input (Some c) in
   let* cases := assertNonNegativeSafeInteger (wi_caseCount input) "caseCount" in
   let* judges := assertNonNegativeSafeInteger (wi_judgePanelSize input) "judgePanelSize" in
   let* rounds := assertNonNegativeSafeInteger (wi_adversarialRounds input) "adversarialRounds" in
   let caseMs := (wc_perCaseMs c * inject_Z cases)%Q in
   let additionalJudgeMs := (wc_perAdditionalJudgeMs c * inject_Z (Z.max 0 (judges - 1)))%Q in
   let adversarialRoundMs := (wc_perAdversarialRoundMs c * inject_Z rounds)%Q in
   let visualSidecarMs := if wi_visualSidecarEnabled input then wc_visualSidecarMs c else 0%Q in
   let unclampedMs := (wc_baseMs c + caseMs + additionalJudgeMs + adversarialRoundMs + visualSidecarMs)%Q in
   Ok {| wr_mode := match explicitOverrideMs with Some _ => "constant_override" | None => "elastic" end;
         wr_resolvedMs := default formulaMs explicitOverrideMs; wr_formulaMs := formulaMs;
         wr_overrideMs := explicitOverrideMs; wr_coefficients := c;
         wr_breakdown := [wc_baseMs c; caseMs; additionalJudgeMs; adversarialRoundMs; visualSidecarMs;
                          unclampedMs; wc_hardCeilingMs c] |})%outcome.

(** ** What validation accepts *)

(** A limit that is a safe integer, positive unless zero is allowed. *)
Definition natural_limit (zero : bool) (v : jsnum) : Prop :=
  ∃ z, v = Fin z ∧ Number.q_is_integer z = true ∧
       (if zero then 0 ≤ Qfloor z else 0 < Qfloor z) ∧ Qfloor z ≤ Number.MAX_SAFE_INTEGER.

(** None of the fields is supplied. *)
Definition without (b : FinOpsRoleBudget) (fields : list string) : Prop :=
  Forall (λ field, b !! field = None) fields.

Record role_budget_ok (role : string) (b : FinOpsRoleBudget) : Prop := {
  rb_fields field v : field ∈ ROLE_BUDGET_KEYS → b !! field = Some v → natural_limit (zero_allowed field) v;
  rb_generation : role = "test_generation" → without b ["maxImageBytesPerRequest"; "maxFallbackAttempts"];
  rb_primary : role = "visual_primary" → without b ["maxFallbackAttempts"];
  rb_ingest : role ∈ INGEST_ONLY_ROLES →
    without b ["maxInputTokensPerRequest"; "maxOutputTokensPerRequest"; "maxImageBytesPerRequest";
               "maxFallbackAttempts"];
  rb_jira : role ∈ JIRA_API_ROLES →
    without b ["maxInputTokensPerRequest"; "maxOutputTokensPerRequest"; "maxImageBytesPerRequest";
               "maxIngestBytesPerJob"];
}.

Record envelope_ok (e : FinOpsBudgetEnvelope) : Prop := {
  eo_id : fe_budgetId e ≠ "";
  eo_version : fe_budgetVersion e ≠ "";
  eo_wall v : fe_maxJobWallClockMs e = Some v → natural_limit false v;
  eo_rate v : fe_maxReplayCacheMissRate e = Some v → ∃ q, v = Fin q ∧ (0 <= q <= 1)%Q;
  eo_cost v : fe_maxEstimatedCost e = Some v → ∃ q, v = Fin q ∧ (0 <= q)%Q;
  eo_known key : key ∈ (fe_roles e).*1 → key ∈ ALLOWED_FINOPS_ROLES;
  eo_roles role b : role ∈ ALLOWED_FINOPS_ROLES → role_budget role e = Some b → role_budget_ok role b;
  eo_quotas quotas field v : fe_sourceQuotas e = Some quotas → field ∈ SOURCE_QUOTA_FIELDS →
    quotas !! field = Some v → natural_limit true v;
}.

Lemma bind_nil {A B} (f : A → list B) l : l ≫= f = [] ↔ ∀ x, x ∈ l → f x = [].
Proof.
  induction l as [|x l IH]; [split; [by intros _ x ?%elem_of_nil|done]|].
  change ((x :: l) ≫= f) with (f x ++ (l ≫= f)). rewrite app_nil, IH. split.
  - intros [Hx Hl] y [->|Hy]%elem_of_cons; auto.
  - intros Hall. split; [apply Hall; constructor|]. intros y Hy. apply Hall. by constructor.
Qed.

Lemma if_issue_nil (b : bool) path message : (if b then issue path message else []) = [] ↔ b = false.
Proof. by destruct b. Qed.

Lemma issue_if_nil bad value path message :
  issue_if bad value path message = [] ↔ ∀ v, value = Some v → bad v = false.
Proof.
  unfold issue_if. destruct value as [v|]; [|done]. rewrite if_issue_nil. naive_solver.
Qed.

Lemma and_supplies (P : Prop) `{Decision P} b fields :
  bool_decide P && supplies b fields = false ↔ (P → without b fields).
Proof.
  assert (supplies b fields = false ↔ without b fields) as Hs.
  { unfold supplies, without. induction fields as [|f fields IH]; simpl; [by split|].
    by rewrite orb_false_iff, IH, bool_decide_eq_false, <- eq_None_not_Some, Forall_cons. }
  case_bool_decide; simpl; [rewrite Hs; tauto|by split].
Qed.

Lemma ltb_fin_0 q : Number.ltb (Fin q) (num 0) = negb (Qle_bool (inject_Z 0) q).
Proof.
  unfold Number.ltb. simpl. destruct (Qle_bool (inject_Z 0) q) eqn:E.
  - by rewrite andb_false_r.
  - destruct (Qle_bool q (inject_Z 0)) eqn:E'; [done|]. exfalso.
    apply not_true_iff_false in E, E'. rewrite Qle_bool_iff in E, E'.
    destruct (Qlt_le_dec q (inject_Z 0)) as [Hlt|Hle]; [by apply E', Qlt_le_weak|done].
Qed.

Lemma q_integer_floor q : Number.q_is_integer q = true → (q == inject_Z (Qfloor q))%Q.
Proof. apply Qeq_bool_iff. Qed.

Lemma Qle_bool_0_floor q : Qle_bool (inject_Z 0) q = (0 <=? Qfloor q).
Proof.
  apply eq_true_iff_eq. rewrite Qle_bool_iff, Z.leb_le. split; intros H.
  - change 0%Z with (Qfloor (inject_Z 0)). by apply Qfloor_resp_le.
  - apply (Qle_trans _ (inject_Z (Qfloor q))); [|apply Qfloor_le].
    by rewrite <- Zle_Qle.
Qed.

Lemma not_natural_false v : not_natural v = false ↔ natural_limit true v.
Proof.
  unfold not_natural, natural_limit. destruct v as [| | |q].
  1-3: split; [done|by intros (? & ? & _)].
  rewrite ltb_fin_0, Qle_bool_0_floor, orb_false_iff, !negb_false_iff. simpl.
  rewrite andb_true_iff, !Z.leb_le. split.
  - intros [[Hi Hm] H0]. exists q. split_all; [done|done|done|lia].
  - intros (z & [= <-] & Hi & H0 & Hm). split_all; [done|lia|done].
Qed.

Lemma eqb_0 q : Number.q_is_integer q = true → Number.eqb (Fin q) (num 0) = (Qfloor q =? 0).
Proof.
  intros Hi. apply q_integer_floor in Hi. unfold Number.eqb. simpl.
  apply eq_true_iff_eq. rewrite andb_true_iff, !Qle_bool_iff, Z.eqb_eq.
  assert (∀ z, (inject_Z z == 0)%Q ↔ z = 0) as Hz.
  { intros z. unfold Qeq, inject_Z. simpl. lia. }
  rewrite <- Hz, <- Hi. split; [intros [? ?]; by apply Qle_antisym|].
  intros E. rewrite E. split; apply Qle_refl.
Qed.

Lemma natural_limit_positive v :
  natural_limit true v → Number.eqb v (num 0) = false ↔ natural_limit false v.
Proof.
  intros (q & -> & Hi & H0 & Hm). rewrite eqb_0, Z.eqb_neq by done. split.
  - intros Hne. exists q. split_all; [done|done|lia|done].
  - intros (q' & [= <-] & _ & Hp & _). lia.
Qed.

Lemma check_field_nil role b field :
  check_field role b field = [] ↔ ∀ v, b !! field = Some v → natural_limit (zero_allowed field) v.
Proof.
  unfold check_field. destruct (b !! field) as [v|]; [|done]. cbv zeta.
  trans (natural_limit (zero_allowed field) v); [|naive_solver].
  destruct (not_natural v) eqn:En.
  - split; [done|]. intros Hn. exfalso. apply not_true_iff_false in En; [done|].
    apply not_natural_false. destruct (zero_allowed field); [done|].
    destruct Hn as (q & -> & Hi & Hp & Hm). exists q. split_all; [done|done|lia|done].
  - apply not_natural_false in En. rewrite if_issue_nil.
    destruct (zero_allowed field); simpl; [done|]. by apply natural_limit_positive.
Qed.

Lemma validateRoleBudget_nil role b : validateRoleBudget role b = [] ↔ role_budget_ok role b.
Proof.
  unfold validateRoleBudget. rewrite !app_nil, bind_nil, !if_issue_nil, !and_supplies.
  setoid_rewrite check_field_nil. split; [intros (?&?&?&?&?)|intros []]; split_all; eauto.
  by split; eauto.
Qed.

Lemma positive_limit v :
  negb (Number.isSafeInteger v) || Number.leb v (num 0) = false ↔ natural_limit false v.
Proof.
  destruct v as [| | |q]; try (split; [done|by intros (? & ? & _)]).
  rewrite orb_false_iff, negb_false_iff. simpl. rewrite andb_true_iff, Z.leb_le.
  assert (Number.q_is_integer q = true → Qle_bool q (inject_Z 0) = (Qfloor q <=? 0)) as Hle.
  { intros Hi%q_integer_floor. apply eq_true_iff_eq. rewrite Qle_bool_iff, Z.leb_le, Hi at 1.
    by rewrite <- Zle_Qle. }
  split.
  - intros [[Hi Hm] H0]. rewrite Hle in H0 by done. apply Z.leb_gt in H0. exists q. split_all; [done|done|lia|lia].
  - intros (z & [= <-] & Hi & Hp & Hm). split_all; [done|lia|]. rewrite Hle by done. apply Z.leb_gt. lia.
Qed.

Lemma ltb_fin q z : Number.ltb (num z) (Fin q) = false ↔ (q <= inject_Z z)%Q.
Proof.
  unfold Number.ltb. simpl. rewrite <- Qle_bool_iff.
  destruct (Qle_bool q (inject_Z z)) eqn:E; [by rewrite andb_false_r|].
  rewrite andb_true_r. split; [|done]. intros H. exfalso. apply not_true_iff_false in E, H.
  rewrite Qle_bool_iff in E, H. destruct (Qlt_le_dec q (inject_Z z)) as [Hlt|Hle]; [by apply E, Qlt_le_weak|done].
Qed.

Lemma ltb_0_false q : Number.ltb (Fin q) (num 0) = false ↔ (0 <= q)%Q.
Proof. rewrite ltb_fin_0, negb_false_iff. apply Qle_bool_iff. Qed.

Lemma unit_rate v :
  negb (Number.isFinite v) || Number.ltb v (num 0) || Number.ltb (num 1) v = false ↔
  ∃ q, v = Fin q ∧ (0 <= q <= 1)%Q.
Proof.
  destruct v as [| | |q]; try (split; [done|by intros (? & ? & _)]).
  rewrite !orb_false_iff, ltb_0_false, (ltb_fin q 1). simpl Number.isFinite. simpl negb. split.
  - intros [[_ H0] H1]. by exists q.
  - by intros (? & [= <-] & ? & ?).
Qed.

Lemma nonnegative_cost v :
  negb (Number.isFinite v) || Number.ltb v (num 0) = false ↔ ∃ q, v = Fin q ∧ (0 <= q)%Q.
Proof.
  destruct v as [| | |q]; try (split; [done|by intros (? & ? & _)]).
  rewrite orb_false_iff, ltb_0_false. simpl. split; [intros [_ H0]; by exists q|by intros (? & [= <-] & ?)].
Qed.

Lemma envelope_valid_ok e : envelope_valid e = true ↔ envelope_ok e.
Proof.
  unfold envelope_valid. rewrite Nat.eqb_eq, length_zero_iff_nil. unfold validateFinOpsBudgetEnvelope.
  rewrite !app_nil, !if_issue_nil, !bool_decide_eq_false, !issue_if_nil, !bind_nil.
  setoid_rewrite positive_limit. setoid_rewrite unit_rate. setoid_rewrite nonnegative_cost.
  assert (match fe_sourceQuotas e with
          | None => []
          | Some quotas =>
              SOURCE_QUOTA_FIELDS ≫= λ field,
                issue_if not_natural (quotas !! field) ("$.sourceQuotas." +:+ field)
                  ("sourceQuotas." +:+ field +:+ " must be a non-negative safe integer")
          end = [] ↔
          ∀ quotas field v, fe_sourceQuotas e = Some quotas → field ∈ SOURCE_QUOTA_FIELDS →
            quotas !! field = Some v → natural_limit true v) as ->.
  { destruct (fe_sourceQuotas e) as [quotas|]; [|done]. rewrite bind_nil.
    setoid_rewrite issue_if_nil. setoid_rewrite not_natural_false. naive_solver. }
  assert ((∀ key, key ∈ (fe_roles e).*1 →
           (if bool_decide (key ∈ ALLOWED_FINOPS_ROLES) then []
            else issue ("$.roles." +:+ key) ("roles." +:+ key +:+ " is not a known FinOps role")) = []) ↔
          ∀ key, key ∈ (fe_roles e).*1 → key ∈ ALLOWED_FINOPS_ROLES) as ->.
  { apply forall_proper; intros key. case_bool_decide; [tauto|].
    split; intros Hk Hin; specialize (Hk Hin); done. }
  assert ((∀ role, role ∈ ALLOWED_FINOPS_ROLES →
           match role_budget role e with Some b => validateRoleBudget role b | None => [] end = []) ↔
          ∀ role b, role ∈ ALLOWED_FINOPS_ROLES → role_budget role e = Some b → role_budget_ok role b) as ->.
  { setoid_rewrite <- validateRoleBudget_nil. split.
    - intros Hall role b Hin Hb. specialize (Hall role Hin). by rewrite Hb in Hall.
    - intros Hall role Hin. destruct (role_budget role e) eqn:Hb; [|done]. by apply Hall. }
  split; [intros (?&?&?&?&?&?&?&?); by split|intros []; by split_all].
Qed.

(** Validation is exact: an envelope has no validation error exactly when its
    names are not empty, the job's wall clock is a positive safe integer, the miss
    rate is in [0,1], the cost is finite and not negative, every role is known, every
    role's limits are safe integers (positive, except for the limits that may be
    zero) and of a kind that makes sense for the role, and the quotas are natural. *)
Theorem finops_validation_exact e : envelope_valid e = true ↔ envelope_ok e.
Proof. apply envelope_valid_ok. Qed.

(** ** Clones *)

Lemma clone_keys_lookup (input : gmap string jsnum) keys (out : gmap string jsnum) key :
  foldl (λ out key, match input !! key with Some value => <[key := value]> out | None => out end)
    out keys !! key =
  if bool_decide (key ∈ keys) then match input !! key with Some v => Some v | None => out !! key end
  else out !! key.
Proof.
  revert out. induction keys as [|k keys IH]; intros out; [done|]. cbn [foldl]. rewrite IH.
  destruct (decide (key = k)) as [->|Hne].
  - rewrite (bool_decide_eq_true_2 (k ∈ k :: keys)) by constructor.
    destruct (input !! k) as [v|] eqn:E; [rewrite lookup_insert_eq|]; by case_bool_decide.
  - rewrite (bool_decide_ext (key ∈ k :: keys) (key ∈ keys)) by (rewrite elem_of_cons; naive_solver).
    destruct (input !! k); [rewrite lookup_insert_ne by done|]; done.
Qed.

Lemma cloneRoleBudget_lookup b key :
  cloneRoleBudget b !! key = if bool_decide (key ∈ ROLE_BUDGET_KEYS) then b !! key else None.
Proof.
  unfold cloneRoleBudget. rewrite clone_keys_lookup, lookup_empty. case_bool_decide; [|done]. by case_match.
Qed.

Lemma find_by_omap {A} (f : string → option A) keys role :
  NoDup keys →
  snd <$> find_by fst role (omap (λ k, (k,.) <$> f k) keys) = if bool_decide (role ∈ keys) then f role else None.
Proof.
  set (g := λ k, (k,.) <$> f k). induction 1 as [|k keys Hk Hnd IH]; [done|].
  change (omap g (k :: keys)) with (match g k with Some y => y :: omap g keys | None => omap g keys end).
  unfold g at 1. destruct (f k) as [a|] eqn:E; cbn [fmap option_fmap option_map].
  - rewrite find_by_cons. cbn [fst]. destruct (decide (k = role)) as [->|Hne].
    + rewrite !bool_decide_eq_true_2 by (done || constructor). by rewrite E.
    + rewrite (bool_decide_eq_false_2 (k = role)), IH by done.
      by rewrite (bool_decide_ext (role ∈ k :: keys) (role ∈ keys)) by (rewrite elem_of_cons; naive_solver).
  - rewrite IH. destruct (decide (role = k)) as [->|Hne].
    + rewrite (bool_decide_eq_false_2 (k ∈ keys)) by done.
      by rewrite bool_decide_eq_true_2 by constructor.
    + by rewrite (bool_decide_ext (role ∈ k :: keys) (role ∈ keys)) by (rewrite elem_of_cons; naive_solver).
Qed.

Lemma roles_NoDup : NoDup ALLOWED_FINOPS_ROLES.
Proof. by apply (bool_decide_unpack _). Qed.

Lemma role_budget_clone role e :
  role_budget role (cloneFinOpsBudgetEnvelope e) =
  if bool_decide (role ∈ ALLOWED_FINOPS_ROLES) then cloneRoleBudget <$> role_budget role e else None.
Proof.
  unfold role_budget at 1. unfold cloneFinOpsBudgetEnvelope. cbn [fe_roles].
  rewrite <- (find_by_omap (λ role, cloneRoleBudget <$> role_budget role e)) by apply roles_NoDup.
  f_equal. f_equal. apply list_omap_ext, Forall_Forall2_diag, Forall_true. intros k. by destruct (role_budget k e).
Qed.

Lemma clone_roles_known e : (fe_roles (cloneFinOpsBudgetEnvelope e)).*1 ⊆ ALLOWED_FINOPS_ROLES.
Proof.
  intros k (p & -> & (role & Hin & Hp)%list_elem_of_omap)%list_elem_of_fmap.
  destruct (role_budget role e); [|done]. simpl in Hp. injection Hp as <-. done.
Qed.

(** Cloning keeps the policy: a clone has the same job limits, quotas and limits
    of every known role and names no other role or limit, so that it gives the same
    request limits and quota verdicts, and cloning a valid envelope gives a valid
    one; the built-in envelopes are valid. *)
Theorem finops_clone_keeps_policy e :
  (∀ role field, role ∈ ALLOWED_FINOPS_ROLES → field ∈ ROLE_BUDGET_KEYS →
     role_budget role (cloneFinOpsBudgetEnvelope e) ≫= (.!! field) = role_budget role e ≫= (.!! field)) ∧
  (∀ role, role ∈ ALLOWED_FINOPS_ROLES →
     resolveFinOpsRequestLimits (role_budget role (cloneFinOpsBudgetEnvelope e)) =
     resolveFinOpsRequestLimits (role_budget role e)) ∧
  (∀ n, checkJiraApiQuota (cloneFinOpsBudgetEnvelope e) n = checkJiraApiQuota e n ∧
        checkJiraPasteQuota (cloneFinOpsBudgetEnvelope e) n = checkJiraPasteQuota e n ∧
        checkCustomContextQuota (cloneFinOpsBudgetEnvelope e) n = checkCustomContextQuota e n) ∧
  (envelope_valid e = true → envelope_valid (cloneFinOpsBudgetEnvelope e) = true) ∧
  envelope_valid DEFAULT_FINOPS_BUDGET_ENVELOPE = true ∧
  envelope_valid cloneEuBankingDefaultFinOpsBudget = true ∧
  envelope_valid cloneProductionFinOpsBudgetEnvelope = true.
Proof.
  assert (∀ role field, role ∈ ALLOWED_FINOPS_ROLES → field ∈ ROLE_BUDGET_KEYS →
     role_budget role (cloneFinOpsBudgetEnvelope e) ≫= (.!! field) = role_budget role e ≫= (.!! field)) as Hb.
  { intros role field Hr Hf. rewrite role_budget_clone, bool_decide_eq_true_2 by done.
    destruct (role_budget role e) as [b|]; [|done]. simpl. by rewrite cloneRoleBudget_lookup, bool_decide_eq_true_2. }
  assert (∀ (xs : list string) x, bool_decide (x ∈ xs) = true → x ∈ xs) as Hin
    by (intros xs x; apply bool_decide_eq_true).
  split_all; [done| | | |by vm_compute..].
  - intros role Hr. unfold resolveFinOpsRequestLimits. f_equal; (apply Hb; [done|by apply Hin]).
  - intros n. unfold checkJiraApiQuota, checkJiraPasteQuota, checkCustomContextQuota, quota_cap.
    split_all; f_equal; cbn [cloneFinOpsBudgetEnvelope fe_sourceQuotas];
      destruct (fe_sourceQuotas e ≫= _); try done; apply Hb; by apply Hin.
  - rewrite !envelope_valid_ok. intros [H1 H2 H3 H4 H5 H6 H7 H8]. split; try done.
    + intros key. apply clone_roles_known.
    + intros role b Hr. rewrite role_budget_clone, bool_decide_eq_true_2 by done.
      destruct (role_budget role e) as [b'|] eqn:Eb; [|done]. intros [= <-].
      assert (∀ fields, without b' fields → without (cloneRoleBudget b') fields) as Hw.
      { intros fields Hwo. eapply Forall_impl; [exact Hwo|]. intros f Hf. simpl. rewrite cloneRoleBudget_lookup, Hf. by case_bool_decide. }
      destruct (H7 role b' Hr Eb) as [R1 R2 R3 R4 R5]. split; [|by auto..].
      intros field v Hf. rewrite cloneRoleBudget_lookup, bool_decide_eq_true_2 by done. by apply R1.
Qed.

Lemma finops_clone_keeps_policy_witness :
  envelope_valid (cloneFinOpsBudgetEnvelope EU_BANKING_DEFAULT_FINOPS_BUDGET) = true.
Proof.
  apply (proj1 (proj2 (proj2 (proj2 (finops_clone_keeps_policy EU_BANKING_DEFAULT_FINOPS_BUDGET))))).
  vm_compute. reflexivity.
Defined.

(** ** The wall-clock formula *)

Lemma assertNonNegativeSafeInteger_Ok v label z :
  assertNonNegativeSafeInteger v label = Ok z → natural_limit true v ∧ v = Fin (match v with Fin q => q | _ => 0 end) ∧ 0 ≤ z.
Proof.
  unfold assertNonNegativeSafeInteger. destruct v as [| | |q]; try done.
  destruct (not_natural (Fin q)) eqn:E; [done|]. intros [= <-]. apply not_natural_false in E.
  split_all; [done|done|]. by destruct E as (? & [= <-] & _ & ? & _).
Qed.

(** The coefficients are not negative. *)
Record policy_ok (c : FinOpsWallClockBudgetPolicy) : Prop := {
  po_case : (0 <= wc_perCaseMs c)%Q;
  po_judge : (0 <= wc_perAdditionalJudgeMs c)%Q;
  po_round : (0 <= wc_perAdversarialRoundMs c)%Q;
  po_visual : (0 <= wc_visualSidecarMs c)%Q;
}.

Lemma unclamped_budget_mono c n1 n2 j1 j2 r1 r2 (v1 v2 : bool) :
  policy_ok c → n1 ≤ n2 → j1 ≤ j2 → r1 ≤ r2 → (v1 = true → v2 = true) →
  (unclamped_budget c n1 j1 r1 v1 <= unclamped_budget c n2 j2 r2 v2)%Q.
Proof.
  intros [Hc Hj Hr Hv] Hn Hjj Hrr Hvv. unfold unclamped_budget.
  assert (∀ a x y, (0 <= a)%Q → x ≤ y → (a * inject_Z x <= a * inject_Z y)%Q) as Hm.
  { intros a x y Ha Hxy. rewrite !(Qmult_comm a). apply Qmult_le_compat_r; [by rewrite <- Zle_Qle|done]. }
  repeat apply Qplus_le_compat; [apply Qle_refl|apply Hm; (done||lia)..|].
  destruct v1, v2; try apply Qle_refl; [by specialize (Hvv eq_refl)|done].
Qed.

(** The counts of an input that is accepted. *)
Definition count_of (v : jsnum) : Z := match v with Fin q => Qfloor q | _ => 0 end.

Lemma assert_count v label :
  assertNonNegativeSafeInteger v label = Ok (count_of v) ∧ natural_limit true v ∨
  assertNonNegativeSafeInteger v label = Throw label ∧ ¬ natural_limit true v.
Proof.
  unfold assertNonNegativeSafeInteger. destruct v as [| | |q];
    try (right; split; [done|by intros (? & ? & _)]).
  destruct (not_natural (Fin q)) eqn:E.
  - right. split; [done|]. intros Hn%not_natural_false. congruence.
  - left. split; [done|]. by apply not_natural_false.
Qed.

(** More work: at least as many cases, judges and rounds, and the sidecar if it was on. *)
Definition more_work (i i' : ResolveWallClockBudgetInput) : Prop :=
  count_of (wi_caseCount i) ≤ count_of (wi_caseCount i') ∧
  count_of (wi_judgePanelSize i) ≤ count_of (wi_judgePanelSize i') ∧
  count_of (wi_adversarialRounds i) ≤ count_of (wi_adversarialRounds i') ∧
  (wi_visualSidecarEnabled i = true → wi_visualSidecarEnabled i' = true).

Definition budget_of (c : FinOpsWallClockBudgetPolicy) (i : ResolveWallClockBudgetInput) : Q :=
  Qmin (unclamped_budget c (count_of (wi_caseCount i)) (count_of (wi_judgePanelSize i))
          (count_of (wi_adversarialRounds i)) (wi_visualSidecarEnabled i)) (wc_hardCeilingMs c).

Definition counts_ok (i : ResolveWallClockBudgetInput) : Prop :=
  natural_limit true (wi_caseCount i) ∧ natural_limit true (wi_judgePanelSize i) ∧
  natural_limit true (wi_adversarialRounds i).

Lemma resolveWallClockBudget_cases i policy :
  resolveWallClockBudget i policy = Ok (budget_of (default DEFAULT_FINOPS_WALL_CLOCK_BUDGET_POLICY policy) i)
    ∧ counts_ok i ∨
  (∃ label, resolveWallClockBudget i policy = Throw label) ∧ ¬ counts_ok i.
Proof.
  unfold resolveWallClockBudget, counts_ok.
  destruct (assert_count (wi_caseCount i) "caseCount") as [[-> H1]|[-> H1]]; cbn [outcome_bind];
    [|right; split; [by eexists|tauto]].
  destruct (assert_count (wi_judgePanelSize i) "judgePanelSize") as [[-> H2]|[-> H2]]; cbn [outcome_bind];
    [|right; split; [by eexists|tauto]].
  destruct (assert_count (wi_adversarialRounds i) "adversarialRounds") as [[-> H3]|[-> H3]]; cbn [outcome_bind];
    [|right; split; [by eexists|tauto]].
  by left.
Qed.

Lemma budget_of_mono c i i' : policy_ok c → more_work i i' → (budget_of c i <= budget_of c i')%Q.
Proof.
  intros Hc (H1 & H2 & H3 & H4). unfold budget_of. apply Q.min_le_compat_r.
  by apply unclamped_budget_mono.
Qed.

(** The wall-clock budget of a run: it is computed exactly when the three counts
    are natural safe integers, never exceeds the hard ceiling, does not shrink when
    there is more work (for coefficients that are not negative), and an explicit
    override replaces it while the formula's value and its breakdown, whose parts add
    up, are still reported. *)
Theorem wall_clock_budget_spec i policy override :
  let c := resolveFinOpsWallClockBudgetPolicy policy in
  match resolveTestGenerationWallClockBudget i override policy with
  | Throw _ => ¬ counts_ok i ∧ ∃ label, resolveWallClockBudget i policy = Throw label
  | Ok r =>
      counts_ok i ∧ resolveWallClockBudget i policy = Ok (wr_formulaMs r) ∧
      (wr_formulaMs r <= wc_hardCeilingMs c)%Q ∧
      wr_resolvedMs r = default (wr_formulaMs r) override ∧ wr_overrideMs r = override ∧
      (∃ base cases judges rounds visual,
         wr_breakdown r = [base; cases; judges; rounds; visual;
                           (base + cases + judges + rounds + visual)%Q; wc_hardCeilingMs c] ∧
         wr_formulaMs r = Qmin (base + cases + judges + rounds + visual) (wc_hardCeilingMs c)) ∧
      (∀ i' ms, policy_ok c → more_work i i' → resolveWallClockBudget i' policy = Ok ms →
                (wr_formulaMs r <= ms)%Q)
  end.
Proof.
  cbv zeta. unfold resolveTestGenerationWallClockBudget, resolveFinOpsWallClockBudgetPolicy.
  set (c := default DEFAULT_FINOPS_WALL_CLOCK_BUDGET_POLICY policy).
  destruct (resolveWallClockBudget_cases i (Some c)) as [[-> Hok]|[[label ->] Hbad]]; cbn [outcome_bind default].
  2:{ destruct (resolveWallClockBudget_cases i policy) as [[_ Hok]|[He _]]; [done|]. by split. }
  destruct Hok as (H1 & H2 & H3).
  destruct (assert_count (wi_caseCount i) "caseCount") as [[-> _]|[_ ?]]; [|done].
  destruct (assert_count (wi_judgePanelSize i) "judgePanelSize") as [[-> _]|[_ ?]]; [|done].
  destruct (assert_count (wi_adversarialRounds i) "adversarialRounds") as [[-> _]|[_ ?]]; [|done].
  cbn [outcome_bind wr_formulaMs wr_resolvedMs wr_overrideMs wr_breakdown].
  split_all; [done| |apply Q.le_min_r|done|done| |].
  - by destruct (resolveWallClockBudget_cases i policy) as [[-> _]|[_ []]].
  - by eexists _, _, _, _, _.
  - intros i' ms Hc Hm. destruct (resolveWallClockBudget_cases i' policy) as [[-> _]|[[? ->] _]]; [|done].
    intros [= <-]. by apply budget_of_mono.
Qed.

(** The critic gets a quarter of the generator's tokens and time, at least one unit. *)
Lemma quarterBudget_bound q r :
  quarterBudget (Some (Fin q)) = Some r →
  ∃ z, r = num z ∧ 1 ≤ z ∧ (1 < z → (inject_Z z <= q * (1 # 4))%Q).
Proof.
  unfold quarterBudget. destruct (Qle_bool q 0); [done|]. intros E.
  apply (inj Some) in E as <-. exists (Z.max 1 (Qfloor (q * (1 # 4)))). split; [done|].
  generalize (Qfloor_le (q * (1 # 4))). generalize (Qfloor (q * (1 # 4))). intros f Hf.
  split; [lia|]. intros Hz. by replace (Z.max 1 f) with f by lia.
Qed.

(** The production envelope leaves roles and limits out, although its comment calls
    every field set and no role unconstrained. *)
Lemma production_envelope_not_closed :
  role_budget "jira_api_requests" PRODUCTION_FINOPS_BUDGET_ENVELOPE = None ∧
  role_budget "jira_paste_ingest" PRODUCTION_FINOPS_BUDGET_ENVELOPE = None ∧
  role_budget "custom_context_ingest" PRODUCTION_FINOPS_BUDGET_ENVELOPE = None ∧
  role_budget "test_generation" PRODUCTION_FINOPS_BUDGET_ENVELOPE ≫= (.!! "maxTotalWallClockMs") = None ∧
  ∀ n, checkJiraApiQuota PRODUCTION_FINOPS_BUDGET_ENVELOPE n = None ∧
       checkJiraPasteQuota PRODUCTION_FINOPS_BUDGET_ENVELOPE n = None ∧
       checkCustomContextQuota PRODUCTION_FINOPS_BUDGET_ENVELOPE n = None.
Proof. by vm_compute. Qed.
