(* ===== verification/FinOpsRecorder.v ===== *)
(** * The FinOps usage recorder

    [packages/model-gateway/src/per-source-cost.ts] and the recorder of
    [packages/model-gateway/src/finops-report.ts]: usage per role and per agent
    source. The counters of a role are one record that is only added to, so a
    recorded event is the amount it adds. Arithmetic is exact. The redaction of
    secrets in labels is a parameter. *)

From Stdlib Require Import Ascii.
From S2P Require Import Prelude JsString JsList JsValue FinOpsBudget.

(** ** Labels *)

Class Redactor := { redactHighRiskSecrets : string → string → string }.

(** [s.replace(/\s+/g, " ")] *)
Fixpoint collapse_spaces (after_space : bool) (s : string) : string :=
  match s with
  | EmptyString => EmptyString
  | String c r =>
      if is_space c
      then if after_space then collapse_spaces true r else String " "%char (collapse_spaces true r)
      else String c (collapse_spaces false r)
  end.

Definition MAX_REPORT_LABEL_LENGTH : nat := 160.

Definition sanitizeReportString `{Redactor} (input : string) : string :=
  let redacted := trim (collapse_spaces false (redactHighRiskSecrets input "[REDACTED]")) in
  if (String.length redacted <=? MAX_REPORT_LABEL_LENGTH)%nat then redacted
  else String.substring 0 MAX_REPORT_LABEL_LENGTH redacted +:+ "...".

(** Not [undefined] and not empty. *)
Definition nonempty (label : option string) : option string :=
  match label with Some EmptyString => None | _ => label end.

(** ** Numbers *)

Definition ensureFinite (value : jsnum) : Q := match value with Fin q => q | _ => 0 end.

Definition positiveOrZero (value : option jsnum) : Q :=
  match value with Some (Fin q) => if Qle_bool 0 q then q else 0 | _ => 0 end.

Definition safeIntPositiveOrZero (value : option jsnum) : Z := Qfloor (positiveOrZero value).

(** [Math.round(value * 1_000_000) / 1_000_000] *)
Definition math_round (q : Q) : Z := Qfloor (q + (1 # 2)).
Definition round6 (value : Q) : Q := (inject_Z (math_round (value * 1000000)) / 1000000)%Q.

(** ** Cost rates *)

Record FinOpsCostRate := {
  cr_inputTokenCostPer1k : option jsnum;
  cr_outputTokenCostPer1k : option jsnum;
  cr_fixedCostPerAttempt : option jsnum;
}.

(** Tokens and attempts priced with a rate, before rounding. *)
Definition priced (rate : FinOpsCostRate) (inputTokens outputTokens calls : Z) : Q :=
  (inject_Z inputTokens / 1000 * positiveOrZero (cr_inputTokenCostPer1k rate)
   + inject_Z outputTokens / 1000 * positiveOrZero (cr_outputTokenCostPer1k rate)
   + inject_Z calls * positiveOrZero (cr_fixedCostPerAttempt rate))%Q.

Definition estimatedCostToMinorUnits (estimatedCost : Q) : Z := math_round (round6 estimatedCost * 100).

Definition computePerSourceCostMinorUnits (rate : option FinOpsCostRate)
    (inputTokens outputTokens callCount : Z) : Z :=
  match rate with
  | None => 0
  | Some rate => estimatedCostToMinorUnits (priced rate inputTokens outputTokens callCount)
  end.

(** ** Sources *)

Definition STATIC_AGENT_SOURCE_LABELS : list string :=
  ["manager"; "judge_primary"; "judge_secondary"; "visual_primary"; "visual_fallback"; "generator";
   "requirements_synthesis"; "coverage_planner"; "risk_ranker"; "adversarial_critic"; "gap_finder";
   "repair_planner"; "ir_mutation_oracle"].

Definition isAgentSourceLabel (value : string) : bool :=
  bool_decide (value ∈ STATIC_AGENT_SOURCE_LABELS)
  || match strip_prefix "hook:" value with Some rest => bool_decide (rest ≠ "") | None => false end.

(** The latest deployment, model revision and tier that were named. *)
Record route := {
  rt_deployment : option string;
  rt_modelRevision : option string;
  rt_tierLabel : option string;
}.

Definition no_route : route := {| rt_deployment := None; rt_modelRevision := None; rt_tierLabel := None |}.

(** [if (label !== undefined && label.length > 0) target = label] *)
Definition or_keep (label old : option string) : option string :=
  match label with Some _ => label | None => old end.

Definition stamp_route (update old : route) : route :=
  {| rt_deployment := or_keep (nonempty (rt_deployment update)) (rt_deployment old);
     rt_modelRevision := or_keep (nonempty (rt_modelRevision update)) (rt_modelRevision old);
     rt_tierLabel := or_keep (rt_tierLabel update) (rt_tierLabel old) |}.

Record decoding_metadata := {
  dm_adapterId : string;
  dm_enforcement : string;
  dm_fallback : bool;
  dm_fallbackReason : option string;
  dm_adapterVersion : option string;
}.

Record decoding_summary := {
  ds_adapterId : string;
  ds_enforcement : string;
  ds_activeCallCount : Z;
  ds_fallbackCallCount : Z;
  ds_fallbackReasons : list string;
  ds_adapterVersion : option string;
}.

Record region_summary := {
  rs_distinctRegions : list string;
  rs_attestedCallCount : Z;
  rs_warningCount : Z;
}.

(** An absent list and an empty one are the same in the finished entry. *)
Record MutablePerSourceCostEntry := {
  se_costMinorUnits : Z;
  se_tokensIn : Z;
  se_tokensOut : Z;
  se_callCount : Z;
  se_inFlightDedupHits : Z;
  se_idempotentReplayHits : Z;
  se_attemptIds : list string;
  se_circuitBreakerStates : list string;
  se_route : route;
  se_constrainedDecoding : option decoding_summary;
  se_regionAttestation : option region_summary;
}.

Definition createEmptyPerSourceCostEntry : MutablePerSourceCostEntry :=
  {| se_costMinorUnits := 0; se_tokensIn := 0; se_tokensOut := 0; se_callCount := 0;
     se_inFlightDedupHits := 0; se_idempotentReplayHits := 0; se_attemptIds := [];
     se_circuitBreakerStates := []; se_route := no_route; se_constrainedDecoding := None;
     se_regionAttestation := None |}.

(** [if (!xs.includes(x)) { xs.push(x); xs.sort(); }] *)
Definition add_sorted (x : string) (xs : list string) : list string :=
  if bool_decide (x ∈ xs) then xs else js_sort String.compare (xs ++ [x]).

Definition count_decoding (m : decoding_metadata) (current : option decoding_summary) : decoding_summary :=
  let c := default {| ds_adapterId := dm_adapterId m; ds_enforcement := dm_enforcement m;
                      ds_activeCallCount := 0; ds_fallbackCallCount := 0; ds_fallbackReasons := [];
                      ds_adapterVersion := None |} current in
  {| ds_adapterId := dm_adapterId m; ds_enforcement := dm_enforcement m;
     ds_activeCallCount := ds_activeCallCount c + (if dm_fallback m then 0 else 1);
     ds_fallbackCallCount := ds_fallbackCallCount c + (if dm_fallback m then 1 else 0);
     ds_fallbackReasons :=
       match dm_fallback m, nonempty (dm_fallbackReason m) with
       | true, Some reason => add_sorted reason (ds_fallbackReasons c)
       | _, _ => ds_fallbackReasons c
       end;
     ds_adapterVersion := or_keep (nonempty (dm_adapterVersion m)) (ds_adapterVersion c) |}.

Definition count_region (region : string) (warning : bool) (current : option region_summary) : region_summary :=
  let c := default {| rs_distinctRegions := []; rs_attestedCallCount := 0; rs_warningCount := 0 |} current in
  {| rs_distinctRegions := set_add (rs_distinctRegions c) region;
     rs_attestedCallCount := rs_attestedCallCount c + 1;
     rs_warningCount := rs_warningCount c + (if warning then 1 else 0) |}.

Record source_attempt := {
  sa_rate : option FinOpsCostRate;
  sa_inputTokens : option jsnum;
  sa_outputTokens : option jsnum;
  sa_attemptId : option string;
  sa_circuitBreakerState : option string;
  sa_route : route;
  sa_constrainedDecoding : option decoding_metadata;
  sa_region : option string;
  sa_regionWarning : bool;
}.

(** The cost is computed again from the totals with the rate of this attempt. *)
Definition recordPerSourceAttempt (i : source_attempt) (e : MutablePerSourceCostEntry) :
    MutablePerSourceCostEntry :=
  let callCount := se_callCount e + 1 in
  let tokensIn := se_tokensIn e + safeIntPositiveOrZero (sa_inputTokens i) in
  let tokensOut := se_tokensOut e + safeIntPositiveOrZero (sa_outputTokens i) in
  {| se_costMinorUnits := computePerSourceCostMinorUnits (sa_rate i) tokensIn tokensOut callCount;
     se_tokensIn := tokensIn; se_tokensOut := tokensOut; se_callCount := callCount;
     se_inFlightDedupHits := se_inFlightDedupHits e;
     se_idempotentReplayHits := se_idempotentReplayHits e;
     se_attemptIds := match nonempty (sa_attemptId i) with
                      | Some id => add_sorted id (se_attemptIds e)
                      | None => se_attemptIds e
                      end;
     se_circuitBreakerStates := se_circuitBreakerStates e ++ option_list (sa_circuitBreakerState i);
     se_route := stamp_route (sa_route i) (se_route e);
     se_constrainedDecoding :=
       match sa_constrainedDecoding i with
       | Some m => Some (count_decoding m (se_constrainedDecoding e))
       | None => se_constrainedDecoding e
       end;
     se_regionAttestation :=
       match sa_region i with
       | Some region => Some (count_region region (sa_regionWarning i) (se_regionAttestation e))
       | None => se_regionAttestation e
       end |}.

(** The entry with other call, cost, hit counters and route. *)
Definition with_counters (cost calls dedup replays : Z) (r : route) (e : MutablePerSourceCostEntry) :
    MutablePerSourceCostEntry :=
  {| se_costMinorUnits := cost; se_tokensIn := se_tokensIn e; se_tokensOut := se_tokensOut e;
     se_callCount := calls; se_inFlightDedupHits := dedup; se_idempotentReplayHits := replays;
     se_attemptIds := se_attemptIds e; se_circuitBreakerStates := se_circuitBreakerStates e;
     se_route := r; se_constrainedDecoding := se_constrainedDecoding e;
     se_regionAttestation := se_regionAttestation e |}.

Definition recordPerSourceReplayHit (e : MutablePerSourceCostEntry) : MutablePerSourceCostEntry :=
  with_counters (se_costMinorUnits e) (se_callCount e) (se_inFlightDedupHits e)
    (se_idempotentReplayHits e + 1) (se_route e) e.
Definition recordPerSourceInFlightDedupHit (e : MutablePerSourceCostEntry) : MutablePerSourceCostEntry :=
  with_counters (se_costMinorUnits e) (se_callCount e) (se_inFlightDedupHits e + 1)
    (se_idempotentReplayHits e) (se_route e) e.

(** ** Roles *)

(** The counters of a role. *)
Record usage_tally := {
  ta_attempts : Z;
  ta_successes : Z;
  ta_failures : Z;
  ta_inputTokens : Z;
  ta_outputTokens : Z;
  ta_imageBytes : Z;
  ta_cacheHits : Z;
  ta_cacheMisses : Z;
  ta_fallbackAttempts : Z;
  ta_liveSmokeCalls : Z;
  ta_durationMs : Q;
  ta_ingestBytes : Z;
}.

Definition zero_tally : usage_tally :=
  {| ta_attempts := 0; ta_successes := 0; ta_failures := 0; ta_inputTokens := 0; ta_outputTokens := 0;
     ta_imageBytes := 0; ta_cacheHits := 0; ta_cacheMisses := 0; ta_fallbackAttempts := 0;
     ta_liveSmokeCalls := 0; ta_durationMs := 0; ta_ingestBytes := 0 |}.

Definition usage_add (a b : usage_tally) : usage_tally :=
  {| ta_attempts := ta_attempts a + ta_attempts b;
     ta_successes := ta_successes a + ta_successes b;
     ta_failures := ta_failures a + ta_failures b;
     ta_inputTokens := ta_inputTokens a + ta_inputTokens b;
     ta_outputTokens := ta_outputTokens a + ta_outputTokens b;
     ta_imageBytes := ta_imageBytes a + ta_imageBytes b;
     ta_cacheHits := ta_cacheHits a + ta_cacheHits b;
     ta_cacheMisses := ta_cacheMisses a + ta_cacheMisses b;
     ta_fallbackAttempts := ta_fallbackAttempts a + ta_fallbackAttempts b;
     ta_liveSmokeCalls := ta_liveSmokeCalls a + ta_liveSmokeCalls b;
     ta_durationMs := (ta_durationMs a + ta_durationMs b)%Q;
     ta_ingestBytes := ta_ingestBytes a + ta_ingestBytes b |}.

Record RoleAccumulator := {
  ra_route : route;
  ra_tally : usage_tally;
  ra_lastFinishReason : option string;
  ra_lastErrorClass : option string;
}.

Definition createRoleAccumulator : RoleAccumulator :=
  {| ra_route := no_route; ra_tally := zero_tally; ra_lastFinishReason := None; ra_lastErrorClass := None |}.

Definition add_tally (t : usage_tally) (a : RoleAccumulator) : RoleAccumulator :=
  {| ra_route := ra_route a; ra_tally := usage_add (ra_tally a) t;
     ra_lastFinishReason := ra_lastFinishReason a; ra_lastErrorClass := ra_lastErrorClass a |}.
Definition set_route (r : route) (a : RoleAccumulator) : RoleAccumulator :=
  {| ra_route := r; ra_tally := ra_tally a;
     ra_lastFinishReason := ra_lastFinishReason a; ra_lastErrorClass := ra_lastErrorClass a |}.

Definition cache_tally (hits misses ingest : Z) : usage_tally :=
  {| ta_attempts := 0; ta_successes := 0; ta_failures := 0; ta_inputTokens := 0; ta_outputTokens := 0;
     ta_imageBytes := 0; ta_cacheHits := hits; ta_cacheMisses := misses; ta_fallbackAttempts := 0;
     ta_liveSmokeCalls := 0; ta_durationMs := 0; ta_ingestBytes := ingest |}.

(** ** Observations *)

Inductive gateway_result : Type :=
| gateway_success (inputTokens outputTokens : option jsnum) (finishReason : string)
| gateway_failure (errorClass : string).

Record FinOpsAttemptObservation := {
  ob_role : string;
  ob_source : option string;
  ob_attemptId : option string;
  ob_route : route;
  ob_durationMs : jsnum;
  ob_imageBytes : option jsnum;
  ob_liveSmoke : bool;
  ob_fallback : bool;
  ob_circuitBreakerState : option string;
  ob_region : option string;
  ob_regionWarning : bool;
  ob_result : gateway_result;
  ob_constrainedDecoding : option decoding_metadata;
  ob_audit : bool;
}.

Definition attempt_tally (o : FinOpsAttemptObservation) : usage_tally :=
  let '(ok, failed, tokensIn, tokensOut) :=
    match ob_result o with
    | gateway_success i o _ => (1, 0, safeIntPositiveOrZero i, safeIntPositiveOrZero o)
    | gateway_failure _ => (0, 1, 0, 0)
    end in
  {| ta_attempts := 1; ta_successes := ok; ta_failures := failed; ta_inputTokens := tokensIn;
     ta_outputTokens := tokensOut; ta_imageBytes := safeIntPositiveOrZero (ob_imageBytes o);
     ta_cacheHits := 0; ta_cacheMisses := 0; ta_fallbackAttempts := if ob_fallback o then 1 else 0;
     ta_liveSmokeCalls := if ob_liveSmoke o then 1 else 0;
     ta_durationMs := positiveOrZero (Some (ob_durationMs o)); ta_ingestBytes := 0 |}.

Record FinOpsBudgetBreach := {
  br_rule : string;
  br_role : option string;
  br_observed : Q;
  br_threshold : jsnum;
}.

Definition ALLOWED_FINOPS_BUDGET_BREACH_REASONS : list string :=
  ["max_input_tokens"; "max_output_tokens"; "max_wall_clock_ms"; "max_retries"; "max_attempts";
   "max_image_bytes"; "max_total_input_tokens"; "max_total_output_tokens"; "max_total_wall_clock_ms";
   "max_replay_cache_miss_rate"; "max_fallback_attempts"; "max_live_smoke_calls";
   "max_estimated_cost"; "jira_api_quota_exceeded"; "jira_paste_quota_exceeded";
   "custom_context_quota_exceeded"].

(** ** The recorder *)

Record recorder := {
  rc_roles : gmap string RoleAccumulator;
  rc_sources : gmap string MutablePerSourceCostEntry;
  rc_breaches : list FinOpsBudgetBreach;
}.

Definition new_recorder : recorder :=
  {| rc_roles := list_to_map ((λ role, (role, createRoleAccumulator)) <$> ALLOWED_FINOPS_ROLES);
     rc_sources := ∅; rc_breaches := [] |}.

Inductive RecorderError : Type :=
| unknown_role (role : string)
| unknown_source (source : string)
| unknown_rule (rule : string).

(** [accumulators[role]] changed in place; the role is known. *)
Definition on_role (role : string) (f : RoleAccumulator → RoleAccumulator) (r : recorder) : recorder :=
  {| rc_roles := alter f role (rc_roles r); rc_sources := rc_sources r; rc_breaches := rc_breaches r |}.

(** [f(sourceAccumulatorFor(source))] *)
Definition on_source (source : string) (f : MutablePerSourceCostEntry → MutablePerSourceCostEntry)
    (r : recorder) : recorder :=
  {| rc_roles := rc_roles r;
     rc_sources := <[source := f (default createEmptyPerSourceCostEntry (rc_sources r !! source))]>
                     (rc_sources r);
     rc_breaches := rc_breaches r |}.

(** A recorder operation: whether it threw, and the recorder after it. *)
Definition recording : Type := recorder → outcome RecorderError unit * recorder.

Definition if_role (role : string) (f : recording) : recording := λ r,
  if bool_decide (role ∈ ALLOWED_FINOPS_ROLES) then f r else (Throw (unknown_role role), r).

Definition if_source (source : option string) (f : string → recorder → recorder) : recording := λ r,
  match source with
  | None => (Ok tt, r)
  | Some source =>
      if isAgentSourceLabel source then (Ok tt, f source r) else (Throw (unknown_source source), r)
  end.

Section recorder_operations.
Context `{Redactor} (rates : gmap string FinOpsCostRate).

(** [stamp_route] with labels that were checked before they were sanitized. *)
Definition stamp_role_route (update old : route) : route :=
  {| rt_deployment := or_keep (sanitizeReportString <$> nonempty (rt_deployment update)) (rt_deployment old);
     rt_modelRevision := or_keep (sanitizeReportString <$> nonempty (rt_modelRevision update)) (rt_modelRevision old);
     rt_tierLabel := or_keep (rt_tierLabel update) (rt_tierLabel old) |}.

Definition observe_attempt (o : FinOpsAttemptObservation) (a : RoleAccumulator) : RoleAccumulator :=
  let a := set_route (stamp_role_route (ob_route o) (ra_route a)) a in
  if ob_audit o then a
  else
    let a := add_tally (attempt_tally o) a in
    match ob_result o with
    | gateway_success _ _ reason =>
        {| ra_route := ra_route a; ra_tally := ra_tally a; ra_lastFinishReason := Some reason;
           ra_lastErrorClass := ra_lastErrorClass a |}
    | gateway_failure errorClass =>
        {| ra_route := ra_route a; ra_tally := ra_tally a; ra_lastFinishReason := ra_lastFinishReason a;
           ra_lastErrorClass := Some errorClass |}
    end.

Definition observed_source_attempt (o : FinOpsAttemptObservation) : source_attempt :=
  {| sa_rate := rates !! ob_role o;
     sa_inputTokens := match ob_result o with gateway_success i _ _ => i | _ => None end;
     sa_outputTokens := match ob_result o with gateway_success _ t _ => t | _ => None end;
     sa_attemptId := ob_attemptId o; sa_circuitBreakerState := ob_circuitBreakerState o;
     sa_route := ob_route o; sa_constrainedDecoding := ob_constrainedDecoding o;
     sa_region := ob_region o; sa_regionWarning := ob_regionWarning o |}.

(** The role is updated before the source is checked. *)
Definition recordAttempt (o : FinOpsAttemptObservation) : recording :=
  if_role (ob_role o) (λ r,
    if_source (ob_source o) (λ source, on_source source (recordPerSourceAttempt (observed_source_attempt o)))
      (on_role (ob_role o) (observe_attempt o) r)).

Definition recordCircuitBreakerDecision (source state : string) (deployment : option string) : recording :=
  if_source (Some source) (λ source, on_source source (λ e,
    let e := recordPerSourceAttempt
      {| sa_rate := None; sa_inputTokens := None; sa_outputTokens := None; sa_attemptId := None;
         sa_circuitBreakerState := Some state;
         sa_route := {| rt_deployment := deployment; rt_modelRevision := None; rt_tierLabel := None |};
         sa_constrainedDecoding := None; sa_region := None; sa_regionWarning := false |} e in
    with_counters 0 0 (se_inFlightDedupHits e) (se_idempotentReplayHits e) (se_route e) e)).

Definition recordCacheHit (role : string) (source deployment : option string) : recording :=
  if_role role (λ r,
    let keep_first a :=
      match nonempty (rt_deployment (ra_route a)), nonempty deployment with
      | None, Some d =>
          set_route {| rt_deployment := Some (sanitizeReportString d);
                       rt_modelRevision := rt_modelRevision (ra_route a);
                       rt_tierLabel := rt_tierLabel (ra_route a) |} a
      | _, _ => a
      end in
    if_source source (λ source, on_source source recordPerSourceReplayHit)
      (on_role role (λ a, keep_first (add_tally (cache_tally 1 0 0) a)) r)).

Definition recordCacheMiss (role : string) : recording :=
  if_role role (λ r, (Ok tt, on_role role (add_tally (cache_tally 0 1 0)) r)).

Definition recordInFlightDedupHit (source : string) : recording :=
  if_source (Some source) (λ source, on_source source recordPerSourceInFlightDedupHit).

Definition recordIngestBytes (role : string) (bytes : jsnum) : recording :=
  if_role role (λ r,
    (Ok tt, on_role role (add_tally (cache_tally 0 0 (safeIntPositiveOrZero (Some bytes)))) r)).

Definition recordRoleMetadata (role : string) (update : route) : recording :=
  if_role role (λ r, (Ok tt, on_role role (λ a, set_route (stamp_role_route update (ra_route a)) a) r)).

Definition recordSourceMetadata (source : string) (update : route) : recording :=
  if_source (Some source) (λ source, on_source source (λ e,
    with_counters (se_costMinorUnits e) (se_callCount e) (se_inFlightDedupHits e)
      (se_idempotentReplayHits e) (stamp_role_route update (se_route e)) e)).

Definition recordBudgetBreach (rule : string) (role : option string) (observed threshold : jsnum) : recording := λ r,
  if negb (bool_decide (rule ∈ ALLOWED_FINOPS_BUDGET_BREACH_REASONS)) then (Throw (unknown_rule rule), r)
  else match role with
       | Some unknown =>
           if bool_decide (unknown ∈ ALLOWED_FINOPS_ROLES)
           then (Ok tt, {| rc_roles := rc_roles r; rc_sources := rc_sources r;
                           rc_breaches := rc_breaches r ++
                             [{| br_rule := rule; br_role := role; br_observed := ensureFinite observed;
                                 br_threshold := Fin (ensureFinite threshold) |}] |})
           else (Throw (unknown_role unknown), r)
       | None =>
           (Ok tt, {| rc_roles := rc_roles r; rc_sources := rc_sources r;
                      rc_breaches := rc_breaches r ++
                        [{| br_rule := rule; br_role := None; br_observed := ensureFinite observed;
                            br_threshold := Fin (ensureFinite threshold) |}] |})
       end.

(** The calls of a run. *)
Inductive recorder_call : Type :=
| call_attempt (o : FinOpsAttemptObservation)
| call_breaker (source state : string) (deployment : option string)
| call_cache_hit (role : string) (source deployment : option string)
| call_cache_miss (role : string)
| call_dedup_hit (source : string)
| call_ingest (role : string) (bytes : jsnum)
| call_role_metadata (role : string) (update : route)
| call_source_metadata (source : string) (update : route)
| call_breach (rule : string) (role : option string) (observed threshold : jsnum).

Definition perform (c : recorder_call) : recording :=
  match c with
  | call_attempt o => recordAttempt o
  | call_breaker source state deployment => recordCircuitBreakerDecision source state deployment
  | call_cache_hit role source deployment => recordCacheHit role source deployment
  | call_cache_miss role => recordCacheMiss role
  | call_dedup_hit source => recordInFlightDedupHit source
  | call_ingest role bytes => recordIngestBytes role bytes
  | call_role_metadata role update => recordRoleMetadata role update
  | call_source_metadata source update => recordSourceMetadata source update
  | call_breach rule role observed threshold => recordBudgetBreach rule role observed threshold
  end.

(** A run; what threw was caught by the caller. *)
Definition record_all (calls : list recorder_call) (r : recorder) : recorder :=
  foldl (λ r c, (perform c r).2) r calls.
End recorder_operations.


(** ** The ledger: what each call adds to a role *)

Definition call_tally (role : string) (c : recorder_call) : usage_tally :=
  match c with
  | call_attempt o => if bool_decide (ob_role o = role) && negb (ob_audit o) then attempt_tally o else zero_tally
  | call_cache_hit r _ _ => if bool_decide (r = role) then cache_tally 1 0 0 else zero_tally
  | call_cache_miss r => if bool_decide (r = role) then cache_tally 0 1 0 else zero_tally
  | call_ingest r bytes =>
      if bool_decide (r = role) then cache_tally 0 0 (safeIntPositiveOrZero (Some bytes)) else zero_tally
  | _ => zero_tally
  end.

Definition ledger (role : string) (calls : list recorder_call) : usage_tally :=
  foldl (λ t c, usage_add t (call_tally role c)) zero_tally calls.

(** What every tally satisfies. *)
Record tally_ok (t : usage_tally) : Prop := {
  tk_split : ta_attempts t = ta_successes t + ta_failures t;
  tk_successes : 0 ≤ ta_successes t;
  tk_failures : 0 ≤ ta_failures t;
  tk_tokens : 0 ≤ ta_inputTokens t ∧ 0 ≤ ta_outputTokens t ∧ 0 ≤ ta_imageBytes t;
  tk_cache : 0 ≤ ta_cacheHits t ∧ 0 ≤ ta_cacheMisses t ∧ 0 ≤ ta_ingestBytes t;
  tk_fallback : 0 ≤ ta_fallbackAttempts t ≤ ta_attempts t;
  tk_smoke : 0 ≤ ta_liveSmokeCalls t ≤ ta_attempts t;
  tk_duration : (0 <= ta_durationMs t)%Q;
  tk_no_success : ta_successes t = 0 → ta_inputTokens t = 0 ∧ ta_outputTokens t = 0;
  tk_no_attempt : ta_attempts t = 0 → ta_imageBytes t = 0 ∧ (ta_durationMs t == 0)%Q;
}.

Lemma positiveOrZero_nonneg v : (0 <= positiveOrZero v)%Q.
Proof.
  destruct v as [[]|]; simpl; try apply Qle_refl.
  destruct (Qle_bool 0 q) eqn:E; [by apply Qle_bool_iff|apply Qle_refl].
Qed.

Lemma safeInt_nonneg v : 0 ≤ safeIntPositiveOrZero v.
Proof.
  unfold safeIntPositiveOrZero. change 0 with (Qfloor 0).
  apply Qfloor_resp_le, positiveOrZero_nonneg.
Qed.

Lemma tally_ok_zero : tally_ok zero_tally.
Proof. split; simpl; try lia; [apply Qle_refl|]. intros _. split; [done|reflexivity]. Qed.

Lemma tally_ok_cache hits misses ingest :
  0 ≤ hits → 0 ≤ misses → 0 ≤ ingest → tally_ok (cache_tally hits misses ingest).
Proof. split; simpl; try lia; [apply Qle_refl|]. intros _. split; [done|reflexivity]. Qed.

Lemma tally_ok_attempt o : tally_ok (attempt_tally o).
Proof.
  pose proof (positiveOrZero_nonneg (Some (ob_durationMs o))).
  pose proof (safeInt_nonneg (ob_imageBytes o)).
  unfold attempt_tally. destruct (ob_result o) as [i t f|e]; simpl;
    [pose proof (safeInt_nonneg i); pose proof (safeInt_nonneg t)|];
    destruct (ob_fallback o), (ob_liveSmoke o); split; simpl; solve [lia|done].
Qed.

Lemma tally_ok_add a b : tally_ok a → tally_ok b → tally_ok (usage_add a b).
Proof.
  intros [] []. split; simpl; try lia.
  - change 0%Q with (0 + 0)%Q. by apply Qplus_le_compat.
  - intros H. destruct tk_no_attempt0 as [? Ha]; [lia|]. destruct tk_no_attempt1 as [? Hb]; [lia|].
    split; [lia|]. rewrite Ha, Hb. reflexivity.
Qed.

Lemma tally_ok_call role c : tally_ok (call_tally role c).
Proof.
  destruct c as [o| | | | |r bytes| | |]; simpl;
    repeat case_bool_decide; simpl; try destruct (ob_audit o);
    try apply tally_ok_attempt; try apply tally_ok_zero; apply tally_ok_cache; try done.
  apply safeInt_nonneg.
Qed.

Lemma ledger_snoc role calls c : ledger role (calls ++ [c]) = usage_add (ledger role calls) (call_tally role c).
Proof. unfold ledger. by rewrite foldl_app. Qed.

Lemma ledger_ok role calls : tally_ok (ledger role calls).
Proof.
  induction calls as [|c calls IH] using rev_ind; [apply tally_ok_zero|].
  rewrite ledger_snoc. auto using tally_ok_add, tally_ok_call.
Qed.

Lemma Qplus_0_r_eq (q : Q) : (q + 0)%Q = q.
Proof. destruct q as [n d]. unfold Qplus. simpl. by rewrite Z.mul_1_r, Z.add_0_r, Pos.mul_1_r. Qed.

Lemma tally_add_zero t : usage_add t zero_tally = t.
Proof. destruct t. unfold usage_add. simpl. by rewrite !Z.add_0_r, Qplus_0_r_eq. Qed.

(** The tallies of the known roles. *)
Definition tallies (r : recorder) (L : string → usage_tally) : Prop :=
  ∀ role, ra_tally <$> rc_roles r !! role = if bool_decide (role ∈ ALLOWED_FINOPS_ROLES) then Some (L role) else None.

Lemma tallies_same r r' L L' :
  rc_roles r' = rc_roles r → (∀ role, role ∈ ALLOWED_FINOPS_ROLES → L' role = L role) →
  tallies r L → tallies r' L'.
Proof.
  intros Hr HL H role. rewrite Hr, (H role). case_bool_decide; [by rewrite HL|done].
Qed.

Lemma tallies_on_role role0 f t r L :
  (∀ a, ra_tally (f a) = usage_add (ra_tally a) t) → tallies r L →
  tallies (on_role role0 f r)
    (λ role, usage_add (L role) (if bool_decide (role0 = role) then t else zero_tally)).
Proof.
  intros Hf H role. specialize (H role). simpl. destruct (decide (role0 = role)) as [->|Hne].
  - rewrite (bool_decide_eq_true_2 (role = role)), lookup_alter_eq by done.
    destruct (rc_roles r !! role) as [a|]; simpl in *; case_bool_decide; simplify_eq/=; [rewrite Hf; congruence|done].
  - rewrite (bool_decide_eq_false_2 (role0 = role)), lookup_alter_ne by done.
    by rewrite H, tally_add_zero.
Qed.

Lemma if_source_roles source f r :
  (∀ s r, rc_roles (f s r) = rc_roles r) → rc_roles (if_source source f r).2 = rc_roles r.
Proof. intros Hf. unfold if_source. destruct source as [s|]; [|done]. case_match; [apply Hf|done]. Qed.

Section ledger.
Context `{Redactor} (rates : gmap string FinOpsCostRate).

Lemma observe_attempt_tally o a :
  ra_tally (observe_attempt o a) =
  usage_add (ra_tally a) (if ob_audit o then zero_tally else attempt_tally o).
Proof.
  unfold observe_attempt. destruct (ob_audit o); [symmetry; apply tally_add_zero|].
  by destruct (ob_result o).
Qed.

(** A call for one role, wrapped in its check. *)
Lemma tallies_if_role role0 (f : recording) t r L :
  (role0 ∈ ALLOWED_FINOPS_ROLES → tallies (f r).2
     (λ role, usage_add (L role) (if bool_decide (role0 = role) then t else zero_tally))) →
  tallies r L →
  tallies (if_role role0 f r).2
    (λ role, usage_add (L role) (if bool_decide (role0 = role) then t else zero_tally)).
Proof.
  intros Hf H'. unfold if_role. case_bool_decide as Hrole; [by apply Hf|].
  eapply tallies_same; [done| |exact H']. intros role ?. simpl.
  rewrite bool_decide_eq_false_2 by congruence. apply tally_add_zero.
Qed.

(** A call that leaves the roles alone. *)
Lemma tallies_other r r' L :
  rc_roles r' = rc_roles r → tallies r L → tallies r' (λ role, usage_add (L role) zero_tally).
Proof. intros Hr. apply tallies_same; [done|]. intros role _. apply tally_add_zero. Qed.

Lemma perform_tallies c r L :
  tallies r L → tallies (perform rates c r).2 (λ role, usage_add (L role) (call_tally role c)).
Proof.
  intros H'. destruct c as [o|source state d|role source d|role|source|role bytes|role u|source u|rule role ob th]; simpl.
  - eapply tallies_same; [done| |
      apply (tallies_if_role (ob_role o) _ (if ob_audit o then zero_tally else attempt_tally o) _ L);
        [intros _|exact H']].
    + intros role _. simpl. case_bool_decide; [by destruct (ob_audit o)|done].
    + eapply tallies_same; [by apply if_source_roles|done|]; cbv beta.
      apply tallies_on_role; [apply observe_attempt_tally|done].
  - apply (tallies_other r); [|done]. by apply if_source_roles.
  - apply tallies_if_role; [intros _|done].
    eapply tallies_same; [by apply if_source_roles|done|]; cbv beta.
    apply tallies_on_role; [|done]. intros a. by repeat case_match.
  - apply tallies_if_role; [intros _|done]. by apply tallies_on_role.
  - apply (tallies_other r); [|done]. by apply if_source_roles.
  - apply tallies_if_role; [intros _|done]. by apply tallies_on_role.
  - eapply tallies_same; [done| |apply (tallies_if_role role _ zero_tally _ L); [intros _|exact H']].
    + intros role' _. simpl. by case_bool_decide.
    + apply tallies_on_role; [|done]. intros a. symmetry. apply tally_add_zero.
  - apply (tallies_other r); [|done]. by apply if_source_roles.
  - apply (tallies_other r); [|done]. unfold recordBudgetBreach. by repeat case_match.
Qed.

Lemma tallies_new : tallies new_recorder (λ _, zero_tally).
Proof.
  intros role. unfold new_recorder. cbn [rc_roles].
  case_bool_decide as Hr.
  - assert (∀ r : string, r ∈ ALLOWED_FINOPS_ROLES → ra_tally <$> rc_roles new_recorder !! r = Some zero_tally) as Hall.
    { apply Forall_forall. by repeat constructor. }
    by apply Hall.
  - apply fmap_None, not_elem_of_list_to_map_1. by rewrite <- list_fmap_compose, list_fmap_id.
Qed.

Lemma record_all_tallies calls : tallies (record_all rates calls new_recorder) (λ role, ledger role calls).
Proof.
  induction calls as [|c calls IH] using rev_ind; [apply tallies_new|].
  unfold record_all in *. rewrite foldl_app. simpl.
  eapply tallies_same; [done| |apply (perform_tallies c), IH].
  intros role _. apply ledger_snoc.
Qed.
End ledger.

(** ** The ledger of a source *)

(** The counters of a source, and the rate its cost was last computed with. *)
Record source_counts := {
  sc_tokensIn : Z;
  sc_tokensOut : Z;
  sc_calls : Z;
  sc_dedup : Z;
  sc_replays : Z;
  sc_rate : option FinOpsCostRate;
}.

Definition no_counts : source_counts :=
  {| sc_tokensIn := 0; sc_tokensOut := 0; sc_calls := 0; sc_dedup := 0; sc_replays := 0; sc_rate := None |}.

(** The call is accepted for [role] and names the source [s]. *)
Definition names_source (s : string) (role source : option string) : bool :=
  match role with Some role => bool_decide (role ∈ ALLOWED_FINOPS_ROLES) | None => true end
  && bool_decide (source = Some s) && isAgentSourceLabel s.

(** A breaker decision empties the calls and the price of its source. *)
Definition count_call (rates : gmap string FinOpsCostRate) (s : string) (t : source_counts)
    (c : recorder_call) : source_counts :=
  match c with
  | call_attempt o =>
      if names_source s (Some (ob_role o)) (ob_source o)
      then let '(i, u) := match ob_result o with
                          | gateway_success i u _ => (safeIntPositiveOrZero i, safeIntPositiveOrZero u)
                          | gateway_failure _ => (0, 0)
                          end in
           {| sc_tokensIn := sc_tokensIn t + i; sc_tokensOut := sc_tokensOut t + u;
              sc_calls := sc_calls t + 1; sc_dedup := sc_dedup t; sc_replays := sc_replays t;
              sc_rate := rates !! ob_role o |}
      else t
  | call_breaker source _ _ =>
      if names_source s None (Some source)
      then {| sc_tokensIn := sc_tokensIn t; sc_tokensOut := sc_tokensOut t; sc_calls := 0;
              sc_dedup := sc_dedup t; sc_replays := sc_replays t; sc_rate := None |}
      else t
  | call_cache_hit role source _ =>
      if names_source s (Some role) source
      then {| sc_tokensIn := sc_tokensIn t; sc_tokensOut := sc_tokensOut t; sc_calls := sc_calls t;
              sc_dedup := sc_dedup t; sc_replays := sc_replays t + 1; sc_rate := sc_rate t |}
      else t
  | call_dedup_hit source =>
      if names_source s None (Some source)
      then {| sc_tokensIn := sc_tokensIn t; sc_tokensOut := sc_tokensOut t; sc_calls := sc_calls t;
              sc_dedup := sc_dedup t + 1; sc_replays := sc_replays t; sc_rate := sc_rate t |}
      else t
  | _ => t
  end.

Definition entry (s : string) (r : recorder) : MutablePerSourceCostEntry :=
  default createEmptyPerSourceCostEntry (rc_sources r !! s).

(** The counters of an entry are the ledger's, and its cost is their price. *)
Record counted (t : source_counts) (e : MutablePerSourceCostEntry) : Prop := {
  co_tokensIn : se_tokensIn e = sc_tokensIn t;
  co_tokensOut : se_tokensOut e = sc_tokensOut t;
  co_calls : se_callCount e = sc_calls t;
  co_dedup : se_inFlightDedupHits e = sc_dedup t;
  co_replays : se_idempotentReplayHits e = sc_replays t;
  co_cost : se_costMinorUnits e =
    computePerSourceCostMinorUnits (sc_rate t) (sc_tokensIn t) (sc_tokensOut t) (sc_calls t);
}.

Lemma entry_on_source s source f r :
  entry s (on_source source f r) = if bool_decide (source = s) then f (entry s r) else entry s r.
Proof.
  unfold entry. simpl. case_bool_decide as Hs; [subst; by rewrite lookup_insert_eq|].
  by rewrite lookup_insert_ne.
Qed.

(** An accepted source call changes the entry it names. *)
Lemma entry_if_source s source f r :
  entry s (if_source source (λ source, on_source source f) r).2 =
  if names_source s None source then f (entry s r) else entry s r.
Proof.
  unfold if_source, names_source. simpl. destruct source as [source|]; [|done].
  destruct (isAgentSourceLabel source) eqn:Hl; simpl.
  - rewrite entry_on_source. destruct (decide (source = s)) as [->|Hne].
    + by rewrite !bool_decide_eq_true_2, Hl.
    + by rewrite !bool_decide_eq_false_2 by congruence.
  - destruct (decide (source = s)) as [->|Hne]; [by rewrite Hl, andb_false_r|].
    by rewrite bool_decide_eq_false_2 by congruence.
Qed.

Lemma entry_sources s r r' : rc_sources r' = rc_sources r → entry s r' = entry s r.
Proof. unfold entry. by intros ->. Qed.

(** A call for one role that changes at most one source. *)
Lemma entry_if_role s role g source f r :
  entry s (if_role role (λ r, if_source source (λ source, on_source source f) (on_role role g r)) r).2 =
  if names_source s (Some role) source then f (entry s r) else entry s r.
Proof.
  unfold if_role, names_source. case_bool_decide; simpl; [|done]. by rewrite entry_if_source.
Qed.

Lemma counted_recordPerSourceAttempt i t e :
  counted t e →
  counted {| sc_tokensIn := sc_tokensIn t + safeIntPositiveOrZero (sa_inputTokens i);
             sc_tokensOut := sc_tokensOut t + safeIntPositiveOrZero (sa_outputTokens i);
             sc_calls := sc_calls t + 1; sc_dedup := sc_dedup t; sc_replays := sc_replays t;
             sc_rate := sa_rate i |} (recordPerSourceAttempt i e).
Proof. intros []. split; simpl; congruence. Qed.

Lemma perform_counted `{Redactor} rates c r s t :
  counted t (entry s r) → counted (count_call rates s t c) (entry s (perform rates c r).2).
Proof.
  assert (∀ (b : bool) (t1 t2 : source_counts) e1 e2,
    (b = true → counted t1 e1) → counted t2 e2 → counted (if b then t1 else t2) (if b then e1 else e2)) as Hif.
  { intros [] * ? ?; auto. }
  intros Hc. destruct c as [o|source state d|role source d|role|source|role bytes|role u|source u|rule role ob th];
    cbn [perform count_call].
  - unfold recordAttempt. rewrite entry_if_role. apply Hif; [intros _|done].
    pose proof (counted_recordPerSourceAttempt (observed_source_attempt rates o) t (entry s r) Hc) as Hn.
    set (e := recordPerSourceAttempt _ _) in *. clearbody e. simpl in Hn. by destruct (ob_result o).
  - unfold recordCircuitBreakerDecision. rewrite entry_if_source. apply Hif; [intros _|done].
    destruct Hc. split; simpl; try congruence; change (safeIntPositiveOrZero None) with 0; lia.
  - unfold recordCacheHit. rewrite entry_if_role. apply Hif; [intros _|done].
    destruct Hc. split; simpl; congruence.
  - unfold recordCacheMiss, if_role. by case_match.
  - unfold recordInFlightDedupHit. rewrite entry_if_source. apply Hif; [intros _|done].
    destruct Hc. split; simpl; congruence.
  - unfold recordIngestBytes, if_role. by case_match.
  - unfold recordRoleMetadata, if_role. by case_match.
  - unfold recordSourceMetadata. rewrite entry_if_source.
    case_match; [|done]. destruct Hc. split; simpl; congruence.
  - unfold recordBudgetBreach. rewrite (entry_sources s r); [done|]. by repeat case_match.
Qed.

Lemma record_all_counted `{Redactor} rates calls s :
  counted (foldl (count_call rates s) no_counts calls) (entry s (record_all rates calls new_recorder)).
Proof.
  induction calls as [|c calls IH] using rev_ind; [by split|].
  unfold record_all in *. rewrite !foldl_app. simpl. by apply perform_counted.
Qed.

(** ** Properties *)

(** The attempts for a role that are not audits. *)
Definition primary_attempts (role : string) (calls : list recorder_call) : list FinOpsAttemptObservation :=
  omap (λ c, match c with
             | call_attempt o => if bool_decide (ob_role o = role) && negb (ob_audit o) then Some o else None
             | _ => None
             end) calls.

(** How many elements satisfy a test, and a sum over them. *)
Definition how_many {A} (test : A → bool) (l : list A) : Z := Z.of_nat (length (filter (λ x, test x = true) l)).
Definition sum_of {A} (f : A → Z) (l : list A) : Z := foldr (λ x total, f x + total) 0 l.

Lemma how_many_app {A} (test : A → bool) l l' : how_many test (l ++ l') = how_many test l + how_many test l'.
Proof. unfold how_many. rewrite filter_app, length_app. lia. Qed.

Lemma how_many_single {A} (test : A → bool) x : how_many test [x] = if test x then 1 else 0.
Proof. unfold how_many. rewrite filter_cons, filter_nil. by destruct (test x). Qed.

Lemma sum_of_app {A} (f : A → Z) l l' : sum_of f (l ++ l') = sum_of f l + sum_of f l'.
Proof. induction l as [|x l IH]; [done|]. cbn in *. unfold sum_of in *. lia. Qed.

(** A reported amount: its whole part, nothing when it is missing, negative or not finite. *)
Definition amount (v : option jsnum) : Z := match v with Some (Fin q) => Z.max 0 (Qfloor q) | _ => 0 end.

Lemma amount_spec v : safeIntPositiveOrZero v = amount v.
Proof.
  unfold safeIntPositiveOrZero, amount, positiveOrZero. destruct v as [[| | |q]|]; try done.
  destruct (Qle_bool 0 q) eqn:E.
  - apply Qle_bool_iff, Qfloor_resp_le in E. change (Qfloor 0) with 0 in E. lia.
  - assert (Hq : (q < 0)%Q) by (apply Qnot_le_lt; intros Hle%Qle_bool_iff; congruence).
    pose proof (Qfloor_le q) as Hf. assert (Hlt : (inject_Z (Qfloor q) < inject_Z 0)%Q) by (eapply Qle_lt_trans; done).
    rewrite <- Zlt_Qlt in Hlt. change (Qfloor 0) with 0. lia.
Qed.

Definition succeeded (o : FinOpsAttemptObservation) : bool :=
  match ob_result o with gateway_success _ _ _ => true | gateway_failure _ => false end.
Definition tokens_read (o : FinOpsAttemptObservation) : Z :=
  match ob_result o with gateway_success input _ _ => amount input | gateway_failure _ => 0 end.
Definition tokens_written (o : FinOpsAttemptObservation) : Z :=
  match ob_result o with gateway_success _ output _ => amount output | gateway_failure _ => 0 end.
Definition is_hit (role : string) (c : recorder_call) : bool :=
  match c with call_cache_hit r _ _ => bool_decide (r = role) | _ => false end.
Definition is_miss (role : string) (c : recorder_call) : bool :=
  match c with call_cache_miss r => bool_decide (r = role) | _ => false end.
Definition ingested (role : string) (c : recorder_call) : Z :=
  match c with call_ingest r bytes => if bool_decide (r = role) then amount (Some bytes) else 0 | _ => 0 end.

(** The roles that ingest sources and call no model. *)
Definition INGEST_ROLES : list string := ["jira_paste_ingest"; "custom_context_ingest"].

(** The counters of a role say what the calls were. *)
Record counts_calls (role : string) (calls : list recorder_call) (t : usage_tally) : Prop := {
  cc_attempts : ta_attempts t = Z.of_nat (length (primary_attempts role calls));
  cc_successes : ta_successes t = how_many succeeded (primary_attempts role calls);
  cc_failures : ta_failures t = how_many (negb ∘ succeeded) (primary_attempts role calls);
  cc_input : ta_inputTokens t = sum_of tokens_read (primary_attempts role calls);
  cc_output : ta_outputTokens t = sum_of tokens_written (primary_attempts role calls);
  cc_images : ta_imageBytes t = sum_of (amount ∘ ob_imageBytes) (primary_attempts role calls);
  cc_fallback : ta_fallbackAttempts t = how_many ob_fallback (primary_attempts role calls);
  cc_smoke : ta_liveSmokeCalls t = how_many ob_liveSmoke (primary_attempts role calls);
  cc_hits : ta_cacheHits t = how_many (is_hit role) calls;
  cc_misses : ta_cacheMisses t = how_many (is_miss role) calls;
  cc_ingest : role ∈ INGEST_ROLES → ta_ingestBytes t = sum_of (ingested role) calls;
}.

Lemma primary_attempts_app role l l' :
  primary_attempts role (l ++ l') = primary_attempts role l ++ primary_attempts role l'.
Proof. apply omap_app. Qed.

(** One call, and then a run. *)
Lemma call_counts role c : counts_calls role [c] (call_tally role c).
Proof.
  destruct c as [o|source state d|r source d|r|source|r bytes|r u|source u|rule r ob th]; try (by split).
  - assert (Hp : primary_attempts role [call_attempt o] =
      if bool_decide (ob_role o = role) && negb (ob_audit o) then [o] else []).
    { unfold primary_attempts. cbn. by destruct (_ && _). }
    cbn [call_tally]. destruct (_ && _); [|by split; rewrite ?Hp].
    unfold attempt_tally. destruct (ob_result o) as [input output reason|e] eqn:E; split; rewrite ?Hp, ?how_many_single;
      cbn; unfold succeeded, tokens_read, tokens_written; rewrite ?E, ?amount_spec, ?Z.add_0_r; done.
  - cbn [call_tally]. split; cbn; try (by destruct (bool_decide _)).
    rewrite how_many_single. cbn. by case_bool_decide.
  - cbn [call_tally]. split; cbn; try (by destruct (bool_decide _)).
    rewrite how_many_single. cbn. by case_bool_decide.
  - cbn [call_tally]. split; cbn; try (by destruct (bool_decide _)). intros _.
    rewrite amount_spec. case_bool_decide; cbn; lia.
Qed.

Lemma ledger_counts role calls : counts_calls role calls (ledger role calls).
Proof.
  induction calls as [|c calls IH] using rev_ind; [by split|]. rewrite ledger_snoc.
  destruct IH, (call_counts role c). split; rewrite ?primary_attempts_app, ?length_app, ?how_many_app, ?sum_of_app;
    cbn [usage_add ta_attempts ta_successes ta_failures ta_inputTokens ta_outputTokens ta_imageBytes ta_fallbackAttempts
         ta_liveSmokeCalls ta_cacheHits ta_cacheMisses ta_ingestBytes]; try lia.
  intros Hr. rewrite cc_ingest0, cc_ingest1 by done. done.
Qed.

(** C34. The recorder counts its calls. Whatever calls are made, in any order and whether
    they throw or not, exactly the known roles have counters, and those of a role say
    what the calls for it were: as many attempts, successes, failures, fallback and live
    attempts as there are attempts of each kind that are not audits, the sums of the
    tokens read and written and of the image bytes of those attempts, the cache hits and
    misses, and for a role that ingests sources the sum of its bytes (sums that are safe
    integers, which doubles add exactly). *)
Theorem recorder_is_its_ledger `{Redactor} (rates : gmap string FinOpsCostRate) calls role :
  match rc_roles (record_all rates calls new_recorder) !! role with
  | Some a => role ∈ ALLOWED_FINOPS_ROLES ∧ counts_calls role calls (ra_tally a)
  | None => role ∉ ALLOWED_FINOPS_ROLES
  end.
Proof.
  pose proof (record_all_tallies rates calls role) as Ht.
  destruct (rc_roles (record_all rates calls new_recorder) !! role) as [a|]; cbn in Ht; case_bool_decide as Hr; try done.
  split; [done|]. injection Ht as ->. apply ledger_counts.
Qed.

(** What a source is charged. After any calls the tokens, hits and calls of a
    source are those of the accepted calls that name it, audit attempts
    included, except that its calls are counted from the last breaker decision
    on; its cost is the price of all its tokens and counted calls at the rate of
    the last attempt, and nothing after a breaker decision. *)
Theorem source_is_its_ledger `{Redactor} (rates : gmap string FinOpsCostRate) calls s :
  counted (foldl (count_call rates s) no_counts calls) (entry s (record_all rates calls new_recorder)).
Proof. apply record_all_counted. Qed.
