(* ===== verification/FinOpsReport.v ===== *)
(** * The FinOps budget report

    The report half of [packages/model-gateway/src/finops-report.ts], and
    [finalizePerSourceCostBreakdown] of per-source-cost.ts: finished usage,
    totals, breaches, outcome and the Figma audits. The text of a breach
    message, the constant fields and the file that is written are not modelled. *)

From Stdlib Require Import Qminmax Sorted.
From S2P Require Import Prelude JsList JsString JsValue FinOpsBudget FinOpsRecorder.

(** ** Finished usage *)

Record FinOpsRoleUsage := {
  ru_role : string;
  ru_route : route;
  ru_tally : usage_tally;
  ru_lastFinishReason : option string;
  ru_lastErrorClass : option string;
  ru_estimatedCost : Q;
}.

Definition computeRoleCost (t : usage_tally) (rate : option FinOpsCostRate) : Q :=
  match rate with
  | None => 0
  | Some rate => round6 (priced rate (ta_inputTokens t) (ta_outputTokens t) (ta_attempts t))
  end.

Definition finalizeAccumulator (role : string) (a : RoleAccumulator) (rate : option FinOpsCostRate) :
    FinOpsRoleUsage :=
  {| ru_role := role; ru_route := ra_route a; ru_tally := ra_tally a;
     ru_lastFinishReason := ra_lastFinishReason a; ru_lastErrorClass := ra_lastErrorClass a;
     ru_estimatedCost := computeRoleCost (ra_tally a) rate |}.

(** [accumulators[role]] of a known role is always there. *)
Definition snapshot (rates : gmap string FinOpsCostRate) (r : recorder) : list FinOpsRoleUsage :=
  (λ role, finalizeAccumulator role (default createRoleAccumulator (rc_roles r !! role)) (rates !! role))
    <$> ALLOWED_FINOPS_ROLES.

(** ** Finished sources *)

Definition finalize_entry (e : MutablePerSourceCostEntry) : MutablePerSourceCostEntry :=
  {| se_costMinorUnits := se_costMinorUnits e; se_tokensIn := se_tokensIn e; se_tokensOut := se_tokensOut e;
     se_callCount := se_callCount e; se_inFlightDedupHits := se_inFlightDedupHits e;
     se_idempotentReplayHits := se_idempotentReplayHits e; se_attemptIds := se_attemptIds e;
     se_circuitBreakerStates := se_circuitBreakerStates e;
     se_route := {| rt_deployment := nonempty (rt_deployment (se_route e));
                    rt_modelRevision := nonempty (rt_modelRevision (se_route e));
                    rt_tierLabel := rt_tierLabel (se_route e) |};
     se_constrainedDecoding := se_constrainedDecoding e;
     se_regionAttestation :=
       (λ s, {| rs_distinctRegions := js_sort String.compare (rs_distinctRegions s);
                rs_attestedCallCount := rs_attestedCallCount s;
                rs_warningCount := rs_warningCount s |}) <$> se_regionAttestation e |}.

Definition source_labels (entries : gmap string MutablePerSourceCostEntry) : list string :=
  js_sort String.compare (set_of (STATIC_AGENT_SOURCE_LABELS ++ (map_to_list entries).*1)).

(** The entries in label order, the total cost and the total calls. *)
Definition finalizePerSourceCostBreakdown (entries : gmap string MutablePerSourceCostEntry) :
    list (string * MutablePerSourceCostEntry) * Z * Z :=
  foldl (λ acc label,
      let '(bySource, cost, calls) := acc in
      let e := default createEmptyPerSourceCostEntry (entries !! label) in
      (bySource ++ [(label, finalize_entry e)], cost + se_costMinorUnits e, calls + se_callCount e))
    ([], 0, 0) (source_labels entries).

(** ** Totals *)

Record FinOpsTotals := {
  to_tally : usage_tally;
  to_estimatedCost : Q;
  to_replayCacheHitRate : Q;
  to_replayCacheMissRate : Q;
  to_promptCacheHitRate : Q;
  to_promptCacheMissRate : Q;
}.

(** [round6(Math.min(1, Math.max(0, rate)))] *)
Definition clamped_rate (rate : Q) : Q := round6 (Qmin 1 (Qmax 0 rate)).

(** The totals have no [ingestBytes]. *)
Definition aggregateTotals (usages : list FinOpsRoleUsage) : FinOpsTotals :=
  let t := foldl (λ t u, usage_add t (ru_tally u)) zero_tally usages in
  let estimatedCost := foldl (λ c u, c + ru_estimatedCost u)%Q 0%Q usages in
  let lookups := ta_cacheHits t + ta_cacheMisses t in
  let share n := if lookups =? 0 then 0%Q else (inject_Z n / inject_Z lookups)%Q in
  {| to_tally := t; to_estimatedCost := round6 estimatedCost;
     to_replayCacheHitRate := clamped_rate (share (ta_cacheHits t));
     to_replayCacheMissRate := clamped_rate (share (ta_cacheMisses t));
     to_promptCacheHitRate := clamped_rate (share (ta_cacheHits t));
     to_promptCacheMissRate := clamped_rate (share (ta_cacheMisses t)) |}.

(** ** Breaches *)

(** [if (limit !== undefined && observed > limit) breaches.push(...)] *)
Definition breach_if (rule : string) (role : option string) (observed : Q) (limit : option jsnum) :
    list FinOpsBudgetBreach :=
  match limit with
  | Some limit =>
      if Number.ltb limit (Fin observed)
      then [{| br_rule := rule; br_role := role; br_observed := observed; br_threshold := limit |}]
      else []
  | None => []
  end.

Definition detect_role_breaches (role : string) (budget : FinOpsRoleBudget) (t : usage_tally) :
    list FinOpsBudgetBreach :=
  breach_if "max_total_input_tokens" (Some role) (inject_Z (ta_inputTokens t)) (budget !! "maxTotalInputTokens")
  ++ breach_if "max_total_output_tokens" (Some role) (inject_Z (ta_outputTokens t)) (budget !! "maxTotalOutputTokens")
  ++ breach_if "max_total_wall_clock_ms" (Some role) (ta_durationMs t) (budget !! "maxTotalWallClockMs")
  ++ breach_if "max_attempts" (Some role) (inject_Z (ta_attempts t)) (budget !! "maxAttempts")
  ++ breach_if "max_fallback_attempts" (Some role) (inject_Z (ta_fallbackAttempts t)) (budget !! "maxFallbackAttempts")
  ++ breach_if "max_live_smoke_calls" (Some role) (inject_Z (ta_liveSmokeCalls t)) (budget !! "maxLiveSmokeCalls").

(** A [Map] from the usages keeps the last one of a role. *)
Definition detectBreaches (envelope : FinOpsBudgetEnvelope) (usages : list FinOpsRoleUsage)
    (totals : FinOpsTotals) : list FinOpsBudgetBreach :=
  let t := to_tally totals in
  breach_if "max_total_wall_clock_ms" None (ta_durationMs t) (fe_maxJobWallClockMs envelope)
  ++ (if 0 <? ta_cacheHits t + ta_cacheMisses t
      then breach_if "max_replay_cache_miss_rate" None (to_replayCacheMissRate totals)
             (fe_maxReplayCacheMissRate envelope)
      else [])
  ++ breach_if "max_estimated_cost" None (to_estimatedCost totals) (fe_maxEstimatedCost envelope)
  ++ (ALLOWED_FINOPS_ROLES ≫= λ role,
        match role_budget role envelope, find_by ru_role role (reverse usages) with
        | Some budget, Some usage => detect_role_breaches role budget (ru_tally usage)
        | _, _ => []
        end).

(** [ruleOrder.get(rule) ?? Number.MAX_SAFE_INTEGER] *)
Definition rule_order (rule : string) : Z :=
  match list_find (rule =.) ALLOWED_FINOPS_BUDGET_BREACH_REASONS with
  | Some (i, _) => Z.of_nat i
  | None => Number.MAX_SAFE_INTEGER
  end.

Definition breach_cmp : FinOpsBudgetBreach → FinOpsBudgetBreach → comparison :=
  cmp_then (cmp_on (rule_order ∘ br_rule) Z.compare)
    (cmp_then (cmp_on (default "" ∘ br_role) String.compare) (cmp_on br_observed Qcompare)).

Definition sortBreaches (breaches : list FinOpsBudgetBreach) : list FinOpsBudgetBreach :=
  js_sort breach_cmp breaches.

Definition deriveOutcome (breaches : list FinOpsBudgetBreach) (totals : FinOpsTotals) : string :=
  if (0 <? length breaches)%nat then "budget_exceeded"
  else if (ta_attempts (to_tally totals) =? 0) && (0 <? ta_cacheHits (to_tally totals))
  then "completed_cache_hit"
  else "completed".

(** ** The Figma audits *)

Record figma_payload := {
  fp_resolvedCapBytes : jsnum;
  fp_actualBytes : jsnum;
  fp_defaultCapBytes : jsnum;
  fp_ceilingBytes : jsnum;
  fp_overrideApplied : bool;
}.

Record SnapshotVaultProvenanceSummary := {
  sv_sourceKind : string;
  sv_snapshotIdHash : string;
  sv_snapshotDigest : string;
  sv_nodeIndexDigest : string;
  sv_importStatusDigest : string;
  sv_previewManifestDigest : option string;
  sv_fileKeyHash : string;
  sv_sourceUrlHash : string;
  sv_importedAt : string;
  sv_importStrategy : string;
  sv_scopeDigestAlgorithm : string;
  sv_scopeDigest : string;
  sv_selectedNodeCount : jsnum;
  sv_selectedPageCount : jsnum;
  sv_selectedFrameCount : jsnum;
  sv_selectedNodeRefHashes : list string;
  sv_selectedPageRefHashes : list string;
  sv_selectedFrameRefHashes : list string;
}.

Record FigmaSourceAuditSummary := {
  fa_acquisitionMode : string;
  fa_liveFigmaRestCallCount : jsnum;
  fa_avoidedLiveFigmaRestCallCount : jsnum;
  fa_snapshotReuse : bool;
  fa_snapshotVault : option SnapshotVaultProvenanceSummary;
}.

(** The [RangeError]s name what was refused. *)
Inductive ReportError : Type :=
| empty_input (field : string)
| not_a_count (field : string)
| not_a_hash (field : string)
| bad_acquisition (what : string).

(** [value !== undefined ? { field: check(value) } : {}] *)
Definition when_supplied {A B} (check : A → outcome ReportError B) (value : option A) :
    outcome ReportError (option B) :=
  match value with None => Ok None | Some v => outcome_map Some (check v) end.

Definition assert_count (field : string) (value : jsnum) : outcome ReportError jsnum :=
  if not_natural value then Throw (not_a_count field) else Ok value.

Definition assertSha256Hex (field value : string) : outcome ReportError string :=
  if isHex64 value then Ok value else Throw (not_a_hash field).

Definition cloneSnapshotHashArray (field : string) (values : list string) : outcome ReportError (list string) :=
  if forallb isHex64 values then Ok values else Throw (not_a_hash field).

Definition sanitizeFigmaPayloadAudit (p : figma_payload) : outcome ReportError figma_payload :=
  (let* resolved := assert_count "resolvedCapBytes" (fp_resolvedCapBytes p) in
   let* actual := assert_count "actualBytes" (fp_actualBytes p) in
   let* cap := assert_count "defaultCapBytes" (fp_defaultCapBytes p) in
   let* ceiling := assert_count "ceilingBytes" (fp_ceilingBytes p) in
   Ok {| fp_resolvedCapBytes := resolved; fp_actualBytes := actual; fp_defaultCapBytes := cap;
         fp_ceilingBytes := ceiling; fp_overrideApplied := fp_overrideApplied p |})%outcome.

Definition sanitize_snapshot_vault (v : SnapshotVaultProvenanceSummary) :
    outcome ReportError SnapshotVaultProvenanceSummary :=
  (let* snapshotIdHash := assertSha256Hex "snapshotIdHash" (sv_snapshotIdHash v) in
   let* snapshotDigest := assertSha256Hex "snapshotDigest" (sv_snapshotDigest v) in
   let* nodeIndexDigest := assertSha256Hex "nodeIndexDigest" (sv_nodeIndexDigest v) in
   let* importStatusDigest := assertSha256Hex "importStatusDigest" (sv_importStatusDigest v) in
   let* previewManifestDigest :=
     when_supplied (assertSha256Hex "previewManifestDigest") (sv_previewManifestDigest v) in
   let* fileKeyHash := assertSha256Hex "fileKeyHash" (sv_fileKeyHash v) in
   let* sourceUrlHash := assertSha256Hex "sourceUrlHash" (sv_sourceUrlHash v) in
   let* scopeDigest := assertSha256Hex "scopeDigest" (sv_scopeDigest v) in
   let* nodes := assert_count "selectedNodeCount" (sv_selectedNodeCount v) in
   let* pages := assert_count "selectedPageCount" (sv_selectedPageCount v) in
   let* frames := assert_count "selectedFrameCount" (sv_selectedFrameCount v) in
   let* nodeHashes := cloneSnapshotHashArray "selectedNodeRefHashes" (sv_selectedNodeRefHashes v) in
   let* pageHashes := cloneSnapshotHashArray "selectedPageRefHashes" (sv_selectedPageRefHashes v) in
   let* frameHashes := cloneSnapshotHashArray "selectedFrameRefHashes" (sv_selectedFrameRefHashes v) in
   Ok {| sv_sourceKind := sv_sourceKind v; sv_snapshotIdHash := snapshotIdHash;
         sv_snapshotDigest := snapshotDigest; sv_nodeIndexDigest := nodeIndexDigest;
         sv_importStatusDigest := importStatusDigest; sv_previewManifestDigest := previewManifestDigest;
         sv_fileKeyHash := fileKeyHash; sv_sourceUrlHash := sourceUrlHash;
         sv_importedAt := sv_importedAt v; sv_importStrategy := sv_importStrategy v;
         sv_scopeDigestAlgorithm := sv_scopeDigestAlgorithm v; sv_scopeDigest := scopeDigest;
         sv_selectedNodeCount := nodes; sv_selectedPageCount := pages; sv_selectedFrameCount := frames;
         sv_selectedNodeRefHashes := nodeHashes; sv_selectedPageRefHashes := pageHashes;
         sv_selectedFrameRefHashes := frameHashes |})%outcome.

(** [count === hashes.length] *)
Definition counts (count : jsnum) (hashes : list string) : bool :=
  Number.eqb count (num (Z.of_nat (length hashes))).

Definition ACQUISITION_MODES : list string := ["live_figma_url"; "snapshot_vault"; "offline_figma_payload"].

Definition sanitizeFigmaSourceAudit (a : FigmaSourceAuditSummary) :
    outcome ReportError FigmaSourceAuditSummary :=
  let vault := fa_snapshotVault a in
  let has_vault := bool_decide (is_Some vault) in
  (guard_throw (negb (bool_decide (fa_acquisitionMode a ∈ ACQUISITION_MODES)))
     (bad_acquisition "acquisitionMode") ;;;
   (if bool_decide (fa_acquisitionMode a = "snapshot_vault")
    then guard_throw (negb (fa_snapshotReuse a) || negb has_vault) (bad_acquisition "snapshot reuse provenance")
    else guard_throw (fa_snapshotReuse a || has_vault) (bad_acquisition "snapshotVault provenance")) ;;;
   match vault with
   | None => Ok tt
   | Some v =>
       guard_throw (bool_decide (sv_sourceKind v ≠ "figma_snapshot_vault")
                    || bool_decide (sv_scopeDigestAlgorithm v ≠ "sha256_canonical_selection_v1")
                    || bool_decide (sv_importedAt v = "") || bool_decide (sv_importStrategy v = ""))
         (bad_acquisition "snapshotVault metadata") ;;;
       guard_throw (negb (counts (sv_selectedNodeCount v) (sv_selectedNodeRefHashes v))
                    || negb (counts (sv_selectedPageCount v) (sv_selectedPageRefHashes v))
                    || negb (counts (sv_selectedFrameCount v) (sv_selectedFrameRefHashes v)))
         (bad_acquisition "selected reference counts")
   end ;;;
   let* live := assert_count "liveFigmaRestCallCount" (fa_liveFigmaRestCallCount a) in
   let* avoided := assert_count "avoidedLiveFigmaRestCallCount" (fa_avoidedLiveFigmaRestCallCount a) in
   let* vault := when_supplied sanitize_snapshot_vault vault in
   Ok {| fa_acquisitionMode := fa_acquisitionMode a; fa_liveFigmaRestCallCount := live;
         fa_avoidedLiveFigmaRestCallCount := avoided; fa_snapshotReuse := fa_snapshotReuse a;
         fa_snapshotVault := vault |})%outcome.

(** ** The report *)

Record BuildFinOpsBudgetReportInput := {
  bi_jobId : string;
  bi_generatedAt : string;
  bi_budget : FinOpsBudgetEnvelope;
  bi_recorder : recorder;
  bi_recorderRates : gmap string FinOpsCostRate;  (** the rates the recorder was made with *)
  bi_resolvedBudget : option ResolvedFinOpsWallClockBudget;
  bi_currencyLabel : option string;               (** of [costRates], when they are supplied *)
  bi_outcomeOverride : option string;
  bi_figmaPayload : option figma_payload;
  bi_figmaSourceAudit : option FigmaSourceAuditSummary;
}.

Record FinOpsBudgetReport := {
  rp_jobId : string;
  rp_generatedAt : string;
  rp_budget : FinOpsBudgetEnvelope;
  rp_resolvedBudget : option ResolvedFinOpsWallClockBudget;
  rp_currencyLabel : option string;
  rp_roles : list FinOpsRoleUsage;
  rp_bySource : list (string * MutablePerSourceCostEntry);
  rp_bySourceTotal : Z * Z;
  rp_bySourceSealedAt : string;
  rp_regionAttestation : option region_summary;
  rp_figmaPayload : option figma_payload;
  rp_figmaSourceAudit : option FigmaSourceAuditSummary;
  rp_totals : FinOpsTotals;
  rp_breaches : list FinOpsBudgetBreach;
  rp_outcome : string;
}.

Definition sum_by {A} (f : A → Z) (l : list A) : Z := foldl (λ n x, n + f x) 0 l.

Definition merge_regions (bySource : list (string * MutablePerSourceCostEntry)) : option region_summary :=
  match omap (se_regionAttestation ∘ snd) bySource with
  | [] => None
  | entries =>
      Some {| rs_distinctRegions := js_sort String.compare (set_of (entries ≫= rs_distinctRegions));
              rs_attestedCallCount := sum_by rs_attestedCallCount entries;
              rs_warningCount := sum_by rs_warningCount entries |}
  end.

Section report.
Context `{Redactor}.

Definition sanitizeBudgetEnvelope (input : FinOpsBudgetEnvelope) : FinOpsBudgetEnvelope :=
  let cloned := cloneFinOpsBudgetEnvelope input in
  {| fe_budgetId := sanitizeReportString (fe_budgetId cloned);
     fe_budgetVersion := sanitizeReportString (fe_budgetVersion cloned);
     fe_maxJobWallClockMs := fe_maxJobWallClockMs cloned;
     fe_maxReplayCacheMissRate := fe_maxReplayCacheMissRate cloned;
     fe_maxEstimatedCost := fe_maxEstimatedCost cloned; fe_roles := fe_roles cloned;
     fe_sourceQuotas := fe_sourceQuotas cloned |}.

Definition buildFinOpsBudgetReport (input : BuildFinOpsBudgetReportInput) :
    outcome ReportError FinOpsBudgetReport :=
  (guard_throw (bool_decide (bi_jobId input = "")) (empty_input "jobId") ;;;
   guard_throw (bool_decide (bi_generatedAt input = "")) (empty_input "generatedAt") ;;;
   let sortedUsages := js_sort (cmp_on ru_role String.compare)
                         (snapshot (bi_recorderRates input) (bi_recorder input)) in
   let totals := aggregateTotals sortedUsages in
   let '(bySource, cost, calls) := finalizePerSourceCostBreakdown (rc_sources (bi_recorder input)) in
   let breaches := sortBreaches (detectBreaches (bi_budget input) sortedUsages totals
                                 ++ rc_breaches (bi_recorder input)) in
   let* figmaPayload := when_supplied sanitizeFigmaPayloadAudit (bi_figmaPayload input) in
   let* figmaSourceAudit := when_supplied sanitizeFigmaSourceAudit (bi_figmaSourceAudit input) in
   Ok {| rp_jobId := bi_jobId input; rp_generatedAt := bi_generatedAt input;
         rp_budget := sanitizeBudgetEnvelope (bi_budget input);
         rp_resolvedBudget := bi_resolvedBudget input;
         rp_currencyLabel := sanitizeReportString <$> bi_currencyLabel input;
         rp_roles := sortedUsages; rp_bySource := bySource; rp_bySourceTotal := (cost, calls);
         rp_bySourceSealedAt := bi_generatedAt input;
         rp_regionAttestation := merge_regions bySource; rp_figmaPayload := figmaPayload;
         rp_figmaSourceAudit := figmaSourceAudit; rp_totals := totals; rp_breaches := breaches;
         rp_outcome := default (deriveOutcome breaches totals) (bi_outcomeOverride input) |})%outcome.
End report.

(** ** Order *)

#[export] Instance Qcompare_ok : CmpOk Qcompare.
Proof.
  split.
  - intros x. by apply Qeq_alt.
  - intros x y. unfold Qcompare. apply Z.compare_antisym.
  - intros x y z. rewrite <- !Qle_alt. apply Qle_trans.
Qed.

#[export] Instance breach_cmp_ok : CmpOk breach_cmp.
Proof. apply _. Qed.

(** ** Usage of a run *)

Definition usage_of (rates : gmap string FinOpsCostRate) (r : recorder) (role : string) : FinOpsRoleUsage :=
  finalizeAccumulator role (default createRoleAccumulator (rc_roles r !! role)) (rates !! role).

Definition SORTED_ROLES : list string :=
  ["custom_context_ingest"; "jira_api_requests"; "jira_paste_ingest"; "test_generation";
   "visual_fallback"; "visual_primary"].

Lemma sorted_snapshot rates r :
  js_sort (cmp_on ru_role String.compare) (snapshot rates r) = usage_of rates r <$> SORTED_ROLES.
Proof. reflexivity. Qed.

Lemma elem_of_sorted_roles role : role ∈ SORTED_ROLES ↔ role ∈ ALLOWED_FINOPS_ROLES.
Proof. unfold SORTED_ROLES, ALLOWED_FINOPS_ROLES. set_solver. Qed.

Lemma find_usage rates r role :
  role ∈ ALLOWED_FINOPS_ROLES →
  find_by ru_role role (reverse (usage_of rates r <$> SORTED_ROLES)) = Some (usage_of rates r role).
Proof. revert role. apply Forall_forall. by repeat constructor. Qed.

Lemma usage_ledger `{Redactor} rates calls role :
  role ∈ ALLOWED_FINOPS_ROLES →
  ru_tally (usage_of rates (record_all rates calls new_recorder) role) = ledger role calls.
Proof.
  intros Hr. pose proof (record_all_tallies rates calls role) as Ht.
  rewrite bool_decide_eq_true_2 in Ht by done. unfold usage_of. simpl.
  destruct (rc_roles _ !! role); naive_solver.
Qed.

(** ** What a breach is *)

(** The aggregate limits of a role: the rule, the field and the counter. *)
Definition ROLE_LIMITS : list (string * string * (usage_tally → Q)) :=
  [("max_total_input_tokens", "maxTotalInputTokens", inject_Z ∘ ta_inputTokens);
   ("max_total_output_tokens", "maxTotalOutputTokens", inject_Z ∘ ta_outputTokens);
   ("max_total_wall_clock_ms", "maxTotalWallClockMs", ta_durationMs);
   ("max_attempts", "maxAttempts", inject_Z ∘ ta_attempts);
   ("max_fallback_attempts", "maxFallbackAttempts", inject_Z ∘ ta_fallbackAttempts);
   ("max_live_smoke_calls", "maxLiveSmokeCalls", inject_Z ∘ ta_liveSmokeCalls)].

(** [L] is the usage per role; a limit that is reached exactly is respected. *)
Inductive exceeds (e : FinOpsBudgetEnvelope) (L : string → usage_tally) (totals : FinOpsTotals) :
    FinOpsBudgetBreach → Prop :=
| exceeds_role role budget rule field counter limit :
    role ∈ ALLOWED_FINOPS_ROLES → role_budget role e = Some budget →
    (rule, field, counter) ∈ ROLE_LIMITS → budget !! field = Some limit →
    Number.ltb limit (Fin (counter (L role))) = true →
    exceeds e L totals {| br_rule := rule; br_role := Some role; br_observed := counter (L role);
                          br_threshold := limit |}
| exceeds_wall_clock limit :
    fe_maxJobWallClockMs e = Some limit →
    Number.ltb limit (Fin (ta_durationMs (to_tally totals))) = true →
    exceeds e L totals {| br_rule := "max_total_wall_clock_ms"; br_role := None;
                          br_observed := ta_durationMs (to_tally totals); br_threshold := limit |}
| exceeds_miss_rate limit :
    0 < ta_cacheHits (to_tally totals) + ta_cacheMisses (to_tally totals) →
    fe_maxReplayCacheMissRate e = Some limit →
    Number.ltb limit (Fin (to_replayCacheMissRate totals)) = true →
    exceeds e L totals {| br_rule := "max_replay_cache_miss_rate"; br_role := None;
                          br_observed := to_replayCacheMissRate totals; br_threshold := limit |}
| exceeds_cost limit :
    fe_maxEstimatedCost e = Some limit →
    Number.ltb limit (Fin (to_estimatedCost totals)) = true →
    exceeds e L totals {| br_rule := "max_estimated_cost"; br_role := None;
                          br_observed := to_estimatedCost totals; br_threshold := limit |}.

Lemma elem_of_breach_if br rule role observed limit :
  br ∈ breach_if rule role observed limit ↔
  ∃ l, limit = Some l ∧ Number.ltb l (Fin observed) = true ∧
       br = {| br_rule := rule; br_role := role; br_observed := observed; br_threshold := l |}.
Proof.
  unfold breach_if. split.
  - destruct limit as [l|]; [|by intros ?%elem_of_nil].
    destruct (Number.ltb l (Fin observed)) eqn:E; [|by intros ?%elem_of_nil].
    intros ->%list_elem_of_singleton. eauto.
  - intros (l & -> & -> & ->). by apply list_elem_of_singleton.
Qed.

(** The six tests of a role are the table of its limits. *)
Lemma detect_role_breaches_table role budget t :
  detect_role_breaches role budget t =
  ROLE_LIMITS ≫= λ '(rule, field, counter), breach_if rule (Some role) (counter t) (budget !! field).
Proof. unfold detect_role_breaches. simpl. by rewrite app_nil_r. Qed.

Lemma elem_of_detect_role br role budget t :
  br ∈ detect_role_breaches role budget t ↔
  ∃ rule field counter limit, (rule, field, counter) ∈ ROLE_LIMITS ∧ budget !! field = Some limit ∧
    Number.ltb limit (Fin (counter t)) = true ∧
    br = {| br_rule := rule; br_role := Some role; br_observed := counter t; br_threshold := limit |}.
Proof.
  rewrite detect_role_breaches_table, list_elem_of_bind. split.
  - intros ([[rule field] counter] & Hbr & Hin). apply elem_of_breach_if in Hbr as (l & ? & ? & ->). eauto 10.
  - intros (rule & field & counter & l & ? & ? & ? & ->). exists (rule, field, counter).
    split; [|done]. apply elem_of_breach_if. eauto.
Qed.

(** The detected breaches are the exceeded limits. *)
Lemma elem_of_detectBreaches br e rates r totals :
  br ∈ detectBreaches e (usage_of rates r <$> SORTED_ROLES) totals ↔
  exceeds e (λ role, ru_tally (usage_of rates r role)) totals br.
Proof.
  unfold detectBreaches. rewrite !elem_of_app, !elem_of_breach_if, list_elem_of_bind. split.
  - intros [(l & ? & ? & ->)|[Hm|[(l & ? & ? & ->)|(role & Hbr & Hrole)]]].
    + by apply exceeds_wall_clock.
    + destruct (0 <? _) eqn:E; [|by apply elem_of_nil in Hm].
      apply elem_of_breach_if in Hm as (l & ? & ? & ->). apply Z.ltb_lt in E. by apply exceeds_miss_rate.
    + by apply exceeds_cost.
    + rewrite find_usage in Hbr by done.
      destruct (role_budget role e) as [b|] eqn:Hb; [|by apply elem_of_nil in Hbr].
      apply elem_of_detect_role in Hbr as (rule & field & counter & l & ? & ? & ? & ->).
      by eapply (exceeds_role e (λ role, ru_tally (usage_of rates r role))).
  - intros [role b rule field counter l Hrole Hb Hin Hl Hlt|l Hl Hlt|l Hpos Hl Hlt|l Hl Hlt].
    + right; right; right. exists role. rewrite find_usage, Hb by done. split; [|done].
      apply elem_of_detect_role. eauto 10.
    + left. eauto.
    + right; left. rewrite (proj2 (Z.ltb_lt _ _) Hpos). apply elem_of_breach_if. eauto.
    + right; right; left. eauto.
Qed.

Lemma exceeds_ledger e (L L' : string → usage_tally) totals br :
  (∀ role, role ∈ ALLOWED_FINOPS_ROLES → L role = L' role) → exceeds e L totals br → exceeds e L' totals br.
Proof.
  intros HL [role b rule field counter l Hrole Hb Hin Hl Hlt|l ? ?|l ? ? ?|l ? ?]; [|by constructor..].
  rewrite HL in * by done. by eapply (exceeds_role e L').
Qed.

(** ** Reading a built report *)

Section built.
Context `{Redactor} (rates : gmap string FinOpsCostRate) (calls : list recorder_call).

(** The totals of the run of [calls]. *)
Definition run_totals : FinOpsTotals :=
  aggregateTotals (usage_of rates (record_all rates calls new_recorder) <$> SORTED_ROLES).

(** The input reports the run of [calls]. *)
Definition reports_run (input : BuildFinOpsBudgetReportInput) : Prop :=
  bi_recorder input = record_all rates calls new_recorder ∧ bi_recorderRates input = rates.

Lemma built_report input rep :
  reports_run input → buildFinOpsBudgetReport input = Ok rep →
  let r := record_all rates calls new_recorder in
  rp_roles rep = usage_of rates r <$> SORTED_ROLES ∧
  rp_totals rep = run_totals ∧
  (rp_bySource rep, (rp_bySourceTotal rep).1, (rp_bySourceTotal rep).2) =
    finalizePerSourceCostBreakdown (rc_sources r) ∧
  rp_breaches rep =
    sortBreaches (detectBreaches (bi_budget input) (usage_of rates r <$> SORTED_ROLES) run_totals
                  ++ rc_breaches r) ∧
  rp_outcome rep = default (deriveOutcome (rp_breaches rep) run_totals) (bi_outcomeOverride input).
Proof.
  intros [Hr Hrates] Hb. unfold buildFinOpsBudgetReport in Hb.
  rewrite Hr, Hrates, sorted_snapshot in Hb. fold run_totals in Hb.
  apply outcome_then_Ok in Hb as [_ Hb]. apply outcome_then_Ok in Hb as [_ Hb].
  destruct (finalizePerSourceCostBreakdown _) as [[bySource cost] n] eqn:E.
  apply outcome_bind_Ok in Hb as (fp & _ & Hb). apply outcome_bind_Ok in Hb as (fa & _ & Hb).
  injection Hb as <-. intros r. unfold r. by rewrite E.
Qed.

Lemma elem_of_report_breaches input rep br :
  reports_run input → buildFinOpsBudgetReport input = Ok rep →
  br ∈ rp_breaches rep ↔
  exceeds (bi_budget input) (λ role, ledger role calls) run_totals br ∨ br ∈ rc_breaches (bi_recorder input).
Proof.
  intros Hrun Hb. destruct (built_report input rep Hrun Hb) as (_ & _ & _ & -> & _).
  destruct Hrun as [-> _]. unfold sortBreaches.
  rewrite elem_of_js_sort, elem_of_app, elem_of_detectBreaches.
  assert (∀ role, role ∈ ALLOWED_FINOPS_ROLES →
    ru_tally (usage_of rates (record_all rates calls new_recorder) role) = ledger role calls) as HL
    by (intros; by apply usage_ledger).
  split; (intros [?|?]; [left|by right]); (eapply exceeds_ledger; [|done]); intros; [|symmetry]; by apply HL.
Qed.

(** The totals add up the ledgers of the roles. *)
Lemma run_totals_tally :
  to_tally run_totals = foldl (λ t role, usage_add t (ledger role calls)) zero_tally SORTED_ROLES.
Proof.
  unfold run_totals. cbn [aggregateTotals to_tally SORTED_ROLES list_fmap fmap foldl].
  by rewrite !usage_ledger by (by apply elem_of_sorted_roles; repeat constructor).
Qed.
End built.

(** ** Sources *)

(** What the fold over the labels collects. *)
Lemma finalize_sources entries :
  let pick label := default createEmptyPerSourceCostEntry (entries !! label) in
  finalizePerSourceCostBreakdown entries =
  ((λ label, (label, finalize_entry (pick label))) <$> source_labels entries,
   sum_by (se_costMinorUnits ∘ pick) (source_labels entries),
   sum_by (se_callCount ∘ pick) (source_labels entries)).
Proof.
  intros pick. unfold finalizePerSourceCostBreakdown, sum_by. generalize (source_labels entries) as labels.
  intros labels. induction labels as [|label labels IH] using rev_ind; [done|].
  by rewrite !foldl_app, IH, fmap_app.
Qed.

Lemma sum_by_app {A} (f : A → Z) l x : sum_by f (l ++ [x]) = sum_by f l + f x.
Proof. unfold sum_by. by rewrite foldl_app. Qed.

Lemma sum_by_fmap {A B} (f : B → Z) (g : A → B) l : sum_by f (g <$> l) = sum_by (f ∘ g) l.
Proof.
  induction l as [|x l IH] using rev_ind; [done|].
  rewrite fmap_app. change (g <$> [x]) with [g x]. by rewrite !sum_by_app, IH.
Qed.

Lemma elem_of_source_labels entries label :
  label ∈ source_labels entries ↔ label ∈ STATIC_AGENT_SOURCE_LABELS ∨ is_Some (entries !! label).
Proof.
  unfold source_labels. rewrite elem_of_js_sort, elem_of_set_of, elem_of_app.
  apply or_iff_compat_l. rewrite list_elem_of_fmap. split.
  - intros ([k e] & -> & He%elem_of_map_to_list). by exists e.
  - intros [e He]. exists (label, e). by rewrite elem_of_map_to_list.
Qed.

Lemma source_labels_NoDup entries : NoDup (source_labels entries).
Proof. apply NoDup_js_sort, NoDup_set_of. Qed.

(** ** Zero usage *)

Lemma round6_zero q : (q == 0)%Q → (round6 q == 0)%Q.
Proof.
  intros Hq. unfold round6, math_round.
  rewrite (Qfloor_comp _ (1 # 2)); [reflexivity|]. rewrite Hq. reflexivity.
Qed.

Lemma priced_zero rate : (priced rate 0 0 0 == 0)%Q.
Proof. unfold priced, Qdiv. change (inject_Z 0) with 0%Q. ring. Qed.

(** A usage without an attempt. *)
Record unused (t : usage_tally) : Prop := {
  un_attempts : ta_attempts t = 0;
  un_input : ta_inputTokens t = 0;
  un_output : ta_outputTokens t = 0;
  un_images : ta_imageBytes t = 0;
  un_fallback : ta_fallbackAttempts t = 0;
  un_smoke : ta_liveSmokeCalls t = 0;
  un_duration : (ta_durationMs t == 0)%Q;
}.

Lemma tally_unused t : tally_ok t → ta_attempts t = 0 → unused t.
Proof.
  intros Ht Ha. destruct (tk_no_attempt t Ht Ha).
  pose proof (tk_split t Ht). pose proof (tk_successes t Ht). pose proof (tk_failures t Ht).
  pose proof (tk_fallback t Ht). pose proof (tk_smoke t Ht).
  destruct (tk_no_success t Ht); [lia|]. split; (lia || done).
Qed.

Lemma computeRoleCost_unused t rate : unused t → (computeRoleCost t rate == 0)%Q.
Proof.
  intros Ht. unfold computeRoleCost. destruct rate as [rate|]; [|reflexivity].
  apply round6_zero. rewrite (un_attempts t Ht), (un_input t Ht), (un_output t Ht). apply priced_zero.
Qed.

Lemma foldl_cost_zero (us : list FinOpsRoleUsage) c :
  Forall (λ u, (ru_estimatedCost u == 0)%Q) us → (c == 0)%Q →
  (foldl (λ c u, c + ru_estimatedCost u) c us == 0)%Q.
Proof.
  intros Hall. revert c. induction Hall as [|u us Hu _ IH]; intros c Hc; [done|].
  simpl. apply IH. rewrite Hc, Hu. reflexivity.
Qed.

(** No attempt in all means no attempt in any role. *)
Lemma run_totals_unused `{Redactor} rates calls role :
  ta_attempts (to_tally (run_totals rates calls)) = 0 → role ∈ ALLOWED_FINOPS_ROLES →
  unused (ledger role calls).
Proof.
  intros Ha Hrole. apply tally_unused; [apply ledger_ok|].
  rewrite run_totals_tally in Ha. cbn -[ledger] in Ha.
  assert (∀ r, 0 ≤ ta_attempts (ledger r calls)) as Hn.
  { intros r. pose proof (tk_fallback _ (ledger_ok r calls)). lia. }
  pose proof (Hn "custom_context_ingest"). pose proof (Hn "jira_api_requests").
  pose proof (Hn "jira_paste_ingest"). pose proof (Hn "test_generation").
  pose proof (Hn "visual_fallback"). pose proof (Hn "visual_primary").
  revert role Hrole. apply Forall_forall. unfold ALLOWED_FINOPS_ROLES.
  repeat (apply Forall_cons; split; [lia|]). constructor.
Qed.

Lemma run_cost_unused `{Redactor} rates calls :
  ta_attempts (to_tally (run_totals rates calls)) = 0 → (to_estimatedCost (run_totals rates calls) == 0)%Q.
Proof.
  intros Ha. unfold run_totals, aggregateTotals. cbn [to_estimatedCost].
  apply round6_zero, foldl_cost_zero; [|reflexivity].
  apply Forall_fmap, Forall_forall. intros role Hrole. apply computeRoleCost_unused.
  apply elem_of_sorted_roles in Hrole.
  change (unused (ru_tally (usage_of rates (record_all rates calls new_recorder) role))).
  rewrite usage_ledger by done. by eapply run_totals_unused.
Qed.

(** The bytes a role ingested play no part in the breaches. *)
Lemma ingest_is_not_checked role budget t bytes :
  detect_role_breaches role budget (usage_add t (cache_tally 0 0 bytes)) = detect_role_breaches role budget t.
Proof.
  unfold detect_role_breaches, usage_add, cache_tally. simpl. by rewrite !Z.add_0_r, Qplus_0_r_eq.
Qed.

(** ** What the Figma audit accepts *)

Definition hashes (v : SnapshotVaultProvenanceSummary) : list string :=
  [sv_snapshotIdHash v; sv_snapshotDigest v; sv_nodeIndexDigest v; sv_importStatusDigest v]
  ++ option_list (sv_previewManifestDigest v)
  ++ [sv_fileKeyHash v; sv_sourceUrlHash v; sv_scopeDigest v]
  ++ sv_selectedNodeRefHashes v ++ sv_selectedPageRefHashes v ++ sv_selectedFrameRefHashes v.

(** The stated number is the length of the list. *)
Definition counted_by (count : jsnum) (refs : list string) : Prop :=
  counts count refs = true ∧ not_natural count = false.

Record vault_ok (v : SnapshotVaultProvenanceSummary) : Prop := {
  vo_kind : sv_sourceKind v = "figma_snapshot_vault";
  vo_algorithm : sv_scopeDigestAlgorithm v = "sha256_canonical_selection_v1";
  vo_imported : sv_importedAt v ≠ "";
  vo_strategy : sv_importStrategy v ≠ "";
  vo_hashes : Forall (λ h, isHex64 h = true) (hashes v);
  vo_nodes : counted_by (sv_selectedNodeCount v) (sv_selectedNodeRefHashes v);
  vo_pages : counted_by (sv_selectedPageCount v) (sv_selectedPageRefHashes v);
  vo_frames : counted_by (sv_selectedFrameCount v) (sv_selectedFrameRefHashes v);
}.

Record audit_ok (a : FigmaSourceAuditSummary) : Prop := {
  ao_mode : fa_acquisitionMode a ∈ ACQUISITION_MODES;
  ao_reuse : fa_snapshotReuse a = true ↔ fa_acquisitionMode a = "snapshot_vault";
  ao_vault : is_Some (fa_snapshotVault a) ↔ fa_acquisitionMode a = "snapshot_vault";
  ao_live : not_natural (fa_liveFigmaRestCallCount a) = false;
  ao_avoided : not_natural (fa_avoidedLiveFigmaRestCallCount a) = false;
  ao_vault_ok v : fa_snapshotVault a = Some v → vault_ok v;
}.

Lemma assert_count_Ok field v w : assert_count field v = Ok w ↔ w = v ∧ not_natural v = false.
Proof. unfold assert_count. destruct (not_natural v); naive_solver. Qed.

Lemma assertSha256Hex_Ok field v w : assertSha256Hex field v = Ok w ↔ w = v ∧ isHex64 v = true.
Proof. unfold assertSha256Hex. destruct (isHex64 v); naive_solver. Qed.

Lemma cloneSnapshotHashArray_Ok field vs ws :
  cloneSnapshotHashArray field vs = Ok ws ↔ ws = vs ∧ Forall (λ h, isHex64 h = true) vs.
Proof.
  unfold cloneSnapshotHashArray. rewrite Forall_forall. destruct (forallb isHex64 vs) eqn:E.
  - rewrite forallb_forall in E. setoid_rewrite list_elem_of_In. naive_solver.
  - split; [done|]. intros [_ Hall]. apply not_true_iff_false in E. exfalso. apply E, forallb_forall.
    intros x Hx%list_elem_of_In. by apply Hall.
Qed.

Lemma when_supplied_Ok {A} (check : A → outcome ReportError A) (P : A → Prop) v w :
  (∀ x y, check x = Ok y ↔ y = x ∧ P x) →
  when_supplied check v = Ok w ↔ w = v ∧ Forall P (option_list v).
Proof.
  intros Hc. destruct v as [x|]; simpl; [|naive_solver].
  unfold outcome_map. rewrite outcome_bind_Ok, Forall_singleton. setoid_rewrite Hc. naive_solver.
Qed.

(** One checked field after another. *)
Ltac read_checks H :=
  repeat (let x := fresh "x" in let Hx := fresh "Hx" in apply outcome_bind_Ok in H as (x & Hx & H);
          first [ apply assertSha256Hex_Ok in Hx | apply assert_count_Ok in Hx
                | apply cloneSnapshotHashArray_Ok in Hx
                | apply (when_supplied_Ok _ (λ h, isHex64 h = true)) in Hx;
                  [|intros; apply assertSha256Hex_Ok] ];
          destruct Hx as [-> Hx]).

Definition natural_counts (v : SnapshotVaultProvenanceSummary) : Prop :=
  not_natural (sv_selectedNodeCount v) = false ∧ not_natural (sv_selectedPageCount v) = false ∧
  not_natural (sv_selectedFrameCount v) = false.

Lemma sanitize_snapshot_vault_Ok v w :
  sanitize_snapshot_vault v = Ok w ↔ w = v ∧ Forall (λ h, isHex64 h = true) (hashes v) ∧ natural_counts v.
Proof.
  unfold sanitize_snapshot_vault. split.
  - intros Hs. read_checks Hs. injection Hs as <-. split; [by destruct v|]. split; [|by split].
    unfold hashes. rewrite !Forall_app. repeat constructor; done.
  - intros (-> & Hh & Hn & Hp & Hf). unfold hashes in Hh. rewrite !Forall_app, !Forall_cons in Hh.
    destruct Hh as ((H1 & H2 & H3 & H4 & _) & H5 & (H6 & H7 & H8 & _) & H9 & H10 & H11).
    unfold assertSha256Hex at 1 2 3 4 6 7 8. rewrite H1, H2, H3, H4, H6, H7, H8. simpl.
    rewrite (proj2 (when_supplied_Ok _ (λ h, isHex64 h = true) _ (sv_previewManifestDigest v)
      (λ x y, assertSha256Hex_Ok _ x y))) by done. simpl.
    unfold assert_count. rewrite Hn, Hp, Hf. simpl.
    rewrite !(proj2 (cloneSnapshotHashArray_Ok _ _ _)) by done. by destruct v.
Qed.

(** The two checks of the stored provenance that come before its fields. *)
Lemma vault_checks_Ok v :
  (guard_throw (bool_decide (sv_sourceKind v ≠ "figma_snapshot_vault")
                || bool_decide (sv_scopeDigestAlgorithm v ≠ "sha256_canonical_selection_v1")
                || bool_decide (sv_importedAt v = "") || bool_decide (sv_importStrategy v = ""))
     (bad_acquisition "snapshotVault metadata") ;;;
   guard_throw (negb (counts (sv_selectedNodeCount v) (sv_selectedNodeRefHashes v))
                || negb (counts (sv_selectedPageCount v) (sv_selectedPageRefHashes v))
                || negb (counts (sv_selectedFrameCount v) (sv_selectedFrameRefHashes v)))
     (bad_acquisition "selected reference counts"))%outcome = Ok tt ↔
  (sv_sourceKind v = "figma_snapshot_vault" ∧ sv_scopeDigestAlgorithm v = "sha256_canonical_selection_v1" ∧
   sv_importedAt v ≠ "" ∧ sv_importStrategy v ≠ "") ∧
  counts (sv_selectedNodeCount v) (sv_selectedNodeRefHashes v) = true ∧
  counts (sv_selectedPageCount v) (sv_selectedPageRefHashes v) = true ∧
  counts (sv_selectedFrameCount v) (sv_selectedFrameRefHashes v) = true.
Proof.
  rewrite outcome_then_Ok, !guard_throw_Ok, !orb_false_iff, !bool_decide_eq_false, !negb_false_iff.
  split.
  - intros [[[[Hk Ha] Hi] Hs] [[Hn Hp] Hf]]. split_and!; try done; by apply dec_stable.
  - intros [(Hk & Ha & Hi & Hs) (Hn & Hp & Hf)]. split_and!; try done; tauto.
Qed.

(** The acquisition mode goes with the provenance. *)
Lemma provenance_Ok a :
  (if bool_decide (fa_acquisitionMode a = "snapshot_vault")
   then guard_throw (negb (fa_snapshotReuse a) || negb (bool_decide (is_Some (fa_snapshotVault a))))
          (bad_acquisition "snapshot reuse provenance")
   else guard_throw (fa_snapshotReuse a || bool_decide (is_Some (fa_snapshotVault a)))
          (bad_acquisition "snapshotVault provenance")) = Ok tt ↔
  (fa_snapshotReuse a = true ↔ fa_acquisitionMode a = "snapshot_vault") ∧
  (is_Some (fa_snapshotVault a) ↔ fa_acquisitionMode a = "snapshot_vault").
Proof.
  case_bool_decide as Hm; rewrite guard_throw_Ok, orb_false_iff, ?negb_false_iff,
    ?bool_decide_eq_true, ?bool_decide_eq_false; [tauto|].
  rewrite <- not_true_iff_false. tauto.
Qed.

(** ** Concrete runs *)

Definition plain_redactor : Redactor := {| redactHighRiskSecrets input _ := input |}.

Definition sample_attempt (source : option string) (tokens : Z) (audit : bool) : FinOpsAttemptObservation :=
  {| ob_role := "test_generation"; ob_source := source; ob_attemptId := None;
     ob_route := {| rt_deployment := Some "gpt-oss-120b"; rt_modelRevision := None; rt_tierLabel := None |};
     ob_durationMs := num 40; ob_imageBytes := None; ob_liveSmoke := false; ob_fallback := false;
     ob_circuitBreakerState := None; ob_region := None; ob_regionWarning := false;
     ob_result := gateway_success (Some (num tokens)) (Some (num 7)) "stop";
     ob_constrainedDecoding := None; ob_audit := audit |}.

(** Two generations and one judge call. *)
Definition sample_calls : list recorder_call :=
  [call_cache_miss "test_generation"; call_attempt (sample_attempt (Some "generator") 600 false);
   call_attempt (sample_attempt (Some "judge_primary") 900 true);
   call_attempt (sample_attempt (Some "generator") 500 false)].

Definition cached_calls : list recorder_call := [call_cache_hit "test_generation" (Some "generator") None].

Definition sample_budget : FinOpsBudgetEnvelope :=
  {| fe_budgetId := "team"; fe_budgetVersion := "1"; fe_maxJobWallClockMs := Some (num 80);
     fe_maxReplayCacheMissRate := None; fe_maxEstimatedCost := None;
     fe_roles := [("test_generation", limits [("maxTotalInputTokens", 1000); ("maxAttempts", 2)])];
     fe_sourceQuotas := None |}.

Definition sample_input (calls : list recorder_call) : BuildFinOpsBudgetReportInput :=
  let _ := plain_redactor in
  {| bi_jobId := "job-1"; bi_generatedAt := "2026-01-01T00:00:00Z"; bi_budget := sample_budget;
     bi_recorder := record_all ∅ calls new_recorder; bi_recorderRates := ∅; bi_resolvedBudget := None;
     bi_currencyLabel := None; bi_outcomeOverride := None; bi_figmaPayload := None;
     bi_figmaSourceAudit := None |}.

Lemma deriveOutcome_cache_hit brs totals :
  deriveOutcome brs totals = "completed_cache_hit" →
  brs = [] ∧ ta_attempts (to_tally totals) = 0 ∧ 0 < ta_cacheHits (to_tally totals).
Proof.
  unfold deriveOutcome. destruct brs as [|br brs]; simpl; [|done].
  destruct (_ && _) eqn:E; [|done]. intros _. by apply andb_true_iff in E as [Ha%Z.eqb_eq Hh%Z.ltb_lt].
Qed.

(** ** Properties *)

(** The report lists exactly the exceeded limits. For a report of any run of
    calls, a breach is listed iff it is one the recorder was told of or an
    aggregate limit of the envelope that the sums of the recorded calls exceed
    strictly; the breaches stand in rule, role and amount order, and unless the
    caller overrides it the outcome is [budget_exceeded] iff there is one. *)
Theorem report_breaches_exact `{Redactor} rates calls input rep :
  reports_run rates calls input → buildFinOpsBudgetReport input = Ok rep →
  (∀ br, br ∈ rp_breaches rep ↔
     exceeds (bi_budget input) (λ role, ledger role calls) (run_totals rates calls) br ∨
     br ∈ rc_breaches (bi_recorder input)) ∧
  StronglySorted (cmp_le breach_cmp) (rp_breaches rep) ∧
  (bi_outcomeOverride input = None →
     (rp_outcome rep = "budget_exceeded" ↔ ∃ br, br ∈ rp_breaches rep)).
Proof.
  intros Hrun Hb. split; [intros br; by apply elem_of_report_breaches|].
  destruct (built_report rates calls input rep Hrun Hb) as (_ & _ & _ & Hbr & Ho). split.
  - rewrite Hbr. apply js_sort_sorted, _.
  - intros Hov. rewrite Ho, Hov. simpl. unfold deriveOutcome.
    destruct (rp_breaches rep) as [|br brs]; simpl.
    + split; [by case_match|]. by intros [br ?%elem_of_nil].
    + split; [|done]. exists br. constructor.
Qed.

Example report_breaches_exact_witness :
  ∃ rep, @buildFinOpsBudgetReport plain_redactor (sample_input sample_calls) = Ok rep ∧
         br_rule <$> rp_breaches rep = ["max_total_input_tokens"] ∧ rp_outcome rep = "budget_exceeded" ∧
         ∃ br, br ∈ rp_breaches rep.
Proof.
  eexists. split; [vm_compute; reflexivity|]. split; [reflexivity|]. split; [reflexivity|].
  apply (@report_breaches_exact plain_redactor ∅ sample_calls (sample_input sample_calls));
    [by split|vm_compute; reflexivity|reflexivity|reflexivity].
Defined.

(** A job that was answered from the cache used nothing. When the outcome is
    [completed_cache_hit] and not the caller's, no role made an attempt, spent a
    token, an image byte or any time, the estimated cost is zero, and some role
    had a cache hit. *)
Theorem cache_hit_report_used_nothing `{Redactor} rates calls input rep :
  reports_run rates calls input → buildFinOpsBudgetReport input = Ok rep →
  bi_outcomeOverride input = None → rp_outcome rep = "completed_cache_hit" →
  (∀ role, role ∈ ALLOWED_FINOPS_ROLES → unused (ledger role calls)) ∧
  (to_estimatedCost (rp_totals rep) == 0)%Q ∧ rp_breaches rep = [] ∧
  0 < ta_cacheHits (foldl (λ t role, usage_add t (ledger role calls)) zero_tally SORTED_ROLES).
Proof.
  intros Hrun Hb Hov. destruct (built_report rates calls input rep Hrun Hb) as (_ & -> & _ & _ & ->).
  rewrite Hov. intros (-> & Ha & Hh)%deriveOutcome_cache_hit. rewrite run_totals_tally in Hh.
  split_and!; [|by apply run_cost_unused|done|exact Hh].
  intros role. by apply (run_totals_unused rates).
Qed.

Example cache_hit_report_used_nothing_witness :
  ∃ rep, @buildFinOpsBudgetReport plain_redactor (sample_input cached_calls) = Ok rep ∧
         rp_outcome rep = "completed_cache_hit" ∧ (to_estimatedCost (rp_totals rep) == 0)%Q.
Proof.
  eexists. split; [vm_compute; reflexivity|]. split; [reflexivity|].
  apply (@cache_hit_report_used_nothing plain_redactor ∅ cached_calls (sample_input cached_calls));
    [by split|vm_compute; reflexivity|reflexivity|reflexivity].
Defined.

(** The report is complete and its totals add up. It lists each role once, in
    order, with the sums of its calls; every agent source once, in order, the
    fixed ones whether they were used or not; and the totals are the sums over
    the listed roles and over the listed sources. *)
Theorem report_is_complete `{Redactor} rates calls input rep :
  reports_run rates calls input → buildFinOpsBudgetReport input = Ok rep →
  (λ u, (ru_role u, ru_tally u)) <$> rp_roles rep = (λ role, (role, ledger role calls)) <$> SORTED_ROLES ∧
  to_tally (rp_totals rep) = foldl (λ t role, usage_add t (ledger role calls)) zero_tally SORTED_ROLES ∧
  StronglySorted (cmp_le String.compare) ((rp_bySource rep).*1) ∧ NoDup ((rp_bySource rep).*1) ∧
  (∀ label, label ∈ (rp_bySource rep).*1 ↔
     label ∈ STATIC_AGENT_SOURCE_LABELS ∨ is_Some (rc_sources (bi_recorder input) !! label)) ∧
  rp_bySourceTotal rep =
    (sum_by (se_costMinorUnits ∘ snd) (rp_bySource rep), sum_by (se_callCount ∘ snd) (rp_bySource rep)).
Proof.
  intros Hrun Hb. destruct (built_report rates calls input rep Hrun Hb) as (-> & -> & Hs & _ & _).
  destruct Hrun as [-> _]. rewrite finalize_sources in Hs. injection Hs as -> Hc Hn.
  split; [|split; [apply run_totals_tally|]].
  - rewrite <- list_fmap_compose. apply list_fmap_ext. intros i role Hi%list_elem_of_lookup_2. simpl.
    f_equal. apply usage_ledger. by apply elem_of_sorted_roles.
  - rewrite <- list_fmap_compose. change (fst ∘ _) with (@id string). rewrite list_fmap_id.
    split_and!; [apply js_sort_sorted, _|apply source_labels_NoDup|apply elem_of_source_labels|].
    rewrite !sum_by_fmap. destruct (rp_bySourceTotal rep). simpl in *. by rewrite Hc, Hn.
Qed.

Example report_is_complete_witness :
  ∃ rep, @buildFinOpsBudgetReport plain_redactor (sample_input sample_calls) = Ok rep ∧
         rp_bySourceTotal rep = (0, 3) ∧ NoDup ((rp_bySource rep).*1).
Proof.
  eexists. split; [vm_compute; reflexivity|]. split; [reflexivity|].
  apply (@report_is_complete plain_redactor ∅ sample_calls (sample_input sample_calls));
    [by split|vm_compute; reflexivity].
Defined.

(** What Figma provenance a report carries. The audit is accepted iff its mode
    is known, reuse and provenance are present exactly in snapshot mode, the two
    call counts are natural numbers, and the provenance names its kind and
    algorithm, has an import time and strategy, only SHA-256 hashes, and as many
    references of each kind as it states; what is accepted is kept unchanged. *)
Theorem figma_audit_exact a b :
  sanitizeFigmaSourceAudit a = Ok b ↔ b = a ∧ audit_ok a.
Proof.
  unfold sanitizeFigmaSourceAudit.
  rewrite !outcome_then_Ok, provenance_Ok, guard_throw_Ok, negb_false_iff, bool_decide_eq_true.
  split.
  - intros (Hm & [Hr Hv] & Hc & H). read_checks H.
    apply outcome_bind_Ok in H as (vault & Hvault & H).
    apply (when_supplied_Ok _ _ _ _ sanitize_snapshot_vault_Ok) in Hvault as [-> Hvault].
    injection H as <-. split; [by destruct a|]. split; try done.
    intros v E. rewrite E in Hc, Hvault. apply vault_checks_Ok in Hc as ((? & ? & ? & ?) & ? & ? & ?).
    apply Forall_singleton in Hvault as [? (? & ? & ?)]. by repeat split.
  - intros [-> [Hm Hr Hv Hlive Havoided Hok]]. split; [done|]. split; [done|]. split.
    + destruct (fa_snapshotVault a) as [v|]; [|done]. destruct (Hok v eq_refl) as [? ? ? ? ? [] [] []].
      by apply vault_checks_Ok.
    + unfold assert_count. rewrite Hlive, Havoided. simpl.
      rewrite (proj2 (when_supplied_Ok _ _ _ (fa_snapshotVault a) sanitize_snapshot_vault_Ok)); [by destruct a|].
      split; [done|]. destruct (fa_snapshotVault a) as [v|]; [|constructor].
      destruct (Hok v eq_refl) as [? ? ? ? ? [] [] []]. by apply Forall_singleton.
Qed.
