(* ===== verification/ReviewStoreProps.v ===== *)
(** * Review store: what the operations guarantee

    The properties of the store over every directory its operations can
    produce: separation of duty, the audit log, the frame of a transition and
    of a refresh, and the approval of a case that waits for its second
    reviewer.
    Scenarios at the end: concrete directories, and what the store does with them. *)

From S2P Require Import Prelude JsString JsList JsValue Contracts ReviewStateMachine.
From S2P Require Import FourEyesPolicy PolicyConflicts ReviewStore ReviewStoreOps ReviewStoreInv ReviewPersistence.

Section lemmas.
Context `{LocaleCompare}.

(** ** Inversion of accepted operations *)

Lemma recordTransition_Ok d input eventId ev sn' ws :
  recordTransition d input eventId = (Ok (ev, sn'), ws) →
  ∃ kind en sn,
    @parse_label ReviewEventKind _ (rt_kind input) = Some kind ∧
    dir_events d = Some en ∧ dir_snapshot d = Some sn ∧
    ws = [WriteEvents (append_event en ev); WriteSnapshot sn'] ∧
    transition_effects input eventId kind en sn = Ok (ev, sn', append_event en ev).
Proof.
  unfold recordTransition.
  destruct (outcome_bind _ _) as [[[ev0 sn0] en']|] eqn:E; [|done]. intros [= -> -> <-].
  apply outcome_bind_Ok in E as (_ & _ & E). apply outcome_bind_Ok in E as (_ & _ & E).
  destruct (parse_label _) as [kind|]; [|done].
  apply outcome_bind_Ok in E as ([en|] & Hen & E); [|done].
  apply readEnvelope_Some in Hen.
  unfold readSnapshotInternal in E. destruct (dir_snapshot d) as [sn|] eqn:Hsn; [|done].
  pose proof E as E'.
  apply transition_effects_Ok in E' as (entry & to & _ & _ & _ & _ & -> & _).
  by exists kind, en, sn.
Qed.

Lemma with_entries_same_keys en sn entries :
  snap_inv en sn → rs_testCaseId <$> entries = rs_testCaseId <$> rg_perTestCase sn →
  rg_perTestCase (with_entries sn entries) = entries.
Proof. intros Hs Hk. eapply js_sort_same_keys; [by eapply sv_sorted|done]. Qed.

(** An accepted transition on a case replaces that case's entry in place. *)
Lemma transition_effects_entries input eventId kind en sn ev sn' en' :
  snap_inv en sn → transition_effects input eventId kind en sn = Ok (ev, sn', en') →
  match rt_testCaseId input with
  | None => rg_perTestCase sn' = rg_perTestCase sn
  | Some id => ∃ e to,
      find_by rs_testCaseId id (rg_perTestCase sn) = Some e ∧
      applyFourEyesRefusals (rt_actor input) (resolveEventKind kind (Some e)) (Some e) = None ∧
      transitionReviewState (rs_state e) (resolveEventKind kind (Some e))
        (Some (rs_policyDecision e)) = Ok to ∧
      ev = transition_event input (resolveEventKind kind (Some e)) eventId (rs_state e) to
             (en_nextSequence en) ∧
      rg_perTestCase sn' = replace_by rs_testCaseId id
        (updated_entry input e to eventId (resolveEventKind kind (Some e)))
        (rg_perTestCase sn)
  end.
Proof.
  intros Hs (entry & to & Hf & Hr & Ht & -> & -> & ->)%transition_effects_Ok.
  unfold find_entry in Hf. destruct (rt_testCaseId input) as [id|].
  - destruct (find_by _ _ _) as [e|] eqn:E; simplify_eq.
    apply find_by_Some in E as E'. destruct E' as [_ Hid].
    exists e, to. split_all; try done. rewrite (with_entries_same_keys en); [by rewrite Hid|done|].
    apply replace_by_keys. by destruct (updated_entry_fields input e to eventId
      (resolveEventKind kind (Some e))).
  - case_bool_decide; simplify_eq. by apply (with_entries_same_keys en).
Qed.

Lemma reachable_snapshot jobId d sn :
  reachable jobId d → dir_snapshot d = Some sn →
  ∃ en, dir_events d = Some en ∧ log_inv jobId en ∧ snap_inv en sn.
Proof.
  intros Hd%reachable_inv Hsn. destruct (di_snap _ _ Hd _ Hsn) as (en & Hen & Hs).
  exists en. split; [done|]. split; [by apply (di_log _ _ Hd)|done].
Qed.

Lemma find_by_replace_by id v l x :
  rs_testCaseId v = id → x ∈ replace_by rs_testCaseId id v l → rs_testCaseId x = id → x = v.
Proof. intros Hv [->|[_ Hx]]%elem_of_replace_by Hid; done. Qed.

Lemma enforced_approval_is_secondary kind e to :
  rs_fourEyesEnforced e = true → past_approval (rs_state e) = false →
  transitionReviewState (rs_state e) (resolveEventKind kind (Some e))
    (Some (rs_policyDecision e)) = Ok to →
  past_approval to = true →
  resolveEventKind kind (Some e) = ev_secondary_approved ∧ to = st_approved ∧
  rs_policyDecision e ≠ pd_blocked.
Proof.
  intros Hf Hp [Ht Hb]%transitionReviewState_Ok Hto.
  pose proof Ht as [Hk ->]%past_approval_entered; [|done..].
  specialize (Hb Hk). split; [|split; [done|congruence]]. clear Hb Hto.
  unfold resolveEventKind in *. rewrite Hf in *. simpl in *.
  case_bool_decide as E.
  - destruct kind, (rs_state e); simplify_eq/=; done.
  - destruct (rs_state e); simplify_eq/=; done.
Qed.
(** ** Refresh *)

Lemma add_decision_all known acc l r :
  outcome_foldl (add_decision known) acc l = Ok r → r = acc ++ l.
Proof.
  revert acc; induction l as [|x l IH]; intros acc; simpl; [by rewrite app_nil_r; intros [=]|].
  unfold add_decision at 1. case_match; [done|]. simpl. intros ->%IH. by rewrite <- app_assoc.
Qed.

Lemma changed_entry_id decisions e x :
  changed_entry decisions e = Some x → rs_testCaseId x = rs_testCaseId e.
Proof.
  unfold changed_entry. destruct (find_by _ _ _); [|done]. case_bool_decide; [done|].
  by intros [= <-].
Qed.

Lemma changed_lookup_spec decisions l e :
  NoDup (rs_testCaseId <$> l) → e ∈ l →
  changed_lookup (changed_entries decisions l) (rs_testCaseId e) = changed_entry decisions e.
Proof.
  intros Hnd He. unfold changed_lookup.
  assert (∀ x, x ∈ changed_entries decisions l → rs_testCaseId x = rs_testCaseId e →
               changed_entry decisions e = Some x) as Hx.
  { intros x (e0 & He0 & Hc)%elem_of_changed_entries Hid.
    pose proof (changed_entry_id _ _ _ Hc) as Hid0.
    assert (find_by rs_testCaseId (rs_testCaseId e) l = Some e0) as H1
      by (apply find_by_unique; congruence).
    rewrite (find_by_unique _ _ _ e) in H1 by done. by simplify_eq. }
  destruct (find_by _ _ _) as [x|] eqn:E.
  - apply find_by_Some in E as [Hin Hid]. rewrite elem_of_reverse in Hin. symmetry. auto.
  - destruct (changed_entry decisions e) as [x|] eqn:Ec; [exfalso|done].
    rewrite find_by_None in E. apply (E x); [|by eapply changed_entry_id].
    rewrite elem_of_reverse. apply elem_of_changed_entries. eauto.
Qed.

(** The entry a refresh leaves in place of [e]. *)
Definition refresh_one (decisions : list TestCasePolicyDecisionRecord) (eventId at_ : string)
    (e : ReviewSnapshot) : ReviewSnapshot :=
  match changed_entry decisions e with None => e | Some c => touch_changed eventId at_ c end.

Lemma touch_changed_id eventId at_ c : rs_testCaseId (touch_changed eventId at_ c) = rs_testCaseId c.
Proof. unfold touch_changed. by case_match. Qed.

Lemma refresh_one_id decisions eventId at_ e :
  rs_testCaseId (refresh_one decisions eventId at_ e) = rs_testCaseId e.
Proof.
  unfold refresh_one. destruct (changed_entry _ _) eqn:E; [|done].
  rewrite touch_changed_id. by eapply changed_entry_id.
Qed.

(** The reasons of an entry; an absent list is empty. *)
Definition case_reasons (e : ReviewSnapshot) : list FourEyesEnforcementReason :=
  default [] (rs_fourEyesReasons e).

Lemma refreshed_entry_reasons d e :
  (∀ r, r ∈ case_reasons (refreshed_entry d e) ↔
        if bool_decide (r = fr_multi_source_conflict_present)
        then has_outcome MULTI_SOURCE_CONFLICT d = true else r ∈ case_reasons e) ∧
  (rs_fourEyesEnforced (refreshed_entry d e) = true ↔ case_reasons (refreshed_entry d e) ≠ []).
Proof.
  unfold case_reasons, refreshed_entry. cbn [rs_fourEyesReasons rs_fourEyesEnforced].
  set (rs := if has_outcome MULTI_SOURCE_CONFLICT d then _ else _).
  assert (∀ r, r ∈ rs ↔ if bool_decide (r = fr_multi_source_conflict_present)
    then has_outcome MULTI_SOURCE_CONFLICT d = true
    else r ∈ default [] (rs_fourEyesReasons e)) as Hrs.
  { intros r. unfold rs. case_bool_decide as Er; destruct (has_outcome _ _);
      rewrite ?elem_of_set_add, list_elem_of_filter, elem_of_set_of; naive_solver. }
  assert (∀ r, r ∈ js_sort label_cmp rs ↔ if bool_decide (r = fr_multi_source_conflict_present)
    then has_outcome MULTI_SOURCE_CONFLICT d = true
    else r ∈ default [] (rs_fourEyesReasons e)) as Hsorted.
  { intros r. by rewrite elem_of_js_sort. }
  destruct (js_sort label_cmp rs) as [|x l]; simpl; (split; [done|]); [|done].
  split; [done|]. by intros [].
Qed.

Lemma touch_changed_reasons eventId at_ c :
  case_reasons (touch_changed eventId at_ c) = case_reasons c ∧
  rs_fourEyesEnforced (touch_changed eventId at_ c) = rs_fourEyesEnforced c.
Proof. unfold touch_changed. by case_match. Qed.

Lemma refreshPolicyDecisions_Ok d resolved input eventId res ws sn en :
  dir_snapshot d = Some sn → dir_events d = Some en → snap_inv en sn →
  NoDup (rs_testCaseId <$> rg_perTestCase sn) →
  refreshPolicyDecisions d resolved input eventId = (Ok res, ws) →
  rg_perTestCase (rr_snapshot res) =
    refresh_one (pr_decisions (readConflictAwarePolicy resolved (rp_policy input)))
      eventId (rp_at input) <$> rg_perTestCase sn ∧
  (rr_changedCount res = 0 → ws = []).
Proof.
  intros Hsn Hen Hs Hnd. unfold refreshPolicyDecisions, readEnvelope, readSnapshotInternal.
  rewrite Hsn, Hen. case_bool_decide; simpl; [done|].
  set (policy := readConflictAwarePolicy _ _).
  destruct (guard_throw _ _); simpl; [|done]. destruct (guard_throw _ _); simpl; [|done].
  destruct (outcome_foldl _ _ _) as [decisions|] eqn:Ef; simpl; [|done].
  apply add_decision_all in Ef. simpl in Ef. subst decisions.
  assert (∀ e, e ∈ rg_perTestCase sn →
    match changed_lookup (changed_entries (pr_decisions policy) (rg_perTestCase sn))
            (rs_testCaseId e) with
    | None => e | Some c => touch_changed eventId (rp_at input) c end =
    refresh_one (pr_decisions policy) eventId (rp_at input) e) as Hone.
  { intros e He. unfold refresh_one. by rewrite changed_lookup_spec. }
  case_bool_decide as Ech; intros [= <- <-]; simpl; (split; [|try done]).
  - rewrite <- (list_fmap_id (rg_perTestCase sn)) at 1. apply list_fmap_ext.
    intros i e He%list_elem_of_lookup_2. simpl. rewrite <- Hone by done.
    by rewrite Ech.
  - unfold sortSnapshotEntries. rewrite js_sort_same_keys with (l := rg_perTestCase sn).
    + apply list_fmap_ext. intros i e He%list_elem_of_lookup_2. by apply Hone.
    + by eapply sv_sorted.
    + rewrite <- list_fmap_compose. apply list_fmap_ext. intros i e He%list_elem_of_lookup_2.
      simpl. rewrite Hone by done. apply refresh_one_id.
  - intros Hz. destruct (changed_entries _ _); [done|simpl in Hz; lia].
Qed.
End lemmas.

(** ** Properties *)

Section props.
Context `{LocaleCompare}.

(** C1. Separation of duty: in every directory the store can produce, when an
    event takes a four-eyes case that is not approved into [approved] (or
    beyond), the case was waiting for its second approval, two different
    reviewers with non-empty names approved it, the second one is the actor of
    this event, neither is the last editor, and the policy does not block the
    case. *)
Theorem four_eyes_separation_of_duty jobId d input eventId ev sn sn' ws id e e' :
  reachable jobId d → dir_snapshot d = Some sn →
  recordTransition d input eventId = (Ok (ev, sn'), ws) →
  rt_testCaseId input = Some id →
  find_by rs_testCaseId id (rg_perTestCase sn) = Some e →
  rs_fourEyesEnforced e = true → past_approval (rs_state e) = false →
  e' ∈ rg_perTestCase sn' → rs_testCaseId e' = id → past_approval (rs_state e') = true →
  rs_state e = st_pending_secondary_approval ∧
  re_kind ev = ev_secondary_approved ∧ rs_policyDecision e' ≠ pd_blocked ∧
  ∃ p s, rs_primaryReviewer e' = Some p ∧ rs_secondaryReviewer e' = Some s ∧ p ≠ s ∧
         p ≠ "" ∧ s ≠ "" ∧ rs_primaryReviewer e = Some p ∧ rt_actor input = Some s ∧
         rs_lastEditor e' ≠ Some p ∧ rs_lastEditor e' ≠ Some s.
Proof.
  intros Hd Hsn (kind & en & sn0 & _ & Hen & Hsn0 & _ & Ht)%recordTransition_Ok
    Hid He Hfe Hp He' Hid' Hp'. simplify_eq.
  destruct (reachable_snapshot _ _ _ Hd Hsn) as (en0 & Hen0 & _ & Hs). simplify_eq.
  apply transition_effects_entries in Ht; [|done]. rewrite Hid in Ht.
  destruct Ht as (e0 & to & He0 & Hr & Ht & -> & Hl).
  rewrite He in He0. injection He0 as <-.
  rewrite Hl in He'. apply find_by_Some in He as [Hin Hide].
  pose proof (updated_entry_fields input e to eventId (resolveEventKind kind (Some e))) as [Hk _].
  apply find_by_replace_by in He'; [|congruence|done]. subst e'.
  pose proof Ht as [Hts _]%transitionReviewState_Ok.
  destruct (updated_entry_state input e to eventId _ Hts) as [Hst Hpd].
  rewrite Hst in Hp'.
  destruct (enforced_approval_is_secondary _ _ _ Hfe Hp Ht Hp') as (Ek & -> & Hnb).
  rewrite Ek in *. apply applyFourEyesRefusals_secondary in Hr as (a & Ha & Hne & _ & Hpend & Hpa & Hed & _).
  split; [done|]. split; [done|]. split; [by rewrite Hpd|].
  pose proof (sv_entries _ _ Hs) as Hei. rewrite Forall_forall in Hei.
  specialize (Hei _ Hin). unfold entry_inv in Hei. rewrite Hpend in Hei.
  destruct Hei as (p & Hpr & Hpn & _ & _ & Hep). exists p, a.
  unfold updated_entry, applyEntryEffects. simpl. rewrite Ha. simpl.
  split_all; try done. congruence.
Qed.


(** The log is append-only: once a snapshot exists, whatever operation runs
    next and wherever it is interrupted, the stored events stay a prefix of
    the log. *)
Theorem log_append_only jobId d op k sn en :
  reachable jobId d → op_jobId op = jobId →
  dir_snapshot d = Some sn → dir_events d = Some en →
  ∃ en', dir_events (apply_writes d (take k (op_writes d op))) = Some en' ∧
         en_events en `prefix_of` en_events en' ∧
         (length (en_events en') ≤ S (length (en_events en)))%nat.
Proof.
  intros Hd Hj Hsn Hen.
  assert (op_writes d op = [] ∨
    ∃ ev sn', op_writes d op = [WriteEvents (append_event en ev); WriteSnapshot sn']) as Hw.
  { destruct op as [r i u|i ev|r i ev]; simpl.
    - left. unfold seedSnapshot, readSnapshotInternal. by rewrite Hsn.
    - destruct (recordTransition d i ev) as [[[e0 s0]|] ws] eqn:E.
      + apply recordTransition_Ok in E as (? & ? & ? & _ & ? & _ & -> & _). simplify_eq.
        right. by eexists _, _.
      + left. unfold recordTransition in E. destruct (outcome_bind _ _) as [[[]]|]; by simplify_eq.
    - unfold refreshPolicyDecisions. destruct (outcome_bind _ _) as [[res [en'|]]|] eqn:E; auto.
      right. apply outcome_bind_Ok in E as ([en0|] & Hen0 & E); [|done].
      apply readEnvelope_Some in Hen0. unfold readSnapshotInternal in E. rewrite Hsn in E.
      apply outcome_bind_Ok in E as (_ & _ & E). apply outcome_bind_Ok in E as (_ & _ & E).
      apply outcome_bind_Ok in E as (decisions & _ & E). case_bool_decide; simplify_eq.
      by eexists _, _. }
  destruct Hw as [->|(ev & sn' & ->)].
  - rewrite take_nil. exists en. split; [done|]. split; [done|lia].
  - destruct k as [|k]; simpl.
    + exists en. split; [done|]. split; [done|lia].
    + exists (append_event en ev). split; [destruct k; simpl; by rewrite ?take_nil|].
      simpl. split; [by eexists|]. rewrite length_app. simpl. lia.
Qed.

(** C4. In no reachable snapshot is a case that the policy blocks approved or
    waiting for its second approval. *)
Theorem no_blocked_case_approved jobId d sn e :
  reachable jobId d → dir_snapshot d = Some sn → e ∈ rg_perTestCase sn →
  rs_policyDecision e = pd_blocked →
  rs_state e ≠ st_approved ∧ rs_state e ≠ st_pending_secondary_approval.
Proof.
  intros Hd Hsn He. destruct (reachable_snapshot _ _ _ Hd Hsn) as (en & _ & _ & Hs).
  pose proof (sv_blocked _ _ Hs) as Hb. rewrite Forall_forall in Hb. by apply Hb.
Qed.

(** C3. A recorded transition, accepted or refused. Refused: nothing is
    written. Accepted: the log grows by exactly the returned event, which
    carries the next sequence number, the stored snapshot becomes the returned
    one, a job-level note changes no entry, and an event on a case moves that
    case to the state the event names and leaves every other entry, its
    position included, as it was. *)
Theorem recordTransition_spec jobId d input eventId :
  reachable jobId d →
  (∀ c, (recordTransition d input eventId).1 = Throw c →
     apply_writes d (recordTransition d input eventId).2 = d) ∧
  (∀ ev sn', (recordTransition d input eventId).1 = Ok (ev, sn') → ∃ en sn,
     dir_events d = Some en ∧ dir_snapshot d = Some sn ∧
     apply_writes d (recordTransition d input eventId).2 =
       {| dir_events := Some (append_event en ev); dir_snapshot := Some sn' |} ∧
     re_sequence ev = Z.of_nat (length (en_events en)) + 1 ∧
     re_id ev = eventId ∧ re_at ev = rt_at input ∧ re_actor ev = rt_actor input ∧
     match rt_testCaseId input with
     | None => rg_perTestCase sn' = rg_perTestCase sn
     | Some id => ∃ e e',
         find_by rs_testCaseId id (rg_perTestCase sn) = Some e ∧
         rs_testCaseId e' = id ∧ rs_lastEventId e' = eventId ∧
         re_fromState ev = Some (rs_state e) ∧ re_toState ev = Some (rs_state e') ∧
         rs_policyDecision e' = rs_policyDecision e ∧
         rg_perTestCase sn' =
           (λ x, if bool_decide (rs_testCaseId x = id) then e' else x) <$> rg_perTestCase sn
     end).
Proof.
  intros Hd. split.
  { intros c Hc. unfold recordTransition in *. destruct (outcome_bind _ _) as [[[]]|]; done. }
  intros ev sn' Hr. destruct (recordTransition d input eventId) as [r ws] eqn:E.
  simpl in Hr. subst r.
  apply recordTransition_Ok in E as (kind & en & sn & _ & Hen & Hsn & -> & Ht).
  destruct (reachable_snapshot _ _ _ Hd Hsn) as (en0 & Hen0 & Hl & Hs). simplify_eq.
  exists en, sn. simpl.
  pose proof Ht as (entry & to0 & _ & _ & _ & Hev & _)%transition_effects_Ok.
  split_all; try done; try by rewrite Hev.
  { rewrite Hev. simpl. apply Hl. }
  clear Hev. apply transition_effects_entries in Ht; [|done].
  destruct (rt_testCaseId input) as [id|]; [|done].
  destruct Ht as (e & to & He & _ & Htr & -> & ->).
  pose proof Htr as [Hts _]%transitionReviewState_Ok.
  destruct (updated_entry_state input e to eventId _ Hts) as [Hst Hpd].
  destruct (updated_entry_fields input e to eventId (resolveEventKind kind (Some e))) as [Hk Hlast].
  exists e, (updated_entry input e to eventId (resolveEventKind kind (Some e))).
  apply find_by_Some in He as E2. destruct E2 as [_ Hid].
  split_all; try done; [congruence|]. cbn [re_toState transition_event]. by rewrite Hst.
Qed.

(** C37. An accepted refresh gives every case the decision of its row in the
    (conflict-aware) report and leaves the cases without a row untouched. The
    conflict reason stays or goes with the row, the other reasons stay, and the
    case needs four eyes exactly when a reason is left. A
    case that the report newly blocks goes from approved, pending or edited
    back to review with its approvals dropped; any other case keeps its state
    and its approvals. Nothing is written when no entry changed. *)
Theorem refreshPolicyDecisions_spec jobId d resolved input eventId res ws sn i e :
  reachable jobId d → dir_snapshot d = Some sn →
  NoDup (rs_testCaseId <$> rg_perTestCase sn) →
  refreshPolicyDecisions d resolved input eventId = (Ok res, ws) →
  rg_perTestCase sn !! i = Some e →
  (rr_changedCount res = 0 → ws = []) ∧
  ∃ e', rg_perTestCase (rr_snapshot res) !! i = Some e' ∧
    rs_testCaseId e' = rs_testCaseId e ∧
    (e' = e ∨ rs_lastEventId e' = eventId) ∧
    match find_by pd_testCaseId (rs_testCaseId e)
            (pr_decisions (readConflictAwarePolicy resolved (rp_policy input))) with
    | None => e' = e
    | Some row =>
        rs_policyDecision e' = pd_decision row ∧
        (∀ r, r ∈ case_reasons e' ↔
              if bool_decide (r = fr_multi_source_conflict_present)
              then has_outcome MULTI_SOURCE_CONFLICT row = true else r ∈ case_reasons e) ∧
        (rs_fourEyesEnforced e' = true ↔ case_reasons e' ≠ []) ∧
        if bool_decide (pd_decision row = pd_blocked) && bool_decide (rs_policyDecision e ≠ pd_blocked)
           && bool_decide (rs_state e ∈ [st_approved; st_pending_secondary_approval; st_edited])
        then rs_state e' = st_needs_review ∧ rs_approvers e' = [] ∧ rs_primaryReviewer e' = None
        else pd_decision row ≠ pd_blocked →
             rs_state e' = rs_state e ∧ rs_approvers e' = rs_approvers e
    end.
Proof.
  intros Hd Hsn Hnd Hr Hi. destruct (reachable_snapshot _ _ _ Hd Hsn) as (en & Hen & _ & Hs).
  destruct (refreshPolicyDecisions_Ok _ _ _ _ _ _ _ _ Hsn Hen Hs Hnd Hr) as [Hl Hz].
  split; [done|]. rewrite Hl, list_lookup_fmap, Hi. simpl. eexists. split; [done|].
  split; [apply refresh_one_id|]. unfold refresh_one, changed_entry.
  destruct (find_by _ _ _) as [row|] eqn:Erow; [|split; [by left|done]].
  case_bool_decide as Ech.
  - split; [by left|]. rewrite Ech at 1. split; [done|].
    destruct (refreshed_entry_reasons row e) as [Hrs Hen']. rewrite <- Ech in Hrs, Hen'.
    split; [done|]. split; [done|].
    destruct (_ && _ && _) eqn:Eb; [|done]. exfalso.
    apply andb_prop in Eb as [[Eb1 Eb2]%andb_prop _].
    apply bool_decide_eq_true in Eb1, Eb2. apply Eb2. rewrite Ech. done.
  - split; [right; apply touch_changed_lastEventId|].
    destruct (touch_changed_reasons eventId (rp_at input) (refreshed_entry row e)) as [Hcr Hce].
    rewrite Hcr, Hce. destruct (refreshed_entry_reasons row e) as [Hrs Hen'].
    assert (rs_policyDecision (touch_changed eventId (rp_at input) (refreshed_entry row e)) =
            pd_decision row) as Hdec by (unfold touch_changed; by case_match).
    split; [done|]. split; [done|]. split; [done|]. unfold touch_changed. simpl.
    destruct (decide (pd_decision row = pd_blocked)) as [Eb|Eb].
    + rewrite !(bool_decide_eq_true_2 (pd_decision row = pd_blocked)) by done. simpl.
      destruct (bool_decide (rs_state e ∈ _)); simpl; [|by rewrite andb_false_r].
      by case_match.
    + by rewrite !(bool_decide_eq_false_2 (pd_decision row = pd_blocked)).
Qed.

(** A case waiting for its second approval gets it exactly from an actor
    who is named, within the length limit, and neither its primary reviewer nor
    its last editor. *)
Theorem second_approval_accepted_iff jobId d sn id e p actor at_ eventId :
  reachable jobId d → dir_snapshot d = Some sn →
  find_by rs_testCaseId id (rg_perTestCase sn) = Some e →
  rs_state e = st_pending_secondary_approval → rs_fourEyesEnforced e = true →
  rs_primaryReviewer e = Some p →
  let input := {| rt_jobId := jobId; rt_testCaseId := Some id; rt_kind := "approved";
                  rt_at := at_; rt_actor := actor; rt_note := None; rt_metadata := None |} in
  (∃ r, (recordTransition d input eventId).1 = Ok r) ↔
  ∃ s, actor = Some s ∧ s ≠ "" ∧ Z.of_nat (String.length s) <= ACTOR_MAX_LENGTH ∧
       s ≠ p ∧ rs_lastEditor e ≠ Some s.
Proof.
  intros Hd Hsn He Hst Hfe Hpr input.
  destruct (reachable_snapshot _ _ _ Hd Hsn) as (en & Hen & Hl & Hs).
  pose proof (find_by_Some _ _ _ _ He) as [Hin Hid].
  pose proof (sv_entries _ _ Hs) as Hei. rewrite Forall_forall in Hei.
  pose proof (Hei _ Hin) as Hinv. unfold entry_inv in Hinv. rewrite Hst in Hinv.
  destruct Hinv as (p0 & Hp0 & _ & Hap & Hsr & Hle). rewrite Hpr in Hp0. injection Hp0 as <-.
  pose proof (sv_blocked _ _ Hs) as Hbl. rewrite Forall_forall in Hbl.
  assert (rs_policyDecision e ≠ pd_blocked) as Hnb.
  { intros Hb. by destruct (Hbl _ Hin Hb) as [_ []]. }
  assert (resolveEventKind ev_approved (Some e) = ev_secondary_approved) as Hk.
  { simpl. by rewrite Hfe, Hst. }
  split.
  - intros [[ev sn'] Hr]. destruct (recordTransition d input eventId) as [r ws] eqn:E.
    simpl in Hr. subst r.
    pose proof E as (kind & en0 & sn0 & Hkind & _ & Hsn0 & _ & Ht)%recordTransition_Ok.
    rewrite Hsn in Hsn0. injection Hsn0 as <-. injection Hkind as <-.
    apply transition_effects_Ok in Ht as (entry & to & Hf & Href & _).
    simpl in Hf. rewrite He in Hf. injection Hf as <-.
    rewrite Hk in Href. apply applyFourEyesRefusals_secondary in Href as
      (s & Hs' & Hne & _ & _ & Hps & Hls & _). simpl in Hs'. subst actor.
    exists s. split_all; try done; [|congruence].
    unfold recordTransition in E. simpl in E. destruct (Z.ltb_spec ACTOR_MAX_LENGTH
      (Z.of_nat (String.length s))); [by simplify_eq/=|done].
  - intros (s & -> & Hne & Hlen & Hsp & Hls). unfold recordTransition. simpl.
    destruct (Z.ltb_spec ACTOR_MAX_LENGTH (Z.of_nat (String.length s))); [lia|]. simpl.
    unfold readEnvelope, readSnapshotInternal. rewrite Hen, Hsn.
    rewrite bool_decide_eq_false_2 by (intros E; apply E, Hl). simpl.
    unfold transition_effects. simpl. rewrite He. cbn [outcome_bind].
    change (parse_label "approved") with (Some ev_approved). cbv beta iota.
    rewrite Hk. unfold applyFourEyesRefusals. rewrite Hfe, Hst, Hpr, Hap. simpl.
    rewrite (bool_decide_eq_false_2 (s = "")) by done.
    rewrite (bool_decide_eq_false_2 (Some p = Some s)) by congruence.
    rewrite (bool_decide_eq_false_2 (s ∈ [p])) by set_solver.
    rewrite (bool_decide_eq_false_2 (rs_lastEditor e = Some s)) by done.
    rewrite !andb_false_r. simpl. unfold transitionReviewState. simpl.
    rewrite (bool_decide_eq_false_2 (Some (rs_policyDecision e) = Some pd_blocked)) by congruence.
    simpl. by eexists.
Qed.

(** A case that waits for its second approval when a refresh takes its
    enforcement away can no longer be approved: every approving event is
    refused, whoever sends it, until the case is sent back to review. *)
Theorem unenforced_pending_case_cannot_be_approved d sn id e input eventId :
  dir_snapshot d = Some sn →
  find_by rs_testCaseId id (rg_perTestCase sn) = Some e →
  rs_state e = st_pending_secondary_approval → rs_fourEyesEnforced e = false →
  rt_testCaseId input = Some id →
  rt_kind input ∈ ["approved"; "primary_approved"; "secondary_approved"] →
  ∃ c, recordTransition d input eventId = (Throw c, []).
Proof.
  intros Hsn He Hst Hfe Hid Hk.
  destruct (recordTransition d input eventId) as [[[ev sn']|c] ws] eqn:E.
  - exfalso. apply recordTransition_Ok in E as (kind & en & sn0 & Hkind & _ & Hsn0 & _ & Ht).
    rewrite Hsn in Hsn0. injection Hsn0 as <-.
    apply transition_effects_Ok in Ht as (entry & to & Hf & Href & Htr & _).
    rewrite Hid in Hf. simpl in Hf. rewrite He in Hf. injection Hf as <-.
    apply parse_label_Some in Hkind.
    assert (is_approval_kind kind = true) as Happ.
    { rewrite Hkind in Hk. destruct kind; try done; set_unfold in Hk; simpl in Hk; naive_solver. }
    unfold applyFourEyesRefusals in Href. rewrite Hfe in Href. simpl in Href, Htr.
    rewrite Hst, Hfe in Htr. rewrite Hfe, Hst in Href. by destruct kind.
  - exists c. f_equal. unfold recordTransition in E.
    destruct (outcome_bind _ _) as [[[]]|]; by simplify_eq.
Qed.
End props.

#[local] Existing Instance code_unit_collation.

(** One operation that ran to its end. *)
Definition run_op (d : job_dir) (op : store_op) : job_dir :=
  apply_writes d (take 2 (op_writes d op)).

Lemma run_op_reachable jobId d op :
  reachable jobId d → op_jobId op = jobId → reachable jobId (run_op d op).
Proof. apply reach_op. Qed.

(** ** A four-eyes case, approved twice and then blocked *)

Definition row (id : string) (p : TestCasePolicyDecision)
    (vs : list TestCasePolicyViolation) : TestCasePolicyDecisionRecord :=
  {| pd_testCaseId := id; pd_decision := p; pd_violations := vs |}.

Definition report (rows : list TestCasePolicyDecisionRecord) : TestCasePolicyReport :=
  {| pr_jobId := "job"; pr_policyProfileId := "profile"; pr_policyProfileVersion := "1";
     pr_totalTestCases := Z.of_nat (length rows);
     pr_approvedCount := count_decisions pd_approved rows;
     pr_blockedCount := count_decisions pd_blocked rows;
     pr_needsReviewCount := count_decisions pd_needs_review rows;
     pr_blocked := false; pr_decisions := rows; pr_jobLevelViolations := [] |}.

Definition seed_two (risk : TestCaseRiskCategory) (rows : list TestCasePolicyDecisionRecord) :
    SeedSnapshotInput :=
  {| si_jobId := "job"; si_generatedAt := "t0";
     si_testCases := [ {| tc_id := "tc-2"; tc_riskCategory := rc_low; tc_traceScreenIds := [] |};
                       {| tc_id := "tc-1"; tc_riskCategory := risk; tc_traceScreenIds := [] |} ];
     si_policy := report rows;
     si_fourEyesPolicy := Some EU_BANKING_DEFAULT_FOUR_EYES_POLICY;
     si_visualReport := None |}.

Definition approve (actor : string) : RecordTransitionInput :=
  {| rt_jobId := "job"; rt_testCaseId := Some "tc-1"; rt_kind := "approved"; rt_at := "t1";
     rt_actor := Some actor; rt_note := None; rt_metadata := None |}.

Definition uuids (n : nat) : string := match n with O => "seed-0" | _ => "seed-1" end.

Definition seeded : job_dir :=
  run_op empty_dir (OpSeed None (seed_two rc_high
    [row "tc-1" pd_needs_review []; row "tc-2" pd_approved []]) uuids).
Definition once_approved : job_dir := run_op seeded (OpRecord (approve "zoe") "ev-1").
Definition twice_approved : job_dir := run_op once_approved (OpRecord (approve "adam") "ev-2").

Definition blocking_refresh : RefreshPolicyDecisionsInput :=
  {| rp_jobId := "job"; rp_at := "t3";
     rp_policy := report [row "tc-1" pd_blocked []; row "tc-2" pd_approved []] |}.

Lemma seeded_reachable : reachable "job" seeded.
Proof. apply run_op_reachable; [constructor|reflexivity]. Qed.

Lemma once_approved_reachable : reachable "job" once_approved.
Proof. apply run_op_reachable; [apply seeded_reachable|reflexivity]. Qed.

Lemma twice_approved_reachable : reachable "job" twice_approved.
Proof. apply run_op_reachable; [apply once_approved_reachable|reflexivity]. Qed.

(** The entry of a case in a directory. *)
Definition entry_of (d : job_dir) (id : string) : option ReviewSnapshot :=
  sn ← dir_snapshot d; find_by rs_testCaseId id (rg_perTestCase sn).

Definition the_snapshot (d : job_dir) : ReviewGateSnapshot :=
  default {| rg_jobId := ""; rg_generatedAt := ""; rg_perTestCase := [];
             rg_counts := computeCounts []; rg_fourEyesPolicy := None |} (dir_snapshot d).

Definition the_log (d : job_dir) : PersistedReviewEventsEnvelope :=
  default {| en_jobId := ""; en_events := []; en_nextSequence := 1 |} (dir_events d).

Lemma entry_of_Some d id e :
  entry_of d id = Some e →
  ∃ sn, dir_snapshot d = Some sn ∧ e ∈ rg_perTestCase sn ∧ rs_testCaseId e = id.
Proof.
  unfold entry_of. destruct (dir_snapshot d) as [sn|]; simpl; [|done].
  intros [? ?]%find_by_Some. by exists sn.
Qed.

Lemma four_eyes_separation_of_duty_witness :
  ∃ e', entry_of twice_approved "tc-1" = Some e' ∧ rs_state e' = st_approved ∧
    ∃ p s, rs_primaryReviewer e' = Some p ∧ rs_secondaryReviewer e' = Some s ∧ p ≠ s.
Proof.
  eexists. split; [vm_compute; reflexivity|]. split; [reflexivity|].
  edestruct (four_eyes_separation_of_duty "job" once_approved (approve "adam") "ev-2")
    as (_ & _ & _ & p & s & Hp & Hs & Hne & _);
    [apply once_approved_reachable|vm_compute; reflexivity|vm_compute; reflexivity
    |reflexivity|vm_compute; reflexivity|reflexivity|reflexivity
    |apply list_elem_of_here|reflexivity|reflexivity|].
  exists p, s. auto.
Defined.


(** A crash after the log was written and before the snapshot was. *)
Lemma log_append_only_witness :
  ∃ en', dir_events (apply_writes once_approved
           (take 1 (op_writes once_approved (OpRecord (approve "adam") "ev-2")))) = Some en' ∧
         en_events (the_log once_approved) `prefix_of` en_events en'.
Proof.
  edestruct (log_append_only "job" once_approved (OpRecord (approve "adam") "ev-2") 1
    (the_snapshot once_approved) (the_log once_approved)) as (en' & H1 & H2 & _);
    [apply once_approved_reachable|reflexivity|vm_compute; reflexivity
    |vm_compute; reflexivity|by exists en'].
Defined.

(** Both files of a directory with a twice approved case, read back. *)
Lemma store_files_read_back_witness :
  ∃ v, read_state_file (state_file twice_approved) = Ok (Some v) ∧
       as_snapshot v = Some (the_snapshot twice_approved).
Proof.
  refine (proj2 (store_files_read_back "job" twice_approved twice_approved_reachable _)).
  assert (bool_decide (Forall (λ ev, default ∅ (re_metadata ev) !! CanonicalJson.PROTO = None)
            (en_events (the_log twice_approved))) = true) as Hc by (vm_compute; reflexivity).
  apply bool_decide_eq_true in Hc. rewrite Forall_forall in Hc.
  intros en ev Hen Hev. unfold the_log in Hc. rewrite Hen in Hc. specialize (Hc ev Hev).
  unfold clean_metadata. by destruct (re_metadata ev).
Defined.

Definition blocked : job_dir := run_op twice_approved (OpRefresh None blocking_refresh "ev-3").

Lemma blocked_reachable : reachable "job" blocked.
Proof. apply run_op_reachable; [apply twice_approved_reachable|reflexivity]. Qed.

Lemma no_blocked_case_approved_witness :
  ∃ e, entry_of blocked "tc-1" = Some e ∧ rs_policyDecision e = pd_blocked ∧
       rs_state e ≠ st_approved.
Proof.
  assert (∃ e, entry_of blocked "tc-1" = Some e ∧ rs_policyDecision e = pd_blocked)
    as (e & He & Hb) by (eexists; split; [vm_compute; reflexivity|reflexivity]).
  exists e. split; [exact He|]. split; [exact Hb|].
  destruct (entry_of_Some _ _ _ He) as (sn & Hsn & Hin & _).
  exact (proj1 (no_blocked_case_approved "job" blocked sn e blocked_reachable Hsn Hin Hb)).
Defined.

Lemma recordTransition_spec_witness :
  ∃ ev sn', (recordTransition once_approved (approve "adam") "ev-2").1 = Ok (ev, sn') ∧
    ∃ en, dir_events once_approved = Some en ∧
          re_sequence ev = Z.of_nat (length (en_events en)) + 1.
Proof.
  assert (∃ ev sn', (recordTransition once_approved (approve "adam") "ev-2").1 = Ok (ev, sn'))
    as (ev & sn' & E) by (eexists _, _; vm_compute; reflexivity).
  exists ev, sn'. split; [exact E|].
  destruct (recordTransition_spec "job" once_approved (approve "adam") "ev-2"
    once_approved_reachable) as [_ Hs].
  destruct (Hs ev sn' E) as (en & sn & Hen & _ & _ & Hseq & _). by exists en.
Defined.

Lemma refreshPolicyDecisions_spec_witness :
  ∃ res ws, refreshPolicyDecisions twice_approved None blocking_refresh "ev-3" = (Ok res, ws) ∧
    ∃ e', rg_perTestCase (rr_snapshot res) !! 0%nat = Some e' ∧ rs_policyDecision e' = pd_blocked.
Proof.
  assert (∃ res ws, refreshPolicyDecisions twice_approved None blocking_refresh "ev-3" =
                    (Ok res, ws)) as (res & ws & E) by (eexists _, _; vm_compute; reflexivity).
  exists res, ws. split; [exact E|].
  edestruct (refreshPolicyDecisions_spec "job" twice_approved None blocking_refresh "ev-3"
    res ws (the_snapshot twice_approved) 0%nat) as (_ & e' & He' & _ & _ & Hm);
    [apply twice_approved_reachable|vm_compute; reflexivity
    |apply (bool_decide_unpack _); vm_compute; exact I|exact E|vm_compute; reflexivity|].
  exists e'. split; [exact He'|].
  match type of Hm with match ?f with _ => _ end =>
    assert (Hf : f = Some (row "tc-1" pd_blocked [])) by (vm_compute; reflexivity) end.
  rewrite Hf in Hm. exact (proj1 Hm).
Defined.

Lemma second_approval_accepted_iff_witness :
  (∃ r, (recordTransition once_approved (approve "adam") "ev-2").1 = Ok r) ∧
  ¬ (∃ r, (recordTransition once_approved (approve "zoe") "ev-2").1 = Ok r).
Proof.
  split.
  - edestruct (second_approval_accepted_iff "job" once_approved (the_snapshot once_approved)
      "tc-1") as [_ Hi]; [apply once_approved_reachable|vm_compute; reflexivity
      |vm_compute; reflexivity|reflexivity|reflexivity|reflexivity|].
    apply Hi. exists "adam". split; [reflexivity|].
    split; [discriminate|]. split; [vm_compute; discriminate|]. split; discriminate.
  - intros [r Hr].
    assert (∃ c, (recordTransition once_approved (approve "zoe") "ev-2").1 = Throw c)
      as [c Hc] by (eexists; vm_compute; reflexivity).
    rewrite Hr in Hc. discriminate Hc.
Defined.

(** ** A case whose enforcement is lifted while it waits *)

Definition conflict : TestCasePolicyViolation :=
  {| pv_rule := "r"; pv_outcome := "multi_source_conflict_present"; pv_severity := sev_warning;
     pv_reason := "multi-source conflict(s) c1 affect this case"; pv_path := None |}.

Definition lifted : job_dir :=
  let d := run_op empty_dir (OpSeed None (seed_two rc_low
    [row "tc-1" pd_needs_review [conflict]; row "tc-2" pd_approved []]) uuids) in
  let d := run_op d (OpRecord (approve "zoe") "ev-1") in
  run_op d (OpRefresh (Some ["c1"]) {| rp_jobId := "job"; rp_at := "t2"; rp_policy :=
    report [row "tc-1" pd_needs_review [conflict]; row "tc-2" pd_approved []] |} "ev-2").

Lemma lifted_reachable : reachable "job" lifted.
Proof. repeat (apply run_op_reachable; [|reflexivity]). constructor. Qed.

(** Resolving the last conflict of a case after its primary approval leaves it
    waiting for a second approval that is no longer possible. *)
Lemma unenforced_pending_case_cannot_be_approved_witness :
  reachable "job" lifted ∧
  ∃ e, entry_of lifted "tc-1" = Some e ∧ rs_state e = st_pending_secondary_approval ∧
  ∃ c, recordTransition lifted (approve "adam") "ev-3" = (Throw c, []).
Proof.
  split; [apply lifted_reachable|].
  eexists. split; [vm_compute; reflexivity|]. split; [reflexivity|].
  eapply (unenforced_pending_case_cannot_be_approved lifted (the_snapshot lifted) "tc-1");
    [vm_compute; reflexivity|vm_compute; reflexivity|reflexivity|reflexivity|reflexivity
    |apply list_elem_of_here].
Defined.

(** ** Documented behaviour of the snapshot fields *)

(** The approvers of a twice-approved case are stored in alphabetical order,
    so that the first one need not be the primary approver. *)
Theorem approvers_not_in_approval_order :
  ∃ e, entry_of twice_approved "tc-1" = Some e ∧
       rs_approvers e = ["adam"; "zoe"] ∧ rs_primaryReviewer e = Some "zoe".
Proof. eexists. split; [vm_compute; reflexivity|]. split; reflexivity. Qed.

(** A case that needs four eyes and that the policy approves is approved
    when it is seeded, with no approver at all. *)
Theorem enforced_case_seeded_approved :
  ∃ e, entry_of (run_op empty_dir (OpSeed None (seed_two rc_high
         [row "tc-1" pd_approved []; row "tc-2" pd_approved []]) uuids)) "tc-1" = Some e ∧
       rs_fourEyesEnforced e = true ∧ rs_state e = st_approved ∧ rs_approvers e = [].
Proof. eexists. split; [vm_compute; reflexivity|]. repeat split; reflexivity. Qed.
