(* ===== verification/CircuitBreaker.v ===== *)
(** * The circuit breaker of the LLM gateway

    [packages/model-gateway/src/llm-circuit-breaker.ts]. The breaker's closure
    variable [current] and the events handed to [onStateTransition] are the
    fields of [breaker]; every operation reads the clock at most once and takes
    that reading as an argument. Times are exact rationals. The retry loops
    around the optimistic [transitionTo] are fuelled; two rounds are always
    enough (a transition can only fail when [current] changed meanwhile, which
    the single thread of the program rules out as long as the callback does not
    call back into the breaker, an assumption of this file). *)

From S2P Require Import Prelude JsList JsValue.

Inductive LlmCircuitState : Type := closed | open_ | half_open.

#[export] Instance LlmCircuitState_eq_dec : EqDecision LlmCircuitState.
Proof. solve_decision. Defined.

Inductive LlmCircuitTransitionTrigger : Type :=
| failure_threshold_reached
| reset_timeout_elapsed
| probe_failed
| probe_succeeded
| non_transient_outcome.

Record LlmCircuitSnapshot := {
  sn_state : LlmCircuitState;
  sn_consecutiveFailures : Z;
  sn_failureThreshold : Z;
  sn_resetTimeoutMs : Q;
  sn_nextProbeAt : option Q;
  sn_probeInFlight : bool;
}.

Record LlmCircuitTransitionEvent := {
  te_fromState : LlmCircuitState;
  te_toState : LlmCircuitState;
  te_trigger : LlmCircuitTransitionTrigger;
  te_atMs : Q;
  te_snapshot : LlmCircuitSnapshot;
}.

Record LlmCircuitPersistentState := {
  ps_state : LlmCircuitState;
  ps_consecutiveFailures : Z;
  ps_openedAtMs : option Q;
}.

Record InternalState := {
  is_state : LlmCircuitState;
  is_consecutiveFailures : Z;
  is_openedAt : option Q;
  is_probeInFlight : bool;
  is_version : Z;
}.

Record breaker := {
  cb_failureThreshold : Z;
  cb_resetTimeoutMs : Q;
  cb_current : InternalState;
  cb_emitted : list LlmCircuitTransitionEvent;
}.

Inductive RangeError : Type := bad_failureThreshold | bad_resetTimeoutMs.

Definition createLlmCircuitBreaker (failureThreshold resetTimeoutMs : jsnum)
    (initialState : option LlmCircuitPersistentState) : outcome RangeError breaker :=
  if negb (Number.isInteger failureThreshold) || Number.ltb failureThreshold (num 1)
  then Throw bad_failureThreshold
  else if negb (Number.isFinite resetTimeoutMs) || Number.ltb resetTimeoutMs (num 0)
  then Throw bad_resetTimeoutMs
  else
    Ok {| cb_failureThreshold :=
            match failureThreshold with Fin q => Qfloor q | _ => 1 end;
          cb_resetTimeoutMs := match resetTimeoutMs with Fin q => q | _ => 0%Q end;
          cb_current :=
            {| is_state := default closed (ps_state <$> initialState);
               is_consecutiveFailures :=
                 0 `max` default 0 (ps_consecutiveFailures <$> initialState);
               is_openedAt := initialState ≫= ps_openedAtMs;
               is_probeInFlight := false;
               is_version := 0 |};
          cb_emitted := [] |}.

Definition toNextProbeAt (b : breaker) (candidate : InternalState) : option Q :=
  match is_openedAt candidate with
  | None => None
  | Some t => Some (t + cb_resetTimeoutMs b)%Q
  end.

Definition toSnapshot (b : breaker) (candidate : InternalState) : LlmCircuitSnapshot :=
  {| sn_state := is_state candidate;
     sn_consecutiveFailures := is_consecutiveFailures candidate;
     sn_failureThreshold := cb_failureThreshold b;
     sn_resetTimeoutMs := cb_resetTimeoutMs b;
     sn_nextProbeAt := toNextProbeAt b candidate;
     sn_probeInFlight := is_probeInFlight candidate |}.

(** [a !== b] on [number | undefined]. *)
Definition opt_q_neq (a b : option Q) : bool :=
  match a, b with
  | None, None => false
  | Some p, Some q => negb (Qeq_bool p q)
  | _, _ => true
  end.

(** The version of [nextState] is not read. [now] is what [clock.now()] would
    return. *)
Definition transitionTo (b : breaker) (expectedVersion : Z) (nextState : InternalState)
    (atMs : option Q) (trigger : option LlmCircuitTransitionTrigger) (now : Q) :
    breaker * bool * LlmCircuitSnapshot :=
  let previous := cb_current b in
  if negb (is_version previous =? expectedVersion)
  then (b, false, toSnapshot b previous)
  else
    let stateChanged :=
      negb (bool_decide (is_state previous = is_state nextState))
      || negb (is_consecutiveFailures previous =? is_consecutiveFailures nextState)
      || opt_q_neq (is_openedAt previous) (is_openedAt nextState)
      || negb (eqb (is_probeInFlight previous) (is_probeInFlight nextState)) in
    if negb stateChanged then (b, true, toSnapshot b previous)
    else
      let current :=
        {| is_state := is_state nextState;
           is_consecutiveFailures := is_consecutiveFailures nextState;
           is_openedAt := is_openedAt nextState;
           is_probeInFlight := is_probeInFlight nextState;
           is_version := is_version previous + 1 |} in
      let snapshot := toSnapshot b current in
      let emitted :=
        match trigger with
        | Some tr =>
            if bool_decide (is_state previous ≠ is_state current)
            then [ {| te_fromState := is_state previous; te_toState := is_state current;
                      te_trigger := tr; te_atMs := default now atMs;
                      te_snapshot := snapshot |} ]
            else []
        | None => []
        end in
      ({| cb_failureThreshold := cb_failureThreshold b;
          cb_resetTimeoutMs := cb_resetTimeoutMs b;
          cb_current := current;
          cb_emitted := cb_emitted b ++ emitted |}, true, snapshot).

Definition next_state (st : LlmCircuitState) (failures : Z) (openedAt : option Q)
    (probe : bool) : InternalState :=
  {| is_state := st; is_consecutiveFailures := failures; is_openedAt := openedAt;
     is_probeInFlight := probe; is_version := 0 |}.

Fixpoint reset (fuel : nat) (b : breaker)
    (resolveTrigger : InternalState → LlmCircuitTransitionTrigger) (now : Q) :
    option (breaker * LlmCircuitSnapshot) :=
  match fuel with
  | O => None
  | S fuel =>
      let observed := cb_current b in
      let '(b', committed, snapshot) :=
        transitionTo b (is_version observed) (next_state closed 0 None false)
          (Some now) (Some (resolveTrigger observed)) now in
      if committed then Some (b', snapshot) else reset fuel b' resolveTrigger now
  end.

(** [beforeRequest]; the boolean is [allowRequest]. *)
Fixpoint beforeRequest (fuel : nat) (b : breaker) (now : Q) :
    option (breaker * bool * LlmCircuitSnapshot) :=
  match fuel with
  | O => None
  | S fuel =>
      let observed := cb_current b in
      match is_state observed with
      | open_ =>
          match toNextProbeAt b observed with
          | Some nextProbeAt =>
              if Qle_bool nextProbeAt now
              then
                let '(b', _, _) :=
                  transitionTo b (is_version observed)
                    (next_state half_open (is_consecutiveFailures observed)
                       (is_openedAt observed) false)
                    (Some now) (Some reset_timeout_elapsed) now in
                beforeRequest fuel b' now
              else Some (b, false, toSnapshot b observed)
          | None => Some (b, false, toSnapshot b observed)
          end
      | half_open =>
          if is_probeInFlight observed then Some (b, false, toSnapshot b observed)
          else
            let '(b', committed, snapshot) :=
              transitionTo b (is_version observed)
                (next_state (is_state observed) (is_consecutiveFailures observed)
                   (is_openedAt observed) true) None None now in
            if committed then Some (b', true, snapshot) else beforeRequest fuel b' now
      | closed => Some (b, true, toSnapshot b observed)
      end
  end.

Definition recordSuccess (fuel : nat) (b : breaker) (now : Q) :
    option (breaker * LlmCircuitSnapshot) :=
  reset fuel b (λ observed, if bool_decide (is_state observed = half_open)
                            then probe_succeeded else non_transient_outcome) now.

Definition recordNonTransientOutcome (fuel : nat) (b : breaker) (now : Q) :
    option (breaker * LlmCircuitSnapshot) :=
  reset fuel b (λ _, non_transient_outcome) now.

Fixpoint recordTransientFailure (fuel : nat) (b : breaker) (now : Q) :
    option (breaker * LlmCircuitSnapshot) :=
  match fuel with
  | O => None
  | S fuel =>
      let observed := cb_current b in
      let consecutiveFailures := is_consecutiveFailures observed + 1 in
      let '(b', committed, snapshot) :=
        if bool_decide (is_state observed = half_open)
        then transitionTo b (is_version observed)
               (next_state open_ consecutiveFailures (Some now) false)
               (Some now) (Some probe_failed) now
        else if cb_failureThreshold b <=? consecutiveFailures
        then transitionTo b (is_version observed)
               (next_state open_ consecutiveFailures (Some now) false)
               (Some now) (Some failure_threshold_reached) now
        else transitionTo b (is_version observed)
               (next_state (is_state observed) consecutiveFailures (is_openedAt observed) false)
               None None now in
      if committed then Some (b', snapshot) else recordTransientFailure fuel b' now
  end.

Definition getSnapshot (b : breaker) : LlmCircuitSnapshot := toSnapshot b (cb_current b).

Definition toLlmCircuitPersistentState (snapshot : LlmCircuitSnapshot) :
    LlmCircuitPersistentState :=
  {| ps_state := sn_state snapshot;
     ps_consecutiveFailures := sn_consecutiveFailures snapshot;
     ps_openedAtMs := match sn_nextProbeAt snapshot with
                      | Some t => Some (t - sn_resetTimeoutMs snapshot)%Q
                      | None => None
                      end |}.

(** ** Runs *)

Definition FUEL : nat := 2.

Inductive cb_op : Type :=
| OpBefore (now : Q)
| OpSuccess (now : Q)
| OpTransientFailure (now : Q)
| OpNonTransientOutcome (now : Q).

(** One call on the breaker: the breaker after it, and the decision when the
    call asks for one. *)
Definition cb_step (b : breaker) (op : cb_op) : breaker * option bool :=
  match op with
  | OpBefore now =>
      match beforeRequest FUEL b now with Some (b', allow, _) => (b', Some allow) | None => (b, None) end
  | OpSuccess now =>
      match recordSuccess FUEL b now with Some (b', _) => (b', None) | None => (b, None) end
  | OpTransientFailure now =>
      match recordTransientFailure FUEL b now with Some (b', _) => (b', None) | None => (b, None) end
  | OpNonTransientOutcome now =>
      match recordNonTransientOutcome FUEL b now with Some (b', _) => (b', None) | None => (b, None) end
  end.

Fixpoint cb_run (b : breaker) (ops : list cb_op) : breaker * list (option bool) :=
  match ops with
  | [] => (b, [])
  | op :: r =>
      let '(b', a) := cb_step b op in let '(b'', l) := cb_run b' r in (b'', a :: l)
  end.

(** ** What one operation does *)

(** The same configuration, a new current state and more events. *)
Definition advance (b : breaker) (st : LlmCircuitState) (failures : Z) (openedAt : option Q)
    (probe : bool) (evs : list LlmCircuitTransitionEvent) (b' : breaker) : Prop :=
  cb_failureThreshold b' = cb_failureThreshold b ∧
  cb_resetTimeoutMs b' = cb_resetTimeoutMs b ∧
  is_state (cb_current b') = st ∧
  is_consecutiveFailures (cb_current b') = failures ∧
  opt_q_neq (is_openedAt (cb_current b')) openedAt = false ∧
  is_probeInFlight (cb_current b') = probe ∧
  cb_emitted b' = cb_emitted b ++ evs.

Definition event_between (b b' : breaker) (tr : LlmCircuitTransitionTrigger) (now : Q) :
    LlmCircuitTransitionEvent :=
  {| te_fromState := is_state (cb_current b); te_toState := is_state (cb_current b');
     te_trigger := tr; te_atMs := now; te_snapshot := getSnapshot b' |}.

Definition events_between (b b' : breaker) (tr : option LlmCircuitTransitionTrigger) (now : Q) :
    list LlmCircuitTransitionEvent :=
  match tr with
  | Some tr => if bool_decide (is_state (cb_current b) ≠ is_state (cb_current b'))
               then [event_between b b' tr now] else []
  | None => []
  end.

Lemma opt_q_neq_refl o : opt_q_neq o o = false.
Proof. destruct o; simpl; [|done]. by rewrite (proj2 (Qeq_bool_iff q q) (Qeq_refl q)). Qed.

Lemma opt_q_neq_sym o1 o2 : opt_q_neq o1 o2 = opt_q_neq o2 o1.
Proof. destruct o1, o2; simpl; try done. by rewrite Qeq_bool_comm. Qed.

(** A transition from the observed version always commits. *)
Lemma transitionTo_commits b next now atMs tr :
  default now atMs = now →
  ∃ b', transitionTo b (is_version (cb_current b)) next atMs tr now = (b', true, getSnapshot b') ∧
        advance b (is_state next) (is_consecutiveFailures next) (is_openedAt next)
          (is_probeInFlight next) (events_between b b' tr now) b'.
Proof.
  intros Hat. unfold transitionTo. rewrite Z.eqb_refl. cbn [negb].
  destruct (_ || _) eqn:E; cbn [negb].
  - cbv zeta. match goal with |- ∃ _, (?x, _, _) = _ ∧ _ => exists x end.
    split; [reflexivity|]. unfold advance, events_between, event_between, getSnapshot.
    simpl. rewrite opt_q_neq_refl, Hat. done.
  - exists b. split; [reflexivity|]. repeat (apply orb_false_iff in E as [E ?]).
    apply negb_false_iff, bool_decide_eq_true in E.
    unfold advance, events_between. rewrite (bool_decide_eq_false_2 (_ ≠ _)) by auto.
    split_all; try done; try lia.
    + by apply negb_false_iff, eqb_prop in H.
    + destruct tr; by rewrite app_nil_r.
Qed.

Ltac use_transition H :=
  match goal with
  | |- context [transitionTo ?b _ ?n ?a ?t ?now] =>
      let b' := fresh "b'" in
      let E := fresh "E" in
      destruct (transitionTo_commits b n now a t eq_refl) as (b' & E & H); rewrite E; clear E
  end.

Lemma recordTransientFailure_eq fuel b now :
  ∃ b', recordTransientFailure (S fuel) b now = Some (b', getSnapshot b') ∧
    let c := is_consecutiveFailures (cb_current b) + 1 in
    if bool_decide (is_state (cb_current b) = half_open)
    then advance b open_ c (Some now) false (events_between b b' (Some probe_failed) now) b'
    else if cb_failureThreshold b <=? c
    then advance b open_ c (Some now) false
           (events_between b b' (Some failure_threshold_reached) now) b'
    else advance b (is_state (cb_current b)) c (is_openedAt (cb_current b)) false [] b'.
Proof.
  cbn [recordTransientFailure]. case_bool_decide; [|destruct (_ <=? _)];
    use_transition Hb; eexists; (split; [reflexivity|]); exact Hb.
Qed.

Lemma reset_eq fuel b f now :
  ∃ b', reset (S fuel) b f now = Some (b', getSnapshot b') ∧
    advance b closed 0 None false (events_between b b' (Some (f (cb_current b))) now) b'.
Proof. cbn [reset]. use_transition Hb. eexists. split; [reflexivity|]. exact Hb. Qed.

Definition probe_due (b : breaker) (now : Q) : bool :=
  match toNextProbeAt b (cb_current b) with Some t => Qle_bool t now | None => false end.

Lemma beforeRequest_half_open fuel b now :
  is_state (cb_current b) = half_open →
  ∃ b', beforeRequest (S fuel) b now =
          Some (b', negb (is_probeInFlight (cb_current b)), getSnapshot b') ∧
    advance b half_open (is_consecutiveFailures (cb_current b)) (is_openedAt (cb_current b))
      true [] b'.
Proof.
  intros Hs. cbn [beforeRequest]. rewrite Hs. destruct (is_probeInFlight _) eqn:Ep.
  - exists b. split; [done|]. unfold advance. rewrite opt_q_neq_refl, app_nil_r. done.
  - use_transition Hb. eexists. split; [reflexivity|]. exact Hb.
Qed.

Lemma beforeRequest_open fuel b now :
  is_state (cb_current b) = open_ →
  if probe_due b now
  then ∃ b', beforeRequest (S (S fuel)) b now = Some (b', true, getSnapshot b') ∧
    ∃ b1, events_between b b1 (Some reset_timeout_elapsed) now =
          [event_between b b1 reset_timeout_elapsed now] ∧
      is_state (cb_current b1) = half_open ∧
    advance b half_open (is_consecutiveFailures (cb_current b)) (is_openedAt (cb_current b))
      true [event_between b b1 reset_timeout_elapsed now] b'
  else beforeRequest (S (S fuel)) b now = Some (b, false, getSnapshot b).
Proof.
  intros Hs. unfold probe_due. cbn [beforeRequest]. rewrite Hs.
  destruct (toNextProbeAt b (cb_current b)) as [t|]; [|done].
  destruct (Qle_bool t now); [|done].
  use_transition Hb. destruct Hb as (Ht & Hr & Hst & Hc & Ho & Hp & He).
  cbn [next_state is_state is_consecutiveFailures is_openedAt is_probeInFlight] in *.
  destruct (beforeRequest_half_open fuel b' now Hst) as (b2 & E2 & Ht2 & Hr2 & Hst2 & Hc2 & Ho2 & Hp2 & He2).
  cbn [beforeRequest] in E2. rewrite Hst, Hp in E2. rewrite Hst, Hp. rewrite E2.
  exists b2. split; [done|]. exists b'.
  assert (Hev : events_between b b' (Some reset_timeout_elapsed) now =
                [event_between b b' reset_timeout_elapsed now]).
  { unfold events_between. rewrite bool_decide_eq_true_2; [done|]. congruence. }
  split; [done|]. split; [done|]. unfold advance. rewrite Hev in He.
  split_all; try congruence.
  - destruct (is_openedAt (cb_current b2)), (is_openedAt (cb_current b')),
      (is_openedAt (cb_current b)); simpl in *; try done.
    apply negb_false_iff in Ho, Ho2. apply negb_false_iff.
    apply Qeq_bool_iff in Ho, Ho2. apply Qeq_bool_iff. by rewrite Ho2.
  - by rewrite He2, He, app_nil_r.
Qed.

(** ** The event log *)

(** The states the events lead through from [s]; [None] when an event does not
    start where the previous one ended, or does not change the state. *)
Fixpoint replay_events (s : LlmCircuitState) (evs : list LlmCircuitTransitionEvent) :
    option LlmCircuitState :=
  match evs with
  | [] => Some s
  | ev :: r =>
      if bool_decide (te_fromState ev = s) && bool_decide (te_toState ev ≠ s)
         && bool_decide (sn_state (te_snapshot ev) = te_toState ev)
      then replay_events (te_toState ev) r else None
  end.

Lemma replay_events_app s evs1 evs2 s1 :
  replay_events s evs1 = Some s1 → replay_events s (evs1 ++ evs2) = replay_events s1 evs2.
Proof.
  revert s; induction evs1 as [|ev evs1 IH]; intros s; simpl; [by intros [= ->]|].
  case_match; [apply IH|done].
Qed.

Lemma replay_events_between b b' tr now :
  replay_events (is_state (cb_current b)) (events_between b b' (Some tr) now) =
  Some (is_state (cb_current b')).
Proof.
  unfold events_between. case_bool_decide as E; simpl.
  - rewrite bool_decide_eq_true_2 by done. rewrite bool_decide_eq_true_2 by congruence.
    by rewrite bool_decide_eq_true_2.
  - destruct (decide (is_state (cb_current b) = is_state (cb_current b'))); [congruence|done].
Qed.

(** Every call extends the log by events that lead from the state before it to
    the state after it, and keeps the configuration. *)
Lemma cb_step_events b op :
  let b' := (cb_step b op).1 in
  cb_failureThreshold b' = cb_failureThreshold b ∧
  cb_resetTimeoutMs b' = cb_resetTimeoutMs b ∧
  ∃ evs, cb_emitted b' = cb_emitted b ++ evs ∧
         replay_events (is_state (cb_current b)) evs = Some (is_state (cb_current b')).
Proof.
  destruct op as [now|now|now|now]; unfold cb_step, FUEL.
  - destruct (is_state (cb_current b)) eqn:Es.
    + cbn [beforeRequest]. rewrite Es. simpl. rewrite Es. split_all; try done.
      exists []. by rewrite app_nil_r.
    + pose proof (beforeRequest_open 0 b now Es) as H.
      destruct (probe_due b now).
      * destruct H as (b' & -> & b1 & Hb1 & Hs1 & Ht & Hr & Hst & _ & _ & _ & He). simpl.
        split_all; try done. exists [event_between b b1 reset_timeout_elapsed now].
        split; [done|]. rewrite <- Es, <- Hb1, replay_events_between. congruence.
      * rewrite H. simpl. split_all; try done. exists []. rewrite app_nil_r. by rewrite <- Es.
    + destruct (beforeRequest_half_open 1 b now Es) as (b' & -> & Ht & Hr & Hst & _ & _ & _ & He).
      simpl. split_all; try done. exists []. by rewrite Hst.
  - unfold recordSuccess. edestruct reset_eq as (b' & -> & Ht & Hr & Hst & _ & _ & _ & He). simpl.
    split_all; try done. eexists. split; [done|]. apply replay_events_between.
  - edestruct recordTransientFailure_eq as (b' & -> & H). simpl. cbv zeta in H.
    case_bool_decide; [|destruct (_ <=? _)]; destruct H as (Ht & Hr & Hst & _ & _ & _ & He);
      (split; [done|]; split; [done|]; eexists; split; [done|]);
      first [apply replay_events_between | simpl; by rewrite Hst].
  - unfold recordNonTransientOutcome. edestruct reset_eq as (b' & -> & Ht & Hr & Hst & _ & _ & _ & He).
    simpl. split_all; try done. eexists. split; [done|]. apply replay_events_between.
Qed.

(** ** Breakers that cannot be told apart *)

(** Equal up to the representation of rationals, the version counter and the
    events already emitted. *)
Definition breaker_equiv (b1 b2 : breaker) : Prop :=
  cb_failureThreshold b1 = cb_failureThreshold b2 ∧
  (cb_resetTimeoutMs b1 == cb_resetTimeoutMs b2)%Q ∧
  is_state (cb_current b1) = is_state (cb_current b2) ∧
  is_consecutiveFailures (cb_current b1) = is_consecutiveFailures (cb_current b2) ∧
  opt_q_neq (is_openedAt (cb_current b1)) (is_openedAt (cb_current b2)) = false ∧
  is_probeInFlight (cb_current b1) = is_probeInFlight (cb_current b2).

Lemma opt_q_neq_trans o1 o2 o3 :
  opt_q_neq o1 o2 = false → opt_q_neq o2 o3 = false → opt_q_neq o1 o3 = false.
Proof.
  destruct o1, o2, o3; simpl; try done. rewrite !negb_false_iff, !Qeq_bool_iff.
  by intros ->.
Qed.

#[export] Instance breaker_equiv_equivalence : Equivalence breaker_equiv.
Proof.
  split.
  - intros b. unfold breaker_equiv. by rewrite opt_q_neq_refl.
  - intros b1 b2 (? & Hr & ? & ? & Ho & ?). rewrite opt_q_neq_sym in Ho.
    unfold breaker_equiv. by rewrite Hr.
  - intros b1 b2 b3 (? & Hr & ? & ? & Ho & ?) (? & Hr' & ? & ? & Ho' & ?).
    unfold breaker_equiv. split_all; try congruence; [by rewrite Hr|by eapply opt_q_neq_trans].
Qed.

#[export] Instance probe_due_proper : Proper (breaker_equiv ==> Qeq ==> (=)) probe_due.
Proof.
  intros b1 b2 (_ & Hr & _ & _ & Ho & _) t1 t2 Ht. unfold probe_due, toNextProbeAt.
  destruct (is_openedAt (cb_current b1)), (is_openedAt (cb_current b2)); simpl in Ho; try done.
  apply negb_false_iff, Qeq_bool_iff in Ho. by rewrite Ho, Hr, Ht.
Qed.

Lemma advance_equiv b1 b2 st c o1 o2 p evs1 evs2 b1' b2' :
  breaker_equiv b1 b2 → opt_q_neq o1 o2 = false →
  advance b1 st c o1 p evs1 b1' → advance b2 st c o2 p evs2 b2' → breaker_equiv b1' b2'.
Proof.
  intros (? & Hr & _) Ho (? & E1 & ? & ? & Ho1 & ? & _) (? & E2 & ? & ? & Ho2 & ? & _).
  unfold breaker_equiv. split_all; try congruence.
  eapply opt_q_neq_trans; [done|]. eapply opt_q_neq_trans; [done|].
  by rewrite opt_q_neq_sym.
Qed.

Lemma cb_step_equiv b1 b2 op :
  breaker_equiv b1 b2 →
  (cb_step b1 op).2 = (cb_step b2 op).2 ∧ breaker_equiv (cb_step b1 op).1 (cb_step b2 op).1.
Proof.
  intros Hb. pose proof Hb as (Et & Er & Es & Ec & Eo & Ep).
  destruct op as [now|now|now|now]; unfold cb_step, FUEL.
  - destruct (is_state (cb_current b1)) eqn:Es1; symmetry in Es.
    + cbn [beforeRequest]. by rewrite Es1, Es.
    + pose proof (beforeRequest_open 0 b1 now Es1) as H1.
      pose proof (beforeRequest_open 0 b2 now Es) as H2.
      assert (probe_due b1 now = probe_due b2 now) as Ed by (by apply probe_due_proper).
      rewrite <- Ed in H2. destruct (probe_due b1 now); [|by rewrite H1, H2].
      destruct H1 as (b1' & -> & ? & _ & _ & H1), H2 as (b2' & -> & ? & _ & _ & H2).
      simpl. split; [done|]. rewrite <- Ec in H2. exact (advance_equiv _ _ _ _ _ _ _ _ _ _ _ Hb Eo H1 H2).
    + destruct (beforeRequest_half_open 1 b1 now Es1) as (b1' & -> & H1),
        (beforeRequest_half_open 1 b2 now Es) as (b2' & -> & H2).
      simpl. split; [by rewrite Ep|]. rewrite <- Ec in H2. exact (advance_equiv _ _ _ _ _ _ _ _ _ _ _ Hb Eo H1 H2).
  - unfold recordSuccess. edestruct (reset_eq 1 b1) as (b1' & -> & H1).
    edestruct (reset_eq 1 b2) as (b2' & -> & H2). split; [done|].
    exact (advance_equiv _ _ _ _ _ _ _ _ _ _ _ Hb (opt_q_neq_refl None) H1 H2).
  - edestruct (recordTransientFailure_eq 1 b1) as (b1' & -> & H1).
    edestruct (recordTransientFailure_eq 1 b2) as (b2' & -> & H2). simpl. split; [done|].
    cbv zeta in H1, H2. rewrite <- Es, <- Ec, <- Et in H2.
    case_bool_decide; [|destruct (_ <=? _)];
      (eapply advance_equiv; [exact Hb| |exact H1|exact H2]; first [done|apply opt_q_neq_refl]).
  - unfold recordNonTransientOutcome. edestruct (reset_eq 1 b1) as (b1' & -> & H1).
    edestruct (reset_eq 1 b2) as (b2' & -> & H2). split; [done|].
    exact (advance_equiv _ _ _ _ _ _ _ _ _ _ _ Hb (opt_q_neq_refl None) H1 H2).
Qed.

Lemma cb_run_equiv b1 b2 ops :
  breaker_equiv b1 b2 →
  (cb_run b1 ops).2 = (cb_run b2 ops).2 ∧ breaker_equiv (cb_run b1 ops).1 (cb_run b2 ops).1.
Proof.
  revert b1 b2; induction ops as [|op ops IH]; intros b1 b2 Hb; simpl; [done|].
  pose proof (cb_step_equiv _ _ op Hb) as [Ha Hb'].
  destruct (cb_step b1 op) as [b1' a1], (cb_step b2 op) as [b2' a2]. simpl in *.
  destruct (IH _ _ Hb') as [Hl Hb''].
  destruct (cb_run b1' ops), (cb_run b2' ops). simpl in *. by subst.
Qed.

(** ** Lemmas on runs *)

#[local] Arguments beforeRequest : simpl never.
#[local] Arguments recordTransientFailure : simpl never.

Definition admitted (l : list (option bool)) : nat := length (filter (λ a, a = Some true) l).

Lemma run_before_in_flight b nows :
  is_state (cb_current b) = half_open → is_probeInFlight (cb_current b) = true →
  admitted (cb_run b (OpBefore <$> nows)).2 = 0%nat.
Proof.
  revert b; induction nows as [|now nows IH]; intros b Hs Hp; [done|]. simpl.
  destruct (beforeRequest_half_open 1 b now Hs) as (b' & E & Ht & Hr & Hst & _ & _ & Hp' & _).
  unfold FUEL. rewrite E, Hp. specialize (IH b' Hst Hp').
  destruct (cb_run b' _) as [b'' l]. simpl in *. unfold admitted in *.
  rewrite filter_cons_False by done. done.
Qed.

Lemma run_transient b nows :
  is_state (cb_current b) ≠ half_open →
  let b' := (cb_run b (OpTransientFailure <$> nows)).1 in
  is_state (cb_current b') ≠ half_open ∧
  is_consecutiveFailures (cb_current b') =
    is_consecutiveFailures (cb_current b) + Z.of_nat (length nows) ∧
  (is_state (cb_current b) = closed →
   is_consecutiveFailures (cb_current b) < cb_failureThreshold b →
   (is_state (cb_current b') = open_ ↔
      cb_failureThreshold b <= is_consecutiveFailures (cb_current b'))) ∧
  (is_state (cb_current b) = open_ → is_state (cb_current b') = open_).
Proof.
  revert b; induction nows as [|now nows IH]; intros b Hs; simpl.
  { split_all; try done; [lia|]. intros E ?. rewrite E. split; [done|lia]. }
  unfold FUEL. edestruct (recordTransientFailure_eq 1 b now) as (b1 & -> & H1). cbv zeta in H1.
  rewrite bool_decide_eq_false_2 in H1 by done.
  assert (is_state (cb_current b1) ≠ half_open ∧ cb_failureThreshold b1 = cb_failureThreshold b ∧
    is_consecutiveFailures (cb_current b1) = is_consecutiveFailures (cb_current b) + 1 ∧
    is_state (cb_current b1) =
      if cb_failureThreshold b <=? is_consecutiveFailures (cb_current b) + 1
      then open_ else is_state (cb_current b)) as (Hs1 & Ht1 & Hc1 & Hst1).
  { destruct (_ <=? _); destruct H1 as (? & _ & Hst & ? & _); split_all; congruence. }
  destruct (IH b1 Hs1) as (Hs2 & Hc2 & Hcl & Hop).
  destruct (cb_run b1 _) as [b2 l]. simpl in *. split_all; try done; [lia| |].
  - intros Ecl Hlt. rewrite Ecl in Hst1.
    destruct (Z.leb_spec (cb_failureThreshold b) (is_consecutiveFailures (cb_current b) + 1)).
    + split; [lia|]. auto.
    + rewrite Ht1 in Hcl. apply Hcl; [done|lia].
  - intros Eop. apply Hop. rewrite Hst1, Eop. by destruct (_ <=? _).
Qed.

(** ** Properties *)

(** [beforeRequest] returns (within two rounds of its loop), and admits a
    request exactly when the breaker is closed, or open with its reset timeout
    elapsed, or half open with no probe in flight; a request admitted while not
    closed leaves the breaker half open with its probe in flight, a refused one
    changes neither state nor log. *)
Theorem beforeRequest_admission fuel b now :
  ∃ b' allow, beforeRequest (S (S fuel)) b now = Some (b', allow, getSnapshot b') ∧
    allow = match is_state (cb_current b) with
            | closed => true
            | open_ => probe_due b now
            | half_open => negb (is_probeInFlight (cb_current b))
            end ∧
    (allow = true → is_state (cb_current b) ≠ closed →
       is_state (cb_current b') = half_open ∧ is_probeInFlight (cb_current b') = true) ∧
    (allow = false → is_state (cb_current b') = is_state (cb_current b) ∧
       cb_emitted b' = cb_emitted b).
Proof.
  destruct (is_state (cb_current b)) eqn:Es.
  - exists b, true. unfold beforeRequest. by rewrite Es.
  - pose proof (beforeRequest_open fuel b now Es) as H. destruct (probe_due b now) eqn:Ed.
    + destruct H as (b' & E & ? & _ & _ & H). exists b', true. split; [done|]. split; [done|].
      split; [|done]. intros _ _. unfold advance in H. tauto.
    + exists b, false. rewrite H. by split_all.
  - destruct (beforeRequest_half_open (S fuel) b now Es) as (b' & E & H).
    exists b', (negb (is_probeInFlight (cb_current b))). rewrite E. split; [done|].
    split; [done|]. unfold advance in H. split; [tauto|].
    intros _. destruct H as (_ & _ & ? & _ & _ & _ & He). by rewrite He, app_nil_r.
Qed.

(** C33. However many requests arrive and whatever the clock says, a breaker that
    is not closed admits at most one of them until an outcome is recorded. *)
Theorem at_most_one_probe b nows :
  is_state (cb_current b) ≠ closed →
  (admitted (cb_run b (OpBefore <$> nows)).2 ≤ 1)%nat.
Proof.
  revert b; induction nows as [|now nows IH]; intros b Hs; [simpl; unfold admitted; simpl; lia|].
  simpl. unfold FUEL.
  destruct (is_state (cb_current b)) eqn:Es; [done| |].
  - pose proof (beforeRequest_open 0 b now Es) as H. destruct (probe_due b now).
    + destruct H as (b' & -> & ? & _ & _ & _ & _ & Hst & _ & _ & Hp & _).
      pose proof (run_before_in_flight b' nows Hst Hp).
      destruct (cb_run b' _) as [b'' l]. simpl in *. unfold admitted in *.
      rewrite filter_cons_True by done. simpl. lia.
    + rewrite H. specialize (IH b). rewrite Es in IH. specialize (IH ltac:(done)).
      destruct (cb_run b _) as [b'' l]. simpl in *. unfold admitted in *.
      by rewrite filter_cons_False.
  - destruct (beforeRequest_half_open 1 b now Es) as (b' & -> & _ & _ & Hst & _ & _ & Hp & _).
    pose proof (run_before_in_flight b' nows Hst Hp).
    destruct (cb_run b' _) as [b'' l]. simpl in *. unfold admitted in *.
    destruct (decide (Some (negb (is_probeInFlight (cb_current b))) = Some true)).
    + rewrite filter_cons_True by done. simpl. lia.
    + rewrite filter_cons_False by done. lia.
Qed.

(** A closed breaker opens exactly when its consecutive transient failures
    reach the threshold: after any number of failures in a row it is open if
    and only if the counter, which counts every one of them, is at or above
    the threshold. *)
Theorem opens_exactly_at_threshold b nows :
  is_state (cb_current b) = closed →
  is_consecutiveFailures (cb_current b) < cb_failureThreshold b →
  let b' := (cb_run b (OpTransientFailure <$> nows)).1 in
  is_state (cb_current b') = open_ ↔
  cb_failureThreshold b <= is_consecutiveFailures (cb_current b) + Z.of_nat (length nows).
Proof.
  intros Hs Hc b'. destruct (run_transient b nows) as (_ & Hn & Hcl & _); [by rewrite Hs|].
  rewrite <- Hn. by apply Hcl.
Qed.

(** The transition events tell the whole history: over any sequence of
    calls the log only grows, each event starts in the state the previous one
    led to and changes it, and the last one leads to the current state. *)
Theorem events_tell_the_history b ops :
  ∃ evs, cb_emitted (cb_run b ops).1 = cb_emitted b ++ evs ∧
    replay_events (is_state (cb_current b)) evs = Some (is_state (cb_current (cb_run b ops).1)).
Proof.
  revert b; induction ops as [|op ops IH]; intros b; simpl.
  { exists []. by rewrite app_nil_r. }
  pose proof (cb_step_events b op) as (_ & _ & evs1 & E1 & R1).
  destruct (cb_step b op) as [b1 a]. simpl in *. destruct (IH b1) as (evs2 & E2 & R2).
  destruct (cb_run b1 ops) as [b2 l]. simpl in *. exists (evs1 ++ evs2).
  rewrite E2, E1, app_assoc. split; [done|]. by rewrite (replay_events_app _ _ _ _ R1).
Qed.

(** Persisting a breaker and restoring it loses nothing that matters: a
    breaker without a probe in flight, saved with
    [toLlmCircuitPersistentState] and created again with the same settings,
    takes the same decisions as the original under any sequence of calls. *)
Theorem restored_breaker_behaves_the_same b r ops :
  1 <= cb_failureThreshold b → (0 <= cb_resetTimeoutMs b)%Q →
  0 <= is_consecutiveFailures (cb_current b) →
  is_probeInFlight (cb_current b) = false →
  createLlmCircuitBreaker (num (cb_failureThreshold b)) (Fin (cb_resetTimeoutMs b))
    (Some (toLlmCircuitPersistentState (getSnapshot b))) = r →
  ∃ b', r = Ok b' ∧ (cb_run b' ops).2 = (cb_run b ops).2 ∧
        sn_state (getSnapshot (cb_run b' ops).1) = sn_state (getSnapshot (cb_run b ops).1).
Proof.
  intros Ht Hr Hc Hp <-. unfold createLlmCircuitBreaker.
  rewrite Number.isInteger_num, Number.ltb_num. simpl.
  destruct (Z.ltb_spec (cb_failureThreshold b) 1); [lia|]. simpl.
  assert (Number.ltb (Fin (cb_resetTimeoutMs b)) (num 0) = false) as ->.
  { unfold Number.ltb. simpl. apply andb_false_iff. right. apply negb_false_iff.
    by apply Qle_bool_iff. }
  simpl. eexists. split; [done|].
  match goal with |- (cb_run ?x _).2 = _ ∧ _ => assert (breaker_equiv x b) as Hb end.
  { unfold breaker_equiv. simpl. rewrite Z.div_1_r, Hp.
    split_all; try done; [lia|].
    unfold toNextProbeAt. destruct (is_openedAt (cb_current b)) as [t|]; simpl; [|done].
    apply negb_false_iff, Qeq_bool_iff. ring. }
  destruct (cb_run_equiv _ _ ops Hb) as [Hl (_ & _ & Hst & _)]. by split.
Qed.

(** ** Witnesses *)

Definition fresh_breaker : breaker :=
  match createLlmCircuitBreaker (num 3) (num 100) None with
  | Ok b => b
  | Throw _ => {| cb_failureThreshold := 1; cb_resetTimeoutMs := 0;
                  cb_current := next_state closed 0 None false; cb_emitted := [] |}
  end.

Definition tripped_breaker : breaker :=
  (cb_run fresh_breaker [OpTransientFailure 1; OpTransientFailure 2; OpTransientFailure 3]).1.

(** Refused at 50 and 102, admitted at 103 as the probe, refused at 104. *)
Lemma at_most_one_probe_witness :
  (cb_run tripped_breaker (OpBefore <$> [50; 102; 103; 104]%Q)).2 =
    [Some false; Some false; Some true; Some false] ∧
  (admitted (cb_run tripped_breaker (OpBefore <$> [50; 102; 103; 104]%Q)).2 ≤ 1)%nat.
Proof.
  split; [vm_compute; reflexivity|]. apply (at_most_one_probe tripped_breaker).
  vm_compute. discriminate.
Defined.

Lemma opens_exactly_at_threshold_witness :
  is_state (cb_current tripped_breaker) = open_ ∧ cb_failureThreshold fresh_breaker = 3.
Proof.
  split; [|reflexivity].
  apply (opens_exactly_at_threshold fresh_breaker [1; 2; 3]%Q); vm_compute; [reflexivity..|].
  discriminate.
Defined.

Lemma restored_breaker_behaves_the_same_witness :
  ∃ b', createLlmCircuitBreaker (num 3) (Fin 100)
          (Some (toLlmCircuitPersistentState (getSnapshot tripped_breaker))) = Ok b' ∧
        (cb_run b' [OpBefore 103]).2 = (cb_run tripped_breaker [OpBefore 103]).2.
Proof.
  edestruct (restored_breaker_behaves_the_same tripped_breaker
    (createLlmCircuitBreaker (num 3) (Fin 100)
       (Some (toLlmCircuitPersistentState (getSnapshot tripped_breaker)))) [OpBefore 103])
    as (b' & E & Hr & _); [vm_compute; discriminate..|reflexivity|reflexivity|].
  exists b'. split; [exact E|exact Hr].
Defined.
