(* ===== verification/LlmGateway.v ===== *)
(** * The LLM gateway client

    [packages/model-gateway/src/llm-gateway.ts] and llm-token-estimator.ts: the
    guards of a request, the loop of attempts around circuit breaker and
    idempotency cache, and the sharing of requests in flight. What one dispatch
    answers, what the clock shows and JSON text are parameters; one
    call runs without another changing the breaker in between. *)

From Stdlib Require Import Qminmax.
From S2P Require Import Prelude JsString JsList JsValue CanonicalJson JsonView JsonSchemaSubset LlmTypes CircuitBreaker IdempotencyCache.

(** ** Estimating the size of a request *)

Definition CONTEXT_BUDGET_ESTIMATOR_BYTES_PER_TOKEN : Z := 4.
Definition LLM_IMAGE_OPENAI_TILE_SIZE_PX : Z := 512.
Definition LLM_IMAGE_OPENAI_TOKENS_PER_TILE : Z := 85.
Definition LLM_IMAGE_OPENAI_BASE_TOKENS : Z := 85.
Definition LLM_IMAGE_LLAMA_TILE_SIZE_PX : Z := 560.
Definition LLM_IMAGE_LLAMA_TOKENS_PER_TILE : Z := 1601.
Definition LLM_IMAGE_LLAMA_BASE_TOKENS : Z := 1.
Definition DEFAULT_LLM_IMAGE_TOKEN_STRATEGY : LlmImageTokenStrategy := openai_tiles.

(** Both sizes, when they are usable. *)
Definition usable_dimensions (i : LlmImageInput) : option (Q * Q) :=
  match im_widthPx i, im_heightPx i with
  | Some (Fin w), Some (Fin h) => if Qle_bool w 0 || Qle_bool h 0 then None else Some (w, h)
  | _, _ => None
  end.

Definition ceil_div (n d : Z) : Z := Qceiling (inject_Z n / inject_Z d).

Definition tile_tokens (size perTile base : Z) (w h : Q) : Z :=
  Qceiling (w * h / inject_Z (size * size)) * perTile + base.

Definition estimateImageInputTokens (i : LlmImageInput) (strategy : LlmImageTokenStrategy) : Z :=
  match strategy, usable_dimensions i with
  | openai_tiles, Some (w, h) =>
      tile_tokens LLM_IMAGE_OPENAI_TILE_SIZE_PX LLM_IMAGE_OPENAI_TOKENS_PER_TILE LLM_IMAGE_OPENAI_BASE_TOKENS w h
  | llama_tiles, Some (w, h) =>
      tile_tokens LLM_IMAGE_LLAMA_TILE_SIZE_PX LLM_IMAGE_LLAMA_TOKENS_PER_TILE LLM_IMAGE_LLAMA_BASE_TOKENS w h
  | _, _ => ceil_div (Z.of_nat (String.length (im_base64Data i))) CONTEXT_BUDGET_ESTIMATOR_BYTES_PER_TOKEN
  end.


Definition estimateLlmInputBytes `{JsonText} (r : LlmGenerationRequest) : Z :=
  utf8_length (rq_systemPrompt r) + utf8_length (rq_userPrompt r)
  + match rq_responseSchema r with Some schema => utf8_length (json_stringify schema) | None => 0 end.

Definition estimateTextTokens (text : string) : Z :=
  ceil_div (utf8_length text) CONTEXT_BUDGET_ESTIMATOR_BYTES_PER_TOKEN.

Definition estimateLlmInputTokens `{JsonText} (r : LlmGenerationRequest)
    (strategy : option LlmImageTokenStrategy) : Z :=
  let strategy := default DEFAULT_LLM_IMAGE_TOKEN_STRATEGY strategy in
  ceil_div (estimateLlmInputBytes r) CONTEXT_BUDGET_ESTIMATOR_BYTES_PER_TOKEN
  + foldl (λ n image, n + estimateImageInputTokens image strategy) 0 (rq_imageInputs r).

(** ** Guards *)

(** The failure of a request that was not attempted. *)
Definition reject (errorClass message : string) : option LlmGenerationFailure :=
  Some {| lf_errorClass := errorClass; lf_message := message; lf_constrainedDecoding := None;
          lf_retryable := false; lf_attempt := 0 |}.

Definition guardImagePayload (role : string) (r : LlmGenerationRequest) : option LlmGenerationFailure :=
  if bool_decide (role ∈ ["test_generation"; "requirements_synthesis"]) && (0 <? length (rq_imageInputs r))%nat
  then reject "image_payload_rejected"
         (role +:+ " role refuses image payloads; route screenshots through a visual sidecar role")
  else None.

(** [Number.isSafeInteger(n) && n > 0] *)
Definition positive_safe (n : jsnum) : bool := Number.isSafeInteger n && Number.ltb (num 0) n.

Definition guardInputBudget `{JsonText} (r : LlmGenerationRequest) (c : LlmGatewayClientConfig) :
    option LlmGenerationFailure :=
  match rq_maxInputTokens r with
  | None => None
  | Some limit =>
      if negb (positive_safe limit) then reject "schema_invalid" "maxInputTokens must be a positive integer"
      else
        let estimatedTokens := estimateLlmInputTokens r (gc_imageTokenStrategy c) in
        if Number.ltb limit (num estimatedTokens)
        then reject "input_budget_exceeded"
               ("estimated input tokens " +:+ pretty estimatedTokens +:+ " exceeds maxInputTokens "
                +:+ pretty (integer_part limit))
        else None
  end.

Definition guardWallClockBudget (r : LlmGenerationRequest) : option LlmGenerationFailure :=
  match rq_maxWallClockMs r with
  | None => None
  | Some ms =>
      if negb (positive_safe ms) then reject "schema_invalid" "maxWallClockMs must be a positive integer" else None
  end.

Definition guardMaxRetriesBudget (r : LlmGenerationRequest) : option LlmGenerationFailure :=
  match rq_maxRetries r with
  | None => None
  | Some n =>
      if negb (Number.isSafeInteger n) || Number.ltb n (num 0)
      then reject "schema_invalid" "maxRetries must be a non-negative integer" else None
  end.

Definition guardOutputBudgetSupport (c : LlmGatewayClientConfig) (r : LlmGenerationRequest) :
    option LlmGenerationFailure :=
  match rq_maxOutputTokens r with
  | None => None
  | Some n =>
      if negb (positive_safe n) then reject "schema_invalid" "maxOutputTokens must be a positive integer"
      else if negb (cp_maxOutputTokensSupport (gc_capabilities c))
      then reject "schema_invalid" "maxOutputTokens budget requires a deployment with maxOutputTokensSupport"
      else None
  end.

(** The first guard that refuses. *)
Definition guards `{JsonText} (c : LlmGatewayClientConfig) (r : LlmGenerationRequest) : option LlmGenerationFailure :=
  head (omap id [guardImagePayload (gc_role c) r; guardInputBudget r c; guardWallClockBudget r;
                 guardMaxRetriesBudget r; guardOutputBudgetSupport c r]).

(** ** Failures *)

Definition isTransientFailure (errorClass : string) : bool :=
  bool_decide (errorClass ∈ ["timeout"; "transport"; "rate_limited"; "incomplete"]).

Definition isRetryableStructuredOutputGatewayFailure (f : LlmGenerationFailure) : bool :=
  bool_decide (lf_errorClass f = "schema_invalid") && lf_retryable f
  && (bool_decide (lf_message f = "structured-output content is not valid JSON")
      || bool_decide (is_Some (strip_prefix "message.content missing or empty" (lf_message f)))).

Definition shouldRetry (f : LlmGenerationFailure) : bool :=
  lf_retryable f && (isTransientFailure (lf_errorClass f) || isRetryableStructuredOutputGatewayFailure f).

Definition INCOMPLETE_RETRY_OUTPUT_TOKEN_LIMIT : Q := 64000.

Definition expandMaxOutputTokensForRetry (current : jsnum) : jsnum :=
  match current with
  | Fin q =>
      if negb (positive_safe current) then current
      else
        let doubled := Fin (q * 2) in
        if negb (Number.isSafeInteger doubled) || Number.leb doubled current then current
        else if Qle_bool INCOMPLETE_RETRY_OUTPUT_TOKEN_LIMIT (q * 2)
        then Fin INCOMPLETE_RETRY_OUTPUT_TOKEN_LIMIT else doubled
  | _ => current
  end.

Definition with_max_output (n : jsnum) (r : LlmGenerationRequest) : LlmGenerationRequest :=
  {| rq_systemPrompt := rq_systemPrompt r; rq_userPrompt := rq_userPrompt r;
     rq_responseSchema := rq_responseSchema r; rq_responseSchemaName := rq_responseSchemaName r;
     rq_imageInputs := rq_imageInputs r; rq_seed := rq_seed r; rq_reasoningEffort := rq_reasoningEffort r;
     rq_maxInputTokens := rq_maxInputTokens r; rq_maxOutputTokens := Some n;
     rq_maxWallClockMs := rq_maxWallClockMs r; rq_maxRetries := rq_maxRetries r;
     rq_idempotency := rq_idempotency r; rq_inFlightDedup := rq_inFlightDedup r |}.

(** The request of the next attempt. *)
Definition next_request (f : LlmGenerationFailure) (r : LlmGenerationRequest) : LlmGenerationRequest :=
  match rq_maxOutputTokens r with
  | Some current =>
      let expanded := expandMaxOutputTokensForRetry current in
      if bool_decide (lf_errorClass f = "incomplete") && Number.ltb current expanded
      then with_max_output expanded r else r
  | None => r
  end.

(** ** A client *)

(** A configuration and what the runtime wires in. *)
Record client := {
  cl_config : LlmGatewayClientConfig;
  cl_backoff : list Q;
  cl_cache : option cache_config;
}.

Inductive gateway_event : Type :=
| ev_breaker (op : cb_op)
| ev_dispatch (attempt : Z) (request : LlmGenerationRequest)
| ev_wait (ms : Q).

(** The breaker, the cache when one is wired, and what was done so far. *)
Record gateway := {
  gw_breaker : breaker;
  gw_cache : cache_state;
  gw_log : list gateway_event;
}.

(** What the surroundings answer to one attempt; a rejection has the message
    the client makes of it. *)
Record attempt_surroundings := {
  as_before : Q;
  as_result : outcome string LlmGenerationResult;
  as_after : Q;
  as_store : surroundings;
}.

Definition log (ev : gateway_event) (g : gateway) : gateway :=
  {| gw_breaker := gw_breaker g; gw_cache := gw_cache g; gw_log := gw_log g ++ [ev] |}.

(** A call on the breaker. *)
Definition on_breaker (op : cb_op) (g : gateway) : gateway :=
  {| gw_breaker := (cb_step (gw_breaker g) op).1; gw_cache := gw_cache g; gw_log := gw_log g ++ [ev_breaker op] |}.
Definition on_cache (s : cache_state) (g : gateway) : gateway :=
  {| gw_breaker := gw_breaker g; gw_cache := s; gw_log := gw_log g |}.

Definition state_name (s : LlmCircuitState) : string :=
  match s with closed => "closed" | open_ => "open" | half_open => "half_open" end.

Definition transport_failure (message : string) (retryable : bool) (attempt : Z) : LlmGenerationFailure :=
  {| lf_errorClass := "transport"; lf_message := message; lf_constrainedDecoding := None;
     lf_retryable := retryable; lf_attempt := attempt |}.

(** [backoff[Math.min(attempt - 1, backoff.length - 1)] ?? 0] *)
Definition backoff_wait (backoff : list Q) (attempt : Z) : Q :=
  default 0%Q (backoff !! Nat.min (Z.to_nat (attempt - 1)) (length backoff - 1)%nat).

(** The redacted message made of an error. *)
Class ErrorText := { error_text : IdempotencyError → string }.

Section client.
Context `{Hmac} `{JsonText} `{ErrorText} (c : client).

(** The best-effort store after a success. *)
Definition store_success (pending : option GatewayIdempotencyKey) (s : LlmGenerationSuccess)
    (en : surroundings) (g : gateway) : gateway :=
  match cl_cache c, pending with
  | Some cache, Some key => on_cache (store cache key s en (gw_cache g)).2 g
  | _, _ => g
  end.

(** The attempts from [attempt] to [maxAttempts]; [world] answers each one. *)
Fixpoint attempt_loop (remaining : nat) (attempt maxAttempts : Z) (r : LlmGenerationRequest)
    (pending : option GatewayIdempotencyKey) (lastFailure : option LlmGenerationFailure)
    (world : Z → LlmGenerationRequest → attempt_surroundings) (g : gateway) : LlmGenerationResult * gateway :=
  match remaining with
  | O => (gen_failure (default (transport_failure "no attempts executed" false 0) lastFailure), g)
  | S remaining =>
      let now := world attempt r in
      let allowed := (cb_step (gw_breaker g) (OpBefore (as_before now))).2 in
      let g := on_breaker (OpBefore (as_before now)) g in
      if negb (bool_decide (allowed = Some true))
      then (gen_failure (transport_failure
              ("circuit breaker is " +:+ state_name (is_state (cb_current (gw_breaker g)))) false attempt), g)
      else
        let g := log (ev_dispatch attempt r) g in
        let result := match as_result now with
                      | Ok result => result
                      | Throw message => gen_failure (transport_failure message true attempt)
                      end in
        match result with
        | gen_success s =>
            (result, store_success pending s (as_store now) (on_breaker (OpSuccess (as_after now)) g))
        | gen_failure f =>
            let g := on_breaker (if shouldRetry f then OpTransientFailure (as_after now)
                                 else OpNonTransientOutcome (as_after now)) g in
            if negb (shouldRetry f) || (maxAttempts <=? attempt) then (result, g)
            else
              let waitMs := backoff_wait (cl_backoff c) attempt in
              let g := if Qle_bool waitMs 0 then g else log (ev_wait waitMs) g in
              attempt_loop remaining (attempt + 1) maxAttempts (next_request f r) pending (Some f) world g
        end
  end.

Definition max_attempts (r : LlmGenerationRequest) : Z :=
  let effectiveRetries := match rq_maxRetries r with
                          | Some n => Z.min (gc_maxRetries (cl_config c)) (integer_part n)
                          | None => gc_maxRetries (cl_config c)
                          end in
  Z.max 1 (effectiveRetries + 1).

Definition run_attempts (r : LlmGenerationRequest) (pending : option GatewayIdempotencyKey)
    (world : Z → LlmGenerationRequest → attempt_surroundings) (g : gateway) : LlmGenerationResult * gateway :=
  attempt_loop (Z.to_nat (max_attempts r)) 1 (max_attempts r) r pending None world g.

(** [lookup_world] answers the lookup. *)
Definition generateUncached (r : LlmGenerationRequest) (lookup_world : surroundings)
    (world : Z → LlmGenerationRequest → attempt_surroundings) (g : gateway) : LlmGenerationResult * gateway :=
  match guards (cl_config c) r with
  | Some f => (gen_failure f, g)
  | None =>
      match cl_cache c, rq_idempotency r with
      | Some cache, Some inputs =>
          match lookup cache inputs lookup_world (gw_cache g) with
          | (Throw e, s) =>
              (gen_failure {| lf_errorClass := "schema_invalid"; lf_message := error_text e; lf_constrainedDecoding := None;
                              lf_retryable := false; lf_attempt := 0 |}, on_cache s g)
          | (Ok (replay_hit _ result), s) => (gen_success result, on_cache s g)
          | (Ok (replay_miss key), s) => run_attempts r (Some key) world (on_cache s g)
          end
      | _, _ => run_attempts r None world g
      end
  end.
End client.

(** ** What an accepted request does *)

(** The breaker operation that records a failure. *)
Definition failure_op (f : LlmGenerationFailure) (now : Q) : cb_op :=
  if shouldRetry f then OpTransientFailure now else OpNonTransientOutcome now.

(** The answer of one dispatch. *)
Definition answer (now : attempt_surroundings) (attempt : Z) : LlmGenerationResult :=
  match as_result now with
  | Ok result => result
  | Throw message => gen_failure (transport_failure message true attempt)
  end.

(** The attempts from number [a] on, with what was logged and the result. *)
Inductive transcript (backoff : list Q) (maxAttempts : Z)
    (world : Z → LlmGenerationRequest → attempt_surroundings) :
    Z → LlmGenerationRequest → breaker → list gateway_event → LlmGenerationResult → Prop :=
| tr_refused a r b :
    (cb_step b (OpBefore (as_before (world a r)))).2 ≠ Some true →
    transcript backoff maxAttempts world a r b [ev_breaker (OpBefore (as_before (world a r)))]
      (gen_failure (transport_failure
        ("circuit breaker is "
         +:+ state_name (is_state (cb_current (cb_step b (OpBefore (as_before (world a r)))).1))) false a))
| tr_success a r b s :
    (cb_step b (OpBefore (as_before (world a r)))).2 = Some true →
    answer (world a r) a = gen_success s →
    transcript backoff maxAttempts world a r b
      [ev_breaker (OpBefore (as_before (world a r))); ev_dispatch a r;
       ev_breaker (OpSuccess (as_after (world a r)))] (gen_success s)
| tr_failure a r b f :
    (cb_step b (OpBefore (as_before (world a r)))).2 = Some true →
    answer (world a r) a = gen_failure f → shouldRetry f = false ∨ maxAttempts ≤ a →
    transcript backoff maxAttempts world a r b
      [ev_breaker (OpBefore (as_before (world a r))); ev_dispatch a r;
       ev_breaker (failure_op f (as_after (world a r)))] (gen_failure f)
| tr_retry a r b f evs res :
    (cb_step b (OpBefore (as_before (world a r)))).2 = Some true →
    answer (world a r) a = gen_failure f → shouldRetry f = true → a < maxAttempts →
    transcript backoff maxAttempts world (a + 1) (next_request f r)
      (cb_step (cb_step b (OpBefore (as_before (world a r)))).1 (failure_op f (as_after (world a r)))).1 evs res →
    transcript backoff maxAttempts world a r b
      ([ev_breaker (OpBefore (as_before (world a r))); ev_dispatch a r;
        ev_breaker (failure_op f (as_after (world a r)))]
       ++ (if Qle_bool (backoff_wait backoff a) 0 then [] else [ev_wait (backoff_wait backoff a)]) ++ evs) res.

(** The operations on the breaker among the events, and the dispatches. *)
Definition breaker_op (ev : gateway_event) : option cb_op := match ev with ev_breaker op => Some op | _ => None end.
Definition dispatch_of (ev : gateway_event) : option (Z * LlmGenerationRequest) :=
  match ev with ev_dispatch a r => Some (a, r) | _ => None end.

Lemma cb_run_cons b op ops : (cb_run b (op :: ops)).1 = (cb_run (cb_step b op).1 ops).1.
Proof. cbn [cb_run]. destruct (cb_step b op) as [b' d]. cbn [fst]. by destruct (cb_run b' ops). Qed.

Section loop.
Context `{Hmac} `{JsonText} (c : client).

Lemma store_success_log pending s en g :
  gw_log (store_success c pending s en g) = gw_log g ∧ gw_breaker (store_success c pending s en g) = gw_breaker g.
Proof. unfold store_success. destruct (cl_cache c), pending; done. Qed.

(** The loop with enough rounds is a transcript, and its breaker the one the
    logged operations lead to. *)
Lemma attempt_loop_transcript remaining a maxAttempts r pending last world g :
  remaining = Z.to_nat (maxAttempts - a + 1) → a ≤ maxAttempts →
  let '(res, g') := attempt_loop c remaining a maxAttempts r pending last world g in
  ∃ evs, transcript (cl_backoff c) maxAttempts world a r (gw_breaker g) evs res ∧
         gw_log g' = gw_log g ++ evs ∧
         gw_breaker g' = (cb_run (gw_breaker g) (omap breaker_op evs)).1.
Proof.
  revert a r last g. induction remaining as [|remaining IH]; intros a r last g Hrem Ha; [lia|].
  cbn [attempt_loop]. cbv zeta. set (now := world a r).
  destruct (decide ((cb_step (gw_breaker g) (OpBefore (as_before now))).2 = Some true)) as [Hok|Hno].
  2:{ rewrite bool_decide_eq_false_2 by done. cbn [negb].
      exists [ev_breaker (OpBefore (as_before now))]. split; [by apply tr_refused|]. split; [done|].
      cbn [omap list_omap breaker_op]. by rewrite cb_run_cons. }
  rewrite bool_decide_eq_true_2 by done. cbn [negb]. fold (answer now a).
  destruct (answer now a) as [s|f] eqn:Eans.
  - pose proof (λ g, store_success_log pending s (as_store now) g) as Hs.
    eexists. split; [by apply tr_success|]. rewrite (proj1 (Hs _)), (proj2 (Hs _)).
    cbn [gw_log gw_breaker on_breaker log]. rewrite <- !app_assoc. split; [done|].
    cbn [omap list_omap breaker_op]. by rewrite !cb_run_cons.
  - fold (failure_op f (as_after now)).
    destruct (negb (shouldRetry f) || (maxAttempts <=? a)) eqn:Estop.
    + eexists. split; [apply tr_failure; [done|done|]|].
      { apply orb_true_iff in Estop as [E|E]; [left; by apply negb_true_iff|right; by apply Z.leb_le]. }
      cbn [gw_log gw_breaker on_breaker log]. rewrite <- !app_assoc. split; [done|].
      cbn [omap list_omap breaker_op]. by rewrite !cb_run_cons.
    + apply orb_false_iff in Estop as [Hretry%negb_false_iff Hlt%Z.leb_gt].
      match goal with |- context [attempt_loop c remaining (a + 1) maxAttempts ?r' pending ?l world ?g1] =>
        pose proof (IH (a + 1) r' l g1) as IH'; destruct (attempt_loop c remaining (a + 1) maxAttempts r' pending l world g1)
          as [res g'] end.
      destruct IH' as (evs & Htr & Hlog & Hb); [lia|lia|].
      assert (gw_breaker (if Qle_bool (backoff_wait (cl_backoff c) a) 0
        then on_breaker (failure_op f (as_after now)) (log (ev_dispatch a r) (on_breaker (OpBefore (as_before now)) g))
        else log (ev_wait (backoff_wait (cl_backoff c) a)) (on_breaker (failure_op f (as_after now))
               (log (ev_dispatch a r) (on_breaker (OpBefore (as_before now)) g)))) =
        (cb_step (cb_step (gw_breaker g) (OpBefore (as_before now))).1 (failure_op f (as_after now))).1) as Hgb
        by (by case_match).
      rewrite Hgb in Htr, Hb. eexists. split; [by apply (tr_retry _ _ _ a r (gw_breaker g) f evs)|]. split.
      * rewrite Hlog. case_match; cbn [gw_log on_breaker log]; by rewrite <- !app_assoc.
      * rewrite Hb. cbn [omap list_omap breaker_op app]. case_match; cbn [omap list_omap breaker_op app];
          by rewrite !cb_run_cons.
Qed.
End loop.

(** ** Reading a transcript *)

Inductive phase : Type := idle | admitted_ | dispatched.

(** In the log every dispatch directly follows a decision of the breaker that
    admits it, and its outcome is recorded directly after it, once. *)
Fixpoint disciplined (b : breaker) (p : phase) (evs : list gateway_event) : bool :=
  match evs with
  | [] => match p with idle => true | _ => false end
  | ev_breaker (OpBefore now) :: r =>
      match p with
      | idle =>
          let '(b', d) := cb_step b (OpBefore now) in
          if bool_decide (d = Some true) then disciplined b' admitted_ r
          else match r with [] => true | _ => false end
      | _ => false
      end
  | ev_breaker op :: r =>
      match p with dispatched => disciplined (cb_step b op).1 idle r | _ => false end
  | ev_dispatch _ _ :: r => match p with admitted_ => disciplined b dispatched r | _ => false end
  | ev_wait _ :: r => match p with idle => disciplined b idle r | _ => false end
  end.

Lemma disciplined_before b now r :
  (cb_step b (OpBefore now)).2 = Some true →
  disciplined b idle (ev_breaker (OpBefore now) :: r) = disciplined (cb_step b (OpBefore now)).1 admitted_ r.
Proof. intros Hd. cbn [disciplined]. destruct (cb_step b (OpBefore now)) as [b' d]. simpl in *. by rewrite Hd. Qed.

Lemma disciplined_dispatch b a q r : disciplined b admitted_ (ev_dispatch a q :: r) = disciplined b dispatched r.
Proof. done. Qed.

Lemma disciplined_failure b f now r :
  disciplined b dispatched (ev_breaker (failure_op f now) :: r) = disciplined (cb_step b (failure_op f now)).1 idle r.
Proof. unfold failure_op. by destruct (shouldRetry f). Qed.

Section transcripts.
Context (backoff : list Q) (maxAttempts : Z) (world : Z → LlmGenerationRequest → attempt_surroundings).

Lemma transcript_disciplined a r b evs res :
  transcript backoff maxAttempts world a r b evs res → disciplined b idle evs = true.
Proof.
  induction 1 as [a r b Hno|a r b s Hok Ha|a r b f Hok Ha Hend|a r b f evs res Hok Ha Hr Hlt Htr IH].
  - cbn [disciplined]. destruct (cb_step b _) as [b' d]. simpl in *. by rewrite bool_decide_eq_false_2.
  - by rewrite disciplined_before.
  - by rewrite disciplined_before, disciplined_dispatch, disciplined_failure.
  - cbn [app]. rewrite disciplined_before, disciplined_dispatch, disciplined_failure by done.
    by case_match.
Qed.

(** The dispatches of an attempt that is repeated. *)
Lemma omap_retry a r f evs :
  omap dispatch_of ([ev_breaker (OpBefore (as_before (world a r))); ev_dispatch a r;
                     ev_breaker (failure_op f (as_after (world a r)))]
    ++ (if Qle_bool (backoff_wait backoff a) 0 then [] else [ev_wait (backoff_wait backoff a)]) ++ evs) =
  (a, r) :: omap dispatch_of evs.
Proof. unfold failure_op. destruct (shouldRetry f), (Qle_bool _ _); done. Qed.

Lemma transcript_numbers a r b evs res :
  transcript backoff maxAttempts world a r b evs res →
  (omap dispatch_of evs).*1 = seqZ a (Z.of_nat (length (omap dispatch_of evs))) ∧
  (a ≤ maxAttempts → Z.of_nat (length (omap dispatch_of evs)) ≤ maxAttempts - a + 1).
Proof.
  induction 1 as [a r b Hno|a r b s Hok Ha|a r b f Hok Ha Hend|a r b f evs res Hok Ha Hr Hlt Htr [IH1 IH2]].
  - simpl. split; [done|lia].
  - simpl. rewrite seqZ_cons by lia. split; [done|lia].
  - simpl. unfold failure_op. destruct (shouldRetry f); simpl; rewrite seqZ_cons by lia; (split; [done|lia]).
  - rewrite omap_retry.
    rewrite fmap_cons, IH1. cbn [length fst]. rewrite Nat2Z.inj_succ. split; [|lia].
    rewrite (seqZ_cons a) by lia. by rewrite Z.pred_succ, Z.add_1_r.
Qed.

(** Nothing but a dispatch gives a success, and it ends the attempts. *)
Lemma transcript_success a r b evs s :
  transcript backoff maxAttempts world a r b evs (gen_success s) →
  ∃ pre a' r' now, evs = pre ++ [ev_dispatch a' r'; ev_breaker (OpSuccess now)] ∧
                   answer (world a' r') a' = gen_success s.
Proof.
  intros Htr. remember (gen_success s) as res eqn:E. revert E.
  induction Htr as [a r b Hno|a r b s' Hok Ha|a r b f Hok Ha Hend|a r b f evs res Hok Ha Hr Hlt Htr IH]; [done| |done|].
  - intros [= ->]. by exists [ev_breaker (OpBefore (as_before (world a r)))], a, r, (as_after (world a r)).
  - intros E. destruct (IH E) as (pre & a' & r' & now & -> & Hans).
    match goal with |- context [?x ++ ?y ++ pre ++ ?z] => exists (x ++ y ++ pre), a', r', now end.
    split; [by rewrite !app_assoc|done].
Qed.
End transcripts.

(** ** Output budgets *)

(** The budget of a later attempt: none when the request has none, and else at
    least that of the request and at most the larger of it and the ceiling. *)
Definition budget_within (n m : option jsnum) : Prop :=
  match n, m with
  | None, None => True
  | Some (Fin q), Some (Fin q') =>
      positive_safe (Fin q') = true ∧ (q <= q')%Q ∧ (q' <= Qmax q INCOMPLETE_RETRY_OUTPUT_TOKEN_LIMIT)%Q
  | _, _ => False
  end.

Lemma budget_within_refl n : (∀ m, n = Some m → positive_safe m = true) → budget_within n n.
Proof.
  intros Hn. destruct n as [m|]; [|done]. specialize (Hn m eq_refl). destruct m as [| | |q]; try done.
  split; [done|]. split; [apply Qle_refl|apply Q.le_max_l].
Qed.

Lemma budget_within_trans n m k : budget_within n m → budget_within m k → budget_within n k.
Proof.
  destruct n as [[| | |q]|], m as [[| | |q']|], k as [[| | |q'']|]; simpl; try done.
  intros (_ & H1 & H2) (Hp & H3 & H4). split; [done|]. split; [by apply (Qle_trans _ q')|].
  eapply Qle_trans; [exact H4|]. apply Q.max_lub; [done|apply Q.le_max_r].
Qed.

Lemma expand_cases q :
  positive_safe (Fin q) = true →
  ∃ q', expandMaxOutputTokensForRetry (Fin q) = Fin q' ∧ positive_safe (Fin q') = true ∧
        (q' <= Qmax q INCOMPLETE_RETRY_OUTPUT_TOKEN_LIMIT)%Q.
Proof.
  intros Hp. unfold expandMaxOutputTokensForRetry. rewrite Hp. cbn [negb].
  destruct (negb (Number.isSafeInteger (Fin (q * 2))) || Number.leb (Fin (q * 2)) (Fin q)) eqn:E.
  - exists q. split_and!; [done|done|apply Q.le_max_l].
  - apply orb_false_iff in E as [Es%negb_false_iff El].
    destruct (Qle_bool INCOMPLETE_RETRY_OUTPUT_TOKEN_LIMIT (q * 2)) eqn:Elim.
    + exists INCOMPLETE_RETRY_OUTPUT_TOKEN_LIMIT. split_and!; [done|done|apply Q.le_max_r].
    + exists (q * 2)%Q. split; [done|]. unfold positive_safe in *. apply andb_true_iff in Hp as [_ Hp].
      unfold Number.ltb in Hp. apply andb_true_iff in Hp as [H0 Hp]. simpl in H0, Hp, El, Elim.
      apply negb_true_iff, not_true_iff_false in Hp. rewrite Qle_bool_iff in H0, Hp.
      apply not_true_iff_false in Elim. rewrite Qle_bool_iff in Elim. change (inject_Z 0) with 0%Q in *.
      apply Qnot_le_lt in Elim, Hp. split.
      * rewrite Es. unfold Number.ltb. simpl. change (inject_Z 0) with 0%Q. apply andb_true_iff.
        rewrite negb_true_iff, <- not_true_iff_false, !Qle_bool_iff.
        assert (0 < q * 2)%Q by (apply Qmult_lt_0_compat; [done|reflexivity]).
        split; [by apply Qlt_le_weak|]. by apply Qlt_not_le.
      * apply (Qle_trans _ INCOMPLETE_RETRY_OUTPUT_TOKEN_LIMIT); [by apply Qlt_le_weak|apply Q.le_max_r].
Qed.

Lemma next_request_budget f r :
  (∀ m, rq_maxOutputTokens r = Some m → positive_safe m = true) →
  budget_within (rq_maxOutputTokens r) (rq_maxOutputTokens (next_request f r)).
Proof.
  intros Hp. unfold next_request. destruct (rq_maxOutputTokens r) as [n|] eqn:En; [|by rewrite En].
  specialize (Hp n eq_refl).
  destruct (_ && _) eqn:E; [|rewrite En; apply budget_within_refl; by intros m [= <-]].
  apply andb_true_iff in E as [_ E]. destruct n as [| | |q]; try done.
  destruct (expand_cases q Hp) as (q' & Heq & Hp' & Hle). cbn [rq_maxOutputTokens with_max_output].
  rewrite Heq in *. split; [done|]. split; [|done].
  unfold Number.ltb in E. apply andb_true_iff in E as [E _]. by apply Qle_bool_iff.
Qed.

Lemma transcript_budgets backoff maxAttempts world a r b evs res :
  transcript backoff maxAttempts world a r b evs res →
  (∀ m, rq_maxOutputTokens r = Some m → positive_safe m = true) →
  Forall (λ d, budget_within (rq_maxOutputTokens r) (rq_maxOutputTokens d.2)) (omap dispatch_of evs).
Proof.
  induction 1 as [a r b Hno|a r b s Hok Ha|a r b f Hok Ha Hend|a r b f evs res Hok Ha Hr Hlt Htr IH]; intros Hp.
  - constructor.
  - repeat constructor. by apply budget_within_refl.
  - simpl. unfold failure_op. destruct (shouldRetry f); repeat constructor; by apply budget_within_refl.
  - rewrite omap_retry.
    constructor; [by apply budget_within_refl|].
    pose proof (next_request_budget f r Hp) as Hn.
    eapply Forall_impl; [apply IH|intros d; by apply budget_within_trans].
    intros m Hm. rewrite Hm in Hn. destruct (rq_maxOutputTokens r) as [[| | |q]|]; try done.
    destruct m; try done. apply Hn.
Qed.

(** A later attempt differs from the request in its output budget only. *)
Lemma transcript_requests backoff maxAttempts world a r b evs res :
  transcript backoff maxAttempts world a r b evs res →
  Forall (λ d, d.2 = r ∨ ∃ n, d.2 = with_max_output n r) (omap dispatch_of evs).
Proof.
  induction 1 as [a r b Hno|a r b s Hok Ha|a r b f Hok Ha Hend|a r b f evs res Hok Ha Hr Hlt Htr IH].
  - constructor.
  - repeat constructor.
  - simpl. unfold failure_op. destruct (shouldRetry f); repeat constructor.
  - rewrite omap_retry. constructor; [by left|].
    eapply Forall_impl; [apply IH|]. intros d Hd. cbv beta in Hd |- *.
    assert (next_request f r = r ∨ ∃ n, next_request f r = with_max_output n r) as Hn.
    { unfold next_request. destruct (rq_maxOutputTokens r); [|by left]. destruct (_ && _); [right; by eexists|by left]. }
    destruct Hn as [Hn|[n Hn]]; rewrite Hn in Hd; [done|]. right. destruct Hd as [->|[m ->]]; by eexists.
Qed.

(** ** Calls *)

Lemma guards_None `{JsonText} c r :
  guards c r = None →
  (∀ m, rq_maxOutputTokens r = Some m → positive_safe m = true) ∧
  (∀ n, rq_maxRetries r = Some n → Number.isSafeInteger n = true ∧ Number.ltb n (num 0) = false).
Proof.
  unfold guards. intros Hg.
  assert (guardMaxRetriesBudget r = None ∧ guardOutputBudgetSupport c r = None) as [Hr Ho].
  { simpl in Hg. destruct (guardImagePayload _ _), (guardInputBudget _ _), (guardWallClockBudget _),
      (guardMaxRetriesBudget _), (guardOutputBudgetSupport _ _); done. }
  split.
  - intros m Hm. unfold guardOutputBudgetSupport in Ho. rewrite Hm in Ho. by destruct (positive_safe m).
  - intros n Hn. unfold guardMaxRetriesBudget in Hr. rewrite Hn in Hr.
    destruct (Number.isSafeInteger n), (Number.ltb n (num 0)); done.
Qed.

Section calls.
Context `{Hmac} `{JsonText} `{ErrorText} (c : client).

Lemma run_attempts_transcript r pending world g :
  let '(res, g') := run_attempts c r pending world g in
  ∃ evs, transcript (cl_backoff c) (max_attempts c r) world 1 r (gw_breaker g) evs res ∧
         gw_log g' = gw_log g ++ evs ∧ gw_breaker g' = (cb_run (gw_breaker g) (omap breaker_op evs)).1.
Proof.
  unfold run_attempts. apply attempt_loop_transcript; unfold max_attempts; lia.
Qed.

Lemma max_attempts_bounds r :
  1 ≤ max_attempts c r ∧ max_attempts c r ≤ Z.max 1 (gc_maxRetries (cl_config c) + 1) ∧
  ∀ k, rq_maxRetries r = Some (num k) → max_attempts c r ≤ Z.max 1 (k + 1).
Proof.
  unfold max_attempts. destruct (rq_maxRetries r) as [n|]; (split; [lia|]; split; [lia|]); [|done].
  intros k [= ->]. unfold integer_part, num. rewrite Qfloor_Z. lia.
Qed.

(** How a call may go. *)
Inductive call_outcome (r : LlmGenerationRequest) (lookup_world : surroundings)
    (world : Z → LlmGenerationRequest → attempt_surroundings) (g : gateway) :
    LlmGenerationResult → gateway → Prop :=
| co_refused f : guards (cl_config c) r = Some f → call_outcome r lookup_world world g (gen_failure f) g
| co_lookup_failed f g' :
    guards (cl_config c) r = None → lf_retryable f = false → gw_log g' = gw_log g → gw_breaker g' = gw_breaker g →
    call_outcome r lookup_world world g (gen_failure f) g'
| co_replayed cache i key s g' :
    guards (cl_config c) r = None → cl_cache c = Some cache → rq_idempotency r = Some i →
    (lookup cache i lookup_world (gw_cache g)).1 = Ok (replay_hit key s) →
    gw_log g' = gw_log g → gw_breaker g' = gw_breaker g →
    call_outcome r lookup_world world g (gen_success s) g'
| co_attempted evs res g' :
    guards (cl_config c) r = None →
    transcript (cl_backoff c) (max_attempts c r) world 1 r (gw_breaker g) evs res →
    gw_log g' = gw_log g ++ evs → gw_breaker g' = (cb_run (gw_breaker g) (omap breaker_op evs)).1 →
    call_outcome r lookup_world world g res g'.

Lemma generateUncached_outcome r lookup_world world g :
  call_outcome r lookup_world world g (generateUncached c r lookup_world world g).1
    (generateUncached c r lookup_world world g).2.
Proof.
  unfold generateUncached. destruct (guards (cl_config c) r) as [f|] eqn:Eg; [by apply co_refused|].
  assert (∀ pending g0, gw_log g0 = gw_log g → gw_breaker g0 = gw_breaker g →
    call_outcome r lookup_world world g (run_attempts c r pending world g0).1 (run_attempts c r pending world g0).2) as Hrun.
  { intros pending g0 Hl Hb. pose proof (run_attempts_transcript r pending world g0) as Ht.
    destruct (run_attempts c r pending world g0) as [res g']. destruct Ht as (evs & Htr & Hlog & Hbr).
    rewrite Hl in Hlog. rewrite Hb in Htr, Hbr. by eapply co_attempted. }
  destruct (cl_cache c) as [cache|] eqn:Ec; [|by apply Hrun].
  destruct (rq_idempotency r) as [i|] eqn:Ei; [|by apply Hrun].
  pose proof (co_replayed r lookup_world world g cache i) as Hrep.
  destruct (lookup cache i lookup_world (gw_cache g)) as [[[key s|key]|e] st].
  - by eapply Hrep.
  - by apply Hrun.
  - by apply co_lookup_failed.
Qed.
End calls.

(** ** What a success stores *)

Section stores.
Context `{Hmac} `{JsonText} `{ErrorText} (c : client).

Lemma attempt_loop_stores remaining a maxAttempts r pending last world g s :
  (attempt_loop c remaining a maxAttempts r pending last world g).1 = gen_success s →
  ∃ a' r', gw_cache (attempt_loop c remaining a maxAttempts r pending last world g).2 =
    match cl_cache c, pending with
    | Some cache, Some key => (store cache key s (as_store (world a' r')) (gw_cache g)).2
    | _, _ => gw_cache g
    end.
Proof.
  revert a r last g. induction remaining as [|remaining IH]; intros a r last g; [done|].
  cbn [attempt_loop]. cbv zeta.
  destruct (bool_decide ((cb_step (gw_breaker g) _).2 = Some true)); cbn [negb]; [|discriminate].
  fold (answer (world a r) a). destruct (answer (world a r) a) as [s'|f].
  - intros [= ->]. exists a, r. unfold store_success. by destruct (cl_cache c), pending.
  - destruct (negb (shouldRetry f) || (maxAttempts <=? a)); [discriminate|].
    intros Hs. destruct (IH _ _ _ _ Hs) as (a' & r' & ->). exists a', r'.
    destruct (Qle_bool (backoff_wait (cl_backoff c) a) 0); done.
Qed.

(** A call that answered a lookup miss with a success has stored it. *)
Lemma generate_stores cache r i lookup_world world g s :
  cl_cache c = Some cache → rq_idempotency r = Some i →
  (generateUncached c r lookup_world world g).1 = gen_success s →
  (∃ key, (lookup cache i lookup_world (gw_cache g)).1 = Ok (replay_hit key s)) ∨
  ∃ key a' r' st, computeKey (cc_secret cache) (en_secret lookup_world) i = Ok key ∧
    gw_cache (generateUncached c r lookup_world world g).2 = (store cache key s (as_store (world a' r')) st).2.
Proof.
  intros Hc Hi. unfold generateUncached. destruct (guards (cl_config c) r); [done|]. rewrite Hc, Hi.
  pose proof (lookup_key cache i lookup_world (gw_cache g)) as Hk.
  destruct (lookup cache i lookup_world (gw_cache g)) as [[[key s'|key]|e] st]; simpl in *; [| |done].
  - intros [= ->]. left. by exists key.
  - intros Hs. right. unfold run_attempts in *. destruct (attempt_loop_stores _ _ _ _ _ _ _ _ _ Hs) as (a' & r' & E).
    exists key, a', r', st. split; [done|]. rewrite E, Hc. done.
Qed.

(** A lookup hit is answered at once. *)
Lemma hit_answers cache r i lookup_world world g key s :
  guards (cl_config c) r = None → cl_cache c = Some cache → rq_idempotency r = Some i →
  (lookup cache i lookup_world (gw_cache g)).1 = Ok (replay_hit key s) →
  (generateUncached c r lookup_world world g).1 = gen_success s ∧
  gw_log (generateUncached c r lookup_world world g).2 = gw_log g ∧
  gw_breaker (generateUncached c r lookup_world world g).2 = gw_breaker g.
Proof.
  intros Hg Hc Hi Hl. unfold generateUncached. rewrite Hg, Hc, Hi.
  destruct (lookup cache i lookup_world (gw_cache g)) as [a st]. simpl in Hl. by subst a.
Qed.

(** A call without guards' refusal that dispatched has missed the cache. *)
Lemma dispatched_stores cache r i lookup_world world g s :
  cl_cache c = Some cache → rq_idempotency r = Some i →
  (generateUncached c r lookup_world world g).1 = gen_success s →
  gw_log (generateUncached c r lookup_world world g).2 ≠ gw_log g →
  ∃ key a' r' st, computeKey (cc_secret cache) (en_secret lookup_world) i = Ok key ∧
    gw_cache (generateUncached c r lookup_world world g).2 = (store cache key s (as_store (world a' r')) st).2.
Proof.
  intros Hc Hi Hs Hlog. destruct (generate_stores cache r i lookup_world world g s Hc Hi Hs) as [[key Hhit]|?]; [|done].
  destruct (guards (cl_config c) r) eqn:Eg.
  - exfalso. apply Hlog. unfold generateUncached. by rewrite Eg.
  - destruct (hit_answers cache r i lookup_world world g key s Eg Hc Hi Hhit) as (_ & ? & _). done.
Qed.
End stores.

(** ** Requests in flight *)

(** The key is the canonical text of its fields. *)
Record dedup_key := {
  dk_inputHash : string;
  dk_promptHash : string;
  dk_modelBinding : string;
  dk_schemaHash : string;
  dk_policyProfileHash : string;
}.

#[export] Instance dedup_key_eq_dec : EqDecision dedup_key.
Proof. solve_decision. Defined.

Definition dedup_text (k : dedup_key) : json :=
  canonicalJson (JObject (Json.literal
    [("inputHash", Some (JString (dk_inputHash k))); ("promptHash", Some (JString (dk_promptHash k)));
     ("modelBinding", Some (JString (dk_modelBinding k))); ("schemaHash", Some (JString (dk_schemaHash k)));
     ("policyProfileHash", Some (JString (dk_policyProfileHash k)))])).

(** The error names the field. *)
Definition buildInFlightDedupKey (i : GatewayInFlightDedupInputs) : outcome string dedup_key :=
  (guard_throw (negb (isHex64 (dd_inputHash i))) "inputHash" ;;;
   guard_throw (negb (isHex64 (dd_promptHash i))) "promptHash" ;;;
   guard_throw (bool_decide (trim (dd_modelBinding i) = "")) "modelBinding" ;;;
   guard_throw (negb (isHex64 (dd_schemaHash i))) "schemaHash" ;;;
   guard_throw (negb (isHex64 (dd_policyProfileHash i))) "policyProfileHash" ;;;
   guard_throw (bool_decide (dd_source i = Some "")) "source" ;;;
   Ok {| dk_inputHash := dd_inputHash i; dk_promptHash := dd_promptHash i; dk_modelBinding := dd_modelBinding i;
         dk_schemaHash := dd_schemaHash i; dk_policyProfileHash := dd_policyProfileHash i |})%outcome.

Record shared_run := { sr_key : dedup_key; sr_result : option LlmGenerationResult }.

(** The promises of the client by number, those in flight by key, the promise
    each caller was given, and the sources credited with a hit. *)
Record inflight := {
  if_runs : list shared_run;
  if_map : dedup_key → option nat;
  if_calls : list (dedup_key * nat);
  if_hits : list string;
}.

Definition no_requests : inflight := {| if_runs := []; if_map := λ _, None; if_calls := []; if_hits := [] |}.

Definition map_put (k : dedup_key) (v : option nat) (m : dedup_key → option nat) : dedup_key → option nat :=
  λ k', if bool_decide (k' = k) then v else m k'.

(** [generate] up to its first [await], for a request with dedup inputs. *)
Definition generate_shared (i : GatewayInFlightDedupInputs) (s : inflight) : outcome string nat * inflight :=
  match buildInFlightDedupKey i with
  | Throw field => (Throw field, s)
  | Ok key =>
      match if_map s key with
      | Some run =>
          (Ok run, {| if_runs := if_runs s; if_map := if_map s; if_calls := if_calls s ++ [(key, run)];
                      if_hits := if_hits s ++ option_list (dd_source i) |})
      | None =>
          let run := length (if_runs s) in
          (Ok run, {| if_runs := if_runs s ++ [{| sr_key := key; sr_result := None |}];
                      if_map := map_put key (Some run) (if_map s); if_calls := if_calls s ++ [(key, run)];
                      if_hits := if_hits s |})
      end
  end.

(** The promise of a run settles. *)
Definition settle (run : nat) (res : LlmGenerationResult) (s : inflight) : inflight :=
  match if_runs s !! run with
  | Some {| sr_key := key; sr_result := None |} =>
      {| if_runs := <[run := {| sr_key := key; sr_result := Some res |}]> (if_runs s); if_map := if_map s;
         if_calls := if_calls s; if_hits := if_hits s |}
  | _ => s
  end.

(** The [finally] of the caller that started the run. *)
Definition release (run : nat) (s : inflight) : inflight :=
  match if_runs s !! run with
  | Some {| sr_key := key; sr_result := Some _ |} =>
      if bool_decide (if_map s key = Some run)
      then {| if_runs := if_runs s; if_map := map_put key None (if_map s); if_calls := if_calls s; if_hits := if_hits s |}
      else s
  | _ => s
  end.

Inductive inflight_step : inflight → inflight → Prop :=
| step_call i s : inflight_step s (generate_shared i s).2
| step_settle run res s : inflight_step s (settle run res s)
| step_release run s : inflight_step s (release run s).

Record inflight_ok (s : inflight) : Prop := {
  io_map key run : if_map s key = Some run → ∃ res, if_runs s !! run = Some {| sr_key := key; sr_result := res |};
  io_pending run key : if_runs s !! run = Some {| sr_key := key; sr_result := None |} → if_map s key = Some run;
  io_calls key run : (key, run) ∈ if_calls s → ∃ res, if_runs s !! run = Some {| sr_key := key; sr_result := res |};
}.

Lemma inflight_call_ok i s : inflight_ok s → inflight_ok (generate_shared i s).2.
Proof.
  intros Hok. pose proof Hok as [Hm Hp Hc]. unfold generate_shared.
  destruct (buildInFlightDedupKey i) as [key|]; [|done]. destruct (if_map s key) as [run|] eqn:E; simpl.
  - split; simpl; [done|done|]. intros k run' [?|[= -> ->]%list_elem_of_singleton]%elem_of_app; auto.
  - assert (∀ r x, if_runs s !! r = Some x → (if_runs s ++ [{| sr_key := key; sr_result := None |}]) !! r = Some x) as Hold.
    { intros r x Hx. by apply lookup_app_l_Some. }
    assert ((if_runs s ++ [{| sr_key := key; sr_result := None |}]) !! length (if_runs s) =
            Some {| sr_key := key; sr_result := None |}) as Hnew by (by apply list_lookup_middle).
    split; simpl.
    + intros k run. unfold map_put. case_bool_decide as Hk; [intros [= <-]; subst; by eexists|].
      intros Hr. destruct (Hm k run Hr) as [res Hres]. exists res. auto.
    + intros run k Hr. unfold map_put. apply lookup_app_Some in Hr as [Hr|[Hle Hr]].
      * case_bool_decide as Hk; [|auto]. subst k. apply Hp in Hr. congruence.
      * apply list_lookup_singleton_Some in Hr as [Hr [= <-]]. rewrite bool_decide_eq_true_2 by done. f_equal. lia.
    + intros k run [Hr|[= -> ->]%list_elem_of_singleton]%elem_of_app; [|by eexists].
      destruct (Hc k run Hr) as [res Hres]. exists res. auto.
Qed.

(** Settling a run changes only its result. *)
Lemma settle_lookup run res s r k x :
  if_runs (settle run res s) !! r = Some {| sr_key := k; sr_result := x |} →
  ∃ y, if_runs s !! r = Some {| sr_key := k; sr_result := y |} ∧ (x = None → y = None).
Proof.
  unfold settle. destruct (if_runs s !! run) as [[key [?|]]|] eqn:E; [by eexists| |by eexists].
  simpl. intros [(-> & [= <- <-] & _)|[? ?]]%list_lookup_insert_Some; [by exists None|by exists x].
Qed.

Lemma settle_kept run res s r k x :
  if_runs s !! r = Some {| sr_key := k; sr_result := x |} →
  ∃ y, if_runs (settle run res s) !! r = Some {| sr_key := k; sr_result := y |}.
Proof.
  intros Hr. unfold settle. destruct (if_runs s !! run) as [[key [?|]]|] eqn:E; [by eexists| |by eexists].
  simpl. destruct (decide (run = r)) as [->|Hne].
  - rewrite Hr in E. injection E as -> _. exists (Some res). apply list_lookup_insert_eq. by apply lookup_lt_Some in Hr.
  - exists x. by rewrite list_lookup_insert_ne.
Qed.

Lemma settle_rest run res s : if_map (settle run res s) = if_map s ∧ if_calls (settle run res s) = if_calls s.
Proof. unfold settle. by destruct (if_runs s !! run) as [[key [?|]]|]. Qed.

Lemma inflight_step_ok s s' : inflight_step s s' → inflight_ok s → inflight_ok s'.
Proof.
  intros [i s0|run res s0|run s0] Hok; [by apply inflight_call_ok| |]; destruct Hok as [Hm Hp Hc].
  - destruct (settle_rest run res s0) as [Em Ec]. split.
    + rewrite Em. intros k r Hr. destruct (Hm k r Hr) as [x Hx]. by eapply settle_kept.
    + rewrite Em. intros r k Hr. apply settle_lookup in Hr as (y & Hy & Hn). rewrite Hn in Hy by done. by apply Hp.
    + rewrite Ec. intros k r Hr. destruct (Hc k r Hr) as [x Hx]. by eapply settle_kept.
  - unfold release. destruct (if_runs s0 !! run) as [[key [res|]]|] eqn:E; [|by split..].
    case_bool_decide as Hk; [|by split]. split; simpl; [| |done].
    + intros k r. unfold map_put. case_bool_decide; [done|apply Hm].
    + intros r k Hr. pose proof (Hp r k Hr) as Hmap. unfold map_put. case_bool_decide as Hkk; [|done].
      subst k. rewrite Hk in Hmap. injection Hmap as ->. rewrite Hr in E. done.
Qed.

Lemma inflight_reachable_ok s : rtc inflight_step no_requests s → inflight_ok s.
Proof.
  intros Hr. refine (rtc_ind_r inflight_ok no_requests _ _ s Hr).
  - split; simpl; [done| |]; [by intros [|]|by intros ? ? ?%elem_of_nil].
  - intros y z _ Hyz. by apply inflight_step_ok.
Qed.

(** Keys with the same text are the same: no two requests collide. *)
Lemma dedup_text_inj k1 k2 : dedup_text k1 = dedup_text k2 → k1 = k2.
Proof.
  assert (∀ k, (field "inputHash" (dedup_text k), field "promptHash" (dedup_text k), field "modelBinding" (dedup_text k),
                field "schemaHash" (dedup_text k), field "policyProfileHash" (dedup_text k)) =
    (Some (JString (dk_inputHash k)), Some (JString (dk_promptHash k)), Some (JString (dk_modelBinding k)),
     Some (JString (dk_schemaHash k)), Some (JString (dk_policyProfileHash k)))) as Hf.
  { intros k. unfold dedup_text. by rewrite !field_canonical by discriminate. }
  intros E. pose proof (Hf k1) as H1. rewrite E, (Hf k2) in H1. destruct k1, k2. simpl in *. congruence.
Qed.

(** ** Properties *)

(** C35. What a call does on the wire is bounded and goes through the breaker. Whatever
    the surroundings answer, a call only appends to the log; the breaker ends
    where the recorded operations lead it; each dispatch is directly preceded by
    a decision that admits it and directly followed by one recorded outcome; the
    dispatches are numbered 1, 2, …, are at most the configured retries plus one
    and at most the retries the request allows plus one; and no attempt asks for
    fewer output tokens than the request, or for more than the larger of the
    request's budget and the ceiling. *)
Theorem gateway_attempts_bounded `{Hmac} `{JsonText} `{ErrorText} c r lookup_world world g :
  let '(_, g') := generateUncached c r lookup_world world g in
  ∃ evs, gw_log g' = gw_log g ++ evs ∧
         gw_breaker g' = (cb_run (gw_breaker g) (omap breaker_op evs)).1 ∧
         disciplined (gw_breaker g) idle evs = true ∧
         let sent := omap dispatch_of evs in
         sent.*1 = seqZ 1 (Z.of_nat (length sent)) ∧
         Z.of_nat (length sent) ≤ Z.max 1 (gc_maxRetries (cl_config c) + 1) ∧
         (∀ k, rq_maxRetries r = Some (num k) → Z.of_nat (length sent) ≤ Z.max 1 (k + 1)) ∧
         Forall (λ d, budget_within (rq_maxOutputTokens r) (rq_maxOutputTokens d.2)) sent.
Proof.
  pose proof (generateUncached_outcome c r lookup_world world g) as Ho.
  destruct (generateUncached c r lookup_world world g) as [res g']. simpl in Ho.
  assert (gw_log g' = gw_log g ∧ gw_breaker g' = gw_breaker g ∨ ∃ evs, guards (cl_config c) r = None ∧
    transcript (cl_backoff c) (max_attempts c r) world 1 r (gw_breaker g) evs res ∧
    gw_log g' = gw_log g ++ evs ∧ gw_breaker g' = (cb_run (gw_breaker g) (omap breaker_op evs)).1)
    as [[Hl Hb]|(evs & Hg & Htr & Hl & Hb)] by (destruct Ho; eauto 10).
  - exists []. rewrite app_nil_r. cbn. repeat split; try done; try lia.
  - exists evs. destruct (guards_None (cl_config c) r Hg) as [Hout _].
    destruct (transcript_numbers _ _ _ _ _ _ _ _ Htr) as [Hnum Hlen].
    destruct (max_attempts_bounds c r) as (Hone & Hcfg & Hreq). specialize (Hlen Hone). cbv zeta. split_all; try done.
    + by eapply transcript_disciplined.
    + lia.
    + intros k Hk. specialize (Hreq k Hk). lia.
    + by eapply transcript_budgets.
Qed.

(** A repeated call does not reach the model. When a call of a request with
    idempotency inputs dispatched and succeeded, and its result could be written
    to disk, then after any further use of the cache, restarts included, in which
    nothing else is stored under its key, a call with the same inputs within the
    time to live answers with that result, as it was stored or as its file gives
    it back, sends nothing and leaves the breaker alone. *)
Theorem second_call_replays `{Hmac} `{JsonText} `{ErrorText} c cache i r1 lw1 world1 g s calls r2 lw2 world2 g2 :
  cl_cache c = Some cache → cc_hasDisk cache = true →
  rq_idempotency r1 = Some i → rq_idempotency r2 = Some i → guards (cl_config c) r2 = None →
  (generateUncached c r1 lw1 world1 g).1 = gen_success s →
  gw_log (generateUncached c r1 lw1 world1 g).2 ≠ gw_log g → isFinishReason (ls_finishReason s) = true →
  (∀ a r, en_writable (as_store (world1 a r)) = true ∧
          isFresh cache (en_now (as_store (world1 a r))) (en_now lw2) = true) →
  computeKey (cc_secret cache) (en_secret lw2) i = computeKey (cc_secret cache) (en_secret lw1) i →
  en_readable lw2 = true →
  (∀ key, computeKey (cc_secret cache) (en_secret lw1) i = Ok key → Forall (not_stored (gk_hmac key)) calls) →
  gw_cache g2 = run_calls cache calls (gw_cache (generateUncached c r1 lw1 world1 g).2) →
  let '(res, g3) := generateUncached c r2 lw2 world2 g2 in
  (∃ s', res = gen_success s' ∧ same_result s s') ∧ gw_log g3 = gw_log g2 ∧ gw_breaker g3 = gw_breaker g2.
Proof.
  intros Hc Hdisk Hi1 Hi2 Hg2 Hs Hlog Hfin Hw Hkeys Hread Hcalls Hg.
  destruct (dispatched_stores c cache r1 i lw1 world1 g s Hc Hi1 Hs Hlog) as (key & a & r & st & Hkey & Hst).
  destruct (Hw a r) as [Hwr Hfresh]. rewrite Hst in Hg.
  destruct (keeps_lookup cache key s (as_store (world1 a r)) i lw2 (gw_cache g2)) as (s' & Hl & Hsame); try done.
  - by rewrite Hkeys.
  - rewrite Hg. apply keeps_run; [by apply Hcalls|]. apply keeps_store; [by eapply computeKey_isHex64|done|done].
  - destruct (hit_answers c cache r2 i lw2 world2 g2 key s' Hg2 Hc Hi2 Hl) as (? & ? & ?).
    destruct (generateUncached c r2 lw2 world2 g2) as [res g3]. simpl in *. split; [by exists s'|done].
Qed.

(** Requests in flight are shared, by key and by nothing else. However calls,
    settling promises and the clean-up after them interleave: while a run is
    pending there is no second pending run with its key, a call with its key
    joins it, every caller holds a run that was started for its own key, a call
    that finds none pending starts a new one or joins one that has just settled
    and is not yet removed; and two keys are the same exactly when their texts
    are. *)
Theorem inflight_requests_are_shared s :
  rtc inflight_step no_requests s →
  (∀ run1 run2 key, if_runs s !! run1 = Some {| sr_key := key; sr_result := None |} →
     if_runs s !! run2 = Some {| sr_key := key; sr_result := None |} → run1 = run2) ∧
  (∀ i key run, buildInFlightDedupKey i = Ok key → if_runs s !! run = Some {| sr_key := key; sr_result := None |} →
     (generate_shared i s).1 = Ok run ∧ if_runs (generate_shared i s).2 = if_runs s) ∧
  (∀ key run, (key, run) ∈ if_calls s → sr_key <$> if_runs s !! run = Some key) ∧
  (∀ i key, buildInFlightDedupKey i = Ok key → ∃ run, (generate_shared i s).1 = Ok run ∧
     (run = length (if_runs s) ∨ sr_key <$> if_runs s !! run = Some key)) ∧
  (∀ k1 k2, dedup_text k1 = dedup_text k2 ↔ k1 = k2).
Proof.
  intros [Hm Hp Hc]%inflight_reachable_ok. split_all.
  - intros run1 run2 key Hr1%Hp Hr2%Hp. congruence.
  - intros i key run Hk Hr%Hp. unfold generate_shared. by rewrite Hk, Hr.
  - intros key run Hin. destruct (Hc key run Hin) as [res ->]. done.
  - intros i key Hk. unfold generate_shared. rewrite Hk. destruct (if_map s key) as [run|] eqn:E; simpl; eexists; split; eauto.
    right. destruct (Hm key run E) as [res ->]. done.
  - intros k1 k2. split; [apply dedup_text_inj|by intros ->].
Qed.

(** ** A concrete client *)

#[local] Existing Instance sample_hmac.
#[local] Instance sample_json_text : JsonText := {| json_stringify _ := "{}"; json_parse _ := None |}.
#[local] Instance sample_error_text : ErrorText := {| error_text _ := "" |}.

Definition sample_config : LlmGatewayClientConfig :=
  {| gc_role := "test_generation"; gc_compatibilityMode := "openai_chat"; gc_baseUrl := "https://llm.example/openai";
     gc_deployment := "d"; gc_modelRevision := "r"; gc_gatewayRelease := "g"; gc_authMode := "none";
     gc_capabilities := {| cp_structuredOutputs := true; cp_seedSupport := false; cp_reasoningEffortSupport := false;
                           cp_maxOutputTokensSupport := true; cp_streamingSupport := false;
                           cp_imageInputSupport := false |};
     gc_timeoutMs := 60000; gc_maxRetries := 2; gc_maxResponseBytes := None; gc_wireStructuredOutputMode := None;
     gc_constrainedDecoding := None; gc_imageTokenStrategy := None |}.

Definition sample_client : client :=
  {| cl_config := sample_config; cl_backoff := [100%Q]; cl_cache := Some small_cache |}.

Definition sample_request : LlmGenerationRequest :=
  {| rq_systemPrompt := "s"; rq_userPrompt := "u"; rq_responseSchema := None;
     rq_responseSchemaName := None; rq_imageInputs := []; rq_seed := None; rq_reasoningEffort := None;
     rq_maxInputTokens := None; rq_maxOutputTokens := Some (num 40000); rq_maxWallClockMs := None;
     rq_maxRetries := None; rq_idempotency := Some (sample_inputs "a"); rq_inFlightDedup := None |}.

(** The first answer is cut short, the later ones are complete. *)
Definition sample_world (a : Z) (_ : LlmGenerationRequest) : attempt_surroundings :=
  {| as_before := 0;
     as_result := if a =? 1 then Ok (gen_failure {| lf_errorClass := "incomplete"; lf_message := "";
                                                    lf_constrainedDecoding := None;
                                                    lf_retryable := true; lf_attempt := 1 |})
                  else Ok (gen_success sample_success);
     as_after := 1; as_store := at_time 10 |}.

Definition sample_gateway : gateway :=
  {| gw_breaker := fresh_breaker;
     gw_cache := new_process ∅; gw_log := [] |}.

(** The budget of the second attempt is the ceiling. *)
Example sample_call :
  let '(res, g) := generateUncached sample_client sample_request (at_time 0) sample_world sample_gateway in
  res = gen_success sample_success ∧
  (λ d, (d.1, rq_maxOutputTokens d.2)) <$> omap dispatch_of (gw_log g) =
    [(1, Some (num 40000)); (2, Some (num 64000))].
Proof. vm_compute. done. Qed.

Example second_call_replays_witness :
  let g1 := (generateUncached sample_client sample_request (at_time 0) sample_world sample_gateway).2 in
  let g2 := on_cache (run_calls small_cache [call_restart; call_store (sample_key "z" digest_b) sample_success (at_time 20)]
                        (gw_cache g1)) sample_gateway in
  let '(res, g3) := generateUncached sample_client sample_request (at_time 60) sample_world g2 in
  (∃ s', res = gen_success s' ∧ same_result sample_success s') ∧ gw_log g3 = gw_log g2 ∧ gw_breaker g3 = gw_breaker g2.
Proof.
  apply (second_call_replays sample_client small_cache (sample_inputs "a") sample_request (at_time 0) sample_world
    sample_gateway sample_success [call_restart; call_store (sample_key "z" digest_b) sample_success (at_time 20)]);
    try reflexivity; [vm_compute; discriminate|intros a r; split; reflexivity|].
  intros key Hkey. vm_compute in Hkey. injection Hkey as <-.
  constructor; [done|]. constructor; [|done]. vm_compute. discriminate.
Defined.

Definition sample_dedup (source : string) : GatewayInFlightDedupInputs :=
  {| dd_inputHash := digest_a; dd_promptHash := digest_a; dd_modelBinding := "m"; dd_schemaHash := digest_a;
     dd_policyProfileHash := digest_b; dd_source := Some source |}.

(** Two callers with one key share the run, and the second is credited. *)
Example inflight_requests_are_shared_witness :
  let s := (generate_shared (sample_dedup "logic") (generate_shared (sample_dedup "ui") no_requests).2).2 in
  (if_calls s).*2 = [0; 0]%nat ∧ if_hits s = ["logic"] ∧
  (∀ key run, (key, run) ∈ if_calls s → sr_key <$> if_runs s !! run = Some key).
Proof.
  split; [vm_compute; reflexivity|]. split; [vm_compute; reflexivity|].
  apply inflight_requests_are_shared.
  eapply rtc_l; [apply (step_call (sample_dedup "ui"))|]. apply rtc_once, step_call.
Defined.
