(* ===== verification/GatewayDecoding.v ===== *)
(** * What the gateway puts on the wire

    [packages/model-gateway/src/constrained-decoding.ts] with its openai_chat
    adapters, and the URLs, headers and body of a dispatch in llm-gateway.ts.
    The platform's URL parser is a parameter. *)

From Stdlib Require Import Ascii.
From S2P Require Import Prelude JsString JsList JsValue CanonicalJson Contracts JsonView JsonSchemaSubset LlmTypes.

(** ** Adapters *)

(** [ad_supports wireMode compatibilityMode] is the reason of a refusal. *)
Record ConstrainedDecodingAdapter := {
  ad_id : LlmConstrainedDecodingAdapterId;
  ad_enforcement : LlmConstrainedDecodingEnforcement;
  ad_defaultWireMode : LlmGatewayWireStructuredOutputMode;
  ad_version : string;
  ad_supports : LlmGatewayWireStructuredOutputMode → string → option string;
}.

Definition DEFAULT_ADAPTER_VERSION : string := "1".
Definition OPENAI_CHAT_LLGUIDANCE_ADAPTER_VERSION : string := "1".
Definition OPENAI_CHAT_OUTLINES_ADAPTER_VERSION : string := "1".

(** [wireMode === mode ? { ok: true } : { ok: false, reason }] *)
Definition requires_mode (mode : LlmGatewayWireStructuredOutputMode) (reason : string)
    (wireMode : LlmGatewayWireStructuredOutputMode) : option string :=
  if bool_decide (wireMode = mode) then None else Some reason.

Definition LEGACY_ADAPTERS (adapterId : LlmConstrainedDecodingAdapterId) : ConstrainedDecodingAdapter :=
  match adapterId with
  | openai_json_schema =>
      {| ad_id := openai_json_schema; ad_enforcement := enforced_by_provider; ad_defaultWireMode := wire_json_schema;
         ad_version := DEFAULT_ADAPTER_VERSION;
         ad_supports wireMode _ := requires_mode wire_json_schema "openai_json_schema requires wire mode json_schema" wireMode |}
  | openai_json_object =>
      {| ad_id := openai_json_object; ad_enforcement := enforced_by_provider; ad_defaultWireMode := wire_json_object;
         ad_version := DEFAULT_ADAPTER_VERSION;
         ad_supports wireMode _ := requires_mode wire_json_object "openai_json_object requires wire mode json_object" wireMode |}
  | prompt_only =>
      {| ad_id := prompt_only; ad_enforcement := enforced_by_prompt; ad_defaultWireMode := wire_none;
         ad_version := DEFAULT_ADAPTER_VERSION; ad_supports _ _ := None |}
  | outlines =>
      {| ad_id := outlines; ad_enforcement := enforced_by_sampler; ad_defaultWireMode := wire_json_schema;
         ad_version := DEFAULT_ADAPTER_VERSION;
         ad_supports wireMode _ :=
           requires_mode wire_json_schema "outlines adapter currently requires wire mode json_schema" wireMode |}
  | llguidance =>
      {| ad_id := llguidance; ad_enforcement := enforced_by_sampler; ad_defaultWireMode := wire_json_schema;
         ad_version := DEFAULT_ADAPTER_VERSION;
         ad_supports _ compatibilityMode :=
           Some ("llguidance adapter has no binding for compatibility mode " +:+ compatibilityMode) |}
  end.

Definition isOpenAiChat (mode : string) : bool := bool_decide (mode = "openai_chat").

Definition buildOpenAiChatLlguidanceAdapter : ConstrainedDecodingAdapter :=
  {| ad_id := llguidance; ad_enforcement := enforced_by_provider; ad_defaultWireMode := wire_json_schema;
     ad_version := OPENAI_CHAT_LLGUIDANCE_ADAPTER_VERSION;
     ad_supports wireMode compatibilityMode :=
       if negb (isOpenAiChat compatibilityMode)
       then Some "llguidance adapter is bound to the openai_chat compatibility mode"
       else requires_mode wire_json_schema "llguidance on openai_chat requires wireStructuredOutputMode=json_schema"
              wireMode |}.

Definition buildOpenAiChatOutlinesAdapter : ConstrainedDecodingAdapter :=
  {| ad_id := outlines; ad_enforcement := enforced_by_provider; ad_defaultWireMode := wire_json_schema;
     ad_version := OPENAI_CHAT_OUTLINES_ADAPTER_VERSION;
     ad_supports wireMode compatibilityMode :=
       if negb (isOpenAiChat compatibilityMode)
       then Some "outlines adapter is bound to the openai_chat compatibility mode"
       else requires_mode wire_json_schema "outlines on openai_chat requires wireStructuredOutputMode=json_schema"
              wireMode |}.

Definition getOpenAiChatAdapter (adapterId : LlmConstrainedDecodingAdapterId) : option ConstrainedDecodingAdapter :=
  match adapterId with
  | llguidance => Some buildOpenAiChatLlguidanceAdapter
  | outlines => Some buildOpenAiChatOutlinesAdapter
  | _ => None
  end.

Definition resolveAdapter (adapterId : LlmConstrainedDecodingAdapterId) (compatibilityMode : string) :
    ConstrainedDecodingAdapter :=
  default (LEGACY_ADAPTERS adapterId)
    (if bool_decide (compatibilityMode = "openai_chat") then getOpenAiChatAdapter adapterId else None).

Definition DEFAULT_WIRE_MODE : LlmGatewayWireStructuredOutputMode := wire_json_schema.

Definition resolveLegacyAdapterId (wireMode : LlmGatewayWireStructuredOutputMode) : LlmConstrainedDecodingAdapterId :=
  match wireMode with
  | wire_json_object => openai_json_object
  | wire_none => prompt_only
  | wire_json_schema => openai_json_schema
  end.

(** The preferred adapter, the fallback adapter, the version and the wire mode. *)
Definition resolveConfiguredConstrainedDecoding (c : LlmGatewayClientConfig) :
    LlmConstrainedDecodingAdapterId * LlmConstrainedDecodingAdapterId * option string
    * LlmGatewayWireStructuredOutputMode :=
  let wireMode := default DEFAULT_WIRE_MODE (gc_wireStructuredOutputMode c) in
  match gc_constrainedDecoding c with
  | None => (resolveLegacyAdapterId wireMode, prompt_only, None, wireMode)
  | Some d => (dc_preferredAdapter d, default prompt_only (dc_fallbackAdapter d), dc_adapterVersion d, wireMode)
  end.

Definition resolveConstrainedDecodingMetadata (c : LlmGatewayClientConfig) (requestHasSchema : bool) :
    option LlmConstrainedDecodingMetadata :=
  if negb requestHasSchema then None
  else
    let '(preferredId, fallbackId, version, wireMode) := resolveConfiguredConstrainedDecoding c in
    let preferred := resolveAdapter preferredId (gc_compatibilityMode c) in
    match ad_supports preferred wireMode (gc_compatibilityMode c) with
    | None =>
        Some {| dm_adapterId := ad_id preferred; dm_enforcement := ad_enforcement preferred; dm_wireMode := wireMode;
                dm_fallback := false; dm_fallbackReason := None;
                dm_adapterVersion := Some (default (ad_version preferred) version) |}
    | Some reason =>
        let fallback := resolveAdapter fallbackId (gc_compatibilityMode c) in
        Some {| dm_adapterId := ad_id fallback; dm_enforcement := ad_enforcement fallback;
                dm_wireMode := ad_defaultWireMode fallback; dm_fallback := true; dm_fallbackReason := Some reason;
                dm_adapterVersion := Some (default (ad_version fallback) version) |}
    end.

Definition isKnownConstrainedDecodingAdapterId (value : string) : bool :=
  bool_decide (is_Some (parse_label (A := LlmConstrainedDecodingAdapterId) value)).

(** ** URLs *)

(** What [new URL] shows of a text; [url_with_path] is the serialization with
    another path. *)
Record parsed_url := {
  url_protocol : string;
  url_username : string;
  url_password : string;
  url_hostname : string;
  url_pathname : string;
  url_with_path : string → string;
}.
Class GatewayUrls := { new_URL : string → option parsed_url }.

(** [path.replace(/\/+$/u, "")] *)
Fixpoint trim_slashes (path : string) : string :=
  match path with
  | EmptyString => EmptyString
  | String c r =>
      match trim_slashes r with
      | EmptyString => if Ascii.eqb c "/"%char then EmptyString else String c EmptyString
      | r' => String c r'
      end
  end.

Definition with_default_path (url : parsed_url) (suffix : string) : string :=
  url_with_path url (trim_slashes (url_pathname url) +:+ suffix).

Definition appendOpenAiChatPath `{GatewayUrls} (baseUrl : string) : option string :=
  url ← new_URL baseUrl; Some (with_default_path url "/chat/completions").

Definition buildAzureOpenAiV1FallbackUrl `{GatewayUrls} (baseUrl : string) : option (option string) :=
  url ← new_URL baseUrl;
  Some (if bool_decide (is_Some (strip_suffix "/openai" (trim_slashes (url_pathname url))))
        then Some (with_default_path url "/v1/chat/completions") else None).

(** [None]: [new URL] throws. *)
Definition buildOpenAiChatUrlCandidates `{GatewayUrls} (baseUrl : string) : option (list string) :=
  let trimmed := default baseUrl (strip_suffix "/" baseUrl) in
  primary ← appendOpenAiChatPath trimmed;
  azureV1Fallback ← buildAzureOpenAiV1FallbackUrl trimmed;
  Some (match azureV1Fallback with
        | Some url => if bool_decide (url = primary) then [primary] else [url; primary]
        | None => [primary]
        end).

(** ** Body *)

Definition DEFAULT_WIRE_STRUCTURED_OUTPUT_MODE : LlmGatewayWireStructuredOutputMode := wire_json_schema.
Definition resolveWireMode (c : LlmGatewayClientConfig) : LlmGatewayWireStructuredOutputMode :=
  default DEFAULT_WIRE_STRUCTURED_OUTPUT_MODE (gc_wireStructuredOutputMode c).

Definition resolveOutputTokenLimitWireField (c : LlmGatewayClientConfig) : string :=
  if starts_with "mistral" (to_lower (gc_deployment c)) then "max_tokens" else "max_completion_tokens".

(** The schema and its name, when the request has both. *)
Definition named_schema (r : LlmGenerationRequest) : option (json * string) :=
  match rq_responseSchema r, rq_responseSchemaName r with
  | Some schema, Some name => Some (schema, name)
  | _, _ => None
  end.

Definition request_decoding (c : LlmGatewayClientConfig) (r : LlmGenerationRequest) :
    option LlmConstrainedDecodingMetadata :=
  resolveConstrainedDecodingMetadata c (bool_decide (is_Some (named_schema r))).

Definition LF : string := String "010" "".
Definition in_quotes (s : string) : string := String "034" (s +:+ String "034" "").

Section body.
Context `{JsonText} (c : LlmGatewayClientConfig) (r : LlmGenerationRequest).

(** The instructions added to the system prompt. *)
Definition structuredPromptSuffix : option string :=
  match named_schema r, dm_wireMode <$> request_decoding c r with
  | Some (schema, name), Some (wire_none | wire_json_object) =>
      Some (join LF [""; "Return only raw JSON with no markdown fences, prose, or commentary.";
                     "The JSON must validate against schema " +:+ in_quotes name +:+ ":";
                     json_stringify (canonicalJson schema)])
  | _, _ => None
  end.

Definition json_object (fields : list (string * option json)) : json := JObject (Json.literal fields).

Definition image_part (image : LlmImageInput) : json :=
  json_object
    [("type", Some (JString "image_url"));
     ("image_url", Some (json_object
        [("url", Some (JString ("data:" +:+ im_mimeType image +:+ ";base64," +:+ im_base64Data image)))]))].

Definition messages : list json :=
  [json_object
     [("role", Some (JString "system"));
      ("content", Some (JString (match structuredPromptSuffix with
                                 | None => rq_systemPrompt r
                                 | Some suffix => rq_systemPrompt r +:+ LF +:+ suffix
                                 end)))];
   json_object
     [("role", Some (JString "user"));
      ("content", Some (
         if (0 <? length (rq_imageInputs r))%nat && cp_imageInputSupport (gc_capabilities c)
         then JArray (json_object [("type", Some (JString "text")); ("text", Some (JString (rq_userPrompt r)))]
                      :: (image_part <$> rq_imageInputs r))
         else JString (rq_userPrompt r)))]].

Definition response_format : option json :=
  match named_schema r with
  | Some (schema, name) =>
      if cp_structuredOutputs (gc_capabilities c)
      then match default (resolveWireMode c) (dm_wireMode <$> request_decoding c r) with
           | wire_json_schema =>
               Some (json_object
                 [("type", Some (JString "json_schema"));
                  ("json_schema", Some (json_object [("name", Some (JString name)); ("schema", Some schema)]))])
           | wire_json_object => Some (json_object [("type", Some (JString "json_object"))])
           | wire_none => None
           end
      else None
  | None => None
  end.

Definition when_supported (support : LlmGatewayCapabilities → bool) (v : option json) : option json :=
  if support (gc_capabilities c) then v else None.

Definition buildOpenAiChatBody : json :=
  json_object
    [("model", Some (JString (gc_deployment c))); ("messages", Some (JArray messages)); ("stream", Some (JBool false));
     ("response_format", response_format);
     ("seed", when_supported cp_seedSupport (json_number <$> rq_seed r));
     ("reasoning_effort", when_supported cp_reasoningEffortSupport (JString <$> rq_reasoningEffort r));
     (resolveOutputTokenLimitWireField c,
      when_supported cp_maxOutputTokensSupport (json_number <$> rq_maxOutputTokens r))].

Definition isStructuredOutputRequested : bool :=
  cp_structuredOutputs (gc_capabilities c) && bool_decide (is_Some (named_schema r)).
End body.

(** ** Headers *)

(** A failure before or instead of a response. *)
Definition failure (errorClass message : string) (retryable : bool) (attempt : Z) : LlmGenerationFailure :=
  {| lf_errorClass := errorClass; lf_message := message; lf_constrainedDecoding := None;
     lf_retryable := retryable; lf_attempt := attempt |}.

Definition with_decoding (d : option LlmConstrainedDecodingMetadata) (f : LlmGenerationFailure) : LlmGenerationFailure :=
  {| lf_errorClass := lf_errorClass f; lf_message := lf_message f; lf_constrainedDecoding := d;
     lf_retryable := lf_retryable f; lf_attempt := lf_attempt f |}.

(** The key reader of the runtime: missing, rejecting with a message, or
    resolving to a string or to something else. *)
Inductive key_reader : Type :=
| no_reader
| reader_rejects (message : string)
| reader_gives (key : option string).

(** [Throw]: the key reader rejected. *)
Definition buildAuthHeaders (c : LlmGatewayClientConfig) (reader : key_reader) (attempt : Z) :
    outcome string (LlmGenerationFailure + list (string * string)) :=
  let headers := [("content-type", "application/json"); ("accept", "application/json")] in
  if bool_decide (gc_authMode c = "none") then Ok (inr headers)
  else match reader with
       | no_reader =>
           Ok (inl (failure "transport" "auth mode requires apiKeyProvider but none was supplied to runtime" false attempt))
       | reader_rejects message => Throw message
       | reader_gives None | reader_gives (Some EmptyString) =>
           Ok (inl (failure "transport" "apiKeyProvider returned an empty value" false attempt))
       | reader_gives (Some provided) =>
           Ok (inr (headers ++ [if bool_decide (gc_authMode c = "api_key") then ("api-key", provided)
                                else ("authorization", "Bearer " +:+ provided)]))
       end.

(** ** What a structured request sends *)

Lemma resolveAdapter_id a mode : ad_id (resolveAdapter a mode) = a.
Proof. unfold resolveAdapter. by destruct a; case_bool_decide. Qed.

(** Over openai_chat an adapter supports its own wire mode. *)
Lemma default_mode_supported a :
  ad_supports (resolveAdapter a "openai_chat") (ad_defaultWireMode (resolveAdapter a "openai_chat")) "openai_chat" = None.
Proof. by destruct a. Qed.

(** The metadata of a structured request tells the truth. Over openai_chat the
    adapter it names supports the wire mode it names and has the enforcement it
    names; a fallback is reported, with the reason of the preferred adapter,
    exactly when the preferred adapter does not support the configured mode. *)
Theorem decoding_metadata_is_true c m :
  gc_compatibilityMode c = "openai_chat" → resolveConstrainedDecodingMetadata c true = Some m →
  let adapter := resolveAdapter (dm_adapterId m) "openai_chat" in
  let '(preferred, fallback, _, wireMode) := resolveConfiguredConstrainedDecoding c in
  let refusal := ad_supports (resolveAdapter preferred "openai_chat") wireMode "openai_chat" in
  ad_supports adapter (dm_wireMode m) "openai_chat" = None ∧ dm_enforcement m = ad_enforcement adapter ∧
  dm_fallbackReason m = refusal ∧ dm_fallback m = bool_decide (is_Some refusal) ∧
  dm_adapterId m = (if dm_fallback m then fallback else preferred) ∧
  (dm_fallback m = false → dm_wireMode m = wireMode).
Proof.
  intros Hc. unfold resolveConstrainedDecodingMetadata. simpl negb. cbv iota.
  destruct (resolveConfiguredConstrainedDecoding c) as [[[preferred fallback] version] wireMode]. rewrite Hc.
  destruct (ad_supports (resolveAdapter preferred "openai_chat") wireMode "openai_chat") as [reason|] eqn:Es;
    intros [= <-]; simpl; rewrite resolveAdapter_id, ?Es; split_all; try done; by apply default_mode_supported.
Qed.

(** The schema always reaches the model. A structured request carries it either
    word for word in the response format, or in canonical form at the end of the
    system prompt; in the mode [json_object] the response format names the mode
    only. *)
Theorem schema_reaches_the_model `{JsonText} c r schema name :
  isStructuredOutputRequested c r = true → named_schema r = Some (schema, name) →
  ∃ m, request_decoding c r = Some m ∧
  match dm_wireMode m with
  | wire_json_schema =>
      response_format c r = Some (json_object
        [("type", Some (JString "json_schema"));
         ("json_schema", Some (json_object [("name", Some (JString name)); ("schema", Some schema)]))]) ∧
      structuredPromptSuffix c r = None
  | mode =>
      response_format c r = (if bool_decide (mode = wire_none) then None
                             else Some (json_object [("type", Some (JString "json_object"))])) ∧
      ∃ before, structuredPromptSuffix c r = Some (before +:+ json_stringify (canonicalJson schema))
  end.
Proof.
  unfold isStructuredOutputRequested. intros [Hs _]%andb_true_iff Hn.
  unfold response_format, structuredPromptSuffix, request_decoding. rewrite Hn, Hs.
  rewrite bool_decide_eq_true_2 by done.
  destruct (resolveConstrainedDecodingMetadata c true) as [m|] eqn:Em.
  - exists m. split; [done|]. simpl. destruct (dm_wireMode m); simpl; (split; [done|]); [done|..];
      eexists; rewrite <- !string_app_assoc; reflexivity.
  - exfalso. unfold resolveConstrainedDecodingMetadata in Em. simpl in Em.
    destruct (resolveConfiguredConstrainedDecoding c) as [[[? ?] ?] ?]. by case_match.
Qed.
