(* ===== verification/GatewayResponse.v ===== *)
(** * What the gateway makes of a response

    [dispatchOnce] and [parseOpenAiChatResponse] of
    [packages/model-gateway/src/llm-gateway.ts] with their helpers: from the
    answers of [fetch], the key reader and the body stream to the result of one
    attempt. What the platform parses, redacts and fetches is a parameter. *)

From Stdlib Require Import Ascii Qminmax.
From S2P Require Import Prelude JsString JsList JsValue CanonicalJson Contracts JsonView JsonSchemaSubset LlmTypes.
From S2P Require Import FinOpsBudget FinOpsRecorder CircuitBreaker IdempotencyCache LlmGateway GatewayDecoding.

(** ** JSON in prose *)

(** The text before and after the first [p]. *)
Fixpoint split_first (p s : string) : option (string * string) :=
  match strip_prefix p s with
  | Some rest => Some ("", rest)
  | None =>
      match s with
      | EmptyString => None
      | String c r => '(before, rest) ← split_first p r; Some (String c before, rest)
      end
  end.

Definition FENCE : string := "```".

Definition is_fence_space (c : ascii) : bool :=
  let n := nat_of_ascii c in bool_decide (n ∈ [32; 9; 13; 10]%nat).

Fixpoint skip_fence_space (s : string) : string :=
  match s with
  | String c r => if is_fence_space c then skip_fence_space r else s
  | EmptyString => EmptyString
  end.

Definition drop_json_tag (s : string) : string :=
  if bool_decide (to_lower (String.substring 0 4 s) = "json")
  then String.substring 4 (String.length s - 4) s else s.

Definition extractFirstMarkdownFence (raw : string) : option string :=
  '(_, body) ← split_first FENCE raw;
  '(content, _) ← split_first FENCE (skip_fence_space (drop_json_tag body));
  Some (trim content).

(** The shortest prefix that closes every bracket it opened outside of string
    literals, from the state of the scan. *)
Fixpoint balanced_prefix (open close : ascii) (depth : Z) (inString escape : bool) (s : string) : option string :=
  match s with
  | EmptyString => None
  | String c r =>
      String c <$>
        (if inString then
           if escape then balanced_prefix open close depth true false r
           else if Ascii.eqb c "\" then balanced_prefix open close depth true true r
           else if Ascii.eqb c "034" then balanced_prefix open close depth false false r
           else balanced_prefix open close depth true false r
         else if Ascii.eqb c "034" then balanced_prefix open close depth true false r
         else if Ascii.eqb c open then balanced_prefix open close (depth + 1) false false r
         else if Ascii.eqb c close
         then if depth - 1 =? 0 then Some "" else balanced_prefix open close (depth - 1) false false r
         else balanced_prefix open close depth false false r)
  end.

(** From the first [open] on. *)
Fixpoint from_first (open : ascii) (s : string) : option string :=
  match s with
  | EmptyString => None
  | String c r => if Ascii.eqb c open then Some s else from_first open r
  end.

Definition balanced `{JsonText} (open close : ascii) (raw : string) : option json :=
  start ← from_first open raw;
  candidate ← balanced_prefix open close 0 false false start;
  json_parse candidate.

Definition first_of {A} (a b : option A) : option A := match a with Some _ => a | None => b end.

Definition extractFirstJsonObjectOrArray `{JsonText} (raw : string) : option json :=
  if bool_decide (raw = "") then None
  else
    let fenced := extractFirstMarkdownFence raw in
    first_of (match fenced with
              | Some (String _ _ as text) => json_parse text
              | _ => None
              end)
      (first_of (balanced "{" "}" raw) (balanced "[" "]" raw)).

(** ** Messages *)

Definition normalizeFinishReason (value : option json) : string :=
  match value with
  | Some (JString s) => if bool_decide (s ∈ ["stop"; "length"; "content_filter"; "tool_calls"]) then s else "other"
  | _ => "other"
  end.

Record message_payload := {
  mp_rawContent : option string;
  mp_parsedContent : option json;
  mp_reasoningContent : option string;
}.

(** The text of a content part that has some. *)
Definition part_text (part : json) : option string :=
  match field "text" part with Some (JString (String _ _ as text)) => Some text | _ => None end.

Definition extractMessagePayload (message : json) : message_payload :=
  let raw text := {| mp_rawContent := Some text; mp_parsedContent := None; mp_reasoningContent := None |} in
  let rest :=
    match field "parsed" message with
    | Some parsed => {| mp_rawContent := None; mp_parsedContent := Some parsed; mp_reasoningContent := None |}
    | None =>
        {| mp_rawContent := None; mp_parsedContent := None;
           mp_reasoningContent :=
             match field "reasoning_content" message with
             | Some (JString s) => if is_blank s then None else Some s
             | _ => None
             end |}
    end in
  match field "content" message with
  | Some (JString (String _ _ as text)) => raw text
  | Some (JArray parts) =>
      match omap part_text parts with
      | [] => rest
      | texts => raw (join "" texts)
      end
  | _ => rest
  end.

(** [typeof v], and ["array"] for an array. *)
Definition content_type (v : option json) : string :=
  match v with
  | None => "undefined"
  | Some (JArray _) => "array"
  | Some (JString _) => "string"
  | Some (JNumber _) => "number"
  | Some (JBool _) => "boolean"
  | Some (JNull | JObject _) => "object"
  end.

(** [Object.keys(message)] of an object or array. *)
Definition message_keys (message : json) : list string :=
  match message with
  | JObject fields => (own_order fields).*1
  | JArray l => imap (λ i _, pretty (Z.of_nat i)) l
  | _ => []
  end.

Definition describeMissingMessageContent (message : json) : string :=
  "message.content missing or empty (contentType=" +:+ content_type (field "content" message)
  +:+ "; messageKeys=" +:+ join "," (js_sort String.compare (message_keys message)) +:+ ")".

Definition MAX_REDACTED_MESSAGE_LENGTH : nat := 240.

Definition redactBoundedMessage `{Redactor} (input : string) : string :=
  let redacted := trim (collapse_spaces false (redactHighRiskSecrets input "[REDACTED]")) in
  if (String.length redacted <=? MAX_REDACTED_MESSAGE_LENGTH)%nat then redacted
  else String.substring 0 MAX_REDACTED_MESSAGE_LENGTH redacted +:+ "...".

(** ** Reading the body *)

(** [Number.parseInt(s, 10)]; [None] is [NaN]. *)
Fixpoint leading_digits (acc : option Z) (s : string) : option Z :=
  match s with
  | String c r =>
      if is_decimal_digit c then leading_digits (Some (10 * default 0 acc + Z.of_nat (nat_of_ascii c) - 48)) r else acc
  | EmptyString => acc
  end.

Definition parse_int (s : string) : option Z :=
  match trim_start s with
  | String "-" r => Z.opp <$> leading_digits None r
  | String "+" r => leading_digits None r
  | r => leading_digits None r
  end.

(** How a read ends: the rest of the decoder, or a rejection with whether it is
    an abort and its redacted message. *)
Inductive stream_end : Type :=
| stream_done (rest : string)
| stream_fails (abort_like : bool) (message : string).

(** A body is missing, with the text [response.text()] gives, or a stream of
    chunks, each with its bytes and the text the decoder makes of it. *)
Inductive response_body : Type :=
| body_null (text : string)
| body_stream (chunks : list (Z * string)) (ending : stream_end).

Record http_response := {
  hr_status : Z;
  hr_contentLength : option string;
  hr_body : response_body;
}.

Inductive read_result : Type :=
| read_text (text : string)
| read_too_large
| read_fails (abort_like : bool) (message : string).

Fixpoint read_chunks (maxResponseBytes totalBytes : Z) (text : string) (chunks : list (Z * string))
    (ending : stream_end) : read_result :=
  match chunks with
  | [] => match ending with
          | stream_done rest => read_text (text +:+ rest)
          | stream_fails abort_like message => read_fails abort_like message
          end
  | (bytes, piece) :: chunks =>
      let totalBytes := totalBytes + bytes in
      if maxResponseBytes <? totalBytes then read_too_large
      else read_chunks maxResponseBytes totalBytes (text +:+ piece) chunks ending
  end.

Definition readResponseTextWithLimit (r : http_response) (maxResponseBytes : Z) : read_result :=
  if match hr_contentLength r ≫= parse_int with Some n => maxResponseBytes <? n | None => false end
  then read_too_large
  else match hr_body r with
       | body_null text => if maxResponseBytes <? utf8_length text then read_too_large else read_text text
       | body_stream chunks ending => read_chunks maxResponseBytes 0 "" chunks ending
       end.

(** ** Parsing a response *)

Definition DEFAULT_MAX_RESPONSE_BYTES : Z := 8 * 1024 * 1024.

Definition timeoutFailure `{JsonText} (wallClockBudgetCausedTimeout : bool) (effectiveTimeoutMs : Q) (attempt : Z) :
    LlmGenerationFailure :=
  let ms := json_stringify (JNumber effectiveTimeoutMs) in
  if wallClockBudgetCausedTimeout
  then failure "timeout" ("request exceeded maxWallClockMs " +:+ ms +:+ "ms") false attempt
  else failure "timeout" ("request timed out after " +:+ ms +:+ "ms") true attempt.

(** The failure of a status that ends the attempt before the body is read. *)
Definition status_failure (status : Z) (d : option LlmConstrainedDecodingMetadata) (attempt : Z) :
    option LlmGenerationFailure :=
  if status =? 429 then Some (with_decoding d (failure "rate_limited" "rate limited (status 429)" true attempt))
  else if (500 <=? status) && (status <=? 599)
  then Some (failure "transport" ("gateway returned " +:+ pretty status) true attempt)
  else if status =? 408 then Some (failure "timeout" "gateway returned 408" true attempt)
  else None.

Definition PROTOCOL_STATUSES : list Z := [401; 403; 407; 404; 405; 410].
Definition SCHEMA_INVALID_STATUSES : list Z := [400; 409; 412; 415; 416; 417; 422].

Definition client_error_class (status : Z) : string :=
  if bool_decide (status ∈ PROTOCOL_STATUSES) then "protocol"
  else if bool_decide (status ∈ SCHEMA_INVALID_STATUSES) then "schema_invalid" else "protocol".

(** An object or array. *)
Definition as_record (v : option json) : option json :=
  match v with Some (JObject _ as o) | Some (JArray _ as o) => Some o | _ => None end.

(** The first choice of a parsed body, or what is wrong. *)
Definition first_choice (parsed : option json) : outcome string json :=
  match parsed with
  | None => Throw "response body is not valid JSON"
  | Some parsed =>
      match as_record (Some parsed) with
      | None => Throw "response body is not a JSON object"
      | Some envelope =>
          match field "choices" envelope with
          | Some (JArray (choice :: _)) =>
              match as_record (Some choice) with
              | Some choice => Ok choice
              | None => Throw "first choice is not an object"
              end
          | _ => Throw "response missing non-empty choices array"
          end
      end
  end.

Section parse.
Context `{JsonText} `{RegExpTest} `{Redactor} (c : LlmGatewayClientConfig) (r : LlmGenerationRequest) (attempt : Z).
Context (d : option LlmConstrainedDecodingMetadata).

(** The content of a structured output: its parse, or the failure. *)
Definition structured_content (message : json) : outcome LlmGenerationFailure json :=
  let payload := extractMessagePayload message in
  match mp_parsedContent payload with
  | Some parsed => Ok parsed
  | None =>
      match first_of (mp_rawContent payload) (mp_reasoningContent payload) with
      | None => Throw (failure "schema_invalid" (describeMissingMessageContent message) true attempt)
      | Some text =>
          let wireMode := default (resolveWireMode c) (dm_wireMode <$> d) in
          match first_of (json_parse text)
                  (if bool_decide (wireMode = wire_none) then extractFirstJsonObjectOrArray text else None) with
          | Some content => Ok content
          | None =>
              Throw (with_decoding d (failure "schema_invalid" "structured-output content is not valid JSON" true attempt))
          end
      end
  end.

(** What stops the reading of a message: a failure that is returned, or an exception. *)
Inductive content_error : Type :=
| content_fails (f : LlmGenerationFailure)
| content_throws (message : string).

(** The content and the raw text of a message. *)
Definition message_content (message : json) : outcome content_error (json * option string) :=
  if isStructuredOutputRequested c r then
    match structured_content message with
    | Throw f => Throw (content_fails f)
    | Ok content =>
        match validateJsonSchemaSubset content (rq_responseSchema r) with
        | Some (violation message) =>
            Throw (content_fails (with_decoding d (failure "schema_invalid"
              ("structured-output content violates response schema: " +:+ message) false attempt)))
        | Some (bad_pattern message) => Throw (content_throws message)
        | None => Ok (content, None)
        end
    end
  else match mp_rawContent (extractMessagePayload message) with
       | Some raw => Ok (JString raw, Some raw)
       | None => Throw (content_fails (failure "schema_invalid" (describeMissingMessageContent message) false attempt))
       end.

(** The output budget against the reported usage. *)
Definition check_output_budget (usage : json) : option LlmGenerationFailure :=
  match rq_maxOutputTokens r with
  | None => None
  | Some limit =>
      match field "completion_tokens" usage with
      | Some (JNumber outputTokens) =>
          if Number.ltb limit (Fin outputTokens)
          then Some (with_decoding d (failure "schema_invalid"
                 ("reported output tokens " +:+ json_stringify (JNumber outputTokens) +:+ " exceeds maxOutputTokens "
                  +:+ json_stringify (json_number limit)) false attempt))
          else None
      | _ => Some (with_decoding d (failure "schema_invalid"
               "maxOutputTokens budget requires completion_tokens usage from the gateway" false attempt))
      end
  end.

(** What a message makes a failure of before its content is read. *)
Definition refused_message (finishReason : string) (message : json) : option LlmGenerationFailure :=
  match field "refusal" message with
  | Some (JString (String _ _ as refusal)) =>
      Some (failure "refusal" ("model refusal: " +:+ redactBoundedMessage refusal) false attempt)
  | _ =>
      if bool_decide (finishReason = "tool_calls")
      then Some (failure "schema_invalid" "tool-call responses are not supported by the LLM gateway" false attempt)
      else if bool_decide (finishReason = "length")
      then Some (failure "incomplete" "response truncated by length limit" true attempt)
      else None
  end.

(** From the first choice and the usage on; [Throw] is an exception of the schema check. *)
Definition parse_choice (choice usage : json) : outcome string LlmGenerationResult :=
  let finishReason := normalizeFinishReason (field "finish_reason" choice) in
  if bool_decide (finishReason = "content_filter")
  then Ok (gen_failure (failure "refusal" "model refused via content_filter" false attempt))
  else match as_record (field "message" choice) with
       | None => Ok (gen_failure (failure "schema_invalid" "first choice missing message object" false attempt))
       | Some message =>
           match refused_message finishReason message with
           | Some f => Ok (gen_failure f)
           | None =>
               match message_content message with
               | Throw (content_fails f) => Ok (gen_failure f)
               | Throw (content_throws message) => Throw message
               | Ok (content, rawTextContent) =>
                   match check_output_budget usage with
                   | Some f => Ok (gen_failure f)
                   | None =>
                       Ok (gen_success
                         {| ls_content := Some content; ls_rawTextContent := rawTextContent; ls_constrainedDecoding := d;
                            ls_finishReason := finishReason;
                            ls_usage := {| tu_inputTokens := field "prompt_tokens" usage ≫= as_number;
                                           tu_outputTokens := field "completion_tokens" usage ≫= as_number |};
                            ls_modelDeployment := gc_deployment c; ls_modelRevision := gc_modelRevision c;
                            ls_gatewayRelease := gc_gatewayRelease c; ls_attempt := attempt |})
                   end
               end
           end
       end.

Definition parseOpenAiChatResponse (response : http_response) (effectiveTimeoutMs : Q)
    (wallClockBudgetCausedTimeout : bool) : outcome string LlmGenerationResult :=
  let status := hr_status response in
  match status_failure status d attempt with
  | Some f => Ok (gen_failure f)
  | None =>
      let maxResponseBytes := default DEFAULT_MAX_RESPONSE_BYTES (gc_maxResponseBytes c) in
      match readResponseTextWithLimit response maxResponseBytes with
      | read_too_large =>
          Ok (gen_failure (failure "response_too_large"
            ("response body exceeds maxResponseBytes " +:+ pretty maxResponseBytes) false attempt))
      | read_fails true _ => Ok (gen_failure (timeoutFailure wallClockBudgetCausedTimeout effectiveTimeoutMs attempt))
      | read_fails false message => Ok (gen_failure (failure "transport" message true attempt))
      | read_text bodyText =>
          if 400 <=? status
          then Ok (gen_failure (failure (client_error_class status)
                 ("gateway returned " +:+ pretty status +:+ ": " +:+ redactBoundedMessage bodyText) false attempt))
          else match first_choice (json_parse bodyText) with
               | Throw message => Ok (gen_failure (failure "schema_invalid" message false attempt))
               | Ok choice =>
                   parse_choice choice
                     (default JNull (as_record (json_parse bodyText ≫= field "usage")))
               end
      end
  end.
End parse.

(** ** One dispatch *)

(** A fetch that resolves, or rejects: as an abort or not, with the message the
    client makes of the error. *)
Inductive fetched : Type :=
| fetch_response (response : http_response)
| fetch_rejects (abort_like : bool) (message : string).

(** The answers to one dispatch. *)
Record dispatch_surroundings := {
  ds_reader : key_reader;
  ds_fetch : string → list (string * string) → json → fetched;
  ds_upstreamAborted : bool;
}.

(** The first candidate, and the second one when the first is not found. *)
Fixpoint fetch_candidates (fetch : string → fetched) (first : bool) (urls : list string) : option fetched :=
  match urls with
  | [] => None
  | url :: rest =>
      match fetch url with
      | fetch_response response =>
          if first && (hr_status response =? 404) && (0 <? length rest)%nat
          then fetch_candidates fetch false rest
          else Some (fetch_response response)
      | rejected => Some rejected
      end
  end.

(** The timeout of a dispatch, and whether it is the request's budget. *)
Definition effective_timeout (c : LlmGatewayClientConfig) (r : LlmGenerationRequest) : Q * bool :=
  match rq_maxWallClockMs r with
  | Some ms => if Number.ltb ms (Fin (gc_timeoutMs c)) then (finite_part ms, true) else (gc_timeoutMs c, false)
  | None => (gc_timeoutMs c, false)
  end.

(** [Throw]: the dispatch rejects, with the client's message for the error. *)
Definition dispatchOnce `{JsonText} `{RegExpTest} `{Redactor} `{GatewayUrls} (c : LlmGatewayClientConfig)
    (r : LlmGenerationRequest) (attempt : Z) (ds : dispatch_surroundings) : outcome string LlmGenerationResult :=
  let d := request_decoding c r in
  match buildOpenAiChatUrlCandidates (gc_baseUrl c) with
  | None => Throw "Invalid URL"
  | Some urls =>
      let body := buildOpenAiChatBody c r in
      (let* headers := buildAuthHeaders c (ds_reader ds) attempt in
       match headers with
       | inl f => Ok (gen_failure f)
       | inr headers =>
           let '(effectiveTimeoutMs, wallClockBudgetCausedTimeout) := effective_timeout c r in
           match fetch_candidates (λ url, ds_fetch ds url headers body) true urls with
           | None => Ok (gen_failure (failure "transport" "gateway dispatch produced no response" true attempt))
           | Some (fetch_rejects true _) =>
               Ok (gen_failure (with_decoding d
                 (if ds_upstreamAborted ds
                  then failure "canceled" "caller-supplied abortSignal aborted the request" false attempt
                  else timeoutFailure wallClockBudgetCausedTimeout effectiveTimeoutMs attempt)))
           | Some (fetch_rejects false message) =>
               Ok (gen_failure (with_decoding d (failure "transport" message true attempt)))
           | Some (fetch_response response) =>
               parseOpenAiChatResponse c r attempt d response effectiveTimeoutMs wallClockBudgetCausedTimeout
           end
       end)%outcome
  end.

(** ** Successes *)

(** What a success of attempt [attempt] for [r] was checked for. *)
Record checked_success `{RegExpTest} (c : LlmGatewayClientConfig) (r : LlmGenerationRequest) (attempt : Z)
    (s : LlmGenerationSuccess) : Prop := {
  ck_attempt : ls_attempt s = attempt;
  ck_finish : ls_finishReason s ∈ ["stop"; "other"];
  ck_structured :
    isStructuredOutputRequested c r = true →
    ∃ content schema, ls_content s = Some content ∧ rq_responseSchema r = Some schema ∧
                      conforms schema (js_json content) ∧ ls_rawTextContent s = None;
  ck_text :
    isStructuredOutputRequested c r = false →
    ∃ raw, ls_content s = Some (JString raw) ∧ ls_rawTextContent s = Some raw;
  ck_budget limit :
    rq_maxOutputTokens r = Some limit →
    ∃ n, tu_outputTokens (ls_usage s) = Some (Fin n) ∧ Number.ltb limit (Fin n) = false;
}.

Section results.
Context `{JsonText} `{RegExpTest} `{Redactor} (c : LlmGatewayClientConfig) (r : LlmGenerationRequest) (attempt : Z).
Context (d : option LlmConstrainedDecodingMetadata).

Lemma message_content_Ok message content raw :
  message_content c r attempt d message = Ok (content, raw) →
  if isStructuredOutputRequested c r
  then (∃ schema, rq_responseSchema r = Some schema ∧ conforms schema (js_json content)) ∧ raw = None
  else raw ≠ None ∧ ∃ text, content = JString text ∧ raw = Some text.
Proof.
  unfold message_content. destruct (isStructuredOutputRequested c r) eqn:Es.
  - destruct (structured_content c attempt d message) as [v|f]; [|done]. simpl.
    unfold isStructuredOutputRequested, named_schema in Es. apply andb_true_iff in Es as [_ Es].
    destruct (rq_responseSchema r) as [schema|] eqn:Er; [|done].
    destruct (validateJsonSchemaSubset v (Some schema)) as [[]|] eqn:Ev; [done..|]. intros [= <- <-]. split; [|done].
    exists schema. split; [done|]. unfold validateJsonSchemaSubset in Ev.
    rewrite validate_nested_None in Ev; [exact Ev|lia].
  - destruct (mp_rawContent _) as [text|]; [|done]. intros [= <- <-]. eauto.
Qed.

Lemma check_output_budget_None usage :
  check_output_budget r attempt d usage = None →
  ∀ limit, rq_maxOutputTokens r = Some limit →
  ∃ n, field "completion_tokens" usage ≫= as_number = Some (Fin n) ∧ Number.ltb limit (Fin n) = false.
Proof.
  unfold check_output_budget. intros Hc limit Hl. rewrite Hl in Hc.
  destruct (field "completion_tokens" usage) as [[| |n| | |]|]; try done.
  destruct (Number.ltb limit (Fin n)) eqn:E; [done|]. by exists n.
Qed.

Lemma normalizeFinishReason_values v : normalizeFinishReason v ∈ ALLOWED_FINISH_REASONS.
Proof.
  destruct v as [[| | |s| |]|]; try (apply (bool_decide_unpack _); vm_compute; exact I). simpl.
  case_bool_decide as Hs; [|apply (bool_decide_unpack _); vm_compute; exact I].
  unfold ALLOWED_FINISH_REASONS. set_solver.
Qed.

Lemma refused_message_None finishReason message :
  refused_message attempt finishReason message = None → finishReason ≠ "tool_calls" ∧ finishReason ≠ "length".
Proof.
  unfold refused_message.
  assert ((if bool_decide (finishReason = "tool_calls")
      then Some (failure "schema_invalid" "tool-call responses are not supported by the LLM gateway" false attempt)
      else if bool_decide (finishReason = "length")
      then Some (failure "incomplete" "response truncated by length limit" true attempt) else None) = None →
      finishReason ≠ "tool_calls" ∧ finishReason ≠ "length") as Hr by (repeat case_bool_decide; done).
  destruct (field "refusal" message) as [[| | |[|]| |]|]; done.
Qed.

Lemma parse_choice_success choice usage s :
  parse_choice c r attempt d choice usage = Ok (gen_success s) → checked_success c r attempt s.
Proof.
  unfold parse_choice. pose proof (normalizeFinishReason_values (field "finish_reason" choice)) as Hf.
  case_bool_decide as Hcf; [done|]. destruct (as_record _) as [message|]; [|done].
  destruct (refused_message _ _ _) eqn:Er; [done|]. apply refused_message_None in Er as [Htc Hlen].
  destruct (message_content _ _ _ _ _) as [[content raw]|[]] eqn:Em; [|done..]. apply message_content_Ok in Em.
  destruct (check_output_budget _ _ _ _) eqn:Eb; [done|]. intros [= <-]. split; simpl; [done|..].
  - unfold ALLOWED_FINISH_REASONS in Hf. set_solver.
  - intros Es. rewrite Es in Em. destruct Em as [(schema & ? & ?) ->]. by exists content, schema.
  - intros Es. rewrite Es in Em. destruct Em as (_ & text & -> & ->). by exists text.
  - by apply check_output_budget_None.
Qed.

Lemma parse_success response ms wall s :
  parseOpenAiChatResponse c r attempt d response ms wall = Ok (gen_success s) → checked_success c r attempt s.
Proof.
  unfold parseOpenAiChatResponse. destruct (status_failure _ _ _); [done|].
  destruct (readResponseTextWithLimit _ _) as [text| |[] m]; try done.
  destruct (400 <=? _); [done|]. destruct (first_choice _); [|done]. apply parse_choice_success.
Qed.
End results.

Lemma dispatch_success `{JsonText} `{RegExpTest} `{Redactor} `{GatewayUrls} c r attempt ds s :
  dispatchOnce c r attempt ds = Ok (gen_success s) → checked_success c r attempt s.
Proof.
  unfold dispatchOnce. destruct (buildOpenAiChatUrlCandidates _) as [urls|]; [|done].
  destruct (buildAuthHeaders _ _ _) as [[f|headers]|]; simpl; [done| |done].
  destruct (effective_timeout c r) as [ms wall].
  destruct (fetch_candidates _ _ _) as [[response|[] message]|]; try done.
  intros Hp. by eapply parse_success.
Qed.

(** ** Failures *)

(** What every failure of one dispatch satisfies: the retry filter of the client
    agrees with the flag it carries. *)
Definition classified (attempt : Z) (f : LlmGenerationFailure) : Prop :=
  lf_attempt f = attempt ∧ shouldRetry f = lf_retryable f ∧
  lf_errorClass f ∈ ["refusal"; "schema_invalid"; "incomplete"; "timeout"; "rate_limited"; "transport";
                     "response_too_large"; "protocol"; "canceled"].

Lemma classified_failure d errorClass message retryable attempt :
  errorClass ∈ ["refusal"; "schema_invalid"; "incomplete"; "timeout"; "rate_limited"; "transport";
                "response_too_large"; "protocol"; "canceled"] →
  (retryable = true → isTransientFailure errorClass = true ∨
     isRetryableStructuredOutputGatewayFailure (failure errorClass message true attempt) = true) →
  classified attempt (with_decoding d (failure errorClass message retryable attempt)).
Proof.
  intros Hc Hr. split; [done|]. split; [|done]. unfold shouldRetry. destruct retryable; [|done]. simpl.
  destruct (Hr eq_refl) as [-> | E]; [done|]. apply orb_true_iff. right. exact E.
Qed.

(** Without decoding metadata. *)
Lemma classified_plain errorClass message retryable attempt :
  classified attempt (with_decoding None (failure errorClass message retryable attempt)) →
  classified attempt (failure errorClass message retryable attempt).
Proof. done. Qed.

Ltac solve_classified :=
  try apply classified_plain; apply classified_failure;
  [apply (bool_decide_unpack _); vm_compute; exact I|first [discriminate|by intros _; left]].

Section failures.
Context `{JsonText} `{RegExpTest} `{Redactor} (c : LlmGatewayClientConfig) (r : LlmGenerationRequest) (attempt : Z).
Context (d : option LlmConstrainedDecodingMetadata).

Lemma missing_content_classified message retryable :
  classified attempt (failure "schema_invalid" (describeMissingMessageContent message) retryable attempt).
Proof.
  apply classified_plain, classified_failure; [apply (bool_decide_unpack _); vm_compute; exact I|].
  intros _. right. unfold isRetryableStructuredOutputGatewayFailure, describeMissingMessageContent.
  apply andb_true_iff. split; [done|]. apply orb_true_iff. right. apply bool_decide_eq_true. by eexists.
Qed.

Lemma message_content_Throw message f : message_content c r attempt d message = Throw (content_fails f) → classified attempt f.
Proof.
  unfold message_content. destruct (isStructuredOutputRequested c r).
  - unfold structured_content. destruct (mp_parsedContent _) as [v|].
    + simpl. destruct (validateJsonSchemaSubset _ _) as [[]|]; [|done..]. intros [= <-]. solve_classified.
    + destruct (first_of _ _) as [text|]; [|intros [= <-]; apply missing_content_classified].
      destruct (first_of _ _) as [v|]; simpl.
      * destruct (validateJsonSchemaSubset _ _) as [[]|]; [|done..]. intros [= <-]. solve_classified.
      * intros [= <-]. apply classified_failure; [apply (bool_decide_unpack _); vm_compute; exact I|]. by right.
  - destruct (mp_rawContent _); [done|]. intros [= <-]. apply missing_content_classified.
Qed.

Lemma check_output_budget_Some usage f : check_output_budget r attempt d usage = Some f → classified attempt f.
Proof.
  unfold check_output_budget. destruct (rq_maxOutputTokens r) as [limit|]; [|done].
  destruct (field _ _) as [[| |n| | |]|]; try (intros [= <-]; solve_classified).
  destruct (Number.ltb _ _); [|done]. intros [= <-]. solve_classified.
Qed.

Lemma refused_message_Some finishReason message f :
  refused_message attempt finishReason message = Some f → classified attempt f.
Proof.
  unfold refused_message. destruct (field "refusal" message) as [[| | |[|]| |]|];
    repeat case_bool_decide; try done; intros [= <-]; solve_classified.
Qed.

Lemma parse_choice_failure choice usage f :
  parse_choice c r attempt d choice usage = Ok (gen_failure f) → classified attempt f.
Proof.
  unfold parse_choice. case_bool_decide; [intros [= <-]; solve_classified|].
  destruct (as_record _) as [message|]; [|intros [= <-]; solve_classified].
  destruct (refused_message _ _ _) eqn:Er; [intros [= <-]; by eapply refused_message_Some|].
  destruct (message_content _ _ _ _ _) as [[content raw]|[]] eqn:Em; [|intros [= <-]; by eapply message_content_Throw|done].
  destruct (check_output_budget _ _ _ _) eqn:Eb; [|done]. intros [= <-]. by eapply check_output_budget_Some.
Qed.

Lemma timeoutFailure_classified wall ms : classified attempt (timeoutFailure wall ms attempt).
Proof. unfold timeoutFailure. destruct wall; solve_classified. Qed.

Lemma parse_failure response ms wall f :
  parseOpenAiChatResponse c r attempt d response ms wall = Ok (gen_failure f) → classified attempt f.
Proof.
  unfold parseOpenAiChatResponse, status_failure.
  destruct (hr_status response =? 429); [intros [= <-]; solve_classified|].
  destruct ((500 <=? hr_status response) && (hr_status response <=? 599)); [intros [= <-]; solve_classified|].
  destruct (hr_status response =? 408); [intros [= <-]; solve_classified|].
  destruct (readResponseTextWithLimit _ _) as [text| |[] message]; [|intros [= <-]; try solve_classified..].
  - destruct (400 <=? hr_status response).
    + unfold client_error_class. intros [= <-]. repeat case_bool_decide; solve_classified.
    + destruct (first_choice _); [apply parse_choice_failure|intros [= <-]; solve_classified].
  - apply timeoutFailure_classified.
Qed.
End failures.

Lemma dispatch_failure `{JsonText} `{RegExpTest} `{Redactor} `{GatewayUrls} c r attempt ds f :
  dispatchOnce c r attempt ds = Ok (gen_failure f) → classified attempt f.
Proof.
  unfold dispatchOnce. destruct (buildOpenAiChatUrlCandidates _) as [urls|]; [|done].
  destruct (buildAuthHeaders _ _ _) as [[f'|headers]|] eqn:Eh; simpl; [|destruct (effective_timeout c r) as [ms wall]|done].
  - unfold buildAuthHeaders in Eh. case_bool_decide; [done|].
    destruct (ds_reader ds) as [|m|[[|]|]]; try done; injection Eh as <-; intros [= <-]; solve_classified.
  - destruct (fetch_candidates _ _ _) as [[response|[] message]|].
    + intros Hp. by eapply parse_failure.
    + destruct (ds_upstreamAborted ds); [intros [= <-]; solve_classified|].
      unfold timeoutFailure. destruct wall; intros [= <-]; solve_classified.
    + intros [= <-]. solve_classified.
    + intros [= <-]. solve_classified.
Qed.

(** ** Limits and recovery *)

Lemma read_chunks_text maxBytes total text chunks rest out :
  read_chunks maxBytes total text chunks (stream_done rest) = read_text out →
  out = text +:+ foldr (λ p s, p.2 +:+ s) rest chunks ∧ ∀ n, total + foldr (λ p s, p.1 + s) 0 (take n chunks) ≤ Z.max total maxBytes.
Proof.
  revert total text. induction chunks as [|[bytes piece] chunks IH]; intros total text; simpl.
  - intros [= <-]. split; [done|]. intros n. rewrite take_nil. simpl. lia.
  - destruct (Z.ltb_spec maxBytes (total + bytes)) as [|Hle]; [done|].
    intros [-> Hn]%IH. split; [by rewrite string_app_assoc|]. intros [|n]; simpl; [lia|]. specialize (Hn n). lia.
Qed.

(** A text that is read is all of the stream, and was never more than the limit. *)
Lemma read_stream_text r maxBytes chunks rest out :
  hr_body r = body_stream chunks (stream_done rest) → 0 ≤ maxBytes →
  readResponseTextWithLimit r maxBytes = read_text out →
  out = foldr (λ p s, p.2 +:+ s) rest chunks ∧ foldr (λ p s, p.1 + s) 0 chunks ≤ maxBytes.
Proof.
  intros Hb Hm. unfold readResponseTextWithLimit. case_match; [done|]. rewrite Hb.
  intros [-> Hn]%read_chunks_text. split; [done|]. specialize (Hn (length chunks)). rewrite firstn_all in Hn. lia.
Qed.

Definition occurs_in (part whole : string) : Prop := ∃ before after, whole = before +:+ part +:+ after.

Lemma occurs_trans a b c : occurs_in a b → occurs_in b c → occurs_in a c.
Proof.
  intros (x & y & ->) (u & v & ->). exists (u +:+ x), (y +:+ v). by rewrite !string_app_assoc.
Qed.

Lemma string_app_nil_r (s : string) : s +:+ "" = s.
Proof. induction s as [|c s IH]; [done|]. change (String c (s +:+ "") = String c s). by f_equal. Qed.

Lemma occurs_suffix a b : occurs_in b (a +:+ b).
Proof. exists a, "". by rewrite string_app_nil_r. Qed.

Lemma occurs_prefix a b : occurs_in a (a +:+ b).
Proof. by exists "", b. Qed.

Lemma occurs_refl a : occurs_in a a.
Proof. exact (occurs_suffix "" a). Qed.

Lemma occurs_cons c a b : occurs_in a b → occurs_in a (String c b).
Proof. intros (x & y & ->). by exists (String c x), y. Qed.

Lemma split_first_Some p s a b : split_first p s = Some (a, b) → s = a +:+ p +:+ b.
Proof.
  revert a. induction s as [|c s IH]; intros a; cbn [split_first].
  - destruct (strip_prefix p "") as [rest|] eqn:E; [|done]. intros [= <- <-]. by apply strip_prefix_Some in E.
  - destruct (strip_prefix p (String c s)) as [rest|] eqn:E; [intros [= <- <-]; by apply strip_prefix_Some in E|].
    destruct (split_first p s) as [[x y]|]; [|done]. intros [= <- <-]. by apply (f_equal (String c)), IH.
Qed.

Lemma trim_start_occurs s : occurs_in (trim_start s) s.
Proof. induction s as [|c s IH]; simpl; [apply occurs_refl|]. destruct (is_space c); [by apply occurs_cons|apply occurs_refl]. Qed.

Lemma trim_end_prefix s : ∃ after, s = trim_end s +:+ after.
Proof.
  induction s as [|c s [after IH]]; simpl; [by exists ""|].
  destruct (trim_end s) as [|c' s'] eqn:E.
  - destruct (is_space c); [by exists (String c s)|]. exists s. done.
  - exists after. by apply (f_equal (String c)).
Qed.

Lemma trim_occurs s : occurs_in (trim s) s.
Proof.
  eapply occurs_trans; [|apply trim_start_occurs]. destruct (trim_end_prefix (trim_start s)) as [after E].
  unfold trim. rewrite E at 2. apply occurs_prefix.
Qed.

Lemma skip_fence_space_occurs s : occurs_in (skip_fence_space s) s.
Proof. induction s as [|c s IH]; simpl; [apply occurs_refl|]. destruct (is_fence_space c); [by apply occurs_cons|apply occurs_refl]. Qed.

Lemma substring_skip n s : ∃ before, s = before +:+ String.substring n (String.length s - n) s.
Proof.
  revert n. induction s as [|c s IH]; intros n; [by exists ""; destruct n|].
  destruct n as [|n]; simpl.
  - exists "". apply (f_equal (String c)). destruct (IH 0%nat) as [b E]. rewrite Nat.sub_0_r in E.
    assert (String.length b = 0)%nat as Hb.
    { apply (f_equal String.length) in E. rewrite length_string_app in E.
      assert (∀ s : string, String.length (String.substring 0 (String.length s) s) = String.length s) as Hl.
      { clear. induction s as [|c s IH]; simpl; [done|]. by rewrite IH. }
      rewrite Hl in E. lia. }
    by destruct b.
  - destruct (IH n) as [b E]. exists (String c b). by apply (f_equal (String c)).
Qed.

Lemma drop_json_tag_occurs s : occurs_in (drop_json_tag s) s.
Proof.
  unfold drop_json_tag. case_bool_decide; [|apply occurs_refl].
  destruct (substring_skip 4 s) as [b E]. exists b, "". by rewrite string_app_nil_r.
Qed.

Lemma fence_occurs raw text : extractFirstMarkdownFence raw = Some text → occurs_in text raw.
Proof.
  unfold extractFirstMarkdownFence. destruct (split_first FENCE raw) as [[a body]|] eqn:E1; [|done]. simpl.
  destruct (split_first FENCE (skip_fence_space _)) as [[content b]|] eqn:E2; [|done]. intros [= <-].
  apply split_first_Some in E1, E2. eapply occurs_trans; [apply trim_occurs|].
  apply (occurs_trans _ (skip_fence_space (drop_json_tag body))); [rewrite E2; apply occurs_prefix|].
  eapply occurs_trans; [apply skip_fence_space_occurs|]. eapply occurs_trans; [apply drop_json_tag_occurs|].
  rewrite E1, <- string_app_assoc. apply occurs_suffix.
Qed.

Lemma from_first_occurs open s t : from_first open s = Some t → occurs_in t s.
Proof.
  induction s as [|c s IH]; simpl; [done|]. destruct (Ascii.eqb c open); [intros [= <-]; apply occurs_refl|].
  intros ?%IH. by apply occurs_cons.
Qed.

Lemma balanced_prefix_prefix open close depth inString escape s t :
  balanced_prefix open close depth inString escape s = Some t → ∃ after, s = t +:+ after.
Proof.
  revert depth inString escape t. induction s as [|c s IH]; intros depth inString escape t; simpl; [done|].
  intros (t' & Ht & ->)%fmap_Some. simpl.
  assert (∃ after, s = t' +:+ after) as [after E]; [|exists after; by apply (f_equal (String c))].
  repeat match type of Ht with (if ?b then _ else _) = _ => destruct b end; try (by eapply IH).
  injection Ht as <-. by exists s.
Qed.

Lemma balanced_occurs `{JsonText} open close raw v :
  balanced open close raw = Some v → ∃ text, occurs_in text raw ∧ json_parse text = Some v.
Proof.
  unfold balanced. destruct (from_first open raw) as [start|] eqn:E1; [|done]. simpl.
  destruct (balanced_prefix _ _ _ _ _ start) as [text|] eqn:E2; [|done]. simpl. intros Hv. exists text. split; [|done].
  apply from_first_occurs in E1. apply balanced_prefix_prefix in E2 as [after ->].
  eapply occurs_trans; [apply occurs_prefix|done].
Qed.

(** What is recovered from prose is a part of it. *)
Lemma recovered_occurs `{JsonText} raw v :
  extractFirstJsonObjectOrArray raw = Some v → ∃ text, occurs_in text raw ∧ json_parse text = Some v.
Proof.
  unfold extractFirstJsonObjectOrArray, first_of. case_bool_decide; [done|].
  destruct (match extractFirstMarkdownFence raw with Some (String _ _ as text) => json_parse text | _ => None end)
    as [v'|] eqn:E.
  - intros [= ->]. destruct (extractFirstMarkdownFence raw) as [[|c t]|] eqn:Ef; try done.
    exists (String c t). split; [by apply fence_occurs|done].
  - destruct (balanced "{" "}" raw) eqn:E1; [intros [= ->]; by eapply balanced_occurs|apply balanced_occurs].
Qed.

(** ** Properties *)

(** A success of one dispatch was checked. It has the attempt's number and ended
    normally; a structured one has parsed content that conforms to the schema of
    the request, and no raw text; a plain one has the text of the message; and
    with an output budget the model reported its usage and kept to it. *)
Theorem dispatch_success_is_checked `{JsonText} `{RegExpTest} `{Redactor} `{GatewayUrls} c r attempt ds s :
  dispatchOnce c r attempt ds = Ok (gen_success s) →
  ls_attempt s = attempt ∧ ls_finishReason s ∈ ["stop"; "other"] ∧
  (if isStructuredOutputRequested c r
   then ∃ content schema, ls_content s = Some content ∧ rq_responseSchema r = Some schema ∧
                          conforms schema (js_json content) ∧ ls_rawTextContent s = None
   else ∃ raw, ls_content s = Some (JString raw) ∧ ls_rawTextContent s = Some raw) ∧
  (∀ limit, rq_maxOutputTokens r = Some limit →
     ∃ n, tu_outputTokens (ls_usage s) = Some (Fin n) ∧ Number.ltb limit (Fin n) = false).
Proof.
  intros [Ha Hf Hs Ht Hb]%dispatch_success. split_all; [done..| |done].
  destruct (isStructuredOutputRequested c r); auto.
Qed.

(** The retry policy agrees with the failures. Every failure of one dispatch has
    the attempt's number and a documented class, and the client retries it
    exactly when it is flagged retryable: no flagged failure is given up and no
    other one is repeated. *)
Theorem dispatch_failure_is_classified `{JsonText} `{RegExpTest} `{Redactor} `{GatewayUrls} c r attempt ds f :
  dispatchOnce c r attempt ds = Ok (gen_failure f) →
  lf_attempt f = attempt ∧ shouldRetry f = lf_retryable f ∧
  lf_errorClass f ∈ ["refusal"; "schema_invalid"; "incomplete"; "timeout"; "rate_limited"; "transport";
                     "response_too_large"; "protocol"; "canceled"].
Proof. apply dispatch_failure. Qed.

(** C36. A success of a whole call was checked, whatever happened before it. When
    every attempt is a dispatch, a call that succeeds either replays a stored
    result or, when structured output is requested (the deployment has the capability
    and the request a schema with a name), has content that conforms to the schema of
    the request as it was made, in the subset of JSON Schema the gateway checks; and its output is within the larger of the request's
    budget and the retry ceiling. *)
Theorem generate_success_is_checked `{Hmac} `{JsonText} `{ErrorText} `{RegExpTest} `{Redactor} `{GatewayUrls}
    c r lookup_world world answers g s :
  (∀ a q, as_result (world a q) = dispatchOnce (cl_config c) q a (answers a q)) →
  (generateUncached c r lookup_world world g).1 = gen_success s →
  (∃ cache i key, cl_cache c = Some cache ∧ rq_idempotency r = Some i ∧
     (lookup cache i lookup_world (gw_cache g)).1 = Ok (replay_hit key s)) ∨
  ((isStructuredOutputRequested (cl_config c) r = true →
      ∃ content schema, ls_content s = Some content ∧ rq_responseSchema r = Some schema ∧
                        conforms schema (js_json content)) ∧
   ∀ q, rq_maxOutputTokens r = Some (Fin q) →
     ∃ n, tu_outputTokens (ls_usage s) = Some (Fin n) ∧ (n <= Qmax q INCOMPLETE_RETRY_OUTPUT_TOKEN_LIMIT)%Q).
Proof.
  intros Hw Hs. pose proof (generateUncached_outcome c r lookup_world world g) as Ho.
  destruct (generateUncached c r lookup_world world g) as [res g']. simpl in Hs, Ho.
  destruct Ho as [f Hg|f g' _ _ _ _|cache i key s' g' Hg Hc Hi Hl _ _|evs res g' Hg Htr _ _];
    [done|done|injection Hs as ->; left; by exists cache, i, key|subst res; right].
  pose proof (transcript_success _ _ _ _ _ _ _ _ Htr) as (pre & a & q & now & -> & Hans).
  assert ((a, q) ∈ omap dispatch_of (pre ++ [ev_dispatch a q; ev_breaker (OpSuccess now)])) as Hin.
  { apply list_elem_of_omap. exists (ev_dispatch a q). split; [|done]. apply elem_of_app. right. constructor. }
  pose proof (transcript_requests _ _ _ _ _ _ _ _ Htr) as Hreq. rewrite Forall_forall in Hreq. specialize (Hreq _ Hin).
  pose proof (transcript_budgets _ _ _ _ _ _ _ _ Htr (proj1 (guards_None _ _ Hg))) as Hbud.
  rewrite Forall_forall in Hbud. specialize (Hbud _ Hin). simpl in Hreq, Hbud.
  unfold answer in Hans. rewrite Hw in Hans.
  destruct (dispatchOnce _ _ _ _) as [res|] eqn:Ed; [subst res|done]. apply dispatch_success in Ed as [_ _ Hst _ Hn].
  split.
  - intros Hstr. destruct (Hst ltac:(by destruct Hreq as [->|[? ->]])) as (content & schema & ? & Hsch & ? & _).
    exists content, schema. split_all; try done. by destruct Hreq as [->|[? ->]].
  - intros q0 Hq0. rewrite Hq0 in Hbud. destruct (rq_maxOutputTokens q) as [[| | |q']|] eqn:Eq; try done.
    destruct Hbud as (_ & _ & Hle). destruct (Hn _ eq_refl) as (n & ? & Hlt). exists n. split; [done|].
    unfold Number.ltb in Hlt. simpl in Hlt. apply andb_false_iff in Hlt as [Hlt|Hlt%negb_false_iff%Qle_bool_iff].
    + destruct (Qlt_le_dec q' n) as [Hx|Hx]; [|by eapply Qle_trans].
      apply Qlt_le_weak, Qle_bool_iff in Hx. congruence.
    + by eapply Qle_trans.
Qed.


(** ** A concrete dispatch *)

Definition sample_body : json :=
  JObject [("choices", JArray [JObject [("finish_reason", JString "stop");
                                        ("message", JObject [("content", JString "answer")])]]);
           ("usage", JObject [("completion_tokens", JNumber 5)])].

#[local] Instance sample_texts : JsonText :=
  {| json_stringify _ := "{}";
     json_parse s := if String.eqb s "body" then Some sample_body
                     else if String.eqb s "answer" then Some (JObject [("ok", JBool true)]) else None |}.
#[local] Instance sample_regexp : RegExpTest := {| regexp_test _ _ := Ok true |}.
#[local] Existing Instance sample_hmac.
#[local] Instance sample_errors : ErrorText := {| error_text _ := "" |}.
#[local] Instance sample_redactor : Redactor := {| redactHighRiskSecrets input _ := input |}.
#[local] Instance sample_urls : GatewayUrls :=
  {| new_URL s := Some {| url_protocol := "https:"; url_username := ""; url_password := "";
                          url_hostname := "llm.example"; url_pathname := "/openai";
                          url_with_path path := "https://llm.example" +:+ path |} |}.

Definition structured_request : LlmGenerationRequest :=
  {| rq_systemPrompt := "s"; rq_userPrompt := "u";
     rq_responseSchema := Some (JObject [("type", JString "object"); ("required", JArray [JString "ok"])]);
     rq_responseSchemaName := Some "answer"; rq_imageInputs := []; rq_seed := None; rq_reasoningEffort := None;
     rq_maxInputTokens := None; rq_maxOutputTokens := Some (num 40); rq_maxWallClockMs := None;
     rq_maxRetries := None; rq_idempotency := None; rq_inFlightDedup := None |}.

(** The first candidate is not found, the second one answers in two chunks. *)
Definition answering : dispatch_surroundings :=
  {| ds_reader := no_reader;
     ds_fetch url _ _ :=
       fetch_response {| hr_status := if String.eqb url "https://llm.example/openai/v1/chat/completions" then 404 else 200;
                         hr_contentLength := Some "4";
                         hr_body := body_stream [(2, "bo"); (2, "dy")] (stream_done "") |};
     ds_upstreamAborted := false |}.

Definition rate_limiting : dispatch_surroundings :=
  {| ds_reader := no_reader;
     ds_fetch _ _ _ := fetch_response {| hr_status := 429; hr_contentLength := None; hr_body := body_null "" |};
     ds_upstreamAborted := false |}.

(** The first attempt is refused by a rate limit. *)
Definition dispatching_world (a : Z) (q : LlmGenerationRequest) : attempt_surroundings :=
  {| as_before := 0; as_result := dispatchOnce sample_config q a (if a =? 1 then rate_limiting else answering);
     as_after := 1; as_store := at_time 10 |}.

Example generate_success_is_checked_witness :
  ∃ s, (generateUncached sample_client structured_request (at_time 0) dispatching_world sample_gateway).1 = gen_success s ∧
       ls_attempt s = 2 ∧
       (isStructuredOutputRequested sample_config structured_request = true →
        ∃ content schema, ls_content s = Some content ∧ rq_responseSchema structured_request = Some schema ∧
                          conforms schema (js_json content)).
Proof.
  eexists. split; [vm_compute; reflexivity|]. split; [reflexivity|].
  edestruct (generate_success_is_checked sample_client structured_request (at_time 0) dispatching_world
    (λ a _, if a =? 1 then rate_limiting else answering) sample_gateway) as [(cache & i & key & _ & Hi & _)|[Hs _]];
    [intros a q; reflexivity|vm_compute; reflexivity|discriminate Hi|exact Hs].
Defined.

Example dispatch_failure_is_classified_witness :
  ∃ f, dispatchOnce sample_config structured_request 3 rate_limiting = Ok (gen_failure f) ∧
       lf_attempt f = 3 ∧ shouldRetry f = true.
Proof.
  eexists. split; [vm_compute; reflexivity|].
  edestruct (dispatch_failure_is_classified sample_config structured_request 3 rate_limiting) as (Ha & Hr & _);
    [vm_compute; reflexivity|]. split; [exact Ha|]. rewrite Hr. reflexivity.
Defined.

(** A caller that aborts while the body is read is answered with a timeout that
    is retried; an abort before that is [canceled] and final. *)
Lemma abort_while_reading_is_retried :
  ∃ f, dispatchOnce sample_config structured_request 1
         {| ds_reader := no_reader;
            ds_fetch _ _ _ := fetch_response {| hr_status := 200; hr_contentLength := None;
                                                hr_body := body_stream [] (stream_fails true "aborted") |};
            ds_upstreamAborted := true |} = Ok (gen_failure f) ∧
       lf_errorClass f = "timeout" ∧ shouldRetry f = true.
Proof. eexists. split; [vm_compute; reflexivity|]. done. Qed.
