(* ===== verification/GatewayConfig.v ===== *)
(** * Constructing a gateway client

    [createLlmGatewayClient] and [validateConfig] of
    [packages/model-gateway/src/llm-gateway.ts]: which configurations make a
    client, and what its base URL is then known to be. The URL parser and
    [net.isIPv6] are parameters. *)

From Stdlib Require Import Ascii.
From S2P Require Import Prelude JsString JsList JsValue Contracts LlmTypes CircuitBreaker IdempotencyCache.
From S2P Require Import LlmGateway GatewayDecoding GatewayResponse.

(** ** Base URLs *)

(** [net.isIPv4]: four decimal octets without leading zeros. *)
Definition octet (s : string) : option Z :=
  if (String.length s <=? 3)%nat && all_chars is_decimal_digit s && negb (bool_decide (s = ""))
     && (bool_decide (s = "0") || negb (starts_with "0" s))
  then n ← leading_digits None s; if n <=? 255 then Some n else None
  else None.

Definition ipv4_octets (host : string) : option (list Z) :=
  octets ← mapM octet (split_on "." host);
  if (length octets =? 4)%nat then Some octets else None.

(** [net.isIPv6]. *)
Class Ipv6 := { isIPv6 : string → bool }.

Definition unbracket (host : string) : string :=
  let host := default host (strip_prefix "[" host) in default host (strip_suffix "]" host).

Definition isPrivateIpHost `{Ipv6} (host : string) : bool :=
  let unbracketed := unbracket host in
  if isIPv6 unbracketed then true
  else match ipv4_octets unbracketed with
       | Some (first :: second :: _) =>
           bool_decide (first ∈ [0; 10; 127]) || (first =? 169) && (second =? 254)
           || (first =? 172) && (16 <=? second) && (second <=? 31) || (first =? 192) && (second =? 168)
           || (first =? 100) && (64 <=? second) && (second <=? 127)
       | _ => false
       end.

(** The error names the rule. *)
Definition validateGatewayBaseUrl `{GatewayUrls} `{Ipv6} (baseUrl : string) : outcome string unit :=
  match new_URL baseUrl with
  | None => Throw "LlmGatewayClient: baseUrl is not a valid URL"
  | Some url =>
      let host := to_lower (url_hostname url) in
      (guard_throw (negb (bool_decide (url_protocol url = "https:")))
         "LlmGatewayClient: baseUrl must use https:// (plain HTTP would expose the bearer token in transit)" ;;;
       guard_throw (negb (bool_decide (url_username url = "") && bool_decide (url_password url = "")))
         "LlmGatewayClient: baseUrl must not embed credentials in userinfo" ;;;
       guard_throw (bool_decide (host = "")) "LlmGatewayClient: baseUrl must include a hostname" ;;;
       guard_throw (bool_decide (host = "localhost") || bool_decide (is_Some (strip_suffix ".localhost" host))
                    || bool_decide (is_Some (strip_suffix ".local" host)))
         ("LlmGatewayClient: baseUrl host " +:+ in_quotes host +:+ " is blocked (loopback/link-local)") ;;;
       guard_throw (isPrivateIpHost host)
         ("LlmGatewayClient: baseUrl host " +:+ in_quotes host +:+ " is in a blocked private IP range"))%outcome
  end.

(** ** Configurations *)

(** A label of an enumeration, when it is given. *)
Definition optional_label A `{Label A} (v : option string) (message : string → string) :
    outcome string (option A) :=
  match v with
  | None => Ok None
  | Some s => match parse_label s with Some a => Ok (Some a) | None => Throw (message s) end
  end.

Definition assertNonEmpty (value fld : string) : outcome string unit :=
  guard_throw (bool_decide (value = "")) ("LlmGatewayClient: " +:+ fld +:+ " must be a non-empty string").

Definition known_decoding (d : option (string * option string * option string)) :
    outcome string (option LlmConstrainedDecodingConfig) :=
  match d with
  | None => Ok None
  | Some (preferred, fallback, version) =>
      (let* p := optional_label LlmConstrainedDecodingAdapterId (Some preferred)
         (λ s, "LlmGatewayClient: invalid constrainedDecoding.preferredAdapter " +:+ in_quotes s) in
       let* f := optional_label LlmConstrainedDecodingAdapterId fallback
         (λ s, "LlmGatewayClient: invalid constrainedDecoding.fallbackAdapter " +:+ in_quotes s) in
       Ok ((λ p, {| dc_preferredAdapter := p; dc_fallbackAdapter := f; dc_adapterVersion := version |}) <$> p))%outcome
  end.

(** [validateConfig], giving the configuration with its labels and numbers. *)
Definition validateConfig `{GatewayUrls} `{Ipv6} (c : raw_config) : outcome string LlmGatewayClientConfig :=
  (guard_throw (negb (bool_decide (rc_role c ∈ ALLOWED_LLM_GATEWAY_ROLES)))
     ("LlmGatewayClient: invalid role " +:+ in_quotes (rc_role c)) ;;;
   guard_throw (negb (bool_decide (rc_compatibilityMode c ∈ ALLOWED_LLM_GATEWAY_COMPATIBILITY_MODES)))
     ("LlmGatewayClient: unsupported compatibility mode " +:+ in_quotes (rc_compatibilityMode c)) ;;;
   guard_throw (negb (bool_decide (rc_authMode c ∈ ALLOWED_LLM_GATEWAY_AUTH_MODES)))
     ("LlmGatewayClient: invalid auth mode " +:+ in_quotes (rc_authMode c)) ;;;
   assertNonEmpty (rc_baseUrl c) "baseUrl" ;;;
   validateGatewayBaseUrl (rc_baseUrl c) ;;;
   assertNonEmpty (rc_deployment c) "deployment" ;;;
   assertNonEmpty (rc_modelRevision c) "modelRevision" ;;;
   assertNonEmpty (rc_gatewayRelease c) "gatewayRelease" ;;;
   guard_throw (match rc_ictRegisterRef c with Some ref => is_blank ref | None => false end)
     "LlmGatewayClient: ictRegisterRef must be a non-empty string when provided" ;;;
   guard_throw (match rc_modelWeightsSha256 c with Some h => negb (isHex64 h) | None => false end)
     "LlmGatewayClient: modelWeightsSha256 must be 64 lowercase hex chars" ;;;
   guard_throw (bool_decide (rc_role c ∈ ["test_generation"; "requirements_synthesis"])
                && cp_imageInputSupport (rc_declaredCapabilities c))
     ("LlmGatewayClient: " +:+ rc_role c +:+ " role must not declare imageInputSupport") ;;;
   guard_throw (negb (is_positive_finite (rc_timeoutMs c))) "LlmGatewayClient: timeoutMs must be a positive number" ;;;
   guard_throw (negb (Number.isInteger (rc_maxRetries c)) || Number.ltb (rc_maxRetries c) (num 0))
     "LlmGatewayClient: maxRetries must be a non-negative integer" ;;;
   guard_throw (negb (Number.isInteger (rc_failureThreshold c)) || Number.ltb (rc_failureThreshold c) (num 1))
     "LlmGatewayClient: circuitBreaker.failureThreshold must be a positive integer" ;;;
   guard_throw (negb (Number.isFinite (rc_resetTimeoutMs c)) || Number.ltb (rc_resetTimeoutMs c) (num 0))
     "LlmGatewayClient: circuitBreaker.resetTimeoutMs must be non-negative" ;;;
   guard_throw (match rc_maxResponseBytes c with Some n => negb (positive_safe n) | None => false end)
     "LlmGatewayClient: maxResponseBytes must be a positive integer" ;;;
   let* wire := optional_label LlmGatewayWireStructuredOutputMode (rc_wireStructuredOutputMode c)
     (λ s, "LlmGatewayClient: invalid wireStructuredOutputMode " +:+ in_quotes s) in
   let* image := optional_label LlmImageTokenStrategy (rc_imageTokenStrategy c)
     (λ s, "LlmGatewayClient: invalid imageTokenStrategy " +:+ in_quotes s) in
   let* decoding := known_decoding (rc_constrainedDecoding c) in
   Ok {| gc_role := rc_role c; gc_compatibilityMode := rc_compatibilityMode c; gc_baseUrl := rc_baseUrl c;
         gc_deployment := rc_deployment c; gc_modelRevision := rc_modelRevision c;
         gc_gatewayRelease := rc_gatewayRelease c; gc_authMode := rc_authMode c;
         gc_capabilities := rc_declaredCapabilities c; gc_timeoutMs := finite_part (rc_timeoutMs c);
         gc_maxRetries := integer_part (rc_maxRetries c);
         gc_maxResponseBytes := integer_part <$> rc_maxResponseBytes c; gc_wireStructuredOutputMode := wire;
         gc_constrainedDecoding := decoding; gc_imageTokenStrategy := image |})%outcome.

Definition DEFAULT_BACKOFF_MS : list Q := [100%Q; 200%Q; 400%Q; 800%Q; 1600%Q].

(** The client and its breaker. *)
Definition createLlmGatewayClient `{GatewayUrls} `{Ipv6} (config : raw_config) (retryBackoffMs : option (list Q))
    (cache : option cache_config) : outcome string (client * breaker) :=
  (let* c := validateConfig config in
   match createLlmCircuitBreaker (rc_failureThreshold config) (rc_resetTimeoutMs config) None with
   | Throw _ => Throw "RangeError"
   | Ok b => Ok ({| cl_config := c; cl_backoff := default DEFAULT_BACKOFF_MS retryBackoffMs; cl_cache := cache |}, b)
   end)%outcome.

(** ** Addresses *)

(** The address of four octets, and the blocks no base URL may be in. *)
Definition address (octets : list Z) : Z := foldl (λ n o, 256 * n + o) 0 octets.

Definition BLOCKED_BLOCKS : list (list Z * Z) :=
  [([0; 0; 0; 0], 8); ([10; 0; 0; 0], 8); ([127; 0; 0; 0], 8); ([169; 254; 0; 0], 16); ([172; 16; 0; 0], 12);
   ([192; 168; 0; 0], 16); ([100; 64; 0; 0], 10)].

Definition in_block (a : Z) (block : list Z * Z) : Prop :=
  a / 2 ^ (32 - block.2) = address block.1 / 2 ^ (32 - block.2).

Lemma octet_range s n : octet s = Some n → 0 ≤ n ≤ 255.
Proof.
  unfold octet. destruct (_ && _); [|done]. simpl.
  assert (∀ s acc n, leading_digits acc s = Some n → (∀ a, acc = Some a → 0 ≤ a) → 0 ≤ n) as Hpos.
  { clear. induction s as [|c s IH]; intros acc n; simpl; [intros -> Ha; by apply Ha|].
    destruct (is_decimal_digit c) eqn:Ec; [|intros -> Ha; by apply Ha].
    intros Hn Ha. apply (IH _ _ Hn). intros a [= <-]. apply andb_true_iff in Ec as [Ec%Nat.leb_le _].
    assert (0 ≤ default 0 acc) by (destruct acc; simpl; auto; lia). lia. }
  destruct (leading_digits None s) as [m|] eqn:El; [|done]. simpl. destruct (Z.leb_spec m 255); [|done].
  intros [= <-]. split; [by eapply Hpos|done].
Qed.

Lemma ipv4_octets_Some host octets :
  ipv4_octets host = Some octets → ∃ a b x y, octets = [a; b; x; y] ∧ Forall (λ n, 0 ≤ n ≤ 255) octets.
Proof.
  unfold ipv4_octets. destruct (mapM octet _) as [l|] eqn:E; [|done]. simpl.
  destruct l as [|a [|b [|x [|y [|]]]]]; try done. intros [= <-]. exists a, b, x, y. split; [done|].
  apply mapM_Some_1 in E. eapply Forall2_Forall_r; [exact E|].
  apply Forall_true. intros z n. apply octet_range.
Qed.

(** A dotted address is refused exactly when it is in one of the blocks. *)
Lemma private_address `{Ipv6} host octets :
  isIPv6 (unbracket host) = false → ipv4_octets (unbracket host) = Some octets →
  isPrivateIpHost host = true ↔ Exists (in_block (address octets)) BLOCKED_BLOCKS.
Proof.
  intros H6 H4. unfold isPrivateIpHost. rewrite H6, H4.
  apply ipv4_octets_Some in H4 as (a & b & x & y & -> & Hr).
  rewrite !Forall_cons in Hr. destruct Hr as (Ha & Hb & Hx & Hy & _).
  unfold BLOCKED_BLOCKS. rewrite !Exists_cons, Exists_nil. unfold in_block, address. cbn [foldl fst snd].
  rewrite !orb_true_iff, !andb_true_iff, bool_decide_eq_true, !elem_of_cons, elem_of_nil, !Z.eqb_eq, !Z.leb_le.
  change (2 ^ (32 - 8)) with 16777216. change (2 ^ (32 - 16)) with 65536. change (2 ^ (32 - 12)) with 1048576.
  change (2 ^ (32 - 10)) with 4194304.
  match goal with |- context [?n / 16777216 = _] =>
    assert (n / 16777216 = a) as -> by (Z.to_euclidean_division_equations; lia);
    assert (n / 65536 = 256 * a + b) as -> by (Z.to_euclidean_division_equations; lia);
    assert (n / 1048576 = 16 * a + b / 16) as -> by (Z.to_euclidean_division_equations; lia);
    assert (n / 4194304 = 4 * a + b / 64) as -> by (Z.to_euclidean_division_equations; lia)
  end.
  clear Hx Hy. cbn.
  assert (∀ k l, 0 ≤ l ≤ 255 → 256 * a + b = 256 * k + l ↔ a = k ∧ b = l) as Hpair by lia.
  assert (16 * a + b / 16 = 2753 ↔ a = 172 ∧ 16 ≤ b ≤ 31) as -> by (Z.to_euclidean_division_equations; lia).
  assert (4 * a + b / 64 = 401 ↔ a = 100 ∧ 64 ≤ b ≤ 127) as -> by (Z.to_euclidean_division_equations; lia).
  pose proof (Hpair 169 254) as H1. pose proof (Hpair 192 168) as H2. cbn in H1, H2.
  rewrite H1, H2 by lia. clear. tauto.
Qed.

(** ** Properties *)

Lemma validateGatewayBaseUrl_Ok `{GatewayUrls} `{Ipv6} baseUrl :
  validateGatewayBaseUrl baseUrl = Ok tt ↔
  ∃ url, new_URL baseUrl = Some url ∧ url_protocol url = "https:" ∧ url_username url = "" ∧ url_password url = "" ∧
    let host := to_lower (url_hostname url) in
    host ≠ "" ∧ host ≠ "localhost" ∧ strip_suffix ".localhost" host = None ∧ strip_suffix ".local" host = None ∧
    isPrivateIpHost host = false.
Proof.
  unfold validateGatewayBaseUrl. destruct (new_URL baseUrl) as [url|]; [|split; [done|by intros (? & ? & _)]].
  cbv zeta. rewrite !outcome_then_Ok, !guard_throw_Ok, !orb_false_iff, !negb_false_iff, !andb_true_iff.
  rewrite !bool_decide_eq_true, !bool_decide_eq_false, <- !eq_None_not_Some. split.
  - intros (? & (? & ?) & ? & ((? & ?) & ?) & ?). exists url. tauto.
  - intros (? & [= <-] & ?). tauto.
Qed.

(** Nothing but a public https endpoint is accepted. A base URL passes exactly
    when it parses, uses https, carries no credentials and names a host that is
    neither localhost nor below .localhost or .local, no IPv6 literal, and, when
    it is a dotted IPv4 address, in none of the seven private, loopback,
    link-local and shared address blocks. *)
Theorem base_url_accepted_iff `{GatewayUrls} `{Ipv6} baseUrl :
  validateGatewayBaseUrl baseUrl = Ok tt ↔
  ∃ url, new_URL baseUrl = Some url ∧ url_protocol url = "https:" ∧ url_username url = "" ∧ url_password url = "" ∧
    let host := to_lower (url_hostname url) in
    host ≠ "" ∧ host ≠ "localhost" ∧ strip_suffix ".localhost" host = None ∧ strip_suffix ".local" host = None ∧
    isIPv6 (unbracket host) = false ∧
    ∀ octets, ipv4_octets (unbracket host) = Some octets → ¬ Exists (in_block (address octets)) BLOCKED_BLOCKS.
Proof.
  rewrite validateGatewayBaseUrl_Ok.
  assert (∀ host, isPrivateIpHost host = false ↔ isIPv6 (unbracket host) = false ∧
    ∀ octets, ipv4_octets (unbracket host) = Some octets → ¬ Exists (in_block (address octets)) BLOCKED_BLOCKS) as Hh.
  { intros host. destruct (isIPv6 (unbracket host)) eqn:E6.
    - unfold isPrivateIpHost. rewrite E6. split; [done|by intros [? _]].
    - destruct (ipv4_octets (unbracket host)) as [octets|] eqn:E4.
      + rewrite <- not_true_iff_false, (private_address host octets E6 E4). naive_solver.
      + unfold isPrivateIpHost. rewrite E6, E4. naive_solver. }
  split; intros (url & ? & ? & ? & ? & ? & ? & ? & ? & Hrest); exists url; cbv zeta; split_all; try done;
    by apply Hh in Hrest as [??] || apply Hh.
Qed.

Lemma optional_label_Ok A `{Label A} v message (o : option A) :
  optional_label A v message = Ok o → v = label <$> o.
Proof.
  unfold optional_label. destruct v as [s|]; [|by intros [= <-]].
  destruct (parse_label s) as [a|] eqn:E; [|done]. intros [= <-]. apply parse_label_Some in E. by subst s.
Qed.

(** The rules a validated configuration passed, and what becomes of it. *)
Lemma validateConfig_Ok `{GatewayUrls} `{Ipv6} config c :
  validateConfig config = Ok c →
  rc_role config ∈ ALLOWED_LLM_GATEWAY_ROLES ∧
  rc_compatibilityMode config ∈ ALLOWED_LLM_GATEWAY_COMPATIBILITY_MODES ∧
  rc_authMode config ∈ ALLOWED_LLM_GATEWAY_AUTH_MODES ∧
  validateGatewayBaseUrl (rc_baseUrl config) = Ok tt ∧
  rc_deployment config ≠ "" ∧ rc_modelRevision config ≠ "" ∧ rc_gatewayRelease config ≠ "" ∧
  (rc_role config ∈ ["test_generation"; "requirements_synthesis"] →
     cp_imageInputSupport (rc_declaredCapabilities config) = false) ∧
  is_positive_finite (rc_timeoutMs config) = true ∧
  (Number.isInteger (rc_maxRetries config) = true ∧ Number.ltb (rc_maxRetries config) (num 0) = false) ∧
  (Number.isInteger (rc_failureThreshold config) = true ∧ Number.ltb (rc_failureThreshold config) (num 1) = false) ∧
  (Number.isFinite (rc_resetTimeoutMs config) = true ∧ Number.ltb (rc_resetTimeoutMs config) (num 0) = false) ∧
  (∀ n, rc_maxResponseBytes config = Some n → positive_safe n = true) ∧
  (∃ wire image decoding, rc_wireStructuredOutputMode config = label <$> wire ∧
     c = {| gc_role := rc_role config; gc_compatibilityMode := rc_compatibilityMode config;
            gc_baseUrl := rc_baseUrl config; gc_deployment := rc_deployment config;
            gc_modelRevision := rc_modelRevision config; gc_gatewayRelease := rc_gatewayRelease config;
            gc_authMode := rc_authMode config; gc_capabilities := rc_declaredCapabilities config;
            gc_timeoutMs := finite_part (rc_timeoutMs config); gc_maxRetries := integer_part (rc_maxRetries config);
            gc_maxResponseBytes := integer_part <$> rc_maxResponseBytes config; gc_wireStructuredOutputMode := wire;
            gc_constrainedDecoding := decoding; gc_imageTokenStrategy := image |}).
Proof.
  unfold validateConfig, assertNonEmpty.
  rewrite !outcome_then_Ok, !guard_throw_Ok, !negb_false_iff, !bool_decide_eq_true, !bool_decide_eq_false.
  rewrite !orb_false_iff, !negb_false_iff.
  intros (? & ? & ? & ? & ? & ? & ? & ? & ? & ? & Himg & ? & ? & ? & ? & Hbytes & Hrest). split_all; try tauto.
  - intros Hrole. rewrite bool_decide_eq_true_2 in Himg by done. done.
  - intros n Hn. rewrite Hn in Hbytes. by apply negb_false_iff in Hbytes.
  - apply outcome_bind_Ok in Hrest as (wire & Hwire%optional_label_Ok & Hrest).
    apply outcome_bind_Ok in Hrest as (image & _ & Hrest).
    apply outcome_bind_Ok in Hrest as (decoding & _ & [= <-]). by exists wire, image, decoding.
Qed.

(** What a constructed client is known to be. Its numbers are in range, its
    labels are known, a generator role declares no image input, its URL is an
    accepted one, and its breaker exists: construction never fails behind the
    validation. *)
Theorem constructed_client_is_valid `{GatewayUrls} `{Ipv6} config backoff cache :
  (∀ c b, createLlmGatewayClient config backoff cache = Ok (c, b) →
     validateGatewayBaseUrl (gc_baseUrl (cl_config c)) = Ok tt ∧
     gc_role (cl_config c) ∈ ALLOWED_LLM_GATEWAY_ROLES ∧ gc_compatibilityMode (cl_config c) = "openai_chat" ∧
     gc_authMode (cl_config c) ∈ ALLOWED_LLM_GATEWAY_AUTH_MODES ∧
     gc_deployment (cl_config c) ≠ "" ∧ gc_modelRevision (cl_config c) ≠ "" ∧ gc_gatewayRelease (cl_config c) ≠ "" ∧
     (gc_role (cl_config c) ∈ ["test_generation"; "requirements_synthesis"] →
        cp_imageInputSupport (gc_capabilities (cl_config c)) = false) ∧
     (0 < gc_timeoutMs (cl_config c))%Q ∧ 0 ≤ gc_maxRetries (cl_config c) ∧
     (∀ n, gc_maxResponseBytes (cl_config c) = Some n → 1 ≤ n) ∧
     (∀ mode, gc_wireStructuredOutputMode (cl_config c) = Some mode →
        rc_wireStructuredOutputMode config = Some (label mode)) ∧
     Ok b = createLlmCircuitBreaker (rc_failureThreshold config) (rc_resetTimeoutMs config) None) ∧
  (∀ e, createLlmGatewayClient config backoff cache = Throw e ↔ validateConfig config = Throw e).
Proof.
  unfold createLlmGatewayClient. destruct (validateConfig config) as [cfg|e] eqn:Ev; [|split; [by intros c b [=]|intros e0; split; by intros [= ->]]].
  apply validateConfig_Ok in Ev as (Hrole & Hmode & Hauth & Hurl & Hd & Hm & Hg & Himg & Ht & (Hri & Hr) & (Hfi & Hf) &
    (Hzi & Hz) & Hb & wire & image & decoding & Hw & ->).
  simpl. assert (∃ b, createLlmCircuitBreaker (rc_failureThreshold config) (rc_resetTimeoutMs config) None = Ok b) as [b Eb].
  { unfold createLlmCircuitBreaker. rewrite Hfi, Hf, Hzi, Hz. by eexists. }
  rewrite Eb. split; [|done]. intros c b' [= <- <-]. simpl. split_all; try done.
  - by apply list_elem_of_singleton in Hmode.
  - apply andb_true_iff in Ht as [Hfin Ht]. apply Number.isFinite_inv in Hfin as [q Hq]. rewrite Hq in *.
    by apply Number.ltb_Fin in Ht.
  - destruct (rc_maxRetries config) as [| | |q]; try done. apply Number.ltb_Fin_false in Hr.
    by apply (Qfloor_resp_le 0).
  - intros n Hn. destruct (rc_maxResponseBytes config) as [m|]; [|done]. injection Hn as <-.
    specialize (Hb m eq_refl). apply andb_true_iff in Hb as [Hs Hpos]. destruct m as [| | |q]; try done.
    apply andb_true_iff in Hs as [Hs _]. apply Number.ltb_Fin in Hpos. by apply Number.positive_integer.
  - intros mode ->. exact Hw.
Qed.

(** A fully qualified localhost, with its final dot, is not blocked. *)
Lemma trailing_dot_host_is_accepted :
  let _ := {| isIPv6 _ := false |} in
  let _ := {| new_URL _ := Some {| url_protocol := "https:"; url_username := ""; url_password := "";
                                   url_hostname := "localhost."; url_pathname := "/"; url_with_path path := path |} |} in
  validateGatewayBaseUrl "https://localhost./" = Ok tt.
Proof. reflexivity. Qed.
