(* ===== verification/RateLimit.v ===== *)
(** * The server's rate limiter

    [packages/server/src/rate-limit.ts] and [rate-limit-store.ts]: a fixed
    window of one minute per client and route. Times are whole milliseconds;
    the clock need not be monotone. [check] mutates the bucket object it got
    from the store, which is the bucket the store holds. *)

From S2P Require Import Prelude JsString JsList JsValue.

Definition RATE_LIMIT_WINDOW_MS : Z := 60000.

Record RateLimitBucket := {
  rb_count : Z;
  rb_windowStartedAtMs : Z;
}.

(** [RateLimitStore] *)
Abbreviation RateLimitStore := (gmap string RateLimitBucket).

Inductive RateLimitDecision : Type :=
| RateLimitAllowed (remaining resetAtMs : Z)
| RateLimitDenied (retryAfterSeconds resetAtMs : Z).

Record RateLimitRequest := {
  rq_clientKey : string;
  rq_routeKey : string;
  rq_nowMs : Z;
}.

Inductive RateLimitError : Type := bad_requestsPerMinute.

(** The limit [createRateLimiter] closes over. *)
Definition createRateLimiter (requestsPerMinute : jsnum) : outcome RateLimitError Z :=
  if negb (Number.isFinite requestsPerMinute) || Number.ltb requestsPerMinute (num 1)
  then Throw bad_requestsPerMinute
  else match Number.floor requestsPerMinute with
       | Fin q => Ok (Qfloor q)
       | _ => Throw bad_requestsPerMinute
       end.

Definition NUL : Ascii.ascii := Ascii.ascii_of_nat 0.

Definition rate_limit_key (clientKey routeKey : string) : string :=
  clientKey +:+ String NUL routeKey.

(** [Math.ceil(n / d)] for a positive [d]. *)
Definition ceil_div (n d : Z) : Z := - (- n / d).

(** What [check] does with the bucket of its key. *)
Definition check_bucket (limit : Z) (existing : option RateLimitBucket) (nowMs : Z) :
    RateLimitBucket * RateLimitDecision :=
  let fresh := ({| rb_count := 1; rb_windowStartedAtMs := nowMs |},
                RateLimitAllowed (limit - 1) (nowMs + RATE_LIMIT_WINDOW_MS)) in
  match existing with
  | None => fresh
  | Some b =>
      let start := rb_windowStartedAtMs b in
      if RATE_LIMIT_WINDOW_MS <=? nowMs - start then fresh
      else if limit <=? rb_count b then
        let resetAtMs := start + RATE_LIMIT_WINDOW_MS in
        (b, RateLimitDenied (1 `max` ceil_div (resetAtMs - nowMs) 1000) resetAtMs)
      else
        let count := rb_count b + 1 in
        ({| rb_count := count; rb_windowStartedAtMs := start |},
         RateLimitAllowed (0 `max` (limit - count)) (start + RATE_LIMIT_WINDOW_MS))
  end.

Definition check (limit : Z) (store : RateLimitStore) (r : RateLimitRequest) :
    RateLimitStore * RateLimitDecision :=
  let key := rate_limit_key (rq_clientKey r) (rq_routeKey r) in
  let '(b, d) := check_bucket limit (store !! key) (rq_nowMs r) in
  (<[key := b]> store, d).

Definition reset (store : RateLimitStore) : RateLimitStore := ∅.

(** A sequence of requests. *)
Fixpoint check_all (limit : Z) (store : RateLimitStore) (rs : list RateLimitRequest) :
    RateLimitStore * list RateLimitDecision :=
  match rs with
  | [] => (store, [])
  | r :: rs' =>
      let '(store', d) := check limit store r in
      let '(store'', ds) := check_all limit store' rs' in (store'', d :: ds)
  end.

(** ** The specification: one independent counter per client and route *)

Abbreviation spec_state := (gmap (string * string) RateLimitBucket).

Definition spec_check (limit : Z) (s : spec_state) (r : RateLimitRequest) :
    spec_state * RateLimitDecision :=
  let key := (rq_clientKey r, rq_routeKey r) in
  let '(b, d) := check_bucket limit (s !! key) (rq_nowMs r) in
  (<[key := b]> s, d).

Fixpoint spec_check_all (limit : Z) (s : spec_state) (rs : list RateLimitRequest) :
    spec_state * list RateLimitDecision :=
  match rs with
  | [] => (s, [])
  | r :: rs' =>
      let '(s', d) := spec_check limit s r in
      let '(s'', ds) := spec_check_all limit s' rs' in (s'', d :: ds)
  end.

(** The requests of one key that are accepted in the window that ends at
    [resetAt]. *)
Definition accepts (key : string) (resetAt : Z) (r : RateLimitRequest)
    (d : RateLimitDecision) : bool :=
  bool_decide (rate_limit_key (rq_clientKey r) (rq_routeKey r) = key)
  && match d with RateLimitAllowed _ t => t =? resetAt | RateLimitDenied _ _ => false end.

Fixpoint accepted_in_window (key : string) (resetAt : Z)
    (rs : list RateLimitRequest) (ds : list RateLimitDecision) : Z :=
  match rs, ds with
  | r :: rs, d :: ds =>
      (if accepts key resetAt r d then 1 else 0) + accepted_in_window key resetAt rs ds
  | _, _ => 0
  end.

(** ** Lemmas *)

(** How many requests the window that ends at [resetAt] can still accept. *)
Definition budget (limit : Z) (b : option RateLimitBucket) (resetAt : Z) : Z :=
  match b with
  | None => limit
  | Some b =>
      let t := rb_windowStartedAtMs b + RATE_LIMIT_WINDOW_MS in
      if resetAt <? t then 0 else if resetAt =? t then 0 `max` (limit - rb_count b) else limit
  end.

Lemma check_bucket_budget limit b now resetAt :
  1 <= limit →
  let '(b', d) := check_bucket limit b now in
  (if match d with RateLimitAllowed _ t => t =? resetAt | RateLimitDenied _ _ => false end
   then 1 else 0) + budget limit (Some b') resetAt <= budget limit b resetAt.
Proof.
  intros Hl. unfold check_bucket, budget, RATE_LIMIT_WINDOW_MS.
  repeat (case_match; simplify_eq/=); lia.
Qed.

Lemma check_lookup_ne limit store r key :
  rate_limit_key (rq_clientKey r) (rq_routeKey r) ≠ key →
  (check limit store r).1 !! key = store !! key.
Proof. intros Hk. unfold check. destruct (check_bucket _ _ _). simpl. by rewrite lookup_insert_ne. Qed.

Lemma accepted_le_budget limit store rs key resetAt :
  1 <= limit →
  accepted_in_window key resetAt rs (check_all limit store rs).2 <=
  budget limit (store !! key) resetAt.
Proof.
  intros Hl. revert store; induction rs as [|r rs IH]; intros store; simpl.
  { unfold budget. repeat case_match; lia. }
  destruct (check limit store r) as [store' d] eqn:Ec. specialize (IH store').
  destruct (check_all limit store' rs) as [store'' ds]. simpl in *. unfold accepts.
  case_bool_decide as Ek; simpl.
  - subst key. unfold check in Ec. pose proof (check_bucket_budget limit
      (store !! rate_limit_key (rq_clientKey r) (rq_routeKey r)) (rq_nowMs r) resetAt Hl) as Hb.
    destruct (check_bucket _ _ _) as [b' d']. simplify_eq.
    rewrite lookup_insert_eq in IH. lia.
  - pose proof (check_lookup_ne limit store r key Ek) as Hn. rewrite Ec in Hn. simpl in Hn.
    rewrite Hn in IH. lia.
Qed.

Lemma ceil_div_ge n d : 0 < d → n <= ceil_div n d * d.
Proof. intros Hd. unfold ceil_div. pose proof (Z.mul_div_le (- n) d Hd). lia. Qed.

(** The store agrees with the specification on every pair. *)
Definition store_refines (store : RateLimitStore) (s : spec_state) : Prop :=
  ∀ client route, has_char NUL client = false →
    store !! rate_limit_key client route = s !! (client, route).

Lemma rate_limit_key_inj c1 r1 c2 r2 :
  has_char NUL c1 = false → has_char NUL c2 = false →
  rate_limit_key c1 r1 = rate_limit_key c2 r2 → (c1, r1) = (c2, r2).
Proof. intros H1 H2 E. by destruct (app_sep_inj NUL c1 c2 r1 r2 H1 H2 E) as [-> ->]. Qed.

Lemma check_refines limit store s r :
  store_refines store s → has_char NUL (rq_clientKey r) = false →
  (check limit store r).2 = (spec_check limit s r).2 ∧
  store_refines (check limit store r).1 (spec_check limit s r).1.
Proof.
  intros Hs Hr. unfold check, spec_check. rewrite (Hs _ _ Hr).
  destruct (check_bucket _ _ _) as [b d]. simpl. split; [done|]. intros client route Hc.
  destruct (decide ((rq_clientKey r, rq_routeKey r) = (client, route))) as [E|E].
  - simplify_eq. by rewrite !lookup_insert_eq.
  - rewrite !lookup_insert_ne; [by apply Hs|done|]. intros E'. apply E. by apply rate_limit_key_inj.
Qed.

(** ** Properties *)

(** However requests and clock readings interleave, at most [limit]
    requests of one client and route are accepted in one window: among the
    accepted ones no more than [limit] carry the same reset time. *)
Theorem at_most_limit_per_window requestsPerMinute limit rs client route resetAt :
  createRateLimiter requestsPerMinute = Ok limit →
  accepted_in_window (rate_limit_key client route) resetAt rs (check_all limit ∅ rs).2 <= limit.
Proof.
  intros Hc. assert (1 <= limit) as Hl.
  { unfold createRateLimiter in Hc. destruct requestsPerMinute as [| | |q]; try done.
    simpl in Hc. destruct (Number.ltb _ _) eqn:E; [done|]. simpl in Hc. injection Hc as <-.
    rewrite Z.div_1_r. unfold Number.ltb in E. simpl in E. apply andb_false_iff in E.
    assert (inject_Z 1 <= q)%Q as Hq.
    { destruct E as [E|E].
      - destruct (Qlt_le_dec q (inject_Z 1)) as [Hlt|]; [|done]. apply Qlt_le_weak in Hlt.
        apply Qle_bool_iff in Hlt. congruence.
      - by apply negb_false_iff, Qle_bool_iff in E. }
    apply Qfloor_resp_le in Hq. by rewrite Qfloor_Z in Hq. }
  pose proof (accepted_le_budget limit ∅ rs (rate_limit_key client route) resetAt Hl) as Hb.
  by rewrite lookup_empty in Hb.
Qed.

(** [Retry-After] is honest: a denied request is told to wait at least one
    second, and if it is the next request of its key and comes back when the
    announced time has passed, it is accepted. *)
Theorem retry_after_is_accepted limit store r retry resetAt later :
  (check limit store r).2 = RateLimitDenied retry resetAt →
  rq_nowMs r + 1000 * retry <= later →
  1 <= retry ∧
  ∃ remaining t, (check limit (check limit store r).1
    {| rq_clientKey := rq_clientKey r; rq_routeKey := rq_routeKey r; rq_nowMs := later |}).2 =
    RateLimitAllowed remaining t.
Proof.
  unfold check at 1. destruct (check_bucket limit (store !! _) (rq_nowMs r)) as [b d] eqn:E.
  simpl. intros -> Hlater. unfold check. rewrite E. simpl. rewrite lookup_insert_eq.
  unfold check_bucket in E. destruct (store !! _) as [b0|]; [|done].
  destruct (_ <=? _); [done|]. destruct (limit <=? rb_count b0); simplify_eq.
  pose proof (ceil_div_ge (rb_windowStartedAtMs b + RATE_LIMIT_WINDOW_MS - rq_nowMs r) 1000 eq_refl).
  split; [lia|]. simpl.
  destruct (Z.leb_spec RATE_LIMIT_WINDOW_MS (later - rb_windowStartedAtMs b)); simpl; [|lia].
  by eexists _, _.
Qed.

(** Refinement: as long as client keys contain no NUL character, the shared
    string-keyed store decides every request as one independent counter per
    (client, route) pair would. *)
Theorem rate_limiter_refines_spec limit rs :
  Forall (λ r, has_char NUL (rq_clientKey r) = false) rs →
  (check_all limit ∅ rs).2 = (spec_check_all limit ∅ rs).2.
Proof.
  assert (store_refines ∅ ∅) as H0 by (intros ???; by rewrite !lookup_empty).
  revert H0. generalize (∅ : RateLimitStore) as store, (∅ : spec_state) as s.
  intros store s H0 Hrs. revert store s H0.
  induction Hrs as [|r rs Hr Hrs IH]; intros store s H0; simpl; [done|].
  destruct (check_refines limit store s r H0 Hr) as [Hd Hs].
  destruct (check limit store r) as [store' d], (spec_check limit s r) as [s' d']. simpl in *.
  specialize (IH _ _ Hs).
  destruct (check_all limit store' rs), (spec_check_all limit s' rs). simpl in *. by subst.
Qed.

(** The store never drops a bucket, expired or not: a check leaves every
    key it had, so that only [reset] shrinks it. *)
Theorem check_never_reaps limit store r key :
  is_Some (store !! key) → is_Some ((check limit store r).1 !! key).
Proof.
  intros Hk. unfold check. destruct (check_bucket _ _ _). simpl.
  apply lookup_insert_is_Some'. by right.
Qed.

(** ** Witnesses *)

Definition hit (now : Z) : RateLimitRequest :=
  {| rq_clientKey := "10.0.0.1"; rq_routeKey := "POST /jobs"; rq_nowMs := now |}.

Lemma at_most_limit_per_window_witness :
  (check_all 2 ∅ [hit 0; hit 10; hit 20; hit 59999; hit 60000]).2 =
    [RateLimitAllowed 1 60000; RateLimitAllowed 0 60000; RateLimitDenied 60 60000;
     RateLimitDenied 1 60000; RateLimitAllowed 1 120000] ∧
  accepted_in_window (rate_limit_key "10.0.0.1" "POST /jobs") 60000
    [hit 0; hit 10; hit 20; hit 59999; hit 60000]
    (check_all 2 ∅ [hit 0; hit 10; hit 20; hit 59999; hit 60000]).2 <= 2.
Proof.
  split; [vm_compute; reflexivity|].
  apply (at_most_limit_per_window (Fin (5 # 2))). vm_compute. reflexivity.
Defined.

Definition full_store : RateLimitStore := (check_all 2 ∅ [hit 0; hit 10]).1.

Lemma retry_after_is_accepted_witness :
  ∃ remaining t, (check 2 (check 2 full_store (hit 20)).1 (hit 60020)).2 =
                 RateLimitAllowed remaining t.
Proof.
  apply (retry_after_is_accepted 2 full_store (hit 20) 60 60000 60020);
    vm_compute; [reflexivity|discriminate].
Defined.

Lemma rate_limiter_refines_spec_witness :
  (check_all 2 ∅ [hit 0; hit 10; hit 20]).2 = (spec_check_all 2 ∅ [hit 0; hit 10; hit 20]).2.
Proof. apply (rate_limiter_refines_spec 2). repeat constructor. Defined.

(** An expired bucket of another client survives a check a day later. *)
Lemma check_never_reaps_witness :
  is_Some ((check 2 full_store
    {| rq_clientKey := "10.0.0.2"; rq_routeKey := "GET /"; rq_nowMs := 86400000 |}).1
    !! rate_limit_key "10.0.0.1" "POST /jobs").
Proof. apply (check_never_reaps 2 full_store). eexists. vm_compute. reflexivity. Defined.
