(* ===== verification/WorkflowMachine.v ===== *)
(** * Workflow state machines

    [packages/core-engine/src/workflow-state-machine.ts]: the checked
    constructor, the derivation from a workflow topology, the lookup index, the
    breadth-first search for a shortest transition path and the registry.

    Error messages are kept as error codes. [Map]s keyed by string whose order
    is not observed are [gmap]s. *)

From S2P Require Import Prelude JsString JsList Contracts.

(** ** Data *)

(** [entry] and [terminal] are compared with [=== true] only, so an absent flag
    is [false]. *)
Record WorkflowStateMachineState := {
  ws_stateId : string;
  ws_label : option string;
  ws_entry : bool;
  ws_terminal : bool;
}.

Record WorkflowStateMachineTransition := {
  wt_transitionId : string;
  wt_from : string;
  wt_to : string;
  wt_guard : string;
  wt_action : string;
  wt_label : option string;
}.

Inductive WorkflowStateMachineProvenance : Type :=
| prov_manual | prov_workflow_topology | prov_manual_override.

#[export] Instance provenance_eq_dec : EqDecision WorkflowStateMachineProvenance.
Proof. solve_decision. Defined.

Record WorkflowStateMachine := {
  wm_id : string;
  wm_label : string;
  wm_states : list WorkflowStateMachineState;
  wm_transitions : list WorkflowStateMachineTransition;
  wm_provenance : WorkflowStateMachineProvenance;
}.

Record CreateInput := {
  ci_id : string;
  ci_label : string;
  ci_states : list WorkflowStateMachineState;
  ci_transitions : list WorkflowStateMachineTransition;
  ci_provenance : option WorkflowStateMachineProvenance;
}.

Inductive WorkflowError : Type :=
| we_empty_id
| we_empty_label
| we_no_states
| we_empty_state_id
| we_duplicate_state (id : string)
| we_no_entry_state
| we_empty_transition_id
| we_duplicate_transition (id : string)
| we_unknown_source (transitionId state : string)
| we_unknown_target (transitionId state : string)
| we_already_registered (id : string).

(** ** Construction *)

Definition add_state_id (stateIds : gset string) (state : WorkflowStateMachineState) :
    outcome WorkflowError (gset string) :=
  if is_blank (ws_stateId state) then Throw we_empty_state_id
  else if bool_decide (ws_stateId state ∈ stateIds)
  then Throw (we_duplicate_state (ws_stateId state))
  else Ok ({[ws_stateId state]} ∪ stateIds).

Definition add_transition_id (stateIds : gset string) (transitionIds : gset string)
    (t : WorkflowStateMachineTransition) : outcome WorkflowError (gset string) :=
  if is_blank (wt_transitionId t) then Throw we_empty_transition_id
  else if bool_decide (wt_transitionId t ∈ transitionIds)
  then Throw (we_duplicate_transition (wt_transitionId t))
  else if negb (bool_decide (wt_from t ∈ stateIds))
  then Throw (we_unknown_source (wt_transitionId t) (wt_from t))
  else if negb (bool_decide (wt_to t ∈ stateIds))
  then Throw (we_unknown_target (wt_transitionId t) (wt_to t))
  else Ok ({[wt_transitionId t]} ∪ transitionIds).

Definition by_stateId `{LocaleCompare} : WorkflowStateMachineState → _ → comparison :=
  cmp_on ws_stateId localeCompare.
Definition by_transitionId `{LocaleCompare} : WorkflowStateMachineTransition → _ → comparison :=
  cmp_on wt_transitionId localeCompare.

Definition createWorkflowStateMachine `{LocaleCompare} (input : CreateInput) :
    outcome WorkflowError WorkflowStateMachine :=
  (guard_throw (is_blank (ci_id input)) we_empty_id ;;;
   guard_throw (is_blank (ci_label input)) we_empty_label ;;;
   guard_throw (bool_decide (length (ci_states input) = 0%nat)) we_no_states ;;;
   let* stateIds := outcome_foldl add_state_id ∅ (ci_states input) in
   let entryStateCount := length (filter (λ s, ws_entry s = true) (ci_states input)) in
   guard_throw (bool_decide (entryStateCount = 0%nat)) we_no_entry_state ;;;
   let* _ := outcome_foldl (add_transition_id stateIds) ∅ (ci_transitions input) in
   Ok {| wm_id := ci_id input; wm_label := ci_label input;
         wm_states := js_sort by_stateId (ci_states input);
         wm_transitions := js_sort by_transitionId (ci_transitions input);
         wm_provenance := default prov_manual (ci_provenance input) |})%outcome.

(** ** Derivation from a workflow topology *)

Record WorkflowTopologyState := {
  ts_stateId : string;
  ts_screenId : string;
  ts_label : string;
  ts_sourceRefs : list string;
}.

Record WorkflowTopologyTransition := {
  tt_transitionId : string;
  tt_from : string;
  tt_to : string;
  tt_guard : string;
  tt_actions : list string;
}.

(** The part of [WorkflowTopology] the derivation reads. *)
Record WorkflowTopology := {
  tp_states : list WorkflowTopologyState;
  tp_transitions : list WorkflowTopologyTransition;
  tp_entryStates : list string;
  tp_exitStates : list string;
}.

Definition allow_state (stateFilter : option (list string)) (s : WorkflowTopologyState) : bool :=
  match stateFilter with None => true | Some l => bool_decide (ts_stateId s ∈ l) end.

Definition allow_transition (stateFilter : option (list string))
    (t : WorkflowTopologyTransition) : bool :=
  match stateFilter with
  | None => true
  | Some l => bool_decide (tt_from t ∈ l) && bool_decide (tt_to t ∈ l)
  end.

Definition topology_state (tp : WorkflowTopology) (s : WorkflowTopologyState) :
    WorkflowStateMachineState :=
  {| ws_stateId := ts_stateId s; ws_label := Some (ts_label s);
     ws_entry := bool_decide (ts_stateId s ∈ tp_entryStates tp);
     ws_terminal := bool_decide (ts_stateId s ∈ tp_exitStates tp) |}.

Definition topology_transition (t : WorkflowTopologyTransition) : WorkflowStateMachineTransition :=
  {| wt_transitionId := tt_transitionId t; wt_from := tt_from t; wt_to := tt_to t;
     wt_guard := tt_guard t; wt_action := join ";" (tt_actions t); wt_label := None |}.

Definition promote (promotedId : string) (s : WorkflowStateMachineState) :
    WorkflowStateMachineState :=
  if bool_decide (ws_stateId s = promotedId)
  then {| ws_stateId := ws_stateId s; ws_label := ws_label s; ws_entry := true;
          ws_terminal := ws_terminal s |}
  else s.

(** When no surviving state is an entry, the first one by id becomes one. *)
Definition promote_entry `{LocaleCompare} (states : list WorkflowStateMachineState) :
    list WorkflowStateMachineState :=
  if negb (existsb ws_entry states) && negb (bool_decide (states = []))
  then match js_sort by_stateId states with
       | [] => states
       | orderedFirst :: _ => promote (ws_stateId orderedFirst) <$> states
       end
  else states.

Definition buildStateMachineFromWorkflowTopology `{LocaleCompare} (id label : string)
    (tp : WorkflowTopology) (stateFilter : option (list string)) :
    outcome WorkflowError WorkflowStateMachine :=
  createWorkflowStateMachine
    {| ci_id := id; ci_label := label;
       ci_states := promote_entry
         (topology_state tp <$> filter (λ s, allow_state stateFilter s = true) (tp_states tp));
       ci_transitions :=
         topology_transition <$>
           filter (λ t, allow_transition stateFilter t = true) (tp_transitions tp);
       ci_provenance := Some prov_workflow_topology |}.

(** ** Lookup index *)

Record WorkflowStateMachineIndex := {
  ix_stateMachine : WorkflowStateMachine;
  ix_statesById : gmap string WorkflowStateMachineState;
  ix_transitionsById : gmap string WorkflowStateMachineTransition;
  ix_outgoingByState : gmap string (list WorkflowStateMachineTransition);
}.

(** The loop over the transitions: the buckets of outgoing transitions. *)
Definition push_outgoing (buckets : gmap string (list WorkflowStateMachineTransition))
    (t : WorkflowStateMachineTransition) : gmap string (list WorkflowStateMachineTransition) :=
  <[wt_from t := default [] (buckets !! wt_from t) ++ [t]]> buckets.

Definition indexWorkflowStateMachine `{LocaleCompare} (m : WorkflowStateMachine) :
    WorkflowStateMachineIndex :=
  {| ix_stateMachine := m;
     ix_statesById := foldl (λ acc s, <[ws_stateId s := s]> acc) ∅ (wm_states m);
     ix_transitionsById := foldl (λ acc t, <[wt_transitionId t := t]> acc) ∅ (wm_transitions m);
     ix_outgoingByState :=
       js_sort by_transitionId <$> foldl push_outgoing ∅ (wm_transitions m) |}.

(** ** Breadth-first search *)

Inductive PathResult : Type :=
| PathSame
| PathFound (transitionIds : list string)
| PathNone.

(** The search's local variables. *)
Record bfs_state := {
  bf_visited : gset string;
  bf_predecessor : gmap string (string * string);
  bf_queue : list string;
}.

(** The [while (cursor !== fromState)] loop that rebuilds the path. *)
Fixpoint rebuild_path (fuel : nat) (predecessor : gmap string (string * string))
    (fromState cursor : string) (path : list string) : option (list string) :=
  match fuel with
  | O => None
  | S fuel =>
      if bool_decide (cursor = fromState) then Some path
      else match predecessor !! cursor with
           | None => Some path
           | Some (state, transitionId) =>
               rebuild_path fuel predecessor fromState state (transitionId :: path)
           end
  end.

(** The [for] loop over the outgoing transitions of [current]: the new state, or
    the predecessor map at the moment the target is discovered. *)
Fixpoint scan_outgoing (toState current : string)
    (outgoing : list WorkflowStateMachineTransition) (s : bfs_state) :
    bfs_state + gmap string (string * string) :=
  match outgoing with
  | [] => inl s
  | t :: rest =>
      if bool_decide (wt_to t ∈ bf_visited s) then scan_outgoing toState current rest s
      else
        let predecessor := <[wt_to t := (current, wt_transitionId t)]> (bf_predecessor s) in
        if bool_decide (wt_to t = toState) then inr predecessor
        else scan_outgoing toState current rest
               {| bf_visited := {[wt_to t]} ∪ bf_visited s;
                  bf_predecessor := predecessor;
                  bf_queue := bf_queue s ++ [wt_to t] |}
  end.

Definition outgoing_of (ix : WorkflowStateMachineIndex) (state : string) :
    list WorkflowStateMachineTransition :=
  default [] (ix_outgoingByState ix !! state).

(** The [while (queue.length > 0)] loop; [None] is out of fuel. *)
Fixpoint bfs_loop (fuel : nat) (ix : WorkflowStateMachineIndex) (fromState toState : string)
    (s : bfs_state) : option PathResult :=
  match fuel with
  | O => None
  | S fuel =>
      match bf_queue s with
      | [] => Some PathNone
      | current :: queue =>
          let s := {| bf_visited := bf_visited s; bf_predecessor := bf_predecessor s;
                      bf_queue := queue |} in
          match scan_outgoing toState current (outgoing_of ix current) s with
          | inr predecessor =>
              PathFound <$> rebuild_path (S (size predecessor)) predecessor fromState toState []
          | inl s' => bfs_loop fuel ix fromState toState s'
          end
      end
  end.

(** Every state enters the queue at most once: one round per transition, one for
    the start and one to see the empty queue. *)
Definition bfs_fuel (ix : WorkflowStateMachineIndex) : nat :=
  S (S (length (wm_transitions (ix_stateMachine ix)))).

Definition findShortestTransitionPath (ix : WorkflowStateMachineIndex)
    (fromState toState : string) : option PathResult :=
  if negb (bool_decide (is_Some (ix_statesById ix !! fromState)))
     || negb (bool_decide (is_Some (ix_statesById ix !! toState)))
  then Some PathNone
  else if bool_decide (fromState = toState) then Some PathSame
  else bfs_loop (bfs_fuel ix) ix fromState toState
         {| bf_visited := {[fromState]}; bf_predecessor := ∅; bf_queue := [fromState] |}.

(** ** Registry *)

(** The [Map] of the registry in insertion order; [Map.set] on a present key
    keeps its position. *)
Definition registry : Type := list WorkflowStateMachine.

Definition registry_get (r : registry) (id : string) : option WorkflowStateMachine :=
  find_by wm_id id r.

Definition registry_has (r : registry) (id : string) : bool :=
  bool_decide (is_Some (registry_get r id)).

Definition registry_set (r : registry) (m : WorkflowStateMachine) : registry :=
  if registry_has r (wm_id m) then replace_by wm_id (wm_id m) m r else r ++ [m].

Definition register (r : registry) (m : WorkflowStateMachine) : outcome WorkflowError registry :=
  if registry_has r (wm_id m) then Throw (we_already_registered (wm_id m))
  else Ok (registry_set r m).

Definition override (r : registry) (m : WorkflowStateMachine) : registry :=
  let stamped := if bool_decide (wm_provenance m = prov_manual) then m
                 else {| wm_id := wm_id m; wm_label := wm_label m; wm_states := wm_states m;
                         wm_transitions := wm_transitions m;
                         wm_provenance := prov_manual_override |} in
  registry_set r stamped.

Definition registry_list `{LocaleCompare} (r : registry) : list WorkflowStateMachine :=
  js_sort (cmp_on wm_id localeCompare) r.
