(* ===== verification/WorkflowSearch.v ===== *)
(** * Workflow state machines: correctness of construction and search

    Accepted machines are well formed, a derivation from a topology succeeds
    whenever the topology is, and the breadth-first search returns a shortest
    path exactly when one exists. *)

From S2P Require Import Prelude JsString JsList Contracts WorkflowMachine.

(** ** Walks *)

(** [walk m u ts v]: the transitions [ts] of [m] lead from [u] to [v]. *)
Inductive walk (m : WorkflowStateMachine) (u : string) :
    list WorkflowStateMachineTransition → string → Prop :=
| walk_nil : walk m u [] u
| walk_snoc ts v t :
    walk m u ts v → t ∈ wm_transitions m → wt_from t = v → walk m u (ts ++ [t]) (wt_to t).

(** ** The index *)

Lemma foldl_push_outgoing ts acc u :
  foldl push_outgoing acc ts !! u =
  match filter (λ t, wt_from t = u) ts with
  | [] => acc !! u
  | l => Some (default [] (acc !! u) ++ l)
  end.
Proof.
  revert acc; induction ts as [|t ts IH]; intros acc; simpl; [done|].
  rewrite IH. unfold push_outgoing. rewrite filter_cons. case_decide as E.
  - rewrite E, lookup_insert_eq. simpl. destruct (filter _ ts); [done|].
    by rewrite <- app_assoc.
  - by rewrite lookup_insert_ne.
Qed.

Lemma elem_of_outgoing `{LocaleCompare} m u t :
  t ∈ outgoing_of (indexWorkflowStateMachine m) u ↔ t ∈ wm_transitions m ∧ wt_from t = u.
Proof.
  unfold outgoing_of, indexWorkflowStateMachine. cbn [ix_outgoingByState].
  rewrite lookup_fmap, foldl_push_outgoing, lookup_empty.
  transitivity (t ∈ filter (λ t, wt_from t = u) (wm_transitions m)).
  - destruct (filter _ _); [done|]. apply elem_of_js_sort.
  - rewrite list_elem_of_filter. naive_solver.
Qed.

(** ** Breadth-first search *)

Section bfs.
Context `{LocaleCompare} (m : WorkflowStateMachine) (from : string).
Let ix := indexWorkflowStateMachine m.

(** The path that the predecessor map stores for a discovered state. *)
Inductive chain (pred : gmap string (string * string)) :
    string → list WorkflowStateMachineTransition → Prop :=
| chain_from : chain pred from []
| chain_step v t ts :
    v ≠ from → pred !! v = Some (wt_from t, wt_transitionId t) →
    t ∈ wm_transitions m → wt_to t = v →
    chain pred (wt_from t) ts → chain pred v (ts ++ [t]).

Lemma chain_walk pred v ts : chain pred v ts → walk m from ts v.
Proof. induction 1; [constructor|]. subst. by eapply walk_snoc. Qed.

Lemma chain_insert pred w p v ts :
  pred !! w = None → chain pred v ts → chain (<[w := p]> pred) v ts.
Proof.
  intros Hw. induction 1 as [|v t ts Hv Hp Ht Hto Hc IH]; [constructor|].
  constructor; try done. rewrite lookup_insert_ne; [done|]. intros ->. congruence.
Qed.

Lemma rebuild_path_chain fuel pred v ts acc :
  chain pred v ts → (length ts < fuel)%nat →
  rebuild_path fuel pred from v acc = Some ((wt_transitionId <$> ts) ++ acc).
Proof.
  intros Hc. revert fuel acc. induction Hc as [|v t ts Hv Hp Ht Hto Hc IH]; intros fuel acc Hf.
  - destruct fuel; [simpl in Hf; lia|]. simpl. by rewrite bool_decide_eq_true_2.
  - rewrite length_app in Hf. simpl in Hf. destruct fuel; [lia|]. simpl.
    rewrite bool_decide_eq_false_2 by done. rewrite Hp, IH by lia.
    rewrite fmap_app, <- app_assoc. done.
Qed.

(** While the outgoing transitions of [cur] are scanned and [rest] remain. *)
Record scan_inv (cur : string) (rest : list WorkflowStateMachineTransition)
    (depth : string → nat) (s : bfs_state) : Prop := {
  sc_from : from ∈ bf_visited s;
  sc_from0 : depth from = 0%nat;
  sc_cur : cur ∈ bf_visited s;
  sc_chain v : v ∈ bf_visited s →
    ∃ ts, chain (bf_predecessor s) v ts ∧ length ts = depth v;
  sc_size v : v ∈ bf_visited s → (depth v ≤ size (bf_predecessor s))%nat;
  sc_dom v : v ∉ bf_visited s → bf_predecessor s !! v = None;
  sc_queue x : x ∈ bf_queue s →
    x ∈ bf_visited s ∧ (depth cur ≤ depth x ≤ S (depth cur))%nat;
  sc_max v : v ∈ bf_visited s → (depth v ≤ S (depth cur))%nat;
  sc_sorted : StronglySorted (λ x y, (depth x ≤ depth y)%nat) (bf_queue s);
  sc_closed u t : u ∈ bf_visited s → u ∉ bf_queue s → u ≠ cur →
    t ∈ wm_transitions m → wt_from t = u →
    wt_to t ∈ bf_visited s ∧ (depth (wt_to t) ≤ S (depth u))%nat;
  sc_done t : t ∈ wm_transitions m → wt_from t = cur →
    t ∈ rest ∨ (wt_to t ∈ bf_visited s ∧ (depth (wt_to t) ≤ S (depth cur))%nat);
}.

(** Every state a short walk reaches has been discovered, at most that deep. *)
Lemma scan_inv_near cur rest depth s ts v :
  scan_inv cur rest depth s → walk m from ts v → (length ts ≤ depth cur)%nat →
  v ∈ bf_visited s ∧ (depth v ≤ length ts)%nat.
Proof.
  intros Hs. induction 1 as [|ts v t Hw IH Ht Hf]; intros Hl.
  - split; [apply Hs|]. rewrite (sc_from0 _ _ _ _ Hs). lia.
  - rewrite length_app in *. simpl in *. destruct IH as [Hv Hd]; [lia|].
    edestruct (sc_closed _ _ _ _ Hs v t) as [Hv' Hd']; try done.
    + intros [_ Hq]%(sc_queue _ _ _ _ Hs). lia.
    + intros ->. lia.
    + split; [done|lia].
Qed.

Lemma scan_inv_skip cur t rest depth s :
  scan_inv cur (t :: rest) depth s → wt_to t ∈ bf_visited s → scan_inv cur rest depth s.
Proof.
  intros Hs Hv. pose proof (sc_max _ _ _ _ Hs _ Hv) as Hd. destruct Hs. split; try done.
  intros t' Ht' Hf'. destruct (sc_done0 t' Ht' Hf') as [[->|Hr]%elem_of_cons|Hr]; auto.
Qed.

(** A discovered state, one deeper than [cur]. *)
Definition discover (cur : string) (depth : string → nat) (v : string) : string → nat :=
  λ x, if bool_decide (x = v) then S (depth cur) else depth x.

Lemma discover_old cur depth v x : x ≠ v → discover cur depth v x = depth x.
Proof. intros. unfold discover. by rewrite bool_decide_eq_false_2. Qed.

Lemma discover_new cur depth v : discover cur depth v v = S (depth cur).
Proof. unfold discover. by rewrite bool_decide_eq_true_2. Qed.

Lemma chain_discover cur t rest depth s :
  scan_inv cur (t :: rest) depth s → t ∈ wm_transitions m → wt_from t = cur →
  wt_to t ∉ bf_visited s →
  ∃ ts, chain (<[wt_to t := (cur, wt_transitionId t)]> (bf_predecessor s)) (wt_to t) ts ∧
        length ts = S (depth cur).
Proof.
  intros Hs Ht Hf Hv. destruct (sc_chain _ _ _ _ Hs _ (sc_cur _ _ _ _ Hs)) as (ts & Hc & Hl).
  exists (ts ++ [t]). split; [|rewrite length_app; simpl; lia].
  constructor; [| |done..|].
  - intros E. apply Hv. rewrite E. apply Hs.
  - rewrite lookup_insert_eq. by rewrite Hf.
  - rewrite Hf. apply chain_insert; [by apply Hs|done].
Qed.

Lemma scan_inv_discover cur t rest depth s :
  scan_inv cur (t :: rest) depth s → t ∈ wm_transitions m → wt_from t = cur →
  wt_to t ∉ bf_visited s →
  scan_inv cur rest (discover cur depth (wt_to t))
    {| bf_visited := {[wt_to t]} ∪ bf_visited s;
       bf_predecessor := <[wt_to t := (cur, wt_transitionId t)]> (bf_predecessor s);
       bf_queue := bf_queue s ++ [wt_to t] |}.
Proof.
  intros Hs Ht Hf Hv. pose proof (chain_discover _ _ _ _ _ Hs Ht Hf Hv) as Hnew.
  pose proof (sc_dom _ _ _ _ Hs _ Hv) as Hdom.
  assert (∀ x, x ∈ bf_visited s → discover cur depth (wt_to t) x = depth x) as Hold.
  { intros x Hx. apply discover_old. intros ->. done. }
  assert (size (<[wt_to t := (cur, wt_transitionId t)]> (bf_predecessor s)) =
          S (size (bf_predecessor s))) as Hsize by (by apply map_size_insert_None).
  destruct Hs as [H1 H2 H3 H4 H5 H6 H7 H8 H9 H10 H11]. split; simpl.
  - set_solver.
  - by rewrite Hold.
  - set_solver.
  - intros v [Hx%elem_of_singleton|Hx]%elem_of_union; [subst v; by rewrite discover_new|].
    destruct (H4 v Hx) as (ts & Hc & Hl). rewrite Hold by done. exists ts.
    split; [by apply chain_insert|done].
  - intros v [Hx%elem_of_singleton|Hx]%elem_of_union; rewrite Hsize.
    + subst v. rewrite discover_new. specialize (H5 _ H3). lia.
    + rewrite Hold by done. specialize (H5 _ Hx). lia.
  - intros v Hx. rewrite lookup_insert_ne by set_solver. apply H6. set_solver.
  - intros x [Hx|Hx%list_elem_of_singleton]%elem_of_app.
    + destruct (H7 x Hx). rewrite !Hold by done. split; [set_solver|done].
    + subst x. rewrite discover_new, Hold by done. split; [set_solver|lia].
  - intros v [Hx%elem_of_singleton|Hx]%elem_of_union.
    + subst v. rewrite discover_new, Hold by done. done.
    + rewrite !Hold by done. auto.
  - apply StronglySorted_app. split; [|split].
    + intros x y Hx Hy%list_elem_of_singleton. subst y. destruct (H7 x Hx) as [Hxv ?].
      rewrite discover_new, Hold by done. lia.
    + revert H9. clear -Hold H7. intros H9.
      assert (Forall (λ x, x ∈ bf_visited s) (bf_queue s)) as HF.
      { apply Forall_forall. intros x Hx. by apply H7. }
      clear H7. induction H9 as [|x l Hl IH Hx]; [constructor|].
      apply Forall_cons in HF as [Hxv HF]. constructor; [by apply IH|].
      rewrite Forall_forall in Hx, HF |- *. intros y Hy. rewrite !Hold by auto. auto.
    + repeat constructor.
  - intros u t' Hu Hq Hne Ht' Hf'. rewrite elem_of_app, list_elem_of_singleton in Hq.
    assert (u ∈ bf_visited s) as Hu' by set_solver.
    destruct (H10 u t' Hu' ltac:(tauto) Hne Ht' Hf') as [? ?].
    rewrite !Hold by done. split; [set_solver|done].
  - intros t' Ht' Hf'. destruct (H11 t' Ht' Hf') as [[->|Hr]%elem_of_cons|[Hr Hd]].
    + right. rewrite discover_new, Hold by done. split; [set_solver|done].
    + by left.
    + right. rewrite !Hold by done. split; [set_solver|done].
Qed.

(** The scan of one state keeps the invariant, or discovers the target by a
    shortest path. *)
Lemma scan_outgoing_spec to cur rest depth s :
  scan_inv cur rest depth s → to ∉ bf_visited s →
  (∀ t, t ∈ rest → t ∈ wm_transitions m ∧ wt_from t = cur) →
  match scan_outgoing to cur rest s with
  | inl s' => ∃ depth', scan_inv cur [] depth' s' ∧ to ∉ bf_visited s'
  | inr pred => ∃ ts, chain pred to ts ∧ (length ts ≤ size pred)%nat ∧
      ∀ ts', walk m from ts' to → (length ts ≤ length ts')%nat
  end.
Proof.
  revert depth s. induction rest as [|t rest IH]; intros depth s Hs Hto Hrest; simpl.
  { by exists depth. }
  destruct (Hrest t ltac:(by left)) as [Ht Hf].
  assert (∀ t', t' ∈ rest → t' ∈ wm_transitions m ∧ wt_from t' = cur) as Hrest'.
  { intros t' ?. apply Hrest. by right. }
  case_bool_decide as Hv; [by eapply IH; [eapply scan_inv_skip|..]|].
  case_bool_decide as Ht'.
  - subst to. destruct (chain_discover _ _ _ _ _ Hs Ht Hf Hv) as (ts & Hc & Hl).
    exists ts. split; [done|]. split.
    + rewrite map_size_insert_None by (by apply Hs). rewrite Hl.
      pose proof (sc_size _ _ _ _ Hs _ (sc_cur _ _ _ _ Hs)). lia.
    + intros ts' Hw. destruct (decide (length ts' ≤ depth cur)%nat) as [Hle|]; [|lia].
      by destruct (scan_inv_near _ _ _ _ _ _ Hs Hw Hle).
  - eapply IH; [by apply scan_inv_discover|simpl; set_solver|done].
Qed.

(** At the head of the loop. *)
Record head_inv (depth : string → nat) (s : bfs_state) : Prop := {
  hd_from : from ∈ bf_visited s;
  hd_from0 : depth from = 0%nat;
  hd_chain v : v ∈ bf_visited s →
    ∃ ts, chain (bf_predecessor s) v ts ∧ length ts = depth v;
  hd_size v : v ∈ bf_visited s → (depth v ≤ size (bf_predecessor s))%nat;
  hd_dom v : v ∉ bf_visited s → bf_predecessor s !! v = None;
  hd_queue x : x ∈ bf_queue s → x ∈ bf_visited s;
  hd_max v x : v ∈ bf_visited s → x ∈ bf_queue s → (depth v ≤ S (depth x))%nat;
  hd_sorted : StronglySorted (λ x y, (depth x ≤ depth y)%nat) (bf_queue s);
  hd_closed u t : u ∈ bf_visited s → u ∉ bf_queue s →
    t ∈ wm_transitions m → wt_from t = u →
    wt_to t ∈ bf_visited s ∧ (depth (wt_to t) ≤ S (depth u))%nat;
}.

Lemma head_inv_pop depth s cur queue :
  head_inv depth s → bf_queue s = cur :: queue →
  scan_inv cur (outgoing_of ix cur) depth
    {| bf_visited := bf_visited s; bf_predecessor := bf_predecessor s; bf_queue := queue |}.
Proof.
  intros [H1 H2 H3 H4 H5 H6 H7 H8 H9] Hq. rewrite Hq in *.
  apply StronglySorted_cons in H8 as [Hle Hsorted]. rewrite Forall_forall in Hle.
  split; simpl; try done.
  - apply H6. by left.
  - intros x Hx. assert (x ∈ bf_visited s) by (apply H6; by right). split; [done|].
    split; [by apply Hle|]. apply H7; [done|by left].
  - intros v Hv. apply H7; [done|by left].
  - intros u t Hu Hnq Hne Ht Hf. apply H9; try done. by intros [->|?]%elem_of_cons.
  - intros t Ht Hf. left. by apply elem_of_outgoing.
Qed.

Lemma scan_inv_end depth s cur : scan_inv cur [] depth s → head_inv depth s.
Proof.
  intros [H1 H2 H3 H4 H5 H6 H7 H8 H9 H10 H11]. split; try done.
  - intros x Hx. by apply H7.
  - intros v x Hv Hx. destruct (H7 x Hx) as [_ ?]. specialize (H8 v Hv). lia.
  - intros u t Hu Hq Ht Hf. destruct (decide (u = cur)) as [->|Hne]; [|by eapply H10].
    destruct (H11 t Ht Hf) as [[]%elem_of_nil|?]; done.
Qed.

(** Transitions into states not discovered yet: each discovery uses one up. *)
Definition undiscovered (s : bfs_state) : nat :=
  length (filter (λ t, wt_to t ∉ bf_visited s) (wm_transitions m)).

Lemma filter_length_lt {A} (P Q : A → Prop) `{!∀ x, Decision (P x), !∀ x, Decision (Q x)} l x :
  (∀ y, P y → Q y) → x ∈ l → Q x → ¬ P x → (length (filter P l) < length (filter Q l))%nat.
Proof.
  intros HPQ Hx HQ HP. induction l as [|y l IH]; [by apply elem_of_nil in Hx|].
  assert (length (filter P l) ≤ length (filter Q l))%nat as Hle.
  { clear -HPQ. induction l as [|z l IH]; [done|].
    rewrite !filter_cons. repeat case_decide; simpl; try lia. naive_solver. }
  rewrite !filter_cons. apply elem_of_cons in Hx as [<-|Hx].
  - rewrite decide_False, decide_True by done. simpl. lia.
  - specialize (IH Hx). repeat case_decide; simpl; try lia. naive_solver.
Qed.

Lemma scan_outgoing_measure to cur rest s s' :
  (∀ t, t ∈ rest → t ∈ wm_transitions m) →
  scan_outgoing to cur rest s = inl s' →
  (length (bf_queue s') + undiscovered s' ≤ length (bf_queue s) + undiscovered s)%nat.
Proof.
  revert s. induction rest as [|t rest IH]; intros s Hr; simpl; [by intros [= <-]|].
  assert (∀ t, t ∈ rest → t ∈ wm_transitions m) as Hr' by (intros; apply Hr; by right).
  case_bool_decide as Hv; [by apply IH|]. case_bool_decide; [done|].
  intros Hs. apply IH in Hs; [|done]. simpl in Hs. rewrite length_app in Hs. simpl in Hs.
  enough (undiscovered {| bf_visited := {[wt_to t]} ∪ bf_visited s;
     bf_predecessor := <[wt_to t:=(cur, wt_transitionId t)]> (bf_predecessor s);
     bf_queue := bf_queue s ++ [wt_to t] |} < undiscovered s)%nat by lia.
  apply filter_length_lt with (x := t); simpl; [set_solver|apply Hr; by left|done|set_solver].
Qed.

Definition path_result_ok (to : string) (r : PathResult) : Prop :=
  match r with
  | PathSame => False
  | PathFound ids => ∃ ts, walk m from ts to ∧ ids = wt_transitionId <$> ts ∧
      ∀ ts', walk m from ts' to → (length ids ≤ length ts')%nat
  | PathNone => ∀ ts, ¬ walk m from ts to
  end.

Lemma bfs_loop_spec fuel to depth s :
  head_inv depth s → to ∉ bf_visited s →
  (length (bf_queue s) + undiscovered s < fuel)%nat →
  ∃ r, bfs_loop fuel ix from to s = Some r ∧ path_result_ok to r.
Proof.
  revert depth s. induction fuel as [|fuel IH]; intros depth s Hs Hto Hf; [lia|]. cbn [bfs_loop].
  destruct (bf_queue s) as [|cur queue] eqn:Eq.
  - exists PathNone. split; [done|]. intros ts Hw. apply Hto. clear IH Hto.
    induction Hw as [|ts v t Hw IHw Ht Hfv]; [apply Hs|].
    apply (hd_closed _ _ Hs v t); try done. rewrite Eq. apply not_elem_of_nil.
  - pose proof (head_inv_pop _ _ _ _ Hs Eq) as Hscan.
    pose proof (scan_outgoing_spec to _ _ _ _ Hscan Hto) as Hsp.
    assert (∀ t, t ∈ outgoing_of ix cur → t ∈ wm_transitions m ∧ wt_from t = cur) as Hout
      by (intros t; apply elem_of_outgoing). specialize (Hsp Hout).
    destruct (scan_outgoing _ _ _ _) as [s'|pred] eqn:Es.
    + destruct Hsp as (depth' & Hs' & Hto'). eapply IH; [by eapply scan_inv_end|done|].
      apply scan_outgoing_measure in Es; [|naive_solver]. simpl in *. unfold undiscovered in *.
      simpl in *. lia.
    + destruct Hsp as (ts & Hc & Hsz & Hmin). eexists. split.
      * rewrite (rebuild_path_chain _ _ _ _ _ Hc) by lia. done.
      * rewrite app_nil_r. exists ts. split; [by eapply chain_walk|]. split; [done|].
        intros. rewrite length_fmap. auto.
Qed.
End bfs.

Definition is_state (m : WorkflowStateMachine) (id : string) : Prop :=
  id ∈ ws_stateId <$> wm_states m.

Lemma foldl_insert_is_Some {A} (key : A → string) l acc k :
  is_Some (foldl (λ (acc : gmap string A) x, <[key x := x]> acc) acc l !! k) ↔
  is_Some (acc !! k) ∨ k ∈ key <$> l.
Proof.
  revert acc; induction l as [|x l IH]; intros acc; simpl; [set_solver|].
  rewrite IH, lookup_insert_is_Some', elem_of_cons. naive_solver.
Qed.

Lemma statesById_is_Some `{LocaleCompare} m id :
  is_Some (ix_statesById (indexWorkflowStateMachine m) !! id) ↔ is_state m id.
Proof.
  unfold indexWorkflowStateMachine. cbn [ix_statesById]. rewrite foldl_insert_is_Some, lookup_empty.
  unfold is_state. split; [|auto]. by intros [[? ?]|].
Qed.

Lemma findShortestTransitionPath_ok `{LocaleCompare} m from to :
  ∃ r, findShortestTransitionPath (indexWorkflowStateMachine m) from to = Some r ∧
    match r with
    | PathSame => is_state m from ∧ from = to
    | PathFound ids => is_state m from ∧ is_state m to ∧ from ≠ to ∧
        ∃ ts, walk m from ts to ∧ ids = wt_transitionId <$> ts ∧
              ∀ ts', walk m from ts' to → (length ids ≤ length ts')%nat
    | PathNone => is_state m from → is_state m to → ∀ ts, ¬ walk m from ts to
    end.
Proof.
  unfold findShortestTransitionPath.
  destruct (bool_decide (is_Some (ix_statesById (indexWorkflowStateMachine m) !! from))) eqn:E1; cbn [negb orb].
  2: { apply bool_decide_eq_false in E1. rewrite statesById_is_Some in E1.
       exists PathNone. split; [done|]. by intros ?%E1. }
  apply bool_decide_eq_true, statesById_is_Some in E1.
  destruct (bool_decide (is_Some (ix_statesById (indexWorkflowStateMachine m) !! to))) eqn:E2; cbn [negb orb].
  2: { apply bool_decide_eq_false in E2. rewrite statesById_is_Some in E2.
       exists PathNone. split; [done|]. by intros _ ?%E2. }
  apply bool_decide_eq_true, statesById_is_Some in E2.
  case_bool_decide as E3; [by exists PathSame|].
  edestruct (bfs_loop_spec m from (bfs_fuel (indexWorkflowStateMachine m)) to (λ _, 0%nat)
    {| bf_visited := {[from]}; bf_predecessor := ∅; bf_queue := [from] |}) as (r & Er & Hr).
  - split; simpl; try done.
    + set_solver.
    + intros v ->%elem_of_singleton. exists []. split; [constructor|done].
    + set_solver.
    + intros. lia.
    + repeat constructor.
    + set_solver.
  - simpl. set_solver.
  - unfold bfs_fuel, undiscovered. simpl.
    pose proof (length_filter (λ t, wt_to t ∉ ({[from]} : gset string)) (wm_transitions m)). lia.
  - exists r. split; [done|]. destruct r; [done|split_all; done|auto].
Qed.

(** ** Construction *)

(** The rules of the constructor, as a predicate on its input. *)
Record valid_input (input : CreateInput) : Prop := {
  vi_id : is_blank (ci_id input) = false;
  vi_label : is_blank (ci_label input) = false;
  vi_state_ids : Forall (λ s, is_blank (ws_stateId s) = false) (ci_states input);
  vi_states_distinct : NoDup (ws_stateId <$> ci_states input);
  vi_entry : ∃ s, s ∈ ci_states input ∧ ws_entry s = true;
  vi_transition_ids : Forall (λ t, is_blank (wt_transitionId t) = false) (ci_transitions input);
  vi_transitions_distinct : NoDup (wt_transitionId <$> ci_transitions input);
  vi_endpoints : Forall (λ t, wt_from t ∈ ws_stateId <$> ci_states input ∧
                              wt_to t ∈ ws_stateId <$> ci_states input) (ci_transitions input);
}.

Section dedupe_loop.
(** A loop that rejects blank and repeated ids, and items that fail [P]. *)
Context {A : Type} (key : A → string) (P : A → Prop)
  (f : gset string → A → outcome WorkflowError (gset string)).
Hypothesis f_ok : ∀ acc x r, f acc x = Ok r ↔
  is_blank (key x) = false ∧ (key x ∉ acc) ∧ P x ∧ r = ({[key x]} ∪ acc).

Lemma dedupe_loop_ok acc l :
  (∃ r, outcome_foldl f acc l = Ok r) ↔
  Forall (λ x, is_blank (key x) = false) l ∧ NoDup (key <$> l) ∧
  (∀ x, x ∈ l → key x ∉ acc) ∧ Forall P l.
Proof.
  revert acc; induction l as [|x l IH]; intros acc; simpl.
  { split; [|by eexists]. intros _. split_all; try constructor. set_solver. }
  rewrite !Forall_cons, NoDup_cons. split.
  - intros [r (acc' & (Hb & Hn & HP & ->)%f_ok & Hr)%outcome_bind_Ok].
    destruct (proj1 (IH _) (ex_intro _ _ Hr)) as (Hbs & Hnd & Hacc & HPs).
    split_all; try done.
    + intros (y & Hk & Hy)%list_elem_of_fmap. apply (Hacc y Hy). set_solver.
    + intros y [->|Hy]%elem_of_cons; [done|]. specialize (Hacc y Hy). set_solver.
  - intros ([Hb Hbs] & [Hn Hnd] & Hacc & [HP HPs]).
    assert (f acc x = Ok ({[key x]} ∪ acc)) as ->.
    { apply f_ok. split_all; try done. apply Hacc. by left. }
    simpl. apply IH. split_all; try done. intros y Hy.
    assert (key y ∉ acc) by (apply Hacc; by right).
    assert (key x ≠ key y); [|set_solver]. intros E. apply Hn. rewrite E.
    by apply list_elem_of_fmap_2.
Qed.

Lemma dedupe_loop_elem acc l r x :
  outcome_foldl f acc l = Ok r → x ∈ r ↔ x ∈ acc ∨ x ∈ key <$> l.
Proof.
  revert acc; induction l as [|y l IH]; intros acc; simpl; [intros [= ->]; set_solver|].
  intros (acc' & (_ & _ & _ & ->)%f_ok & Hr)%outcome_bind_Ok.
  rewrite (IH _ Hr), elem_of_union, elem_of_singleton, elem_of_cons. tauto.
Qed.
End dedupe_loop.

Lemma add_state_id_ok acc s r :
  add_state_id acc s = Ok r ↔
  is_blank (ws_stateId s) = false ∧ (ws_stateId s ∉ acc) ∧ True ∧ r = ({[ws_stateId s]} ∪ acc).
Proof.
  unfold add_state_id. destruct (is_blank _); [naive_solver|].
  case_bool_decide; naive_solver.
Qed.

Lemma add_transition_id_ok stateIds acc t r :
  add_transition_id stateIds acc t = Ok r ↔
  is_blank (wt_transitionId t) = false ∧ (wt_transitionId t ∉ acc) ∧
  (wt_from t ∈ stateIds ∧ wt_to t ∈ stateIds) ∧ r = ({[wt_transitionId t]} ∪ acc).
Proof.
  unfold add_transition_id. destruct (is_blank _); [naive_solver|].
  repeat (case_bool_decide; simpl); naive_solver.
Qed.

Lemma entry_count states :
  length (filter (λ s, ws_entry s = true) states) ≠ 0%nat ↔
  ∃ s, s ∈ states ∧ ws_entry s = true.
Proof.
  split.
  - destruct (filter _ states) as [|s l] eqn:E; [done|]. intros _. exists s.
    assert (s ∈ filter (λ s, ws_entry s = true) states) as Hs by (rewrite E; by left).
    apply list_elem_of_filter in Hs. tauto.
  - intros (s & Hs & He) Hl%nil_length_inv.
    assert (s ∈ filter (λ s, ws_entry s = true) states) as Hin by (by apply list_elem_of_filter).
    rewrite Hl in Hin. by apply elem_of_nil in Hin.
Qed.

Section construction.
Context `{LocaleCompare}.

Lemma createWorkflowStateMachine_iff input :
  (∃ m, createWorkflowStateMachine input = Ok m) ↔ valid_input input.
Proof.
  unfold createWorkflowStateMachine.
  destruct (is_blank (ci_id input)) eqn:Eid; simpl.
  { split; [by intros [? ?]|]. intros []. congruence. }
  destruct (is_blank (ci_label input)) eqn:El; simpl.
  { split; [by intros [? ?]|]. intros []. congruence. }
  case_bool_decide as Es; simpl.
  { split; [by intros [? ?]|]. intros [_ _ _ _ (s & Hs & _) _ _ _].
    apply nil_length_inv in Es. rewrite Es in Hs. by apply elem_of_nil in Hs. }
  pose proof (dedupe_loop_ok ws_stateId (λ _, True) add_state_id add_state_id_ok ∅
    (ci_states input)) as Hst.
  destruct (outcome_foldl add_state_id ∅ _) as [ids|e] eqn:Ef; simpl.
  2: { split; [by intros [? ?]|]. intros []. exfalso.
       destruct (proj2 Hst) as [r Hr]; [|done]. split_all; try done.
       by apply Forall_forall. }
  destruct (proj1 Hst (ex_intro _ _ eq_refl)) as (Hb & Hnd & _ & _). clear Hst.
  pose proof (λ x, dedupe_loop_elem _ _ _ add_state_id_ok _ _ _ x Ef) as Hids.
  assert (∀ x, x ∈ ids ↔ x ∈ ws_stateId <$> ci_states input) as Hids' by set_solver.
  clear Hids. case_bool_decide as Ee; simpl.
  { split; [by intros [? ?]|]. intros [_ _ _ _ He _ _ _]. by apply entry_count in He. }
  apply entry_count in Ee.
  pose proof (dedupe_loop_ok wt_transitionId (λ t, wt_from t ∈ ids ∧ wt_to t ∈ ids)
    (add_transition_id ids) (add_transition_id_ok ids) ∅ (ci_transitions input)) as Htr.
  assert (∀ t, (wt_from t ∈ ids ∧ wt_to t ∈ ids) ↔ (wt_from t ∈ ws_stateId <$> ci_states input ∧
                              wt_to t ∈ ws_stateId <$> ci_states input)) as Hep.
  { intros t. by rewrite !Hids'. }
  destruct (outcome_foldl (add_transition_id ids) ∅ _) as [tids|e] eqn:Et; simpl.
  - split; [intros _|by eexists].
    destruct (proj1 Htr (ex_intro _ _ eq_refl)) as (Htb & Htnd & _ & HtP).
    split; try done. eapply Forall_impl; [exact HtP|]. intros t. apply Hep.
  - split; [by intros [? ?]|]. intros [_ _ _ _ _ Htb Htnd HtP]. exfalso.
    destruct (proj2 Htr) as [r Hr]; [|done]. split_all; try done.
    eapply Forall_impl; [exact HtP|]. intros t. apply Hep.
Qed.

Lemma createWorkflowStateMachine_Ok input m :
  createWorkflowStateMachine input = Ok m →
  m = {| wm_id := ci_id input; wm_label := ci_label input;
         wm_states := js_sort by_stateId (ci_states input);
         wm_transitions := js_sort by_transitionId (ci_transitions input);
         wm_provenance := default prov_manual (ci_provenance input) |}.
Proof.
  unfold createWorkflowStateMachine.
  intros (_ & _ & (_ & _ & (_ & _ & (ids & _ & (_ & _ & (tids & _ & [= <-])%outcome_bind_Ok
    )%outcome_bind_Ok)%outcome_bind_Ok)%outcome_bind_Ok)%outcome_bind_Ok)%outcome_bind_Ok.
  done.
Qed.

(** ** Topology *)

Lemma promote_stateId id s : ws_stateId (promote id s) = ws_stateId s.
Proof. unfold promote. by case_bool_decide. Qed.

Lemma promote_entry_ids states :
  ws_stateId <$> promote_entry states = ws_stateId <$> states.
Proof.
  unfold promote_entry. case_match; [|done]. destruct (js_sort _ _); [done|].
  rewrite <- list_fmap_compose. apply list_fmap_ext. intros i x _. apply promote_stateId.
Qed.

Lemma promote_entry_exists states :
  states ≠ [] → ∃ s, s ∈ promote_entry states ∧ ws_entry s = true.
Proof.
  intros Hne. unfold promote_entry. destruct (existsb ws_entry states) eqn:Ee; simpl.
  { apply existsb_exists in Ee as (s & Hs & He). exists s. by rewrite list_elem_of_In. }
  rewrite bool_decide_eq_false_2 by done. simpl.
  destruct (js_sort by_stateId states) as [|s l] eqn:Es.
  { apply (f_equal length) in Es. rewrite length_js_sort in Es. by destruct states. }
  assert (s ∈ states) as Hs.
  { apply (elem_of_js_sort by_stateId). rewrite Es. by left. }
  exists (promote (ws_stateId s) s). split; [by apply list_elem_of_fmap_2|].
  unfold promote. by rewrite bool_decide_eq_true_2.
Qed.

(** ** Properties *)

(** The constructor accepts an input exactly when its rules hold: the id
    and the label are not blank, state and transition ids are not blank and
    distinct, some state is an entry, and every transition leads between
    declared states. *)
Theorem createWorkflowStateMachine_accepts_iff input :
  (∃ m, createWorkflowStateMachine input = Ok m) ↔ valid_input input.
Proof. apply createWorkflowStateMachine_iff. Qed.

(** A machine derived from a topology: whenever the ids are well formed and
    some state survives the filter, the derivation succeeds, whatever the
    topology marks as entry or exit; the result has exactly the surviving
    states and transitions, sorted by id, and at least one entry state. *)
Theorem topology_derivation_total id label tp stateFilter :
  is_blank id = false → is_blank label = false →
  Forall (λ s, is_blank (ts_stateId s) = false) (tp_states tp) →
  NoDup (ts_stateId <$> tp_states tp) →
  Forall (λ t, is_blank (tt_transitionId t) = false ∧
               (tt_from t ∈ ts_stateId <$> tp_states tp) ∧
               (tt_to t ∈ ts_stateId <$> tp_states tp)) (tp_transitions tp) →
  NoDup (tt_transitionId <$> tp_transitions tp) →
  filter (λ s, allow_state stateFilter s = true) (tp_states tp) ≠ [] →
  ∃ m, buildStateMachineFromWorkflowTopology id label tp stateFilter = Ok m ∧
    (∀ x, is_state m x ↔ x ∈ ts_stateId <$> filter (λ s, allow_state stateFilter s = true)
                                               (tp_states tp)) ∧
    wm_transitions m ≡ₚ topology_transition <$>
      filter (λ t, allow_transition stateFilter t = true) (tp_transitions tp) ∧
    (∃ s, s ∈ wm_states m ∧ ws_entry s = true) ∧
    StronglySorted (cmp_le by_stateId) (wm_states m).
Proof.
  intros Hid Hl Hsb Hsn Ht Htn Hne. unfold buildStateMachineFromWorkflowTopology.
  set (sts := filter _ (tp_states tp)) in *. set (trs := filter _ (tp_transitions tp)) in *.
  set (input := {| ci_id := id |}).
  assert (ws_stateId <$> ci_states input = ts_stateId <$> sts) as Hids.
  { simpl. rewrite promote_entry_ids, <- list_fmap_compose. done. }
  assert (∀ s, s ∈ sts → s ∈ tp_states tp ∧ allow_state stateFilter s = true) as Hsts.
  { intros s [? ?]%list_elem_of_filter. done. }
  assert (∀ t, t ∈ trs → t ∈ tp_transitions tp ∧ allow_transition stateFilter t = true) as Htrs.
  { intros t [? ?]%list_elem_of_filter. done. }
  assert (∀ x l, (∀ s, ts_stateId s = x → allow_state stateFilter s = true) →
    x ∈ ts_stateId <$> tp_states tp → l = sts → x ∈ ts_stateId <$> l) as Hsurvive.
  { intros x l Hx (s & -> & Hs)%list_elem_of_fmap ->. apply list_elem_of_fmap_2.
    apply list_elem_of_filter. auto. }
  rewrite Forall_forall in Hsb. rewrite Forall_forall in Ht.
  assert (valid_input input) as Hv.
  { split; simpl; try done.
    - apply Forall_forall. intros s Hs.
      assert (ws_stateId s ∈ ts_stateId <$> sts) as (s0 & -> & Hs0)%list_elem_of_fmap.
      { rewrite <- Hids. by apply list_elem_of_fmap_2. }
      by apply Hsb, Hsts.
    - change (NoDup (ws_stateId <$> ci_states input)). rewrite Hids.
      eapply sublist_NoDup; [exact Hsn|]. apply fmap_sublist, sublist_filter.
    - apply promote_entry_exists. by intros ?%fmap_nil_inv.
    - apply Forall_fmap, Forall_forall. intros t [Ht' _]%Htrs. by apply Ht.
    - rewrite <- list_fmap_compose. eapply sublist_NoDup; [exact Htn|].
      apply fmap_sublist, sublist_filter.
    - change (promote_entry _) with (ci_states input). rewrite Hids.
      apply Forall_fmap, Forall_forall. intros t [Ht' Hal]%Htrs. simpl.
      destruct (Ht t Ht') as (_ & Hf & Hto). unfold allow_transition in Hal.
      split; apply Hsurvive; try done; intros s Hs; unfold allow_state;
        destruct stateFilter; try done; apply andb_prop in Hal as [H1 H2]; by rewrite Hs. }
  destruct (proj2 (createWorkflowStateMachine_iff input) Hv) as [m Hm]. exists m.
  split; [done|]. apply createWorkflowStateMachine_Ok in Hm as ->. simpl. split_all.
  - intros x. unfold is_state. simpl. rewrite js_sort_Permutation.
    change (promote_entry _) with (ci_states input). by rewrite Hids.
  - apply js_sort_Permutation.
  - destruct Hv as [_ _ _ _ (s & Hs & He) _ _ _]. exists s. by rewrite elem_of_js_sort.
  - apply js_sort_sorted, _.
Qed.

(** C40. [findShortestTransitionPath] always returns, and returns what it
    promises: a path exactly when the target can be reached, made of
    transitions of the machine that lead from the one state to the other, and
    no walk between them is shorter. *)
Theorem findShortestTransitionPath_correct m from to :
  ∃ r, findShortestTransitionPath (indexWorkflowStateMachine m) from to = Some r ∧
    match r with
    | PathSame => is_state m from ∧ from = to
    | PathFound ids => is_state m from ∧ is_state m to ∧ from ≠ to ∧
        ∃ ts, walk m from ts to ∧ ids = wt_transitionId <$> ts ∧
              ∀ ts', walk m from ts' to → (length ids ≤ length ts')%nat
    | PathNone => is_state m from → is_state m to → ∀ ts, ¬ walk m from ts to
    end.
Proof. apply findShortestTransitionPath_ok. Qed.

(** The registry keeps what it is told: after [register] accepts a machine,
    or [override] replaces one, looking its id up gives that machine (stamped
    as an override unless it was manual) and no other id is affected; a second
    registration of an id is refused. *)
Theorem registry_laws r m :
  ((∃ e, register r m = Throw e) ↔ is_Some (registry_get r (wm_id m))) ∧
  (∀ r', register r m = Ok r' → ∀ id,
     registry_get r' id = if bool_decide (id = wm_id m) then Some m else registry_get r id) ∧
  (∃ m', (m' = m ∨ wm_provenance m' = prov_manual_override) ∧
     wm_states m' = wm_states m ∧ wm_transitions m' = wm_transitions m ∧
     ∀ id, registry_get (override r m) id =
           if bool_decide (id = wm_id m) then Some m' else registry_get r id).
Proof.
  assert (∀ m id, registry_get (registry_set r m) id =
    if bool_decide (id = wm_id m) then Some m else registry_get r id) as Hset.
  { clear m. intros m id. unfold registry_set, registry_has. case_bool_decide as Eh.
    - unfold registry_get in *. case_bool_decide as Ei; [subst id|].
      + by apply find_by_replace_by_eq.
      + by apply find_by_replace_by_ne.
    - unfold registry_get in *. rewrite find_by_app, find_by_cons.
      case_bool_decide as Ei; case_bool_decide as Ei'; try congruence.
      + subst id. destruct (find_by _ _ r); [|done]. destruct Eh. by eexists.
      + destruct (find_by wm_id id r); reflexivity. }
  split_all.
  - unfold register, registry_has. case_bool_decide; split; try done; [by eexists|].
    by intros [? ?].
  - unfold register. destruct (registry_has r (wm_id m)); [done|]. intros r' [= <-]. apply Hset.
  - unfold override. case_bool_decide.
    + exists m. split; [by left|]. split_all; try done; apply Hset.
    + exists {| wm_id := wm_id m; wm_label := wm_label m; wm_states := wm_states m;
                wm_transitions := wm_transitions m; wm_provenance := prov_manual_override |}.
      split; [by right|]. split_all; try done. intros id. by rewrite Hset.
Qed.
End construction.

(** ** Witnesses *)

Definition demo_topology : WorkflowTopology :=
  {| tp_states := [ {| ts_stateId := "done"; ts_screenId := "s"; ts_label := "Done"; ts_sourceRefs := [] |};
                    {| ts_stateId := "form"; ts_screenId := "s"; ts_label := "Form"; ts_sourceRefs := [] |} ];
     tp_transitions := [ {| tt_transitionId := "submit"; tt_from := "form"; tt_to := "done";
                            tt_guard := "valid"; tt_actions := ["fill"; "click"] |} ];
     tp_entryStates := []; tp_exitStates := ["done"] |}.

Lemma topology_derivation_total_witness :
  ∃ m, @buildStateMachineFromWorkflowTopology code_unit_collation "screen" "Screen"
         demo_topology None = Ok m ∧ ∃ s, s ∈ wm_states m ∧ ws_entry s = true.
Proof.
  edestruct (@topology_derivation_total code_unit_collation "screen" "Screen" demo_topology None)
    as (m & Hm & _ & _ & Hs & _);
    [vm_compute; reflexivity | vm_compute; reflexivity | | | | |
     | exists m; split; [exact Hm|exact Hs]].
  - repeat constructor.
  - apply (bool_decide_unpack _). vm_compute. exact I.
  - repeat constructor.
  - apply (bool_decide_unpack _). vm_compute. exact I.
  - vm_compute. discriminate.
Defined.
