(* ===== verification/WorkflowValidator.v ===== *)
(** * Step-sequence validator and workflow gate

    [packages/core-engine/src/workflow-state-machine-validator.ts]: the walk of
    one test case's step claims through its state machine, and the gate that
    validates every case and measures transition coverage.

    The free-text [message] of an issue is left out. The gate's index cache is
    keyed by machine id, under which the registry holds one machine, so the
    index is computed where it is used. *)

From S2P Require Import Prelude JsString JsList Contracts WorkflowMachine WorkflowSearch.
From Stdlib Require Import Lqa.

(** ** Data *)

Record StepClaim := {
  sp_stepIndex : Z;
  sp_transitionId : string;
}.

Record CaseClaims := {
  cc_testCaseId : string;
  cc_stateMachineId : string;
  cc_steps : list StepClaim;
  cc_requireTerminalExit : option bool;
}.

Inductive IssueSeverity : Type := is_error | is_warning.

#[export] Instance IssueSeverity_eq_dec : EqDecision IssueSeverity.
Proof. solve_decision. Defined.

Inductive IssueCode : Type :=
| transition_unknown
| step_indices_out_of_order
| duplicate_step_index
| first_step_not_from_entry
| consecutive_states_unreachable
| missing_intermediate_step
| last_state_not_terminal
| case_state_machine_unknown.

Definition IssueCode_label (c : IssueCode) : string :=
  match c with
  | transition_unknown => "transition_unknown"
  | step_indices_out_of_order => "step_indices_out_of_order"
  | duplicate_step_index => "duplicate_step_index"
  | first_step_not_from_entry => "first_step_not_from_entry"
  | consecutive_states_unreachable => "consecutive_states_unreachable"
  | missing_intermediate_step => "missing_intermediate_step"
  | last_state_not_terminal => "last_state_not_terminal"
  | case_state_machine_unknown => "case_state_machine_unknown"
  end.

Record Issue := {
  iu_code : IssueCode;
  iu_severity : IssueSeverity;
  iu_testCaseId : option string;
  iu_stateMachineId : option string;
  iu_stepIndex : option Z;
  iu_statePath : list string;
  iu_transitionPath : list string;
}.

Record CaseRow := {
  cr_testCaseId : string;
  cr_stateMachineId : string;
  cr_unmatched : bool;
  cr_clean : bool;
  cr_blocked : bool;
  cr_issues : list Issue;
  cr_transitionIdsExercised : list string;
  cr_statePath : list string;
}.

Record CoverageRow := {
  cv_stateMachineId : string;
  cv_exercisedTransitionIds : list string;
  cv_unexercisedTransitionIds : list string;
  cv_totalTransitions : Z;
  cv_coverageRatio : Q;
}.

Record GateReport := {
  gr_jobId : string;
  gr_generatedAt : string;
  gr_perCase : list CaseRow;
  gr_perStateMachine : list CoverageRow;
  gr_issues : list Issue;
  gr_blocked : bool;
  gr_totalCases : Z;
  gr_unmatchedCases : Z;
  gr_cleanCases : Z;
  gr_totalStateMachines : Z;
}.

(** ** One test case *)

Section case_validation.
Context (testCaseId : string) (ix : WorkflowStateMachineIndex).

Definition case_issue (code : IssueCode) (severity : IssueSeverity) (stepIndex : option Z)
    (statePath transitionPath : list string) : Issue :=
  {| iu_code := code; iu_severity := severity; iu_testCaseId := Some testCaseId;
     iu_stateMachineId := Some (wm_id (ix_stateMachine ix)); iu_stepIndex := stepIndex;
     iu_statePath := statePath; iu_transitionPath := transitionPath |}.

(** The variables of the first loop. *)
Record order_state := {
  os_seen : gset Z;
  os_last : Z;
  os_clean : bool;
  os_issues : list Issue;
}.

Definition order_step (s : order_state) (step : StepClaim) : order_state :=
  let i := sp_stepIndex step in
  let '(clean, issues) :=
    if bool_decide (i ∈ os_seen s)
    then (false, os_issues s ++ [case_issue duplicate_step_index is_error (Some i) [] []])
    else if i <=? os_last s
    then (false, os_issues s ++ [case_issue step_indices_out_of_order is_error (Some i) [] []])
    else (os_clean s, os_issues s) in
  {| os_seen := {[i]} ∪ os_seen s; os_last := i; os_clean := clean; os_issues := issues |}.

Definition check_order (steps : list StepClaim) : order_state :=
  foldl order_step {| os_seen := ∅; os_last := 0; os_clean := true; os_issues := [] |} steps.

(** The variables of the walk. *)
Record walk_state := {
  wk_cursor : option string;
  wk_firstStepHandled : bool;
  wk_issues : list Issue;
  wk_exercised : list string;
  wk_statePath : list string;
}.

Definition state_flag (flag : WorkflowStateMachineState → bool) (id : string) : bool :=
  match ix_statesById ix !! id with Some s => flag s | None => false end.

(** The issue, if any, about the gap between the cursor and a transition. The
    search always returns ([findShortestTransitionPath_correct]). *)
Definition gap_issues (stepIndex : Z) (cursorState from : string) : list Issue :=
  match default PathNone (findShortestTransitionPath ix cursorState from) with
  | PathNone => [case_issue consecutive_states_unreachable is_error (Some stepIndex)
                   [cursorState; from] []]
  | PathFound ids => [case_issue missing_intermediate_step is_warning (Some stepIndex)
                        [cursorState; from] ids]
  | PathSame => []
  end.

Definition walk_step (w : walk_state) (step : StepClaim) : walk_state :=
  match ix_transitionsById ix !! sp_transitionId step with
  | None =>
      {| wk_cursor := None; wk_firstStepHandled := true;
         wk_issues := wk_issues w ++
           [case_issue transition_unknown is_error (Some (sp_stepIndex step)) []
              [sp_transitionId step]];
         wk_exercised := wk_exercised w; wk_statePath := wk_statePath w |}
  | Some t =>
      let '(issues, statePath) :=
        if negb (wk_firstStepHandled w)
        then (wk_issues w ++
                (if state_flag ws_entry (wt_from t) then []
                 else [case_issue first_step_not_from_entry is_error (Some (sp_stepIndex step))
                         [wt_from t] [wt_transitionId t]]),
              wk_statePath w ++ [wt_from t])
        else match wk_cursor w with
             | Some cursorState =>
                 if bool_decide (cursorState ≠ wt_from t)
                 then (wk_issues w ++ gap_issues (sp_stepIndex step) cursorState (wt_from t),
                       wk_statePath w)
                 else (wk_issues w, wk_statePath w)
             | None => (wk_issues w, wk_statePath w)
             end in
      {| wk_cursor := Some (wt_to t); wk_firstStepHandled := true; wk_issues := issues;
         wk_exercised := wk_exercised w ++ [wt_transitionId t];
         wk_statePath := statePath ++ [wt_to t] |}
  end.

Definition walk_steps (issues : list Issue) (orderedSteps : list StepClaim) : walk_state :=
  foldl walk_step
    {| wk_cursor := None; wk_firstStepHandled := false; wk_issues := issues;
       wk_exercised := []; wk_statePath := [] |} orderedSteps.

(** The check of the final state. *)
Definition terminal_issues (requireTerminalExit : bool) (orderedSteps : list StepClaim)
    (cursor : option string) : list Issue :=
  match cursor with
  | Some cursorState =>
      if requireTerminalExit && negb (state_flag ws_terminal cursorState)
      then [case_issue last_state_not_terminal is_error
              (sp_stepIndex <$> last orderedSteps) [cursorState] []]
      else []
  | None => []
  end.

Definition issue_index (i : Issue) : Z := default (-1) (iu_stepIndex i).

Definition case_issue_cmp `{LocaleCompare} : Issue → Issue → comparison :=
  cmp_then (cmp_on issue_index Z.compare) (cmp_on (λ i, IssueCode_label (iu_code i)) localeCompare).

Definition is_error_issue (i : Issue) : bool := bool_decide (iu_severity i = is_error).

Definition validateStepSequenceAgainstStateMachine `{LocaleCompare} (steps : list StepClaim)
    (requireTerminalExit : option bool) : CaseRow :=
  let o := check_order steps in
  let '(issues, exercised, statePath) :=
    if os_clean o && (0 <? length steps)%nat
    then
      let orderedSteps := js_sort (cmp_on sp_stepIndex Z.compare) steps in
      let w := walk_steps (os_issues o) orderedSteps in
      (wk_issues w ++ terminal_issues (default false requireTerminalExit) orderedSteps (wk_cursor w),
       wk_exercised w, wk_statePath w)
    else (os_issues o, [], []) in
  let sorted := js_sort case_issue_cmp issues in
  {| cr_testCaseId := testCaseId; cr_stateMachineId := wm_id (ix_stateMachine ix);
     cr_unmatched := false;
     cr_clean := (length sorted =? 0)%nat;
     cr_blocked := existsb is_error_issue sorted;
     cr_issues := sorted; cr_transitionIdsExercised := exercised; cr_statePath := statePath |}.
End case_validation.

(** ** The gate *)

Definition unmatched_row (c : CaseClaims) : CaseRow :=
  {| cr_testCaseId := cc_testCaseId c; cr_stateMachineId := cc_stateMachineId c;
     cr_unmatched := true; cr_clean := true; cr_blocked := false;
     cr_issues :=
       [ {| iu_code := case_state_machine_unknown; iu_severity := is_warning;
            iu_testCaseId := Some (cc_testCaseId c);
            iu_stateMachineId := Some (cc_stateMachineId c); iu_stepIndex := None;
            iu_statePath := []; iu_transitionPath := [] |} ];
     cr_transitionIdsExercised := []; cr_statePath := [] |}.

Definition case_row `{LocaleCompare} (r : registry) (c : CaseClaims) : CaseRow :=
  match registry_get r (cc_stateMachineId c) with
  | None => unmatched_row c
  | Some m => validateStepSequenceAgainstStateMachine (cc_testCaseId c)
                (indexWorkflowStateMachine m) (cc_steps c) (cc_requireTerminalExit c)
  end.

(** [exercisedByMachine.get(id) ?? new Set()] *)
Definition exercised_by `{LocaleCompare} (r : registry) (claims : list CaseClaims) (id : string) :
    list string :=
  foldl (λ acc c, match registry_get r (cc_stateMachineId c) with
                  | Some m => if bool_decide (wm_id m = id)
                              then foldl set_add acc (cr_transitionIdsExercised (case_row r c))
                              else acc
                  | None => acc
                  end) [] claims.

(** [Math.round(x * 1_000_000) / 1_000_000] *)
Definition round6 (x : Q) : Q :=
  (inject_Z (Qfloor (x * 1000000 + (1 # 2))) / 1000000)%Q.

Definition coverage_row `{LocaleCompare} (exercised : list string) (m : WorkflowStateMachine) :
    CoverageRow :=
  let total := Z.of_nat (length (wm_transitions m)) in
  let exercisedSorted := js_sort localeCompare exercised in
  {| cv_stateMachineId := wm_id m;
     cv_exercisedTransitionIds := exercisedSorted;
     cv_unexercisedTransitionIds :=
       js_sort localeCompare
         (filter (λ id, id ∉ exercised) (wt_transitionId <$> wm_transitions m));
     cv_totalTransitions := total;
     cv_coverageRatio :=
       if total =? 0 then 1%Q
       else round6 (inject_Z (Z.of_nat (length exercisedSorted)) / inject_Z total)%Q |}.

Definition case_row_cmp `{LocaleCompare} : CaseRow → CaseRow → comparison :=
  cmp_then (cmp_on cr_testCaseId localeCompare) (cmp_on cr_stateMachineId localeCompare).

Definition gate_issue_cmp `{LocaleCompare} : Issue → Issue → comparison :=
  cmp_then (cmp_on (λ i, default "" (iu_testCaseId i)) localeCompare) case_issue_cmp.

Definition evaluateWorkflowStateMachineGate `{LocaleCompare} (jobId generatedAt : string)
    (r : registry) (caseClaims : list CaseClaims) : GateReport :=
  let perCase := js_sort case_row_cmp (case_row r <$> caseClaims) in
  let perStateMachine :=
    js_sort (cmp_on cv_stateMachineId localeCompare)
      ((λ m, coverage_row (exercised_by r caseClaims (wm_id m)) m) <$> registry_list r) in
  let issues := js_sort gate_issue_cmp (flat_map cr_issues perCase) in
  {| gr_jobId := jobId; gr_generatedAt := generatedAt; gr_perCase := perCase;
     gr_perStateMachine := perStateMachine; gr_issues := issues;
     gr_blocked := existsb is_error_issue issues;
     gr_totalCases := Z.of_nat (length perCase);
     gr_unmatchedCases := Z.of_nat (length (filter (λ row, cr_unmatched row = true) perCase));
     gr_cleanCases := Z.of_nat (length (filter (λ row, cr_clean row = true) perCase));
     gr_totalStateMachines := Z.of_nat (length (registry_list r)) |}.

(** ** What a valid case is *)

Fixpoint increasing (last : Z) (l : list Z) : Prop :=
  match l with [] => True | i :: r => last < i ∧ increasing i r end.

(** The transitions start where the previous one ended, up to [R]. *)
Fixpoint connected (R : string → string → Prop) (c : string)
    (ts : list WorkflowStateMachineTransition) : Prop :=
  match ts with [] => True | t :: r => R c (wt_from t) ∧ connected R (wt_to t) r end.

Fixpoint end_state (c : string) (ts : list WorkflowStateMachineTransition) : string :=
  match ts with [] => c | t :: r => end_state (wt_to t) r end.

Definition reachable_state (m : WorkflowStateMachine) (u v : string) : Prop :=
  u = v ∨ (is_state m u ∧ is_state m v ∧ ∃ ts, walk m u ts v).

(** A step sequence that [m] can perform, up to [R] between two steps. *)
Definition feasible `{LocaleCompare} (R : string → string → Prop) (m : WorkflowStateMachine)
    (requireTerminalExit : bool) (steps : list StepClaim) : Prop :=
  let ix := indexWorkflowStateMachine m in
  increasing 0 (sp_stepIndex <$> steps) ∧
  (steps = [] ∨
   ∃ t ts, mapM (λ s, ix_transitionsById ix !! sp_transitionId s) steps = Some (t :: ts) ∧
     state_flag ix ws_entry (wt_from t) = true ∧ connected R (wt_to t) ts ∧
     (requireTerminalExit = true → state_flag ix ws_terminal (end_state (wt_to t) ts) = true)).

(** ** Lemmas *)

Section lemmas.
Context (testCaseId : string) (ix : WorkflowStateMachineIndex).

Lemma order_step_dirty s steps :
  os_clean s = false → existsb is_error_issue (os_issues s) = true →
  let r := foldl (order_step testCaseId ix) s steps in
  os_clean r = false ∧ existsb is_error_issue (os_issues r) = true.
Proof.
  revert s; induction steps as [|x steps IH]; intros s Hc He; [done|]. apply IH; unfold order_step;
    repeat case_match; simplify_eq/=; rewrite ?existsb_app, ?He; done.
Qed.

Lemma order_loop s steps :
  (∀ i, i ∈ os_seen s → i <= os_last s) → os_clean s = true → os_issues s = [] →
  let r := foldl (order_step testCaseId ix) s steps in
  if os_clean r then os_issues r = [] ∧ increasing (os_last s) (sp_stepIndex <$> steps)
  else existsb is_error_issue (os_issues r) = true ∧
       ¬ increasing (os_last s) (sp_stepIndex <$> steps).
Proof.
  revert s; induction steps as [|x steps IH]; intros s Hle Hc Hi.
  { simpl. by rewrite Hc. }
  cbv zeta. cbn [foldl fmap list_fmap increasing].
  assert (os_last s < sp_stepIndex x ∧ order_step testCaseId ix s x =
      {| os_seen := {[sp_stepIndex x]} ∪ os_seen s; os_last := sp_stepIndex x;
         os_clean := true; os_issues := [] |} ∨
    sp_stepIndex x <= os_last s ∧ os_clean (order_step testCaseId ix s x) = false ∧
      existsb is_error_issue (os_issues (order_step testCaseId ix s x)) = true)
    as [[Hlt ->]|(Hge & Ec & Ee)].
  { unfold order_step. case_bool_decide as Hs;
      [|destruct (Z.leb_spec (sp_stepIndex x) (os_last s))]; simpl.
    - right. split; [by apply Hle|]. split; [done|]. by rewrite existsb_app, orb_true_r.
    - right. split; [done|]. split; [done|]. by rewrite existsb_app, orb_true_r.
    - left. split; [done|]. by rewrite Hc, Hi. }
  - specialize (IH {| os_seen := {[sp_stepIndex x]} ∪ os_seen s; os_last := sp_stepIndex x;
         os_clean := true; os_issues := [] |}).
    cbv zeta in IH. cbn [os_seen os_last os_clean os_issues] in IH.
    destruct (os_clean _); destruct IH; try done; try tauto;
      intros i [Hin%elem_of_singleton|Hin%Hle]%elem_of_union; lia.
  - destruct (order_step_dirty _ steps Ec Ee) as [-> ?]. split; [done|].
    intros [? _]. lia.
Qed.

Lemma check_order_spec steps :
  let r := check_order testCaseId ix steps in
  if os_clean r then os_issues r = [] ∧ increasing 0 (sp_stepIndex <$> steps)
  else existsb is_error_issue (os_issues r) = true ∧ ¬ increasing 0 (sp_stepIndex <$> steps).
Proof. apply order_loop; [set_solver|done..]. Qed.

Lemma increasing_sorted last steps :
  increasing last (sp_stepIndex <$> steps) →
  Forall (λ s, last < sp_stepIndex s) steps ∧
  StronglySorted (cmp_le (cmp_on sp_stepIndex Z.compare)) steps.
Proof.
  revert last; induction steps as [|x steps IH]; intros last; simpl; [by repeat constructor|].
  intros [Hlt (Hf & Hs)%IH]. split; constructor; try done.
  - eapply Forall_impl; [exact Hf|]. simpl. lia.
  - eapply Forall_impl; [exact Hf|]. intros y Hy. unfold cmp_le, cmp_on.
    simpl in Hy. rewrite Z.compare_gt_iff. lia.
Qed.

(** What counts against a case: any issue, or only errors. *)
Definition counted (strict : bool) (i : Issue) : bool := strict || is_error_issue i.

Definition gap_counts (strict : bool) (u v : string) : bool :=
  match default PathNone (findShortestTransitionPath ix u v) with
  | PathNone => true
  | PathFound _ => strict
  | PathSame => false
  end.

Lemma gap_issues_counted strict i u v :
  existsb (counted strict) (gap_issues testCaseId ix i u v) = gap_counts strict u v.
Proof.
  unfold gap_issues, gap_counts, counted. destruct (default _ _); simpl; [done| |];
    by destruct strict.
Qed.

Lemma walk_step_mono strict w step :
  existsb (counted strict) (wk_issues w) = true →
  existsb (counted strict) (wk_issues (walk_step testCaseId ix w step)) = true.
Proof.
  intros Hw. unfold walk_step. repeat case_match; simplify_eq/=;
    rewrite ?existsb_app, Hw; done.
Qed.

Lemma walk_loop_mono strict w steps :
  existsb (counted strict) (wk_issues w) = true →
  existsb (counted strict) (wk_issues (foldl (walk_step testCaseId ix) w steps)) = true.
Proof.
  revert w; induction steps as [|x steps IH]; intros w Hw; simpl; [done|].
  by apply IH, walk_step_mono.
Qed.

Definition gap_ok (strict : bool) (u v : string) : Prop := u = v ∨ gap_counts strict u v = false.

Definition resolve (steps : list StepClaim) : option (list WorkflowStateMachineTransition) :=
  mapM (λ s, ix_transitionsById ix !! sp_transitionId s) steps.

Lemma error_counted strict code i sp tp :
  counted strict (case_issue testCaseId ix code is_error i sp tp) = true.
Proof. unfold counted, is_error_issue. simpl. by rewrite orb_true_r. Qed.

Lemma walk_loop_cursor w c steps ts :
  wk_cursor w = Some c → resolve steps = Some ts →
  wk_cursor (foldl (walk_step testCaseId ix) w steps) = Some (end_state c ts).
Proof.
  unfold resolve. revert w c ts; induction steps as [|y steps IH]; intros w c ts; simpl.
  { by intros ? [= <-]. }
  destruct (ix_transitionsById ix !! sp_transitionId y) as [t|] eqn:Et; simpl; [|done].
  intros Hc (ts' & Hr & [= <-])%bind_Some. simpl. apply IH; [|done].
  unfold walk_step. rewrite Et. by repeat case_match; simplify_eq/=.
Qed.

(** The walk after its first step. *)
Lemma walk_loop_follow strict w c steps :
  wk_firstStepHandled w = true → wk_cursor w = Some c →
  existsb (counted strict) (wk_issues w) = false →
  let w' := foldl (walk_step testCaseId ix) w steps in
  (existsb (counted strict) (wk_issues w') = false ↔
     ∃ ts, resolve steps = Some ts ∧ connected (gap_ok strict) c ts) ∧
  (∀ ts, resolve steps = Some ts → wk_cursor w' = Some (end_state c ts)).
Proof.
  unfold resolve.
  revert w c; induction steps as [|x steps IH]; intros w c Hf Hc Hi; simpl.
  { split; [split; [by exists []|done]|]. by intros ts [= <-]. }
  destruct (ix_transitionsById ix !! sp_transitionId x) as [t|] eqn:Et; simpl.
  2: { split; [|done]. split; [|by intros (? & ? & _)].
       intros Hw. rewrite walk_loop_mono in Hw; [done|]. unfold walk_step. rewrite Et. simpl.
       rewrite existsb_app. simpl. by rewrite error_counted, orb_true_r. }
  set (w1 := walk_step testCaseId ix w x).
  assert (wk_firstStepHandled w1 = true ∧ wk_cursor w1 = Some (wt_to t) ∧
    existsb (counted strict) (wk_issues w1) =
      negb (bool_decide (c = wt_from t)) && gap_counts strict c (wt_from t)) as (Hf1 & Hc1 & Hi1).
  { unfold w1, walk_step. rewrite Et, Hf, Hc. simpl.
    destruct (decide (c = wt_from t)).
    - rewrite bool_decide_eq_false_2, bool_decide_eq_true_2 by auto. done.
    - rewrite bool_decide_eq_true_2, (bool_decide_eq_false_2 (c = _)) by done. simpl.
      by rewrite existsb_app, Hi, gap_issues_counted. }
  destruct (negb _ && _) eqn:Eg.
  - apply andb_prop in Eg as [Ene Eg]. apply negb_true_iff, bool_decide_eq_false in Ene.
    split.
    + rewrite walk_loop_mono by done. split; [done|]. intros (ts & Hr & Hcon).
      apply bind_Some in Hr as (ts' & _ & [= <-]). destruct Hcon as [[?|?] _]; congruence.
    + intros ts Hr. apply bind_Some in Hr as (ts' & Hr & [= <-]). simpl.
      by apply walk_loop_cursor.
  - destruct (IH w1 (wt_to t) Hf1 Hc1) as [IH1 IH2]; [by rewrite Hi1|]. split.
    + rewrite IH1. apply andb_false_iff in Eg.
      assert (gap_ok strict c (wt_from t)) as Hok.
      { destruct Eg as [Eg|Eg]; [left|by right].
        by apply negb_false_iff, bool_decide_eq_true in Eg. }
      split.
      * intros (ts & -> & Hcon). exists (t :: ts). done.
      * intros (ts & (ts' & Hr & [= <-])%bind_Some & [_ Hcon]). by exists ts'.
    + intros ts (ts' & Hr & [= <-])%bind_Some. by apply IH2.
Qed.
End lemmas.

Lemma round6_unit x : (0 <= x <= 1)%Q → (0 <= round6 x <= 1)%Q.
Proof.
  intros [H0 H1]. unfold round6. set (y := (x * 1000000 + (1 # 2))%Q).
  assert (0 <= Qfloor y <= 1000000) as Hf.
  { split.
    - apply (Qfloor_resp_le (inject_Z 0)). unfold y. change (inject_Z 0) with 0%Q. lra.
    - apply Z.lt_succ_r. rewrite Zlt_Qlt. eapply Qle_lt_trans; [apply Qfloor_le|].
      unfold y. change (inject_Z (Z.succ 1000000)) with 1000001%Q. lra. }
  split.
  - apply Qle_shift_div_l; [done|]. rewrite Qmult_0_l. change 0%Q with (inject_Z 0).
    rewrite <- Zle_Qle. lia.
  - apply Qle_shift_div_r; [done|]. rewrite Qmult_1_l.
    change 1000000%Q with (inject_Z 1000000). rewrite <- Zle_Qle. lia.
Qed.

Section row.
Context `{LocaleCompare}.

Lemma existsb_js_sort {A} (cmp : A → A → comparison) (f : A → bool) l :
  existsb f (js_sort cmp l) = existsb f l.
Proof.
  apply eq_bool_prop_intro. rewrite !Is_true_true, !existsb_exists.
  split; intros (x & Hx & Hf); exists x; split; try done;
    rewrite <- list_elem_of_In in *; by apply (elem_of_js_sort cmp).
Qed.

Lemma connected_ext R R' c ts :
  (∀ u v, R u v ↔ R' u v) → connected R c ts ↔ connected R' c ts.
Proof.
  intros HR. revert c; induction ts as [|t ts IH]; intros c; simpl; [done|].
  by rewrite HR, IH.
Qed.

Lemma terminal_issues_counted testCaseId ix strict req steps c :
  existsb (counted strict) (terminal_issues testCaseId ix req steps (Some c)) = false ↔
  (req = true → state_flag ix ws_terminal c = true).
Proof.
  simpl. destruct req, (state_flag _ _ _); simpl; rewrite ?error_counted; naive_solver.
Qed.

(** A case has no counted issue exactly when its sequence is feasible. *)
Lemma row_counted strict testCaseId m steps req :
  existsb (counted strict) (cr_issues (validateStepSequenceAgainstStateMachine testCaseId
    (indexWorkflowStateMachine m) steps req)) = false ↔
  feasible (gap_ok (indexWorkflowStateMachine m) strict) m (default false req) steps.
Proof.
  unfold validateStepSequenceAgainstStateMachine, feasible.
  generalize (indexWorkflowStateMachine m) as ix. intros ix.
  pose proof (check_order_spec testCaseId ix steps) as Ho. cbv zeta in *.
  destruct (os_clean (check_order testCaseId ix steps)); simpl.
  2: { destruct Ho as [He Hn]. simpl. rewrite existsb_js_sort. split; [|tauto].
       intros Hc. exfalso. apply existsb_exists in He as (i & Hi & Hs).
       assert (existsb (counted strict) (os_issues (check_order testCaseId ix steps)) = true) as E.
       { apply existsb_exists. exists i. split; [done|]. unfold counted. by rewrite Hs, orb_true_r. }
       congruence. }
  destruct Ho as [Hi Hinc]. destruct (increasing_sorted 0 _ Hinc) as [_ Hss].
  destruct steps as [|x steps].
  { split; [|done]. intros _. split; [done|]. by left. }
  cbn [length Nat.ltb Nat.leb andb cr_issues].
  rewrite existsb_js_sort, Hi, (js_sort_id _ _ Hss).
  rewrite existsb_app, orb_false_iff.
  transitivity (∃ t ts, resolve ix (x :: steps) = Some (t :: ts) ∧
     state_flag ix ws_entry (wt_from t) = true ∧ connected (gap_ok ix strict) (wt_to t) ts ∧
     (default false req = true → state_flag ix ws_terminal (end_state (wt_to t) ts) = true)).
  2: { split; [intros Hx; split; [done|by right]|]. intros [_ [?|Hx]]; done. }
  unfold walk_steps. cbn [foldl]. unfold resolve. cbn [mapM].
  set (w1 := walk_step _ _ _ x).
  destruct (ix_transitionsById ix !! sp_transitionId x) as [t|] eqn:Et.
  2: { split; [|by intros (? & ? & ? & _)]. intros [Hw _]. exfalso.
       rewrite walk_loop_mono in Hw; [done|]. unfold w1, walk_step. rewrite Et. simpl.
       by rewrite error_counted. }
  assert (wk_firstStepHandled w1 = true ∧ wk_cursor w1 = Some (wt_to t) ∧
    existsb (counted strict) (wk_issues w1) = negb (state_flag ix ws_entry (wt_from t)))
    as (Hf1 & Hc1 & Hi1).
  { unfold w1, walk_step. rewrite Et. simpl. split; [done|]. split; [done|].
    destruct (state_flag _ _ _); simpl; [done|]. by rewrite error_counted. }
  destruct (state_flag ix ws_entry (wt_from t)) eqn:Eentry; simpl in Hi1.
  - destruct (walk_loop_follow testCaseId ix strict w1 _ steps Hf1 Hc1 Hi1) as [Hw Hcur].
    cbv zeta in Hw, Hcur. unfold resolve in *. rewrite Hw. simpl. split.
    + intros [(ts & Hr & Hcon) Hterm]. rewrite (Hcur _ Hr) in Hterm.
      pose proof (proj1 (terminal_issues_counted _ _ _ _ _ _) Hterm). exists t, ts. simpl. by rewrite Hr.
    + intros (t0 & ts & (ts' & Hr & [= <- <-])%bind_Some & _ & Hcon & Hterm).
      split; [by exists ts'|]. rewrite (Hcur _ Hr). exact (proj2 (terminal_issues_counted _ _ _ _ _ _) Hterm).
  - split.
    + intros [Hw _]. by rewrite walk_loop_mono in Hw.
    + simpl. intros (t0 & ts & (ts' & Hr & [= <- <-])%bind_Some & He & _). congruence.
Qed.

Lemma feasible_ext R R' m req steps :
  (∀ u v, R u v ↔ R' u v) → feasible R m req steps ↔ feasible R' m req steps.
Proof.
  intros HR. unfold feasible. cbv zeta. do 2 f_equiv. do 2 (f_equiv; intros ?).
  by setoid_rewrite (connected_ext R R' _ _ HR).
Qed.

Lemma gap_ok_strict m u v : gap_ok (indexWorkflowStateMachine m) true u v ↔ u = v.
Proof.
  unfold gap_ok, gap_counts.
  destruct (findShortestTransitionPath_ok m u v) as (r & -> & Hr). simpl.
  destruct r; naive_solver.
Qed.

Lemma gap_ok_lenient m u v :
  gap_ok (indexWorkflowStateMachine m) false u v ↔ reachable_state m u v.
Proof.
  unfold gap_ok, gap_counts, reachable_state.
  destruct (findShortestTransitionPath_ok m u v) as (r & -> & Hr). simpl.
  destruct r; naive_solver.
Qed.

Lemma row_not_blocked testCaseId m steps req :
  cr_blocked (validateStepSequenceAgainstStateMachine testCaseId
    (indexWorkflowStateMachine m) steps req) = false ↔
  feasible (reachable_state m) m (default false req) steps.
Proof.
  rewrite <- (feasible_ext _ _ _ _ _ (gap_ok_lenient m)), <- (row_counted false testCaseId).
  unfold validateStepSequenceAgainstStateMachine.
  by destruct (os_clean (check_order testCaseId (indexWorkflowStateMachine m) steps)
               && (0 <? length steps)%nat).
Qed.

(** ** Properties *)

(** A row is clean exactly when the steps are numbered in increasing order
    and the machine can perform them as they are: every transition is known,
    the first one starts in an entry state, each one starts where the previous
    one ended, and, if a terminal exit is required, the last one ends in a
    terminal state. *)
Theorem case_clean_iff_walk testCaseId m steps req :
  cr_clean (validateStepSequenceAgainstStateMachine testCaseId
    (indexWorkflowStateMachine m) steps req) = true ↔
  feasible (λ u v, u = v) m (default false req) steps.
Proof.
  rewrite <- (feasible_ext _ _ _ _ _ (gap_ok_strict m)), <- (row_counted true testCaseId).
  unfold validateStepSequenceAgainstStateMachine.
  destruct (os_clean (check_order testCaseId (indexWorkflowStateMachine m) steps)
            && (0 <? length steps)%nat); cbn [cr_clean cr_issues]; by destruct (js_sort _ _).
Qed.

(** A row is not blocked exactly when the claimed steps are part of a
    feasible walk: as before, but between two consecutive steps the machine may
    need further transitions, as long as the one state can be reached from the
    other. *)
Theorem case_not_blocked_iff_bridgeable testCaseId m steps req :
  cr_blocked (validateStepSequenceAgainstStateMachine testCaseId
    (indexWorkflowStateMachine m) steps req) = false ↔
  feasible (reachable_state m) m (default false req) steps.
Proof. apply row_not_blocked. Qed.

(** ** Lemmas on the gate *)

Lemma lookup_foldl_insert {A} (key : A → string) l acc k (x : A) :
  foldl (λ (acc : gmap string A) x, <[key x := x]> acc) acc l !! k = Some x →
  acc !! k = Some x ∨ (x ∈ l ∧ key x = k).
Proof.
  revert acc; induction l as [|y l IH]; intros acc; simpl; [auto|].
  intros [Hx|[? ?]]%IH; [|right; split; [by right|done]].
  apply lookup_insert_Some in Hx as [[<- <-]|[_ ?]]; [right|by left].
  split; [by left|done].
Qed.

Lemma exercised_known testCaseId m steps req id :
  id ∈ cr_transitionIdsExercised (validateStepSequenceAgainstStateMachine testCaseId
         (indexWorkflowStateMachine m) steps req) →
  id ∈ wt_transitionId <$> wm_transitions m.
Proof.
  unfold validateStepSequenceAgainstStateMachine.
  destruct (os_clean _ && _); [|by intros ?%elem_of_nil]. cbn [cr_transitionIdsExercised].
  unfold walk_steps. set (w := {| wk_cursor := None |}).
  assert (∀ x, x ∈ wk_exercised w → x ∈ wt_transitionId <$> wm_transitions m) as Hw.
  { by intros x ?%elem_of_nil. }
  clearbody w. revert w Hw. generalize (js_sort (cmp_on sp_stepIndex Z.compare) steps) as l.
  induction l as [|x l IH]; intros w Hw; [apply Hw|]. cbn [foldl]. apply IH.
  intros y. unfold walk_step.
  destruct (ix_transitionsById _ !! sp_transitionId x) as [t|] eqn:Et; [|apply Hw].
  assert (t ∈ wm_transitions m) as Ht.
  { apply (lookup_foldl_insert wt_transitionId) in Et as [Et|[? _]]; [|done].
    by rewrite lookup_empty in Et. }
  destruct (if negb _ then _ else _) as [i sp]. cbn [wk_exercised].
  intros [?|Hy%list_elem_of_singleton]%elem_of_app; [auto|]. subst y.
  by apply list_elem_of_fmap_2.
Qed.

Lemma exercised_by_spec r claims id m :
  registry_get r id = Some m →
  NoDup (exercised_by r claims id) ∧
  ∀ x, x ∈ exercised_by r claims id → x ∈ wt_transitionId <$> wm_transitions m.
Proof.
  intros Hm. unfold exercised_by.
  assert (∀ acc, (NoDup acc ∧ ∀ x, x ∈ acc → x ∈ wt_transitionId <$> wm_transitions m) →
    NoDup (foldl (λ acc c, match registry_get r (cc_stateMachineId c) with
                  | Some m => if bool_decide (wm_id m = id)
                              then foldl set_add acc (cr_transitionIdsExercised (case_row r c))
                              else acc
                  | None => acc
                  end) acc claims) ∧ ∀ x, x ∈ foldl (λ acc c,
                  match registry_get r (cc_stateMachineId c) with
                  | Some m => if bool_decide (wm_id m = id)
                              then foldl set_add acc (cr_transitionIdsExercised (case_row r c))
                              else acc
                  | None => acc
                  end) acc claims → x ∈ wt_transitionId <$> wm_transitions m) as Hgen.
  2: { apply Hgen. split; [apply NoDup_nil_2|]. by intros x ?%elem_of_nil. }
  induction claims as [|c claims IH]; intros acc Hacc; [done|]. cbn [foldl]. apply IH.
  destruct (registry_get r (cc_stateMachineId c)) as [m'|] eqn:Em; [|done].
  case_bool_decide as Eid; [|done].
  pose proof (find_by_Some _ _ _ _ Em) as [_ Hid]. rewrite Eid in Hid.
  assert (m' = m) as -> by (rewrite <- Hid in Em; rewrite Hm in Em; by injection Em).
  destruct Hacc as [Hnd Hin]. split; [by apply NoDup_foldl_set_add|].
  intros x [?|Hx]%elem_of_foldl_set_add; [auto|]. unfold case_row in Hx. rewrite Em in Hx.
  by eapply exercised_known.
Qed.

Lemma existsb_flat_map {A B} (f : B → bool) (g : A → list B) l :
  existsb f (flat_map g l) = existsb (λ x, existsb f (g x)) l.
Proof. induction l as [|x l IH]; simpl; [done|]. by rewrite existsb_app, IH. Qed.

Lemma case_row_blocked r c : existsb is_error_issue (cr_issues (case_row r c)) = cr_blocked (case_row r c).
Proof.
  unfold case_row. destruct (registry_get _ _); [|done].
  unfold validateStepSequenceAgainstStateMachine. by destruct (_ && _).
Qed.

(** The gate blocks a run exactly when some case names a registered machine
    that cannot perform its steps, and its report has one row per case. *)
Theorem gate_blocks_iff jobId generatedAt r claims :
  let report := evaluateWorkflowStateMachineGate jobId generatedAt r claims in
  (gr_blocked report = true ↔
   ∃ c m, c ∈ claims ∧ registry_get r (cc_stateMachineId c) = Some m ∧
     ¬ feasible (reachable_state m) m (default false (cc_requireTerminalExit c)) (cc_steps c)) ∧
  gr_perCase report ≡ₚ case_row r <$> claims ∧
  gr_totalCases report = Z.of_nat (length claims).
Proof.
  cbn [evaluateWorkflowStateMachineGate gr_blocked gr_perCase gr_totalCases]. split_all.
  - rewrite existsb_js_sort, existsb_flat_map, existsb_js_sort, existsb_exists. split.
    + intros (row & Hrow & Hb). apply list_elem_of_In, list_elem_of_fmap in Hrow as (c & -> & Hc).
      rewrite case_row_blocked in Hb. unfold case_row in Hb.
      destruct (registry_get r _) as [m|] eqn:Em; [|done]. exists c, m. split_all; try done.
      rewrite <- (row_not_blocked (cc_testCaseId c)). by rewrite Hb.
    + intros (c & m & Hc & Hm & Hf). exists (case_row r c). split.
      * by apply list_elem_of_In, list_elem_of_fmap_2.
      * rewrite case_row_blocked. unfold case_row. rewrite Hm.
        rewrite <- (row_not_blocked (cc_testCaseId c)) in Hf. by destruct (cr_blocked _).
  - apply js_sort_Permutation.
  - by rewrite length_js_sort, length_fmap.
Qed.

(** Coverage: for a machine with distinct transition ids, the exercised and
    the unexercised ids of its row partition the machine's transitions, and the
    ratio lies between 0 and 1. *)
Theorem coverage_partitions_transitions r claims m :
  registry_get r (wm_id m) = Some m → NoDup (wt_transitionId <$> wm_transitions m) →
  let row := coverage_row (exercised_by r claims (wm_id m)) m in
  cv_exercisedTransitionIds row ++ cv_unexercisedTransitionIds row
    ≡ₚ wt_transitionId <$> wm_transitions m ∧
  (0 <= cv_coverageRatio row <= 1)%Q.
Proof.
  intros Hm Hnd row. destruct (exercised_by_spec r claims (wm_id m) m Hm) as [Hnd' Hin].
  set (ex := exercised_by r claims (wm_id m)) in *.
  assert (cv_exercisedTransitionIds row ++ cv_unexercisedTransitionIds row
    ≡ₚ wt_transitionId <$> wm_transitions m) as Hp.
  { simpl. rewrite !js_sort_Permutation. apply NoDup_Permutation; [|done|].
    - apply NoDup_app. split; [done|]. split; [|by apply NoDup_filter].
      intros x Hx [? _]%list_elem_of_filter. done.
    - intros x. rewrite elem_of_app, list_elem_of_filter.
      destruct (decide (x ∈ ex)); naive_solver. }
  split; [done|].
  assert (length (cv_exercisedTransitionIds row) ≤ length (wm_transitions m))%nat as Hle.
  { apply Permutation_length in Hp. rewrite length_app, length_fmap in Hp. lia. }
  cbn [row coverage_row cv_coverageRatio]. cbn [row coverage_row cv_exercisedTransitionIds] in Hle.
  destruct (Z.eqb_spec (Z.of_nat (length (wm_transitions m))) 0) as [|Hne]; [done|].
  apply round6_unit. split.
  - apply Qle_shift_div_l; [|rewrite Qmult_0_l]; unfold Qle, Qlt; simpl; lia.
  - apply Qle_shift_div_r; [|rewrite Qmult_1_l]; unfold Qle, Qlt; simpl; lia.
Qed.

(** A case whose state machine is not registered counts as clean although
    its row carries a warning. *)
Theorem unmatched_case_clean_with_warning r c :
  registry_get r (cc_stateMachineId c) = None →
  cr_clean (case_row r c) = true ∧ (0 < length (cr_issues (case_row r c)))%nat.
Proof. intros Hn. unfold case_row. rewrite Hn. simpl. split; [done|lia]. Qed.
End row.

(** ** Witnesses *)

Definition demo_machine : WorkflowStateMachine :=
  match @buildStateMachineFromWorkflowTopology code_unit_collation "screen" "Screen"
          demo_topology None with
  | Ok m => m
  | Throw _ => {| wm_id := ""; wm_label := ""; wm_states := []; wm_transitions := [];
                  wm_provenance := prov_manual |}
  end.

Lemma coverage_partitions_transitions_witness :
  cv_coverageRatio (@coverage_row code_unit_collation
    (@exercised_by code_unit_collation [demo_machine] [] "screen") demo_machine) = (0 # 1000000)%Q ∧
  (0 <= cv_coverageRatio (@coverage_row code_unit_collation
    (@exercised_by code_unit_collation [demo_machine] [] "screen") demo_machine) <= 1)%Q.
Proof.
  split; [vm_compute; reflexivity|].
  apply (@coverage_partitions_transitions code_unit_collation [demo_machine] [] demo_machine).
  - vm_compute. reflexivity.
  - apply (bool_decide_unpack _). vm_compute. exact I.
Defined.

Definition orphan_case : CaseClaims :=
  {| cc_testCaseId := "tc-1"; cc_stateMachineId := "nowhere"; cc_steps := [];
     cc_requireTerminalExit := None |}.

Lemma unmatched_case_clean_with_warning_witness :
  cr_clean (@case_row code_unit_collation [demo_machine] orphan_case) = true.
Proof.
  apply (@unmatched_case_clean_with_warning code_unit_collation [demo_machine] orphan_case).
  vm_compute. reflexivity.
Defined.

(** The form has to be submitted before the final screen can be left. *)
Example demo_case_blocked :
  cr_blocked (@validateStepSequenceAgainstStateMachine "tc-1"
    (@indexWorkflowStateMachine code_unit_collation demo_machine) code_unit_collation
    [ {| sp_stepIndex := 1; sp_transitionId := "submit" |};
      {| sp_stepIndex := 2; sp_transitionId := "submit" |} ] (Some true)) = true.
Proof. vm_compute. reflexivity. Qed.
