(* ===== verification/CrossFamily.v ===== *)
(** * Cross-family judge policy

    [packages/quality/src/cross-family-judge-policy.ts]: validation of the judge
    bindings, the family and residency invariants, the quorum vote, the
    classification of a disagreement and its escalation. Rates are exact
    rationals. *)

From S2P Require Import Prelude JsString JsList Contracts.

Inductive JudgeModelFamily : Type :=
| fam_anthropic | fam_azure_openai | fam_google | fam_in_house | fam_mistral | fam_openai.

#[export] Instance JudgeModelFamily_eq_dec : EqDecision JudgeModelFamily.
Proof. solve_decision. Defined.

Definition JudgeModelFamily_label (f : JudgeModelFamily) : string :=
  match f with
  | fam_anthropic => "anthropic"
  | fam_azure_openai => "azure-openai"
  | fam_google => "google"
  | fam_in_house => "in-house"
  | fam_mistral => "mistral"
  | fam_openai => "openai"
  end.

#[export] Program Instance JudgeModelFamily_Label : Label JudgeModelFamily :=
  {| label := JudgeModelFamily_label;
     labels := [fam_anthropic; fam_azure_openai; fam_google; fam_in_house; fam_mistral;
                fam_openai] |}.
Next Obligation. solve_label_complete. Qed.
Next Obligation. solve_label_distinct. Qed.

Inductive JudgeModelRegion : Type := reg_eu | reg_global | reg_us.

#[export] Instance JudgeModelRegion_eq_dec : EqDecision JudgeModelRegion.
Proof. solve_decision. Defined.

Definition JudgeModelRegion_label (r : JudgeModelRegion) : string :=
  match r with reg_eu => "eu" | reg_global => "global" | reg_us => "us" end.

#[export] Program Instance JudgeModelRegion_Label : Label JudgeModelRegion :=
  {| label := JudgeModelRegion_label; labels := [reg_eu; reg_global; reg_us] |}.
Next Obligation. solve_label_complete. Qed.
Next Obligation. solve_label_distinct. Qed.

(** [LogicJudgeVerdictLabel] *)
Inductive Verdict : Type := v_accept | v_repair | v_reject.

#[export] Instance Verdict_eq_dec : EqDecision Verdict.
Proof. solve_decision. Defined.

Definition Verdict_label (v : Verdict) : string :=
  match v with v_accept => "accept" | v_repair => "repair" | v_reject => "reject" end.

#[export] Program Instance Verdict_Label : Label Verdict :=
  {| label := Verdict_label; labels := [v_accept; v_repair; v_reject] |}.
Next Obligation. solve_label_complete. Qed.
Next Obligation. solve_label_distinct. Qed.

Inductive JudgeDisagreementDecisionLabel : Type :=
| majority_decision | split_decision | unanimous_accept | unanimous_reject | unanimous_repair.

#[export] Instance JudgeDisagreementDecisionLabel_eq_dec :
  EqDecision JudgeDisagreementDecisionLabel.
Proof. solve_decision. Defined.

Definition JudgeDisagreementDecisionLabel_label (d : JudgeDisagreementDecisionLabel) : string :=
  match d with
  | majority_decision => "majority_decision"
  | split_decision => "split_decision"
  | unanimous_accept => "unanimous_accept"
  | unanimous_reject => "unanimous_reject"
  | unanimous_repair => "unanimous_repair"
  end.

#[export] Program Instance JudgeDisagreementDecisionLabel_Label :
  Label JudgeDisagreementDecisionLabel :=
  {| label := JudgeDisagreementDecisionLabel_label;
     labels := [majority_decision; split_decision; unanimous_accept; unanimous_reject;
                unanimous_repair] |}.
Next Obligation. solve_label_complete. Qed.
Next Obligation. solve_label_distinct. Qed.

Inductive JudgeDisagreementEscalationAction : Type := human_review_required | esc_none.

#[export] Instance JudgeDisagreementEscalationAction_eq_dec :
  EqDecision JudgeDisagreementEscalationAction.
Proof. solve_decision. Defined.

(** A binding as it arrives, its enumerated fields still strings. *)
Record raw_binding := {
  rb_judgeId : string;
  rb_family : string;
  rb_modelId : string;
  rb_promptVersion : string;
  rb_region : string;
  rb_verdict : string;
}.

(** [JudgeFamilyBinding], after [assertBinding]. *)
Record JudgeFamilyBinding := {
  jb_judgeId : string;
  jb_family : JudgeModelFamily;
  jb_modelId : string;
  jb_promptVersion : string;
  jb_region : JudgeModelRegion;
  jb_verdict : Verdict;
}.

Record CrossFamilyJudgePolicyOptions := {
  co_allowSharedFamily : bool;
  co_requireEuRegion : bool;
  co_mostTrustedFamily : option string;
}.

Record CrossFamilyJudgePolicyResult := {
  cp_decision : JudgeDisagreementDecisionLabel;
  cp_escalation : JudgeDisagreementEscalationAction;
  cp_disagreementRate : Q;
  cp_escalationRate : Z;
  cp_resolvedVerdict : Verdict;
  cp_families : list JudgeModelFamily;
}.

Inductive CrossFamilyError : Type :=
| cf_empty_panel
| cf_unknown_trusted_family
| cf_empty_judgeId
| cf_unknown_family
| cf_unknown_region
| cf_empty_modelId
| cf_empty_promptVersion
| cf_unknown_verdict
| cf_shared_family (f : JudgeModelFamily) (owner other : string)
| cf_not_eu (judgeId : string)
| cf_no_candidates.

Definition assertBinding (b : raw_binding) : outcome CrossFamilyError JudgeFamilyBinding :=
  if bool_decide (rb_judgeId b = "") then Throw cf_empty_judgeId
  else match @parse_label JudgeModelFamily _ (rb_family b) with
  | None => Throw cf_unknown_family
  | Some f =>
      match @parse_label JudgeModelRegion _ (rb_region b) with
      | None => Throw cf_unknown_region
      | Some r =>
          if bool_decide (rb_modelId b = "") then Throw cf_empty_modelId
          else if bool_decide (rb_promptVersion b = "") then Throw cf_empty_promptVersion
          else match @parse_label Verdict _ (rb_verdict b) with
          | None => Throw cf_unknown_verdict
          | Some v =>
              Ok {| jb_judgeId := rb_judgeId b; jb_family := f; jb_modelId := rb_modelId b;
                    jb_promptVersion := rb_promptVersion b; jb_region := r; jb_verdict := v |}
          end
      end
  end.

(** The loop of [assessCrossFamilyPanel] over its bindings. *)
Fixpoint assertBindings (bs : list raw_binding) :
    outcome CrossFamilyError (list JudgeFamilyBinding) :=
  match bs with
  | [] => Ok []
  | b :: r => (let* x := assertBinding b in let* l := assertBindings r in Ok (x :: l))%outcome
  end.

(** [seen] is the map from families to the judge that bound them last. *)
Fixpoint cross_family_loop (seen : list (JudgeModelFamily * string))
    (bs : list JudgeFamilyBinding) : outcome CrossFamilyError unit :=
  match bs with
  | [] => Ok tt
  | b :: r =>
      let seen' := (jb_family b, jb_judgeId b) :: seen in
      match list_find (λ p, p.1 = jb_family b) seen with
      | Some (_, (_, owner)) =>
          if bool_decide (owner ≠ jb_judgeId b)
          then Throw (cf_shared_family (jb_family b) owner (jb_judgeId b))
          else cross_family_loop seen' r
      | None => cross_family_loop seen' r
      end
  end.

Definition assertCrossFamilyInvariant (bs : list JudgeFamilyBinding) (allowSharedFamily : bool) :
    outcome CrossFamilyError unit :=
  if allowSharedFamily then Ok tt else cross_family_loop [] bs.

Definition assertEuResidency (bs : list JudgeFamilyBinding) : outcome CrossFamilyError unit :=
  outcome_foldl (λ _ b, guard_throw (bool_decide (jb_region b ≠ reg_eu)) (cf_not_eu (jb_judgeId b)))
    tt bs.

Definition VERDICT_RANK (v : Verdict) : Z :=
  match v with v_reject => 2 | v_repair => 1 | v_accept => 0 end.

Record tally := { t_accept : Z; t_repair : Z; t_reject : Z }.

Definition tally_add (t : tally) (v : Verdict) : tally :=
  match v with
  | v_accept => {| t_accept := t_accept t + 1; t_repair := t_repair t; t_reject := t_reject t |}
  | v_repair => {| t_accept := t_accept t; t_repair := t_repair t + 1; t_reject := t_reject t |}
  | v_reject => {| t_accept := t_accept t; t_repair := t_repair t; t_reject := t_reject t + 1 |}
  end.

Definition tallyVerdicts (bs : list JudgeFamilyBinding) : tally :=
  foldl (λ t b, tally_add t (jb_verdict b)) {| t_accept := 0; t_repair := 0; t_reject := 0 |} bs.

Definition tally_of (t : tally) (v : Verdict) : Z :=
  match v with v_accept => t_accept t | v_repair => t_repair t | v_reject => t_reject t end.

(** In the order of the object's keys. *)
Definition distinctVerdicts (t : tally) : list Verdict :=
  filter (λ v, 0 < tally_of t v) [v_accept; v_repair; v_reject].

Definition tally_max (t : tally) : Z :=
  (t_accept t `max` t_repair t) `max` t_reject t.

Definition tied_verdicts (t : tally) : list Verdict :=
  filter (λ v, tally_of t v = tally_max t) (distinctVerdicts t).

Definition pickHigherSeverity (candidates : list Verdict) : outcome CrossFamilyError Verdict :=
  match js_sort (λ a b, Z.compare (VERDICT_RANK b) (VERDICT_RANK a)) candidates with
  | [] => Throw cf_no_candidates
  | v :: _ => Ok v
  end.

Definition classifyDecision (bs : list JudgeFamilyBinding) : JudgeDisagreementDecisionLabel :=
  let totals := tallyVerdicts bs in
  match distinctVerdicts totals with
  | [v_accept] => unanimous_accept
  | [v_repair] => unanimous_repair
  | [v_reject] => unanimous_reject
  | [_; _; _] => split_decision
  | _ => if bool_decide (length (tied_verdicts totals) = 1%nat)
         then majority_decision else split_decision
  end.

Definition resolveQuorumVerdict (bs : list JudgeFamilyBinding) :
    outcome CrossFamilyError Verdict :=
  if bool_decide (bs = []) then Throw cf_empty_panel
  else
    let tied := tied_verdicts (tallyVerdicts bs) in
    match tied with
    | [v] => Ok v
    | _ =>
        if bool_decide (v_repair ∈ tied) then Ok v_repair
        else if bool_decide (v_accept ∈ tied) && bool_decide (v_reject ∈ tied) then Ok v_repair
        else pickHigherSeverity tied
    end.

Definition countDissenters (bs : list JudgeFamilyBinding) (v : Verdict) : Z :=
  Z.of_nat (length (filter (λ b, jb_verdict b ≠ v) bs)).

Definition computeEscalation (decision : JudgeDisagreementDecisionLabel)
    (bs : list JudgeFamilyBinding) (resolvedVerdict : Verdict)
    (mostTrustedFamily : option JudgeModelFamily) : JudgeDisagreementEscalationAction :=
  match decision, mostTrustedFamily with
  | split_decision, _ => human_review_required
  | majority_decision, Some f =>
      match filter (λ b, jb_verdict b ≠ resolvedVerdict) bs with
      | [b] => if bool_decide (jb_family b = f) then human_review_required else esc_none
      | _ => esc_none
      end
  | _, _ => esc_none
  end.

Definition assessCrossFamilyPanel (raw : list raw_binding)
    (options : CrossFamilyJudgePolicyOptions) :
    outcome CrossFamilyError CrossFamilyJudgePolicyResult :=
  (guard_throw (bool_decide (raw = [])) cf_empty_panel ;;;
   let* trusted :=
     match co_mostTrustedFamily options with
     | None => Ok None
     | Some s => match @parse_label JudgeModelFamily _ s with
                 | None => Throw cf_unknown_trusted_family
                 | Some f => Ok (Some f)
                 end
     end in
   let* bs := assertBindings raw in
   let* _ := assertCrossFamilyInvariant bs (co_allowSharedFamily options) in
   let* _ := if co_requireEuRegion options then assertEuResidency bs else Ok tt in
   let decision := classifyDecision bs in
   let* resolvedVerdict := resolveQuorumVerdict bs in
   let escalation := computeEscalation decision bs resolvedVerdict trusted in
   Ok {| cp_decision := decision; cp_escalation := escalation;
         cp_disagreementRate :=
           (inject_Z (countDissenters bs resolvedVerdict)
            / inject_Z (Z.of_nat (length bs)))%Q;
         cp_escalationRate := if bool_decide (escalation = esc_none) then 0 else 1;
         cp_resolvedVerdict := resolvedVerdict;
         cp_families := dedupeAndSort (jb_family <$> bs) |})%outcome.

(** ** Lemmas *)

Definition votes (v : Verdict) (bs : list JudgeFamilyBinding) : Z :=
  Z.of_nat (length (filter (λ b, jb_verdict b = v) bs)).

Lemma tally_of_add t v w :
  tally_of (tally_add t v) w = tally_of t w + (if bool_decide (v = w) then 1 else 0).
Proof. destruct v, w; simpl; lia. Qed.

(** Counting the verdicts of a list of anything that carries one. *)
Lemma foldl_tally {A} (f : A → Verdict) l t v :
  tally_of (foldl (λ t x, tally_add t (f x)) t l) v =
  tally_of t v + Z.of_nat (length (filter (λ x, f x = v) l)).
Proof.
  revert t. induction l as [|x l IH]; intros t; simpl; [lia|].
  rewrite IH, tally_of_add, filter_cons. case_bool_decide; case_decide; simpl; try done; lia.
Qed.

Lemma tallyVerdicts_votes bs v : tally_of (tallyVerdicts bs) v = votes v bs.
Proof. unfold tallyVerdicts. rewrite foldl_tally. by destruct v. Qed.

Lemma votes_nonneg v bs : 0 <= votes v bs.
Proof. unfold votes. lia. Qed.

Lemma votes_total bs : votes v_accept bs + votes v_repair bs + votes v_reject bs = Z.of_nat (length bs).
Proof.
  unfold votes. induction bs as [|b bs IH]; [done|]. rewrite !filter_cons.
  destruct (jb_verdict b); simpl; lia.
Qed.

Definition strict_plurality (w : Verdict) (bs : list JudgeFamilyBinding) : Prop :=
  ∀ u, u ≠ w → votes u bs < votes w bs.

(** The tied verdicts, from the three counts. *)
Definition tied_of (a r j : Z) : list Verdict :=
  let m := (a `max` r) `max` j in
  (if bool_decide (0 < a ∧ a = m) then [v_accept] else []) ++
  (if bool_decide (0 < r ∧ r = m) then [v_repair] else []) ++
  (if bool_decide (0 < j ∧ j = m) then [v_reject] else []).

Lemma tied_verdicts_eq bs :
  tied_verdicts (tallyVerdicts bs) =
  tied_of (votes v_accept bs) (votes v_repair bs) (votes v_reject bs).
Proof.
  rewrite <- !tallyVerdicts_votes. generalize (tallyVerdicts bs). intros [a r j].
  unfold tied_verdicts, distinctVerdicts, tied_of, tally_max. simpl.
  rewrite !filter_cons. repeat case_decide; rewrite ?filter_cons; repeat case_decide;
    repeat case_bool_decide; simpl in *; try done; try tauto.
Qed.

Lemma tied_of_cases a r j :
  0 <= a → 0 <= r → 0 <= j → 0 < a + r + j →
  (tied_of a r j = [v_accept] ∧ r < a ∧ j < a) ∨
  (tied_of a r j = [v_repair] ∧ a < r ∧ j < r) ∨
  (tied_of a r j = [v_reject] ∧ a < j ∧ r < j) ∨
  (tied_of a r j = [v_accept; v_repair] ∧ a = r ∧ j < r) ∨
  (tied_of a r j = [v_accept; v_reject] ∧ a = j ∧ r < j) ∨
  (tied_of a r j = [v_repair; v_reject] ∧ r = j ∧ a < j) ∨
  (tied_of a r j = [v_accept; v_repair; v_reject] ∧ a = r ∧ r = j).
Proof.
  intros. unfold tied_of. repeat case_bool_decide; simpl; try lia;
    repeat match goal with
    | |- (?x = ?x ∧ _) ∨ _ => left; split; [reflexivity|lia]
    | |- ?x = ?x ∧ _ => split; [reflexivity|lia]
    | |- _ ∨ _ => right
    end.
Qed.

Lemma strict_plurality_iff w bs :
  strict_plurality w bs ↔
  match w with
  | v_accept => votes v_repair bs < votes w bs ∧ votes v_reject bs < votes w bs
  | v_repair => votes v_accept bs < votes w bs ∧ votes v_reject bs < votes w bs
  | v_reject => votes v_accept bs < votes w bs ∧ votes v_repair bs < votes w bs
  end.
Proof.
  unfold strict_plurality. destruct w; split; try (intros HP; split; apply HP; done);
    intros [? ?] []; done.
Qed.

Lemma resolveQuorumVerdict_cases bs :
  bs ≠ [] → ∃ v, resolveQuorumVerdict bs = Ok v ∧
    (strict_plurality v bs ∨ (v = v_repair ∧ ∀ w, ¬ strict_plurality w bs)).
Proof.
  intros Hne. unfold resolveQuorumVerdict. rewrite bool_decide_eq_false_2 by done.
  rewrite tied_verdicts_eq. pose proof (votes_total bs) as Ht.
  assert (length bs ≠ 0%nat) by (by destruct bs).
  setoid_rewrite strict_plurality_iff.
  destruct (tied_of_cases (votes v_accept bs) (votes v_repair bs) (votes v_reject bs))
    as [(-> & ?)|[(-> & ?)|[(-> & ?)|[(-> & ?)|[(-> & ?)|[(-> & ?)|(-> & ?)]]]]]];
    try apply votes_nonneg; [lia|..];
    (eexists; split; [reflexivity|]); first [left; lia | right; split; [done|]; intros []; lia].
Qed.

(** No family is bound by two judges. *)
Definition one_judge_per_family (l : list (JudgeModelFamily * string)) : Prop :=
  ∀ p q, p ∈ l → q ∈ l → p.1 = q.1 → p.2 = q.2.

Lemma one_judge_per_family_cons f id l :
  one_judge_per_family l → (∀ q, q ∈ l → q.1 = f → q.2 = id) →
  one_judge_per_family ((f, id) :: l).
Proof.
  intros Hl Hf p q [->|Hp]%elem_of_cons [->|Hq]%elem_of_cons; simpl; auto.
  - intros. symmetry. auto.
Qed.

Lemma one_judge_per_family_ext l l' :
  (∀ x, x ∈ l ↔ x ∈ l') → one_judge_per_family l ↔ one_judge_per_family l'.
Proof. intros Hx. unfold one_judge_per_family. by setoid_rewrite Hx. Qed.

Lemma cross_family_loop_iff seen bs :
  one_judge_per_family seen →
  (∃ u, cross_family_loop seen bs = Ok u) ↔
  one_judge_per_family (((λ b, (jb_family b, jb_judgeId b)) <$> bs) ++ seen).
Proof.
  revert seen; induction bs as [|b bs IH]; intros seen Hs; simpl; [by split; [|eauto]|].
  assert ((∃ owner, (jb_family b, owner) ∈ seen ∧ owner ≠ jb_judgeId b ∧
      ∃ i, list_find (λ p, p.1 = jb_family b) seen = Some (i, (jb_family b, owner))) ∨
    ((∀ q, q ∈ seen → q.1 = jb_family b → q.2 = jb_judgeId b) ∧
     match list_find (λ p, p.1 = jb_family b) seen with
     | Some (_, (_, owner)) => owner = jb_judgeId b | None => True end)) as Hcase.
  { destruct (list_find _ seen) as [[i [f owner]]|] eqn:E.
    - apply list_find_Some in E as (Hi & Hf & _). simpl in Hf. subst f.
      apply list_elem_of_lookup_2 in Hi. destruct (decide (owner = jb_judgeId b)).
      + right. split; [|done]. intros q Hq Hqf. by rewrite (Hs q _ Hq Hi Hqf).
      + left. exists owner. split; [done|]. split; [done|]. by exists i.
    - right. split; [|done]. intros q Hq Hqf. apply list_find_None in E.
      rewrite Forall_forall in E. by apply E in Hq. }
  destruct Hcase as [(owner & Hin & Hne & i & ->)|[Hall Hfind]].
  - rewrite bool_decide_eq_true_2 by done. split; [by intros [? ?]|]. intros Hone. exfalso.
    apply Hne. apply (Hone (jb_family b, owner) (jb_family b, jb_judgeId b)); [|by left|done].
    right. apply elem_of_app. by right.
  - assert (one_judge_per_family ((jb_family b, jb_judgeId b) :: seen)) as Hs'
      by (by apply one_judge_per_family_cons).
    transitivity (∃ u, cross_family_loop ((jb_family b, jb_judgeId b) :: seen) bs = Ok u).
    + destruct (list_find _ seen) as [[i [f o]]|]; [|done]. subst o.
      by rewrite bool_decide_eq_false_2 by auto.
    + rewrite (IH _ Hs'). apply one_judge_per_family_ext. intros x.
      rewrite elem_of_cons, !elem_of_app, elem_of_cons. tauto.
Qed.

Lemma assertCrossFamilyInvariant_iff bs :
  (∃ u, assertCrossFamilyInvariant bs false = Ok u) ↔
  ∀ b1 b2, b1 ∈ bs → b2 ∈ bs → jb_family b1 = jb_family b2 → jb_judgeId b1 = jb_judgeId b2.
Proof.
  unfold assertCrossFamilyInvariant. rewrite cross_family_loop_iff by (intros ?? []%elem_of_nil).
  rewrite app_nil_r. unfold one_judge_per_family. split.
  - intros Ho b1 b2 H1 H2. apply (Ho (jb_family b1, jb_judgeId b1) (jb_family b2, jb_judgeId b2));
      by apply (list_elem_of_fmap_2 (λ b, (jb_family b, jb_judgeId b))).
  - intros Ho p q (b1 & -> & H1)%list_elem_of_fmap (b2 & -> & H2)%list_elem_of_fmap. simpl. auto.
Qed.

Lemma assertEuResidency_iff bs :
  (∃ u, assertEuResidency bs = Ok u) ↔ Forall (λ b, jb_region b = reg_eu) bs.
Proof.
  unfold assertEuResidency. induction bs as [|b bs IH]; simpl; [split; [constructor|by exists tt]|].
  rewrite Forall_cons, <- IH. case_bool_decide; simpl.
  - split; [by intros [? ?]|tauto].
  - split; [|tauto]. intros Hu. split; [|done]. by destruct (decide (jb_region b = reg_eu)).
Qed.

(** What an accepted assessment computed. *)
Lemma assessCrossFamilyPanel_Ok raw options res :
  assessCrossFamilyPanel raw options = Ok res →
  ∃ bs trusted, assertBindings raw = Ok bs ∧ bs ≠ [] ∧
    (∃ u, assertCrossFamilyInvariant bs (co_allowSharedFamily options) = Ok u) ∧
    (co_requireEuRegion options = true → ∃ u, assertEuResidency bs = Ok u) ∧
    resolveQuorumVerdict bs = Ok (cp_resolvedVerdict res) ∧
    cp_decision res = classifyDecision bs ∧
    cp_escalation res = computeEscalation (classifyDecision bs) bs (cp_resolvedVerdict res) trusted ∧
    trusted = (co_mostTrustedFamily options ≫= @parse_label JudgeModelFamily _) ∧
    cp_families res = dedupeAndSort (jb_family <$> bs) ∧
    cp_disagreementRate res = (inject_Z (countDissenters bs (cp_resolvedVerdict res))
            / inject_Z (Z.of_nat (length bs)))%Q.
Proof.
  unfold assessCrossFamilyPanel. intros (_ & _ & Hr)%outcome_bind_Ok.
  apply outcome_bind_Ok in Hr as (trusted & Htr & Hr).
  apply outcome_bind_Ok in Hr as (bs & Hbs & Hr). apply outcome_bind_Ok in Hr as (u & Hu & Hr).
  apply outcome_bind_Ok in Hr as (u' & Hu' & Hr).
  apply outcome_bind_Ok in Hr as (v & Hv & [= <-]). simpl. exists bs, trusted.
  split_all; try done; eauto.
  - intros ->. by unfold resolveQuorumVerdict in Hv.
  - intros Heu. rewrite Heu in Hu'. eauto.
  - destruct (co_mostTrustedFamily options) as [s|]; simpl; [|by simplify_eq].
    destruct (parse_label s); by simplify_eq.
Qed.

(** ** Properties *)

(** The quorum vote is total on a non-empty panel and never accepts on a
    tie: the verdict with strictly more votes than each other one wins, and
    when there is none the panel resolves to [repair]. *)
Theorem quorum_is_strict_plurality bs :
  bs ≠ [] →
  ∃ v, resolveQuorumVerdict bs = Ok v ∧
    (∀ w, strict_plurality w bs → v = w) ∧
    ((∀ w, ¬ strict_plurality w bs) → v = v_repair) ∧
    (v = v_accept → votes v_reject bs < votes v_accept bs).
Proof.
  intros Hne. destruct (resolveQuorumVerdict_cases bs Hne) as (v & Hv & Hc).
  exists v. split; [done|]. split_all.
  - intros w Hw. destruct Hc as [Hp|[_ Hn]]; [|by destruct (Hn w)].
    destruct (decide (v = w)) as [|Hvw]; [done|].
    specialize (Hp w ltac:(congruence)). specialize (Hw v Hvw). lia.
  - intros Hn. destruct Hc as [Hp|[-> _]]; [by destruct (Hn v)|done].
  - intros ->. destruct Hc as [Hp|[? _]]; [by apply Hp|done].
Qed.

(** An assessment that is not refused certifies the panel: without the
    override no family serves two judges, under the EU rule every endpoint is in
    the EU, the reported families are the families of the panel, sorted and
    without duplicates, and the disagreement rate lies between 0 and 1. *)
Theorem assessed_panel_is_certified raw options res :
  assessCrossFamilyPanel raw options = Ok res →
  ∃ bs, assertBindings raw = Ok bs ∧
    (co_allowSharedFamily options = false →
     ∀ b1 b2, b1 ∈ bs → b2 ∈ bs → jb_family b1 = jb_family b2 → jb_judgeId b1 = jb_judgeId b2) ∧
    (co_requireEuRegion options = true → Forall (λ b, jb_region b = reg_eu) bs) ∧
    (∀ f, f ∈ cp_families res ↔ f ∈ jb_family <$> bs) ∧ NoDup (cp_families res) ∧
    StronglySorted (cmp_le label_cmp) (cp_families res) ∧
    (0 <= cp_disagreementRate res <= 1)%Q.
Proof.
  intros (bs & trusted & Hbs & Hne & Hinv & Heu & _ & _ & _ & _ & Hfam & Hrate)%assessCrossFamilyPanel_Ok.
  exists bs. rewrite Hfam, Hrate. split_all; try done.
  - intros Hs. rewrite Hs in Hinv. by apply assertCrossFamilyInvariant_iff.
  - intros He. by apply assertEuResidency_iff, Heu.
  - intros f. apply elem_of_dedupeAndSort.
  - apply NoDup_dedupeAndSort.
  - apply js_sort_sorted, _.
  - apply Qle_shift_div_l; [|rewrite Qmult_0_l]; unfold countDissenters, Qle, Qlt; simpl;
      destruct bs; simpl; try done; lia.
  - unfold countDissenters. pose proof (length_filter (λ b, jb_verdict b ≠ cp_resolvedVerdict res) bs).
    apply Qle_shift_div_r; [|rewrite Qmult_1_l]; unfold Qle, Qlt; simpl; destruct bs;
      simpl in *; try done; lia.
Qed.

(** On the three-judge panel the policy is written for: equal verdicts are
    unanimous and never escalate; a two-to-one vote is a majority for the two
    and escalates exactly when the dissenter's family is the most trusted one;
    three different verdicts are a split, resolve to [repair] and escalate. *)
Theorem three_judge_panel raw options res a b c :
  assessCrossFamilyPanel raw options = Ok res → assertBindings raw = Ok [a; b; c] →
  let trusted := co_mostTrustedFamily options ≫= @parse_label JudgeModelFamily _ in
  (jb_verdict a = jb_verdict b → jb_verdict b = jb_verdict c →
     cp_resolvedVerdict res = jb_verdict a ∧ cp_escalation res = esc_none ∧
     cp_decision res ∉ [majority_decision; split_decision]) ∧
  (jb_verdict a = jb_verdict b → jb_verdict b ≠ jb_verdict c →
     cp_resolvedVerdict res = jb_verdict a ∧ cp_decision res = majority_decision ∧
     (cp_escalation res = human_review_required ↔ trusted = Some (jb_family c))) ∧
  (jb_verdict a ≠ jb_verdict b → jb_verdict b ≠ jb_verdict c → jb_verdict a ≠ jb_verdict c →
     cp_resolvedVerdict res = v_repair ∧ cp_decision res = split_decision ∧
     cp_escalation res = human_review_required).
Proof.
  intros (bs & trusted & Hbs & _ & _ & _ & Hv & Hd & He & Ht & _)%assessCrossFamilyPanel_Ok Habc.
  rewrite Hbs in Habc. injection Habc as ->. rewrite <- Ht, Hd, He. clear Hd He Ht Hbs.
  destruct a as [ja fa ma pa ra va], b as [jb fb mb pb rb vb], c as [jc fc mc pc rc vc].
  cbn [jb_verdict jb_family]. split; [|split].
  - intros -> ->. destruct vc; injection Hv as <-; (split; [done|]; split;
      [by destruct trusted|]; intros [?|[?|[]%elem_of_nil]%elem_of_cons]%elem_of_cons; done).
  - intros -> Hne. destruct vb, vc; try done; injection Hv as <-;
      (split; [done|]; split; [done|]); destruct trusted as [f|]; [|done| |done| |done| |done| |done| |done];
      change (computeEscalation _ _ _ (Some f))
        with (if bool_decide (fc = f) then human_review_required else esc_none);
      case_bool_decide; split; try done; intros; congruence.
  - intros H1 H2 H3. destruct va, vb, vc; try done; injection Hv as <-; by destruct trusted.
Qed.

(** The comment of [classifyDecision] promises [majority_decision] for a
    larger panel with a strict majority; a five-judge panel with three accepting
    judges and one each for the other verdicts is classified as a split, and so
    goes to human review. *)
Theorem strict_majority_classified_as_split :
  let panel := (λ v, {| jb_judgeId := "j"; jb_family := fam_google; jb_modelId := "m";
                        jb_promptVersion := "p"; jb_region := reg_eu; jb_verdict := v |})
                 <$> [v_accept; v_accept; v_accept; v_repair; v_reject] in
  votes v_accept panel = 3 ∧ Z.of_nat (length panel) = 5 ∧
  classifyDecision panel = split_decision ∧ resolveQuorumVerdict panel = Ok v_accept.
Proof. vm_compute. split_all; reflexivity. Qed.

(** ** Witnesses *)

Definition eu_binding (id family verdict : string) : raw_binding :=
  {| rb_judgeId := id; rb_family := family; rb_modelId := "m"; rb_promptVersion := "p1";
     rb_region := "eu"; rb_verdict := verdict |}.

Definition eu_panel : list raw_binding :=
  [eu_binding "logic_judge" "mistral" "accept";
   eu_binding "faithfulness_judge" "anthropic" "accept";
   eu_binding "a11y_judge" "azure-openai" "repair"].

Definition eu_options : CrossFamilyJudgePolicyOptions :=
  {| co_allowSharedFamily := false; co_requireEuRegion := true;
     co_mostTrustedFamily := Some "azure-openai" |}.

Lemma quorum_is_strict_plurality_witness :
  ∃ bs v, assertBindings eu_panel = Ok bs ∧ resolveQuorumVerdict bs = Ok v ∧
          (v = v_accept → votes v_reject bs < votes v_accept bs).
Proof.
  eexists. destruct (quorum_is_strict_plurality
    (match assertBindings eu_panel with Ok bs => bs | Throw _ => [] end)) as (v & Hv & _ & _ & Ha);
    [vm_compute; discriminate|].
  exists v. split; [vm_compute; reflexivity|]. split; [exact Hv|exact Ha].
Defined.

Lemma assessed_panel_is_certified_witness :
  ∃ res, assessCrossFamilyPanel eu_panel eu_options = Ok res ∧ NoDup (cp_families res).
Proof.
  eexists. split; [vm_compute; reflexivity|].
  edestruct (assessed_panel_is_certified eu_panel eu_options) as (bs & _ & _ & _ & _ & Hnd & _);
    [vm_compute; reflexivity|exact Hnd].
Defined.

Lemma three_judge_panel_witness :
  ∃ res, assessCrossFamilyPanel eu_panel eu_options = Ok res ∧
         cp_escalation res = human_review_required.
Proof.
  eexists. split; [vm_compute; reflexivity|].
  edestruct (three_judge_panel eu_panel eu_options) as (_ & H2 & _);
    [vm_compute; reflexivity|vm_compute; reflexivity|].
  apply H2; [reflexivity|discriminate|vm_compute; reflexivity].
Defined.
