(* ===== verification/HumanReview.v ===== *)
(** * The human-review decision envelope

    [packages/production-runner/src/human-review-agent.ts] and the guards of
    [packages/quality/src/cross-family-judge-policy.ts] it uses: building a
    decision and validating one that was reloaded. The digest of
    [node:crypto] is a parameter; a string holds code units below 256, so the
    two forbidden separators above that range, U+2028 and U+2029, do not occur
    in the modelled strings. *)

From Stdlib Require Import Ascii.
From S2P Require Import Prelude JsString JsList Contracts CrossFamily.

(** [createHash("sha256").update(value, "utf8").digest("hex")]: what the code
    relies on is that the digest is 64 lowercase hexadecimal digits. *)
Class Sha256 := {
  sha256Hex : string → string;
  sha256Hex_isHex64 value : isHex64 (sha256Hex value) = true;
}.

(** ** Contract data *)

Definition HUMAN_REVIEW_DECISION_SCHEMA_VERSION : string := "1.0.0".
Definition HUMAN_REVIEW_REVIEWER_KINDS : list string := ["dry_run_marker"; "principal"].
Definition HUMAN_REVIEW_VERDICT_LABELS : list string :=
  ["accept"; "deferred"; "reject"; "repair"].
Definition HUMAN_REVIEW_RATIONALE_MAX_CHARS : nat := 1024.
Definition JUDGE_DISAGREEMENT_DECISION_LABELS : list string :=
  label <$> (labels : list JudgeDisagreementDecisionLabel).

Record HumanReviewDecision := {
  hd_schemaVersion : string;
  hd_reviewerKind : string;
  hd_principalHash : string;
  hd_verdict : string;
  hd_rationale : string;
  hd_decidedAt : string;
  hd_triggeredBy : string;
}.

Record BuildHumanReviewDecisionInput := {
  hb_reviewerKind : option string;
  hb_principalId : option string;
  hb_principalHash : option string;
  hb_verdict : string;
  hb_rationale : string;
  hb_decidedAt : string;
  hb_triggeredBy : string;
}.

Inductive HumanReviewError : Type :=
| hr_schema_version (v : string)
| hr_reviewer_kind (v : string)
| hr_verdict (v : string)
| hr_rationale_empty
| hr_rationale_too_long
| hr_rationale_forbidden_char
| hr_decidedAt_empty
| hr_decidedAt_not_iso
| hr_triggeredBy_empty
| hr_triggeredBy (v : string)
| hr_principal_hash
| hr_principal_required.

(** ** The timestamp pattern *)

Definition is_digit (c : ascii) : bool :=
  let n := Ascii.nat_of_ascii c in ((48 <=? n) && (n <=? 57))%nat.

(** Consumes one character per class of the pattern. *)
Fixpoint match_classes (ps : list (ascii → bool)) (s : string) : option string :=
  match ps with
  | [] => Some s
  | p :: ps' =>
      match s with
      | String c r => if p c then match_classes ps' r else None
      | EmptyString => None
      end
  end.

(** The digits a greedy [\d*] consumes, and the rest. *)
Fixpoint span_digits (s : string) : nat * string :=
  match s with
  | String c r => if is_digit c then let '(n, t) := span_digits r in (S n, t) else (0%nat, s)
  | EmptyString => (0%nat, s)
  end.

Definition char_is (c : ascii) (x : ascii) : bool := Ascii.eqb c x.

Definition DATE_TIME_CLASSES : list (ascii → bool) :=
  let d := is_digit in
  [d; d; d; d; char_is "-"; d; d; char_is "-"; d; d; char_is "T"; d; d; char_is ":"; d; d;
   char_is ":"; d; d]%char.

(** [(?:\.\d{1,9})?]: the digits are followed by a character that is no digit
    ([Z], [+] or [-]), so the greedy choice is the only one. *)
Definition skip_fraction (s : string) : option string :=
  match s with
  | String c r =>
      if char_is "."%char c then
        let '(n, t) := span_digits r in
        if ((1 <=? n) && (n <=? 9))%nat then Some t else None
      else Some s
  | EmptyString => Some s
  end.

Definition OFFSET_CLASSES : list (ascii → bool) :=
  let d := is_digit in
  [(λ c, char_is "+" c || char_is "-" c); d; d; char_is ":"; d; d]%char.

Definition is_zone (s : string) : bool :=
  bool_decide (s = "Z") || bool_decide (match_classes OFFSET_CLASSES s = Some "").

(** [ISO_8601.test(value)] *)
Definition ISO_8601 (value : string) : bool :=
  match match_classes DATE_TIME_CLASSES value with
  | Some r => match skip_fraction r with Some z => is_zone z | None => false end
  | None => false
  end.

(** ** Assertions *)

Definition FORBIDDEN_RATIONALE_CHARS : list ascii := ["010"; "013"]%char.

Definition assertRationale (rationale : string) : outcome HumanReviewError unit :=
  (guard_throw (bool_decide (rationale = "")) hr_rationale_empty ;;;
   guard_throw (HUMAN_REVIEW_RATIONALE_MAX_CHARS <? String.length rationale)%nat
     hr_rationale_too_long ;;;
   guard_throw (existsb (λ ch, has_char ch rationale) FORBIDDEN_RATIONALE_CHARS)
     hr_rationale_forbidden_char)%outcome.

Definition assertDecidedAt (decidedAt : string) : outcome HumanReviewError unit :=
  (guard_throw (bool_decide (decidedAt = "")) hr_decidedAt_empty ;;;
   guard_throw (negb (ISO_8601 decidedAt)) hr_decidedAt_not_iso)%outcome.

Definition assertVerdict (verdict : string) : outcome HumanReviewError unit :=
  guard_throw (negb (bool_decide (verdict ∈ HUMAN_REVIEW_VERDICT_LABELS))) (hr_verdict verdict).

Definition assertReviewerKind (kind : string) : outcome HumanReviewError unit :=
  guard_throw (negb (bool_decide (kind ∈ HUMAN_REVIEW_REVIEWER_KINDS))) (hr_reviewer_kind kind).

Definition assertTriggeredBy (triggeredBy : string) : outcome HumanReviewError unit :=
  (guard_throw (bool_decide (triggeredBy = "")) hr_triggeredBy_empty ;;;
   guard_throw (negb (bool_decide (triggeredBy ∈ JUDGE_DISAGREEMENT_DECISION_LABELS)))
     (hr_triggeredBy triggeredBy))%outcome.

Definition DRY_RUN_PRINCIPAL_ID : string := "dry-run-marker".

Definition is_present (s : option string) : bool :=
  match s with Some x => negb (bool_decide (x = "")) | None => false end.

(** The principal's digest: the one supplied, or that of the supplied id, or
    that of the dry-run marker; a live principal must be named. *)
Definition principal_hash `{Sha256} (reviewerKind : string)
    (input : BuildHumanReviewDecisionInput) : outcome HumanReviewError string :=
  match hb_principalHash input with
  | Some h => if negb (isHex64 h) then Throw hr_principal_hash else Ok h
  | None =>
      let principalId :=
        if is_present (hb_principalId input) then default DRY_RUN_PRINCIPAL_ID (hb_principalId input)
        else DRY_RUN_PRINCIPAL_ID in
      if bool_decide (reviewerKind = "principal") && negb (is_present (hb_principalId input))
      then Throw hr_principal_required
      else Ok (sha256Hex principalId)
  end.

Definition buildHumanReviewDecision `{Sha256} (input : BuildHumanReviewDecisionInput) :
    outcome HumanReviewError HumanReviewDecision :=
  let reviewerKind := default "dry_run_marker" (hb_reviewerKind input) in
  (assertReviewerKind reviewerKind ;;;
   assertVerdict (hb_verdict input) ;;;
   assertRationale (hb_rationale input) ;;;
   assertDecidedAt (hb_decidedAt input) ;;;
   assertTriggeredBy (hb_triggeredBy input) ;;;
   let* principalHash := principal_hash reviewerKind input in
   Ok {| hd_schemaVersion := HUMAN_REVIEW_DECISION_SCHEMA_VERSION;
         hd_reviewerKind := reviewerKind; hd_principalHash := principalHash;
         hd_verdict := hb_verdict input; hd_rationale := hb_rationale input;
         hd_decidedAt := hb_decidedAt input; hd_triggeredBy := hb_triggeredBy input |})%outcome.

Definition buildDryRunHumanReviewMarker `{Sha256} (rationale decidedAt triggeredBy : string) :
    outcome HumanReviewError HumanReviewDecision :=
  buildHumanReviewDecision
    {| hb_reviewerKind := Some "dry_run_marker"; hb_principalId := None;
       hb_principalHash := None; hb_verdict := "deferred"; hb_rationale := rationale;
       hb_decidedAt := decidedAt; hb_triggeredBy := triggeredBy |}.

Definition assertHumanReviewDecisionInvariants (decision : HumanReviewDecision) :
    outcome HumanReviewError unit :=
  (guard_throw (bool_decide (hd_schemaVersion decision ≠ HUMAN_REVIEW_DECISION_SCHEMA_VERSION))
     (hr_schema_version (hd_schemaVersion decision)) ;;;
   assertReviewerKind (hd_reviewerKind decision) ;;;
   guard_throw (negb (isHex64 (hd_principalHash decision))) hr_principal_hash ;;;
   assertVerdict (hd_verdict decision) ;;;
   assertRationale (hd_rationale decision) ;;;
   assertDecidedAt (hd_decidedAt decision) ;;;
   assertTriggeredBy (hd_triggeredBy decision))%outcome.

Definition hashPrincipalId `{Sha256} (principalId : string) : option string :=
  if bool_decide (principalId = "") then None else Some (sha256Hex principalId).

(** ** Lemmas *)

Section decisions.
Context `{Sha256}.

(** What the assertions shared by building and reloading establish. *)
Definition valid_fields (kind verdict rationale decidedAt triggeredBy : string) : Prop :=
  kind ∈ HUMAN_REVIEW_REVIEWER_KINDS ∧ verdict ∈ HUMAN_REVIEW_VERDICT_LABELS ∧
  rationale ≠ "" ∧ (String.length rationale ≤ HUMAN_REVIEW_RATIONALE_MAX_CHARS)%nat ∧
  (∀ ch, ch ∈ FORBIDDEN_RATIONALE_CHARS → has_char ch rationale = false) ∧
  ISO_8601 decidedAt = true ∧ triggeredBy ∈ JUDGE_DISAGREEMENT_DECISION_LABELS.

Lemma guard_negb_decide (P : Prop) `{Decision P} (e : HumanReviewError) :
  guard_throw (negb (bool_decide P)) e = Ok tt ↔ P.
Proof. rewrite guard_throw_Ok. by case_bool_decide; simpl; naive_solver. Qed.

Lemma assertRationale_Ok r :
  assertRationale r = Ok tt ↔
  r ≠ "" ∧ (String.length r ≤ HUMAN_REVIEW_RATIONALE_MAX_CHARS)%nat ∧
  ∀ ch, ch ∈ FORBIDDEN_RATIONALE_CHARS → has_char ch r = false.
Proof.
  unfold assertRationale. rewrite !outcome_then_Ok, !guard_throw_Ok.
  rewrite bool_decide_eq_false, Nat.ltb_ge.
  assert (existsb (λ ch, has_char ch r) FORBIDDEN_RATIONALE_CHARS = false ↔
          ∀ ch, ch ∈ FORBIDDEN_RATIONALE_CHARS → has_char ch r = false) as ->; [|tauto].
  rewrite <- not_true_iff_false, existsb_exists. split.
  - intros Hn ch Hch. apply not_true_iff_false. intros Ht. apply Hn. exists ch.
    by rewrite <- list_elem_of_In.
  - intros Hf (ch & Hch%list_elem_of_In & Ht). by rewrite Hf in Ht.
Qed.

Lemma valid_fields_Ok kind verdict rationale decidedAt triggeredBy :
  valid_fields kind verdict rationale decidedAt triggeredBy ↔
  assertReviewerKind kind = Ok tt ∧ assertVerdict verdict = Ok tt ∧
  assertRationale rationale = Ok tt ∧ assertDecidedAt decidedAt = Ok tt ∧
  assertTriggeredBy triggeredBy = Ok tt.
Proof.
  unfold assertReviewerKind, assertVerdict, assertDecidedAt, assertTriggeredBy.
  rewrite !outcome_then_Ok, !guard_negb_decide, assertRationale_Ok, !guard_throw_Ok,
    negb_false_iff, !bool_decide_eq_false.
  unfold valid_fields. split; [|naive_solver]. intros (? & ? & ? & ? & ? & Ht & Htr).
  split_all; try done.
  - by intros ->.
  - intros ->. revert Htr. apply (bool_decide_unpack _). vm_compute. exact I.
Qed.

(** A decision is built exactly from valid fields and a principal that is
    named, by a well-formed digest or, when live, by a non-empty id. *)
Lemma buildHumanReviewDecision_Ok input d :
  let kind := default "dry_run_marker" (hb_reviewerKind input) in
  buildHumanReviewDecision input = Ok d ↔
  valid_fields kind (hb_verdict input) (hb_rationale input) (hb_decidedAt input)
    (hb_triggeredBy input) ∧
  ∃ h, principal_hash kind input = Ok h ∧
  d = {| hd_schemaVersion := HUMAN_REVIEW_DECISION_SCHEMA_VERSION; hd_reviewerKind := kind;
         hd_principalHash := h; hd_verdict := hb_verdict input;
         hd_rationale := hb_rationale input; hd_decidedAt := hb_decidedAt input;
         hd_triggeredBy := hb_triggeredBy input |}.
Proof.
  intros kind. unfold buildHumanReviewDecision. fold kind. rewrite valid_fields_Ok.
  rewrite !outcome_then_Ok, outcome_bind_Ok. naive_solver.
Qed.

Lemma principal_hash_isHex64 kind input h :
  principal_hash kind input = Ok h → isHex64 h = true.
Proof.
  unfold principal_hash. destruct (hb_principalHash input) as [h'|].
  - destruct (isHex64 h') eqn:E; simpl; naive_solver.
  - case_match; [done|]. intros [= <-]. apply sha256Hex_isHex64.
Qed.

Definition with_principalId (input : BuildHumanReviewDecisionInput) (id : string) :
    BuildHumanReviewDecisionInput :=
  {| hb_reviewerKind := hb_reviewerKind input; hb_principalId := Some id;
     hb_principalHash := hb_principalHash input; hb_verdict := hb_verdict input;
     hb_rationale := hb_rationale input; hb_decidedAt := hb_decidedAt input;
     hb_triggeredBy := hb_triggeredBy input |}.

(** ** Properties *)

(** A decision that was built passes the check it meets when it is reloaded
    from the consensus artifact, its digest is the supplied one or that of the
    reviewer's id, a live decision names its reviewer, and the artifact knows
    the reviewer's id only through its digest: another non-empty id with the
    same digest gives the same decision. *)
Theorem built_decision_reloads input d :
  buildHumanReviewDecision input = Ok d →
  assertHumanReviewDecisionInvariants d = Ok tt ∧
  (hd_reviewerKind d = "principal" →
   hb_principalHash input = Some (hd_principalHash d) ∨
   ∃ id, hb_principalId input = Some id ∧ id ≠ "" ∧ hd_principalHash d = sha256Hex id) ∧
  (∀ id id', hb_principalId input = Some id → id ≠ "" → id' ≠ "" →
     sha256Hex id' = sha256Hex id →
     buildHumanReviewDecision (with_principalId input id') = Ok d).
Proof.
  intros Hb. apply buildHumanReviewDecision_Ok in Hb as (Hv & h & Hh & ->). split_all.
  - unfold assertHumanReviewDecisionInvariants. simpl.
    apply valid_fields_Ok in Hv as (? & ? & ? & ? & ?).
    rewrite !outcome_then_Ok, !guard_throw_Ok, (principal_hash_isHex64 _ _ _ Hh).
    by split_all.
  - simpl. intros Hk. rewrite Hk in Hh. unfold principal_hash in Hh.
    destruct (hb_principalHash input) as [h'|].
    { left. destruct (isHex64 h'); naive_solver. }
    right. destruct (hb_principalId input) as [id|]; [|done]. simpl in Hh.
    destruct (bool_decide (id = "")) eqn:E; [done|]. simpl in Hh.
    apply bool_decide_eq_false in E. naive_solver.
  - intros id id' Hid Hne Hne' Hsha. apply buildHumanReviewDecision_Ok. split; [done|].
    exists h. split; [|done]. rewrite <- Hh. unfold principal_hash. simpl.
    rewrite Hid. simpl. rewrite !(bool_decide_eq_false_2 (_ = "")) by done. simpl.
    by rewrite Hsha.
Qed.
End decisions.

(** ** Witnesses *)

Fixpoint hex_digits (n : nat) (s : string) : string :=
  match n with
  | O => ""
  | S n' =>
      match s with
      | EmptyString => String "0"%char (hex_digits n' "")
      | String c r => String (if Ascii.eqb c "a"%char then "a"%char else "b"%char) (hex_digits n' r)
      end
  end.

(** A digest that records which characters of the value are an [a]. *)
#[local] Instance toy_sha256 : Sha256.
Proof.
  refine {| sha256Hex := hex_digits 64 |}. intros s. unfold isHex64.
  assert (∀ n s, String.length (hex_digits n s) = n ∧
                 all_chars is_hex_digit (hex_digits n s) = true) as Hd.
  { induction n as [|n IH]; intros [|c s']; simpl; [done|done|..].
    - destruct (IH "") as [-> ->]. done.
    - destruct (IH s') as [-> ->]. by destruct (Ascii.eqb c "a"%char). }
  destruct (Hd 64%nat s) as [-> ->]. done.
Defined.

Definition alice_accepts : BuildHumanReviewDecisionInput :=
  {| hb_reviewerKind := Some "principal"; hb_principalId := Some "alice";
     hb_principalHash := None; hb_verdict := "accept"; hb_rationale := "traceable";
     hb_decidedAt := "2026-01-31T09:30:00.250+01:00"; hb_triggeredBy := "split_decision" |}.

Lemma built_decision_reloads_witness :
  ∃ d, buildHumanReviewDecision alice_accepts = Ok d ∧
       assertHumanReviewDecisionInvariants d = Ok tt.
Proof.
  eexists. split; [vm_compute; reflexivity|].
  refine (proj1 (built_decision_reloads alice_accepts _ _)). vm_compute. reflexivity.
Defined.
