(* ===== verification/JudgeConsensus.v ===== *)
(** * Judge consensus

    [packages/production-runner/src/judge-consensus.ts] and
    [packages/model-gateway/src/judge-limits.ts]: normalization of the panel,
    vetoes, the shape of the agreement, the weighted vote, the deduplicated
    findings and repair instructions and the consensus artifact.

    Weights and confidences are exact rationals once normalized. Enumerations
    that are only compared and sorted (scope, severity, category, kind) are kept
    as their strings. *)

From S2P Require Import Prelude JsString JsList JsValue Contracts CrossFamily HumanReview.
From Stdlib Require Import Lqa.

(** ** Length limits *)

Definition LIMIT_PATH : nat := 160.
Definition LIMIT_MESSAGE : nat := 240.
Definition LIMIT_INSTRUCTION : nat := 240.

(** The value and whether it was clipped. *)
Definition truncateWithEllipsis (value : string) (maxLength : nat) : string * bool :=
  if (String.length value <=? maxLength)%nat then (value, false)
  else (String.substring 0 (maxLength - 3) value +:+ "...", true).

Definition truncateMessage (value : string) : string :=
  (truncateWithEllipsis value LIMIT_MESSAGE).1.
Definition truncatePath (value : string) : string :=
  (truncateWithEllipsis value LIMIT_PATH).1.
Definition truncateInstruction (value : string) : string * bool :=
  truncateWithEllipsis value LIMIT_INSTRUCTION.

(** ** Data *)

(** [JudgeConsensusFinding]; the scope may be missing on input. *)
Record Finding := {
  fi_scope : option string;
  fi_testCaseId : string;
  fi_code : string;
  fi_message : string;
  fi_severity : option string;
  fi_category : string;
}.

Record RepairInstruction := {
  ri_testCaseId : string;
  ri_path : string;
  ri_instruction : string;
  ri_instructionTruncated : bool;
  ri_kind : option string;
  ri_message : option string;
}.

Definition countTruncatedInstructions (l : list RepairInstruction) : Z :=
  Z.of_nat (length (filter (λ i, ri_instructionTruncated i = true) l)).

(** A panel entry as it arrives. *)
Record RawPanelEntry := {
  rw_judgeId : string;
  rw_verdict : Verdict;
  rw_weight : jsnum;
  rw_confidence : option jsnum;
  rw_findings : list Finding;
  rw_repairInstructions : list RepairInstruction;
  rw_truncatedInstructionCount : option Z;
  rw_family : option string;
  rw_region : option string;
  rw_modelId : option string;
  rw_promptVersion : option string;
}.

(** A normalized panel entry. *)
Record PanelEntry := {
  pe_judgeId : string;
  pe_verdict : Verdict;
  pe_weight : Q;
  pe_confidence : option Q;
  pe_findings : list Finding;
  pe_repairInstructions : list RepairInstruction;
  pe_truncatedInstructionCount : Z;
  pe_family : option JudgeModelFamily;
  pe_region : option JudgeModelRegion;
  pe_modelId : option string;
  pe_promptVersion : option string;
}.

Inductive AgreementShape : Type := sh_unanimous | sh_majority | sh_split | sh_vetoed.

#[export] Instance AgreementShape_eq_dec : EqDecision AgreementShape.
Proof. solve_decision. Defined.

Inductive RepairState : Type := rs_none | rs_repair_required | rs_repaired.

Definition REPAIR_OUTCOMES : list string :=
  ["not_needed"; "accepted"; "rejected"; "needs_review"; "convergence_stalled";
   "budget_exhausted"].

Record RepairHistory := {
  rh_attempted : bool;
  rh_repairIterationCount : Z;
  rh_finalOutcome : string;
  rh_historicalFindings : list Finding;
  rh_historicalRepairInstructions : list RepairInstruction;
  rh_truncatedInstructionCount : Z;
}.

(** [Partial<JudgeConsensusRepairHistory>] *)
Record RepairHistoryInput := {
  hi_attempted : option bool;
  hi_repairIterationCount : option Z;
  hi_finalOutcome : option string;
  hi_historicalFindings : option (list Finding);
  hi_historicalRepairInstructions : option (list RepairInstruction);
}.

Record Veto := { vt_judgeId : string; vt_verdict : Verdict; vt_findingCodes : list string }.

Record CrossFamilySummary := {
  cs_decision : JudgeDisagreementDecisionLabel;
  cs_escalation : JudgeDisagreementEscalationAction;
  cs_families : list JudgeModelFamily;
  cs_disagreementRate : Q;
  cs_escalationRate : Z;
}.

Record ConsensusVerdict := {
  jc_generatedAt : string;
  jc_jobId : string;
  jc_verdict : Verdict;
  jc_agreementShape : AgreementShape;
  jc_repairState : RepairState;
  jc_activeFindings : list Finding;
  jc_repairInstructions : list RepairInstruction;
  jc_truncatedInstructionCount : Z;
  jc_repairHistory : RepairHistory;
  jc_vetoBy : option Veto;
  jc_panel : list PanelEntry;
  jc_humanReview : option HumanReviewDecision;
  jc_crossFamily : option CrossFamilySummary;
}.

Record ConsensusInput := {
  bi_jobId : string;
  bi_generatedAt : string;
  bi_panel : list RawPanelEntry;
  bi_repairHistory : option RepairHistoryInput;
  bi_humanReview : option HumanReviewDecision;
  bi_crossFamilyOptions : option CrossFamilyJudgePolicyOptions;
}.

Inductive ConsensusError : Type :=
| je_empty_jobId
| je_unknown_family (judgeId : string)
| je_unknown_region (judgeId : string)
| je_bad_modelId (judgeId : string)
| je_bad_promptVersion (judgeId : string)
| je_empty_panel
| je_cross_family (e : CrossFamilyError)
| je_human_review (e : HumanReviewError).

(** ** Normalization *)

Definition normalizeWeight (w : jsnum) : Q :=
  match w with Fin q => if Qle_bool q 0 then 1%Q else q | _ => 1%Q end.

Definition normalizeConfidence (c : option jsnum) : option Q :=
  match c with
  | Some (Fin q) => if Qle_bool 0 q && Qle_bool q 1 then Some q else None
  | _ => None
  end.

Definition normalizeJudgeVerdict (judgeId : string) (v : Verdict) : Verdict :=
  if (bool_decide (judgeId = "a11y_judge") || bool_decide (judgeId = "coverage_judge"))
     && bool_decide (v = v_reject)
  then v_repair else v.

Definition JOB_LEVEL_TEST_CASE_ID : string := "$job".

Definition inferFindingScope (testCaseId : string) : string :=
  if bool_decide (testCaseId = JOB_LEVEL_TEST_CASE_ID) then "job" else "test_case".

Definition normalizeConsensusFinding (f : Finding) : Finding :=
  {| fi_scope := Some (default (inferFindingScope (fi_testCaseId f)) (fi_scope f));
     fi_testCaseId := fi_testCaseId f; fi_code := fi_code f; fi_message := fi_message f;
     fi_severity := fi_severity f; fi_category := fi_category f |}.

(** An optional label: absent, known, or an error. *)
Definition parse_optional {A} `{Label A} (s : option string) (e : ConsensusError) :
    outcome ConsensusError (option A) :=
  match s with
  | None => Ok None
  | Some x => match parse_label x with Some a => Ok (Some a) | None => Throw e end
  end.

Definition assertOptionalNonEmptyString (s : option string) (e : ConsensusError) :
    outcome ConsensusError unit :=
  guard_throw (bool_decide (s = Some "")) e.

Definition normalizePanelEntry (entry : RawPanelEntry) : outcome ConsensusError PanelEntry :=
  let judgeId := rw_judgeId entry in
  (let* family := @parse_optional JudgeModelFamily _ (rw_family entry)
                    (je_unknown_family judgeId) in
   let* region := @parse_optional JudgeModelRegion _ (rw_region entry)
                    (je_unknown_region judgeId) in
   let* _ := assertOptionalNonEmptyString (rw_modelId entry) (je_bad_modelId judgeId) in
   let* _ := assertOptionalNonEmptyString (rw_promptVersion entry)
               (je_bad_promptVersion judgeId) in
   Ok {| pe_judgeId := judgeId;
         pe_verdict := normalizeJudgeVerdict judgeId (rw_verdict entry);
         pe_weight := normalizeWeight (rw_weight entry);
         pe_confidence := normalizeConfidence (rw_confidence entry);
         pe_findings := normalizeConsensusFinding <$> rw_findings entry;
         pe_repairInstructions := rw_repairInstructions entry;
         pe_truncatedInstructionCount :=
           default (countTruncatedInstructions (rw_repairInstructions entry))
             (rw_truncatedInstructionCount entry);
         pe_family := family; pe_region := region; pe_modelId := rw_modelId entry;
         pe_promptVersion := rw_promptVersion entry |})%outcome.

Fixpoint normalizePanel (panel : list RawPanelEntry) : outcome ConsensusError (list PanelEntry) :=
  match panel with
  | [] => Ok []
  | e :: r => (let* x := normalizePanelEntry e in let* l := normalizePanel r in Ok (x :: l))%outcome
  end.

(** ** Cross-family summary *)

Definition panel_binding (entry : PanelEntry) (family : JudgeModelFamily) : raw_binding :=
  {| rb_judgeId := pe_judgeId entry; rb_family := label family;
     rb_modelId := default (label family +:+ "-unspecified") (pe_modelId entry);
     rb_promptVersion := default (pe_judgeId entry +:+ "-unspecified") (pe_promptVersion entry);
     rb_region := label (default reg_global (pe_region entry));
     rb_verdict := label (pe_verdict entry) |}.

(** [None] when some entry has no family. *)
Fixpoint panel_bindings (panel : list PanelEntry) : option (list raw_binding) :=
  match panel with
  | [] => Some []
  | e :: r =>
      match pe_family e with
      | None => None
      | Some f => l ← panel_bindings r; Some (panel_binding e f :: l)
      end
  end.

Definition buildCrossFamilySummary (panel : list PanelEntry)
    (options : option CrossFamilyJudgePolicyOptions) :
    outcome ConsensusError (option CrossFamilySummary) :=
  match panel_bindings panel with
  | None => Ok None
  | Some bindings =>
      if bool_decide (bindings = [])
         || (length (set_of (rb_family <$> bindings)) <? 2)%nat
      then Ok None
      else
        let options :=
          {| co_allowSharedFamily := true;
             co_requireEuRegion := default false (co_requireEuRegion <$> options);
             co_mostTrustedFamily := options ≫= co_mostTrustedFamily |} in
        match assessCrossFamilyPanel bindings options with
        | Throw e => Throw (je_cross_family e)
        | Ok r => Ok (Some {| cs_decision := cp_decision r; cs_escalation := cp_escalation r;
                              cs_families := js_sort label_cmp (cp_families r);
                              cs_disagreementRate := cp_disagreementRate r;
                              cs_escalationRate := cp_escalationRate r |})
        end
  end.

(** ** Vetoes *)

Definition TRANSIENT_JUDGE_REFUSAL_CODES : list string :=
  ["canceled"; "gateway_unavailable"; "rate_limited"; "timeout"].

Definition selectHigherSeverity `{LocaleCompare} (left right : PanelEntry) : PanelEntry :=
  let delta := VERDICT_RANK (pe_verdict left) - VERDICT_RANK (pe_verdict right) in
  if negb (delta =? 0) then (if 0 <? delta then left else right)
  else if negb (Qeq_bool (pe_weight left) (pe_weight right))
  then (if Qle_bool (pe_weight left) (pe_weight right) then right else left)
  else match localeCompare (pe_judgeId left) (pe_judgeId right) with Gt => right | _ => left end.

Definition isSchemaClassFinding (e : PanelEntry) : bool :=
  existsb (λ f, bool_decide (fi_category f = "schema_class") || includes "schema" (fi_code f))
    (pe_findings e)
  || existsb (λ i, bool_decide (ri_kind i = Some "schema_violation")) (pe_repairInstructions e).

Definition isCrossModalMismatchFinding (e : PanelEntry) : bool :=
  existsb (λ f, bool_decide (fi_category f = "cross_modal_mismatch")) (pe_findings e).

Definition isIrAllowlistViolationFinding (e : PanelEntry) : bool :=
  existsb (λ f, bool_decide (fi_category f = "ir_allowlist_violation")
                || starts_with "invented_" (fi_code f)) (pe_findings e).

Definition isTransientInfrastructureReject (e : PanelEntry) : bool :=
  bool_decide (pe_verdict e = v_reject)
  && bool_decide (pe_repairInstructions e = [])
  && (0 <? length (pe_findings e))%nat
  && forallb (λ f, bool_decide (fi_code f ∈ TRANSIENT_JUDGE_REFUSAL_CODES)) (pe_findings e).

(** A binary64 number is at least the literal [0.8] exactly when it is at least
    four fifths. *)
Definition confident_reject (e : PanelEntry) : bool :=
  Qle_bool (4 # 5) (default 1%Q (pe_confidence e))
  && bool_decide (pe_verdict e = v_reject)
  && negb (isTransientInfrastructureReject e).

Definition hasVeto (e : PanelEntry) : bool :=
  if confident_reject e then true
  else if bool_decide (pe_judgeId e = "logic_judge") then isSchemaClassFinding e
  else if bool_decide (pe_judgeId e = "faithfulness_judge") then isCrossModalMismatchFinding e
  else if bool_decide (pe_judgeId e = "hallucination_judge") then isIrAllowlistViolationFinding e
  else false.

(** The callback of the [reduce] over the vetoing judges. *)
Definition pick_veto `{LocaleCompare} (selected : option PanelEntry) (e : PanelEntry) :
    option PanelEntry :=
  match selected with None => Some e | Some s => Some (selectHigherSeverity s e) end.

Definition vetoCandidate `{LocaleCompare} (panel : list PanelEntry) : option PanelEntry :=
  foldl pick_veto None (filter (λ e, hasVeto e = true) panel).

(** ** Deduplication *)

Definition NUL : string := String (Ascii.ascii_of_nat 0) "".

(** A [Map] filled with the first value of each key, in insertion order. *)
Definition dedupe_by {A} (key : A → string) (l : list A) : list A :=
  foldl (λ acc x, if bool_decide (key x ∈ key <$> acc) then acc else acc ++ [x]) [] l.

Definition compareInstruction `{LocaleCompare} : RepairInstruction → RepairInstruction → comparison :=
  cmp_then (cmp_on (λ i, default "" (ri_kind i)) localeCompare)
    (cmp_then (cmp_on (λ i, default "" (ri_message i)) localeCompare)
      (cmp_then (cmp_on ri_testCaseId localeCompare)
        (cmp_then (cmp_on ri_path localeCompare) (cmp_on ri_instruction localeCompare)))).

Definition normalizeInstruction (i : RepairInstruction) : RepairInstruction :=
  let '(instruction, truncated) := truncateInstruction (ri_instruction i) in
  {| ri_testCaseId := ri_testCaseId i; ri_path := truncatePath (ri_path i);
     ri_instruction := instruction;
     ri_instructionTruncated := ri_instructionTruncated i || truncated;
     ri_kind := ri_kind i; ri_message := truncateMessage <$> ri_message i |}.

Definition instruction_key (i : RepairInstruction) : string :=
  join NUL [default "" (ri_kind i); default "" (ri_message i); ri_testCaseId i; ri_path i;
            ri_instruction i].

Definition dedupeRepairInstructions `{LocaleCompare} (panel : list PanelEntry) :
    list RepairInstruction :=
  js_sort compareInstruction
    (dedupe_by instruction_key (normalizeInstruction <$> flat_map pe_repairInstructions panel)).

Definition compareFinding `{LocaleCompare} : Finding → Finding → comparison :=
  cmp_then (cmp_on (λ f, default "" (fi_scope f)) localeCompare)
    (cmp_then (cmp_on fi_testCaseId localeCompare)
      (cmp_then (cmp_on fi_category localeCompare)
        (cmp_then (cmp_on fi_code localeCompare)
          (cmp_then (cmp_on (λ f, default "" (fi_severity f)) localeCompare)
            (cmp_on fi_message localeCompare))))).

Definition normalizeActiveFinding (f : Finding) : Finding :=
  let n := normalizeConsensusFinding f in
  {| fi_scope := fi_scope n; fi_testCaseId := fi_testCaseId n; fi_code := fi_code n;
     fi_message := truncateMessage (fi_message f); fi_severity := fi_severity n;
     fi_category := fi_category n |}.

Definition finding_key (f : Finding) : string :=
  join NUL [default "" (fi_scope f); fi_testCaseId f; fi_category f; fi_code f;
            default "" (fi_severity f); fi_message f].

Definition dedupeFindings `{LocaleCompare} (panel : list PanelEntry) : list Finding :=
  js_sort compareFinding
    (dedupe_by finding_key (normalizeActiveFinding <$> flat_map pe_findings panel)).

(** ** Voting *)

Definition panel_tally (panel : list PanelEntry) : tally :=
  foldl (λ t e, tally_add t (pe_verdict e)) {| t_accept := 0; t_repair := 0; t_reject := 0 |} panel.

Definition classifyAgreementShape (panel : list PanelEntry) (veto : option PanelEntry) :
    AgreementShape :=
  match veto with
  | Some _ => sh_vetoed
  | None =>
      let counts := panel_tally panel in
      if bool_decide (length (distinctVerdicts counts) = 1%nat) then sh_unanimous
      else
        let winners := filter (λ v, tally_of counts v = tally_max counts)
                         [v_accept; v_repair; v_reject] in
        if bool_decide (length winners = 1%nat) then sh_majority else sh_split
  end.

Record weights := { w_accept : Q; w_repair : Q; w_reject : Q }.

Definition add_weight (t : weights) (e : PanelEntry) : weights :=
  match pe_verdict e with
  | v_accept => {| w_accept := w_accept t + pe_weight e; w_repair := w_repair t;
                   w_reject := w_reject t |}
  | v_repair => {| w_accept := w_accept t; w_repair := w_repair t + pe_weight e;
                   w_reject := w_reject t |}
  | v_reject => {| w_accept := w_accept t; w_repair := w_repair t;
                   w_reject := w_reject t + pe_weight e |}
  end%Q.

Definition weight_totals (panel : list PanelEntry) : weights :=
  foldl add_weight {| w_accept := 0; w_repair := 0; w_reject := 0 |} panel.

Definition weight_of (t : weights) (v : Verdict) : Q :=
  match v with v_accept => w_accept t | v_repair => w_repair t | v_reject => w_reject t end.

Definition Qmax_b (a b : Q) : Q := if Qle_bool a b then b else a.

Definition q_positive (q : Q) : bool := negb (Qle_bool q 0).

(** The verdicts of maximal weight, in the order of the object's keys. *)
Definition heaviest (t : weights) : list Verdict :=
  let m := Qmax_b (Qmax_b (w_accept t) (w_repair t)) (w_reject t) in
  filter (λ v, Qeq_bool (weight_of t v) m = true) [v_accept; v_repair; v_reject].

Definition resolveVotingVerdict (panel : list PanelEntry) (shape : AgreementShape)
    (veto : option PanelEntry) : Verdict :=
  match shape with
  | sh_vetoed => default v_repair (pe_verdict <$> veto)
  | sh_unanimous =>
      let totals := weight_totals panel in
      if q_positive (w_accept totals) then v_accept
      else if q_positive (w_repair totals) then v_repair
      else v_reject
  | sh_majority =>
      let totals := weight_totals panel in
      let majorityVerdict := default v_accept (head (heaviest totals)) in
      if bool_decide (majorityVerdict = v_accept) && q_positive (w_repair totals)
         && Qeq_bool (w_reject totals) 0
      then v_repair else majorityVerdict
  | sh_split => v_repair
  end.

(** ** The artifact *)

Definition check_human_review (humanReview : option HumanReviewDecision) :
    outcome ConsensusError unit :=
  match humanReview with
  | None => Ok tt
  | Some d =>
      match assertHumanReviewDecisionInvariants d with
      | Ok _ => Ok tt
      | Throw e => Throw (je_human_review e)
      end
  end.

Definition buildJudgeConsensus `{LocaleCompare} (input : ConsensusInput) :
    outcome ConsensusError ConsensusVerdict :=
  (guard_throw (is_blank (bi_jobId input)) je_empty_jobId ;;;
   let* panel := normalizePanel (bi_panel input) in
   guard_throw (bool_decide (panel = [])) je_empty_panel ;;;
   let repairInstructions := dedupeRepairInstructions panel in
   let veto := vetoCandidate panel in
   let shape := classifyAgreementShape panel veto in
   let verdict := resolveVotingVerdict panel shape veto in
   let history := bi_repairHistory input in
   let finalOutcome := default "not_needed" (history ≫= hi_finalOutcome) in
   let historicalFindings :=
     js_sort compareFinding (normalizeConsensusFinding <$>
       default [] (history ≫= hi_historicalFindings)) in
   let historicalRepairInstructions :=
     js_sort compareInstruction (default [] (history ≫= hi_historicalRepairInstructions)) in
   let repairIterationCount := default 0 (history ≫= hi_repairIterationCount) `max` 0 in
   let attempted := bool_decide (history ≫= hi_attempted = Some true)
                    || (0 <? repairIterationCount) in
   let repairState :=
     if attempted && bool_decide (verdict = v_accept) then rs_repaired
     else if bool_decide (verdict = v_repair) then rs_repair_required else rs_none in
   let* crossFamily := buildCrossFamilySummary panel (bi_crossFamilyOptions input) in
   check_human_review (bi_humanReview input) ;;;
   Ok {| jc_generatedAt := bi_generatedAt input; jc_jobId := bi_jobId input;
         jc_verdict := verdict; jc_agreementShape := shape; jc_repairState := repairState;
         jc_activeFindings := dedupeFindings panel; jc_repairInstructions := repairInstructions;
         jc_truncatedInstructionCount := countTruncatedInstructions repairInstructions;
         jc_repairHistory :=
           {| rh_attempted := attempted; rh_repairIterationCount := repairIterationCount;
              rh_finalOutcome := if bool_decide (finalOutcome ∈ REPAIR_OUTCOMES)
                                 then finalOutcome else "not_needed";
              rh_historicalFindings := historicalFindings;
              rh_historicalRepairInstructions := historicalRepairInstructions;
              rh_truncatedInstructionCount :=
                countTruncatedInstructions historicalRepairInstructions |};
         jc_vetoBy := (λ e, {| vt_judgeId := pe_judgeId e; vt_verdict := pe_verdict e;
                               vt_findingCodes := fi_code <$> pe_findings e |}) <$> veto;
         jc_panel := panel; jc_humanReview := bi_humanReview input;
         jc_crossFamily := crossFamily |})%outcome.

(** ** Lemmas *)

Lemma truncateWithEllipsis_length value n :
  (3 ≤ n)%nat → (String.length (truncateWithEllipsis value n).1 ≤ n)%nat ∧
  ((truncateWithEllipsis value n).2 = true ↔ (n < String.length value)%nat).
Proof.
  intros Hn. unfold truncateWithEllipsis. destruct (Nat.leb_spec (String.length value) n); simpl.
  - split; [done|]. split; [done|lia].
  - split; [|split; [lia|done]]. rewrite length_string_app. simpl.
    assert (∀ m s, (String.length (String.substring 0 m s) ≤ m)%nat) as Hs.
    { induction m as [|m IH]; intros [|c s]; simpl; try lia. specialize (IH s). lia. }
    specialize (Hs (n - 3)%nat value). lia.
Qed.

Section dedupe.
Context {A : Type} (key : A → string).

Lemma dedupe_loop_inv acc l :
  NoDup (key <$> acc) →
  let r := foldl (λ acc x, if bool_decide (key x ∈ key <$> acc) then acc else acc ++ [x]) acc l in
  NoDup (key <$> r) ∧ (∀ x, x ∈ r → x ∈ acc ∨ x ∈ l) ∧
  (∀ x, x ∈ acc ∨ x ∈ l → key x ∈ key <$> r).
Proof.
  revert acc; induction l as [|y l IH]; intros acc Hnd; simpl.
  { split; [done|]. split; [auto|]. intros x [Hx|Hx%elem_of_nil]; [|done].
    by apply list_elem_of_fmap_2. }
  case_bool_decide as Hy.
  - destruct (IH acc Hnd) as (H1 & H2 & H3). split; [done|]. split.
    + intros x Hx. destruct (H2 x Hx); [by left|]. right. by right.
    + intros x [Hx|[->|Hx]%elem_of_cons]; auto.
      apply list_elem_of_fmap in Hy as (z & -> & Hz). auto.
  - assert (NoDup (key <$> acc ++ [y])) as Hnd'.
    { rewrite fmap_app. apply NoDup_app. split; [done|]. split; [|apply NoDup_singleton].
      intros k Hk Hk'%list_elem_of_singleton. by subst. }
    destruct (IH _ Hnd') as (H1 & H2 & H3). split; [done|]. split.
    + intros x Hx. destruct (H2 x Hx) as [[?|Hxy%list_elem_of_singleton]%elem_of_app|?]; [by left| |].
      * subst. right. by left.
      * right. by right.
    + intros x [Hx|[->|Hx]%elem_of_cons]; apply H3; auto; left; apply elem_of_app; [by left|].
      right. by apply list_elem_of_singleton.
Qed.

Lemma dedupe_by_spec l :
  NoDup (key <$> dedupe_by key l) ∧ (∀ x, x ∈ dedupe_by key l → x ∈ l) ∧
  (∀ x, x ∈ l → key x ∈ key <$> dedupe_by key l).
Proof.
  destruct (dedupe_loop_inv [] l) as (H1 & H2 & H3); [apply NoDup_nil_2|].
  split; [done|]. split; [|auto]. intros x Hx. destruct (H2 x Hx) as [[]%elem_of_nil|]; done.
Qed.
End dedupe.

(** Turns the boolean comparisons of the hypotheses into inequalities. *)
Ltac apply_Qle :=
  repeat match goal with
  | H : Qle_bool _ _ = true |- _ => apply Qle_bool_iff in H
  | H : Qle_bool ?a ?b = false |- _ =>
      let H' := fresh in
      assert (H' : (b < a)%Q) by
        (apply Qnot_le_lt; intros ?%Qle_bool_iff; congruence); clear H
  end.

Lemma VERDICT_RANK_le v : VERDICT_RANK v <= 2.
Proof. destruct v; simpl; lia. Qed.

Lemma VERDICT_RANK_reject v : VERDICT_RANK v = 2 → v = v_reject.
Proof. by destruct v. Qed.

Section consensus.
Context `{LocaleCompare}.

Lemma selectHigherSeverity_rank l r :
  (selectHigherSeverity l r = l ∨ selectHigherSeverity l r = r) ∧
  VERDICT_RANK (pe_verdict l) <= VERDICT_RANK (pe_verdict (selectHigherSeverity l r)) ∧
  VERDICT_RANK (pe_verdict r) <= VERDICT_RANK (pe_verdict (selectHigherSeverity l r)).
Proof.
  unfold selectHigherSeverity.
  destruct (Z.eqb_spec (VERDICT_RANK (pe_verdict l) - VERDICT_RANK (pe_verdict r)) 0); simpl.
  - repeat case_match; split; auto; lia.
  - destruct (Z.ltb_spec 0 (VERDICT_RANK (pe_verdict l) - VERDICT_RANK (pe_verdict r)));
      split; auto; lia.
Qed.

Lemma pick_veto_spec sel x :
  ∃ y, pick_veto sel x = Some y ∧ (y = x ∨ sel = Some y) ∧
    VERDICT_RANK (pe_verdict x) <= VERDICT_RANK (pe_verdict y) ∧
    ∀ s, sel = Some s → VERDICT_RANK (pe_verdict s) <= VERDICT_RANK (pe_verdict y).
Proof.
  destruct sel as [s|]; simpl; [|exists x; split_all; [done|by left|lia|done]].
  destruct (selectHigherSeverity_rank s x) as (Hor & Hl & Hr). eexists. split; [done|].
  split; [destruct Hor as [->| ->]; auto|]. split; [done|]. by intros ? [= <-].
Qed.

Lemma pick_veto_fold l sel :
  match foldl pick_veto sel l with
  | None => sel = None ∧ l = []
  | Some c => (sel = Some c ∨ c ∈ l) ∧
      ∀ e, sel = Some e ∨ e ∈ l → VERDICT_RANK (pe_verdict e) <= VERDICT_RANK (pe_verdict c)
  end.
Proof.
  revert sel; induction l as [|x l IH]; intros sel; simpl.
  { destruct sel as [c|]; [|done]. split; [by left|].
    intros e [[= ->]|Hn%elem_of_nil]; done. }
  destruct (pick_veto_spec sel x) as (y & -> & Hor & Hx & Hs). specialize (IH (Some y)).
  destruct (foldl _ _ l) as [c|]; [|by destruct IH]. destruct IH as [Hc Hmax].
  pose proof (Hmax y (or_introl eq_refl)) as Hy. split.
  - destruct Hc as [[= <-]|Hc]; [|right; by right].
    destruct Hor as [->|Hor]; [right; by left|by left].
  - intros e [He|[->|He]%elem_of_cons]; [specialize (Hs _ He); lia|lia|]. apply Hmax. by right.
Qed.

(** The candidate is a vetoing judge, and none of them is more severe. *)
Lemma vetoCandidate_spec panel :
  match vetoCandidate panel with
  | None => ∀ e, e ∈ panel → hasVeto e = false
  | Some c => c ∈ panel ∧ hasVeto c = true ∧
      ∀ e, e ∈ panel → hasVeto e = true → VERDICT_RANK (pe_verdict e) <= VERDICT_RANK (pe_verdict c)
  end.
Proof.
  unfold vetoCandidate. pose proof (pick_veto_fold (filter (λ e, hasVeto e = true) panel) None) as Hf.
  destruct (foldl _ None _) as [c|].
  - destruct Hf as [[?|Hc] Hmax]; [done|]. apply list_elem_of_filter in Hc as [Hv Hin].
    split_all; try done. intros e He Hve. apply Hmax. right. by apply list_elem_of_filter.
  - destruct Hf as [_ Hn]. intros e He. destruct (hasVeto e) eqn:Ev; [|done].
    assert (e ∈ filter (λ e, hasVeto e = true) panel) as Hin by (by apply list_elem_of_filter).
    rewrite Hn in Hin. by apply elem_of_nil in Hin.
Qed.

Lemma buildJudgeConsensus_Ok input art :
  buildJudgeConsensus input = Ok art →
  normalizePanel (bi_panel input) = Ok (jc_panel art) ∧ jc_panel art ≠ [] ∧
  jc_agreementShape art = classifyAgreementShape (jc_panel art) (vetoCandidate (jc_panel art)) ∧
  jc_verdict art = resolveVotingVerdict (jc_panel art) (jc_agreementShape art)
                     (vetoCandidate (jc_panel art)) ∧
  jc_activeFindings art = dedupeFindings (jc_panel art) ∧
  jc_repairInstructions art = dedupeRepairInstructions (jc_panel art).
Proof.
  unfold buildJudgeConsensus. intros (_ & _ & Hr)%outcome_bind_Ok.
  apply outcome_bind_Ok in Hr as (panel & Hp & Hr).
  apply outcome_bind_Ok in Hr as (u & Hu & Hr). apply guard_throw_Ok, bool_decide_eq_false in Hu.
  apply outcome_bind_Ok in Hr as (cf & _ & Hr).
  apply outcome_bind_Ok in Hr as (_ & _ & [= <-]). done.
Qed.

(** ** Weights *)

Lemma normalizeWeight_pos w : (0 < normalizeWeight w)%Q.
Proof.
  destruct w; simpl; try done. destruct (Qle_bool q 0) eqn:E; [done|].
  apply Qnot_le_lt. intros Hle. apply Qle_bool_iff in Hle. congruence.
Qed.

Lemma normalizePanel_weights raw panel :
  normalizePanel raw = Ok panel → Forall (λ e, 0 < pe_weight e)%Q panel.
Proof.
  revert panel; induction raw as [|r raw IH]; intros panel; simpl; [intros [= <-]; constructor|].
  intros (x & Hx & (l & Hl & [= <-])%outcome_bind_Ok)%outcome_bind_Ok.
  constructor; [|by apply IH]. unfold normalizePanelEntry in Hx.
  apply outcome_bind_Ok in Hx as (f & _ & Hx). apply outcome_bind_Ok in Hx as (g & _ & Hx).
  apply outcome_bind_Ok in Hx as (u & _ & Hx). apply outcome_bind_Ok in Hx as (v & _ & [= <-]).
  apply normalizeWeight_pos.
Qed.

Lemma weight_of_add t e v :
  weight_of (add_weight t e) v =
  if bool_decide (pe_verdict e = v) then (weight_of t v + pe_weight e)%Q else weight_of t v.
Proof. unfold add_weight. destruct (pe_verdict e), v; done. Qed.

(** A verdict has positive weight exactly when some judge cast it. *)
Lemma weight_positive panel v :
  Forall (λ e, 0 < pe_weight e)%Q panel →
  (0 < weight_of (weight_totals panel) v)%Q ↔ ∃ e, e ∈ panel ∧ pe_verdict e = v.
Proof.
  intros Hpos. unfold weight_totals. set (t := {| w_accept := 0%Q |}).
  assert (∀ t l, Forall (λ e, 0 < pe_weight e)%Q l → (0 <= weight_of t v)%Q →
    (0 <= weight_of (foldl add_weight t l) v)%Q ∧
    ((0 < weight_of (foldl add_weight t l) v)%Q ↔
       (0 < weight_of t v)%Q ∨ ∃ e, e ∈ l ∧ pe_verdict e = v)) as Hgen.
  { clear. intros t l Hl. revert t. induction Hl as [|x l Hx Hl IH]; intros t Ht; simpl.
    { split; [done|]. split; [auto|]. intros [?|(e & He & _)]; [done|by apply elem_of_nil in He]. }
    destruct (IH (add_weight t x)) as [H1 H2].
    { rewrite weight_of_add. case_bool_decide; [lra|done]. }
    split; [done|]. rewrite H2, weight_of_add. setoid_rewrite elem_of_cons.
    case_bool_decide as Ev.
    - split; [|intros _; left; lra]. intros _. right. exists x. auto.
    - split; [intros [?|(e & ? & ?)]; eauto|]. intros [?|(e & [->|?] & ?)]; eauto. done. }
  destruct (Hgen t panel Hpos) as [_ ->]; [by destruct v|]. split; [|auto].
  intros [Hf|?]; [|done]. by destruct v.
Qed.

Lemma heaviest_head t :
  ∃ v l, heaviest t = v :: l ∧ ∀ u, (weight_of t u <= weight_of t v)%Q.
Proof.
  unfold heaviest. set (m := Qmax_b _ _).
  assert (∀ u, weight_of t u <= m)%Q as Hm.
  { intros u. unfold m, Qmax_b. destruct (Qle_bool (w_accept t) (w_repair t)) eqn:E1;
      destruct (Qle_bool _ (w_reject t)) eqn:E2; apply_Qle; destruct u; simpl; lra. }
  assert (∃ v, v ∈ filter (λ v, Qeq_bool (weight_of t v) m = true) [v_accept; v_repair; v_reject])
    as [v0 Hv0].
  { unfold m, Qmax_b. destruct (Qle_bool (w_accept t) (w_repair t)), (Qle_bool _ (w_reject t));
      [exists v_reject|exists v_repair|exists v_reject|exists v_accept];
      (apply list_elem_of_filter; split; [apply Qeq_bool_iff; reflexivity|set_solver]). }
  destruct (filter _ _) as [|v l] eqn:E; [by apply elem_of_nil in Hv0|].
  exists v, l. split; [done|]. intros u.
  assert (v ∈ filter (λ v, Qeq_bool (weight_of t v) m = true) [v_accept; v_repair; v_reject])
    as [Hv _]%list_elem_of_filter by (rewrite E; by left).
  apply Qeq_bool_iff in Hv. specialize (Hm u). lra.
Qed.

Lemma panel_tally_pos panel v :
  0 < tally_of (panel_tally panel) v ↔ ∃ e, e ∈ panel ∧ pe_verdict e = v.
Proof.
  unfold panel_tally. rewrite (foldl_tally pe_verdict).
  transitivity (0 < Z.of_nat (length (filter (λ e, pe_verdict e = v) panel))).
  { by destruct v. }
  destruct (filter _ panel) as [|e l] eqn:E; simpl.
  - split; [lia|]. intros (e & He & Hv).
    assert (e ∈ filter (λ e, pe_verdict e = v) panel) as Hin by (by apply list_elem_of_filter).
    rewrite E in Hin. by apply elem_of_nil in Hin.
  - split; [intros _|lia]. exists e.
    assert (e ∈ filter (λ e, pe_verdict e = v) panel) as Hin by (rewrite E; by left).
    apply list_elem_of_filter in Hin. tauto.
Qed.

(** The panel is unanimous when exactly one verdict was cast. *)
Lemma unanimous_iff panel :
  panel ≠ [] →
  length (distinctVerdicts (panel_tally panel)) = 1%nat ↔
  ∃ v, ∀ e, e ∈ panel → pe_verdict e = v.
Proof.
  intros Hne. unfold distinctVerdicts.
  assert (∀ l, NoDup l → (∀ v, v ∈ l) → length (filter (λ v, 0 < tally_of (panel_tally panel) v) l) = 1%nat ↔
    ∃ v, ∀ e, e ∈ panel → pe_verdict e = v) as Hgen.
  { intros l Hnd Hall. split.
    - intros Hl. destruct (filter _ l) as [|v [|]] eqn:E; try done. exists v. intros e He.
      assert (pe_verdict e ∈ filter (λ v, 0 < tally_of (panel_tally panel) v) l) as Hin.
      { apply list_elem_of_filter. split; [|done]. apply panel_tally_pos. eauto. }
      rewrite E in Hin. by apply list_elem_of_singleton in Hin.
    - intros [v Hv]. assert (filter (λ v, 0 < tally_of (panel_tally panel) v) l ≡ₚ [v]) as ->; [|done].
      apply NoDup_Permutation; [by apply NoDup_filter|apply NoDup_singleton|].
      intros u. rewrite list_elem_of_filter, panel_tally_pos, list_elem_of_singleton. split.
      + intros [(e & He & <-) _]. auto.
      + intros ->. split; [|done]. destruct panel as [|e panel]; [done|].
        exists e. split; [by left|]. apply Hv. by left. }
  apply Hgen; [apply (bool_decide_unpack _); vm_compute; exact I|].
  intros []; set_solver.
Qed.

(** ** Properties *)

(** A confident rejection decides: if some judge rejects with a confidence
    of at least 0.8 (or none given), other than for a transient infrastructure
    failure, the consensus is a veto and its verdict is [reject], whatever the
    rest of the panel says. *)
Theorem confident_reject_decides input art e :
  buildJudgeConsensus input = Ok art → e ∈ jc_panel art → confident_reject e = true →
  jc_verdict art = v_reject ∧ jc_agreementShape art = sh_vetoed.
Proof.
  intros (_ & _ & Hsh & Hv & _)%buildJudgeConsensus_Ok He Hc.
  assert (hasVeto e = true) as Hve by (unfold hasVeto; by rewrite Hc).
  pose proof (vetoCandidate_spec (jc_panel art)) as Hspec.
  destruct (vetoCandidate (jc_panel art)) as [c|]; [|by rewrite Hspec in Hve].
  destruct Hspec as (_ & _ & Hmax). specialize (Hmax e He Hve).
  unfold confident_reject in Hc. apply andb_prop in Hc as [[_ Hr]%andb_prop _].
  apply bool_decide_eq_true in Hr. rewrite Hr in Hmax. simpl in Hmax.
  rewrite Hv, Hsh. simpl. split; [|done]. apply VERDICT_RANK_reject.
  pose proof (VERDICT_RANK_le (pe_verdict c)). lia.
Qed.

(** The vote without a veto: a panel of one mind gets its own verdict, and
    the consensus accepts or rejects only if some judge did and no other verdict
    carries more weight. *)
Theorem vote_without_veto input art :
  buildJudgeConsensus input = Ok art → jc_agreementShape art ≠ sh_vetoed →
  (∀ v, (∀ e, e ∈ jc_panel art → pe_verdict e = v) → jc_verdict art = v) ∧
  (jc_verdict art ≠ v_repair →
     (∃ e, e ∈ jc_panel art ∧ pe_verdict e = jc_verdict art) ∧
     ∀ v, (weight_of (weight_totals (jc_panel art)) v <=
           weight_of (weight_totals (jc_panel art)) (jc_verdict art))%Q).
Proof.
  intros (Hp & Hne & Hsh & Hv & _)%buildJudgeConsensus_Ok Hnv.
  pose proof (normalizePanel_weights _ _ Hp) as Hpos.
  pose proof (λ v, weight_positive (jc_panel art) v Hpos) as Hw.
  pose proof (unanimous_iff _ Hne) as Hun.
  assert (∀ v, (∀ e, e ∈ jc_panel art → pe_verdict e = v) →
    (0 < weight_of (weight_totals (jc_panel art)) v)%Q ∧
    ∀ u, u ≠ v → ¬ (0 < weight_of (weight_totals (jc_panel art)) u)%Q) as Honly.
  { intros v Hall. split.
    - apply Hw. destruct (jc_panel art) as [|e l]; [done|]. exists e. split; [by left|].
      apply Hall. by left.
    - intros u Hu (e & He & Hve)%Hw. apply Hu. rewrite <- Hve. auto. }
  set (t := weight_totals (jc_panel art)) in *.
  destruct (vetoCandidate (jc_panel art)) as [c|] eqn:Ec; [by rewrite Hsh in Hnv|].
  unfold classifyAgreementShape in Hsh. rewrite Hsh in Hv. split.
  - intros v Hall. destruct (Honly v Hall) as [Hvp Hoth].
    rewrite bool_decide_eq_true_2 in Hv by (apply Hun; by exists v). rewrite Hv. simpl.
    fold t. unfold q_positive.
    assert (∀ u, Qle_bool (weight_of t u) 0 = negb (bool_decide (u = v))) as Hle.
    { intros u. destruct (decide (u = v)) as [->|Eu].
      - rewrite bool_decide_eq_true_2 by done. destruct (Qle_bool _ _) eqn:E; [|done].
        apply Qle_bool_iff in E. lra.
      - rewrite bool_decide_eq_false_2 by done. apply Qle_bool_iff.
        specialize (Hoth u Eu). lra. }
    pose proof (Hle v_accept) as H1. pose proof (Hle v_repair) as H2. simpl in H1, H2.
    rewrite H1, H2. by destruct v.
  - intros Hnr.
    assert (∀ v, (∀ u, weight_of t u <= weight_of t v)%Q → ∃ e, e ∈ jc_panel art ∧ pe_verdict e = v)
      as Hcast.
    { intros v Hmax. apply Hw. destruct (jc_panel art) as [|e l] eqn:El; [done|].
      specialize (Hmax (pe_verdict e)).
      assert (0 < weight_of t (pe_verdict e))%Q; [|lra]. apply Hw. exists e. split; [by left|done]. }
    enough (∀ v, (weight_of t v <= weight_of t (jc_verdict art))%Q) by auto.
    case_bool_decide as Eu.
    + apply Hun in Eu as [v Hall]. destruct (Honly v Hall) as [Hvp Hoth].
      assert (jc_verdict art = v) as ->.
      { rewrite Hv. simpl. fold t. unfold q_positive.
        destruct (Qle_bool (w_accept t) 0) eqn:E1, (Qle_bool (w_repair t) 0) eqn:E2; apply_Qle; simpl;
          destruct v; simpl in *; try done; exfalso;
          first [lra | apply (Hoth v_accept); [done|simpl; lra]
                | apply (Hoth v_repair); [done|simpl; lra]]. }
      intros u. destruct (decide (u = v)) as [->|Hne']; [lra|]. specialize (Hoth u Hne'). lra.
    + case_bool_decide; [|by rewrite Hv in Hnr].
      destruct (heaviest_head t) as (v & l & Hh & Hmax).
      simpl in Hv. fold t in Hv. rewrite Hh in Hv. simpl in Hv.
      destruct (_ && _ && _) in Hv; [by rewrite Hv in Hnr|]. by rewrite Hv.
Qed.

(** The findings and repair instructions of the artifact are within their
    length limits, an instruction that was clipped is marked, no two of them
    have the same key, they are sorted, and none of the panel's is lost. *)
Theorem consensus_findings_deduplicated input art :
  buildJudgeConsensus input = Ok art →
  Forall (λ i, (String.length (ri_instruction i) ≤ LIMIT_INSTRUCTION)%nat ∧
               (String.length (ri_path i) ≤ LIMIT_PATH)%nat) (jc_repairInstructions art) ∧
  Forall (λ f, (String.length (fi_message f) ≤ LIMIT_MESSAGE)%nat) (jc_activeFindings art) ∧
  NoDup (instruction_key <$> jc_repairInstructions art) ∧
  NoDup (finding_key <$> jc_activeFindings art) ∧
  StronglySorted (cmp_le compareInstruction) (jc_repairInstructions art) ∧
  (∀ e i, e ∈ jc_panel art → i ∈ pe_repairInstructions e →
     ∃ j, j ∈ jc_repairInstructions art ∧ instruction_key j = instruction_key (normalizeInstruction i)) ∧
  (∀ e f, e ∈ jc_panel art → f ∈ pe_findings e →
     ∃ g, g ∈ jc_activeFindings art ∧ finding_key g = finding_key (normalizeActiveFinding f)).
Proof.
  intros (_ & _ & _ & _ & Hf & Hi)%buildJudgeConsensus_Ok. rewrite Hf, Hi.
  unfold dedupeRepairInstructions, dedupeFindings.
  destruct (dedupe_by_spec instruction_key
    (normalizeInstruction <$> flat_map pe_repairInstructions (jc_panel art))) as (Hi1 & Hi2 & Hi3).
  destruct (dedupe_by_spec finding_key
    (normalizeActiveFinding <$> flat_map pe_findings (jc_panel art))) as (Hf1 & Hf2 & Hf3).
  split; [|split; [|split; [|split; [|split; [|split]]]]].
  - rewrite js_sort_Permutation. apply Forall_forall. intros i (j & -> & _)%Hi2%list_elem_of_fmap.
    unfold normalizeInstruction, truncateInstruction, truncatePath.
    destruct (truncateWithEllipsis_length (ri_instruction j) LIMIT_INSTRUCTION) as [H1 _];
      [unfold LIMIT_INSTRUCTION; lia|].
    destruct (truncateWithEllipsis (ri_instruction j) LIMIT_INSTRUCTION). simpl in *.
    split; [done|]. apply truncateWithEllipsis_length. unfold LIMIT_PATH. lia.
  - rewrite js_sort_Permutation. apply Forall_forall. intros i (j & -> & _)%Hf2%list_elem_of_fmap.
    simpl. apply truncateWithEllipsis_length. unfold LIMIT_MESSAGE. lia.
  - by rewrite js_sort_Permutation.
  - by rewrite js_sort_Permutation.
  - apply js_sort_sorted. unfold compareInstruction. apply _.
  - intros e i He Hin. assert (instruction_key (normalizeInstruction i) ∈ instruction_key <$>
      dedupe_by instruction_key (normalizeInstruction <$> flat_map pe_repairInstructions (jc_panel art)))
      as (j & Hk & Hj)%list_elem_of_fmap.
    { apply Hi3, list_elem_of_fmap_2, list_elem_of_In, in_flat_map. exists e.
      by rewrite <- !list_elem_of_In. }
    exists j. by rewrite elem_of_js_sort.
  - intros e f He Hin. assert (finding_key (normalizeActiveFinding f) ∈ finding_key <$>
      dedupe_by finding_key (normalizeActiveFinding <$> flat_map pe_findings (jc_panel art)))
      as (j & Hk & Hj)%list_elem_of_fmap.
    { apply Hf3, list_elem_of_fmap_2, list_elem_of_In, in_flat_map. exists e.
      by rewrite <- !list_elem_of_In. }
    exists j. by rewrite elem_of_js_sort.
Qed.
End consensus.

(** ** Concrete panels *)

Definition finding (code category : string) : Finding :=
  {| fi_scope := None; fi_testCaseId := "tc-1"; fi_code := code; fi_message := "m";
     fi_severity := None; fi_category := category |}.

Definition vote (judgeId : string) (v : Verdict) (weight confidence : Q) (fs : list Finding) :
    RawPanelEntry :=
  {| rw_judgeId := judgeId; rw_verdict := v; rw_weight := Fin weight;
     rw_confidence := Some (Fin confidence); rw_findings := fs; rw_repairInstructions := [];
     rw_truncatedInstructionCount := None; rw_family := None; rw_region := None;
     rw_modelId := None; rw_promptVersion := None |}.

Definition consensus_on (panel : list RawPanelEntry) : outcome ConsensusError ConsensusVerdict :=
  @buildJudgeConsensus code_unit_collation
    {| bi_jobId := "job"; bi_generatedAt := "t"; bi_panel := panel; bi_repairHistory := None; bi_humanReview := None;
       bi_crossFamilyOptions := None |}.

(** The verdict and the shape of a consensus. *)
Definition summary (r : outcome ConsensusError ConsensusVerdict) :
    option (Verdict * AgreementShape) :=
  match r with Ok a => Some (jc_verdict a, jc_agreementShape a) | Throw _ => None end.

(** One more rejecting judge can turn [repair] into [accept]: three accepting
    judges and one that asks for repair resolve to repair, and adding a judge
    that rejects with little confidence resolves to accept. *)
Theorem extra_reject_turns_repair_into_accept :
  let four := [vote "a" v_accept 1 1 []; vote "b" v_accept 1 1 []; vote "c" v_accept 1 1 [];
               vote "d" v_repair 1 1 []] in
  summary (consensus_on four) = Some (v_repair, sh_majority) ∧
  summary (consensus_on (four ++ [vote "e" v_reject 1 (1 # 2) []])) = Some (v_accept, sh_majority).
Proof. split; vm_compute; reflexivity. Qed.

(** Two judges out of three reject with little confidence, the accepting one
    weighs as much as both, and the panel accepts: a tie of weights between
    accept and reject goes to accept. *)
Theorem weight_tie_accepts_rejected_case :
  summary (consensus_on [vote "a" v_accept 2 1 []; vote "b" v_reject 1 (1 # 2) [];
                         vote "c" v_reject 1 (1 # 2) []]) = Some (v_accept, sh_majority).
Proof. vm_compute. reflexivity. Qed.

(** A veto can accept: an accepting faithfulness judge that reports a
    mismatch vetoes two judges that reject with little confidence, and the
    verdict of the vetoed panel is [accept]. *)
Theorem veto_can_accept :
  summary (consensus_on
    [vote "faithfulness_judge" v_accept 1 1 [finding "x" "cross_modal_mismatch"];
     vote "b" v_reject 1 (1 # 2) []; vote "c" v_reject 1 (1 # 2) []]) =
  Some (v_accept, sh_vetoed).
Proof. vm_compute. reflexivity. Qed.

(** ** Witnesses *)

Definition rejecting_panel : list RawPanelEntry :=
  [vote "a" v_accept 5 1 []; vote "b" v_accept 5 1 []; vote "logic_judge" v_reject 1 1 []].

Lemma confident_reject_decides_witness :
  ∃ art, consensus_on rejecting_panel = Ok art ∧ jc_verdict art = v_reject.
Proof.
  eexists. split; [vm_compute; reflexivity|].
  eapply (@confident_reject_decides code_unit_collation
    {| bi_jobId := "job"; bi_generatedAt := "t"; bi_panel := rejecting_panel;
       bi_repairHistory := None; bi_humanReview := None; bi_crossFamilyOptions := None |});
    [vm_compute; reflexivity|right; right; left|reflexivity].
Defined.

Definition accepting_panel : list RawPanelEntry :=
  [vote "a" v_accept 2 1 []; vote "b" v_accept 1 1 []; vote "c" v_reject 1 (1 # 2) []].

Lemma vote_without_veto_witness :
  ∃ art, consensus_on accepting_panel = Ok art ∧ ∃ e, e ∈ jc_panel art ∧ pe_verdict e = v_accept.
Proof.
  eexists. split; [vm_compute; reflexivity|].
  edestruct (@vote_without_veto code_unit_collation
    {| bi_jobId := "job"; bi_generatedAt := "t"; bi_panel := accepting_panel;
       bi_repairHistory := None; bi_humanReview := None; bi_crossFamilyOptions := None |}) as [_ Hr];
    [vm_compute; reflexivity|discriminate|].
  destruct Hr as [He _]; [discriminate|exact He].
Defined.

Lemma consensus_findings_deduplicated_witness :
  ∃ art, consensus_on [vote "a" v_repair 1 1 [finding "x" "other"; finding "x" "other"]] = Ok art ∧
         length (jc_activeFindings art) = 1%nat ∧ NoDup (finding_key <$> jc_activeFindings art).
Proof.
  eexists. split; [vm_compute; reflexivity|]. split; [reflexivity|].
  eapply (@consensus_findings_deduplicated code_unit_collation
    {| bi_jobId := "job"; bi_generatedAt := "t";
       bi_panel := [vote "a" v_repair 1 1 [finding "x" "other"; finding "x" "other"]];
       bi_repairHistory := None; bi_humanReview := None; bi_crossFamilyOptions := None |}).
  vm_compute. reflexivity.
Defined.
