(* ===== verification/AgentRoleProfile.v ===== *)
(** * Agent role profiles

    [packages/model-gateway/src/agent-role-profile.ts]: the registry of the roles
    the agent harness may run, each with its attempt and token budget, its
    capability and, for language-model roles, its prompt version and model. A
    candidate profile has any strings and numbers; the registry is built when the
    module is loaded, and building it may throw. *)

From S2P Require Import Prelude JsString JsList JsValue CanonicalJson Contracts JsonView CrossFamily.

(** ** Vocabulary *)

Definition AGENT_ROLE_PROFILE_SCHEMA_VERSION : string := "1.0.0".

Inductive AgentHarnessRole : Type :=
| role_action_topology | role_adversarial_critic | role_adversarial_gap_finder | role_final_verifier
| role_generator | role_human_review | role_logic_judge | role_repair_planner | role_semantic_judge
| role_visual_sidecar.

#[export] Instance AgentHarnessRole_eq_dec : EqDecision AgentHarnessRole.
Proof. solve_decision. Defined.

Definition AgentHarnessRole_label (r : AgentHarnessRole) : string :=
  match r with
  | role_action_topology => "action_topology"
  | role_adversarial_critic => "adversarial_critic"
  | role_adversarial_gap_finder => "adversarial_gap_finder"
  | role_final_verifier => "final_verifier"
  | role_generator => "generator"
  | role_human_review => "human_review"
  | role_logic_judge => "logic_judge"
  | role_repair_planner => "repair_planner"
  | role_semantic_judge => "semantic_judge"
  | role_visual_sidecar => "visual_sidecar"
  end.

Definition AGENT_HARNESS_ROLES : list AgentHarnessRole :=
  [role_action_topology; role_adversarial_critic; role_adversarial_gap_finder; role_final_verifier;
   role_generator; role_human_review; role_logic_judge; role_repair_planner; role_semantic_judge;
   role_visual_sidecar].

#[export] Program Instance AgentHarnessRole_Label : Label AgentHarnessRole :=
  {| label := AgentHarnessRole_label; labels := AGENT_HARNESS_ROLES |}.
Next Obligation. solve_label_complete. Qed.
Next Obligation. solve_label_distinct. Qed.

Definition AGENT_ROLE_CAPABILITIES : list string :=
  ["none"; "propose_changes"; "read_artifacts"; "score_only"].
Definition AGENT_ROLE_KINDS : list string := ["deterministic_service"; "llm_role"].
Definition AGENT_ROLE_FINOPS_GROUPS : list string :=
  ["adversarial"; "generation"; "judge"; "repair"; "verification"; "visual"].
Definition AGENT_ROLE_MAX_ATTEMPT_VALUES : list jsnum := [num 1; num 2; num 3].

(** ** Profiles *)

Record AgentModelBinding := {
  amb_providerId : string;
  amb_modelId : string;
  amb_inferenceProfileId : option string;
  amb_ictRegisterRef : option string;
  amb_family : option string;
  amb_region : option string;
}.

Record AgentRoleProfile := {
  arp_schemaVersion : string;
  arp_role : string;
  arp_roleKind : string;
  arp_promptVersion : option string;
  arp_modelBinding : option AgentModelBinding;
  arp_outputSchema : string;
  arp_maxAttempts : jsnum;
  arp_maxInputTokens : jsnum;
  arp_maxOutputTokens : jsnum;
  arp_capability : string;
  arp_finOpsGroup : string;
}.

Definition LLM_ROLE_FORBIDDEN_CAPABILITIES : list string := ["propose_changes"].

Inductive ProfileError : Type :=
| pf_schema_version | pf_role | pf_role_kind | pf_capability | pf_finops_group | pf_max_attempts
| pf_max_input_tokens | pf_max_output_tokens | pf_output_schema | pf_llm_capability
| pf_prompt_version | pf_model_binding | pf_token_budget | pf_service_prompt_version
| pf_service_model_binding | pf_provider_id | pf_model_id | pf_inference_profile | pf_ict_register
| pf_family | pf_region.

#[export] Instance ProfileError_eq_dec : EqDecision ProfileError.
Proof. solve_decision. Defined.

(** [includes] of an array of numbers. *)
Definition includes_number (n : jsnum) (xs : list jsnum) : bool := existsb (Number.eqb n) xs.

Definition known {A} `{Label A} (s : string) : bool := bool_decide (is_Some (parse_label (A := A) s)).

Definition assertAgentModelBindingInvariants (binding : AgentModelBinding) : outcome ProfileError unit :=
  (guard_throw (bool_decide (amb_providerId binding = "")) pf_provider_id ;;;
   guard_throw (bool_decide (amb_modelId binding = "")) pf_model_id ;;;
   guard_throw (bool_decide (amb_inferenceProfileId binding = Some "")) pf_inference_profile ;;;
   guard_throw (bool_decide (amb_ictRegisterRef binding = Some "")) pf_ict_register ;;;
   guard_throw (negb (default true (known (A := JudgeModelFamily) <$> amb_family binding))) pf_family ;;;
   guard_throw (negb (default true (known (A := JudgeModelRegion) <$> amb_region binding))) pf_region)%outcome.

Definition is_token_budget (n : jsnum) : bool := Number.isInteger n && negb (Number.ltb n (num 0)).

Definition assertAgentRoleProfileInvariants (profile : AgentRoleProfile) : outcome ProfileError unit :=
  (guard_throw (bool_decide (arp_schemaVersion profile ≠ AGENT_ROLE_PROFILE_SCHEMA_VERSION))
     pf_schema_version ;;;
   guard_throw (negb (known (A := AgentHarnessRole) (arp_role profile))) pf_role ;;;
   guard_throw (bool_decide (arp_roleKind profile ∉ AGENT_ROLE_KINDS)) pf_role_kind ;;;
   guard_throw (bool_decide (arp_capability profile ∉ AGENT_ROLE_CAPABILITIES)) pf_capability ;;;
   guard_throw (bool_decide (arp_finOpsGroup profile ∉ AGENT_ROLE_FINOPS_GROUPS)) pf_finops_group ;;;
   guard_throw (negb (includes_number (arp_maxAttempts profile) AGENT_ROLE_MAX_ATTEMPT_VALUES))
     pf_max_attempts ;;;
   guard_throw (negb (is_token_budget (arp_maxInputTokens profile))) pf_max_input_tokens ;;;
   guard_throw (negb (is_token_budget (arp_maxOutputTokens profile))) pf_max_output_tokens ;;;
   guard_throw (bool_decide (arp_outputSchema profile = "")) pf_output_schema ;;;
   if bool_decide (arp_roleKind profile = "llm_role") then
     guard_throw (bool_decide (arp_capability profile ∈ LLM_ROLE_FORBIDDEN_CAPABILITIES))
       pf_llm_capability ;;;
     guard_throw (bool_decide (arp_promptVersion profile = None ∨ arp_promptVersion profile = Some ""))
       pf_prompt_version ;;;
     match arp_modelBinding profile with
     | None => Throw pf_model_binding
     | Some binding => assertAgentModelBindingInvariants binding
     end ;;;
     guard_throw (Number.eqb (arp_maxInputTokens profile) (num 0)
                  || Number.eqb (arp_maxOutputTokens profile) (num 0)) pf_token_budget
   else
     guard_throw (bool_decide (is_Some (arp_promptVersion profile))) pf_service_prompt_version ;;;
     guard_throw (match arp_modelBinding profile with None => false | Some _ => true end)
       pf_service_model_binding)%outcome.

(** The copies keep every property, and absent ones absent. *)
Definition freezeBinding (binding : AgentModelBinding) : AgentModelBinding :=
  {| amb_providerId := amb_providerId binding; amb_modelId := amb_modelId binding;
     amb_inferenceProfileId := amb_inferenceProfileId binding;
     amb_ictRegisterRef := amb_ictRegisterRef binding;
     amb_family := amb_family binding; amb_region := amb_region binding |}.

Definition freezeProfile (profile : AgentRoleProfile) : outcome ProfileError AgentRoleProfile :=
  (assertAgentRoleProfileInvariants profile ;;;
   Ok {| arp_schemaVersion := arp_schemaVersion profile; arp_role := arp_role profile;
         arp_roleKind := arp_roleKind profile; arp_promptVersion := arp_promptVersion profile;
         arp_modelBinding := freezeBinding <$> arp_modelBinding profile;
         arp_outputSchema := arp_outputSchema profile; arp_maxAttempts := arp_maxAttempts profile;
         arp_maxInputTokens := arp_maxInputTokens profile;
         arp_maxOutputTokens := arp_maxOutputTokens profile;
         arp_capability := arp_capability profile; arp_finOpsGroup := arp_finOpsGroup profile |})%outcome.

(** ** The registry *)

Definition service_profile (role : string) (outputSchema : string) (finOpsGroup : string) : AgentRoleProfile :=
  {| arp_schemaVersion := AGENT_ROLE_PROFILE_SCHEMA_VERSION; arp_role := role;
     arp_roleKind := "deterministic_service"; arp_promptVersion := None; arp_modelBinding := None;
     arp_outputSchema := outputSchema; arp_maxAttempts := num 1; arp_maxInputTokens := num 0;
     arp_maxOutputTokens := num 0; arp_capability := "read_artifacts"; arp_finOpsGroup := finOpsGroup |}.

Definition in_house (modelId : string) (family region : option string) : AgentModelBinding :=
  {| amb_providerId := "in-house"; amb_modelId := modelId; amb_inferenceProfileId := None;
     amb_ictRegisterRef := None; amb_family := family; amb_region := region |}.

Definition llm_profile (role promptVersion : string) (binding : AgentModelBinding) (outputSchema : string)
    (maxAttempts maxInputTokens maxOutputTokens : Z) (capability finOpsGroup : string) : AgentRoleProfile :=
  {| arp_schemaVersion := AGENT_ROLE_PROFILE_SCHEMA_VERSION; arp_role := role; arp_roleKind := "llm_role";
     arp_promptVersion := Some promptVersion; arp_modelBinding := Some binding;
     arp_outputSchema := outputSchema; arp_maxAttempts := num maxAttempts;
     arp_maxInputTokens := num maxInputTokens; arp_maxOutputTokens := num maxOutputTokens;
     arp_capability := capability; arp_finOpsGroup := finOpsGroup |}.

Definition VISUAL_SIDECAR_PROFILE : outcome ProfileError AgentRoleProfile :=
  freezeProfile (service_profile "visual_sidecar" "visual-sidecar-result.v1" "visual").
Definition ACTION_TOPOLOGY_PROFILE : outcome ProfileError AgentRoleProfile :=
  freezeProfile (service_profile "action_topology" "workflow-topology.v1" "generation").
Definition ADVERSARIAL_CRITIC_PROFILE : outcome ProfileError AgentRoleProfile :=
  freezeProfile (llm_profile "adversarial_critic" "adversarial-critic.v1" (in_house "phi-4" None None)
                   "adversarial-critic-findings.v1" 2 8000 2000 "read_artifacts" "adversarial").
Definition GENERATOR_PROFILE : outcome ProfileError AgentRoleProfile :=
  freezeProfile (llm_profile "generator" "generator.v1" (in_house "gpt-oss-120b" None None)
                   "generated-test-cases.v1" 2 32000 8000 "read_artifacts" "generation").
Definition LOGIC_JUDGE_PROFILE : outcome ProfileError AgentRoleProfile :=
  freezeProfile (llm_profile "logic_judge" "logic-judge.v1"
                   (in_house "gpt-oss-120b" (Some "in-house") (Some "eu"))
                   "logic-judge-verdict.v1" 2 24000 4000 "score_only" "judge").
Definition SEMANTIC_JUDGE_PROFILE : outcome ProfileError AgentRoleProfile :=
  freezeProfile (llm_profile "semantic_judge" "semantic-judge.v1"
                   (in_house "gpt-oss-120b" (Some "in-house") (Some "eu"))
                   "judge-panel-verdict.v1" 2 24000 4000 "score_only" "judge").
Definition HUMAN_REVIEW_PROFILE : outcome ProfileError AgentRoleProfile :=
  freezeProfile (service_profile "human_review" "human-review-decision.v1" "judge").
Definition ADVERSARIAL_GAP_FINDER_PROFILE : outcome ProfileError AgentRoleProfile :=
  freezeProfile (llm_profile "adversarial_gap_finder" "gap-finder.v1" (in_house "phi-4" None None)
                   "gap-finder-findings.v1" 2 24000 4000 "read_artifacts" "judge").
Definition REPAIR_PLANNER_PROFILE : outcome ProfileError AgentRoleProfile :=
  freezeProfile (llm_profile "repair_planner" "repair-planner.v1" (in_house "gpt-oss-120b" None None)
                   "repair-plan.v1" 3 24000 6000 "read_artifacts" "repair").
Definition FINAL_VERIFIER_PROFILE : outcome ProfileError AgentRoleProfile :=
  freezeProfile (service_profile "final_verifier" "final-verifier-report.v1" "verification").

(** [REGISTRY_OBJECT[role]]: a property of the registry object. *)
Definition registry_entry (role : AgentHarnessRole) : outcome ProfileError AgentRoleProfile :=
  match role with
  | role_action_topology => ACTION_TOPOLOGY_PROFILE
  | role_adversarial_critic => ADVERSARIAL_CRITIC_PROFILE
  | role_adversarial_gap_finder => ADVERSARIAL_GAP_FINDER_PROFILE
  | role_final_verifier => FINAL_VERIFIER_PROFILE
  | role_generator => GENERATOR_PROFILE
  | role_human_review => HUMAN_REVIEW_PROFILE
  | role_logic_judge => LOGIC_JUDGE_PROFILE
  | role_repair_planner => REPAIR_PLANNER_PROFILE
  | role_semantic_judge => SEMANTIC_JUDGE_PROFILE
  | role_visual_sidecar => VISUAL_SIDECAR_PROFILE
  end.

Definition getAgentRoleProfile (role : AgentHarnessRole) : outcome ProfileError AgentRoleProfile :=
  registry_entry role.

Fixpoint outcome_map_list {E A B} (f : A → outcome E B) (l : list A) : outcome E (list B) :=
  match l with
  | [] => Ok []
  | x :: r => (let* y := f x in let* ys := outcome_map_list f r in Ok (y :: ys))%outcome
  end.

Definition listAgentRoleProfiles : outcome ProfileError (list AgentRoleProfile) :=
  outcome_map_list registry_entry AGENT_HARNESS_ROLES.

(** ** Serialization *)

Definition binding_json (b : AgentModelBinding) : json :=
  JObject (Json.literal
    [("providerId", Some (JString (amb_providerId b)));
     ("modelId", Some (JString (amb_modelId b)));
     ("inferenceProfileId", JString <$> amb_inferenceProfileId b);
     ("ictRegisterRef", JString <$> amb_ictRegisterRef b);
     ("family", JString <$> amb_family b);
     ("region", JString <$> amb_region b)]).

Definition profile_json (p : AgentRoleProfile) : json :=
  JObject (Json.literal
    [("schemaVersion", Some (JString (arp_schemaVersion p)));
     ("role", Some (JString (arp_role p)));
     ("roleKind", Some (JString (arp_roleKind p)));
     ("promptVersion", JString <$> arp_promptVersion p);
     ("modelBinding", binding_json <$> arp_modelBinding p);
     ("outputSchema", Some (JString (arp_outputSchema p)));
     ("maxAttempts", Some (json_of_number (arp_maxAttempts p)));
     ("maxInputTokens", Some (json_of_number (arp_maxInputTokens p)));
     ("maxOutputTokens", Some (json_of_number (arp_maxOutputTokens p)));
     ("capability", Some (JString (arp_capability p)));
     ("finOpsGroup", Some (JString (arp_finOpsGroup p)))]).

Definition serializeAgentRoleProfile (profile : AgentRoleProfile) : json := canonicalJson (profile_json profile).

(** ** Diversity passes of the generator *)

Record GeneratorDiversityPassProfile := {
  gd_passId : string;
  gd_roleRunId : string;
  gd_seed : Z;
  gd_bias : string;
}.

Definition GENERATOR_DIVERSITY_PASS_PROFILES : list GeneratorDiversityPassProfile :=
  [{| gd_passId := "a"; gd_roleRunId := "generator-run-a"; gd_seed := 11;
      gd_bias := "Bias this pass toward positive flows, successful completions, happy paths, and boundary values that confirm valid business behaviour." |};
   {| gd_passId := "b"; gd_roleRunId := "generator-run-b"; gd_seed := 29;
      gd_bias := "Bias this pass toward negative flows, state transitions, invalid actions, and recovery/error-handling coverage that challenges the workflow." |};
   {| gd_passId := "c"; gd_roleRunId := "generator-run-c"; gd_seed := 47;
      gd_bias := "Bias this pass toward reviewer-sensitive ambiguity: unresolved rules, evidence gaps, accessibility edge cases, and cases that must stay generic until the source evidence becomes explicit." |}].

(** [diversityPasses] is 1, 2 or 3. *)
Definition listGeneratorDiversityPassProfiles (diversityPasses : nat) : list GeneratorDiversityPassProfile :=
  if (diversityPasses =? 1)%nat then [] else take diversityPasses GENERATOR_DIVERSITY_PASS_PROFILES.

(** ** What an accepted profile is *)

Definition optional_nonempty (s : option string) : Prop := s ≠ Some "".

Record valid_binding (b : AgentModelBinding) : Prop := {
  vb_providerId : amb_providerId b ≠ "";
  vb_modelId : amb_modelId b ≠ "";
  vb_inferenceProfileId : optional_nonempty (amb_inferenceProfileId b);
  vb_ictRegisterRef : optional_nonempty (amb_ictRegisterRef b);
  vb_family f : amb_family b = Some f → ∃ family : JudgeModelFamily, f = label family;
  vb_region r : amb_region b = Some r → ∃ region : JudgeModelRegion, r = label region;
}.

(** A profile of a language-model role, and one of a deterministic service. *)
Definition valid_llm_role (p : AgentRoleProfile) : Prop :=
  arp_roleKind p = "llm_role" ∧ arp_capability p ≠ "propose_changes" ∧
  (∃ v, arp_promptVersion p = Some v ∧ v ≠ "") ∧
  (∃ b, arp_modelBinding p = Some b ∧ valid_binding b) ∧
  Number.eqb (arp_maxInputTokens p) (num 0) = false ∧ Number.eqb (arp_maxOutputTokens p) (num 0) = false.

Definition valid_service (p : AgentRoleProfile) : Prop :=
  arp_roleKind p = "deterministic_service" ∧ arp_promptVersion p = None ∧ arp_modelBinding p = None.

Record valid_profile (p : AgentRoleProfile) : Prop := {
  vp_schemaVersion : arp_schemaVersion p = AGENT_ROLE_PROFILE_SCHEMA_VERSION;
  vp_role : ∃ role : AgentHarnessRole, arp_role p = label role;
  vp_capability : arp_capability p ∈ AGENT_ROLE_CAPABILITIES;
  vp_finOpsGroup : arp_finOpsGroup p ∈ AGENT_ROLE_FINOPS_GROUPS;
  vp_outputSchema : arp_outputSchema p ≠ "";
  vp_maxAttempts : includes_number (arp_maxAttempts p) AGENT_ROLE_MAX_ATTEMPT_VALUES = true;
  vp_maxInputTokens : is_token_budget (arp_maxInputTokens p) = true;
  vp_maxOutputTokens : is_token_budget (arp_maxOutputTokens p) = true;
  vp_kind : valid_llm_role p ∨ valid_service p;
}.

(** ** Lemmas *)

Lemma known_label {A} `{Label A} s : known (A := A) s = true ↔ ∃ a : A, s = label a.
Proof.
  unfold known. rewrite bool_decide_eq_true. split.
  - intros [a Ha]. exists a. by apply parse_label_Some.
  - intros [a ->]. rewrite parse_label_label. by eexists.
Qed.

Lemma known_optional {A} `{Label A} (o : option string) :
  negb (default true (known (A := A) <$> o)) = false ↔ ∀ s, o = Some s → ∃ a : A, s = label a.
Proof.
  rewrite negb_false_iff. destruct o as [s|]; simpl; [rewrite known_label|]; naive_solver.
Qed.

Lemma binding_accepted_iff b : assertAgentModelBindingInvariants b = Ok tt ↔ valid_binding b.
Proof.
  unfold assertAgentModelBindingInvariants.
  rewrite !outcome_then_Ok, !guard_throw_Ok, !known_optional, !bool_decide_eq_false.
  unfold optional_nonempty. split; [intros (? & ? & ? & ? & ? & ?); by constructor|].
  intros []. by split_all.
Qed.

(** A profile is accepted exactly when it is valid. *)
Lemma profile_accepted_iff p : assertAgentRoleProfileInvariants p = Ok tt ↔ valid_profile p.
Proof.
  unfold assertAgentRoleProfileInvariants.
  rewrite !outcome_then_Ok, !guard_throw_Ok, !negb_false_iff, !bool_decide_eq_false, known_label.
  split.
  - intros (Hv & Hr & Hk & Hc & Hf & Hm & Hi & Ho & Hs & Hb).
    constructor; try done; try (apply dec_stable; done).
    case_bool_decide as Hkind.
    + left. rewrite !outcome_then_Ok, !guard_throw_Ok, !bool_decide_eq_false, orb_false_iff in Hb.
      destruct Hb as (Hcap & Hp & Hbd & H0 & H1). unfold LLM_ROLE_FORBIDDEN_CAPABILITIES in Hcap.
      destruct (arp_modelBinding p) as [b|] eqn:Eb; [|done]. apply binding_accepted_iff in Hbd.
      unfold valid_llm_role. rewrite Eb. split_all; try done; [set_solver| |by eauto].
      destruct (arp_promptVersion p) as [v|]; [|naive_solver]. exists v. naive_solver.
    + right. rewrite !outcome_then_Ok, !guard_throw_Ok, !bool_decide_eq_false in Hb.
      destruct Hb as (Hp & Hbd). unfold valid_service.
      assert (arp_roleKind p ∈ AGENT_ROLE_KINDS) as Hin by by apply dec_stable.
      split_all.
      * unfold AGENT_ROLE_KINDS in Hin. set_solver.
      * by apply eq_None_not_Some.
      * by destruct (arp_modelBinding p).
  - intros [Hv Hr Hc Hf Hs Hm Hi Ho Hkind].
    assert (arp_roleKind p ∈ AGENT_ROLE_KINDS) as Hk.
    { unfold AGENT_ROLE_KINDS. destruct Hkind as [(-> & _)|(-> & _)]; set_solver. }
    split_all; try tauto; try done.
    destruct Hkind as [(-> & Hcap & (v & -> & Hne) & (b & -> & Hb) & H0 & H1)|(-> & -> & ->)]; [|done].
    rewrite bool_decide_eq_true_2 by done. apply binding_accepted_iff in Hb.
    rewrite !outcome_then_Ok, !guard_throw_Ok, !bool_decide_eq_false, Hb, H0, H1.
    unfold LLM_ROLE_FORBIDDEN_CAPABILITIES. split_all; try done; [set_solver|naive_solver].
Qed.

Lemma freezeBinding_id b : freezeBinding b = b.
Proof. by destruct b. Qed.

Lemma freezeProfile_Ok p q : freezeProfile p = Ok q ↔ valid_profile p ∧ q = p.
Proof.
  unfold freezeProfile. rewrite outcome_then_Ok, profile_accepted_iff.
  assert (freezeBinding <$> arp_modelBinding p = arp_modelBinding p) as ->
    by (destruct (arp_modelBinding p) as [[]|]; done).
  destruct p; simpl. naive_solver.
Qed.

Lemma registry_entry_Ok role :
  ∃ p, registry_entry role = Ok p ∧ arp_role p = label role ∧ valid_profile p.
Proof.
  assert (∃ p, registry_entry role = Ok p ∧ arp_role p = label role ∧
               assertAgentRoleProfileInvariants p = Ok tt) as (p & E & Hr & Ha).
  { destruct role; eexists; (split; [vm_compute; reflexivity|]); split; vm_compute; reflexivity. }
  exists p. by rewrite <- profile_accepted_iff.
Qed.

(** Reading a profile back from its text. *)
Definition as_number (v : json) : option jsnum := match v with JNumber q => Some (Fin q) | _ => None end.

Definition as_binding (v : json) : option AgentModelBinding :=
  providerId ← req "providerId" as_string v; modelId ← req "modelId" as_string v;
  inferenceProfileId ← opt "inferenceProfileId" as_string v;
  ictRegisterRef ← opt "ictRegisterRef" as_string v;
  family ← opt "family" as_string v; region ← opt "region" as_string v;
  Some {| amb_providerId := providerId; amb_modelId := modelId;
          amb_inferenceProfileId := inferenceProfileId; amb_ictRegisterRef := ictRegisterRef;
          amb_family := family; amb_region := region |}.

Definition as_profile (v : json) : option AgentRoleProfile :=
  schemaVersion ← req "schemaVersion" as_string v; role ← req "role" as_string v;
  roleKind ← req "roleKind" as_string v; promptVersion ← opt "promptVersion" as_string v;
  modelBinding ← opt "modelBinding" as_binding v; outputSchema ← req "outputSchema" as_string v;
  maxAttempts ← req "maxAttempts" as_number v; maxInputTokens ← req "maxInputTokens" as_number v;
  maxOutputTokens ← req "maxOutputTokens" as_number v;
  capability ← req "capability" as_string v; finOpsGroup ← req "finOpsGroup" as_string v;
  Some {| arp_schemaVersion := schemaVersion; arp_role := role; arp_roleKind := roleKind;
          arp_promptVersion := promptVersion; arp_modelBinding := modelBinding;
          arp_outputSchema := outputSchema; arp_maxAttempts := maxAttempts;
          arp_maxInputTokens := maxInputTokens; arp_maxOutputTokens := maxOutputTokens;
          arp_capability := capability; arp_finOpsGroup := finOpsGroup |}.

Lemma binding_typed b : as_binding (canonicalJson (binding_json b)) = Some b.
Proof.
  unfold as_binding, binding_json. do 2 typed_req JString. do 4 typed_opt JString. by destruct b.
Qed.

Lemma number_typed n : Number.isFinite n = true → as_number (canonicalJson (json_of_number n)) = Some n.
Proof. by destruct n. Qed.

Lemma token_budget_finite n : is_token_budget n = true → Number.isFinite n = true.
Proof. by destruct n. Qed.

Lemma attempts_finite n :
  includes_number n AGENT_ROLE_MAX_ATTEMPT_VALUES = true → Number.isFinite n = true.
Proof. by destruct n. Qed.

Lemma valid_profile_finite p :
  valid_profile p →
  Number.isFinite (arp_maxAttempts p) = true ∧ Number.isFinite (arp_maxInputTokens p) = true ∧
  Number.isFinite (arp_maxOutputTokens p) = true.
Proof. intros []. auto using token_budget_finite, attempts_finite. Qed.

(** ** Properties *)

(** Loading the module does not throw: every role has a profile of its own that
    satisfies the invariants, and no language-model role may propose changes or
    runs without a prompt version, a model or a token budget. *)
Theorem every_role_has_a_valid_profile (role : AgentHarnessRole) :
  ∃ p, getAgentRoleProfile role = Ok p ∧ arp_role p = label role ∧
       assertAgentRoleProfileInvariants p = Ok tt ∧
       (arp_roleKind p = "llm_role" →
        arp_capability p ≠ "propose_changes" ∧ is_Some (arp_promptVersion p) ∧
        (∃ b, arp_modelBinding p = Some b) ∧
        Number.ltb (num 0) (arp_maxInputTokens p) = true ∧
        Number.ltb (num 0) (arp_maxOutputTokens p) = true).
Proof.
  destruct (registry_entry_Ok role) as (p & E & Hr & Hv). exists p. split_all; try done.
  { by apply profile_accepted_iff. }
  intros Hk. destruct Hv as [_ _ _ _ _ _ Hi Ho [(_ & Hc & (v & -> & _) & (b & -> & _) & H0 & H1)|(Hs & _)]];
    [|congruence].
  assert (∀ n, is_token_budget n = true → Number.eqb n (num 0) = false → Number.ltb (num 0) n = true) as Hpos.
  { intros n [Hint Hn]%andb_true_iff Hz. apply negb_true_iff in Hn. unfold Number.eqb, Number.ltb in *.
    destruct n as [| | |q]; try done.
    destruct (Number.leb (num 0) (Fin q)) eqn:E1, (Number.leb (Fin q) (num 0)) eqn:E2; try done.
    exfalso. simpl in E1, E2. apply not_true_iff_false in E1, E2. rewrite Qle_bool_iff in E1, E2.
    apply E1, Qlt_le_weak, Qnot_le_lt, E2. }
  split_all; eauto.
Qed.

(** Serializing a valid profile and parsing the text gives the profile back. *)
Theorem profile_text_reads_back p :
  assertAgentRoleProfileInvariants p = Ok tt → as_profile (serializeAgentRoleProfile p) = Some p.
Proof.
  intros (Ha & Hi & Ho)%profile_accepted_iff%valid_profile_finite.
  unfold as_profile, serializeAgentRoleProfile, profile_json. do 3 typed_req JString.
  typed_opt JString. typed_opt binding_json; [|apply binding_typed]. typed_req JString.
  do 3 (typed_req json_of_number; [|by apply number_typed]). do 2 typed_req JString. by destruct p.
Qed.
