(* ===== verification/ArtifactFiles.v ===== *)
(** * Artifact files of the agent harness

    A disk maps the paths [join] makes to texts; a text that is not JSON is
    [None]. [persistStepArtifact] and [writeAgentHarnessCheckpoint] write a file
    the same way: a temporary file named after the writer, renamed over the final
    one. Each call is a step of its own, so a crash leaves one of the states
    [atomic_write_states] lists. *)

From Stdlib Require Import Ascii.
From S2P Require Import Prelude JsString NodePath JsList JsValue.

#[warnings="-notation-for-abbreviation"] Notation disk := (gmap string (option json)).

(** The process id and the fresh UUID a temporary name is made of. *)
Record writer := { wr_pid : string; wr_uuid : string }.

Definition temp_path (final : string) (w : writer) : string :=
  final +:+ "." +:+ wr_pid w +:+ "." +:+ wr_uuid w +:+ ".tmp".

(** [writeFile(tmp, text)], then [rename(tmp, final)]. *)
Definition written (final : string) (w : writer) (text : json) (d : disk) : disk :=
  <[temp_path final w := Some text]> d.
Definition renamed (final : string) (w : writer) (text : json) (d : disk) : disk :=
  <[final := Some text]> (delete (temp_path final w) d).

(** The disk before, between and after the two calls. *)
Definition atomic_write_states (final : string) (w : writer) (text : json) (d : disk) : list disk :=
  [d; written final w text d; renamed final w text d].

(** The names in a directory. *)
Definition entry_name (dir path : string) : option string :=
  let name := base_name path in
  if file_name_ok name && bool_decide (posix_join [dir; name] = path) then Some name else None.

Definition list_directory (d : disk) (dir : string) : list string :=
  omap (entry_name dir) (map_to_list d).*1.

(** [readdir]: these names in an order that is not specified. *)
Class DirectoryListing := {
  readdir : disk → string → list string;
  readdir_lists d dir : readdir d dir ≡ₚ list_directory d dir;
}.

(** The order of the model's map, and its reverse. *)
#[refine] Definition map_order : DirectoryListing := {| readdir := list_directory |}.
Proof. done. Defined.
#[refine] Definition reverse_order : DirectoryListing := {| readdir d dir := reverse (list_directory d dir) |}.
Proof. intros d dir. apply reverse_Permutation. Defined.

(** ** Lemmas *)

Lemma temp_path_ne final w : temp_path final w ≠ final.
Proof.
  unfold temp_path. intros E. apply (f_equal String.length) in E.
  rewrite !length_string_app in E. simpl in E. lia.
Qed.

Lemma temp_path_not_json final w : ends_with ".json" (temp_path final w) = false.
Proof.
  apply not_true_iff_false. rewrite ends_with_spec. intros [r E].
  unfold temp_path in E. rewrite <- !string_app_assoc in E. by apply extension_ne in E.
Qed.

(** The final file is the old one or the new one at every moment, and no other
    file changes but the temporary one, which is gone in the end. *)
Lemma atomic_write_crash_safe final w text d d' :
  d' ∈ atomic_write_states final w text d →
  (d' !! final = d !! final ∨ d' !! final = Some (Some text)) ∧
  (∀ p, p ≠ final → p ≠ temp_path final w → d' !! p = d !! p).
Proof.
  pose proof (temp_path_ne final w) as Ht.
  unfold atomic_write_states, written, renamed. intros Hin.
  repeat (apply elem_of_cons in Hin as [->|Hin]); [..|by apply elem_of_nil in Hin].
  - by split; [left|].
  - split; [left; by rewrite lookup_insert_ne|]. intros p Hp Hq. by rewrite lookup_insert_ne.
  - split; [right; by rewrite lookup_insert_eq|]. intros p Hp Hq.
    by rewrite lookup_insert_ne, lookup_delete_ne.
Qed.

Lemma renamed_final final w text d : renamed final w text d !! final = Some (Some text).
Proof. apply lookup_insert_eq. Qed.

Lemma entry_name_Some dir path name :
  entry_name dir path = Some name ↔ path = posix_join [dir; name] ∧ file_name_ok name = true.
Proof.
  unfold entry_name. destruct (file_name_ok (base_name path)) eqn:Hn; simpl.
  - case_bool_decide as E; [|split; [done|]; intros [-> Hok]; by rewrite base_name_join in E].
    split; [intros [= <-]; by rewrite E|]. intros [-> Hok]. by rewrite base_name_join.
  - split; [done|]. intros [-> Hok]. rewrite base_name_join in Hn by done. congruence.
Qed.

Lemma list_directory_spec d dir name :
  name ∈ list_directory d dir ↔ file_name_ok name = true ∧ is_Some (d !! posix_join [dir; name]).
Proof.
  unfold list_directory. rewrite list_elem_of_omap. split.
  - intros (path & Hp & [-> Hn]%entry_name_Some). split; [done|].
    apply list_elem_of_fmap in Hp as ([p t] & -> & Hp%elem_of_map_to_list). by exists t.
  - intros (Hn & [t Ht]). exists (posix_join [dir; name]).
    split; [|by apply entry_name_Some]. apply list_elem_of_fmap.
    exists (posix_join [dir; name], t). by rewrite elem_of_map_to_list.
Qed.

Lemma list_directory_NoDup d dir : NoDup (list_directory d dir).
Proof.
  unfold list_directory. pose proof (NoDup_fst_map_to_list d) as Hnd.
  induction Hnd as [|p l Hp _ IH]; [constructor|]. simpl.
  destruct (entry_name dir p) as [n|] eqn:E; [|done]. constructor; [|done].
  rewrite list_elem_of_omap. intros (q & Hq & E'). apply Hp.
  apply entry_name_Some in E as (-> & _), E' as (-> & _). done.
Qed.

(** Two disks with the same files of one extension in a directory list the same
    names of that extension, up to order. *)
Lemma list_directory_ext d1 d2 dir suffix :
  (∀ name, file_name_ok name = true → ends_with suffix name = true →
           d1 !! posix_join [dir; name] = d2 !! posix_join [dir; name]) →
  filter (λ name, ends_with suffix name = true) (list_directory d1 dir) ≡ₚ
  filter (λ name, ends_with suffix name = true) (list_directory d2 dir).
Proof.
  intros Hd. apply NoDup_Permutation; [apply NoDup_filter, list_directory_NoDup..|].
  intros name. rewrite !list_elem_of_filter, !list_directory_spec.
  split; intros (He & Hn & Hs); [rewrite <- (Hd name Hn He)|rewrite (Hd name Hn He)]; done.
Qed.
