(* ===== verification/AgentHarness.v ===== *)
(** * The agent harness

    [packages/agentic-harness/src/agent-harness.ts]: one step of an agent role, run
    as a bounded sequence of attempts, classified and written to disk.

    The callback that executes an attempt is a function of the attempt number,
    which is passed to it at most once; it may throw ([None]). *)

From Stdlib Require Import Ascii.
From S2P Require Import Prelude JsString NodePath JsList JsValue CanonicalJson Contracts JsonView CrossFamily.
From S2P Require Import AgentRoleProfile ArtifactFiles.

(** ** Outcomes *)

Inductive AgentHarnessOutcome : Type :=
| oc_accepted | oc_blocked | oc_failed_permanent | oc_failed_retryable | oc_needs_review.

#[export] Instance AgentHarnessOutcome_eq_dec : EqDecision AgentHarnessOutcome.
Proof. solve_decision. Defined.

Definition AgentHarnessOutcome_label (o : AgentHarnessOutcome) : string :=
  match o with
  | oc_accepted => "accepted"
  | oc_blocked => "blocked"
  | oc_failed_permanent => "failed_permanent"
  | oc_failed_retryable => "failed_retryable"
  | oc_needs_review => "needs_review"
  end.

#[export] Program Instance AgentHarnessOutcome_Label : Label AgentHarnessOutcome :=
  {| label := AgentHarnessOutcome_label;
     labels := [oc_accepted; oc_blocked; oc_failed_permanent; oc_failed_retryable; oc_needs_review] |}.
Next Obligation. solve_label_complete. Qed.
Next Obligation. solve_label_distinct. Qed.

Inductive AgentHarnessMappedJobStatus : Type := js_completed | js_partial | js_failed.

Definition AgentHarnessMappedJobStatus_label (s : AgentHarnessMappedJobStatus) : string :=
  match s with js_completed => "completed" | js_partial => "partial" | js_failed => "failed" end.

Definition mapAgentHarnessOutcomeToJobStatus (o : AgentHarnessOutcome) : AgentHarnessMappedJobStatus :=
  match o with
  | oc_accepted => js_completed
  | oc_blocked => js_partial
  | oc_failed_permanent => js_failed
  | oc_failed_retryable => js_failed
  | oc_needs_review => js_partial
  end.

Inductive AgentHarnessErrorClass : Type :=
| ec_budget_exhausted | ec_convergence_stalled | ec_gateway_error | ec_internal_error
| ec_iteration_exhausted | ec_judge_rejection | ec_none | ec_policy_refusal | ec_schema_validation
| ec_timeout.

#[export] Instance AgentHarnessErrorClass_eq_dec : EqDecision AgentHarnessErrorClass.
Proof. solve_decision. Defined.

Definition AgentHarnessErrorClass_label (e : AgentHarnessErrorClass) : string :=
  match e with
  | ec_budget_exhausted => "budget_exhausted"
  | ec_convergence_stalled => "convergence_stalled"
  | ec_gateway_error => "gateway_error"
  | ec_internal_error => "internal_error"
  | ec_iteration_exhausted => "iteration_exhausted"
  | ec_judge_rejection => "judge_rejection"
  | ec_none => "none"
  | ec_policy_refusal => "policy_refusal"
  | ec_schema_validation => "schema_validation"
  | ec_timeout => "timeout"
  end.

#[export] Program Instance AgentHarnessErrorClass_Label : Label AgentHarnessErrorClass :=
  {| label := AgentHarnessErrorClass_label;
     labels := [ec_budget_exhausted; ec_convergence_stalled; ec_gateway_error; ec_internal_error;
                ec_iteration_exhausted; ec_judge_rejection; ec_none; ec_policy_refusal;
                ec_schema_validation; ec_timeout] |}.
Next Obligation. solve_label_complete. Qed.
Next Obligation. solve_label_distinct. Qed.

(** ** The iteration budget *)

Inductive AgentHarnessTestDepth : Type := td_standard | td_exhaustive.

Definition AgentHarnessTestDepth_label (d : AgentHarnessTestDepth) : string :=
  match d with td_standard => "standard" | td_exhaustive => "exhaustive" end.

Definition DEFAULT_REPAIR_ITERATIONS : Z := 2.
Definition EXHAUSTIVE_REPAIR_ITERATIONS : Z := 3.

Definition resolveMaxRepairIterations (testDepth : AgentHarnessTestDepth) : Z :=
  match testDepth with
  | td_exhaustive => EXHAUSTIVE_REPAIR_ITERATIONS
  | td_standard => DEFAULT_REPAIR_ITERATIONS
  end.

(** ** Attempts *)

Definition AGENT_HARNESS_STEP_SCHEMA_VERSION : string := "1.0.0".
Definition AGENT_ROLE_RUN_ARTIFACT_DIRECTORY : string := "agent-role-runs".

Inductive AttemptErrorKind : Type := ek_none | ek_retryable | ek_permanent | ek_policy_block.

#[export] Instance AttemptErrorKind_eq_dec : EqDecision AttemptErrorKind.
Proof. solve_decision. Defined.

(** [AgentHarnessAttemptResult]; the error class is any string. *)
Record AgentHarnessAttemptResult := {
  ar_inputHash : string;
  ar_promptHash : string;
  ar_schemaHash : string;
  ar_cacheKeyDigest : string;
  ar_cacheablePrefixHash : string;
  ar_judgeAccepted : bool;
  ar_errorKind : AttemptErrorKind;
  ar_errorClass : option string;
  ar_inputTokens : option jsnum;
  ar_outputTokens : option jsnum;
  ar_latencyMs : option jsnum;
}.

Record AgentHarnessStepAttemptRecord := {
  rec_attempt : Z;
  rec_roleRunId : string;
  rec_inputHash : string;
  rec_promptHash : string;
  rec_schemaHash : string;
  rec_cacheKeyDigest : string;
  rec_cacheablePrefixHash : string;
  rec_judgeAccepted : bool;
  rec_errorClass : AgentHarnessErrorClass;
  rec_inputTokens : jsnum;
  rec_outputTokens : jsnum;
  rec_latencyMs : jsnum;
}.

Inductive HarnessError : Type :=
| he_run_dir | he_job_id | he_role_step_id | he_unknown_role | he_not_a_function
| he_profile (e : ProfileError) | he_profile_role
| he_callback (attempt : Z) | he_bad_hash (attempt : Z) (field : string).

Definition check_hash (attempt : Z) (field value : string) : outcome HarnessError unit :=
  guard_throw (negb (isHex64 value)) (he_bad_hash attempt field).

Definition validateAttemptHashes (result : AgentHarnessAttemptResult) (attempt : Z) : outcome HarnessError unit :=
  (check_hash attempt "inputHash" (ar_inputHash result) ;;;
   check_hash attempt "promptHash" (ar_promptHash result) ;;;
   check_hash attempt "schemaHash" (ar_schemaHash result) ;;;
   check_hash attempt "cacheKeyDigest" (ar_cacheKeyDigest result) ;;;
   check_hash attempt "cacheablePrefixHash" (ar_cacheablePrefixHash result))%outcome.

Definition defaultErrorClassFor (errorKind : AttemptErrorKind) (judgeAccepted : bool) : AgentHarnessErrorClass :=
  match errorKind with
  | ek_none => if judgeAccepted then ec_none else ec_judge_rejection
  | ek_retryable => ec_gateway_error
  | ek_permanent => ec_schema_validation
  | ek_policy_block => ec_policy_refusal
  end.

Definition attempt_error_class (result : AgentHarnessAttemptResult) : AgentHarnessErrorClass :=
  default (defaultErrorClassFor (ar_errorKind result) (ar_judgeAccepted result))
    (s ← ar_errorClass result; parse_label s).

Definition counted (n : option jsnum) : jsnum := max_zero (trunc (default (num 0) n)).

Definition role_run_id (roleStepId : string) (attempt : Z) : string :=
  roleStepId +:+ "-a" +:+ pretty attempt.

Definition attempt_record (roleStepId : string) (attempt : Z) (result : AgentHarnessAttemptResult) :
    AgentHarnessStepAttemptRecord :=
  {| rec_attempt := attempt; rec_roleRunId := role_run_id roleStepId attempt;
     rec_inputHash := ar_inputHash result; rec_promptHash := ar_promptHash result;
     rec_schemaHash := ar_schemaHash result; rec_cacheKeyDigest := ar_cacheKeyDigest result;
     rec_cacheablePrefixHash := ar_cacheablePrefixHash result;
     rec_judgeAccepted := ar_judgeAccepted result; rec_errorClass := attempt_error_class result;
     rec_inputTokens := counted (ar_inputTokens result);
     rec_outputTokens := counted (ar_outputTokens result);
     rec_latencyMs := counted (ar_latencyMs result) |}.

(** ** The loop *)

(** The local variables of the loop; [hs_end] holds [outcome] and
    [outcomeErrorClass] once they are set. *)
Record harness_state := {
  hs_attempts : list AgentHarnessStepAttemptRecord;
  hs_inputTokens : jsnum;
  hs_outputTokens : jsnum;
  hs_latencyMs : jsnum;
  hs_end : option (AgentHarnessOutcome * AgentHarnessErrorClass);
  hs_lastRetryableError : option AgentHarnessErrorClass;
  hs_sawJudgeRejection : bool;
}.

Definition initial_state : harness_state :=
  {| hs_attempts := []; hs_inputTokens := num 0; hs_outputTokens := num 0; hs_latencyMs := num 0;
     hs_end := None; hs_lastRetryableError := None; hs_sawJudgeRejection := false |}.

(** The outcome that ends the loop, if the result has one. *)
Definition attempt_end (result : AgentHarnessAttemptResult) :
    option (AgentHarnessOutcome * AgentHarnessErrorClass) :=
  if ar_judgeAccepted result && bool_decide (ar_errorKind result = ek_none)
  then Some (oc_accepted, ec_none)
  else if bool_decide (ar_errorKind result = ek_policy_block)
  then Some (oc_blocked, attempt_error_class result)
  else if bool_decide (ar_errorKind result = ek_permanent)
  then Some (oc_failed_permanent, attempt_error_class result)
  else None.

Definition after_attempt (roleStepId : string) (attempt : Z) (result : AgentHarnessAttemptResult)
    (st : harness_state) : harness_state :=
  let r := attempt_record roleStepId attempt result in
  let ended := attempt_end result in
  let retry := bool_decide (ar_errorKind result = ek_retryable) in
  {| hs_attempts := hs_attempts st ++ [r];
     hs_inputTokens := js_plus (hs_inputTokens st) (rec_inputTokens r);
     hs_outputTokens := js_plus (hs_outputTokens st) (rec_outputTokens r);
     hs_latencyMs := js_plus (hs_latencyMs st) (rec_latencyMs r);
     hs_end := ended;
     hs_lastRetryableError :=
       if retry then Some (rec_errorClass r) else hs_lastRetryableError st;
     hs_sawJudgeRejection :=
       match ended with Some _ => hs_sawJudgeRejection st | None => hs_sawJudgeRejection st || negb retry end |}.

Definition attempt_fn : Type := Z → string → option AgentHarnessAttemptResult.

(** [None]: out of fuel. *)
Fixpoint attempt_loop (fuel : nat) (executeAttempt : attempt_fn) (roleStepId : string)
    (maxAttemptsAllowed : jsnum) (attempt : Z) (st : harness_state) :
    option (outcome HarnessError harness_state) :=
  match fuel with
  | O => None
  | S fuel' =>
      if negb (Number.leb (num attempt) maxAttemptsAllowed) then Some (Ok st)
      else match executeAttempt attempt (role_run_id roleStepId attempt) with
      | None => Some (Throw (he_callback attempt))
      | Some result =>
          match validateAttemptHashes result attempt with
          | Throw e => Some (Throw e)
          | Ok _ =>
              let st' := after_attempt roleStepId attempt result st in
              match hs_end st' with
              | Some _ => Some (Ok st')
              | None => attempt_loop fuel' executeAttempt roleStepId maxAttemptsAllowed (attempt + 1) st'
              end
          end
      end
  end.

(** Four attempts and the test after them. *)
Definition HARNESS_FUEL : nat := 5.

Definition terminal_outcome (st : harness_state) : AgentHarnessOutcome * AgentHarnessErrorClass :=
  match hs_end st with
  | Some e => e
  | None =>
      match hs_lastRetryableError st, hs_sawJudgeRejection st with
      | Some e, false => (oc_failed_retryable, e)
      | _, _ => (oc_needs_review, ec_iteration_exhausted)
      end
  end.

(** ** The step *)

Record AgentHarnessStepArtifact := {
  sa_schemaVersion : string;
  sa_jobId : string;
  sa_roleStepId : string;
  sa_role : AgentHarnessRole;
  sa_outcome : AgentHarnessOutcome;
  sa_errorClass : AgentHarnessErrorClass;
  sa_mappedJobStatus : AgentHarnessMappedJobStatus;
  sa_testDepth : AgentHarnessTestDepth;
  sa_maxAttemptsAllowed : jsnum;
  sa_attemptsConsumed : Z;
  sa_attempts : list AgentHarnessStepAttemptRecord;
  sa_inputTokens : jsnum;      (** [costsRollup] *)
  sa_outputTokens : jsnum;
  sa_totalLatencyMs : jsnum;
}.

Definition record_json (r : AgentHarnessStepAttemptRecord) : json :=
  JObject (Json.literal
    [("attempt", Some (Json.jint (rec_attempt r)));
     ("roleRunId", Some (JString (rec_roleRunId r)));
     ("inputHash", Some (JString (rec_inputHash r)));
     ("promptHash", Some (JString (rec_promptHash r)));
     ("schemaHash", Some (JString (rec_schemaHash r)));
     ("cacheKeyDigest", Some (JString (rec_cacheKeyDigest r)));
     ("cacheablePrefixHash", Some (JString (rec_cacheablePrefixHash r)));
     ("judgeAccepted", Some (JBool (rec_judgeAccepted r)));
     ("errorClass", Some (jlabel (rec_errorClass r)));
     ("inputTokens", Some (json_of_number (rec_inputTokens r)));
     ("outputTokens", Some (json_of_number (rec_outputTokens r)));
     ("latencyMs", Some (json_of_number (rec_latencyMs r)))]).

Definition step_json (a : AgentHarnessStepArtifact) : json :=
  JObject (Json.literal
    [("schemaVersion", Some (JString (sa_schemaVersion a)));
     ("jobId", Some (JString (sa_jobId a)));
     ("roleStepId", Some (JString (sa_roleStepId a)));
     ("role", Some (jlabel (sa_role a)));
     ("outcome", Some (jlabel (sa_outcome a)));
     ("errorClass", Some (jlabel (sa_errorClass a)));
     ("mappedJobStatus", Some (JString (AgentHarnessMappedJobStatus_label (sa_mappedJobStatus a))));
     ("testDepth", Some (JString (AgentHarnessTestDepth_label (sa_testDepth a))));
     ("maxAttemptsAllowed", Some (json_of_number (sa_maxAttemptsAllowed a)));
     ("attemptsConsumed", Some (Json.jint (sa_attemptsConsumed a)));
     ("attempts", Some (JArray (record_json <$> sa_attempts a)));
     ("costsRollup", Some (JObject (Json.literal
        [("inputTokens", Some (json_of_number (sa_inputTokens a)));
         ("outputTokens", Some (json_of_number (sa_outputTokens a)));
         ("totalLatencyMs", Some (json_of_number (sa_totalLatencyMs a)))])));
     ("rawPromptsIncluded", Some (JBool false))]).

(** The role is any string and the callback any value. *)
Record RunAgentHarnessStepInput := {
  ri_runDir : string;
  ri_jobId : string;
  ri_role : string;
  ri_roleStepId : string;
  ri_testDepth : option AgentHarnessTestDepth;
  ri_profile : option AgentRoleProfile;
  ri_executeAttempt : option attempt_fn;
}.

Record RunAgentHarnessStepResult := {
  rr_outcome : AgentHarnessOutcome;
  rr_mappedJobStatus : AgentHarnessMappedJobStatus;
  rr_artifact : AgentHarnessStepArtifact;
  rr_artifactPath : string;
}.

Definition step_artifact_path (runDir roleStepId : string) : string :=
  posix_join [posix_join [runDir; AGENT_ROLE_RUN_ARTIFACT_DIRECTORY]; roleStepId +:+ ".json"].

Definition persistStepArtifact (runDir : string) (w : writer) (artifact : AgentHarnessStepArtifact) (d : disk) :
    string * disk :=
  let finalPath := step_artifact_path runDir (sa_roleStepId artifact) in
  (finalPath, renamed finalPath w (canonicalJson (step_json artifact)) d).

Definition max_attempts_allowed (profile : AgentRoleProfile) (testDepth : AgentHarnessTestDepth) : jsnum :=
  js_min (arp_maxAttempts profile) (num (1 + resolveMaxRepairIterations testDepth)).

Definition step_artifact (input : RunAgentHarnessStepInput) (role : AgentHarnessRole)
    (profile : AgentRoleProfile) (st : harness_state) : AgentHarnessStepArtifact :=
  let testDepth := default td_standard (ri_testDepth input) in
  let '(o, e) := terminal_outcome st in
  {| sa_schemaVersion := AGENT_HARNESS_STEP_SCHEMA_VERSION; sa_jobId := ri_jobId input;
     sa_roleStepId := ri_roleStepId input; sa_role := role; sa_outcome := o; sa_errorClass := e;
     sa_mappedJobStatus := mapAgentHarnessOutcomeToJobStatus o; sa_testDepth := testDepth;
     sa_maxAttemptsAllowed := max_attempts_allowed profile testDepth;
     sa_attemptsConsumed := Z.of_nat (length (hs_attempts st)); sa_attempts := hs_attempts st;
     sa_inputTokens := hs_inputTokens st; sa_outputTokens := hs_outputTokens st;
     sa_totalLatencyMs := hs_latencyMs st |}.

(** The checks before the loop. *)
Definition prepare_step (input : RunAgentHarnessStepInput) :
    outcome HarnessError (AgentHarnessRole * attempt_fn * AgentRoleProfile) :=
  (guard_throw (is_blank (ri_runDir input)) he_run_dir ;;;
   guard_throw (is_blank (ri_jobId input)) he_job_id ;;;
   guard_throw (is_blank (ri_roleStepId input)) he_role_step_id ;;;
   match parse_label (ri_role input), ri_executeAttempt input with
   | None, _ => Throw he_unknown_role
   | _, None => Throw he_not_a_function
   | Some role, Some executeAttempt =>
       let* profile := match ri_profile input with
                       | Some p => Ok p
                       | None => match getAgentRoleProfile role with
                                 | Ok p => Ok p | Throw e => Throw (he_profile e) end
                       end in
       guard_throw (bool_decide (arp_role profile ≠ ri_role input)) he_profile_role ;;;
       Ok (role, executeAttempt, profile)
   end)%outcome.

Definition runAgentHarnessStep (input : RunAgentHarnessStepInput) (w : writer) (d : disk) :
    option (outcome HarnessError RunAgentHarnessStepResult * disk) :=
  match prepare_step input with
  | Throw e => Some (Throw e, d)
  | Ok (role, executeAttempt, profile) =>
      let testDepth := default td_standard (ri_testDepth input) in
      st ← attempt_loop HARNESS_FUEL executeAttempt (ri_roleStepId input)
             (max_attempts_allowed profile testDepth) 1 initial_state;
      Some match st with
           | Throw e => (Throw e, d)
           | Ok st =>
               let artifact := step_artifact input role profile st in
               let '(path, d') := persistStepArtifact (ri_runDir input) w artifact d in
               (Ok {| rr_outcome := sa_outcome artifact; rr_mappedJobStatus := sa_mappedJobStatus artifact;
                      rr_artifact := artifact; rr_artifactPath := path |}, d')
           end
  end.

(** ** Reference: the results a step consumes *)

(** What attempt [k] comes to: a checked result or an exception. *)
Definition answer (executeAttempt : attempt_fn) (roleStepId : string) (k : Z) :
    outcome HarnessError AgentHarnessAttemptResult :=
  match executeAttempt k (role_run_id roleStepId k) with
  | None => Throw (he_callback k)
  | Some r => (validateAttemptHashes r k ;;; Ok r)%outcome
  end.

(** The results up to the first that ends the step. *)
Fixpoint consume (answers : list (outcome HarnessError AgentHarnessAttemptResult)) :
    outcome HarnessError (list AgentHarnessAttemptResult) :=
  match answers with
  | [] => Ok []
  | a :: rest =>
      (let* r := a in
       match attempt_end r with
       | Some _ => Ok [r]
       | None => outcome_map (cons r) (consume rest)
       end)%outcome
  end.

(** The attempts a bound on the attempt number admits. *)
Definition attempt_budget (allowed : jsnum) : nat :=
  match allowed with Fin q => Z.to_nat (Qfloor q) | _ => 0%nat end.

Definition consumed_results (executeAttempt : attempt_fn) (roleStepId : string) (allowed : jsnum) :
    outcome HarnessError (list AgentHarnessAttemptResult) :=
  consume (answer executeAttempt roleStepId <$> seqZ 1 (Z.of_nat (attempt_budget allowed))).

Definition is_retryable (r : AgentHarnessAttemptResult) : bool := bool_decide (ar_errorKind r = ek_retryable).
Definition is_rejection (r : AgentHarnessAttemptResult) : bool :=
  match attempt_end r with Some _ => false | None => negb (is_retryable r) end.

(** The outcome of a step from its results alone. *)
Definition classify (rs : list AgentHarnessAttemptResult) : AgentHarnessOutcome * AgentHarnessErrorClass :=
  match last rs ≫= attempt_end with
  | Some e => e
  | None =>
      match last (filter (λ r, is_retryable r = true) rs), existsb is_rejection rs with
      | Some r, false => (oc_failed_retryable, attempt_error_class r)
      | _, _ => (oc_needs_review, ec_iteration_exhausted)
      end
  end.

Definition total (f : AgentHarnessAttemptResult → option jsnum) (rs : list AgentHarnessAttemptResult) : jsnum :=
  foldl js_plus (num 0) ((counted ∘ f) <$> rs).

Definition records (roleStepId : string) (k : Z) (rs : list AgentHarnessAttemptResult) :
    list AgentHarnessStepAttemptRecord :=
  zip_with (attempt_record roleStepId) (seqZ k (Z.of_nat (length rs))) rs.

Definition artifact_of (input : RunAgentHarnessStepInput) (role : AgentHarnessRole)
    (profile : AgentRoleProfile) (rs : list AgentHarnessAttemptResult) : AgentHarnessStepArtifact :=
  let testDepth := default td_standard (ri_testDepth input) in
  {| sa_schemaVersion := AGENT_HARNESS_STEP_SCHEMA_VERSION; sa_jobId := ri_jobId input;
     sa_roleStepId := ri_roleStepId input; sa_role := role;
     sa_outcome := (classify rs).1; sa_errorClass := (classify rs).2;
     sa_mappedJobStatus := mapAgentHarnessOutcomeToJobStatus (classify rs).1; sa_testDepth := testDepth;
     sa_maxAttemptsAllowed := max_attempts_allowed profile testDepth;
     sa_attemptsConsumed := Z.of_nat (length rs); sa_attempts := records (ri_roleStepId input) 1 rs;
     sa_inputTokens := total ar_inputTokens rs; sa_outputTokens := total ar_outputTokens rs;
     sa_totalLatencyMs := total ar_latencyMs rs |}.

(** ** Lemmas *)

Lemma budget_admits a c k :
  1 <= k → Number.leb (num k) (js_min a (num c)) = (k <=? Z.of_nat (attempt_budget (js_min a (num c)))).
Proof.
  intros Hk. assert (∀ q, Number.leb (num k) (Fin q) = (k <=? Z.of_nat (Z.to_nat (Qfloor q)))) as Hfin.
  { intros q. simpl. apply eq_bool_prop_intro. rewrite !Is_true_true, Qle_bool_iff, Z.leb_le.
    pose proof (Qfloor_le q). split.
    - intros Hq%Qfloor_resp_le. rewrite Qfloor_Z in Hq. lia.
    - intros Hq. apply (Qle_trans _ (inject_Z (Qfloor q))); [|done]. rewrite <- Zle_Qle. lia. }
  destruct a as [| | |q].
  - symmetry. apply Z.leb_gt. simpl. lia.
  - apply (Hfin (inject_Z c)).
  - symmetry. apply Z.leb_gt. simpl. lia.
  - unfold js_min. destruct (Number.leb (Fin q) (num c)); [apply Hfin|apply (Hfin (inject_Z c))].
Qed.

Lemma budget_le a c : 0 <= c → Z.of_nat (attempt_budget (js_min a (num c))) <= c.
Proof.
  intros Hc. destruct a as [| | |q]; unfold js_min, num; cbn [Number.leb attempt_budget]; try lia.
  - rewrite Qfloor_Z. lia.
  - destruct (Qle_bool q (inject_Z c)) eqn:E; cbn [attempt_budget]; [|rewrite Qfloor_Z; lia].
    apply Qle_bool_iff, Qfloor_resp_le in E. rewrite Qfloor_Z in E. lia.
Qed.

Lemma max_attempts_le profile depth :
  (attempt_budget (max_attempts_allowed profile depth) <= 4)%nat.
Proof.
  unfold max_attempts_allowed.
  pose proof (budget_le (arp_maxAttempts profile) (1 + resolveMaxRepairIterations depth)) as H.
  destruct depth; unfold resolveMaxRepairIterations, DEFAULT_REPAIR_ITERATIONS, EXHAUSTIVE_REPAIR_ITERATIONS in *; lia.
Qed.

(** The state after a list of results. *)
Fixpoint record_all (roleStepId : string) (k : Z) (st : harness_state) (rs : list AgentHarnessAttemptResult) :
    harness_state :=
  match rs with
  | [] => st
  | r :: rest => record_all roleStepId (k + 1) (after_attempt roleStepId k r st) rest
  end.

Lemma attempt_loop_consumes f step allowed n fuel k st :
  (∀ i, k <= i → Number.leb (num i) allowed = (i <? k + Z.of_nat n)) → (n < fuel)%nat →
  hs_end st = None →
  attempt_loop fuel f step allowed k st =
  Some (outcome_map (record_all step k st) (consume (answer f step <$> seqZ k (Z.of_nat n)))).
Proof.
  revert fuel k st. induction n as [|n IH]; intros fuel k st Hle Hf He;
    (destruct fuel as [|fuel]; [lia|]); cbn [attempt_loop]; rewrite Hle by lia.
  - assert ((k <? k + Z.of_nat 0) = false) as -> by (apply Z.ltb_ge; lia). done.
  - assert ((k <? k + Z.of_nat (S n)) = true) as -> by (apply Z.ltb_lt; lia).
    rewrite seqZ_cons by lia. simpl. unfold answer at 1.
    destruct (f k (role_run_id step k)) as [r|]; [|done]. simpl.
    destruct (validateAttemptHashes r k); [|done]. simpl.
    destruct (attempt_end r) as [e|] eqn:Ee; [done|].
    replace (Z.pred (Z.of_nat (S n))) with (Z.of_nat n) by lia.
    rewrite (IH fuel (Z.succ k)); [|intros i Hi; rewrite Hle by lia; f_equal; lia|lia|done].
    by destruct (consume _).
Qed.

Lemma records_cons step k r rs :
  records step k (r :: rs) = attempt_record step k r :: records step (k + 1) rs.
Proof.
  unfold records. simpl length. rewrite seqZ_cons by lia. simpl. f_equal. f_equal. f_equal; lia.
Qed.

Lemma record_all_fields step k st rs :
  let st' := record_all step k st rs in
  hs_attempts st' = hs_attempts st ++ records step k rs ∧
  hs_inputTokens st' = foldl js_plus (hs_inputTokens st) ((counted ∘ ar_inputTokens) <$> rs) ∧
  hs_outputTokens st' = foldl js_plus (hs_outputTokens st) ((counted ∘ ar_outputTokens) <$> rs) ∧
  hs_latencyMs st' = foldl js_plus (hs_latencyMs st) ((counted ∘ ar_latencyMs) <$> rs) ∧
  hs_end st' = match last rs with Some r => attempt_end r | None => hs_end st end ∧
  hs_lastRetryableError st' =
    match last (filter (λ r, is_retryable r = true) rs) with
    | Some r => Some (attempt_error_class r)
    | None => hs_lastRetryableError st
    end ∧
  hs_sawJudgeRejection st' = hs_sawJudgeRejection st || existsb is_rejection rs.
Proof.
  revert k st; induction rs as [|r rs IH]; intros k st; cbn zeta.
  - unfold records. simpl. by rewrite app_nil_r, orb_false_r.
  - simpl record_all. specialize (IH (k + 1) (after_attempt step k r st)). cbn zeta in IH.
    destruct IH as (-> & -> & -> & -> & -> & -> & ->). rewrite records_cons. split_all; try done.
    + simpl. by rewrite <- app_assoc.
    + rewrite last_cons. by destruct (last rs).
    + rewrite filter_cons. unfold is_retryable at 3. simpl hs_lastRetryableError.
      destruct (decide _) as [Hr|Hr].
      * rewrite last_cons. rewrite Hr. by destruct (last _).
      * apply not_true_is_false in Hr. by rewrite Hr.
    + simpl. rewrite orb_assoc. f_equal. unfold is_rejection, is_retryable.
      destruct (attempt_end r); [by rewrite orb_false_r|done].
Qed.

Lemma terminal_outcome_classify step rs :
  terminal_outcome (record_all step 1 initial_state rs) = classify rs.
Proof.
  destruct (record_all_fields step 1 initial_state rs) as (_ & _ & _ & _ & He & Hl & Hs).
  unfold terminal_outcome, classify. rewrite He, Hl, Hs. simpl.
  destruct (last rs); simpl; [destruct (attempt_end _); [done|]|]; by destruct (last (filter _ _)).
Qed.

Lemma step_artifact_of input role profile rs :
  step_artifact input role profile (record_all (ri_roleStepId input) 1 initial_state rs) =
  artifact_of input role profile rs.
Proof.
  unfold step_artifact, artifact_of. rewrite terminal_outcome_classify.
  destruct (record_all_fields (ri_roleStepId input) 1 initial_state rs) as (-> & -> & -> & -> & _).
  destruct (classify rs) as [o e]. simpl. f_equal. f_equal. unfold records.
  rewrite length_zip_with, length_seqZ. lia.
Qed.

(** The results a step consumes are those of its first attempts, and only the
    last of them may end it. *)
Lemma consume_spec f step n k rs :
  consume (answer f step <$> seqZ k (Z.of_nat n)) = Ok rs →
  (length rs <= n)%nat ∧
  (∀ i r, rs !! i = Some r →
     f (k + Z.of_nat i) (role_run_id step (k + Z.of_nat i)) = Some r ∧
     validateAttemptHashes r (k + Z.of_nat i) = Ok tt ∧
     (attempt_end r ≠ None → S i = length rs)) ∧
  ((length rs < n)%nat → ∃ r, last rs = Some r ∧ attempt_end r ≠ None).
Proof.
  revert k rs; induction n as [|n IH]; intros k rs.
  - intros [= <-]. simpl. split_all; [lia|done|lia].
  - rewrite seqZ_cons by lia. simpl. unfold answer at 1.
    destruct (f k (role_run_id step k)) as [r0|] eqn:Ef; [|done]. simpl.
    destruct (validateAttemptHashes r0 k) as [[]|] eqn:Ev; [|done]. simpl.
    replace (Z.pred (Z.of_nat (S n))) with (Z.of_nat n) by lia.
    destruct (attempt_end r0) as [e|] eqn:Ee.
    + intros [= <-]. simpl. split_all; [lia| |intros _; exists r0; by rewrite Ee].
      intros [|i] r Hr; [|done]. injection Hr as <-. rewrite Z.add_0_r. by split_all.
    + destruct (consume _) as [rest|] eqn:Ec; [|done]. intros [= <-].
      destruct (IH (Z.succ k) rest Ec) as (Hl & Hi & Hlast). simpl. split_all; [lia| |].
      * intros [|i] r Hr; simpl in Hr.
        { injection Hr as <-. rewrite Z.add_0_r, Ee. by split_all. }
        replace (k + Z.of_nat (S i)) with (Z.succ k + Z.of_nat i) by lia.
        destruct (Hi i r Hr) as (? & ? & Hlt). split_all; try done. intros Hne. by rewrite Hlt.
      * intros Hlt. destruct Hlast as (r & Hr & Hne); [lia|]. exists r.
        rewrite last_cons, Hr. by split.
Qed.

Lemma run_step_reference input w d :
  runAgentHarnessStep input w d =
  Some match prepare_step input with
       | Throw e => (Throw e, d)
       | Ok (role, f, profile) =>
           let allowed := max_attempts_allowed profile (default td_standard (ri_testDepth input)) in
           match consumed_results f (ri_roleStepId input) allowed with
           | Throw e => (Throw e, d)
           | Ok rs =>
               let a := artifact_of input role profile rs in
               let path := step_artifact_path (ri_runDir input) (ri_roleStepId input) in
               (Ok {| rr_outcome := sa_outcome a; rr_mappedJobStatus := sa_mappedJobStatus a;
                      rr_artifact := a; rr_artifactPath := path |},
                renamed path w (canonicalJson (step_json a)) d)
           end
       end.
Proof.
  unfold runAgentHarnessStep. destruct (prepare_step input) as [[[role f] profile]|]; [|done].
  set (depth := default td_standard (ri_testDepth input)).
  pose proof (max_attempts_le profile depth) as Hmax.
  rewrite (attempt_loop_consumes f (ri_roleStepId input) (max_attempts_allowed profile depth)
             (attempt_budget (max_attempts_allowed profile depth))); [|..].
  - fold (consumed_results f (ri_roleStepId input) (max_attempts_allowed profile depth)).
    destruct (consumed_results _ _ _) as [rs|]; [|done]. simpl. by rewrite step_artifact_of.
  - intros i Hi. unfold max_attempts_allowed. rewrite budget_admits by done.
    apply eq_bool_prop_intro. rewrite !Is_true_true, Z.leb_le, Z.ltb_lt. lia.
  - unfold HARNESS_FUEL. lia.
  - done.
Qed.

Lemma classify_completed rs :
  mapAgentHarnessOutcomeToJobStatus (classify rs).1 = js_completed ↔
  ∃ r, last rs = Some r ∧ ar_judgeAccepted r = true ∧ ar_errorKind r = ek_none.
Proof.
  assert (∀ r, match attempt_end r with Some e => e.1 = oc_accepted | None => False end ↔
               ar_judgeAccepted r = true ∧ ar_errorKind r = ek_none) as Hend.
  { intros r. unfold attempt_end. destruct (ar_judgeAccepted r), (ar_errorKind r); simpl; naive_solver. }
  assert (∀ o, mapAgentHarnessOutcomeToJobStatus o = js_completed ↔ o = oc_accepted) as -> by (intros []; done).
  unfold classify. destruct (last rs) as [r|]; simpl.
  - pose proof (Hend r) as H. destruct (attempt_end r) as [[o e]|].
    + rewrite H. naive_solver.
    + split; [|naive_solver]. by repeat case_match.
  - split; [|naive_solver]. by repeat case_match.
Qed.

Lemma classify_ended rs r :
  last rs = Some r → attempt_end r ≠ None → (classify rs).1 ≠ oc_needs_review ∧ (classify rs).1 ≠ oc_failed_retryable.
Proof.
  intros Hl Hne. unfold classify. rewrite Hl. simpl.
  unfold attempt_end in *. by repeat case_match.
Qed.

(** ** Properties *)

(** A step returns whatever the callback answers, after at most four attempts. A
    throw, from a check, the callback or a malformed hash, leaves the disk alone;
    otherwise the artifact is the file of the step, no temporary file remains, and
    no other file has changed. *)
Theorem harness_step_returns input w d :
  ∃ out d', runAgentHarnessStep input w d = Some (out, d') ∧
  match out with
  | Throw _ => d' = d
  | Ok res =>
      let path := step_artifact_path (ri_runDir input) (ri_roleStepId input) in
      0 <= sa_attemptsConsumed (rr_artifact res) <= 4 ∧
      sa_attemptsConsumed (rr_artifact res) = Z.of_nat (length (sa_attempts (rr_artifact res))) ∧
      d' !! path = Some (Some (canonicalJson (step_json (rr_artifact res)))) ∧
      d' !! temp_path path w = None ∧
      (∀ p, p ≠ path → p ≠ temp_path path w → d' !! p = d !! p)
  end.
Proof.
  rewrite run_step_reference. destruct (prepare_step input) as [[[role f] profile]|e]; [|by do 2 eexists].
  cbn zeta. destruct (consumed_results _ _ _) as [rs|] eqn:Ec; [|by do 2 eexists].
  apply consume_spec in Ec as (Hl & _). do 2 eexists. split; [done|]. simpl.
  pose proof (max_attempts_le profile (default td_standard (ri_testDepth input))).
  set (path := step_artifact_path _ _). pose proof (temp_path_ne path w).
  unfold renamed. split_all.
  - lia.
  - lia.
  - unfold records. rewrite length_zip_with, length_seqZ. lia.
  - by rewrite lookup_insert_eq.
  - by rewrite lookup_insert_ne, lookup_delete_eq by done.
  - intros p Hp Ht. by rewrite lookup_insert_ne, lookup_delete_ne by done.
Qed.

(** C13. A step completes its job only with work the judges accepted: the last attempt
    it consumed was accepted without an error, and no earlier one ended it. Running
    out of attempts never completes a job, and a step that stops early was
    accepted, blocked or failed for good. *)
Theorem only_accepted_work_completes input w d res d' :
  runAgentHarnessStep input w d = Some (Ok res, d') →
  ∃ role f profile n,
    prepare_step input = Ok (role, f, profile) ∧
    sa_attemptsConsumed (rr_artifact res) = Z.of_nat n ∧
    (n <= attempt_budget (sa_maxAttemptsAllowed (rr_artifact res)))%nat ∧
    (rr_mappedJobStatus res = js_completed ↔
     (1 <= n)%nat ∧ ∃ r, f (Z.of_nat n) (role_run_id (ri_roleStepId input) (Z.of_nat n)) = Some r ∧
                   ar_judgeAccepted r = true ∧ ar_errorKind r = ek_none) ∧
    (∀ k, 1 <= k < Z.of_nat n → ∃ r, f k (role_run_id (ri_roleStepId input) k) = Some r ∧ attempt_end r = None) ∧
    ((n < attempt_budget (sa_maxAttemptsAllowed (rr_artifact res)))%nat →
     rr_outcome res ≠ oc_needs_review ∧ rr_outcome res ≠ oc_failed_retryable).
Proof.
  rewrite run_step_reference. destruct (prepare_step input) as [[[role f] profile]|]; [|done].
  cbn zeta. destruct (consumed_results _ _ _) as [rs|] eqn:Ec; [|done]. intros [= <- _].
  apply consume_spec in Ec as (Hl & Hi & Hlast).
  exists role, f, profile, (length rs). simpl. split_all; try done.
  - rewrite classify_completed, last_lookup. destruct rs as [|r0 rs0] eqn:Ers; [naive_solver lia|].
    rewrite <- Ers in *. assert (1 <= length rs)%nat as Hlen by (rewrite Ers; simpl; lia).
    destruct (lookup_lt_is_Some_2 rs (pred (length rs))) as [r Hr]; [lia|].
    destruct (Hi _ _ Hr) as (Hf & _).
    replace (1 + Z.of_nat (pred (length rs))) with (Z.of_nat (length rs)) in Hf by lia.
    rewrite Hr, Hf. naive_solver.
  - intros k Hk. destruct (lookup_lt_is_Some_2 rs (Z.to_nat (k - 1))) as [r Hr]; [lia|].
    destruct (Hi _ _ Hr) as (Hf & _ & He). replace (1 + Z.of_nat (Z.to_nat (k - 1))) with k in Hf by lia.
    exists r. split; [done|]. destruct (attempt_end r); [|done]. assert (S (Z.to_nat (k - 1)) = length rs) by by apply He.
    lia.
  - intros Hlt. destruct (Hlast Hlt) as (r & Hr & Hne). by eapply classify_ended.
Qed.

(** ** What the budget and the file names amount to *)

Definition sample_hash : string := "0000000000000000000000000000000000000000000000000000000000000000".

Definition sample_result (judgeAccepted : bool) (errorKind : AttemptErrorKind) : AgentHarnessAttemptResult :=
  {| ar_inputHash := sample_hash; ar_promptHash := sample_hash; ar_schemaHash := sample_hash;
     ar_cacheKeyDigest := sample_hash; ar_cacheablePrefixHash := sample_hash;
     ar_judgeAccepted := judgeAccepted; ar_errorKind := errorKind; ar_errorClass := None;
     ar_inputTokens := Some (num 7); ar_outputTokens := None; ar_latencyMs := Some (Fin (5 # 2)) |}.

Definition sample_input (f : attempt_fn) : RunAgentHarnessStepInput :=
  {| ri_runDir := "/runs/1"; ri_jobId := "job"; ri_role := "generator"; ri_roleStepId := "gen";
     ri_testDepth := None; ri_profile := None; ri_executeAttempt := Some f |}.

Definition sample_writer : writer := {| wr_pid := "1"; wr_uuid := "u" |}.

Definition sample_outcome (f : attempt_fn) : option (AgentHarnessOutcome * AgentHarnessErrorClass * Z * jsnum * string) :=
  match runAgentHarnessStep (sample_input f) sample_writer ∅ with
  | Some (Ok res, _) =>
      let a := rr_artifact res in
      Some (rr_outcome res, sa_errorClass a, sa_attemptsConsumed a, sa_inputTokens a, rr_artifactPath res)
  | _ => None
  end.

(** A rejected attempt and an accepted one. *)
Example repaired_step :
  sample_outcome (λ k _, Some (sample_result (2 <=? k) ek_none)) =
  Some (oc_accepted, ec_none, 2, num 14, "/runs/1/agent-role-runs/gen.json").
Proof. vm_compute. reflexivity. Qed.

(** The generator has two attempts. *)
Example exhausted_step :
  sample_outcome (λ k _, Some (sample_result false (if k =? 1 then ek_none else ek_retryable))) =
  Some (oc_needs_review, ec_iteration_exhausted, 2, num 14, "/runs/1/agent-role-runs/gen.json").
Proof. vm_compute. reflexivity. Qed.

Example transient_step :
  sample_outcome (λ _ _, Some (sample_result true ek_retryable)) =
  Some (oc_failed_retryable, ec_gateway_error, 2, num 14, "/runs/1/agent-role-runs/gen.json").
Proof. vm_compute. reflexivity. Qed.

Lemma only_accepted_work_completes_witness :
  ∃ res d', runAgentHarnessStep (sample_input (λ k _, Some (sample_result (2 <=? k) ek_none))) sample_writer ∅ =
            Some (Ok res, d') ∧
  ∃ role f profile n,
    prepare_step (sample_input (λ k _, Some (sample_result (2 <=? k) ek_none))) = Ok (role, f, profile) ∧
    sa_attemptsConsumed (rr_artifact res) = Z.of_nat n ∧
    (n <= attempt_budget (sa_maxAttemptsAllowed (rr_artifact res)))%nat ∧
    (rr_mappedJobStatus res = js_completed ↔
     (1 <= n)%nat ∧ ∃ r, f (Z.of_nat n) (role_run_id "gen" (Z.of_nat n)) = Some r ∧
                   ar_judgeAccepted r = true ∧ ar_errorKind r = ek_none) ∧
    (∀ k, 1 <= k < Z.of_nat n → ∃ r, f k (role_run_id "gen" k) = Some r ∧ attempt_end r = None) ∧
    ((n < attempt_budget (sa_maxAttemptsAllowed (rr_artifact res)))%nat →
     rr_outcome res ≠ oc_needs_review ∧ rr_outcome res ≠ oc_failed_retryable).
Proof.
  do 2 eexists. split; [vm_compute; reflexivity|].
  exact (only_accepted_work_completes (sample_input (λ k _, Some (sample_result (2 <=? k) ek_none)))
           sample_writer ∅ _ _ eq_refl).
Defined.

(** The profiles the registry accepts allow at most three attempts, as many as the
    standard depth does: asking for the exhaustive depth changes nothing. *)
Lemma exhaustive_depth_has_no_effect profile depth :
  valid_profile profile →
  attempt_budget (max_attempts_allowed profile depth) =
  attempt_budget (max_attempts_allowed profile td_standard).
Proof.
  intros Hv. apply vp_maxAttempts in Hv. unfold max_attempts_allowed.
  destruct (arp_maxAttempts profile) as [| | |q]; try done.
  assert (q == 1 ∨ q == 2 ∨ q == 3)%Q as Hq.
  { unfold AGENT_ROLE_MAX_ATTEMPT_VALUES, includes_number, Number.eqb, num in Hv. cbn -[Qle_bool] in Hv.
    rewrite !orb_true_iff, !andb_true_iff, !Qle_bool_iff in Hv.
    destruct Hv as [[]|[[]|[[]|]]]; [..|done]; auto using Qle_antisym. }
  assert (∀ c, 3 <= c → js_min (Fin q) (num c) = Fin q) as Hmin.
  { intros c Hc. unfold js_min, num, Number.leb. assert (Qle_bool q (inject_Z c) = true) as ->; [|done].
    apply Qle_bool_iff, (Qle_trans _ (inject_Z 3)); [|by rewrite <- Zle_Qle].
    by destruct Hq as [-> | [-> | ->]]. }
  by destruct depth; rewrite !Hmin.
Qed.

(** A step identifier may lead out of the directory of the artifacts. *)
Lemma step_identifier_escapes :
  ∃ step, is_blank step = false ∧ step_artifact_path "/runs/1" step = "/runs/2/x.json".
Proof. exists "../../2/x". by split; vm_compute. Qed.
