(* ===== verification/HarnessCheckpoint.v ===== *)
(** * Hash-chained checkpoints of the agent harness

    [packages/agentic-harness/src/agent-harness-checkpoint.ts], in memory: the
    structural invariants of a checkpoint, appending to a chain, verifying one
    offline, and the summary of a verified one.

    A checkpoint is the object a file was parsed to, with whatever properties it
    has: the checks read single properties, and the hash covers all of them.
    [Date.parse] of the language is a parameter. *)

From Stdlib Require Import Ascii.
From S2P Require Import Prelude HashChain JsString JsList JsValue CanonicalJson Contracts JsonView TestCaseValidator AgentRoleProfile.

(** [Date.parse]; [None] is [NaN]. *)
Class DateParse := { date_parse : string → option Z }.

Definition AGENT_HARNESS_CHECKPOINT_SCHEMA_VERSION : string := "1.1.0".
Definition AGENT_HARNESS_CHECKPOINT_ROOT_PARENT_HASH : string :=
  "0000000000000000000000000000000000000000000000000000000000000000".
Definition CHECKPOINT_SCHEMA_VIOLATION_MARKER : string := "checkpoint_schema_violation:".
Definition AGENT_HARNESS_CHECKPOINT_STATUSES : list string :=
  ["canceled"; "completed"; "failed"; "skipped"; "started"].

(** ** Properties of a checkpoint *)

Definition int_field (k : string) (c : json) : option Z := field k c ≫= as_integer.

(** [runId] and [parentRunId] of a checkpoint that passed the checks; the parent
    of the root is [null]. *)
Definition ck_runId (c : json) : string := default "" (text_field "runId" c).
Definition ck_parentRunId (c : json) : option string := text_field "parentRunId" c.
Definition ck_chainIndex (c : json) : option Z := int_field "chainIndex" c.
Definition ck_parentHash (c : json) : string := default "" (text_field "parentHash" c).
Definition ck_jobId (c : json) : string := default "" (text_field "jobId" c).

Definition isNonEmptyString : option json → bool := string_where (λ s, negb (bool_decide (s = ""))).
Definition isAgentHarnessCheckpointStatus : option json → bool :=
  string_where (λ s, bool_decide (s ∈ AGENT_HARNESS_CHECKPOINT_STATUSES)).
Definition isHex64_value : option json → bool := string_where isHex64.

(** [UUID_RFC_4122] *)
Definition hex_digits (n : nat) : list (ascii → bool) := replicate n is_hex_digit.
Definition uuid_classes : list (ascii → bool) :=
  hex_digits 8 ++ [lit "-"] ++ hex_digits 4 ++ [lit "-"] ++ hex_digits 4 ++ [lit "-"]
  ++ hex_digits 4 ++ [lit "-"] ++ hex_digits 12.
Definition is_uuid (s : string) : bool := bool_decide (match_classes uuid_classes s = Some "").
Definition isUuid : option json → bool := string_where is_uuid.

(** [ISO_8601_BASIC] is the pattern of the test-case validator. *)
Definition isIsoTimestamp `{DateParse} : option json → bool :=
  string_where (λ s, is_iso_8601 s && bool_decide (is_Some (date_parse s))).

Definition isNonNegativeInteger : option json → bool := integer_from 0.

Inductive CheckpointError : Type :=
| ce_schema_version | ce_job_id | ce_role_step_id | ce_attempt | ce_status | ce_input_hash | ce_output_hash
| ce_next_not_array | ce_next_entry | ce_next_duplicate (entry : string) | ce_next_unsorted
| ce_started_at | ce_completed_at | ce_completed_before_started | ce_error_class | ce_parent_hash
| ce_chain_index | ce_root_parent | ce_run_id | ce_parent_run_id | ce_root_parent_run_id
| ce_self_reference | ce_prompt_tokens | ce_completion_tokens | ce_job_mismatch.

#[export] Instance CheckpointError_eq_dec : EqDecision CheckpointError.
Proof. solve_decision. Defined.

(** Two neighbours of a sorted array that are equal. *)
Fixpoint adjacent_duplicate (l : list string) : option string :=
  match l with
  | x :: (y :: _) as r => if bool_decide (x = y) then Some y else adjacent_duplicate r
  | _ => None
  end.

Definition dedupSortedStrings (values : list json) : outcome CheckpointError (list string) :=
  match mapM as_string values with
  | None => Throw ce_next_entry
  | Some ss =>
      if bool_decide ("" ∈ ss) then Throw ce_next_entry
      else
        let sorted := js_sort String.compare ss in
        match adjacent_duplicate sorted with
        | Some entry => Throw (ce_next_duplicate entry)
        | None => Ok sorted
        end
  end.

Definition check_next (v : option json) : outcome CheckpointError unit :=
  match v with
  | Some (JArray values) =>
      (let* sorted := dedupSortedStrings values in
       guard_throw (bool_decide (as_string <$> values ≠ Some <$> sorted)) ce_next_unsorted)%outcome
  | _ => Throw ce_next_not_array
  end.

Definition is_null (v : option json) : bool := match v with Some JNull => true | _ => false end.

Definition before `{DateParse} (a b : option json) : bool :=
  match (a ≫= as_string) ≫= date_parse, (b ≫= as_string) ≫= date_parse with
  | Some x, Some y => x <? y
  | _, _ => false
  end.

Definition is_root (c : json) : bool := bool_decide (ck_chainIndex c = Some 0).

Definition assertAgentHarnessCheckpointInvariants `{DateParse} (c : json) : outcome CheckpointError unit :=
  (guard_throw (negb (Json.eq_string (field "schemaVersion" c) AGENT_HARNESS_CHECKPOINT_SCHEMA_VERSION))
     ce_schema_version ;;;
   guard_throw (negb (isNonEmptyString (field "jobId" c))) ce_job_id ;;;
   guard_throw (negb (isNonEmptyString (field "roleStepId" c))) ce_role_step_id ;;;
   guard_throw (negb (integer_from 1 (field "attempt" c))) ce_attempt ;;;
   guard_throw (negb (isAgentHarnessCheckpointStatus (field "status" c))) ce_status ;;;
   guard_throw (negb (isHex64_value (field "inputHash" c))) ce_input_hash ;;;
   guard_throw (negb (undefined_or isHex64_value (field "outputHash" c))) ce_output_hash ;;;
   check_next (field "nextRoleStepIds" c) ;;;
   guard_throw (negb (isIsoTimestamp (field "startedAt" c))) ce_started_at ;;;
   guard_throw (negb (isIsoTimestamp (field "completedAt" c))) ce_completed_at ;;;
   guard_throw (before (field "completedAt" c) (field "startedAt" c)) ce_completed_before_started ;;;
   guard_throw (negb (undefined_or isNonEmptyString (field "errorClass" c))) ce_error_class ;;;
   guard_throw (negb (isHex64_value (field "parentHash" c))) ce_parent_hash ;;;
   guard_throw (negb (isNonNegativeInteger (field "chainIndex" c))) ce_chain_index ;;;
   guard_throw (is_root c && bool_decide (ck_parentHash c ≠ AGENT_HARNESS_CHECKPOINT_ROOT_PARENT_HASH))
     ce_root_parent ;;;
   guard_throw (negb (isUuid (field "runId" c))) ce_run_id ;;;
   guard_throw (negb (is_null (field "parentRunId" c) || isUuid (field "parentRunId" c)))
     ce_parent_run_id ;;;
   guard_throw (is_root c && negb (is_null (field "parentRunId" c))) ce_root_parent_run_id ;;;
   guard_throw (bool_decide (ck_parentRunId c = Some (ck_runId c))) ce_self_reference ;;;
   guard_throw (negb (isNonNegativeInteger (field "promptTokens" c))) ce_prompt_tokens ;;;
   guard_throw (negb (isNonNegativeInteger (field "completionTokens" c))) ce_completion_tokens)%outcome.

Definition computeAgentHarnessCheckpointHash `{JsonDigest} (checkpoint : json) : string :=
  sha256Hex_json checkpoint.

(** ** Appending *)

(** [AppendAgentHarnessCheckpointInput]; the status is any string and the numbers
    are any numbers. *)
Record AppendAgentHarnessCheckpointInput := {
  ap_jobId : string;
  ap_roleStepId : string;
  ap_attempt : jsnum;
  ap_status : string;
  ap_inputHash : string;
  ap_outputHash : option string;
  ap_nextRoleStepIds : option (list string);
  ap_startedAt : string;
  ap_completedAt : string;
  ap_errorClass : option string;
  ap_runId : string;
  ap_parentRunId : option string;   (** [None] is [null] *)
  ap_promptTokens : jsnum;
  ap_completionTokens : jsnum;
}.

Definition null_or_text (s : option string) : json := match s with Some s => JString s | None => JNull end.

Definition checkpoint_object (i : AppendAgentHarnessCheckpointInput) (next : list string)
    (parentHash : string) (chainIndex : Z) : json :=
  JObject (Json.literal
    [("schemaVersion", Some (JString AGENT_HARNESS_CHECKPOINT_SCHEMA_VERSION));
     ("jobId", Some (JString (ap_jobId i)));
     ("roleStepId", Some (JString (ap_roleStepId i)));
     ("attempt", Some (json_of_number (ap_attempt i)));
     ("status", Some (JString (ap_status i)));
     ("inputHash", Some (JString (ap_inputHash i)));
     ("outputHash", JString <$> ap_outputHash i);
     ("nextRoleStepIds", Some (JArray (JString <$> next)));
     ("startedAt", Some (JString (ap_startedAt i)));
     ("completedAt", Some (JString (ap_completedAt i)));
     ("errorClass", JString <$> ap_errorClass i);
     ("parentHash", Some (JString parentHash));
     ("chainIndex", Some (Json.jint chainIndex));
     ("runId", Some (JString (ap_runId i)));
     ("parentRunId", Some (null_or_text (ap_parentRunId i)));
     ("promptTokens", Some (json_of_number (ap_promptTokens i)));
     ("completionTokens", Some (json_of_number (ap_completionTokens i)))]).

Definition appendAgentHarnessCheckpoint `{DateParse} `{JsonDigest} (previous : option json)
    (input : AppendAgentHarnessCheckpointInput) : outcome CheckpointError json :=
  (match previous with
   | None => Ok tt
   | Some prev =>
       assertAgentHarnessCheckpointInvariants prev ;;;
       guard_throw (bool_decide (ck_jobId prev ≠ ap_jobId input)) ce_job_mismatch
   end ;;;
   let* next := dedupSortedStrings (JString <$> default [] (ap_nextRoleStepIds input)) in
   let parentHash := match previous with
                     | None => AGENT_HARNESS_CHECKPOINT_ROOT_PARENT_HASH
                     | Some prev => computeAgentHarnessCheckpointHash prev
                     end in
   let chainIndex := match previous with None => 0 | Some prev => default 0 (ck_chainIndex prev) + 1 end in
   let checkpoint := checkpoint_object input next parentHash chainIndex in
   assertAgentHarnessCheckpointInvariants checkpoint ;;;
   Ok checkpoint)%outcome.

(** ** Verifying *)

Inductive AgentHarnessCheckpointBreakReason : Type :=
| br_chain_index_mismatch | br_checkpoint_schema_violation | br_duplicate_chain_index | br_missing_root
| br_parent_hash_mismatch | br_schema_invalid.

#[export] Instance break_reason_eq_dec : EqDecision AgentHarnessCheckpointBreakReason.
Proof. solve_decision. Defined.

Inductive VerifyCheckpointResult : Type :=
| ck_ok (headOfChainHash : string) (chainLength : Z)
| ck_break (firstBreakIndex : Z) (reason : AgentHarnessCheckpointBreakReason).

#[export] Instance VerifyCheckpointResult_eq_dec : EqDecision VerifyCheckpointResult.
Proof. solve_decision. Defined.

(** [detail.includes(CHECKPOINT_SCHEMA_VIOLATION_MARKER)]: the messages of these
    errors carry the marker; the message about a duplicate quotes the entry. *)
Definition carries_marker (e : CheckpointError) : bool :=
  match e with
  | ce_started_at | ce_completed_at | ce_completed_before_started | ce_run_id | ce_parent_run_id
  | ce_root_parent_run_id | ce_self_reference | ce_prompt_tokens | ce_completion_tokens => true
  | ce_next_duplicate entry => includes CHECKPOINT_SCHEMA_VIOLATION_MARKER entry
  | _ => false
  end.

Definition break_reason (e : CheckpointError) : AgentHarnessCheckpointBreakReason :=
  if carries_marker e then br_checkpoint_schema_violation else br_schema_invalid.

(** [runIdToParent]: the parent each run was first registered with. *)
Definition run_map : Type := list (string * option string).

(** The rule on [parentRunId]; [None]: it is violated. *)
Definition register_run (i : Z) (c : json) (runs : run_map) : option run_map :=
  match map_get (ck_runId c) runs with
  | None =>
      if i =? 0 then Some (map_set (ck_runId c) (ck_parentRunId c) runs)
      else match ck_parentRunId c with
           | None => None
           | Some parent =>
               if map_has parent runs then Some (map_set (ck_runId c) (Some parent) runs) else None
           end
  | Some existing => if bool_decide (existing = ck_parentRunId c) then Some runs else None
  end.

Fixpoint verify_checkpoints `{DateParse} `{JsonDigest} (i : Z) (seen : list Z) (runs : run_map)
    (previousHash : string) (checkpoints : list json) : VerifyCheckpointResult :=
  match checkpoints with
  | [] => ck_ok previousHash i
  | current :: rest =>
      match ck_chainIndex current with
      | Some k =>
          if bool_decide (k ∈ seen) then ck_break k br_duplicate_chain_index
          else if negb (k =? i) then ck_break i br_chain_index_mismatch
          else match assertAgentHarnessCheckpointInvariants current with
          | Throw e => ck_break i (break_reason e)
          | Ok _ =>
              if (i =? 0) && bool_decide (ck_parentHash current ≠ AGENT_HARNESS_CHECKPOINT_ROOT_PARENT_HASH)
              then ck_break 0 br_missing_root
              else if negb (i =? 0) && bool_decide (ck_parentHash current ≠ previousHash)
              then ck_break i br_parent_hash_mismatch
              else match register_run i current runs with
              | None => ck_break i br_checkpoint_schema_violation
              | Some runs' =>
                  verify_checkpoints (i + 1) (k :: seen) runs' (computeAgentHarnessCheckpointHash current) rest
              end
          end
      | None => ck_break i br_chain_index_mismatch
      end
  end.

Definition verifyAgentHarnessCheckpointChain `{DateParse} `{JsonDigest} (checkpoints : list json) :
    VerifyCheckpointResult :=
  verify_checkpoints 0 [] [] AGENT_HARNESS_CHECKPOINT_ROOT_PARENT_HASH checkpoints.

(** The summary embedded in an evidence manifest; a broken chain throws. *)
Definition summarizeAgentHarnessCheckpointChain `{DateParse} `{JsonDigest} (checkpoints : list json) :
    outcome (Z * AgentHarnessCheckpointBreakReason) (string * Z) :=
  match verifyAgentHarnessCheckpointChain checkpoints with
  | ck_ok h n => Ok (h, n)
  | ck_break i r => Throw (i, r)
  end.

(** ** Canonical texts of checkpoints

    The file of a checkpoint holds its canonical text: every check reads the same
    from the text as from the object. *)

Lemma as_integer_canonical v : as_integer (canonicalJson v) = as_integer v.
Proof. by destruct v. Qed.

Lemma integer_from_canonical least v : integer_from least (canonicalJson <$> v) = integer_from least v.
Proof. by destruct v as [[]|]. Qed.

Lemma undefined_or_where test v :
  undefined_or (string_where test) (canonicalJson <$> v) = undefined_or (string_where test) v.
Proof. by destruct v as [[]|]. Qed.

Lemma int_field_canonical k c : k ≠ PROTO → int_field k (canonicalJson c) = int_field k c.
Proof.
  intros Hk. unfold int_field. rewrite field_canonicalJson by done.
  destruct (field k c); simpl; [apply as_integer_canonical|done].
Qed.

Lemma as_string_canonical_list (l : list json) : as_string <$> (sortValue <$> l) = as_string <$> l.
Proof. rewrite <- list_fmap_compose. apply list_fmap_ext. intros i v _. apply as_string_canonical. Qed.

Lemma check_next_canonical v : check_next (canonicalJson <$> v) = check_next v.
Proof.
  destruct v as [[| | | |l|]|]; try done. cbn [fmap option_fmap option_map canonicalJson sortValue check_next].
  change (map sortValue l) with (sortValue <$> l). unfold dedupSortedStrings.
  assert (mapM as_string (sortValue <$> l) = mapM as_string l) as ->.
  { induction l as [|x l IH]; [done|].
    change (sortValue <$> x :: l) with (sortValue x :: (sortValue <$> l)). cbn [mapM].
    by rewrite (as_string_canonical x : as_string (sortValue x) = _), IH. }
  destruct (mapM as_string l); [|done]. by rewrite as_string_canonical_list.
Qed.

Lemma is_null_canonical v : is_null (canonicalJson <$> v) = is_null v.
Proof. by destruct v as [[]|]. Qed.

Section dates.
Context `{DateParse}.

Lemma before_canonical a b : before (canonicalJson <$> a) (canonicalJson <$> b) = before a b.
Proof. unfold before. by destruct a as [[]|], b as [[]|]. Qed.

Lemma assert_canonical c :
  assertAgentHarnessCheckpointInvariants (canonicalJson c) = assertAgentHarnessCheckpointInvariants c.
Proof.
  unfold assertAgentHarnessCheckpointInvariants, is_root, ck_chainIndex, ck_parentHash, ck_parentRunId,
    ck_runId, isNonEmptyString, isAgentHarnessCheckpointStatus, isHex64_value, isUuid, isIsoTimestamp,
    isNonNegativeInteger.
  rewrite !int_field_canonical, !text_field_canonical by discriminate.
  rewrite !field_canonicalJson by discriminate.
  rewrite !string_where_canonical, !integer_from_canonical, !undefined_or_where, check_next_canonical,
    before_canonical, is_null_canonical.
  assert (∀ s, Json.eq_string (canonicalJson <$> field "schemaVersion" c) s =
               Json.eq_string (field "schemaVersion" c) s) as -> by by destruct (field _ c) as [[]|].
  done.
Qed.
End dates.

(** Two checkpoints with one canonical text. *)
Definition same_text (c1 c2 : json) : Prop := canonicalJson c1 = canonicalJson c2.

Lemma same_text_field k c1 c2 : k ≠ PROTO → same_text c1 c2 → text_field k c1 = text_field k c2.
Proof. intros Hk E. by rewrite <- (text_field_canonical k c1), <- (text_field_canonical k c2), E. Qed.

(** ** What a verified chain is *)

(** The rule on [parentRunId] at position [i] after the checkpoints [earlier]: a
    run that has been seen keeps its parent, a new one has a parent that has been
    seen, and the first one needs none. *)
Definition traced (i : Z) (earlier : list json) (c : json) : Prop :=
  match find_by ck_runId (ck_runId c) earlier with
  | Some first => ck_parentRunId first = ck_parentRunId c
  | None => i = 0 ∨ ∃ parent, ck_parentRunId c = Some parent ∧ is_Some (find_by ck_runId parent earlier)
  end.

Fixpoint register_runs (i : Z) (runs : run_map) (cs : list json) : option run_map :=
  match cs with
  | [] => Some runs
  | c :: rest => runs' ← register_run i c runs; register_runs (i + 1) runs' rest
  end.

(** The map holds the parents of the first checkpoints of the runs so far. *)
Definition runs_agree (runs : run_map) (earlier : list json) : Prop :=
  ∀ r, map_get r runs = ck_parentRunId <$> find_by ck_runId r earlier.

Lemma runs_agree_snoc runs earlier c parent :
  runs_agree runs earlier → find_by ck_runId (ck_runId c) earlier = None → ck_parentRunId c = parent →
  runs_agree (map_set (ck_runId c) parent runs) (earlier ++ [c]).
Proof.
  intros Ha Hn Hp r. rewrite map_get_set, find_by_app, find_by_cons. case_bool_decide as Hr.
  - subst r. by rewrite Hn, bool_decide_eq_true_2, <- Hp by done.
  - rewrite bool_decide_eq_false_2 by congruence. rewrite Ha. by destruct (find_by ck_runId r earlier).
Qed.

Lemma runs_agree_same runs earlier c first :
  runs_agree runs earlier → find_by ck_runId (ck_runId c) earlier = Some first →
  runs_agree runs (earlier ++ [c]).
Proof.
  intros Ha Hf r. rewrite Ha, find_by_app, find_by_cons. destruct (find_by ck_runId r earlier) eqn:E; [done|].
  case_bool_decide; [subst r; congruence|done].
Qed.

Lemma register_run_spec i c runs earlier :
  runs_agree runs earlier →
  match register_run i c runs with
  | Some runs' => traced i earlier c ∧ runs_agree runs' (earlier ++ [c])
  | None => ¬ traced i earlier c
  end.
Proof.
  intros Ha. unfold register_run, traced. rewrite (Ha (ck_runId c)).
  destruct (find_by ck_runId (ck_runId c) earlier) as [first|] eqn:Ef; simpl.
  - case_bool_decide; [|done]. split; [done|]. by eapply runs_agree_same.
  - destruct (Z.eqb_spec i 0) as [->|Hi].
    { split; [by left|]. by apply runs_agree_snoc. }
    destruct (ck_parentRunId c) as [parent|] eqn:Ep; [|naive_solver].
    unfold map_has. rewrite (Ha parent). case_bool_decide as Hs; rewrite fmap_is_Some in Hs.
    + split; [|by apply runs_agree_snoc]. right. by exists parent.
    + intros [?|(p & [= <-] & Hp)]; done.
Qed.

Lemma register_runs_spec i runs earlier cs :
  runs_agree runs earlier →
  is_Some (register_runs i runs cs) ↔
  ∀ k c, cs !! k = Some c → traced (i + Z.of_nat k) (earlier ++ take k cs) c.
Proof.
  revert i runs earlier; induction cs as [|c cs IH]; intros i runs earlier Ha; simpl.
  { split; [done|by eexists]. }
  pose proof (register_run_spec i c runs earlier Ha) as Hr.
  destruct (register_run i c runs) as [runs'|]; simpl.
  - destruct Hr as [Ht Ha']. rewrite (IH _ _ _ Ha'). split.
    + intros H [|k] c' Hk; simpl in Hk.
      * injection Hk as <-. by rewrite Z.add_0_r, app_nil_r.
      * simpl. specialize (H k c' Hk). rewrite <- app_assoc in H.
        by replace (i + 1 + Z.of_nat k) with (i + Z.of_nat (S k)) in H by lia.
    + intros H k c' Hk. specialize (H (S k) c' Hk). rewrite <- app_assoc.
      by replace (i + 1 + Z.of_nat k) with (i + Z.of_nat (S k)) by lia.
  - split; [by intros [? ?]|]. intros H. destruct Hr. specialize (H 0%nat c eq_refl).
    by rewrite Z.add_0_r, app_nil_r in H.
Qed.

Section chains.
Context `{DateParse} `{JsonDigest}.

(** The checkpoint at position [i] whose predecessor hashes to [prev]. *)
Definition ck_link (i : Z) (prev : string) (c : json) : Prop :=
  ck_chainIndex c = Some i ∧ assertAgentHarnessCheckpointInvariants c = Ok tt ∧
  ck_parentHash c = (if i =? 0 then AGENT_HARNESS_CHECKPOINT_ROOT_PARENT_HASH else prev).

#[local] Abbreviation linked := (hash_chain computeAgentHarnessCheckpointHash ck_link).
#[local] Abbreviation head_of := (chain_head computeAgentHarnessCheckpointHash).

Lemma verify_cons i seen runs prev c cs h n :
  Forall (λ k, k < i) seen →
  verify_checkpoints i seen runs prev (c :: cs) = ck_ok h n ↔
  ck_link i prev c ∧ ∃ runs', register_run i c runs = Some runs' ∧
    verify_checkpoints (i + 1) (i :: seen) runs' (computeAgentHarnessCheckpointHash c) cs = ck_ok h n.
Proof.
  intros Hs. unfold ck_link. simpl. destruct (ck_chainIndex c) as [k|]; [|naive_solver].
  destruct (Z.eqb_spec k i) as [->|Hki]; simpl; [|case_bool_decide; naive_solver].
  rewrite bool_decide_eq_false_2; [|rewrite Forall_forall in Hs; intros Hin; specialize (Hs i Hin); lia].
  destruct (assertAgentHarnessCheckpointInvariants c) as [[]|]; [|naive_solver].
  destruct (Z.eqb_spec i 0) as [->|Hi0]; simpl; case_bool_decide as Hp; simpl; try naive_solver.
  all: destruct (register_run _ c runs); naive_solver.
Qed.

Lemma verify_checkpoints_ok i seen runs prev cs h n :
  Forall (λ k, k < i) seen →
  verify_checkpoints i seen runs prev cs = ck_ok h n ↔
  linked i prev cs ∧ is_Some (register_runs i runs cs) ∧ h = head_of prev cs ∧ n = i + Z.of_nat (length cs).
Proof.
  revert i seen runs prev; induction cs as [|c cs IH]; intros i seen runs prev Hs.
  - simpl. rewrite Z.add_0_r. split; [intros [= <- <-]; by split_all|by intros (_ & _ & -> & ->)].
  - rewrite verify_cons, chain_head_cons by done. cbn [hash_chain register_runs].
    assert (∀ m, n = i + 1 + Z.of_nat m ↔ n = i + Z.of_nat (S m)) as Hn by (intros; lia).
    setoid_rewrite IH; [|by constructor; [lia|eapply Forall_impl; [exact Hs|simpl; lia]]].
    simpl length. setoid_rewrite Hn. destruct (register_run i c runs) as [runs'|]; simpl; naive_solver.
Qed.

(** A chain verifies exactly when every checkpoint is well formed, has its
    position as its index and the hash of its predecessor as its parent, and names
    a run that has been seen as the parent of its own. *)
Lemma verify_ok_iff cs h n :
  verifyAgentHarnessCheckpointChain cs = ck_ok h n ↔
  linked 0 AGENT_HARNESS_CHECKPOINT_ROOT_PARENT_HASH cs ∧
  (∀ k c, cs !! k = Some c → traced (Z.of_nat k) (take k cs) c) ∧
  h = head_of AGENT_HARNESS_CHECKPOINT_ROOT_PARENT_HASH cs ∧ n = Z.of_nat (length cs).
Proof.
  unfold verifyAgentHarnessCheckpointChain. rewrite verify_checkpoints_ok by constructor.
  rewrite (register_runs_spec 0 [] []) by done. done.
Qed.

Lemma checkpoint_hash_inj c1 c2 :
  computeAgentHarnessCheckpointHash c1 = computeAgentHarnessCheckpointHash c2 →
  same_text c1 c2 ∨ digest_collision.
Proof.
  unfold computeAgentHarnessCheckpointHash, sha256Hex_json, same_text. intros E.
  destruct (decide (canonicalJson c1 = canonicalJson c2)); [by left|]. right. by do 2 eexists.
Qed.
End chains.

Abbreviation linked := (hash_chain computeAgentHarnessCheckpointHash ck_link).
Abbreviation head_of := (chain_head computeAgentHarnessCheckpointHash).

(** ** Appended checkpoints *)

Section appended.
Context `{DateParse} `{JsonDigest}.

Lemma assert_root_parent c :
  assertAgentHarnessCheckpointInvariants c = Ok tt → ck_chainIndex c = Some 0 → ck_parentRunId c = None.
Proof.
  unfold assertAgentHarnessCheckpointInvariants. rewrite !outcome_then_Ok, !guard_throw_Ok.
  intros (_ & _ & _ & _ & _ & _ & _ & _ & _ & _ & _ & _ & _ & _ & _ & _ & _ & Hr & _) Hi.
  unfold is_root in Hr. rewrite Hi, bool_decide_eq_true_2 in Hr by done. apply negb_false_iff in Hr.
  unfold ck_parentRunId, text_field. by destruct (field "parentRunId" c) as [[]|].
Qed.

Lemma appended_fields i next parentHash k :
  ck_chainIndex (checkpoint_object i next parentHash k) = Some k ∧
  ck_parentHash (checkpoint_object i next parentHash k) = parentHash ∧
  ck_jobId (checkpoint_object i next parentHash k) = ap_jobId i.
Proof.
  unfold ck_chainIndex, ck_parentHash, ck_jobId, int_field, text_field, checkpoint_object, field.
  rewrite !Json.get_literal. cbn [Json.literal_get String.eqb Ascii.eqb Bool.eqb].
  destruct (ap_outputHash i), (ap_errorClass i); cbn [fmap option_fmap option_map]; split_all;
    simpl; try done; apply as_integer_jint.
Qed.

(** A checkpoint that was appended is well formed and linked to its predecessor. *)
Lemma append_Ok previous input c :
  appendAgentHarnessCheckpoint previous input = Ok c →
  assertAgentHarnessCheckpointInvariants c = Ok tt ∧ ck_jobId c = ap_jobId input ∧
  ck_chainIndex c = Some match previous with None => 0 | Some prev => default 0 (ck_chainIndex prev) + 1 end ∧
  ck_parentHash c = match previous with
                    | None => AGENT_HARNESS_CHECKPOINT_ROOT_PARENT_HASH
                    | Some prev => computeAgentHarnessCheckpointHash prev
                    end ∧
  (∀ prev, previous = Some prev → ck_jobId prev = ap_jobId input).
Proof.
  unfold appendAgentHarnessCheckpoint. intros [Hprev Hrest]%outcome_then_Ok.
  apply outcome_bind_Ok in Hrest as (next & _ & [Ha Hc]%outcome_then_Ok).
  injection Hc as <-. edestruct appended_fields as (-> & -> & ->). split_all; try done.
  intros prev ->. apply outcome_then_Ok in Hprev as [_ Hg]. apply guard_throw_Ok in Hg.
  apply bool_decide_eq_false in Hg. by apply dec_stable.
Qed.

Lemma linked_last cs c :
  linked 0 AGENT_HARNESS_CHECKPOINT_ROOT_PARENT_HASH cs → last cs = Some c →
  ck_chainIndex c = Some (Z.of_nat (length cs) - 1).
Proof.
  intros Hl Hc. rewrite last_lookup in Hc. pose proof (lookup_lt_Some _ _ _ Hc) as Hlt.
  destruct (hash_chain_lookup _ _ _ _ _ _ _ Hl Hc) as (-> & _). f_equal. lia.
Qed.

Lemma append_links cs input c :
  linked 0 AGENT_HARNESS_CHECKPOINT_ROOT_PARENT_HASH cs →
  appendAgentHarnessCheckpoint (last cs) input = Ok c →
  linked 0 AGENT_HARNESS_CHECKPOINT_ROOT_PARENT_HASH (cs ++ [c]).
Proof.
  intros Hl (Ha & _ & Hi & Hp & _)%append_Ok. apply hash_chain_snoc. split; [done|].
  unfold ck_link. rewrite Ha, Hi, Hp. unfold chain_head.
  destruct (last cs) as [prev|] eqn:El.
  - rewrite (linked_last cs prev) by done. simpl.
    assert (0 < Z.of_nat (length cs)) as Hpos.
    { destruct cs; [done|]. simpl. lia. }
    destruct (Z.eqb_spec (0 + Z.of_nat (length cs)) 0); [lia|]. split_all; try done. f_equal. lia.
  - apply last_None in El as ->. done.
Qed.

(** ** Properties *)

(** Appending to a verified chain: the new checkpoint continues the chain, with the
    next index and the hash of the head, and the longer chain verifies exactly when
    the run of the checkpoint obeys the rule on parents, which appending does not
    check. *)
Theorem appended_chain_verifies_iff cs h n input c :
  verifyAgentHarnessCheckpointChain cs = ck_ok h n →
  appendAgentHarnessCheckpoint (last cs) input = Ok c →
  ck_chainIndex c = Some n ∧ ck_parentHash c = h ∧
  (verifyAgentHarnessCheckpointChain (cs ++ [c]) =
     ck_ok (computeAgentHarnessCheckpointHash c) (n + 1) ↔ traced n cs c).
Proof.
  rewrite verify_ok_iff. intros (Hl & Ht & -> & ->) Ha. pose proof (append_links _ _ _ Hl Ha) as Hl'.
  pose proof Hl' as [_ (Hi & _ & Hp)]%hash_chain_snoc. rewrite Hi. split; [done|]. split.
  { rewrite Hp. destruct (Z.eqb_spec (0 + Z.of_nat (length cs)) 0); [|done]. by destruct cs. }
  rewrite verify_ok_iff, chain_head_snoc, length_app. split.
  - intros (_ & Ht' & _). specialize (Ht' (length cs) c).
    rewrite take_app_length in Ht'. apply Ht'. by rewrite lookup_app_r, Nat.sub_diag.
  - intros Hc. split_all; try done; [|simpl; lia]. intros k c' Hk.
    destruct (decide (k < length cs)%nat) as [Hlt|Hge].
    + rewrite lookup_app_l in Hk by done. rewrite take_app_le by lia. by apply Ht.
    + assert (k = length cs) as ->.
      { apply lookup_lt_Some in Hk. rewrite length_app in Hk. simpl in Hk. lia. }
      rewrite lookup_app_r, Nat.sub_diag in Hk by done. injection Hk as <-. by rewrite take_app_length.
Qed.

(** The chain is tamper-evident: two chains of one length that verify with the same
    head hash have the same canonical texts, whatever properties their checkpoints
    carry, unless two different texts with the same digest have been found. *)
Theorem checkpoints_tamper_evident cs1 cs2 h n :
  verifyAgentHarnessCheckpointChain cs1 = ck_ok h n →
  verifyAgentHarnessCheckpointChain cs2 = ck_ok h n →
  Forall2 same_text cs1 cs2 ∨ digest_collision.
Proof.
  rewrite !verify_ok_iff. intros (H1 & _ & Hh & Hn) (H2 & _ & Hh' & Hn').
  eapply (hash_chain_tamper computeAgentHarnessCheckpointHash ck_link same_text digest_collision);
    [apply checkpoint_hash_inj| |exact H1|exact H2|lia|congruence].
  intros i p1 p2 e1 e2 Hi (_ & _ & Hp1) (_ & _ & Hp2) E.
  assert (ck_parentHash e1 = ck_parentHash e2) as Hp.
  { unfold ck_parentHash. by rewrite (same_text_field "parentHash" e1 e2). }
  destruct (Z.eqb_spec i 0); [lia|congruence].
Qed.

(** One step up the trace: the parent of a run is the one its first checkpoint
    names. *)
Definition called_by (cs : list json) (run parent : string) : Prop :=
  ∃ c, find_by ck_runId run cs = Some c ∧ ck_parentRunId c = Some parent.

(** C14. The runs of a verified chain form a tree below the run of its first checkpoint:
    every checkpoint of a run names the same parent, and following parents from any
    run arrives at the root, which has none. *)
Theorem verified_runs_form_a_tree cs h n :
  verifyAgentHarnessCheckpointChain cs = ck_ok h n →
  (∀ c c', c ∈ cs → c' ∈ cs → ck_runId c = ck_runId c' → ck_parentRunId c = ck_parentRunId c') ∧
  ∀ c, c ∈ cs → ∃ root, head cs = Some root ∧ ck_parentRunId root = None ∧
                        rtc (called_by cs) (ck_runId c) (ck_runId root).
Proof.
  rewrite verify_ok_iff. intros (Hl & Ht & _). split.
  - assert (∀ c, c ∈ cs → ck_parentRunId <$> find_by ck_runId (ck_runId c) cs = Some (ck_parentRunId c)) as Hfirst.
    { intros c (k & Hk)%list_elem_of_lookup. specialize (Ht k c Hk). unfold traced in Ht.
      rewrite <- (take_drop_middle cs k c Hk), find_by_app.
      destruct (find_by ck_runId (ck_runId c) (take k cs)); simpl; [by rewrite Ht|].
      by rewrite find_by_cons, bool_decide_eq_true_2. }
    intros c c' Hc Hc' E. apply Hfirst in Hc, Hc'. rewrite E in Hc. congruence.
  - intros c (k & Hk)%list_elem_of_lookup. revert c Hk.
    induction (Nat.lt_wf_0 k) as [k _ IH]. intros c Hk. specialize (Ht k c Hk) as Htr. unfold traced in Htr.
    assert (∀ run x, find_by ck_runId run (take k cs) = Some x →
              ∃ j, (j < k)%nat ∧ cs !! j = Some x ∧ ck_runId x = run) as Hearlier.
    { intros run x [Hx Hr]%find_by_Some. apply list_elem_of_lookup in Hx as (j & Hj).
      apply lookup_take_Some in Hj as [Hj Hlt]. by exists j. }
    destruct (find_by ck_runId (ck_runId c) (take k cs)) as [x|] eqn:Ef.
    { apply Hearlier in Ef as (j & Hlt & Hj & <-). by apply (IH j). }
    destruct Htr as [Hk0|(p & Hp & [x Hx])].
    + assert (k = 0%nat) as -> by lia. exists c. destruct cs as [|c0 cs']; [done|]. injection Hk as ->.
      split_all; [done| |reflexivity]. destruct Hl as [(Hi & Ha & _) _]. by apply assert_root_parent.
    + apply Hearlier in Hx as (j & Hlt & Hj & Hr). destruct (IH j Hlt x Hj) as (root & Hh & Hn & Hrtc).
      exists root. split_all; try done. eapply rtc_l; [|rewrite <- Hr; exact Hrtc].
      exists c. split; [|congruence]. rewrite <- (take_drop_middle cs k c Hk), find_by_app, Ef, find_by_cons.
      by rewrite bool_decide_eq_true_2.
Qed.
End appended.

(** ** Examples *)

Section examples.
#[local] Existing Instance zero_digest.
#[local] Instance any_date : DateParse := {| date_parse _ := Some 0 |}.

Definition root_run : string := "00000000-0000-4000-8000-000000000001".
Definition child_run : string := "00000000-0000-4000-8000-000000000002".

Definition sample_append (status run : string) (parent : option string) (next : list string) :
    AppendAgentHarnessCheckpointInput :=
  {| ap_jobId := "job-1"; ap_roleStepId := "generator-1"; ap_attempt := num 1; ap_status := status;
     ap_inputHash := AGENT_HARNESS_CHECKPOINT_ROOT_PARENT_HASH; ap_outputHash := None;
     ap_nextRoleStepIds := Some next; ap_startedAt := "2026-05-01T10:00:00Z";
     ap_completedAt := "2026-05-01T10:00:01.5+02:00"; ap_errorClass := None; ap_runId := run;
     ap_parentRunId := parent; ap_promptTokens := num 10; ap_completionTokens := num 0 |}.

Definition appended (previous : option json) (input : AppendAgentHarnessCheckpointInput) : json :=
  match appendAgentHarnessCheckpoint previous input with Ok c => c | Throw _ => JNull end.

Definition sample_started : json := appended None (sample_append "started" root_run None ["judge"; "critic"]).
Definition sample_completed : json := appended (Some sample_started) (sample_append "completed" root_run None []).
Definition sample_child_input : AppendAgentHarnessCheckpointInput :=
  sample_append "completed" child_run (Some root_run) [].
Definition sample_child : json := appended (Some sample_completed) sample_child_input.

Lemma appended_chain_verifies_iff_witness :
  verifyAgentHarnessCheckpointChain [sample_started; sample_completed] =
    ck_ok AGENT_HARNESS_CHECKPOINT_ROOT_PARENT_HASH 2 ∧
  appendAgentHarnessCheckpoint (last [sample_started; sample_completed]) sample_child_input = Ok sample_child ∧
  ck_chainIndex sample_child = Some 2 ∧ ck_parentHash sample_child = AGENT_HARNESS_CHECKPOINT_ROOT_PARENT_HASH ∧
  (verifyAgentHarnessCheckpointChain ([sample_started; sample_completed] ++ [sample_child]) =
     ck_ok (computeAgentHarnessCheckpointHash sample_child) (2 + 1) ↔
   traced 2 [sample_started; sample_completed] sample_child).
Proof.
  split; [vm_compute; reflexivity|]. split; [vm_compute; reflexivity|].
  apply (appended_chain_verifies_iff [sample_started; sample_completed] _ _ sample_child_input);
    vm_compute; reflexivity.
Defined.

Lemma checkpoints_tamper_evident_witness :
  verifyAgentHarnessCheckpointChain [sample_started; sample_completed] =
    ck_ok AGENT_HARNESS_CHECKPOINT_ROOT_PARENT_HASH 2 ∧
  (Forall2 same_text [sample_started; sample_completed] [sample_started; sample_completed] ∨ digest_collision).
Proof.
  split; [vm_compute; reflexivity|].
  apply (checkpoints_tamper_evident _ _ AGENT_HARNESS_CHECKPOINT_ROOT_PARENT_HASH 2); vm_compute; reflexivity.
Defined.

Lemma verified_runs_form_a_tree_witness :
  verifyAgentHarnessCheckpointChain [sample_started; sample_completed; sample_child] =
    ck_ok AGENT_HARNESS_CHECKPOINT_ROOT_PARENT_HASH 3 ∧
  ∃ root, head [sample_started; sample_completed; sample_child] = Some root ∧ ck_parentRunId root = None ∧
          rtc (called_by [sample_started; sample_completed; sample_child]) (ck_runId sample_child) (ck_runId root).
Proof.
  split; [vm_compute; reflexivity|].
  apply (verified_runs_form_a_tree [sample_started; sample_completed; sample_child]
           AGENT_HARNESS_CHECKPOINT_ROOT_PARENT_HASH 3); [vm_compute; reflexivity|].
  right; right; left.
Defined.

(** A checkpoint whose parent run nobody has seen is appended, and only the
    verifier rejects it. *)
Lemma orphan_is_appended :
  ∃ c, appendAgentHarnessCheckpoint (Some sample_started)
         (sample_append "started" child_run (Some "00000000-0000-4000-8000-000000000009") []) = Ok c ∧
       verifyAgentHarnessCheckpointChain [sample_started; c] = ck_break 1 br_checkpoint_schema_violation.
Proof. eexists. split; vm_compute; reflexivity. Qed.

Definition with_property (k : string) (v : json) (c : json) : json :=
  match c with JObject fields => JObject ((k, v) :: filter (λ p, p.1 ≠ k) fields) | _ => c end.

(** The set of properties is not closed: a checkpoint with a property the schema
    does not know verifies. *)
Lemma unknown_property_is_accepted :
  verifyAgentHarnessCheckpointChain [with_property "prompt" (JString "secret") sample_started] =
  ck_ok AGENT_HARNESS_CHECKPOINT_ROOT_PARENT_HASH 1.
Proof. vm_compute. reflexivity. Qed.

(** The reason of a break depends on the text of a duplicate entry, which the
    message quotes. *)
Example duplicate_entry_reasons :
  let chain entry :=
    [with_property "nextRoleStepIds" (JArray [JString entry; JString entry]) sample_started] in
  verifyAgentHarnessCheckpointChain (chain "judge") = ck_break 0 br_schema_invalid ∧
  verifyAgentHarnessCheckpointChain (chain "checkpoint_schema_violation:") =
    ck_break 0 br_checkpoint_schema_violation.
Proof. split; vm_compute; reflexivity. Qed.
End examples.
