(* ===== verification/CheckpointStore.v ===== *)
(** * Checkpoints on disk

    [packages/agentic-harness/src/agent-harness-checkpoint.ts], persistence: one
    file per checkpoint below the directory of its job, named by the padded chain
    index, and reading a chain back. Chain indices are below 10^21, where [String]
    of a number is its decimal form. *)

From Stdlib Require Import Ascii.
From S2P Require Import Prelude HashChain JsString NodePath JsList JsValue CanonicalJson Decimal Contracts JsonView.
From S2P Require Import TestCaseValidator AgentRoleProfile ArtifactFiles HarnessCheckpoint.

Definition AGENT_HARNESS_CHECKPOINT_DIRECTORY : string := "agent-harness-checkpoints".
Definition CHAIN_INDEX_FILENAME_WIDTH : nat := 8.

(** [SAFE_JOB_ID] *)
Definition is_safe_char (c : ascii) : bool :=
  let n := nat_of_ascii c in
  ((65 <=? n) && (n <=? 90) || (97 <=? n) && (n <=? 122) || (48 <=? n) && (n <=? 57)
   || (n =? 46) || (n =? 95) || (n =? 45))%nat.
Definition is_safe_job_id (jobId : string) : bool :=
  negb (bool_decide (jobId = "")) && all_chars is_safe_char jobId.

Inductive StoreError : Type :=
| se_run_dir | se_unsafe_job | se_invalid (e : CheckpointError)
| se_not_json (name : string) | se_not_an_object (name : string) | se_bad_file (name : string) (e : CheckpointError)
| se_other_job (name : string).

#[export] Instance StoreError_eq_dec : EqDecision StoreError.
Proof. solve_decision. Defined.

Definition checkpointDir (runDir jobId : string) : outcome StoreError string :=
  (guard_throw (negb (is_safe_job_id jobId)) se_unsafe_job ;;;
   Ok (posix_join [runDir; AGENT_HARNESS_CHECKPOINT_DIRECTORY; jobId]))%outcome.

(** [s.padStart(width, "0")] *)
Fixpoint zeros (n : nat) : string := match n with O => EmptyString | S n' => String "0" (zeros n') end.
Definition pad_start (width : nat) (s : string) : string := zeros (width - String.length s) +:+ s.

Definition checkpointFilename (chainIndex : Z) : string :=
  pad_start CHAIN_INDEX_FILENAME_WIDTH (pretty (Z.to_N chainIndex)) +:+ ".json".

Definition checkpoint_path (dir : string) (c : json) : string :=
  posix_join [dir; checkpointFilename (default 0 (ck_chainIndex c))].

Section store.
Context `{DateParse} `{DirectoryListing}.

Definition writeAgentHarnessCheckpoint (runDir : string) (w : writer) (checkpoint : json) (d : disk) :
    outcome StoreError (string * disk) :=
  (guard_throw (bool_decide (runDir = "")) se_run_dir ;;;
   match assertAgentHarnessCheckpointInvariants checkpoint with
   | Throw e => Throw (se_invalid e)
   | Ok _ =>
       let* dir := checkpointDir runDir (ck_jobId checkpoint) in
       let path := checkpoint_path dir checkpoint in
       Ok (path, renamed path w (canonicalJson checkpoint) d)
   end)%outcome.

(** One file of the listing. *)
Definition read_checkpoint (d : disk) (dir jobId name : string) : outcome StoreError json :=
  match d !! posix_join [dir; name] with
  | None | Some None => Throw (se_not_json name)
  | Some (Some (JNull | JBool _ | JNumber _ | JString _)) => Throw (se_not_an_object name)
  | Some (Some candidate) =>
      match assertAgentHarnessCheckpointInvariants candidate with
      | Throw e => Throw (se_bad_file name e)
      | Ok _ => (guard_throw (bool_decide (ck_jobId candidate ≠ jobId)) (se_other_job name) ;;; Ok candidate)%outcome
      end
  end.

Definition json_files (d : disk) (dir : string) : list string :=
  js_sort String.compare (filter (λ name, ends_with ".json" name = true) (readdir d dir)).

(** [a.chainIndex - b.chainIndex] *)
Definition by_index : json → json → comparison := cmp_on (λ c, default 0 (ck_chainIndex c)) Z.compare.

Definition readAgentHarnessCheckpointChain (runDir jobId : string) (d : disk) : outcome StoreError (list json) :=
  (let* dir := checkpointDir runDir jobId in
   let* checkpoints := outcome_map_list (read_checkpoint d dir jobId) (json_files d dir) in
   Ok (js_sort by_index checkpoints))%outcome.

Definition verifyAgentHarnessCheckpointChainFromDisk `{JsonDigest} (runDir jobId : string) (d : disk) :
    outcome StoreError VerifyCheckpointResult :=
  outcome_map verifyAgentHarnessCheckpointChain (readAgentHarnessCheckpointChain runDir jobId d).
End store.

(** ** File names *)

Lemma decimal_value_zeros n s : decimal_value 0 (zeros n +:+ s) = decimal_value 0 s.
Proof. induction n as [|n IH]; [done|]. exact IH. Qed.

Lemma padded_value n k : decimal_value 0 (pad_start n (pretty k)) = Some (Z.of_N k).
Proof. unfold pad_start. by rewrite decimal_value_zeros, decimal_value_pretty. Qed.

Lemma checkpointFilename_inj i j : 0 <= i → 0 <= j → checkpointFilename i = checkpointFilename j → i = j.
Proof.
  intros Hi Hj E%string_app_inj_r%(f_equal (decimal_value 0)). rewrite !padded_value in E.
  injection E as E. lia.
Qed.

Lemma checkpointFilename_json i : ends_with ".json" (checkpointFilename i) = true.
Proof. apply ends_with_spec. by eexists. Qed.

Lemma checkpointFilename_ok i : file_name_ok (checkpointFilename i) = true.
Proof.
  apply file_name_ok_spec. unfold checkpointFilename.
  pose proof (decimal_value_digits _ _ _ (padded_value CHAIN_INDEX_FILENAME_WIDTH (Z.to_N i))) as Hd.
  set (s := pad_start _ _) in *. split.
  { rewrite has_char_app, (all_chars_has_char is_decimal_digit) by done. done. }
  split_all; intros E; apply (f_equal String.length) in E; rewrite length_string_app in E; simpl in E; lia.
Qed.

(** ** Reading what was written *)

Lemma outcome_map_list_Ok {E A B} (f : A → outcome E B) (g : A → B) l :
  (∀ x, x ∈ l → f x = Ok (g x)) → outcome_map_list f l = Ok (g <$> l).
Proof.
  induction l as [|x l IH]; intros Hf; [done|]. simpl.
  rewrite (Hf x) by left. rewrite IH; [done|]. intros y Hy. apply Hf. by right.
Qed.

Lemma outcome_map_list_ext {E A B} (f g : A → outcome E B) l :
  (∀ x, x ∈ l → f x = g x) → outcome_map_list f l = outcome_map_list g l.
Proof.
  induction l as [|x l IH]; intros Hf; [done|]. simpl.
  rewrite (Hf x) by left. rewrite IH; [done|]. intros y Hy. apply Hf. by right.
Qed.

Section properties.
Context `{DateParse} `{DirectoryListing} `{JsonDigest}.

(** The files that are read are those of the directory, however they are listed. *)
Lemma json_files_permutation d dir :
  json_files d dir ≡ₚ filter (λ name, ends_with ".json" name = true) (list_directory d dir).
Proof. unfold json_files. by rewrite js_sort_Permutation, readdir_lists. Qed.

(** Reading depends only on the files with the extension of checkpoints. *)
Lemma read_chain_ext runDir jobId dir d1 d2 :
  checkpointDir runDir jobId = Ok dir →
  (∀ name, file_name_ok name = true → ends_with ".json" name = true →
           d1 !! posix_join [dir; name] = d2 !! posix_join [dir; name]) →
  readAgentHarnessCheckpointChain runDir jobId d1 = readAgentHarnessCheckpointChain runDir jobId d2.
Proof.
  intros Hdir Hd. unfold readAgentHarnessCheckpointChain. rewrite Hdir. simpl.
  assert (json_files d1 dir = json_files d2 dir) as E.
  { unfold json_files. apply js_sort_unique; [apply _|]. rewrite !readdir_lists. by apply list_directory_ext. }
  rewrite E, (outcome_map_list_ext _ (read_checkpoint d2 dir jobId)); [done|].
  intros name Hname. rewrite json_files_permutation in Hname.
  apply list_elem_of_filter in Hname as (Hn & (Hok & _)%list_directory_spec).
  unfold read_checkpoint. by rewrite Hd.
Qed.

Definition index_of (c : json) : Z := default 0 (ck_chainIndex c).

Lemma linked_keys cs :
  linked 0 AGENT_HARNESS_CHECKPOINT_ROOT_PARENT_HASH cs → index_of <$> cs = seqZ 0 (Z.of_nat (length cs)).
Proof. apply hash_chain_keys. intros j p e [Hi _]. unfold index_of. by rewrite Hi. Qed.

Lemma index_of_canonical c : index_of (canonicalJson c) = index_of c.
Proof. unfold index_of, ck_chainIndex. by rewrite int_field_canonical. Qed.

(** The files of a directory are those of a chain: each checkpoint is in the file
    of its index, and no other file has the extension. *)
Record holds_chain (d : disk) (dir : string) (cs : list json) : Prop := {
  hc_stored c : c ∈ cs → d !! checkpoint_path dir c = Some (Some (canonicalJson c));
  hc_only name : ends_with ".json" name = true → file_name_ok name = true →
                 is_Some (d !! posix_join [dir; name]) → ∃ c, c ∈ cs ∧ name = checkpointFilename (index_of c);
}.

Lemma json_files_chain d dir cs :
  linked 0 AGENT_HARNESS_CHECKPOINT_ROOT_PARENT_HASH cs → holds_chain d dir cs →
  json_files d dir ≡ₚ (checkpointFilename ∘ index_of) <$> cs.
Proof.
  intros Hl [Hs Ho]. rewrite json_files_permutation.
  apply NoDup_Permutation; [apply NoDup_filter, list_directory_NoDup| |].
  - rewrite list_fmap_compose, linked_keys by done.
    apply NoDup_fmap_2_strong; [|apply NoDup_seqZ].
    intros i j Hi%elem_of_seqZ Hj%elem_of_seqZ. apply checkpointFilename_inj; lia.
  - intros name. rewrite list_elem_of_filter, list_directory_spec, list_elem_of_fmap. split.
    + intros (Hj & Hn & Hd). destruct (Ho name Hj Hn Hd) as (c & Hc & ->). by exists c.
    + intros (c & -> & Hc). split_all; [apply checkpointFilename_json|apply checkpointFilename_ok|].
      eexists. exact (Hs c Hc).
Qed.

Lemma read_chain_spec runDir jobId dir d cs :
  checkpointDir runDir jobId = Ok dir →
  linked 0 AGENT_HARNESS_CHECKPOINT_ROOT_PARENT_HASH cs → (∀ c, c ∈ cs → ck_jobId c = jobId) →
  holds_chain d dir cs →
  readAgentHarnessCheckpointChain runDir jobId d = Ok (canonicalJson <$> cs).
Proof.
  intros Hdir Hl Hj Hc. unfold readAgentHarnessCheckpointChain. rewrite Hdir. simpl.
  pose proof (json_files_chain d dir cs Hl Hc) as Hp. destruct Hc as [Hs _].
  set (content name := match d !! posix_join [dir; name] with Some (Some v) => v | _ => JNull end).
  assert (∀ c, c ∈ cs → content (checkpointFilename (index_of c)) = canonicalJson c) as Hcontent.
  { intros c Hc. unfold content. pose proof (Hs c Hc) as E. unfold checkpoint_path in E.
    unfold index_of. by rewrite E. }
  rewrite (outcome_map_list_Ok _ content).
  2:{ intros name Hname. rewrite Hp in Hname. apply list_elem_of_fmap in Hname as (c & -> & Hin).
      change ((checkpointFilename ∘ index_of) c) with (checkpointFilename (index_of c)).
      rewrite (Hcontent c Hin). unfold read_checkpoint. pose proof (Hs c Hin) as E.
      unfold checkpoint_path in E. unfold index_of. rewrite E.
      apply list_elem_of_lookup in Hin as (k & Hk).
      destruct (hash_chain_lookup _ _ _ _ _ _ _ Hl Hk) as (_ & Ha & _).
      apply list_elem_of_lookup_2 in Hk. rewrite <- assert_canonical in Ha.
      assert (ck_jobId (canonicalJson c) = jobId) as Hjob.
      { unfold ck_jobId. rewrite text_field_canonical by done. by apply Hj. }
      destruct (canonicalJson c) as [| | | | |fs]; try done; rewrite Ha, Hjob, bool_decide_eq_false_2; tauto. }
  simpl. f_equal.
  assert (content <$> json_files d dir ≡ₚ canonicalJson <$> cs) as Hperm.
  { rewrite Hp, <- list_fmap_compose. apply reflexive_eq, list_fmap_ext.
    intros i c Hi. simpl. by apply Hcontent, (list_elem_of_lookup_2 _ i). }
  assert (index_of <$> (canonicalJson <$> cs) = seqZ 0 (Z.of_nat (length cs))) as Hk.
  { rewrite <- list_fmap_compose, <- linked_keys by done. apply list_fmap_ext. intros i c _. apply index_of_canonical. }
  unfold by_index. change (λ c, default 0 (ck_chainIndex c)) with index_of.
  rewrite (js_sort_perm_keys index_of Z.compare _ (canonicalJson <$> cs)); [|done|].
  - apply js_sort_id, StronglySorted_on. rewrite Hk. apply seqZ_sorted.
  - rewrite Hperm, Hk. apply NoDup_seqZ.
Qed.
(** ** Writing *)

(** A file with the extension is not the temporary file of a write. *)
Lemma renamed_other dir name final w text d :
  file_name_ok name = true → ends_with ".json" name = true → posix_join [dir; name] ≠ final →
  renamed final w text d !! posix_join [dir; name] = d !! posix_join [dir; name] ∧
  written final w text d !! posix_join [dir; name] = d !! posix_join [dir; name].
Proof.
  intros Hn Hj Hf. unfold renamed, written.
  assert (temp_path final w ≠ posix_join [dir; name]) as Ht.
  { intros E. pose proof (temp_path_not_json final w) as Hnot. rewrite E in Hnot.
    by rewrite posix_join_extension in Hnot. }
  by rewrite lookup_insert_ne, lookup_delete_ne, lookup_insert_ne.
Qed.

Lemma checkpoint_path_inj dir c c' :
  checkpoint_path dir c = checkpoint_path dir c' → checkpointFilename (index_of c) = checkpointFilename (index_of c').
Proof.
  intros E%(f_equal base_name). unfold checkpoint_path in E.
  by rewrite !base_name_join in E by apply checkpointFilename_ok.
Qed.

(** Writing the next checkpoint of a chain. *)
Lemma holds_chain_snoc d dir cs c w :
  linked 0 AGENT_HARNESS_CHECKPOINT_ROOT_PARENT_HASH (cs ++ [c]) → holds_chain d dir cs →
  holds_chain (renamed (checkpoint_path dir c) w (canonicalJson c) d) dir (cs ++ [c]).
Proof.
  intros Hl [Hs Ho].
  assert (∀ c', c' ∈ cs → index_of c' ≠ index_of c ∧ 0 <= index_of c' ∧ 0 <= index_of c) as Hne.
  { apply linked_keys in Hl. rewrite fmap_app, length_app, Nat2Z.inj_add, seqZ_app in Hl by lia. simpl in Hl.
    apply app_inj_2 in Hl as [Hk [= Hc]]; [|done]. intros c' Hc'.
    assert (index_of c' ∈ index_of <$> cs) as Hin by by apply list_elem_of_fmap_2.
    rewrite Hk in Hin. apply elem_of_seqZ in Hin. lia. }
  assert (∀ c', c' ∈ cs → checkpoint_path dir c' ≠ checkpoint_path dir c) as Hpath.
  { intros c' Hc' E%checkpoint_path_inj. destruct (Hne c' Hc') as (Hd & ? & ?). apply Hd.
    by apply checkpointFilename_inj. }
  constructor.
  - intros c' [Hc'|Hc']%elem_of_app.
    + rewrite <- (Hs c' Hc'). apply renamed_other; [apply checkpointFilename_ok|apply checkpointFilename_json|].
      by apply (Hpath c').
    + apply list_elem_of_singleton in Hc' as ->. apply renamed_final.
  - intros name Hj Hn Hd. destruct (decide (posix_join [dir; name] = checkpoint_path dir c)) as [E|E].
    + exists c. split; [set_solver|]. apply (f_equal base_name) in E. unfold checkpoint_path in E.
      by rewrite !base_name_join in E by (try apply checkpointFilename_ok; done).
    + edestruct renamed_other as [Er _]; [exact Hn|exact Hj|exact E|]. rewrite Er in Hd.
      destruct (Ho name Hj Hn Hd) as (c' & Hc' & ->). exists c'. set_solver.
Qed.

Lemma write_checkpoint_Ok runDir dir w c d :
  runDir ≠ "" → checkpointDir runDir (ck_jobId c) = Ok dir → assertAgentHarnessCheckpointInvariants c = Ok tt →
  writeAgentHarnessCheckpoint runDir w c d =
  Ok (checkpoint_path dir c, renamed (checkpoint_path dir c) w (canonicalJson c) d).
Proof.
  intros Hr Hd Ha. unfold writeAgentHarnessCheckpoint. by rewrite bool_decide_eq_false_2, Ha, Hd.
Qed.

(** Writing checkpoints one after the other. *)
Fixpoint write_all (runDir : string) (cws : list (json * writer)) (d : disk) : outcome StoreError disk :=
  match cws with
  | [] => Ok d
  | (c, w) :: rest => (let* r := writeAgentHarnessCheckpoint runDir w c d in write_all runDir rest r.2)%outcome
  end.

Lemma write_all_snoc runDir cws c w d :
  write_all runDir (cws ++ [(c, w)]) d =
  (let* d' := write_all runDir cws d in outcome_map snd (writeAgentHarnessCheckpoint runDir w c d'))%outcome.
Proof.
  revert d; induction cws as [|[c0 w0] cws IH]; intros d; simpl; [by destruct writeAgentHarnessCheckpoint|].
  destruct (writeAgentHarnessCheckpoint runDir w0 c0 d); simpl; [apply IH|done].
Qed.

Lemma write_all_holds runDir jobId dir cws d :
  runDir ≠ "" → checkpointDir runDir jobId = Ok dir →
  linked 0 AGENT_HARNESS_CHECKPOINT_ROOT_PARENT_HASH cws.*1 → (∀ c, c ∈ cws.*1 → ck_jobId c = jobId) →
  holds_chain d dir [] → ∃ d', write_all runDir cws d = Ok d' ∧ holds_chain d' dir cws.*1.
Proof.
  intros Hr Hdir Hl Hj Hfresh. induction cws as [|[c w] cws IH] using rev_ind; [by exists d|].
  rewrite fmap_app in *. simpl in *. pose proof Hl as [Hl0 (_ & Ha & _)]%hash_chain_snoc.
  destruct IH as (d' & Hw & Hh); [done|set_solver|].
  assert (ck_jobId c = jobId) as Hjc by set_solver. rewrite <- Hjc in Hdir.
  exists (renamed (checkpoint_path dir c) w (canonicalJson c) d').
  rewrite write_all_snoc, Hw. simpl. rewrite (write_checkpoint_Ok runDir dir) by done. split; [done|].
  by apply holds_chain_snoc.
Qed.

(** ** Verifying canonical texts *)

Lemma register_run_canonical i c runs : register_run i (canonicalJson c) runs = register_run i c runs.
Proof. unfold register_run, ck_runId, ck_parentRunId. by rewrite !text_field_canonical. Qed.

Lemma verify_canonical cs :
  Forall plain cs →
  verifyAgentHarnessCheckpointChain (canonicalJson <$> cs) = verifyAgentHarnessCheckpointChain cs.
Proof.
  intros Hp. unfold verifyAgentHarnessCheckpointChain.
  enough (∀ i seen runs prev, verify_checkpoints i seen runs prev (canonicalJson <$> cs) =
                              verify_checkpoints i seen runs prev cs) as Hg by apply Hg.
  induction Hp as [|c cs Hc _ IH]; intros i seen runs prev; [done|].
  rewrite fmap_cons. cbn [verify_checkpoints]. rewrite assert_canonical, register_run_canonical.
  unfold ck_chainIndex, ck_parentHash. rewrite int_field_canonical, text_field_canonical by done.
  assert (computeAgentHarnessCheckpointHash (canonicalJson c) = computeAgentHarnessCheckpointHash c) as ->.
  { unfold computeAgentHarnessCheckpointHash, sha256Hex_json. by rewrite canonicalJson_idemp. }
  by repeat case_match.
Qed.
End properties.

(** ** Properties *)

Section statements.
Context `{DateParse} `{DirectoryListing} `{JsonDigest}.

(** No file of the directory has the extension of checkpoints. *)
Definition no_checkpoints (d : disk) (dir : string) : Prop :=
  ∀ name, file_name_ok name = true → ends_with ".json" name = true → d !! posix_join [dir; name] = None.

Lemma no_checkpoints_holds d dir : no_checkpoints d dir → holds_chain d dir [].
Proof.
  intros Hn. constructor; [intros c Hc; by apply elem_of_nil in Hc|].
  intros name Hj Hok [x Hx]. by rewrite Hn in Hx.
Qed.

(** C15. A verified chain of a job survives the disk: its checkpoints, which have no
    property [__proto__], are written one after the other without an error to a
    directory without checkpoints, reading the directory gives their texts in
    chain order, in whatever order [readdir] lists the files, and verifying what was
    read gives the same head and length. *)
Theorem stored_chain_reads_back runDir jobId dir cws h n d :
  runDir ≠ "" → checkpointDir runDir jobId = Ok dir → no_checkpoints d dir →
  verifyAgentHarnessCheckpointChain cws.*1 = ck_ok h n →
  (∀ c, c ∈ cws.*1 → ck_jobId c = jobId) → Forall plain cws.*1 →
  ∃ d', write_all runDir cws d = Ok d' ∧
        readAgentHarnessCheckpointChain runDir jobId d' = Ok (canonicalJson <$> cws.*1) ∧
        verifyAgentHarnessCheckpointChainFromDisk runDir jobId d' = Ok (ck_ok h n).
Proof.
  intros Hr Hdir Hn Hv Hj Hp. pose proof Hv as (Hl & _)%verify_ok_iff.
  destruct (write_all_holds runDir jobId dir cws d) as (d' & Hw & Hh); try done.
  { by apply no_checkpoints_holds. }
  exists d'. assert (readAgentHarnessCheckpointChain runDir jobId d' = Ok (canonicalJson <$> cws.*1)) as Hread.
  { by eapply read_chain_spec. }
  split_all; try done. unfold verifyAgentHarnessCheckpointChainFromDisk. rewrite Hread. simpl.
  by rewrite verify_canonical, Hv.
Qed.

(** A crash at any moment of the write of the next checkpoint leaves the old chain
    or the new one, never a half-written checkpoint. *)
Theorem crashed_write_keeps_chain runDir jobId dir cws c w h n d d1 d' :
  runDir ≠ "" → checkpointDir runDir jobId = Ok dir → no_checkpoints d dir →
  write_all runDir cws d = Ok d1 →
  verifyAgentHarnessCheckpointChain (cws.*1 ++ [c]) = ck_ok h n →
  (∀ c', c' ∈ cws.*1 ++ [c] → ck_jobId c' = jobId) →
  d' ∈ atomic_write_states (checkpoint_path dir c) w (canonicalJson c) d1 →
  readAgentHarnessCheckpointChain runDir jobId d' = Ok (canonicalJson <$> cws.*1) ∨
  readAgentHarnessCheckpointChain runDir jobId d' = Ok (canonicalJson <$> (cws.*1 ++ [c])).
Proof.
  intros Hr Hdir Hn Hw (Hl & _)%verify_ok_iff Hj Hin. pose proof Hl as [Hl0 _]%hash_chain_snoc.
  destruct (write_all_holds runDir jobId dir cws d) as (d1' & Hw' & Hh); try done; [set_solver| |].
  { by apply no_checkpoints_holds. }
  rewrite Hw in Hw'. injection Hw' as <-.
  assert (readAgentHarnessCheckpointChain runDir jobId d1 = Ok (canonicalJson <$> cws.*1)) as Hread.
  { eapply read_chain_spec; try done. set_solver. }
  unfold atomic_write_states in Hin. repeat (apply elem_of_cons in Hin as [->|Hin]); [..|by apply elem_of_nil in Hin].
  - by left.
  - left. rewrite <- Hread. eapply read_chain_ext; [done|]. intros name Hok Hname. unfold written.
    apply lookup_insert_ne. intros E. pose proof (temp_path_not_json (checkpoint_path dir c) w) as Hnot.
    rewrite E in Hnot. by rewrite posix_join_extension in Hnot.
  - right. eapply read_chain_spec; try done. by apply holds_chain_snoc.
Qed.
End statements.

(** ** Examples *)

Section examples.
#[local] Existing Instance zero_digest.
#[local] Existing Instance any_date.
#[local] Existing Instance reverse_order.

Definition sample_writes : list (json * writer) :=
  [(sample_started, {| wr_pid := "7"; wr_uuid := "u1" |}); (sample_completed, {| wr_pid := "7"; wr_uuid := "u2" |})].

Definition sample_disk : disk := match write_all "/runs/1" sample_writes ∅ with Ok d => d | Throw _ => ∅ end.

Lemma stored_chain_reads_back_witness :
  verifyAgentHarnessCheckpointChain sample_writes.*1 = ck_ok AGENT_HARNESS_CHECKPOINT_ROOT_PARENT_HASH 2 ∧
  ∃ d', write_all "/runs/1" sample_writes ∅ = Ok d' ∧
        readAgentHarnessCheckpointChain "/runs/1" "job-1" d' = Ok (canonicalJson <$> sample_writes.*1) ∧
        verifyAgentHarnessCheckpointChainFromDisk "/runs/1" "job-1" d' =
          Ok (ck_ok AGENT_HARNESS_CHECKPOINT_ROOT_PARENT_HASH 2).
Proof.
  split; [vm_compute; reflexivity|].
  apply (stored_chain_reads_back "/runs/1" "job-1" "/runs/1/agent-harness-checkpoints/job-1");
    try (vm_compute; reflexivity); try done.
  - intros c Hc. repeat (apply elem_of_cons in Hc as [->|Hc]); [vm_compute; reflexivity..|by apply elem_of_nil in Hc].
  - repeat constructor; vm_compute; try done;
      repeat match goal with
             | |- _ → False => intros Hin; repeat (apply elem_of_cons in Hin as [?|Hin]; [done|]); by apply elem_of_nil in Hin
             end.
Defined.
Lemma crashed_write_keeps_chain_witness :
  write_all "/runs/1" sample_writes ∅ = Ok sample_disk ∧
  let path := checkpoint_path "/runs/1/agent-harness-checkpoints/job-1" sample_child in
  let d' := written path {| wr_pid := "8"; wr_uuid := "u3" |} (canonicalJson sample_child) sample_disk in
  readAgentHarnessCheckpointChain "/runs/1" "job-1" d' = Ok (canonicalJson <$> sample_writes.*1) ∨
  readAgentHarnessCheckpointChain "/runs/1" "job-1" d' = Ok (canonicalJson <$> (sample_writes.*1 ++ [sample_child])).
Proof.
  split; [vm_compute; reflexivity|].
  apply (crashed_write_keeps_chain "/runs/1" "job-1" "/runs/1/agent-harness-checkpoints/job-1" sample_writes
           sample_child {| wr_pid := "8"; wr_uuid := "u3" |} AGENT_HARNESS_CHECKPOINT_ROOT_PARENT_HASH 3 ∅ sample_disk);
    try (vm_compute; reflexivity); try done.
  - intros c Hc. repeat (apply elem_of_cons in Hc as [->|Hc]); [vm_compute; reflexivity..|by apply elem_of_nil in Hc].
  - right. left.
Defined.

(** A job named by two dots has its checkpoints in the directory of the run. *)
Lemma dot_dot_job_escapes : checkpointDir "/runs/1" ".." = Ok "/runs/1".
Proof. vm_compute. reflexivity. Qed.
End examples.
