(* ===== verification/FvSyntax.v ===== *)
(** * Formal verification of rule packs: syntax

    [packages/agentic-harness/src/formal-verification.ts]: the expressions and
    temporal formulas of a specification, the parsed specification, and the text a
    formula is reported as. The integers of the model are those a double holds
    exactly together with their neighbours ([is_exact]); where the code would leave
    them the model stops with an error of its own. *)

From Stdlib Require Import Ascii.
From S2P Require Import Prelude JsString.

(** Below this bound in magnitude doubles count in ones ([Number.isSafeInteger]). *)
Definition EXACT_BOUND : Z := 2 ^ 53.
Definition is_exact (z : Z) : bool := Z.abs z <? EXACT_BOUND.

(** [PrimitiveValue]. Reading an undeclared name off a valuation may also give
    what every object inherits, a function or [Object.prototype]; it is neither a
    string, a number nor a boolean. *)
Inductive value : Type :=
| VStr (s : string)
| VNum (z : Z)
| VBool (b : bool)
| VInherited.

#[export] Instance value_eq_dec : EqDecision value.
Proof. solve_decision. Defined.

Inductive ExprBinOp : Type :=
| op_add | op_sub | op_eq | op_ne | op_lt | op_le | op_gt | op_ge | op_and | op_or | op_implies | op_iff | op_in.

#[export] Instance ExprBinOp_eq_dec : EqDecision ExprBinOp.
Proof. solve_decision. Defined.

Inductive ExprAst : Type :=
| e_ident (name : string)
| e_int (value : Z)
| e_bool (value : bool)
| e_set (values : list value)
| e_binop (op : ExprBinOp) (left right : ExprAst)
| e_not (operand : ExprAst)
| e_case (cases : list (ExprAst * ExprAst)).

Inductive TemporalAst : Type :=
| t_atom (expr : ExprAst)
| t_not (operand : TemporalAst)
| t_and (left right : TemporalAst)
| t_or (left right : TemporalAst)
| t_implies (left right : TemporalAst)
| t_iff (left right : TemporalAst)
| t_G (operand : TemporalAst)
| t_F (operand : TemporalAst)
| t_X (operand : TemporalAst)
| t_U (left right : TemporalAst)
| t_EX (operand : TemporalAst)
| t_AX (operand : TemporalAst)
| t_EF (operand : TemporalAst)
| t_AF (operand : TemporalAst)
| t_EG (operand : TemporalAst)
| t_AG (operand : TemporalAst)
| t_EU (left right : TemporalAst)
| t_AU (left right : TemporalAst).

Inductive SpecVariable : Type :=
| v_enum (name : string) (values : list string)
| v_range (name : string) (min max : Z).

Definition variable_name (v : SpecVariable) : string :=
  match v with v_enum name _ => name | v_range name _ _ => name end.

Record SpecAssignment := { as_variable : string; as_expr : ExprAst }.

Inductive FormalVerificationLogic : Type := LTL | CTL.

#[export] Instance logic_eq_dec : EqDecision FormalVerificationLogic.
Proof. solve_decision. Defined.

Record SpecFormula := { sf_logic : FormalVerificationLogic; sf_source : string; sf_ast : TemporalAst }.

Record ParsedSpec := {
  ps_module : string;
  ps_variables : list SpecVariable;
  ps_inits : list SpecAssignment;
  ps_nexts : list SpecAssignment;
  ps_formulae : list SpecFormula;
}.

(** ** Text of a formula *)

Definition op_text (op : ExprBinOp) : string :=
  match op with
  | op_add => "+" | op_sub => "-" | op_eq => "=" | op_ne => "!=" | op_lt => "<" | op_le => "<="
  | op_gt => ">" | op_ge => ">=" | op_and => "&" | op_or => "|" | op_implies => "->" | op_iff => "<->"
  | op_in => "in"
  end.

Definition bool_text (b : bool) : string := if b then "TRUE" else "FALSE".

(** [String(v)] of a set member, which is a literal. *)
Definition member_text (v : value) : string :=
  match v with VStr s => s | VNum z => pretty z | VBool b => bool_text b | VInherited => "" end.

Fixpoint stringifyExpr (e : ExprAst) : string :=
  match e with
  | e_ident name => name
  | e_int z => pretty z
  | e_bool b => bool_text b
  | e_set values => "{" +:+ join ", " (member_text <$> values) +:+ "}"
  | e_binop op l r => "(" +:+ stringifyExpr l +:+ " " +:+ op_text op +:+ " " +:+ stringifyExpr r +:+ ")"
  | e_not x => "!" +:+ stringifyExpr x
  | e_case cases =>
      "case " +:+ join " " (map (λ c, stringifyExpr c.1 +:+ " : " +:+ stringifyExpr c.2 +:+ ";") cases) +:+ " esac"
  end.

Fixpoint stringifyTemporal (t : TemporalAst) : string :=
  let infix l op r := "(" +:+ l +:+ " " +:+ op +:+ " " +:+ r +:+ ")" in
  match t with
  | t_atom e => stringifyExpr e
  | t_not x => "!" +:+ stringifyTemporal x
  | t_and l r => infix (stringifyTemporal l) "&" (stringifyTemporal r)
  | t_or l r => infix (stringifyTemporal l) "|" (stringifyTemporal r)
  | t_implies l r => infix (stringifyTemporal l) "->" (stringifyTemporal r)
  | t_iff l r => infix (stringifyTemporal l) "<->" (stringifyTemporal r)
  | t_G x => "G " +:+ stringifyTemporal x
  | t_F x => "F " +:+ stringifyTemporal x
  | t_X x => "X " +:+ stringifyTemporal x
  | t_EX x => "EX " +:+ stringifyTemporal x
  | t_AX x => "AX " +:+ stringifyTemporal x
  | t_EF x => "EF " +:+ stringifyTemporal x
  | t_AF x => "AF " +:+ stringifyTemporal x
  | t_EG x => "EG " +:+ stringifyTemporal x
  | t_AG x => "AG " +:+ stringifyTemporal x
  | t_U l r => infix (stringifyTemporal l) "U" (stringifyTemporal r)
  | t_EU l r => "E[" +:+ stringifyTemporal l +:+ " U " +:+ stringifyTemporal r +:+ "]"
  | t_AU l r => "A[" +:+ stringifyTemporal l +:+ " U " +:+ stringifyTemporal r +:+ "]"
  end.
