(* ===== verification/FvModel.v ===== *)
(** * Formal verification of rule packs: the Kripke structure

    [packages/agentic-harness/src/formal-verification.ts]: evaluation of
    expressions, the initial and next valuations of a specification, and the
    breadth-first construction of its reachable states.

    A valuation is the object that maps the variables to their values, as the list
    of its properties in order. *)

From Stdlib Require Import Ascii.
From S2P Require Import Prelude JsString JsList CanonicalJson JsonSchemaSubset FvSyntax.

Definition valuation : Type := list (string * value).

Definition FORMAL_VERIFICATION_STATE_LIMIT : nat := Z.to_nat 4096.

Inductive EvalError : Type :=
| ev_unknown_identifier (name : string) | ev_not_applied | ev_in_rhs | ev_in_lhs | ev_set_operand
| ev_case_guard | ev_case_exhausted | ev_expected_number | ev_expected_boolean | ev_atom_not_scalar
(** no error of the code: the model ends at a sum or difference that is not exact *)
| ev_inexact.

#[export] Instance EvalError_eq_dec : EqDecision EvalError.
Proof. solve_decision. Defined.

(** ** Evaluation *)

(** [Number(s)] of a name or of digits: [None] is [NaN] or an infinity. *)
Definition number_of_string (s : string) : option Z :=
  if bool_decide (s = "") then None else decimal_value 0 s.

Definition asNum (v : value) : outcome EvalError Z :=
  match v with
  | VNum z => Ok z
  | VStr s => match number_of_string s with Some z => Ok z | None => Throw ev_expected_number end
  | VBool b => Ok (if b then 1 else 0)
  | VInherited => Throw ev_expected_number
  end.

Definition asBool (v : value) : outcome EvalError bool :=
  match v with
  | VBool b => Ok b
  | VStr s =>
      if bool_decide (s = "TRUE") then Ok true
      else if bool_decide (s = "FALSE") then Ok false else Throw ev_expected_boolean
  | VNum z => Ok (negb (z =? 0))
  | VInherited => Throw ev_expected_boolean
  end.

Definition primitiveEqual (a b : value) : outcome EvalError bool :=
  match a, b with
  | VBool _, _ | _, VBool _ => (let* x := asBool a in let* y := asBool b in Ok (Bool.eqb x y))%outcome
  | VNum x, VNum y => Ok (x =? y)
  | VStr x, VStr y => Ok (bool_decide (x = y))
  | VStr x, VNum y => Ok (bool_decide (number_of_string x = Some y))
  | VNum x, VStr y => Ok (bool_decide (number_of_string y = Some x))
  | _, _ => Ok false
  end.

(** [members.some((m) => test(m))] *)
Fixpoint some_Ok {A} (test : A → outcome EvalError bool) (l : list A) : outcome EvalError bool :=
  match l with
  | [] => Ok false
  | x :: r => (let* b := test x in if b then Ok true else some_Ok test r)%outcome
  end.

(** A scalar or a set. *)
Inductive result : Type :=
| scalar (v : value)
| members (vs : list value).

(** A sum or a difference of doubles. *)
Definition exactly (z : Z) : outcome EvalError value := if is_exact z then Ok (VNum z) else Throw ev_inexact.

Definition apply_binop (op : ExprBinOp) (l r : value) : outcome EvalError value :=
  (match op with
   | op_add => let* x := asNum l in let* y := asNum r in exactly (x + y)
   | op_sub => let* x := asNum l in let* y := asNum r in exactly (x - y)
   | op_eq => let* b := primitiveEqual l r in Ok (VBool b)
   | op_ne => let* b := primitiveEqual l r in Ok (VBool (negb b))
   | op_lt => let* x := asNum l in let* y := asNum r in Ok (VBool (x <? y))
   | op_le => let* x := asNum l in let* y := asNum r in Ok (VBool (x <=? y))
   | op_gt => let* x := asNum l in let* y := asNum r in Ok (VBool (y <? x))
   | op_ge => let* x := asNum l in let* y := asNum r in Ok (VBool (y <=? x))
   | op_and => let* x := asBool l in if x then let* y := asBool r in Ok (VBool y) else Ok (VBool false)
   | op_or => let* x := asBool l in if x then Ok (VBool true) else let* y := asBool r in Ok (VBool y)
   | op_implies => let* x := asBool l in if x then let* y := asBool r in Ok (VBool y) else Ok (VBool true)
   | op_iff => let* x := asBool l in let* y := asBool r in Ok (VBool (Bool.eqb x y))
   | op_in => Throw ev_set_operand
   end)%outcome.

Definition read_ident (valuation : valuation) (enumLiterals : list string) (name : string) :
    outcome EvalError result :=
  match map_get name valuation with
  | Some v => Ok (scalar v)
  | None =>
      if bool_decide (name ∈ PROTOTYPE_NAMES) then Ok (scalar VInherited)
      else if bool_decide (name ∈ enumLiterals) then Ok (scalar (VStr name))
      else Throw (ev_unknown_identifier name)
  end.

Fixpoint evalExpr (expr : ExprAst) (v : valuation) (enumLiterals : list string) : outcome EvalError result :=
  (match expr with
   | e_ident name => read_ident v enumLiterals name
   | e_int z => Ok (scalar (VNum z))
   | e_bool b => Ok (scalar (VBool b))
   | e_set values => Ok (members values)
   | e_not operand =>
       let* x := evalExpr operand v enumLiterals in
       match x with scalar (VBool b) => Ok (scalar (VBool (negb b))) | _ => Throw ev_not_applied end
   | e_binop op x y =>
       let* l := evalExpr x v enumLiterals in
       let* r := evalExpr y v enumLiterals in
       match op, l, r with
       | op_in, _, scalar _ => Throw ev_in_rhs
       | op_in, members _, members _ => Throw ev_in_lhs
       | op_in, scalar x, members ms =>
           let* b := some_Ok (λ member, primitiveEqual member x) ms in Ok (scalar (VBool b))
       | _, scalar x, scalar y => let* z := apply_binop op x y in Ok (scalar z)
       | _, _, _ => Throw ev_set_operand
       end
   | e_case cases =>
       (fix go (cases : list (ExprAst * ExprAst)) : outcome EvalError result :=
          match cases with
          | [] => Throw ev_case_exhausted
          | (guard, result) :: rest =>
              let* g := evalExpr guard v enumLiterals in
              match g with
              | members _ => Throw ev_case_guard
              | scalar x => let* b := asBool x in if b then evalExpr result v enumLiterals else go rest
              end
          end) cases
   end)%outcome.

Definition atomSatisfies (expr : ExprAst) (v : valuation) (enumLiterals : list string) :
    outcome EvalError bool :=
  (let* r := evalExpr expr v enumLiterals in
   match r with members _ => Throw ev_atom_not_scalar | scalar x => asBool x end)%outcome.

(** ** Valuations *)

(** The double nearest to an integer, a tie to the even one. *)
Definition nearest_double (z : Z) : Z :=
  let k := Z.log2 (Z.abs z) - 52 in
  if k <=? 0 then z
  else
    let unit := 2 ^ k in
    let below := unit * (z / unit) in
    match Z.compare (2 * (z - below)) unit with
    | Lt => below
    | Gt => below + unit
    | Eq => if Z.even (z / unit) then below else below + unit
    end.

(** [for (let i = v.min; i <= v.max; i += 1) xs.push(i)], in doubles; [None]: out of
    fuel. *)
Fixpoint domain_loop (fuel : nat) (i max : Z) : option (list Z) :=
  match fuel with
  | O => None
  | S fuel' => if i <=? max then cons i <$> domain_loop fuel' (nearest_double (i + 1)) max else Some []
  end.

(** The parser takes ranges of at most 257 values. *)
Definition DOMAIN_FUEL : nat := 258.

Definition variableDomain (v : SpecVariable) : list value :=
  match v with
  | v_enum _ values => VStr <$> values
  | v_range _ min max => VNum <$> default [] (domain_loop DOMAIN_FUEL min max)
  end.

Lemma nearest_double_exact z : Z.abs z <= EXACT_BOUND → nearest_double z = z.
Proof.
  intros Hz. unfold nearest_double. cbv zeta. destruct (Z.leb_spec (Z.log2 (Z.abs z) - 52) 0); [done|].
  assert (Z.abs z = 2 ^ 53) as E.
  { destruct (Z.eq_dec (Z.abs z) (2 ^ 53)) as [|Hn]; [done|].
    assert (Z.log2 (Z.abs z) < 53); [|lia]. unfold EXACT_BOUND in Hz.
    destruct (Z.eq_dec (Z.abs z) 0) as [->|]; [done|]. apply Z.log2_lt_pow2; lia. }
  rewrite E. change (Z.log2 (2 ^ 53) - 52) with 1. assert (z = 2 ^ 53 ∨ z = - 2 ^ 53) as [-> | ->] by lia; done.
Qed.

(** Below the bound the loop ends, with the integers of the range. *)
Lemma domain_loop_exact fuel i max :
  - EXACT_BOUND <= i <= EXACT_BOUND → max < EXACT_BOUND → Z.max 0 (max - i + 1) < Z.of_nat fuel →
  domain_loop fuel i max = Some (seqZ i (max - i + 1)).
Proof.
  revert i; induction fuel as [|fuel IH]; intros i Hi Hm Hf; cbn [domain_loop]; [lia|].
  destruct (Z.leb_spec i max); [|by rewrite seqZ_nil by lia].
  rewrite nearest_double_exact, IH by lia. rewrite (seqZ_cons i) by lia. cbn. do 3 f_equal. lia.
Qed.

(** From the bound on the loop counter does not move. *)
Lemma domain_loop_stuck fuel max : EXACT_BOUND <= max → domain_loop fuel EXACT_BOUND max = None.
Proof.
  intros Hm. induction fuel as [|fuel IH]; cbn [domain_loop]; [done|].
  rewrite (proj2 (Z.leb_le _ _) Hm). change (nearest_double (EXACT_BOUND + 1)) with EXACT_BOUND. by rewrite IH.
Qed.

Definition valueInDomain (x : option value) (variable : SpecVariable) : outcome EvalError bool :=
  match x with
  | None => Ok false
  | Some x =>
      match variable with
      | v_enum _ values => some_Ok (λ entry, primitiveEqual (VStr entry) x) values
      | v_range _ min max => (let* n := asNum x in Ok ((min <=? n) && (n <=? max)))%outcome
      end
  end.

(** [variables.every((v) => valueInDomain(valuation[v.name], v))] *)
Fixpoint in_domains (v : valuation) (variables : list SpecVariable) : outcome EvalError bool :=
  match variables with
  | [] => Ok true
  | x :: r =>
      (let* b := valueInDomain (map_get (variable_name x) v) x in
       if b then in_domains v r else Ok false)%outcome
  end.

Fixpoint filter_Ok {A} (test : A → outcome EvalError bool) (l : list A) : outcome EvalError (list A) :=
  match l with
  | [] => Ok []
  | x :: r => (let* b := test x in let* rest := filter_Ok test r in Ok (if b then x :: rest else rest))%outcome
  end.

Fixpoint mapM_Ok {A B} (f : A → outcome EvalError B) (l : list A) : outcome EvalError (list B) :=
  match l with
  | [] => Ok []
  | x :: r => (let* y := f x in let* ys := mapM_Ok f r in Ok (y :: ys))%outcome
  end.

(** The rule of a variable: the last one wins. *)
Definition rule_of (rules : list SpecAssignment) (name : string) : option ExprAst :=
  foldl (λ found rule, if bool_decide (as_variable rule = name) then Some (as_expr rule) else found) None rules.

Definition choices_of (r : result) : list value := match r with scalar v => [v] | members vs => vs end.

(** One variable after the other: every partial valuation with every choice. *)
Definition extend (acc : list valuation) (name : string) (choices : list value) : list valuation :=
  partial ← acc; (λ choice, map_set name choice partial) <$> choices.

Definition product (choices : list (string * list value)) : list valuation :=
  foldl (λ acc p, extend acc p.1 p.2) [[]] choices.

(** [None] stands for the value of a property that is not there. *)
Definition next_choices (current : valuation) (nextRules : list SpecAssignment) (enumLiterals : list string)
    (x : SpecVariable) : outcome EvalError (string * list value) :=
  (let name := variable_name x in
   match rule_of nextRules name with
   | None => Ok (name, default [] ((λ v, [v]) <$> map_get name current))
   | Some rule => let* r := evalExpr rule current enumLiterals in Ok (name, choices_of r)
   end)%outcome.

Definition nextValuations (current : valuation) (variables : list SpecVariable)
    (nextRules : list SpecAssignment) (enumLiterals : list string) : outcome EvalError (list valuation) :=
  (let* choices := mapM_Ok (next_choices current nextRules enumLiterals) variables in
   filter_Ok (λ v, in_domains v variables) (product choices))%outcome.

Definition init_choices (initRules : list SpecAssignment) (enumLiterals : list string) (x : SpecVariable) :
    outcome EvalError (string * list value) :=
  (let name := variable_name x in
   match rule_of initRules name with
   | None => Ok (name, variableDomain x)
   | Some rule => let* r := evalExpr rule [] enumLiterals in Ok (name, choices_of r)
   end)%outcome.

Definition initialValuations (variables : list SpecVariable) (initRules : list SpecAssignment)
    (enumLiterals : list string) : outcome EvalError (list valuation) :=
  (let* choices := mapM_Ok (init_choices initRules enumLiterals) variables in
   filter_Ok (λ v, in_domains v variables) (product choices))%outcome.

Definition enum_values (v : SpecVariable) : list string :=
  match v with v_enum _ values => values | v_range _ _ _ => [] end.

Definition collectEnumLiterals (spec : ParsedSpec) : list string :=
  set_of (ps_variables spec ≫= enum_values).

(** ** States *)

(** [JSON.stringify(v)] of a value that names and numbers are made of. *)
Definition quote : string := String "034" EmptyString.
Definition value_text (v : value) : string :=
  match v with
  | VStr s => quote +:+ s +:+ quote
  | VNum z => pretty z
  | VBool b => if b then "true" else "false"
  | VInherited => "undefined"
  end.

Definition state_part (v : valuation) (k : string) : string :=
  k +:+ "=" +:+ value_text (default VInherited (map_get k v)).

Definition stateId (v : valuation) : string := join "|" (state_part v <$> js_sort String.compare v.*1).

Record KripkeStructure := {
  k_states : list (string * valuation);
  k_initial : list string;
  k_transitions : list (string * list string);
}.

Inductive ModelError : Type :=
| me_evaluation (e : EvalError)
| me_state_limit.

#[export] Instance ModelError_eq_dec : EqDecision ModelError.
Proof. solve_decision. Defined.

(** The states found so far and the queue. *)
Definition discover (v : valuation) (states : list (string * valuation)) (queue : list valuation) :
    list (string * valuation) * list valuation :=
  if map_has (stateId v) states then (states, queue) else (map_set (stateId v) v states, queue ++ [v]).

Definition discover_all (vs : list valuation) (states : list (string * valuation)) (queue : list valuation) :
    list (string * valuation) * list valuation :=
  foldl (λ sq v, discover v sq.1 sq.2) (states, queue) vs.

Section explore.
Context (successors : valuation → outcome EvalError (list valuation)).

(** [None]: out of fuel. *)
Fixpoint explore (fuel : nat) (states : list (string * valuation)) (transitions : list (string * list string))
    (queue : list valuation) :
    option (outcome ModelError (list (string * valuation) * list (string * list string))) :=
  match fuel with
  | O => None
  | S fuel' =>
      match queue with
      | [] => Some (Ok (states, transitions))
      | current :: rest =>
          if (FORMAL_VERIFICATION_STATE_LIMIT <? length states)%nat then Some (Throw me_state_limit)
          else match successors current with
          | Throw e => Some (Throw (me_evaluation e))
          | Ok vs =>
              let '(states', queue') := discover_all vs states rest in
              let ids := set_of (stateId <$> vs) in
              let nextIds := match ids with [] => [stateId current] | _ => ids end in
              explore fuel' states' (map_set (stateId current) nextIds transitions) queue'
          end
      end
  end.
End explore.

(** One round per state within the limit, one that finds too many, and one that
    finds the queue empty. *)
Definition KRIPKE_FUEL : nat := S (S FORMAL_VERIFICATION_STATE_LIMIT).

Definition spec_successors (spec : ParsedSpec) (v : valuation) : outcome EvalError (list valuation) :=
  nextValuations v (ps_variables spec) (ps_nexts spec) (collectEnumLiterals spec).

Definition buildKripke (spec : ParsedSpec) : option (outcome ModelError KripkeStructure) :=
  match initialValuations (ps_variables spec) (ps_inits spec) (collectEnumLiterals spec) with
  | Throw e => Some (Throw (me_evaluation e))
  | Ok vs =>
      let '(states, queue) := discover_all vs [] [] in
      built ← explore (spec_successors spec) KRIPKE_FUEL states [] queue;
      Some (outcome_map (λ r, {| k_states := r.1; k_initial := set_of (stateId <$> vs); k_transitions := r.2 |}) built)
  end.
