(* ===== verification/CtlChecker.v ===== *)
(** * Formal verification of rule packs: the model checker

    [packages/agentic-harness/src/formal-verification.ts]: the explicit-state CTL
    checker. A set of states is a finite set of their identifiers. The semantics it
    is compared with is the one of temporal logic over infinite paths. *)

From S2P Require Import Prelude JsString JsList FvSyntax FvModel.

(** ** The checker *)

Section checker.
Context (kripke : KripkeStructure) (enumLiterals : list string).

Definition all_ids : list string := (k_states kripke).*1.
Definition succs (id : string) : list string := default [] (map_get id (k_transitions kripke)).

(** [predecessors]: the states that have [id] among their successors. *)
Definition preds (id : string) : list string :=
  if map_has id (k_states kripke)
  then set_of ((filter (λ p, id ∈ p.2) (k_transitions kripke)).*1) else [].

Definition where_ids (test : string → bool) : gset string :=
  list_to_set (filter (λ id, test id = true) all_ids).

Definition has (s : gset string) (id : string) : bool := bool_decide (id ∈ s).

Definition not_set (s : gset string) : gset string := where_ids (λ id, negb (has s id)).

(** The loop of [EG]: a state stays while it has a successor that stays. *)
Definition eg_round (current : gset string) : gset string :=
  filter (λ id, existsb (has current) (succs id) = true) current.

Fixpoint eg_loop (fuel : nat) (current : gset string) : option (gset string) :=
  match fuel with
  | O => None
  | S fuel' =>
      let next := eg_round current in
      if bool_decide (next = current) then Some next else eg_loop fuel' next
  end.

Definition eg (phi : gset string) : option (gset string) := eg_loop (S (size phi)) phi.

(** The backward search of [EF] and [EU]: the predecessors of a state in [guard]
    that are new are added and queued. *)
Fixpoint eu_loop (fuel : nat) (guard : string → bool) (out : gset string) (queue : list string) :
    option (gset string) :=
  match fuel with
  | O => None
  | S fuel' =>
      match queue with
      | [] => Some out
      | s :: rest =>
          let fresh := filter (λ p, (p ∉ out) ∧ guard p = true) (preds s) in
          eu_loop fuel' guard (out ∪ list_to_set fresh) (rest ++ fresh)
      end
  end.

Definition backward (guard : string → bool) (target : gset string) : option (gset string) :=
  eu_loop (S (length all_ids)) guard target (elements target).

Inductive CheckError : Type :=
| ck_evaluation (e : EvalError)
| ck_untranslated.

(** [atomSatisfies] on every state, in order. *)
Fixpoint atom_set (expr : ExprAst) (states : list (string * valuation)) : outcome EvalError (gset string) :=
  match states with
  | [] => Ok ∅
  | (id, v) :: rest =>
      (let* b := atomSatisfies expr v enumLiterals in
       let* out := atom_set expr rest in
       Ok (if b then {[id]} ∪ out else out))%outcome
  end.

(** A computation that may throw and may run out of fuel. *)
Definition checked : Type := option (outcome CheckError (gset string)).
Definition bind_checked (m : checked) (k : gset string → checked) : checked :=
  match m with None => None | Some (Throw e) => Some (Throw e) | Some (Ok s) => k s end.
Definition with_set (m : option (gset string)) (k : gset string → checked) : checked :=
  match m with None => None | Some s => k s end.
Definition return_set (s : gset string) : checked := Some (Ok s).

Fixpoint checkCtl (ast : TemporalAst) : checked :=
  match ast with
  | t_atom e =>
      match atom_set e (k_states kripke) with
      | Ok s => return_set s
      | Throw err => Some (Throw (ck_evaluation err))
      end
  | t_not x => bind_checked (checkCtl x) (λ s, return_set (not_set s))
  | t_and l r => bind_checked (checkCtl l) (λ a, bind_checked (checkCtl r) (λ b, return_set (a ∩ b)))
  | t_or l r => bind_checked (checkCtl l) (λ a, bind_checked (checkCtl r) (λ b, return_set (a ∪ b)))
  | t_implies l r =>
      bind_checked (checkCtl l) (λ a, bind_checked (checkCtl r) (λ b,
        return_set (where_ids (λ id, negb (has a id) || has b id))))
  | t_iff l r =>
      bind_checked (checkCtl l) (λ a, bind_checked (checkCtl r) (λ b,
        return_set (where_ids (λ id, Bool.eqb (has a id) (has b id)))))
  | t_EX x =>
      bind_checked (checkCtl x) (λ s, return_set (where_ids (λ id, existsb (has s) (succs id))))
  | t_AX x =>
      bind_checked (checkCtl x) (λ s, return_set (where_ids (λ id,
        negb (bool_decide (succs id = [])) && forallb (has s) (succs id))))
  | t_EF x => bind_checked (checkCtl x) (λ s, with_set (backward (λ _, true) s) return_set)
  | t_AF x =>
      bind_checked (checkCtl x) (λ s, with_set (eg (not_set s)) (λ e, return_set (not_set e)))
  | t_EG x => bind_checked (checkCtl x) (λ s, with_set (eg s) return_set)
  | t_AG x =>
      bind_checked (checkCtl x) (λ s,
        with_set (backward (λ _, true) (not_set s)) (λ e, return_set (not_set e)))
  | t_EU l r =>
      bind_checked (checkCtl l) (λ p, bind_checked (checkCtl r) (λ q,
        with_set (backward (has p) q) return_set))
  | t_AU l r =>
      bind_checked (checkCtl r) (λ q, bind_checked (checkCtl l) (λ p,
        with_set (backward (has (not_set q)) (not_set p ∩ not_set q)) (λ eu,
        with_set (eg (not_set q)) (λ egq,
        return_set (where_ids (λ id, negb (has eu id) && negb (has egq id)))))))
  | t_G _ | t_F _ | t_X _ | t_U _ _ => Some (Throw ck_untranslated)
  end.
End checker.

(** ** Semantics *)

Section semantics.
Context (kripke : KripkeStructure) (enumLiterals : list string).

#[local] Abbreviation post := (succs kripke).
#[local] Abbreviation ids := (all_ids kripke).

(** Every state has a successor, and the successors are states. *)
Record wf_kripke : Prop := {
  wk_states : NoDup ids;
  wk_transitions : NoDup (k_transitions kripke).*1;
  wk_total id : id ∈ ids → post id ≠ [];
  wk_closed id t : t ∈ post id → id ∈ ids ∧ t ∈ ids;
}.

(** An infinite path from [id]. *)
Definition path (id : string) (π : nat → string) : Prop := π 0%nat = id ∧ ∀ i, π (S i) ∈ post (π i).

Definition holds_atom (e : ExprAst) (id : string) : Prop :=
  ∃ v, map_get id (k_states kripke) = Some v ∧ atomSatisfies e v enumLiterals = Ok true.

(** The meaning of a CTL formula at a state; the operators of linear time have no
    meaning at a state. *)
Fixpoint sat (φ : TemporalAst) (id : string) : Prop :=
  match φ with
  | t_atom e => holds_atom e id
  | t_not x => ¬ sat x id
  | t_and l r => sat l id ∧ sat r id
  | t_or l r => sat l id ∨ sat r id
  | t_implies l r => sat l id → sat r id
  | t_iff l r => sat l id ↔ sat r id
  | t_EX x => ∃ t, t ∈ post id ∧ sat x t
  | t_AX x => ∀ t, t ∈ post id → sat x t
  | t_EF x => ∃ π, path id π ∧ ∃ i, sat x (π i)
  | t_AF x => ∀ π, path id π → ∃ i, sat x (π i)
  | t_EG x => ∃ π, path id π ∧ ∀ i, sat x (π i)
  | t_AG x => ∀ π, path id π → ∀ i, sat x (π i)
  | t_EU p q => ∃ π, path id π ∧ ∃ i, sat q (π i) ∧ ∀ j, (j < i)%nat → sat p (π j)
  | t_AU p q => ∀ π, path id π → ∃ i, sat q (π i) ∧ ∀ j, (j < i)%nat → sat p (π j)
  | t_G _ | t_F _ | t_X _ | t_U _ _ => False
  end.

(** A finite path into [target] through states in [guard]. *)
Inductive until (guard : string → bool) (target : gset string) : string → Prop :=
| until_here id : id ∈ target → until guard target id
| until_step id t : guard id = true → t ∈ post id → until guard target t → until guard target id.

(** ** Paths *)

(** Follows the first successor that is in [X]. *)
Definition next_in (X : gset string) (id : string) : string :=
  default id (head (filter (λ t, t ∈ X) (post id))).

Lemma next_in_spec X id :
  (∃ t, t ∈ post id ∧ t ∈ X) → next_in X id ∈ post id ∧ next_in X id ∈ X.
Proof.
  intros (t & Ht & HX). unfold next_in.
  assert (t ∈ filter (λ t, t ∈ X) (post id)) as Hin by by apply list_elem_of_filter.
  destruct (filter (λ t, t ∈ X) (post id)) as [|x l] eqn:E; [by apply elem_of_nil in Hin|]. simpl.
  assert (x ∈ filter (λ t, t ∈ X) (post id)) as Hx by (rewrite E; left).
  apply list_elem_of_filter in Hx. tauto.
Qed.

(** A set in which every state has a successor holds an infinite path. *)
Lemma path_within (X : gset string) id :
  (∀ x, x ∈ X → ∃ t, t ∈ post x ∧ t ∈ X) → id ∈ X → ∃ π, path id π ∧ ∀ i, π i ∈ X.
Proof.
  intros HX Hid. exists (λ i, Nat.iter i (next_in X) id).
  assert (∀ i, Nat.iter i (next_in X) id ∈ X) as Hin.
  { induction i as [|i IH]; [done|]. simpl. by apply next_in_spec, HX. }
  split; [split; [done|]|done]. intros i. simpl. by apply next_in_spec, HX.
Qed.

Lemma path_exists id : wf_kripke → id ∈ ids → ∃ π, path id π.
Proof.
  intros Hwf Hid. destruct (path_within (list_to_set ids) id) as (π & Hπ & _).
  - intros x Hx%elem_of_list_to_set. pose proof (wk_total Hwf x Hx) as Hne.
    destruct (post x) as [|t l] eqn:E; [done|]. exists t.
    assert (t ∈ post x) as Ht by (rewrite E; left). split; [by rewrite <- E|].
    apply elem_of_list_to_set. by apply (wk_closed Hwf) in Ht as [_ ?].
  - by apply elem_of_list_to_set.
  - by exists π.
Qed.

Lemma path_states π id i : wf_kripke → id ∈ ids → path id π → π i ∈ ids.
Proof.
  intros Hwf Hid [H0 Hs]. destruct i as [|i]; [by rewrite H0|].
  specialize (Hs i). by apply (wk_closed Hwf) in Hs as [_ ?].
Qed.

Lemma path_tail π id : path id π → path (π 1%nat) (λ i, π (S i)).
Proof. intros [_ Hs]. split; [done|]. intros i. apply Hs. Qed.

Definition path_cons (id : string) (π : nat → string) (i : nat) : string :=
  match i with O => id | S i' => π i' end.

Lemma path_cons_path id t π : t ∈ post id → path t π → path id (path_cons id π).
Proof. intros Ht [H0 Hs]. split; [done|]. intros [|i]; simpl; [by rewrite H0|apply Hs]. Qed.

Lemma path_step_state π id : path id π → π 1%nat ∈ post id.
Proof. intros [H0 Hs]. specialize (Hs 0%nat). by rewrite H0 in Hs. Qed.

(** Reaching a set along a path through [guard]. *)
Lemma until_path guard target id :
  wf_kripke → (∀ x, x ∈ target → x ∈ ids) →
  until guard target id ↔
  (id ∈ ids ∧ ∃ π, path id π ∧ ∃ i, π i ∈ target ∧ ∀ j, (j < i)%nat → guard (π j) = true).
Proof.
  intros Hwf Htarget. split.
  - induction 1 as [id Hid|id t Hg Ht _ (Hall & π & Hπ & i & Hi & Hj)].
    + split; [by apply Htarget|]. destruct (path_exists id) as [π Hπ]; [done|by apply Htarget|].
      exists π. split; [done|]. exists 0%nat. destruct Hπ as [-> _]. split; [done|lia].
    + split; [by apply (wk_closed Hwf) in Ht as []|]. exists (path_cons id π).
      split; [by eapply path_cons_path|]. exists (S i). split; [done|].
      intros [|j] Hlt; simpl; [done|]. apply Hj. lia.
  - intros (_ & π & Hπ & i & Hi & Hj). revert id π Hπ Hi Hj; induction i as [|i IH]; intros id π Hπ Hi Hj.
    + apply until_here. by destruct Hπ as [<- _].
    + apply until_step with (π 1%nat).
      * destruct Hπ as [<- _]. apply Hj. lia.
      * by apply path_step_state.
      * apply (IH _ (λ i, π (S i))); [by eapply path_tail|done|]. intros j Hlt. apply Hj. lia.
Qed.

(** ** The fixed points *)

Lemma has_spec s id : has s id = true ↔ id ∈ s.
Proof. apply bool_decide_eq_true. Qed.

Lemma existsb_has s l : existsb (has s) l = true ↔ ∃ t, t ∈ l ∧ t ∈ s.
Proof.
  rewrite existsb_exists. split; intros (t & Ht & Hs); exists t;
    rewrite list_elem_of_In, has_spec in *; done.
Qed.

Lemma forallb_has s l : forallb (has s) l = true ↔ ∀ t, t ∈ l → t ∈ s.
Proof.
  rewrite forallb_forall. split; intros H t Ht; [apply has_spec, H|apply has_spec, H]; by apply list_elem_of_In.
Qed.

Lemma where_ids_spec test id : id ∈ where_ids kripke test ↔ id ∈ ids ∧ test id = true.
Proof. unfold where_ids. rewrite elem_of_list_to_set, list_elem_of_filter. tauto. Qed.

Lemma not_set_spec s id : id ∈ not_set kripke s ↔ id ∈ ids ∧ id ∉ s.
Proof.
  unfold not_set. rewrite where_ids_spec, negb_true_iff, <- not_true_iff_false, has_spec. done.
Qed.

Lemma eg_round_spec cur id : id ∈ eg_round kripke cur ↔ id ∈ cur ∧ ∃ t, t ∈ post id ∧ t ∈ cur.
Proof. unfold eg_round. rewrite elem_of_filter, existsb_has. tauto. Qed.

(** What the loop returns is closed, and every path from a state it removed leaves
    the set it started from. *)
Lemma eg_loop_spec fuel cur r :
  eg_loop kripke fuel cur = Some r →
  r ⊆ cur ∧ (∀ id, id ∈ r → ∃ t, t ∈ post id ∧ t ∈ r) ∧
  (∀ id, id ∉ r → ∀ π, path id π → ∃ i, π i ∉ cur).
Proof.
  revert cur; induction fuel as [|fuel IH]; intros cur; [done|]. cbn [eg_loop]. case_bool_decide as E.
  - intros [= <-]. split_all.
    + by rewrite E.
    + intros id Hid. rewrite E in Hid. rewrite <- E in Hid. apply eg_round_spec in Hid as [_ Ht]. by rewrite E.
    + intros id Hid π [H0 _]. exists 0%nat. by rewrite H0, <- E.
  - intros Hr. destruct (IH _ Hr) as (Hsub & Hclosed & Hleave). split_all; [|done|].
    + intros x Hx%Hsub. by apply eg_round_spec in Hx as [? _].
    + intros id Hid π Hπ. destruct (Hleave id Hid π Hπ) as [i Hi].
      destruct (decide (π i ∈ cur)) as [Hin|Hin]; [|by exists i].
      exists (S i). intros Hin'. apply Hi, eg_round_spec. split; [done|]. exists (π (S i)). split; [apply Hπ|done].
Qed.

Lemma eg_loop_total fuel cur : (size cur < fuel)%nat → is_Some (eg_loop kripke fuel cur).
Proof.
  revert cur; induction fuel as [|fuel IH]; intros cur Hf; [lia|]. cbn [eg_loop].
  case_bool_decide as E; [by eexists|]. apply IH.
  assert (eg_round kripke cur ⊂ cur) as Hsub%subset_size; [|lia].
  split; [intros x Hx; by apply eg_round_spec in Hx as [? _]|]. intros Hsup. apply E.
  apply leibniz_equiv, set_equiv_subseteq. split; [|done]. intros x Hx. by apply eg_round_spec in Hx as [? _].
Qed.

Lemma eg_total phi : is_Some (eg kripke phi).
Proof. apply eg_loop_total. lia. Qed.

(** A state is in [EG phi] exactly when a path from it stays in [phi], and every
    path from another state leaves [phi]. *)
Lemma eg_spec phi r :
  eg kripke phi = Some r →
  (∀ id, id ∈ r ↔ ∃ π, path id π ∧ ∀ i, π i ∈ phi) ∧
  (∀ id, id ∉ r → ∀ π, path id π → ∃ i, π i ∉ phi).
Proof.
  intros (Hsub & Hclosed & Hleave)%eg_loop_spec. split; [|done]. intros id. split.
  - intros Hid. destruct (path_within r id Hclosed Hid) as (π & Hπ & Hin). exists π. split; [done|].
    intros i. by apply Hsub.
  - intros (π & Hπ & Hin). destruct (decide (id ∈ r)) as [|Hn]; [done|].
    destruct (Hleave id Hn π Hπ) as [i Hi]. by destruct (Hi (Hin i)).
Qed.

Context (Hwf : wf_kripke).

Lemma preds_spec s p : p ∈ preds kripke s ↔ s ∈ post p.
Proof.
  assert (∀ p, map_get p (k_transitions kripke) = None → post p = []) as Hnone.
  { intros q Hq. unfold succs. by rewrite Hq. }
  assert (∀ q l, (q, l) ∈ k_transitions kripke → post q = l) as Hsome.
  { intros q l Hin. unfold succs. rewrite (map_get_unique q l); [done|apply (wk_transitions Hwf)|done]. }
  unfold preds, map_has. case_bool_decide as Hs.
  - rewrite elem_of_set_of, list_elem_of_fmap. split.
    + intros ([q l] & -> & [Hl Hin]%list_elem_of_filter). simpl. by rewrite (Hsome q l).
    + intros Hp. destruct (map_get p (k_transitions kripke)) as [l|] eqn:El.
      * apply map_get_elem in El. exists (p, l). split; [done|]. apply list_elem_of_filter.
        by rewrite (Hsome p l) in Hp.
      * rewrite Hnone in Hp by done. by apply elem_of_nil in Hp.
  - split; [by intros Hin%elem_of_nil|]. intros Hp. destruct Hs.
    apply (wk_closed Hwf) in Hp as [_ Hall]. by apply map_get_is_Some.
Qed.

Lemma preds_NoDup s : NoDup (preds kripke s).
Proof. unfold preds. case_match; [apply NoDup_set_of|constructor]. Qed.

(** The invariant of the backward search. *)
Lemma eu_loop_spec guard target fuel out queue r :
  eu_loop kripke fuel guard out queue = Some r →
  target ⊆ out → (∀ x, x ∈ queue → x ∈ out) → (∀ x, x ∈ out → until guard target x) →
  (∀ x, x ∈ out → x ∉ queue → ∀ p, x ∈ post p → guard p = true → p ∈ out) →
  ∀ id, id ∈ r ↔ until guard target id.
Proof.
  revert out queue; induction fuel as [|fuel IH]; intros out queue; [done|]. cbn [eu_loop].
  destruct queue as [|s rest].
  - intros [= <-] Ht _ Hu Hc id. split; [apply Hu|]. induction 1 as [id Hid|id t Hg Hst _ IHt]; [by apply Ht|].
    by eapply Hc; [exact IHt|apply not_elem_of_nil| |].
  - intros Hr Ht Hq Hu Hc. eapply IH; [exact Hr|set_solver| | |].
    + intros x [Hx|Hx]%elem_of_app; [set_solver|]. apply elem_of_union_r. by apply elem_of_list_to_set.
    + intros x [Hx|Hx]%elem_of_union; [by apply Hu|].
      apply elem_of_list_to_set, list_elem_of_filter in Hx as ([_ Hg] & Hp%preds_spec).
      eapply until_step; [done|exact Hp|]. apply Hu, Hq. by left.
    + intros x Hx Hnq p Hp Hg. destruct (decide (p ∈ out)) as [|Hn]; [set_solver|].
      apply elem_of_union in Hx as [Hx|Hx].
      * destruct (decide (x = s)) as [->|Hxs].
        { apply elem_of_union_r, elem_of_list_to_set, list_elem_of_filter. by rewrite preds_spec. }
        apply elem_of_union_l. apply (Hc x); try done. intros [?|?]%elem_of_cons; set_solver.
      * destruct Hnq. apply elem_of_app. right. by apply elem_of_list_to_set in Hx.
Qed.

Lemma eu_loop_total guard fuel (out : gset string) queue :
  (∀ x, x ∈ out → x ∈ ids) → (length ids + length queue < fuel + size out)%nat →
  is_Some (eu_loop kripke fuel guard out queue).
Proof.
  revert out queue; induction fuel as [|fuel IH]; intros out queue Hout Hf.
  - assert (size out <= length ids)%nat; [|lia].
    rewrite <- (size_list_to_set (C := gset string) ids) by apply (wk_states Hwf).
    apply subseteq_size. intros x Hx. by apply elem_of_list_to_set, Hout.
  - cbn [eu_loop]. destruct queue as [|s rest]; [by eexists|].
    set (fresh := filter (λ p, (p ∉ out) ∧ guard p = true) (preds kripke s)).
    apply IH.
    + intros x [Hx|Hx]%elem_of_union; [by apply Hout|].
      apply elem_of_list_to_set, list_elem_of_filter in Hx as [_ Hx%preds_spec].
      by apply (wk_closed Hwf) in Hx as [? _].
    + rewrite size_union, size_list_to_set, length_app.
      * simpl in Hf. lia.
      * apply NoDup_filter, preds_NoDup.
      * intros x Hx Hx'. apply elem_of_list_to_set, list_elem_of_filter in Hx' as [[? _] _]. done.
Qed.

Lemma backward_spec guard target :
  (∀ x, x ∈ target → x ∈ ids) →
  ∃ r, backward kripke guard target = Some r ∧ ∀ id, id ∈ r ↔ until guard target id.
Proof.
  intros Ht. unfold backward.
  destruct (eu_loop_total guard (S (length ids)) target (elements target) Ht) as [r Hr].
  { unfold size, set_size. simpl. lia. }
  exists r. split; [done|]. eapply eu_loop_spec; [exact Hr|done| | |].
  - intros x. by rewrite elem_of_elements.
  - intros x. apply until_here.
  - intros x Hx Hn. by rewrite elem_of_elements in Hn.
Qed.
End semantics.
