(* ===== verification/CtlCorrect.v ===== *)
(** * Formal verification of rule packs: correctness of the model checker

    The set [checkCtl] computes for a formula is the set of the states at which the
    formula holds; the linear-time formulas that the translation into CTL preserves. *)

From S2P Require Import Prelude JsString JsList FvSyntax FvModel CtlChecker.

Section correctness.
Context (kripke : KripkeStructure) (enumLiterals : list string).

#[local] Abbreviation post := (succs kripke).
#[local] Abbreviation ids := (all_ids kripke).
#[local] Abbreviation wf := (wf_kripke kripke).
#[local] Abbreviation sat := (sat kripke enumLiterals).
#[local] Abbreviation path := (path kripke).
#[local] Abbreviation check := (checkCtl kripke enumLiterals).

(** Every atom of the formula is a boolean at every state, and no operator of
    linear time is left in it. *)
Fixpoint checkable (φ : TemporalAst) : Prop :=
  match φ with
  | t_atom e => ∀ id v, (id, v) ∈ k_states kripke → ∃ b, atomSatisfies e v enumLiterals = Ok b
  | t_not x | t_EX x | t_AX x | t_EF x | t_AF x | t_EG x | t_AG x => checkable x
  | t_and l r | t_or l r | t_implies l r | t_iff l r | t_EU l r | t_AU l r => checkable l ∧ checkable r
  | t_G _ | t_F _ | t_X _ | t_U _ _ => False
  end.

(** The set holds the states at which the formula is true. *)
Definition denotes (S : gset string) (φ : TemporalAst) : Prop :=
  ∀ id, id ∈ S ↔ id ∈ ids ∧ sat φ id.

Lemma atom_set_Ok e states :
  (∀ id v, (id, v) ∈ states → ∃ b, atomSatisfies e v enumLiterals = Ok b) →
  ∃ S, atom_set enumLiterals e states = Ok S ∧
    ∀ id, id ∈ S ↔ ∃ v, (id, v) ∈ states ∧ atomSatisfies e v enumLiterals = Ok true.
Proof.
  induction states as [|[id v] states IH]; intros H; cbn [atom_set].
  { exists ∅. split; [done|]. intros id. split; [set_solver|]. by intros (v & Hv%elem_of_nil & _). }
  destruct (H id v) as [b Hb]; [left|]. destruct IH as (S & HS & Hin); [intros ???; eapply H; by right|].
  rewrite Hb, HS. cbn. eexists. split; [done|]. intros id'.
  transitivity ((id' = id ∧ b = true) ∨ id' ∈ S); [destruct b; set_solver|]. rewrite Hin. split.
  - intros [[-> ->]|(v' & Hv' & Ha)]; [exists v; split; [left|done]|exists v'; split; [by right|done]].
  - intros (v' & [[= -> ->]|Hv']%elem_of_cons & Ha); [left; split; congruence|right; by exists v'].
Qed.

Lemma atom_set_inv e states S :
  atom_set enumLiterals e states = Ok S → ∀ id v, (id, v) ∈ states → ∃ b, atomSatisfies e v enumLiterals = Ok b.
Proof.
  revert S; induction states as [|[id v] states IH]; intros S; cbn [atom_set]; [by intros _ ? ? []%elem_of_nil|].
  destruct (atomSatisfies e v enumLiterals) as [b|] eqn:E; [|done]. cbn.
  destruct (atom_set enumLiterals e states) as [S'|]; [|done]. intros _ id' v' [[= -> ->]|Hv']%elem_of_cons.
  - rewrite E. by eexists.
  - by eapply IH.
Qed.

Lemma return_checkable φ S : check φ = Some (Ok S) → checkable φ.
Proof.
  revert S; induction φ; cbn [checkCtl checkable]; intros S;
    try (destruct (atom_set _ _ _) eqn:E; [intros _; by eapply atom_set_inv|done]); try done.
  all: repeat match goal with
    | |- bind_checked ?m _ = _ → _ => destruct m as [[?|?]|] eqn:?; cbn [bind_checked]; [|done|done]
    end; intros _; split_all; eauto.
Qed.

Context (Hwf : wf).

Lemma denotes_path S φ id π i : denotes S φ → id ∈ ids → path id π → π i ∈ S ↔ sat φ (π i).
Proof.
  intros HS Hid Hπ. rewrite (HS (π i)). assert (π i ∈ ids) by by eapply path_states. tauto.
Qed.

Lemma denotes_sub S φ id : denotes S φ → id ∈ S → id ∈ ids.
Proof. intros HS Hid. by apply HS in Hid as [? _]. Qed.

Lemma denotes_not S φ : denotes S φ → denotes (not_set kripke S) (t_not φ).
Proof. intros HS id. rewrite not_set_spec, (HS id). cbn. tauto. Qed.

Lemma denotes_where test φ :
  (∀ id, id ∈ ids → test id = true ↔ sat φ id) → denotes (where_ids kripke test) φ.
Proof.
  intros H id. rewrite where_ids_spec. split; intros [Hid Ht]; (split; [done|]); by apply (H id Hid).
Qed.

(** A state at which the set is decided. *)
Lemma denotes_has S φ id : denotes S φ → id ∈ ids → has S id = true ↔ sat φ id.
Proof. intros HS Hid. rewrite has_spec, (HS id). tauto. Qed.

Lemma denotes_backward guard P p S φ :
  (∀ id, id ∈ ids → guard id = true ↔ sat p id) → denotes S φ → P = t_EU p φ →
  ∃ r, backward kripke guard S = Some r ∧ denotes r P.
Proof.
  intros Hg HS ->. destruct (backward_spec kripke Hwf guard S) as (r & Hr & Hin).
  { intros x. by eapply denotes_sub. }
  exists r. split; [done|]. intros id. rewrite Hin, until_path by (done || intros x; by eapply denotes_sub).
  cbn. split; intros (Hid & π & Hπ & i & Hi & Hj); (split; [done|]); exists π; (split; [done|]); exists i;
    (split; [by eapply (denotes_path S φ id π i)|]); intros j Hlt; specialize (Hj j Hlt);
    apply Hg; try done; by eapply path_states.
Qed.

(** [EF φ] is the search without a guard. *)
Lemma denotes_EF S φ : denotes S φ → ∃ r, backward kripke (λ _, true) S = Some r ∧ denotes r (t_EF φ).
Proof.
  intros HS. destruct (denotes_backward (λ _, true) (t_EU (t_iff φ φ) φ) (t_iff φ φ) S φ) as (r & Hr & Hin);
    [by cbn|done|done|].
  exists r. split; [done|]. intros id. rewrite (Hin id). cbn. naive_solver.
Qed.

Lemma denotes_EG S φ : denotes S φ → ∃ r, eg kripke S = Some r ∧ denotes r (t_EG φ).
Proof.
  intros HS. destruct (eg_total kripke S) as [r Hr]. exists r. split; [done|].
  destruct (eg_spec kripke S r Hr) as [Hin _]. intros id. rewrite Hin. cbn. split.
  - intros (π & Hπ & Hall). assert (id ∈ ids) as Hid.
    { destruct Hπ as [<- _]. by eapply denotes_sub. }
    split; [done|]. exists π. split; [done|]. intros i. by apply (denotes_path S φ id π i).
  - intros (Hid & π & Hπ & Hall). exists π. split; [done|]. intros i. by apply (denotes_path S φ id π i).
Qed.

(** [AF] is the complement of [EG] of the complement: a path that is not caught
    leaves the complement, so it reaches the set. *)
Lemma denotes_AF S φ e : denotes S φ → eg kripke (not_set kripke S) = Some e → denotes (not_set kripke e) (t_AF φ).
Proof.
  intros HS He. pose proof (denotes_not S φ HS) as Hn.
  destruct (eg_spec kripke _ e He) as [Hin Hout]. intros id. rewrite not_set_spec. cbn. split.
  - intros [Hid Hne]. split; [done|]. intros π Hπ. destruct (Hout id Hne π Hπ) as [i Hi]. exists i.
    apply (denotes_path S φ id π i); [done..|]. rewrite not_set_spec in Hi.
    destruct (decide (π i ∈ S)) as [|Hs]; [done|]. destruct Hi. split; [by eapply path_states|done].
  - intros [Hid Haf]. split; [done|]. intros (π & Hπ & Hall)%Hin. destruct (Haf π Hπ) as [i Hi].
    apply (denotes_path _ _ id π i Hn Hid Hπ) in Hi; [done|]. apply Hall.
Qed.

Lemma denotes_AG S φ e : denotes S φ → denotes e (t_EF (t_not φ)) → denotes (not_set kripke e) (t_AG φ).
Proof.
  intros HS He id. rewrite not_set_spec, (He id). cbn. split.
  - intros [Hid Hn]. split; [done|]. intros π Hπ i. apply (denotes_path S φ id π i); [done..|].
    destruct (decide (π i ∈ S)) as [|Hs]; [done|]. destruct Hn. split; [done|]. exists π. split; [done|].
    exists i. by rewrite <- (denotes_path S φ id π i).
  - intros [Hid Hag]. split; [done|]. intros (_ & π & Hπ & i & Hi). apply Hi. by apply Hag.
Qed.

(** The first index at which a decidable property holds. *)
Lemma first_index (P : nat → Prop) `{∀ i, Decision (P i)} n : P n → ∃ i, P i ∧ ∀ j, (j < i)%nat → ¬ P j.
Proof.
  induction (lt_wf n) as [n _ IH]. intros Hn. destruct (decide (Exists P (seq 0 n))) as [He|He].
  - apply Exists_exists in He as (j & Hj%elem_of_seq & HP). apply (IH j); [lia|done].
  - exists n. split; [done|]. intros j Hj HP. apply He, Exists_exists. exists j. rewrite elem_of_seq. split; [lia|done].
Qed.

(** The characterisation [A[p U q] = ¬E[¬q U (¬p ∧ ¬q)] ∧ ¬EG ¬q]. *)
Lemma AU_dual p q P Q id :
  denotes P p → denotes Q q → id ∈ ids →
  sat (t_AU p q) id ↔ ¬ sat (t_EU (t_not q) (t_and (t_not p) (t_not q))) id ∧ ¬ sat (t_EG (t_not q)) id.
Proof.
  intros HP HQ Hid. cbn. split.
  - intros Hau. split.
    + intros (π & Hπ & i & [Hp Hq] & Hj). destruct (Hau π Hπ) as (k & Hk & Hkj).
      destruct (lt_eq_lt_dec k i) as [[Hlt| ->]|Hgt]; [by apply (Hj k)|done|by apply Hp, Hkj].
    + intros (π & Hπ & Hall). destruct (Hau π Hπ) as (k & Hk & _). by apply (Hall k).
  - intros [Heu Heg] π Hπ.
    assert (∀ i, π i ∈ Q ↔ sat q (π i)) as EQ by (intros i; by apply (denotes_path Q q id)).
    assert (∀ i, π i ∈ P ↔ sat p (π i)) as EP by (intros i; by apply (denotes_path P p id)).
    assert (∃ n, π n ∈ Q) as [n Hn].
    { destruct (eg_total kripke (not_set kripke Q)) as [e He].
      destruct (eg_spec kripke _ e He) as [Hin Hout]. assert (id ∉ e) as Hne.
      { intros (π' & Hπ' & Hall)%Hin. apply Heg. exists π'. split; [done|]. intros i.
        apply (denotes_path _ _ id π' i (denotes_not Q q HQ) Hid Hπ' ), Hall. }
      destruct (Hout id Hne π Hπ) as [i Hi]. exists i. rewrite not_set_spec in Hi.
      destruct (decide (π i ∈ Q)) as [|Hs]; [done|]. destruct Hi. split; [by eapply path_states|done]. }
    destruct (first_index (λ i, π i ∈ Q) n Hn) as (i & Hi & Hlt). exists i. split; [by apply EQ|].
    intros j Hj. apply EP. destruct (decide (π j ∈ P)) as [|Hp]; [done|]. destruct Heu.
    exists π. split; [done|]. exists j. rewrite <- EP, <- EQ. split; [split; [done|by apply Hlt]|].
    intros k Hk. rewrite <- EQ. apply Hlt. lia.
Qed.

Lemma return_denotes (m : checked) k φ ψ :
  (∃ S, m = Some (Ok S) ∧ denotes S φ) →
  (∀ S, denotes S φ → ∃ r, k S = Some (Ok r) ∧ denotes r ψ) →
  ∃ r, bind_checked m k = Some (Ok r) ∧ denotes r ψ.
Proof. intros (S & -> & HS) Hk. by apply Hk. Qed.

Lemma return_here S φ : denotes S φ → ∃ r, return_set S = Some (Ok r) ∧ denotes r φ.
Proof. intros HS. by exists S. Qed.

Lemma return_with (m : option (gset string)) k φ ψ :
  (∃ S, m = Some S ∧ denotes S φ) →
  (∀ S, m = Some S → denotes S φ → ∃ r, k S = Some (Ok r) ∧ denotes r ψ) →
  ∃ r, with_set m k = Some (Ok r) ∧ denotes r ψ.
Proof. intros (S & -> & HS) Hk. by apply Hk. Qed.

Lemma denotes_atom e :
  wf → checkable (t_atom e) → ∃ r, check (t_atom e) = Some (Ok r) ∧ denotes r (t_atom e).
Proof.
  intros _ Hc. cbn in Hc. destruct (atom_set_Ok e (k_states kripke) Hc) as (S & HS & Hin).
  cbn. rewrite HS. apply return_here. intros id. rewrite Hin. cbn. unfold holds_atom. split.
  - intros (v & Hv & Ha). split; [apply list_elem_of_fmap; by exists (id, v)|]. exists v. split; [|done].
    apply map_get_unique; [apply (wk_states kripke Hwf)|done].
  - intros (_ & v & Hv & Ha). exists v. split; [by apply map_get_elem|done].
Qed.

(** The checker computes the meaning of a formula whose atoms it can evaluate. *)
Lemma checkable_returns φ : checkable φ → ∃ S, check φ = Some (Ok S) ∧ denotes S φ.
Proof.
  induction φ as [e|x IH|l IHl r IHr|l IHl r IHr|l IHl r IHr|l IHl r IHr|x IH|x IH|x IH|l IHl r IHr
    |x IH|x IH|x IH|x IH|x IH|x IH|l IHl r IHr|l IHl r IHr]; intros Hc; try done.
  { by apply denotes_atom. }
  all: cbn [checkable checkCtl] in Hc |- *.
  all: try (eapply return_denotes; [by apply IH|]; intros S HS).
  all: try (destruct Hc as [Hcl Hcr]; eapply return_denotes; [by apply IHl|]; intros P HP;
            eapply return_denotes; [by apply IHr|]; intros Q HQ).
  - by apply return_here, denotes_not.
  - apply return_here. intros id. rewrite elem_of_intersection, (HP id), (HQ id). cbn. tauto.
  - apply return_here. intros id. rewrite elem_of_union, (HP id), (HQ id). cbn. tauto.
  - apply return_here, denotes_where. intros id Hid. cbn.
    rewrite <- (denotes_has P l), <- (denotes_has Q r) by done. destruct (has P id), (has Q id); intuition.
  - apply return_here, denotes_where. intros id Hid. cbn.
    rewrite <- (denotes_has P l), <- (denotes_has Q r) by done. destruct (has P id), (has Q id); simpl; intuition.
  - apply return_here, denotes_where. intros id Hid. cbn. rewrite existsb_has.
    split; intros (t & Ht & Hs); exists t; (split; [done|]); apply (wk_closed kripke Hwf) in Ht as [_ Ht];
      by apply (denotes_has S x), has_spec || (rewrite <- has_spec; by apply (denotes_has S x)).
  - apply return_here, denotes_where. intros id Hid. cbn.
    rewrite bool_decide_eq_false_2 by (by apply (wk_total kripke Hwf)). cbn. rewrite forallb_has.
    split; intros H t Ht; specialize (H t Ht); apply (wk_closed kripke Hwf) in Ht as [_ Ht].
    + by apply (denotes_has S x), has_spec.
    + apply has_spec. by apply (denotes_has S x).
  - destruct (denotes_EF S x HS) as (r & Hr & Hin). rewrite Hr. by apply return_here.
  - destruct (eg_total kripke (not_set kripke S)) as [r Hr]. rewrite Hr. by apply return_here, (denotes_AF S).
  - destruct (denotes_EG S x HS) as (r & Hr & Hin). rewrite Hr. by apply return_here.
  - destruct (denotes_EF _ _ (denotes_not S x HS)) as (r & Hr & Hin). rewrite Hr. by apply return_here, (denotes_AG S).
  - destruct (denotes_backward (has P) (t_EU l r) l Q r) as (R & HR & Hin);
      [intros id Hid; by apply denotes_has|done|done|]. rewrite HR. by apply return_here.
  - destruct Hc as [Hcl Hcr]. eapply return_denotes; [by apply IHr|]. intros Q HQ.
    eapply return_denotes; [by apply IHl|]. intros P HP.
    pose proof (denotes_not Q r HQ) as HnQ. pose proof (denotes_not P l HP) as HnP.
    destruct (denotes_backward (has (not_set kripke Q)) (t_EU (t_not r) (t_and (t_not l) (t_not r))) (t_not r)
      (not_set kripke P ∩ not_set kripke Q) (t_and (t_not l) (t_not r))) as (eu & Heu & Hineu).
    { intros id Hid. by apply denotes_has. }
    { intros id. rewrite elem_of_intersection, (HnP id), (HnQ id). cbn. tauto. }
    { done. }
    destruct (denotes_EG _ _ HnQ) as (e & He & Hine). rewrite Heu. cbn [with_set]. rewrite He.
    apply return_here, denotes_where. intros id Hid.
    rewrite (AU_dual l r P Q id HP HQ Hid), andb_true_iff, !negb_true_iff, <- !not_true_iff_false.
    by rewrite (denotes_has eu _ id Hineu Hid), (denotes_has e _ id Hine Hid).
Qed.

(** The search and the fixed points end. *)
Lemma check_terminates φ : check φ ≠ None.
Proof.
  assert (∀ ψ, checkable ψ → check ψ ≠ None) as Hc.
  { intros ψ (S & -> & _)%checkable_returns. done. }
  induction φ as [e|x IH|l IHl r IHr|l IHl r IHr|l IHl r IHr|l IHl r IHr|x IH|x IH|x IH|l IHl r IHr
    |x IH|x IH|x IH|x IH|x IH|x IH|l IHl r IHr|l IHl r IHr]; try done.
  { cbn. by destruct (atom_set _ _ _). }
  all: try (destruct (check x) as [[S|e]|] eqn:E; [|cbn; by rewrite E|done];
            apply Hc; by apply (return_checkable x S)).
  all: destruct (check l) as [[P|e]|] eqn:E; [| |done];
       (destruct (check r) as [[Q|e']|] eqn:E'; [| |done]).
  all: try (apply Hc; split; by eapply return_checkable).
  all: cbn; rewrite E; cbn; rewrite ?E'; done.
Qed.
End correctness.
