(* ===== verification/LtlTranslation.v ===== *)
(** * Formal verification of rule packs: linear time

    [ltlToCtl] of [packages/agentic-harness/src/formal-verification.ts], the
    semantics of linear-time formulas over infinite paths, and the formulas for
    which a verdict on the translation is a verdict on the formula. *)

From S2P Require Import Prelude JsString JsList FvSyntax FvModel CtlChecker.

Fixpoint ltlToCtl (ast : TemporalAst) : TemporalAst :=
  match ast with
  | t_atom e => t_atom e
  | t_not x => t_not (ltlToCtl x)
  | t_and l r => t_and (ltlToCtl l) (ltlToCtl r)
  | t_or l r => t_or (ltlToCtl l) (ltlToCtl r)
  | t_implies l r => t_implies (ltlToCtl l) (ltlToCtl r)
  | t_iff l r => t_iff (ltlToCtl l) (ltlToCtl r)
  | t_G x => t_AG (ltlToCtl x)
  | t_F x => t_AF (ltlToCtl x)
  | t_X x => t_AX (ltlToCtl x)
  | t_U l r => t_AU (ltlToCtl l) (ltlToCtl r)
  | t_EX x => t_EX (ltlToCtl x)
  | t_AX x => t_AX (ltlToCtl x)
  | t_EF x => t_EF (ltlToCtl x)
  | t_AF x => t_AF (ltlToCtl x)
  | t_EG x => t_EG (ltlToCtl x)
  | t_AG x => t_AG (ltlToCtl x)
  | t_EU l r => t_EU (ltlToCtl l) (ltlToCtl r)
  | t_AU l r => t_AU (ltlToCtl l) (ltlToCtl r)
  end.

(** A formula without temporal operators. *)
Fixpoint propositional (φ : TemporalAst) : bool :=
  match φ with
  | t_atom _ => true
  | t_not x => propositional x
  | t_and l r | t_or l r | t_implies l r | t_iff l r => propositional l && propositional r
  | _ => false
  end.

(** Formulas of linear time. *)
Fixpoint linear (φ : TemporalAst) : bool :=
  match φ with
  | t_atom _ => true
  | t_not x | t_G x | t_F x | t_X x => linear x
  | t_and l r | t_or l r | t_implies l r | t_iff l r | t_U l r => linear l && linear r
  | _ => false
  end.

(** Formulas of branching time. *)
Fixpoint branching (φ : TemporalAst) : bool :=
  match φ with
  | t_atom _ => true
  | t_not x | t_EX x | t_AX x | t_EF x | t_AF x | t_EG x | t_AG x => branching x
  | t_and l r | t_or l r | t_implies l r | t_iff l r | t_EU l r | t_AU l r => branching l && branching r
  | t_G _ | t_F _ | t_X _ | t_U _ _ => false
  end.

Definition of_logic (logic : FormalVerificationLogic) (φ : TemporalAst) : bool :=
  match logic with LTL => linear φ | CTL => branching φ end.

(** Linear-time formulas in which temporal operators occur only positively. *)
Fixpoint positive (φ : TemporalAst) : bool :=
  match φ with
  | t_atom _ => true
  | t_not x => propositional x
  | t_implies l r => propositional l && positive r
  | t_iff l r => propositional l && propositional r
  | t_G x | t_F x | t_X x => positive x
  | t_and l r | t_or l r | t_U l r => positive l && positive r
  | _ => false
  end.

(** Formulas whose translation is equivalent: disjunctions and implications with a
    propositional side, [F] and [U] of propositional formulas. *)
Fixpoint exact (φ : TemporalAst) : bool :=
  match φ with
  | t_and l r => exact l && exact r
  | t_or l r | t_implies l r => propositional l && exact r
  | t_G x | t_X x => exact x
  | t_F x => propositional x
  | t_U l r => propositional l && propositional r
  | φ => propositional φ
  end.

Section linear_time.
Context (kripke : KripkeStructure) (enumLiterals : list string).

#[local] Abbreviation post := (succs kripke).
#[local] Abbreviation sat := (sat kripke enumLiterals).
#[local] Abbreviation path := (path kripke).

(** The path that is left after [i] steps. *)
Definition suffix (i : nat) (π : nat → string) : nat → string := λ j, π (i + j)%nat.

(** The meaning of a linear-time formula on an infinite path; the operators of
    branching time have no meaning on a path. *)
Fixpoint holds_on (φ : TemporalAst) (π : nat → string) : Prop :=
  match φ with
  | t_atom e => holds_atom kripke enumLiterals e (π 0%nat)
  | t_not x => ¬ holds_on x π
  | t_and l r => holds_on l π ∧ holds_on r π
  | t_or l r => holds_on l π ∨ holds_on r π
  | t_implies l r => holds_on l π → holds_on r π
  | t_iff l r => holds_on l π ↔ holds_on r π
  | t_G x => ∀ i, holds_on x (suffix i π)
  | t_F x => ∃ i, holds_on x (suffix i π)
  | t_X x => holds_on x (suffix 1 π)
  | t_U l r => ∃ i, holds_on r (suffix i π) ∧ ∀ j, (j < i)%nat → holds_on l (suffix j π)
  | _ => False
  end.

(** A state satisfies a linear-time formula when every path from it does. *)
Definition models (id : string) (φ : TemporalAst) : Prop := ∀ π, path id π → holds_on φ π.

Lemma suffix_path i π id : path id π → path (π i) (suffix i π).
Proof.
  intros [_ Hs]. unfold suffix. split; [by rewrite Nat.add_0_r|]. intros j.
  replace (i + S j)%nat with (S (i + j)) by lia. apply Hs.
Qed.

(** Without temporal operators the two meanings agree. *)
Lemma propositional_agree φ π id : propositional φ = true → path id π → sat (ltlToCtl φ) id ↔ holds_on φ π.
Proof.
  intros Hp [H0 _]. induction φ; cbn in Hp |- *; try done;
    try (apply andb_true_iff in Hp as [? ?]); try tauto.
  - by rewrite H0.
Qed.

Lemma translation_sound φ id :
  positive φ = true → sat (ltlToCtl φ) id → ∀ π, path id π → holds_on φ π.
Proof.
  revert id; induction φ as [e|x IH|l IHl r IHr|l IHl r IHr|l IHl r IHr|l IHl r IHr|x IH|x IH|x IH|l IHl r IHr
    |x IH|x IH|x IH|x IH|x IH|x IH|l IHl r IHr|l IHl r IHr];
    intros id Hp Hs π Hπ; cbn in Hp; try done; try (apply andb_true_iff in Hp as [Hl Hr]).
  - by apply (propositional_agree (t_atom e) π id).
  - by apply (propositional_agree (t_not x) π id).
  - destruct Hs as [Hsl Hsr]. split; [by eapply IHl|by eapply IHr].
  - destruct Hs as [Hs|Hs]; [left; by eapply IHl|right; by eapply IHr].
  - intros Hol. eapply IHr; [done| |done]. apply Hs. by apply (propositional_agree l π id).
  - apply (propositional_agree (t_iff l r) π id); [cbn; by rewrite Hl, Hr|done|done].
  - intros i. by apply (IH (π i)); [|apply Hs|eapply suffix_path].
  - destruct (Hs π Hπ) as [i Hi]. exists i. by apply (IH (π i)); [| |eapply suffix_path].
  - apply (IH (π 1%nat)); [done| |by eapply suffix_path]. apply Hs. by apply path_step_state.
  - destruct (Hs π Hπ) as (i & Hi & Hj). exists i. split; [by apply (IHr (π i)); [| |eapply suffix_path]|].
    intros j Hlt. apply (IHl (π j)); [done|by apply Hj|by eapply suffix_path].
Qed.
(** ** The formulas that are translated exactly *)

Lemma holds_on_ext φ π π' : (∀ i, π i = π' i) → holds_on φ π ↔ holds_on φ π'.
Proof.
  revert π π'; induction φ as [e|x IH|l IHl r IHr|l IHl r IHr|l IHl r IHr|l IHl r IHr|x IH|x IH|x IH|l IHl r IHr
    |x IH|x IH|x IH|x IH|x IH|x IH|l IHl r IHr|l IHl r IHr]; intros π π' E; cbn; try done.
  - by rewrite (E 0%nat).
  - by rewrite (IH π π').
  - by rewrite (IHl π π'), (IHr π π').
  - by rewrite (IHl π π'), (IHr π π').
  - by rewrite (IHl π π'), (IHr π π').
  - by rewrite (IHl π π'), (IHr π π').
  - split; intros H i; (eapply IH; [|apply (H i)]); intros j; unfold suffix; by rewrite E.
  - split; intros [i H]; exists i; (eapply IH; [|exact H]); intros j; unfold suffix; by rewrite E.
  - apply IH. intros j. apply E.
  - assert (∀ i j, suffix i π j = suffix i π' j) as Es by (intros i j; unfold suffix; by rewrite E).
    split; intros (i & Hi & Hj); exists i; (split; [by apply (IHr _ _ (Es i))|]); intros j Hlt;
      by apply (IHl _ _ (Es j)), Hj.
Qed.

(** Another path may follow the first [i] steps. *)
Definition spliced (i : nat) (π ρ : nat → string) : nat → string :=
  λ j, if (j <? i)%nat then π j else ρ (j - i)%nat.

Lemma spliced_path i π ρ id : path id π → path (π i) ρ → path id (spliced i π ρ).
Proof.
  intros [H0 Hs] [Hr0 Hr]. split.
  - unfold spliced. case_match eqn:E; [done|]. apply Nat.ltb_ge in E.
    assert (i = 0%nat) as -> by lia. by rewrite Nat.sub_0_r, Hr0.
  - intros j. unfold spliced. destruct (Nat.ltb_spec (S j) i) as [Hlt|Hge].
    + rewrite (proj2 (Nat.ltb_lt j i)) by lia. apply Hs.
    + destruct (Nat.ltb_spec j i) as [Hlt|Hge'].
      * assert (i = S j) as -> by lia. rewrite Nat.sub_diag, Hr0. apply Hs.
      * replace (S j - i)%nat with (S (j - i)) by lia. apply Hr.
Qed.

Lemma spliced_suffix i π ρ j : suffix i (spliced i π ρ) j = ρ j.
Proof.
  unfold suffix, spliced. rewrite (proj2 (Nat.ltb_ge (i + j) i)) by lia. f_equal. lia.
Qed.

#[local] Instance holds_atom_dec e id : Decision (holds_atom kripke enumLiterals e id).
Proof.
  unfold holds_atom. destruct (map_get id (k_states kripke)) as [v|] eqn:E.
  - destruct (atomSatisfies e v enumLiterals) as [[]|] eqn:Ea.
    + left. by exists v.
    + right. intros (w & [= <-] & Hw). congruence.
    + right. intros (w & [= <-] & Hw). congruence.
  - right. by intros (w & ? & _).
Defined.

Lemma propositional_dec φ id : propositional φ = true → sat φ id ∨ ¬ sat φ id.
Proof.
  induction φ; cbn; intros Hp; try done; try (apply andb_true_iff in Hp as [Hl Hr]).
  - destruct (decide (holds_atom kripke enumLiterals expr id)); tauto.
  - specialize (IHφ Hp). tauto.
  - specialize (IHφ1 Hl). specialize (IHφ2 Hr). tauto.
  - specialize (IHφ1 Hl). specialize (IHφ2 Hr). tauto.
  - specialize (IHφ1 Hl). specialize (IHφ2 Hr). tauto.
  - specialize (IHφ1 Hl). specialize (IHφ2 Hr). tauto.
Qed.

Lemma propositional_translation φ : propositional φ = true → ltlToCtl φ = φ.
Proof.
  induction φ; cbn; intros Hp; try done; try (apply andb_true_iff in Hp as [Hl Hr]); f_equal; auto.
Qed.

Lemma exact_positive φ : exact φ = true → positive φ = true.
Proof.
  assert (∀ ψ, propositional ψ = true → positive ψ = true) as Hp.
  { induction ψ; cbn; intros H; try done; apply andb_true_iff in H as [Hl Hr];
      by rewrite ?Hl, ?Hr, ?IHψ1, ?IHψ2. }
  induction φ; cbn; intros H; try done; auto; apply andb_true_iff in H as [Hl Hr]; rewrite andb_true_iff; auto.
Qed.

Context (Hwf : wf_kripke kripke).

Lemma propositional_models φ id : propositional φ = true → id ∈ all_ids kripke → models id φ → sat (ltlToCtl φ) id.
Proof.
  intros Hp Hid Hm. destruct (path_exists kripke id Hwf Hid) as [π Hπ].
  apply (propositional_agree φ π id); [done|done|by apply Hm].
Qed.

Lemma models_suffix φ id π i : models id (t_G φ) → path id π → models (π i) φ.
Proof.
  intros Hm Hπ ρ Hρ. apply (holds_on_ext φ (suffix i (spliced i π ρ))); [apply spliced_suffix|].
  apply Hm. by apply spliced_path.
Qed.

Lemma models_next φ id t : models id (t_X φ) → t ∈ post id → models t φ.
Proof.
  intros Hm Ht ρ Hρ. apply (holds_on_ext φ (suffix 1 (path_cons id ρ))); [done|].
  apply Hm. by eapply path_cons_path.
Qed.

Lemma translation_complete φ id :
  exact φ = true → id ∈ all_ids kripke → models id φ → sat (ltlToCtl φ) id.
Proof.
  revert id; induction φ as [e|x IH|l IHl r IHr|l IHl r IHr|l IHl r IHr|l IHl r IHr|x IH|x IH|x IH|l IHl r IHr
    |x IH|x IH|x IH|x IH|x IH|x IH|l IHl r IHr|l IHl r IHr];
    intros id He Hid Hm; try done; try by apply propositional_models.
  all: cbn in He; try (apply andb_true_iff in He as [Hl Hr]).
  - split; [apply IHl|apply IHr]; try done; intros π Hπ; by apply (Hm π Hπ).
  - destruct (propositional_dec (ltlToCtl l) id) as [Hs|Hs]; [by rewrite propositional_translation|by left|].
    right. apply IHr; [done..|]. intros π Hπ. destruct (Hm π Hπ) as [Ho|Ho]; [|done].
    destruct Hs. by apply (propositional_agree l π id).
  - intros Hs. apply IHr; [done..|]. intros π Hπ. apply (Hm π Hπ). by apply (propositional_agree l π id).
  - intros π Hπ i. apply IH; [done|by eapply path_states|by eapply models_suffix].
  - intros π Hπ. destruct (Hm π Hπ) as [i Hi]. exists i.
    apply (propositional_agree x (suffix i π) (π i)); [done|by eapply suffix_path|done].
  - intros t Ht. apply IH; [done|by apply (wk_closed kripke Hwf) in Ht as []|by eapply models_next].
  - intros π Hπ. destruct (Hm π Hπ) as (i & Hi & Hj). exists i. split.
    + apply (propositional_agree r (suffix i π) (π i)); [done|by eapply suffix_path|done].
    + intros j Hlt. apply (propositional_agree l (suffix j π) (π j)); [done|by eapply suffix_path|by apply Hj].
Qed.
End linear_time.
