(* ===== verification/KripkeProof.v ===== *)
(** * Formal verification of rule packs: the states of the Kripke structure

    The breadth-first construction ends, its result is a structure the model checker
    is correct on, and its states are the valuations a run can reach. *)

From Stdlib Require Import Ascii.
From S2P Require Import Prelude JsString JsList NodePath Decimal CanonicalJson FvSyntax FvModel CtlChecker.

Section construction.
Context (successors : valuation → outcome EvalError (list valuation)).

Definition tag (v : valuation) : string * valuation := (stateId v, v).
#[local] Abbreviation id_list vs := (stateId <$> (vs : list valuation)).

Lemma tag_keys vs : (tag <$> vs).*1 = id_list vs.
Proof. by rewrite <- list_fmap_compose. Qed.

Lemma tagged_has v vs : map_has (stateId v) (tag <$> vs) = bool_decide (stateId v ∈ id_list vs).
Proof. unfold map_has. apply bool_decide_ext. by rewrite map_get_is_Some, tag_keys. Qed.

Lemma map_set_fresh {A} k (v : A) m : k ∉ m.*1 → map_set k v m = m ++ [(k, v)].
Proof.
  intros Hk%map_get_None. unfold map_set. unfold map_get in Hk. apply fmap_None in Hk. by rewrite Hk.
Qed.

(** The states that are new are recorded and queued, in order. *)
Lemma discover_all_spec vs seen queue :
  NoDup (id_list seen) →
  ∃ new, discover_all vs (tag <$> seen) queue = (tag <$> (seen ++ new), queue ++ new) ∧
    (∀ w, w ∈ new → w ∈ vs) ∧ NoDup (id_list (seen ++ new)) ∧
    (∀ w, w ∈ vs → stateId w ∈ id_list (seen ++ new)).
Proof.
  unfold discover_all. revert seen queue; induction vs as [|v vs IH]; intros seen queue Hnd.
  { exists []. rewrite !app_nil_r. split_all; [done|done|done|]. intros w Hw. by apply elem_of_nil in Hw. }
  cbn [foldl fst snd]. unfold discover at 2. rewrite tagged_has. case_bool_decide as Hv.
  - destruct (IH seen queue Hnd) as (new & -> & Hin & Hnd' & Hall). exists new. split_all; [done| |done|].
    + intros w Hw. right. by apply Hin.
    + intros w [->|Hw]%elem_of_cons; [|by apply Hall]. rewrite fmap_app. apply elem_of_app. by left.
  - assert (map_set (stateId v) v (tag <$> seen) = tag <$> (seen ++ [v])) as ->.
    { rewrite map_set_fresh by by rewrite tag_keys. by rewrite fmap_app. }
    destruct (IH (seen ++ [v]) (queue ++ [v])) as (new & E & Hin & Hnd' & Hall).
    { rewrite fmap_app. apply NoDup_app. split_all; [done| |apply NoDup_singleton].
      by intros x Hx ->%list_elem_of_singleton. }
    cbn [fst snd]. exists (v :: new). rewrite E, <- !(assoc_L app). cbn.
    rewrite <- !(assoc_L app) in Hnd', Hall. split_all; [done| |done|].
    + intros w [->|Hw]%elem_of_cons; [left|right; by apply Hin].
    + intros w [->|Hw]%elem_of_cons; [|by apply Hall]. apply list_elem_of_fmap_2, elem_of_app. right. left.
Qed.

(** The successors recorded for a state; a state without any has itself. *)
Definition next_ids (v : valuation) (vs : list valuation) : list string :=
  let ids := set_of (id_list vs) in match ids with [] => [stateId v] | _ => ids end.

Lemma elem_of_next_ids v vs id :
  id ∈ next_ids v vs ↔ (∃ w, w ∈ vs ∧ id = stateId w) ∨ (vs = [] ∧ id = stateId v).
Proof.
  unfold next_ids. pose proof (elem_of_set_of (id_list vs)) as Hset. destruct vs as [|w vs].
  { cbn. rewrite list_elem_of_singleton. split; [by right|]. intros [(w & []%elem_of_nil & _)|[_ ?]]; done. }
  destruct (set_of (id_list (w :: vs))) as [|x l] eqn:E.
  { specialize (Hset (stateId w)). exfalso. apply (not_elem_of_nil (stateId w)), Hset. left. }
  rewrite (Hset id), list_elem_of_fmap. naive_solver.
Qed.

Definition expanded (v : valuation) (entry : string * list string) : Prop :=
  ∃ vs, successors v = Ok vs ∧ entry = (stateId v, next_ids v vs).

Definition closed_in (vs all : list valuation) : Prop :=
  ∀ v ws w, v ∈ vs → successors v = Ok ws → w ∈ ws → stateId w ∈ id_list all.

Inductive reach (start : list valuation) : valuation → Prop :=
| reach_start v : v ∈ start → reach start v
| reach_step v ws w : reach start v → successors v = Ok ws → w ∈ ws → reach start w.

(** What the states and the transitions are once the queue is empty. *)
Record complete (start all : list valuation) (transitions : list (string * list string)) : Prop := {
  cp_ids : NoDup (id_list all);
  cp_start v : v ∈ start → stateId v ∈ id_list all;
  cp_entries : Forall2 expanded all transitions;
  cp_closed : closed_in all all;
  cp_reach v : v ∈ all → reach start v;
}.

Lemma Forall2_keys (all : list valuation) (transitions : list (string * list string)) :
  Forall2 expanded all transitions → transitions.*1 = id_list all.
Proof.
  induction 1 as [|v e all es (vs & _ & ->) _ IH]; [done|]. cbn. by rewrite IH.
Qed.

(** Why the construction gives up. *)
Definition refused (start : list valuation) (e : ModelError) : Prop :=
  match e with
  | me_evaluation e => ∃ v, reach start v ∧ successors v = Throw e
  | me_state_limit =>
      ∃ vs, NoDup (id_list vs) ∧ (∀ v, v ∈ vs → reach start v) ∧
        (FORMAL_VERIFICATION_STATE_LIMIT < length vs)%nat
  end.

Lemma explore_spec fuel start (done queue : list valuation) transitions :
  NoDup (id_list (done ++ queue)) → (∀ v, v ∈ start → stateId v ∈ id_list (done ++ queue)) →
  Forall2 expanded done transitions → closed_in done (done ++ queue) →
  (∀ v, v ∈ done ++ queue → reach start v) →
  (length done ≤ FORMAL_VERIFICATION_STATE_LIMIT)%nat → (KRIPKE_FUEL ≤ fuel + length done)%nat →
  ∃ out, explore successors fuel (tag <$> (done ++ queue)) transitions queue = Some out ∧
    match out with
    | Throw e => refused start e
    | Ok (states, transitions') => ∃ all, states = tag <$> all ∧ complete start all transitions'
    end.
Proof.
  revert done queue transitions; induction fuel as [|fuel IH]; intros done queue transitions Hnd Hst Hexp Hcl Hre Hlim Hfuel.
  { unfold KRIPKE_FUEL in Hfuel. lia. }
  cbn [explore]. destruct queue as [|current rest].
  { rewrite app_nil_r in *. eexists. split; [done|]. exists done. split; [done|]. by split. }
  case_match eqn:Hl.
  { eexists. split; [done|]. exists (done ++ current :: rest). rewrite length_fmap in Hl.
    split_all; [done|done|]. by apply Nat.ltb_lt. }
  apply Nat.ltb_ge in Hl. destruct (successors current) as [ws|e] eqn:Hw.
  2:{ eexists. split; [done|]. exists current. split; [|done]. apply Hre, elem_of_app. right. left. }
  destruct (discover_all_spec ws (done ++ current :: rest) rest Hnd) as (new & -> & Hnew & Hnd' & Hws).
  rewrite map_set_fresh by (rewrite (Forall2_keys done transitions Hexp); intros Hin;
    rewrite fmap_app in Hnd; apply NoDup_app in Hnd as (_ & Hd & _); apply (Hd _ Hin); left).
  assert ((done ++ current :: rest) ++ new = (done ++ [current]) ++ rest ++ new) as Eall
    by by rewrite <- !(assoc_L app).
  rewrite Eall in *. apply IH; try done.
  - intros v Hv. rewrite <- Eall, fmap_app. apply elem_of_app. left. by apply Hst.
  - apply Forall2_app; [done|]. apply Forall2_cons. split; [|constructor]. by exists ws.
  - intros v vs w [Hv|Hv]%elem_of_app Hs Hin.
    + rewrite <- Eall, fmap_app. apply elem_of_app. left. by eapply Hcl.
    + apply list_elem_of_singleton in Hv as ->. rewrite Hw in Hs. injection Hs as <-. by apply Hws.
  - intros v Hv. rewrite <- Eall in Hv. apply elem_of_app in Hv as [Hv|Hv]; [by apply Hre|].
    apply (reach_step _ current ws); [|done|by apply Hnew]. apply Hre, elem_of_app. right. left.
  - rewrite length_fmap, length_app in Hl. rewrite length_app. simpl in *. lia.
  - rewrite length_app. simpl. lia.
Qed.
(** A construction that succeeds is a structure for the model checker. *)
Lemma complete_wf start all transitions initial :
  complete start all transitions →
  wf_kripke {| k_states := tag <$> all; k_initial := initial; k_transitions := transitions |}.
Proof.
  intros [Hids Hst Hexp Hcl Hre]. pose proof (Forall2_keys all transitions Hexp) as Hkeys.
  assert (∀ id entry, map_get id transitions = Some entry → ∃ v vs,
    id = stateId v ∧ v ∈ all ∧ successors v = Ok vs ∧ entry = next_ids v vs) as Hentry.
  { intros id entry Hin%map_get_elem. apply list_elem_of_lookup in Hin as [i Hi].
    destruct (Forall2_lookup_r _ _ _ _ _ Hexp Hi) as (v & Hv & vs & Hs & [= -> ->]).
    exists v, vs. split_all; try done. by eapply list_elem_of_lookup_2. }
  assert (∀ v vs t, v ∈ all → successors v = Ok vs → t ∈ next_ids v vs → t ∈ id_list all) as Hnext.
  { intros v vs t Hv Hs Ht. unfold next_ids in Ht.
    destruct (set_of (id_list vs)) as [|x l] eqn:E; cbn in Ht.
    - apply list_elem_of_singleton in Ht as ->. by apply list_elem_of_fmap_2.
    - rewrite <- E, elem_of_set_of in Ht. apply list_elem_of_fmap in Ht as (w & -> & Hw). by eapply Hcl. }
  split; unfold all_ids, succs; cbn [k_states k_transitions]; rewrite ?tag_keys; try done.
  - by rewrite Hkeys.
  - intros id Hid. rewrite <- Hkeys in Hid. apply map_get_is_Some in Hid as [entry He]. rewrite He. cbn.
    apply Hentry in He as (v & vs & _ & _ & _ & ->). unfold next_ids. by case_match.
  - intros id t Ht. destruct (map_get id transitions) as [entry|] eqn:He; [|by apply elem_of_nil in Ht].
    apply Hentry in He as (v & vs & -> & Hv & Hs & ->). split; [by apply list_elem_of_fmap_2|by eapply Hnext].
Qed.
End construction.

(** ** Valuations are told apart by their identifiers *)

Lemma filter_Ok_spec {A} (test : A → outcome EvalError bool) l r :
  filter_Ok test l = Ok r → ∀ x, x ∈ r ↔ x ∈ l ∧ test x = Ok true.
Proof.
  revert r; induction l as [|y l IH]; intros r; cbn.
  { intros [= <-] x. split; [intros []%elem_of_nil|intros [[]%elem_of_nil _]]. }
  destruct (test y) as [b|] eqn:E; [|done]. destruct (filter_Ok test l) as [rest|] eqn:El; [|done]. cbn.
  intros [= <-] x. specialize (IH rest eq_refl x). destruct b; rewrite ?elem_of_cons, IH; naive_solver congruence.
Qed.

Lemma mapM_Ok_keys {A B} (f : A → outcome EvalError (string * B)) (name : A → string) l r :
  (∀ x p, f x = Ok p → p.1 = name x) → mapM_Ok f l = Ok r → r.*1 = name <$> l.
Proof.
  intros Hf. revert r; induction l as [|x l IH]; intros r; cbn; [by intros [= <-]|].
  destruct (f x) as [p|] eqn:E; [|done]. destruct (mapM_Ok f l) as [ps|]; [|done]. cbn.
  intros [= <-]. cbn. by rewrite (Hf x p E), (IH ps eq_refl).
Qed.

Lemma map_set_keys_add {A} k (v : A) m : (map_set k v m).*1 = set_add m.*1 k.
Proof.
  rewrite map_set_keys. unfold map_has, set_add. do 2 case_bool_decide; try done.
  - by destruct H0; apply map_get_is_Some.
  - by destruct H; apply map_get_is_Some.
Qed.

(** The properties of a valuation are the variables, each once. *)
Lemma product_keys choices acc keys v :
  (∀ w, w ∈ acc → w.*1 = keys) →
  v ∈ foldl (λ acc p, extend acc p.1 p.2) acc choices → v.*1 = foldl set_add keys choices.*1.
Proof.
  revert acc keys; induction choices as [|[name vs] choices IH]; intros acc keys Hacc; cbn; [by apply Hacc|].
  apply IH. unfold extend. intros w (p & Hw & Hp)%list_elem_of_bind.
  apply list_elem_of_fmap in Hw as (c & -> & _). by rewrite map_set_keys_add, (Hacc p).
Qed.

Lemma in_domains_spec v variables :
  in_domains v variables = Ok true ↔
  ∀ x, x ∈ variables → valueInDomain (map_get (variable_name x) v) x = Ok true.
Proof.
  induction variables as [|x variables IH]; cbn; [split; [intros _ x []%elem_of_nil|done]|]. split.
  - destruct (valueInDomain _ x) as [[]|] eqn:E; cbn; [|done..]. intros H y [->|Hy]%elem_of_cons; [done|by apply IH].
  - intros H. rewrite H by left. cbn. apply IH. intros y Hy. apply H. by right.
Qed.

Section build.
Context (spec : ParsedSpec).

#[local] Abbreviation successors := (spec_successors spec).
#[local] Abbreviation variables := (ps_variables spec).
#[local] Abbreviation bar := "|"%char.

(** Every variable has a value of its domain. *)
Definition typed (v : valuation) : Prop :=
  v.*1 = set_of (variable_name <$> variables) ∧
  ∀ x, x ∈ variables → valueInDomain (map_get (variable_name x) v) x = Ok true.

Lemma choices_typed (f : SpecVariable → outcome EvalError (string * list value)) vs :
  (∀ x p, f x = Ok p → p.1 = variable_name x) →
  (let* choices := mapM_Ok f variables in filter_Ok (λ v, in_domains v variables) (product choices))%outcome = Ok vs →
  ∀ v, v ∈ vs → typed v.
Proof.
  intros Hf. destruct (mapM_Ok f variables) as [choices|] eqn:E; [|done]. cbn.
  intros Hvs v. rewrite (filter_Ok_spec _ _ _ Hvs). intros [Hv Hd]. split; [|by apply in_domains_spec].
  rewrite <- (mapM_Ok_keys f variable_name _ _ Hf E). unfold product in Hv.
  apply (product_keys _ _ [] v) in Hv; [done|]. by intros w ->%list_elem_of_singleton.
Qed.

Lemma initial_typed vs :
  initialValuations variables (ps_inits spec) (collectEnumLiterals spec) = Ok vs → ∀ v, v ∈ vs → typed v.
Proof.
  apply choices_typed. intros x p. unfold init_choices.
  destruct (rule_of _ _); [destruct (evalExpr _ _ _); [|done]|]; by intros [= <-].
Qed.

Lemma successors_typed v ws : successors v = Ok ws → ∀ w, w ∈ ws → typed w.
Proof.
  apply choices_typed. intros x p. unfold next_choices.
  destruct (rule_of _ _); [destruct (evalExpr _ _ _); [|done]|]; by intros [= <-].
Qed.

Lemma reach_typed vs v :
  initialValuations variables (ps_inits spec) (collectEnumLiterals spec) = Ok vs → reach successors vs v → typed v.
Proof. intros Hi [w Hw|w ws w' _ Hs Hw]; [by eapply initial_typed|by eapply successors_typed]. Qed.

(** The parser takes names without a bar. *)
Definition plain (x : SpecVariable) : Prop :=
  has_char bar (variable_name x) = false ∧ Forall (λ s, has_char bar s = false) (enum_values x).

Definition printable (v : value) : Prop := has_char bar (value_text v) = false ∧ v ≠ VInherited.

Lemma quote_no_bar s : has_char bar s = false → has_char bar (quote +:+ s +:+ quote) = false.
Proof. intros Hs. by rewrite !has_char_app, Hs. Qed.

Lemma some_Ok_true {A} (test : A → outcome EvalError bool) l : some_Ok test l = Ok true → ∃ x, x ∈ l ∧ test x = Ok true.
Proof.
  induction l as [|x l IH]; cbn; [done|]. destruct (test x) as [[]|] eqn:E; cbn; [|intros H|done].
  - intros _. exists x. split; [left|done].
  - destruct (IH H) as (y & Hy & E'). exists y. split; [by right|done].
Qed.

Lemma domain_printable x v : plain x → valueInDomain (Some v) x = Ok true → printable v.
Proof.
  intros [Hn He] Hd. assert (v ≠ VInherited) as Hv.
  { intros ->. destruct x as [name values|name min max]; cbn in Hd; [|done].
    by apply some_Ok_true in Hd as (y & _ & ?). }
  split; [|done]. destruct v as [s|z|b|]; [| | |done].
  - apply quote_no_bar. destruct x as [name values|name min max]; cbn in Hd, He.
    + apply some_Ok_true in Hd as (y & Hy & [= Heq]). apply bool_decide_eq_true in Heq as <-.
      rewrite Forall_forall in He. by apply He.
    + unfold number_of_string in Hd. case_bool_decide; [done|].
      destruct (decimal_value 0 s) as [n|] eqn:E; [|done]. apply decimal_value_digits in E.
      by eapply all_chars_has_char.
  - by apply pretty_Z_no_char.
  - by destruct b.
Qed.

Lemma quote_first s t : quote +:+ s = quote +:+ t → s = t.
Proof. intros E. by injection E. Qed.

(** Apart from inherited members, a value can be read off its text. *)
Lemma value_text_inj a b : a ≠ VInherited → b ≠ VInherited → value_text a = value_text b → a = b.
Proof.
  assert (∀ (z : Z) s, pretty z = quote +:+ s +:+ quote → False) as Hz.
  { intros z s E. pose proof (pretty_Z_no_char "034"%char z eq_refl) as Hn. rewrite E in Hn. cbn in Hn.
    by specialize (Hn ltac:(done)). }
  assert (∀ (z : Z) s c, pretty z = String c s → is_decimal_digit c = false → c = "-"%char) as Hl.
  { intros z s c E Hc. destruct (decide (c = "-"%char)) as [|Hne]; [done|].
    pose proof (pretty_Z_no_char c z Hc Hne) as Hn. rewrite E in Hn. cbn in Hn. by rewrite Ascii.eqb_refl in Hn. }
  destruct a as [s|z|x|], b as [t|z'|y|]; intros Ha Hb E; cbn in E; try done.
  - f_equal. apply quote_first in E. by eapply string_app_inj_r.
  - by destruct (Hz z' s).
  - by destruct y.
  - by destruct (Hz z t).
  - f_equal. by apply (inj pretty).
  - destruct y; by apply Hl in E.
  - by destruct x.
  - destruct x; symmetry in E; by apply Hl in E.
  - by destruct x, y.
Qed.
Lemma typed_part v x :
  plain x → x ∈ variables → typed v →
  ∃ a, map_get (variable_name x) v = Some a ∧ printable a ∧
    has_char bar (state_part v (variable_name x)) = false.
Proof.
  intros Hp Hx [_ Hd]. specialize (Hd x Hx). unfold state_part.
  destruct (map_get (variable_name x) v) as [a|] eqn:E; [|done].
  apply domain_printable in Hd; [|done]. exists a. split_all; [done|done|]. cbn.
  rewrite !has_char_app, (proj1 Hp), (proj1 Hd). done.
Qed.

Lemma key_variable v k : typed v → k ∈ v.*1 → ∃ x, x ∈ variables ∧ k = variable_name x.
Proof. intros [-> _]. rewrite elem_of_set_of, list_elem_of_fmap. naive_solver. Qed.

Lemma entries_ext {A} (m m' : list (string * A)) :
  NoDup m.*1 → m.*1 = m'.*1 → (∀ k, k ∈ m.*1 → map_get k m = map_get k m') → m = m'.
Proof.
  intros Hnd Hk Hget. apply list_eq_same_length with (length m); [|done|].
  { by rewrite <- (length_fmap fst m), Hk, length_fmap. }
  intros i [k a] [k' a'] _ Hi Hi'.
  assert (k = k') as <-.
  { apply (f_equal (.!! i)) in Hk. rewrite !list_lookup_fmap, Hi, Hi' in Hk. by injection Hk. }
  specialize (Hget k (list_elem_of_fmap_2' fst _ _ _ (list_elem_of_lookup_2 _ _ _ Hi) eq_refl)).
  rewrite (map_get_unique k a), (map_get_unique k a') in Hget.
  - by simplify_eq.
  - by rewrite <- Hk.
  - by eapply list_elem_of_lookup_2.
  - done.
  - by eapply list_elem_of_lookup_2.
Qed.

Lemma fmap_eq_pointwise {A B} (f g : A → B) (l : list A) : f <$> l = g <$> l → ∀ x, x ∈ l → f x = g x.
Proof.
  induction l as [|y l IH]; cbn; [by intros _ x []%elem_of_nil|].
  intros [= Hy Hl] x [->|Hx]%elem_of_cons; [done|by apply IH].
Qed.

Lemma stateId_inj v w : Forall plain variables → typed v → typed w → stateId v = stateId w → v = w.
Proof.
  intros Hp Hv Hw E. rewrite Forall_forall in Hp. assert (v.*1 = w.*1) as Hk by by rewrite (proj1 Hv), (proj1 Hw).
  assert (NoDup v.*1) as Hnd by (rewrite (proj1 Hv); apply NoDup_set_of).
  unfold stateId in E. rewrite <- Hk in E. set (keys := js_sort String.compare v.*1) in E.
  assert (∀ k, k ∈ keys → k ∈ v.*1) as Hin by (intros k; apply elem_of_js_sort).
  assert (∀ u, typed u → Forall (λ p, has_char bar p = false) (state_part u <$> keys)) as Hparts.
  { intros u Hu. apply Forall_fmap, Forall_forall. intros k Hkin. destruct (key_variable v k Hv (Hin k Hkin)) as (x & Hx & ->).
    destruct (typed_part u x) as (a & _ & _ & ?); auto. }
  assert (state_part v <$> keys = state_part w <$> keys) as Eparts.
  { destruct keys as [|k ks] eqn:Ek; [done|].
    apply (f_equal (split_on bar)) in E. change "|" with (String bar "") in E.
    by rewrite !split_on_join in E by (done || auto). }
  apply entries_ext; [done|done|]. intros k Hkin.
  assert (state_part v k = state_part w k) as Ep.
  { apply (fmap_eq_pointwise _ _ keys Eparts). by apply elem_of_js_sort. }
  destruct (key_variable v k Hv Hkin) as (x & Hx & ->).
  destruct (typed_part v x) as (a & Ha & Hpa & _); auto. destruct (typed_part w x) as (b & Hb & Hpb & _); auto.
  unfold state_part in Ep. rewrite Ha, Hb in Ep |- *. cbn in Ep. f_equal.
  apply value_text_inj; [apply Hpa|apply Hpb|]. by apply string_app_inj_l, string_app_inj_l in Ep.
Qed.

Lemma buildKripke_spec vs :
  initialValuations (ps_variables spec) (ps_inits spec) (collectEnumLiterals spec) = Ok vs →
  ∃ out, buildKripke spec = Some out ∧
    match out with
    | Throw e => refused successors vs e
    | Ok K => k_initial K = set_of (stateId <$> vs) ∧
        ∃ all, k_states K = tag <$> all ∧ complete successors vs all (k_transitions K)
    end.
Proof.
  intros Hi. unfold buildKripke. rewrite Hi.
  destruct (discover_all_spec vs [] [] ltac:(constructor)) as (new & E & Hnew & Hnd & Hall).
  change (tag <$> []) with (@nil (string * valuation)) in E. rewrite E. cbn [app] in *.
  destruct (explore_spec successors KRIPKE_FUEL vs [] new []) as (out & Hout & Hres); cbn [app]; try done.
  - intros v ws w Hv. by apply elem_of_nil in Hv.
  - intros v Hv. by apply reach_start, Hnew.
  - cbn. lia.
  - cbn [app] in Hout. rewrite Hout. cbn. destruct out as [[states transitions]|e]; cbn; [|by eexists].
    destruct Hres as (all & -> & Hc). eexists. split; [done|]. split; [done|]. by exists all.
Qed.

(** The structure that is built is the transition system of the specification: its
    states are the valuations that can be reached. *)
Record represents (K : KripkeStructure) (vs : list valuation) : Prop := {
  rp_wf : wf_kripke K;
  rp_state id v : map_get id (k_states K) = Some v ↔ reach successors vs v ∧ id = stateId v;
  rp_initial id : id ∈ k_initial K ↔ ∃ v, v ∈ vs ∧ id = stateId v;
  rp_next v ws : reach successors vs v → successors v = Ok ws →
    ∀ id, id ∈ succs K (stateId v) ↔ (∃ w, w ∈ ws ∧ id = stateId w) ∨ (ws = [] ∧ id = stateId v);
  rp_defined v : reach successors vs v → ∃ ws, successors v = Ok ws;
}.

Lemma complete_reach vs all transitions v :
  Forall plain variables →
  initialValuations variables (ps_inits spec) (collectEnumLiterals spec) = Ok vs →
  complete successors vs all transitions → reach successors vs v → v ∈ all.
Proof.
  intros Hp Hi Hc Hv.
  assert (∀ w, typed w → stateId w ∈ stateId <$> all → w ∈ all) as Hall.
  { intros w Hw (u & E & Hu)%list_elem_of_fmap. apply stateId_inj in E; [by subst|done|done|].
    eapply reach_typed; [done|]. by apply (cp_reach _ _ _ _ Hc). }
  induction Hv as [v Hv|v ws w Hv IH Hs Hw].
  - apply Hall; [by eapply initial_typed|]. by apply (cp_start _ _ _ _ Hc).
  - apply Hall; [by eapply successors_typed|]. by eapply (cp_closed _ _ _ _ Hc).
Qed.

Lemma kripke_represents vs K :
  Forall plain variables →
  initialValuations variables (ps_inits spec) (collectEnumLiterals spec) = Ok vs →
  buildKripke spec = Some (Ok K) → represents K vs.
Proof.
  intros Hp Hi HK. destruct (buildKripke_spec vs Hi) as (out & E & Hout). rewrite HK in E. injection E as <-.
  destruct Hout as (Hinit & all & Hstates & Hc).
  assert (∀ v, v ∈ all ↔ reach successors vs v) as Hall.
  { intros v. split; [apply (cp_reach _ _ _ _ Hc)|by eapply complete_reach]. }
  assert (NoDup (tag <$> all).*1) as Hnd by (rewrite tag_keys; apply (cp_ids _ _ _ _ Hc)).
  assert (∀ v, v ∈ all → ∃ ws, successors v = Ok ws ∧ map_get (stateId v) (k_transitions K) = Some (next_ids v ws)) as Hget.
  { intros v [i Hv]%list_elem_of_lookup.
    destruct (Forall2_lookup_l _ _ _ _ _ (cp_entries _ _ _ _ Hc) Hv) as (p & Hpi & ws & Hs & ->).
    exists ws. split; [done|]. apply map_get_unique; [|by eapply list_elem_of_lookup_2].
    rewrite (Forall2_keys _ _ _ (cp_entries _ _ _ _ Hc)). apply (cp_ids _ _ _ _ Hc). }
  split.
  - pose proof (complete_wf _ _ _ _ (k_initial K) Hc) as Hwf. rewrite <- Hstates in Hwf. by destruct K.
  - intros id v. rewrite Hstates, <- Hall. split.
    + intros Hin%map_get_elem. apply list_elem_of_fmap in Hin as (w & [= -> ->] & Hw). done.
    + intros [Hv ->]. apply map_get_unique; [done|]. by apply (list_elem_of_fmap_2 tag).
  - intros id. rewrite Hinit, elem_of_set_of, list_elem_of_fmap. naive_solver.
  - intros v ws Hv Hs id. destruct (Hget v) as (ws' & Hs' & Hnext); [by apply Hall|].
    rewrite Hs in Hs'. injection Hs' as <-. unfold succs. rewrite Hnext. by apply (elem_of_next_ids successors).
  - intros v Hv. destruct (Hget v) as (ws & Hs & _); [by apply Hall|by exists ws].
Qed.
End build.
