(* ===== verification/FvTokens.v ===== *)
(** * Formal verification of rule packs: tokens

    The tokenizer of [packages/agentic-harness/src/formal-verification.ts] and the
    cursor over its tokens. *)

From Stdlib Require Import Ascii.
From S2P Require Import Prelude JsString JsList NodePath CanonicalJson FvSyntax.

Definition FORMAL_VERIFICATION_MAX_SPEC_BYTES : Z := 65536.

Inductive TokenKind : Type := tk_ident | tk_int | tk_punct | tk_keyword | tk_operator | tk_eof.

#[export] Instance TokenKind_eq_dec : EqDecision TokenKind.
Proof. solve_decision. Defined.

Record Token := { tok_kind : TokenKind; tok_value : string; tok_line : Z; tok_column : Z }.

Definition KEYWORDS : list string :=
  ["MODULE"; "VAR"; "ASSIGN"; "DEFINE"; "init"; "next"; "case"; "esac"; "TRUE"; "FALSE"; "LTLSPEC"; "CTLSPEC"; "in";
   "boolean"; "main"; "G"; "F"; "X"; "U"; "EX"; "AX"; "EF"; "AF"; "EG"; "AG"; "E"; "A"].
Definition MULTI_OP_THREE : list string := ["<->"].
Definition MULTI_OP_TWO : list string := ["!="; "<="; ">="; "->"; ":="].
Definition SINGLE_PUNCT : list ascii :=
  ["("; ")"; "{"; "}"; "["; "]"; ","; ";"; ":"; "+"; "-"; "*"; "/"; "="; "<"; ">"; "&"; "|"; "!"; "."]%char.

(** [FormalSpecParseError] and [FormalSpecModelError] of the specification at hand;
    the character a parse error quotes is kept as it is. [inexact_integer] is no
    error of the code: the model ends at a numeral whose double is not exact. *)
Inductive SpecError : Type :=
| parse_error (line column : Z) (message : string)
| unexpected_character (line column : Z) (ch : ascii)
| model_error (message : string)
| inexact_integer (digits : string).

(** ** Tokenizer *)

Definition NEWLINE : ascii := "010"%char.

Definition is_blank_char (c : ascii) : bool := bool_decide (c ∈ [" "; "009"; "013"; NEWLINE]%char).

(** [[A-Za-z_]] and [[A-Za-z0-9_]] *)
Definition is_word_start (c : ascii) : bool :=
  let n := nat_of_ascii c in ((65 <=? n) && (n <=? 90) || (97 <=? n) && (n <=? 122) || (n =? 95))%nat.
Definition is_word_char (c : ascii) : bool := is_word_start c || is_decimal_digit c.

(** The line and the column. *)
Definition position : Type := Z * Z.
Definition advance (c : ascii) (p : position) : position :=
  if bool_decide (c = NEWLINE) then (p.1 + 1, 1) else (p.1, p.2 + 1).

Definition token_at (kind : TokenKind) (value : string) (p : position) : Token :=
  {| tok_kind := kind; tok_value := value; tok_line := p.1; tok_column := p.2 |}.

(** Characters while they pass the test: those, the rest and the position after. *)
Fixpoint span (test : ascii → bool) (s : string) (p : position) : string * string * position :=
  match s with
  | EmptyString => ("", "", p)
  | String c r =>
      if test c then let '(w, rest, p') := span test r (advance c p) in (String c w, rest, p') else ("", s, p)
  end.

Definition word_token (word : string) (p : position) : Token :=
  token_at (if bool_decide (word ∈ KEYWORDS) then tk_keyword else tk_ident) word p.

(** [Number(digits)], below [EXACT_BOUND]. *)
Definition int_value (digits : string) : Z := default 0 (decimal_value 0 digits).

(** The first operator the text starts with, and the rest. *)
Fixpoint strip_operator (ops : list string) (s : string) : option (string * string) :=
  match ops with
  | [] => None
  | op :: ops' => match strip_prefix op s with Some r => Some (op, r) | None => strip_operator ops' s end
  end.

Definition OPERATORS : list string := MULTI_OP_THREE ++ MULTI_OP_TWO ++ [".."].

Definition cons_token (t : Token) (m : option (outcome SpecError (list Token))) :
    option (outcome SpecError (list Token)) :=
  ts ← m; Some (outcome_map (cons t) ts).

(** [None]: out of fuel. *)
Fixpoint tokenize_from (fuel : nat) (s : string) (p : position) : option (outcome SpecError (list Token)) :=
  match fuel with
  | O => None
  | S fuel' =>
      match s with
      | EmptyString => Some (Ok [token_at tk_eof "" p])
      | String ch r =>
          if is_blank_char ch then tokenize_from fuel' r (advance ch p)
          else if starts_with "--" s then
            let '(_, rest, p') := span (λ c, negb (bool_decide (c = NEWLINE))) s p in tokenize_from fuel' rest p'
          else if is_word_start ch then
            let '(word, rest, p') := span is_word_char s p in
            cons_token (word_token word p) (tokenize_from fuel' rest p')
          else if is_decimal_digit ch then
            let '(digits, rest, p') := span is_decimal_digit s p in
            if is_exact (int_value digits)
            then cons_token (token_at tk_int digits p) (tokenize_from fuel' rest p')
            else Some (Throw (inexact_integer digits))
          else match strip_operator OPERATORS s with
          | Some (op, rest) =>
              cons_token (token_at tk_operator op p)
                (tokenize_from fuel' rest (p.1, p.2 + Z.of_nat (String.length op)))
          | None =>
              if bool_decide (ch ∈ SINGLE_PUNCT) then
                cons_token (token_at tk_punct (String ch "") p) (tokenize_from fuel' r (advance ch p))
              else Some (Throw (unexpected_character p.1 p.2 ch))
          end
      end
  end.

Definition tokenize (source : string) : option (outcome SpecError (list Token)) :=
  tokenize_from (S (String.length source)) source (1, 1).

(** ** Cursor *)

(** The cursor is the list of the tokens that are left; the last one stays. *)
Definition peek (ts : list Token) : Token := default (token_at tk_eof "" (1, 1)) (head ts).
Definition consume (ts : list Token) : list Token := match ts with _ :: ((_ :: _) as r) => r | _ => ts end.

Definition parser (A : Type) : Type := list Token → option (outcome SpecError (A * list Token)).

Definition p_return {A} (a : A) : parser A := λ ts, Some (Ok (a, ts)).
Definition p_fail {A} (e : SpecError) : parser A := λ _, Some (Throw e).
Definition p_stuck {A} : parser A := λ _, None.
Definition p_bind {A B} (p : parser A) (k : A → parser B) : parser B := λ ts,
  match p ts with
  | None => None
  | Some (Throw e) => Some (Throw e)
  | Some (Ok (a, ts')) => k a ts'
  end.

Declare Scope parser_scope.
Delimit Scope parser_scope with parser.
Notation "'let!' x ':=' m 'in' k" := (p_bind m (λ x, k)) (at level 10, x pattern, k at level 200) : parser_scope.
Notation "m ';;!' k" := (p_bind m (λ _, k)) (at level 199, right associativity) : parser_scope.

Definition is_token (kind : TokenKind) (value : string) (t : Token) : bool :=
  bool_decide (tok_kind t = kind) && bool_decide (tok_value t = value).

Definition matchKeyword (keyword : string) (ts : list Token) : bool := is_token tk_keyword keyword (peek ts).
Definition matchPunct (punct : string) (ts : list Token) : bool := is_token tk_punct punct (peek ts).
Definition matchOperator (op : string) (ts : list Token) : bool := is_token tk_operator op (peek ts).

Definition kind_text (k : TokenKind) : string :=
  match k with
  | tk_ident => "ident" | tk_int => "int" | tk_punct => "punct" | tk_keyword => "keyword" | tk_operator => "operator"
  | tk_eof => "eof"
  end.

Definition quoted (s : string) : string := String "034" (s +:+ String "034" EmptyString).

Definition describe (tok : Token) : string :=
  match tok_kind tok with tk_eof => "end-of-file" | k => kind_text k +:+ "(" +:+ quoted (tok_value tok) +:+ ")" end.

(** [throw new FormalSpecParseError(specPath, tok.line, tok.column, message)] *)
Definition fail_at {A} (tok : Token) (message : string) : parser A :=
  p_fail (parse_error (tok_line tok) (tok_column tok) message).

Definition consume_token : parser Token := λ ts, Some (Ok (peek ts, consume ts)).

(** [throw cursor.error(message)] *)
Definition fail_here {A} (message : string) : parser A := λ ts, fail_at (peek ts) message ts.

Definition expectKeyword (keyword : string) : parser Token := λ ts,
  if matchKeyword keyword ts then consume_token ts
  else fail_here ("expected keyword " +:+ keyword +:+ ", got " +:+ describe (peek ts)) ts.

Definition expectPunct (punct : string) : parser Token := λ ts,
  if matchPunct punct ts then consume_token ts
  else fail_here ("expected " +:+ quoted punct +:+ ", got " +:+ describe (peek ts)) ts.
