(* ===== verification/FvParser.v ===== *)
(** * Formal verification of rule packs: parser

    The recursive-descent parser of [packages/agentic-harness/src/formal-verification.ts],
    from tokens to the parsed specification. A parser that follows itself takes what
    it calls as an argument; loops over tokens run at most once per token. *)

From S2P Require Import Prelude JsString JsList CanonicalJson FvSyntax FvTokens.

#[local] Open Scope parser_scope.

(** ** Loops *)

(** [while (!cursor.matchPunct("}")) { … if (cursor.matchPunct(",")) cursor.consume(); else break; }]
    with the closing brace. *)
Fixpoint members_loop {A} (item : Token → option A) (message : string) (n : nat) : parser (list A) := λ ts,
  if matchPunct "}" ts then Some (Ok ([], ts)) else
  match n with
  | O => None
  | S n' =>
      match item (peek ts) with
      | None => fail_at (peek ts) (message +:+ describe (peek ts)) ts
      | Some v =>
          (let! _ := consume_token in
           λ ts', if matchPunct "," ts'
                  then (let! _ := consume_token in let! vs := members_loop item message n' in p_return (v :: vs)) ts'
                  else Some (Ok ([v], ts'))) ts
      end
  end.

Definition braced {A} (item : Token → option A) (message : string) : parser (list A) :=
  let! vs := (λ ts, members_loop item message (length ts) ts) in
  let! _ := expectPunct "}" in
  p_return vs.

(** A loop that folds to the left while an operator follows. *)
Fixpoint chain {A} (operator : Token → option (A → A → A)) (operand : parser A) (n : nat) (lhs : A) : parser A := λ ts,
  match operator (peek ts) with
  | None => Some (Ok (lhs, ts))
  | Some mk =>
      match n with
      | O => None
      | S n' =>
          (let! _ := consume_token in
           let! rhs := operand in
           chain operator operand n' (mk lhs rhs)) ts
      end
  end.

Definition left_assoc {A} (operator : Token → option (A → A → A)) (operand : parser A) : parser A :=
  let! lhs := operand in λ ts, chain operator operand (length ts) lhs ts.

(** An operand, and after [->] the same again. *)
Fixpoint right_assoc {A} (mk : A → A → A) (operand : parser A) (n : nat) : parser A :=
  let! lhs := operand in
  λ ts, if matchOperator "->" ts then
          match n with
          | O => None
          | S n' => (let! _ := consume_token in let! rhs := right_assoc mk operand n' in p_return (mk lhs rhs)) ts
          end
        else Some (Ok (lhs, ts)).

Definition on_punct {A} (punct : string) (mk : A) (t : Token) : option A :=
  if is_token tk_punct punct t then Some mk else None.
Definition on_operator {A} (op : string) (mk : A) (t : Token) : option A :=
  if is_token tk_operator op t then Some mk else None.

(** ** Expressions *)

(** A literal of a set. *)
Definition set_member (v : Token) : option value :=
  match tok_kind v with
  | tk_ident => Some (VStr (tok_value v))
  | tk_int => Some (VNum (int_value (tok_value v)))
  | tk_keyword =>
      if bool_decide (tok_value v = "TRUE") then Some (VBool true)
      else if bool_decide (tok_value v = "FALSE") then Some (VBool false) else None
  | _ => None
  end.

Definition REL_OPS : list (string * ExprBinOp) :=
  [("=", op_eq); ("!=", op_ne); ("<", op_lt); ("<=", op_le); (">", op_gt); (">=", op_ge)].

Definition relation_of (t : Token) : option ExprBinOp :=
  match tok_kind t with
  | tk_punct | tk_operator => snd <$> find_by fst (tok_value t) REL_OPS
  | _ => None
  end.

Definition additive_of (t : Token) : option (ExprAst → ExprAst → ExprAst) :=
  if is_token tk_punct "+" t then Some (e_binop op_add)
  else if is_token tk_punct "-" t then Some (e_binop op_sub) else None.

Section expressions.
Context (parseExpr : parser ExprAst).

(** The branches of a [case], up to [esac]. *)
Fixpoint cases_loop (n : nat) : parser (list (ExprAst * ExprAst)) := λ ts,
  if matchKeyword "esac" ts then Some (Ok ([], ts)) else
  match n with
  | O => None
  | S n' =>
      (let! guard := parseExpr in
       let! _ := expectPunct ":" in
       let! value := parseExpr in
       let! _ := expectPunct ";" in
       let! rest := cases_loop n' in
       p_return ((guard, value) :: rest)) ts
  end.

Definition parsePrimary : parser ExprAst := λ ts,
  let tok := peek ts in
  if is_token tk_keyword "TRUE" tok then (let! _ := consume_token in p_return (e_bool true)) ts
  else if is_token tk_keyword "FALSE" tok then (let! _ := consume_token in p_return (e_bool false)) ts
  else if is_token tk_keyword "case" tok then
    (let! _ := consume_token in
     let! cases := (λ ts', cases_loop (length ts') ts') in
     let! _ := expectKeyword "esac" in
     p_return (e_case cases)) ts
  else if is_token tk_punct "(" tok then
    (let! _ := consume_token in
     let! inner := parseExpr in
     let! _ := expectPunct ")" in
     p_return inner) ts
  else if is_token tk_punct "{" tok then
    (let! _ := consume_token in
     let! values := braced set_member "expected literal in set, got " in
     p_return (e_set values)) ts
  else match tok_kind tok with
  | tk_ident => (let! _ := consume_token in p_return (e_ident (tok_value tok))) ts
  | tk_int => (let! _ := consume_token in p_return (e_int (int_value (tok_value tok)))) ts
  | _ => fail_at tok ("unexpected token in expression: " +:+ describe tok) ts
  end.

Definition parseAdditive : parser ExprAst := left_assoc additive_of parsePrimary.

Definition parseRelation : parser ExprAst :=
  let! lhs := parseAdditive in
  λ ts,
    match relation_of (peek ts) with
    | Some op =>
        (let! _ := consume_token in
         let! rhs := parseAdditive in
         p_return (e_binop op lhs rhs)) ts
    | None =>
        if matchKeyword "in" ts then
          (let! _ := consume_token in
           let! _ := expectPunct "{" in
           let! values := braced set_member "expected set member, got " in
           p_return (e_binop op_in lhs (e_set values))) ts
        else Some (Ok (lhs, ts))
    end.

Fixpoint not_loop (n : nat) : parser ExprAst := λ ts,
  if matchPunct "!" ts then
    match n with
    | O => None
    | S n' => (let! _ := consume_token in let! operand := not_loop n' in p_return (e_not operand)) ts
    end
  else parseRelation ts.

Definition parseNot : parser ExprAst := λ ts, not_loop (length ts) ts.
Definition parseAnd : parser ExprAst := left_assoc (on_punct "&" (e_binop op_and)) parseNot.
Definition parseOr : parser ExprAst := left_assoc (on_punct "|" (e_binop op_or)) parseAnd.
Definition parseImplies : parser ExprAst := λ ts, right_assoc (e_binop op_implies) parseOr (length ts) ts.
Definition parseIff : parser ExprAst := left_assoc (on_operator "<->" (e_binop op_iff)) parseImplies.
End expressions.

Fixpoint parse_expr (fuel : nat) : parser ExprAst :=
  match fuel with O => p_stuck | S fuel' => parseIff (parse_expr fuel') end.

(** Every level of nesting takes a token. *)
Definition parseExpr : parser ExprAst := λ ts, parse_expr (S (length ts)) ts.

(** ** Temporal formulas *)

(** The prefix operators of a logic. *)
Definition prefix_of (logic : FormalVerificationLogic) (t : Token) : option (TemporalAst → TemporalAst) :=
  let operators :=
    match logic with
    | LTL => [("G", t_G); ("F", t_F); ("X", t_X)]
    | CTL => [("EX", t_EX); ("AX", t_AX); ("EF", t_EF); ("AF", t_AF); ("EG", t_EG); ("AG", t_AG)]
    end in
  if is_token tk_punct "!" t then Some t_not
  else match tok_kind t with tk_keyword => snd <$> find_by fst (tok_value t) operators | _ => None end.

(** [A] and [E] before a bracket. *)
Definition quantifier_of (logic : FormalVerificationLogic) (t : Token) :
    option (TemporalAst → TemporalAst → TemporalAst) :=
  match logic with
  | LTL => None
  | CTL =>
      if is_token tk_keyword "A" t then Some t_AU else if is_token tk_keyword "E" t then Some t_EU else None
  end.

Section temporal.
Context (logic : FormalVerificationLogic) (parseTemporal : parser TemporalAst).

Definition parseTemporalAtom : parser TemporalAst := λ ts,
  if matchPunct "(" ts then
    (let! _ := consume_token in
     let! inner := parseTemporal in
     let! _ := expectPunct ")" in
     p_return inner) ts
  else (let! expr := parseRelation parseExpr in p_return (t_atom expr)) ts.

Definition bracketed (quant : Token) (mk : TemporalAst → TemporalAst → TemporalAst) : parser TemporalAst :=
  let! _ := expectPunct "[" in
  let! lhs := parseTemporal in
  λ ts,
    if matchKeyword "U" ts then
      (let! _ := consume_token in
       let! rhs := parseTemporal in
       let! _ := expectPunct "]" in
       p_return (mk lhs rhs)) ts
    else fail_here ("expected 'U' inside " +:+ tok_value quant +:+ "[ ... U ... ]") ts.

Fixpoint unary_loop (n : nat) : parser TemporalAst := λ ts,
  match prefix_of logic (peek ts) with
  | Some mk =>
      match n with
      | O => None
      | S n' => (let! _ := consume_token in let! operand := unary_loop n' in p_return (mk operand)) ts
      end
  | None =>
      match quantifier_of logic (peek ts) with
      | Some mk => (let! quant := consume_token in bracketed quant mk) ts
      | None => parseTemporalAtom ts
      end
  end.

Definition parseTemporalUnary : parser TemporalAst := λ ts, unary_loop (length ts) ts.

Definition parseTemporalUntil : parser TemporalAst :=
  let! lhs := parseTemporalUnary in
  λ ts,
    match logic with
    | LTL =>
        if matchKeyword "U" ts then
          (let! _ := consume_token in
           let! rhs := parseTemporalUnary in
           p_return (t_U lhs rhs)) ts
        else Some (Ok (lhs, ts))
    | CTL => Some (Ok (lhs, ts))
    end.

Definition parseTemporalAnd : parser TemporalAst := left_assoc (on_punct "&" t_and) parseTemporalUntil.
Definition parseTemporalOr : parser TemporalAst := left_assoc (on_punct "|" t_or) parseTemporalAnd.
Definition parseTemporalImplies : parser TemporalAst := λ ts, right_assoc t_implies parseTemporalOr (length ts) ts.
Definition parseTemporalIff : parser TemporalAst := left_assoc (on_operator "<->" t_iff) parseTemporalImplies.
End temporal.

Fixpoint parse_temporal (logic : FormalVerificationLogic) (fuel : nat) : parser TemporalAst :=
  match fuel with O => p_stuck | S fuel' => parseTemporalIff logic (parse_temporal logic fuel') end.

Definition parseTemporal (logic : FormalVerificationLogic) : parser TemporalAst := λ ts,
  parse_temporal logic (S (length ts)) ts.

(** ** Sections *)

(** What the sections have declared so far. *)
Record declared := {
  d_variables : list SpecVariable;
  d_inits : list SpecAssignment;
  d_nexts : list SpecAssignment;
  d_formulae : list SpecFormula;
}.

Definition add_variable (v : SpecVariable) (d : declared) : declared :=
  {| d_variables := d_variables d ++ [v]; d_inits := d_inits d; d_nexts := d_nexts d; d_formulae := d_formulae d |}.
Definition add_init (a : SpecAssignment) (d : declared) : declared :=
  {| d_variables := d_variables d; d_inits := d_inits d ++ [a]; d_nexts := d_nexts d; d_formulae := d_formulae d |}.
Definition add_next (a : SpecAssignment) (d : declared) : declared :=
  {| d_variables := d_variables d; d_inits := d_inits d; d_nexts := d_nexts d ++ [a]; d_formulae := d_formulae d |}.
Definition add_formula (f : SpecFormula) (d : declared) : declared :=
  {| d_variables := d_variables d; d_inits := d_inits d; d_nexts := d_nexts d; d_formulae := d_formulae d ++ [f] |}.

Definition enum_value (tok : Token) : option string :=
  match tok_kind tok with
  | tk_ident | tk_int => Some (tok_value tok)
  | tk_keyword => if bool_decide (tok_value tok ∈ ["TRUE"; "FALSE"]) then Some (tok_value tok) else None
  | _ => None
  end.

Definition p_model_error {A} (message : string) : parser A := p_fail (model_error message).

(** The type of a variable, after the colon. *)
Definition parse_variable_type (name : string) : parser SpecVariable := λ ts,
  if matchPunct "{" ts then
    (let! _ := consume_token in
     let! values := braced enum_value "expected enum value, got " in
     let! _ := expectPunct ";" in
     if bool_decide (values = []) then p_model_error ("enum domain of " +:+ name +:+ " is empty")
     else p_return (v_enum name values)) ts
  else if bool_decide (tok_kind (peek ts) = tk_int) then
    (let! minTok := consume_token in
     let min := int_value (tok_value minTok) in
     λ ts,
       if negb (matchOperator ".." ts) then fail_here "expected '..' in range domain" ts
       else
         (let! _ := consume_token in
          λ ts,
            if negb (bool_decide (tok_kind (peek ts) = tk_int))
            then fail_here "expected upper bound integer in range domain" ts
            else
              (let! maxTok := consume_token in
               let max := int_value (tok_value maxTok) in
               let range := pretty min +:+ ".." +:+ pretty max in
               let! _ := expectPunct ";" in
               if max <? min then p_model_error ("range domain of " +:+ name +:+ " is empty (" +:+ range +:+ ")")
               else if 256 <? max - min then p_model_error ("range domain of " +:+ name +:+ " too wide: " +:+ range)
               else p_return (v_range name min max)) ts) ts) ts
  else if matchKeyword "boolean" ts then
    (let! _ := consume_token in
     let! _ := expectPunct ";" in
     p_return (v_enum name ["FALSE"; "TRUE"])) ts
  else fail_here ("unsupported variable type for " +:+ name) ts.

Fixpoint parseVarSection (n : nat) (out : declared) : parser declared := λ ts,
  if bool_decide (tok_kind (peek ts) = tk_ident) || matchKeyword "main" ts then
    match n with
    | O => None
    | S n' =>
        (let! nameTok := consume_token in
         let! _ := expectPunct ":" in
         let! v := parse_variable_type (tok_value nameTok) in
         parseVarSection n' (add_variable v out)) ts
    end
  else Some (Ok (out, ts)).

Fixpoint parseAssignSection (n : nat) (out : declared) : parser declared := λ ts,
  if matchKeyword "init" ts || matchKeyword "next" ts then
    match n with
    | O => None
    | S n' =>
        (let! which := consume_token in
         let! _ := expectPunct "(" in
         let! nameTok := consume_token in
         if negb (bool_decide (tok_kind nameTok = tk_ident)) then fail_at nameTok "expected variable name in init/next"
         else
           let! _ := expectPunct ")" in
           λ ts,
             if negb (matchOperator ":=" ts) then fail_here "expected ':=' after init/next(...)" ts
             else
               (let! _ := consume_token in
                let! expr := parseExpr in
                let! _ := expectPunct ";" in
                let rule := {| as_variable := tok_value nameTok; as_expr := expr |} in
                parseAssignSection n' (if bool_decide (tok_value which = "init") then add_init rule out else add_next rule out)) ts) ts
    end
  else Some (Ok (out, ts)).

Definition parse_formula (logic : FormalVerificationLogic) (out : declared) : parser declared :=
  let! _ := consume_token in
  let! ast := parseTemporal logic in
  p_return (add_formula {| sf_logic := logic; sf_source := stringifyTemporal ast; sf_ast := ast |} out).

(** The loop over the sections, up to the end of the tokens. *)
Fixpoint sections_loop (n : nat) (out : declared) : parser declared := λ ts,
  if bool_decide (tok_kind (peek ts) = tk_eof) then Some (Ok (out, ts)) else
  match n with
  | O => None
  | S n' =>
      if matchKeyword "VAR" ts then
        (let! _ := consume_token in
         let! out' := (λ ts', parseVarSection (length ts') out ts') in
         sections_loop n' out') ts
      else if matchKeyword "ASSIGN" ts then
        (let! _ := consume_token in
         let! out' := (λ ts', parseAssignSection (length ts') out ts') in
         sections_loop n' out') ts
      else if matchKeyword "LTLSPEC" ts then (let! out' := parse_formula LTL out in sections_loop n' out') ts
      else if matchKeyword "CTLSPEC" ts then (let! out' := parse_formula CTL out in sections_loop n' out') ts
      else if matchKeyword "DEFINE" ts then
        fail_here "DEFINE sections are not supported; inline the predicate in the formula" ts
      else fail_at (peek ts) ("unexpected token at top level: " +:+ describe (peek ts)) ts
  end.

Definition nothing_declared : declared := {| d_variables := []; d_inits := []; d_nexts := []; d_formulae := [] |}.

Definition parse_tokens : parser ParsedSpec :=
  let! _ := expectKeyword "MODULE" in
  let! moduleNameTok := consume_token in
  if negb (bool_decide (tok_kind moduleNameTok ∈ [tk_keyword; tk_ident]))
  then fail_at moduleNameTok "expected module name after MODULE"
  else
    let! d := (λ ts, sections_loop (length ts) nothing_declared ts) in
    if bool_decide (d_variables d = []) then p_model_error "spec declares no variables"
    else if bool_decide (d_inits d = []) then p_model_error "spec declares no init() rules"
    else match d_formulae d with
    | [] => p_model_error "spec declares no LTLSPEC / CTLSPEC formulae"
    | _ =>
        p_return {| ps_module := tok_value moduleNameTok; ps_variables := d_variables d; ps_inits := d_inits d;
                    ps_nexts := d_nexts d; ps_formulae := d_formulae d |}
    end.

(** [None]: out of fuel. *)
Definition parseSpec (source : string) : option (outcome SpecError ParsedSpec) :=
  if FORMAL_VERIFICATION_MAX_SPEC_BYTES <? utf8_length source
  then Some (Throw (parse_error 1 1 ("spec exceeds max size " +:+ pretty FORMAL_VERIFICATION_MAX_SPEC_BYTES +:+ " bytes")))
  else
    tokens ← tokenize source;
    match tokens with
    | Throw e => Some (Throw e)
    | Ok ts => parsed ← parse_tokens ts; Some (outcome_map fst parsed)
    end.
