(* ===== verification/FvParserProof.v ===== *)
(** * Formal verification of rule packs: the parser returns

    On the tokens of any source the parser ends with a specification or an error;
    what it declares has the names and the operators its client relies on. *)

From Stdlib Require Import Ascii.
From S2P Require Import Prelude JsString JsList NodePath CanonicalJson FvSyntax FvModel CtlChecker LtlTranslation KripkeProof.
From S2P Require Import FvTokens FvParser.

#[local] Open Scope parser_scope.
#[local] Abbreviation bar := "|"%char.

(** ** Token streams *)

Definition proper_token (t : Token) : Prop :=
  match tok_kind t with
  | tk_eof => False
  | tk_punct | tk_operator => True
  | tk_int => has_char bar (tok_value t) = false ∧ is_exact (int_value (tok_value t)) = true
  | _ => has_char bar (tok_value t) = false
  end.

(** Tokens that end with the end of the file. *)
Inductive stream : list Token → Prop :=
| stream_end e : tok_kind e = tk_eof → stream [e]
| stream_cons t ts : proper_token t → stream ts → stream (t :: ts).

Lemma consume_stream ts :
  stream ts → tok_kind (peek ts) ≠ tk_eof →
  proper_token (peek ts) ∧ stream (consume ts) ∧ S (length (consume ts)) = length ts.
Proof.
  intros [e He|t r Ht Hr] Hk; [done|]. cbn in *. destruct r as [|x r]; [inversion Hr|]. by split_all.
Qed.

Lemma span_all test s p : all_chars test (span test s p).1.1 = true.
Proof.
  revert p; induction s as [|c s IH]; intros p; cbn; [done|]. destruct (test c) eqn:E; [|done].
  specialize (IH (advance c p)). destruct (span test s (advance c p)) as [[w rest] p'] eqn:Es. cbn in *. by rewrite E.
Qed.

Lemma span_length test s p : (String.length (span test s p).1.2 ≤ String.length s)%nat.
Proof.
  revert p; induction s as [|c s IH]; intros p; cbn; [done|]. destruct (test c); [|done].
  specialize (IH (advance c p)). destruct (span test s (advance c p)) as [[w rest] p']. cbn in *. lia.
Qed.

(** What a text starts with is taken. *)
Lemma span_shorter test c s p : test c = true → (String.length (span test (String c s) p).1.2 < String.length (String c s))%nat.
Proof.
  intros Hc. cbn. rewrite Hc. pose proof (span_length test s (advance c p)) as Hl.
  destruct (span test s (advance c p)) as [[w rest] p']. cbn in *. lia.
Qed.

Lemma strip_operator_shorter ops s op rest :
  Forall (λ op, op ≠ "") ops → strip_operator ops s = Some (op, rest) → (String.length rest < String.length s)%nat.
Proof.
  induction 1 as [|o ops Ho _ IH]; cbn; [done|]. destruct (strip_prefix o s) eqn:E; [|by apply IH].
  intros [= -> ->]. apply strip_prefix_Some in E as ->. destruct op as [|c op]; [done|].
  change (String.length (String c op +:+ rest)) with (S (String.length (op +:+ rest))).
  assert (∀ a b : string, String.length b ≤ String.length (a +:+ b))%nat as Hlen; [|specialize (Hlen op rest); lia].
  induction a as [|x a IHa]; intros b; [done|]. specialize (IHa b).
  change (String.length (String x a +:+ b)) with (S (String.length (a +:+ b))). lia.
Qed.

Definition tokens_returned (m : option (outcome SpecError (list Token))) : Prop :=
  ∃ out, m = Some out ∧ ∀ ts, out = Ok ts → stream ts.

Lemma cons_token_returned t m : proper_token t → tokens_returned m → tokens_returned (cons_token t m).
Proof.
  intros Ht (out & -> & Hs). destruct out as [ts|e]; cbn; eexists; (split; [done|]); [|done].
  intros ? [= <-]. constructor; [done|by apply Hs].
Qed.

Lemma word_token_proper word p : has_char bar word = false → proper_token (word_token word p).
Proof. intros Hw. unfold word_token, proper_token, token_at. cbn. by case_bool_decide. Qed.

Lemma tokenize_from_returned fuel s p : (String.length s < fuel)%nat → tokens_returned (tokenize_from fuel s p).
Proof.
  revert s p; induction fuel as [|fuel IH]; intros s p Hf; [lia|]. cbn [tokenize_from].
  destruct s as [|ch r]; [eexists; split; [done|]; intros ? [= <-]; by constructor|].
  assert (∀ r' p', (String.length r' < String.length (String ch r))%nat → tokens_returned (tokenize_from fuel r' p')) as Hrec.
  { intros r' p' Hr. apply IH. lia. }
  destruct (is_blank_char ch); [apply Hrec; cbn; lia|].
  destruct (starts_with "--" (String ch r)) eqn:Ed.
  { unfold starts_with in Ed. apply bool_decide_eq_true in Ed as [r' Er%strip_prefix_Some].
    assert (ch = "-"%char) as -> by by injection Er.
    pose proof (span_shorter (λ c, negb (bool_decide (c = NEWLINE))) "-" r p eq_refl) as Hl.
    destruct (span _ (String "-" r) p) as [[w rest] p']. by apply Hrec. }
  destruct (is_word_start ch) eqn:Ew.
  { assert (is_word_char ch = true) as Hc by (unfold is_word_char; by rewrite Ew).
    pose proof (span_shorter is_word_char ch r p Hc) as Hl. pose proof (span_all is_word_char (String ch r) p) as Ha.
    destruct (span is_word_char (String ch r) p) as [[w rest] p']. apply cons_token_returned; [|by apply Hrec].
    apply word_token_proper. by eapply all_chars_has_char. }
  destruct (is_decimal_digit ch) eqn:En.
  { pose proof (span_shorter is_decimal_digit ch r p En) as Hl. pose proof (span_all is_decimal_digit (String ch r) p) as Ha.
    destruct (span is_decimal_digit (String ch r) p) as [[w rest] p']. destruct (is_exact (int_value w)) eqn:Ee; [|by eexists].
    apply cons_token_returned; [|by apply Hrec]. split; [by eapply all_chars_has_char|done]. }
  destruct (strip_operator OPERATORS (String ch r)) as [[op rest]|] eqn:Eo.
  { apply cons_token_returned; [done|]. apply Hrec. eapply strip_operator_shorter; [|exact Eo].
    unfold OPERATORS. cbn. by repeat constructor. }
  case_bool_decide; [|by eexists]. apply cons_token_returned; [done|]. apply Hrec. cbn. lia.
Qed.

Lemma tokenize_returned source : tokens_returned (tokenize source).
Proof. apply tokenize_from_returned. lia. Qed.

(** ** What a parser does on a stream *)

(** The parser returns; a result satisfies [Q] and at least [k] tokens were taken. *)
Definition runs {A} (p : parser A) (ts : list Token) (k : nat) (Q : A → Prop) : Prop :=
  ∃ r, p ts = Some r ∧ ∀ a ts', r = Ok (a, ts') → Q a ∧ stream ts' ∧ (length ts' + k ≤ length ts)%nat.

Lemma runs_bind {A B} (p : parser A) (f : A → parser B) ts k k1 Q1 Q2 :
  runs p ts k1 Q1 →
  (∀ a ts', Q1 a → stream ts' → (length ts' + k1 ≤ length ts)%nat → runs (f a) ts' (k - k1) Q2) →
  runs (p_bind p f) ts k Q2.
Proof.
  intros (r & Hr & Hp) Hf. unfold runs, p_bind. rewrite Hr. destruct r as [[a ts']|e]; [|by eexists].
  destruct (Hp a ts' eq_refl) as (Ha & Hs & Hl). destruct (Hf a ts' Ha Hs Hl) as (r' & -> & Hr').
  eexists. split; [done|]. intros b ts'' E. destruct (Hr' b ts'' E) as (Hb & Hs' & Hl'). split_all; [done|done|lia].
Qed.

Lemma runs_weaken {A} (p : parser A) ts k k' (Q Q' : A → Prop) :
  runs p ts k Q → (k' ≤ k)%nat → (∀ a, Q a → Q' a) → runs p ts k' Q'.
Proof.
  intros (r & Hr & Hp) Hk HQ. exists r. split; [done|]. intros a ts' E.
  destruct (Hp a ts' E) as (Ha & Hs & Hl). split_all; [by apply HQ|done|lia].
Qed.

Lemma runs_return {A} (a : A) ts (Q : A → Prop) : stream ts → Q a → runs (p_return a) ts 0 Q.
Proof. intros Hs Ha. eexists. split; [done|]. intros ? ? [= <- <-]. split_all; [done|done|lia]. Qed.

Lemma runs_fail {A} e ts k (Q : A → Prop) : runs (p_fail e) ts k Q.
Proof. by eexists. Qed.

Lemma runs_fail_at {A} tok message ts k (Q : A → Prop) : runs (fail_at tok message) ts k Q.
Proof. by eexists. Qed.

Lemma runs_fail_here {A} message ts k (Q : A → Prop) : runs (fail_here message) ts k Q.
Proof. by eexists. Qed.

Lemma runs_consume ts (Q : Token → Prop) :
  stream ts → tok_kind (peek ts) ≠ tk_eof → (proper_token (peek ts) → Q (peek ts)) → runs consume_token ts 1 Q.
Proof.
  intros Hs Hk HQ. destruct (consume_stream ts Hs Hk) as (Hp & Hs' & Hl).
  eexists. split; [done|]. intros ? ? [= <- <-]. split_all; [by apply HQ|done|lia].
Qed.

(** A token that may be the end of the file is only looked at. *)
Lemma runs_consume_any ts : stream ts → runs consume_token ts 0 (λ t, t = peek ts ∧ (tok_kind t = tk_eof ∨ proper_token t)).
Proof.
  intros Hs. destruct (decide (tok_kind (peek ts) = tk_eof)) as [He|He].
  - eexists. split; [done|]. intros ? ? [= <- <-]. destruct Hs as [e Hk|t r Ht Hr]; cbn in *.
    + split_all; [done|by left|by constructor|lia].
    + unfold proper_token in Ht. by rewrite He in Ht.
  - destruct (consume_stream ts Hs He) as (Hp & Hs' & Hl). eexists. split; [done|]. intros ? ? [= <- <-].
    split_all; [done|by right|done|lia].
Qed.

Lemma is_token_spec kind value t : is_token kind value t = true ↔ tok_kind t = kind ∧ tok_value t = value.
Proof. unfold is_token. by rewrite andb_true_iff, !bool_decide_eq_true. Qed.

Lemma is_token_kind kind value t : is_token kind value t = true → kind ≠ tk_eof → tok_kind t ≠ tk_eof.
Proof. by intros [-> _]%is_token_spec. Qed.

Lemma runs_expectPunct punct ts : stream ts → runs (expectPunct punct) ts 1 (λ _, True).
Proof.
  intros Hs. unfold expectPunct, runs. destruct (matchPunct punct ts) eqn:E; [|by eexists].
  apply runs_consume; [done| |done]. by apply (is_token_kind _ _ _ E).
Qed.

Lemma runs_expectKeyword keyword ts : stream ts → runs (expectKeyword keyword) ts 1 (λ _, True).
Proof.
  intros Hs. unfold expectKeyword, runs. destruct (matchKeyword keyword ts) eqn:E; [|by eexists].
  apply runs_consume; [done| |done]. by apply (is_token_kind _ _ _ E).
Qed.

(** Parsers that return on every stream of fewer than [n] tokens, and take one. *)
Definition good {A} (p : parser A) (n : nat) (Q : A → Prop) : Prop :=
  ∀ ts, stream ts → (length ts < n)%nat → runs p ts 1 Q.

Lemma runs_members {A} (item : Token → option A) message (P : A → Prop) n ts :
  (∀ t v, item t = Some v → tok_kind t ≠ tk_eof ∧ (proper_token t → P v)) →
  stream ts → (length ts ≤ n)%nat → runs (members_loop item message n) ts 0 (Forall P).
Proof.
  intros Hitem. revert ts; induction n as [|n IH]; intros ts Hs Hn; [destruct Hs; cbn in Hn; lia|].
  unfold runs. cbn [members_loop]. destruct (matchPunct "}" ts).
  { apply (runs_return (A := list A) [] ts (Forall P)); [done|constructor]. }
  destruct (item (peek ts)) as [v|] eqn:E; [|by eexists].
  destruct (Hitem _ _ E) as [Hk HP]. eapply (runs_bind consume_token); [apply (runs_consume ts (λ _, P v)); auto|].
  intros ? ts' Hv Hs' Hl. unfold runs. destruct (matchPunct "," ts') eqn:Ec.
  - eapply (runs_bind consume_token); [apply (runs_consume ts' (λ _, True)); [done|by apply (is_token_kind _ _ _ Ec)|done]|].
    intros ? ts2 _ Hs2 Hl2. eapply runs_bind; [apply IH; [done|lia]|].
    intros vs ts3 Hvs Hs3 _. apply runs_return; [done|by constructor].
  - apply (runs_return [v] ts' (Forall P)); [done|by repeat constructor].
Qed.

Lemma runs_braced {A} (item : Token → option A) message (P : A → Prop) ts :
  (∀ t v, item t = Some v → tok_kind t ≠ tk_eof ∧ (proper_token t → P v)) →
  stream ts → runs (braced item message) ts 1 (Forall P).
Proof.
  intros Hitem Hs. eapply (runs_bind (λ ts, members_loop item message (length ts) ts) _ ts 1 0 (Forall P)).
  { by apply runs_members. }
  intros vs ts' Hvs Hs' _. eapply runs_bind; [by apply runs_expectPunct|]. intros ? ts2 _ Hs2 _. by apply runs_return.
Qed.

Lemma runs_chain {A} (operator : Token → option (A → A → A)) (operand : parser A) Q N n lhs ts :
  (∀ t mk, operator t = Some mk → tok_kind t ≠ tk_eof ∧ ∀ a b, Q a → Q b → Q (mk a b)) →
  good operand N Q → Q lhs → stream ts → (length ts ≤ n)%nat → (length ts ≤ N)%nat →
  runs (chain operator operand n lhs) ts 0 Q.
Proof.
  intros Hop Hg. revert lhs ts; induction n as [|n IH]; intros lhs ts Hlhs Hs Hn HN; [destruct Hs; cbn in Hn; lia|].
  unfold runs. cbn [chain]. destruct (operator (peek ts)) as [mk|] eqn:E; [|by apply (runs_return lhs ts Q)].
  destruct (Hop _ _ E) as [Hk Hmk]. eapply (runs_bind consume_token); [by apply (runs_consume ts (λ _, True))|].
  intros ? ts' _ Hs' Hl. eapply runs_bind; [apply Hg; [done|lia]|]. intros rhs ts2 Hr Hs2 Hl2.
  apply (IH (mk lhs rhs)); [by apply Hmk|done|lia|lia].
Qed.

Lemma good_left_assoc {A} (operator : Token → option (A → A → A)) (operand : parser A) Q N :
  (∀ t mk, operator t = Some mk → tok_kind t ≠ tk_eof ∧ ∀ a b, Q a → Q b → Q (mk a b)) →
  good operand N Q → good (left_assoc operator operand) N Q.
Proof.
  intros Hop Hg ts Hs Hl. eapply runs_bind; [by apply Hg|]. intros lhs ts' Hlhs Hs' Hl'.
  eapply runs_chain; try done. lia.
Qed.

Lemma runs_right_assoc {A} (mk : A → A → A) (operand : parser A) Q N n ts :
  (∀ a b, Q a → Q b → Q (mk a b)) → good operand N Q → stream ts → (length ts ≤ n)%nat → (length ts < N)%nat →
  runs (right_assoc mk operand n) ts 1 Q.
Proof.
  intros Hmk Hg. revert ts; induction n as [|n IH]; intros ts Hs Hn HN; [destruct Hs; cbn in Hn; lia|].
  cbn [right_assoc]. eapply runs_bind; [by apply Hg|]. intros lhs ts' Hlhs Hs' Hl. unfold runs.
  destruct (matchOperator "->" ts') eqn:E; [|by apply (runs_return lhs ts' Q)].
  eapply (runs_bind consume_token);
    [apply (runs_consume ts' (λ _, True)); [done|by apply (is_token_kind _ _ _ E)|done]|].
  intros ? ts2 _ Hs2 Hl2. eapply runs_bind; [apply IH; [done|lia|lia]|]. intros rhs ts3 Hr Hs3 _.
  apply runs_return; [done|by apply Hmk].
Qed.

Lemma good_right_assoc {A} (mk : A → A → A) (operand : parser A) Q N :
  (∀ a b, Q a → Q b → Q (mk a b)) → good operand N Q → good (λ ts, right_assoc mk operand (length ts) ts) N Q.
Proof. intros Hmk Hg ts Hs Hl. by apply (runs_right_assoc mk operand Q N (length ts) ts). Qed.

(** ** Expressions *)

Lemma set_member_kind t v : set_member t = Some v → tok_kind t ≠ tk_eof ∧ (proper_token t → True).
Proof. unfold set_member. by destruct (tok_kind t). Qed.

Lemma relation_of_kind t op : relation_of t = Some op → tok_kind t ≠ tk_eof.
Proof. unfold relation_of. by destruct (tok_kind t). Qed.

Lemma additive_of_kind t mk :
  additive_of t = Some mk → tok_kind t ≠ tk_eof ∧ ∀ a b : ExprAst, True → True → True.
Proof.
  unfold additive_of. destruct (is_token tk_punct "+" t) eqn:E; [intros _; split; [by apply (is_token_kind _ _ _ E)|done]|].
  destruct (is_token tk_punct "-" t) eqn:E'; [|done]. intros _. split; [by apply (is_token_kind _ _ _ E')|done].
Qed.

Lemma on_punct_kind {A} punct (mk : A → A → A) (Q : A → Prop) t mk' :
  (∀ a b, Q a → Q b → Q (mk a b)) → on_punct punct mk t = Some mk' →
  tok_kind t ≠ tk_eof ∧ ∀ a b, Q a → Q b → Q (mk' a b).
Proof.
  unfold on_punct. intros HQ. destruct (is_token tk_punct punct t) eqn:E; [|done]. intros [= <-].
  split; [by apply (is_token_kind _ _ _ E)|done].
Qed.

Lemma on_operator_kind {A} op (mk : A → A → A) (Q : A → Prop) t mk' :
  (∀ a b, Q a → Q b → Q (mk a b)) → on_operator op mk t = Some mk' →
  tok_kind t ≠ tk_eof ∧ ∀ a b, Q a → Q b → Q (mk' a b).
Proof.
  unfold on_operator. intros HQ. destruct (is_token tk_operator op t) eqn:E; [|done]. intros [= <-].
  split; [by apply (is_token_kind _ _ _ E)|done].
Qed.

#[local] Abbreviation any := (λ _, True).

(** Taking a token of a known kind, and going on. *)
Lemma runs_after {A} kind value (f : Token → parser A) ts k Q :
  stream ts → is_token kind value (peek ts) = true → kind ≠ tk_eof →
  (∀ ts', stream ts' → S (length ts') = length ts → runs (f (peek ts)) ts' (k - 1) Q) →
  runs (p_bind consume_token f) ts k Q.
Proof.
  intros Hs E Hk Hf. destruct (consume_stream ts Hs (is_token_kind _ _ _ E Hk)) as (Hp & Hs' & Hl).
  destruct (Hf _ Hs' Hl) as (r & Hr & HQ). unfold runs, p_bind, consume_token. rewrite Hr.
  eexists. split; [done|]. intros a ts2 Ea. destruct (HQ a ts2 Ea) as (Ha & Hs2 & Hl2). split_all; [done|done|lia].
Qed.

(** A token that is then expected before a result. *)
Lemma runs_expect_return {A} punct (a : A) ts k (Q : A → Prop) :
  stream ts → Q a → (k ≤ 1)%nat → runs (p_bind (expectPunct punct) (λ _, p_return a)) ts k Q.
Proof.
  intros Hs Ha Hk. eapply runs_bind; [by apply runs_expectPunct|]. intros ? ts' _ Hs' _.
  apply (runs_weaken _ _ 0 _ Q); [by apply runs_return|lia|done].
Qed.

Section levels.
Context (parseExpr : parser ExprAst) (N : nat) (Hexpr : good parseExpr N any).

Lemma runs_cases n ts :
  stream ts → (length ts ≤ n)%nat → (length ts < N)%nat → runs (cases_loop parseExpr n) ts 0 any.
Proof.
  revert ts; induction n as [|n IH]; intros ts Hs Hn HN; [destruct Hs; cbn in Hn; lia|].
  unfold runs. cbn [cases_loop]. destruct (matchKeyword "esac" ts); [by apply (runs_return [] ts any)|].
  eapply (runs_bind parseExpr); [by apply Hexpr|]. intros guard ts1 _ Hs1 Hl1.
  eapply runs_bind; [by apply runs_expectPunct|]. intros ? ts2 _ Hs2 Hl2.
  eapply runs_bind; [apply Hexpr; [done|lia]|]. intros v ts3 _ Hs3 Hl3.
  eapply runs_bind; [by apply runs_expectPunct|]. intros ? ts4 _ Hs4 Hl4.
  eapply runs_bind; [apply IH; [done|lia|lia]|]. intros rest ts5 _ Hs5 _. by apply runs_return.
Qed.

Lemma good_primary : good (parsePrimary parseExpr) (S N) any.
Proof.
  intros ts Hs Hl. unfold runs, parsePrimary. cbv zeta.
  destruct (is_token tk_keyword "TRUE" (peek ts)) eqn:E1.
  { eapply (runs_after _ _ _ _ _ _ Hs E1); [done|]. intros ts' Hs' _. by apply runs_return. }
  destruct (is_token tk_keyword "FALSE" (peek ts)) eqn:E2.
  { eapply (runs_after _ _ _ _ _ _ Hs E2); [done|]. intros ts' Hs' _. by apply runs_return. }
  destruct (is_token tk_keyword "case" (peek ts)) eqn:E3.
  { eapply (runs_after _ _ _ _ _ _ Hs E3); [done|]. intros ts' Hs' Hl'.
    eapply (runs_bind (λ ts', cases_loop parseExpr (length ts') ts') _ ts' _ 0 any); [by apply runs_cases; [|lia|lia]|].
    intros cases ts2 _ Hs2 _. eapply runs_bind; [by apply runs_expectKeyword|]. intros ? ts3 _ Hs3 _. by apply runs_return. }
  destruct (is_token tk_punct "(" (peek ts)) eqn:E4.
  { eapply (runs_after _ _ _ _ _ _ Hs E4); [done|]. intros ts' Hs' Hl'.
    eapply runs_bind; [apply Hexpr; [done|lia]|]. intros inner ts2 _ Hs2 _. apply runs_expect_return; [done|done|lia]. }
  destruct (is_token tk_punct "{" (peek ts)) eqn:E5.
  { eapply (runs_after _ _ _ _ _ _ Hs E5); [done|]. intros ts' Hs' Hl'.
    eapply runs_bind; [apply (runs_braced _ _ any); [apply set_member_kind|done]|].
    intros values ts2 _ Hs2 _. by apply runs_return. }
  destruct (tok_kind (peek ts)) eqn:Ek; try (by eexists).
  - eapply (runs_bind consume_token); [by apply (runs_consume ts any); [|rewrite Ek|]|]. intros ? ts' _ Hs' _. by apply runs_return.
  - eapply (runs_bind consume_token); [by apply (runs_consume ts any); [|rewrite Ek|]|]. intros ? ts' _ Hs' _. by apply runs_return.
Qed.

Lemma good_additive : good (parseAdditive parseExpr) (S N) any.
Proof. apply good_left_assoc; [apply additive_of_kind|apply good_primary]. Qed.

Lemma good_relation : good (parseRelation parseExpr) (S N) any.
Proof.
  intros ts Hs Hl. eapply runs_bind; [by apply good_additive|]. intros lhs ts' _ Hs' Hl'. unfold runs.
  destruct (relation_of (peek ts')) as [op|] eqn:Eo.
  - eapply (runs_bind consume_token); [apply (runs_consume ts' any); [done|by eapply relation_of_kind|done]|].
    intros ? ts2 _ Hs2 Hl2. eapply runs_bind; [apply good_additive; [done|lia]|]. intros rhs ts3 _ Hs3 _. by apply runs_return.
  - destruct (matchKeyword "in" ts') eqn:E; [|by apply (runs_return lhs ts' any)].
    eapply (runs_after _ _ _ _ _ _ Hs' E); [done|]. intros ts2 Hs2 _.
    eapply runs_bind; [by apply runs_expectPunct|]. intros ? ts3 _ Hs3 _.
    eapply runs_bind; [apply (runs_braced _ _ any); [apply set_member_kind|done]|].
    intros values ts4 _ Hs4 _. by apply runs_return.
Qed.

Lemma good_not : good (parseNot parseExpr) (S N) any.
Proof.
  assert (∀ n ts, stream ts → (length ts ≤ n)%nat → (length ts < S N)%nat → runs (not_loop parseExpr n) ts 1 any) as Hn.
  { induction n as [|n IH]; intros ts Hs Hn HN; [destruct Hs; cbn in Hn; lia|]. unfold runs. cbn [not_loop].
    destruct (matchPunct "!" ts) eqn:E; [|by apply good_relation].
    eapply (runs_after _ _ _ _ _ _ Hs E); [done|]. intros ts' Hs' Hl'.
    eapply runs_bind; [apply IH; [done|lia|lia]|]. intros x ts2 _ Hs2 _. by apply runs_return. }
  intros ts Hs Hl. by apply Hn.
Qed.

Lemma good_iff : good (parseIff parseExpr) (S N) any.
Proof.
  apply good_left_assoc; [intros t mk; by apply on_operator_kind|].
  apply (good_right_assoc (e_binop op_implies)); [done|].
  apply good_left_assoc; [intros t mk; by apply on_punct_kind|].
  apply good_left_assoc; [intros t mk; by apply on_punct_kind|]. apply good_not.
Qed.
End levels.

Lemma good_parse_expr fuel : good (parse_expr fuel) fuel any.
Proof. induction fuel as [|fuel IH]; [intros ts _ Hl; lia|]. by apply good_iff. Qed.

Lemma good_parseExpr N : good parseExpr N any.
Proof. intros ts Hs _. unfold runs, parseExpr. apply good_parse_expr; [done|lia]. Qed.

(** ** Temporal formulas *)

Section temporal_levels.
Context (logic : FormalVerificationLogic) (parseTemporal : parser TemporalAst) (N : nat).

(** The formulas have the operators of their logic. *)
#[local] Abbreviation Q := (λ φ, of_logic logic φ = true).

Context (Htemporal : good parseTemporal N Q).

Lemma prefix_of_spec t mk :
  prefix_of logic t = Some mk → tok_kind t ≠ tk_eof ∧ ∀ a, Q a → Q (mk a).
Proof.
  unfold prefix_of. destruct (is_token tk_punct "!" t) eqn:E.
  { intros [= <-]. split; [by apply (is_token_kind _ _ _ E)|by destruct logic]. }
  destruct (tok_kind t); try done. intros Hf. split; [done|]. destruct logic; cbn in Hf |- *;
    repeat (rewrite find_by_cons in Hf; case_bool_decide; [by injection Hf as <-|]); done.
Qed.

Lemma quantifier_of_spec t mk :
  quantifier_of logic t = Some mk → tok_kind t ≠ tk_eof ∧ ∀ a b, Q a → Q b → Q (mk a b).
Proof.
  unfold quantifier_of. destruct logic; [done|]. cbn.
  destruct (is_token tk_keyword "A" t) eqn:E.
  { intros [= <-]. split; [by apply (is_token_kind _ _ _ E)|]. cbn. intros a b -> ->. done. }
  destruct (is_token tk_keyword "E" t) eqn:E'; [|done].
  intros [= <-]. split; [by apply (is_token_kind _ _ _ E')|]. cbn. intros a b -> ->. done.
Qed.

Lemma good_atom : good (parseTemporalAtom parseTemporal) (S N) Q.
Proof.
  intros ts Hs Hl. unfold runs, parseTemporalAtom. destruct (matchPunct "(" ts) eqn:E.
  - eapply (runs_after _ _ _ _ _ _ Hs E); [done|]. intros ts' Hs' Hl'.
    eapply runs_bind; [apply Htemporal; [done|lia]|]. intros inner ts2 Hi Hs2 _. apply runs_expect_return; [done|done|lia].
  - eapply (runs_bind (parseRelation parseExpr)).
    { apply (good_relation parseExpr (length ts) (good_parseExpr _)); [done|lia]. }
    intros e ts' _ Hs' _. apply runs_return; [done|by destruct logic].
Qed.

Lemma runs_bracketed quant mk ts :
  (∀ a b, Q a → Q b → Q (mk a b)) → stream ts → (length ts < N)%nat → runs (bracketed parseTemporal quant mk) ts 1 Q.
Proof.
  intros Hmk Hs Hl. eapply runs_bind; [by apply runs_expectPunct|]. intros ? ts1 _ Hs1 Hl1.
  eapply runs_bind; [apply Htemporal; [done|lia]|]. intros lhs ts2 Ha Hs2 Hl2. unfold runs.
  destruct (matchKeyword "U" ts2) eqn:E; [|by eexists].
  eapply (runs_after _ _ _ _ _ _ Hs2 E); [done|]. intros ts3 Hs3 Hl3.
  eapply runs_bind; [apply Htemporal; [done|lia]|]. intros rhs ts4 Hb Hs4 Hl4.
  apply runs_expect_return; [done|by apply Hmk|lia].
Qed.

Lemma good_unary : good (parseTemporalUnary logic parseTemporal) (S N) Q.
Proof.
  assert (∀ n ts, stream ts → (length ts ≤ n)%nat → (length ts < S N)%nat → runs (unary_loop logic parseTemporal n) ts 1 Q) as Hn.
  { induction n as [|n IH]; intros ts Hs Hn HN; [destruct Hs; cbn in Hn; lia|]. unfold runs. cbn [unary_loop].
    destruct (prefix_of logic (peek ts)) as [mk|] eqn:E.
    { destruct (prefix_of_spec _ _ E) as [Hk Hmk].
      eapply (runs_bind consume_token); [by apply (runs_consume ts any)|]. intros ? ts' _ Hs' Hl'.
      eapply runs_bind; [apply IH; [done|lia|lia]|]. intros x ts2 Hx Hs2 _. apply runs_return; [done|by apply Hmk]. }
    destruct (quantifier_of logic (peek ts)) as [mk|] eqn:E'; [|by apply good_atom].
    destruct (quantifier_of_spec _ _ E') as [Hk Hmk].
    eapply (runs_bind consume_token); [by apply (runs_consume ts any)|]. intros quant ts' _ Hs' Hl'.
    eapply runs_weaken; [apply runs_bracketed; [done|done|lia]|lia|done]. }
  intros ts Hs Hl. by apply Hn.
Qed.

Lemma logic_binary (mk : TemporalAst → TemporalAst → TemporalAst) :
  (∀ a b, linear (mk a b) = linear a && linear b) → (∀ a b, branching (mk a b) = branching a && branching b) →
  ∀ a b, Q a → Q b → Q (mk a b).
Proof. intros Hl Hb a b. destruct logic; cbn; rewrite ?Hl, ?Hb; by intros -> ->. Qed.

Lemma good_until : good (parseTemporalUntil logic parseTemporal) (S N) Q.
Proof.
  pose proof good_unary as Hu. intros ts Hs Hl. eapply runs_bind; [by apply Hu|]. intros lhs ts' Ha Hs' Hl'.
  unfold runs. destruct logic; [|by apply (runs_return lhs ts' (λ φ, branching φ = true))].
  destruct (matchKeyword "U" ts') eqn:E; [|by apply (runs_return lhs ts' (λ φ, linear φ = true))].
  eapply (runs_after _ _ _ _ _ _ Hs' E); [done|]. intros ts2 Hs2 Hl2.
  eapply runs_bind; [apply Hu; [done|lia]|]. intros rhs ts3 Hb Hs3 _. apply runs_return; [done|].
  cbn in *. by rewrite Ha, Hb.
Qed.

Lemma good_temporal_iff : good (parseTemporalIff logic parseTemporal) (S N) Q.
Proof.
  apply good_left_assoc; [intros t mk; by apply on_operator_kind, logic_binary|].
  apply (good_right_assoc t_implies); [by apply logic_binary|].
  apply good_left_assoc; [intros t mk; by apply on_punct_kind, logic_binary|].
  apply good_left_assoc; [intros t mk; by apply on_punct_kind, logic_binary|]. apply good_until.
Qed.
End temporal_levels.

Lemma good_parse_temporal logic fuel : good (parse_temporal logic fuel) fuel (λ φ, of_logic logic φ = true).
Proof. induction fuel as [|fuel IH]; [intros ts _ Hl; lia|]. by apply good_temporal_iff. Qed.

Lemma good_parseTemporal logic N : good (parseTemporal logic) N (λ φ, of_logic logic φ = true).
Proof. intros ts Hs _. unfold runs, parseTemporal. apply good_parse_temporal; [done|lia]. Qed.

(** ** Sections *)

(** A declared variable: a plain name, a domain that is not empty and not wide, of
    integers that doubles hold. *)
Definition declared_variable (x : SpecVariable) : Prop :=
  plain x ∧ match x with v_enum _ values => values ≠ [] | v_range _ min max => 0 <= max - min <= 256 ∧ - EXACT_BOUND < min ∧ max < EXACT_BOUND end.

Lemma proper_int t : proper_token t → tok_kind t = tk_int → Z.abs (int_value (tok_value t)) < EXACT_BOUND.
Proof. unfold proper_token. intros Ht Hk. rewrite Hk in Ht. destruct Ht as [_ Hx]. by apply Z.ltb_lt. Qed.

Definition well_declared (d : declared) : Prop :=
  Forall declared_variable (d_variables d) ∧
  Forall (λ f, of_logic (sf_logic f) (sf_ast f) = true) (d_formulae d).

Lemma proper_value t : proper_token t → tok_kind t = tk_ident → has_char bar (tok_value t) = false.
Proof. unfold proper_token. by destruct (tok_kind t). Qed.

Lemma enum_value_spec t v :
  enum_value t = Some v → tok_kind t ≠ tk_eof ∧ (proper_token t → has_char bar v = false).
Proof.
  unfold enum_value, proper_token. destruct (tok_kind t); try done; [by intros [= <-]|intros [= <-]; split; [done|by intros []]|].
  case_bool_decide; [|done]. by intros [= <-].
Qed.

Lemma runs_variable_type name ts :
  has_char bar name = false → stream ts → runs (parse_variable_type name) ts 1 declared_variable.
Proof.
  intros Hname Hs. unfold runs, parse_variable_type. destruct (matchPunct "{" ts) eqn:E1.
  { eapply (runs_after _ _ _ _ _ _ Hs E1); [done|]. intros ts' Hs' _.
    eapply runs_bind; [apply (runs_braced _ _ (λ v, has_char bar v = false)); [apply enum_value_spec|done]|].
    intros values ts2 Hv Hs2 _. eapply runs_bind; [by apply runs_expectPunct|]. intros ? ts3 _ Hs3 _.
    case_bool_decide; [by eexists|]. apply runs_return; [done|]. by repeat split. }
  case_bool_decide as E2.
  { eapply (runs_bind consume_token).
    { apply (runs_consume ts (λ t, Z.abs (int_value (tok_value t)) < EXACT_BOUND)); [done|by rewrite E2|intros Hp; by apply proper_int]. }
    intros minTok ts' Hmin Hs' _. cbv beta in Hmin. cbv zeta. unfold runs. destruct (matchOperator ".." ts') eqn:E3; [|by eexists].
    eapply (runs_after _ _ _ _ _ _ Hs' E3); [done|]. intros ts2 Hs2 _. unfold runs. cbn [negb].
    case_bool_decide as E4; [|by eexists]. cbn [negb].
    eapply (runs_bind consume_token).
    { apply (runs_consume ts2 (λ t, Z.abs (int_value (tok_value t)) < EXACT_BOUND)); [done|by rewrite E4|intros Hp; by apply proper_int]. }
    intros maxTok ts3 Hmax Hs3 _. cbv beta in Hmax. eapply runs_bind; [by apply runs_expectPunct|]. intros ? ts4 _ Hs4 _.
    case_match eqn:Ew; [by eexists|]. case_match eqn:Ew'; [by eexists|]. apply runs_return; [done|].
    split; [by split; [done|constructor]|]. lia. }
  destruct (matchKeyword "boolean" ts) eqn:E3; [|by eexists].
  eapply (runs_after _ _ _ _ _ _ Hs E3); [done|]. intros ts' Hs' _. apply runs_expect_return; [done| |lia].
  split; [split; [done|by repeat constructor]|done].
Qed.

Lemma add_variable_declared v d : declared_variable v → well_declared d → well_declared (add_variable v d).
Proof. intros Hv [Hd Hf]. split; [|done]. by apply Forall_app_2; [|constructor]. Qed.

Lemma add_formula_declared f d :
  of_logic (sf_logic f) (sf_ast f) = true → well_declared d → well_declared (add_formula f d).
Proof. intros Hv [Hd Hf]. split; [done|]. by apply Forall_app_2; [|constructor]. Qed.

Lemma add_rule_declared (first : bool) rule d :
  well_declared d → well_declared (if first then add_init rule d else add_next rule d).
Proof. intros [Hd Hf]. by destruct first. Qed.

Lemma runs_var_section n d ts :
  well_declared d → stream ts → (length ts ≤ n)%nat → runs (parseVarSection n d) ts 0 well_declared.
Proof.
  revert d ts; induction n as [|n IH]; intros d ts Hd Hs Hn; [destruct Hs; cbn in Hn; lia|].
  unfold runs. cbn [parseVarSection]. destruct (_ || _) eqn:E; [|by apply (runs_return d ts)].
  assert (tok_kind (peek ts) = tk_ident ∨ tok_kind (peek ts) = tk_keyword) as Ek.
  { apply orb_true_iff in E as [E%bool_decide_eq_true|[E _]%is_token_spec]; [by left|by right]. }
  eapply (runs_bind consume_token).
  { apply (runs_consume ts (λ t, has_char bar (tok_value t) = false)); [done|by destruct Ek as [->| ->]|].
    unfold proper_token. by destruct Ek as [->| ->]. }
  intros nameTok ts1 Hname Hs1 Hl1. eapply runs_bind; [by apply runs_expectPunct|]. intros ? ts2 _ Hs2 Hl2.
  eapply runs_bind; [by apply runs_variable_type|]. intros v ts3 Hv Hs3 Hl3.
  apply IH; [by apply add_variable_declared|done|lia].
Qed.

Lemma runs_assign_section n d ts :
  well_declared d → stream ts → (length ts ≤ n)%nat → runs (parseAssignSection n d) ts 0 well_declared.
Proof.
  revert d ts; induction n as [|n IH]; intros d ts Hd Hs Hn; [destruct Hs; cbn in Hn; lia|].
  unfold runs. cbn [parseAssignSection]. destruct (_ || _) eqn:E; [|by apply (runs_return d ts)].
  assert (tok_kind (peek ts) ≠ tk_eof) as Ek.
  { by apply orb_true_iff in E as [E|E]; apply (is_token_kind _ _ _ E). }
  eapply (runs_bind consume_token); [by apply (runs_consume ts any)|]. intros which ts1 _ Hs1 Hl1.
  eapply runs_bind; [by apply runs_expectPunct|]. intros ? ts2 _ Hs2 Hl2.
  eapply runs_bind; [by apply runs_consume_any|]. intros nameTok ts3 _ Hs3 Hl3.
  case_match; [by eexists|]. eapply runs_bind; [by apply runs_expectPunct|]. intros ? ts4 _ Hs4 Hl4. unfold runs.
  destruct (matchOperator ":=" ts4) eqn:E'; [|by eexists]. cbn [negb].
  eapply (runs_after _ _ _ _ _ _ Hs4 E'); [done|]. intros ts5 Hs5 Hl5.
  eapply runs_bind; [apply (good_parseExpr (S (length ts5))); [done|lia]|]. intros expr ts6 _ Hs6 Hl6.
  eapply runs_bind; [by apply runs_expectPunct|]. intros ? ts7 _ Hs7 Hl7.
  eapply runs_weaken; [apply (IH _ ts7); [by apply add_rule_declared|done|lia]|lia|done].
Qed.

Lemma runs_formula logic d ts :
  well_declared d → stream ts → tok_kind (peek ts) ≠ tk_eof → runs (parse_formula logic d) ts 1 well_declared.
Proof.
  intros Hd Hs Hk. eapply (runs_bind consume_token); [by apply (runs_consume ts any)|]. intros ? ts1 _ Hs1 Hl1.
  eapply runs_bind; [apply (good_parseTemporal logic (S (length ts1))); [done|lia]|]. intros ast ts2 Ha Hs2 _.
  apply runs_return; [done|by apply add_formula_declared].
Qed.

Lemma runs_sections n d ts :
  well_declared d → stream ts → (length ts ≤ n)%nat → runs (sections_loop n d) ts 0 well_declared.
Proof.
  revert d ts; induction n as [|n IH]; intros d ts Hd Hs Hn; [destruct Hs; cbn in Hn; lia|].
  unfold runs. cbn [sections_loop]. case_bool_decide as Ek; [by apply (runs_return d ts)|].
  destruct (matchKeyword "VAR" ts) eqn:E1.
  { eapply (runs_after _ _ _ _ _ _ Hs E1); [done|]. intros ts1 Hs1 Hl1.
    eapply (runs_bind (λ ts', parseVarSection (length ts') d ts') _ ts1 _ 0 well_declared);
      [by apply runs_var_section|]. intros d' ts2 Hd' Hs2 Hl2. apply (IH d' ts2); [done|done|lia]. }
  destruct (matchKeyword "ASSIGN" ts) eqn:E2.
  { eapply (runs_after _ _ _ _ _ _ Hs E2); [done|]. intros ts1 Hs1 Hl1.
    eapply (runs_bind (λ ts', parseAssignSection (length ts') d ts') _ ts1 _ 0 well_declared);
      [by apply runs_assign_section|]. intros d' ts2 Hd' Hs2 Hl2. apply (IH d' ts2); [done|done|lia]. }
  destruct (matchKeyword "LTLSPEC" ts).
  { eapply (runs_bind (parse_formula LTL d)); [by apply runs_formula|]. intros d' ts1 Hd' Hs1 Hl1.
    apply (IH d' ts1); [done|done|lia]. }
  destruct (matchKeyword "CTLSPEC" ts).
  { eapply (runs_bind (parse_formula CTL d)); [by apply runs_formula|]. intros d' ts1 Hd' Hs1 Hl1.
    apply (IH d' ts1); [done|done|lia]. }
  destruct (matchKeyword "DEFINE" ts); by eexists.
Qed.

(** What a specification the parser accepts looks like. *)
Record well_parsed (spec : ParsedSpec) : Prop := {
  wp_variables : Forall declared_variable (ps_variables spec);
  wp_formulae : Forall (λ f, of_logic (sf_logic f) (sf_ast f) = true) (ps_formulae spec);
  wp_declared : ps_variables spec ≠ [] ∧ ps_inits spec ≠ [] ∧ ps_formulae spec ≠ [];
}.

Lemma runs_parse_tokens ts : stream ts → runs parse_tokens ts 0 well_parsed.
Proof.
  intros Hs. eapply runs_bind; [by apply runs_expectKeyword|]. intros ? ts1 _ Hs1 _.
  eapply runs_bind; [by apply runs_consume_any|]. intros nameTok ts2 _ Hs2 _.
  case_match eqn:Ename; [by eexists|]. clear Ename.
  eapply (runs_bind (λ ts, sections_loop (length ts) nothing_declared ts) _ ts2 _ 0 well_declared).
  { apply runs_sections; [by repeat constructor|done|done]. }
  intros d ts3 [Hv Hf] Hs3 _. do 2 (case_bool_decide; [by eexists|]).
  destruct (d_formulae d) as [|f fs] eqn:E; [by eexists|]. apply runs_return; [done|].
  split; cbn; rewrite ?E; [done|done|]. by split_all.
Qed.

Lemma parseSpec_returns source :
  ∃ out, parseSpec source = Some out ∧ ∀ spec, out = Ok spec → well_parsed spec.
Proof.
  unfold parseSpec. case_match; [by eexists|].
  destruct (tokenize_returned source) as (out & -> & Hts). cbn. destruct out as [ts|e]; [|by eexists].
  destruct (runs_parse_tokens ts (Hts ts eq_refl)) as (r & -> & Hr). cbn. eexists. split; [done|].
  intros spec. destruct r as [[parsed rest]|e]; [|done]. intros [= <-]. by destruct (Hr parsed rest eq_refl).
Qed.
