(* ===== verification/FormalVerification.v ===== *)
(** * Formal verification of rule packs: counterexamples and verdicts

    [packages/agentic-harness/src/formal-verification.ts]: the search for a
    counterexample, and the verdict on every formula of a parsed specification. *)

From S2P Require Import Prelude JsString JsList HumanReview.
From S2P Require Import FvSyntax FvModel CtlChecker LtlTranslation.

(** ** Counterexamples *)

Definition FormalVerificationState : Type := string * valuation.

Record Counterexample := { cx_trace : list FormalVerificationState; cx_explanation : string }.

Inductive CoreError : Type :=
| ce_evaluation (e : EvalError)
| ce_not_propositional.

Section counterexamples.
Context (kripke : KripkeStructure) (enumLiterals : list string).

Fixpoint atomCoreSatisfies (ast : TemporalAst) (v : valuation) : outcome CoreError bool :=
  (match ast with
   | t_atom e =>
       match atomSatisfies e v enumLiterals with Ok b => Ok b | Throw err => Throw (ce_evaluation err) end
   | t_not x => let* b := atomCoreSatisfies x v in Ok (negb b)
   | t_and l r => let* b := atomCoreSatisfies l v in if b then atomCoreSatisfies r v else Ok false
   | t_or l r => let* b := atomCoreSatisfies l v in if b then Ok true else atomCoreSatisfies r v
   | t_implies l r => let* b := atomCoreSatisfies l v in if b then atomCoreSatisfies r v else Ok true
   | t_iff l r => let* a := atomCoreSatisfies l v in let* b := atomCoreSatisfies r v in Ok (Bool.eqb a b)
   | _ => Throw ce_not_propositional
   end)%outcome.

(** [try { return … } catch { return false }] *)
Definition or_false {E} (m : outcome E bool) : bool := match m with Ok b => b | Throw _ => false end.

Definition witnessesFailure (id : string) (formula : TemporalAst) : bool :=
  match map_get id (k_states kripke) with
  | None => false
  | Some v =>
      match formula with
      | t_AG x => or_false (outcome_map negb (atomCoreSatisfies x v))
      | t_implies l r =>
          or_false (let* a := atomCoreSatisfies l v in
                    if a then outcome_map negb (atomCoreSatisfies r v) else Ok false)%outcome
      | _ => false
      end
  end.

(** One successor of a state that is left: a new one is recorded and queued. *)
Definition visit (id : string) (s : gset string * list (string * string) * list string) (next : string) :
    gset string * list (string * string) * list string :=
  let '(visited, parents, queue) := s in
  if bool_decide (next ∈ visited) then s else ({[next]} ∪ visited, map_set next id parents, queue ++ [next]).

(** [None]: out of fuel. *)
Fixpoint search (fuel : nat) (formula : TemporalAst) (visited : gset string) (parents : list (string * string))
    (queue : list string) : option (option string * list (string * string)) :=
  match fuel with
  | O => None
  | S fuel' =>
      match queue with
      | [] => Some (None, parents)
      | id :: rest =>
          if witnessesFailure id formula then Some (Some id, parents)
          else let '(visited', parents', queue') := foldl (visit id) (visited, parents, rest) (succs kripke id) in
               search fuel' formula visited' parents' queue'
      end
  end.

(** From the target back to where the search started. *)
Fixpoint path_back (fuel : nat) (parents : list (string * string)) (start cursor : string) (path : list string) :
    option (list string) :=
  match fuel with
  | O => None
  | S fuel' =>
      if bool_decide (cursor = start) then Some path
      else match map_get cursor parents with
           | None => Some path
           | Some parent => path_back fuel' parents start parent (parent :: path)
           end
  end.

Definition value_display (v : value) : string := match v with VStr s => s | v => value_text v end.

Definition stringifyValuation (v : valuation) : string :=
  join ", " ((λ k, k +:+ "=" +:+ value_display (default VInherited (map_get k v))) <$> js_sort String.compare v.*1).

Definition explainCounterexample (formula : TemporalAst) (trace : list FormalVerificationState) : string :=
  let summary :=
    match last trace with
    | Some state => "at state " +:+ pretty (length trace - 1)%nat +:+ ": " +:+ stringifyValuation state.2
    | None => "no reachable failing path found"
    end in
  "formula does not hold; counterexample length " +:+ pretty (length trace) +:+ "; " +:+ summary +:+
  "; formula=" +:+ stringifyTemporal formula.

Definition trace_of (path : list string) : list FormalVerificationState :=
  omap (λ id, (λ v, (id, v)) <$> map_get id (k_states kripke)) path.

(** Outer [None]: out of fuel; inner [None]: [undefined]. *)
Definition findCounterexample (formula : TemporalAst) (satisfying : gset string) : option (option Counterexample) :=
  match filter (λ id, id ∉ satisfying) (k_initial kripke) with
  | [] => Some None
  | failingInitial :: _ =>
      found ← search (S (length (all_ids kripke))) formula {[failingInitial]} [] [failingInitial];
      let '(witness, parents) := found in
      let target := default failingInitial witness in
      path ← path_back (S (length parents)) parents failingInitial target [target];
      let trace := trace_of path in
      Some (Some {| cx_trace := trace; cx_explanation := explainCounterexample formula trace |})
  end.
End counterexamples.

(** ** Verdicts *)

Inductive FormalVerificationVerdict : Type := fv_pass | fv_fail.

#[export] Instance fv_verdict_eq_dec : EqDecision FormalVerificationVerdict.
Proof. solve_decision. Defined.

Record FormulaResult := {
  fr_logic : FormalVerificationLogic;
  fr_formula : string;
  fr_verdict : FormalVerificationVerdict;
  fr_counterexample : option Counterexample;
}.

Inductive VerifyError : Type :=
| ve_model (e : ModelError)
| ve_check (e : CheckError).

Definition verdict_of (pass : bool) : FormalVerificationVerdict := if pass then fv_pass else fv_fail.

(** The formula that is checked. *)
Definition ctl_of (formula : SpecFormula) : TemporalAst :=
  match sf_logic formula with LTL => ltlToCtl (sf_ast formula) | CTL => sf_ast formula end.

Definition check_formula (kripke : KripkeStructure) (enumLiterals : list string) (formula : SpecFormula) :
    option (outcome VerifyError FormulaResult) :=
  checked ← checkCtl kripke enumLiterals (ctl_of formula);
  match checked with
  | Throw e => Some (Throw (ve_check e))
  | Ok satisfying =>
      let result verdict cx :=
        {| fr_logic := sf_logic formula; fr_formula := sf_source formula; fr_verdict := verdict; fr_counterexample := cx |} in
      if forallb (has satisfying) (k_initial kripke) then Some (Ok (result fv_pass None))
      else cx ← findCounterexample kripke enumLiterals (ctl_of formula) satisfying; Some (Ok (result fv_fail cx))
  end.

(** Computations that may throw and may run out of fuel, in order. *)
Fixpoint collect {E A B} (f : A → option (outcome E B)) (l : list A) : option (outcome E (list B)) :=
  match l with
  | [] => Some (Ok [])
  | x :: r =>
      y ← f x;
      match y with
      | Throw e => Some (Throw e)
      | Ok b => ys ← collect f r; Some (outcome_map (cons b) ys)
      end
  end.

Definition all_pass (results : list FormulaResult) : bool :=
  forallb (λ r, bool_decide (fr_verdict r = fv_pass)) results.

Record SpecResult := {
  sr_specPath : string;
  sr_specSha256 : string;
  sr_module : string;
  sr_reachableStateCount : nat;
  sr_formulae : list FormulaResult;
  sr_verdict : FormalVerificationVerdict;
}.

Record VerifyFormalSpecInput := { in_specPath : string; in_specSource : string }.

(** [verifyFormalVerificationSpec], from the parsed source on. *)
Definition verify_parsed `{Sha256} (input : VerifyFormalSpecInput) (parsed : ParsedSpec) :
    option (outcome VerifyError SpecResult) :=
  built ← buildKripke parsed;
  match built with
  | Throw e => Some (Throw (ve_model e))
  | Ok kripke =>
      results ← collect (check_formula kripke (collectEnumLiterals parsed)) (ps_formulae parsed);
      Some (outcome_map (λ formulae,
        {| sr_specPath := in_specPath input;
           sr_specSha256 := sha256Hex (in_specSource input);
           sr_module := ps_module parsed;
           sr_reachableStateCount := length (k_states kripke);
           sr_formulae := formulae;
           sr_verdict := verdict_of (all_pass formulae) |}) results)
  end.
