(* ===== verification/CounterexampleProof.v ===== *)
(** * Formal verification of rule packs: counterexamples are failing runs

    The breadth-first search ends, the path it is read back along is a run of the
    model, and it leads from an initial state that violates the formula. *)

From S2P Require Import Prelude JsString JsList FvSyntax FvModel CtlChecker CtlCorrect LtlTranslation.
From S2P Require Import FormalVerification.

Section propositional.
Context (kripke : KripkeStructure) (enumLiterals : list string).

#[local] Abbreviation sat := (sat kripke enumLiterals).

(** Without temporal operators a formula is evaluated at a state. *)
Lemma core_satisfies φ id v :
  propositional φ = true → checkable kripke enumLiterals φ → map_get id (k_states kripke) = Some v →
  ∃ b, atomCoreSatisfies enumLiterals φ v = Ok b ∧ (b = true ↔ sat φ id).
Proof.
  intros Hp Hc Hv. revert Hp Hc; induction φ; cbn; intros Hp Hc; try done.
  { destruct (Hc id v (map_get_elem _ _ _ Hv)) as [b Hb]. rewrite Hb. exists b. split; [done|].
    unfold holds_atom. split; [intros ->; by exists v|]. intros (w & Hw & Ha). rewrite Hv in Hw. simplify_eq. congruence. }
  { destruct (IHφ Hp Hc) as (b & -> & Hb). cbn. exists (negb b). split; [done|]. destruct b; naive_solver. }
  all: apply andb_true_iff in Hp as [Hl Hr]; destruct Hc as [Hcl Hcr];
    destruct (IHφ1 Hl Hcl) as (a & -> & Ha), (IHφ2 Hr Hcr) as (b & -> & Hb); cbn.
  - exists (a && b). split; [by destruct a|]. destruct a, b; cbn; naive_solver.
  - exists (a || b). split; [by destruct a|]. destruct a, b; cbn; naive_solver.
  - exists (negb a || b). split; [by destruct a|]. destruct a, b; cbn; naive_solver.
  - exists (Bool.eqb a b). split; [done|]. destruct a, b; cbn; naive_solver.
Qed.
End propositional.

Section counterexamples.
Context (kripke : KripkeStructure) (enumLiterals : list string) (Hwf : wf_kripke kripke).

#[local] Abbreviation post := (succs kripke).
#[local] Abbreviation ids := (all_ids kripke).
#[local] Abbreviation witnesses := (witnessesFailure kripke enumLiterals).

(** States that follow one another. *)
Definition trail (l : list string) : Prop :=
  ∀ i a b, l !! i = Some a → l !! S i = Some b → b ∈ post a.

Lemma trail_cons a b l : b ∈ post a → trail (b :: l) → trail (a :: b :: l).
Proof. intros Hab Hl [|i] x y; cbn; [by intros [= <-] [= <-]|]. apply (Hl i). Qed.

(** Every recorded state follows its parent, which was recorded before it. *)
Record tree (start : string) (parents : list (string * string)) : Prop := {
  tr_keys : NoDup (start :: parents.*1);
  tr_entries i k p : parents !! i = Some (k, p) → k ∈ post p ∧ (p = start ∨ p ∈ (take i parents).*1);
}.

Lemma tree_snoc start parents k p :
  tree start parents → k ∈ post p → p = start ∨ p ∈ parents.*1 → k ∉ start :: parents.*1 →
  tree start (parents ++ [(k, p)]).
Proof.
  intros [Hk He] Hkp Hp Hn. split.
  - rewrite fmap_app. apply (NoDup_app (start :: parents.*1)). split_all; [done| |apply NoDup_singleton].
    by intros x Hx ->%list_elem_of_singleton.
  - intros i k' p' Hi. destruct (decide (i < length parents)%nat) as [Hlt|Hge].
    + rewrite lookup_app_l in Hi by done. rewrite take_app_le by lia. by apply He.
    + assert (i = length parents) as ->.
      { apply lookup_lt_Some in Hi. rewrite length_app in Hi. cbn in Hi. lia. }
      rewrite list_lookup_middle in Hi by done. simplify_eq. by rewrite take_app_length.
Qed.

Lemma path_back_spec n start parents cursor rest :
  tree start parents → cursor = start ∨ cursor ∈ (take n parents).*1 → trail (cursor :: rest) →
  ∃ l, path_back (S n) parents start cursor (cursor :: rest) = Some l ∧
    trail l ∧ head l = Some start ∧ last l = last (cursor :: rest).
Proof.
  intros Ht. revert cursor rest; induction n as [|n IH]; intros cursor rest Hc Htr; cbn [path_back].
  { destruct Hc as [->|Hc]; [|by apply elem_of_nil in Hc]. rewrite bool_decide_eq_true_2 by done. by eexists. }
  case_bool_decide as Hs; [subst; by eexists|].
  destruct Hc as [Hc|Hc]; [done|]. apply list_elem_of_fmap in Hc as ([k p] & -> & Hin).
  apply list_elem_of_lookup in Hin as [i Hi]. cbn in *.
  assert (i < S n)%nat as Hlt by (apply lookup_lt_Some in Hi; rewrite length_take in Hi; lia).
  rewrite lookup_take_lt in Hi by done. destruct (tr_entries _ _ Ht i k p Hi) as [Hkp Hp].
  rewrite (map_get_unique k p).
  - destruct (IH p (k :: rest)) as (l & Hl & Htl & Hhd & Hla).
    + destruct Hp as [->|Hp]; [by left|right]. apply list_elem_of_fmap in Hp as (e & -> & He).
      apply list_elem_of_fmap_2. eapply elem_of_subseteq; [|exact He].
      intros x Hx. apply list_elem_of_lookup in Hx as [j Hj]. apply list_elem_of_lookup. exists j.
      assert (j < i)%nat by (apply lookup_lt_Some in Hj; rewrite length_take in Hj; lia).
      rewrite lookup_take_lt in Hj by done. by rewrite lookup_take_lt by lia.
    + by apply trail_cons.
    + exists l. by split_all.
  - apply (NoDup_cons_1_2 _ _ (tr_keys _ _ Ht)).
  - by eapply list_elem_of_lookup_2.
Qed.
(** What the search keeps: the recorded states are the visited ones. *)
Record searching (start : string) (visited : gset string) (parents : list (string * string)) : Prop := {
  sg_tree : tree start parents;
  sg_visited x : x ∈ visited ↔ x ∈ start :: parents.*1;
}.

Lemma searching_visit start id visited parents queue next :
  searching start visited parents → id ∈ visited → next ∈ post id →
  ∃ new, visit id (visited, parents, queue) next =
      ({[next]} ∪ visited, (if bool_decide (next ∈ visited) then parents else map_set next id parents), queue ++ new) ∧
    searching start ({[next]} ∪ visited) (if bool_decide (next ∈ visited) then parents else map_set next id parents) ∧
    (∀ x, x ∈ ({[next]} ∪ visited : gset string) ↔ x ∈ visited ∨ x ∈ new) ∧
    size ({[next]} ∪ visited : gset string) = (size visited + length new)%nat.
Proof.
  intros [Ht Hv] Hid Hn. unfold visit. case_bool_decide as Hnext.
  - assert ({[next]} ∪ visited = visited) as -> by set_solver.
    exists []. rewrite app_nil_r. split_all; [done|by split|set_solver|cbn; lia].
  - exists [next]. rewrite Hv in Hnext.
    assert (map_set next id parents = parents ++ [(next, id)]) as ->.
    { unfold map_set. rewrite (proj2 (find_by_None fst next parents)); [done|].
      intros p Hp <-. apply Hnext. right. by apply list_elem_of_fmap_2. }
    split_all; [done| |intros x; rewrite elem_of_union, elem_of_singleton, list_elem_of_singleton; tauto|].
    + split; [apply tree_snoc; try done|].
      * apply Hv in Hid. by apply elem_of_cons in Hid.
      * intros x. rewrite elem_of_union, elem_of_singleton, Hv, fmap_app, !elem_of_cons, elem_of_app. cbn.
        rewrite list_elem_of_singleton. tauto.
    + rewrite size_union by (rewrite <- Hv in Hnext; set_solver). rewrite size_singleton. cbn. lia.
Qed.

Lemma searching_visits start id ns visited parents queue :
  searching start visited parents → id ∈ visited → (∀ n, n ∈ ns → n ∈ post id) →
  ∃ visited' parents' new, foldl (visit id) (visited, parents, queue) ns = (visited', parents', queue ++ new) ∧
    searching start visited' parents' ∧ (∀ x, x ∈ visited' ↔ x ∈ visited ∨ x ∈ new) ∧
    (∀ n, n ∈ ns → n ∈ visited') ∧ size visited' = (size visited + length new)%nat.
Proof.
  revert visited parents queue; induction ns as [|n ns IH]; intros visited parents queue Hs Hid Hns.
  { exists visited, parents, []. rewrite app_nil_r. split_all; [done|done| |by intros n []%elem_of_nil|cbn; lia].
    intros x. rewrite elem_of_nil. tauto. }
  destruct (searching_visit start id visited parents queue n Hs Hid) as (new & E & Hs' & Hv' & Hsz); [apply Hns; left|].
  cbn [foldl]. rewrite E. destruct (IH _ _ (queue ++ new) Hs') as (V & P & new' & E' & HsV & HV & Hin & HszV).
  - set_solver.
  - intros m Hm. apply Hns. by right.
  - exists V, P, (new ++ new'). rewrite E', (assoc_L app). split_all; [done|done| | |].
    + intros x. rewrite HV, Hv', elem_of_app. tauto.
    + intros m [->|Hm]%elem_of_cons; [|by apply Hin]. apply HV. set_solver.
    + rewrite length_app. lia.
Qed.

Lemma search_spec fuel formula start visited parents queue :
  start ∈ ids → searching start visited parents → (∀ x, x ∈ queue → x ∈ visited) →
  (∀ x, x ∈ visited → x ∉ queue → witnesses x formula = false ∧ ∀ t, t ∈ post x → t ∈ visited) →
  (length ids + length queue < fuel + size visited)%nat →
  ∃ w parents', search kripke enumLiterals fuel formula visited parents queue = Some (w, parents') ∧
    tree start parents' ∧
    match w with
    | Some x => x ∈ start :: parents'.*1 ∧ witnesses x formula = true
    | None => ∀ x, x ∈ start :: parents'.*1 →
                witnesses x formula = false ∧ ∀ t, t ∈ post x → t ∈ start :: parents'.*1
    end.
Proof.
  intros Hstart. revert visited parents queue; induction fuel as [|fuel IH]; intros visited parents queue Hs Hq Hc Hf.
  { exfalso. assert (size visited ≤ length ids)%nat; [|lia].
    rewrite <- (size_list_to_set (C := gset string) ids) by apply (wk_states _ Hwf).
    apply subseteq_size. intros x Hx%(sg_visited _ _ _ Hs). apply elem_of_list_to_set.
    apply elem_of_cons in Hx as [->|Hx]; [done|]. apply list_elem_of_fmap in Hx as ([k p] & -> & Hin).
    apply list_elem_of_lookup in Hin as [i Hi]. apply (tr_entries _ _ (sg_tree _ _ _ Hs)) in Hi as [Hkp _].
    by apply (wk_closed _ Hwf) in Hkp as []. }
  cbn [search]. destruct queue as [|id rest].
  { exists None, parents. split_all; [done|apply Hs|]. intros x Hx. rewrite <- (sg_visited _ _ _ Hs) in Hx.
    destruct (Hc x Hx) as [Hw Hp]; [apply not_elem_of_nil|]. split; [done|]. intros t Ht.
    apply (sg_visited _ _ _ Hs). by apply Hp. }
  assert (id ∈ visited) as Hid by (apply Hq; left).
  destruct (witnesses id formula) eqn:Ew.
  { exists (Some id), parents. split_all; [done|apply Hs| |done]. by apply (sg_visited _ _ _ Hs). }
  destruct (searching_visits start id (post id) visited parents rest Hs Hid) as (V & P & new & -> & HsV & HV & Hin & Hsz); [done|].
  apply IH; [done| | |].
  - intros x [Hx|Hx]%elem_of_app; apply HV; [left; apply Hq; by right|by right].
  - intros x Hx Hn. rewrite elem_of_app in Hn. apply HV in Hx as [Hx|Hx]; [|tauto].
    destruct (decide (x = id)) as [->|Hne]; [by split|].
    destruct (Hc x Hx) as [Hw Hp]; [rewrite elem_of_cons; tauto|]. split; [done|]. intros t Ht.
    apply HV. left. by apply Hp.
  - rewrite length_app, Hsz. cbn in Hf. lia.
Qed.
Lemma tree_states start parents x : start ∈ ids → tree start parents → x ∈ start :: parents.*1 → x ∈ ids.
Proof.
  intros Hs Ht [->|Hx]%elem_of_cons; [done|]. apply list_elem_of_fmap in Hx as ([k p] & -> & Hin).
  apply list_elem_of_lookup in Hin as [i Hi]. apply (tr_entries _ _ Ht) in Hi as [Hkp _].
  by apply (wk_closed _ Hwf) in Hkp as [].
Qed.

Lemma witness_AG x id :
  propositional x = true → checkable kripke enumLiterals x → id ∈ ids →
  (witnesses id (t_AG x) = true → ¬ sat kripke enumLiterals x id) ∧
  (witnesses id (t_AG x) = false → sat kripke enumLiterals x id).
Proof.
  intros Hp Hc Hid. unfold witnessesFailure. apply map_get_is_Some in Hid as [v Hv]. rewrite Hv.
  destruct (core_satisfies kripke enumLiterals x id v Hp Hc Hv) as (b & -> & Hb). cbn. destruct b; naive_solver.
Qed.

(** What a counterexample is: a run of the model from an initial state at which
    the formula is not known to hold. *)
Record failing_run (S : gset string) (trace : list FormalVerificationState) : Prop := {
  fr_trail : trail trace.*1;
  fr_states id v : (id, v) ∈ trace → map_get id (k_states kripke) = Some v;
  fr_start : ∃ id, head trace.*1 = Some id ∧ id ∈ k_initial kripke ∧ id ∉ S;
}.

Lemma trace_of_keys path : (∀ x, x ∈ path → x ∈ ids) → (trace_of kripke path).*1 = path.
Proof.
  induction path as [|x path IH]; intros Hp; cbn; [done|].
  destruct (proj2 (map_get_is_Some x (k_states kripke))) as [v Hv]; [apply Hp; left|].
  rewrite Hv. cbn. f_equal. apply IH. intros y Hy. apply Hp. by right.
Qed.

Lemma trail_states start l : start ∈ ids → head l = Some start → trail l → ∀ x, x ∈ l → x ∈ ids.
Proof.
  intros Hs Hh Ht x [i Hi]%list_elem_of_lookup. destruct i as [|i].
  - destruct l; cbn in *; by simplify_eq.
  - destruct (lookup_lt_is_Some_2 l i) as [y Hy]; [apply lookup_lt_Some in Hi; lia|].
    specialize (Ht i y x Hy Hi). by apply (wk_closed _ Hwf) in Ht as [].
Qed.

Context (initial_states : ∀ id, id ∈ k_initial kripke → id ∈ ids).

Lemma findCounterexample_spec formula S :
  ∃ cx, findCounterexample kripke enumLiterals formula S = Some cx ∧
    match cx with
    | None => ∀ id, id ∈ k_initial kripke → id ∈ S
    | Some cx =>
        failing_run S (cx_trace cx) ∧
        ∀ x, formula = t_AG x → propositional x = true → checkable kripke enumLiterals x →
          denotes kripke enumLiterals S formula →
          ∃ id, last (cx_trace cx).*1 = Some id ∧ ¬ sat kripke enumLiterals x id
    end.
Proof.
  unfold findCounterexample. destruct (filter _ (k_initial kripke)) as [|start others] eqn:Ef.
  { exists None. split; [done|]. intros id Hid. destruct (decide (id ∈ S)) as [|Hn]; [done|].
    exfalso. apply (not_elem_of_nil (A := string) id). rewrite <- Ef. by apply list_elem_of_filter. }
  assert ((start ∉ S) ∧ start ∈ k_initial kripke) as [HnS Hinit].
  { apply (list_elem_of_filter (λ id, id ∉ S)). rewrite Ef. left. }
  assert (start ∈ ids) as Hstart by by apply initial_states.
  destruct (search_spec (Datatypes.S (length ids)) formula start {[start]} [] [start]) as (w & parents & -> & Ht & Hw);
    [done| | | | |].
  { split; [split; [apply NoDup_singleton|by intros]|]. intros x. cbn.
    by rewrite elem_of_singleton, list_elem_of_singleton. }
  { intros x Hx. set_solver. }
  { intros x Hx Hn. set_solver. }
  { rewrite size_singleton. cbn. lia. }
  assert (default start w = start ∨ default start w ∈ (take (length parents) parents).*1) as Htarget.
  { rewrite take_ge by lia. destruct w as [x|]; [|by left]. destruct Hw as [Hx _]. by apply elem_of_cons in Hx. }
  destruct (path_back_spec (length parents) start parents (default start w) [] Ht Htarget) as (l & Hl & Htl & Hhd & Hla).
  { by intros [|i] x y. }
  assert ((trace_of kripke l).*1 = l) as Hkeys by (apply trace_of_keys; by eapply trail_states).
  cbn [mbind option_bind]. rewrite Hl. cbn. eexists (Some _). split; [done|]. cbn [cx_trace]. split.
  - split; rewrite ?Hkeys; [done| |by exists start].
    intros id v (x & _ & Hx)%list_elem_of_omap. destruct (map_get x (k_states kripke)) eqn:E; [|done]. cbn in Hx. by simplify_eq.
  - intros x -> Hp Hc HS. rewrite Hkeys, Hla. cbn. eexists. split; [done|]. destruct w as [t|]; cbn.
    + destruct Hw as [Ht' Hw]. eapply witness_AG; [done..| |done]. by eapply tree_states.
    + exfalso. apply HnS, HS. split; [done|]. intros π Hπ.
      assert (∀ i, π i ∈ start :: parents.*1) as Hin.
      { induction i as [|i IHi]; [destruct Hπ as [-> _]; left|]. apply (Hw (π i) IHi). apply Hπ. }
      intros i. eapply witness_AG; [done|done| |by apply Hw]. by eapply tree_states.
Qed.
End counterexamples.
