(* ===== verification/FormalReport.v ===== *)
(** * Formal verification of rule packs: the report and the gate

    [verifyFormalVerificationSpec], [buildFormalVerificationReport], its two
    renderings and [assertFormalVerificationPass] of
    [packages/agentic-harness/src/formal-verification.ts]. *)

From S2P Require Import Prelude JsString JsList JsValue CanonicalJson JsonSchemaSubset HumanReview HarnessCheckpoint.
From S2P Require Import FvSyntax FvModel FvTokens FvParser FormalVerification.

Definition FORMAL_VERIFICATION_REPORT_SCHEMA_VERSION : string := "1.0.0".
Definition G10_FORMAL_VERIFICATION_PASS : string := "G10_FORMAL_VERIFICATION_PASS".

Inductive FormalError : Type :=
| fe_spec (e : SpecError)
| fe_verify (e : VerifyError)
| fe_generated_at.

(** Outer [None]: out of fuel. *)
Definition verifyFormalVerificationSpec `{Sha256} (input : VerifyFormalSpecInput) :
    option (outcome FormalError SpecResult) :=
  parsed ← parseSpec (in_specSource input);
  match parsed with
  | Throw e => Some (Throw (fe_spec e))
  | Ok spec =>
      result ← verify_parsed input spec;
      Some (match result with Ok r => Ok r | Throw e => Throw (fe_verify e) end)
  end.

Record Summary := {
  su_specCount : nat;
  su_formulaCount : nat;
  su_passCount : nat;
  su_failCount : nat;
  su_verdict : FormalVerificationVerdict;
}.

Record FormalVerificationReport := {
  fv_generatedAt : string;
  fv_specs : list SpecResult;
  fv_summary : Summary;
}.

(** The counters of the formulas, of the passing and of the failing ones. *)
Definition count_formula (c : nat * nat * nat) (f : FormulaResult) : nat * nat * nat :=
  let '(formulas, passes, fails) := c in
  if bool_decide (fr_verdict f = fv_pass) then (S formulas, S passes, fails) else (S formulas, passes, S fails).

Definition count_formulas (specs : list SpecResult) : nat * nat * nat :=
  foldl (λ c spec, foldl count_formula c (sr_formulae spec)) (0, 0, 0)%nat specs.

Definition buildFormalVerificationReport `{Sha256} `{DateParse} `{LocaleCompare}
    (specs : list VerifyFormalSpecInput) (generatedAt : string) : option (outcome FormalError FormalVerificationReport) :=
  if negb (bool_decide (is_Some (date_parse generatedAt))) then Some (Throw fe_generated_at)
  else
    let orderedSpecs := js_sort (cmp_on in_specPath localeCompare) specs in
    results ← collect verifyFormalVerificationSpec orderedSpecs;
    Some (outcome_map (λ specResults,
      let '(formulaCount, passCount, failCount) := count_formulas specResults in
      {| fv_generatedAt := generatedAt;
         fv_specs := specResults;
         fv_summary :=
           {| su_specCount := length specResults; su_formulaCount := formulaCount; su_passCount := passCount;
              su_failCount := failCount; su_verdict := verdict_of (failCount =? 0)%nat |} |}) results).

(** ** Renderings *)

Definition verdict_text (v : FormalVerificationVerdict) : string := match v with fv_pass => "pass" | fv_fail => "fail" end.
Definition verdict_upper (v : FormalVerificationVerdict) : string := match v with fv_pass => "PASS" | fv_fail => "FAIL" end.
Definition logic_text (l : FormalVerificationLogic) : string := match l with LTL => "LTL" | CTL => "CTL" end.

Definition value_json (v : value) : json :=
  match v with VStr s => JString s | VNum z => JNumber (inject_Z z) | VBool b => JBool b | VInherited => JNull end.

Definition state_json (s : FormalVerificationState) : json :=
  JObject [("id", JString s.1); ("valuation", JObject ((λ p, (p.1, value_json p.2)) <$> s.2))].

Definition counterexample_json (c : Counterexample) : json :=
  JObject [("trace", JArray (state_json <$> cx_trace c)); ("explanation", JString (cx_explanation c))].

Definition formula_json (f : FormulaResult) : json :=
  JObject ([("logic", JString (logic_text (fr_logic f))); ("formula", JString (fr_formula f));
            ("verdict", JString (verdict_text (fr_verdict f)))] ++
           match fr_counterexample f with Some c => [("counterexample", counterexample_json c)] | None => [] end).

Definition nat_json (n : nat) : json := JNumber (inject_Z (Z.of_nat n)).

Definition spec_json (s : SpecResult) : json :=
  JObject [("specPath", JString (sr_specPath s)); ("specSha256", JString (sr_specSha256 s)); ("module", JString (sr_module s));
           ("reachableStateCount", nat_json (sr_reachableStateCount s));
           ("formulae", JArray (formula_json <$> sr_formulae s)); ("verdict", JString (verdict_text (sr_verdict s)))].

Definition summary_json (s : Summary) : json :=
  JObject [("specCount", nat_json (su_specCount s)); ("formulaCount", nat_json (su_formulaCount s));
           ("passCount", nat_json (su_passCount s)); ("failCount", nat_json (su_failCount s));
           ("verdict", JString (verdict_text (su_verdict s)))].

Definition report_json (r : FormalVerificationReport) : json :=
  JObject [("schemaVersion", JString FORMAL_VERIFICATION_REPORT_SCHEMA_VERSION);
           ("generatedAt", JString (fv_generatedAt r)); ("specs", JArray (spec_json <$> fv_specs r));
           ("summary", summary_json (fv_summary r))].

Definition line_feed : string := String NEWLINE EmptyString.

Definition renderFormalVerificationReportJson `{JsonText} (r : FormalVerificationReport) : string :=
  json_stringify (canonicalJson (report_json r)) +:+ line_feed.

Fixpoint trace_lines (i : nat) (trace : list FormalVerificationState) : list string :=
  match trace with
  | [] => []
  | s :: r => ("      [" +:+ pretty i +:+ "] " +:+ stringifyValuation s.2) :: trace_lines (S i) r
  end.

Definition formula_lines (f : FormulaResult) : list string :=
  ("  " +:+ verdict_upper (fr_verdict f) +:+ " [" +:+ logic_text (fr_logic f) +:+ "] " +:+ fr_formula f) ::
  match fr_counterexample f with
  | Some c => ("    counterexample: " +:+ cx_explanation c) :: trace_lines 0 (cx_trace c)
  | None => []
  end.

Definition spec_lines (s : SpecResult) : list string :=
  ("[" +:+ verdict_upper (sr_verdict s) +:+ "] " +:+ sr_specPath s +:+ "  module=" +:+ sr_module s +:+
   "  reachable=" +:+ pretty (sr_reachableStateCount s) +:+ "  sha256=" +:+ sr_specSha256 s) ::
  (sr_formulae s ≫= formula_lines) ++ [""].

(** The headline has an em dash, which is not a character of the model. *)
Definition renderFormalVerificationReportText (em_dash : string) (r : FormalVerificationReport) : string :=
  let s := fv_summary r in
  join line_feed
    ([ "formal-verification " +:+ verdict_upper (su_verdict s) +:+ " " +:+ em_dash +:+ " " +:+ pretty (su_passCount s) +:+
       "/" +:+ pretty (su_formulaCount s) +:+ " pass";
       "  generated at: " +:+ fv_generatedAt r;
       "  specs: " +:+ pretty (su_specCount s);
       "" ] ++ (fv_specs r ≫= spec_lines)).

(** ** The gate *)

Record GateFailure := { gf_specPath : string; gf_formula : string; gf_logic : FormalVerificationLogic }.

(** The failures of [FormalVerificationHardGateError]. *)
Definition gate_failures (r : FormalVerificationReport) : list GateFailure :=
  fv_specs r ≫= λ spec,
    (λ f, {| gf_specPath := sr_specPath spec; gf_formula := fr_formula f; gf_logic := fr_logic f |})
    <$> filter (λ f, fr_verdict f = fv_fail) (sr_formulae spec).

Definition gate_message (r : FormalVerificationReport) : string :=
  let failures := gate_failures r in
  G10_FORMAL_VERIFICATION_PASS +:+ " failed for " +:+ pretty (length failures) +:+ " formula(s): " +:+
  join " | " ((λ f, gf_specPath f +:+ " [" +:+ logic_text (gf_logic f) +:+ "] " +:+ gf_formula f) <$> failures).

(** The error carries the failures and the message. *)
Definition assertFormalVerificationPass (r : FormalVerificationReport) : outcome (list GateFailure * string) unit :=
  guard_throw (bool_decide (su_verdict (fv_summary r) = fv_fail)) (gate_failures r, gate_message r).
