(* ===== verification/FormalClaims.v ===== *)
(** * Formal verification of rule packs: claims

    From the source of a specification to the runs of the system it describes: the
    model checker, the model and the verdicts together, and the release gate. The
    properties follow, with the specifications on which they are tried, and the formulas
    on which a verdict differs from what the formula says. *)

From S2P Require Import Prelude JsString JsList JsValue CanonicalJson HumanReview HarnessCheckpoint.
From S2P Require Import FvSyntax FvModel CtlChecker CtlCorrect LtlTranslation KripkeProof FvTokens FvParser FvParserProof.
From S2P Require Import FormalVerification CounterexampleProof FormalReport.

(** ** The checker on a formula *)

Section formula.
Context (K : KripkeStructure) (enumLiterals : list string) (Hwf : wf_kripke K).

Lemma check_denotes φ S : checkCtl K enumLiterals φ = Some (Ok S) → denotes K enumLiterals S φ.
Proof.
  intros HS. pose proof (return_checkable _ _ _ _ HS) as Hc.
  destruct (checkable_returns K enumLiterals Hwf φ Hc) as (S' & HS' & Hin). rewrite HS in HS'. by injection HS' as <-.
Qed.

(** The checker is never given an operator of linear time. *)
Lemma branching_translated φ : linear φ = true → branching (ltlToCtl φ) = true.
Proof.
  induction φ; cbn; intros H; try done; auto; apply andb_true_iff in H as [Hl Hr]; rewrite andb_true_iff; auto.
Qed.

Lemma branching_checks φ : branching φ = true → checkCtl K enumLiterals φ ≠ Some (Throw ck_untranslated).
Proof.
  induction φ; cbn [branching checkCtl]; intros H; try done.
  { by destruct (atom_set _ _ _). }
  all: try (specialize (IHφ H); destruct (checkCtl K enumLiterals φ) as [[S|e]|]; cbn; [|congruence|done];
            try done; unfold with_set; by case_match).
  all: apply andb_true_iff in H as [Hl Hr]; specialize (IHφ1 Hl); specialize (IHφ2 Hr);
    destruct (checkCtl K enumLiterals φ1) as [[S1|e1]|], (checkCtl K enumLiterals φ2) as [[S2|e2]|]; cbn; try done;
    try congruence; unfold with_set, return_set; repeat case_match; try done; congruence.
Qed.

Lemma ctl_of_branching f : of_logic (sf_logic f) (sf_ast f) = true → branching (ctl_of f) = true.
Proof. unfold ctl_of. destruct (sf_logic f); [apply branching_translated|done]. Qed.

(** A formula holds of a model: at every initial state, on every run from it. *)
Definition holds_initially (f : SpecFormula) : Prop :=
  ∀ id, id ∈ k_initial K →
    match sf_logic f with
    | CTL => sat K enumLiterals (sf_ast f) id
    | LTL => models K enumLiterals id (sf_ast f)
    end.

Context (initial_states : ∀ id, id ∈ k_initial K → id ∈ all_ids K).

(** What a failure of a formula says: its counterexample is a finite run of the model
    from an initial state at which the checked formula does not hold, and neither
    does the formula itself where the translation is exact; if a condition on states
    was to hold always, the last state violates it. *)
Definition failure_shown (f : SpecFormula) (cx : Counterexample) : Prop :=
  trail K (cx_trace cx).*1 ∧
  (∀ id v, (id, v) ∈ cx_trace cx → map_get id (k_states K) = Some v) ∧
  ∃ id, head (cx_trace cx).*1 = Some id ∧ id ∈ k_initial K ∧ ¬ sat K enumLiterals (ctl_of f) id ∧
    (sf_logic f = LTL → exact (sf_ast f) = true → ¬ models K enumLiterals id (sf_ast f)) ∧
    ∀ x, ctl_of f = t_AG x → propositional x = true →
      ∃ id', last (cx_trace cx).*1 = Some id' ∧ ¬ sat K enumLiterals x id'.

(** What the result for a formula says. *)
Record formula_verdict (f : SpecFormula) (r : FormulaResult) : Prop := {
  fo_logic : fr_logic r = sf_logic f;
  fo_text : fr_formula r = sf_source f;
  fo_ctl : sf_logic f = CTL → fr_verdict r = fv_pass ↔ holds_initially f;
  fo_sound : sf_logic f = LTL → positive (sf_ast f) = true → fr_verdict r = fv_pass → holds_initially f;
  fo_exact : sf_logic f = LTL → exact (sf_ast f) = true → fr_verdict r = fv_pass ↔ holds_initially f;
  fo_run : fr_verdict r = fv_fail → ∃ cx, fr_counterexample r = Some cx ∧ failure_shown f cx;
}.

Lemma pass_iff_initial S f :
  denotes K enumLiterals S (ctl_of f) →
  forallb (has S) (k_initial K) = true ↔ ∀ id, id ∈ k_initial K → sat K enumLiterals (ctl_of f) id.
Proof.
  intros HS. rewrite forallb_has. split; intros H id Hid; specialize (H id Hid).
  - by apply HS in H as [_ ?].
  - apply HS. split; [by apply initial_states|done].
Qed.

Lemma failing_run_shown f S cx :
  checkCtl K enumLiterals (ctl_of f) = Some (Ok S) →
  findCounterexample K enumLiterals (ctl_of f) S = Some (Some cx) → failure_shown f cx.
Proof.
  intros HS Hcx. pose proof (check_denotes _ _ HS) as Hin. pose proof (return_checkable _ _ _ _ HS) as Hc.
  destruct (findCounterexample_spec K enumLiterals Hwf initial_states (ctl_of f) S) as (cx' & Hcx' & Hspec).
  rewrite Hcx in Hcx'. injection Hcx' as <-. destruct Hspec as ([Ht Hst (id & Hh & Hi & Hn)] & Hag).
  assert (¬ sat K enumLiterals (ctl_of f) id) as Hviol.
  { intros Hs. apply Hn, Hin. split; [by apply initial_states|done]. }
  split; [done|]. split; [done|]. exists id. split_all; [done..| |].
  - intros El He Hm. apply Hviol. unfold ctl_of. rewrite El.
    apply translation_complete; [done|done|by apply initial_states|done].
  - intros x Ex Hp. apply Hag; [done|done| |done]. rewrite Ex in Hc. exact Hc.
Qed.

Lemma check_formula_spec f :
  ∃ out, check_formula K enumLiterals f = Some out ∧
    match out with
    | Ok r => formula_verdict f r
    | Throw e => of_logic (sf_logic f) (sf_ast f) = true → e ≠ ve_check ck_untranslated
    end.
Proof.
  unfold check_formula. destruct (checkCtl K enumLiterals (ctl_of f)) as [[S|e]|] eqn:E.
  - pose proof (check_denotes _ _ E) as HS. cbn.
    assert (forallb (has S) (k_initial K) = true ↔ ∀ id, id ∈ k_initial K → sat K enumLiterals (ctl_of f) id) as Hiff.
    { by apply pass_iff_initial. }
    destruct (findCounterexample_spec K enumLiterals Hwf initial_states (ctl_of f) S) as (cx & Hcx & Hrun).
    assert (∀ r, fr_verdict r = fv_pass ↔ (forallb (has S) (k_initial K) = true) →
      fr_logic r = sf_logic f → fr_formula r = sf_source f →
      (fr_verdict r = fv_fail → ∃ cx, fr_counterexample r = Some cx ∧ failure_shown f cx) → formula_verdict f r) as Hbuild.
    { intros r Hr Hlog Htext Hfail. rewrite Hiff in Hr. unfold ctl_of in Hr. split; try done; unfold holds_initially.
      - intros El. rewrite El in Hr |- *. exact Hr.
      - intros El Hp Hpass id Hid. rewrite El in Hr |- *. intros π Hπ. eapply translation_sound; [done| |done]. by apply Hr.
      - intros El He. rewrite El in Hr |- *. rewrite Hr. split; intros H id Hid.
        + intros π Hπ. eapply translation_sound; [by apply exact_positive|by apply H|done].
        + apply translation_complete; [done|done|by apply initial_states|by apply H].
    }
    destruct (forallb (has S) (k_initial K)) eqn:Ef.
    + eexists. split; [done|]. by apply Hbuild; [split|..].
    + rewrite Hcx. cbn. eexists. split; [done|]. apply Hbuild; [by split|done|done|]. intros _.
      destruct cx as [c|]; [exists c; split; [done|by eapply failing_run_shown]|]. exfalso. apply not_true_iff_false in Ef. apply Ef, forallb_has. exact Hrun.
  - cbn. eexists. split; [done|]. intros Hl [= ->]. by apply (branching_checks (ctl_of f)); [apply ctl_of_branching|].
  - by apply check_terminates in E.
Qed.
End formula.

(** ** Verification of a specification *)

Lemma collect_spec {E A B} (f : A → option (outcome E B)) l :
  (∀ x, x ∈ l → is_Some (f x)) →
  ∃ out, collect f l = Some out ∧
    match out with
    | Ok rs => Forall2 (λ x r, f x = Some (Ok r)) l rs
    | Throw e => ∃ x, x ∈ l ∧ f x = Some (Throw e)
    end.
Proof.
  induction l as [|x l IH]; intros Hf; cbn; [eexists; split; [done|constructor]|].
  destruct (Hf x) as [[b|e] Hx]; [left| |].
  - rewrite Hx. cbn. destruct IH as (out & -> & Hout); [intros y Hy; apply Hf; by right|].
    cbn. eexists. split; [done|]. destruct out as [rs|e]; cbn; [by constructor|].
    destruct Hout as (y & Hy & He). exists y. split; [by right|done].
  - rewrite Hx. cbn. eexists. split; [done|]. exists x. split; [left|done].
Qed.

Lemma all_pass_spec results : all_pass results = true ↔ ∀ r, r ∈ results → fr_verdict r = fv_pass.
Proof.
  unfold all_pass. rewrite forallb_forall. split; intros H r Hr; specialize (H r);
    rewrite list_elem_of_In, bool_decide_eq_true in *; auto.
Qed.

Lemma represents_initial spec K vs id : represents spec K vs → id ∈ k_initial K → id ∈ all_ids K.
Proof.
  intros HK (v & Hv & ->)%(rp_initial _ _ _ HK). apply map_get_is_Some. exists v.
  apply (rp_state _ _ _ HK). split; [by apply reach_start|done].
Qed.

(** The model, the verdict on every formula and the verdict on all of them. *)
Record verified (spec : ParsedSpec) (r : SpecResult) (K : KripkeStructure) (vs : list valuation) : Prop := {
  vd_initial : initialValuations (ps_variables spec) (ps_inits spec) (collectEnumLiterals spec) = Ok vs;
  vd_built : buildKripke spec = Some (Ok K);
  vd_model : represents spec K vs;
  vd_formulae : Forall2 (formula_verdict K (collectEnumLiterals spec)) (ps_formulae spec) (sr_formulae r);
  vd_verdict : sr_verdict r = fv_pass ↔ ∀ f, f ∈ sr_formulae r → fr_verdict f = fv_pass;
}.

Lemma plain_variables spec : well_parsed spec → Forall plain (ps_variables spec).
Proof. intros [Hv _ _]. eapply Forall_impl; [exact Hv|]. by intros x [? _]. Qed.

Lemma verify_parsed_spec `{Sha256} input spec :
  well_parsed spec →
  ∃ out, verify_parsed input spec = Some out ∧
    match out with
    | Ok r => ∃ K vs, verified spec r K vs
    | Throw e => e ≠ ve_check ck_untranslated
    end.
Proof.
  intros Hw. unfold verify_parsed.
  destruct (initialValuations (ps_variables spec) (ps_inits spec) (collectEnumLiterals spec)) as [vs|e] eqn:Ei.
  2:{ unfold buildKripke. rewrite Ei. cbn. by eexists. }
  destruct (buildKripke_spec spec vs Ei) as ([K|e] & EK & _); rewrite EK; cbn; [|by eexists].
  pose proof (kripke_represents spec vs K (plain_variables spec Hw) Ei EK) as HK.
  assert (∀ f, ∃ out, check_formula K (collectEnumLiterals spec) f = Some out ∧
    match out with
    | Ok r => formula_verdict K (collectEnumLiterals spec) f r
    | Throw e => of_logic (sf_logic f) (sf_ast f) = true → e ≠ ve_check ck_untranslated
    end) as Hf.
  { intros f. apply check_formula_spec; [apply HK|]. intros id. by eapply represents_initial. }
  destruct (collect_spec (check_formula K (collectEnumLiterals spec)) (ps_formulae spec)) as (out & -> & Hout).
  { intros f _. destruct (Hf f) as (out & -> & _). by eexists. }
  cbn. eexists. split; [done|]. destruct out as [rs|e]; cbn.
  - exists K, vs. split; cbn; try done.
    + eapply Forall2_impl; [exact Hout|]. intros f r Hr. destruct (Hf f) as (out & Ho & Hv).
      rewrite Hr in Ho. by injection Ho as <-.
    + rewrite <- all_pass_spec. by destruct (all_pass rs).
  - destruct Hout as (f & Hin & He). destruct (Hf f) as (out & Ho & Hv). rewrite He in Ho. injection Ho as <-.
    apply Hv. pose proof (wp_formulae _ Hw) as Hall. rewrite Forall_forall in Hall. by apply Hall.
Qed.

Lemma verify_source_spec `{Sha256} input :
  ∃ out, verifyFormalVerificationSpec input = Some out ∧
    match out with
    | Ok r => ∃ spec K vs, parseSpec (in_specSource input) = Some (Ok spec) ∧ verified spec r K vs
    | Throw e => e ≠ fe_verify (ve_check ck_untranslated)
    end.
Proof.
  unfold verifyFormalVerificationSpec. destruct (parseSpec_returns (in_specSource input)) as (out & -> & Hp). cbn.
  destruct out as [spec|e]; [|by eexists].
  destruct (verify_parsed_spec input spec (Hp spec eq_refl)) as (out & -> & Hv). cbn. eexists. split; [done|].
  destruct out as [r|e]; [|congruence]. destruct Hv as (K & vs & Hv). by exists spec, K, vs.
Qed.

(** ** The report *)

Lemma count_formula_foldl fs a b c :
  foldl count_formula (a, b, c) fs =
  ((a + length fs)%nat, (b + length (filter (λ f, fr_verdict f = fv_pass) fs))%nat,
   (c + length (filter (λ f, fr_verdict f = fv_fail) fs))%nat).
Proof.
  revert a b c; induction fs as [|f fs IH]; intros a b c; [by rewrite !Nat.add_0_r|]. cbn [foldl count_formula].
  rewrite !filter_cons. destruct (decide (fr_verdict f = fv_pass)) as [E|E].
  - rewrite bool_decide_eq_true_2, decide_False by congruence. rewrite IH, !pair_eq. cbn. split_all; lia.
  - rewrite bool_decide_eq_false_2, decide_True by (done || by destruct (fr_verdict f)). rewrite IH, !pair_eq. cbn. split_all; lia.
Qed.

Lemma count_formulas_spec specs :
  count_formulas specs =
  let fs := specs ≫= sr_formulae in
  (length fs, length (filter (λ f, fr_verdict f = fv_pass) fs), length (filter (λ f, fr_verdict f = fv_fail) fs)).
Proof.
  unfold count_formulas. cbv zeta.
  assert (∀ a b c, foldl (λ c spec, foldl count_formula c (sr_formulae spec)) (a, b, c) specs =
    ((a + length (specs ≫= sr_formulae))%nat, (b + length (filter (λ f, fr_verdict f = fv_pass) (specs ≫= sr_formulae)))%nat,
     (c + length (filter (λ f, fr_verdict f = fv_fail) (specs ≫= sr_formulae)))%nat)) as H; [|by rewrite H].
  induction specs as [|s specs IH]; intros a b c; [by rewrite !Nat.add_0_r|]. cbn [foldl].
  rewrite count_formula_foldl, IH. cbn [mbind list_bind]. rewrite !filter_app, !length_app, !pair_eq. split_all; lia.
Qed.

Lemma gate_failures_length r :
  length (gate_failures r) = length (filter (λ f, fr_verdict f = fv_fail) (fv_specs r ≫= sr_formulae)).
Proof.
  unfold gate_failures. induction (fv_specs r) as [|s specs IH]; [done|]. cbn [mbind list_bind].
  by rewrite filter_app, !length_app, length_fmap, IH.
Qed.

Lemma passing_failing (fs : list FormulaResult) :
  (length (filter (λ f, fr_verdict f = fv_pass) fs) + length (filter (λ f, fr_verdict f = fv_fail) fs))%nat = length fs.
Proof.
  induction fs as [|f fs IH]; [done|]. rewrite !filter_cons.
  destruct (decide (fr_verdict f = fv_pass)) as [E|E].
  - rewrite decide_False by congruence. cbn. lia.
  - rewrite decide_True by by destruct (fr_verdict f). cbn. lia.
Qed.

Lemma none_failing (fs : list FormulaResult) :
  length (filter (λ f, fr_verdict f = fv_fail) fs) = 0%nat ↔ ∀ f, f ∈ fs → fr_verdict f = fv_pass.
Proof.
  rewrite length_zero_iff_nil. split.
  - intros E f Hf. destruct (fr_verdict f) eqn:Ev; [done|]. exfalso. apply (not_elem_of_nil f).
    rewrite <- E. by apply list_elem_of_filter.
  - intros Hall. apply elem_of_nil_inv. intros f [Ev Hf]%list_elem_of_filter. by rewrite (Hall f Hf) in Ev.
Qed.

(** What the summary of a report counts. *)
Lemma report_summary `{Sha256} `{DateParse} `{LocaleCompare} specs generatedAt r :
  buildFormalVerificationReport specs generatedAt = Some (Ok r) →
  let formulas := fv_specs r ≫= sr_formulae in
  su_formulaCount (fv_summary r) = length formulas ∧
  su_passCount (fv_summary r) = length (filter (λ f, fr_verdict f = fv_pass) formulas) ∧
  su_verdict (fv_summary r) = verdict_of (length (filter (λ f, fr_verdict f = fv_fail) formulas) =? 0)%nat ∧
  su_failCount (fv_summary r) = length (filter (λ f, fr_verdict f = fv_fail) formulas) ∧
  Forall2 (λ i s, verifyFormalVerificationSpec i = Some (Ok s)) (js_sort (cmp_on in_specPath localeCompare) specs) (fv_specs r).
Proof.
  unfold buildFormalVerificationReport. case_match; [done|].
  destruct (collect_spec verifyFormalVerificationSpec (js_sort (cmp_on in_specPath localeCompare) specs)) as (out & -> & Hout).
  { intros i _. destruct (verify_source_spec i) as (out & -> & _). by eexists. }
  destruct out as [results|e]; cbn; [|done]. rewrite count_formulas_spec. intros [= <-]. cbn. by split_all.
Qed.

(** ** Specifications to try *)

(** A session that starts and ends. *)
Definition session_source (formula : string) : string :=
  "MODULE main VAR s : {open, closed}; ASSIGN init(s) := open; next(s) := case s = open : closed; TRUE : s; esac; "
  +:+ formula.

(** A session that may stay open for ever. *)
Definition idle_source (formula : string) : string :=
  "MODULE main VAR s : {open, closed}; ASSIGN init(s) := open; next(s) := case s = open : {open, closed}; TRUE : s; esac; "
  +:+ formula.

Definition input_of (source : string) : VerifyFormalSpecInput := {| in_specPath := "spec.smv"; in_specSource := source |}.

(** The parsed specification, when there is one. *)
Definition parsed_or (d : ParsedSpec) (source : string) : ParsedSpec :=
  match parseSpec source with Some (Ok spec) => spec | _ => d end.
Definition no_spec : ParsedSpec :=
  {| ps_module := ""; ps_variables := []; ps_inits := []; ps_nexts := []; ps_formulae := [] |}.

Definition open_state : string := stateId [("s", VStr "open")].
Definition closed_state : string := stateId [("s", VStr "closed")].

Definition idle_kripke : KripkeStructure :=
  {| k_states := [(open_state, [("s", VStr "open")]); (closed_state, [("s", VStr "closed")])];
     k_initial := [open_state];
     k_transitions := [(open_state, [open_state; closed_state]); (closed_state, [closed_state])] |}.

Definition session_verdicts (source : string) : option (list FormalVerificationVerdict) :=
  match @verifyFormalVerificationSpec toy_sha256 (input_of source) with
  | Some (Ok r) => Some (fr_verdict <$> sr_formulae r)
  | _ => None
  end.

Example always_closes : session_verdicts (session_source "LTLSPEC F (s = closed) CTLSPEC AG (s = open -> AX (s = closed))") = Some [fv_pass; fv_pass].
Proof. vm_compute. reflexivity. Qed.

Example may_stay_open : session_verdicts (idle_source "LTLSPEC F (s = closed) CTLSPEC EF (s = closed)") = Some [fv_fail; fv_pass].
Proof. vm_compute. reflexivity. Qed.

(** ** Claims *)

(** C7. The model checker is correct: on a total transition system it always ends, it
    succeeds exactly when no operator of linear time is left and every atom can be
    evaluated at every state, and the set it then computes is the set of the states
    at which the CTL formula holds, with path quantifiers over infinite paths. *)
Theorem model_checker_correct (K : KripkeStructure) (enumLiterals : list string) (φ : TemporalAst) (H : wf_kripke K) :
  checkCtl K enumLiterals φ ≠ None ∧
  ((∃ S, checkCtl K enumLiterals φ = Some (Ok S)) ↔ checkable K enumLiterals φ) ∧
  ∀ S, checkCtl K enumLiterals φ = Some (Ok S) → ∀ id, id ∈ S ↔ id ∈ all_ids K ∧ sat K enumLiterals φ id.
Proof.
  split; [by apply check_terminates|]. split; [|by intros S HS; apply check_denotes].
  split; [by intros [S HS]; eapply return_checkable|]. intros Hc.
  destruct (checkable_returns K enumLiterals H φ Hc) as (S & HS & _). by exists S.
Qed.

Lemma idle_wf : wf_kripke idle_kripke.
Proof.
  assert (succs idle_kripke open_state = [open_state; closed_state]) as Ho by done.
  assert (succs idle_kripke closed_state = [closed_state]) as Hc by done.
  split.
  - refine (bool_decide_eq_true_1 _ _). by vm_compute.
  - refine (bool_decide_eq_true_1 _ _). by vm_compute.
  - intros id [->|[->|[]%elem_of_nil]%elem_of_cons]%elem_of_cons; by rewrite ?Ho, ?Hc.
  - intros id t. unfold succs at 1.
    destruct (map_get id (k_transitions idle_kripke)) as [l|] eqn:E; [|by intros []%elem_of_nil].
    apply map_get_elem in E. cbn in E |- *.
    apply elem_of_cons in E as [[= -> ->]|[[= -> ->]|[]%elem_of_nil]%elem_of_cons]; set_solver.
Qed.

Definition closes : TemporalAst := t_EF (t_atom (e_binop op_eq (e_ident "s") (e_ident "closed"))).

Lemma model_checker_correct_witness :
  wf_kripke idle_kripke ∧
  (∃ S, checkCtl idle_kripke ["open"; "closed"] closes = Some (Ok S) ∧ open_state ∈ S) ∧
  sat idle_kripke ["open"; "closed"] closes open_state.
Proof.
  assert (∃ S, checkCtl idle_kripke ["open"; "closed"] closes = Some (Ok S) ∧ open_state ∈ S) as (S & HS & Hin).
  { assert (match checkCtl idle_kripke ["open"; "closed"] closes with Some (Ok found) => has found open_state | _ => false end = true)
      as Hb by (vm_compute; reflexivity).
    destruct (checkCtl idle_kripke ["open"; "closed"] closes) as [[found|e]|]; [|discriminate Hb..].
    exists found. split; [reflexivity|]. by apply has_spec. }
  split; [exact idle_wf|]. split; [exists S; split; [exact HS|exact Hin]|].
  destruct (model_checker_correct idle_kripke ["open"; "closed"] closes idle_wf) as (_ & _ & Hmeaning).
  exact (proj2 (proj1 (Hmeaning S HS open_state) Hin)).
Defined.

(** C8. The model is the transition system of the specification: when the names have no
    bar, the breadth-first construction ends; the structure it returns has exactly
    the valuations a run can reach as its states, told apart by their identifiers,
    exactly the initial and the next ones as initial states and successors, a loop
    where there is no next one, and is total; it refuses only when more states than
    the limit are reachable, or the next values of a reachable one cannot be
    evaluated. *)
Theorem model_is_the_transition_system (spec : ParsedSpec) (vs : list valuation)
  (Hp : Forall plain (ps_variables spec))
  (Hi : initialValuations (ps_variables spec) (ps_inits spec) (collectEnumLiterals spec) = Ok vs) :
  ∃ out, buildKripke spec = Some out ∧
    match out with Ok K => represents spec K vs | Throw e => refused (spec_successors spec) vs e end.
Proof.
  destruct (buildKripke_spec spec vs Hi) as (out & HK & Hout). exists out. split; [done|].
  destruct out as [K|e]; [by apply kripke_represents|done].
Qed.

Definition idle_spec : ParsedSpec := parsed_or no_spec (idle_source "LTLSPEC F (s = closed)").

Lemma model_is_the_transition_system_witness :
  Forall plain (ps_variables idle_spec) ∧
  initialValuations (ps_variables idle_spec) (ps_inits idle_spec) (collectEnumLiterals idle_spec) =
    Ok [[("s", VStr "open")]] ∧
  buildKripke idle_spec = Some (Ok idle_kripke) ∧ represents idle_spec idle_kripke [[("s", VStr "open")]].
Proof.
  assert (Forall plain (ps_variables idle_spec)) as Hp.
  { vm_compute. repeat constructor. }
  assert (initialValuations (ps_variables idle_spec) (ps_inits idle_spec) (collectEnumLiterals idle_spec) =
    Ok [[("s", VStr "open")]]) as Hi by (vm_compute; reflexivity).
  assert (buildKripke idle_spec = Some (Ok idle_kripke)) as HK by (vm_compute; reflexivity).
  split; [exact Hp|]. split; [exact Hi|]. split; [exact HK|].
  destruct (model_is_the_transition_system idle_spec _ Hp Hi) as (out & HK' & Hout).
  rewrite HK in HK'. injection HK' as <-. exact Hout.
Defined.

(** C6. What a verdict means, from the source on: when the verification of a source
    returns a result, the source was parsed, the model is the transition system of
    the specification, and for every formula in turn: a CTL formula passes exactly
    when it holds at every initial state; a linear-time formula without temporal
    operators under a negation passes only when every run from every initial state
    satisfies it, and exactly then for the formulas translated exactly; a formula
    that fails has a counterexample, a finite run of the model from an initial state
    at which the checked CTL formula does not hold (for linear time that is the
    translation, which a formula such as F (G p) may fail although every run satisfies
    it; where the translation is exact the formula itself does not hold there), and
    whose last state violates a condition that was to hold always; and the result
    passes exactly when all do. *)
Theorem verified_source_means `{Sha256} (input : VerifyFormalSpecInput) (r : SpecResult)
  (Hr : verifyFormalVerificationSpec input = Some (Ok r)) :
  ∃ spec K vs, parseSpec (in_specSource input) = Some (Ok spec) ∧ verified spec r K vs.
Proof.
  destruct (verify_source_spec input) as (out & Ho & Hv). rewrite Hr in Ho. by injection Ho as <-.
Qed.

Lemma verified_source_means_witness :
  ∃ r, @verifyFormalVerificationSpec toy_sha256 (input_of (idle_source "CTLSPEC EF (s = closed)")) = Some (Ok r) ∧
    sr_verdict r = fv_pass ∧
    ∃ spec K vs, parseSpec (idle_source "CTLSPEC EF (s = closed)") = Some (Ok spec) ∧ verified spec r K vs.
Proof.
  destruct (@verifyFormalVerificationSpec toy_sha256 (input_of (idle_source "CTLSPEC EF (s = closed)")))
    as [[r|e]|] eqn:E; [|exfalso; revert E; vm_compute; discriminate..].
  exists r. split; [reflexivity|]. split.
  - apply (f_equal (λ o, match o with Some (Ok r) => sr_verdict r | _ => fv_fail end)) in E.
    transitivity (match @verifyFormalVerificationSpec toy_sha256 (input_of (idle_source "CTLSPEC EF (s = closed)"))
      with Some (Ok r) => sr_verdict r | _ => fv_fail end); [symmetry; exact E|vm_compute; reflexivity].
  - exact (@verified_source_means toy_sha256 (input_of (idle_source "CTLSPEC EF (s = closed)")) r E).
Defined.

(** C9. Verification ends: the tokenizer, the parser, the loops over the domains, the
    construction of the model, the fixed points and the search for a counterexample
    do, for every specification of a report; an accepted source declares plain names,
    domains that are neither empty nor wide, and formulas with the operators of their
    logic, so that the model checker is never handed an operator it does not know. The
    claim is about sources whose integers stay below 2^53: at a numeral or a sum
    beyond, the model ends with an error of its own ([inexact_integer],
    [ev_inexact]), and the loop over such a domain does not end
    ([domain_loop_stuck]). *)
Theorem verification_returns `{Sha256} `{DateParse} `{LocaleCompare} (input : VerifyFormalSpecInput)
    (specs : list VerifyFormalSpecInput) (generatedAt : string) :
  (∃ out, parseSpec (in_specSource input) = Some out ∧ ∀ spec, out = Ok spec → well_parsed spec ∧
     ∀ name min max, v_range name min max ∈ ps_variables spec →
       domain_loop DOMAIN_FUEL min max = Some (seqZ min (max - min + 1))) ∧
  (∃ out, verifyFormalVerificationSpec input = Some out ∧ out ≠ Throw (fe_verify (ve_check ck_untranslated))) ∧
  ∃ out, buildFormalVerificationReport specs generatedAt = Some out.
Proof.
  assert (∀ i, ∃ out, verifyFormalVerificationSpec i = Some out ∧ out ≠ Throw (fe_verify (ve_check ck_untranslated))) as Hv.
  { intros i. destruct (verify_source_spec i) as (out & -> & Hout). exists out. split; [done|].
    destruct out as [r|e]; [done|congruence]. }
  split.
  { destruct (parseSpec_returns (in_specSource input)) as (out & -> & Hp). exists out. split; [done|].
    intros spec ->. specialize (Hp spec eq_refl). split; [done|]. intros name min max Hx.
    pose proof (wp_variables _ Hp) as Hall. rewrite Forall_forall in Hall. destruct (Hall _ Hx) as (_ & Hw & Hmin & Hmax).
    apply domain_loop_exact; [lia|done|]. unfold DOMAIN_FUEL. lia. }
  split; [apply Hv|].
  unfold buildFormalVerificationReport. case_match; [by eexists|].
  destruct (collect_spec verifyFormalVerificationSpec (js_sort (cmp_on in_specPath localeCompare) specs)) as (out & -> & _).
  { intros i _. destruct (Hv i) as (out & -> & _). by eexists. }
  by eexists.
Qed.

(** C10. A counterexample is a failing run: for a formula the checker evaluated, there is
    none exactly when the formula holds at every initial state; otherwise its states
    are states of the model that follow one another, it starts at an initial state
    at which the formula does not hold, and for a formula that is always to hold, of
    a condition on states, the last state violates the condition. *)
Theorem counterexample_is_a_failing_run (K : KripkeStructure) (enumLiterals : list string) (φ : TemporalAst)
    (S : gset string) (H : wf_kripke K) (Hinit : ∀ id, id ∈ k_initial K → id ∈ all_ids K)
    (HS : checkCtl K enumLiterals φ = Some (Ok S)) :
  ∃ cx, findCounterexample K enumLiterals φ S = Some cx ∧
    (cx = None ↔ ∀ id, id ∈ k_initial K → sat K enumLiterals φ id) ∧
    ∀ c, cx = Some c →
      trail K (cx_trace c).*1 ∧
      (∀ id v, (id, v) ∈ cx_trace c → map_get id (k_states K) = Some v) ∧
      (∃ id, head (cx_trace c).*1 = Some id ∧ id ∈ k_initial K ∧ ¬ sat K enumLiterals φ id) ∧
      ∀ x, φ = t_AG x → propositional x = true →
        ∃ id, last (cx_trace c).*1 = Some id ∧ ¬ sat K enumLiterals x id.
Proof.
  pose proof (check_denotes K enumLiterals H φ S HS) as Hin. pose proof (return_checkable _ _ _ _ HS) as Hc.
  destruct (findCounterexample_spec K enumLiterals H Hinit φ S) as (cx & Hcx & Hspec). exists cx. split; [done|].
  destruct cx as [c|].
  - destruct Hspec as ([Ht Hst (id & Hh & Hi & Hn)] & Hag). assert (¬ sat K enumLiterals φ id) as Hviol.
    { intros Hs. apply Hn, Hin. split; [by apply Hinit|done]. }
    split; [split; [done|intros Hall; by destruct Hviol; apply Hall]|]. intros ? [= <-].
    split_all; [done|done|by exists id|]. intros x -> Hp. by apply Hag.
  - split; [|done]. split; [|done]. intros _ id Hid. by apply Hin, Hspec.
Qed.

Definition stays_open : TemporalAst := t_AG (t_atom (e_binop op_eq (e_ident "s") (e_ident "open"))).

Lemma counterexample_is_a_failing_run_witness :
  wf_kripke idle_kripke ∧
  ∃ S, checkCtl idle_kripke ["open"; "closed"] stays_open = Some (Ok S) ∧
    (cx_trace <$> default None (findCounterexample idle_kripke ["open"; "closed"] stays_open S)) =
      Some [(open_state, [("s", VStr "open")]); (closed_state, [("s", VStr "closed")])] ∧
    ¬ sat idle_kripke ["open"; "closed"] (t_atom (e_binop op_eq (e_ident "s") (e_ident "open"))) closed_state.
Proof.
  assert (∀ id, id ∈ k_initial idle_kripke → id ∈ all_ids idle_kripke) as Hinit.
  { intros id ->%list_elem_of_singleton. left. }
  split; [exact idle_wf|].
  assert (match checkCtl idle_kripke ["open"; "closed"] stays_open with
    | Some (Ok found) => cx_trace <$> default None (findCounterexample idle_kripke ["open"; "closed"] stays_open found)
    | _ => None end = Some [(open_state, [("s", VStr "open")]); (closed_state, [("s", VStr "closed")])])
    as Hb by (vm_compute; reflexivity).
  destruct (checkCtl idle_kripke ["open"; "closed"] stays_open) as [[found|e]|] eqn:E; [|discriminate Hb..].
  exists found. split; [reflexivity|]. split; [exact Hb|].
  destruct (counterexample_is_a_failing_run idle_kripke ["open"; "closed"] stays_open found idle_wf Hinit E)
    as (cx & Hcx & _ & Hrun).
  rewrite Hcx in Hb. destruct cx as [c|]; [|discriminate Hb]. injection Hb as Hb.
  destruct (Hrun c eq_refl) as (_ & _ & _ & Hag). rewrite Hb in Hag.
  destruct (Hag _ eq_refl eq_refl) as (id & Hl & Hn). injection Hl as <-. exact Hn.
Defined.

(** The release gate: a report has the results of its specifications in the order
    of their paths and counts the formulas, of which each passes or fails; the gate
    is passed exactly when every formula of every specification passes, and otherwise
    it throws the formulas that fail, of which there is one. *)
Theorem release_gate_passes_iff `{Sha256} `{DateParse} `{LocaleCompare}
    (specs : list VerifyFormalSpecInput) (generatedAt : string) (r : FormalVerificationReport)
    (Hr : buildFormalVerificationReport specs generatedAt = Some (Ok r)) :
  let formulas := fv_specs r ≫= sr_formulae in
  Forall2 (λ i s, verifyFormalVerificationSpec i = Some (Ok s)) (js_sort (cmp_on in_specPath localeCompare) specs) (fv_specs r) ∧
  su_formulaCount (fv_summary r) = length formulas ∧
  (su_passCount (fv_summary r) + su_failCount (fv_summary r))%nat = length formulas ∧
  (assertFormalVerificationPass r = Ok () ↔ ∀ f, f ∈ formulas → fr_verdict f = fv_pass) ∧
  (assertFormalVerificationPass r ≠ Ok () →
    assertFormalVerificationPass r = Throw (gate_failures r, gate_message r) ∧ gate_failures r ≠ []).
Proof.
  destruct (report_summary specs generatedAt r Hr) as (Hcount & Hpass & Hverdict & Hfail & Hspecs). cbv zeta in *.
  rewrite Hpass, Hfail, passing_failing. split; [done|]. split; [done|]. split; [done|].
  unfold assertFormalVerificationPass. rewrite Hverdict, <- none_failing. pose proof (gate_failures_length r) as Hlen.
  destruct (length (filter (λ f, fr_verdict f = fv_fail) (fv_specs r ≫= sr_formulae))) as [|n]; cbn.
  - split; [done|]. by intros [].
  - split; [done|]. intros _. split; [done|]. intros E. by rewrite E in Hlen.
Qed.

Section gate_example.
#[local] Existing Instance toy_sha256.
#[local] Existing Instance any_date.
#[local] Existing Instance code_unit_collation.

Definition two_specs : list VerifyFormalSpecInput :=
  [{| in_specPath := "b.smv"; in_specSource := session_source "LTLSPEC F (s = closed)" |};
   {| in_specPath := "a.smv"; in_specSource := idle_source "LTLSPEC F (s = closed)" |}].

Lemma release_gate_passes_iff_witness :
  ∃ r, buildFormalVerificationReport two_specs "2026-01-01T00:00:00Z" = Some (Ok r) ∧
    gate_failures r = [{| gf_specPath := "a.smv"; gf_formula := "F (s = closed)"; gf_logic := LTL |}] ∧
    assertFormalVerificationPass r ≠ Ok () ∧
    (su_passCount (fv_summary r) + su_failCount (fv_summary r))%nat = length (fv_specs r ≫= sr_formulae).
Proof.
  assert (match buildFormalVerificationReport two_specs "2026-01-01T00:00:00Z" with
    | Some (Ok r) => (gate_failures r, match assertFormalVerificationPass r with Ok _ => true | Throw _ => false end)
    | _ => ([], true) end =
    ([{| gf_specPath := "a.smv"; gf_formula := "F (s = closed)"; gf_logic := LTL |}], false)) as Hb by (vm_compute; reflexivity).
  destruct (buildFormalVerificationReport two_specs "2026-01-01T00:00:00Z") as [[r|e]|] eqn:E; [|discriminate Hb..].
  injection Hb as Hf Ha. exists r. split; [reflexivity|]. split; [exact Hf|]. split.
  - intros Hp. rewrite Hp in Ha. discriminate Ha.
  - exact (proj1 (proj2 (proj2 (release_gate_passes_iff two_specs "2026-01-01T00:00:00Z" r E)))).
Defined.
End gate_example.

(** ** Where a verdict is not the meaning of the formula *)

Definition closed_atom : TemporalAst := t_atom (e_binop op_eq (e_ident "s") (e_ident "closed")).

Lemma idle_succs_open : succs idle_kripke open_state = [open_state; closed_state].
Proof. done. Qed.
Lemma idle_succs_closed : succs idle_kripke closed_state = [closed_state].
Proof. done. Qed.

(** The session that may close passes the formula that it never does: the
    negation of a formula that is to hold on some run is translated as if the
    formula were to hold on every run. *)
Lemma negated_eventuality_passes :
  session_verdicts (idle_source "LTLSPEC !(F (s = closed))") = Some [fv_pass] ∧
  buildKripke (parsed_or no_spec (idle_source "LTLSPEC !(F (s = closed))")) = Some (Ok idle_kripke) ∧
  ∃ π, path idle_kripke open_state π ∧ ¬ holds_on idle_kripke ["open"; "closed"] (t_not (t_F closed_atom)) π.
Proof.
  split; [by vm_compute|]. split; [by vm_compute|].
  exists (λ i, match i with O => open_state | S _ => closed_state end). split.
  - split; [done|]. intros [|i]; [rewrite idle_succs_open; right; left|rewrite idle_succs_closed; left].
  - cbn [holds_on]. intros Hn. apply Hn. exists 1%nat. unfold holds_atom, suffix. cbn [Nat.add].
    exists [("s", VStr "closed")]. split; by vm_compute.
Qed.

(** Without an initial state every formula passes, even one that nothing satisfies:
    the value [init] gives is outside the domain, and the source is accepted. *)
Definition no_initial_source : string :=
  "MODULE main VAR s : {open, closed}; ASSIGN init(s) := 7; LTLSPEC G FALSE".

Lemma no_initial_state_passes :
  ∃ r, @verifyFormalVerificationSpec toy_sha256 (input_of no_initial_source) = Some (Ok r) ∧
    sr_verdict r = fv_pass ∧ sr_reachableStateCount r = 0%nat.
Proof.
  assert (match @verifyFormalVerificationSpec toy_sha256 (input_of no_initial_source) with
    | Some (Ok r) => Some (sr_verdict r, sr_reachableStateCount r) | _ => None end = Some (fv_pass, 0%nat)) as Hb
    by (vm_compute; reflexivity).
  destruct (@verifyFormalVerificationSpec toy_sha256 (input_of no_initial_source)) as [[r|e]|]; [|discriminate Hb..].
  exists r. injection Hb as Hv Hn. done.
Qed.

(** The value of a boolean without an [init] is the name of a truth value, which
    [!] in an expression does not take, and which differs from the value itself. *)
Definition toggle_source : string :=
  "MODULE main VAR b : boolean; s : {open}; ASSIGN init(s) := open; next(b) := !b; CTLSPEC EF b".

Lemma uninitialised_boolean_is_not_negated :
  @verifyFormalVerificationSpec toy_sha256 (input_of toggle_source) =
    Some (Throw (fe_verify (ve_model (me_evaluation ev_not_applied)))).
Proof. by vm_compute. Qed.

(** An atom that starts with a parenthesis is refused. *)
Lemma atom_in_parentheses_is_refused :
  parseSpec "MODULE main VAR n : 0..3; ASSIGN init(n) := 0; LTLSPEC G ((n + 1) = 1)" =
  Some (Throw (parse_error 1 67 ("expected " +:+ quoted ")" +:+ ", got punct(" +:+ quoted "=" +:+ ")"))).
Proof. by vm_compute. Qed.

(** The fixture that is to fail does so in linear time as well: its session may stay
    in its second state for ever. *)
Definition fixture_source : string :=
  "MODULE main VAR state : { ready, running, done }; ASSIGN init(state) := ready; next(state) := case "
  +:+ "state = ready : running; state = running : { running, done }; state = done : done; TRUE : state; esac; "
  +:+ "LTLSPEC G ( state = ready -> F ( state = done ) )".

Lemma fixture_fails_in_linear_time :
  ∃ spec r K vs f, parseSpec fixture_source = Some (Ok spec) ∧ verified spec r K vs ∧ ps_formulae spec = [f] ∧
    ¬ holds_initially K (collectEnumLiterals spec) f.
Proof.
  assert (match @verifyFormalVerificationSpec toy_sha256 (input_of fixture_source) with
    | Some (Ok r) => Some (fr_verdict <$> sr_formulae r) | _ => None end = Some [fv_fail]) as Hb by (vm_compute; reflexivity).
  destruct (@verify_source_spec toy_sha256 (input_of fixture_source)) as (out & E & Hout). rewrite E in Hb.
  destruct out as [r|e]; [|discriminate Hb]. injection Hb as Hb. destruct Hout as (spec & K & vs & Hp & Hv).
  assert (∃ f, parseSpec fixture_source = Some (Ok spec) → ps_formulae spec = [f] ∧ sf_logic f = LTL ∧ exact (sf_ast f) = true) as [f Hf].
  { cbn [in_specSource input_of] in Hp. revert Hp. vm_compute. intros [= <-]. eexists. intros _. by split_all. }
  destruct (Hf Hp) as (Ef & Hlog & Hex). exists spec, r, K, vs, f.
  split; [exact Hp|]. split; [exact Hv|]. split; [exact Ef|]. intros Hh.
  pose proof (vd_formulae _ _ _ _ Hv) as Hall. rewrite Ef in Hall. apply Forall2_cons_inv_l in Hall as (x & l & Hx & _ & El).
  rewrite El in Hb. apply (fo_exact _ _ _ _ Hx Hlog Hex) in Hh.
  rewrite fmap_cons, Hh in Hb. discriminate Hb.
Qed.

(** Every run of this specification satisfies its formula in the end, and the
    verdict is a failure: [F G] is not the same on runs and on states. *)
Definition settling_source : string :=
  "MODULE main VAR s : {a, b, c}; ASSIGN init(s) := a; next(s) := case s = a : {a, b}; s = b : c; TRUE : s; esac; "
  +:+ "LTLSPEC F (G (s != b))".

Definition at_a : string := stateId [("s", VStr "a")].
Definition at_b : string := stateId [("s", VStr "b")].
Definition at_c : string := stateId [("s", VStr "c")].

Definition settling_kripke : KripkeStructure :=
  {| k_states := [(at_a, [("s", VStr "a")]); (at_b, [("s", VStr "b")]); (at_c, [("s", VStr "c")])];
     k_initial := [at_a];
     k_transitions := [(at_a, [at_a; at_b]); (at_b, [at_c]); (at_c, [at_c])] |}.

Definition not_b : TemporalAst := t_atom (e_binop op_ne (e_ident "s") (e_ident "b")).

Lemma settling_not_b id : id = at_a ∨ id = at_c → holds_on settling_kripke ["a"; "b"; "c"] not_b (λ _, id).
Proof. intros [->| ->]; [exists [("s", VStr "a")]|exists [("s", VStr "c")]]; split; by vm_compute. Qed.

Lemma settling_next π i : path settling_kripke at_a π →
  (π i = at_a → π (S i) = at_a ∨ π (S i) = at_b) ∧ (π i = at_b → π (S i) = at_c) ∧ (π i = at_c → π (S i) = at_c).
Proof.
  intros [_ Hs]. specialize (Hs i).
  assert (succs settling_kripke at_a = [at_a; at_b]) as Ha by done.
  assert (succs settling_kripke at_b = [at_c]) as Hb by done.
  assert (succs settling_kripke at_c = [at_c]) as Hc by done.
  split_all; intros E; rewrite E in Hs; rewrite ?Ha, ?Hb, ?Hc in Hs.
  - apply elem_of_cons in Hs as [Hs|Hs%list_elem_of_singleton]; auto.
  - by apply list_elem_of_singleton in Hs.
  - by apply list_elem_of_singleton in Hs.
Qed.

Lemma eventually_always_is_refused :
  session_verdicts settling_source = Some [fv_fail] ∧
  buildKripke (parsed_or no_spec settling_source) = Some (Ok settling_kripke) ∧
  ∀ π, path settling_kripke at_a π → ¬ ¬ holds_on settling_kripke ["a"; "b"; "c"] (t_F (t_G not_b)) π.
Proof.
  split; [by vm_compute|]. split; [by vm_compute|]. intros π Hπ Hn.
  assert (∀ i, (∀ j, π (i + j)%nat = at_a ∨ π (i + j)%nat = at_c) → False) as Hsettle.
  { intros i Hi. apply Hn. exists i. intros j. apply (settling_not_b (suffix j (suffix i π) 0%nat)).
    unfold suffix. rewrite Nat.add_0_r. apply Hi. }
  assert (∀ i, π i = at_c → False) as Hc.
  { intros i Hi. apply (Hsettle i). intros j. right. induction j as [|j IH]; [by rewrite Nat.add_0_r|].
    rewrite Nat.add_succ_r. by apply settling_next. }
  apply (Hsettle 0%nat). intros j. left. induction j as [|j IH]; [apply Hπ|]. cbn [Nat.add] in *.
  destruct (settling_next π j Hπ) as [Ha _]. destruct (Ha IH) as [E|E]; [done|]. exfalso. apply (Hc (S (S j))).
  destruct (settling_next π (S j) Hπ) as (_ & Hb & _). by apply Hb.
Qed.
