(* ===== verification/CaseMerger.v ===== *)
(** * Case merger of the agent harness

    [packages/agentic-harness/src/case-merger.ts]: the merge of the lists two
    generation passes produced for the same job, with its report.

    Of a test case the fields the merger reads are kept; the others are values it
    copies. A signature is the canonical JSON value whose text the code compares. *)

From S2P Require Import Prelude JsString NodePath JsList JsValue CanonicalJson Contracts.
From S2P Require Import ArtifactFiles.

(** ** Data *)

Record GeneratedTestCaseQualitySignals := {
  qs_coveredFieldIds : list string;
  qs_coveredActionIds : list string;
  qs_coveredValidationIds : list string;
  qs_coveredNavigationIds : list string;
  qs_coveredRequirementIds : option (list string);
  qs_others : json;
}.

Record GeneratedTestCase := {
  tc_id : string;
  tc_technique : string;
  tc_figmaTraceRefs : list string;
  tc_qualitySignals : GeneratedTestCaseQualitySignals;
  tc_others : json;
}.

Record GeneratedTestCaseList := { gl_schemaVersion : string; gl_jobId : string; gl_testCases : list GeneratedTestCase }.

Inductive CaseMergerProvenance : Type := pv_runA | pv_runB | pv_both.
Inductive CaseMergerConflictResolution : Type := no_conflict | prefer_unrepaired | positive_bias_run_a.

#[export] Instance provenance_eq_dec : EqDecision CaseMergerProvenance.
Proof. solve_decision. Defined.
#[export] Instance resolution_eq_dec : EqDecision CaseMergerConflictResolution.
Proof. solve_decision. Defined.

Record CaseMergerReportEntry := {
  me_testCaseId : string;
  me_provenance : CaseMergerProvenance;
  me_signature : json;
  me_technique : string;
  me_screenId : string;
  me_coveredFieldIds : list string;
  me_coveredActionIds : list string;
  me_conflictResolution : CaseMergerConflictResolution;
  me_droppedTestCaseId : option string;
  me_qualitySignalsCoverageMerged : bool;
}.

Record CaseMergerTotals := {
  mt_runACount : nat;
  mt_runBCount : nat;
  mt_mergedCount : nat;
  mt_onlyInRunA : nat;
  mt_onlyInRunB : nat;
  mt_inBoth : nat;
  mt_conflictsResolvedByRepair : nat;
  mt_conflictsResolvedByPositiveBias : nat;
}.

Record CaseMergerReport := {
  mr_jobId : string;
  mr_generatedAt : string;
  mr_totals : CaseMergerTotals;
  mr_entries : list CaseMergerReportEntry;
}.

(** ** Signatures *)

Definition NO_SCREEN_SENTINEL : string := "__no_screen__".

Definition sortedUnique (values : list string) : list string := js_sort String.compare (set_of values).

Definition deriveCanonicalScreenId (testCase : GeneratedTestCase) : string :=
  default NO_SCREEN_SENTINEL (head (sortedUnique (tc_figmaTraceRefs testCase))).

Definition strings_json (xs : list string) : json := JArray (JString <$> xs).

Definition buildCaseMergerSignature (testCase : GeneratedTestCase) : json :=
  canonicalJson (JObject
    [("screenId", JString (deriveCanonicalScreenId testCase));
     ("technique", JString (tc_technique testCase));
     ("coveredFieldIds", strings_json (sortedUnique (qs_coveredFieldIds (tc_qualitySignals testCase))));
     ("coveredActionIds", strings_json (sortedUnique (qs_coveredActionIds (tc_qualitySignals testCase))))]).

#[local] Abbreviation signature := buildCaseMergerSignature.
#[local] Abbreviation signatures := (fmap (M:=list) buildCaseMergerSignature).

(** [indexBySignature]: what drives the merge are the first cases of every
    signature, in order. *)
Definition by_signature (sig : json) (cases : list GeneratedTestCase) : option GeneratedTestCase :=
  snd <$> list_find (λ c, signature c = sig) cases.

Fixpoint first_cases_from (seen : list json) (cases : list GeneratedTestCase) : list GeneratedTestCase :=
  match cases with
  | [] => []
  | c :: rest =>
      if bool_decide (signature c ∈ seen) then first_cases_from seen rest
      else c :: first_cases_from (signature c :: seen) rest
  end.
Definition first_cases : list GeneratedTestCase → list GeneratedTestCase := first_cases_from [].

(** ** Conflicts *)

(** The test-case ids of the repair instructions of a pass. *)
Definition collectRepairTargets (instructions : option (list string)) : list string :=
  filter (λ id, id ≠ "") (default [] instructions).

Definition mergeQualitySignalCoverage (primary secondary : GeneratedTestCaseQualitySignals) :
    GeneratedTestCaseQualitySignals * bool :=
  let mergedFields := sortedUnique (qs_coveredFieldIds primary ++ qs_coveredFieldIds secondary) in
  let mergedActions := sortedUnique (qs_coveredActionIds primary ++ qs_coveredActionIds secondary) in
  let mergedValidations := sortedUnique (qs_coveredValidationIds primary ++ qs_coveredValidationIds secondary) in
  let mergedNavigations := sortedUnique (qs_coveredNavigationIds primary ++ qs_coveredNavigationIds secondary) in
  let coverageGrew :=
    ((length (qs_coveredFieldIds primary) <? length mergedFields) ||
     (length (qs_coveredActionIds primary) <? length mergedActions) ||
     (length (qs_coveredValidationIds primary) <? length mergedValidations) ||
     (length (qs_coveredNavigationIds primary) <? length mergedNavigations))%nat in
  ({| qs_coveredFieldIds := mergedFields;
      qs_coveredActionIds := mergedActions;
      qs_coveredValidationIds := mergedValidations;
      qs_coveredNavigationIds := mergedNavigations;
      qs_coveredRequirementIds := qs_coveredRequirementIds primary;
      qs_others := qs_others primary |}, coverageGrew).

Record ConflictDecision := {
  cd_winner : GeneratedTestCase;
  cd_loser : GeneratedTestCase;
  cd_resolution : CaseMergerConflictResolution;
}.

Definition decideConflict (runA runB : GeneratedTestCase) (repairsA repairsB : list string) : ConflictDecision :=
  let aHasRepair := bool_decide (tc_id runA ∈ repairsA) in
  let bHasRepair := bool_decide (tc_id runB ∈ repairsB) in
  if aHasRepair && negb bHasRepair then
    {| cd_winner := runB; cd_loser := runA; cd_resolution := prefer_unrepaired |}
  else if bHasRepair && negb aHasRepair then
    {| cd_winner := runA; cd_loser := runB; cd_resolution := prefer_unrepaired |}
  else {| cd_winner := runA; cd_loser := runB; cd_resolution := positive_bias_run_a |}.

Definition buildEntry (winner : GeneratedTestCase) (provenance : CaseMergerProvenance)
    (resolution : CaseMergerConflictResolution) (droppedTestCaseId : option string)
    (qualitySignalsCoverageMerged : bool) (qualitySignalsForReport : GeneratedTestCaseQualitySignals) :
    CaseMergerReportEntry :=
  {| me_testCaseId := tc_id winner;
     me_provenance := provenance;
     me_signature := signature winner;
     me_technique := tc_technique winner;
     me_screenId := deriveCanonicalScreenId winner;
     me_coveredFieldIds := sortedUnique (qs_coveredFieldIds qualitySignalsForReport);
     me_coveredActionIds := sortedUnique (qs_coveredActionIds qualitySignalsForReport);
     me_conflictResolution := resolution;
     me_droppedTestCaseId := droppedTestCaseId;
     me_qualitySignalsCoverageMerged := qualitySignalsCoverageMerged |}.

Definition with_signals (testCase : GeneratedTestCase) (signals : GeneratedTestCaseQualitySignals) : GeneratedTestCase :=
  {| tc_id := tc_id testCase; tc_technique := tc_technique testCase; tc_figmaTraceRefs := tc_figmaTraceRefs testCase;
     tc_qualitySignals := signals; tc_others := tc_others testCase |}.

(** ** The merge *)

(** A merged case with its row of the report. *)
Definition single_entry (provenance : CaseMergerProvenance) (c : GeneratedTestCase) :
    GeneratedTestCase * CaseMergerReportEntry :=
  (c, buildEntry c provenance no_conflict None false (tc_qualitySignals c)).

Definition merged_entry (repairsA repairsB : list string) (a b : GeneratedTestCase) :
    GeneratedTestCase * CaseMergerReportEntry :=
  let decision := decideConflict a b repairsA repairsB in
  let '(signals, coverageGrew) :=
    mergeQualitySignalCoverage (tc_qualitySignals (cd_winner decision)) (tc_qualitySignals (cd_loser decision)) in
  (with_signals (cd_winner decision) signals,
   buildEntry (cd_winner decision) pv_both (cd_resolution decision) (Some (tc_id (cd_loser decision))) coverageGrew signals).

(** One case of pass A. *)
Definition walk_a (repairsA repairsB : list string) (casesB : list GeneratedTestCase) (a : GeneratedTestCase) :
    GeneratedTestCase * CaseMergerReportEntry :=
  match by_signature (signature a) casesB with
  | None => single_entry pv_runA a
  | Some b => merged_entry repairsA repairsB a b
  end.

(** The cases of pass B whose signature pass A does not have. *)
Definition leftovers (casesA casesB : list GeneratedTestCase) : list GeneratedTestCase :=
  filter (λ b, by_signature (signature b) casesA = None) (first_cases casesB).

Definition merge_pairs (repairsA repairsB : list string) (casesA casesB : list GeneratedTestCase) :
    list (GeneratedTestCase * CaseMergerReportEntry) :=
  (walk_a repairsA repairsB casesB <$> first_cases casesA) ++ (single_entry pv_runB <$> leftovers casesA casesB).

Inductive MergeError : Type := me_job_mismatch | me_generated_at.

Record CaseMergerRepairContext := { rc_runA : option (list string); rc_runB : option (list string) }.

Record MergeInput := {
  mi_lists : GeneratedTestCaseList * GeneratedTestCaseList;
  mi_generatedAt : string;
  mi_repairs : option CaseMergerRepairContext;
}.

Definition count_where {A} (p : A → Prop) `{∀ x, Decision (p x)} (l : list A) : nat := length (filter p l).

Definition mergeGeneratedTestCaseListsWithProvenance (input : MergeInput) :
    outcome MergeError (GeneratedTestCaseList * CaseMergerReport) :=
  (let '(runA, runB) := mi_lists input in
   guard_throw (negb (bool_decide (gl_jobId runA = gl_jobId runB))) me_job_mismatch ;;;
   guard_throw (bool_decide (mi_generatedAt input = "")) me_generated_at ;;;
   let repairsA := collectRepairTargets (mi_repairs input ≫= rc_runA) in
   let repairsB := collectRepairTargets (mi_repairs input ≫= rc_runB) in
   let pairs := merge_pairs repairsA repairsB (gl_testCases runA) (gl_testCases runB) in
   let mergedCases := js_sort (cmp_on tc_id String.compare) pairs.*1 in
   let entries := js_sort (cmp_on me_testCaseId String.compare) pairs.*2 in
   let provenances p := count_where (λ e, me_provenance e = p) entries in
   let resolved r := count_where (λ e, me_conflictResolution e = r) pairs.*2 in
   Ok ({| gl_schemaVersion := gl_schemaVersion runA; gl_jobId := gl_jobId runA; gl_testCases := mergedCases |},
       {| mr_jobId := gl_jobId runA;
          mr_generatedAt := mi_generatedAt input;
          mr_totals :=
            {| mt_runACount := length (gl_testCases runA);
               mt_runBCount := length (gl_testCases runB);
               mt_mergedCount := length mergedCases;
               mt_onlyInRunA := provenances pv_runA;
               mt_onlyInRunB := provenances pv_runB;
               mt_inBoth := provenances pv_both;
               mt_conflictsResolvedByRepair := resolved prefer_unrepaired;
               mt_conflictsResolvedByPositiveBias := resolved positive_bias_run_a |};
          mr_entries := entries |}))%outcome.

Definition mergeGeneratedTestCaseLists (a b : GeneratedTestCaseList) : outcome MergeError GeneratedTestCaseList :=
  outcome_map fst (mergeGeneratedTestCaseListsWithProvenance
    {| mi_lists := (a, b); mi_generatedAt := "1970-01-01T00:00:00.000Z"; mi_repairs := None |}).

(** ** The report file *)

Definition CASE_MERGER_REPORT_SCHEMA_VERSION : string := "1.0.0".
Definition CASE_MERGER_REPORT_ARTIFACT_FILENAME : string := "case-merger-report.json".

Definition CaseMergerProvenance_label (p : CaseMergerProvenance) : string :=
  match p with pv_runA => "runA" | pv_runB => "runB" | pv_both => "both" end.
Definition CaseMergerConflictResolution_label (r : CaseMergerConflictResolution) : string :=
  match r with
  | no_conflict => "no_conflict"
  | prefer_unrepaired => "prefer_unrepaired"
  | positive_bias_run_a => "positive_bias_run_a"
  end.

Definition totals_json (t : CaseMergerTotals) : json :=
  let n x := Some (Json.jint (Z.of_nat x)) in
  JObject (Json.literal
    [("runACount", n (mt_runACount t)); ("runBCount", n (mt_runBCount t)); ("mergedCount", n (mt_mergedCount t));
     ("onlyInRunA", n (mt_onlyInRunA t)); ("onlyInRunB", n (mt_onlyInRunB t)); ("inBoth", n (mt_inBoth t));
     ("conflictsResolvedByRepair", n (mt_conflictsResolvedByRepair t));
     ("conflictsResolvedByPositiveBias", n (mt_conflictsResolvedByPositiveBias t))]).

(** The signature of a row is the text of its JSON value. *)
Definition row_json (json_text : json → string) (e : CaseMergerReportEntry) : json :=
  JObject (Json.literal
    [("testCaseId", Some (JString (me_testCaseId e)));
     ("provenance", Some (JString (CaseMergerProvenance_label (me_provenance e))));
     ("signature", Some (JString (json_text (me_signature e))));
     ("technique", Some (JString (me_technique e)));
     ("screenId", Some (JString (me_screenId e)));
     ("coveredFieldIds", Some (strings_json (me_coveredFieldIds e)));
     ("coveredActionIds", Some (strings_json (me_coveredActionIds e)));
     ("conflictResolution", Some (JString (CaseMergerConflictResolution_label (me_conflictResolution e))));
     ("droppedTestCaseId", JString <$> me_droppedTestCaseId e);
     ("qualitySignalsCoverageMerged", Some (JBool (me_qualitySignalsCoverageMerged e)))]).

Definition merge_report_json (json_text : json → string) (r : CaseMergerReport) : json :=
  JObject (Json.literal
    [("schemaVersion", Some (JString CASE_MERGER_REPORT_SCHEMA_VERSION));
     ("contractVersion", Some (JString TEST_INTELLIGENCE_CONTRACT_VERSION));
     ("jobId", Some (JString (mr_jobId r)));
     ("generatedAt", Some (JString (mr_generatedAt r)));
     ("totals", Some (totals_json (mr_totals r)));
     ("entries", Some (JArray (row_json json_text <$> mr_entries r)))]).

(** The path written and the states of the disk while it is, a crash included;
    nothing is written to an empty directory name. *)
Definition writeCaseMergerReport (json_text : json → string) (report : CaseMergerReport) (destinationDir : string)
    (w : writer) (d : disk) : option (string * list disk) :=
  if bool_decide (destinationDir = "") then None
  else
    let artifactPath := posix_join [destinationDir; CASE_MERGER_REPORT_ARTIFACT_FILENAME] in
    Some (artifactPath, atomic_write_states artifactPath w (canonicalJson (merge_report_json json_text report)) d).

(** ** Signatures *)

Lemma sortValue_strings xs : sortValue (strings_json xs) = strings_json xs.
Proof. unfold strings_json. cbn. f_equal. induction xs as [|x xs IH]; [done|]. cbn. by rewrite IH. Qed.

Lemma signature_fields c :
  signature c = JObject
    [("coveredActionIds", strings_json (sortedUnique (qs_coveredActionIds (tc_qualitySignals c))));
     ("coveredFieldIds", strings_json (sortedUnique (qs_coveredFieldIds (tc_qualitySignals c))));
     ("screenId", JString (deriveCanonicalScreenId c)); ("technique", JString (tc_technique c))].
Proof.
  unfold buildCaseMergerSignature, canonicalJson. cbn [sortValue map fst snd].
  by rewrite !sortValue_strings.
Qed.

Lemma sortedUnique_eq_iff xs ys : sortedUnique xs = sortedUnique ys ↔ ∀ x, x ∈ xs ↔ x ∈ ys.
Proof.
  unfold sortedUnique. split.
  - intros He x. rewrite <- (elem_of_set_of xs), <- (elem_of_set_of ys).
    by rewrite <- (elem_of_js_sort String.compare x (set_of xs)), He, elem_of_js_sort.
  - intros Hx. apply js_sort_unique; [apply _|]. apply NoDup_Permutation; [auto with js..|].
    intros x. by rewrite !elem_of_set_of.
Qed.

Lemma elem_of_sortedUnique x xs : x ∈ sortedUnique xs ↔ x ∈ xs.
Proof. unfold sortedUnique. by rewrite elem_of_js_sort, elem_of_set_of. Qed.

Lemma NoDup_sortedUnique xs : NoDup (sortedUnique xs).
Proof. apply NoDup_js_sort, NoDup_set_of. Qed.

#[local] Instance strings_json_inj : Inj (=) (=) strings_json.
Proof.
  unfold strings_json. intros xs ys [= He]. revert ys He.
  induction xs as [|x xs IH]; intros [|y ys]; cbn; try done. intros [= -> He]. f_equal. by apply IH.
Qed.

(** Two cases have one signature when their screen, technique, covered fields
    and covered actions agree. *)
Lemma signature_eq_iff c d :
  signature c = signature d ↔
    deriveCanonicalScreenId c = deriveCanonicalScreenId d ∧ tc_technique c = tc_technique d ∧
    (∀ x, x ∈ qs_coveredFieldIds (tc_qualitySignals c) ↔ x ∈ qs_coveredFieldIds (tc_qualitySignals d)) ∧
    (∀ x, x ∈ qs_coveredActionIds (tc_qualitySignals c) ↔ x ∈ qs_coveredActionIds (tc_qualitySignals d)).
Proof.
  rewrite !signature_fields, <- !sortedUnique_eq_iff. split; [|by intros (-> & -> & -> & ->)].
  intros [= Ha Hf Hs Ht]. split_and!; [done|done|by apply (inj strings_json); unfold strings_json; congruence..].
Qed.

#[local] Opaque buildCaseMergerSignature.

Lemma by_signature_Some sig cases c : by_signature sig cases = Some c → c ∈ cases ∧ signature c = sig.
Proof.
  unfold by_signature. destruct (list_find _ _) as [[i d]|] eqn:E; [|done]. intros [= ->].
  apply list_find_Some in E as (Hl & Hs & _). split; [by eapply list_elem_of_lookup_2|done].
Qed.

Lemma by_signature_None sig cases : by_signature sig cases = None ↔ sig ∉ signatures cases.
Proof.
  unfold by_signature. rewrite fmap_None, list_find_None, Forall_forall, list_elem_of_fmap. naive_solver.
Qed.

Lemma by_signature_cons sig c cases :
  by_signature sig (c :: cases) = if decide (signature c = sig) then Some c else by_signature sig cases.
Proof.
  unfold by_signature. cbn. case_decide; [done|]. by destruct (list_find (λ d, signature d = sig) cases) as [[]|].
Qed.

(** [indexBySignature]: the cases that drive the merge are those the signature
    map holds, each signature once. *)
Lemma elem_of_first_cases_from seen cases c :
  c ∈ first_cases_from seen cases ↔ (signature c ∉ seen) ∧ by_signature (signature c) cases = Some c.
Proof.
  revert seen; induction cases as [|d cases IH]; intros seen; cbn [first_cases_from].
  - split; [by intros ?%not_elem_of_nil|by intros [_ ?]].
  - rewrite by_signature_cons. case_bool_decide as Hd; [rewrite IH|rewrite elem_of_cons, IH, not_elem_of_cons];
      case_decide as He.
    + rewrite He in Hd. split; [by intros [? _]|]. intros [? [= <-]]. done.
    + done.
    + rewrite He in Hd. split; [intros [->|[[? _] _]]; [done|congruence]|]. intros [_ [= <-]]. by left.
    + split; [intros [->|[[? ?] ?]]; done|]. intros [? ?]. right. done.
Qed.

Lemma elem_of_first_cases cases c : c ∈ first_cases cases ↔ by_signature (signature c) cases = Some c.
Proof. unfold first_cases. rewrite elem_of_first_cases_from. set_solver. Qed.

Lemma NoDup_first_cases_from seen cases : NoDup (signatures (first_cases_from seen cases)).
Proof.
  revert seen; induction cases as [|d cases IH]; intros seen; cbn; [constructor|].
  case_bool_decide; [apply IH|]. cbn. constructor; [|apply IH].
  intros (e & He & [Hn _]%elem_of_first_cases_from)%list_elem_of_fmap.
  apply Hn. rewrite <- He. by left.
Qed.

Lemma NoDup_first_cases cases : NoDup (signatures (first_cases cases)).
Proof. apply NoDup_first_cases_from. Qed.

Lemma first_cases_signatures cases sig : sig ∈ signatures (first_cases cases) ↔ sig ∈ signatures cases.
Proof.
  split.
  - intros (c & -> & Hc%elem_of_first_cases%by_signature_Some)%list_elem_of_fmap.
    apply list_elem_of_fmap. naive_solver.
  - intros Hs. destruct (by_signature sig cases) as [c|] eqn:E; [|by apply by_signature_None in E].
    destruct (by_signature_Some _ _ _ E) as [Hc <-]. apply list_elem_of_fmap_2, elem_of_first_cases, E.
Qed.

(** A list without a repeated signature drives the merge with all its cases. *)
Lemma first_cases_NoDup_from seen cases :
  NoDup (signatures cases) → (∀ c, c ∈ cases → signature c ∉ seen) → first_cases_from seen cases = cases.
Proof.
  revert seen; induction cases as [|d cases IH]; intros seen; cbn; [done|].
  intros [Hd Hnd]%NoDup_cons Hs. rewrite bool_decide_eq_false_2 by (apply Hs; left).
  f_equal. apply IH; [done|]. intros c Hc. apply not_elem_of_cons. split; [|by apply Hs; right].
  intros He. apply Hd. rewrite <- He. by apply list_elem_of_fmap_2.
Qed.

Lemma first_cases_id cases : NoDup (signatures cases) → first_cases cases = cases.
Proof. intros. apply first_cases_NoDup_from; [done|]. set_solver. Qed.

(** ** The merged pairs *)

Lemma decideConflict_sides a b repairsA repairsB :
  let decision := decideConflict a b repairsA repairsB in
  (cd_winner decision = a ∧ cd_loser decision = b) ∨ (cd_winner decision = b ∧ cd_loser decision = a).
Proof. unfold decideConflict. repeat case_match; cbn; auto. Qed.

Lemma merged_entry_signature repairsA repairsB a b :
  signature a = signature b → signature (merged_entry repairsA repairsB a b).1 = signature a.
Proof.
  intros He. unfold merged_entry. pose proof He as (? & ? & Hf & Ha)%signature_eq_iff.
  destruct (decideConflict_sides a b repairsA repairsB) as [[Hw Hl]|[Hw Hl]]; cbn zeta in Hw, Hl; rewrite Hw, Hl; cbn;
    apply signature_eq_iff; cbn; split_and!; try done; intros x; rewrite elem_of_sortedUnique, elem_of_app;
    rewrite ?Hf, ?Ha; tauto.
Qed.

Lemma walk_a_signature repairsA repairsB casesB a : signature (walk_a repairsA repairsB casesB a).1 = signature a.
Proof.
  unfold walk_a. destruct (by_signature _ _) as [b|] eqn:E; [|done].
  apply merged_entry_signature. by apply by_signature_Some in E as [_ ->].
Qed.

(** Every row of the report describes the case it stands beside. *)
Definition describes (p : GeneratedTestCase * CaseMergerReportEntry) : Prop :=
  me_testCaseId p.2 = tc_id p.1 ∧ me_signature p.2 = signature p.1 ∧ me_technique p.2 = tc_technique p.1 ∧
  me_screenId p.2 = deriveCanonicalScreenId p.1 ∧
  me_coveredFieldIds p.2 = sortedUnique (qs_coveredFieldIds (tc_qualitySignals p.1)) ∧
  me_coveredActionIds p.2 = sortedUnique (qs_coveredActionIds (tc_qualitySignals p.1)).

Lemma merged_entry_describes repairsA repairsB a b :
  signature a = signature b → describes (merged_entry repairsA repairsB a b).
Proof.
  intros He. pose proof (merged_entry_signature repairsA repairsB a b He) as Hs. unfold describes.
  split_and!; try done. rewrite Hs. unfold merged_entry. cbn.
  by destruct (decideConflict_sides a b repairsA repairsB) as [[-> _]|[-> _]].
Qed.

Lemma pairs_describe repairsA repairsB casesA casesB p :
  p ∈ merge_pairs repairsA repairsB casesA casesB → describes p.
Proof.
  unfold merge_pairs. intros [(a & -> & _)%list_elem_of_fmap|(b & -> & _)%list_elem_of_fmap]%elem_of_app; [|done].
  unfold walk_a. destruct (by_signature _ _) as [b|] eqn:E; [|done].
  apply merged_entry_describes. by apply by_signature_Some in E as [_ ->].
Qed.

Lemma elem_of_leftovers casesA casesB b :
  b ∈ leftovers casesA casesB ↔ by_signature (signature b) casesB = Some b ∧ by_signature (signature b) casesA = None.
Proof. unfold leftovers. rewrite list_elem_of_filter, elem_of_first_cases. tauto. Qed.

Lemma pairs_signatures repairsA repairsB casesA casesB :
  signatures (merge_pairs repairsA repairsB casesA casesB).*1 =
  signatures (first_cases casesA) ++ signatures (leftovers casesA casesB).
Proof.
  unfold merge_pairs. rewrite !fmap_app, <- !list_fmap_compose. f_equal.
  apply list_fmap_ext. intros i a _. apply walk_a_signature.
Qed.

Lemma NoDup_pairs repairsA repairsB casesA casesB :
  NoDup (signatures (merge_pairs repairsA repairsB casesA casesB).*1).
Proof.
  rewrite pairs_signatures. apply NoDup_app. split_and!.
  - apply NoDup_first_cases.
  - intros sig Ha (b & -> & [_ Hb]%elem_of_leftovers)%list_elem_of_fmap.
    exact (proj1 (by_signature_None _ _) Hb (proj1 (first_cases_signatures _ _) Ha)).
  - apply (sublist_NoDup _ (signatures (first_cases casesB))); [apply NoDup_first_cases|].
    apply fmap_sublist, sublist_filter.
Qed.

Lemma elem_of_pairs_signatures repairsA repairsB casesA casesB sig :
  sig ∈ signatures (merge_pairs repairsA repairsB casesA casesB).*1 ↔ sig ∈ signatures casesA ∨ sig ∈ signatures casesB.
Proof.
  rewrite pairs_signatures, elem_of_app, first_cases_signatures. split.
  - intros [?|(b & -> & [Hb _]%elem_of_leftovers)%list_elem_of_fmap]; [by left|right].
    apply by_signature_Some in Hb as [? _]. by apply list_elem_of_fmap_2.
  - intros [?|Hb]; [by left|]. destruct (by_signature sig casesA) as [a|] eqn:Ea.
    + left. apply by_signature_Some in Ea as [? <-]. by apply list_elem_of_fmap_2.
    + right. destruct (by_signature sig casesB) as [b|] eqn:E; [|by apply by_signature_None in E].
      destruct (by_signature_Some _ _ _ E) as [_ <-]. by apply list_elem_of_fmap_2, elem_of_leftovers.
Qed.

(** ** The result *)

Lemma js_insert_fmap {A B C} (g : A → B) (f : B → C) (cmp : C → C → comparison) x (l : list A) :
  js_insert (cmp_on f cmp) (g x) (g <$> l) = g <$> js_insert (cmp_on (λ a, f (g a)) cmp) x l.
Proof.
  induction l as [|y l IH]; [done|]. cbn. unfold cmp_on in *. destruct (cmp _ _); [done|done|].
  cbn. by rewrite <- IH.
Qed.

(** Sorting a column of a table by a key every column has sorts the table. *)
Lemma js_sort_fmap {A B C} (g : A → B) (f : B → C) (cmp : C → C → comparison) (l : list A) :
  js_sort (cmp_on f cmp) (g <$> l) = g <$> js_sort (cmp_on (λ a, f (g a)) cmp) l.
Proof.
  induction l as [|x l IH]; [done|]. rewrite fmap_cons. unfold js_sort in *. cbn [foldr].
  by rewrite IH, js_insert_fmap.
Qed.

Lemma js_sort_ext {A C} (f g : A → C) (cmp : C → C → comparison) (l : list A) :
  (∀ x, x ∈ l → f x = g x) → js_sort (cmp_on f cmp) l = js_sort (cmp_on g cmp) l.
Proof.
  induction l as [|x l IH]; intros Hl; [done|].
  change (js_sort ?c (x :: l)) with (js_insert c x (js_sort c l)). rewrite IH by (intros; apply Hl; by right).
  assert (Hs : ∀ y, y ∈ js_sort (cmp_on g cmp) l → f y = g y)
    by (intros y Hy; apply Hl; right; by apply elem_of_js_sort in Hy).
  revert Hs. generalize (js_sort (cmp_on g cmp) l) as s. induction s as [|y s IHs]; intros Hs; [done|].
  cbn. unfold cmp_on at 1 3. rewrite (Hl x) by left. rewrite (Hs y) by left.
  destruct (cmp _ _); [done|done|]. f_equal. apply IHs. intros; apply Hs. by right.
Qed.

Lemma count_fmap {A B} (f : A → B) (p : B → Prop) `{∀ x, Decision (p x)} (l : list A) :
  count_where p (f <$> l) = count_where (λ x, p (f x)) l.
Proof. unfold count_where. induction l as [|x l IH]; [done|]. rewrite fmap_cons, !filter_cons. by case_decide; cbn [length]; rewrite ?IH. Qed.

#[export] Instance count_proper {A} (p : A → Prop) `{∀ x, Decision (p x)} : Proper ((≡ₚ) ==> (=)) (count_where p).
Proof. intros l l' Hl. unfold count_where. by rewrite Hl. Qed.

(** The table of merged cases and report rows, sorted by test-case id. *)
Definition merge_table (repairs : option CaseMergerRepairContext) (casesA casesB : list GeneratedTestCase) :
    list (GeneratedTestCase * CaseMergerReportEntry) :=
  js_sort (cmp_on (λ p, tc_id p.1) String.compare)
    (merge_pairs (collectRepairTargets (repairs ≫= rc_runA)) (collectRepairTargets (repairs ≫= rc_runB)) casesA casesB).

Lemma merge_Ok_iff runA runB generatedAt repairs m r :
  mergeGeneratedTestCaseListsWithProvenance
    {| mi_lists := (runA, runB); mi_generatedAt := generatedAt; mi_repairs := repairs |} = Ok (m, r) ↔
  gl_jobId runA = gl_jobId runB ∧ generatedAt ≠ "" ∧
  let table := merge_table repairs (gl_testCases runA) (gl_testCases runB) in
  m = {| gl_schemaVersion := gl_schemaVersion runA; gl_jobId := gl_jobId runA; gl_testCases := table.*1 |} ∧
  r = {| mr_jobId := gl_jobId runA; mr_generatedAt := generatedAt;
         mr_totals :=
           {| mt_runACount := length (gl_testCases runA); mt_runBCount := length (gl_testCases runB);
              mt_mergedCount := length table;
              mt_onlyInRunA := count_where (λ p, me_provenance p.2 = pv_runA) table;
              mt_onlyInRunB := count_where (λ p, me_provenance p.2 = pv_runB) table;
              mt_inBoth := count_where (λ p, me_provenance p.2 = pv_both) table;
              mt_conflictsResolvedByRepair := count_where (λ p, me_conflictResolution p.2 = prefer_unrepaired) table;
              mt_conflictsResolvedByPositiveBias :=
                count_where (λ p, me_conflictResolution p.2 = positive_bias_run_a) table |};
         mr_entries := table.*2 |}.
Proof.
  unfold mergeGeneratedTestCaseListsWithProvenance. cbn [mi_lists mi_generatedAt mi_repairs].
  rewrite !outcome_then_Ok, !guard_throw_Ok, negb_false_iff, bool_decide_eq_true, bool_decide_eq_false.
  set (pairs := merge_pairs _ _ _ _). unfold merge_table. fold pairs.
  assert (Hd : ∀ p, p ∈ pairs → me_testCaseId p.2 = tc_id p.1) by (intros p Hp; by apply pairs_describe in Hp as [? _]).
  assert (Hs : js_sort (cmp_on me_testCaseId String.compare) pairs.*2 =
               (js_sort (cmp_on (λ p, tc_id p.1) String.compare) pairs).*2)
    by (rewrite js_sort_fmap; f_equal; by apply js_sort_ext).
  rewrite js_sort_fmap, Hs. set (table := js_sort _ pairs).
  assert (Hr : ∀ x, count_where (λ e, me_conflictResolution e = x) pairs.*2 = count_where (λ p, me_conflictResolution p.2 = x) table)
    by (intros x; rewrite count_fmap; unfold table; by rewrite js_sort_Permutation).
  rewrite !Hr, !count_fmap, length_fmap. cbn zeta. split; [intros (? & ? & [= <- <-])|intros (? & ? & -> & ->)]; done.
Qed.

Lemma elem_of_merge_table repairs casesA casesB p :
  p ∈ merge_table repairs casesA casesB ↔
  p ∈ merge_pairs (collectRepairTargets (repairs ≫= rc_runA)) (collectRepairTargets (repairs ≫= rc_runB)) casesA casesB.
Proof. apply elem_of_js_sort. Qed.

Lemma merge_table_signatures repairs casesA casesB :
  NoDup (signatures (merge_table repairs casesA casesB).*1) ∧
  ∀ sig, sig ∈ signatures (merge_table repairs casesA casesB).*1 ↔ sig ∈ signatures casesA ∨ sig ∈ signatures casesB.
Proof.
  unfold merge_table. split; [|intros sig]; rewrite js_sort_Permutation; [apply NoDup_pairs|apply elem_of_pairs_signatures].
Qed.

Lemma merge_table_sorted repairs casesA casesB :
  StronglySorted (cmp_le (cmp_on tc_id String.compare)) (merge_table repairs casesA casesB).*1.
Proof.
  apply StronglySorted_on. rewrite <- list_fmap_compose. apply (StronglySorted_on (λ p, tc_id p.1)), js_sort_sorted, _.
Qed.

(** How a row of the report accounts for its case. *)
Definition row_accounted (e : CaseMergerReportEntry) : Prop :=
  (me_provenance e = pv_both ↔ me_conflictResolution e ≠ no_conflict) ∧
  (me_provenance e = pv_both ↔ is_Some (me_droppedTestCaseId e)).

Lemma merge_pairs_accounted repairsA repairsB casesA casesB p :
  p ∈ merge_pairs repairsA repairsB casesA casesB → row_accounted p.2.
Proof.
  assert (Hsingle : ∀ pv c, pv ≠ pv_both → row_accounted (single_entry pv c).2)
    by (intros pv c Hpv; split; cbn; split; intros H; try done; by destruct H).
  unfold merge_pairs.
  intros [(a & -> & _)%list_elem_of_fmap|(b & -> & _)%list_elem_of_fmap]%elem_of_app;
    [|by apply Hsingle]. unfold walk_a. destruct (by_signature _ _) as [b|]; [|by apply Hsingle].
  unfold merged_entry, decideConflict, row_accounted. cbn. repeat case_match; cbn; split; by eauto.
Qed.

Lemma count_provenances (table : list (GeneratedTestCase * CaseMergerReportEntry)) :
  (length table = count_where (λ p, me_provenance p.2 = pv_runA) table + count_where (λ p, me_provenance p.2 = pv_runB) table
                  + count_where (λ p, me_provenance p.2 = pv_both) table)%nat.
Proof.
  unfold count_where. induction table as [|p table IH]; [done|]. cbn [length]. rewrite !filter_cons, IH.
  destruct (me_provenance p.2); repeat case_decide; try done; cbn; lia.
Qed.

Lemma count_resolutions (table : list (GeneratedTestCase * CaseMergerReportEntry)) :
  (∀ p, p ∈ table → row_accounted p.2) →
  (count_where (λ p, me_provenance p.2 = pv_both) table =
   count_where (λ p, me_conflictResolution p.2 = prefer_unrepaired) table
   + count_where (λ p, me_conflictResolution p.2 = positive_bias_run_a) table)%nat.
Proof.
  unfold count_where. induction table as [|p table IH]; intros Ht; [done|]. rewrite !filter_cons.
  pose proof (proj1 (Ht p ltac:(left))) as Hp. 
  assert (IH' := IH (λ q Hq, Ht q (list_elem_of_further _ _ _ Hq))).
  destruct (me_conflictResolution p.2), (me_provenance p.2); repeat case_decide; try done; cbn; try lia; naive_solver.
Qed.

(** The merged list has one case for every signature of the two passes, sorted
    by id; the rows of the report stand beside the cases they describe, and its
    totals add up. *)
Theorem merge_is_the_union runA runB generatedAt repairs m r :
  mergeGeneratedTestCaseListsWithProvenance
    {| mi_lists := (runA, runB); mi_generatedAt := generatedAt; mi_repairs := repairs |} = Ok (m, r) →
  NoDup (signatures (gl_testCases m)) ∧
  (∀ sig, sig ∈ signatures (gl_testCases m) ↔ sig ∈ signatures (gl_testCases runA) ∨ sig ∈ signatures (gl_testCases runB)) ∧
  StronglySorted (cmp_le (cmp_on tc_id String.compare)) (gl_testCases m) ∧
  Forall2 (λ c e, describes (c, e)) (gl_testCases m) (mr_entries r) ∧
  Forall row_accounted (mr_entries r) ∧
  let t := mr_totals r in
  mt_mergedCount t = length (gl_testCases m) ∧
  mt_mergedCount t = (mt_onlyInRunA t + mt_onlyInRunB t + mt_inBoth t)%nat ∧
  mt_inBoth t = (mt_conflictsResolvedByRepair t + mt_conflictsResolvedByPositiveBias t)%nat.
Proof.
  intros (_ & _ & -> & ->)%merge_Ok_iff. cbn [gl_testCases mr_entries mr_totals mt_mergedCount mt_onlyInRunA mt_onlyInRunB
    mt_inBoth mt_conflictsResolvedByRepair mt_conflictsResolvedByPositiveBias].
  destruct (merge_table_signatures repairs (gl_testCases runA) (gl_testCases runB)) as [Hnd Hs].
  split; [done|]. split; [done|]. split; [apply merge_table_sorted|]. split_and!.
  - apply Forall2_fmap, Forall2_same_length_lookup. split; [done|].
    intros i p q Hp Hq. rewrite Hp in Hq. injection Hq as <-. destruct p as [c e].
    by eapply pairs_describe, elem_of_merge_table, list_elem_of_lookup_2.
  - apply Forall_fmap, Forall_forall. intros p Hp. by eapply merge_pairs_accounted, elem_of_merge_table.
  - by rewrite length_fmap.
  - apply count_provenances.
  - apply count_resolutions. intros p Hp. by eapply merge_pairs_accounted, elem_of_merge_table.
Qed.

Definition same_ids (xs ys zs : list string) : Prop := ∀ x, x ∈ xs ↔ x ∈ ys ∨ x ∈ zs.

(** A case both passes produced is merged into one case: the winner of the
    conflict with the covered ids of both. *)
Theorem merged_case_carries_both runA runB generatedAt repairs m r a b sig :
  mergeGeneratedTestCaseListsWithProvenance
    {| mi_lists := (runA, runB); mi_generatedAt := generatedAt; mi_repairs := repairs |} = Ok (m, r) →
  by_signature sig (gl_testCases runA) = Some a →
  by_signature sig (gl_testCases runB) = Some b →
  ∃ c, c ∈ gl_testCases m ∧ signature c = sig ∧
    let winner := if bool_decide (tc_id a ∈ collectRepairTargets (repairs ≫= rc_runA)) &&
                     negb (bool_decide (tc_id b ∈ collectRepairTargets (repairs ≫= rc_runB))) then b else a in
    tc_id c = tc_id winner ∧ tc_others c = tc_others winner ∧
    qs_coveredRequirementIds (tc_qualitySignals c) = qs_coveredRequirementIds (tc_qualitySignals winner) ∧
    let ids f := same_ids (f (tc_qualitySignals c)) (f (tc_qualitySignals a)) (f (tc_qualitySignals b)) in
    ids qs_coveredFieldIds ∧ ids qs_coveredActionIds ∧ ids qs_coveredValidationIds ∧ ids qs_coveredNavigationIds.
Proof.
  intros (_ & _ & -> & _)%merge_Ok_iff Ha Hb. cbn [gl_testCases].
  destruct (by_signature_Some _ _ _ Ha) as [_ Hsa], (by_signature_Some _ _ _ Hb) as [_ Hsb].
  set (rA := collectRepairTargets (repairs ≫= rc_runA)). set (rB := collectRepairTargets (repairs ≫= rc_runB)).
  exists (merged_entry rA rB a b).1. split.
  { apply list_elem_of_fmap_2, elem_of_merge_table. unfold merge_pairs. apply elem_of_app. left.
    apply list_elem_of_fmap. exists a. split; [unfold walk_a; by rewrite Hsa, Hb|].
    apply elem_of_first_cases. by rewrite Hsa. }
  split; [rewrite <- Hsa; apply merged_entry_signature; congruence|].
  unfold merged_entry, decideConflict, same_ids.
  destruct (bool_decide (tc_id a ∈ rA)), (bool_decide (tc_id b ∈ rB)); cbn; split_and!; try done;
    intros x; rewrite elem_of_sortedUnique, elem_of_app; tauto.
Qed.

(** What the report calls a grown coverage never is a new field or action: the
    signature both cases share already fixes the two sets. *)
Theorem covered_fields_never_grow repairsA repairsB a b :
  signature a = signature b →
  let c := (merged_entry repairsA repairsB a b).1 in
  ∀ x, (x ∈ qs_coveredFieldIds (tc_qualitySignals c) ↔ x ∈ qs_coveredFieldIds (tc_qualitySignals a)) ∧
       (x ∈ qs_coveredActionIds (tc_qualitySignals c) ↔ x ∈ qs_coveredActionIds (tc_qualitySignals a)).
Proof.
  intros He c x. destruct (proj1 (signature_eq_iff c a) (merged_entry_signature _ _ _ _ He)) as (_ & _ & Hf & Ha). auto.
Qed.

(** ** Independence of the order of each pass *)

Lemma by_signature_unique sig cases c :
  NoDup (signatures cases) → c ∈ cases → signature c = sig → by_signature sig cases = Some c.
Proof. intros Hnd Hc <-. apply elem_of_first_cases. by rewrite first_cases_id. Qed.

Lemma by_signature_Permutation sig cases cases' :
  cases ≡ₚ cases' → NoDup (signatures cases) → by_signature sig cases = by_signature sig cases'.
Proof.
  intros Hp Hnd. destruct (by_signature sig cases) as [c|] eqn:E; symmetry.
  - apply by_signature_Some in E as [Hc Hs]. apply by_signature_unique; [by rewrite <- Hp|by rewrite <- Hp|done].
  - apply by_signature_None. rewrite <- Hp. by apply by_signature_None.
Qed.

Lemma merge_pairs_Permutation repairsA repairsB casesA casesA' casesB casesB' :
  casesA ≡ₚ casesA' → casesB ≡ₚ casesB' → NoDup (signatures casesA) → NoDup (signatures casesB) →
  merge_pairs repairsA repairsB casesA casesB ≡ₚ merge_pairs repairsA repairsB casesA' casesB'.
Proof.
  intros HA HB HndA HndB. assert (HndA' : NoDup (signatures casesA')) by (by rewrite <- HA).
  assert (HndB' : NoDup (signatures casesB')) by (by rewrite <- HB).
  unfold merge_pairs, leftovers. rewrite !first_cases_id by done. f_equiv.
  - rewrite HA. erewrite list_fmap_ext; [reflexivity|]. intros i a _. unfold walk_a.
    by rewrite (by_signature_Permutation _ casesB casesB').
  - apply fmap_Permutation. rewrite HB. erewrite list_filter_iff; [reflexivity|]. intros b.
    by rewrite (by_signature_Permutation _ casesA casesA').
Qed.

Definition with_cases (l : GeneratedTestCaseList) (cases : list GeneratedTestCase) : GeneratedTestCaseList :=
  {| gl_schemaVersion := gl_schemaVersion l; gl_jobId := gl_jobId l; gl_testCases := cases |}.

(** When no pass repeats a signature and the merged ids differ, the order of
    the cases within each pass changes neither the merged list nor the report. *)
Theorem merge_order_independent runA runB casesA casesB generatedAt repairs m r :
  let merge a b := mergeGeneratedTestCaseListsWithProvenance
    {| mi_lists := (a, b); mi_generatedAt := generatedAt; mi_repairs := repairs |} in
  merge runA runB = Ok (m, r) →
  gl_testCases runA ≡ₚ casesA → gl_testCases runB ≡ₚ casesB →
  NoDup (signatures (gl_testCases runA)) → NoDup (signatures (gl_testCases runB)) →
  NoDup (tc_id <$> gl_testCases m) →
  merge (with_cases runA casesA) (with_cases runB casesB) = Ok (m, r).
Proof.
  intros merge (Hj & Hat & -> & ->)%merge_Ok_iff HA HB HndA HndB Hid. cbn [gl_testCases] in Hid.
  apply merge_Ok_iff. split; [done|]. split; [done|]. cbn [with_cases gl_testCases gl_jobId gl_schemaVersion].
  assert (merge_table repairs casesA casesB = merge_table repairs (gl_testCases runA) (gl_testCases runB)) as ->.
  { symmetry. apply js_sort_perm_keys; [apply _|by apply merge_pairs_Permutation|].
    rewrite <- list_fmap_compose in Hid. unfold merge_table in Hid. by rewrite js_sort_Permutation in Hid. }
  by rewrite <- HA, <- HB.
Qed.

(** Whatever happens during the write, the report file is the old one or the
    whole new one, and in the end it is the new one. *)
Theorem report_write_is_atomic json_text report destinationDir w d path states :
  writeCaseMergerReport json_text report destinationDir w d = Some (path, states) →
  (∀ d', d' ∈ states → d' !! path = d !! path ∨ d' !! path = Some (Some (canonicalJson (merge_report_json json_text report)))) ∧
  ∃ final, last states = Some final ∧ final !! path = Some (Some (canonicalJson (merge_report_json json_text report))).
Proof.
  unfold writeCaseMergerReport. case_bool_decide; [done|]. intros [= <- <-]. split.
  - intros d' Hd'. by apply atomic_write_crash_safe in Hd' as [? _].
  - eexists. split; [reflexivity|]. apply renamed_final.
Qed.

(** ** Scenarios *)

Definition sample_case (id screen : string) (fields validations : list string) : GeneratedTestCase :=
  {| tc_id := id; tc_technique := "boundary_value_analysis"; tc_figmaTraceRefs := [screen];
     tc_qualitySignals :=
       {| qs_coveredFieldIds := fields; qs_coveredActionIds := ["submit"]; qs_coveredValidationIds := validations;
          qs_coveredNavigationIds := []; qs_coveredRequirementIds := Some ["REQ-" +:+ id]; qs_others := JNull |};
     tc_others := JString id |}.

Definition sample_run (cases : list GeneratedTestCase) : GeneratedTestCaseList :=
  {| gl_schemaVersion := "1.1.0"; gl_jobId := "job-1"; gl_testCases := cases |}.

Definition sample_a : GeneratedTestCaseList :=
  sample_run [sample_case "tc-2" "home" ["name"] []; sample_case "tc-1" "login" ["user"; "pass"] ["required"]].
Definition sample_b : GeneratedTestCaseList :=
  sample_run [sample_case "tc-3" "login" ["pass"; "user"] ["length"]; sample_case "tc-4" "profile" ["name"] []].
Definition sample_repairs : option CaseMergerRepairContext := Some {| rc_runA := Some ["tc-1"; ""]; rc_runB := None |}.
Definition sample_merge (a b : GeneratedTestCaseList) : outcome MergeError (GeneratedTestCaseList * CaseMergerReport) :=
  mergeGeneratedTestCaseListsWithProvenance
    {| mi_lists := (a, b); mi_generatedAt := "2026-01-01T00:00:00.000Z"; mi_repairs := sample_repairs |}.

Definition ids_of (o : outcome MergeError (GeneratedTestCaseList * CaseMergerReport)) : list (list string) :=
  match o with
  | Ok (m, _) => (λ c, tc_id c :: qs_coveredValidationIds (tc_qualitySignals c)) <$> gl_testCases m
  | _ => []
  end.

(** The repaired case of pass A loses; its validations go to the winner. *)
Example sample_merge_ids :
  ids_of (sample_merge sample_a sample_b) = [["tc-2"]; ["tc-3"; "length"; "required"]; ["tc-4"]].
Proof. vm_compute. reflexivity. Qed.

(** Two cases of one pass with one signature: the first one wins, so the order
    of the pass decides what the merged list holds. *)
Theorem repeated_signature_is_order_dependent :
  let c := sample_case "tc-1" "home" ["name"] ["required"] in
  let d := sample_case "tc-2" "home" ["name"] [] in
  ids_of (sample_merge (sample_run [c; d]) (sample_run [])) = [["tc-1"; "required"]] ∧
  ids_of (sample_merge (sample_run [d; c]) (sample_run [])) = [["tc-2"]].
Proof. vm_compute. split; reflexivity. Qed.

(** Two cases with one id and different signatures keep the order of the pass. *)
Theorem repeated_id_is_order_dependent :
  let c := sample_case "tc-1" "home" ["name"] ["required"] in
  let d := sample_case "tc-1" "login" ["user"] [] in
  ids_of (sample_merge (sample_run [c; d]) (sample_run [])) = [["tc-1"; "required"]; ["tc-1"]] ∧
  ids_of (sample_merge (sample_run [d; c]) (sample_run [])) = [["tc-1"]; ["tc-1"; "required"]].
Proof. vm_compute. split; reflexivity. Qed.

(** The requirement ids of the case that loses are dropped. *)
Theorem losing_requirements_are_dropped :
  ∃ m r c, sample_merge sample_a sample_b = Ok (m, r) ∧ c ∈ gl_testCases m ∧ tc_id c = "tc-3" ∧
    qs_coveredRequirementIds (tc_qualitySignals c) = Some ["REQ-tc-3"] ∧
    ∀ d, d ∈ gl_testCases m → qs_coveredRequirementIds (tc_qualitySignals d) ≠ Some ["REQ-tc-1"].
Proof.
  eexists _, _, _. split; [vm_compute; reflexivity|]. cbn [gl_testCases].
  split; [right; left|]. split; [reflexivity|]. split; [reflexivity|].
  intros d. rewrite !elem_of_cons. intros [->|[->|[->|?%not_elem_of_nil]]]; [discriminate..|done].
Qed.

(** A repeated id in the winner hides coverage that did grow. *)
Theorem repeated_id_hides_growth :
  let a := sample_case "tc-1" "home" ["name"] ["required"; "required"] in
  let b := sample_case "tc-2" "home" ["name"] ["length"] in
  me_qualitySignalsCoverageMerged (merged_entry [] [] a b).2 = false ∧
  qs_coveredValidationIds (tc_qualitySignals (merged_entry [] [] a b).1) = ["length"; "required"].
Proof. vm_compute. split; reflexivity. Qed.

Lemma merge_is_the_union_witness :
  ∃ m r, sample_merge sample_a sample_b = Ok (m, r) ∧ NoDup (signatures (gl_testCases m)).
Proof.
  eexists _, _. split; [vm_compute; reflexivity|].
  refine (proj1 (merge_is_the_union sample_a sample_b "2026-01-01T00:00:00.000Z" sample_repairs _ _ _)).
  vm_compute. reflexivity.
Defined.

Lemma merge_order_independent_witness :
  ∃ m r, sample_merge sample_a sample_b = Ok (m, r) ∧
    sample_merge (with_cases sample_a (reverse (gl_testCases sample_a))) sample_b = Ok (m, r).
Proof.
  eexists _, _. split; [vm_compute; reflexivity|].
  change sample_b with (with_cases sample_b (gl_testCases sample_b)).
  refine (merge_order_independent sample_a sample_b _ _ "2026-01-01T00:00:00.000Z" sample_repairs _ _ _ _ _ _ _ _).
  - vm_compute. reflexivity.
  - symmetry. apply reverse_Permutation.
  - reflexivity.
  - apply (bool_decide_unpack _). vm_compute. exact I.
  - apply (bool_decide_unpack _). vm_compute. exact I.
  - apply (bool_decide_unpack _). vm_compute. exact I.
Defined.
