(* ===== verification/FilePrograms.v ===== *)
(** * Programs over files

    An asynchronous function that works on files is a tree of file operations:
    between two of them, at an [await], other calls of this or another process may
    run. [run] executes one call alone; [pool_step] interleaves any number of calls.
    A crash is a call that is never scheduled again.

    [writeFile] is two operations: opening the file empties it ([None], a text that
    is not JSON, as is any part of a JSON text), and the text follows. The text is
    written at the path, which is the opened file as long as no other call renames it
    in between.

    [confined] says which paths a program touches whatever the operations answer.
    [guarded] is a rely-guarantee judgement: every operation of the program respects
    a guarantee, a relation between disks, given what the program has read so far, as
    long as the other calls respect what it relies on. *)

From S2P Require Import Prelude JsString NodePath JsList JsValue ArtifactFiles.

Inductive file_program (E A : Type) : Type :=
| fp_return (r : outcome E A)
| fp_exists (path : string) (k : bool → file_program E A)
| fp_read (path : string) (k : option (option json) → file_program E A)
| fp_list (dir : string) (k : list string → file_program E A)
| fp_open (path : string) (k : file_program E A)
| fp_write (path : string) (text : json) (k : file_program E A)
| fp_rename (from to : string) (k : bool → file_program E A).
Arguments fp_return {E A} r.
Arguments fp_exists {E A} path k.
Arguments fp_read {E A} path k.
Arguments fp_list {E A} dir k.
Arguments fp_open {E A} path k.
Arguments fp_write {E A} path text k.
Arguments fp_rename {E A} from to k.

Fixpoint fp_bind {E A B} (p : file_program E A) (f : A → file_program E B) : file_program E B :=
  match p with
  | fp_return (Ok a) => f a
  | fp_return (Throw e) => fp_return (Throw e)
  | fp_exists path k => fp_exists path (λ b, fp_bind (k b) f)
  | fp_read path k => fp_read path (λ t, fp_bind (k t) f)
  | fp_list dir k => fp_list dir (λ l, fp_bind (k l) f)
  | fp_open path k => fp_open path (fp_bind k f)
  | fp_write path text k => fp_write path text (fp_bind k f)
  | fp_rename from to k => fp_rename from to (λ b, fp_bind (k b) f)
  end.

Declare Scope file_scope.
Delimit Scope file_scope with file.
Notation "'let!' x := p 'in' q" := (fp_bind p (λ x, q)) (at level 10, x name, p at level 200, q at level 200) : file_scope.
Notation "p ;;! q" := (fp_bind p (λ _, q)) (at level 199, right associativity) : file_scope.

Definition fp_throw {E A} (e : E) : file_program E A := fp_return (Throw e).
Definition fp_ok {E A} (a : A) : file_program E A := fp_return (Ok a).

(** [await writeFile(path, text)] *)
Definition writeFile {E A} (path : string) (text : json) (k : file_program E A) : file_program E A :=
  fp_open path (fp_write path text k).

(** ** Execution *)

(** [readdir] with the names in code-unit order, in which the callers put them; a
    missing directory has none. *)
Definition list_names (d : disk) (dir : string) : list string := js_sort String.compare (list_directory d dir).

(** [rename]; [None] when there is no such file. *)
Definition rename_file (from to : string) (d : disk) : option disk :=
  (λ text, <[to := text]> (delete from d)) <$> d !! from.

Definition has_file (d : disk) (path : string) : bool := bool_decide (is_Some (d !! path)).

Definition file_op {E A} (p : file_program E A) (d : disk) : option (file_program E A * disk) :=
  match p with
  | fp_return _ => None
  | fp_exists path k => Some (k (has_file d path), d)
  | fp_read path k => Some (k (d !! path), d)
  | fp_list dir k => Some (k (list_names d dir), d)
  | fp_open path k => Some (k, <[path := None]> d)
  | fp_write path text k => Some (k, <[path := Some text]> d)
  | fp_rename from to k =>
      match rename_file from to d with Some d' => Some (k true, d') | None => Some (k false, d) end
  end.

Fixpoint run {E A} (p : file_program E A) (d : disk) : outcome E A * disk :=
  match p with
  | fp_return r => (r, d)
  | fp_exists path k => run (k (has_file d path)) d
  | fp_read path k => run (k (d !! path)) d
  | fp_list dir k => run (k (list_names d dir)) d
  | fp_open path k => run k (<[path := None]> d)
  | fp_write path text k => run k (<[path := Some text]> d)
  | fp_rename from to k =>
      match rename_file from to d with Some d' => run (k true) d' | None => run (k false) d end
  end.

(** A call run alone is its operations one after the other. *)
Lemma run_is_ops {E A} (p : file_program E A) d :
  rtc (λ x y, file_op x.1 x.2 = Some y) (p, d) (fp_return (run p d).1, (run p d).2).
Proof.
  revert d; induction p as [r|path k IH|path k IH|dir k IH|path k IH|path text k IH|from to k IH]; intros d; cbn [run];
    [reflexivity|..]; try (eapply rtc_l; [reflexivity|apply IH]).
  destruct (rename_file from to d) eqn:E1; (eapply rtc_l; [|apply IH]); cbn [file_op fst snd]; by rewrite E1.
Qed.

Lemma run_bind {E A B} (p : file_program E A) (f : A → file_program E B) d :
  run (fp_bind p f) d =
  match run p d with (Ok a, d') => run (f a) d' | (Throw e, d') => (Throw e, d') end.
Proof.
  revert d; induction p as [[a|e]|path k IH|path k IH|dir k IH|path k IH|path text k IH|from to k IH]; intros d;
    cbn [run fp_bind]; try done.
  by destruct (rename_file from to d).
Qed.

(** ** Confinement *)

Fixpoint confined {E A} (P : string → Prop) (p : file_program E A) : Prop :=
  match p with
  | fp_return _ => True
  | fp_exists path k => P path ∧ ∀ b, confined P (k b)
  | fp_read path k => P path ∧ ∀ t, confined P (k t)
  | fp_list dir k =>
      (∀ name, file_name_ok name = true → P (posix_join [dir; name])) ∧
      ∀ l, Forall (λ name, file_name_ok name = true) l → confined P (k l)
  | fp_open path k => P path ∧ confined P k
  | fp_write path text k => P path ∧ confined P k
  | fp_rename from to k => P from ∧ P to ∧ ∀ b, confined P (k b)
  end.

Lemma confined_bind {E A B} P (p : file_program E A) (f : A → file_program E B) :
  confined P p → (∀ a, confined P (f a)) → confined P (fp_bind p f).
Proof.
  intros Hp Hf. induction p as [[a|e]|path k IH|path k IH|dir k IH|path k IH|path text k IH|from to k IH];
    cbn in *; try done; naive_solver.
Qed.

(** Two disks with the same files among [P]. *)
Definition agree (P : string → Prop) (d1 d2 : disk) : Prop := ∀ path, P path → d1 !! path = d2 !! path.

Lemma agree_insert P d1 d2 path t : agree P d1 d2 → agree P (<[path := t]> d1) (<[path := t]> d2).
Proof.
  intros H q Hq. destruct (decide (q = path)) as [->|]; [by rewrite !lookup_insert_eq|].
  rewrite !lookup_insert_ne by done. by apply H.
Qed.

Lemma agree_delete P d1 d2 path : agree P d1 d2 → agree P (delete path d1) (delete path d2).
Proof.
  intros H q Hq. destruct (decide (q = path)) as [->|]; [by rewrite !lookup_delete_eq|].
  rewrite !lookup_delete_ne by done. by apply H.
Qed.

Lemma list_names_agree d1 d2 dir :
  (∀ name, file_name_ok name = true → d1 !! posix_join [dir; name] = d2 !! posix_join [dir; name]) →
  list_names d1 dir = list_names d2 dir.
Proof.
  intros H. apply js_sort_unique; [apply _|]. apply NoDup_Permutation; [apply list_directory_NoDup..|].
  intros name. rewrite !list_directory_spec. split; intros [Hn ?]; (split; [done|]); [rewrite <- H|rewrite H]; done.
Qed.

(** Whatever order [readdir] gives, the sorted names are these. *)
Lemma list_names_any d dir names : names ≡ₚ list_directory d dir → js_sort String.compare names = list_names d dir.
Proof. intros H. unfold list_names. by apply js_sort_unique; [apply _|]. Qed.

Lemma list_names_ok d dir : Forall (λ name, file_name_ok name = true) (list_names d dir).
Proof. apply Forall_forall. intros name Hn. by apply elem_of_js_sort, list_directory_spec in Hn as [? _]. Qed.

(** A confined call depends on no other file and changes no other file. *)
Lemma run_confined {E A} P (p : file_program E A) d1 d2 :
  confined P p → agree P d1 d2 → (run p d1).1 = (run p d2).1 ∧ agree P (run p d1).2 (run p d2).2.
Proof.
  revert d1 d2; induction p as [r|path k IH|path k IH|dir k IH|path k IH|path text k IH|from to k IH]; intros d1 d2 Hp Ha;
    cbn in *; [done|..].
  - destruct Hp as [Hpath Hk]. unfold has_file. rewrite (Ha _ Hpath). by apply IH.
  - destruct Hp as [Hpath Hk]. rewrite (Ha _ Hpath). by apply IH.
  - destruct Hp as [Hdir Hk]. rewrite (list_names_agree d1 d2) by auto. apply IH; [|done]. apply Hk, list_names_ok.
  - destruct Hp as [Hpath Hk]. apply IH; [done|]. by apply agree_insert.
  - destruct Hp as [Hpath Hk]. apply IH; [done|]. by apply agree_insert.
  - destruct Hp as (Hf & Ht & Hk). unfold rename_file. rewrite (Ha _ Hf). destruct (d2 !! from); cbn; [|by apply IH].
    apply IH; [done|]. by apply agree_insert, agree_delete.
Qed.

Lemma run_untouched {E A} P (p : file_program E A) d path :
  confined P p → ¬ P path → (run p d).2 !! path = d !! path.
Proof.
  intros Hp Hn. revert d Hp; induction p as [r|q k IH|q k IH|dir k IH|q k IH|q text k IH|from to k IH]; intros d Hp;
    cbn in *; [done|..]; try by (destruct Hp as [_ Hk]; apply IH).
  - destruct Hp as [_ Hk]. apply IH, Hk, list_names_ok.
  - destruct Hp as [Hq Hk]. rewrite IH by done. apply lookup_insert_ne. naive_solver.
  - destruct Hp as [Hq Hk]. rewrite IH by done. apply lookup_insert_ne. naive_solver.
  - destruct Hp as (Hf & Ht & Hk). unfold rename_file. destruct (d !! from); cbn; [|by apply IH].
    rewrite IH by done. rewrite lookup_insert_ne by naive_solver. apply lookup_delete_ne. naive_solver.
Qed.

(** ** Interleaving *)

Section pool.
Context {E A : Type} (calls : file_program E A → Prop).

(** The calls that were started, with what is left of each, and the disk. *)
Definition pool : Type := list (file_program E A) * disk.

Inductive pool_step : pool → pool → Prop :=
| step_call p ps d : calls p → pool_step (ps, d) (ps ++ [p], d)
| step_op i p p' ps d d' : ps !! i = Some p → file_op p d = Some (p', d') → pool_step (ps, d) (<[i := p']> ps, d').

Definition pool_reachable (d0 : disk) : pool → Prop := rtc pool_step ([], d0).
End pool.

(** A call that runs alone reaches its result in the pool. *)
Lemma pool_run_alone {E A} (calls : file_program E A → Prop) (p : file_program E A) ps d :
  calls p →
  rtc (pool_step calls) (ps, d) (ps ++ [fp_return (run p d).1], (run p d).2).
Proof.
  intros Hc. eapply rtc_l; [by apply step_call|].
  pose proof (rtc_congruence (λ x : file_program E A * disk, (ps ++ [x.1], x.2))
    (R := λ x y, file_op x.1 x.2 = Some y) (pool_step calls)) as Hc'.
  refine (Hc' _ _ _ (run_is_ops p d)).
  intros [q dq] [q' dq'] Hop. cbn in *.
  assert (ps ++ [q'] = <[length ps := q']> (ps ++ [q])) as -> by (rewrite insert_app_r_alt, Nat.sub_diag by lia; done).
  eapply step_op; [|exact Hop]. by rewrite lookup_app_r, Nat.sub_diag by lia.
Qed.

Section rely_guarantee.
Context (R G : disk → disk → Prop) `{!PreOrder R} `{!PreOrder G}.

(** What is known after an operation that saw [seen], as long as the others
    respect [R]. *)
Definition later (K : disk → Prop) (seen : disk → disk → Prop) (d : disk) : Prop :=
  ∃ d0 d1, K d0 ∧ seen d0 d1 ∧ R d1 d.

Fixpoint guarded {E A} (K : disk → Prop) (p : file_program E A) : Prop :=
  match p with
  | fp_return _ => True
  | fp_exists path k => ∀ b, guarded (later K (λ d0 d1, d1 = d0 ∧ has_file d0 path = b)) (k b)
  | fp_read path k => ∀ t, guarded (later K (λ d0 d1, d1 = d0 ∧ d0 !! path = t)) (k t)
  | fp_list dir k => ∀ l, guarded (later K (λ d0 d1, d1 = d0 ∧ list_names d0 dir = l)) (k l)
  | fp_open path k =>
      (∀ d, K d → G d (<[path := None]> d)) ∧
      guarded (later K (λ d0 d1, d1 = <[path := None]> d0)) k
  | fp_write path text k =>
      (∀ d, K d → G d (<[path := Some text]> d)) ∧
      guarded (later K (λ d0 d1, d1 = <[path := Some text]> d0)) k
  | fp_rename from to k =>
      (∀ d d', K d → rename_file from to d = Some d' → G d d') ∧
      guarded (later K (λ d0 d1, rename_file from to d0 = Some d1)) (k true) ∧
      guarded (later K (λ d0 d1, d1 = d0 ∧ rename_file from to d0 = None)) (k false)
  end.

Lemma later_mono K K' seen d : (∀ d, K' d → K d) → later K' seen d → later K seen d.
Proof. intros HK (d0 & d1 & ? & ? & ?). exists d0, d1. auto. Qed.

Lemma guarded_mono {E A} (p : file_program E A) (K K' : disk → Prop) :
  (∀ d, K' d → K d) → guarded K p → guarded K' p.
Proof.
  revert K K'; induction p as [r|path k IH|path k IH|dir k IH|path k IH|path text k IH|from to k IH]; intros K K' HK; cbn;
    [done|..].
  1-3: intros Hp x; eapply IH; [|apply Hp]; intros d; by apply later_mono.
  1-2: intros [Hw Hk]; split; [auto|]; eapply IH; [|exact Hk]; intros d; by apply later_mono.
  - intros (Hw & Ht & Hf). split; [eauto|]. split; (eapply IH; [|eassumption]); intros d; by apply later_mono.
Qed.

(** Nothing is to show about a point that is never reached. *)
Lemma guarded_unreachable {E A} (p : file_program E A) K : (∀ d, ¬ K d) → guarded K p.
Proof.
  assert (Hl : ∀ K seen, (∀ d, ¬ K d) → ∀ d, ¬ later K seen d) by (intros K0 seen HK d (d0 & _ & HK0 & _); by apply (HK d0)).
  revert K; induction p as [r|path k IH|path k IH|dir k IH|path k IH|path text k IH|from to k IH]; intros K HK; cbn; [done|..].
  1-3: intros x; by apply IH, Hl.
  1-2: split; [|by apply IH, Hl]; intros d Hd; by apply HK in Hd.
  - split; [|split; by apply IH, Hl]. intros d d' Hd. by apply HK in Hd.
Qed.

(** A program without writes respects everything. *)
Fixpoint read_only {E A} (p : file_program E A) : Prop :=
  match p with
  | fp_return _ => True
  | fp_exists _ k => ∀ b, read_only (k b)
  | fp_read _ k => ∀ t, read_only (k t)
  | fp_list _ k => ∀ l, read_only (k l)
  | fp_open _ _ | fp_write _ _ _ | fp_rename _ _ _ => False
  end.

Lemma read_only_guarded {E A} (p : file_program E A) K : read_only p → guarded K p.
Proof. revert K; induction p; intros K Hp; cbn in *; auto; done. Qed.

Definition stable (K : disk → Prop) : Prop := ∀ d d', K d → R d d' → K d'.

Lemma later_stable K seen : stable (later K seen).
Proof. intros d d' (d0 & d1 & HK & Hs & HR) HR'. exists d0, d1. split_and!; [done|done|by etrans]. Qed.

(** One operation of a guarded program respects the guarantee, and what is left is
    guarded. *)
Lemma guarded_op {E A} (p p' : file_program E A) K d d' :
  K d → guarded K p → file_op p d = Some (p', d') →
  G d d' ∧ ∃ K', stable K' ∧ K' d' ∧ guarded K' p'.
Proof.
  assert (Hnow : ∀ (seen : disk → disk → Prop) e e', K e → seen e e' → later K seen e')
    by (intros seen e e' HK Hs; exists e, e'; split_and!; [done|done|reflexivity]).
  intros HK Hg. destruct p as [r|path k|path k|dir k|path k|path text k|from to k]; cbn in *; [done|..].
  1-3: intros [= <- <-]; split; [reflexivity|]; eexists; split; [apply later_stable|]; split; [|apply Hg];
    by apply Hnow with d.
  1-2: destruct Hg as [Hw Hk]; intros [= <- <-]; split; [auto|]; eexists; split; [apply later_stable|];
    split; [|exact Hk]; by apply Hnow with d.
  - destruct Hg as (Hw & Ht & Hf). destruct (rename_file from to d) as [e|] eqn:Hr; intros [= <- <-].
    + split; [eauto|]. eexists. split; [apply later_stable|]. split; [|exact Ht]. by apply Hnow with d.
    + split; [reflexivity|]. eexists. split; [apply later_stable|]. split; [|exact Hf]. by apply Hnow with d.
Qed.

Lemma guarded_run {E A} (p : file_program E A) K d : guarded K p → K d → G d (run p d).2.
Proof.
  assert (Hnow : ∀ K (seen : disk → disk → Prop) e e', K e → seen e e' → later K seen e')
    by (intros K0 seen e e' HK Hs; exists e, e'; split_and!; [done|done|reflexivity]).
  revert K d; induction p as [r|path k IH|path k IH|dir k IH|path k IH|path text k IH|from to k IH]; intros K d Hg HK;
    cbn in *; [reflexivity|..].
  1-3: eapply IH; [apply Hg|]; by apply Hnow with d.
  1-2: destruct Hg as [Hw Hk]; etrans; [by apply Hw|]; eapply IH; [exact Hk|]; by apply Hnow with d.
  - destruct Hg as (Hw & Ht & Hf). destruct (rename_file from to d) as [e|] eqn:Hr.
    + etrans; [by eapply Hw|]. eapply IH; [exact Ht|]. by apply Hnow with d.
    + eapply IH; [exact Hf|]. by apply Hnow with d.
Qed.
End rely_guarantee.

(** Any interleaving of calls that rely on what they guarantee respects it. *)
Lemma pool_respects {E A} (R : disk → disk → Prop) `{!PreOrder R} (calls : file_program E A → Prop) d0 ps d :
  (∀ p, calls p → guarded R R (λ _, True) p) →
  pool_reachable calls d0 (ps, d) →
  R d0 d ∧ Forall (λ p, ∃ K, stable R K ∧ K d ∧ guarded R R K p) ps.
Proof.
  intros Hcalls Hr.
  refine (rtc_ind_r (λ c, R d0 c.2 ∧ Forall (λ p, ∃ K, stable R K ∧ K c.2 ∧ guarded R R K p) c.1) ([], d0) _ _ (ps, d) Hr).
  { split; [reflexivity|constructor]. }
  intros c c' _ Hstep [HR HF]. destruct Hstep as [p ps0 d1 Hp|i p p' ps0 d1 d2 Hi Hop]; cbn [fst snd] in *.
  - split; [done|]. apply Forall_app. split; [done|].
    constructor; [|constructor]. exists (λ _, True). split; [done|]. split; [done|]. by apply Hcalls.
  - destruct (proj1 (Forall_lookup _ _) HF _ _ Hi) as (K & Hst & HK & Hg).
    destruct (guarded_op _ _ _ _ _ _ _ HK Hg Hop) as [HR' HK']. split; [by etrans|].
    apply Forall_insert; [|done].
    eapply Forall_impl; [exact HF|]. intros q (Kq & Hstq & HKq & Hgq). exists Kq. split_and!; [done|by eapply Hstq|done].
Qed.

(** ** Calls that own a file *)

(** A call may own a file, its temporary one. A call starts only when no unfinished
    call owns the same file; a crash takes a call away, wherever it is. *)
Section owned.
Context {E A : Type} (calls : option string → file_program E A → Prop).

Definition finished (p : file_program E A) : Prop := ∃ r, p = fp_return r.
Definition owned_pool : Type := list (option string * file_program E A) * disk.

Inductive owned_step : owned_pool → owned_pool → Prop :=
| owned_call o p ps d :
    calls o p → (∀ t q, o = Some t → (Some t, q) ∈ ps → finished q) → owned_step (ps, d) (ps ++ [(o, p)], d)
| owned_op i o p p' ps d d' :
    ps !! i = Some (o, p) → file_op p d = Some (p', d') → owned_step (ps, d) (<[i := (o, p')]> ps, d')
| owned_crash i ps d : owned_step (ps, d) (delete i ps, d).

Definition owned_reachable (d0 : disk) : owned_pool → Prop := rtc owned_step ([], d0).

(** Two entries of one owner are not both unfinished. *)
Definition owners_distinct (ps : list (option string * file_program E A)) : Prop :=
  ∀ i j t p q, i ≠ j → ps !! i = Some (Some t, p) → ps !! j = Some (Some t, q) → finished p ∨ finished q.

Lemma owners_distinct_call o p ps :
  owners_distinct ps → (∀ t q, o = Some t → (Some t, q) ∈ ps → finished q) → owners_distinct (ps ++ [(o, p)]).
Proof.
  intros Hd Hn i j t p1 p2 Hij [[_ Hi]|[Ei [= E1 E2]]]%lookup_snoc_Some [[_ Hj]|[Ej [= E3 E4]]]%lookup_snoc_Some.
  - by eapply Hd.
  - left. eapply Hn; [done|]. by eapply list_elem_of_lookup_2.
  - right. eapply Hn; [done|]. by eapply list_elem_of_lookup_2.
  - lia.
Qed.

Lemma owners_distinct_op i o p p' ps :
  owners_distinct ps → ps !! i = Some (o, p) → ¬ finished p → owners_distinct (<[i := (o, p')]> ps).
Proof.
  intros Hd Hi Hp j k t p1 p2 Hjk Hj Hk.
  destruct (decide (i = j)) as [<-|Hij]; [|destruct (decide (i = k)) as [<-|Hik]].
  - rewrite list_lookup_insert_eq in Hj by (by eapply lookup_lt_Some). injection Hj as -> ->.
    rewrite list_lookup_insert_ne in Hk by done. right. by destruct (Hd _ _ _ _ _ Hjk Hi Hk).
  - rewrite list_lookup_insert_eq in Hk by (by eapply lookup_lt_Some). injection Hk as -> ->.
    rewrite list_lookup_insert_ne in Hj by done. left. by destruct (Hd _ _ _ _ _ Hjk Hj Hi).
  - rewrite list_lookup_insert_ne in Hj, Hk by done. exact (Hd j k t p1 p2 Hjk Hj Hk).
Qed.

Lemma owners_distinct_crash i ps : owners_distinct ps → owners_distinct (delete i ps).
Proof.
  intros Hd j k t p q Hjk Hj Hk. rewrite list_lookup_delete in Hj, Hk.
  destruct (decide (j < i)%nat), (decide (k < i)%nat); (eapply Hd; [|exact Hj|exact Hk]); lia.
Qed.
End owned.

(** What a call relies on and guarantees may depend on the file it owns; the others
    must guarantee what it relies on, except another call of the same owner, of
    which one is finished. *)
Section owned_respects.
Context {E A : Type} (calls : option string → file_program E A → Prop) (R G : option string → disk → disk → Prop).
Context `{!∀ o, PreOrder (R o)} `{!∀ o, PreOrder (G o)}.
Context (others : ∀ o o' d d', o = None ∨ o ≠ o' → G o d d' → R o' d d').
Context (calls_guarded : ∀ o p, calls o p → guarded (R o) (G o) (λ _, True) p).

(** What is known of a call and of the disk. *)
Definition in_progress (d : disk) (x : option string * file_program E A) : Prop :=
  ∃ K, stable (R x.1) K ∧ K d ∧ guarded (R x.1) (G x.1) K x.2.

Lemma finished_in_progress d o p : finished p → in_progress d (o, p).
Proof. intros [r ->]. by exists (λ _, True). Qed.

Lemma in_progress_stable d d' o o' p : o = None ∨ o ≠ o' → G o d d' → in_progress d (o', p) → in_progress d' (o', p).
Proof. intros Ho HG (K & Hst & HK & Hg). exists K. split_and!; [done| |done]. cbn in *. by eapply Hst, others. Qed.

Definition pool_known (d0 : disk) (c : owned_pool) : Prop :=
  R None d0 c.2 ∧ owners_distinct c.1 ∧ Forall (in_progress c.2) c.1.

Lemma pool_known_op d0 i o p p' ps d d' :
  pool_known d0 (ps, d) → ps !! i = Some (o, p) → file_op p d = Some (p', d') →
  pool_known d0 (<[i := (o, p')]> ps, d').
Proof.
  intros (HR & Hd & HF) Hi Hop. cbn in *.
  assert (Hp : ¬ finished p) by by intros [r ->].
  destruct (proj1 (Forall_lookup _ _) HF _ _ Hi) as (K & Hst & HK & Hg). cbn in *.
  destruct (guarded_op _ _ _ _ _ _ _ HK Hg Hop) as (HG & HK').
  split; [|split; [by eapply owners_distinct_op|]]; cbn.
  { etrans; [done|]. apply (others o None); [|done]. destruct o; [by right|by left]. }
  apply Forall_lookup. intros j [o' q] Hj.
  apply list_lookup_insert_Some in Hj as [(-> & [= <- <-] & _)|[Hij Hj]]; [exact HK'|].
  pose proof (proj1 (Forall_lookup _ _) HF _ _ Hj) as Hq.
  destruct (decide (o = None ∨ o ≠ o')) as [Ho|Ho]; [by eapply in_progress_stable|].
  destruct o as [t|]; [|by destruct Ho; left]. destruct (decide (o' = Some t)) as [->|]; [|by destruct Ho; right; congruence].
  apply finished_in_progress. by destruct (Hd _ _ _ _ _ Hij Hi Hj).
Qed.

Lemma owned_respects d0 ps d : owned_reachable calls d0 (ps, d) → R None d0 d.
Proof.
  intros Hr. enough (pool_known d0 (ps, d)) as [? _] by done.
  refine (rtc_ind_r (pool_known d0) ([], d0) _ _ (ps, d) Hr).
  { split; [reflexivity|]. split; [|constructor]. by intros i j t p q _ Hi. }
  intros c c' _ Hstep Hk. destruct Hstep as [o p ps0 d1 Hp Ho|i o p p' ps0 d1 d2 Hi Hop|i ps0 d1].
  - destruct Hk as (HR & Hd & HF). split; [done|]. split; [by apply owners_distinct_call|].
    apply Forall_app. split; [done|]. constructor; [|constructor]. exists (λ _, True). split_and!; [done|done|]. by apply calls_guarded.
  - by eapply pool_known_op.
  - destruct Hk as (HR & Hd & HF). split; [done|]. split; [by apply owners_distinct_crash|]. by apply Forall_delete.
Qed.
End owned_respects.

(** ** Rules for checks and binds *)

Lemma confined_check {E A B} P (c : outcome E A) (f : A → file_program E B) :
  (∀ a, c = Ok a → confined P (f a)) → confined P (fp_bind (fp_return c) f).
Proof. destruct c; cbn; auto. Qed.

Lemma read_only_bind {E A B} (p : file_program E A) (f : A → file_program E B) :
  read_only p → (∀ a, read_only (f a)) → read_only (fp_bind p f).
Proof. intros Hp Hf. induction p as [[a|e]| | | | | |]; cbn in *; auto; done. Qed.

Lemma read_only_run {E A} (p : file_program E A) d : read_only p → (run p d).2 = d.
Proof. intros Hp. induction p; cbn in *; auto; done. Qed.

Section rules.
Context (R G : disk → disk → Prop) `{!PreOrder R}.

Lemma guarded_check {E A B} K (c : outcome E A) (f : A → file_program E B) :
  (∀ a, c = Ok a → guarded R G K (f a)) → guarded R G K (fp_bind (fp_return c) f).
Proof. destruct c; cbn; auto. Qed.

Lemma guarded_bind {E A B} K (p : file_program E A) (f : A → file_program E B) :
  guarded R G K p → (∀ a, read_only (f a)) → guarded R G K (fp_bind p f).
Proof.
  intros Hp Hf. revert K Hp; induction p as [[a|e]| | | | | |]; intros K Hp; cbn in *; [|done|..]; try naive_solver.
  by apply read_only_guarded.
Qed.

End rules.

(** A call confined to paths outside [Q] respects the files of [Q]. *)
Lemma confined_guarded {E A} P Q (p : file_program E A) K :
  (∀ path, P path → ¬ Q path) → confined P p → guarded (agree Q) (agree Q) K p.
Proof.
  intros HPQ. revert K; induction p as [r|path k IH|path k IH|dir k IH|path k IH|path text k IH|from to k IH]; intros K Hp;
    cbn in *; [done|naive_solver|naive_solver|..].
  - intros l. destruct (decide (Forall (λ name, file_name_ok name = true) l)) as [Hl|Hl]; [apply IH; naive_solver|].
    apply guarded_unreachable. intros d (d0 & d1 & _ & [_ <-] & _). apply Hl, list_names_ok.
  - destruct Hp as [Hpath Hk]. split; [|by apply IH]. intros d _ q Hq. rewrite lookup_insert_ne; [done|]. naive_solver.
  - destruct Hp as [Hpath Hk]. split; [|by apply IH]. intros d _ q Hq. rewrite lookup_insert_ne; [done|]. naive_solver.
  - destruct Hp as (Hf & Ht & Hk). split; [|split; by apply IH].
    intros d d' _ Hr q Hq. unfold rename_file in Hr. destruct (d !! from); [|done]. injection Hr as <-.
    rewrite lookup_insert_ne by naive_solver. rewrite lookup_delete_ne by naive_solver. done.
Qed.

#[export] Instance agree_preorder Q : PreOrder (agree Q).
Proof. split; [by intros d q|]. intros d1 d2 d3 H1 H2 q Hq. by rewrite H1, H2. Qed.

(** ** Schedules, to run examples *)

(** Each entry lets the call of that index make one operation. *)
Fixpoint run_schedule {E A} (schedule : list nat) (c : list (file_program E A) * disk) : list (file_program E A) * disk :=
  match schedule with
  | [] => c
  | i :: rest =>
      match p ← c.1 !! i; file_op p c.2 with
      | Some (p', d') => run_schedule rest (<[i := p']> c.1, d')
      | None => run_schedule rest c
      end
  end.

Lemma schedule_reachable {E A} (calls : file_program E A → Prop) schedule c :
  rtc (pool_step calls) c (run_schedule schedule c).
Proof.
  revert c; induction schedule as [|i rest IH]; intros [ps d]; cbn; [reflexivity|].
  destruct (ps !! i) as [p|] eqn:Hi; cbn; [|apply IH]. destruct (file_op p d) as [[p' d']|] eqn:Hop; [|apply IH].
  eapply rtc_l; [by eapply step_op|]. apply IH.
Qed.

Lemma start_calls {E A} (calls : file_program E A → Prop) ps qs d :
  Forall calls qs → rtc (pool_step calls) (ps, d) (ps ++ qs, d).
Proof.
  intros Hq. revert ps; induction Hq as [|q qs Hq _ IH]; intros ps; [by rewrite app_nil_r|].
  eapply rtc_l; [by apply step_call|]. specialize (IH (ps ++ [q])). by rewrite <- app_assoc in IH.
Qed.

(** The same for calls that own files. *)
Fixpoint run_owned {E A} (schedule : list nat) (c : @owned_pool E A) : owned_pool :=
  match schedule with
  | [] => c
  | i :: rest =>
      match x ← c.1 !! i; prod_map (pair x.1) id <$> file_op x.2 c.2 with
      | Some (x', d') => run_owned rest (<[i := x']> c.1, d')
      | None => run_owned rest c
      end
  end.

Lemma run_owned_reachable {E A} (calls : option string → file_program E A → Prop) schedule c :
  rtc (owned_step calls) c (run_owned schedule c).
Proof.
  revert c; induction schedule as [|i rest IH]; intros [ps d]; cbn; [reflexivity|].
  destruct (ps !! i) as [[o p]|] eqn:Hi; cbn; [|apply IH]. destruct (file_op p d) as [[p' d']|] eqn:Hop; [|apply IH].
  eapply rtc_l; [by eapply owned_op|]. apply IH.
Qed.

(** Calls of different owners may start together. *)
Lemma start_owned {E A} (calls : option string → file_program E A → Prop) ps qs d :
  Forall (λ x, calls x.1 x.2) qs → NoDup (omap fst (ps ++ qs)) →
  rtc (owned_step calls) (ps, d) (ps ++ qs, d).
Proof.
  intros Hq. revert ps; induction Hq as [|[o q] qs Hc _ IH]; intros ps Hnd; [by rewrite app_nil_r|].
  eapply rtc_l; [apply (owned_call _ o q); [exact Hc|]|].
  - intros t p -> Hin. exfalso. rewrite omap_app in Hnd. apply NoDup_app in Hnd as (_ & Hdis & _).
    apply (Hdis t); [apply list_elem_of_omap; by exists (Some t, p)|]. cbn. left.
  - specialize (IH (ps ++ [(o, q)])). rewrite <- app_assoc in IH. by apply IH.
Qed.
