(* ===== verification/HumanReviewQueue.v ===== *)
(** * Human-review queue

    [packages/review/src/human-review-queue.ts]: the queue of cases that need a human
    decision, a directory per tenant with a file per item, per verdict and per run log.

    Items and verdicts are JSON values, as the callers pass them and as the files hold
    them. Every call is a [file_program]. The signature is checked by node:crypto, a
    parameter; the text it covers is represented by the JSON value of the body. A root
    directory is the one [resolve] has made absolute and normal. The code points
    U+2028 and U+2029 do not occur in the modelled strings. *)

From Stdlib Require Import Ascii.
From S2P Require Import Prelude JsString NodePath JsList JsValue CanonicalJson Contracts JsonView.
From S2P Require Import TestCaseValidator ArtifactFiles FilePrograms HumanReview.

(** ** Constants and errors *)

Definition HUMAN_REVIEW_QUEUE_ITEM_SCHEMA_VERSION : string := "1.0.0".
Definition HUMAN_REVIEW_VERDICT_SCHEMA_VERSION : string := "1.0.0".
Definition HUMAN_REVIEW_LOG_SCHEMA_VERSION : string := "1.0.0".
Definition HUMAN_REVIEW_VERDICT_RATIONALE_MAX_CHARS : nat := 4096.
Definition HUMAN_REVIEW_QUEUE_VERDICT_LABELS : list string := ["approved"; "rejected"; "revised"].
Definition HUMAN_REVIEW_POLICY_WARNING_RULE : string := "policy:human-review-sla-breach".

Inductive QueueErrorCode : Type :=
| E_INVALID_SEGMENT | E_INVALID_TIMESTAMP | E_INVALID_RATIONALE | E_INVALID_VERDICT | E_INVALID_SCHEMA
| E_INVALID_FIELD | E_INVALID_SLA | E_INVALID_SIGNATURE | E_INVALID_KEY | E_KEY_FINGERPRINT_MISMATCH
| E_SIGNATURE_INVALID | E_QUEUE_ITEM_ALREADY_EXISTS | E_QUEUE_ITEM_NOT_FOUND | E_VERDICT_ALREADY_RECORDED.

(** A refusal of the module, a property read of [null], a text that is not JSON, and
    a file that is not there. *)
Inductive QueueError : Type :=
| HumanReviewQueueError (code : QueueErrorCode)
| qe_null
| qe_not_json (path : string)
| qe_no_such_file (path : string).

#[export] Instance QueueErrorCode_eq_dec : EqDecision QueueErrorCode.
Proof. solve_decision. Defined.
#[export] Instance QueueError_eq_dec : EqDecision QueueError.
Proof. solve_decision. Defined.

Abbreviation checked := (outcome QueueError).

Definition fail_if (b : bool) (code : QueueErrorCode) : checked unit := guard_throw b (HumanReviewQueueError code).

(** ** Checks *)

(** [SAFE_PATH_SEGMENT] *)
Definition segment_start (c : ascii) : bool :=
  let n := nat_of_ascii c in
  ((48 <=? n) && (n <=? 57) || (65 <=? n) && (n <=? 90) || (97 <=? n) && (n <=? 122))%nat.
Definition segment_char (c : ascii) : bool :=
  segment_start c || Ascii.eqb c "." || Ascii.eqb c "_" || Ascii.eqb c "-".
Definition safe_segment (s : string) : bool :=
  match s with
  | EmptyString => false
  | String c r => segment_start c && all_chars segment_char r && (String.length r <=? 127)%nat
  end.

(** The alternatives the code tests before the pattern are strings the pattern
    rejects ([safe_segment_proper]). *)
Definition assertSafeSegment (value : option json) : checked unit :=
  fail_if (negb (string_where safe_segment value)) E_INVALID_SEGMENT.

Definition assertIso8601 (value : option json) : checked unit :=
  fail_if (negb (string_where is_iso_8601 value)) E_INVALID_TIMESTAMP.

Definition rationale_ok (s : string) : bool :=
  negb (bool_decide (s = "")) && (String.length s <=? HUMAN_REVIEW_VERDICT_RATIONALE_MAX_CHARS)%nat
  && negb (has_char "010" s || has_char "013" s || has_char "000" s).
Definition assertRationale (value : option json) : checked unit :=
  fail_if (negb (string_where rationale_ok value)) E_INVALID_RATIONALE.

Definition assertVerdictLabel (value : option json) : checked unit :=
  fail_if (negb (string_where (λ s, bool_decide (s ∈ HUMAN_REVIEW_QUEUE_VERDICT_LABELS)) value)) E_INVALID_VERDICT.

Definition isHex (length : nat) : option json → bool :=
  string_where (λ s, (String.length s =? length)%nat && all_chars is_hex_digit s).

(** [a < b] on two strings. *)
Definition text_lt (a b : string) : bool := match String.compare a b with Lt => true | _ => false end.

Definition string_at (k : string) (v : json) : string := default "" (text_field k v).

Definition disagreement_rate_ok (v : option json) : bool :=
  match v with Some (JNumber q) => Qle_bool 0 q && Qle_bool q 1 | _ => false end.

Definition is_array (v : option json) : bool := match v with Some (JArray _) => true | _ => false end.

Definition assertHumanReviewQueueItemInvariants (item : json) : checked unit :=
  (guard_throw (bool_decide (item = JNull)) qe_null ;;;
   fail_if (negb (Json.eq_string (field "schemaVersion" item) HUMAN_REVIEW_QUEUE_ITEM_SCHEMA_VERSION)) E_INVALID_SCHEMA ;;;
   fail_if (negb (Json.eq_string (field "contractVersion" item) TEST_INTELLIGENCE_CONTRACT_VERSION)) E_INVALID_SCHEMA ;;;
   assertSafeSegment (field "itemId" item) ;;;
   assertSafeSegment (field "tenantId" item) ;;;
   assertSafeSegment (field "profileId" item) ;;;
   assertSafeSegment (field "runId" item) ;;;
   fail_if (negb (string_where (λ s, negb (bool_decide (s = ""))) (field "testCaseId" item))) E_INVALID_FIELD ;;;
   assertIso8601 (field "enqueuedAt" item) ;;;
   assertIso8601 (field "slaDeadlineAt" item) ;;;
   fail_if (text_lt (string_at "slaDeadlineAt" item) (string_at "enqueuedAt" item)) E_INVALID_SLA ;;;
   fail_if (negb (Json.is_string (field "proposedDecision" item))) E_INVALID_FIELD ;;;
   fail_if (negb (disagreement_rate_ok (field "judgeDisagreement" item ≫= field "disagreementRate"))) E_INVALID_FIELD ;;;
   fail_if (negb (is_array (field "judgeDisagreement" item ≫= field "judges"))) E_INVALID_FIELD)%outcome.

Definition is_revised (verdict : json) : bool := Json.eq_string (field "verdict" verdict) "revised".

Definition assertHumanReviewVerdictInvariants (verdict : json) : checked unit :=
  (guard_throw (bool_decide (verdict = JNull)) qe_null ;;;
   fail_if (negb (Json.eq_string (field "schemaVersion" verdict) HUMAN_REVIEW_VERDICT_SCHEMA_VERSION)) E_INVALID_SCHEMA ;;;
   fail_if (negb (Json.eq_string (field "contractVersion" verdict) TEST_INTELLIGENCE_CONTRACT_VERSION)) E_INVALID_SCHEMA ;;;
   assertSafeSegment (field "itemId" verdict) ;;;
   assertVerdictLabel (field "verdict" verdict) ;;;
   assertRationale (field "rationale" verdict) ;;;
   assertIso8601 (field "decidedAt" verdict) ;;;
   fail_if (negb (isHex 64 (field "reviewerPrincipalHash" verdict))) E_INVALID_FIELD ;;;
   fail_if (negb (isHex 128 (field "signatureHex" verdict))) E_INVALID_SIGNATURE ;;;
   fail_if (negb (isHex 64 (field "publicKeyFingerprintSha256" verdict))) E_INVALID_FIELD ;;;
   fail_if (negb (string_where (includes "BEGIN PUBLIC KEY") (field "publicKeyPem" verdict))) E_INVALID_FIELD ;;;
   fail_if (negb (is_revised verdict) && bool_decide (is_Some (field "revisedTestCase" verdict))) E_INVALID_FIELD ;;;
   fail_if (is_revised verdict && negb (from_option Json.isRecord false (field "revisedTestCase" verdict)))
     E_INVALID_FIELD)%outcome.

(** ** Signatures *)

(** What the module uses of node:crypto. *)
Class VerdictCrypto := {
  public_key : Type;
  createPublicKey : string → option public_key;
  asymmetricKeyType : public_key → string;
  spki_sha256 : public_key → string;
  ed25519_verify : json → public_key → string → bool;
}.

(** The body of a verdict: every property but [signatureHex]. *)
Definition verdict_body (verdict : json) : json :=
  match verdict with JObject fields => JObject (filter (λ p, p.1 ≠ "signatureHex") fields) | _ => verdict end.

Definition buildVerdictSigningPayload (body : json) : json := canonicalJson body.

Definition verifyVerdictSignature `{VerdictCrypto} (verdict : json) : checked unit :=
  match createPublicKey (string_at "publicKeyPem" verdict) with
  | None => Throw (HumanReviewQueueError E_INVALID_KEY)
  | Some key =>
      (fail_if (negb (bool_decide (asymmetricKeyType key = "ed25519"))) E_INVALID_KEY ;;;
       fail_if (negb (bool_decide (spki_sha256 key = string_at "publicKeyFingerprintSha256" verdict)))
         E_KEY_FINGERPRINT_MISMATCH ;;;
       fail_if (negb (ed25519_verify (buildVerdictSigningPayload (verdict_body verdict)) key
                        (string_at "signatureHex" verdict)))
         E_SIGNATURE_INVALID)%outcome
  end.

(** ** Paths *)

Record HumanReviewQueueLayout := {
  tenantRoot : string;
  queueDir : string;
  verdictsDir : string;
  runsDir : string;
}.

Definition resolveLayout (rootDir tenantId : string) : checked HumanReviewQueueLayout :=
  (assertSafeSegment (Some (JString tenantId)) ;;;
   let root := posix_join [rootDir; tenantId] in
   Ok {| tenantRoot := root; queueDir := posix_join [root; "queue"]; verdictsDir := posix_join [root; "verdicts"];
         runsDir := posix_join [root; "runs"] |})%outcome.

Definition queueItemPath (layout : HumanReviewQueueLayout) (itemId : string) : checked string :=
  (assertSafeSegment (Some (JString itemId)) ;;; Ok (posix_join [queueDir layout; itemId +:+ ".json"]))%outcome.
Definition verdictPath (layout : HumanReviewQueueLayout) (itemId : string) : checked string :=
  (assertSafeSegment (Some (JString itemId)) ;;; Ok (posix_join [verdictsDir layout; itemId +:+ ".json"]))%outcome.
Definition runLogPath (layout : HumanReviewQueueLayout) (runId : string) : checked string :=
  (assertSafeSegment (Some (JString runId)) ;;; Ok (posix_join [runsDir layout; runId +:+ ".log.json"]))%outcome.

(** ** File access *)

Definition queue_program (A : Type) : Type := file_program QueueError A.

#[local] Open Scope file_scope.

Definition queue_temp_path (pid path : string) : string := path +:+ "." +:+ pid +:+ ".tmp".

Definition writeAtomicJson (pid path : string) (value : json) : queue_program unit :=
  let tmp := queue_temp_path pid path in
  writeFile tmp (canonicalJson value)
    (fp_rename tmp path (λ ok, if ok then fp_ok tt else fp_throw (qe_no_such_file tmp))).

Definition readJsonFile (path : string) : queue_program json :=
  fp_read path (λ text,
    match text with
    | None => fp_throw (qe_no_such_file path)
    | Some None => fp_throw (qe_not_json path)
    | Some (Some value) => fp_ok value
    end).

Definition exists_file (path : string) : queue_program bool := fp_exists path fp_ok.

Fixpoint fp_map_list {A B} (f : A → queue_program B) (l : list A) : queue_program (list B) :=
  match l with
  | [] => fp_ok []
  | x :: rest => let! y := f x in let! ys := fp_map_list f rest in fp_ok (y :: ys)
  end.

Fixpoint fp_filter_list {A} (f : A → queue_program bool) (l : list A) : queue_program (list A) :=
  match l with
  | [] => fp_ok []
  | x :: rest => let! b := f x in let! ys := fp_filter_list f rest in fp_ok (if b then x :: ys else ys)
  end.

Definition same_json (a b : json) : bool := bool_decide (canonicalJson a = canonicalJson b).

(** The JSON files of a directory, in the order of their names, each checked. *)
Definition read_directory (check : json → checked unit) (dir : string) : queue_program (list json) :=
  fp_list dir (λ names,
    fp_map_list (λ name,
      let! value := readJsonFile (posix_join [dir; name]) in
      fp_return (check value) ;;! fp_ok value)
      (filter (λ name, ends_with ".json" name = true) names)).

(** [(a, b) => a.itemId.localeCompare(b.itemId)] *)
Definition by_item_id `{LocaleCompare} : json → json → comparison := cmp_on (string_at "itemId") localeCompare.

(** ** Data of the calls *)

Record HumanReviewFilter := {
  hf_tenantId : string;
  hf_profileId : option string;
  hf_slaDueBy : option string;
}.

Record HumanReviewSlaBreachEntry := {
  hs_itemId : string;
  hs_testCaseId : string;
  hs_slaDeadlineAt : string;
  hs_observedAt : string;
}.

Record HumanReviewLog := {
  hl_schemaVersion : string;
  hl_contractVersion : string;
  hl_jobId : string;
  hl_tenantId : string;
  hl_generatedAt : string;
  hl_items : list json;
  hl_verdicts : list json;
  hl_slaBreaches : list HumanReviewSlaBreachEntry;
}.

Definition breach_json (b : HumanReviewSlaBreachEntry) : json :=
  JObject [("itemId", JString (hs_itemId b)); ("testCaseId", JString (hs_testCaseId b));
           ("slaDeadlineAt", JString (hs_slaDeadlineAt b)); ("observedAt", JString (hs_observedAt b))].

Definition log_json (l : HumanReviewLog) : json :=
  JObject [("schemaVersion", JString (hl_schemaVersion l)); ("contractVersion", JString (hl_contractVersion l));
           ("jobId", JString (hl_jobId l)); ("tenantId", JString (hl_tenantId l));
           ("generatedAt", JString (hl_generatedAt l)); ("items", JArray (hl_items l));
           ("verdicts", JArray (hl_verdicts l)); ("slaBreaches", JArray (breach_json <$> hl_slaBreaches l))].

Definition matchesFilter (item : json) (f : HumanReviewFilter) : bool :=
  bool_decide (string_at "tenantId" item = hf_tenantId f)
  && from_option (λ p, bool_decide (string_at "profileId" item = p)) true (hf_profileId f)
  && from_option (λ due, negb (text_lt due (string_at "slaDeadlineAt" item))) true (hf_slaDueBy f).

(** ** The store *)

Section store.
Context `{LocaleCompare} `{VerdictCrypto} (rootDir : string).

(** [createFilesystemQueueStore]; [pid] is the process of the caller. *)
Definition enqueue (pid : string) (item : json) : queue_program unit :=
  fp_return (assertHumanReviewQueueItemInvariants item) ;;!
  let! layout := fp_return (resolveLayout rootDir (string_at "tenantId" item)) in
  let! path := fp_return (queueItemPath layout (string_at "itemId" item)) in
  let! there := exists_file path in
  if there then
    let! existing := readJsonFile path in
    fp_return (fail_if (negb (same_json existing item)) E_QUEUE_ITEM_ALREADY_EXISTS)
  else writeAtomicJson pid path item.

Definition listQueueDir (layout : HumanReviewQueueLayout) : queue_program (list json) :=
  read_directory assertHumanReviewQueueItemInvariants (queueDir layout).

(** The item has no recorded verdict. *)
Definition undecided (layout : HumanReviewQueueLayout) (item : json) : queue_program bool :=
  let! path := fp_return (verdictPath layout (string_at "itemId" item)) in
  let! there := exists_file path in
  fp_ok (negb there).

Definition fetchPending (f : HumanReviewFilter) : queue_program (list json) :=
  fp_return (match hf_slaDueBy f with None => Ok tt | Some due => assertIso8601 (Some (JString due)) end) ;;!
  let! layout := fp_return (resolveLayout rootDir (hf_tenantId f)) in
  let! items := listQueueDir layout in
  let! pending := fp_filter_list (undecided layout) (filter (λ item, matchesFilter item f = true) items) in
  fp_ok (js_sort by_item_id pending).

Definition getItem (tenantId itemId : string) : queue_program (option json) :=
  let! layout := fp_return (resolveLayout rootDir tenantId) in
  let! path := fp_return (queueItemPath layout itemId) in
  let! there := exists_file path in
  if there then
    let! item := readJsonFile path in
    fp_return (assertHumanReviewQueueItemInvariants item) ;;! fp_ok (Some item)
  else fp_ok None.

Definition loadRunLog (tenantId runId : string) : queue_program (option json) :=
  let! layout := fp_return (resolveLayout rootDir tenantId) in
  let! path := fp_return (runLogPath layout runId) in
  let! there := exists_file path in
  if there then let! log := readJsonFile path in fp_ok (Some log) else fp_ok None.

Definition sorted_log (log : HumanReviewLog) : HumanReviewLog :=
  {| hl_schemaVersion := hl_schemaVersion log; hl_contractVersion := hl_contractVersion log;
     hl_jobId := hl_jobId log; hl_tenantId := hl_tenantId log; hl_generatedAt := hl_generatedAt log;
     hl_items := js_sort by_item_id (hl_items log); hl_verdicts := js_sort by_item_id (hl_verdicts log);
     hl_slaBreaches := js_sort (cmp_on hs_itemId localeCompare) (hl_slaBreaches log) |}.

Definition writeRunLog (pid : string) (log : HumanReviewLog) : queue_program string :=
  fp_return (fail_if (negb (bool_decide (hl_schemaVersion log = HUMAN_REVIEW_LOG_SCHEMA_VERSION))) E_INVALID_SCHEMA) ;;!
  fp_return (fail_if (negb (bool_decide (hl_contractVersion log = TEST_INTELLIGENCE_CONTRACT_VERSION))) E_INVALID_SCHEMA) ;;!
  let! layout := fp_return (resolveLayout rootDir (hl_tenantId log)) in
  let! path := fp_return (runLogPath layout (hl_jobId log)) in
  writeAtomicJson pid path (log_json (sorted_log log)) ;;!
  fp_ok path.

(** The verdict belongs to an item of the run. *)
Definition of_run (tenantId runId : string) (verdict : json) : queue_program bool :=
  let! item := getItem tenantId (string_at "itemId" verdict) in
  fp_ok (from_option (λ i, bool_decide (string_at "runId" i = runId)) false item).

(** One verdict file: read, check, look up its item; each before the next file. *)
Fixpoint collect_verdicts (tenantId runId dir : string) (names : list string) : queue_program (list json) :=
  match names with
  | [] => fp_ok []
  | name :: rest =>
      let! verdict := readJsonFile (posix_join [dir; name]) in
      fp_return (assertHumanReviewVerdictInvariants verdict) ;;!
      let! mine := of_run tenantId runId verdict in
      let! collected := collect_verdicts tenantId runId dir rest in
      fp_ok (if mine then verdict :: collected else collected)
  end.

Definition loadVerdictsForRun (tenantId runId : string) : queue_program (list json) :=
  fp_return (assertSafeSegment (Some (JString runId))) ;;!
  let! layout := fp_return (resolveLayout rootDir tenantId) in
  fp_list (verdictsDir layout) (λ names,
    let! collected := collect_verdicts tenantId runId (verdictsDir layout)
                        (filter (λ name, ends_with ".json" name = true) names) in
    fp_ok (js_sort by_item_id collected)).

Definition breach_of (nowIso : string) (item : json) : HumanReviewSlaBreachEntry :=
  {| hs_itemId := string_at "itemId" item; hs_testCaseId := string_at "testCaseId" item;
     hs_slaDeadlineAt := string_at "slaDeadlineAt" item; hs_observedAt := nowIso |}.

Definition findSlaBreaches (tenantId nowIso : string) : queue_program (list HumanReviewSlaBreachEntry) :=
  fp_return (assertIso8601 (Some (JString nowIso))) ;;!
  let! layout := fp_return (resolveLayout rootDir tenantId) in
  let! items := listQueueDir layout in
  let! late := fp_filter_list (undecided layout)
                 (filter (λ item, text_lt (string_at "slaDeadlineAt" item) nowIso = true) items) in
  fp_ok (js_sort (cmp_on hs_itemId localeCompare) (breach_of nowIso <$> late)).

Definition recordVerdict (pid : string) (verdict : json) (tenantId : string) : queue_program json :=
  fp_return (assertHumanReviewVerdictInvariants verdict) ;;!
  fp_return (verifyVerdictSignature verdict) ;;!
  fp_return (assertSafeSegment (Some (JString tenantId))) ;;!
  let! layout := fp_return (resolveLayout rootDir tenantId) in
  let! itemPath := fp_return (queueItemPath layout (string_at "itemId" verdict)) in
  let! there := exists_file itemPath in
  fp_return (fail_if (negb there) E_QUEUE_ITEM_NOT_FOUND) ;;!
  let! item := readJsonFile itemPath in
  fp_return (assertHumanReviewQueueItemInvariants item) ;;!
  let! target := fp_return (verdictPath layout (string_at "itemId" verdict)) in
  let! decided := exists_file target in
  if decided then
    let! existing := readJsonFile target in
    fp_return (fail_if (negb (same_json existing verdict)) E_VERDICT_ALREADY_RECORDED) ;;!
    fp_ok item
  else writeAtomicJson pid target verdict ;;! fp_ok item.

Definition buildHumanReviewLog (tenantId jobId generatedAt nowIso : string) : queue_program HumanReviewLog :=
  fp_return (assertSafeSegment (Some (JString tenantId))) ;;!
  fp_return (assertSafeSegment (Some (JString jobId))) ;;!
  fp_return (assertIso8601 (Some (JString generatedAt))) ;;!
  fp_return (assertIso8601 (Some (JString nowIso))) ;;!
  let! layout := fp_return (resolveLayout rootDir tenantId) in
  let! items := listQueueDir layout in
  let! verdicts := loadVerdictsForRun tenantId jobId in
  let! breaches := findSlaBreaches tenantId nowIso in
  fp_ok (sorted_log
    {| hl_schemaVersion := HUMAN_REVIEW_LOG_SCHEMA_VERSION; hl_contractVersion := TEST_INTELLIGENCE_CONTRACT_VERSION;
       hl_jobId := jobId; hl_tenantId := tenantId; hl_generatedAt := generatedAt;
       hl_items := filter (λ item, string_at "runId" item = jobId) items;
       hl_verdicts := verdicts; hl_slaBreaches := breaches |}).
End store.

(** ** Identifiers and warnings *)

Definition computeHumanReviewItemId `{JsonDigest} (tenantId runId testCaseId : string) : checked string :=
  (fail_if (bool_decide (tenantId = "" ∨ runId = "" ∨ testCaseId = "")) E_INVALID_FIELD ;;;
   Ok (String.substring 0 32 (sha256Hex_json
         (JObject [("tenantId", JString tenantId); ("runId", JString runId); ("testCaseId", JString testCaseId)]))))%outcome.

Definition hashReviewerPrincipalId `{Sha256} (principalId : string) : checked string :=
  (fail_if (bool_decide (principalId = "")) E_INVALID_FIELD ;;; Ok (sha256Hex principalId))%outcome.

Record SlaBreachPolicyWarning := { pw_rule : string; pw_outcome : string; pw_severity : string; pw_reason : string }.

Definition buildSlaBreachPolicyWarning (b : HumanReviewSlaBreachEntry) : SlaBreachPolicyWarning :=
  {| pw_rule := HUMAN_REVIEW_POLICY_WARNING_RULE; pw_outcome := "human_review_sla_breach"; pw_severity := "warning";
     pw_reason := "human-review item " +:+ hs_itemId b +:+ " for case " +:+ hs_testCaseId b +:+ " missed SLA deadline "
                  +:+ hs_slaDeadlineAt b +:+ " (observed " +:+ hs_observedAt b +:+ ")" |}.
