(* ===== verification/HumanReviewQueueProps.v ===== *)
(** * What the human-review queue guarantees

    The files of a queue stay well formed under every interleaving of calls; calls of
    different tenants do not interfere; a call alone keeps what was decided, and two
    calls at once need not. *)

From Stdlib Require Import Ascii.
From S2P Require Import Prelude JsString NodePath JsList JsValue CanonicalJson Contracts JsonView.
From S2P Require Import TestCaseValidator ArtifactFiles FilePrograms HumanReviewQueue.

(** ** Names and places *)

Lemma last_sep_inj c a1 b1 a2 b2 :
  has_char c b1 = false → has_char c b2 = false →
  a1 +:+ String c b1 = a2 +:+ String c b2 → a1 = a2 ∧ b1 = b2.
Proof.
  intros H1 H2. revert a2; induction a1 as [|x a1 IH]; intros [|y a2].
  - change ("" +:+ String c b1) with (String c b1). change ("" +:+ String c b2) with (String c b2). by intros [= ->].
  - change ("" +:+ String c b1) with (String c b1). change (String y a2 +:+ String c b2) with (String y (a2 +:+ String c b2)).
    intros [= -> ->]. rewrite has_char_app in H1. cbn in H1. by rewrite Ascii.eqb_refl, orb_true_r in H1.
  - change ("" +:+ String c b2) with (String c b2). change (String x a1 +:+ String c b1) with (String x (a1 +:+ String c b1)).
    intros [= -> <-]. rewrite has_char_app in H2. cbn in H2. by rewrite Ascii.eqb_refl, orb_true_r in H2.
  - change (String x a1 +:+ String c b1) with (String x (a1 +:+ String c b1)).
    change (String y a2 +:+ String c b2) with (String y (a2 +:+ String c b2)).
    intros [= -> E]. destruct (IH _ E) as [-> ->]. done.
Qed.

Lemma segment_start_not c : segment_start c = true → c ≠ "/"%char ∧ c ≠ "\"%char ∧ c ≠ "000"%char ∧ c ≠ "."%char.
Proof. intros Hc. split_and!; by intros ->. Qed.

Lemma segment_char_not c : segment_char c = true → c ≠ "/"%char ∧ c ≠ "\"%char ∧ c ≠ "000"%char.
Proof. intros Hc. split_and!; by intros ->. Qed.

(** The pattern of a segment implies what the code tests before it. *)
Lemma safe_segment_proper s : safe_segment s = true → proper_component s.
Proof.
  destruct s as [|c r]; [done|]. cbn [safe_segment]. intros [[Hc Hr]%andb_true_iff _]%andb_true_iff.
  assert (Hall : all_chars segment_char (String c r) = true).
  { cbn. rewrite Hr, andb_true_r. unfold segment_char. by rewrite Hc. }
  destruct (segment_start_not _ Hc) as (_ & _ & _ & Hdot).
  split; try done; try (by intros [= -> _]); by apply (all_chars_has_char segment_char).
Qed.

Lemma safe_no_slash s : safe_segment s = true → has_char "/" s = false.
Proof. intros H. by apply safe_segment_proper, pc_slash in H. Qed.

(** A process id is written with decimal digits. *)
Definition pid_ok (pid : string) : Prop := all_chars is_decimal_digit pid = true.

Definition json_name (id : string) : string := id +:+ ".json".
Definition temp_name (pid name : string) : string := name +:+ "." +:+ pid +:+ ".tmp".

Lemma has_char_json c id : has_char c ".json" = false → has_char c id = false → has_char c (json_name id) = false.
Proof. intros H1 H2. unfold json_name. by rewrite has_char_app, H1, H2. Qed.

Lemma has_slash_temp pid name : pid_ok pid → has_char "/" name = false → has_char "/" (temp_name pid name) = false.
Proof.
  intros Hp Hn. unfold temp_name. rewrite !has_char_app, Hn.
  by rewrite (all_chars_has_char is_decimal_digit "/" pid).
Qed.

Lemma file_name_ok_long name : has_char "/" name = false → (2 < String.length name)%nat → file_name_ok name = true.
Proof. intros Hs Hl. apply file_name_ok_spec. split_and!; [done|..]; intros ->; cbn in Hl; lia. Qed.

Lemma json_name_ok id : safe_segment id = true → file_name_ok (json_name id) = true.
Proof.
  intros Hs. apply file_name_ok_long; [apply has_char_json; [done|by apply safe_no_slash]|].
  unfold json_name. rewrite length_string_app. cbn. lia.
Qed.

Lemma temp_name_ok pid name : pid_ok pid → has_char "/" name = false → file_name_ok (temp_name pid name) = true.
Proof.
  intros Hp Hn. apply file_name_ok_long; [by apply has_slash_temp|].
  unfold temp_name. rewrite !length_string_app. cbn. lia.
Qed.

Lemma json_name_inj a b : json_name a = json_name b → a = b.
Proof. apply string_app_inj_r. Qed.

Lemma temp_name_inj p q a b : pid_ok p → pid_ok q → temp_name p a = temp_name q b → p = q ∧ a = b.
Proof.
  unfold temp_name. intros Hp Hq E. rewrite <- !string_app_assoc in E. apply string_app_inj_r in E.
  rewrite !string_app_assoc in E. apply (last_sep_inj ".") in E as [-> ->]; [done|..];
    by apply (all_chars_has_char is_decimal_digit).
Qed.

Lemma temp_name_not_json p name : ends_with ".json" (temp_name p name) = false.
Proof.
  apply not_true_iff_false. rewrite ends_with_spec. intros [r E].
  unfold temp_name in E. rewrite <- !string_app_assoc in E. by apply extension_ne in E.
Qed.

Lemma json_name_json id : ends_with ".json" (json_name id) = true.
Proof. apply ends_with_spec. by exists id. Qed.

(** The file [name] in the directory [sub] of a tenant. *)
Definition place (root t sub name : string) : string :=
  root +:+ String "/" t +:+ String "/" sub +:+ String "/" name.

Lemma place_inj root t sub name t' sub' name' :
  Forall (λ s, has_char "/" s = false) [t; sub; name; t'; sub'; name'] →
  place root t sub name = place root t' sub' name' → t = t' ∧ sub = sub' ∧ name = name'.
Proof.
  rewrite !Forall_cons. intros (H1 & H2 & H3 & H4 & H5 & H6 & _) E. unfold place in E.
  rewrite <- !string_app_assoc in E. apply last_sep_inj in E as [E ->]; [|done..].
  apply last_sep_inj in E as [E ->]; [|done..]. apply last_sep_inj in E as [_ ->]; done.
Qed.

Definition tenant_dirs : list string := ["queue"; "verdicts"; "runs"].

Definition layout_of (root t : string) : HumanReviewQueueLayout :=
  let r := posix_join [root; t] in
  {| tenantRoot := r; queueDir := posix_join [r; "queue"]; verdictsDir := posix_join [r; "verdicts"];
     runsDir := posix_join [r; "runs"] |}.

Lemma dir_ok s : s ∈ tenant_dirs → proper_component s ∧ has_char "/" s = false.
Proof.
  intros Hs. enough (proper_component s) by (split; [done|by apply pc_slash]).
  unfold tenant_dirs in Hs. repeat (apply elem_of_cons in Hs as [->|Hs]); [by split..|by apply not_elem_of_nil in Hs].
Qed.

Lemma join_place root t sub name :
  rooted root → safe_segment t = true → sub ∈ tenant_dirs → file_name_ok name = true →
  posix_join [posix_join [posix_join [root; t]; sub]; name] = place root t sub name.
Proof.
  intros Hr Ht Hsub Hn. apply safe_segment_proper in Ht. apply dir_ok in Hsub as [Hsub _].
  assert (Hrt : rooted (posix_join [root; t])) by by apply rooted_child.
  assert (Hrs : rooted (posix_join [posix_join [root; t]; sub])) by by apply rooted_child.
  rewrite (posix_join_file _ _ Hrs) by done. rewrite (posix_join_file _ _ Hrt) by by apply proper_file_name.
  rewrite (posix_join_file _ _ Hr) by by apply proper_file_name. unfold place. by rewrite !string_app_assoc.
Qed.

(** ** Calls *)

Lemma assertSafeSegment_Ok v u : assertSafeSegment (Some (JString v)) = Ok u ↔ safe_segment v = true.
Proof. unfold assertSafeSegment, fail_if. rewrite guard_throw_Ok, negb_false_iff. done. Qed.

Lemma resolveLayout_Ok root t l : resolveLayout root t = Ok l ↔ safe_segment t = true ∧ l = layout_of root t.
Proof.
  unfold resolveLayout. rewrite outcome_then_Ok, assertSafeSegment_Ok. fold (layout_of root t).
  split; [intros [? [= <-]]|intros [? ->]]; done.
Qed.

Lemma queueItemPath_Ok l id p :
  queueItemPath l id = Ok p ↔ safe_segment id = true ∧ p = posix_join [queueDir l; json_name id].
Proof. unfold queueItemPath. rewrite outcome_then_Ok, assertSafeSegment_Ok. split; [intros [? [= <-]]|intros [? ->]]; done. Qed.

Lemma verdictPath_Ok l id p :
  verdictPath l id = Ok p ↔ safe_segment id = true ∧ p = posix_join [verdictsDir l; json_name id].
Proof. unfold verdictPath. rewrite outcome_then_Ok, assertSafeSegment_Ok. split; [intros [? [= <-]]|intros [? ->]]; done. Qed.

Definition log_name (run_id : string) : string := run_id +:+ ".log.json".

Lemma runLogPath_Ok l id p :
  runLogPath l id = Ok p ↔ safe_segment id = true ∧ p = posix_join [runsDir l; log_name id].
Proof. unfold runLogPath. rewrite outcome_then_Ok, assertSafeSegment_Ok. split; [intros [? [= <-]]|intros [? ->]]; done. Qed.

Lemma log_name_ok id : safe_segment id = true → file_name_ok (log_name id) = true.
Proof.
  intros Hs. apply file_name_ok_long; [unfold log_name; by rewrite has_char_app, safe_no_slash|].
  unfold log_name. rewrite length_string_app. cbn. lia.
Qed.

Section queue.
Context `{LocaleCompare} `{VerdictCrypto} (root : string) (Hroot : rooted root).

Definition item_file (t id : string) : string := place root t "queue" (json_name id).
Definition verdict_file (t id : string) : string := place root t "verdicts" (json_name id).

Lemma item_path t id :
  safe_segment t = true → safe_segment id = true → posix_join [queueDir (layout_of root t); json_name id] = item_file t id.
Proof. intros Ht Hi. apply join_place; [done|done|set_solver|by apply json_name_ok]. Qed.

Lemma verdict_path t id :
  safe_segment t = true → safe_segment id = true →
  posix_join [verdictsDir (layout_of root t); json_name id] = verdict_file t id.
Proof. intros Ht Hi. apply join_place; [done|done|set_solver|by apply json_name_ok]. Qed.

Lemma log_path t id :
  safe_segment t = true → safe_segment id = true →
  posix_join [runsDir (layout_of root t); log_name id] = place root t "runs" (log_name id).
Proof. intros Ht Hi. apply join_place; [done|done|set_solver|by apply log_name_ok]. Qed.

Lemma temp_place pid t sub name : queue_temp_path pid (place root t sub name) = place root t sub (temp_name pid name).
Proof.
  unfold queue_temp_path, temp_name, place. rewrite !string_app_assoc. do 2 f_equal.
Qed.

(** A call, its tenant, and the program it runs. *)
Inductive queue_call : Type :=
| call_enqueue (pid : string) (item : json)
| call_fetchPending (f : HumanReviewFilter)
| call_getItem (t id : string)
| call_loadRunLog (t runId : string)
| call_writeRunLog (pid : string) (log : HumanReviewLog)
| call_loadVerdictsForRun (t runId : string)
| call_findSlaBreaches (t nowIso : string)
| call_recordVerdict (pid : string) (verdict : json) (t : string)
| call_buildHumanReviewLog (t jobId generatedAt nowIso : string).

Inductive queue_answer : Type :=
| ans_unit (_ : unit) | ans_items (l : list json) | ans_item (o : option json) | ans_path (p : string)
| ans_breaches (l : list HumanReviewSlaBreachEntry) | ans_record (item : json) | ans_log (l : HumanReviewLog).

Definition call_tenant (c : queue_call) : string :=
  match c with
  | call_enqueue _ item => string_at "tenantId" item
  | call_fetchPending f => hf_tenantId f
  | call_getItem t _ | call_loadRunLog t _ | call_loadVerdictsForRun t _ | call_findSlaBreaches t _
  | call_recordVerdict _ _ t | call_buildHumanReviewLog t _ _ _ => t
  | call_writeRunLog _ log => hl_tenantId log
  end.

Definition call_pid (c : queue_call) : option string :=
  match c with
  | call_enqueue pid _ | call_writeRunLog pid _ | call_recordVerdict pid _ _ => Some pid
  | _ => None
  end.

Definition answering {A} (f : A → queue_answer) (p : queue_program A) : queue_program queue_answer :=
  fp_bind p (λ a, fp_ok (f a)).

Definition call_program (c : queue_call) : queue_program queue_answer :=
  match c with
  | call_enqueue pid item => answering ans_unit (enqueue root pid item)
  | call_fetchPending f => answering ans_items (fetchPending root f)
  | call_getItem t id => answering ans_item (getItem root t id)
  | call_loadRunLog t runId => answering ans_item (loadRunLog root t runId)
  | call_writeRunLog pid log => answering ans_path (writeRunLog root pid log)
  | call_loadVerdictsForRun t runId => answering ans_items (loadVerdictsForRun root t runId)
  | call_findSlaBreaches t nowIso => answering ans_breaches (findSlaBreaches root t nowIso)
  | call_recordVerdict pid verdict t => answering ans_record (recordVerdict root pid verdict t)
  | call_buildHumanReviewLog t jobId generatedAt nowIso =>
      answering ans_log (buildHumanReviewLog root t jobId generatedAt nowIso)
  end.

Definition call_ok (c : queue_call) : Prop := from_option pid_ok True (call_pid c).

(** ** Calls stay below the directory of their tenant *)

Definition tenant_path (t path : string) : Prop :=
  safe_segment t = true ∧ ∃ sub name, sub ∈ tenant_dirs ∧ has_char "/" name = false ∧ path = place root t sub name.

Lemma tenant_paths_disjoint t t' path :
  t ≠ t' → tenant_path t path → ¬ tenant_path t' path.
Proof.
  intros Hne (Ht & sub & name & Hs & Hn & ->) (Ht' & sub' & name' & Hs' & Hn' & E).
  apply place_inj in E as [? _]; [done|]. apply dir_ok in Hs as [_ Hs], Hs' as [_ Hs'].
  repeat constructor; try done; by apply safe_no_slash.
Qed.

Lemma tenant_path_place t sub name :
  safe_segment t = true → sub ∈ tenant_dirs → file_name_ok name = true → tenant_path t (place root t sub name).
Proof. intros Ht Hs Hn%file_name_ok_spec. split; [done|]. exists sub, name. naive_solver. Qed.

Lemma tenant_path_dir t sub name :
  safe_segment t = true → sub ∈ tenant_dirs → file_name_ok name = true →
  tenant_path t (posix_join [posix_join [posix_join [root; t]; sub]; name]).
Proof. intros Ht Hs Hn. rewrite join_place by done. by apply tenant_path_place. Qed.

Lemma tenant_path_temp pid t path : pid_ok pid → tenant_path t path → tenant_path t (queue_temp_path pid path).
Proof.
  intros Hp (Ht & sub & name & Hs & Hn & ->). rewrite temp_place. split; [done|]. exists sub, (temp_name pid name).
  split; [done|]. split; [by apply has_slash_temp|done].
Qed.

Lemma confined_exists {A} P path (f : bool → queue_program A) :
  P path → (∀ b, confined P (f b)) → confined P (fp_bind (exists_file path) f).
Proof. by split. Qed.

Lemma confined_readJsonFile P path : P path → confined P (readJsonFile path).
Proof. intros Hp. split; [done|]. by intros [[]|]. Qed.

Lemma confined_map_list {A B} P (f : A → queue_program B) l :
  (∀ x, x ∈ l → confined P (f x)) → confined P (fp_map_list f l).
Proof.
  induction l as [|x l IH]; intros Hf; [done|]. apply confined_bind; [apply Hf; by left|]. intros y.
  apply confined_bind; [apply IH; intros; apply Hf; by right|done].
Qed.

Lemma confined_filter_list {A} P (f : A → queue_program bool) l :
  (∀ x, confined P (f x)) → confined P (fp_filter_list f l).
Proof.
  intros Hf. induction l as [|x l IH]; [done|]. apply confined_bind; [apply Hf|]. intros y.
  by apply confined_bind.
Qed.

(** Reading the JSON files of one of the directories of a tenant. *)
Lemma confined_read_directory t sub check :
  safe_segment t = true → sub ∈ tenant_dirs →
  confined (tenant_path t) (read_directory check (posix_join [posix_join [root; t]; sub])).
Proof.
  intros Ht Hs. split; [intros name; by apply tenant_path_dir|]. intros names Hnames.
  apply confined_map_list. intros name [_ Hn]%list_elem_of_filter.
  apply confined_bind; [|by intros v; apply confined_check].
  apply confined_readJsonFile, tenant_path_dir; [done|done|]. by apply (proj1 (Forall_forall _ _) Hnames).
Qed.

Lemma item_file_tenant t id : safe_segment t = true → safe_segment id = true → tenant_path t (item_file t id).
Proof. intros Ht Hi. apply tenant_path_place; [done|set_solver|by apply json_name_ok]. Qed.

Lemma verdict_file_tenant t id : safe_segment t = true → safe_segment id = true → tenant_path t (verdict_file t id).
Proof. intros Ht Hi. apply tenant_path_place; [done|set_solver|by apply json_name_ok]. Qed.

Lemma confined_writeAtomicJson t pid path value :
  pid_ok pid → tenant_path t path → confined (tenant_path t) (writeAtomicJson pid path value).
Proof.
  intros Hp Ht. pose proof (tenant_path_temp _ _ _ Hp Ht) as Htmp.
  cbn. split_all; try done. by intros [].
Qed.

Lemma confined_getItem t id : confined (tenant_path t) (getItem root t id).
Proof.
  unfold getItem. apply confined_check. intros l [Ht ->]%resolveLayout_Ok.
  apply confined_check. intros p [Hi ->]%queueItemPath_Ok. rewrite item_path by done.
  pose proof (item_file_tenant t id Ht Hi). apply confined_exists; [done|]. intros [|]; [|done].
  apply confined_bind; [by apply confined_readJsonFile|]. intros item. by apply confined_check.
Qed.

Lemma confined_undecided t item : safe_segment t = true → confined (tenant_path t) (undecided (layout_of root t) item).
Proof.
  intros Ht. apply confined_check. intros p [Hi ->]%verdictPath_Ok. rewrite verdict_path by done.
  apply confined_exists; [by apply verdict_file_tenant|done].
Qed.

Lemma confined_collect t run_id names :
  safe_segment t = true → Forall (λ name, file_name_ok name = true) names →
  confined (tenant_path t) (collect_verdicts root t run_id (verdictsDir (layout_of root t)) names).
Proof.
  intros Ht Hn. induction Hn as [|name names Hname _ IH]; [done|]. cbn [collect_verdicts].
  apply confined_bind; [apply confined_readJsonFile, tenant_path_dir; [done|set_solver|done]|]. intros v.
  apply confined_check. intros _ _. apply confined_bind; [|intros mine; by apply confined_bind].
  apply confined_bind; [apply confined_getItem|done].
Qed.

Lemma confined_loadVerdictsForRun t run_id : confined (tenant_path t) (loadVerdictsForRun root t run_id).
Proof.
  unfold loadVerdictsForRun. apply confined_check. intros _ _. apply confined_check. intros l [Ht ->]%resolveLayout_Ok.
  split; [intros name; apply tenant_path_dir; [done|set_solver]|]. intros names Hnames.
  apply confined_bind; [|done]. apply confined_collect; [done|].
  apply Forall_forall. intros name [_ Hn]%list_elem_of_filter. by apply (proj1 (Forall_forall _ _) Hnames).
Qed.

Lemma confined_findSlaBreaches t now : confined (tenant_path t) (findSlaBreaches root t now).
Proof.
  unfold findSlaBreaches. apply confined_check. intros _ _. apply confined_check. intros l [Ht ->]%resolveLayout_Ok.
  apply confined_bind; [apply confined_read_directory; [done|set_solver]|]. intros items.
  apply confined_bind; [|done]. apply confined_filter_list. intros item. by apply confined_undecided.
Qed.

Lemma confined_enqueue pid item : pid_ok pid → confined (tenant_path (string_at "tenantId" item)) (enqueue root pid item).
Proof.
  intros Hp. unfold enqueue. apply confined_check. intros _ _. apply confined_check. intros l [Ht ->]%resolveLayout_Ok.
  apply confined_check. intros p [Hi ->]%queueItemPath_Ok. rewrite item_path by done.
  pose proof (item_file_tenant (string_at "tenantId" item) _ Ht Hi). apply confined_exists; [done|].
  intros [|]; [|by apply confined_writeAtomicJson]. by apply confined_bind; [apply confined_readJsonFile|].
Qed.

Lemma confined_recordVerdict pid v t : pid_ok pid → confined (tenant_path t) (recordVerdict root pid v t).
Proof.
  intros Hp. unfold recordVerdict. do 3 (apply confined_check; intros _ _).
  apply confined_check. intros l [Ht ->]%resolveLayout_Ok. apply confined_check. intros p [Hi ->]%queueItemPath_Ok.
  rewrite item_path by done. apply confined_exists; [by apply item_file_tenant|]. intros there.
  apply confined_check. intros _ _. apply confined_bind; [by apply confined_readJsonFile, item_file_tenant|]. intros item.
  apply confined_check. intros _ _. apply confined_check. intros p [_ ->]%verdictPath_Ok. rewrite verdict_path by done.
  pose proof (verdict_file_tenant t _ Ht Hi). apply confined_exists; [done|]. intros [|].
  - apply confined_bind; [by apply confined_readJsonFile|]. intros e. by apply confined_check.
  - apply confined_bind; [by apply confined_writeAtomicJson|done].
Qed.

(** There is no call that reaches a path outside the directory of its tenant. *)
Lemma calls_are_confined c : call_ok c → confined (tenant_path (call_tenant c)) (call_program c).
Proof.
  intros Hc. destruct c as [pid item|f|t id|t run_id|pid log|t run_id|t now|pid v t|t job at_ now];
    (apply confined_bind; [|done]).
  - by apply confined_enqueue.
  - unfold fetchPending. apply confined_check. intros _ _. apply confined_check. intros l [Ht ->]%resolveLayout_Ok.
    apply confined_bind; [apply confined_read_directory; [done|set_solver]|]. intros items.
    apply confined_bind; [|done]. apply confined_filter_list. intros item. by apply confined_undecided.
  - apply confined_getItem.
  - unfold loadRunLog. apply confined_check. intros l [Ht ->]%resolveLayout_Ok.
    apply confined_check. intros p [Hi ->]%runLogPath_Ok. rewrite log_path by done.
    assert (tenant_path t (place root t "runs" (log_name run_id))) by (apply tenant_path_place; [done|set_solver|by apply log_name_ok]).
    apply confined_exists; [done|]. intros [|]; [|done]. by apply confined_bind; [apply confined_readJsonFile|].
  - unfold writeRunLog. do 2 (apply confined_check; intros _ _). apply confined_check. intros l [Ht ->]%resolveLayout_Ok.
    apply confined_check. intros p [Hi ->]%runLogPath_Ok. rewrite log_path by done.
    apply confined_bind; [|done]. apply confined_writeAtomicJson; [done|].
    apply tenant_path_place; [done|set_solver|by apply log_name_ok].
  - apply confined_loadVerdictsForRun.
  - apply confined_findSlaBreaches.
  - by apply confined_recordVerdict.
  - unfold buildHumanReviewLog. do 4 (apply confined_check; intros _ _). apply confined_check. intros l [Ht ->]%resolveLayout_Ok.
    apply confined_bind; [apply confined_read_directory; [done|set_solver]|]. intros items.
    apply confined_bind; [apply confined_loadVerdictsForRun|]. intros verdicts.
    by apply confined_bind; [apply confined_findSlaBreaches|].
Qed.

Definition tenant_calls (t : string) (p : queue_program queue_answer) : Prop :=
  ∃ c, call_ok c ∧ call_tenant c = t ∧ p = call_program c.
Definition other_calls (t : string) (p : queue_program queue_answer) : Prop :=
  ∃ c, call_ok c ∧ call_tenant c ≠ t ∧ p = call_program c.

(** C17. The answer of a call depends on the files of its tenant only, and any
    interleaving of calls of other tenants leaves these files as they are. *)
Theorem queue_tenants_do_not_interfere t :
  (∀ c d1 d2, call_ok c → call_tenant c = t → agree (tenant_path t) d1 d2 →
     (run (call_program c) d1).1 = (run (call_program c) d2).1 ∧
     agree (tenant_path t) (run (call_program c) d1).2 (run (call_program c) d2).2) ∧
  (∀ d0 ps d, pool_reachable (other_calls t) d0 (ps, d) → agree (tenant_path t) d0 d).
Proof.
  split.
  - intros c d1 d2 Hc <- Ha. by apply run_confined; [apply calls_are_confined|].
  - intros d0 ps d Hr. eapply pool_respects; [apply _| |exact Hr]. intros p (c & Hc & Ht & ->).
    apply (confined_guarded (tenant_path (call_tenant c))); [|by apply calls_are_confined].
    intros path. by apply tenant_paths_disjoint.
Qed.

(** ** The invariant of the files *)

Definition item_ok (t id : string) (item : json) : Prop :=
  assertHumanReviewQueueItemInvariants item = Ok tt ∧ string_at "tenantId" item = t ∧ string_at "itemId" item = id.
Definition verdict_ok (id : string) (v : json) : Prop :=
  assertHumanReviewVerdictInvariants v = Ok tt ∧ verifyVerdictSignature v = Ok tt ∧ string_at "itemId" v = id.

Record queue_invariant (d : disk) : Prop := {
  qi_items t id x :
    safe_segment t = true → safe_segment id = true → d !! item_file t id = Some x →
    ∃ item, x = Some (canonicalJson item) ∧ item_ok t id item;
  qi_verdicts t id x :
    safe_segment t = true → safe_segment id = true → d !! verdict_file t id = Some x →
    (∃ v, x = Some (canonicalJson v) ∧ verdict_ok id v) ∧ is_Some (d !! item_file t id);
  qi_names t sub name :
    safe_segment t = true → sub ∈ ["queue"; "verdicts"] → file_name_ok name = true → ends_with ".json" name = true →
    is_Some (d !! place root t sub name) → ∃ id, safe_segment id = true ∧ name = json_name id;
}.

Lemma json_name_slash id : safe_segment id = true → has_char "/" (json_name id) = false.
Proof. intros Hi. by apply has_char_json, safe_no_slash. Qed.

(** What a call may write, and where: a record that was checked under its name, a log,
    and anything under a temporary name. *)
Inductive may_write (d : disk) (t : string) : string → string → option json → Prop :=
| mw_item id item :
    safe_segment id = true → item_ok t id item → may_write d t "queue" (json_name id) (Some (canonicalJson item))
| mw_verdict id v :
    safe_segment id = true → verdict_ok id v → is_Some (d !! item_file t id) →
    may_write d t "verdicts" (json_name id) (Some (canonicalJson v))
| mw_log name x : has_char "/" name = false → may_write d t "runs" name x
| mw_temp sub pid name x :
    sub ∈ tenant_dirs → pid_ok pid → has_char "/" name = false → may_write d t sub (temp_name pid name) x.

Lemma may_write_slash d t sub name x : may_write d t sub name x → has_char "/" sub = false ∧ has_char "/" name = false.
Proof.
  intros [id item Hi _|id v Hi _ _|n y Hn|s pid n y Hs Hp Hn]; (split; [try done|]);
    [by apply json_name_slash..|done|by apply dir_ok in Hs as [_ ?]|by apply has_slash_temp].
Qed.

Lemma place_lookup_insert t sub name (x : option json) t' sub' name' (d : disk) :
  Forall (λ s, has_char "/" s = false) [t; sub; name; t'; sub'; name'] →
  <[place root t sub name := x]> d !! place root t' sub' name' =
  if decide (t = t' ∧ sub = sub' ∧ name = name') then Some x else d !! place root t' sub' name'.
Proof.
  intros Hs. case_decide as E; [destruct E as (-> & -> & ->); apply lookup_insert_eq|].
  apply lookup_insert_ne. by intros ?%place_inj.
Qed.

Lemma insert_has (d : disk) p q (x : option json) : is_Some (d !! q) → is_Some (<[p := x]> d !! q).
Proof. intros Hq. destruct (decide (p = q)) as [->|]; [rewrite lookup_insert_eq; eauto|by rewrite lookup_insert_ne]. Qed.

Lemma temp_not_json_name pid name id : temp_name pid name ≠ json_name id.
Proof. intros E. pose proof (json_name_json id) as Hj. by rewrite <- E, temp_name_not_json in Hj. Qed.

(** A record has one name, which is not that of a temporary file. *)
Ltac same_record :=
  match goal with
  | E : temp_name _ _ = json_name _ |- _ => by apply temp_not_json_name in E
  | E : json_name _ = json_name _ |- _ => apply json_name_inj in E; subst
  end.

Lemma insert_invariant d t sub name x :
  queue_invariant d → safe_segment t = true → may_write d t sub name x →
  queue_invariant (<[place root t sub name := x]> d).
Proof.
  intros [Hi Hv Hn] Ht Hw. destruct (may_write_slash _ _ _ _ _ Hw) as [Hss Hns]. pose proof (safe_no_slash _ Ht).
  split.
  - intros t' id' y Ht' Hid'. unfold item_file. rewrite place_lookup_insert
      by (repeat constructor; try done; [by apply safe_no_slash|by apply json_name_slash]).
    case_decide as E; [|by apply Hi]. destruct E as (-> & -> & ->). intros [= <-].
    inversion Hw as [id item Hid Hok| | |s pid n z Hs Hp Hnn]; same_record. by exists item.
  - intros t' id' y Ht' Hid'. unfold verdict_file. rewrite place_lookup_insert
      by (repeat constructor; try done; [by apply safe_no_slash|by apply json_name_slash]).
    case_decide as E.
    + destruct E as (-> & -> & ->). intros [= <-].
      inversion Hw as [|id v Hid Hok Hex| |s pid n z Hs Hp Hnn]; same_record. split; [by exists v|by apply insert_has].
    + intros Hy. destruct (Hv _ _ _ Ht' Hid' Hy) as [? ?]. split; [done|by apply insert_has].
  - intros t' sub' name' Ht' Hsub' Hok Hjson. pose proof Hok as [Hsl _]%file_name_ok_spec. rewrite place_lookup_insert
      by (repeat constructor; try done; [by apply safe_no_slash|set_unfold in Hsub'; by destruct Hsub' as [->|[->|]]]).
    case_decide as E; [|by apply Hn]. destruct E as (-> & -> & ->). intros _.
    inversion Hw as [id item Hid _|id v Hid _ _| |s pid n z Hs Hp Hnn]; subst; [exists id; auto..|set_solver|].
    by rewrite temp_name_not_json in Hjson.
Qed.

Lemma delete_temp_record (d : disk) t sub pid name t' sub' id :
  safe_segment t = true → sub ∈ tenant_dirs → pid_ok pid → has_char "/" name = false →
  safe_segment t' = true → sub' ∈ tenant_dirs → safe_segment id = true →
  delete (place root t sub (temp_name pid name)) d !! place root t' sub' (json_name id) =
  d !! place root t' sub' (json_name id).
Proof.
  intros Ht Hsub Hp Hname Ht' Hsub' Hid. destruct (dir_ok _ Hsub) as [_ Hss], (dir_ok _ Hsub') as [_ Hss'].
  apply lookup_delete_ne. intros E. apply place_inj in E as (_ & _ & E); [by apply temp_not_json_name in E|].
  repeat constructor; try done; [by apply safe_no_slash|by apply has_slash_temp|by apply safe_no_slash|by apply json_name_slash].
Qed.

Lemma delete_temp_invariant d t sub pid name :
  queue_invariant d → safe_segment t = true → sub ∈ tenant_dirs → pid_ok pid → has_char "/" name = false →
  queue_invariant (delete (place root t sub (temp_name pid name)) d).
Proof.
  intros [Hi Hv Hn] Ht Hsub Hp Hname. split.
  - intros t' id' y Ht' Hid'. unfold item_file. rewrite delete_temp_record by (try done; set_solver). by apply Hi.
  - intros t' id' y Ht' Hid'. unfold item_file, verdict_file. rewrite !delete_temp_record by (try done; set_solver). by apply Hv.
  - intros t' sub' name' Ht' Hsub' Hok Hjson [y [_ Hy]%lookup_delete_Some]. eapply Hn; eauto.
Qed.

(** The relation every operation respects: the invariant stays, and a record that
    is there stays there. *)
Definition queue_respects (d d' : disk) : Prop :=
  (queue_invariant d → queue_invariant d') ∧
  ∀ t id, safe_segment t = true → safe_segment id = true → is_Some (d !! item_file t id) → is_Some (d' !! item_file t id).

#[export] Instance queue_respects_preorder : PreOrder queue_respects.
Proof. split; [by split|]. intros d1 d2 d3 [H1 H2] [H3 H4]. split; auto. Qed.

(** *** Temporary files *)

Definition is_temp (path : string) : Prop :=
  ∃ t sub pid name, safe_segment t = true ∧ sub ∈ tenant_dirs ∧ pid_ok pid ∧ has_char "/" name = false ∧
    path = place root t sub (temp_name pid name).

(** The call that owns [o] relies on nobody else touching it, and touches no other
    temporary file. *)
Definition queue_relies (o : option string) (d d' : disk) : Prop :=
  queue_respects d d' ∧ ∀ p, o = Some p → is_temp p → d' !! p = d !! p.
Definition queue_guarantees (o : option string) (d d' : disk) : Prop :=
  queue_respects d d' ∧ ∀ p, o ≠ Some p → is_temp p → d' !! p = d !! p.

#[export] Instance queue_relies_preorder o : PreOrder (queue_relies o).
Proof.
  split; [by split|]. intros d1 d2 d3 [H1 H2] [H3 H4]. split; [by etrans|]. intros p Hp Ht. by rewrite H4, H2.
Qed.
#[export] Instance queue_guarantees_preorder o : PreOrder (queue_guarantees o).
Proof.
  split; [by split|]. intros d1 d2 d3 [H1 H2] [H3 H4]. split; [by etrans|]. intros p Hp Ht. by rewrite H4, H2.
Qed.

Lemma guarantees_relied_on o o' d d' : o = None ∨ o ≠ o' → queue_guarantees o d d' → queue_relies o' d d'.
Proof.
  intros Ho [HR HG]. split; [done|]. intros p -> Hp. apply HG; [|done]. by destruct Ho as [->|].
Qed.

(** A file that is not a temporary one. *)
Definition kept_name (name : string) : Prop := has_char "/" name = false ∧ ends_with ".json" name = true.

Lemma kept_not_temp t sub name : safe_segment t = true → sub ∈ tenant_dirs → kept_name name → ¬ is_temp (place root t sub name).
Proof.
  intros Ht Hsub [Hs Hj] (t' & sub' & pid & name' & Ht' & Hsub' & Hp & Hn & E).
  destruct (dir_ok _ Hsub) as [_ Hss], (dir_ok _ Hsub') as [_ Hss'].
  apply place_inj in E as (_ & _ & ->); [by rewrite temp_name_not_json in Hj|].
  repeat constructor; try done; [by apply safe_no_slash|by apply safe_no_slash|by apply has_slash_temp].
Qed.

Lemma insert_respects d t sub name x :
  safe_segment t = true → (queue_invariant d → may_write d t sub name x) →
  queue_respects d (<[place root t sub name := x]> d).
Proof. intros Ht Hw. split; [intros Hi; by apply insert_invariant; auto|]. intros t' id _ _. apply insert_has. Qed.

(** Writing one's own temporary file. *)
Lemma write_temp_guaranteed d t sub pid name x :
  safe_segment t = true → sub ∈ tenant_dirs → pid_ok pid → has_char "/" name = false →
  queue_guarantees (Some (place root t sub (temp_name pid name))) d (<[place root t sub (temp_name pid name) := x]> d).
Proof.
  intros Ht Hsub Hp Hn. split; [apply insert_respects; [done|]; intros _; by apply mw_temp|].
  intros q Hq _. apply lookup_insert_ne. congruence.
Qed.

Lemma rename_guaranteed d t sub pid name x :
  safe_segment t = true → sub ∈ tenant_dirs → pid_ok pid → kept_name name →
  let tmp := place root t sub (temp_name pid name) in
  (queue_invariant d → may_write (delete tmp d) t sub name x) →
  queue_guarantees (Some tmp) d (<[place root t sub name := x]> (delete tmp d)).
Proof.
  intros Ht Hsub Hp Hn tmp Hw. split.
  - split.
    + intros Hi. apply insert_invariant; [by apply delete_temp_invariant; [..|apply Hn]|done|by apply Hw].
    + intros t' id Ht' Hid Hx. apply insert_has. unfold item_file, tmp.
      rewrite delete_temp_record; [done..|apply Hn|done|set_solver|done].
  - intros q Hq Htemp. rewrite lookup_insert_ne by (intros <-; by eapply kept_not_temp in Htemp).
    apply lookup_delete_ne. congruence.
Qed.

Lemma guarded_writeAtomicJson K t sub name pid value :
  safe_segment t = true → sub ∈ tenant_dirs → pid_ok pid → kept_name name →
  let tmp := place root t sub (temp_name pid name) in
  (∀ d d', K d → queue_respects d d' → queue_invariant d' → may_write (delete tmp d') t sub name (Some (canonicalJson value))) →
  guarded (queue_relies (Some tmp)) (queue_guarantees (Some tmp)) K (writeAtomicJson pid (place root t sub name) value).
Proof.
  intros Ht Hsub Hp Hn tmp Hw. unfold writeAtomicJson. rewrite temp_place. fold tmp.
  assert (is_temp tmp) as Htmp by (exists t, sub, pid, name; by destruct Hn).
  assert (∀ d x, queue_guarantees (Some tmp) d (<[tmp := x]> d)) as Hins
    by (intros d x; apply write_temp_guaranteed; try done; apply Hn).
  assert (∀ d x, queue_respects d (<[tmp := x]> d)) as Hres by (intros d x; apply Hins).
  split; [intros d _; apply Hins|]. split; [intros d _; apply Hins|]. split; [|by split].
  intros d d' (d1 & ? & (d0 & ? & HK & -> & [R1 _]) & -> & [R2 Hsame]) Hren. unfold rename_file in Hren.
  specialize (Hsame tmp eq_refl Htmp). rewrite lookup_insert_eq in Hsame. rewrite Hsame in Hren.
  injection Hren as <-. apply rename_guaranteed; [done..|]. intros Hi. apply (Hw d0); [done| |done].
  etrans; [apply Hres|]. etrans; [exact R1|]. etrans; [apply Hres|exact R2].
Qed.

Lemma json_name_kept id : safe_segment id = true → kept_name (json_name id).
Proof. intros Hi. split; [by apply json_name_slash|apply json_name_json]. Qed.

Lemma log_name_kept id : safe_segment id = true → kept_name (log_name id).
Proof.
  intros Hi. split; [by pose proof (log_name_ok _ Hi) as [Hs _]%file_name_ok_spec|].
  apply ends_with_spec. exists (id +:+ ".log"). unfold log_name. by rewrite string_app_assoc.
Qed.

(** The temporary file a call writes, if it writes. *)
Definition call_temp (c : queue_call) : option string :=
  match c with
  | call_enqueue pid item =>
      Some (queue_temp_path pid (item_file (string_at "tenantId" item) (string_at "itemId" item)))
  | call_writeRunLog pid log => Some (queue_temp_path pid (place root (hl_tenantId log) "runs" (log_name (hl_jobId log))))
  | call_recordVerdict pid v t => Some (queue_temp_path pid (verdict_file t (string_at "itemId" v)))
  | _ => None
  end.

#[local] Abbreviation call_guarded c := (guarded (queue_relies (call_temp c)) (queue_guarantees (call_temp c))).

Lemma guarded_enqueue K pid item : pid_ok pid → call_guarded (call_enqueue pid item) K (enqueue root pid item).
Proof.
  intros Hp. unfold enqueue. apply guarded_check. intros [] Hok. apply guarded_check. intros l [Ht ->]%resolveLayout_Ok.
  apply guarded_check. intros p [Hi ->]%queueItemPath_Ok. rewrite item_path by done. intros [|].
  - apply read_only_guarded. by intros [[]|].
  - unfold call_temp, item_file. rewrite temp_place. apply guarded_writeAtomicJson; [done|set_solver|done|by apply json_name_kept|].
    intros d d' _ _ _. by apply mw_item.
Qed.

Lemma guarded_writeRunLog K pid log : pid_ok pid → call_guarded (call_writeRunLog pid log) K (writeRunLog root pid log).
Proof.
  intros Hp. unfold writeRunLog. do 2 (apply guarded_check; intros _ _). apply guarded_check.
  intros l [Ht ->]%resolveLayout_Ok. apply guarded_check. intros p [Hi ->]%runLogPath_Ok. rewrite log_path by done.
  apply guarded_bind; [|done]. unfold call_temp. rewrite temp_place.
  apply guarded_writeAtomicJson; [done|set_solver|done|by apply log_name_kept|].
  intros d d' _ _ _. apply mw_log. by apply log_name_kept.
Qed.

Lemma guarded_recordVerdict K pid v t : pid_ok pid → call_guarded (call_recordVerdict pid v t) K (recordVerdict root pid v t).
Proof.
  intros Hp. unfold recordVerdict. apply guarded_check. intros [] Hok. apply guarded_check. intros [] Hsig.
  apply guarded_check. intros _ _. apply guarded_check. intros l [Ht ->]%resolveLayout_Ok.
  apply guarded_check. intros p [Hi ->]%queueItemPath_Ok. rewrite item_path by done. intros there.
  apply guarded_check. intros ? [= <-]. apply guarded_check. intros _ ->%guard_throw_Ok%negb_false_iff.
  intros [[item|]|]; try done. apply guarded_check. intros ? [= <-]. apply guarded_check. intros _ _. apply guarded_check. intros p [_ ->]%verdictPath_Ok. rewrite verdict_path by done.
  intros decided. apply guarded_check. intros ? [= <-]. destruct decided.
  - apply read_only_guarded. intros [[e|]|]; try done. cbn. by destruct (fail_if _ _).
  - apply guarded_bind; [|done]. unfold call_temp, verdict_file. rewrite temp_place.
    apply guarded_writeAtomicJson; [done|set_solver|done|by apply json_name_kept|].
    intros d d' HK HR _. apply mw_verdict; [done|done|]. unfold item_file.
    rewrite delete_temp_record; [|done|set_solver|done|by apply json_name_slash|done|set_solver|done]. apply (proj2 HR); [done..|].
    destruct HK as (d1 & ? & (d2 & ? & (d3 & ? & _ & [-> Hf] & R1) & [-> _] & R2) & [-> _] & R3).
    apply (proj2 (proj1 R3)), (proj2 (proj1 R2)), (proj2 (proj1 R1)); [done..|]. by apply bool_decide_eq_true in Hf.
Qed.

(** *** Calls that only read *)

Lemma read_only_check {A B} (c : checked A) (f : A → queue_program B) :
  (∀ a, read_only (f a)) → read_only (fp_bind (fp_return c) f).
Proof. intros Hf. by destruct c; cbn. Qed.

Lemma read_only_exists {A} path (f : bool → queue_program A) :
  (∀ b, read_only (f b)) → read_only (fp_bind (exists_file path) f).
Proof. done. Qed.

Lemma read_only_readJsonFile path : read_only (readJsonFile path).
Proof. by intros [[]|]. Qed.

Lemma read_only_map_list {A B} (f : A → queue_program B) l : (∀ x, read_only (f x)) → read_only (fp_map_list f l).
Proof.
  intros Hf. induction l as [|x l IH]; [done|]. apply read_only_bind; [done|]. intros y. by apply read_only_bind.
Qed.

Lemma read_only_filter_list {A} (f : A → queue_program bool) l : (∀ x, read_only (f x)) → read_only (fp_filter_list f l).
Proof.
  intros Hf. induction l as [|x l IH]; [done|]. apply read_only_bind; [done|]. intros y. by apply read_only_bind.
Qed.

Lemma read_only_read_directory check dir : read_only (read_directory check dir).
Proof.
  intros names. apply read_only_map_list. intros name. apply read_only_bind; [apply read_only_readJsonFile|].
  intros v. by apply read_only_check.
Qed.

Lemma read_only_getItem t id : read_only (getItem root t id).
Proof.
  apply read_only_check. intros l. apply read_only_check. intros p. apply read_only_exists. intros [|]; [|done].
  apply read_only_bind; [apply read_only_readJsonFile|]. intros item. by apply read_only_check.
Qed.

Lemma read_only_undecided l item : read_only (undecided l item).
Proof. apply read_only_check. intros p. by apply read_only_exists. Qed.

Lemma read_only_collect t run_id dir names : read_only (collect_verdicts root t run_id dir names).
Proof.
  induction names as [|name names IH]; [done|]. cbn [collect_verdicts].
  apply read_only_bind; [apply read_only_readJsonFile|]. intros v. apply read_only_check. intros _.
  apply read_only_bind; [|intros mine; by apply read_only_bind]. by apply read_only_bind; [apply read_only_getItem|].
Qed.

Lemma read_only_loadVerdictsForRun t run_id : read_only (loadVerdictsForRun root t run_id).
Proof.
  apply read_only_check. intros _. apply read_only_check. intros l names.
  by apply read_only_bind; [apply read_only_collect|].
Qed.

Lemma read_only_fetchPending f : read_only (fetchPending root f).
Proof.
  apply read_only_check. intros _. apply read_only_check. intros l.
  apply read_only_bind; [apply read_only_read_directory|]. intros items.
  apply read_only_bind; [|done]. apply read_only_filter_list. intros item. apply read_only_undecided.
Qed.

Lemma read_only_findSlaBreaches t now : read_only (findSlaBreaches root t now).
Proof.
  apply read_only_check. intros _. apply read_only_check. intros l.
  apply read_only_bind; [apply read_only_read_directory|]. intros items.
  apply read_only_bind; [|done]. apply read_only_filter_list. intros item. apply read_only_undecided.
Qed.

Lemma read_only_calls c : call_pid c = None → read_only (call_program c).
Proof.
  intros Hc. destruct c as [|f|t id|t run_id| |t run_id|t now| |t job at_ now]; try done; (apply read_only_bind; [|done]).
  - apply read_only_fetchPending.
  - apply read_only_getItem.
  - apply read_only_check. intros l. apply read_only_check. intros p. apply read_only_exists. intros [|]; [|done].
    by apply read_only_bind; [apply read_only_readJsonFile|].
  - apply read_only_loadVerdictsForRun.
  - apply read_only_findSlaBreaches.
  - do 4 (apply read_only_check; intros _). apply read_only_check. intros l.
    apply read_only_bind; [apply read_only_read_directory|]. intros items.
    apply read_only_bind; [apply read_only_loadVerdictsForRun|]. intros verdicts.
    by apply read_only_bind; [apply read_only_findSlaBreaches|].
Qed.

Lemma calls_are_guarded c K : call_ok c → call_guarded c K (call_program c).
Proof.
  intros Hc. destruct (call_pid c) as [pid|] eqn:Hp; [|by apply read_only_guarded, read_only_calls].
  unfold call_ok in Hc. rewrite Hp in Hc.
  destruct c; try done; injection Hp as ->; (apply guarded_bind; [|done]);
    [by apply guarded_enqueue|by apply guarded_writeRunLog|by apply guarded_recordVerdict].
Qed.

Definition queue_calls (p : queue_program queue_answer) : Prop := ∃ c, call_ok c ∧ p = call_program c.
Definition owning_calls (o : option string) (p : queue_program queue_answer) : Prop :=
  ∃ c, call_ok c ∧ o = call_temp c ∧ p = call_program c.

Lemma empty_invariant : queue_invariant ∅.
Proof. split; intros *; rewrite lookup_empty; [done..|by intros ? ? ? ? []]. Qed.

Lemma run_respects c d : call_ok c → queue_respects d (run (call_program c) d).2.
Proof. intros Hc. by apply (guarded_run _ _ _ (λ _, True) d (calls_are_guarded c _ Hc) I). Qed.

(** C16. Whatever calls of whatever tenants and processes interleave, and wherever they
    crash, as long as no two calls that run at the same time share a temporary file
    (are of one process and for the same record): every verdict file holds a verdict
    that passed the checks, with a signature that verified, about the item the file is
    named after; and that item is there and passed its checks. *)
Theorem every_stored_verdict_is_signed ps d t id x :
  owned_reachable owning_calls ∅ (ps, d) →
  safe_segment t = true → safe_segment id = true → d !! verdict_file t id = Some x →
  (∃ v, x = Some (canonicalJson v) ∧ assertHumanReviewVerdictInvariants v = Ok tt ∧
        verifyVerdictSignature v = Ok tt ∧ string_at "itemId" v = id) ∧
  ∃ item, d !! item_file t id = Some (Some (canonicalJson item)) ∧
          assertHumanReviewQueueItemInvariants item = Ok tt ∧
          string_at "tenantId" item = t ∧ string_at "itemId" item = id.
Proof.
  intros Hr Ht Hi Hx.
  assert (Hinv : queue_invariant d).
  { apply (owned_respects owning_calls queue_relies queue_guarantees) in Hr as [[Hresp _] _].
    - apply Hresp, empty_invariant.
    - apply guarantees_relied_on.
    - intros o p (c & Hc & -> & ->). by apply calls_are_guarded. }
  destruct (qi_verdicts _ Hinv t id x Ht Hi Hx) as [(v & -> & Hv) [y Hy]].
  split; [by exists v|]. destruct (qi_items _ Hinv t id y Ht Hi Hy) as (item & -> & Hitem).
  by exists item.
Qed.

End queue.
