(* ===== verification/HumanReviewQueueSpec.v ===== *)
(** * What the calls of the human-review queue answer

    Calls that run alone: what is recorded once stays, and the views of the queue are
    exactly what the files say. Concrete queues at the end: the hypotheses of the general
    theorems hold in them, and some calls do what the comments of the module rule out. *)

From Stdlib Require Import Ascii.
From S2P Require Import Prelude JsString NodePath JsList JsValue CanonicalJson Contracts JsonView.
From S2P Require Import TestCaseValidator ArtifactFiles FilePrograms HumanReviewQueue HumanReviewQueueProps.

(** ** Canonical texts of items and verdicts *)

Lemma string_at_canonical k v : k ≠ PROTO → string_at k (canonicalJson v) = string_at k v.
Proof. intros Hk. unfold string_at. by rewrite text_field_canonical. Qed.

Lemma null_canonical v : bool_decide (canonicalJson v = JNull) = bool_decide (v = JNull).
Proof. apply bool_decide_ext. by destruct v. Qed.

Lemma eq_string_canonical s v : Json.eq_string (canonicalJson <$> v) s = Json.eq_string v s.
Proof. by destruct v as [[]|]. Qed.

Lemma is_string_canonical v : Json.is_string (canonicalJson <$> v) = Json.is_string v.
Proof. by destruct v as [[]|]. Qed.

Lemma nested_field_canonical k k' v :
  k ≠ PROTO → k' ≠ PROTO → (field k (canonicalJson v) ≫= field k') = canonicalJson <$> (field k v ≫= field k').
Proof.
  intros Hk Hk'. rewrite field_canonicalJson by done. destruct (field k v); [|done]. cbn. by rewrite field_canonicalJson.
Qed.

Lemma rate_canonical v : disagreement_rate_ok (canonicalJson <$> v) = disagreement_rate_ok v.
Proof. by destruct v as [[]|]. Qed.

Lemma is_array_canonical v : is_array (canonicalJson <$> v) = is_array v.
Proof. by destruct v as [[]|]. Qed.

Lemma item_check_canonical item :
  assertHumanReviewQueueItemInvariants (canonicalJson item) = assertHumanReviewQueueItemInvariants item.
Proof.
  unfold assertHumanReviewQueueItemInvariants, assertSafeSegment, assertIso8601.
  rewrite null_canonical, !nested_field_canonical, !field_canonicalJson, !string_at_canonical by discriminate.
  by rewrite !eq_string_canonical, !string_where_canonical, is_string_canonical, rate_canonical, is_array_canonical.
Qed.

Lemma isRecord_option_canonical v :
  from_option Json.isRecord false (canonicalJson <$> v) = from_option Json.isRecord false v.
Proof. by destruct v as [[]|]. Qed.

Lemma verdict_check_canonical v :
  assertHumanReviewVerdictInvariants (canonicalJson v) = assertHumanReviewVerdictInvariants v.
Proof.
  unfold assertHumanReviewVerdictInvariants, assertSafeSegment, assertIso8601, assertRationale, assertVerdictLabel,
    isHex, is_revised.
  rewrite null_canonical, !field_canonicalJson by discriminate.
  rewrite !eq_string_canonical, !string_where_canonical, isRecord_option_canonical.
  by rewrite (bool_decide_ext (is_Some (canonicalJson <$> _)) _ (fmap_is_Some _ _)).
Qed.

(** ** Running the pieces *)

Lemma run_check {E A B} (c : outcome E A) (f : A → file_program E B) d :
  run (fp_bind (fp_return c) f) d = match c with Ok a => run (f a) d | Throw e => (Throw e, d) end.
Proof. by destruct c. Qed.

Lemma run_exists {A} path (f : bool → queue_program A) d :
  run (fp_bind (exists_file path) f) d = run (f (has_file d path)) d.
Proof. done. Qed.

Definition read_result (d : disk) (path : string) : checked json :=
  match d !! path with
  | None => Throw (qe_no_such_file path)
  | Some None => Throw (qe_not_json path)
  | Some (Some v) => Ok v
  end.

Lemma run_read {A} path (f : json → queue_program A) d :
  run (fp_bind (readJsonFile path) f) d = match read_result d path with Ok v => run (f v) d | Throw e => (Throw e, d) end.
Proof. unfold read_result. cbn. by destruct (d !! path) as [[]|]. Qed.

Lemma run_map_list {A B} (f : A → queue_program B) (g : A → B) l d :
  (∀ x, x ∈ l → run (f x) d = (Ok (g x), d)) → run (fp_map_list f l) d = (Ok (g <$> l), d).
Proof.
  induction l as [|x l IH]; intros Hf; [done|]. cbn [fp_map_list]. rewrite run_bind, Hf by left.
  rewrite run_bind, IH by (intros; apply Hf; by right). done.
Qed.

Lemma run_filter_list {A} (f : A → queue_program bool) (g : A → bool) l d :
  (∀ x, x ∈ l → run (f x) d = (Ok (g x), d)) → run (fp_filter_list f l) d = (Ok (filter (λ x, g x = true) l), d).
Proof.
  induction l as [|x l IH]; intros Hf; [done|]. cbn [fp_filter_list]. rewrite run_bind, Hf by left.
  rewrite run_bind, IH by (intros; apply Hf; by right). rewrite filter_cons. cbn. case_decide as Hg; [by rewrite Hg|].
  by destruct (g x).
Qed.

Lemma temp_name_place_ne root t sub pid name : queue_temp_path pid (place root t sub name) ≠ place root t sub name.
Proof.
  unfold queue_temp_path. intros E. apply (f_equal String.length) in E. rewrite !length_string_app in E. cbn in E. lia.
Qed.

Lemma run_write {A} root t sub pid name value (f : unit → queue_program A) d :
  run (fp_bind (writeAtomicJson pid (place root t sub name) value) f) d =
  run (f tt) (<[place root t sub name := Some (canonicalJson value)]>
               (delete (queue_temp_path pid (place root t sub name)) d)).
Proof.
  cbn [fp_bind writeAtomicJson writeFile run]. rewrite insert_insert_eq. unfold rename_file.
  rewrite lookup_insert_eq. cbn. by rewrite delete_insert_eq.
Qed.

Section spec.
Context `{LocaleCompare} `{VerdictCrypto} (root : string) (Hroot : rooted root).

(** ** Recording *)

(** What is checked before the disk is read. *)
Definition record_checks (v : json) (t : string) : checked unit :=
  (assertHumanReviewVerdictInvariants v ;;; verifyVerdictSignature v ;;;
   fail_if (negb (safe_segment t)) E_INVALID_SEGMENT)%outcome.

(** The whole call on the two files of the record. *)
Definition record_spec (pid : string) (v : json) (t : string) (d : disk) : checked json * disk :=
  match record_checks v t with
  | Throw e => (Throw e, d)
  | Ok _ =>
      let item_path := item_file root t (string_at "itemId" v) in
      let target := verdict_file root t (string_at "itemId" v) in
      match d !! item_path with
      | None => (Throw (HumanReviewQueueError E_QUEUE_ITEM_NOT_FOUND), d)
      | Some None => (Throw (qe_not_json item_path), d)
      | Some (Some item) =>
          match assertHumanReviewQueueItemInvariants item with
          | Throw e => (Throw e, d)
          | Ok _ =>
              match d !! target with
              | Some None => (Throw (qe_not_json target), d)
              | Some (Some existing) =>
                  if same_json existing v then (Ok item, d)
                  else (Throw (HumanReviewQueueError E_VERDICT_ALREADY_RECORDED), d)
              | None => (Ok item, <[target := Some (canonicalJson v)]> (delete (queue_temp_path pid target) d))
              end
          end
      end
  end.

Lemma verdict_id_safe v u : assertHumanReviewVerdictInvariants v = Ok u → safe_segment (string_at "itemId" v) = true.
Proof.
  unfold assertHumanReviewVerdictInvariants, assertSafeSegment, fail_if. rewrite !outcome_then_Ok, !guard_throw_Ok, !negb_false_iff.
  intros (_ & _ & _ & Hs & _). unfold string_at, text_field. by destruct (field "itemId" v) as [[]|].
Qed.

Lemma item_ids_safe item u :
  assertHumanReviewQueueItemInvariants item = Ok u →
  safe_segment (string_at "itemId" item) = true ∧ safe_segment (string_at "tenantId" item) = true.
Proof.
  unfold assertHumanReviewQueueItemInvariants, assertSafeSegment, fail_if.
  rewrite !outcome_then_Ok, !guard_throw_Ok, !negb_false_iff.
  intros (_ & _ & _ & Hi & Ht & _). unfold string_at, text_field.
  by destruct (field "itemId" item) as [[]|], (field "tenantId" item) as [[]|].
Qed.

Lemma recordVerdict_is_spec pid v t d : run (recordVerdict root pid v t) d = record_spec pid v t d.
Proof.
  unfold recordVerdict, record_spec, record_checks. rewrite run_check.
  destruct (assertHumanReviewVerdictInvariants v) as [u|e] eqn:Hv; [|done]. rewrite run_check. cbn [outcome_bind].
  destruct (verifyVerdictSignature v) as [u'|e]; [|done]. cbn [outcome_bind]. rewrite run_check.
  unfold assertSafeSegment. cbn [string_where]. destruct (fail_if _ _) as [u''|e] eqn:Ht; [|done].
  apply guard_throw_Ok, negb_false_iff in Ht. pose proof (verdict_id_safe _ _ Hv) as Hi.
  rewrite run_check, (proj2 (resolveLayout_Ok root t _)) by done.
  rewrite run_check, (proj2 (queueItemPath_Ok _ _ _)) by done. rewrite item_path, run_exists, run_check by done.
  unfold has_file, fail_if. destruct (d !! item_file root t (string_at "itemId" v)) as [item|] eqn:Hitem; cbn [guard_throw];
    [rewrite bool_decide_eq_true_2 by eauto|rewrite bool_decide_eq_false_2 by (by intros []); done]. cbn [negb guard_throw].
  rewrite run_read. unfold read_result. rewrite Hitem. destruct item as [item|]; [|done]. rewrite run_check.
  destruct (assertHumanReviewQueueItemInvariants item); [|done].
  rewrite run_check, (proj2 (verdictPath_Ok _ _ _)) by done. rewrite verdict_path, run_exists by done. unfold has_file.
  destruct (d !! verdict_file root t (string_at "itemId" v)) as [x|] eqn:Hx;
    [rewrite bool_decide_eq_true_2 by eauto|rewrite bool_decide_eq_false_2 by (by intros [])].
  - rewrite run_read. unfold read_result. rewrite Hx. destruct x as [existing|]; [|done]. rewrite run_check.
    by destruct (same_json existing v).
  - unfold verdict_file. by rewrite run_write.
Qed.
(** ** Enqueueing *)

Definition enqueue_spec (pid : string) (item : json) (d : disk) : checked unit * disk :=
  match assertHumanReviewQueueItemInvariants item with
  | Throw e => (Throw e, d)
  | Ok _ =>
      let path := item_file root (string_at "tenantId" item) (string_at "itemId" item) in
      match d !! path with
      | None => (Ok tt, <[path := Some (canonicalJson item)]> (delete (queue_temp_path pid path) d))
      | Some None => (Throw (qe_not_json path), d)
      | Some (Some existing) =>
          (if same_json existing item then Ok tt else Throw (HumanReviewQueueError E_QUEUE_ITEM_ALREADY_EXISTS), d)
      end
  end.

Lemma enqueue_is_spec pid item d : run (enqueue root pid item) d = enqueue_spec pid item d.
Proof.
  unfold enqueue, enqueue_spec. rewrite run_check. destruct (assertHumanReviewQueueItemInvariants item) as [u|e] eqn:Hv; [|done].
  destruct (item_ids_safe _ _ Hv) as [Hi Ht].
  rewrite run_check, (proj2 (resolveLayout_Ok root _ _)) by done.
  rewrite run_check, (proj2 (queueItemPath_Ok _ _ _)) by done. rewrite item_path, run_exists by done. unfold has_file.
  destruct (d !! item_file root _ _) as [x|] eqn:Hx;
    [rewrite bool_decide_eq_true_2 by eauto|rewrite bool_decide_eq_false_2 by (by intros [])].
  - rewrite run_read. unfold read_result. rewrite Hx. destruct x as [existing|]; [|done]. cbn.
    by destruct (same_json existing item).
  - unfold item_file. cbn [writeAtomicJson writeFile run]. rewrite insert_insert_eq. unfold rename_file.
    rewrite lookup_insert_eq. cbn. by rewrite delete_insert_eq.
Qed.

(** ** Records stay *)

(** Writing another file keeps a record. *)
Lemma write_keeps_record (d : disk) t sub id t' sub' (pid name' : string) (v : option json) :
  safe_segment t = true → sub ∈ tenant_dirs → safe_segment id = true →
  safe_segment t' = true → sub' ∈ tenant_dirs → has_char "/" name' = false → pid_ok pid →
  (t' = t → sub' = sub → name' ≠ json_name id) →
  (<[place root t' sub' name' := v]> (delete (queue_temp_path pid (place root t' sub' name')) d))
    !! place root t sub (json_name id) = d !! place root t sub (json_name id).
Proof.
  intros Ht Hsub Hid Ht' Hsub' Hname' Hp Hne. destruct (dir_ok _ Hsub) as [_ Hs], (dir_ok _ Hsub') as [_ Hs'].
  assert (Hj : has_char "/" (json_name id) = false) by by apply has_char_json, safe_no_slash.
  pose proof (safe_no_slash _ Ht). pose proof (safe_no_slash _ Ht').
  rewrite lookup_insert_ne; [rewrite temp_place, lookup_delete_ne; [done|]|].
  - intros E. apply place_inj in E as (_ & _ & E); [|repeat constructor; try done; by apply has_slash_temp].
    pose proof (json_name_json id) as Hjson. by rewrite <- E, temp_name_not_json in Hjson.
  - intros E. apply place_inj in E as (-> & -> & ->); [by apply Hne|]. by repeat constructor.
Qed.

Lemma record_keeps pid v t d t' sub id x :
  pid_ok pid → safe_segment t' = true → sub ∈ tenant_dirs → safe_segment id = true →
  d !! place root t' sub (json_name id) = Some x →
  (record_spec pid v t d).2 !! place root t' sub (json_name id) = Some x.
Proof.
  intros Hp Hst Hsub Hid Hx. unfold record_spec, record_checks.
  destruct (assertHumanReviewVerdictInvariants v) as [u|] eqn:Hv; [|done]. cbn [outcome_bind].
  destruct (verifyVerdictSignature v); [|done]. cbn [outcome_bind].
  destruct (safe_segment t) eqn:Ht; [|done]. cbn [negb fail_if guard_throw].
  destruct (d !! item_file root t _) as [[item|]|]; try done.
  destruct (assertHumanReviewQueueItemInvariants item); [|done].
  destruct (d !! verdict_file root t _) as [[e|]|] eqn:Ht'; [by destruct (same_json e v)|done|]. cbn [snd].
  pose proof (verdict_id_safe _ _ Hv). unfold verdict_file. rewrite write_keeps_record; try done;
    [set_solver|by apply has_char_json, safe_no_slash|].
  intros -> <- E. unfold verdict_file in Ht'. congruence.
Qed.

Lemma enqueue_keeps pid item d t' sub id x :
  pid_ok pid → safe_segment t' = true → sub ∈ tenant_dirs → safe_segment id = true →
  d !! place root t' sub (json_name id) = Some x →
  (enqueue_spec pid item d).2 !! place root t' sub (json_name id) = Some x.
Proof.
  intros Hp Hst Hsub Hid Hx. unfold enqueue_spec.
  destruct (assertHumanReviewQueueItemInvariants item) as [u|] eqn:Hv; [|done].
  destruct (d !! item_file root _ _) as [[e|]|] eqn:Ht'; [done..|]. cbn [snd].
  destruct (item_ids_safe _ _ Hv) as [Hi Ht]. unfold item_file. rewrite write_keeps_record; try done;
    [set_solver|by apply has_char_json, safe_no_slash|].
  intros E <- En. unfold item_file in Ht'. rewrite E, En in Ht'. congruence.
Qed.

Lemma writeRunLog_keeps pid log d t' sub id x :
  pid_ok pid → safe_segment t' = true → sub ∈ ["queue"; "verdicts"] → safe_segment id = true →
  d !! place root t' sub (json_name id) = Some x →
  (run (writeRunLog root pid log) d).2 !! place root t' sub (json_name id) = Some x.
Proof.
  intros Hp Hst Hsub Hid Hx. unfold writeRunLog. rewrite run_check. destruct (fail_if _ _); [|done].
  rewrite run_check. destruct (fail_if _ _); [|done].
  rewrite run_check. destruct (resolveLayout _ _) as [l|] eqn:Hl; [|done]. apply resolveLayout_Ok in Hl as [Ht ->].
  rewrite run_check. destruct (runLogPath _ _) as [p|] eqn:Hp'; [|done]. apply runLogPath_Ok in Hp' as [Hi ->].
  rewrite log_path, run_write by done. cbn [run fp_ok snd].
  rewrite write_keeps_record; try done; [set_solver|set_solver| |].
  - by pose proof (log_name_ok _ Hi) as [? _]%file_name_ok_spec.
  - intros _ <-. set_solver.
Qed.

(** C18. Items and verdicts are append-only: a call that runs alone never changes a record
    that is there, whatever it is asked to do. *)
Theorem records_are_append_only c d t sub id x :
  call_ok c → safe_segment t = true → sub ∈ ["queue"; "verdicts"] → safe_segment id = true →
  d !! place root t sub (json_name id) = Some x →
  (run (call_program root c) d).2 !! place root t sub (json_name id) = Some x.
Proof.
  intros Hc Ht Hsub Hid Hx. assert (Hsub' : sub ∈ tenant_dirs) by set_solver.
  destruct (call_pid c) as [pid|] eqn:Hp; [|by rewrite read_only_run by by apply read_only_calls].
  unfold call_ok in Hc. rewrite Hp in Hc.
  destruct c as [pid' item| | | |pid' log| | |pid' v t'|]; try done; injection Hp as ->;
    cbn [call_program]; unfold answering; rewrite run_bind.
  - rewrite enqueue_is_spec. pose proof (enqueue_keeps pid item d t sub id x Hc Ht Hsub' Hid Hx) as He.
    by destruct (enqueue_spec pid item d) as [[|] d'].
  - pose proof (writeRunLog_keeps pid log d t sub id x Hc Ht Hsub Hid Hx) as He.
    by destruct (run _ d) as [[|] d'].
  - rewrite recordVerdict_is_spec. pose proof (record_keeps pid v t' d t sub id x Hc Ht Hsub' Hid Hx) as He.
    by destruct (record_spec pid v t' d) as [[|] d'].
Qed.

(** ** The views of the queue *)

(** The record a file holds. *)
Definition stored (d : disk) (path : string) : json := match d !! path with Some (Some v) => v | _ => JNull end.

(** The JSON files of a directory, read in the order of their names. *)
Definition directory_values (d : disk) (t sub : string) : list json :=
  (λ name, stored d (place root t sub name)) <$>
  filter (λ name, ends_with ".json" name = true) (list_names d (posix_join [posix_join [root; t]; sub])).

Lemma elem_of_json_names d t sub name :
  safe_segment t = true → sub ∈ tenant_dirs →
  name ∈ filter (λ name, ends_with ".json" name = true) (list_names d (posix_join [posix_join [root; t]; sub])) ↔
  ends_with ".json" name = true ∧ file_name_ok name = true ∧ is_Some (d !! place root t sub name).
Proof.
  intros Ht Hs. rewrite list_elem_of_filter. unfold list_names. rewrite elem_of_js_sort, list_directory_spec.
  split; intros (? & Hn & Hx); pose proof (join_place _ _ _ _ Hroot Ht Hs Hn) as E; rewrite E in *; done.
Qed.

Lemma run_read_directory check d t sub :
  safe_segment t = true → sub ∈ tenant_dirs →
  (∀ name, ends_with ".json" name = true → file_name_ok name = true → is_Some (d !! place root t sub name) →
     ∃ v u, d !! place root t sub name = Some (Some v) ∧ check v = Ok u) →
  run (read_directory check (posix_join [posix_join [root; t]; sub])) d = (Ok (directory_values d t sub), d).
Proof.
  intros Ht Hs Hok. unfold read_directory. cbn [run]. apply run_map_list. intros name Hn.
  apply elem_of_json_names in Hn as (Hj & Hf & Hx); [|done..]. destruct (Hok name Hj Hf Hx) as (v & u & Hv & Hc).
  rewrite run_read, join_place by done. unfold read_result, stored. rewrite Hv, run_check, Hc. done.
Qed.

(** In a queue that meets the invariant, the files of a directory are its records. *)
Lemma directory_records d t sub :
  queue_invariant root d → safe_segment t = true → sub ∈ ["queue"; "verdicts"] →
  ∀ name, ends_with ".json" name = true → file_name_ok name = true → is_Some (d !! place root t sub name) →
  ∃ id v, safe_segment id = true ∧ name = json_name id ∧ d !! place root t sub name = Some (Some v) ∧
    string_at "itemId" v = id ∧
    (sub = "queue" → assertHumanReviewQueueItemInvariants v = Ok tt ∧ string_at "tenantId" v = t) ∧
    (sub = "verdicts" → assertHumanReviewVerdictInvariants v = Ok tt ∧ is_Some (d !! item_file root t id)).
Proof.
  intros Hinv Ht Hs name Hj Hf Hx. destruct (qi_names _ _ Hinv t sub name Ht Hs Hf Hj Hx) as (id & Hid & ->).
  destruct Hx as [x Hx]. exists id. set_unfold in Hs. destruct Hs as [->|[->|[]]].
  - destruct (qi_items _ _ Hinv t id x Ht Hid Hx) as (item & -> & Hok & Htn & Hidn).
    exists (canonicalJson item). rewrite item_check_canonical, !string_at_canonical by discriminate. naive_solver.
  - destruct (qi_verdicts _ _ Hinv t id x Ht Hid Hx) as [(v & -> & Hok & _ & Hidn) Hex].
    exists (canonicalJson v). rewrite verdict_check_canonical, !string_at_canonical by discriminate. naive_solver.
Qed.

Lemma elem_of_directory_values d t sub v :
  queue_invariant root d → safe_segment t = true → sub ∈ ["queue"; "verdicts"] →
  v ∈ directory_values d t sub ↔
  safe_segment (string_at "itemId" v) = true ∧ d !! place root t sub (json_name (string_at "itemId" v)) = Some (Some v).
Proof.
  intros Hinv Ht Hs. assert (Hs' : sub ∈ tenant_dirs) by set_solver.
  unfold directory_values. rewrite list_elem_of_fmap. split.
  - intros (name & -> & (Hj & Hf & Hx)%elem_of_json_names); [|done..].
    destruct (directory_records d t sub Hinv Ht Hs name Hj Hf Hx) as (id & w & Hid & -> & Hw & Hidw & _).
    unfold stored. rewrite Hw, Hidw. done.
  - intros [Hid Hv]. exists (json_name (string_at "itemId" v)). split; [unfold stored; by rewrite Hv|].
    apply elem_of_json_names; [done..|]. split; [apply json_name_json|]. split; [by apply json_name_ok|]. by exists (Some v).
Qed.

Lemma run_listQueueDir d t :
  queue_invariant root d → safe_segment t = true →
  run (listQueueDir (layout_of root t)) d = (Ok (directory_values d t "queue"), d).
Proof.
  intros Hinv Ht. apply run_read_directory; [done|set_solver|]. intros name Hj Hf Hx.
  destruct (directory_records d t "queue" Hinv Ht ltac:(set_solver) name Hj Hf Hx) as (id & v & _ & _ & Hv & _ & Hq & _).
  exists v, tt. split; [done|]. by destruct Hq.
Qed.

Lemma run_undecided d t item :
  safe_segment t = true → safe_segment (string_at "itemId" item) = true →
  run (undecided (layout_of root t) item) d = (Ok (negb (has_file d (verdict_file root t (string_at "itemId" item)))), d).
Proof.
  intros Ht Hi. unfold undecided. rewrite run_check, (proj2 (verdictPath_Ok _ _ _)) by done.
  by rewrite verdict_path, run_exists by done.
Qed.

(** The item [item] waits for a verdict in the queue of [t]. *)
Definition waiting (d : disk) (t : string) (item : json) : Prop :=
  let id := string_at "itemId" item in
  safe_segment id = true ∧ d !! item_file root t id = Some (Some item) ∧ d !! verdict_file root t id = None.

Lemma waiting_values d t item (p : json → Prop) `{!∀ i, Decision (p i)} :
  queue_invariant root d → safe_segment t = true →
  item ∈ filter (λ i, negb (has_file d (verdict_file root t (string_at "itemId" i))) = true)
           (filter p (directory_values d t "queue")) ↔ waiting d t item ∧ p item.
Proof.
  intros Hinv Ht. rewrite !list_elem_of_filter, elem_of_directory_values by (done || set_solver). unfold waiting, has_file.
  rewrite negb_true_iff, bool_decide_eq_false, <- eq_None_not_Some. naive_solver.
Qed.

(** [fetchPending] returns exactly the waiting items that match the filter, sorted. *)
Theorem fetchPending_is_exact d f :
  queue_invariant root d → safe_segment (hf_tenantId f) = true →
  from_option (λ due, is_iso_8601 due = true) True (hf_slaDueBy f) →
  ∃ items, run (fetchPending root f) d = (Ok items, d) ∧ StronglySorted (cmp_le by_item_id) items ∧
           ∀ item, item ∈ items ↔ waiting d (hf_tenantId f) item ∧ matchesFilter item f = true.
Proof.
  intros Hinv Ht Hdue. unfold fetchPending. rewrite run_check.
  assert (match hf_slaDueBy f with None => Ok tt | Some due => assertIso8601 (Some (JString due)) end = Ok tt) as ->.
  { destruct (hf_slaDueBy f) as [due|]; [|done]. unfold assertIso8601. cbn in *. by rewrite Hdue. }
  rewrite run_check, (proj2 (resolveLayout_Ok root _ _)) by done. rewrite run_bind, run_listQueueDir by done.
  rewrite run_bind, (run_filter_list _ (λ i, negb (has_file d (verdict_file root (hf_tenantId f) (string_at "itemId" i))))).
  2:{ intros i [_ Hi]%list_elem_of_filter. apply elem_of_directory_values in Hi as [Hi _]; [|done|done|set_solver].
      by apply run_undecided. }
  eexists. split; [reflexivity|]. split; [apply js_sort_sorted, _|]. intros item.
  rewrite elem_of_js_sort. by apply (waiting_values d (hf_tenantId f) item (λ i, matchesFilter i f = true)).
Qed.

(** [findSlaBreaches] returns exactly the waiting items whose deadline is, as text,
    before the given time. *)
Theorem findSlaBreaches_is_exact d t now :
  queue_invariant root d → safe_segment t = true → is_iso_8601 now = true →
  ∃ breaches, run (findSlaBreaches root t now) d = (Ok breaches, d) ∧
    StronglySorted (cmp_le (cmp_on hs_itemId localeCompare)) breaches ∧
    ∀ b, b ∈ breaches ↔ ∃ item, waiting d t item ∧ text_lt (string_at "slaDeadlineAt" item) now = true ∧ b = breach_of now item.
Proof.
  intros Hinv Ht Hnow. unfold findSlaBreaches. rewrite run_check. unfold assertIso8601. cbn [string_where].
  rewrite Hnow. cbn [negb fail_if guard_throw].
  rewrite run_check, (proj2 (resolveLayout_Ok root _ _)) by done. rewrite run_bind, run_listQueueDir by done.
  rewrite run_bind, (run_filter_list _ (λ i, negb (has_file d (verdict_file root t (string_at "itemId" i))))).
  2:{ intros i [_ Hi]%list_elem_of_filter. apply elem_of_directory_values in Hi as [Hi _]; [|done|done|set_solver].
      by apply run_undecided. }
  eexists. split; [reflexivity|]. split; [apply js_sort_sorted, _|]. intros b.
  rewrite elem_of_js_sort, list_elem_of_fmap. split.
  - intros (item & -> & Hi). exists item.
    apply (waiting_values d t item (λ i, text_lt (string_at "slaDeadlineAt" i) now = true)) in Hi as [? ?]; done.
  - intros (item & Hw & Hl & ->). exists item. split; [done|].
    by apply (waiting_values d t item (λ i, text_lt (string_at "slaDeadlineAt" i) now = true)).
Qed.

(** *** Verdicts of a run *)

Lemma run_getItem d t id :
  queue_invariant root d → safe_segment t = true → safe_segment id = true →
  run (getItem root t id) d =
  (Ok (if has_file d (item_file root t id) then Some (stored d (item_file root t id)) else None), d).
Proof.
  intros Hinv Ht Hid. unfold getItem. rewrite run_check, (proj2 (resolveLayout_Ok root _ _)) by done.
  rewrite run_check, (proj2 (queueItemPath_Ok _ _ _)) by done. rewrite item_path, run_exists by done.
  destruct (has_file d (item_file root t id)) eqn:Hf; [|done]. rewrite run_read. unfold read_result, stored.
  apply bool_decide_eq_true in Hf as [x Hx].
  destruct (qi_items _ _ Hinv t id x Ht Hid Hx) as (item & -> & Hok & _).
  rewrite Hx, run_check, item_check_canonical, Hok. done.
Qed.

(** The verdict is about an item of the run. *)
Definition about_run (d : disk) (t run_id : string) (v : json) : bool :=
  let path := item_file root t (string_at "itemId" v) in
  has_file d path && bool_decide (string_at "runId" (stored d path) = run_id).

Lemma run_of_run d t run_id v :
  queue_invariant root d → safe_segment t = true → safe_segment (string_at "itemId" v) = true →
  run (of_run root t run_id v) d = (Ok (about_run d t run_id v), d).
Proof.
  intros Hinv Ht Hid. unfold of_run, about_run. rewrite run_bind, run_getItem by done. by destruct (has_file _ _).
Qed.

Lemma run_collect d t run_id names :
  queue_invariant root d → safe_segment t = true →
  (∀ name, name ∈ names → file_name_ok name = true ∧ ∃ v, d !! place root t "verdicts" name = Some (Some v) ∧
     assertHumanReviewVerdictInvariants v = Ok tt) →
  run (collect_verdicts root t run_id (verdictsDir (layout_of root t)) names) d =
  (Ok (filter (λ v, about_run d t run_id v = true) ((λ name, stored d (place root t "verdicts" name)) <$> names)), d).
Proof.
  intros Hinv Ht. induction names as [|name names IH]; intros Hn; [done|]. cbn [collect_verdicts].
  destruct (Hn name ltac:(left)) as (Hf & v & Hv & Hok). rewrite run_read. unfold read_result.
  assert (posix_join [verdictsDir (layout_of root t); name] = place root t "verdicts" name) as ->
    by (apply join_place; [done|done|set_solver|done]).
  rewrite Hv, run_check, Hok, run_bind, run_of_run by (done || by apply (verdict_id_safe _ _ Hok)).
  rewrite run_bind, IH by (intros; apply Hn; by right). rewrite fmap_cons, filter_cons.
  assert (stored d (place root t "verdicts" name) = v) as -> by (unfold stored; by rewrite Hv).
  case_decide as Hm; [by rewrite Hm|]. by destruct (about_run d t run_id v).
Qed.

(** [loadVerdictsForRun] returns exactly the recorded verdicts about items of the
    run, sorted. *)
Theorem loadVerdictsForRun_is_exact d t run_id :
  queue_invariant root d → safe_segment t = true → safe_segment run_id = true →
  ∃ verdicts, run (loadVerdictsForRun root t run_id) d = (Ok verdicts, d) ∧
    StronglySorted (cmp_le by_item_id) verdicts ∧
    ∀ v, v ∈ verdicts ↔
      let id := string_at "itemId" v in
      safe_segment id = true ∧ d !! verdict_file root t id = Some (Some v) ∧
      ∃ item, d !! item_file root t id = Some (Some item) ∧ string_at "runId" item = run_id.
Proof.
  intros Hinv Ht Hr. unfold loadVerdictsForRun. rewrite run_check, (proj2 (assertSafeSegment_Ok run_id tt)) by done.
  rewrite run_check, (proj2 (resolveLayout_Ok root _ _)) by done. cbn [run].
  rewrite run_bind, run_collect; [|done|done|].
  2:{ intros name (Hj & Hf & Hx)%elem_of_json_names; [|done|set_solver]. split; [done|].
      destruct (directory_records d t "verdicts" Hinv Ht ltac:(set_solver) name Hj Hf Hx) as (id & v & _ & _ & Hv & _ & _ & Hok).
      exists v. split; [done|]. by destruct Hok. }
  eexists. split; [reflexivity|]. split; [apply js_sort_sorted, _|]. intros v.
  rewrite elem_of_js_sort, list_elem_of_filter.
  change (verdictsDir (layout_of root t)) with (posix_join [posix_join [root; t]; "verdicts"]).
  fold (directory_values d t "verdicts"). rewrite elem_of_directory_values by (done || set_solver). unfold about_run, stored, has_file.
  rewrite andb_true_iff, !bool_decide_eq_true. split.
  - intros ([[x Hx] Hrun] & Hid & Hv). split; [done|]. split; [done|].
    destruct (qi_items _ _ Hinv t _ x Ht Hid Hx) as (item & -> & _).
    exists (canonicalJson item). by rewrite Hx in Hrun.
  - intros (Hid & Hv & item & Hx & Hrun). rewrite Hx. naive_solver.
Qed.

(** ** A recorded verdict *)

Lemma record_Ok pid v t d item d' :
  record_spec pid v t d = (Ok item, d') →
  safe_segment t = true ∧ safe_segment (string_at "itemId" v) = true ∧
  d !! item_file root t (string_at "itemId" v) = Some (Some item) ∧
  ((∃ existing, d !! verdict_file root t (string_at "itemId" v) = Some (Some existing) ∧
                canonicalJson existing = canonicalJson v ∧ d' = d) ∨
   (d !! verdict_file root t (string_at "itemId" v) = None ∧
    d' = <[verdict_file root t (string_at "itemId" v) := Some (canonicalJson v)]>
           (delete (queue_temp_path pid (verdict_file root t (string_at "itemId" v))) d))).
Proof.
  unfold record_spec, record_checks. destruct (assertHumanReviewVerdictInvariants v) as [u|] eqn:Hv; [|done].
  cbn [outcome_bind]. destruct (verifyVerdictSignature v); [|done]. cbn [outcome_bind].
  destruct (safe_segment t) eqn:Ht; [|done]. cbn [negb fail_if guard_throw]. pose proof (verdict_id_safe _ _ Hv) as Hid.
  destruct (d !! item_file root t _) as [[i|]|]; try done. destruct (assertHumanReviewQueueItemInvariants i); [|done].
  destruct (d !! verdict_file root t _) as [[e|]|] eqn:Hx; [|done|].
  - destruct (same_json e v) eqn:Hs; [|done]. intros [= -> <-]. apply bool_decide_eq_true in Hs. split_and!; [done..|]. left. by exists e.
  - intros [= -> <-]. split_and!; [done..|]. by right.
Qed.

(** Once a verdict is recorded its item waits no more: it is neither pending nor late,
    and a replay of the run of the item finds the verdict. *)
Theorem recorded_verdict_is_found pid v t d item d' :
  queue_invariant root d → pid_ok pid → run (recordVerdict root pid v t) d = (Ok item, d') →
  let id := string_at "itemId" v in
  queue_invariant root d' ∧
  (∀ i, string_at "itemId" i = id → ¬ waiting d' t i) ∧
  (∃ w, d' !! verdict_file root t id = Some (Some w) ∧ (w = canonicalJson v ∨ canonicalJson w = canonicalJson v) ∧
     ∀ verdicts, run (loadVerdictsForRun root t (string_at "runId" item)) d' = (Ok verdicts, d') → w ∈ verdicts).
Proof.
  intros Hinv Hp Hrun id. rewrite recordVerdict_is_spec in Hrun by done.
  assert (Hinv' : queue_invariant root d').
  { pose proof (run_respects root Hroot (call_recordVerdict pid v t) d Hp) as [Hresp _].
    cbn [call_program] in Hresp. unfold answering in Hresp.
    rewrite run_bind, recordVerdict_is_spec, Hrun in Hresp by done. by apply Hresp. }
  apply record_Ok in Hrun as (Ht & Hid & Hitem & Hcase). fold id in Hid, Hitem, Hcase.
  assert (Hw : ∃ w, d' !! verdict_file root t id = Some (Some w) ∧ (w = canonicalJson v ∨ canonicalJson w = canonicalJson v)).
  { destruct Hcase as [(e & He & Hs & ->)|[_ ->]]; [by eauto|]. exists (canonicalJson v). rewrite lookup_insert_eq. auto. }
  assert (Hitem' : d' !! item_file root t id = Some (Some item)).
  { destruct Hcase as [(e & _ & _ & ->)|[_ ->]]; [done|]. unfold verdict_file, item_file.
    rewrite write_keeps_record; try done; [set_solver|set_solver|by apply has_char_json, safe_no_slash]. }
  destruct Hw as (w & Hw & Heq). split; [done|]. split.
  { intros i Hi (_ & _ & Hnone). rewrite Hi in Hnone. congruence. }
  exists w. split; [done|]. split; [done|]. intros verdicts Hload.
  destruct (qi_verdicts _ _ Hinv' t id _ Ht Hid Hw) as [(w' & [= Ew] & _ & _ & Hidw) _].
  assert (Hidw' : string_at "itemId" w = id) by (by rewrite Ew, string_at_canonical by discriminate).
  destruct (decide (safe_segment (string_at "runId" item) = true)) as [Hsr|Hsr].
  - destruct (loadVerdictsForRun_is_exact d' t (string_at "runId" item) Hinv' Ht Hsr) as (l & Hl & _ & Hex).
    rewrite Hl in Hload. injection Hload as <-. apply Hex. cbn zeta. rewrite Hidw'. eauto.
  - unfold loadVerdictsForRun in Hload. rewrite run_check in Hload.
    destruct (assertSafeSegment _) as [u|] eqn:Hs; [|done]. by apply assertSafeSegment_Ok in Hs.
Qed.

End spec.

(** ** Identifiers *)

Lemma all_chars_substring p n m s : all_chars p s = true → all_chars p (String.substring n m s) = true.
Proof.
  revert n m; induction s as [|c s IH]; intros [|n] [|m] Hs; cbn in *; try done;
    apply andb_true_iff in Hs as [Hc Hs]; [by rewrite Hc, IH|by apply IH..].
Qed.

Lemma length_substring n s : (n ≤ String.length s)%nat → String.length (String.substring 0 n s) = n.
Proof.
  revert n; induction s as [|c s IH]; intros [|n] Hn; cbn in *; try lia. rewrite IH; lia.
Qed.

Lemma hex_segment c : is_hex_digit c = true → segment_start c = true.
Proof.
  unfold is_hex_digit, segment_start. rewrite !orb_true_iff, !andb_true_iff, !Nat.leb_le. lia.
Qed.

(** The identifier computed for a case is 32 hexadecimal digits, so that the queue
    accepts it as the name of a record. *)
Theorem computed_item_id_is_accepted `{JsonDigest} t r c id :
  computeHumanReviewItemId t r c = Ok id → String.length id = 32%nat ∧ safe_segment id = true.
Proof.
  unfold computeHumanReviewItemId, fail_if. rewrite outcome_then_Ok. intros [_ [= <-]].
  unfold sha256Hex_json. set (value := canonicalJson _). pose proof (json_digest_isHex64 value) as Hd. apply andb_true_iff in Hd as [Hl Hc]. apply Nat.eqb_eq in Hl.
  assert (Hlen : String.length (String.substring 0 32 (json_digest value)) = 32%nat) by (apply length_substring; lia).
  split; [done|]. apply (all_chars_substring _ 0 32) in Hc. destruct (String.substring 0 32 _) as [|a rest]; [done|].
  cbn in Hc, Hlen |- *. apply andb_true_iff in Hc as [Ha Hrest]. rewrite (hex_segment _ Ha). cbn.
  rewrite andb_true_iff, Nat.leb_le. split; [|lia]. clear -Hrest.
  induction rest as [|b rest IH]; [done|]. cbn in *. apply andb_true_iff in Hrest as [Hb Hrest].
  unfold segment_char. rewrite (hex_segment _ Hb). by apply IH.
Qed.

(** ** A queue to evaluate *)

Fixpoint repeat_text (n : nat) (s : string) : string :=
  match n with O => "" | S n' => s +:+ repeat_text n' s end.

(** One key, whose only valid signature is the text of 64 times [ab]. *)
Definition demo_crypto : VerdictCrypto :=
  {| public_key := unit; createPublicKey _ := Some tt; asymmetricKeyType _ := "ed25519";
     spki_sha256 _ := repeat_text 64 "0"; ed25519_verify _ _ signature := bool_decide (signature = repeat_text 64 "ab") |}.
#[local] Existing Instance demo_crypto.
#[local] Existing Instance code_unit_collation.

Definition demo_root : string := "/queue".
Lemma demo_rooted : rooted demo_root.
Proof. exists ["queue"]. split; [done|]. split; [|by right]. constructor; [by split|constructor]. Qed.

Definition demo_item (tenant id run_id enqueued deadline : string) : json :=
  JObject [("schemaVersion", JString "1.0.0"); ("contractVersion", JString TEST_INTELLIGENCE_CONTRACT_VERSION);
           ("itemId", JString id); ("tenantId", JString tenant); ("profileId", JString "bank"); ("runId", JString run_id);
           ("testCaseId", JString "tc-1"); ("proposedDecision", JString "needs_review");
           ("judgeDisagreement", JObject [("disagreementRate", JNumber (1 # 2)); ("judges", JArray [])]);
           ("enqueuedAt", JString enqueued); ("slaDeadlineAt", JString deadline)].

Definition demo_verdict (id label : string) : json :=
  JObject [("schemaVersion", JString "1.0.0"); ("contractVersion", JString TEST_INTELLIGENCE_CONTRACT_VERSION);
           ("itemId", JString id); ("reviewerPrincipalHash", JString (repeat_text 64 "c")); ("verdict", JString label);
           ("rationale", JString "checked by hand"); ("decidedAt", JString "2026-01-02T08:00:00Z");
           ("signatureHex", JString (repeat_text 64 "ab"));
           ("publicKeyFingerprintSha256", JString (repeat_text 64 "0"));
           ("publicKeyPem", JString "-----BEGIN PUBLIC KEY-----")].

Definition item1 : json := demo_item "acme" "case1" "run1" "2026-01-01T08:00:00Z" "2026-01-03T08:00:00Z".
Definition approval : json := demo_verdict "case1" "approved".
Definition rejection : json := demo_verdict "case1" "rejected".
Definition case1_file : string := verdict_file demo_root "acme" "case1".

Definition program (c : queue_call) : queue_program queue_answer := call_program demo_root c.
Definition start (cs : list queue_call) : list (queue_program queue_answer) * disk := (program <$> cs, ∅).

Lemma start_reachable cs schedule :
  Forall call_ok cs → pool_reachable (queue_calls demo_root) ∅ (run_schedule schedule (start cs)).
Proof.
  intros Hc. unfold pool_reachable. etrans; [apply (start_calls _ [] (program <$> cs))|apply schedule_reachable].
  apply Forall_fmap. eapply Forall_impl; [exact Hc|]. intros c Hok. by exists c.
Qed.

(** ** Two reviewers at once *)

(** Both calls look for a recorded verdict before either writes one. *)
Definition two_reviewers : list queue_call :=
  [call_enqueue "11" item1; call_recordVerdict "12" approval "acme"; call_recordVerdict "13" rejection "acme"].
Definition first_writes : list nat := [0; 0; 0; 0; 1; 1; 1; 2; 2; 2; 1; 1; 1]%nat.
Definition both_write : list nat := first_writes ++ [2; 2; 2]%nat.

(** Verdicts are said to be append-only; a verdict that was recorded is replaced by a
    different one, and both callers are told that theirs was recorded. *)
Theorem concurrent_verdict_is_replaced :
  ∃ ps1 d1 ps2 d2,
    pool_reachable (queue_calls demo_root) ∅ (ps1, d1) ∧ rtc (pool_step (queue_calls demo_root)) (ps1, d1) (ps2, d2) ∧
    d1 !! case1_file = Some (Some (canonicalJson approval)) ∧
    d2 !! case1_file = Some (Some (canonicalJson rejection)) ∧
    ps2 !! 1%nat = Some (fp_ok (ans_record (canonicalJson item1))) ∧
    ps2 !! 2%nat = Some (fp_ok (ans_record (canonicalJson item1))).
Proof.
  set (c1 := run_schedule first_writes (start two_reviewers)).
  set (c2 := run_schedule [2; 2; 2]%nat c1).
  exists c1.1, c1.2, c2.1, c2.2.
  split; [exact (start_reachable two_reviewers first_writes ltac:(repeat constructor))|].
  split; [exact (schedule_reachable (queue_calls demo_root) [2; 2; 2]%nat c1)|].
  unfold c2, c1. split_and!; vm_compute; reflexivity.
Qed.

(** ** Two calls of one process *)

Definition resubmission : list queue_call :=
  [call_enqueue "11" item1; call_recordVerdict "12" approval "acme"; call_recordVerdict "12" approval "acme"].

(** The same verdict submitted twice is said to be accepted; two calls of one process
    share the name of the temporary file, and the second rename finds it gone. *)
Theorem concurrent_resubmission_fails :
  (run_schedule [0; 0; 0; 0; 1; 1; 1; 2; 2; 2; 1; 1; 2; 2; 1; 2]%nat (start resubmission)).1 =
  [fp_ok (ans_unit tt); fp_ok (ans_record (canonicalJson item1));
   fp_throw (qe_no_such_file (queue_temp_path "12" case1_file))].
Proof. vm_compute. reflexivity. Qed.

(** While the second call has opened the temporary file, which empties it, the rename of
    the first puts the empty file in the place of the verdict. *)
Theorem shared_temporary_file_is_truncated :
  (run_schedule [0; 0; 0; 0; 1; 1; 1; 2; 2; 2; 1; 1; 2; 1]%nat (start resubmission)).2 !! case1_file = Some None.
Proof. vm_compute. reflexivity. Qed.

(** ** Timestamps are compared as text *)

Definition after_calls (cs : list queue_call) : disk := foldl (λ d c, (run (program c) d).2) ∅ cs.

(** 10:00 at +05:00 is 05:00 UTC, four hours before the time of the question. *)
Theorem missed_deadline_is_not_reported :
  let d := after_calls [call_enqueue "11" (demo_item "acme" "case2" "run1" "2026-01-01T01:00:00Z" "2026-01-01T10:00:00+05:00")] in
  (run (findSlaBreaches demo_root "acme" "2026-01-01T09:00:00Z") d).1 = Ok [].
Proof. vm_compute. reflexivity. Qed.

(** 10:00 at -05:00 is 15:00 UTC, three hours after the item was enqueued. *)
Theorem later_deadline_is_refused :
  assertHumanReviewQueueItemInvariants
    (demo_item "acme" "case2" "run1" "2026-01-01T12:00:00Z" "2026-01-01T10:00:00-05:00") =
  Throw (HumanReviewQueueError E_INVALID_SLA).
Proof. vm_compute. reflexivity. Qed.

(** ** The log of a run *)

(** The log of a run lists the late items of every run of the tenant. *)
Theorem log_lists_breaches_of_other_runs :
  let d := after_calls [call_enqueue "11" (demo_item "acme" "case2" "run2" "2026-01-01T01:00:00Z" "2026-01-01T02:00:00Z")] in
  match (run (buildHumanReviewLog demo_root "acme" "run1" "2026-01-02T00:00:00Z" "2026-01-02T00:00:00Z") d).1 with
  | Ok log => hl_items log = [] ∧ hs_itemId <$> hl_slaBreaches log = ["case2"]
  | Throw _ => False
  end.
Proof. vm_compute. split; reflexivity. Qed.

(** ** Witnesses *)

Definition recorded : disk := after_calls [call_enqueue "11" item1; call_recordVerdict "12" approval "acme"].

Lemma recorded_invariant : queue_invariant demo_root (after_calls [call_enqueue "11" item1]).
Proof.
  pose proof (run_respects demo_root demo_rooted (call_enqueue "11" item1) ∅ eq_refl) as [Hresp _].
  apply Hresp, empty_invariant.
Qed.

Definition start_owning (cs : list queue_call) : owned_pool := ((λ c, (call_temp demo_root c, program c)) <$> cs, ∅).

Lemma owning_reachable cs schedule :
  Forall call_ok cs → NoDup (omap fst (start_owning cs).1) →
  owned_reachable (owning_calls demo_root) ∅ (run_owned schedule (start_owning cs)).
Proof.
  intros Hc Hd. unfold owned_reachable. etrans; [apply (start_owned _ [] (start_owning cs).1)|apply run_owned_reachable].
  - apply Forall_fmap. eapply Forall_impl; [exact Hc|]. intros c Hok. by exists c.
  - exact Hd.
Qed.

(** The pool in which both reviewers wrote. *)
Lemma every_stored_verdict_is_signed_witness :
  let c := run_owned both_write (start_owning two_reviewers) in
  ∃ x, c.2 !! case1_file = Some x ∧
    ∃ v, x = Some (canonicalJson v) ∧ verifyVerdictSignature v = Ok tt ∧ string_at "itemId" v = "case1".
Proof.
  set (c := run_owned both_write (start_owning two_reviewers)). exists (Some (canonicalJson rejection)).
  split; [vm_compute; reflexivity|].
  destruct (every_stored_verdict_is_signed demo_root demo_rooted c.1 c.2 "acme" "case1" (Some (canonicalJson rejection)))
    as [(v & Hx & _ & Hs & Hid) _].
  - replace (c.1, c.2) with c by (symmetry; apply surjective_pairing).
    apply owning_reachable; [repeat constructor|]. refine (bool_decide_eq_true_1 _ _). vm_compute. reflexivity.
  - vm_compute. reflexivity.
  - vm_compute. reflexivity.
  - vm_compute. reflexivity.
  - exists v. split; [exact Hx|]. split; [exact Hs|exact Hid].
Defined.

Lemma queue_tenants_do_not_interfere_witness :
  (run (program (call_getItem "globex" "case1")) recorded).1 = (run (program (call_getItem "globex" "case1")) ∅).1.
Proof.
  refine (proj1 (proj1 (queue_tenants_do_not_interfere demo_root demo_rooted "globex") (call_getItem "globex" "case1")
                   recorded ∅ I eq_refl _)).
  intros path Hp. symmetry.
  assert (Hother : ∀ q, ¬ tenant_path demo_root "acme" q → recorded !! q = (∅ : disk) !! q).
  { intros q Hq. unfold recorded, after_calls. cbn [foldl].
    pose proof (calls_are_confined demo_root demo_rooted (call_recordVerdict "12" approval "acme") eq_refl) as H1.
    pose proof (calls_are_confined demo_root demo_rooted (call_enqueue "11" item1) eq_refl) as H2.
    etransitivity; [exact (run_untouched _ _ _ q H1 Hq)|exact (run_untouched _ _ _ q H2 Hq)]. }
  symmetry. apply Hother. apply (tenant_paths_disjoint demo_root "globex" "acme"); [discriminate|exact Hp].
Defined.

Lemma records_are_append_only_witness :
  (run (program (call_recordVerdict "13" rejection "acme")) recorded).2 !! case1_file = Some (Some (canonicalJson approval)) ∧
  (run (program (call_recordVerdict "13" rejection "acme")) recorded).1 =
    Throw (HumanReviewQueueError E_VERDICT_ALREADY_RECORDED).
Proof.
  split; [|vm_compute; reflexivity].
  refine (records_are_append_only demo_root demo_rooted (call_recordVerdict "13" rejection "acme") recorded
            "acme" "verdicts" "case1" (Some (canonicalJson approval)) eq_refl eq_refl _ eq_refl _).
  - right. left.
  - vm_compute. reflexivity.
Defined.

Lemma fetchPending_is_exact_witness :
  let f := {| hf_tenantId := "acme"; hf_profileId := None; hf_slaDueBy := Some "2026-02-01T00:00:00Z" |} in
  ∃ items, (run (fetchPending demo_root f) (after_calls [call_enqueue "11" item1])).1 = Ok items ∧
           canonicalJson item1 ∈ items.
Proof.
  intros f.
  destruct (fetchPending_is_exact demo_root demo_rooted (after_calls [call_enqueue "11" item1]) f recorded_invariant
              eq_refl eq_refl) as (items & Hrun & _ & Hex).
  exists items. split; [exact (f_equal fst Hrun)|]. apply Hex. split; [|vm_compute; reflexivity].
  split; [vm_compute; reflexivity|]. split; vm_compute; reflexivity.
Defined.

Lemma recorded_verdict_is_found_witness :
  ∃ item, (run (recordVerdict demo_root "12" approval "acme") (after_calls [call_enqueue "11" item1])).1 = Ok item ∧
    ¬ waiting demo_root (run (recordVerdict demo_root "12" approval "acme") (after_calls [call_enqueue "11" item1])).2 "acme" item.
Proof.
  exists (canonicalJson item1). split; [vm_compute; reflexivity|].
  destruct (recorded_verdict_is_found demo_root demo_rooted "12" approval "acme" (after_calls [call_enqueue "11" item1])
              (canonicalJson item1)
              (run (recordVerdict demo_root "12" approval "acme") (after_calls [call_enqueue "11" item1])).2
              recorded_invariant eq_refl) as (_ & Hw & _).
  - vm_compute. reflexivity.
  - apply Hw. vm_compute. reflexivity.
Defined.
