(* ===== verification/RepairLoop.v ===== *)
(** * Repair loop

    [packages/production-runner/src/repair-loop.ts]: regenerate, judge and repair until
    the judges accept or reject, nothing changes any more, or a bound is reached.

    The loop runs in a monad of its own, [traced]: the calls it makes and the artifacts
    it writes, in order, and a result or an error. The callbacks are functions of their
    inputs, which carry the iteration, and each is called at most once per iteration;
    whether a file can be written is an argument too. Verdicts and lists are kept as the
    whole object, which is hashed, together with the parts of it the loop reads. Step
    indices are integers. *)

From Stdlib Require Import Ascii.
From S2P Require Import Prelude JsString NodePath JsList JsValue CanonicalJson Contracts CrossFamily JudgeConsensus.

Definition REPAIR_LOOP_SCHEMA_VERSION : string := "1.0.0".
Definition REPAIR_LOOP_DEFAULT_MAX_ITERATIONS : jsnum := num 3.
Definition REPAIR_LOOP_MAX_ITERATIONS_HARD_CAP : Z := 5.
Definition REPAIR_PLANNER_ARTIFACT_PREFIX : string := "repair_planner_iter_".
Definition TEST_GENERATION_REPAIR_ARTIFACT_PREFIX : string := "test_generation_repair_iter_".
Definition REPAIR_LOOP_TRACE_ARTIFACT_FILENAME : string := "repair-loop-trace.json".
Definition REPAIR_LOOP_BUDGET_TRACE_ARTIFACT_FILENAME : string := "repair-loop-budget-trace.json".

Inductive RepairLoopOutcome : Type :=
| ro_accepted | ro_rejected | ro_needs_review | ro_convergence_stalled | ro_budget_exhausted.

(** ** Data *)

Record GeneratedTestCaseList := { gl_testCases : list json; gl_object : json }.

Record JudgeFinding := {
  jf_scope : string;
  jf_testCaseId : string;
  jf_code : string;
  jf_severity : string;
  jf_message : string;
}.

Record JudgeVerdict := {
  jv_verdict : Verdict;
  jv_findings : list JudgeFinding;
  jv_repairInstructions : list RepairInstruction;
  jv_object : json;
}.

Record HallucinationFinding := {
  hn_testCaseId : string;
  hn_stepIndex : option Z;
  hn_message : string;
}.

Record VisualMismatch := {
  vm_testCaseId : string;
  vm_stepIndex : option Z;
  vm_expectedLabel : string;
  vm_visibleLabel : string;
  vm_message : string;
}.

Record FaithfulnessVerdict := {
  fv_verdict : Verdict;
  fv_hallucinations : list HallucinationFinding;
  fv_mismatches : list VisualMismatch;
  fv_object : json;
}.

(** [None] for a faithfulness verdict is ["skipped"]. *)
Record RepairLoopIterationRecord := {
  ir_iteration : Z;
  ir_logicVerdict : Verdict;
  ir_faithfulnessVerdict : option Verdict;
  ir_inputTokens : jsnum;
  ir_outputTokens : jsnum;
  ir_generatedCaseCount : Z;
  ir_outputHash : string;
  ir_verdictSignature : string;
}.

Record RepairLoopResult := {
  rl_outcome : RepairLoopOutcome;
  rl_finalList : GeneratedTestCaseList;
  rl_finalLogicVerdict : JudgeVerdict;
  rl_finalFaithfulnessVerdict : option FaithfulnessVerdict;
  rl_iterations : list RepairLoopIterationRecord;
  rl_repairIterationCount : Z;
  rl_maxRepairIterations : Z;
}.

Record RepairLoopRegenerateInput := {
  rg_previousList : GeneratedTestCaseList;
  rg_repairInstructions : list RepairInstruction;
  rg_truncatedInstructionCount : Z;
  rg_iteration : Z;
}.

Inductive LlmResult : Type :=
| llm_success (modelDeployment : string)
| llm_error (errorClass : string).

Record RepairLoopHashes := { rh_inputHash : string; rh_promptHash : string; rh_schemaHash : string; rh_cacheKey : string }.

Record RepairLoopRegenerateResult := {
  rs_list : GeneratedTestCaseList;
  rs_llmResult : LlmResult;
  rs_llmDurationMs : jsnum;
  rs_inputTokens : jsnum;
  rs_outputTokens : jsnum;
  rs_hashes : RepairLoopHashes;
}.

Record RepairLoopJudgeRunnerInput := { jr_list : GeneratedTestCaseList; jr_iteration : Z }.

Record RepairLoopJudgeResult (V : Type) := { jd_verdict : V; jd_inputTokens : jsnum; jd_outputTokens : jsnum }.
Arguments jd_verdict {V}.
Arguments jd_inputTokens {V}.
Arguments jd_outputTokens {V}.

Record RepairLoopBudgetGuard := {
  bg_initialGeneratorOutputTokens : option jsnum;
  bg_maxGeneratorOutputTokens : option jsnum;
  bg_expectedNextOutputTokens : option jsnum;
  bg_initialGeneratorAttempts : option jsnum;
  bg_maxGeneratorAttempts : option jsnum;
}.

(** What a callback throws: an [Error] with its message, or another value. *)
Inductive thrown : Type :=
| thrown_error (message : string)
| thrown_value (text : string).

Record RunRepairLoopInput := {
  in_jobId : string;
  in_runDir : string;
  in_initialList : GeneratedTestCaseList;
  in_initialLogicVerdict : JudgeVerdict;
  in_initialFaithfulnessVerdict : option FaithfulnessVerdict;
  in_maxRepairIterations : option jsnum;
  in_regenerate : RepairLoopRegenerateInput → outcome thrown RepairLoopRegenerateResult;
  in_runLogicJudge : RepairLoopJudgeRunnerInput → outcome thrown (RepairLoopJudgeResult JudgeVerdict);
  in_runFaithfulnessJudge :
    option (RepairLoopJudgeRunnerInput → outcome thrown (RepairLoopJudgeResult FaithfulnessVerdict));
  in_softFailOnIterationError : bool;
  in_onIterationComplete : option (RepairLoopIterationRecord → outcome thrown unit);
  in_budget : option RepairLoopBudgetGuard;
}.

(** ** Effects *)

Inductive LoopEvent : Type :=
| le_wrote (path : string) (text : json)
| le_recorded (record : RepairLoopIterationRecord)
| le_regenerate (request : RepairLoopRegenerateInput)
| le_judge_logic (request : RepairLoopJudgeRunnerInput)
| le_judge_faithfulness (request : RepairLoopJudgeRunnerInput).

Inductive RepairLoopError : Type :=
| re_jobId
| re_runDir
| re_maxRepairIterations
| re_write (path : string)
| re_thrown (e : thrown)
| re_wrapped (message : string).

Definition traced (A : Type) : Type := list LoopEvent * outcome RepairLoopError A.

Definition t_return {A} (a : A) : traced A := ([], Ok a).
Definition t_throw {A} (e : RepairLoopError) : traced A := ([], Throw e).
Definition t_bind {A B} (m : traced A) (f : A → traced B) : traced B :=
  match m.2 with
  | Ok a => (m.1 ++ (f a).1, (f a).2)
  | Throw e => (m.1, Throw e)
  end.
(** A call that is seen from outside, and its answer. *)
Definition t_call {A} (e : LoopEvent) (answer : A) : traced A := ([e], Ok answer).

Declare Scope traced_scope.
Delimit Scope traced_scope with traced.
Notation "'do!' x ':=' m 'in' k" := (t_bind m (λ x, k))
  (at level 10, x pattern, k at level 200) : traced_scope.
Notation "m ';;>' k" := (t_bind m (λ _, k)) (at level 199, right associativity) : traced_scope.
#[local] Open Scope traced_scope.

(** ** Consolidated instructions *)

Definition QUOTE : string := String (Ascii.ascii_of_nat 34) EmptyString.

Definition hint (testCaseId path text : string) : RepairInstruction :=
  {| ri_testCaseId := testCaseId; ri_path := truncatePath path; ri_instruction := (truncateInstruction text).1;
     ri_instructionTruncated := (truncateInstruction text).2; ri_kind := None; ri_message := None |}.

Definition hallucination_hint (h : HallucinationFinding) : RepairInstruction :=
  hint (hn_testCaseId h)
    (match hn_stepIndex h with Some i => "steps[" +:+ pretty i +:+ "]" | None => "$case" end)
    ("Faithfulness hallucination: " +:+ hn_message h).

Definition mismatch_hint (m : VisualMismatch) : RepairInstruction :=
  hint (vm_testCaseId m)
    (match vm_stepIndex m with Some i => "steps[" +:+ pretty i +:+ "].expected" | None => "expectedResults" end)
    ("Faithfulness mismatch (expected=" +:+ QUOTE +:+ vm_expectedLabel m +:+ QUOTE +:+ ", visible=" +:+ QUOTE
       +:+ vm_visibleLabel m +:+ QUOTE +:+ "): " +:+ vm_message m).

Definition collected_instructions (logic : JudgeVerdict) (faithfulness : option FaithfulnessVerdict) :
    list RepairInstruction :=
  (normalizeInstruction <$> jv_repairInstructions logic) ++
  match faithfulness with
  | Some f => (hallucination_hint <$> fv_hallucinations f) ++ (mismatch_hint <$> fv_mismatches f)
  | None => []
  end.

Definition consolidateRepairInstructions `{LocaleCompare} (logic : JudgeVerdict)
    (faithfulness : option FaithfulnessVerdict) : list RepairInstruction * Z :=
  let repairInstructions :=
    js_sort compareInstruction (dedupe_by instruction_key (collected_instructions logic faithfulness)) in
  (repairInstructions, countTruncatedInstructions repairInstructions).

(** ** The signature of a verdict *)

Definition signature_object (logic : JudgeVerdict) : json :=
  let texts l := JArray (JString <$> js_sort String.compare l) in
  JObject [("verdict", JString (Verdict_label (jv_verdict logic)));
           ("findingCodes", texts (jf_code <$> jv_findings logic));
           ("repairInstructionKinds", texts ((default "" ∘ ri_kind) <$> jv_repairInstructions logic))].

Definition computeVerdictSignature `{JsonDigest} (logic : JudgeVerdict) : string :=
  sha256Hex_json (signature_object logic).

(** ** The decision of the panel *)

Definition judgePanelAccepted (logic : JudgeVerdict) (faithfulness : option FaithfulnessVerdict) : bool :=
  bool_decide (jv_verdict logic = v_accept) &&
  from_option (λ f, bool_decide (fv_verdict f = v_accept)) true faithfulness.

Definition judgePanelRejected (logic : JudgeVerdict) (faithfulness : option FaithfulnessVerdict) : bool :=
  bool_decide (jv_verdict logic = v_reject) ||
  from_option (λ f, bool_decide (fv_verdict f = v_reject)) false faithfulness.

Definition resolveMaxRepairIterations (requested : option jsnum) : outcome RepairLoopError Z :=
  let value := default REPAIR_LOOP_DEFAULT_MAX_ITERATIONS requested in
  if negb (Number.isInteger value) || Number.ltb value (num 0) then Throw re_maxRepairIterations
  else Ok match value with
          | Fin q => Z.min (Qfloor q) REPAIR_LOOP_MAX_ITERATIONS_HARD_CAP
          | _ => REPAIR_LOOP_MAX_ITERATIONS_HARD_CAP
          end.

(** ** The budget guard *)

Definition sanitizeGuardCount (value : option jsnum) : Z :=
  match value with
  | Some (Fin q) => if Qle_bool 0 q then Qfloor q else 0
  | _ => 0
  end.

(** The value as a finite number above zero. *)
Definition positive_finite (value : option jsnum) : option Q :=
  match value with Some (Fin q) => if Qle_bool q 0 then None else Some q | _ => None end.

Definition expected_next (guard : option RepairLoopBudgetGuard) : Z :=
  match positive_finite (guard ≫= bg_expectedNextOutputTokens) with
  | Some q => Qfloor q
  | None =>
      match positive_finite (guard ≫= bg_maxGeneratorOutputTokens) with
      | Some q => Z.max 1 (Qfloor (q / 2))
      | None => 4096
      end
  end.

Inductive BudgetTrigger : Type := max_generator_output_tokens | max_generator_attempts.

Definition BudgetTrigger_label (t : BudgetTrigger) : string :=
  match t with
  | max_generator_output_tokens => "max_generator_output_tokens"
  | max_generator_attempts => "max_generator_attempts"
  end.

(** [projected > limit] for a limit that is set. *)
Definition over (projected : Z) (limit : option jsnum) : bool :=
  from_option (λ l, Number.ltb l (num projected)) false limit.

(** ** Artifacts *)

Definition role_runs (runDir name : string) : string := posix_join [runDir; "agent-role-runs"; name].
Definition planner_path (runDir : string) (k : Z) : string :=
  role_runs runDir (REPAIR_PLANNER_ARTIFACT_PREFIX +:+ pretty k +:+ ".json").
Definition generator_path (runDir : string) (k : Z) : string :=
  role_runs runDir (TEST_GENERATION_REPAIR_ARTIFACT_PREFIX +:+ pretty k +:+ ".json").

Definition instruction_json (i : RepairInstruction) : json :=
  JObject (Json.literal
    [("testCaseId", Some (JString (ri_testCaseId i)));
     ("path", Some (JString (ri_path i)));
     ("instruction", Some (JString (ri_instruction i)));
     ("instructionTruncated", if ri_instructionTruncated i then Some (JBool true) else None);
     ("kind", JString <$> ri_kind i);
     ("message", JString <$> ri_message i)]).

Definition instructions_json (l : list RepairInstruction) : json := JArray (instruction_json <$> l).

(** ** The loop *)

(** The variables of [runRepairLoop]. *)
Record loop_state := {
  ls_list : GeneratedTestCaseList;
  ls_logic : JudgeVerdict;
  ls_faith : option FaithfulnessVerdict;
  ls_iterations : list RepairLoopIterationRecord;
  ls_outputTokens : Z;
  ls_attempts : Z;
}.

Section loop.
Context `{LocaleCompare} `{JsonDigest} (can_write : string → bool) (input : RunRepairLoopInput).

Definition writeAtomicJson (path : string) (payload : json) : traced unit :=
  if can_write path then t_call (le_wrote path (canonicalJson payload)) tt else t_throw (re_write path).

Definition planner_json (k : Z) (st : loop_state) (plan : list RepairInstruction * Z) : json :=
  JObject
    [("schemaVersion", JString REPAIR_LOOP_SCHEMA_VERSION);
     ("jobId", JString (in_jobId input));
     ("iteration", Json.jint k);
     ("source", JString "deterministic_consolidator");
     ("inputs", JObject (Json.literal
        [("logicVerdictHash", Some (JString (sha256Hex_json (jv_object (ls_logic st)))));
         ("faithfulnessVerdictHash", (λ f, JString (sha256Hex_json (fv_object f))) <$> ls_faith st);
         ("previousListHash", Some (JString (sha256Hex_json (gl_object (ls_list st)))))]));
     ("outputs", JObject
        [("repairInstructions", instructions_json plan.1);
         ("repairInstructionCount", Json.jint (Z.of_nat (length plan.1)));
         ("truncatedInstructionCount", Json.jint plan.2)])].

Definition generator_json (k : Z) (previousListHash : string) (plan : list RepairInstruction * Z)
    (regen : RepairLoopRegenerateResult) : json :=
  JObject
    [("schemaVersion", JString REPAIR_LOOP_SCHEMA_VERSION);
     ("jobId", JString (in_jobId input));
     ("iteration", Json.jint k);
     ("inputs", JObject
        [("previousListHash", JString previousListHash);
         ("repairInstructionsHash", JString (sha256Hex_json (instructions_json plan.1)));
         ("repairInstructionCount", Json.jint (Z.of_nat (length plan.1)));
         ("truncatedInstructionCount", Json.jint plan.2)]);
     ("outputs", JObject
        [("listHash", JString (sha256Hex_json (gl_object (rs_list regen))));
         ("testCaseCount", Json.jint (Z.of_nat (length (gl_testCases (rs_list regen)))))]);
     ("llmGateway", JObject (Json.literal
        [("outcome", Some (JString (match rs_llmResult regen with llm_success _ => "success" | llm_error _ => "error" end)));
         ("errorClass", match rs_llmResult regen with llm_success _ => None | llm_error c => Some (JString c) end);
         ("inputTokens", Some (json_of_number (rs_inputTokens regen)));
         ("outputTokens", Some (json_of_number (rs_outputTokens regen)));
         ("durationMs", Some (json_of_number (rs_llmDurationMs regen)));
         ("modelDeployment",
           Some (JString (match rs_llmResult regen with llm_success m => m | llm_error _ => "unknown" end)))]));
     ("hashes", JObject
        [("inputHash", JString (rh_inputHash (rs_hashes regen)));
         ("promptHash", JString (rh_promptHash (rs_hashes regen)));
         ("schemaHash", JString (rh_schemaHash (rs_hashes regen)));
         ("cacheKey", JString (rh_cacheKey (rs_hashes regen)))])].

Definition budget_trace_json (st : loop_state) (k : Z) (trigger : BudgetTrigger) (guard : RepairLoopBudgetGuard) :
    json :=
  JObject (Json.literal
    [("schemaVersion", Some (JString REPAIR_LOOP_SCHEMA_VERSION));
     ("jobId", Some (JString (in_jobId input)));
     ("outcome", Some (JString "budget_exhausted"));
     ("stoppedBeforeIteration", Some (Json.jint k));
     ("trigger", Some (JString (BudgetTrigger_label trigger)));
     ("cumulativeGeneratorOutputTokens", Some (Json.jint (ls_outputTokens st)));
     ("cumulativeGeneratorAttempts", Some (Json.jint (ls_attempts st)));
     ("maxGeneratorOutputTokens", json_of_number <$> bg_maxGeneratorOutputTokens guard);
     ("maxGeneratorAttempts", json_of_number <$> bg_maxGeneratorAttempts guard);
     ("expectedNextOutputTokens", Some (Json.jint (expected_next (Some guard))))]).

Definition writeBudgetTrace (st : loop_state) (k : Z) (trigger : BudgetTrigger) : traced unit :=
  match in_budget input with
  | None => t_return tt
  | Some guard =>
      writeAtomicJson (posix_join [in_runDir input; REPAIR_LOOP_BUDGET_TRACE_ARTIFACT_FILENAME])
        (budget_trace_json st k trigger guard)
  end.

Definition projectedBudgetTrigger (st : loop_state) : option BudgetTrigger :=
  match in_budget input with
  | None => None
  | Some guard =>
      if over (ls_attempts st + 1) (bg_maxGeneratorAttempts guard) then Some max_generator_attempts
      else if over (ls_outputTokens st + expected_next (Some guard)) (bg_maxGeneratorOutputTokens guard)
      then Some max_generator_output_tokens
      else None
  end.

Definition verdict_name (v : option Verdict) : string := from_option Verdict_label "skipped" v.

Definition trace_json (k : Z) (signature : string) (iterations : list RepairLoopIterationRecord) : json :=
  JObject
    [("schemaVersion", JString REPAIR_LOOP_SCHEMA_VERSION);
     ("jobId", JString (in_jobId input));
     ("outcome", JString "convergence_stalled");
     ("stallDetectedAtIteration", Json.jint k);
     ("stallSignature", JString signature);
     ("iterations", JArray ((λ r, JObject
        [("iteration", Json.jint (ir_iteration r));
         ("logicVerdict", JString (Verdict_label (ir_logicVerdict r)));
         ("faithfulnessVerdict", JString (verdict_name (ir_faithfulnessVerdict r)));
         ("verdictSignature", JString (ir_verdictSignature r))]) <$> iterations))].

(** The result the loop returns from a state. *)
Definition loop_result (max : Z) (result : RepairLoopOutcome) (st : loop_state) (count : Z) : RepairLoopResult :=
  {| rl_outcome := result; rl_finalList := ls_list st; rl_finalLogicVerdict := ls_logic st;
     rl_finalFaithfulnessVerdict := ls_faith st; rl_iterations := ls_iterations st;
     rl_repairIterationCount := count; rl_maxRepairIterations := max |}.

Definition softFailIfEnabled (max k : Z) (error : thrown) (context : string) (st : loop_state) :
    traced RepairLoopResult :=
  if in_softFailOnIterationError input then t_return (loop_result max ro_needs_review st (Z.max (k - 1) 0))
  else t_throw (match error with
                | thrown_error _ => re_thrown error
                | thrown_value text => re_wrapped (context +:+ ": " +:+ text)
                end).

(** [iterations.push(record)] and the notification. *)
Definition record_iteration (record : RepairLoopIterationRecord) (st : loop_state) : traced loop_state :=
  let st' := {| ls_list := ls_list st; ls_logic := ls_logic st; ls_faith := ls_faith st;
                ls_iterations := ls_iterations st ++ [record];
                ls_outputTokens := ls_outputTokens st; ls_attempts := ls_attempts st |} in
  do! _ := t_call (le_recorded record) tt in
  match in_onIterationComplete input with
  | Some notify => match notify record with Ok _ => t_return st' | Throw e => t_throw (re_thrown e) end
  | None => t_return st'
  end.

(** An iteration ends the loop with a result, or leaves a state for the next one. *)
Definition loop_step : Type := RepairLoopResult + loop_state.

Definition returning (m : traced RepairLoopResult) : traced loop_step := do! r := m in t_return (inl r).

(** The end of an iteration, once the panel has judged; [signature] is the one of the
    iteration. *)
Definition decide_iteration (max k : Z) (signature : string) (st : loop_state) : traced loop_step :=
  if judgePanelAccepted (ls_logic st) (ls_faith st) then t_return (inl (loop_result max ro_accepted st k))
  else if judgePanelRejected (ls_logic st) (ls_faith st) then t_return (inl (loop_result max ro_rejected st k))
  else match ls_iterations st !! (length (ls_iterations st) - 2)%nat with
       | Some previous =>
           if bool_decide (ir_verdictSignature previous = signature) then
             writeAtomicJson (posix_join [in_runDir input; REPAIR_LOOP_TRACE_ARTIFACT_FILENAME])
               (trace_json k signature (ls_iterations st)) ;;>
             t_return (inl (loop_result max ro_convergence_stalled st k))
           else t_return (inr st)
       | None => t_return (inr st)
       end.

(** The faithfulness judge runs when there is one and the logic judge accepts. *)
Definition run_faithfulness (k : Z) (st : loop_state) :
    traced (outcome thrown (option (RepairLoopJudgeResult FaithfulnessVerdict))) :=
  match in_runFaithfulnessJudge input with
  | Some judge =>
      if bool_decide (jv_verdict (ls_logic st) = v_accept) then
        let request := {| jr_list := ls_list st; jr_iteration := k |} in
        t_call (le_judge_faithfulness request) (outcome_map Some (judge request))
      else t_return (Ok None)
  | None => t_return (Ok None)
  end.

Definition iteration_record (k : Z) (st : loop_state) (regen : RepairLoopRegenerateResult)
    (logic : RepairLoopJudgeResult JudgeVerdict) (faith : option (RepairLoopJudgeResult FaithfulnessVerdict)) :
    RepairLoopIterationRecord :=
  {| ir_iteration := k; ir_logicVerdict := jv_verdict (ls_logic st);
     ir_faithfulnessVerdict := fv_verdict <$> ls_faith st;
     ir_inputTokens := js_plus (js_plus (rs_inputTokens regen) (jd_inputTokens logic)) (from_option jd_inputTokens (num 0) faith);
     ir_outputTokens := js_plus (js_plus (rs_outputTokens regen) (jd_outputTokens logic)) (from_option jd_outputTokens (num 0) faith);
     ir_generatedCaseCount := Z.of_nat (length (gl_testCases (ls_list st)));
     ir_outputHash := sha256Hex_json (gl_object (rs_list regen));
     ir_verdictSignature := computeVerdictSignature (ls_logic st) |}.

(** The part of an iteration after the list was regenerated: the judges, the record,
    the decision. *)
Definition judge_iteration (max k : Z) (regen : RepairLoopRegenerateResult) (st : loop_state) : traced loop_step :=
  let request := {| jr_list := ls_list st; jr_iteration := k |} in
  do! answer := t_call (le_judge_logic request) (in_runLogicJudge input request) in
  match answer with
  | Throw e => returning (softFailIfEnabled max k e ("logic judge iteration " +:+ pretty k) st)
  | Ok logic =>
      let st := {| ls_list := ls_list st; ls_logic := jd_verdict logic; ls_faith := ls_faith st;
                   ls_iterations := ls_iterations st; ls_outputTokens := ls_outputTokens st;
                   ls_attempts := ls_attempts st |} in
      do! faith := run_faithfulness k st in
      match faith with
      | Throw e => returning (softFailIfEnabled max k e ("faithfulness judge iteration " +:+ pretty k) st)
      | Ok faith =>
          let st := {| ls_list := ls_list st; ls_logic := ls_logic st; ls_faith := jd_verdict <$> faith;
                       ls_iterations := ls_iterations st; ls_outputTokens := ls_outputTokens st;
                       ls_attempts := ls_attempts st |} in
          let record := iteration_record k st regen logic faith in
          do! st := record_iteration record st in
          decide_iteration max k (ir_verdictSignature record) st
      end
  end.

(** The body of the [for] loop. *)
Definition repair_iteration (max k : Z) (st : loop_state) : traced loop_step :=
  match projectedBudgetTrigger st with
  | Some trigger =>
      writeBudgetTrace st k trigger ;;>
      t_return (inl (loop_result max ro_budget_exhausted st (Z.of_nat (length (ls_iterations st)) - 1)))
  | None =>
      let plan := consolidateRepairInstructions (ls_logic st) (ls_faith st) in
      let previousListHash := sha256Hex_json (gl_object (ls_list st)) in
      writeAtomicJson (planner_path (in_runDir input) k) (planner_json k st plan) ;;>
      let request := {| rg_previousList := ls_list st; rg_repairInstructions := plan.1;
                        rg_truncatedInstructionCount := plan.2; rg_iteration := k |} in
      do! answer := t_call (le_regenerate request) (in_regenerate input request) in
      match answer with
      | Throw e => returning (softFailIfEnabled max k e ("regenerate iteration " +:+ pretty k) st)
      | Ok regen =>
          writeAtomicJson (generator_path (in_runDir input) k) (generator_json k previousListHash plan regen) ;;>
          judge_iteration max k regen
            {| ls_list := rs_list regen; ls_logic := ls_logic st; ls_faith := ls_faith st;
               ls_iterations := ls_iterations st;
               ls_outputTokens := ls_outputTokens st + sanitizeGuardCount (Some (rs_outputTokens regen));
               ls_attempts := ls_attempts st + 1 |}
      end
  end.

(** [for (let k = ...; k <= max; k++)], with the number of rounds left. *)
Fixpoint repair_rounds (remaining : nat) (max k : Z) (st : loop_state) : traced RepairLoopResult :=
  match remaining with
  | O => t_return (loop_result max ro_needs_review st max)
  | S remaining' =>
      do! step := repair_iteration max k st in
      match step with
      | inl result => t_return result
      | inr st' => repair_rounds remaining' max (k + 1) st'
      end
  end.

Definition initial_record : RepairLoopIterationRecord :=
  {| ir_iteration := 0; ir_logicVerdict := jv_verdict (in_initialLogicVerdict input);
     ir_faithfulnessVerdict := fv_verdict <$> in_initialFaithfulnessVerdict input;
     ir_inputTokens := num 0; ir_outputTokens := num 0;
     ir_generatedCaseCount := Z.of_nat (length (gl_testCases (in_initialList input)));
     ir_outputHash := sha256Hex_json (gl_object (in_initialList input));
     ir_verdictSignature := computeVerdictSignature (in_initialLogicVerdict input) |}.

Definition initial_loop_state : loop_state :=
  {| ls_list := in_initialList input; ls_logic := in_initialLogicVerdict input;
     ls_faith := in_initialFaithfulnessVerdict input; ls_iterations := [];
     ls_outputTokens := sanitizeGuardCount (in_budget input ≫= bg_initialGeneratorOutputTokens);
     ls_attempts := sanitizeGuardCount (in_budget input ≫= bg_initialGeneratorAttempts) |}.

Definition runRepairLoop : traced RepairLoopResult :=
  if is_blank (in_jobId input) then t_throw re_jobId
  else if is_blank (in_runDir input) then t_throw re_runDir
  else match resolveMaxRepairIterations (in_maxRepairIterations input) with
       | Throw e => t_throw e
       | Ok max =>
           do! st := record_iteration initial_record initial_loop_state in
           if judgePanelAccepted (ls_logic st) (ls_faith st) then t_return (loop_result max ro_accepted st 0)
           else repair_rounds (Z.to_nat max) max 1 st
       end.
End loop.
