(* ===== verification/RepairLoopProps.v ===== *)
(** * Repair loop: what a run does

    A small program logic over traces: [ensures P tr m R] says that [m], started after
    the events [tr], emits only events that [P] allows after what came before them, and
    ends with values that [R] accepts. One walk through an iteration carries the whole
    invariant of the loop; the theorems on [RepairLoop.runRepairLoop] are read off its
    conclusion. The specification of the two functions the loop relies on and the runs
    behind the findings follow. *)

From S2P Require Import Prelude JsString NodePath JsList JsValue CanonicalJson JsonView Contracts CrossFamily JudgeConsensus.
From S2P Require Import RepairLoop.

(** ** Reasoning about traces *)

Fixpoint trace_ok (P : list LoopEvent → LoopEvent → Prop) (tr es : list LoopEvent) : Prop :=
  match es with [] => True | e :: es' => P tr e ∧ trace_ok P (tr ++ [e]) es' end.

Definition ensures {A} (P : list LoopEvent → LoopEvent → Prop) (tr : list LoopEvent) (m : traced A)
    (R : list LoopEvent → A → Prop) : Prop :=
  trace_ok P tr m.1 ∧ ∀ a, m.2 = Ok a → R (tr ++ m.1) a.

Lemma trace_ok_app P tr es es' : trace_ok P tr (es ++ es') ↔ trace_ok P tr es ∧ trace_ok P (tr ++ es) es'.
Proof.
  revert tr; induction es as [|e es IH]; intros tr; cbn; [by rewrite app_nil_r; tauto|].
  rewrite IH, <- app_assoc. cbn. tauto.
Qed.

Lemma trace_ok_split P tr before e after : trace_ok P tr (before ++ e :: after) → P (tr ++ before) e.
Proof. intros [_ [H _]]%trace_ok_app. done. Qed.

Section rules.
Context (P : list LoopEvent → LoopEvent → Prop).

Lemma ensures_return {A} tr (a : A) (R : list LoopEvent → A → Prop) : R tr a → ensures P tr (t_return a) R.
Proof. intros HR. split; [done|]. intros ? [= <-]. cbn. by rewrite app_nil_r. Qed.

Lemma ensures_throw {A} tr e (R : list LoopEvent → A → Prop) : ensures P tr (t_throw e) R.
Proof. by split. Qed.

Lemma ensures_call {A} tr e (a : A) (R : list LoopEvent → A → Prop) :
  P tr e → R (tr ++ [e]) a → ensures P tr (t_call e a) R.
Proof. intros HP HR. split; [by split|]. by intros ? [= <-]. Qed.

Lemma ensures_bind {A B} tr (m : traced A) (f : A → traced B) (Q : list LoopEvent → A → Prop) R :
  ensures P tr m Q → (∀ tr' a, Q tr' a → ensures P tr' (f a) R) → ensures P tr (t_bind m f) R.
Proof.
  intros [Hok HQ] Hf. unfold t_bind. destruct m as [es [a|e]]; cbn in *; [|by split].
  destruct (Hf _ _ (HQ _ eq_refl)) as [Hok' HR]. split; cbn.
  - by apply trace_ok_app.
  - intros b Hb. rewrite app_assoc. by apply HR.
Qed.

Lemma ensures_weaken {A} tr (m : traced A) (Q R : list LoopEvent → A → Prop) :
  ensures P tr m Q → (∀ tr' a, Q tr' a → R tr' a) → ensures P tr m R.
Proof. intros [Hok HQ] HR. split; [done|]. intros a Ha. by apply HR, HQ. Qed.
End rules.

(** ** What is observed of a run *)

Definition regenerations : list LoopEvent → list RepairLoopRegenerateInput :=
  omap (λ e, match e with le_regenerate request => Some request | _ => None end).

Lemma regenerations_snoc tr e :
  regenerations (tr ++ [e]) = regenerations tr ++ match e with le_regenerate request => [request] | _ => [] end.
Proof. unfold regenerations. rewrite omap_app. by destruct e. Qed.

Definition record_accepts (r : RepairLoopIterationRecord) : bool :=
  bool_decide (ir_logicVerdict r = v_accept) &&
  from_option (λ v, bool_decide (v = v_accept)) true (ir_faithfulnessVerdict r).

Definition record_rejects (r : RepairLoopIterationRecord) : bool :=
  bool_decide (ir_logicVerdict r = v_reject) ||
  from_option (λ v, bool_decide (v = v_reject)) false (ir_faithfulnessVerdict r).

(** Rounds after which the loop goes on: the first did not accept, the later ones
    neither accepted nor rejected, and every signature differs from the one before. *)
Definition open_rounds (rounds : list RepairLoopIterationRecord) : Prop :=
  (∀ i r, rounds !! i = Some r → record_accepts r = false ∧ (i ≠ 0%nat → record_rejects r = false)) ∧
  (∀ i a b, rounds !! i = Some a → rounds !! S i = Some b → ir_verdictSignature a ≠ ir_verdictSignature b).

Definition numbered (rounds : list RepairLoopIterationRecord) : Prop :=
  ∀ i r, rounds !! i = Some r → ir_iteration r = Z.of_nat i.

Lemma numbered_snoc rounds r : numbered rounds → ir_iteration r = Z.of_nat (length rounds) → numbered (rounds ++ [r]).
Proof. intros Hn Hr i x [[_ Hx]|[-> <-]]%lookup_snoc_Some; [by apply Hn|done]. Qed.

Lemma open_rounds_snoc rounds r :
  open_rounds rounds → record_accepts r = false → (rounds ≠ [] → record_rejects r = false) →
  (∀ p, last rounds = Some p → ir_verdictSignature p ≠ ir_verdictSignature r) → open_rounds (rounds ++ [r]).
Proof.
  intros [Ho Hs] Ha Hr Hl. split.
  - intros i x [[_ Hx]|[-> <-]]%lookup_snoc_Some; [by apply Ho|]. split; [done|]. intros Hne. apply Hr.
    by intros ->.
  - intros i a b Ha' [[Hi Hb]|[Hi <-]]%lookup_snoc_Some.
    + apply lookup_snoc_Some in Ha' as [[_ Ha']|[-> _]]; [by eapply Hs|lia].
    + apply lookup_snoc_Some in Ha' as [[_ Ha']|[-> _]]; [|lia]. apply Hl. rewrite last_lookup.
      by rewrite <- Hi.
Qed.

Section run.
Context `{LocaleCompare} `{JsonDigest} (can_write : string → bool) (input : RunRepairLoopInput) (max : Z).

Definition initial_tokens : Z := sanitizeGuardCount (in_budget input ≫= bg_initialGeneratorOutputTokens).
Definition initial_attempts : Z := sanitizeGuardCount (in_budget input ≫= bg_initialGeneratorAttempts).

(** The output tokens the loop books for a call of the generator. *)
Definition output_of (request : RepairLoopRegenerateInput) : Z :=
  match in_regenerate input request with
  | Ok g => sanitizeGuardCount (Some (rs_outputTokens g))
  | Throw _ => 0
  end.

Definition generated (tr : list LoopEvent) : Z := foldr Z.add 0 (output_of <$> regenerations tr).

Lemma generated_snoc tr e :
  generated (tr ++ [e]) = generated tr + match e with le_regenerate request => output_of request | _ => 0 end.
Proof.
  unfold generated. rewrite regenerations_snoc, fmap_app, foldr_app.
  assert (Hadd : ∀ l z, foldr Z.add z l = foldr Z.add 0 l + z).
  { induction l as [|x l IH]; intros z; cbn; [lia|]. rewrite IH. lia. }
  rewrite Hadd. destruct e; cbn; lia.
Qed.

(** One more generation stays within both limits of the guard. *)
Definition within_guard (tokens attempts : Z) : Prop :=
  match in_budget input with
  | None => True
  | Some g => over (attempts + 1) (bg_maxGeneratorAttempts g) = false ∧
              over (tokens + expected_next (Some g)) (bg_maxGeneratorOutputTokens g) = false
  end.

(** The latest generation made this list, in this iteration. *)
Definition latest_list (tr : list LoopEvent) (request : RepairLoopJudgeRunnerInput) : Prop :=
  ∃ req g, last (regenerations tr) = Some req ∧ rg_iteration req = jr_iteration request ∧
    in_regenerate input req = Ok g ∧ rs_list g = jr_list request.

(** What the loop may do after the events [tr]. *)
Definition allowed (tr : list LoopEvent) (e : LoopEvent) : Prop :=
  match e with
  | le_regenerate req =>
      rg_iteration req = Z.of_nat (length (regenerations tr)) + 1 ∧ rg_iteration req <= max ∧
      within_guard (initial_tokens + generated tr) (initial_attempts + Z.of_nat (length (regenerations tr))) ∧
      ∃ st, let plan := (rg_repairInstructions req, rg_truncatedInstructionCount req) in
        plan = consolidateRepairInstructions (ls_logic st) (ls_faith st) ∧ rg_previousList req = ls_list st ∧
        last tr = Some (le_wrote (planner_path (in_runDir input) (rg_iteration req))
                          (canonicalJson (planner_json input (rg_iteration req) st plan)))
  | le_judge_logic request => latest_list tr request
  | le_judge_faithfulness request =>
      latest_list tr request ∧
      ∃ logic, in_runLogicJudge input request = Ok logic ∧ jv_verdict (jd_verdict logic) = v_accept
  | _ => True
  end.

(** The faithfulness verdict of a round: there is one when there is a judge and the
    logic judge accepted. *)
Definition faithfulness_of (request : RepairLoopJudgeRunnerInput) (logic : JudgeVerdict)
    (faith : option FaithfulnessVerdict) : Prop :=
  match in_runFaithfulnessJudge input with
  | Some judge =>
      if bool_decide (jv_verdict logic = v_accept)
      then ∃ f, judge request = Ok f ∧ faith = Some (jd_verdict f)
      else faith = None
  | None => faith = None
  end.

(** The verdicts are those of the judges on the list of round [k]. *)
Definition judged (k : Z) (l : GeneratedTestCaseList) (logic : JudgeVerdict) (faith : option FaithfulnessVerdict) :
    Prop :=
  if bool_decide (k = 0)
  then l = in_initialList input ∧ logic = in_initialLogicVerdict input ∧ faith = in_initialFaithfulnessVerdict input
  else let request := {| jr_list := l; jr_iteration := k |} in
    (∃ req g, rg_iteration req = k ∧ in_regenerate input req = Ok g ∧ rs_list g = l) ∧
    (∃ answer, in_runLogicJudge input request = Ok answer ∧ jd_verdict answer = logic) ∧
    faithfulness_of request logic faith.

(** The record of a round says what was judged. *)
Definition record_of (r : RepairLoopIterationRecord) (l : GeneratedTestCaseList) (logic : JudgeVerdict)
    (faith : option FaithfulnessVerdict) : Prop :=
  ir_logicVerdict r = jv_verdict logic ∧ ir_faithfulnessVerdict r = fv_verdict <$> faith ∧
  ir_outputHash r = sha256Hex_json (gl_object l) ∧ ir_verdictSignature r = computeVerdictSignature logic.

Definition counted (tr : list LoopEvent) (tokens attempts rounds : Z) : Prop :=
  tokens = initial_tokens + generated tr ∧ attempts = initial_attempts + Z.of_nat (length (regenerations tr)) ∧
  Z.of_nat (length (regenerations tr)) = rounds.

(** Before iteration [k]. *)
Record loop_invariant (k : Z) (tr : list LoopEvent) (st : loop_state) : Prop := {
  li_counted : counted tr (ls_outputTokens st) (ls_attempts st) (k - 1);
  li_length : Z.of_nat (length (ls_iterations st)) = k;
  li_numbered : numbered (ls_iterations st);
  li_open : open_rounds (ls_iterations st);
  li_judged : judged (k - 1) (ls_list st) (ls_logic st) (ls_faith st);
  li_record : ∃ r, last (ls_iterations st) = Some r ∧ record_of r (ls_list st) (ls_logic st) (ls_faith st);
}.

(** Why the loop returned. *)
Definition explained (tr : list LoopEvent) (res : RepairLoopResult) : Prop :=
  ∃ before r, rl_iterations res = before ++ [r] ∧
  match rl_outcome res with
  | ro_accepted => open_rounds before ∧ record_accepts r = true
  | ro_rejected => open_rounds before ∧ before ≠ [] ∧ record_accepts r = false ∧ record_rejects r = true
  | ro_convergence_stalled =>
      open_rounds before ∧ record_accepts r = false ∧ record_rejects r = false ∧
      ∃ p, last before = Some p ∧ ir_verdictSignature p = ir_verdictSignature r
  | ro_budget_exhausted =>
      open_rounds (before ++ [r]) ∧ rl_repairIterationCount res < max ∧
      ¬ within_guard (initial_tokens + generated tr) (initial_attempts + Z.of_nat (length (regenerations tr)))
  | ro_needs_review =>
      open_rounds (before ++ [r]) ∧
      (rl_repairIterationCount res = max ∨ in_softFailOnIterationError input = true)
  end.

(** The final list was judged in the last round; only a soft failure can return a list
    the judges have not seen. *)
Definition final_judged (res : RepairLoopResult) : Prop :=
  judged (rl_repairIterationCount res) (rl_finalList res) (rl_finalLogicVerdict res) (rl_finalFaithfulnessVerdict res) ∧
  (∃ r, last (rl_iterations res) = Some r ∧
     record_of r (rl_finalList res) (rl_finalLogicVerdict res) (rl_finalFaithfulnessVerdict res)) ∨
  rl_outcome res = ro_needs_review ∧ in_softFailOnIterationError input = true.

Record loop_post (tr : list LoopEvent) (res : RepairLoopResult) : Prop := {
  lp_max : rl_maxRepairIterations res = max;
  lp_count : 0 <= rl_repairIterationCount res <= max;
  lp_length : Z.of_nat (length (rl_iterations res)) = rl_repairIterationCount res + 1;
  lp_numbered : numbered (rl_iterations res);
  lp_generations : Z.of_nat (length (regenerations tr)) = rl_repairIterationCount res ∨
    rl_outcome res = ro_needs_review ∧ in_softFailOnIterationError input = true ∧
    Z.of_nat (length (regenerations tr)) = rl_repairIterationCount res + 1;
  lp_explained : explained tr res;
  lp_judged : final_judged res;
}.

(** ** The walk through an iteration *)

#[local] Abbreviation ens := (ensures allowed).
#[local] Abbreviation step_post k := (λ tr (x : loop_step),
  match x with inl res => loop_post tr res | inr st' => loop_invariant (k + 1) tr st' end).

Lemma ensures_write tr path v (R : list LoopEvent → unit → Prop) :
  R (tr ++ [le_wrote path (canonicalJson v)]) tt → ens tr (writeAtomicJson can_write path v) R.
Proof. intros HR. unfold writeAtomicJson. case_match; [by apply ensures_call|apply ensures_throw]. Qed.

Lemma panel_accepts r l logic faith : record_of r l logic faith → record_accepts r = judgePanelAccepted logic faith.
Proof.
  intros (E1 & E2 & _). unfold record_accepts, judgePanelAccepted. rewrite E1, E2. by destruct faith.
Qed.

Lemma panel_rejects r l logic faith : record_of r l logic faith → record_rejects r = judgePanelRejected logic faith.
Proof.
  intros (E1 & E2 & _). unfold record_rejects, judgePanelRejected. rewrite E1, E2. by destruct faith.
Qed.

Lemma counted_snoc tr e t a k :
  counted tr t a k → (∀ req, e ≠ le_regenerate req) → counted (tr ++ [e]) t a k.
Proof.
  unfold counted. rewrite generated_snoc, regenerations_snoc. intros Hc Hne.
  destruct e; try (rewrite app_nil_r, Z.add_0_r; done). by destruct (Hne request).
Qed.

Lemma counted_regenerate tr req t a k :
  counted tr t a k → counted (tr ++ [le_regenerate req]) (t + output_of req) (a + 1) (k + 1).
Proof.
  unfold counted. rewrite generated_snoc, regenerations_snoc, length_app. cbn [length]. lia.
Qed.

(** The rounds before round [k] are over, and what a soft failure returns then. *)
Definition rounds_before (k : Z) (st : loop_state) : Prop :=
  Z.of_nat (length (ls_iterations st)) = k ∧ numbered (ls_iterations st) ∧ open_rounds (ls_iterations st).

Lemma open_explained k st res tr :
  1 <= k → rounds_before k st → rl_iterations res = ls_iterations st →
  rl_outcome res = ro_needs_review →
  (rl_repairIterationCount res = max ∨ in_softFailOnIterationError input = true) → explained tr res.
Proof.
  intros Hk (Hl & _ & Ho) Ei Eo Hwhy. destruct (ls_iterations st) as [|r before _] eqn:Es using rev_ind.
  { cbn in Hl. lia. }
  exists before, r. rewrite Eo, Ei. done.
Qed.

Lemma ensures_soft_fail tr k e ctx st t a :
  1 <= k <= max → rounds_before k st → counted tr t a k ∨ counted tr t a (k - 1) ->
  ens tr (returning (softFailIfEnabled input max k e ctx st)) (step_post k).
Proof.
  intros Hk Hr Hc. unfold returning, softFailIfEnabled. case_match eqn:Hsoft.
  - eapply ensures_bind; [apply ensures_return with (R := λ tr' r, tr' = tr ∧ r = loop_result max ro_needs_review st (Z.max (k - 1) 0)); done|].
    intros ? ? [-> ->]. apply ensures_return. pose proof Hr as (Hl & Hn & _).
    split; cbn; try done; [lia|lia| | |].
    + unfold counted in Hc. destruct Hc as [Hc|Hc]; [right|left]; [split_and!; try done|]; lia.
    + eapply open_explained; [apply Hk|exact Hr|done..|by right].
    + by right.
  - eapply ensures_bind; [apply ensures_throw with (R := λ _ _, False)|done].
Qed.

Lemma ensures_record tr record st (R : list LoopEvent → loop_state → Prop) :
  R (tr ++ [le_recorded record])
    {| ls_list := ls_list st; ls_logic := ls_logic st; ls_faith := ls_faith st;
       ls_iterations := ls_iterations st ++ [record];
       ls_outputTokens := ls_outputTokens st; ls_attempts := ls_attempts st |} →
  ens tr (record_iteration input record st) R.
Proof.
  intros HR. unfold record_iteration.
  eapply ensures_bind; [apply (ensures_call _ _ _ _ (λ tr' _, tr' = tr ++ [le_recorded record])); done|].
  intros ? _ ->. repeat case_match; first [by apply ensures_return | apply ensures_throw].
Qed.

(** When round [k] is recorded and its verdict has to be drawn. *)
Record round_recorded (k : Z) (tr : list LoopEvent) (before : list RepairLoopIterationRecord)
    (r : RepairLoopIterationRecord) (st : loop_state) : Prop := {
  rr_k : 1 <= k <= max;
  rr_counted : counted tr (ls_outputTokens st) (ls_attempts st) k;
  rr_iterations : ls_iterations st = before ++ [r];
  rr_length : Z.of_nat (length before) = k;
  rr_numbered : numbered (before ++ [r]);
  rr_open : open_rounds before;
  rr_judged : judged k (ls_list st) (ls_logic st) (ls_faith st);
  rr_record : record_of r (ls_list st) (ls_logic st) (ls_faith st);
}.

(** The result of a round that ends the loop. *)
Lemma round_post k tr tr' before r st result :
  round_recorded k tr before r st → regenerations tr' = regenerations tr → result ≠ ro_needs_review →
  (let res := loop_result max result st k in explained tr res → explained tr' res) →
  explained tr (loop_result max result st k) → loop_post tr' (loop_result max result st k).
Proof.
  intros [Hk (_ & _ & Hc) Hi Hl Hn Ho Hj Hr] Hreg Hne Hmono Hex.
  split; cbn; rewrite ?Hi, ?length_app, ?Hreg; cbn; try done; [lia|lia|by left|by apply Hmono|].
  left. cbn. rewrite Hi, last_snoc. eauto.
Qed.

Lemma ensures_decide k tr before r st :
  round_recorded k tr before r st →
  ens tr (decide_iteration can_write input max k (ir_verdictSignature r) st) (step_post k).
Proof.
  intros Hrr. pose proof Hrr as [Hk Hc Hi Hl Hn Ho Hj Hr]. unfold decide_iteration.
  rewrite <- (panel_accepts _ _ _ _ Hr), <- (panel_rejects _ _ _ _ Hr).
  destruct (record_accepts r) eqn:Ha.
  { apply ensures_return. eapply round_post; [done..|auto|]. exists before, r. done. }
  assert (before ≠ []) as Hne by (intros ->; cbn in Hl; lia).
  destruct (record_rejects r) eqn:Hrej.
  { apply ensures_return. eapply round_post; [done..|auto|]. exists before, r. done. }
  destruct (last before) as [p|] eqn:Hp; [|by apply last_None in Hp].
  rewrite Hi, length_app, lookup_app_l by (cbn; destruct before; cbn in *; [done|lia]).
  replace (length before + length [r] - 2)%nat with (Nat.pred (length before)) by (cbn; lia).
  rewrite <- last_lookup, Hp. case_bool_decide as Hsig.
  - eapply ensures_bind; [apply ensures_write with (R := λ tr' _, regenerations tr' = regenerations tr)|].
    { by rewrite regenerations_snoc, app_nil_r. }
    intros tr' u Hreg. apply ensures_return. eapply round_post; [done..|auto|]. exists before, r. cbn. eauto 10.
  - apply ensures_return. split; rewrite ?Hi; try done.
    + by replace (k + 1 - 1) with k by lia.
    + rewrite length_app. cbn. lia.
    + apply open_rounds_snoc; [done..|]. intros q Hq. congruence.
    + by replace (k + 1 - 1) with k by lia.
    + rewrite last_snoc. eauto.
Qed.

(** When the list of round [k] is made and the judges have to see it. *)
Record round_generated (k : Z) (tr : list LoopEvent) (regen : RepairLoopRegenerateResult) (st : loop_state) : Prop := {
  rt_k : 1 <= k <= max;
  rt_counted : counted tr (ls_outputTokens st) (ls_attempts st) k;
  rt_rounds : rounds_before k st;
  rt_list : ls_list st = rs_list regen;
  rt_made : ∃ req, last (regenerations tr) = Some req ∧ rg_iteration req = k ∧ in_regenerate input req = Ok regen;
}.

Lemma latest_list_of k tr regen st :
  round_generated k tr regen st → latest_list tr {| jr_list := ls_list st; jr_iteration := k |}.
Proof. intros [_ _ _ Hl (req & H1 & H2 & H3)]. exists req, regen. cbn. by rewrite Hl. Qed.

Lemma ensures_faithfulness k tr regen st (R : list LoopEvent → outcome thrown (option (RepairLoopJudgeResult FaithfulnessVerdict)) → Prop) :
  round_generated k tr regen st →
  (∃ logic, in_runLogicJudge input {| jr_list := ls_list st; jr_iteration := k |} = Ok logic ∧ jd_verdict logic = ls_logic st) →
  (∀ tr' answer, (∀ t a, counted tr t a k → counted tr' t a k) →
     (∀ f, answer = Ok f → faithfulness_of {| jr_list := ls_list st; jr_iteration := k |} (ls_logic st) (jd_verdict <$> f)) →
     R tr' answer) →
  ens tr (run_faithfulness input k st) R.
Proof.
  intros Hg (logic & Hlogic & El) HR. unfold run_faithfulness, faithfulness_of in *.
  destruct (in_runFaithfulnessJudge input) as [judge|]; [case_bool_decide as Hv|].
  - apply ensures_call.
    + split; [by eapply latest_list_of|]. exists logic. by rewrite El.
    + apply HR; [intros t a Hc; by apply counted_snoc|]. intros f Hf.
      destruct (judge _) as [a|e] eqn:Ej; [|done]. injection Hf as <-. by exists a.
  - apply ensures_return, HR; [done|]. by intros ? [= <-].
  - apply ensures_return, HR; [done|]. by intros ? [= <-].
Qed.

Lemma ensures_judge k tr regen st :
  round_generated k tr regen st → ens tr (judge_iteration can_write input max k regen st) (step_post k).
Proof.
  intros Hg. pose proof Hg as [Hk Hc Hr Hl Hm]. unfold judge_iteration.
  eapply ensures_bind.
  { apply ensures_call with (R := λ tr' answer, tr' = tr ++ [le_judge_logic {| jr_list := ls_list st; jr_iteration := k |}] ∧
      answer = in_runLogicJudge input {| jr_list := ls_list st; jr_iteration := k |}); [by eapply latest_list_of|done]. }
  intros ? ? [-> ->]. apply (counted_snoc _ (le_judge_logic {| jr_list := ls_list st; jr_iteration := k |})) in Hc; [|done].
  destruct (in_runLogicJudge _ _) as [logic|e] eqn:Elogic; [|eapply ensures_soft_fail; [done..|by left]].
  eapply ensures_bind.
  { eapply ensures_faithfulness with (k := k) (regen := regen)
      (R := λ tr' answer, counted tr' (ls_outputTokens st) (ls_attempts st) k ∧
        ∀ f, answer = Ok f → faithfulness_of {| jr_list := ls_list st; jr_iteration := k |} (jd_verdict logic) (jd_verdict <$> f)).
    - split; cbn; try done. by rewrite regenerations_snoc, app_nil_r.
    - eauto.
    - intros tr' answer Hmono Hf. split; [by apply Hmono|exact Hf]. }
  intros tr' [faith|e] [Hc' Hf]; [|eapply ensures_soft_fail; [done|exact Hr|by left]].
  specialize (Hf _ eq_refl). cbn zeta. destruct Hr as (Hlen & Hn & Ho).
  eapply ensures_bind with (Q := λ tr'' st', round_recorded k tr'' (ls_iterations st)
    (iteration_record k {| ls_list := ls_list st; ls_logic := jd_verdict logic; ls_faith := jd_verdict <$> faith;
       ls_iterations := ls_iterations st; ls_outputTokens := ls_outputTokens st; ls_attempts := ls_attempts st |}
       regen logic faith) st').
  - apply ensures_record. split; cbn; try done.
    + by apply counted_snoc.
    + apply numbered_snoc; [done|]. cbn. lia.
    + unfold judged. case_bool_decide; [lia|]. destruct Hm as (req & _ & E1 & E2).
      split; [exists req, regen; by rewrite Hl|]. split; [eauto|done].
    + unfold record_of. cbn. by rewrite Hl.
  - intros tr'' st' Hrr. by eapply ensures_decide.
Qed.

Lemma trigger_None st :
  projectedBudgetTrigger input st = None ↔ within_guard (ls_outputTokens st) (ls_attempts st).
Proof.
  unfold projectedBudgetTrigger, within_guard. destruct (in_budget input) as [g|]; [|done].
  destruct (over _ _), (over _ _); naive_solver.
Qed.

Lemma invariant_rounds k tr st : loop_invariant k tr st → rounds_before k st.
Proof. by intros [? ? ? ? ? ?]. Qed.

Lemma ensures_exhausted_budget k tr st trigger :
  1 <= k <= max → loop_invariant k tr st → projectedBudgetTrigger input st = Some trigger →
  ens tr (writeBudgetTrace can_write input st k trigger ;;>
          t_return (inl (loop_result max ro_budget_exhausted st (Z.of_nat (length (ls_iterations st)) - 1))))%traced
    (step_post k).
Proof.
  intros Hk Hinv Ht. pose proof Hinv as [(Htok & Hatt & Hreg) Hlen Hn Ho Hj (r & Hlast & Hr)].
  assert (Hover : ¬ within_guard (ls_outputTokens st) (ls_attempts st)) by (rewrite <- trigger_None; congruence).
  eapply ensures_bind with (Q := λ tr' _, regenerations tr' = regenerations tr).
  { unfold writeBudgetTrace. case_match; [apply ensures_write|apply ensures_return; done].
    by rewrite regenerations_snoc, app_nil_r. }
  intros tr' u Htr. apply ensures_return. apply last_Some in Hlast as (before & Hi).
  assert (Hgen : generated tr' = generated tr) by (unfold generated; by rewrite Htr).
  split; cbn; rewrite ?Htr; try done; [lia|lia|left; lia| |].
  - exists before, r. cbn. rewrite Hgen, Htr, <- Htok, <- Hatt, <- Hi. split; [done|]. split; [done|]. split; [lia|done].
  - left. cbn. replace (Z.of_nat (length (ls_iterations st)) - 1) with (k - 1) by lia. split; [done|].
    rewrite Hi, last_snoc. eauto.
Qed.

Lemma ensures_iteration k tr st :
  1 <= k <= max → loop_invariant k tr st → ens tr (repair_iteration can_write input max k st) (step_post k).
Proof.
  intros Hk Hinv. unfold repair_iteration. destruct (projectedBudgetTrigger input st) as [trigger|] eqn:Ht.
  { by apply ensures_exhausted_budget. }
  apply trigger_None in Ht. set (plan := consolidateRepairInstructions _ _). cbv zeta.
  pose proof (invariant_rounds _ _ _ Hinv) as Hr. pose proof Hinv as [Hc _ _ _ _ _].
  set (request := Build_RepairLoopRegenerateInput _ _ _ _).
  set (planned := le_wrote (planner_path (in_runDir input) k) (canonicalJson (planner_json input k st plan))).
  eapply ensures_bind; [apply ensures_write with (R := λ tr' _, tr' = tr ++ [planned]); done|].
  intros ? u ->. apply (counted_snoc _ planned) in Hc; [|done].
  eapply ensures_bind.
  { apply ensures_call with (R := λ tr' answer, tr' = (tr ++ [planned]) ++ [le_regenerate request] ∧
      answer = in_regenerate input request); [|done].
    destruct Hc as (Htok & Hatt & Hcount). rewrite Htok, Hatt in Ht. unfold allowed, request.
    cbn [rg_iteration rg_previousList rg_repairInstructions rg_truncatedInstructionCount].
    split; [lia|]. split; [lia|]. split; [done|]. exists st. rewrite <- surjective_pairing.
    split; [done|]. split; [done|]. by rewrite last_snoc. }
  intros ? answer [-> ->]. pose proof (counted_regenerate _ request _ _ _ Hc) as Hc2.
  replace (k - 1 + 1) with k in Hc2 by lia.
  destruct (in_regenerate input request) as [regen|e] eqn:Eg; [|eapply ensures_soft_fail; [done..|by left]].
  assert (Hout : output_of request = sanitizeGuardCount (Some (rs_outputTokens regen))) by (unfold output_of; by rewrite Eg).
  eapply ensures_bind with (Q := λ tr' _, ∃ path text, tr' = (((tr ++ [planned]) ++ [le_regenerate request]) ++ [le_wrote path text])).
  { apply ensures_write. eauto. }
  intros ? u' (path & text & ->). apply ensures_judge. split; cbn [ls_outputTokens ls_attempts ls_list]; try done.
  - rewrite <- Hout. by apply counted_snoc.
  - exists request. rewrite !regenerations_snoc, app_nil_r, last_snoc. done.
Qed.

Lemma ensures_rounds n k tr st :
  1 <= k → k + Z.of_nat n = max + 1 → loop_invariant k tr st →
  ens tr (repair_rounds can_write input n max k st) loop_post.
Proof.
  revert k tr st; induction n as [|n IH]; intros k tr st Hk Hn Hinv; cbn [repair_rounds].
  - apply ensures_return. pose proof (invariant_rounds _ _ _ Hinv) as Hr. pose proof Hinv as [(_ & _ & Hc) Hl Hnum _ Hj Hrec].
    replace (k - 1) with max in * by lia.
    split; cbn; try done; [lia|lia|by left| |by left].
    eapply open_explained; [exact Hk|exact Hr|done..|by left].
  - eapply ensures_bind; [apply ensures_iteration; [lia|exact Hinv]|].
    intros tr' [res|st'] HP; [by apply ensures_return|]. apply IH; [lia|lia|exact HP].
Qed.
End run.

(** ** The run *)

Lemma resolveMax_bounds requested m :
  resolveMaxRepairIterations requested = Ok m → 0 <= m <= REPAIR_LOOP_MAX_ITERATIONS_HARD_CAP.
Proof.
  unfold resolveMaxRepairIterations. case_match eqn:E; [done|]. apply orb_false_iff in E as [Hi Hn].
  destruct (default _ _) as [| | |q]; try done. intros [= <-]. unfold Number.ltb, Number.leb, num in Hn.
  assert (Hq : Qle_bool 0 q = true).
  { change (inject_Z 0) with 0%Q in Hn. destruct (Qle_bool 0 q) eqn:E0; [done|].
    apply andb_false_iff in Hn as [Hn|Hn]; [|done].
    apply not_true_iff_false in E0, Hn. rewrite Qle_bool_iff in E0, Hn. apply Qnot_le_lt in E0, Hn.
    exfalso. apply (Qlt_irrefl 0). by apply Qlt_trans with q. }
  apply Qle_bool_iff in Hq. apply Qfloor_resp_le in Hq. change (Qfloor 0) with 0 in Hq.
  unfold REPAIR_LOOP_MAX_ITERATIONS_HARD_CAP. lia.
Qed.

Section repair_loop.
Context `{LocaleCompare} `{JsonDigest} (can_write : string → bool) (input : RunRepairLoopInput).

(** Everything known of a run with the bound [max] on the repair iterations. *)
Lemma ensures_run max :
  resolveMaxRepairIterations (in_maxRepairIterations input) = Ok max →
  ensures (allowed input max) [] (runRepairLoop can_write input) (loop_post input max).
Proof.
  intros Hmax. pose proof (resolveMax_bounds _ _ Hmax) as [Hpos _]. unfold runRepairLoop. rewrite Hmax.
  case_match; [apply ensures_throw|]. case_match; [apply ensures_throw|].
  set (r := initial_record input).
  assert (Hr : record_of r (in_initialList input) (in_initialLogicVerdict input) (in_initialFaithfulnessVerdict input)) by done.
  eapply ensures_bind.
  { apply ensures_record with (R := λ tr st, tr = [le_recorded r] ∧ ls_list st = in_initialList input ∧
      ls_logic st = in_initialLogicVerdict input ∧ ls_faith st = in_initialFaithfulnessVerdict input ∧
      ls_iterations st = [r] ∧ ls_outputTokens st = initial_tokens input ∧ ls_attempts st = initial_attempts input). done. }
  intros ? st (-> & El & Elog & Ef & Ei & Et & Ea).
  assert (Hn : numbered [r]) by (intros [|i] x Hx; [by injection Hx as <-|done]).
  rewrite Elog, Ef, <- (panel_accepts _ _ _ _ Hr). destruct (record_accepts r) eqn:Hacc.
  - apply ensures_return. split; cbn; rewrite ?Ei; try done; [by left| |].
    + exists [], r. cbn. rewrite Ei. split; [done|]. split; [|done]. by split.
    + left. cbn. rewrite El, Elog, Ef, Ei. split; [|by exists r]. by unfold judged.
  - apply ensures_rounds; [lia|lia|]. split; rewrite ?El, ?Elog, ?Ef, ?Ei, ?Et, ?Ea; cbn -[numbered]; try done.
    + unfold counted, generated. cbn. lia.
    + apply (open_rounds_snoc []); [|done..]. by split.
    + by exists r.
Qed.

Lemma run_max es res :
  runRepairLoop can_write input = (es, Ok res) →
  ∃ max, resolveMaxRepairIterations (in_maxRepairIterations input) = Ok max ∧ loop_post input max es res ∧
    0 <= max <= REPAIR_LOOP_MAX_ITERATIONS_HARD_CAP.
Proof.
  intros Hrun. destruct (resolveMaxRepairIterations (in_maxRepairIterations input)) as [max|e] eqn:Hmax.
  - exists max. split; [done|]. destruct (ensures_run max Hmax) as [_ Hpost]. rewrite Hrun in Hpost.
    split; [by apply Hpost|by eapply resolveMax_bounds].
  - unfold runRepairLoop in Hrun. rewrite Hmax in Hrun. by repeat case_match.
Qed.

Lemma run_trace es x before e after :
  runRepairLoop can_write input = (es, x) → es = before ++ e :: after →
  ∃ max, resolveMaxRepairIterations (in_maxRepairIterations input) = Ok max ∧ allowed input max before e.
Proof.
  intros Hrun ->. destruct (resolveMaxRepairIterations (in_maxRepairIterations input)) as [max|er] eqn:Hmax.
  - exists max. split; [done|]. destruct (ensures_run max Hmax) as [Hok _]. rewrite Hrun in Hok.
    by apply trace_ok_split in Hok.
  - unfold runRepairLoop in Hrun. rewrite Hmax in Hrun. repeat case_match; destruct before; simplify_eq.
Qed.
End repair_loop.

(** ** The functions the loop relies on *)

(** A panel of one judge and the hints of the other: what is collected is normalized. *)
Definition within_limits (i : RepairInstruction) : Prop :=
  (String.length (ri_instruction i) ≤ LIMIT_INSTRUCTION)%nat ∧ (String.length (ri_path i) ≤ LIMIT_PATH)%nat ∧
  (∀ m, ri_message i = Some m → String.length m ≤ LIMIT_MESSAGE)%nat.

Lemma truncated_length value n : (3 ≤ n)%nat → (String.length (truncateWithEllipsis value n).1 ≤ n)%nat.
Proof. intros Hn. by apply truncateWithEllipsis_length. Qed.

Lemma normalized_within i : within_limits (normalizeInstruction i).
Proof.
  unfold within_limits, normalizeInstruction, truncateInstruction, truncatePath, truncateMessage.
  pose proof (truncated_length (ri_instruction i) LIMIT_INSTRUCTION) as H1.
  destruct (truncateWithEllipsis (ri_instruction i) LIMIT_INSTRUCTION) as [text b]; cbn in H1 |- *.
  split; [apply H1; unfold LIMIT_INSTRUCTION; lia|]. split; [apply truncated_length; unfold LIMIT_PATH; lia|].
  intros m Hm. destruct (ri_message i); [|done]. injection Hm as <-. apply truncated_length. unfold LIMIT_MESSAGE. lia.
Qed.

Lemma hint_within id path text : within_limits (hint id path text).
Proof.
  unfold within_limits, hint, truncateInstruction, truncatePath; cbn.
  split; [apply truncated_length; unfold LIMIT_INSTRUCTION; lia|]. by split; [apply truncated_length; unfold LIMIT_PATH; lia|].
Qed.

(** The plan of an iteration: every text within its limit, no two instructions alike,
    in the order of the comparison, nothing lost of what the judges said, and nothing
    added; the count is the number of clipped instructions. *)
Theorem consolidation_is_exact `{LocaleCompare} logic faith l n :
  consolidateRepairInstructions logic faith = (l, n) →
  Forall within_limits l ∧ NoDup (instruction_key <$> l) ∧ StronglySorted (cmp_le compareInstruction) l ∧
  (∀ i, i ∈ collected_instructions logic faith → ∃ j, j ∈ l ∧ instruction_key j = instruction_key i) ∧
  (∀ j, j ∈ l → j ∈ collected_instructions logic faith) ∧
  n = Z.of_nat (length (filter (λ i, ri_instructionTruncated i = true) l)).
Proof.
  unfold consolidateRepairInstructions. intros [= <- <-].
  destruct (dedupe_by_spec instruction_key (collected_instructions logic faith)) as (Hnd & Hin & Hall).
  assert (Hsub : ∀ j, j ∈ js_sort compareInstruction (dedupe_by instruction_key (collected_instructions logic faith)) →
    j ∈ collected_instructions logic faith) by (intros j Hj%elem_of_js_sort; auto).
  split; [|split; [|split; [|split; [|split]]]]; try done.
  - apply Forall_forall. intros j Hj%Hsub. unfold collected_instructions in Hj.
    apply elem_of_app in Hj as [(i & -> & _)%list_elem_of_fmap|Hj]; [apply normalized_within|].
    destruct faith as [f|]; [|by apply elem_of_nil in Hj].
    by apply elem_of_app in Hj as [(h & -> & _)%list_elem_of_fmap|(m & -> & _)%list_elem_of_fmap]; apply hint_within.
  - by rewrite js_sort_Permutation.
  - apply js_sort_sorted. unfold compareInstruction. apply _.
  - intros i Hi%Hall. apply list_elem_of_fmap in Hi as (j & Ej & Hj). exists j. by rewrite elem_of_js_sort.
Qed.

(** The value of a signature is its own canonical text up to the order of its three
    properties, so it can be read back. *)
Lemma js_string_array_inj l l' : JArray (JString <$> l) = JArray (JString <$> l') → l = l'.
Proof.
  intros [= E]. revert l' E; induction l as [|x l IH]; intros [|y l'] E; try done. injection E as -> E. f_equal. auto.
Qed.

Lemma canonical_strings l : sortValue (JArray (JString <$> l)) = JArray (JString <$> l).
Proof. cbn. f_equal. induction l; cbn; congruence. Qed.

(** Two verdicts have the same signature exactly when they agree on the label and, as
    multisets, on the codes of their findings and on the kinds of their instructions;
    short of a collision of the digest. *)
Theorem same_signature_iff `{JsonDigest} a b :
  (jv_verdict a = jv_verdict b ∧ jf_code <$> jv_findings a ≡ₚ jf_code <$> jv_findings b ∧
   (default "" ∘ ri_kind) <$> jv_repairInstructions a ≡ₚ (default "" ∘ ri_kind) <$> jv_repairInstructions b →
   computeVerdictSignature a = computeVerdictSignature b) ∧
  (computeVerdictSignature a = computeVerdictSignature b →
   (jv_verdict a = jv_verdict b ∧ jf_code <$> jv_findings a ≡ₚ jf_code <$> jv_findings b ∧
    (default "" ∘ ri_kind) <$> jv_repairInstructions a ≡ₚ (default "" ∘ ri_kind) <$> jv_repairInstructions b) ∨
   digest_collision).
Proof.
  split.
  - intros (Ev & Ef & Ei). unfold computeVerdictSignature, signature_object. rewrite Ev.
    by rewrite (js_sort_unique String.compare _ _ Ef), (js_sort_unique String.compare _ _ Ei).
  - intros E. destruct (decide (canonicalJson (signature_object a) = canonicalJson (signature_object b))) as [Ec|Hne];
      [|right; by exists (canonicalJson (signature_object a)), (canonicalJson (signature_object b))].
    left.
    assert (Hf : ∀ k, k ≠ PROTO → field k (canonicalJson (signature_object a)) = field k (canonicalJson (signature_object b)))
      by (intros; by rewrite Ec).
    pose proof (Hf "verdict" ltac:(done)) as H1. pose proof (Hf "findingCodes" ltac:(done)) as H2.
    pose proof (Hf "repairInstructionKinds" ltac:(done)) as H3.
    rewrite !field_canonicalJson in H1, H2, H3 by done. unfold signature_object in H1, H2, H3. cbn in H1, H2, H3.
    injection H1 as H1. apply Some_inj in H2, H3. change canonicalJson with sortValue in *.
    assert (Hs : ∀ l l' : list string, JArray (sortValue <$> (JString <$> js_sort String.compare l)) =
      JArray (sortValue <$> (JString <$> js_sort String.compare l')) → l ≡ₚ l').
    { intros l l' Es. assert (Ej : js_sort String.compare l = js_sort String.compare l').
      { apply js_string_array_inj. rewrite <- (canonical_strings (js_sort _ l)), <- (canonical_strings (js_sort _ l')).
        exact Es. }
      by rewrite <- (js_sort_Permutation String.compare l), Ej, js_sort_Permutation. }
    split; [by destruct (jv_verdict a), (jv_verdict b)|]. split; by apply Hs.
Qed.

(** ** Runs *)

Lemma over_mono t t' limit : t' <= t → over t limit = false → over t' limit = false.
Proof.
  unfold over. destruct limit as [l|]; [|done]. cbn. intros Ht. unfold Number.ltb, Number.leb, num.
  destruct l as [| | |q]; try done. rewrite !andb_false_iff, !negb_false_iff.
  assert (Hq : (inject_Z t' <= inject_Z t)%Q) by by rewrite <- Zle_Qle.
  intros [Hl|Hl]; right; apply Qle_bool_iff.
  - apply not_true_iff_false in Hl. rewrite Qle_bool_iff in Hl. apply Qnot_le_lt, Qlt_le_weak in Hl.
    by apply Qle_trans with (inject_Z t).
  - apply Qle_bool_iff in Hl. by apply Qle_trans with (inject_Z t).
Qed.

(** The last call of the generator in a trace. *)
Lemma last_regeneration es :
  regenerations es = [] ∨
  ∃ before req after, es = before ++ le_regenerate req :: after ∧ regenerations es = regenerations before ++ [req].
Proof.
  induction es as [|e es IH] using rev_ind; [by left|]. rewrite regenerations_snoc. destruct e; rewrite ?app_nil_r.
  3: { right. eexists _, _, []. done. }
  all: destruct IH as [->|(before & req & after & -> & E)]; [by left|right];
    rewrite E; eexists before, req, (after ++ [_]); by rewrite <- app_assoc.
Qed.

Section runs.
Context `{LocaleCompare} `{JsonDigest} (can_write : string → bool) (input : RunRepairLoopInput).

(** C11. A run accepts only what its judges accepted: either the initial verdicts already
    accept, or the generator made the final list in the last iteration, the logic judge
    accepted this very list, and so did the faithfulness judge if there is one. *)
Theorem accepted_list_was_judged es res :
  runRepairLoop can_write input = (es, Ok res) → rl_outcome res = ro_accepted →
  let k := rl_repairIterationCount res in
  let l := rl_finalList res in
  (k = 0 ∧ l = in_initialList input ∧ jv_verdict (in_initialLogicVerdict input) = v_accept ∧
   from_option (λ f, fv_verdict f = v_accept) True (in_initialFaithfulnessVerdict input)) ∨
  (1 <= k <= 5 ∧
   (∃ req g, rg_iteration req = k ∧ in_regenerate input req = Ok g ∧ rs_list g = l) ∧
   (∃ a, in_runLogicJudge input {| jr_list := l; jr_iteration := k |} = Ok a ∧ jv_verdict (jd_verdict a) = v_accept) ∧
   (∀ judge, in_runFaithfulnessJudge input = Some judge →
      ∃ a, judge {| jr_list := l; jr_iteration := k |} = Ok a ∧ fv_verdict (jd_verdict a) = v_accept)).
Proof.
  intros Hrun Hacc k l. destruct (run_max _ _ _ _ Hrun) as (max & _ & Hpost & Hmax).
  destruct Hpost as [_ Hk _ _ _ (before & r & Ei & Hex) Hj]. rewrite Hacc in Hex. destruct Hex as [_ Hr].
  destruct Hj as [[Hj (r' & El & Hrec)]|[Ho _]]; [|congruence]. rewrite Ei, last_snoc in El. injection El as <-.
  rewrite (panel_accepts _ _ _ _ Hrec) in Hr. apply andb_true_iff in Hr as [Hlogic Hfaith].
  apply bool_decide_eq_true in Hlogic. fold k l in Hj, Hk. unfold judged in Hj. case_bool_decide as H0'.
  - left. destruct Hj as (E1 & E2 & E3). rewrite E2 in Hlogic. rewrite E3 in Hfaith. split; [done|]. split; [done|].
    split; [done|]. destruct (in_initialFaithfulnessVerdict input); [|done]. by apply bool_decide_eq_true in Hfaith.
  - right. destruct Hj as (Hgen & (a & Ea & Ev) & Hf). unfold REPAIR_LOOP_MAX_ITERATIONS_HARD_CAP in Hmax.
    split; [lia|]. split; [done|]. rewrite <- Ev in Hlogic. split; [eauto|]. intros judge Ejudge.
    unfold faithfulness_of in Hf. rewrite Ejudge, <- Ev, bool_decide_true in Hf by done.
    destruct Hf as (f & Ef & Efaith). rewrite Efaith in Hfaith. exists f. split; [done|].
    by apply bool_decide_eq_true in Hfaith.
Qed.

(** C12. The rounds of a run and why it stopped. They are numbered 0, 1, 2, ..., at most five
    of them repairs. Every round but the last was neither accepted nor (after the first)
    rejected and differs in its signature from the one before; the last round says what
    the outcome says; the loop gives up without a verdict only at the bound, at the
    budget, or when failed callbacks are to be survived ([in_softFailOnIterationError]). *)
Theorem repair_outcome_is_explained es res :
  runRepairLoop can_write input = (es, Ok res) →
  ∃ max, resolveMaxRepairIterations (in_maxRepairIterations input) = Ok max ∧ rl_maxRepairIterations res = max ∧
    0 <= rl_repairIterationCount res <= max ∧ max <= 5 ∧
    Z.of_nat (length (rl_iterations res)) = rl_repairIterationCount res + 1 ∧ numbered (rl_iterations res) ∧
    explained input max es res.
Proof.
  intros Hrun. destruct (run_max _ _ _ _ Hrun) as (max & Hm & [? ? ? ? ? ? ?] & Hmax).
  unfold REPAIR_LOOP_MAX_ITERATIONS_HARD_CAP in Hmax. exists max. split_all; try done; lia.
Qed.

(** Every call of the generator, also in a run that throws later, is the next
    iteration, gets the plan made from the latest verdicts and the list they judged,
    and comes directly after this plan was written to its artifact. *)
Theorem generation_follows_its_plan es x before req after :
  runRepairLoop can_write input = (es, x) → es = before ++ le_regenerate req :: after →
  rg_iteration req = Z.of_nat (length (regenerations before)) + 1 ∧ rg_iteration req <= 5 ∧
  ∃ st, let plan := (rg_repairInstructions req, rg_truncatedInstructionCount req) in
    plan = consolidateRepairInstructions (ls_logic st) (ls_faith st) ∧ rg_previousList req = ls_list st ∧
    last before = Some (le_wrote (planner_path (in_runDir input) (rg_iteration req))
                          (canonicalJson (planner_json input (rg_iteration req) st plan))).
Proof.
  intros Hrun Hes. destruct (run_trace _ _ _ _ _ _ _ Hrun Hes) as (max & Hm & Hk & Hmax & _ & Hplan).
  pose proof (resolveMax_bounds _ _ Hm) as [_ Hcap]. unfold REPAIR_LOOP_MAX_ITERATIONS_HARD_CAP in Hcap.
  split; [done|]. split; [lia|done].
Qed.

(** C38. The guard on attempts holds in every run; the one on output tokens holds as long
    as no call of the generator makes more than the projection says. Both count what
    was spent before the loop. *)
Theorem generator_stays_within_guard es x guard :
  runRepairLoop can_write input = (es, x) → in_budget input = Some guard → regenerations es ≠ [] →
  over (initial_attempts input + Z.of_nat (length (regenerations es))) (bg_maxGeneratorAttempts guard) = false ∧
  (Forall (λ req, output_of input req <= expected_next (Some guard)) (regenerations es) →
   over (initial_tokens input + generated input es) (bg_maxGeneratorOutputTokens guard) = false).
Proof.
  intros Hrun Hg Hne. destruct (last_regeneration es) as [?|(before & req & after & Hes & Hreg)]; [done|].
  destruct (run_trace _ _ _ _ _ _ _ Hrun Hes) as (max & _ & _ & _ & Hw & _).
  unfold within_guard in Hw. rewrite Hg in Hw. destruct Hw as [Ha Ht]. split.
  - rewrite Hreg, length_app. cbn. eapply over_mono; [|exact Ha]. lia.
  - rewrite Hreg, Forall_app, Forall_singleton. intros [_ Hout]. eapply over_mono; [|exact Ht].
    assert (generated input es = generated input (before ++ [le_regenerate req])) as ->
      by (unfold generated; by rewrite Hreg, regenerations_snoc).
    rewrite generated_snoc. lia.
Qed.

(** ** Runs that return *)

Definition returns {A} (m : traced A) : Prop := ∃ a, m.2 = Ok a.

Lemma returns_bind {A B} (m : traced A) (f : A → traced B) : returns m → (∀ a, returns (f a)) → returns (t_bind m f).
Proof. intros [a Ha] Hf. unfold t_bind. rewrite Ha. destruct (Hf a) as [b Hb]. by exists b. Qed.

Lemma returns_return {A} (a : A) : returns (t_return a).
Proof. by exists a. Qed.

Lemma returns_call {A} e (a : A) : returns (t_call e a).
Proof. by exists a. Qed.

Lemma returns_after_call {A B} e (a : A) (f : A → traced B) : returns (f a) → returns (t_bind (t_call e a) f).
Proof. intros [b Hb]. by exists b. Qed.

Lemma returns_after_return {A B} (a : A) (f : A → traced B) : returns (f a) → returns (t_bind (t_return a) f).
Proof. intros [b Hb]. by exists b. Qed.

(** Files can be written and the notification does not throw. *)
Hypothesis Hwrite : ∀ path, can_write path = true.
Hypothesis Hnotify : ∀ notify r, in_onIterationComplete input = Some notify → notify r = Ok tt.

(** A callback answers, or its failure is to be survived. *)
Definition survives {A} (answer : outcome thrown A) : Prop :=
  in_softFailOnIterationError input = true ∨ ∃ a, answer = Ok a.

Hypothesis Hgenerate : ∀ req, survives (in_regenerate input req).
Hypothesis Hlogic : ∀ req, survives (in_runLogicJudge input req).
Hypothesis Hfaith : ∀ judge req, in_runFaithfulnessJudge input = Some judge → survives (judge req).

Lemma returns_write path v : returns (writeAtomicJson can_write path v).
Proof. unfold writeAtomicJson. rewrite Hwrite. apply returns_call. Qed.

Lemma returns_soft {A} (answer : outcome thrown A) e max k error ctx st :
  survives answer → answer = Throw e → returns (returning (softFailIfEnabled input max k error ctx st)).
Proof.
  intros [Hs|[a Ha]] He; [|congruence]. unfold returning, softFailIfEnabled. rewrite Hs.
  apply returns_bind; intros; apply returns_return.
Qed.

Lemma returns_record r st : returns (record_iteration input r st).
Proof.
  apply returns_bind; [apply returns_call|]. intros _. destruct (in_onIterationComplete input) as [notify|] eqn:En;
    [rewrite (Hnotify notify) by done|]; apply returns_return.
Qed.

Lemma returns_decide max k s st : returns (decide_iteration can_write input max k s st).
Proof.
  unfold decide_iteration. repeat case_match; try apply returns_return.
  apply returns_bind; [apply returns_write|]. intros; apply returns_return.
Qed.

Lemma returns_judge max k regen st : returns (judge_iteration can_write input max k regen st).
Proof.
  unfold judge_iteration. cbn zeta. apply returns_after_call.
  destruct (in_runLogicJudge input _) as [logic|e] eqn:El; [|by eapply returns_soft; [apply Hlogic|exact El]].
  unfold run_faithfulness. destruct (in_runFaithfulnessJudge input) as [judge|] eqn:Ej; [case_bool_decide|].
  - apply returns_after_call. destruct (judge _) as [f|e] eqn:Ef; cbn [outcome_map outcome_bind];
      [|by eapply returns_soft; [by eapply Hfaith|exact Ef]].
    apply returns_bind; [apply returns_record|]. intros; apply returns_decide.
  - apply returns_after_return, returns_bind; [apply returns_record|]. intros; apply returns_decide.
  - apply returns_after_return, returns_bind; [apply returns_record|]. intros; apply returns_decide.
Qed.

Lemma returns_iteration max k st : returns (repair_iteration can_write input max k st).
Proof.
  unfold repair_iteration. destruct (projectedBudgetTrigger input st) as [trigger|].
  - apply returns_bind; [|intros; apply returns_return]. unfold writeBudgetTrace.
    destruct (in_budget input); [apply returns_write|apply returns_return].
  - cbn zeta. apply returns_bind; [apply returns_write|]. intros _. apply returns_after_call.
    destruct (in_regenerate input _) as [regen|e] eqn:Eg; [|by eapply returns_soft; [apply Hgenerate|exact Eg]].
    apply returns_bind; [apply returns_write|]. intros; apply returns_judge.
Qed.

Lemma returns_rounds n max k st : returns (repair_rounds can_write input n max k st).
Proof.
  revert k st; induction n as [|n IH]; intros k st; [apply returns_return|].
  cbn [repair_rounds]. apply returns_bind; [apply returns_iteration|]. intros [res|st']; [apply returns_return|apply IH].
Qed.

(** With a job, a directory and a bound, the loop always returns, whatever generator and
    judges answer, as long as their failures are to be survived. *)
Theorem repair_loop_returns :
  is_blank (in_jobId input) = false → is_blank (in_runDir input) = false →
  is_Some (match resolveMaxRepairIterations (in_maxRepairIterations input) with Ok m => Some m | Throw _ => None end) →
  ∃ es res, runRepairLoop can_write input = (es, Ok res).
Proof.
  intros Hj Hd [m Hm]. destruct (resolveMaxRepairIterations (in_maxRepairIterations input)) as [max|] eqn:Hmax; [|done].
  assert (Hr : returns (runRepairLoop can_write input)).
  { unfold runRepairLoop. rewrite Hj, Hd, Hmax. apply returns_bind; [apply returns_record|]. intros st.
    case_match; [apply returns_return|apply returns_rounds]. }
  destruct Hr as [res Hres]. exists (runRepairLoop can_write input).1, res. by rewrite <- Hres, <- surjective_pairing.
Qed.
End runs.

(** ** Runs of a small example *)

Definition sample_list (name : string) : GeneratedTestCaseList :=
  {| gl_testCases := [JString name]; gl_object := JObject [("testCases", JArray [JString name])] |}.

Definition sample_verdict (v : Verdict) (codes : list string) : JudgeVerdict :=
  {| jv_verdict := v;
     jv_findings := (λ c, {| jf_scope := "case"; jf_testCaseId := "tc"; jf_code := c; jf_severity := "error"; jf_message := "" |}) <$> codes;
     jv_repairInstructions := []; jv_object := JString (Verdict_label v) |}.

(** The generator calls its lists [round1], [round2], ... and takes [tokens] for each. *)
Definition sample_regenerate (tokens : Z) (req : RepairLoopRegenerateInput) : outcome thrown RepairLoopRegenerateResult :=
  Ok {| rs_list := sample_list ("round" +:+ pretty (rg_iteration req)); rs_llmResult := llm_success "model";
        rs_llmDurationMs := num 10; rs_inputTokens := num 5; rs_outputTokens := num tokens;
        rs_hashes := {| rh_inputHash := ""; rh_promptHash := ""; rh_schemaHash := ""; rh_cacheKey := "" |} |}.

Definition sample_judge (verdict : Z → JudgeVerdict) (req : RepairLoopJudgeRunnerInput) :
    outcome thrown (RepairLoopJudgeResult JudgeVerdict) :=
  Ok {| jd_verdict := verdict (jr_iteration req); jd_inputTokens := num 1; jd_outputTokens := num 1 |}.

Definition sample_input (judge : RepairLoopJudgeRunnerInput → outcome thrown (RepairLoopJudgeResult JudgeVerdict))
    (soft : bool) (tokens : Z) (guard : option RepairLoopBudgetGuard) : RunRepairLoopInput :=
  {| in_jobId := "job"; in_runDir := "/run"; in_initialList := sample_list "round0";
     in_initialLogicVerdict := sample_verdict v_repair ["missing_step"]; in_initialFaithfulnessVerdict := None;
     in_maxRepairIterations := None; in_regenerate := sample_regenerate tokens; in_runLogicJudge := judge;
     in_runFaithfulnessJudge := None; in_softFailOnIterationError := soft; in_onIterationComplete := None;
     in_budget := guard |}.

(** Accepted in the second iteration; a digest that tells the two verdicts apart. *)
Definition length_digest : JsonDigest.
Proof.
  refine {| json_digest v := match field "findingCodes" v with
    | Some (JArray []) => "0000000000000000000000000000000000000000000000000000000000000000"
    | Some (JArray [_]) => "1111111111111111111111111111111111111111111111111111111111111111"
    | _ => "2222222222222222222222222222222222222222222222222222222222222222" end |}.
  intros v. by repeat case_match.
Defined.

Definition repaired_judge : RepairLoopJudgeRunnerInput → outcome thrown (RepairLoopJudgeResult JudgeVerdict) :=
  sample_judge (λ k, if bool_decide (k = 1) then sample_verdict v_repair ["a"; "b"] else sample_verdict v_accept []).

Definition sample_run (input : RunRepairLoopInput) : traced RepairLoopResult :=
  runRepairLoop (H := code_unit_collation) (H0 := length_digest) (λ _, true) input.

Definition repaired_run : traced RepairLoopResult := sample_run (sample_input repaired_judge false 100 None).

(** The guard of the run that stops in time. *)
Definition sample_guard (expected : option jsnum) : RepairLoopBudgetGuard :=
  {| bg_initialGeneratorOutputTokens := Some (num 300); bg_maxGeneratorOutputTokens := Some (num 1000);
     bg_expectedNextOutputTokens := expected; bg_initialGeneratorAttempts := Some (num 1);
     bg_maxGeneratorAttempts := Some (num 2) |}.

(** *** Findings *)

(** The judge fails on the regenerated list, the failure is survived: the list of the
    first iteration is returned with the verdict on the initial list. *)
Theorem soft_failure_keeps_old_verdict :
  match (sample_run (sample_input (λ _, Throw (thrown_error "timeout")) true 100 None)).2 with
  | Ok res => rl_outcome res = ro_needs_review ∧ rl_finalList res = sample_list "round1" ∧
      rl_finalLogicVerdict res = sample_verdict v_repair ["missing_step"] ∧ rl_repairIterationCount res = 0
  | Throw _ => False
  end.
Proof. vm_compute. done. Qed.

(** Without an expectation the projection is half of the limit: with 300 of 1000 tokens
    spent the generator is called, makes 900, and the limit is exceeded. *)
Theorem default_projection_is_exceeded :
  let input := sample_input repaired_judge false 900 (Some (sample_guard None)) in
  regenerations (sample_run input).1 ≠ [] ∧
  over (initial_tokens input + generated input (sample_run input).1) (bg_maxGeneratorOutputTokens (sample_guard None)) = true.
Proof. vm_compute. done. Qed.

(** *** Witnesses *)

Definition result_of (m : traced RepairLoopResult) : RepairLoopResult :=
  match m.2 with
  | Ok res => res
  | Throw _ => loop_result 0 ro_needs_review (initial_loop_state (sample_input repaired_judge false 0 None)) 0
  end.

Lemma accepted_list_was_judged_witness :
  rl_repairIterationCount (result_of repaired_run) = 2 ∧ rl_finalList (result_of repaired_run) = sample_list "round2" ∧
  ∃ req g, rg_iteration req = 2 ∧ in_regenerate (sample_input repaired_judge false 100 None) req = Ok g ∧
    rs_list g = sample_list "round2".
Proof.
  destruct (accepted_list_was_judged (H := code_unit_collation) (H0 := length_digest) (λ _, true)
    (sample_input repaired_judge false 100 None) repaired_run.1 (result_of repaired_run)) as [[E _]|(_ & Hg & _)];
    [vm_compute; reflexivity|vm_compute; reflexivity|exfalso; vm_compute in E; discriminate|].
  split; [vm_compute; reflexivity|]. split; [vm_compute; reflexivity|].
  assert (E1 : rl_repairIterationCount (result_of repaired_run) = 2) by (vm_compute; reflexivity).
  assert (E2 : rl_finalList (result_of repaired_run) = sample_list "round2") by (vm_compute; reflexivity).
  destruct Hg as (req & g & H1 & H2 & H3). exists req, g. rewrite E1 in H1. rewrite E2 in H3. auto.
Defined.

Lemma repair_outcome_is_explained_witness :
  ∃ max, resolveMaxRepairIterations None = Ok max ∧
    Z.of_nat (length (rl_iterations (result_of repaired_run))) = rl_repairIterationCount (result_of repaired_run) + 1.
Proof.
  destruct (repair_outcome_is_explained (H := code_unit_collation) (H0 := length_digest) (λ _, true)
    (sample_input repaired_judge false 100 None) repaired_run.1 (result_of repaired_run))
    as (max & Hm & _ & _ & _ & Hl & _); [vm_compute; reflexivity|]. exists max. split; [exact Hm|exact Hl].
Defined.

Definition guarded_input : RunRepairLoopInput :=
  sample_input (sample_judge (λ k, sample_verdict v_repair (if bool_decide (k = 1) then [] else ["a"]))) false 600
    (Some (sample_guard (Some (num 700)))).

(** The guard stops the loop after one iteration, at the limit of two attempts. *)
Lemma generator_stays_within_guard_witness :
  rl_outcome (result_of (sample_run guarded_input)) = ro_budget_exhausted ∧
  over (initial_tokens guarded_input + generated guarded_input (sample_run guarded_input).1) (Some (num 1000)) = false.
Proof.
  split; [vm_compute; reflexivity|].
  refine (proj2 (generator_stays_within_guard (H := code_unit_collation) (H0 := length_digest) (λ _, true) guarded_input
    (sample_run guarded_input).1 (sample_run guarded_input).2 (sample_guard (Some (num 700))) _ _ _) _).
  - vm_compute; reflexivity.
  - reflexivity.
  - vm_compute. discriminate.
  - apply Forall_forall. intros req Hin.
    assert (E : output_of guarded_input req = 600) by reflexivity. rewrite E. vm_compute. discriminate.
Defined.

Lemma repair_loop_returns_witness : ∃ es res, sample_run (sample_input repaired_judge false 100 None) = (es, Ok res).
Proof.
  apply (repair_loop_returns (H := code_unit_collation) (H0 := length_digest) (λ _, true)
    (sample_input repaired_judge false 100 None)).
  - reflexivity.
  - intros notify r [=].
  - intros req. right. eexists. reflexivity.
  - intros req. right. eexists. reflexivity.
  - intros judge req [=].
  - reflexivity.
  - reflexivity.
  - eexists. reflexivity.
Defined.
