(* ===== verification/CrossFieldEngine.v ===== *)
(** * Cross-field invariants: expressions, registry and test data

    [packages/core-engine/src/cross-field-invariant-engine.ts]: the typed expressions
    over the fields of a form, their evaluation, the registry that checks every
    invariant against its own boundary values, the test data made of these and the
    violations of a valuation.

    A valuation maps the names of the object's own properties. Regular expressions are a
    parameter. Numbers are doubles: texts are read to the nearest one, and every
    arithmetic result is rounded ([Double]). *)

From Stdlib Require Import Ascii.
From S2P Require Import Prelude JsString JsList JsValue.

(** ** Expressions *)

Inductive InvariantNumberExpr : Type :=
| number_lit (value : jsnum)
| field_number (fieldRef : string)
| ne_add (left right : InvariantNumberExpr)
| ne_sub (left right : InvariantNumberExpr)
| ne_mul (left right : InvariantNumberExpr)
| ne_div (left right : InvariantNumberExpr)
| ne_min (left right : InvariantNumberExpr)
| ne_max (left right : InvariantNumberExpr).

Inductive InvariantStringExpr : Type :=
| string_lit (value : string)
| field_string (fieldRef : string).

Inductive InvariantBoolExpr : Type :=
| bool_lit (value : bool)
| be_lt (left right : InvariantNumberExpr)
| be_lte (left right : InvariantNumberExpr)
| be_gt (left right : InvariantNumberExpr)
| be_gte (left right : InvariantNumberExpr)
| eq_number (left right : InvariantNumberExpr) (tolerance : option jsnum)
| eq_string (left right : InvariantStringExpr) (caseInsensitive : bool)
| in_set_string (value : InvariantStringExpr) (set : list string) (caseInsensitive : bool)
| matches_regex (value : InvariantStringExpr) (pattern : string) (flags : option string)
| field_present (fieldRef : string)
| field_absent (fieldRef : string)
| be_and (operands : list InvariantBoolExpr)
| be_or (operands : list InvariantBoolExpr)
| be_not (operand : InvariantBoolExpr)
| be_implies (antecedent consequent : InvariantBoolExpr).

Inductive InvariantError : Type :=
| xe_missing (fieldRef : string)
| xe_not_numeric (fieldRef raw : string)
| xe_literal
| xe_division_by_zero
| xe_tolerance
| xe_pattern (pattern : string)
| xe_id (id : string)
| xe_description
| xe_no_anchor
| xe_unanchored (fieldRef : string)
| xe_one_sided_seeds
| xe_seed_disagrees (label : string)
| xe_only_vacuous
| xe_already_registered (id : string).

Abbreviation checked := (outcome InvariantError).

(** [new RegExp(pattern, flags)] and its [test]; [None] is a [SyntaxError]. *)
Class RegExpEngine := { regexp : string → string → option (string → bool) }.

Abbreviation CrossFieldValuation := (gmap string string).

(** ** Numbers in texts *)

(** The longest run of digits at the start, as a number, its length, and the rest. *)
Fixpoint take_digits (acc : Z) (n : nat) (s : string) : Z * nat * string :=
  match s with
  | String c r =>
      if is_decimal_digit c then take_digits (10 * acc + Z.of_nat (nat_of_ascii c) - 48) (S n) r else (acc, n, s)
  | EmptyString => (acc, n, s)
  end.

(** A sign, and what follows it. *)
Definition take_sign (s : string) : Z * string :=
  match s with
  | String c r => if Ascii.eqb c "-" then (-1, r) else if Ascii.eqb c "+" then (1, r) else (1, s)
  | EmptyString => (1, s)
  end.

(** The exponent part, 0 when there is none. *)
Definition take_exponent (s : string) : Z :=
  match s with
  | String c r =>
      if Ascii.eqb c "e" || Ascii.eqb c "E" then
        let '(sign, r') := take_sign r in
        let '(k, n, _) := take_digits 0 0 r' in
        if (n =? 0)%nat then 0 else sign * k
      else 0
  | EmptyString => 0
  end.

Definition ten_power (k : Z) : Q := if 0 <=? k then inject_Z (10 ^ k) else / inject_Z (10 ^ (- k)).

(** [Number.parseFloat(s)] *)
Definition parseFloat (s : string) : jsnum :=
  let '(sign, r) := take_sign (trim_start s) in
  if starts_with "Infinity" r then (if 0 <? sign then PosInf else NegInf) else
  let '(whole, n, r1) := take_digits 0 0 r in
  let '(digits, m, r2) :=
    match r1 with
    | String c r' => if Ascii.eqb c "." then take_digits whole 0 r' else (whole, 0%nat, r1)
    | EmptyString => (whole, 0%nat, r1)
    end in
  if (n + m =? 0)%nat then NaN
  else Double.round (inject_Z (sign * digits) * ten_power (take_exponent r2 - Z.of_nat m)).

(** ** Evaluation *)

#[local] Open Scope outcome_scope.

Definition requireNumber (raw : option string) (fieldRef : string) : checked jsnum :=
  match raw with
  | None => Throw (xe_missing fieldRef)
  | Some raw => if Number.isFinite (parseFloat raw) then Ok (parseFloat raw) else Throw (xe_not_numeric fieldRef raw)
  end.

Definition requireString (raw : option string) (fieldRef : string) : checked string :=
  match raw with None => Throw (xe_missing fieldRef) | Some raw => Ok raw end.

Fixpoint evaluateNumberExpr (expr : InvariantNumberExpr) (valuation : CrossFieldValuation) : checked jsnum :=
  let both (f : jsnum → jsnum → jsnum) (l r : InvariantNumberExpr) : checked jsnum :=
    let* a := evaluateNumberExpr l valuation in
    let* b := evaluateNumberExpr r valuation in Ok (f a b) in
  match expr with
  | number_lit value => if Number.isFinite value then Ok value else Throw xe_literal
  | field_number ref => requireNumber (valuation !! ref) ref
  | ne_add l r => both Double.add l r
  | ne_sub l r => both Double.sub l r
  | ne_mul l r => both Double.mul l r
  | ne_div l r =>
      let* denom := evaluateNumberExpr r valuation in
      if Number.eqb denom (num 0) then Throw xe_division_by_zero
      else let* a := evaluateNumberExpr l valuation in Ok (Double.div a denom)
  | ne_min l r => both js_min l r
  | ne_max l r => both Double.max l r
  end.

Definition evaluateStringExpr (expr : InvariantStringExpr) (valuation : CrossFieldValuation) : checked string :=
  match expr with
  | string_lit value => Ok value
  | field_string ref => requireString (valuation !! ref) ref
  end.

Record BoolVerdict := { satisfied : bool; vacuous : bool }.

Definition plain (b : bool) : BoolVerdict := {| satisfied := b; vacuous := false |}.

(** A tolerance that is a non-negative finite number. *)
Definition tolerance_value (tolerance : option jsnum) : checked jsnum :=
  let tol := default (num 0) tolerance in
  if Number.ltb tol (num 0) || negb (Number.isFinite tol) then Throw xe_tolerance else Ok tol.

Definition fold_case (caseInsensitive : bool) (s : string) : string := if caseInsensitive then to_lower s else s.

Definition is_nil {A} (l : list A) : bool := match l with [] => true | _ => false end.

(** The loops over the operands of [and] and [or]; [none] tells that there are none. *)
Section operands.
Context (evaluate : InvariantBoolExpr → checked BoolVerdict) (none : bool).

Fixpoint evaluate_all (vacuousAll : bool) (l : list InvariantBoolExpr) : checked BoolVerdict :=
  match l with
  | [] => Ok {| satisfied := true; vacuous := negb none && vacuousAll |}
  | operand :: rest =>
      let* child := evaluate operand in
      if negb (satisfied child) then Ok (plain false) else evaluate_all (vacuousAll && vacuous child) rest
  end.

Fixpoint evaluate_any (vacuousAll : bool) (l : list InvariantBoolExpr) : checked BoolVerdict :=
  match l with
  | [] => Ok {| satisfied := false; vacuous := negb none && vacuousAll |}
  | operand :: rest =>
      let* child := evaluate operand in
      if satisfied child then Ok {| satisfied := true; vacuous := vacuous child |}
      else evaluate_any (vacuousAll && vacuous child) rest
  end.
End operands.

Section evaluation.
Context `{RegExpEngine}.

Fixpoint evaluateBoolExpr (expr : InvariantBoolExpr) (valuation : CrossFieldValuation) : checked BoolVerdict :=
  let compare (test : jsnum → jsnum → bool) (l r : InvariantNumberExpr) : checked BoolVerdict :=
    let* a := evaluateNumberExpr l valuation in
    let* b := evaluateNumberExpr r valuation in Ok (plain (test a b)) in
  match expr with
  | bool_lit b => Ok (plain b)
  | be_lt l r => compare Number.ltb l r
  | be_lte l r => compare Number.leb l r
  | be_gt l r => compare (λ a b, Number.ltb b a) l r
  | be_gte l r => compare (λ a b, Number.leb b a) l r
  | eq_number l r tolerance =>
      let* tol := tolerance_value tolerance in
      compare (λ a b, Number.leb (Double.abs (Double.sub a b)) tol) l r
  | eq_string l r ci =>
      let* a := evaluateStringExpr l valuation in
      let* b := evaluateStringExpr r valuation in
      Ok (plain (bool_decide (fold_case ci a = fold_case ci b)))
  | in_set_string value set ci =>
      let* v := evaluateStringExpr value valuation in
      Ok (plain (existsb (λ entry, bool_decide (fold_case ci entry = fold_case ci v)) set))
  | matches_regex value pattern flags =>
      let* v := evaluateStringExpr value valuation in
      match regexp pattern (default "" flags) with
      | Some test => Ok (plain (test v))
      | None => Throw (xe_pattern pattern)
      end
  | field_present ref => Ok (plain (from_option (λ raw, negb (bool_decide (raw = ""))) false (valuation !! ref)))
  | field_absent ref => Ok (plain (from_option (λ raw, bool_decide (raw = "")) true (valuation !! ref)))
  | be_and operands =>
      evaluate_all (λ operand, evaluateBoolExpr operand valuation) (is_nil operands) true operands
  | be_or operands =>
      evaluate_any (λ operand, evaluateBoolExpr operand valuation) (is_nil operands) true operands
  | be_not operand =>
      let* child := evaluateBoolExpr operand valuation in
      Ok {| satisfied := negb (satisfied child); vacuous := vacuous child |}
  | be_implies antecedent consequent =>
      let* a := evaluateBoolExpr antecedent valuation in
      if negb (satisfied a) then Ok {| satisfied := true; vacuous := true |}
      else let* c := evaluateBoolExpr consequent valuation in Ok (plain (satisfied c))
  end.

Definition evaluateInvariantExpression : InvariantBoolExpr → CrossFieldValuation → checked BoolVerdict := evaluateBoolExpr.
End evaluation.

(** ** The fields of an expression *)

Fixpoint visitNumber (node : InvariantNumberExpr) : list string :=
  match node with
  | number_lit _ => []
  | field_number ref => [ref]
  | ne_add l r | ne_sub l r | ne_mul l r | ne_div l r | ne_min l r | ne_max l r => visitNumber l ++ visitNumber r
  end.

Definition visitString (node : InvariantStringExpr) : list string :=
  match node with string_lit _ => [] | field_string ref => [ref] end.

Fixpoint visitBool (node : InvariantBoolExpr) : list string :=
  match node with
  | bool_lit _ => []
  | be_lt l r | be_lte l r | be_gt l r | be_gte l r | eq_number l r _ => visitNumber l ++ visitNumber r
  | eq_string l r _ => visitString l ++ visitString r
  | in_set_string v _ _ | matches_regex v _ _ => visitString v
  | field_present ref | field_absent ref => [ref]
  | be_and operands | be_or operands => flat_map visitBool operands
  | be_not operand => visitBool operand
  | be_implies a c => visitBool a ++ visitBool c
  end.

Definition collectInvariantFieldRefs `{LocaleCompare} (expression : InvariantBoolExpr) : list string :=
  js_sort localeCompare (set_of (visitBool expression)).

(** ** Invariants *)

Record InvariantCitation := { ic_framework : string; ic_citation : string; ic_url : option string }.

Record FieldAnchor := { fa_screenId : string; fa_elementId : string; fa_fieldRef : string; fa_label : option string }.

Inductive CrossFieldInvariantSeverity : Type := sv_error | sv_warning.

#[export] Instance CrossFieldInvariantSeverity_eq_dec : EqDecision CrossFieldInvariantSeverity.
Proof. solve_decision. Defined.

Record CrossFieldBoundaryAssignment := {
  ba_label : string;
  ba_values : CrossFieldValuation;
  ba_expectedSatisfied : bool;
  ba_rationale : string;
}.

Inductive InvariantScope : Type := sc_screen | sc_wizard.

Record CrossFieldInvariant := {
  cfi_id : string;
  cfi_scope : InvariantScope;
  cfi_description : string;
  cfi_expression : InvariantBoolExpr;
  cfi_severity : CrossFieldInvariantSeverity;
  cfi_citation : InvariantCitation;
  cfi_anchors : list FieldAnchor;
  cfi_bvaSeeds : list CrossFieldBoundaryAssignment;
  cfi_source : string;
}.

(** [ID_RE] *)
Definition id_char (c : ascii) : bool :=
  let n := nat_of_ascii c in ((65 <=? n) && (n <=? 90) || (48 <=? n) && (n <=? 57) || (n =? 45))%nat.
Definition id_ok (id : string) : bool :=
  match strip_prefix "XINV-" id with
  | Some r => (1 <=? String.length r)%nat && (String.length r <=? 40)%nat && all_chars id_char r
  | None => false
  end.

(** ** The registry *)

Section registry.
Context `{LocaleCompare} `{RegExpEngine}.

(** One boundary value: its verdict is the declared one; tells whether it is a positive
    one that is not vacuous. *)
Definition check_seed (expression : InvariantBoolExpr) (seen : bool) (seed : CrossFieldBoundaryAssignment) :
    checked bool :=
  let* verdict := evaluateInvariantExpression expression (ba_values seed) in
  if negb (eqb (satisfied verdict) (ba_expectedSatisfied seed)) then Throw (xe_seed_disagrees (ba_label seed))
  else Ok (seen || (ba_expectedSatisfied seed && negb (vacuous verdict))).

Definition check_anchors (invariant : CrossFieldInvariant) : checked unit :=
  outcome_foldl (λ _ ref, guard_throw (negb (bool_decide (ref ∈ fa_fieldRef <$> cfi_anchors invariant))) (xe_unanchored ref))
    tt (set_of (collectInvariantFieldRefs (cfi_expression invariant))).

Definition validateInvariant (invariant : CrossFieldInvariant) : checked unit :=
  guard_throw (negb (id_ok (cfi_id invariant))) (xe_id (cfi_id invariant)) ;;;
  guard_throw (is_blank (cfi_description invariant)) xe_description ;;;
  guard_throw (bool_decide (cfi_anchors invariant = [])) xe_no_anchor ;;;
  check_anchors invariant ;;;
  guard_throw (negb (existsb ba_expectedSatisfied (cfi_bvaSeeds invariant) &&
                     existsb (negb ∘ ba_expectedSatisfied) (cfi_bvaSeeds invariant))) xe_one_sided_seeds ;;;
  let* nonVacuousPositiveSeen := outcome_foldl (check_seed (cfi_expression invariant)) false (cfi_bvaSeeds invariant) in
  guard_throw (negb nonVacuousPositiveSeen) xe_only_vacuous.

(** [byId]: a [Map]. *)
Definition CrossFieldInvariantRegistry : Type := list (string * CrossFieldInvariant).

Definition createCrossFieldInvariantRegistry : CrossFieldInvariantRegistry := [].

Definition register (invariant : CrossFieldInvariant) (byId : CrossFieldInvariantRegistry) :
    checked CrossFieldInvariantRegistry :=
  validateInvariant invariant ;;;
  guard_throw (map_has (cfi_id invariant) byId) (xe_already_registered (cfi_id invariant)) ;;;
  Ok (map_set (cfi_id invariant) invariant byId).

Definition by_id : CrossFieldInvariant → CrossFieldInvariant → comparison := cmp_on cfi_id localeCompare.

Definition registry_list (byId : CrossFieldInvariantRegistry) : list CrossFieldInvariant := js_sort by_id (byId.*2).

Definition registry_ids (byId : CrossFieldInvariantRegistry) : list string := js_sort localeCompare (byId.*1).

Definition byScreen (byId : CrossFieldInvariantRegistry) (screenId : string) : list CrossFieldInvariant :=
  js_sort by_id (filter (λ i, existsb (λ a, bool_decide (fa_screenId a = screenId)) (cfi_anchors i) = true) (byId.*2)).
End registry.

(** ** Test data *)

Inductive OracleCategory : Type := cross_field_positive | cross_field_negative.

Record CrossFieldOracleValue := {
  ov_invariantId : string;
  ov_label : string;
  ov_category : OracleCategory;
  ov_values : CrossFieldValuation;
  ov_anchors : list FieldAnchor;
  ov_rationale : string;
}.

Definition oracle_value (invariant : CrossFieldInvariant) (seed : CrossFieldBoundaryAssignment) : CrossFieldOracleValue :=
  {| ov_invariantId := cfi_id invariant; ov_label := ba_label seed;
     ov_category := if ba_expectedSatisfied seed then cross_field_positive else cross_field_negative;
     ov_values := ba_values seed; ov_anchors := cfi_anchors invariant; ov_rationale := ba_rationale seed |}.

Definition category_rank (v : CrossFieldOracleValue) : Z :=
  match ov_category v with cross_field_positive => 0 | cross_field_negative => 1 end.

Definition synthesizeCrossFieldTestData `{LocaleCompare} (invariant : CrossFieldInvariant) : list CrossFieldOracleValue :=
  js_sort (cmp_then (cmp_on category_rank Z.compare) (cmp_on ov_label localeCompare))
    (oracle_value invariant <$> cfi_bvaSeeds invariant).

(** ** Violations *)

Record CrossFieldInvariantViolation := {
  cv_invariantId : string;
  cv_screenId : string;
  cv_elementId : string;
  cv_fieldRef : string;
  cv_path : string;
  cv_severity : CrossFieldInvariantSeverity;
  cv_message : string;
  cv_citation : InvariantCitation;
  cv_source : string;
}.

Record CrossFieldEvaluationResult := {
  cr_invariantId : string;
  cr_satisfied : bool;
  cr_vacuous : bool;
  cr_anchors : list FieldAnchor;
}.

Definition violation (invariant : CrossFieldInvariant) (anchor : FieldAnchor) : CrossFieldInvariantViolation :=
  {| cv_invariantId := cfi_id invariant; cv_screenId := fa_screenId anchor; cv_elementId := fa_elementId anchor;
     cv_fieldRef := fa_fieldRef anchor;
     cv_path := "screens[" +:+ fa_screenId anchor +:+ "].elements[" +:+ fa_elementId anchor +:+ "]";
     cv_severity := cfi_severity invariant; cv_message := cfi_id invariant +:+ ": " +:+ cfi_description invariant;
     cv_citation := cfi_citation invariant; cv_source := cfi_source invariant |}.

Definition evaluateValuationAgainstInvariant `{RegExpEngine} (invariant : CrossFieldInvariant)
    (valuation : CrossFieldValuation) : checked (CrossFieldEvaluationResult * list CrossFieldInvariantViolation) :=
  let* verdict := evaluateInvariantExpression (cfi_expression invariant) valuation in
  Ok ({| cr_invariantId := cfi_id invariant; cr_satisfied := satisfied verdict; cr_vacuous := vacuous verdict;
         cr_anchors := cfi_anchors invariant |},
      if satisfied verdict then [] else violation invariant <$> cfi_anchors invariant).
