(* ===== verification/CrossFieldRegistry.v ===== *)
(** * The catalogue of cross-field invariants

    [packages/core-engine/src/cross-field-invariant-registry.ts]: the banking and
    insurance invariants as they are built, and the registry that is made of them.
    Characters outside ASCII stand for their UTF-8 bytes; no text with one is compared
    with another. *)

From S2P Require Import Prelude JsString JsList JsValue CrossFieldEngine.

Definition SOURCE : string := "Issue #2110 (registered)".

Definition cite (framework citation : string) (url : option string) : InvariantCitation :=
  {| ic_framework := framework; ic_citation := citation; ic_url := url |}.
Definition anchor (screenId elementId fieldRef : string) (label : option string) : FieldAnchor :=
  {| fa_screenId := screenId; fa_elementId := elementId; fa_fieldRef := fieldRef; fa_label := label |}.
Definition seed (label : string) (values : list (string * string)) (expectedSatisfied : bool) (rationale : string) :
    CrossFieldBoundaryAssignment :=
  {| ba_label := label; ba_values := list_to_map values; ba_expectedSatisfied := expectedSatisfied; ba_rationale := rationale |}.

Definition buildKonsumentenkreditDtiInvariant : CrossFieldInvariant :=
  {| cfi_id := "XINV-BANK-DTI-01"; cfi_scope := sc_screen;
     cfi_description :=
       "Konsumentenkredit: annualised monthly rate (rate × 12) must not exceed 60 % of declared gross annual income.";
     cfi_expression :=
       be_lte (ne_mul (field_number "monthly_rate") (number_lit (num 12))) (ne_mul (number_lit (Double.round (3 # 5))) (field_number "jahresbrutto"));
     cfi_severity := sv_error;
     cfi_citation := cite "Verbraucherkreditrichtlinie / BaFin"
       "Directive 2008/48/EC Article 8 (creditworthiness) + BaFin MaRisk BTO 1.2 (Schuldendienst-Tragfähigkeit)"
       (Some "https://eur-lex.europa.eu/eli/dir/2008/48/oj");
     cfi_anchors := [anchor "konsumentenkredit-antrag" "fld-monthly-rate" "monthly_rate" (Some "Monatliche Rate");
       anchor "konsumentenkredit-antrag" "fld-jahresbrutto" "jahresbrutto" (Some "Jahresbrutto")];
     cfi_bvaSeeds := [seed "DTI well below cap (positive)"
         [("monthly_rate", "1500"); ("jahresbrutto", "60000")] true
         "1500 × 12 = 18000 ≤ 0.6 × 60000 = 36000";
       seed "DTI exactly at 60 % cap (positive boundary)"
         [("monthly_rate", "3000"); ("jahresbrutto", "60000")] true
         "3000 × 12 = 36000 = 0.6 × 60000 — boundary admitted";
       seed "DTI just above 60 % cap (negative boundary)"
         [("monthly_rate", "3001"); ("jahresbrutto", "60000")] false
         "3001 × 12 = 36012 > 0.6 × 60000 = 36000"];
     cfi_source := SOURCE |}.

Definition buildMortgageLtvInvariant : CrossFieldInvariant :=
  {| cfi_id := "XINV-BANK-LTV-01"; cfi_scope := sc_screen;
     cfi_description :=
       "Baufinanzierung: requested loan amount must not exceed 80 % of declared property value (LTV cap).";
     cfi_expression :=
       be_lte (field_number "loan_amount") (ne_mul (number_lit (Double.round (4 # 5))) (field_number "property_value"));
     cfi_severity := sv_warning;
     cfi_citation := cite "BaFin / KWG"
       "BaFin Wohnimmobilienkreditrichtlinie + KWG § 18a (Beleihungswert) — 80 % LTV soft cap"
       (Some "https://www.gesetze-im-internet.de/kwg/__18a.html");
     cfi_anchors := [anchor "baufinanzierung-antrag" "fld-loan-amount" "loan_amount" (Some "Darlehensbetrag");
       anchor "baufinanzierung-antrag" "fld-property-value" "property_value" (Some "Beleihungswert")];
     cfi_bvaSeeds := [seed "LTV at 70 % (positive)"
         [("loan_amount", "210000"); ("property_value", "300000")] true
         "210000 ≤ 0.8 × 300000 = 240000";
       seed "LTV at 80 % cap (positive boundary)"
         [("loan_amount", "240000"); ("property_value", "300000")] true
         "240000 = 0.8 × 300000 — boundary admitted";
       seed "LTV at 81 % (negative)"
         [("loan_amount", "243000"); ("property_value", "300000")] false
         "243000 > 0.8 × 300000 = 240000"];
     cfi_source := SOURCE |}.

Definition buildMifidComplexExperienceInvariant : CrossFieldInvariant :=
  {| cfi_id := "XINV-BANK-CFD-EXP-01"; cfi_scope := sc_wizard;
     cfi_description :=
       "MiFID II appropriateness: complex/leveraged product orders require declared experienced-investor status.";
     cfi_expression :=
       be_implies (in_set_string (field_string "product_family") ["cfd"; "warrant"; "leveraged_etf"; "knock_out"] true)
         (eq_string (field_string "investor_experience") (string_lit "experienced") true);
     cfi_severity := sv_error;
     cfi_citation := cite "MiFID II"
       "Directive 2014/65/EU Article 25(3) + Delegated Regulation 2017/565 Article 56"
       (Some "https://eur-lex.europa.eu/eli/dir/2014/65/oj");
     cfi_anchors := [anchor "mifid-wertpapier-order" "fld-product-family" "product_family" (Some "Produktart");
       anchor "mifid-wertpapier-order" "fld-investor-experience" "investor_experience" (Some "Anlegererfahrung")];
     cfi_bvaSeeds := [seed "Plain ETF + novice (positive — antecedent false vacuous)"
         [("product_family", "etf"); ("investor_experience", "novice")] true
         "ETF is not in the complex set; rule is vacuously satisfied";
       seed "CFD + experienced (positive)"
         [("product_family", "cfd"); ("investor_experience", "experienced")] true
         "Complex product paired with experienced status";
       seed "CFD + novice (negative)"
         [("product_family", "cfd"); ("investor_experience", "novice")] false
         "Article 25(3) bars execution-only on complex product without appropriateness"];
     cfi_source := SOURCE |}.

Definition buildFatcaResidencyInvariant : CrossFieldInvariant :=
  {| cfi_id := "XINV-BANK-FATCA-01"; cfi_scope := sc_screen;
     cfi_description :=
       "FATCA: customers with US tax residency must declare a non-empty FATCA status before account opening.";
     cfi_expression :=
       be_implies (eq_string (field_string "tax_residency") (string_lit "US") true)
         (field_present "fatca_status");
     cfi_severity := sv_error;
     cfi_citation := cite "FATCA / IGA"
       "USA Foreign Account Tax Compliance Act + Germany–USA IGA Article 4 (reportable accounts)"
       (Some "https://www.bzst.de/DE/Unternehmen/Internationales/FATCA/fatca_node.html");
     cfi_anchors := [anchor "konto-kyc" "fld-tax-residency" "tax_residency" (Some "Steueransässigkeit");
       anchor "konto-kyc" "fld-fatca-status" "fatca_status" (Some "FATCA-Status")];
     cfi_bvaSeeds := [seed "DE residency (positive — vacuous)"
         [("tax_residency", "DE"); ("fatca_status", "")] true
         "Non-US residency; FATCA status not required";
       seed "US residency + status (positive)"
         [("tax_residency", "US"); ("fatca_status", "us_person_w9")] true
         "US residency paired with declared FATCA status";
       seed "US residency without status (negative)"
         [("tax_residency", "US"); ("fatca_status", "")] false
         "US residency must carry a FATCA-status declaration"];
     cfi_source := SOURCE |}.

Definition buildPsd2ScaThresholdInvariant : CrossFieldInvariant :=
  {| cfi_id := "XINV-BANK-SCA-AMT-01"; cfi_scope := sc_screen;
     cfi_description :=
       "PSD2 SCA: electronic payments above the 30 EUR low-value exemption must declare a strong-customer-authentication method.";
     cfi_expression :=
       be_implies (be_gt (field_number "payment_amount_eur") (number_lit (num 30)))
         (field_present "sca_method");
     cfi_severity := sv_error;
     cfi_citation := cite "PSD2"
       "Commission Delegated Regulation 2018/389 (RTS on SCA) Article 16 (low-value exemption)"
       (Some "https://eur-lex.europa.eu/eli/reg_del/2018/389/oj");
     cfi_anchors := [anchor "sepa-ueberweisung" "fld-payment-amount" "payment_amount_eur" (Some "Betrag (EUR)");
       anchor "sepa-ueberweisung" "fld-sca-method" "sca_method" (Some "SCA-Verfahren")];
     cfi_bvaSeeds := [seed "Below low-value exemption (positive — vacuous)"
         [("payment_amount_eur", "25.00"); ("sca_method", "")] true
         "25 EUR ≤ 30 EUR exemption; SCA not required";
       seed "At exemption boundary (positive — vacuous)"
         [("payment_amount_eur", "30.00"); ("sca_method", "")] true
         "30 EUR = low-value exemption boundary; SCA not required";
       seed "Above exemption with SCA (positive)"
         [("payment_amount_eur", "30.01"); ("sca_method", "pushtan")] true
         "Just above the boundary, SCA method declared";
       seed "Above exemption without SCA (negative)"
         [("payment_amount_eur", "100.00"); ("sca_method", "")] false
         "100 EUR > 30 EUR exemption and no SCA method declared"];
     cfi_source := SOURCE |}.

Definition buildIbanCurrencyInvariant : CrossFieldInvariant :=
  {| cfi_id := "XINV-BANK-IBAN-CCY-01"; cfi_scope := sc_screen;
     cfi_description :=
       "SEPA: an IBAN starting with `DE` (or `AT`, `LU`, `NL`) must pair with EUR as the transfer currency.";
     cfi_expression :=
       be_implies (matches_regex (field_string "iban") "^(DE|AT|LU|NL)\d" None)
         (eq_string (field_string "currency") (string_lit "EUR") false);
     cfi_severity := sv_error;
     cfi_citation := cite "SEPA Regulation"
       "Regulation (EU) 260/2012 Article 5 (SEPA technical requirements)"
       (Some "https://eur-lex.europa.eu/eli/reg/2012/260/oj");
     cfi_anchors := [anchor "sepa-ueberweisung" "fld-iban" "iban" (Some "IBAN Empfänger");
       anchor "sepa-ueberweisung" "fld-currency" "currency" (Some "Währung")];
     cfi_bvaSeeds := [seed "DE IBAN + EUR (positive)"
         [("iban", "DE89370400440532013000"); ("currency", "EUR")] true
         "Matched antecedent and matched consequent";
       seed "GB IBAN + GBP (positive — vacuous)"
         [("iban", "GB29NWBK60161331926819"); ("currency", "GBP")] true
         "Antecedent does not match; rule vacuous";
       seed "AT IBAN + USD (negative)"
         [("iban", "AT611904300234573201"); ("currency", "USD")] false
         "AT IBAN must pair with EUR per SEPA"];
     cfi_source := SOURCE |}.

Definition buildMifidRiskSuitabilityInvariant : CrossFieldInvariant :=
  {| cfi_id := "XINV-BANK-RISK-SUITAB-01"; cfi_scope := sc_wizard;
     cfi_description :=
       "MiFID II suitability: securities orders on risk-class 5+ products require a completed suitability assessment.";
     cfi_expression :=
       be_implies (be_gte (field_number "product_risk_class") (number_lit (num 5)))
         (eq_string (field_string "suitability_completed") (string_lit "yes") true);
     cfi_severity := sv_error;
     cfi_citation := cite "MiFID II"
       "Directive 2014/65/EU Article 25(2)"
       (Some "https://eur-lex.europa.eu/eli/dir/2014/65/oj");
     cfi_anchors := [anchor "mifid-wertpapier-order" "fld-product-risk-class" "product_risk_class" (Some "Risikoklasse");
       anchor "mifid-wertpapier-order" "fld-suitability-completed" "suitability_completed" (Some "Geeignetheitsprüfung")];
     cfi_bvaSeeds := [seed "Risk-class 4 + no suitability (positive — vacuous)"
         [("product_risk_class", "4"); ("suitability_completed", "no")] true
         "Below 5; suitability not strictly required";
       seed "Risk-class 5 + suitability done (positive)"
         [("product_risk_class", "5"); ("suitability_completed", "yes")] true
         "Boundary risk class with completed suitability";
       seed "Risk-class 7 without suitability (negative)"
         [("product_risk_class", "7"); ("suitability_completed", "no")] false
         "Article 25(2) blocks execution without suitability"];
     cfi_source := SOURCE |}.

Definition buildDailyLimitInvariant : CrossFieldInvariant :=
  {| cfi_id := "XINV-BANK-DAILY-LIMIT-01"; cfi_scope := sc_screen;
     cfi_description :=
       "Online-banking transfer: requested amount plus already-cumulated daily transfers must not exceed the customer's daily limit.";
     cfi_expression :=
       be_lte (ne_add (field_number "transfer_amount") (field_number "cumulative_today")) (field_number "daily_limit");
     cfi_severity := sv_error;
     cfi_citation := cite "BaFin / Bank General Terms"
       "Customer-specific Tageslimit per Bank-AGB Section 11; AMLD Article 11(c) requires linked-transaction aggregation"
       (Some "https://eur-lex.europa.eu/eli/dir/2015/849/oj");
     cfi_anchors := [anchor "online-banking-transfer" "fld-transfer-amount" "transfer_amount" (Some "Überweisungsbetrag");
       anchor "online-banking-transfer" "fld-cumulative-today" "cumulative_today" (Some "Heutige Tagessumme");
       anchor "online-banking-transfer" "fld-daily-limit" "daily_limit" (Some "Tageslimit")];
     cfi_bvaSeeds := [seed "Within limit (positive)"
         [("transfer_amount", "200"); ("cumulative_today", "300"); ("daily_limit", "1000")] true
         "200 + 300 = 500 ≤ 1000";
       seed "Exactly at limit (positive boundary)"
         [("transfer_amount", "700"); ("cumulative_today", "300"); ("daily_limit", "1000")] true
         "700 + 300 = 1000 = limit";
       seed "Just over limit (negative boundary)"
         [("transfer_amount", "701"); ("cumulative_today", "300"); ("daily_limit", "1000")] false
         "701 + 300 = 1001 > 1000"];
     cfi_source := SOURCE |}.

Definition buildOverdraftCapInvariant : CrossFieldInvariant :=
  {| cfi_id := "XINV-BANK-OVERDRAFT-01"; cfi_scope := sc_screen;
     cfi_description :=
       "Dispokredit: requested overdraft line must not exceed 3 × monthly net income (industry standard ceiling).";
     cfi_expression :=
       be_lte (field_number "requested_overdraft") (ne_mul (number_lit (num 3)) (field_number "monthly_net_income"));
     cfi_severity := sv_warning;
     cfi_citation := cite "BaFin MaRisk"
       "BaFin MaRisk BTO 1.2 + Bundesbank Schuldendienstleitfaden — 3 × Nettoeinkommen Dispolimit"
       (Some "https://www.bafin.de/SharedDocs/Veroeffentlichungen/DE/Rundschreiben/2017/rs_1710_marisk_ba.html");
     cfi_anchors := [anchor "dispokredit-antrag" "fld-requested-overdraft" "requested_overdraft" (Some "Beantragter Dispokredit");
       anchor "dispokredit-antrag" "fld-monthly-net-income" "monthly_net_income" (Some "Monatliches Nettoeinkommen")];
     cfi_bvaSeeds := [seed "Below cap (positive)"
         [("requested_overdraft", "5000"); ("monthly_net_income", "2500")] true
         "5000 ≤ 3 × 2500 = 7500";
       seed "At cap (positive boundary)"
         [("requested_overdraft", "7500"); ("monthly_net_income", "2500")] true
         "7500 = 3 × 2500";
       seed "Above cap (negative)"
         [("requested_overdraft", "8000"); ("monthly_net_income", "2500")] false
         "8000 > 3 × 2500 = 7500"];
     cfi_source := SOURCE |}.

Definition buildAccountAgeGateInvariant : CrossFieldInvariant :=
  {| cfi_id := "XINV-BANK-AGE-GATE-01"; cfi_scope := sc_wizard;
     cfi_description :=
       "Account opening: applicants under 18 must declare a legal guardian; full contractual capacity otherwise required.";
     cfi_expression :=
       be_or [be_gte (field_number "applicant_age_years") (number_lit (num 18)); field_present "guardian_consent_id"];
     cfi_severity := sv_error;
     cfi_citation := cite "BGB"
       "BGB §§ 104-113 (Geschäftsfähigkeit)"
       (Some "https://www.gesetze-im-internet.de/bgb/__104.html");
     cfi_anchors := [anchor "konto-kyc" "fld-applicant-age-years" "applicant_age_years" (Some "Alter Antragsteller");
       anchor "konto-kyc" "fld-guardian-consent-id" "guardian_consent_id" (Some "Einverständnis Erziehungsberechtigter")];
     cfi_bvaSeeds := [seed "Adult applicant (positive)"
         [("applicant_age_years", "30"); ("guardian_consent_id", "")] true
         "Adult; guardian id not required";
       seed "Boundary 18 (positive boundary)"
         [("applicant_age_years", "18"); ("guardian_consent_id", "")] true
         "Exactly 18 — full Geschäftsfähigkeit";
       seed "Minor with guardian (positive)"
         [("applicant_age_years", "16"); ("guardian_consent_id", "g-12345")] true
         "Minor permitted with declared guardian consent";
       seed "Minor without guardian (negative)"
         [("applicant_age_years", "16"); ("guardian_consent_id", "")] false
         "Minor requires Einverständnis des Erziehungsberechtigten"];
     cfi_source := SOURCE |}.

Definition buildSepaInstantCeilingInvariant : CrossFieldInvariant :=
  {| cfi_id := "XINV-BANK-SEPA-INSTANT-01"; cfi_scope := sc_screen;
     cfi_description :=
       "SEPA Instant Credit Transfer (rulebook 2023): transfer mode `instant` may not exceed 100 000 EUR per transaction.";
     cfi_expression :=
       be_implies (eq_string (field_string "transfer_mode") (string_lit "instant") true)
         (be_lte (field_number "payment_amount_eur") (number_lit (num 100000)));
     cfi_severity := sv_error;
     cfi_citation := cite "EPC SEPA Instant Credit Transfer"
       "EPC SCT Inst Rulebook 2023 Section 5.6 (transaction ceiling)"
       (Some "https://www.europeanpaymentscouncil.eu/document-library/rulebooks/2023-sepa-instant-credit-transfer-rulebook");
     cfi_anchors := [anchor "sepa-ueberweisung" "fld-transfer-mode" "transfer_mode" (Some "Überweisungsmodus");
       anchor "sepa-ueberweisung" "fld-payment-amount" "payment_amount_eur" (Some "Betrag (EUR)")];
     cfi_bvaSeeds := [seed "Standard mode at 250k (positive — vacuous)"
         [("transfer_mode", "standard"); ("payment_amount_eur", "250000")] true
         "Mode is not instant; ceiling does not apply";
       seed "Instant at ceiling (positive boundary)"
         [("transfer_mode", "instant"); ("payment_amount_eur", "100000")] true
         "Equal to 100 000 EUR ceiling";
       seed "Instant above ceiling (negative)"
         [("transfer_mode", "instant"); ("payment_amount_eur", "100000.01")] false
         "Above the SEPA Instant ceiling"];
     cfi_source := SOURCE |}.

Definition buildPepEddInvariant : CrossFieldInvariant :=
  {| cfi_id := "XINV-BANK-PEP-EDD-01"; cfi_scope := sc_wizard;
     cfi_description :=
       "GwG enhanced due diligence: customers flagged as politically exposed persons require completed EDD before account activation.";
     cfi_expression :=
       be_implies (eq_string (field_string "pep_flag") (string_lit "yes") true)
         (eq_string (field_string "edd_completed") (string_lit "yes") true);
     cfi_severity := sv_error;
     cfi_citation := cite "GwG / 5AMLD"
       "GwG § 15 + Directive (EU) 2018/843 Article 20"
       (Some "https://www.gesetze-im-internet.de/gwg_2017/__15.html");
     cfi_anchors := [anchor "konto-kyc" "fld-pep-flag" "pep_flag" (Some "PEP-Status");
       anchor "konto-kyc" "fld-edd-completed" "edd_completed" (Some "Verstärkte Sorgfaltspflichten abgeschlossen")];
     cfi_bvaSeeds := [seed "Non-PEP (positive — vacuous)"
         [("pep_flag", "no"); ("edd_completed", "no")] true
         "Customer is not a PEP; EDD not required";
       seed "PEP with EDD (positive)"
         [("pep_flag", "yes"); ("edd_completed", "yes")] true
         "PEP flagged and EDD completed";
       seed "PEP without EDD (negative)"
         [("pep_flag", "yes"); ("edd_completed", "no")] false
         "GwG § 15 requires EDD before activation"];
     cfi_source := SOURCE |}.

Definition buildFxMarginDisclosureInvariant : CrossFieldInvariant :=
  {| cfi_id := "XINV-BANK-FX-DISC-01"; cfi_scope := sc_screen;
     cfi_description :=
       "Cross-currency payment: when source and destination currencies differ, the FX margin disclosure flag must be set.";
     cfi_expression :=
       be_implies (be_not (eq_string (field_string "currency_source") (field_string "currency_destination") true))
         (eq_string (field_string "fx_margin_disclosed") (string_lit "yes") true);
     cfi_severity := sv_warning;
     cfi_citation := cite "Cross-Border Payments Regulation"
       "Regulation (EU) 2019/518 Article 3a + PSD2 Article 45"
       (Some "https://eur-lex.europa.eu/eli/reg/2019/518/oj");
     cfi_anchors := [anchor "auslandsueberweisung" "fld-currency-source" "currency_source" (Some "Ausgangswährung");
       anchor "auslandsueberweisung" "fld-currency-destination" "currency_destination" (Some "Zielwährung");
       anchor "auslandsueberweisung" "fld-fx-margin-disclosed" "fx_margin_disclosed" (Some "FX-Aufschlag offengelegt")];
     cfi_bvaSeeds := [seed "EUR → EUR no markup (positive — vacuous)"
         [("currency_source", "EUR"); ("currency_destination", "EUR"); ("fx_margin_disclosed", "no")] true
         "Same-currency payment; margin disclosure not required";
       seed "EUR → USD with disclosure (positive)"
         [("currency_source", "EUR"); ("currency_destination", "USD"); ("fx_margin_disclosed", "yes")] true
         "Cross-currency with disclosed margin";
       seed "EUR → USD without disclosure (negative)"
         [("currency_source", "EUR"); ("currency_destination", "USD"); ("fx_margin_disclosed", "no")] false
         "Regulation 2019/518 Article 3a mandates disclosure"];
     cfi_source := SOURCE |}.

Definition buildCrsSelfCertificationInvariant : CrossFieldInvariant :=
  {| cfi_id := "XINV-BANK-CRS-01"; cfi_scope := sc_wizard;
     cfi_description :=
       "Common Reporting Standard: customers with a tax residency outside Germany must complete CRS self-certification.";
     cfi_expression :=
       be_implies (be_not (eq_string (field_string "tax_residency") (string_lit "DE") false))
         (eq_string (field_string "crs_self_certified") (string_lit "yes") true);
     cfi_severity := sv_error;
     cfi_citation := cite "OECD CRS / EU DAC2"
       "OECD Common Reporting Standard + Council Directive 2014/107/EU (DAC2) Article 1"
       (Some "https://eur-lex.europa.eu/eli/dir/2014/107/oj");
     cfi_anchors := [anchor "konto-kyc" "fld-tax-residency" "tax_residency" (Some "Steueransässigkeit");
       anchor "konto-kyc" "fld-crs-self-certified" "crs_self_certified" (Some "CRS-Selbstauskunft")];
     cfi_bvaSeeds := [seed "DE residency (positive — vacuous)"
         [("tax_residency", "DE"); ("crs_self_certified", "no")] true
         "Domestic residency; CRS self-certification not required";
       seed "FR residency + certified (positive)"
         [("tax_residency", "FR"); ("crs_self_certified", "yes")] true
         "Non-DE residency with completed self-certification";
       seed "FR residency uncertified (negative)"
         [("tax_residency", "FR"); ("crs_self_certified", "no")] false
         "DAC2 Article 1 requires CRS self-certification"];
     cfi_source := SOURCE |}.

Definition buildMifidCostsAckInvariant : CrossFieldInvariant :=
  {| cfi_id := "XINV-BANK-COSTS-ACK-01"; cfi_scope := sc_wizard;
     cfi_description :=
       "MiFID II ex-ante costs and charges: the customer must acknowledge the disclosure before order submission.";
     cfi_expression :=
       be_implies (field_present "order_submitted_at")
         (eq_string (field_string "costs_disclosure_acked") (string_lit "yes") true);
     cfi_severity := sv_error;
     cfi_citation := cite "MiFID II"
       "Directive 2014/65/EU Article 24(4) + Delegated Regulation 2017/565 Article 50"
       (Some "https://eur-lex.europa.eu/eli/reg_del/2017/565/oj");
     cfi_anchors := [anchor "mifid-wertpapier-order" "fld-order-submitted-at" "order_submitted_at" (Some "Order Submitted");
       anchor "mifid-wertpapier-order" "fld-costs-disclosure-acked" "costs_disclosure_acked" (Some "Kostenausweis bestätigt")];
     cfi_bvaSeeds := [seed "Order draft (positive — vacuous)"
         [("order_submitted_at", ""); ("costs_disclosure_acked", "no")] true
         "Order not yet submitted; disclosure ack not required";
       seed "Submitted with ack (positive)"
         [("order_submitted_at", "2026-05-09T10:00:00Z"); ("costs_disclosure_acked", "yes")] true
         "Order submitted after disclosure ack";
       seed "Submitted without ack (negative)"
         [("order_submitted_at", "2026-05-09T10:00:00Z"); ("costs_disclosure_acked", "no")] false
         "Article 24(4) bars submission without disclosure ack"];
     cfi_source := SOURCE |}.

Definition buildInsuranceCoverageLeadInvariant : CrossFieldInvariant :=
  {| cfi_id := "XINV-INS-COVER-LEAD-01"; cfi_scope := sc_screen;
     cfi_description :=
       "Insurance contract: declared coverage start must lead the contract signing date by at least one calendar day.";
     cfi_expression :=
       be_gte (field_number "lead_time_days") (number_lit (num 1));
     cfi_severity := sv_error;
     cfi_citation := cite "VVG"
       "VVG §§ 1, 7 (Versicherungsbeginn / Vertragsabschluss)"
       (Some "https://www.gesetze-im-internet.de/vvg/__7.html");
     cfi_anchors := [anchor "lv-vertragsabschluss" "fld-lead-time-days" "lead_time_days" (Some "Vorlauftage Versicherungsbeginn")];
     cfi_bvaSeeds := [seed "1 day lead (positive boundary)"
         [("lead_time_days", "1")] true
         "Boundary lead time admitted";
       seed "30 days lead (positive)"
         [("lead_time_days", "30")] true
         "Comfortable lead time";
       seed "Same-day start (negative)"
         [("lead_time_days", "0")] false
         "Coverage start must follow signing by at least one day"];
     cfi_source := SOURCE |}.

Definition buildIddDemandsNeedsInvariant : CrossFieldInvariant :=
  {| cfi_id := "XINV-INS-IDD-DEMANDS-01"; cfi_scope := sc_wizard;
     cfi_description :=
       "IDD distribution: an insurance contract conclusion must follow a completed demands-and-needs assessment.";
     cfi_expression :=
       be_implies (eq_string (field_string "contract_concluded") (string_lit "yes") true)
         (eq_string (field_string "demands_needs_completed") (string_lit "yes") true);
     cfi_severity := sv_error;
     cfi_citation := cite "IDD"
       "Directive (EU) 2016/97 Article 20(1)"
       (Some "https://eur-lex.europa.eu/eli/dir/2016/97/oj");
     cfi_anchors := [anchor "lv-vertragsabschluss" "fld-contract-concluded" "contract_concluded" (Some "Vertrag abgeschlossen");
       anchor "lv-vertragsabschluss" "fld-demands-needs-completed" "demands_needs_completed" (Some "Wünsche und Bedürfnisse erfasst")];
     cfi_bvaSeeds := [seed "Quote stage only (positive — vacuous)"
         [("contract_concluded", "no"); ("demands_needs_completed", "no")] true
         "No conclusion; demands-and-needs not yet required";
       seed "Concluded with assessment (positive)"
         [("contract_concluded", "yes"); ("demands_needs_completed", "yes")] true
         "Contract concluded after demands-and-needs assessment";
       seed "Concluded without assessment (negative)"
         [("contract_concluded", "yes"); ("demands_needs_completed", "no")] false
         "Article 20(1) prohibits conclusion without assessment"];
     cfi_source := SOURCE |}.

Definition buildDmdCoolingOffInvariant : CrossFieldInvariant :=
  {| cfi_id := "XINV-INS-COOLOFF-01"; cfi_scope := sc_screen;
     cfi_description :=
       "Distance Marketing of Financial Services: long-term insurance contracts must declare a cooling-off period of at least 14 days (30 for life).";
     cfi_expression :=
       be_and [be_implies (eq_string (field_string "product_kind") (string_lit "life") true)
         (be_gte (field_number "cooloff_days") (number_lit (num 30))); be_gte (field_number "cooloff_days") (number_lit (num 14))];
     cfi_severity := sv_warning;
     cfi_citation := cite "DMD / Solvency II"
       "Directive 2002/65/EC Article 6(1) (right of withdrawal) + Solvency II Directive 2009/138/EC Article 185"
       (Some "https://eur-lex.europa.eu/eli/dir/2002/65/oj");
     cfi_anchors := [anchor "lv-vertragsabschluss" "fld-product-kind" "product_kind" (Some "Produktart");
       anchor "lv-vertragsabschluss" "fld-cooloff-days" "cooloff_days" (Some "Widerrufsfrist (Tage)")];
     cfi_bvaSeeds := [seed "BU at 14 days (positive boundary)"
         [("product_kind", "disability"); ("cooloff_days", "14")] true
         "Non-life product at the 14-day boundary";
       seed "Life at 30 days (positive boundary)"
         [("product_kind", "life"); ("cooloff_days", "30")] true
         "Life product at the 30-day Solvency II boundary";
       seed "BU at 13 days (negative)"
         [("product_kind", "disability"); ("cooloff_days", "13")] false
         "Below 14-day DMD floor";
       seed "Life at 20 days (negative)"
         [("product_kind", "life"); ("cooloff_days", "20")] false
         "Life product needs 30-day cooling-off; 20 fails"];
     cfi_source := SOURCE |}.

Definition buildBuSumInsuredRatioInvariant : CrossFieldInvariant :=
  {| cfi_id := "XINV-INS-BU-SUM-RATIO-01"; cfi_scope := sc_screen;
     cfi_description :=
       "Berufsunfähigkeitsversicherung: monthly insured BU pension must not exceed 75 % of the applicant's gross monthly income.";
     cfi_expression :=
       be_lte (field_number "bu_monthly_pension") (ne_mul (number_lit (Double.round (3 # 4))) (field_number "gross_monthly_income"));
     cfi_severity := sv_error;
     cfi_citation := cite "VVG / Industry Underwriting Standard"
       "VVG § 5 + GDV underwriting recommendation 2024 (75 % BU-Renten-Höchstanteil)"
       (Some "https://www.gdv.de/");
     cfi_anchors := [anchor "bu-antrag" "fld-bu-monthly-pension" "bu_monthly_pension" (Some "BU-Rente monatlich");
       anchor "bu-antrag" "fld-gross-monthly-income" "gross_monthly_income" (Some "Bruttoeinkommen monatlich")];
     cfi_bvaSeeds := [seed "Below cap (positive)"
         [("bu_monthly_pension", "1500"); ("gross_monthly_income", "3000")] true
         "1500 ≤ 0.75 × 3000 = 2250";
       seed "At 75 % cap (positive boundary)"
         [("bu_monthly_pension", "2250"); ("gross_monthly_income", "3000")] true
         "Exactly at the cap";
       seed "Above cap (negative)"
         [("bu_monthly_pension", "2400"); ("gross_monthly_income", "3000")] false
         "2400 > 0.75 × 3000 = 2250"];
     cfi_source := SOURCE |}.

Definition buildMinorBeneficiaryInvariant : CrossFieldInvariant :=
  {| cfi_id := "XINV-INS-BEN-MINOR-01"; cfi_scope := sc_screen;
     cfi_description :=
       "Lebensversicherung beneficiary designation: when the beneficiary is a minor (< 18), a legal guardian must be declared.";
     cfi_expression :=
       be_implies (be_lt (field_number "beneficiary_age_years") (number_lit (num 18)))
         (field_present "guardian_full_name");
     cfi_severity := sv_error;
     cfi_citation := cite "BGB / VVG"
       "BGB §§ 1626, 1773 + VVG § 159 (Bezugsberechtigung)"
       (Some "https://www.gesetze-im-internet.de/vvg/__159.html");
     cfi_anchors := [anchor "lv-bezugsberechtigung" "fld-beneficiary-age-years" "beneficiary_age_years" (Some "Alter Bezugsberechtigter");
       anchor "lv-bezugsberechtigung" "fld-guardian-full-name" "guardian_full_name" (Some "Erziehungsberechtigter")];
     cfi_bvaSeeds := [seed "Adult beneficiary (positive — vacuous)"
         [("beneficiary_age_years", "30"); ("guardian_full_name", "")] true
         "Adult; guardian not required";
       seed "Minor with guardian (positive)"
         [("beneficiary_age_years", "10"); ("guardian_full_name", "Maria Schmidt")] true
         "Minor paired with declared guardian";
       seed "Minor without guardian (negative)"
         [("beneficiary_age_years", "10"); ("guardian_full_name", "")] false
         "Minor beneficiary requires Erziehungsberechtigten"];
     cfi_source := SOURCE |}.

Definition buildVollkaskoVehicleAgeInvariant : CrossFieldInvariant :=
  {| cfi_id := "XINV-INS-KFZ-VOLLKASKO-AGE-01"; cfi_scope := sc_screen;
     cfi_description :=
       "KFZ insurance: vehicles older than 15 years are not eligible for Vollkasko coverage; the chosen tariff must be Teilkasko or Haftpflicht.";
     cfi_expression :=
       be_implies (be_gt (field_number "vehicle_age_years") (number_lit (num 15)))
         (in_set_string (field_string "kfz_tariff") ["haftpflicht"; "teilkasko"] true);
     cfi_severity := sv_warning;
     cfi_citation := cite "GDV / Industry Underwriting Standard"
       "GDV KFZ-Bedingungen 2024 (Vollkasko-Altersgrenze 15 Jahre)"
       (Some "https://www.gdv.de/");
     cfi_anchors := [anchor "kfz-tarifrechner" "fld-vehicle-age-years" "vehicle_age_years" (Some "Fahrzeugalter (Jahre)");
       anchor "kfz-tarifrechner" "fld-kfz-tariff" "kfz_tariff" (Some "Tarifart")];
     cfi_bvaSeeds := [seed "Young car + Vollkasko (positive — vacuous)"
         [("vehicle_age_years", "3"); ("kfz_tariff", "vollkasko")] true
         "Vehicle below age cap; tariff freely chosen";
       seed "15-year boundary + Vollkasko (positive — vacuous)"
         [("vehicle_age_years", "15"); ("kfz_tariff", "vollkasko")] true
         "Strict > 15 boundary; 15 still admits Vollkasko";
       seed "20-year-old + Teilkasko (positive)"
         [("vehicle_age_years", "20"); ("kfz_tariff", "teilkasko")] true
         "Older vehicle correctly downgraded";
       seed "20-year-old + Vollkasko (negative)"
         [("vehicle_age_years", "20"); ("kfz_tariff", "vollkasko")] false
         "Vollkasko unavailable beyond 15 years"];
     cfi_source := SOURCE |}.

Definition buildLifeMedicalUnderwritingInvariant : CrossFieldInvariant :=
  {| cfi_id := "XINV-INS-LV-MED-01"; cfi_scope := sc_wizard;
     cfi_description :=
       "Life insurance: contracts with sum insured above 100 000 EUR require a completed medical declaration / underwriting.";
     cfi_expression :=
       be_implies (be_and [eq_string (field_string "product_kind") (string_lit "life") true; be_gt (field_number "sum_insured_eur") (number_lit (num 100000))])
         (eq_string (field_string "medical_declaration_completed") (string_lit "yes") true);
     cfi_severity := sv_error;
     cfi_citation := cite "VVG"
       "VVG § 19 (vorvertragliche Anzeigepflicht) + GDV Tarifgrundsätze (Risikoprüfungs-Schwelle)"
       (Some "https://www.gesetze-im-internet.de/vvg/__19.html");
     cfi_anchors := [anchor "lv-vertragsabschluss" "fld-product-kind" "product_kind" (Some "Produktart");
       anchor "lv-vertragsabschluss" "fld-sum-insured-eur" "sum_insured_eur" (Some "Versicherungssumme");
       anchor "lv-vertragsabschluss" "fld-medical-declaration-completed" "medical_declaration_completed" (Some "Gesundheitsprüfung abgeschlossen")];
     cfi_bvaSeeds := [seed "BU at 200k (positive — vacuous)"
         [("product_kind", "disability"); ("sum_insured_eur", "200000"); ("medical_declaration_completed", "no")] true
         "Not life product; rule vacuous";
       seed "Life at 100k boundary (positive — vacuous)"
         [("product_kind", "life"); ("sum_insured_eur", "100000"); ("medical_declaration_completed", "no")] true
         "At threshold; strict > 100000 boundary leaves rule vacuous";
       seed "Life at 200k with declaration (positive)"
         [("product_kind", "life"); ("sum_insured_eur", "200000"); ("medical_declaration_completed", "yes")] true
         "Above threshold paired with completed declaration";
       seed "Life at 200k without declaration (negative)"
         [("product_kind", "life"); ("sum_insured_eur", "200000"); ("medical_declaration_completed", "no")] false
         "Above threshold requires medical declaration"];
     cfi_source := SOURCE |}.

Definition buildCyberMinCoverageInvariant : CrossFieldInvariant :=
  {| cfi_id := "XINV-INS-CYBER-MIN-COV-01"; cfi_scope := sc_screen;
     cfi_description :=
       "Cyber insurance: SMEs with annual revenue above 10 m EUR must select a coverage limit of at least 1 m EUR.";
     cfi_expression :=
       be_implies (be_gt (field_number "annual_revenue_eur") (number_lit (num 10000000)))
         (be_gte (field_number "cyber_coverage_eur") (number_lit (num 1000000)));
     cfi_severity := sv_warning;
     cfi_citation := cite "GDV / Industry Underwriting Standard"
       "GDV Cyber-Versicherungs-Bedingungen 2024 + DORA Article 15 (ICT-risk assessment)"
       (Some "https://eur-lex.europa.eu/eli/reg/2022/2554/oj");
     cfi_anchors := [anchor "cyber-risiko-assessment" "fld-annual-revenue-eur" "annual_revenue_eur" (Some "Jahresumsatz EUR");
       anchor "cyber-risiko-assessment" "fld-cyber-coverage-eur" "cyber_coverage_eur" (Some "Cyber-Deckungssumme EUR")];
     cfi_bvaSeeds := [seed "Small SME (positive — vacuous)"
         [("annual_revenue_eur", "5000000"); ("cyber_coverage_eur", "250000")] true
         "Below 10 m revenue; minimum does not apply";
       seed "Mid SME with 1 m coverage (positive)"
         [("annual_revenue_eur", "20000000"); ("cyber_coverage_eur", "1000000")] true
         "Above threshold with minimum coverage at boundary";
       seed "Mid SME with 500k coverage (negative)"
         [("annual_revenue_eur", "20000000"); ("cyber_coverage_eur", "500000")] false
         "Below the 1 m EUR floor at 20 m revenue"];
     cfi_source := SOURCE |}.

Definition ALL_BANKING_BUILDERS : list CrossFieldInvariant :=
  [buildKonsumentenkreditDtiInvariant;
   buildMortgageLtvInvariant;
   buildMifidComplexExperienceInvariant;
   buildFatcaResidencyInvariant;
   buildPsd2ScaThresholdInvariant;
   buildIbanCurrencyInvariant;
   buildMifidRiskSuitabilityInvariant;
   buildDailyLimitInvariant;
   buildOverdraftCapInvariant;
   buildAccountAgeGateInvariant;
   buildSepaInstantCeilingInvariant;
   buildPepEddInvariant;
   buildFxMarginDisclosureInvariant;
   buildCrsSelfCertificationInvariant;
   buildMifidCostsAckInvariant].

Definition ALL_INSURANCE_BUILDERS : list CrossFieldInvariant :=
  [buildInsuranceCoverageLeadInvariant;
   buildIddDemandsNeedsInvariant;
   buildDmdCoolingOffInvariant;
   buildBuSumInsuredRatioInvariant;
   buildMinorBeneficiaryInvariant;
   buildVollkaskoVehicleAgeInvariant;
   buildLifeMedicalUnderwritingInvariant;
   buildCyberMinCoverageInvariant].

Definition registerEuBankingCrossFieldInvariants `{LocaleCompare} `{RegExpEngine}
    (registry : CrossFieldInvariantRegistry) : outcome InvariantError CrossFieldInvariantRegistry :=
  outcome_bind (outcome_foldl (λ r i, register i r) registry ALL_BANKING_BUILDERS)
    (λ r, outcome_foldl (λ r i, register i r) r ALL_INSURANCE_BUILDERS).

Definition buildDefaultCrossFieldInvariantRegistry `{LocaleCompare} `{RegExpEngine} :
    outcome InvariantError CrossFieldInvariantRegistry :=
  registerEuBankingCrossFieldInvariants createCrossFieldInvariantRegistry.
