(* ===== verification/CrossFieldGate.v ===== *)
(** * Coverage gate of the cross-field invariants

    [packages/core-engine/src/cross-field-invariant-gate.ts]: the claims of the test
    cases against the registered invariants, screen by screen. *)

From Stdlib Require Import Ascii.
From S2P Require Import Prelude JsString JsList JsValue CrossFieldEngine.

(** ** Data *)

Inductive ClaimSide : Type := positive_side | negative_side.

#[export] Instance ClaimSide_eq_dec : EqDecision ClaimSide.
Proof. solve_decision. Defined.

Record CrossFieldCaseClaim := { cc_testCaseId : string; cc_invariantId : string; cc_side : ClaimSide }.

Record CrossFieldScreenCoverage := {
  sr_screenId : string;
  sr_invariantIds : list string;
  sr_positiveCaseIds : list string;
  sr_negativeCaseIds : list string;
  sr_missingPositive : bool;
  sr_missingNegative : bool;
}.

Record CrossFieldInvariantCoverageRow := {
  ivr_invariantId : string;
  ivr_screenIds : list string;
  ivr_positiveCaseIds : list string;
  ivr_negativeCaseIds : list string;
}.

Inductive CoverageIssueCode : Type :=
| screen_missing_positive_case | screen_missing_negative_case | invariant_unknown.

Definition CoverageIssueCode_label (c : CoverageIssueCode) : string :=
  match c with
  | screen_missing_positive_case => "screen_missing_positive_case"
  | screen_missing_negative_case => "screen_missing_negative_case"
  | invariant_unknown => "invariant_unknown"
  end.

Record CrossFieldInvariantCoverageIssue := {
  is_code : CoverageIssueCode;
  is_severity : CrossFieldInvariantSeverity;
  is_screenId : option string;
  is_invariantId : option string;
  is_testCaseId : option string;
  is_message : string;
}.

Record CrossFieldInvariantCoverageReport := {
  cov_jobId : string;
  cov_generatedAt : string;
  cov_perScreen : list CrossFieldScreenCoverage;
  cov_perInvariant : list CrossFieldInvariantCoverageRow;
  cov_issues : list CrossFieldInvariantCoverageIssue;
  cov_blocked : bool;
  cov_totalInvariants : Z;
  cov_fullyCoveredInvariants : Z;
}.

(** ** Maps of sets *)

(** [map.get(k) ?? new Set()] *)
Definition bucket (k : string) (m : list (string * list string)) : list string := default [] (map_get k m).

(** Adding to the set of a key, and putting the set back. *)
Definition bucket_add (k x : string) (m : list (string * list string)) : list (string * list string) :=
  map_set k (set_add (bucket k m) x) m.

Definition sortedUnique `{LocaleCompare} (values : list string) : list string := js_sort localeCompare (set_of values).

(** ** The report *)

Definition in_quotes (s : string) : string :=
  String (ascii_of_nat 34) EmptyString +:+ s +:+ String (ascii_of_nat 34) EmptyString.

Definition unknown_issue (claim : CrossFieldCaseClaim) : CrossFieldInvariantCoverageIssue :=
  {| is_code := invariant_unknown; is_severity := sv_warning; is_screenId := None;
     is_invariantId := Some (cc_invariantId claim); is_testCaseId := Some (cc_testCaseId claim);
     is_message := "Claim references invariant " +:+ in_quotes (cc_invariantId claim) +:+ " not present in the registry." |}.

Definition missing_issue (code : CoverageIssueCode) (side screenId : string) (count : nat) :
    CrossFieldInvariantCoverageIssue :=
  {| is_code := code; is_severity := sv_error; is_screenId := Some screenId; is_invariantId := None;
     is_testCaseId := None;
     is_message := "Screen " +:+ in_quotes screenId +:+ " has " +:+ pretty (Z.of_nat count)
       +:+ " cross-field invariant(s) but no " +:+ side +:+ " test case claim. Issue #2110 requires at least one "
       +:+ side +:+ " case per screen." |}.

(** The two maps between screens and invariants. *)
Record screen_index := {
  si_screenToInvariantIds : list (string * list string);
  si_invariantToScreenIds : list (string * list string);
}.

Definition index_invariant (ix : screen_index) (invariant : CrossFieldInvariant) : screen_index :=
  {| si_screenToInvariantIds :=
       foldl (λ m a, bucket_add (fa_screenId a) (cfi_id invariant) m) (si_screenToInvariantIds ix) (cfi_anchors invariant);
     si_invariantToScreenIds :=
       map_set (cfi_id invariant) (set_of (fa_screenId <$> cfi_anchors invariant)) (si_invariantToScreenIds ix) |}.

(** The four maps of the claims and the issues. *)
Record claim_index := {
  ci_screenPositive : list (string * list string);
  ci_screenNegative : list (string * list string);
  ci_invariantPositive : list (string * list string);
  ci_invariantNegative : list (string * list string);
  ci_issues : list CrossFieldInvariantCoverageIssue;
}.

Definition index_claim (knownIds : list string) (screens : list (string * list string)) (ix : claim_index)
    (claim : CrossFieldCaseClaim) : claim_index :=
  if negb (bool_decide (cc_invariantId claim ∈ knownIds)) then
    {| ci_screenPositive := ci_screenPositive ix; ci_screenNegative := ci_screenNegative ix;
       ci_invariantPositive := ci_invariantPositive ix; ci_invariantNegative := ci_invariantNegative ix;
       ci_issues := ci_issues ix ++ [unknown_issue claim] |}
  else
    let by_screen m := foldl (λ m s, bucket_add s (cc_testCaseId claim) m) m (bucket (cc_invariantId claim) screens) in
    let by_invariant m := bucket_add (cc_invariantId claim) (cc_testCaseId claim) m in
    match cc_side claim with
    | positive_side =>
        {| ci_screenPositive := by_screen (ci_screenPositive ix); ci_screenNegative := ci_screenNegative ix;
           ci_invariantPositive := by_invariant (ci_invariantPositive ix);
           ci_invariantNegative := ci_invariantNegative ix; ci_issues := ci_issues ix |}
    | negative_side =>
        {| ci_screenPositive := ci_screenPositive ix; ci_screenNegative := by_screen (ci_screenNegative ix);
           ci_invariantPositive := ci_invariantPositive ix;
           ci_invariantNegative := by_invariant (ci_invariantNegative ix); ci_issues := ci_issues ix |}
    end.

Section gate.
Context `{LocaleCompare}.

Definition screen_row (ix : screen_index) (claims : claim_index) (screenId : string) : CrossFieldScreenCoverage :=
  let positiveCaseIds := sortedUnique (bucket screenId (ci_screenPositive claims)) in
  let negativeCaseIds := sortedUnique (bucket screenId (ci_screenNegative claims)) in
  {| sr_screenId := screenId;
     sr_invariantIds := sortedUnique (bucket screenId (si_screenToInvariantIds ix));
     sr_positiveCaseIds := positiveCaseIds; sr_negativeCaseIds := negativeCaseIds;
     sr_missingPositive := bool_decide (positiveCaseIds = []);
     sr_missingNegative := bool_decide (negativeCaseIds = []) |}.

Definition row_issues (row : CrossFieldScreenCoverage) : list CrossFieldInvariantCoverageIssue :=
  let issue code side := missing_issue code side (sr_screenId row) (length (sr_invariantIds row)) in
  (if sr_missingPositive row then [issue screen_missing_positive_case "positive"] else []) ++
  (if sr_missingNegative row then [issue screen_missing_negative_case "negative"] else []).

Definition invariant_row (ix : screen_index) (claims : claim_index) (invariant : CrossFieldInvariant) :
    CrossFieldInvariantCoverageRow :=
  {| ivr_invariantId := cfi_id invariant;
     ivr_screenIds := sortedUnique (bucket (cfi_id invariant) (si_invariantToScreenIds ix));
     ivr_positiveCaseIds := sortedUnique (bucket (cfi_id invariant) (ci_invariantPositive claims));
     ivr_negativeCaseIds := sortedUnique (bucket (cfi_id invariant) (ci_invariantNegative claims)) |}.

Definition fully_covered (row : CrossFieldInvariantCoverageRow) : bool :=
  negb (bool_decide (ivr_positiveCaseIds row = [])) && negb (bool_decide (ivr_negativeCaseIds row = [])).

Definition compareIssue : CrossFieldInvariantCoverageIssue → CrossFieldInvariantCoverageIssue → comparison :=
  cmp_then (cmp_on (CoverageIssueCode_label ∘ is_code) localeCompare)
    (cmp_then (cmp_on (default "" ∘ is_screenId) localeCompare) (cmp_on (default "" ∘ is_invariantId) localeCompare)).

Definition evaluateCrossFieldInvariantCoverage (jobId generatedAt : string) (registry : CrossFieldInvariantRegistry)
    (claims : list CrossFieldCaseClaim) : CrossFieldInvariantCoverageReport :=
  let invariants := registry_list registry in
  let ix := foldl index_invariant {| si_screenToInvariantIds := []; si_invariantToScreenIds := [] |} invariants in
  let indexed := foldl (index_claim (cfi_id <$> invariants) (si_invariantToScreenIds ix))
    {| ci_screenPositive := []; ci_screenNegative := []; ci_invariantPositive := []; ci_invariantNegative := [];
       ci_issues := [] |} claims in
  let perScreen := screen_row ix indexed <$> sortedUnique ((si_screenToInvariantIds ix).*1) in
  let perInvariant := invariant_row ix indexed <$> invariants in
  let issues := js_sort compareIssue (ci_issues indexed ++ flat_map row_issues perScreen) in
  {| cov_jobId := jobId; cov_generatedAt := generatedAt; cov_perScreen := perScreen; cov_perInvariant := perInvariant;
     cov_issues := issues; cov_blocked := existsb (λ i, bool_decide (is_severity i = sv_error)) issues;
     cov_totalInvariants := Z.of_nat (length invariants);
     cov_fullyCoveredInvariants := Z.of_nat (length (filter (λ r, fully_covered r = true) perInvariant)) |}.
End gate.
