(* ===== verification/CrossFieldProps.v ===== *)
(** * Cross-field invariants: theorems

    What the evaluator computes, what the registry lets in, what the test data of a sound
    invariant proves, that the catalogue registers, what the coverage gate reports, and
    the evaluations behind the findings. *)

From Stdlib Require Import Ascii.
From Stdlib Require Import Lqa Qabs.
From S2P Require Import Prelude JsString JsList JsValue CrossFieldEngine CrossFieldRegistry CrossFieldGate.

(** Two results of one evaluation are one result. *)
Ltac same_result :=
  repeat match goal with
  | H1 : ?x = Ok ?a, H2 : ?x = Ok ?b |- _ => rewrite H1 in H2; injection H2 as H2; subst
  end.

(** ** Induction on expressions *)

Section expr_induction.
Context (P : InvariantBoolExpr → Prop).
Hypothesis Hlit : ∀ b, P (bool_lit b).
Hypothesis Hlt : ∀ l r, P (be_lt l r).
Hypothesis Hlte : ∀ l r, P (be_lte l r).
Hypothesis Hgt : ∀ l r, P (be_gt l r).
Hypothesis Hgte : ∀ l r, P (be_gte l r).
Hypothesis Hnum : ∀ l r t, P (eq_number l r t).
Hypothesis Hstr : ∀ l r c, P (eq_string l r c).
Hypothesis Hin : ∀ v s c, P (in_set_string v s c).
Hypothesis Hre : ∀ v p f, P (matches_regex v p f).
Hypothesis Hpresent : ∀ r, P (field_present r).
Hypothesis Habsent : ∀ r, P (field_absent r).
Hypothesis Hand : ∀ l, Forall P l → P (be_and l).
Hypothesis Hor : ∀ l, Forall P l → P (be_or l).
Hypothesis Hnot : ∀ e, P e → P (be_not e).
Hypothesis Himplies : ∀ a c, P a → P c → P (be_implies a c).

Fixpoint bool_expr_nested_ind (e : InvariantBoolExpr) : P e :=
  let operands := fix go (l : list InvariantBoolExpr) : Forall P l :=
    match l with [] => Forall_nil_2 _ | x :: r => Forall_cons_2 _ _ _ (bool_expr_nested_ind x) (go r) end in
  match e with
  | bool_lit b => Hlit b
  | be_lt l r => Hlt l r
  | be_lte l r => Hlte l r
  | be_gt l r => Hgt l r
  | be_gte l r => Hgte l r
  | eq_number l r t => Hnum l r t
  | eq_string l r c => Hstr l r c
  | in_set_string v s c => Hin v s c
  | matches_regex v p f => Hre v p f
  | field_present r => Hpresent r
  | field_absent r => Habsent r
  | be_and l => Hand l (operands l)
  | be_or l => Hor l (operands l)
  | be_not e => Hnot e (bool_expr_nested_ind e)
  | be_implies a c => Himplies a c (bool_expr_nested_ind a) (bool_expr_nested_ind c)
  end.
End expr_induction.

(** ** Evaluation *)

Section evaluation.
Context `{RegExpEngine}.

(** *** The fields an evaluation depends on *)

Definition agree_on (refs : list string) (v1 v2 : CrossFieldValuation) : Prop := ∀ ref, ref ∈ refs → v1 !! ref = v2 !! ref.

Lemma agree_on_app l r v1 v2 : agree_on (l ++ r) v1 v2 ↔ agree_on l v1 v2 ∧ agree_on r v1 v2.
Proof. unfold agree_on. setoid_rewrite elem_of_app. naive_solver. Qed.

Lemma number_agrees e v1 v2 : agree_on (visitNumber e) v1 v2 → evaluateNumberExpr e v1 = evaluateNumberExpr e v2.
Proof.
  induction e; cbn [visitNumber]; intros Ha; [done| |apply agree_on_app in Ha as [Hl Hr];
    cbn [evaluateNumberExpr]; by rewrite IHe1, IHe2..].
  cbn. by rewrite Ha by set_solver.
Qed.

Lemma string_agrees e v1 v2 : agree_on (visitString e) v1 v2 → evaluateStringExpr e v1 = evaluateStringExpr e v2.
Proof. destruct e; cbn; intros Ha; [done|]. by rewrite Ha by set_solver. Qed.

Lemma all_agrees f g none b l : Forall (λ e, f e = g e) l → evaluate_all f none b l = evaluate_all g none b l.
Proof.
  intros Hl. revert b; induction Hl as [|x l Hx _ IH]; intros b; cbn; [done|]. rewrite Hx.
  destruct (g x); cbn; [|done]. case_match; [done|apply IH].
Qed.

Lemma any_agrees f g none b l : Forall (λ e, f e = g e) l → evaluate_any f none b l = evaluate_any g none b l.
Proof.
  intros Hl. revert b; induction Hl as [|x l Hx _ IH]; intros b; cbn; [done|]. rewrite Hx.
  destruct (g x); cbn; [|done]. case_match; [done|apply IH].
Qed.

Lemma operands_agree l v1 v2 :
  Forall (λ e, agree_on (visitBool e) v1 v2 → evaluateBoolExpr e v1 = evaluateBoolExpr e v2) l →
  agree_on (flat_map visitBool l) v1 v2 → Forall (λ e, evaluateBoolExpr e v1 = evaluateBoolExpr e v2) l.
Proof.
  induction 1 as [|x l Hx _ IH]; cbn; intros Ha; [done|]. apply agree_on_app in Ha as [Ha Hl]. constructor; auto.
Qed.

Lemma bool_agrees e v1 v2 : agree_on (visitBool e) v1 v2 → evaluateBoolExpr e v1 = evaluateBoolExpr e v2.
Proof.
  induction e using bool_expr_nested_ind; cbn [visitBool]; intros Ha; cbn [evaluateBoolExpr];
    try (apply agree_on_app in Ha as [Hl Hr]);
    rewrite ?(number_agrees l v1 v2), ?(number_agrees r v1 v2), ?(string_agrees l v1 v2), ?(string_agrees r v1 v2),
      ?(string_agrees v v1 v2) by done; try done.
  - by rewrite Ha by set_solver.
  - by rewrite Ha by set_solver.
  - by apply all_agrees, operands_agree.
  - by apply any_agrees, operands_agree.
  - by rewrite IHe.
  - by rewrite IHe1, IHe2.
Qed.

(** The verdict depends on the fields [collectInvariantFieldRefs] lists, and on nothing
    else of the form. *)
Theorem verdict_depends_on_its_fields `{LocaleCompare} e v1 v2 :
  (∀ ref, ref ∈ collectInvariantFieldRefs e → v1 !! ref = v2 !! ref) →
  evaluateInvariantExpression e v1 = evaluateInvariantExpression e v2.
Proof.
  intros Ha. apply bool_agrees. intros ref Hr. apply Ha. unfold collectInvariantFieldRefs.
  by rewrite elem_of_js_sort, elem_of_set_of.
Qed.

(** *** The truth of an expression *)

(** The value of a number expression: finite literals, fields whose text starts with a
    finite number, and the operators of doubles; nothing is divided by 0. *)
Inductive number_is (v : CrossFieldValuation) : InvariantNumberExpr → jsnum → Prop :=
| ni_lit q : number_is v (number_lit (Fin q)) (Fin q)
| ni_field ref raw q : v !! ref = Some raw → parseFloat raw = Fin q → number_is v (field_number ref) (Fin q)
| ni_add l r a b : number_is v l a → number_is v r b → number_is v (ne_add l r) (Double.add a b)
| ni_sub l r a b : number_is v l a → number_is v r b → number_is v (ne_sub l r) (Double.sub a b)
| ni_mul l r a b : number_is v l a → number_is v r b → number_is v (ne_mul l r) (Double.mul a b)
| ni_div l r a b : number_is v l a → number_is v r b → Number.eqb b (num 0) = false → number_is v (ne_div l r) (Double.div a b)
| ni_min l r a b : number_is v l a → number_is v r b → number_is v (ne_min l r) (js_min a b)
| ni_max l r a b : number_is v l a → number_is v r b → number_is v (ne_max l r) (Double.max a b).

(** The order of numbers; [NaN] is not comparable. *)
Definition below (a b : jsnum) : Prop :=
  match a, b with
  | Fin p, Fin q => (p < q)%Q
  | NegInf, Fin _ | NegInf, PosInf | Fin _, PosInf => True
  | _, _ => False
  end.
Definition at_most (a b : jsnum) : Prop :=
  match a, b with
  | Fin p, Fin q => (p <= q)%Q
  | NegInf, NegInf | PosInf, PosInf | NegInf, Fin _ | NegInf, PosInf | Fin _, PosInf => True
  | _, _ => False
  end.

(** Both numbers have values that are related. *)
Definition numbers (R : jsnum → jsnum → Prop) (l r : InvariantNumberExpr) (v : CrossFieldValuation) : Prop :=
  ∃ a b, number_is v l a ∧ number_is v r b ∧ R a b.

(** The text of a string expression: its own, or that of the field. *)
Definition text_is (e : InvariantStringExpr) (v : CrossFieldValuation) (s : string) : Prop :=
  match e with string_lit s' => s' = s | field_string ref => v !! ref = Some s end.

(** The tolerance of an equality; none is 0. *)
Definition tolerance_is (t : option jsnum) (tol : Q) : Prop :=
  match t with None => tol = 0%Q | Some n => n = Fin tol ∧ (0 <= tol)%Q end.

(** The rounded difference of two numbers is within the tolerance, on either side. *)
Definition within (tol : Q) (a b : jsnum) : Prop :=
  match Double.sub a b with Fin d => (- tol <= d <= tol)%Q | _ => False end.

Definition same_text (caseInsensitive : bool) (a b : string) : Prop :=
  if caseInsensitive then to_lower a = to_lower b else a = b.

(** What an expression says of a valuation, as a formula. *)
Fixpoint holds (e : InvariantBoolExpr) (v : CrossFieldValuation) : Prop :=
  match e with
  | bool_lit b => b = true
  | be_lt l r => numbers below l r v
  | be_lte l r => numbers at_most l r v
  | be_gt l r => numbers (λ a b, below b a) l r v
  | be_gte l r => numbers (λ a b, at_most b a) l r v
  | eq_number l r t => ∃ tol, tolerance_is t tol ∧ numbers (within tol) l r v
  | eq_string l r c => ∃ a b, text_is l v a ∧ text_is r v b ∧ same_text c a b
  | in_set_string e set c => ∃ a, text_is e v a ∧ Exists (λ entry, same_text c entry a) set
  | matches_regex e p f => ∃ a test, text_is e v a ∧ regexp p (default "" f) = Some test ∧ test a = true
  | field_present ref => ∃ raw, v !! ref = Some raw ∧ raw ≠ ""
  | field_absent ref => v !! ref = None ∨ v !! ref = Some ""
  | be_and l => Forall id ((λ o, holds o v) <$> l)
  | be_or l => Exists id ((λ o, holds o v) <$> l)
  | be_not e => ¬ holds e v
  | be_implies a c => holds a v → holds c v
  end.

Lemma fold_case_eq c a b : fold_case c a = fold_case c b ↔ same_text c a b.
Proof. by destruct c. Qed.

(** The evaluator computes the value of a number expression, when there is one. *)
Lemma evaluate_number_is e v a : evaluateNumberExpr e v = Ok a ↔ number_is v e a.
Proof.
  revert a; induction e as [n|ref|l IHl r IHr|l IHl r IHr|l IHl r IHr|l IHl r IHr|l IHl r IHr|l IHl r IHr]; intros a;
    cbn [evaluateNumberExpr].
  1: { destruct n; cbn; (split; [intros [= <-]; constructor|inversion 1; by subst]) || (split; [done|inversion 1]). }
  1: { unfold requireNumber. destruct (v !! ref) as [raw|] eqn:Er; [|split; [done|inversion 1; congruence]].
       destruct (parseFloat raw) eqn:Ep; cbn; (split; [try done; intros [= <-]; by econstructor|inversion 1; congruence]). }
  4: { rewrite outcome_bind_Ok. split.
       - intros (b & Hb & Ha). case_match eqn:E0; [done|]. apply outcome_bind_Ok in Ha as (x & Hx & [= <-]).
         constructor; [by apply IHl|by apply IHr|done].
       - inversion 1 as [| | | | |? ? x y Hx Hy E0| |]; subst. apply IHl in Hx. apply IHr in Hy. exists y.
         by rewrite E0, Hx. }
  all: rewrite outcome_bind_Ok; split;
    [intros (x & Hx & (y & Hy & [= <-])%outcome_bind_Ok); constructor; [by apply IHl|by apply IHr]|].
  all: inversion 1 as [| |? ? x y Hx Hy|? ? x y Hx Hy|? ? x y Hx Hy| |? ? x y Hx Hy|? ? x y Hx Hy]; subst;
    apply IHl in Hx; apply IHr in Hy; exists x; by rewrite Hx, Hy.
Qed.

Lemma evaluate_text_is e v s : evaluateStringExpr e v = Ok s ↔ text_is e v s.
Proof.
  destruct e as [s'|ref]; cbn; [split; [by intros [= ->]|by intros ->]|].
  unfold requireString. destruct (v !! ref); split; by intros [= ->].
Qed.

Lemma tolerance_value_is t a : tolerance_value t = Ok a ↔ ∃ tol, a = Fin tol ∧ tolerance_is t tol.
Proof.
  unfold tolerance_value. destruct t as [n|]; cbn [default tolerance_is from_option id].
  - destruct n as [| | |q]; try (split; [by cbn|by intros (? & _ & ? & _)]). cbn [Number.isFinite negb]. rewrite orb_false_r.
    destruct (Number.ltb (Fin q) (num 0)) eqn:E.
    + split; [done|]. intros (tol & _ & [= <-] & Hq). apply Number.ltb_Fin in E. exfalso. by apply Qlt_not_le in E.
    + apply Number.ltb_Fin_false in E. split; [intros [= <-]; by exists q|by intros (? & -> & [= ->] & _)].
  - split; [intros [= <-]; by exists 0%Q|by intros (? & -> & ->)].
Qed.

Lemma leb_at_most a b : Number.leb a b = true ↔ at_most a b.
Proof. destruct a, b; cbn; rewrite ?Qle_bool_iff; naive_solver. Qed.

Lemma ltb_below a b : Number.ltb a b = true ↔ below a b.
Proof. destruct a as [| | |p], b as [| | |q]; try (by cbn; naive_solver). cbn [below]. apply Number.ltb_Fin. Qed.

Lemma distance_within tol a b : Number.leb (Double.abs (Double.sub a b)) (Fin tol) = true ↔ within tol a b.
Proof.
  unfold within. destruct (Double.sub a b) as [| | |d]; cbn; [naive_solver..|].
  rewrite Qle_bool_iff, Qred_correct. apply Qabs_Qle_condition.
Qed.

(** A comparison, once both numbers are there. *)
Lemma comparison_holds (test : jsnum → jsnum → bool) (R : jsnum → jsnum → Prop) l r v x :
  (∀ a b, test a b = true ↔ R a b) →
  outcome_bind (evaluateNumberExpr l v) (λ a, outcome_bind (evaluateNumberExpr r v) (λ b, Ok (plain (test a b)))) = Ok x →
  (satisfied x = true ↔ numbers R l r v).
Proof.
  intros Ht (a & Ha & (b & Hb & [= <-])%outcome_bind_Ok)%outcome_bind_Ok. cbn. rewrite Ht. unfold numbers.
  setoid_rewrite <- evaluate_number_is. split; [eauto|]. intros (a' & b' & Ha' & Hb' & HR). congruence.
Qed.

Lemma all_holds f (P : InvariantBoolExpr → Prop) none b l x :
  Forall (λ e, ∀ y, f e = Ok y → (satisfied y = true ↔ P e)) l → evaluate_all f none b l = Ok x →
  (satisfied x = true ↔ Forall id (P <$> l)).
Proof.
  intros Hl. revert b; induction Hl as [|e l He _ IH]; intros b; cbn.
  { intros [= <-]. split; [by constructor|done]. }
  intros (y & Hy & Hx)%outcome_bind_Ok. rewrite Forall_cons. specialize (He y Hy). cbn.
  destruct (satisfied y); cbn in Hx.
  - rewrite (IH _ Hx). unfold id at 2. naive_solver.
  - injection Hx as <-. cbn. unfold id at 1. naive_solver.
Qed.

Lemma any_holds f (P : InvariantBoolExpr → Prop) none b l x :
  Forall (λ e, ∀ y, f e = Ok y → (satisfied y = true ↔ P e)) l → evaluate_any f none b l = Ok x →
  (satisfied x = true ↔ Exists id (P <$> l)).
Proof.
  intros Hl. revert b; induction Hl as [|e l He _ IH]; intros b; cbn.
  { intros [= <-]. cbn. rewrite Exists_nil. naive_solver. }
  intros (y & Hy & Hx)%outcome_bind_Ok. rewrite Exists_cons. specialize (He y Hy). cbn.
  destruct (satisfied y); cbn in Hx.
  - injection Hx as <-. cbn. unfold id at 1. naive_solver.
  - rewrite (IH _ Hx). unfold id at 2. naive_solver.
Qed.

(** C19. Whenever the evaluation of an expression returns, its verdict is the truth of the
    formula it stands for, with the operators of doubles for arithmetic, although
    operands after the deciding one are not looked at. *)
Theorem verdict_is_truth e v x :
  evaluateInvariantExpression e v = Ok x → (satisfied x = true ↔ holds e v).
Proof.
  unfold evaluateInvariantExpression.
  revert x; induction e as [b|l r|l r|l r|l r|l r t|l r c|e set c|e p f|ref|ref|l IH|l IH|e IH|a c IHa IHc]
    using bool_expr_nested_ind; intros x; cbn [evaluateBoolExpr holds].
  - intros [= <-]. done.
  - apply comparison_holds. intros; apply ltb_below.
  - apply comparison_holds. intros; apply leb_at_most.
  - apply comparison_holds. intros; apply ltb_below.
  - apply comparison_holds. intros; apply leb_at_most.
  - intros (a & Et & Hx)%outcome_bind_Ok. pose proof Et as (tol & -> & Ht)%tolerance_value_is.
    rewrite (comparison_holds _ (within tol) _ _ _ _ ltac:(intros; apply distance_within) Hx).
    split; [eauto|]. intros (tol' & Et' & Hn).
    assert (Et2 : tolerance_value t = Ok (Fin tol')) by (apply tolerance_value_is; eauto). rewrite Et in Et2. by injection Et2 as <-.
  - intros (a & Ha & (b & Hb & [= <-])%outcome_bind_Ok)%outcome_bind_Ok. cbn.
    rewrite bool_decide_eq_true, fold_case_eq. setoid_rewrite <- evaluate_text_is. split; [eauto|].
    intros (a' & b' & Ha' & Hb' & Hs). by same_result.
  - intros (a & Ha & [= <-])%outcome_bind_Ok. cbn. setoid_rewrite <- evaluate_text_is.
    assert (Hs : existsb (λ entry, bool_decide (fold_case c entry = fold_case c a)) set = true ↔
                 Exists (λ entry, same_text c entry a) set).
    { rewrite existsb_exists, Exists_exists. setoid_rewrite bool_decide_eq_true. setoid_rewrite fold_case_eq.
      by setoid_rewrite list_elem_of_In. }
    rewrite Hs. split; [eauto|]. intros (a' & Ha' & Hex). by same_result.
  - intros (a & Ha & Hx)%outcome_bind_Ok. setoid_rewrite <- evaluate_text_is. destruct (regexp _ _) as [test|]; [|done].
    injection Hx as <-. cbn. split; [eauto|]. intros (a' & test' & Ha' & [= <-] & Hs). by same_result.
  - intros [= <-]. cbn. destruct (v !! ref) as [raw|]; cbn; [|naive_solver].
    rewrite negb_true_iff, bool_decide_eq_false. naive_solver.
  - intros [= <-]. cbn. destruct (v !! ref) as [raw|]; cbn; [|naive_solver]. rewrite bool_decide_eq_true. naive_solver.
  - by apply all_holds.
  - by apply any_holds.
  - intros (y & Hy & [= <-])%outcome_bind_Ok. cbn. rewrite negb_true_iff, <- (IH y Hy). by destruct (satisfied y).
  - intros (y & Hy & Hx)%outcome_bind_Ok. rewrite <- (IHa y Hy). destruct (satisfied y); cbn in Hx.
    + apply outcome_bind_Ok in Hx as (z & Hz & [= <-]). cbn. rewrite <- (IHc z Hz). naive_solver.
    + injection Hx as <-. cbn. naive_solver.
Qed.
End evaluation.

(** ** The registry *)

Section registry.
Context `{LocaleCompare} `{RegExpEngine}.

(** What a registered invariant guarantees. *)
Record sound_invariant (i : CrossFieldInvariant) : Prop := {
  so_id : id_ok (cfi_id i) = true;
  so_description : is_blank (cfi_description i) = false;
  so_anchored : cfi_anchors i ≠ [] ∧
    ∀ ref, ref ∈ visitBool (cfi_expression i) → ∃ a, a ∈ cfi_anchors i ∧ fa_fieldRef a = ref;
  so_seeds : ∀ s, s ∈ cfi_bvaSeeds i → ∃ x,
    evaluateInvariantExpression (cfi_expression i) (ba_values s) = Ok x ∧ satisfied x = ba_expectedSatisfied s;
  so_positive : ∃ s, s ∈ cfi_bvaSeeds i ∧
    evaluateInvariantExpression (cfi_expression i) (ba_values s) = Ok (plain true);
  so_negative : ∃ s x, s ∈ cfi_bvaSeeds i ∧
    evaluateInvariantExpression (cfi_expression i) (ba_values s) = Ok x ∧ satisfied x = false;
}.

Lemma check_anchors_Ok i u :
  check_anchors i = Ok u ↔
  ∀ ref, ref ∈ visitBool (cfi_expression i) → ∃ a, a ∈ cfi_anchors i ∧ fa_fieldRef a = ref.
Proof.
  unfold check_anchors. assert (Hfold : ∀ l, outcome_foldl (λ _ ref, guard_throw (negb (bool_decide
      (ref ∈ fa_fieldRef <$> cfi_anchors i))) (xe_unanchored ref)) tt l = Ok u ↔
    ∀ ref, ref ∈ l → ref ∈ fa_fieldRef <$> cfi_anchors i).
  { induction l as [|ref l IH]; cbn; [destruct u; split; [intros _ ? []%elem_of_nil|done]|].
    rewrite outcome_bind_Ok. setoid_rewrite guard_throw_Ok. setoid_rewrite negb_false_iff. setoid_rewrite bool_decide_eq_true.
    setoid_rewrite elem_of_cons. split.
    - intros ([] & Hr & Hl) ref' [->|Hin]; [done|]. by apply IH.
    - intros Hall. exists tt. split; [by apply Hall; left|]. apply IH. auto. }
  rewrite Hfold. unfold collectInvariantFieldRefs. setoid_rewrite elem_of_set_of. setoid_rewrite elem_of_js_sort.
  setoid_rewrite elem_of_set_of. setoid_rewrite list_elem_of_fmap. naive_solver.
Qed.

(** The loop over the boundary values: every one has the declared verdict, and the
    result tells whether one of them, or one before, is positive and not vacuous. *)
Lemma check_seeds_Ok e seen seeds b :
  outcome_foldl (check_seed e) seen seeds = Ok b ↔
  (∀ s, s ∈ seeds → ∃ x, evaluateInvariantExpression e (ba_values s) = Ok x ∧ satisfied x = ba_expectedSatisfied s) ∧
  (b = true ↔ seen = true ∨ ∃ s, s ∈ seeds ∧ evaluateInvariantExpression e (ba_values s) = Ok (plain true)).
Proof.
  revert seen; induction seeds as [|s seeds IH]; intros seen; cbn [outcome_foldl].
  { split.
    - intros [= ->]. split; [by intros ? []%elem_of_nil|]. split; [by left|]. by intros [?|(? & []%elem_of_nil & _)].
    - intros [_ Hb]. f_equal. apply eq_true_iff_eq. rewrite Hb. split; [by left|]. by intros [?|(? & []%elem_of_nil & _)]. }
  rewrite outcome_bind_Ok. unfold check_seed at 1. setoid_rewrite elem_of_cons. split.
  - intros (seen' & (x & Hx & Hseed)%outcome_bind_Ok & Hrest). case_match eqn:Heq; [done|]. injection Hseed as <-.
    apply negb_false_iff, eqb_prop in Heq. apply IH in Hrest as [Hall Hb]. split.
    + intros s' [->|Hin]; [eauto|by apply Hall].
    + rewrite Hb, orb_true_iff, andb_true_iff, negb_true_iff. split.
      * intros [[?|[He Hv]]|(s' & Hin & Hs')]; [by left| |right; exists s'; split; [by right|done]].
        right. exists s. split; [by left|]. rewrite Hx. destruct x as [sa va]; cbn in *. unfold plain. congruence.
      * intros [?|(s' & [->|Hin] & Hs')]; [by left; left| |right; by exists s'].
        left; right. same_result. by cbn in Heq.
  - intros [Hall Hb]. destruct (Hall s) as (x & Hx & Hs); [by left|].
    exists (seen || (ba_expectedSatisfied s && negb (vacuous x))). rewrite Hx. cbn. rewrite Hs, eqb_reflx. split; [done|].
    apply IH. split; [auto|]. rewrite Hb, orb_true_iff, andb_true_iff, negb_true_iff. split.
    + intros [?|(s' & [->|Hin] & Hs')]; [by left; left| |right; by exists s'].
      left; right. same_result. by cbn in Hs.
    + intros [[?|[He Hv]]|(s' & Hin & Hs')]; [by left| |right; exists s'; split; [by right|done]].
      right. exists s. split; [by left|]. rewrite Hx. destruct x as [sa va]; cbn in *. unfold plain. congruence.
Qed.

Lemma some_seed (f : CrossFieldBoundaryAssignment → bool) l : existsb f l = true ↔ ∃ s, s ∈ l ∧ f s = true.
Proof. rewrite existsb_exists. by setoid_rewrite list_elem_of_In. Qed.

(** The validation accepts exactly the sound invariants. *)
Theorem validateInvariant_Ok i : validateInvariant i = Ok tt ↔ sound_invariant i.
Proof.
  unfold validateInvariant.
  rewrite !outcome_then_Ok, !guard_throw_Ok, check_anchors_Ok, negb_false_iff, bool_decide_eq_false, negb_false_iff,
    andb_true_iff, !some_seed, outcome_bind_Ok. setoid_rewrite guard_throw_Ok. setoid_rewrite negb_false_iff.
  setoid_rewrite check_seeds_Ok. cbn. setoid_rewrite negb_true_iff. split.
  - intros (Hid & Hd & Hne & Ha & [_ (n & Hn & Hneg)] & b & [Hall Hb] & ->).
    destruct Hb as [Hb _]. destruct (Hb eq_refl) as [?|Hpos]; [done|].
    split; try done. destruct (Hall n Hn) as (x & Hx & Hs). exists n, x. by rewrite Hs.
  - intros [Hid Hd [Hne Ha] Hall Hpos (n & x & Hn & Hx & Hneg)]. split_all; try done.
    + destruct Hpos as (s & Hs & Hev). exists s. split; [done|]. destruct (Hall s Hs) as (y & Hy & <-). by same_result.
    + exists n. split; [done|]. destruct (Hall n Hn) as (y & Hy & <-). by same_result.
    + exists true. split; [|done]. split; [done|]. split; [by right|done].
Qed.

(** A call of [register] whose error the caller survives. *)
Definition try_register (byId : CrossFieldInvariantRegistry) (i : CrossFieldInvariant) : CrossFieldInvariantRegistry :=
  match register i byId with Ok byId' => byId' | Throw _ => byId end.

Definition registry_ok (byId : CrossFieldInvariantRegistry) : Prop :=
  NoDup byId.*1 ∧ ∀ k i, (k, i) ∈ byId → k = cfi_id i ∧ sound_invariant i.

Lemma register_Ok i byId byId' :
  register i byId = Ok byId' ↔ sound_invariant i ∧ (cfi_id i ∉ byId.*1) ∧ byId' = byId ++ [(cfi_id i, i)].
Proof.
  unfold register. rewrite !outcome_then_Ok, validateInvariant_Ok, guard_throw_Ok. unfold map_has.
  rewrite bool_decide_eq_false, map_get_is_Some. split.
  - intros (Hs & Hn & [= <-]). split; [done|]. split; [done|]. unfold map_set.
    apply map_get_None in Hn. unfold map_get in Hn. by destruct (find_by fst (cfi_id i) byId).
  - intros (Hs & Hn & ->). split; [done|]. split; [done|]. unfold map_set.
    apply map_get_None in Hn. unfold map_get in Hn. by destruct (find_by fst (cfi_id i) byId).
Qed.

Lemma register_keeps_ok i byId byId' : registry_ok byId → register i byId = Ok byId' → registry_ok byId'.
Proof.
  intros [Hnd Hall] (Hs & Hn & ->)%register_Ok. split.
  - rewrite fmap_app, NoDup_app. split; [done|]. split; [|apply NoDup_singleton]. cbn. intros x Hx ->%list_elem_of_singleton. done.
  - intros k j [Hin|Hin%list_elem_of_singleton]%elem_of_app; [by apply Hall|]. by injection Hin as -> ->.
Qed.

Lemma attempts_keep_ok attempts byId : registry_ok byId → registry_ok (foldl try_register byId attempts).
Proof.
  revert byId; induction attempts as [|i attempts IH]; intros byId Hok; cbn; [done|]. apply IH. unfold try_register.
  destruct (register i byId) eqn:E; [by eapply register_keeps_ok|done].
Qed.

Lemma empty_registry_ok : registry_ok createCrossFieldInvariantRegistry.
Proof. split; [apply NoDup_nil_2|]. by intros k i []%elem_of_nil. Qed.

(** Whatever is offered to a registry, in whatever order: what it lists are sound
    invariants with different ids, sorted by id; [ids] are their ids, and [byScreen] lists
    those with an anchor on the screen. *)
Theorem registered_invariants_are_sound attempts :
  let byId := foldl try_register createCrossFieldInvariantRegistry attempts in
  (∀ i, i ∈ registry_list byId → i ∈ attempts ∧ sound_invariant i) ∧
  NoDup (cfi_id <$> registry_list byId) ∧ StronglySorted (cmp_le by_id) (registry_list byId) ∧
  registry_ids byId ≡ₚ cfi_id <$> registry_list byId ∧
  (∀ screen i, i ∈ byScreen byId screen ↔
     i ∈ registry_list byId ∧ ∃ a, a ∈ cfi_anchors i ∧ fa_screenId a = screen) ∧
  (∀ i, i ∈ attempts → sound_invariant i → cfi_id i ∈ registry_ids byId).
Proof.
  intros byId. destruct (attempts_keep_ok attempts _ empty_registry_ok) as [Hnd Hall]. fold byId in Hnd, Hall.
  assert (Hkeys : cfi_id <$> byId.*2 = byId.*1).
  { clear -Hall. induction byId as [|[k i] l IH]; [done|]. cbn. f_equal.
    - symmetry. apply (Hall k i). by left.
    - apply IH. intros k' i' Hin. apply Hall. by right. }
  assert (Hfrom : ∀ l acc k i, (k, i) ∈ foldl try_register acc l → (k, i) ∈ acc ∨ i ∈ l).
  { induction l as [|x l IH]; intros acc k i Hin; cbn in Hin; [by left|]. apply IH in Hin as [Hin|Hin]; [|right; by right].
    unfold try_register in Hin. destruct (register x acc) eqn:E; [|by left]. apply register_Ok in E as (_ & _ & ->).
    apply elem_of_app in Hin as [Hin|Hin%list_elem_of_singleton]; [by left|]. injection Hin as -> ->. right. by left. }
  assert (Hkeep : ∀ l acc k, k ∈ acc.*1 → k ∈ (foldl try_register acc l).*1).
  { induction l as [|x l IH]; intros acc k Hin; cbn; [done|]. apply IH. unfold try_register.
    destruct (register x acc) eqn:E; [|done]. apply register_Ok in E as (_ & _ & ->). rewrite fmap_app. set_solver. }
  split; [|split; [|split; [|split; [|split]]]].
  - intros i ([k j] & -> & Hin)%elem_of_js_sort%list_elem_of_fmap. split; [|by apply (Hall k j)].
    apply Hfrom in Hin as [[]%elem_of_nil|Hin]; done.
  - unfold registry_list. rewrite js_sort_Permutation. by rewrite Hkeys.
  - apply js_sort_sorted. unfold by_id. apply _.
  - unfold registry_ids, registry_list. by rewrite !js_sort_Permutation, Hkeys.
  - intros screen i. unfold byScreen, registry_list. rewrite !elem_of_js_sort, list_elem_of_filter, existsb_exists.
    setoid_rewrite bool_decide_eq_true. setoid_rewrite <- list_elem_of_In. naive_solver.
  - intros i Hi Hs. unfold registry_ids. rewrite elem_of_js_sort. unfold byId.
    assert (Hgo : ∀ l acc, i ∈ l → cfi_id i ∈ (foldl try_register acc l).*1).
    { induction l as [|x l IH]; intros acc; [by intros []%elem_of_nil|]. intros [->|Hin]%elem_of_cons; cbn; [|by apply IH].
      apply Hkeep. unfold try_register. destruct (register x acc) eqn:E.
      - apply register_Ok in E as (_ & _ & ->). rewrite fmap_app. set_solver.
      - destruct (decide (cfi_id x ∈ acc.*1)) as [|Hn]; [done|].
        assert (register x acc = Ok (acc ++ [(cfi_id x, x)])) by (by apply register_Ok). congruence. }
    by apply Hgo.
Qed.
End registry.

(** ** Test data *)

Section test_data.
Context `{LocaleCompare} `{RegExpEngine}.

Definition positive (v : CrossFieldOracleValue) : bool :=
  match ov_category v with cross_field_positive => true | cross_field_negative => false end.

Lemma positives_first data :
  StronglySorted (cmp_le (cmp_then (cmp_on category_rank Z.compare) (cmp_on ov_label localeCompare))) data →
  data = filter (λ v, positive v = true) data ++ filter (λ v, positive v = false) data.
Proof.
  induction 1 as [|v l _ IH Hv]; [done|]. rewrite !filter_cons. destruct (positive v) eqn:Ev.
  - rewrite decide_True, decide_False by done. cbn. by f_equal.
  - rewrite decide_False, decide_True by done.
    assert (Hnone : filter (λ x, positive x = true) l = []).
    { apply elem_of_nil_inv. intros x [Hx Hxl]%list_elem_of_filter. rewrite Forall_forall in Hv.
      specialize (Hv x Hxl). unfold cmp_le, cmp_then, cmp_on, category_rank in Hv.
      unfold positive in Hx, Ev. by destruct (ov_category v), (ov_category x). }
    rewrite Hnone in IH |- *. cbn in *. by f_equal.
Qed.

(** C20. The test data of an invariant the registry accepts is its boundary values: all
    positive ones before all negative ones, at least one of each. Evaluated against the
    invariant a positive one has no violation, one of them not vacuously, and a negative
    one has a violation at every anchor, so that every field of the expression is named. *)
Theorem test_data_walks_the_boundary i byId byId' :
  register i byId = Ok byId' →
  let data := synthesizeCrossFieldTestData i in
  data ≡ₚ oracle_value i <$> cfi_bvaSeeds i ∧
  (∃ ps ns, data = ps ++ ns ∧ ps ≠ [] ∧ ns ≠ [] ∧
     Forall (λ v, positive v = true) ps ∧ Forall (λ v, positive v = false) ns) ∧
  (∃ v result, v ∈ data ∧ positive v = true ∧
     evaluateValuationAgainstInvariant i (ov_values v) = Ok (result, []) ∧ cr_vacuous result = false) ∧
  ∀ v, v ∈ data → ∃ result violations,
    evaluateValuationAgainstInvariant i (ov_values v) = Ok (result, violations) ∧
    cr_satisfied result = positive v ∧
    (positive v = true → violations = []) ∧
    (positive v = false →
       length violations = length (cfi_anchors i) ∧
       ∀ ref, ref ∈ visitBool (cfi_expression i) → ref ∈ cv_fieldRef <$> violations).
Proof.
  intros ([_ _ [_ Hanch] Hseeds (sp & Hsp & Hpos) (sn & xn & Hsn & Hxn & Hneg)] & _)%register_Ok data.
  assert (Hperm : data ≡ₚ oracle_value i <$> cfi_bvaSeeds i) by apply js_sort_Permutation.
  assert (Hcat : ∀ s, positive (oracle_value i s) = ba_expectedSatisfied s) by (intros s; unfold positive; cbn; by destruct (ba_expectedSatisfied s)).
  split; [done|]. split.
  - exists (filter (λ v, positive v = true) data), (filter (λ v, positive v = false) data).
    assert (Hin : ∀ s, s ∈ cfi_bvaSeeds i → oracle_value i s ∈ data).
    { intros s Hs. rewrite Hperm. apply list_elem_of_fmap. by exists s. }
    split_all.
    + apply positives_first, js_sort_sorted. apply _.
    + intros Hnil. assert (Hp : oracle_value i sp ∈ filter (λ v, positive v = true) data).
      { apply list_elem_of_filter. split; [|by apply Hin]. rewrite Hcat. destruct (Hseeds sp Hsp) as (x & Hx & <-). by same_result. }
      rewrite Hnil in Hp. by apply elem_of_nil in Hp.
    + intros Hnil. assert (Hp : oracle_value i sn ∈ filter (λ v, positive v = false) data).
      { apply list_elem_of_filter. split; [|by apply Hin]. rewrite Hcat. destruct (Hseeds sn Hsn) as (x & Hx & <-). by same_result. }
      rewrite Hnil in Hp. by apply elem_of_nil in Hp.
    + apply Forall_forall. by intros v [? _]%list_elem_of_filter.
    + apply Forall_forall. by intros v [? _]%list_elem_of_filter.
  - split.
    { exists (oracle_value i sp). unfold evaluateValuationAgainstInvariant.
      change (ov_values (oracle_value i sp)) with (ba_values sp). rewrite Hpos. eexists. split_all; [|rewrite Hcat|done|done].
      - rewrite Hperm. apply list_elem_of_fmap. by exists sp.
      - destruct (Hseeds sp Hsp) as (x & Hx & <-). by same_result. }
    intros v Hv. rewrite Hperm in Hv. apply list_elem_of_fmap in Hv as (s & -> & Hs).
    destruct (Hseeds s Hs) as (x & Hx & Esat). unfold evaluateValuationAgainstInvariant.
    change (ov_values (oracle_value i s)) with (ba_values s). rewrite Hx. cbn [outcome_bind].
    eexists _, _. split; [done|]. rewrite Hcat, <- Esat. cbn. split; [done|]. split; [by intros ->|].
    intros ->. rewrite length_fmap. split; [done|]. intros ref Hr. destruct (Hanch ref Hr) as (a & Ha & <-).
    rewrite <- list_fmap_compose. apply list_elem_of_fmap. by exists a.
Qed.
End test_data.

(** ** The coverage gate *)

Lemma elem_of_bucket_add k y k' x m : y ∈ bucket k (bucket_add k' x m) ↔ y ∈ bucket k m ∨ k = k' ∧ y = x.
Proof.
  unfold bucket at 1, bucket_add. rewrite map_get_set. case_bool_decide as Hk; cbn.
  - subst k'. rewrite elem_of_set_add. naive_solver.
  - unfold bucket. naive_solver.
Qed.

Lemma bucket_add_keys k k' x m : k ∈ (bucket_add k' x m).*1 ↔ k ∈ m.*1 ∨ k = k'.
Proof.
  unfold bucket_add. rewrite map_set_keys. destruct (map_has k' m) eqn:E.
  - unfold map_has in E. apply bool_decide_eq_true, map_get_is_Some in E. naive_solver.
  - set_solver.
Qed.

Lemma elem_of_buckets {A} (f : A → string) k y x l m :
  y ∈ bucket k (foldl (λ m a, bucket_add (f a) x m) m l) ↔ y ∈ bucket k m ∨ k ∈ f <$> l ∧ y = x.
Proof.
  revert m; induction l as [|a l IH]; intros m; cbn; [|rewrite IH, elem_of_bucket_add, elem_of_cons; naive_solver].
  rewrite elem_of_nil. naive_solver.
Qed.

Lemma elem_of_plain_buckets k y x l m :
  y ∈ bucket k (foldl (λ m s, bucket_add s x m) m l) ↔ y ∈ bucket k m ∨ k ∈ l ∧ y = x.
Proof. rewrite <- (list_fmap_id l) at 2. apply (elem_of_buckets id). Qed.

Lemma buckets_keys {A} (f : A → string) k x l m :
  k ∈ (foldl (λ m a, bucket_add (f a) x m) m l).*1 ↔ k ∈ m.*1 ∨ k ∈ f <$> l.
Proof.
  revert m; induction l as [|a l IH]; intros m; cbn; [|rewrite IH, bucket_add_keys, elem_of_cons; naive_solver].
  rewrite elem_of_nil. naive_solver.
Qed.

(** The screens of an invariant. *)
Definition on_screen (i : CrossFieldInvariant) (s : string) : Prop := s ∈ fa_screenId <$> cfi_anchors i.

Lemma screen_index_keys l ix s :
  s ∈ (si_screenToInvariantIds (foldl index_invariant ix l)).*1 ↔
  s ∈ (si_screenToInvariantIds ix).*1 ∨ ∃ i, i ∈ l ∧ on_screen i s.
Proof.
  revert ix; induction l as [|i l IH]; intros ix; cbn [foldl].
  - setoid_rewrite elem_of_nil. naive_solver.
  - rewrite IH. cbn [index_invariant si_screenToInvariantIds]. rewrite buckets_keys. unfold on_screen at 1 2.
    setoid_rewrite elem_of_cons. naive_solver.
Qed.

Lemma invariant_screens l ix i :
  NoDup (cfi_id <$> l) → i ∈ l →
  map_get (cfi_id i) (si_invariantToScreenIds (foldl index_invariant ix l)) = Some (set_of (fa_screenId <$> cfi_anchors i)).
Proof.
  assert (Hother : ∀ l ix k, k ∉ cfi_id <$> l →
    map_get k (si_invariantToScreenIds (foldl index_invariant ix l)) = map_get k (si_invariantToScreenIds ix)).
  { clear. intros l; induction l as [|j l IH]; intros ix k Hk; cbn [foldl]; [done|]. rewrite IH by set_solver. cbn. rewrite map_get_set.
    by rewrite bool_decide_false by set_solver. }
  revert ix; induction l as [|j l IH]; intros ix Hnd; [by intros []%elem_of_nil|].
  apply NoDup_cons in Hnd as [Hj Hnd]. intros [->|Hin]%elem_of_cons; cbn [foldl]; [|by apply IH].
  rewrite Hother by done. cbn. by rewrite map_get_set, bool_decide_true.
Qed.

Definition screen_side (side : ClaimSide) (ix : claim_index) : list (string * list string) :=
  match side with positive_side => ci_screenPositive ix | negative_side => ci_screenNegative ix end.

Definition invariant_side (side : ClaimSide) (ix : claim_index) : list (string * list string) :=
  match side with positive_side => ci_invariantPositive ix | negative_side => ci_invariantNegative ix end.

(** A known claim of one side. *)
Definition claimed (side : ClaimSide) (known : list string) (claims : list CrossFieldCaseClaim) (id x : string) : Prop :=
  ∃ c, c ∈ claims ∧ cc_side c = side ∧ cc_invariantId c ∈ known ∧ cc_invariantId c = id ∧ cc_testCaseId c = x.

Lemma claimed_cons side known c claims id x :
  claimed side known (c :: claims) id x ↔
  (cc_side c = side ∧ cc_invariantId c ∈ known ∧ id = cc_invariantId c ∧ x = cc_testCaseId c) ∨ claimed side known claims id x.
Proof. unfold claimed. setoid_rewrite elem_of_cons. naive_solver. Qed.

Lemma claimed_nil side known id x : claimed side known [] id x ↔ False.
Proof. unfold claimed. setoid_rewrite elem_of_nil. naive_solver. Qed.

(** What one claim adds to the buckets of a side. *)
Lemma indexed_claim side known screens ix c s x :
  x ∈ bucket s (screen_side side (index_claim known screens ix c)) ↔
  x ∈ bucket s (screen_side side ix) ∨
  (cc_side c = side ∧ cc_invariantId c ∈ known ∧ s ∈ bucket (cc_invariantId c) screens ∧ x = cc_testCaseId c).
Proof.
  unfold index_claim. case_bool_decide as Hk; cbn [negb]; [|destruct side; cbn; naive_solver].
  destruct (cc_side c) eqn:Ec, side; cbn [screen_side ci_screenPositive ci_screenNegative];
    rewrite ?elem_of_plain_buckets; naive_solver.
Qed.

Lemma indexed_invariant_claim side known screens ix c id x :
  x ∈ bucket id (invariant_side side (index_claim known screens ix c)) ↔
  x ∈ bucket id (invariant_side side ix) ∨
  (cc_side c = side ∧ cc_invariantId c ∈ known ∧ id = cc_invariantId c ∧ x = cc_testCaseId c).
Proof.
  unfold index_claim. case_bool_decide as Hk; cbn [negb]; [|destruct side; cbn; naive_solver].
  destruct (cc_side c) eqn:Ec, side; cbn [invariant_side ci_invariantPositive ci_invariantNegative];
    rewrite ?elem_of_bucket_add; naive_solver.
Qed.

Lemma indexed_claims side known screens ix claims s x :
  x ∈ bucket s (screen_side side (foldl (index_claim known screens) ix claims)) ↔
  x ∈ bucket s (screen_side side ix) ∨ ∃ id, claimed side known claims id x ∧ s ∈ bucket id screens.
Proof.
  revert ix; induction claims as [|c claims IH]; intros ix; cbn [foldl].
  - setoid_rewrite claimed_nil. naive_solver.
  - rewrite IH, indexed_claim. setoid_rewrite claimed_cons. naive_solver.
Qed.

Lemma indexed_invariant_claims side known screens ix claims id x :
  x ∈ bucket id (invariant_side side (foldl (index_claim known screens) ix claims)) ↔
  x ∈ bucket id (invariant_side side ix) ∨ claimed side known claims id x.
Proof.
  revert ix; induction claims as [|c claims IH]; intros ix; cbn [foldl].
  - rewrite claimed_nil. naive_solver.
  - rewrite IH, indexed_invariant_claim, claimed_cons. tauto.
Qed.

Lemma claim_issues_warn known screens ix claims :
  Forall (λ i, is_severity i = sv_warning) (ci_issues ix) →
  Forall (λ i, is_severity i = sv_warning) (ci_issues (foldl (index_claim known screens) ix claims)).
Proof.
  revert ix; induction claims as [|c claims IH]; intros ix Hix; cbn [foldl]; [done|]. apply IH. unfold index_claim.
  case_bool_decide; cbn; [by destruct (cc_side c)|]. apply Forall_app. split; [done|]. by constructor.
Qed.

Lemma elem_of_sorted_ids `{LocaleCompare} x l : x ∈ sortedUnique l ↔ x ∈ l.
Proof. unfold sortedUnique. by rewrite elem_of_js_sort, elem_of_set_of. Qed.

Lemma sortedUnique_nil `{LocaleCompare} l : sortedUnique l = [] ↔ ∀ x, x ∉ l.
Proof.
  split.
  - intros E x Hx. rewrite <- elem_of_sorted_ids, E in Hx. by apply elem_of_nil in Hx.
  - intros Hno. apply elem_of_nil_inv. intros x Hx. rewrite elem_of_sorted_ids in Hx. by apply (Hno x).
Qed.

Section gate.
Context `{LocaleCompare} `{RegExpEngine} (byId : CrossFieldInvariantRegistry) (claims : list CrossFieldCaseClaim).
Hypothesis Hok : registry_ok byId.

Lemma listed_ids_differ : NoDup (cfi_id <$> registry_list byId).
Proof.
  destruct Hok as [Hnd Hall]. unfold registry_list. rewrite js_sort_Permutation.
  assert (Hkeys : cfi_id <$> byId.*2 = byId.*1); [|by rewrite Hkeys].
  clear -Hall. induction byId as [|[k i] l IH]; [done|]. cbn. f_equal.
  - symmetry. apply (Hall k i). by left.
  - apply IH. intros k' i' Hin. apply Hall. by right.
Qed.

(** A case claims one side of an invariant that is registered for the screen. *)
Definition exercised (side : ClaimSide) (s x : string) : Prop :=
  ∃ c i, c ∈ claims ∧ cc_side c = side ∧ cc_testCaseId c = x ∧
    i ∈ registry_list byId ∧ cfi_id i = cc_invariantId c ∧ on_screen i s.

Definition screen_in_use (s : string) : Prop := ∃ i, i ∈ registry_list byId ∧ on_screen i s.

Let ix := foldl index_invariant {| si_screenToInvariantIds := []; si_invariantToScreenIds := [] |} (registry_list byId).
Let indexed := foldl (index_claim (cfi_id <$> registry_list byId) (si_invariantToScreenIds ix))
  {| ci_screenPositive := []; ci_screenNegative := []; ci_invariantPositive := []; ci_invariantNegative := [];
     ci_issues := [] |} claims.

Lemma exercised_iff side s x : x ∈ bucket s (screen_side side indexed) ↔ exercised side s x.
Proof.
  unfold indexed. rewrite indexed_claims. unfold exercised, claimed.
  assert (Hempty : x ∉ bucket s (screen_side side {| ci_screenPositive := []; ci_screenNegative := [];
    ci_invariantPositive := []; ci_invariantNegative := []; ci_issues := [] |})) by (destruct side; apply not_elem_of_nil).
  assert (Hscreens : ∀ i, i ∈ registry_list byId → ∀ s, s ∈ bucket (cfi_id i) (si_invariantToScreenIds ix) ↔ on_screen i s).
  { intros i Hi s'. unfold bucket, ix. rewrite invariant_screens by (done || apply listed_ids_differ). apply elem_of_set_of. }
  split.
  - intros [?|(id & (c & Hc & Hside & Hk & <- & Hx) & Hs)]; [done|].
    apply list_elem_of_fmap in Hk as (i & Ei & Hi). rewrite Ei in Hs. apply Hscreens in Hs; [|done]. eauto 10.
  - intros (c & i & Hc & Hside & Hx & Hi & Ei & Hs). right. exists (cc_invariantId c). split.
    + exists c. split_all; try done. apply list_elem_of_fmap. by exists i.
    + rewrite <- Ei. by apply Hscreens.
Qed.

Lemma screens_iff s : s ∈ sortedUnique ((si_screenToInvariantIds ix).*1) ↔ screen_in_use s.
Proof.
  rewrite elem_of_sorted_ids. unfold ix. rewrite screen_index_keys. cbn. unfold screen_in_use.
  rewrite elem_of_nil. naive_solver.
Qed.

Definition missing_side (side : ClaimSide) (row : CrossFieldScreenCoverage) : bool :=
  match side with positive_side => sr_missingPositive row | negative_side => sr_missingNegative row end.

Lemma screen_row_covers s side : missing_side side (screen_row ix indexed s) = false ↔ ∃ x, exercised side s x.
Proof.
  trans (bool_decide (sortedUnique (bucket s (screen_side side indexed)) = []) = false); [by destruct side|].
  rewrite bool_decide_eq_false, sortedUnique_nil. setoid_rewrite <- exercised_iff. split.
  - intros Hne. destruct (bucket s (screen_side side indexed)) as [|x l]; [|exists x; by left].
    destruct Hne. intros x. apply not_elem_of_nil.
  - intros (x & Hx) Hno. by apply (Hno x).
Qed.

(** The issues of a row, all of them errors, are there when a side is missing. *)
Lemma row_issues_iff row : (∃ i, i ∈ row_issues row) ↔ missing_side positive_side row = true ∨ missing_side negative_side row = true.
Proof.
  unfold row_issues. cbn. destruct (sr_missingPositive row), (sr_missingNegative row); cbn; split.
  all: first [by auto | intros [i Hi]; by apply elem_of_nil in Hi | intros _; eexists; by left | by intros []].
Qed.

Lemma row_issues_errors row i : i ∈ row_issues row → is_severity i = sv_error.
Proof.
  unfold row_issues. destruct (sr_missingPositive row), (sr_missingNegative row); cbn; rewrite ?elem_of_cons, elem_of_nil; naive_solver.
Qed.

(** C21. The report: a row for every screen in use, with exactly the cases that claim a side
    of one of its invariants; and the gate blocks exactly when some screen in use lacks
    a positive or a negative case. Claims about unknown invariants never block. *)
Theorem gate_blocks_uncovered_screens jobId generatedAt :
  let report := evaluateCrossFieldInvariantCoverage jobId generatedAt byId claims in
  (∀ s, s ∈ sr_screenId <$> cov_perScreen report ↔ screen_in_use s) ∧
  (∀ row x, row ∈ cov_perScreen report →
     (x ∈ sr_positiveCaseIds row ↔ exercised positive_side (sr_screenId row) x) ∧
     (x ∈ sr_negativeCaseIds row ↔ exercised negative_side (sr_screenId row) x)) ∧
  (cov_blocked report = false ↔
     ∀ s, screen_in_use s → (∃ x, exercised positive_side s x) ∧ (∃ x, exercised negative_side s x)).
Proof.
  unfold evaluateCrossFieldInvariantCoverage. cbn zeta. fold ix. fold indexed.
  cbn [cov_perScreen cov_blocked]. split; [|split].
  - intros s. rewrite <- list_fmap_compose. change (sr_screenId ∘ screen_row ix indexed) with (λ s : string, s).
    rewrite list_fmap_id. apply screens_iff.
  - intros row x (s & -> & _)%list_elem_of_fmap. cbn. rewrite !elem_of_sorted_ids.
    split; [apply (exercised_iff positive_side)|apply (exercised_iff negative_side)].
  - rewrite <- not_true_iff_false, existsb_exists. setoid_rewrite <- list_elem_of_In. setoid_rewrite elem_of_js_sort.
    setoid_rewrite bool_decide_eq_true. setoid_rewrite elem_of_app.
    assert (Hwarn := claim_issues_warn (cfi_id <$> registry_list byId) (si_invariantToScreenIds ix)
      {| ci_screenPositive := []; ci_screenNegative := []; ci_invariantPositive := []; ci_invariantNegative := [];
         ci_issues := [] |} claims (Forall_nil_2 _)). fold indexed in Hwarn. rewrite Forall_forall in Hwarn.
    split.
    + intros Hno s Hs%screens_iff.
      assert (Hrow : ¬ ∃ i, i ∈ row_issues (screen_row ix indexed s)).
      { intros [i Hi]. apply Hno. exists i. split; [right|by eapply row_issues_errors]. apply list_elem_of_In, in_flat_map.
        exists (screen_row ix indexed s). rewrite <- !list_elem_of_In. split; [|done]. by apply list_elem_of_fmap_2. }
      rewrite row_issues_iff in Hrow. rewrite <- !screen_row_covers.
      split; apply not_true_iff_false; tauto.
    + intros Hall (i & [Hi|Hi] & Hsev); [specialize (Hwarn i Hi); congruence|].
      apply list_elem_of_In, in_flat_map in Hi as (row & Hrow & Hi). rewrite <- !list_elem_of_In in *.
      apply list_elem_of_fmap in Hrow as (s & -> & Hs%screens_iff). destruct (Hall s Hs) as [Hp Hn].
      rewrite <- screen_row_covers in Hp, Hn.
      assert (Hsome : ∃ i, i ∈ row_issues (screen_row ix indexed s)) by eauto.
      rewrite row_issues_iff in Hsome. destruct Hsome; congruence.
Qed.
End gate.

(** ** The catalogue *)

Section engines.
Context (E1 E2 : RegExpEngine).

(** The patterns of an expression, with their flags. *)
Fixpoint patterns (e : InvariantBoolExpr) : list (string * string) :=
  match e with
  | matches_regex _ p f => [(p, default "" f)]
  | be_and l | be_or l => flat_map patterns l
  | be_not o => patterns o
  | be_implies a c => patterns a ++ patterns c
  | _ => []
  end.

(** Both engines refuse a pattern, or its tests agree on every text. *)
Definition engines_agree (p : string * string) : Prop :=
  match @regexp E1 p.1 p.2, @regexp E2 p.1 p.2 with
  | Some f, Some g => ∀ s, f s = g s
  | None, None => True
  | _, _ => False
  end.

Lemma evaluation_by_engine e v :
  Forall engines_agree (patterns e) → @evaluateBoolExpr E1 e v = @evaluateBoolExpr E2 e v.
Proof.
  assert (Hmap : ∀ l, Forall (λ e, Forall engines_agree (patterns e) → @evaluateBoolExpr E1 e v = @evaluateBoolExpr E2 e v) l →
    Forall engines_agree (flat_map patterns l) → Forall (λ e, @evaluateBoolExpr E1 e v = @evaluateBoolExpr E2 e v) l).
  { induction 1 as [|x l Hx _ IH]; cbn; [done|]. rewrite Forall_app. intros [? ?]. constructor; auto. }
  induction e as [b|l r|l r|l r|l r|l r t|l r c|e set c|e p f|ref|ref|l IH|l IH|e IH|a c IHa IHc]
    using bool_expr_nested_ind; cbn [patterns]; intros Hp; try done; cbn [evaluateBoolExpr].
  - rewrite Forall_singleton in Hp. unfold engines_agree in Hp. cbn [fst snd] in Hp.
    destruct (evaluateStringExpr e v) as [s|]; [|done]. cbn [outcome_bind]. destruct (@regexp E1 _ _), (@regexp E2 _ _); try done. by rewrite Hp.
  - by apply all_agrees, Hmap.
  - by apply any_agrees, Hmap.
  - by rewrite IH.
  - apply Forall_app in Hp as [? ?]. by rewrite IHa, IHc.
Qed.

Lemma sound_by_engine i :
  Forall engines_agree (patterns (cfi_expression i)) → @sound_invariant E2 i → @sound_invariant E1 i.
Proof.
  intros Hp [Hid Hd Ha Hs Hpos Hneg].
  assert (Heq : ∀ v, @evaluateInvariantExpression E1 (cfi_expression i) v = @evaluateInvariantExpression E2 (cfi_expression i) v)
    by (intros v; by apply evaluation_by_engine).
  split; try done; by setoid_rewrite Heq.
Qed.
End engines.

(** The soundness of an invariant, computed. *)
Definition sound_check `{RegExpEngine} (i : CrossFieldInvariant) : bool :=
  let verdict s := match evaluateInvariantExpression (cfi_expression i) (ba_values s) with Ok x => Some x | Throw _ => None end in
  id_ok (cfi_id i) && negb (is_blank (cfi_description i)) && negb (is_nil (cfi_anchors i)) &&
  forallb (λ ref, bool_decide (ref ∈ fa_fieldRef <$> cfi_anchors i)) (visitBool (cfi_expression i)) &&
  forallb (λ s, from_option (λ x, eqb (satisfied x) (ba_expectedSatisfied s)) false (verdict s)) (cfi_bvaSeeds i) &&
  existsb (λ s, from_option (λ x, satisfied x && negb (vacuous x)) false (verdict s)) (cfi_bvaSeeds i) &&
  existsb (λ s, from_option (λ x, negb (satisfied x)) false (verdict s)) (cfi_bvaSeeds i).

Lemma sound_check_sound `{RegExpEngine} i : sound_check i = true → sound_invariant i.
Proof.
  unfold sound_check. rewrite !andb_true_iff, !negb_true_iff, !forallb_forall, !existsb_exists.
  setoid_rewrite <- list_elem_of_In. intros [[[[[[Hid Hd] Hne] Ha] Hs] (sp & Hsp & Hp)] (sn & Hsn & Hn)].
  split; try done.
  - split; [by destruct (cfi_anchors i)|]. intros ref Hr%Ha%bool_decide_eq_true. apply list_elem_of_fmap in Hr as (a & -> & Hin). by exists a.
  - intros s Hin%Hs. destruct (evaluateInvariantExpression (cfi_expression i) (ba_values s)) as [x|] eqn:Ex; cbn in Hin; [|done].
    exists x. by apply eqb_prop in Hin.
  - exists sp. split; [done|]. destruct (evaluateInvariantExpression (cfi_expression i) (ba_values sp)) as [[sa va]|]; cbn in Hp; [|done].
    by destruct sa, va.
  - destruct (evaluateInvariantExpression (cfi_expression i) (ba_values sn)) as [x|] eqn:Ex; cbn in Hn; [|done].
    exists sn, x. by apply negb_true_iff in Hn.
Qed.

Lemma register_all `{LocaleCompare} `{RegExpEngine} l byId :
  Forall sound_invariant l → NoDup (byId.*1 ++ (cfi_id <$> l)) →
  outcome_foldl (λ r i, register i r) byId l = Ok (byId ++ ((λ i, (cfi_id i, i)) <$> l)).
Proof.
  intros Hl. revert byId; induction Hl as [|i l Hi _ IH]; intros byId Hnd; cbn [outcome_foldl]; [by rewrite app_nil_r|].
  assert (Hreg : register i byId = Ok (byId ++ [(cfi_id i, i)])).
  { apply register_Ok. split; [done|]. split; [|done]. rewrite fmap_cons in Hnd. apply NoDup_app in Hnd as (_ & Hdis & _).
    intros Hin. apply (Hdis _ Hin). by left. }
  rewrite Hreg. cbn [outcome_bind]. rewrite IH; [by rewrite <- app_assoc|].
  rewrite fmap_app. cbn. by rewrite <- app_assoc.
Qed.

(** The texts the one pattern of the catalogue accepts: a country of the SEPA rule, and
    a digit. *)
Definition sepa_country_and_digit (s : string) : bool :=
  match s with
  | String a (String b (String d _)) =>
      bool_decide (String a (String b "") ∈ ["DE"; "AT"; "LU"; "NL"]) && is_decimal_digit d
  | _ => false
  end.

Definition iban_pattern : string := "^(DE|AT|LU|NL)\d".

Definition catalogue_engine : RegExpEngine :=
  {| regexp p f := if bool_decide (p = iban_pattern ∧ f = "") then Some sepa_country_and_digit else None |}.

Definition catalogue : list CrossFieldInvariant := ALL_BANKING_BUILDERS ++ ALL_INSURANCE_BUILDERS.

Lemma catalogue_patterns : forallb (λ i, forallb (λ p, bool_decide (p = (iban_pattern, ""))) (patterns (cfi_expression i))) catalogue = true.
Proof. vm_compute. reflexivity. Qed.

Lemma catalogue_checks : forallb (@sound_check catalogue_engine) catalogue = true.
Proof. vm_compute. reflexivity. Qed.

(** The catalogue registers as a whole: every one of its 23 invariants is sound, and no
    two share an id. *)
Theorem catalogue_registers `{LocaleCompare} `{RegExpEngine} test :
  regexp iban_pattern "" = Some test → (∀ s, test s = sepa_country_and_digit s) →
  ∃ byId, buildDefaultCrossFieldInvariantRegistry = Ok byId ∧ byId.*2 = catalogue ∧ length byId = 23%nat ∧ registry_ok byId.
Proof.
  intros Hre Htest.
  assert (Hsound : Forall sound_invariant catalogue).
  { apply Forall_forall. intros i Hi. pose proof catalogue_checks as Hc. pose proof catalogue_patterns as Hp.
    rewrite forallb_forall in Hc, Hp. setoid_rewrite <- list_elem_of_In in Hc. setoid_rewrite <- list_elem_of_In in Hp.
    apply (sound_by_engine _ catalogue_engine); [|by apply sound_check_sound, Hc].
    apply Forall_forall. intros p Hin. specialize (Hp i Hi). rewrite forallb_forall in Hp.
    apply list_elem_of_In, Hp, bool_decide_eq_true in Hin as ->. unfold engines_agree. cbn [fst snd]. rewrite Hre.
    exact Htest. }
  assert (Hnd : NoDup (cfi_id <$> catalogue)) by (apply (bool_decide_unpack _); vm_compute; exact I).
  unfold catalogue in *. rewrite fmap_app in Hnd. apply Forall_app in Hsound as [Hb Hi].
  unfold buildDefaultCrossFieldInvariantRegistry, registerEuBankingCrossFieldInvariants, createCrossFieldInvariantRegistry.
  rewrite register_all; [|done|by apply NoDup_app in Hnd as (? & _ & _)]. cbn [outcome_bind app].
  assert (Hfst : ∀ l : list CrossFieldInvariant, ((λ i, (cfi_id i, i)) <$> l).*1 = cfi_id <$> l)
    by (intros l; by rewrite <- list_fmap_compose).
  assert (Hsnd : ∀ l : list CrossFieldInvariant, ((λ i, (cfi_id i, i)) <$> l).*2 = l)
    by (intros l; rewrite <- list_fmap_compose; apply list_fmap_id).
  rewrite register_all by (done || by rewrite Hfst).
  eexists. split; [done|]. split; [by rewrite fmap_app, !Hsnd|]. split; [by rewrite length_app, !length_fmap|].
  split; [by rewrite fmap_app, !Hfst|].
  intros k i Hin. rewrite <- fmap_app in Hin. apply list_elem_of_fmap in Hin as (j & [= -> ->] & Hj). split; [done|].
  apply elem_of_app in Hj as [Hj|Hj]; [rewrite Forall_forall in Hb; by apply Hb|rewrite Forall_forall in Hi; by apply Hi].
Qed.

(** ** Findings *)

Definition no_engine : RegExpEngine := {| regexp _ _ := None |}.

Definition evaluate_sample (e : InvariantBoolExpr) (values : list (string * string)) : outcome InvariantError BoolVerdict :=
  @evaluateInvariantExpression no_engine e (list_to_map values).

(** Whether a satisfied [or] is vacuous depends on the order of its operands. *)
Theorem or_vacuity_depends_on_order :
  let unmatched := be_implies (bool_lit false) (bool_lit true) in
  evaluate_sample (be_or [unmatched; bool_lit true]) [] = Ok {| satisfied := true; vacuous := true |} ∧
  evaluate_sample (be_or [bool_lit true; unmatched]) [] = Ok {| satisfied := true; vacuous := false |}.
Proof. vm_compute. done. Qed.

(** The negation of a conditional whose antecedent is false is not satisfied, and
    reported as vacuous. *)
Theorem unsatisfied_and_vacuous :
  evaluate_sample (be_not (be_implies (bool_lit false) (bool_lit true))) [] = Ok {| satisfied := false; vacuous := true |}.
Proof. vm_compute. done. Qed.

(** An amount in the German format is read up to its first comma or second point. *)
Theorem german_amount_is_truncated :
  parseFloat "60.000,00" = Fin 60 ∧ parseFloat "1.500.000" = Fin (3 # 2) ∧ parseFloat "30 EUR" = Fin 30.
Proof. vm_compute. done. Qed.

(** A conditional inside a conditional: the only positive boundary value leaves the inner
    antecedent false, so that the innermost rule is never exercised, and the invariant
    registers all the same. *)
Definition nested_invariant : CrossFieldInvariant :=
  {| cfi_id := "XINV-NESTED"; cfi_scope := sc_screen; cfi_description := "nested";
     cfi_expression := be_implies (eq_string (field_string "a") (string_lit "1") false)
       (be_implies (eq_string (field_string "b") (string_lit "1") false) (eq_string (field_string "c") (string_lit "1") false));
     cfi_severity := sv_error; cfi_citation := cite "none" "none" None;
     cfi_anchors := [anchor "s" "ea" "a" None; anchor "s" "eb" "b" None; anchor "s" "ec" "c" None];
     cfi_bvaSeeds := [seed "inner antecedent false" [("a", "1"); ("b", "0"); ("c", "0")] true "";
                      seed "violated" [("a", "1"); ("b", "1"); ("c", "0")] false ""];
     cfi_source := SOURCE |}.

Theorem inner_vacuity_is_lost :
  match @register code_unit_collation no_engine nested_invariant [] with Ok byId => length byId = 1%nat | Throw _ => False end ∧
  ∀ s, s ∈ cfi_bvaSeeds nested_invariant → ba_expectedSatisfied s = true →
    evaluate_sample (eq_string (field_string "b") (string_lit "1") false) (map_to_list (ba_values s)) = Ok (plain false).
Proof.
  split; [vm_compute; reflexivity|]. intros s [->|[->|[]%elem_of_nil]%elem_of_cons]%elem_of_cons; [|done].
  intros _. vm_compute. reflexivity.
Qed.

(** The banking list of the catalogue has fifteen invariants. *)
Theorem catalogue_counts : length ALL_BANKING_BUILDERS = 15%nat ∧ length ALL_INSURANCE_BUILDERS = 8%nat.
Proof. done. Qed.

(** ** Witnesses *)

Lemma verdict_depends_on_its_fields_witness :
  @evaluateInvariantExpression no_engine (field_present "iban") (list_to_map [("iban", "DE89"); ("note", "x")]) =
  @evaluateInvariantExpression no_engine (field_present "iban") (list_to_map [("iban", "DE89"); ("note", "y")]).
Proof.
  apply (@verdict_depends_on_its_fields no_engine code_unit_collation). intros ref Hr.
  assert (E : ref = "iban").
  { change (collectInvariantFieldRefs (field_present "iban")) with ["iban"] in Hr. by apply list_elem_of_singleton in Hr. }
  subst ref. vm_compute. reflexivity.
Defined.

Lemma verdict_is_truth_witness :
  @holds no_engine (cfi_expression buildKonsumentenkreditDtiInvariant)
    (list_to_map [("monthly_rate", "3000"); ("jahresbrutto", "60000")]).
Proof.
  apply (@verdict_is_truth no_engine (cfi_expression buildKonsumentenkreditDtiInvariant)
    (list_to_map [("monthly_rate", "3000"); ("jahresbrutto", "60000")]) (plain true)); vm_compute; reflexivity.
Defined.

Lemma catalogue_is_sound i : i ∈ catalogue → @sound_invariant catalogue_engine i.
Proof.
  intros Hi. apply sound_check_sound. pose proof catalogue_checks as Hc. rewrite forallb_forall in Hc.
  apply Hc. by apply list_elem_of_In.
Qed.

Lemma test_data_walks_the_boundary_witness :
  ∃ v, v ∈ @synthesizeCrossFieldTestData code_unit_collation buildMifidComplexExperienceInvariant ∧ positive v = false ∧
    ∃ result violations,
      @evaluateValuationAgainstInvariant catalogue_engine buildMifidComplexExperienceInvariant (ov_values v) = Ok (result, violations) ∧
      "investor_experience" ∈ cv_fieldRef <$> violations.
Proof.
  destruct (@test_data_walks_the_boundary code_unit_collation catalogue_engine buildMifidComplexExperienceInvariant
    createCrossFieldInvariantRegistry [(cfi_id buildMifidComplexExperienceInvariant, buildMifidComplexExperienceInvariant)])
    as (Hperm & _ & _ & Hall).
  { vm_compute. reflexivity. }
  set (v := oracle_value buildMifidComplexExperienceInvariant
    (List.last (cfi_bvaSeeds buildMifidComplexExperienceInvariant) (seed "" [] true ""))).
  assert (Hv : v ∈ @synthesizeCrossFieldTestData code_unit_collation buildMifidComplexExperienceInvariant).
  { rewrite Hperm. do 2 apply list_elem_of_further. apply list_elem_of_here. }
  exists v. split; [exact Hv|]. split; [reflexivity|].
  destruct (Hall v Hv) as (result & violations & He & _ & _ & Hneg). exists result, violations. split; [exact He|].
  apply Hneg; [reflexivity|]. vm_compute. right. left.
Defined.

Lemma catalogue_registers_witness :
  ∃ byId, @buildDefaultCrossFieldInvariantRegistry code_unit_collation catalogue_engine = Ok byId ∧ length byId = 23%nat.
Proof.
  destruct (@catalogue_registers code_unit_collation catalogue_engine sepa_country_and_digit) as (byId & Hb & _ & Hl & _);
    [reflexivity|reflexivity|]. exists byId. split; [exact Hb|exact Hl].
Defined.

Definition gate_registry : CrossFieldInvariantRegistry :=
  [(cfi_id buildKonsumentenkreditDtiInvariant, buildKonsumentenkreditDtiInvariant)].

Lemma gate_blocks_uncovered_screens_witness :
  cov_blocked (@evaluateCrossFieldInvariantCoverage code_unit_collation "job" "now" gate_registry
    [{| cc_testCaseId := "tc1"; cc_invariantId := "XINV-BANK-DTI-01"; cc_side := positive_side |};
     {| cc_testCaseId := "tc2"; cc_invariantId := "XINV-BANK-DTI-01"; cc_side := negative_side |}]) = false.
Proof.
  apply (@gate_blocks_uncovered_screens code_unit_collation catalogue_engine gate_registry
    [{| cc_testCaseId := "tc1"; cc_invariantId := "XINV-BANK-DTI-01"; cc_side := positive_side |};
     {| cc_testCaseId := "tc2"; cc_invariantId := "XINV-BANK-DTI-01"; cc_side := negative_side |}]).
  - split; [apply NoDup_singleton|]. intros k i Hin. apply list_elem_of_singleton in Hin. injection Hin as -> ->.
    split; [reflexivity|]. apply catalogue_is_sound. unfold catalogue, ALL_BANKING_BUILDERS. apply list_elem_of_here.
  - intros s (i & Hi & Hs). split; [exists "tc1"|exists "tc2"]; unfold exercised.
    + eexists _, i. split; [left|]. split; [reflexivity|]. split; [reflexivity|]. split; [exact Hi|]. split; [|exact Hs].
      change (registry_list gate_registry) with [buildKonsumentenkreditDtiInvariant] in Hi.
      apply list_elem_of_singleton in Hi as ->. reflexivity.
    + eexists _, i. split; [right; left|]. split; [reflexivity|]. split; [reflexivity|]. split; [exact Hi|]. split; [|exact Hs].
      change (registry_list gate_registry) with [buildKonsumentenkreditDtiInvariant] in Hi.
      apply list_elem_of_singleton in Hi as ->. reflexivity.
Defined.
