(* ===== verification/SelfConsistency.v ===== *)
(** * Self-consistency vote over generated samples

    [packages/quality/src/self-consistency-voter.ts]: the lists several samples of the
    generator produced are merged, case by case and field by field, by majority.

    Of a test case the fields the voter reads or writes are kept, the others are a value
    it copies. [json_text] is the text of a canonical JSON value. Numbers are exact and
    square roots are taken to twenty decimals, far below the six that are reported.

    A vote elects the value most samples share; a target is sent to review exactly when
    some field has no value a majority shares; the report has a row per target. The runs
    behind the findings are at the end. *)

From S2P Require Import Prelude JsString NodePath JsList JsValue CanonicalJson Contracts FinOpsRecorder.
From S2P Require Import ArtifactFiles FilePrograms.

(** ** Data *)

Record GeneratedTestCaseStep := {
  st_index : Z;
  st_action : string;
  st_expected : option string;
  st_others : list (string * json);
}.

Record SampledTestCase := {
  sa_id : string;
  sa_type : string;
  sa_technique : string;
  sa_riskCategory : string;
  sa_steps : list GeneratedTestCaseStep;
  sa_screenIds : list string;
  sa_coveredFieldIds : list string;
  sa_coveredActionIds : list string;
  sa_coveredValidationIds : list string;
  sa_coveredNavigationIds : list string;
  sa_confidence : jsnum;
  sa_reviewState : string;
  sa_openQuestions : list string;
  sa_others : json;
}.

Record SampleList := { sl_schemaVersion : string; sl_jobId : string; sl_testCases : list SampledTestCase }.

Inductive ConsensusStrength : Type := strong_consensus | weak_consensus.

#[export] Instance ConsensusStrength_eq_dec : EqDecision ConsensusStrength.
Proof. solve_decision. Defined.

Inductive VoteField : Type := vf_type | vf_technique | vf_riskCategory | vf_step_action | vf_step_expected.

Definition VoteField_label (f : VoteField) : string :=
  match f with
  | vf_type => "type" | vf_technique => "technique" | vf_riskCategory => "riskCategory"
  | vf_step_action => "step_action" | vf_step_expected => "step_expected"
  end.

Inductive SelfConsistencyDisagreementRoute : Type := human_review | cross_family_arbitration.

Definition route_label (r : SelfConsistencyDisagreementRoute) : string :=
  match r with human_review => "human_review" | cross_family_arbitration => "cross_family_arbitration" end.

Record VoteScalarResult := {
  vs_winner : option string;
  vs_majorityCount : nat;
  vs_agreementRate : Q;
  vs_confidenceInterval95 : Q * Q;
  vs_bootstrapSampleSize : nat;
  vs_consensusStrength : ConsensusStrength;
}.

(** [agreement] is the agreement rate, and [majorityValue] the winner. *)
Record SelfConsistencyFieldVote := {
  fv_field : VoteField;
  fv_stepIndex : option nat;
  fv_vote : VoteScalarResult;
}.

Record SelfConsistencyTargetReportEntry := {
  te_targetKey : string;
  te_selectedTestCaseId : string;
  te_samplePresenceCount : nat;
  te_agreement : Q;
  te_consensusStrength : ConsensusStrength;
  te_disagreement : bool;
  te_disagreementRoute : option SelfConsistencyDisagreementRoute;
  te_arbitrationTriggered : bool;
  te_votes : list SelfConsistencyFieldVote;
}.

Record SelfConsistencyReport := {
  sr_generatedAt : string;
  sr_jobId : string;
  sr_sampleCount : nat;
  sr_selfConsistencyAgreement : Q;
  sr_targets : list SelfConsistencyTargetReportEntry;
}.

Inductive VoteError : Type := no_samples | foreign_sample (index : nat) | empty_runDir.

(** ** Keys *)

Definition canonicalTrim (value : string) : string := collapse_spaces false (trim value).

Definition uniqueSorted `{LocaleCompare} (values : list string) : list string := js_sort localeCompare (set_of values).

Definition deriveTargetKey `{LocaleCompare} (json_text : json → string) (testCase : SampledTestCase) : string :=
  let ids l := JArray (JString <$> uniqueSorted l) in
  json_text (canonicalJson (JObject
    [("screenIds", ids (sa_screenIds testCase)); ("coveredFieldIds", ids (sa_coveredFieldIds testCase));
     ("coveredActionIds", ids (sa_coveredActionIds testCase));
     ("coveredValidationIds", ids (sa_coveredValidationIds testCase));
     ("coveredNavigationIds", ids (sa_coveredNavigationIds testCase))])).

(** ** Numbers *)

(** [Number(value.toFixed(6))] of a number that is not negative. *)
Definition to_fixed6 (value : Q) : Q := 
  Qred (inject_Z (Qfloor (value * inject_Z (10 ^ 6) + (1 # 2))) / inject_Z (10 ^ 6))%Q.

Definition WILSON_Z_95 : Q := 1959963984540054 # 1000000000000000.
Definition SELF_CONSISTENCY_WEAK_LOWER_BOUND_THRESHOLD : Q := 3 # 5.

Definition square_root (q : Q) : Q := (inject_Z (Z.sqrt (Qfloor (q * inject_Z (10 ^ 40)))) / inject_Z (10 ^ 20))%Q.

Definition of_nat (n : nat) : Q := inject_Z (Z.of_nat n).

Definition wilsonInterval95 (successCount sampleSize : nat) : Q * Q :=
  if bool_decide (sampleSize = 0%nat) then (0%Q, 0%Q)
  else
    let s := of_nat successCount in
    let n := of_nat sampleSize in
    let z2 := Qred (WILSON_Z_95 * WILSON_Z_95)%Q in
    let denominator := Qred (1 + z2 / n)%Q in
    let center := Qred ((s / n + z2 / (2 * n)) / denominator)%Q in
    let margin := Qred (WILSON_Z_95 / denominator * square_root (s * (n - s) / (n * n * n) + z2 / (4 * (n * n))))%Q in
    let low := Qred (center - margin)%Q in
    let high := Qred (center + margin)%Q in
    (to_fixed6 (if Qle_bool 0 low then low else 0%Q), to_fixed6 (if Qle_bool high 1 then high else 1%Q)).

Definition majorityThreshold (sampleCount : nat) : nat := S (sampleCount / 2).

(** ** One vote *)

Definition vote_key (value : option string) : string := default "__undefined__" value.

(** [counts]: how often a key was seen, and the first value with it. *)
Definition count_value (counts : list (string * (nat * option string))) (value : option string) :
    list (string * (nat * option string)) :=
  match map_get (vote_key value) counts with
  | None => map_set (vote_key value) (1%nat, value) counts
  | Some (n, first) => map_set (vote_key value) (S n, first) counts
  end.

Section vote.
Context `{LocaleCompare}.

Definition better (candidate winner : nat * option string) : bool :=
  (winner.1 <? candidate.1)%nat ||
  ((candidate.1 =? winner.1)%nat &&
   match localeCompare (default "" candidate.2) (default "" winner.2) with Lt => true | _ => false end).

Definition elect (counts : list (string * (nat * option string))) : option (nat * option string) :=
  foldl (λ winner entry, match winner with
                         | None => Some entry.2
                         | Some w => if better entry.2 w then Some entry.2 else Some w
                         end) None counts.

Definition voteScalar (values : list (option string)) (sampleCount : nat) : VoteScalarResult :=
  let winner := elect (foldl count_value [] values) in
  let majorityCount := from_option fst 0%nat winner in
  let interval := wilsonInterval95 majorityCount sampleCount in
  {| vs_winner := winner ≫= snd; vs_majorityCount := majorityCount;
     vs_agreementRate := if bool_decide (sampleCount = 0%nat) then 0%Q else to_fixed6 (of_nat majorityCount / of_nat sampleCount)%Q;
     vs_confidenceInterval95 := interval; vs_bootstrapSampleSize := sampleCount;
     vs_consensusStrength :=
       if bool_decide (sampleCount = 3%nat) && (majorityThreshold sampleCount <=? majorityCount)%nat &&
          (majorityCount <? sampleCount)%nat &&
          negb (Qle_bool SELF_CONSISTENCY_WEAK_LOWER_BOUND_THRESHOLD interval.1)
       then weak_consensus else strong_consensus |}.

(** ** Targets *)

(** The first sample index and its case, for every sample that has the target. *)
Definition IndexedCase : Type := nat * SampledTestCase.

Definition index_case (json_text : json → string) (sampleIndex : nat)
    (st : list (string * list IndexedCase) * list string) (testCase : SampledTestCase) :
    list (string * list IndexedCase) * list string :=
  let '(targets, seen) := st in
  let key := deriveTargetKey json_text testCase in
  if bool_decide (key ∈ seen) then st
  else (map_set key (default [] (map_get key targets) ++ [(sampleIndex, testCase)]) targets, set_add seen key).

Definition index_sample (json_text : json → string) (targets : list (string * list IndexedCase))
    (sample : nat * SampleList) : list (string * list IndexedCase) :=
  (foldl (index_case json_text sample.1) (targets, [])
     (js_sort (cmp_on sa_id localeCompare) (sl_testCases sample.2))).1.

Definition stableCaseSort : IndexedCase → IndexedCase → comparison :=
  cmp_then (cmp_on fst Nat.compare) (cmp_on (sa_id ∘ snd) localeCompare).

(** [sampleByIndex.get(index)] *)
Definition sample_at (samples : list IndexedCase) (index : nat) : option SampledTestCase :=
  snd <$> last (filter (λ p, p.1 = index) samples).

Definition vote_on (samples : list IndexedCase) (sampleCount : nat) (field : VoteField) (stepIndex : option nat)
    (read : SampledTestCase → option string) : SelfConsistencyFieldVote :=
  {| fv_field := field; fv_stepIndex := stepIndex;
     fv_vote := voteScalar ((λ index, sample_at samples index ≫= read) <$> seq 0 sampleCount) sampleCount |}.

(** The value a majority voted for. *)
Definition decided (threshold : nat) (vote : SelfConsistencyFieldVote) : option string :=
  if (threshold <=? vs_majorityCount (fv_vote vote))%nat then vs_winner (fv_vote vote) else None.

Definition with_action (action : string) (s : GeneratedTestCaseStep) : GeneratedTestCaseStep :=
  {| st_index := st_index s; st_action := action; st_expected := st_expected s; st_others := st_others s |}.
Definition with_expected (expected : string) (s : GeneratedTestCaseStep) : GeneratedTestCaseStep :=
  {| st_index := st_index s; st_action := st_action s; st_expected := Some expected; st_others := st_others s |}.

(** One turn of the loop over the steps: the steps of the merged case and the votes. *)
Definition vote_step (samples : list IndexedCase) (sampleCount : nat)
    (st : list GeneratedTestCaseStep * list SelfConsistencyFieldVote) (stepIndex : nat) :
    list GeneratedTestCaseStep * list SelfConsistencyFieldVote :=
  let threshold := majorityThreshold sampleCount in
  let '(steps, votes) := st in
  let action := vote_on samples sampleCount vf_step_action (Some stepIndex)
    (λ c, canonicalTrim ∘ st_action <$> sa_steps c !! stepIndex) in
  let steps := match decided threshold action with
               | None => steps
               | Some winner =>
                   match steps !! stepIndex with
                   | None => steps ++ [{| st_index := Z.of_nat stepIndex + 1; st_action := winner; st_expected := None; st_others := [] |}]
                   | Some s => <[stepIndex := with_action winner s]> steps
                   end
               end in
  let expected := vote_on samples sampleCount vf_step_expected (Some stepIndex)
    (λ c, canonicalTrim <$> (sa_steps c !! stepIndex ≫= st_expected)) in
  let steps := match decided threshold expected, steps !! stepIndex with
               | Some winner, Some s => <[stepIndex := with_expected winner s]> steps
               | _, _ => steps
               end in
  (steps, votes ++ [action; expected]).

Definition renumber (steps : list GeneratedTestCaseStep) : list GeneratedTestCaseStep :=
  imap (λ i s, {| st_index := Z.of_nat i + 1; st_action := st_action s; st_expected := st_expected s; st_others := st_others s |}) steps.

Definition mean6 (values : list Q) : Q :=
  match values with [] => 1%Q | _ => to_fixed6 (foldl Qplus 0 values / of_nat (length values))%Q end.

Definition buildDisagreementMarker (targetKey : string) (votes : list SelfConsistencyFieldVote)
    (route : SelfConsistencyDisagreementRoute) : string :=
  let disputed := join ", " ((λ v, match fv_stepIndex v with
                                   | None => VoteField_label (fv_field v)
                                   | Some i => VoteField_label (fv_field v) +:+ "[" +:+ pretty (Z.of_nat i) +:+ "]"
                                   end) <$> filter (λ v, (vs_majorityCount (fv_vote v) < 2)%nat) votes) in
  "self_consistency_disagreement: route=" +:+ route_label route +:+ "; target=" +:+ targetKey +:+ "; fields=" +:+ disputed.

(** A target: its merged case and its row of the report. *)
Definition merge_target (sampleCount : nat) (route : SelfConsistencyDisagreementRoute) (arbitrationTriggered : bool)
    (targetKey : string) (samples : list IndexedCase) (base : SampledTestCase) :
    SampledTestCase * SelfConsistencyTargetReportEntry :=
  let threshold := majorityThreshold sampleCount in
  let typeVote := vote_on samples sampleCount vf_type None (Some ∘ sa_type) in
  let techniqueVote := vote_on samples sampleCount vf_technique None (Some ∘ sa_technique) in
  let riskCategoryVote := vote_on samples sampleCount vf_riskCategory None (Some ∘ sa_riskCategory) in
  let maxStepCount := foldl Nat.max 0%nat ((length ∘ sa_steps ∘ snd) <$> samples) in
  let '(steps, votes) := foldl (vote_step samples sampleCount)
    (sa_steps base, [typeVote; techniqueVote; riskCategoryVote]) (seq 0 maxStepCount) in
  let agreement := mean6 ((vs_agreementRate ∘ fv_vote) <$> votes) in
  let disagreement := existsb (λ v, vs_majorityCount (fv_vote v) <? threshold)%nat votes in
  let marker := buildDisagreementMarker targetKey votes route in
  ({| sa_id := sa_id base;
      sa_type := default (sa_type base) (decided threshold typeVote);
      sa_technique := default (sa_technique base) (decided threshold techniqueVote);
      sa_riskCategory := default (sa_riskCategory base) (decided threshold riskCategoryVote);
      sa_steps := renumber steps; sa_screenIds := sa_screenIds base;
      sa_coveredFieldIds := sa_coveredFieldIds base; sa_coveredActionIds := sa_coveredActionIds base;
      sa_coveredValidationIds := sa_coveredValidationIds base;
      sa_coveredNavigationIds := sa_coveredNavigationIds base;
      sa_confidence := js_min (sa_confidence base) (Fin agreement);
      sa_reviewState := if disagreement then "needs_review" else sa_reviewState base;
      sa_openQuestions :=
        if disagreement && negb (bool_decide (marker ∈ sa_openQuestions base))
        then sa_openQuestions base ++ [marker] else sa_openQuestions base;
      sa_others := sa_others base |},
   {| te_targetKey := targetKey; te_selectedTestCaseId := sa_id base; te_samplePresenceCount := length samples;
      te_agreement := agreement;
      te_consensusStrength :=
        if existsb (λ v, bool_decide (vs_consensusStrength (fv_vote v) = weak_consensus)) votes
        then weak_consensus else strong_consensus;
      te_disagreement := disagreement; te_disagreementRoute := if disagreement then Some route else None;
      te_arbitrationTriggered := arbitrationTriggered; te_votes := votes |}).

(** The group of a target is never empty, so that it has a first case. *)
Definition merge_group (sampleCount : nat) (route : SelfConsistencyDisagreementRoute) (arbitrationTriggered : bool)
    (entry : string * list IndexedCase) : list (SampledTestCase * SelfConsistencyTargetReportEntry) :=
  let orderedSamples := js_sort stableCaseSort entry.2 in
  match orderedSamples with
  | [] => []
  | first :: _ => [merge_target sampleCount route arbitrationTriggered entry.1 orderedSamples first.2]
  end.

Record VoteInput := {
  vi_jobId : string;
  vi_generatedAt : string;
  vi_lists : list SampleList;
  vi_disagreementRoute : option SelfConsistencyDisagreementRoute;
  vi_arbitrationTriggered : bool;
}.

Definition indexed (lists : list SampleList) : list (nat * SampleList) := imap (λ i l, (i, l)) lists.

Definition check_samples (jobId : string) (samples : list (nat * SampleList)) : outcome VoteError unit :=
  outcome_foldl (λ _ s, guard_throw (negb (bool_decide (sl_jobId s.2 = jobId))) (foreign_sample s.1)) tt samples.

Definition voteGeneratedTestCaseSamples (json_text : json → string) (input : VoteInput) :
    outcome VoteError (SampleList * SelfConsistencyReport) :=
  match vi_lists input with
  | [] => Throw no_samples
  | firstList :: _ =>
      let sampleCount := length (vi_lists input) in
      let samples := indexed (vi_lists input) in
      outcome_bind (check_samples (vi_jobId input) samples) (λ _,
        let targets := foldl (index_sample json_text) [] samples in
        let merged := flat_map (merge_group sampleCount (default human_review (vi_disagreementRoute input))
                                  (vi_arbitrationTriggered input))
                        (js_sort (cmp_on fst localeCompare) targets) in
        Ok ({| sl_schemaVersion := sl_schemaVersion firstList; sl_jobId := vi_jobId input;
               sl_testCases := js_sort (cmp_on sa_id localeCompare) merged.*1 |},
            {| sr_generatedAt := vi_generatedAt input; sr_jobId := vi_jobId input; sr_sampleCount := sampleCount;
               sr_selfConsistencyAgreement := mean6 (te_agreement <$> merged.*2); sr_targets := merged.*2 |}))
  end.
End vote.

(** ** The artifact *)

Definition SELF_CONSISTENCY_REPORT_ARTIFACT_FILENAME : string := "self-consistency-report.json".
Definition SELF_CONSISTENCY_REPORT_SCHEMA_VERSION : string := "1.0.0".

Definition strength_json (s : ConsensusStrength) : json :=
  JString (match s with strong_consensus => "strong_consensus" | weak_consensus => "weak_consensus" end).

Definition vote_json (v : SelfConsistencyFieldVote) : json :=
  let r := fv_vote v in
  JObject (Json.literal
    [("field", Some (JString (VoteField_label (fv_field v))));
     ("stepIndex", (λ i, Json.jint (Z.of_nat i)) <$> fv_stepIndex v);
     ("agreement", Some (JNumber (vs_agreementRate r)));
     ("agreementRate", Some (JNumber (vs_agreementRate r)));
     ("confidenceInterval95", Some (JArray [JNumber (vs_confidenceInterval95 r).1; JNumber (vs_confidenceInterval95 r).2]));
     ("bootstrapSampleSize", Some (Json.jint (Z.of_nat (vs_bootstrapSampleSize r))));
     ("consensusStrength", Some (strength_json (vs_consensusStrength r)));
     ("winner", JString <$> vs_winner r);
     ("majorityCount", Some (Json.jint (Z.of_nat (vs_majorityCount r))));
     ("majorityValue", JString <$> vs_winner r)]).

Definition target_json (t : SelfConsistencyTargetReportEntry) : json :=
  JObject (Json.literal
    [("targetKey", Some (JString (te_targetKey t)));
     ("selectedTestCaseId", Some (JString (te_selectedTestCaseId t)));
     ("samplePresenceCount", Some (Json.jint (Z.of_nat (te_samplePresenceCount t))));
     ("agreement", Some (JNumber (te_agreement t)));
     ("consensusStrength", Some (strength_json (te_consensusStrength t)));
     ("disagreement", Some (JBool (te_disagreement t)));
     ("disagreementRoute", JString ∘ route_label <$> te_disagreementRoute t);
     ("arbitrationTriggered", if te_arbitrationTriggered t then Some (JBool true) else None);
     ("votes", Some (JArray (vote_json <$> te_votes t)))]).

Definition report_json (r : SelfConsistencyReport) : json :=
  JObject
    [("schemaVersion", JString SELF_CONSISTENCY_REPORT_SCHEMA_VERSION);
     ("contractVersion", JString TEST_INTELLIGENCE_CONTRACT_VERSION);
     ("generatedAt", JString (sr_generatedAt r)); ("jobId", JString (sr_jobId r));
     ("sampleCount", Json.jint (Z.of_nat (sr_sampleCount r)));
     ("selfConsistencyAgreement", JNumber (sr_selfConsistencyAgreement r));
     ("targets", JArray (target_json <$> sr_targets r))].

Definition serializeSelfConsistencyReport (report : SelfConsistencyReport) : json := canonicalJson (report_json report).

(** The write fails when the temporary file is gone before it is renamed. *)
Definition writeSelfConsistencyReport (uuid runDir : string) (report : SelfConsistencyReport) :
    file_program (VoteError + string) string :=
  if bool_decide (runDir = "") then fp_throw (inl empty_runDir)
  else
    let artifactPath := posix_join [runDir; SELF_CONSISTENCY_REPORT_ARTIFACT_FILENAME] in
    let tmpPath := artifactPath +:+ "." +:+ uuid +:+ ".tmp" in
    writeFile tmpPath (serializeSelfConsistencyReport report)
      (fp_rename tmpPath artifactPath (λ ok, if ok then fp_ok artifactPath else fp_throw (inr tmpPath))).

(** ** Counting *)

(** How many samples cast this key. *)
Definition occurrences (k : string) (values : list (option string)) : nat :=
  length (filter (λ v, vote_key v = k) values).

Lemma occurrences_cons k v values :
  occurrences k (v :: values) = ((if decide (vote_key v = k) then 1 else 0) + occurrences k values)%nat.
Proof. unfold occurrences. rewrite filter_cons. by case_decide. Qed.

Lemma occurrences_pos k values : (0 < occurrences k values)%nat ↔ ∃ v, v ∈ values ∧ vote_key v = k.
Proof.
  unfold occurrences. split.
  - destruct (filter _ values) as [|v l] eqn:E; cbn; [lia|]. intros _. exists v.
    assert (Hin : v ∈ filter (λ v, vote_key v = k) values) by (rewrite E; left).
    apply list_elem_of_filter in Hin. tauto.
  - intros (v & Hv & Hk). assert (Hin : v ∈ filter (λ v, vote_key v = k) values) by by apply list_elem_of_filter.
    destruct (filter _ values); [by apply elem_of_nil in Hin|cbn; lia].
Qed.

(** What the counts hold after the values were counted. *)
Definition counted (k : string) (values : list (option string)) (before after : option (nat * option string)) : Prop :=
  match before with
  | Some (n, first) => after = Some ((n + occurrences k values)%nat, first)
  | None => (occurrences k values = 0%nat ∧ after = None) ∨
            ∃ first, vote_key first = k ∧ after = Some (occurrences k values, first) ∧ (0 < occurrences k values)%nat
  end.

Lemma get_count_value k v counts :
  map_get k (count_value counts v) =
  if decide (vote_key v = k)
  then Some match map_get k counts with Some (n, first) => (S n, first) | None => (1%nat, v) end
  else map_get k counts.
Proof.
  unfold count_value. destruct (map_get (vote_key v) counts) as [[n first]|] eqn:Ev; rewrite map_get_set; case_decide as Hk;
    first [subst k; by rewrite bool_decide_true, Ev | by rewrite bool_decide_false by congruence].
Qed.

Lemma count_values k values counts :
  counted k values (map_get k counts) (map_get k (foldl count_value counts values)).
Proof.
  revert counts; induction values as [|v values IH]; intros counts; cbn [foldl].
  - unfold counted. destruct (map_get k counts) as [[n first]|]; [|by left]. by rewrite Nat.add_0_r.
  - specialize (IH (count_value counts v)). rewrite get_count_value in IH. unfold counted in *. rewrite occurrences_cons.
    case_decide as Hk; [|exact IH]. destruct (map_get k counts) as [[m first]|]; rewrite IH.
    + do 2 f_equal. lia.
    + right. exists v. split; [done|]. split; [done|lia].
Qed.

Lemma count_values_NoDup values counts : NoDup counts.*1 → NoDup (foldl count_value counts values).*1.
Proof.
  revert counts; induction values as [|v values IH]; intros counts Hnd; cbn; [done|]. apply IH. unfold count_value.
  destruct (map_get _ _) as [[]|]; by apply map_set_NoDup.
Qed.

Section vote.
Context `{LocaleCompare}.

Lemma elect_fold (entries : list (string * (nat * option string))) (w0 : option (nat * option string)) :
  (entries ≠ [] ∨ w0 ≠ None) →
  ∃ w, foldl (λ winner entry, match winner with
                              | None => Some entry.2
                              | Some w => if better entry.2 w then Some entry.2 else Some w
                              end) w0 entries = Some w ∧
    (Some w = w0 ∨ w ∈ entries.*2) ∧
    (∀ e, Some e = w0 ∨ e ∈ entries.*2 → (e.1 ≤ w.1)%nat).
Proof.
  revert w0; induction entries as [|[k e] entries IH]; intros w0 Hne; cbn [foldl].
  - destruct w0 as [w|]; [|naive_solver]. exists w. split; [done|]. split; [by left|].
    intros e [[= ->]|[]%elem_of_nil]. lia.
  - set (w1 := match w0 with None => Some e | Some w => if better e w then Some e else Some w end).
    assert (Hw1 : w1 ≠ None) by (unfold w1; repeat case_match; done).
    destruct (IH w1 (or_intror Hw1)) as (w & Hw & Hin & Hmax). exists w. split; [exact Hw|]. cbn [fmap list_fmap snd].
    split.
    + destruct Hin as [Hin|Hin]; [|right; by right]. unfold w1 in Hin. destruct w0 as [w'|]; [destruct (better e w')|].
      * injection Hin as ->. right. left.
      * by left.
      * injection Hin as ->. right. left.
    + assert (Hstep : ∀ x, Some x = w0 ∨ x = e → ∃ y, Some y = w1 ∧ (x.1 ≤ y.1)%nat).
      { intros x Hx. unfold w1. destruct w0 as [w'|]; [|exists e; destruct Hx as [? | ->]; [done|]; split; [done|lia]].
        destruct (better e w') eqn:Eb.
        - exists e. split; [done|]. destruct Hx as [[= ->] | ->]; [|lia]. unfold better in Eb.
          apply orb_true_iff in Eb as [Eb|Eb]; [apply Nat.ltb_lt in Eb; lia|].
          apply andb_true_iff in Eb as [Eb _]. apply Nat.eqb_eq in Eb. lia.
        - exists w'. split; [done|]. destruct Hx as [[= ->] | ->]; [lia|]. unfold better in Eb.
          apply orb_false_iff in Eb as [Eb _]. apply Nat.ltb_ge in Eb. lia. }
      intros x Hx. destruct Hx as [Hx|Hx].
      * destruct (Hstep x (or_introl Hx)) as (y & Hy & Hle). specialize (Hmax y (or_introl Hy)). lia.
      * apply elem_of_cons in Hx as [->|Hx].
        -- destruct (Hstep e (or_intror eq_refl)) as (y & Hy & Hle). specialize (Hmax y (or_introl Hy)). lia.
        -- apply Hmax. by right.
Qed.

(** One vote: no key was cast more often than the majority count says, and the winner is
    a value that was cast that often. *)
Lemma vote_elects values n :
  values ≠ [] →
  let r := voteScalar values n in
  (∀ k, (occurrences k values ≤ vs_majorityCount r)%nat) ∧
  occurrences (vote_key (vs_winner r)) values = vs_majorityCount r ∧ (0 < vs_majorityCount r)%nat.
Proof.
  intros Hne r. unfold r, voteScalar. cbn.
  set (counts := foldl count_value [] values).
  assert (Hcount : ∀ k, counted k values None (map_get k counts)) by (intros k; apply (count_values k values [])).
  assert (Hnd : NoDup counts.*1) by apply count_values_NoDup, NoDup_nil_2.
  assert (Hsome : counts ≠ []).
  { intros E. destruct values as [|v l]; [done|]. specialize (Hcount (vote_key v)). rewrite E in Hcount.
    destruct Hcount as [[H0 _]|(f & _ & Hf & _)]; [|done]. rewrite occurrences_cons, decide_True in H0 by done. lia. }
  destruct (elect_fold counts None (or_introl Hsome)) as (w & Hw & [?|Hin] & Hmax); [done|].
  unfold elect. rewrite Hw. cbn.
  apply list_elem_of_fmap in Hin as ([k w'] & Ew & Hkw). cbn in Ew. subst w'.
  change (default "__undefined__" w.2) with (vote_key w.2).
  pose proof (map_get_unique k w counts Hnd Hkw) as Hget. pose proof (Hcount k) as Hk. rewrite Hget in Hk.
  destruct Hk as [[_ ?]|(first & Hfirst & [= ->] & Hpos)]; [done|].
  cbn [fst snd]. rewrite Hfirst. split; [|done].
  intros k'. destruct (Hcount k') as [[-> _]|(f' & _ & Hget' & _)]; [lia|].
  apply map_get_elem in Hget'. apply (Hmax (occurrences k' values, f')). right. apply list_elem_of_fmap. by exists (k', (occurrences k' values, f')).
Qed.

Lemma occurrences_two k k' values : k ≠ k' → (occurrences k values + occurrences k' values ≤ length values)%nat.
Proof.
  intros Hk. induction values as [|v values IH]; [done|]. rewrite !occurrences_cons. cbn [length].
  repeat case_decide; subst; try done; lia.
Qed.

(** With a majority the election is decided: every other key was cast less often than the
    threshold, so that neither the order of the samples nor the collation matters. *)
Lemma majority_is_unique values k k' :
  (majorityThreshold (length values) ≤ occurrences k values)%nat →
  (majorityThreshold (length values) ≤ occurrences k' values)%nat → k = k'.
Proof.
  intros H1 H2. destruct (decide (k = k')) as [|Hk]; [done|]. pose proof (occurrences_two k k' values Hk) as Hle.
  unfold majorityThreshold in *. pose proof (Nat.div_mod_eq (length values) 2). pose proof (Nat.mod_upper_bound (length values) 2). lia.
Qed.

(** A key that a majority cast is the elected one. *)
Lemma majority_wins values k :
  (majorityThreshold (length values) ≤ occurrences k values)%nat →
  let r := voteScalar values (length values) in
  (majorityThreshold (length values) ≤ vs_majorityCount r)%nat ∧ vote_key (vs_winner r) = k.
Proof.
  intros Hk r. assert (Hne : values ≠ []).
  { intros ->. unfold majorityThreshold, occurrences in Hk. cbn in Hk. lia. }
  destruct (vote_elects values (length values) Hne) as (Hmax & Hw & _). fold r in Hmax, Hw.
  specialize (Hmax k). split; [lia|]. apply (majority_is_unique values); lia.
Qed.

Lemma threshold_iff values :
  values ≠ [] →
  (vs_majorityCount (voteScalar values (length values)) < majorityThreshold (length values))%nat ↔
  ∀ k, (occurrences k values < majorityThreshold (length values))%nat.
Proof.
  intros Hne. destruct (vote_elects values (length values) Hne) as (Hmax & Hw & _). split.
  - intros Hlt k. specialize (Hmax k). lia.
  - intros Hall. rewrite <- Hw. apply Hall.
Qed.
End vote.

(** ** Grouping *)

Section groups.
Context `{LocaleCompare} (json_text : json → string).

(** The case a sample has for a target: the first one by id. *)
Definition case_of (k : string) (l : SampleList) : option SampledTestCase :=
  head (filter (λ c, deriveTargetKey json_text c = k) (js_sort (cmp_on sa_id localeCompare) (sl_testCases l))).

(** The cases the samples have for a target, with the index of their sample. *)
Definition group_of (k : string) (samples : list (nat * SampleList)) : list IndexedCase :=
  omap (λ s, (s.1,.) <$> case_of k s.2) samples.

Definition extended (targets : list (string * list IndexedCase)) (k : string) (g : list IndexedCase) : option (list IndexedCase) :=
  match g with [] => map_get k targets | _ => Some (default [] (map_get k targets) ++ g) end.

Lemma group_cases k i cases targets seen :
  map_get k (foldl (index_case json_text i) (targets, seen) cases).1 =
  if decide (k ∈ seen) then map_get k targets
  else extended targets k (option_list ((i,.) <$> head (filter (λ c, deriveTargetKey json_text c = k) cases))).
Proof.
  revert targets seen. induction cases as [|c cases IH]; intros targets seen; cbn [foldl].
  - cbn. by case_decide.
  - rewrite filter_cons. unfold index_case at 2. case_bool_decide as Hs.
    + rewrite IH. destruct (decide (k ∈ seen)) as [|Hk]; [done|]. rewrite decide_False by (intros <-; done). done.
    + rewrite IH. unfold extended. rewrite map_get_set. destruct (decide (deriveTargetKey json_text c = k)) as [<-|Hk].
      * rewrite decide_True by (apply elem_of_set_add; by right). rewrite decide_False by done.
        by rewrite bool_decide_true by done.
      * rewrite bool_decide_false by congruence. destruct (decide (k ∈ seen)) as [Hin|Hin].
        -- by rewrite decide_True by (apply elem_of_set_add; by left).
        -- rewrite decide_False; [done|]. rewrite elem_of_set_add. intros [?|?]; congruence.
Qed.

Lemma group_samples k samples targets :
  map_get k (foldl (index_sample json_text) targets samples) = extended targets k (group_of k samples).
Proof.
  revert targets. induction samples as [|s samples IH]; intros targets; cbn [foldl]; [done|].
  rewrite IH. unfold extended at 1. unfold index_sample. rewrite group_cases.
  rewrite decide_False by apply not_elem_of_nil.
  change (group_of k (s :: samples)) with
    (match (s.1,.) <$> case_of k s.2 with Some x => x :: group_of k samples | None => group_of k samples end).
  change (head (filter (λ c, deriveTargetKey json_text c = k) (js_sort (cmp_on sa_id localeCompare) (sl_testCases s.2)))) with (case_of k s.2).
  destruct (case_of k s.2) as [c|]; cbn.
  - destruct (group_of k samples); [done|]. cbn. by rewrite <- app_assoc.
  - by destruct (group_of k samples).
Qed.

Lemma groups_NoDup samples targets : NoDup targets.*1 → NoDup (foldl (index_sample json_text) targets samples).*1.
Proof.
  revert targets. induction samples as [|s samples IH]; intros targets Hnd; [done|]. cbn [foldl]. apply IH.
  unfold index_sample. generalize (@nil string). revert targets Hnd.
  induction (js_sort _ (sl_testCases s.2)) as [|c cases IHc]; intros targets Hnd seen; [done|]. cbn [foldl].
  unfold index_case at 2. case_bool_decide; [by apply IHc|]. apply IHc. by apply map_set_NoDup.
Qed.

(** The entries of the target map are the non-empty groups. *)
Lemma groups_elem samples k g :
  (k, g) ∈ foldl (index_sample json_text) [] samples ↔ g = group_of k samples ∧ g ≠ [].
Proof.
  pose proof (groups_NoDup samples [] NoDup_nil_2) as Hnd. pose proof (group_samples k samples []) as Hg. split.
  - intros Hin. apply (map_get_unique _ _ _ Hnd) in Hin. rewrite Hg in Hin. unfold extended in Hin.
    destruct (group_of k samples) as [|x l]; [done|]. injection Hin as <-. by split.
  - intros [-> Hne]. apply map_get_elem. rewrite Hg. unfold extended. by destruct (group_of k samples).
Qed.
End groups.

(** ** Ballots *)

Lemma imap_indexed_sorted {A} (l : list A) s :
  StronglySorted (λ p q : nat * A, (p.1 < q.1)%nat) (imap (λ i x, ((s + i)%nat, x)) l).
Proof.
  revert s. induction l as [|x l IH]; intros s; [constructor|]. rewrite imap_cons. constructor.
  - rewrite (imap_ext _ (λ i x, ((S s + i)%nat, x))); [apply IH|]. intros i y _. cbn. f_equal. lia.
  - apply Forall_forall. intros p (i & y & -> & _)%elem_of_lookup_imap. cbn. lia.
Qed.

Section ballots.
Context `{LocaleCompare} (json_text : json → string) (lists : list SampleList).

Lemma group_elem k i c : (i, c) ∈ group_of json_text k (indexed lists) ↔ lists !! i ≫= case_of json_text k = Some c.
Proof.
  unfold group_of, indexed. rewrite list_elem_of_omap. split.
  - intros (x & (j & l & -> & Hl)%elem_of_lookup_imap & Hx). cbn in Hx.
    destruct (case_of json_text k l) as [c'|] eqn:E; [|done]. cbn in Hx. injection Hx as -> ->. by rewrite Hl.
  - intros Hc. destruct (lists !! i) as [l|] eqn:Hl; [|done]. cbn in Hc. exists (i, l). split.
    + apply elem_of_lookup_imap. by exists i, l.
    + cbn. by rewrite Hc.
Qed.

Lemma group_sorted k : StronglySorted (λ p q : IndexedCase, (p.1 < q.1)%nat) (group_of json_text k (indexed lists)).
Proof.
  pose proof (imap_indexed_sorted lists 0) as Hs. cbn in Hs. unfold group_of, indexed.
  induction Hs as [|[i l] rest Hs IH Hall]; [constructor|]. cbn.
  destruct (case_of json_text k l) as [c|]; [|exact IH]. constructor; [exact IH|].
  apply List.Forall_forall. intros q ([j l'] & Hin & Hq)%list_elem_of_In%list_elem_of_omap.
  rewrite Forall_forall in Hall. specialize (Hall _ Hin). cbn in Hq, Hall |- *. destruct (case_of json_text k l'); [|done]. by injection Hq as <-.
Qed.

Lemma group_in_order k : js_sort stableCaseSort (group_of json_text k (indexed lists)) = group_of json_text k (indexed lists).
Proof.
  apply js_sort_id. eapply StronglySorted_impl; [|apply group_sorted].
  intros p q Hlt. unfold cmp_le, stableCaseSort, cmp_then, cmp_on. apply Nat.compare_lt_iff in Hlt. by rewrite Hlt.
Qed.

(** What the samples say about one aspect of a target. *)
Definition ballot (k : string) (read : SampledTestCase → option string) : list (option string) :=
  (λ l, case_of json_text k l ≫= read) <$> lists.

Lemma length_ballot k read : length (ballot k read) = (length lists).
Proof. apply length_fmap. Qed.

Lemma sample_at_group k i : sample_at (group_of json_text k (indexed lists)) i = lists !! i ≫= case_of json_text k.
Proof.
  unfold sample_at. destruct (last _) as [[j c]|] eqn:E.
  - apply last_Some_elem_of in E. apply list_elem_of_filter in E as [Hj Hc]. cbn in Hj. subst j. by apply group_elem in Hc.
  - apply last_None in E. destruct (lists !! i ≫= case_of json_text k) as [c|] eqn:Hc; [|done]. apply group_elem in Hc.
    assert (Hin : (i, c) ∈ filter (λ p, p.1 = i) (group_of json_text k (indexed lists))) by by apply list_elem_of_filter.
    rewrite E in Hin. by apply elem_of_nil in Hin.
Qed.

Lemma cast_ballot k read :
  (λ i, sample_at (group_of json_text k (indexed lists)) i ≫= read) <$> seq 0 (length lists) = ballot k read.
Proof.
  apply list_eq. intros j. unfold ballot. rewrite !list_lookup_fmap.
  destruct (decide (j < length lists)%nat) as [Hj|Hj].
  - rewrite lookup_seq_lt by done. cbn [fmap option_fmap option_map]. rewrite sample_at_group, Nat.add_0_l.
    by apply lookup_lt_is_Some in Hj as [l ->].
  - rewrite lookup_seq_ge, lookup_ge_None_2 by lia. done.
Qed.

Lemma vote_on_ballot k f i read :
  vote_on (group_of json_text k (indexed lists)) (length lists) f i read =
  {| fv_field := f; fv_stepIndex := i; fv_vote := voteScalar (ballot k read) (length lists) |}.
Proof. unfold vote_on. by rewrite cast_ballot. Qed.
End ballots.

Lemma unanimous_absence values : Forall (λ v, v = None) values → occurrences "__undefined__" values = length values.
Proof.
  induction 1 as [|v l -> _ IH]; [done|]. rewrite occurrences_cons, decide_True by done. cbn [length]. by rewrite IH.
Qed.

Lemma threshold_le n : n ≠ 0%nat → (majorityThreshold n ≤ n)%nat.
Proof. intros Hn. unfold majorityThreshold. pose proof (Nat.div_lt n 2). lia. Qed.

(** ** A target *)

(** What a test case says about a field, of the step with this index for the fields of a step. *)
Definition field_read (f : VoteField) (i : nat) (c : SampledTestCase) : option string :=
  match f with
  | vf_type => Some (sa_type c)
  | vf_technique => Some (sa_technique c)
  | vf_riskCategory => Some (sa_riskCategory c)
  | vf_step_action => canonicalTrim ∘ st_action <$> sa_steps c !! i
  | vf_step_expected => canonicalTrim <$> (sa_steps c !! i ≫= st_expected)
  end.

Definition step_of (f : VoteField) (i : nat) : option nat :=
  match f with vf_step_action | vf_step_expected => Some i | _ => None end.

Definition of_step (f : VoteField) : bool := match f with vf_step_action | vf_step_expected => true | _ => false end.

Definition longest (samples : list IndexedCase) : nat := foldl Nat.max 0%nat ((length ∘ sa_steps ∘ snd) <$> samples).

Lemma foldl_max_ge l n : (n ≤ foldl Nat.max n l)%nat.
Proof. revert n. induction l as [|y l IH]; intros n; cbn; [lia|]. specialize (IH (Nat.max n y)). lia. Qed.

Lemma foldl_max_le l n x : x ∈ l → (x ≤ foldl Nat.max n l)%nat.
Proof.
  revert n. induction l as [|y l IH]; intros n Hx; [by apply elem_of_nil in Hx|]. cbn.
  apply elem_of_cons in Hx as [->|Hx]; [|by apply IH]. pose proof (foldl_max_ge l (Nat.max n y)). lia.
Qed.

Section target.
Context `{LocaleCompare} (json_text : json → string) (lists : list SampleList) (Hlists : lists ≠ []).
Context (k : string) (route : SelfConsistencyDisagreementRoute) (arbitrationTriggered : bool).

#[local] Definition target_group : list IndexedCase := group_of json_text k (indexed lists).
#[local] Definition sample_count : nat := length lists.
#[local] Definition field_vote (f : VoteField) (i : nat) : SelfConsistencyFieldVote :=
  vote_on target_group sample_count f (step_of f i) (field_read f i).

(** The ballot on a field. *)
Definition field_ballot (f : VoteField) (i : nat) : list (option string) := ballot json_text lists k (field_read f i).

Lemma field_vote_ballot f i :
  field_vote f i =
  {| fv_field := f; fv_stepIndex := step_of f i; fv_vote := voteScalar (field_ballot f i) (length (field_ballot f i)) |}.
Proof. unfold field_vote, target_group, sample_count. rewrite vote_on_ballot. unfold field_ballot at 2. by rewrite length_ballot. Qed.

Lemma step_votes steps votes l :
  (foldl (vote_step target_group sample_count) (steps, votes) l).2 =
  votes ++ flat_map (λ i, [field_vote vf_step_action i; field_vote vf_step_expected i]) l.
Proof.
  revert steps votes. induction l as [|i l IH]; intros steps votes; [by rewrite app_nil_r|]. cbn [foldl].
  unfold vote_step at 2. rewrite IH. by rewrite <- app_assoc.
Qed.

Lemma target_votes base v :
  v ∈ te_votes (merge_target sample_count route arbitrationTriggered k target_group base).2 ↔
  ∃ f i, v = field_vote f i ∧ (of_step f = true → (i < longest target_group)%nat).
Proof.
  unfold merge_target. match goal with |- context [foldl ?f ?s ?l] => pose proof (step_votes (sa_steps base)
    [field_vote vf_type 0; field_vote vf_technique 0; field_vote vf_riskCategory 0] (seq 0 (longest target_group))) as Hv end.
  change (foldl Nat.max 0%nat ((length ∘ sa_steps ∘ snd) <$> target_group)) with (longest target_group).
  change (vote_on target_group sample_count vf_type None (Some ∘ sa_type)) with (field_vote vf_type 0).
  change (vote_on target_group sample_count vf_technique None (Some ∘ sa_technique)) with (field_vote vf_technique 0).
  change (vote_on target_group sample_count vf_riskCategory None (Some ∘ sa_riskCategory)) with (field_vote vf_riskCategory 0).
  destruct (foldl _ _ (seq 0 (longest target_group))) as [steps votes]. cbn [snd te_votes] in *. subst votes.
  rewrite elem_of_app. split.
  - intros [Hin|Hin].
    + rewrite !elem_of_cons, elem_of_nil in Hin. destruct Hin as [->|[->|[->|[]]]];
        [exists vf_type, 0%nat|exists vf_technique, 0%nat|exists vf_riskCategory, 0%nat]; by split.
    + apply list_elem_of_In, in_flat_map in Hin as (i & Hi & Hin). apply in_seq in Hi.
      destruct Hin as [<-|[<-|[]]]; [exists vf_step_action, i|exists vf_step_expected, i]; (split; [done|lia]).
  - intros (f & i & -> & Hi). rewrite !elem_of_cons, elem_of_nil.
    destruct f; [by left; left|by left; right; left|by left; right; right; left|right..];
      apply list_elem_of_In, in_flat_map; exists i; (split; [apply in_seq; specialize (Hi eq_refl); lia|]);
      [by left|by right; left].
Qed.

Lemma sample_count_pos : sample_count ≠ 0%nat.
Proof. unfold sample_count. by destruct lists. Qed.

Lemma length_field_ballot f i : length (field_ballot f i) = sample_count.
Proof. apply length_ballot. Qed.

Lemma ballot_past_the_end f i :
  of_step f = true → (longest target_group ≤ i)%nat → Forall (λ v, v = None) (field_ballot f i).
Proof.
  intros Hf Hi. apply Forall_forall. intros v (l & -> & Hl)%list_elem_of_fmap.
  destruct (case_of json_text k l) as [c|] eqn:Hc; [|done]. cbn.
  apply list_elem_of_lookup in Hl as [j Hl].
  assert (Hin : (j, c) ∈ target_group) by (apply group_elem; by rewrite Hl).
  assert (Hlen : (length (sa_steps c) ≤ longest target_group)%nat).
  { unfold longest. apply foldl_max_le. apply list_elem_of_fmap. by exists (j, c). }
  destruct f; try done; cbn; by rewrite lookup_ge_None_2 by lia.
Qed.

(** The majority count of a vote stays below the threshold exactly when no value reaches it. *)
Lemma vote_disputed f i :
  (vs_majorityCount (fv_vote (field_vote f i)) < majorityThreshold sample_count)%nat ↔
  ∀ v, (occurrences v (field_ballot f i) < majorityThreshold sample_count)%nat.
Proof.
  rewrite field_vote_ballot. cbn [fv_vote]. rewrite <- (length_field_ballot f i). apply threshold_iff.
  intros E. pose proof (length_field_ballot f i) as Hl. rewrite E in Hl. by apply sample_count_pos.
Qed.

Lemma target_disagreement base :
  te_disagreement (merge_target sample_count route arbitrationTriggered k target_group base).2 = true ↔
  ∃ f i, ∀ v, (occurrences v (field_ballot f i) < majorityThreshold sample_count)%nat.
Proof.
  pose proof (target_votes base) as Hv. revert Hv. unfold merge_target. destruct (foldl _ _ _) as [steps votes].
  cbn [snd te_votes te_disagreement]. intros Hv. rewrite existsb_exists. split.
  - intros (v & (f & i & -> & _)%list_elem_of_In%Hv & Hlt%Nat.ltb_lt). exists f, i. by apply vote_disputed.
  - intros (f & i & Hd). exists (field_vote f i). split.
    + apply list_elem_of_In, Hv. exists f, i. split; [done|]. intros Hf.
      destruct (decide (i < longest target_group)%nat) as [|Hge]; [done|]. specialize (Hd "__undefined__").
      rewrite (unanimous_absence _ (ballot_past_the_end f i Hf ltac:(lia))), length_field_ballot in Hd.
      pose proof (threshold_le sample_count sample_count_pos). lia.
    + by apply Nat.ltb_lt, vote_disputed.
Qed.

Lemma vote_majority f i v :
  v ≠ "__undefined__" → (majorityThreshold sample_count ≤ occurrences v (field_ballot f i))%nat →
  decided (majorityThreshold sample_count) (field_vote f i) = Some v.
Proof.
  intros Hv Hm. unfold decided. rewrite field_vote_ballot. cbn [fv_vote].
  rewrite <- (length_field_ballot f i) in Hm |- *. destruct (majority_wins _ _ Hm) as [Hle Hk].
  apply Nat.leb_le in Hle. rewrite Hle. destruct (vs_winner _) as [w|]; cbn in Hk; congruence.
Qed.

(** A value a majority gives a field of the case is the value of the merged case. *)
Lemma target_majority base f v :
  of_step f = false → v ≠ "__undefined__" → (majorityThreshold sample_count ≤ occurrences v (field_ballot f 0))%nat →
  field_read f 0 (merge_target sample_count route arbitrationTriggered k target_group base).1 = Some v.
Proof.
  intros Hf Hv Hm. pose proof (vote_majority f 0 v Hv Hm) as Hd. unfold merge_target.
  destruct (foldl _ _ _) as [steps votes]. destruct f; try done; cbn [fst field_read sa_type sa_technique sa_riskCategory].
  - change (vote_on target_group sample_count vf_type None (Some ∘ sa_type)) with (field_vote vf_type 0). by rewrite Hd.
  - change (vote_on target_group sample_count vf_technique None (Some ∘ sa_technique)) with (field_vote vf_technique 0). by rewrite Hd.
  - change (vote_on target_group sample_count vf_riskCategory None (Some ∘ sa_riskCategory)) with (field_vote vf_riskCategory 0). by rewrite Hd.
Qed.

(** A step of the base sample after its turn of the loop. *)
Definition voted_step (i : nat) (s : GeneratedTestCaseStep) : GeneratedTestCaseStep :=
  {| st_index := st_index s;
     st_action := default (st_action s) (decided (majorityThreshold sample_count) (field_vote vf_step_action i));
     st_expected := match decided (majorityThreshold sample_count) (field_vote vf_step_expected i) with
                    | Some e => Some e | None => st_expected s end;
     st_others := st_others s |}.

Lemma vote_step_lookup st j i s :
  st.1 !! i = Some s → (vote_step target_group sample_count st j).1 !! i = Some (if decide (j = i) then voted_step i s else s).
Proof.
  destruct st as [steps votes]. cbn [fst]. intros Hs. unfold vote_step.
  change (vote_on target_group sample_count vf_step_action (Some j) _) with (field_vote vf_step_action j).
  change (vote_on target_group sample_count vf_step_expected (Some j) _) with (field_vote vf_step_expected j). cbn [fst].
  pose proof (lookup_lt_Some _ _ _ Hs) as Hi. unfold voted_step. case_decide as Hj.
  - subst j. rewrite Hs. destruct (decided _ (field_vote vf_step_action i)) as [a|].
    + rewrite list_lookup_insert_eq by done. destruct (decided _ (field_vote vf_step_expected i)) as [e|].
      * by rewrite list_lookup_insert_eq by (rewrite length_insert; done).
      * by rewrite list_lookup_insert_eq by done.
    + rewrite Hs. destruct (decided _ (field_vote vf_step_expected i)) as [e|]; [by rewrite list_lookup_insert_eq by done|].
      rewrite Hs. by destruct s.
  - assert (Ha : ∀ steps' : list GeneratedTestCaseStep, steps' !! i = Some s →
      match decided (majorityThreshold sample_count) (field_vote vf_step_expected j), steps' !! j with
      | Some winner, Some s0 => <[j := with_expected winner s0]> steps' | _, _ => steps' end !! i = Some s).
    { intros steps' Hs'. destruct (decided _ _) as [e|], (steps' !! j) as [s0|]; try done. by rewrite list_lookup_insert_ne. }
    apply Ha. destruct (decided _ (field_vote vf_step_action j)) as [a|]; [|done].
    destruct (steps !! j); [by rewrite list_lookup_insert_ne|by apply lookup_app_l_Some].
Qed.

Lemma vote_steps_lookup st l i s :
  NoDup l → st.1 !! i = Some s →
  (foldl (vote_step target_group sample_count) st l).1 !! i = Some (if decide (i ∈ l) then voted_step i s else s).
Proof.
  intros Hnd. revert st s. induction Hnd as [|j l Hj Hnd IH]; intros st s Hs; [done|]. cbn [foldl].
  rewrite (IH _ _ (vote_step_lookup st j i s Hs)). destruct (decide (j = i)) as [->|Hne].
  - rewrite decide_False by done. by rewrite decide_True by left.
  - apply f_equal. apply decide_ext. set_solver.
Qed.

(** A step the base sample has: the action and the expected result a majority agrees on
    replace its own, and it gets its place as its index. *)
Lemma target_steps base i s :
  base ∈ target_group.*2 → sa_steps base !! i = Some s →
  sa_steps (merge_target sample_count route arbitrationTriggered k target_group base).1 !! i =
  Some {| st_index := Z.of_nat i + 1; st_action := st_action (voted_step i s);
          st_expected := st_expected (voted_step i s); st_others := st_others s |}.
Proof.
  intros Hb Hs. unfold merge_target.
  change (foldl Nat.max 0%nat ((length ∘ sa_steps ∘ snd) <$> target_group)) with (longest target_group).
  match goal with |- context [foldl _ (?a, ?b) ?l] =>
    pose proof (vote_steps_lookup (a, b) l i s (NoDup_seq _ _) Hs) as Hl end.
  destruct (foldl _ _ _) as [steps votes]. cbn [fst sa_steps] in *. rewrite decide_True in Hl.
  - unfold renumber. rewrite list_lookup_imap, Hl. done.
  - apply list_elem_of_In, in_seq. split; [lia|]. apply lookup_lt_Some in Hs.
    assert (length (sa_steps base) ≤ longest target_group)%nat; [|lia]. apply foldl_max_le.
    apply list_elem_of_fmap in Hb as (p & -> & Hp). apply list_elem_of_fmap. by exists p.
Qed.
End target.

(** ** The vote *)

Section vote_run.
Context `{LocaleCompare} (json_text : json → string).

Lemma row_key sampleCount route arb k g base : te_targetKey (merge_target sampleCount route arb k g base).2 = k.
Proof.
  unfold merge_target.
  by destruct (foldl (vote_step g sampleCount) _ _) as [steps votes].
Qed.

Lemma head_group k lists :
  head (group_of json_text k (indexed lists)).*2 = head (omap (case_of json_text k) lists).
Proof.
  f_equal. unfold indexed. assert (∀ s, (group_of json_text k (imap (λ i l, ((s + i)%nat, l)) lists)).*2 = omap (case_of json_text k) lists) as Hs.
  { induction lists as [|l rest IH]; intros s; [done|]. rewrite imap_cons. unfold group_of. cbn.
    specialize (IH (S s)). unfold group_of in IH. rewrite (imap_ext _ (λ i l, ((S s + i)%nat, l))).
    - destruct (case_of json_text k l); cbn; [f_equal; exact IH|exact IH].
    - intros i x _. cbn. f_equal. lia. }
  exact (Hs 0%nat).
Qed.

Lemma group_nonempty k lists :
  group_of json_text k (indexed lists) ≠ [] ↔
  ∃ l c, l ∈ lists ∧ c ∈ sl_testCases l ∧ deriveTargetKey json_text c = k.
Proof.
  assert (Hcase : ∀ l, is_Some (case_of json_text k l) ↔ ∃ c, c ∈ sl_testCases l ∧ deriveTargetKey json_text c = k).
  { intros l. unfold case_of. rewrite <- not_eq_None_Some. rewrite head_None. split.
    - intros Hne. destruct (filter _ _) as [|c r] eqn:E; [done|]. exists c.
      assert (Hc : c ∈ filter (λ c, deriveTargetKey json_text c = k) (js_sort (cmp_on sa_id localeCompare) (sl_testCases l)))
        by (rewrite E; left).
      apply list_elem_of_filter in Hc as [? Hc]. by rewrite elem_of_js_sort in Hc.
    - intros (c & Hc & Hk) E. assert (Hin : c ∈ filter (λ c, deriveTargetKey json_text c = k) (js_sort (cmp_on sa_id localeCompare) (sl_testCases l)))
        by (apply list_elem_of_filter; by rewrite elem_of_js_sort).
      rewrite E in Hin. by apply elem_of_nil in Hin. }
  split.
  - intros Hne. destruct (group_of json_text k (indexed lists)) as [|[i c] r] eqn:E; [done|].
    assert (Hin : (i, c) ∈ group_of json_text k (indexed lists)) by (rewrite E; left). apply group_elem in Hin.
    destruct (lists !! i) as [l|] eqn:Hl; [|done]. cbn in Hin.
    destruct (proj1 (Hcase l) (mk_is_Some _ _ Hin)) as (c' & ? & ?). exists l, c'. by apply list_elem_of_lookup_2 in Hl.
  - intros (l & c & Hl & Hc & Hk) E. destruct (proj2 (Hcase l) (ex_intro _ c (conj Hc Hk))) as [c' Hc'].
    apply list_elem_of_lookup in Hl as [i Hi].
    assert (Hin : (i, c') ∈ group_of json_text k (indexed lists)) by (apply group_elem; by rewrite Hi).
    rewrite E in Hin. by apply elem_of_nil in Hin.
Qed.

(** The merged cases with their rows, before the cases are sorted. *)
Definition merged_targets (input : VoteInput) : list (SampledTestCase * SelfConsistencyTargetReportEntry) :=
  flat_map (merge_group (length (vi_lists input)) (default human_review (vi_disagreementRoute input)) (vi_arbitrationTriggered input))
    (js_sort (cmp_on fst localeCompare) (foldl (index_sample json_text) [] (indexed (vi_lists input)))).

Lemma merge_group_row input k g c row :
  (k, g) ∈ foldl (index_sample json_text) [] (indexed (vi_lists input)) →
  (c, row) ∈ merge_group (length (vi_lists input)) (default human_review (vi_disagreementRoute input)) (vi_arbitrationTriggered input) (k, g) ↔
  ∃ base, head (omap (case_of json_text k) (vi_lists input)) = Some base ∧
    (c, row) = merge_target (length (vi_lists input)) (default human_review (vi_disagreementRoute input)) (vi_arbitrationTriggered input)
                 k (group_of json_text k (indexed (vi_lists input))) base.
Proof.
  intros [-> Hne]%groups_elem. unfold merge_group. cbn [fst snd]. rewrite group_in_order, <- head_group.
  destruct (group_of json_text k (indexed (vi_lists input))) as [|[i b] r]; [done|]. cbn [fmap list_fmap head snd]. split.
  - intros Hin%list_elem_of_singleton. by exists b.
  - intros (b' & [= ->] & ->). by left.
Qed.

Lemma merged_targets_rows input c row :
  (c, row) ∈ merged_targets input →
  ∃ base, head (omap (case_of json_text (te_targetKey row)) (vi_lists input)) = Some base ∧
    (c, row) = merge_target (length (vi_lists input)) (default human_review (vi_disagreementRoute input)) (vi_arbitrationTriggered input)
                 (te_targetKey row) (group_of json_text (te_targetKey row) (indexed (vi_lists input))) base.
Proof.
  unfold merged_targets. intros ([k g] & Hkg & Hin)%list_elem_of_In%in_flat_map. apply list_elem_of_In in Hin.
  apply list_elem_of_In in Hkg. rewrite elem_of_js_sort in Hkg. apply (merge_group_row _ _ _ _ _ Hkg) in Hin as (base & Hb & Hrow).
  assert (Hk : te_targetKey row = k).
  { apply (f_equal snd) in Hrow. cbn [snd] in Hrow. rewrite Hrow. apply row_key. }
  rewrite Hk. by exists base.
Qed.

(** The rows have the keys of the target map, in its sorted order. *)
Lemma merged_targets_keys input :
  (te_targetKey ∘ snd) <$> merged_targets input =
  (js_sort (cmp_on fst localeCompare) (foldl (index_sample json_text) [] (indexed (vi_lists input)))).*1.
Proof.
  unfold merged_targets. set (targets := foldl _ _ _).
  assert (Hin : ∀ e, e ∈ js_sort (cmp_on fst localeCompare) targets → e ∈ targets) by (intros e; by rewrite elem_of_js_sort).
  induction (js_sort _ targets) as [|[k g] rest IH]; [done|]. cbn [flat_map].
  rewrite fmap_app, IH; [|intros e He; apply Hin; by apply elem_of_cons; right].
  specialize (Hin (k, g) (proj2 (elem_of_cons _ _ _) (or_introl eq_refl))). apply groups_elem in Hin as [-> Hne]. unfold merge_group. cbn [fst snd]. rewrite group_in_order.
  destruct (group_of json_text k (indexed (vi_lists input))) as [|[i b] r]; [done|].
  cbn [fmap list_fmap app]. f_equal. apply row_key.
Qed.

Lemma vote_ok input merged report :
  voteGeneratedTestCaseSamples json_text input = Ok (merged, report) →
  vi_lists input ≠ [] ∧
  sl_testCases merged = js_sort (cmp_on sa_id localeCompare) (merged_targets input).*1 ∧
  sr_targets report = (merged_targets input).*2.
Proof.
  unfold voteGeneratedTestCaseSamples, merged_targets. destruct (vi_lists input) as [|l rest]; [done|].
  destruct (check_samples _ _); [|done]. cbn [outcome_bind]. intros Hok.
  match type of Hok with Ok (?a, ?b) = _ => assert (Hm : merged = a) by congruence; assert (Hr : report = b) by congruence end.
  subst. by split_and!.
Qed.

Lemma target_review input k base c row :
  (c, row) = merge_target (length (vi_lists input)) (default human_review (vi_disagreementRoute input)) (vi_arbitrationTriggered input)
               k (group_of json_text k (indexed (vi_lists input))) base →
  sa_id c = sa_id base ∧ te_selectedTestCaseId row = sa_id base ∧
  sa_reviewState c = (if te_disagreement row then "needs_review" else sa_reviewState base).
Proof.
  unfold merge_target. destruct (foldl (vote_step _ _) _ _) as [steps votes]. intros E.
  injection E as -> ->. cbn [sa_id te_selectedTestCaseId te_disagreement sa_reviewState]. by split_and!.
Qed.

(** C22. A vote over samples has one row for every target some sample covers, and one
    merged case per row, made from the case of the first sample that has the target. The
    row reports a disagreement exactly when on some field, or some field of some step, no
    value was cast by a majority of the samples, and the case then needs review;
    otherwise it keeps the review state of its origin. A value, other than the mark of
    an absent one, that a majority cast for a field of the case, or for the action of a
    step its origin has, is the value of the merged case (nothing is said of the
    expected results of steps and of steps the origin lacks). *)
Theorem vote_follows_the_majority input merged report :
  voteGeneratedTestCaseSamples json_text input = Ok (merged, report) →
  let lists := vi_lists input in
  let majority := majorityThreshold (length lists) in
  let keys := te_targetKey <$> sr_targets report in
  NoDup keys ∧ length (sl_testCases merged) = length keys ∧
  (∀ k, k ∈ keys ↔ ∃ l c, l ∈ lists ∧ c ∈ sl_testCases l ∧ deriveTargetKey json_text c = k) ∧
  ∀ row, row ∈ sr_targets report → ∃ base c,
    head (omap (case_of json_text (te_targetKey row)) lists) = Some base ∧
    c ∈ sl_testCases merged ∧ sa_id c = sa_id base ∧ te_selectedTestCaseId row = sa_id base ∧
    let votes f i v := occurrences v (field_ballot json_text lists (te_targetKey row) f i) in
    (te_disagreement row = true ↔ ∃ f i, ∀ v, (votes f i v < majority)%nat) ∧
    sa_reviewState c = (if te_disagreement row then "needs_review" else sa_reviewState base) ∧
    (∀ f v, of_step f = false → v ≠ "__undefined__" → (majority ≤ votes f 0 v)%nat → field_read f 0 c = Some v) ∧
    (∀ i s v, sa_steps base !! i = Some s → v ≠ "__undefined__" → (majority ≤ votes vf_step_action i v)%nat →
       st_action <$> sa_steps c !! i = Some v).
Proof.
  intros (Hne & Hm & Hr)%vote_ok lists majority keys. unfold keys. rewrite Hr, Hm, <- list_fmap_compose.
  rewrite merged_targets_keys. split_and!.
  - rewrite (js_sort_Permutation (cmp_on fst localeCompare)). apply groups_NoDup, NoDup_nil_2.
  - rewrite length_js_sort, <- merged_targets_keys. by rewrite !length_fmap.
  - intros k. rewrite <- group_nonempty, list_elem_of_fmap. split.
    + intros ([k' g] & -> & Hg). rewrite elem_of_js_sort in Hg. by apply groups_elem in Hg as [-> ?].
    + intros Hk. exists (k, group_of json_text k (indexed lists)). split; [done|].
      rewrite elem_of_js_sort. by apply groups_elem.
  - intros row ([c row'] & -> & Hrow)%list_elem_of_fmap. cbn [snd].
    destruct (merged_targets_rows _ _ _ Hrow) as (base & Hb & Heq). exists base, c.
    destruct (target_review _ _ _ _ _ Heq) as (Hid & Hsel & Hrev).
    pose proof (f_equal fst Heq) as Hc. pose proof (f_equal snd Heq) as Hw. cbn [fst snd] in Hc, Hw.
    assert (Hbase : base ∈ (group_of json_text (te_targetKey row') (indexed lists)).*2).
    { rewrite <- head_group in Hb. apply head_Some_elem_of in Hb. exact Hb. }
    split_and!; [done| |done|done| |done| |].
    + rewrite elem_of_js_sort. apply list_elem_of_fmap. by exists (c, row').
    + rewrite Hw at 1. apply (target_disagreement json_text lists Hne).
    + intros f v Hf Hv Hmaj. rewrite Hc. by apply (target_majority json_text lists).
    + intros i s v Hs Hv Hmaj. rewrite Hc.
      pose proof (target_steps json_text lists Hne (te_targetKey row') (default human_review (vi_disagreementRoute input))
                    (vi_arbitrationTriggered input) base i s Hbase Hs) as Hi. unfold target_group, sample_count in Hi.
      fold lists. rewrite Hi. cbn [fmap option_fmap option_map st_action voted_step]. f_equal.
      pose proof (vote_majority json_text lists (te_targetKey row') vf_step_action i v Hv Hmaj) as Hd.
      unfold voted_step. cbn [st_action]. unfold sample_count in Hd |- *. by rewrite Hd.
Qed.
End vote_run.

(** ** Votes to evaluate *)

#[local] Existing Instance code_unit_collation.

(** The text of a key: the screens of the target. *)
Definition demo_text (v : json) : string :=
  match v with
  | JObject fields => match Json.get "screenIds" fields with
                      | Some (JArray ids) => join "," ((λ i, match i with JString s => s | _ => "" end) <$> ids) | _ => "" end
  | _ => ""
  end.

Definition demo_step (i : Z) (action : string) (expected : option string) : GeneratedTestCaseStep :=
  {| st_index := i; st_action := action; st_expected := expected; st_others := [] |}.

Definition demo_case (id screen type : string) (steps : list GeneratedTestCaseStep) : SampledTestCase :=
  {| sa_id := id; sa_type := type; sa_technique := "equivalence_partitioning"; sa_riskCategory := "low"; sa_steps := steps;
     sa_screenIds := [screen]; sa_coveredFieldIds := []; sa_coveredActionIds := []; sa_coveredValidationIds := [];
     sa_coveredNavigationIds := []; sa_confidence := Fin (9 # 10); sa_reviewState := "auto_approved"; sa_openQuestions := [];
     sa_others := JNull |}.

Definition demo_input (samples : list (list SampledTestCase)) : VoteInput :=
  {| vi_jobId := "job"; vi_generatedAt := "2026-01-01T00:00:00Z";
     vi_lists := (λ l, {| sl_schemaVersion := "1.0.0"; sl_jobId := "job"; sl_testCases := l |}) <$> samples;
     vi_disagreementRoute := None; vi_arbitrationTriggered := false |}.

(** Three samples: two agree on the type of the case and on its first step, none on the second. *)
Definition majority_input : VoteInput :=
  demo_input
    [[demo_case "a" "login" "functional" [demo_step 1 "open" None; demo_step 2 "type x" None]];
     [demo_case "b" "login" "negative" [demo_step 1 "open  " None; demo_step 2 "type y" None]];
     [demo_case "c" "login" "negative" [demo_step 1 "start" None; demo_step 2 "type z" None]]].

Definition run_vote (input : VoteInput) : option (SampleList * SelfConsistencyReport) :=
  match voteGeneratedTestCaseSamples demo_text input with Ok r => Some r | Throw _ => None end.

Definition run_result (input : VoteInput) : SampleList * SelfConsistencyReport :=
  default ({| sl_schemaVersion := ""; sl_jobId := ""; sl_testCases := [] |},
           {| sr_generatedAt := ""; sr_jobId := ""; sr_sampleCount := 0; sr_selfConsistencyAgreement := 0; sr_targets := [] |})
    (run_vote input).

(** What a reviewer sees of a run. *)
Definition verdicts (input : VoteInput) : list (string * nat * bool) * list (string * string * list GeneratedTestCaseStep * list string) :=
  ((λ t, (te_targetKey t, te_samplePresenceCount t, te_disagreement t)) <$> sr_targets (run_result input).2,
   (λ c, (sa_type c, sa_reviewState c, sa_steps c, sa_openQuestions c)) <$> sl_testCases (run_result input).1).

Lemma vote_follows_the_majority_witness :
  ∃ merged report, voteGeneratedTestCaseSamples demo_text majority_input = Ok (merged, report) ∧
    verdicts majority_input =
      ([("login", 3%nat, true)],
       [("negative", "needs_review", [demo_step 1 "open" None; demo_step 2 "type x" None],
         ["self_consistency_disagreement: route=human_review; target=login; fields=step_action[1]"])]) ∧
    length (sl_testCases merged) = length (te_targetKey <$> sr_targets report).
Proof.
  exists (run_result majority_input).1, (run_result majority_input).2.
  assert (Hrun : voteGeneratedTestCaseSamples demo_text majority_input =
                 Ok ((run_result majority_input).1, (run_result majority_input).2)) by (vm_compute; reflexivity).
  split; [exact Hrun|]. split; [vm_compute; reflexivity|].
  exact (proj1 (proj2 (vote_follows_the_majority demo_text majority_input _ _ Hrun))).
Defined.

(** A target one of three samples covers: two samples vote for absence, which is a majority. *)
Lemma minority_target_is_agreed :
  verdicts (demo_input [[demo_case "a" "login" "functional" [demo_step 1 "open" None]]; []; []]) =
  ([("login", 1%nat, false)], [("functional", "auto_approved", [demo_step 1 "open" None], [])]).
Proof. vm_compute. reflexivity. Qed.

(** Two samples of three lack the second step, and it stays without a disagreement. *)
Lemma minority_step_is_kept :
  verdicts (demo_input
    [[demo_case "a" "login" "functional" [demo_step 1 "open" None; demo_step 2 "pay" None]];
     [demo_case "b" "login" "functional" [demo_step 1 "open" None]];
     [demo_case "c" "login" "functional" [demo_step 1 "open" None]]]) =
  ([("login", 3%nat, false)],
   [("functional", "auto_approved", [demo_step 1 "open" None; demo_step 2 "pay" None], [])]).
Proof. vm_compute. reflexivity. Qed.

(** Five samples need three votes; a field with two is disputed and the marker omits it. *)
Lemma marker_omits_disputed_field :
  let sample id type := [demo_case id "login" type []] in
  verdicts (demo_input [sample "a" "functional"; sample "b" "functional"; sample "c" "negative"; sample "d" "negative";
                        sample "e" "boundary"]) =
  ([("login", 5%nat, true)],
   [("functional", "needs_review", [], ["self_consistency_disagreement: route=human_review; target=login; fields="])]).
Proof. vm_compute. reflexivity. Qed.

(** The samples disagree on the second step and agree on the third, which becomes the
    second of the merged case, without its expected result. *)
Lemma majority_step_moves_into_the_gap :
  verdicts (demo_input
    [[demo_case "a" "login" "functional" [demo_step 1 "open" None]];
     [demo_case "b" "login" "functional" [demo_step 1 "open" None; demo_step 2 "x" None; demo_step 3 "pay" (Some "paid")]];
     [demo_case "c" "login" "functional" [demo_step 1 "open" None; demo_step 2 "y" None; demo_step 3 "pay" (Some "paid")]]]) =
  ([("login", 3%nat, true)],
   [("functional", "needs_review", [demo_step 1 "open" None; demo_step 2 "pay" None],
     ["self_consistency_disagreement: route=human_review; target=login; fields=step_action[1]"])]).
Proof. vm_compute. reflexivity. Qed.

(** The interval of two successes out of three. *)
Example wilson_of_two_in_three : wilsonInterval95 2 3 = (Qred (20766 # 100000), Qred (938508 # 1000000)).
Proof. vm_compute. reflexivity. Qed.
