(* ===== verification/CoverageOptimizer.v ===== *)
(** * Coverage-plan optimizer

    [packages/quality/src/coverage-plan-optimizer.ts]: quotas per technique are evolved
    by NSGA-II against four objectives; the first Pareto front of the last generation is
    published, with the cheapest plan that meets the acceptance criteria.

    An object keyed by technique is a finite map of its own properties; of
    [currentQuota] the properties that are techniques are kept. A population is a list
    whose members are referred to by index, as the sort does. Arithmetic is that of
    doubles; quotas are safe integers. [Math.exp] is the class [Exponential]. The first
    four bytes of the seed digest and the text of a canonical JSON value are arguments. The text of the plot, and with it the
    serialized report, are left out. *)

From S2P Require Import Prelude JsString JsList JsValue CanonicalJson FinOpsReport.

(** [Math.exp] *)
Class Exponential := math_exp : jsnum → jsnum.

(** ** Data *)

Definition COVERAGE_PLAN_OPTIMIZER_BASELINE_FIXED_GENERATED_AT : string := "1970-01-01T00:00:00.000Z".
Definition COVERAGE_PLAN_OPTIMIZER_KILL_RATE_FLOOR : jsnum := Double.round (95 # 100).
Definition COVERAGE_PLAN_OPTIMIZER_COST_CEILING : jsnum := Double.round (8 # 10).
Definition TEN_POW_PRECISION : Z := 10 ^ 9.

Inductive Objective : Type := mutationKillRate | techniqueCoverage | tokenCost | latencyMs.

#[export] Instance Objective_eq_dec : EqDecision Objective.
Proof. solve_decision. Defined.

Definition COVERAGE_PLAN_OPTIMIZER_OBJECTIVES : list Objective :=
  [mutationKillRate; techniqueCoverage; tokenCost; latencyMs].

Inductive Direction : Type := maximize | minimize.

Definition COVERAGE_PLAN_OPTIMIZER_OBJECTIVE_DIRECTIONS (o : Objective) : Direction :=
  match o with mutationKillRate | techniqueCoverage => maximize | tokenCost | latencyMs => minimize end.

Record TechniqueCoefficients := {
  tc_killRateSaturation : jsnum;
  tc_killRateCoefficient : jsnum;
  tc_coverageCoefficient : jsnum;
  tc_tokensPerUnit : jsnum;
  tc_latencyMsPerUnit : jsnum;
  tc_minQuota : jsnum;
  tc_maxQuota : jsnum;
}.

Record FixtureBenchmark := {
  fb_fixtureId : string;
  fb_techniques : list string;
  fb_perTechnique : gmap string TechniqueCoefficients;
  fb_bestKnownKillRate : jsnum;
  fb_currentTokenCost : jsnum;
  fb_currentLatencyMs : jsnum;
  fb_currentQuota : gmap string jsnum;
}.

Record NsgaIIConfig := {
  nc_populationSize : jsnum;
  nc_generations : jsnum;
  nc_crossoverRate : jsnum;
  nc_mutationRate : jsnum;
}.

Definition DEFAULT_NSGA_II_CONFIG : NsgaIIConfig :=
  {| nc_populationSize := num 40; nc_generations := num 60; nc_crossoverRate := Double.round (9 # 10);
     nc_mutationRate := Double.round (15 # 100) |}.

Definition COVERAGE_PLAN_OPTIMIZER_DEFAULT_SEED : Z := 0x21312131.

(** What [round] returns for a number that is not negative: a number that is not negative,
    or infinity when the scaled value overflows; never [NaN]. *)
Inductive rounded : Type := Real (q : Q) | Infinite.

Definition number_of (v : rounded) : jsnum := match v with Real q => Fin q | Infinite => PosInf end.

(** The sign of the difference of two of them; that of two infinities is [NaN], which is
    no sign. *)
Definition rounded_compare (a b : rounded) : comparison :=
  match a, b with
  | Real p, Real q => Qcompare p q
  | Real _, Infinite => Lt
  | Infinite, Real _ => Gt
  | Infinite, Infinite => Eq
  end.

(** [ObjectiveVector] *)
Record ObjectiveVector := {
  ov_mutationKillRate : rounded;
  ov_techniqueCoverage : rounded;
  ov_tokenCost : rounded;
  ov_latencyMs : rounded;
}.

Definition objective (v : ObjectiveVector) (o : Objective) : jsnum :=
  number_of
  match o with
  | mutationKillRate => ov_mutationKillRate v | techniqueCoverage => ov_techniqueCoverage v
  | tokenCost => ov_tokenCost v | latencyMs => ov_latencyMs v
  end.

#[warnings="-notation-for-abbreviation"] Notation plan := (gmap string Z).

(** [MutableIndividual], and [ParetoIndividual] once it is published. *)
Record Individual := {
  in_plan : plan;
  in_objectives : ObjectiveVector;
  in_rank : nat;
  in_crowdingDistance : jsnum;
}.

Inductive SelectionReason : Type := selected | no_kill_rate_above_floor | no_cost_below_ceiling | empty_front.

Record FixtureOptimizationResult := {
  fr_fixtureId : string;
  fr_paretoFront : list Individual;
  fr_recommendedPlan : option Individual;
  fr_satisfiesAcceptanceCriteria : bool;
  fr_selectionReason : SelectionReason;
  fr_generationsRun : nat;
}.

Record CoveragePlanOptimizerReport := {
  or_generatedAt : string;
  or_seed : Z;
  or_config : NsgaIIConfig;
  or_fixtureCount : nat;
  or_fixtures : list FixtureOptimizationResult;
  or_satisfiesAcceptanceCriteria : bool;
}.

Inductive OptimizerError : Type :=
| bad_coefficient (fixtureId technique key : string)
| bad_saturation (fixtureId technique : string)
| bad_minQuota (fixtureId technique : string)
| bad_maxQuota (fixtureId technique : string)
| maxQuota_below_minQuota (fixtureId technique : string)
| bad_fixtureId
| no_techniques (fixtureId : string)
| empty_technique (fixtureId : string)
| duplicate_technique (fixtureId technique : string)
| missing_technique (fixtureId technique : string)
| bad_currentQuota (fixtureId technique : string)
| bad_bestKnownKillRate (fixtureId : string)
| bad_currentTokenCost (fixtureId : string)
| bad_currentLatencyMs (fixtureId : string)
| bad_populationSize
| bad_generations
| bad_crossoverRate
| bad_mutationRate
| quota_outside_window (fixtureId technique : string)
| no_fixtures
| bad_generatedAt
| bad_seed
| duplicate_fixture (fixtureId : string).

(** ** Validation *)

Definition isFiniteNonNegative (n : jsnum) : bool := Number.isFinite n && Number.leb (num 0) n.
Definition isFinitePositive (n : jsnum) : bool := Number.isFinite n && Number.ltb (num 0) n.
Definition isProbability (n : jsnum) : bool := Number.isFinite n && Number.leb (num 0) n && Number.leb n (num 1).
Definition isNonNegativeSafeInteger (n : jsnum) : bool := Number.isSafeInteger n && Number.leb (num 0) n.

(** [Math.round] *)
Definition math_round (n : jsnum) : jsnum := match n with Fin q => num (Qfloor (q + (1 # 2))) | _ => n end.

(** On values that are not negative. *)
Definition round (value : jsnum) : rounded :=
  if negb (Number.isFinite value) then Real 0
  else
    match Double.div (math_round (Double.mul value (num TEN_POW_PRECISION))) (num TEN_POW_PRECISION) with
    | Fin q => Real q
    | _ => Infinite
    end.

(** The value of a number that was checked to be finite, or to be an integer. *)
Definition fin (n : jsnum) : Q := match n with Fin q => q | _ => 0%Q end.
Definition whole (n : jsnum) : Z := Qfloor (fin n).

Section validation.
#[local] Open Scope outcome_scope.

Definition assertTechniqueCoefficients (fixtureId technique : string) (c : TechniqueCoefficients) :
    outcome OptimizerError unit :=
  outcome_foldl (λ _ p, guard_throw (negb (isFiniteNonNegative p.2)) (bad_coefficient fixtureId technique p.1)) tt
    [("killRateSaturation", tc_killRateSaturation c); ("killRateCoefficient", tc_killRateCoefficient c);
     ("coverageCoefficient", tc_coverageCoefficient c); ("tokensPerUnit", tc_tokensPerUnit c);
     ("latencyMsPerUnit", tc_latencyMsPerUnit c)] ;;;
  guard_throw (negb (isFinitePositive (tc_killRateSaturation c))) (bad_saturation fixtureId technique) ;;;
  guard_throw (negb (isNonNegativeSafeInteger (tc_minQuota c))) (bad_minQuota fixtureId technique) ;;;
  guard_throw (negb (isNonNegativeSafeInteger (tc_maxQuota c))) (bad_maxQuota fixtureId technique) ;;;
  guard_throw (Number.ltb (tc_maxQuota c) (tc_minQuota c)) (maxQuota_below_minQuota fixtureId technique).

(** One turn of the loop over the techniques; the state is the set of those seen. *)
Definition check_technique (fixture : FixtureBenchmark) (seen : list string) (technique : string) :
    outcome OptimizerError (list string) :=
  let fixtureId := fb_fixtureId fixture in
  guard_throw (bool_decide (technique = "")) (empty_technique fixtureId) ;;;
  guard_throw (bool_decide (technique ∈ seen)) (duplicate_technique fixtureId technique) ;;;
  match fb_perTechnique fixture !! technique with
  | None => Throw (missing_technique fixtureId technique)
  | Some coeffs =>
      assertTechniqueCoefficients fixtureId technique coeffs ;;;
      guard_throw (negb (from_option isNonNegativeSafeInteger false (fb_currentQuota fixture !! technique)))
        (bad_currentQuota fixtureId technique) ;;;
      Ok (set_add seen technique)
  end.

Definition assertFixtureBenchmark (fixture : FixtureBenchmark) : outcome OptimizerError unit :=
  let fixtureId := fb_fixtureId fixture in
  guard_throw (bool_decide (fixtureId = "")) bad_fixtureId ;;;
  guard_throw (bool_decide (fb_techniques fixture = [])) (no_techniques fixtureId) ;;;
  outcome_foldl (check_technique fixture) [] (fb_techniques fixture) ;;;
  guard_throw (negb (isProbability (fb_bestKnownKillRate fixture))) (bad_bestKnownKillRate fixtureId) ;;;
  guard_throw (negb (isFinitePositive (fb_currentTokenCost fixture))) (bad_currentTokenCost fixtureId) ;;;
  guard_throw (negb (isFinitePositive (fb_currentLatencyMs fixture))) (bad_currentLatencyMs fixtureId).

Definition assertNsgaIIConfig (config : NsgaIIConfig) : outcome OptimizerError unit :=
  guard_throw (negb (Number.isSafeInteger (nc_populationSize config)) || Number.ltb (nc_populationSize config) (num 8) ||
               negb (whole (nc_populationSize config) mod 2 =? 0)) bad_populationSize ;;;
  guard_throw (negb (Number.isSafeInteger (nc_generations config)) || Number.ltb (nc_generations config) (num 1)) bad_generations ;;;
  guard_throw (negb (isProbability (nc_crossoverRate config))) bad_crossoverRate ;;;
  guard_throw (negb (isProbability (nc_mutationRate config))) bad_mutationRate.
End validation.

(** ** Random numbers *)

Definition u32 (z : Z) : Z := z mod 2 ^ 32.

(** A computation that draws numbers; the state is that of [createRng]. *)
Definition rand (A : Type) : Type := Z → A * Z.

#[export] Instance rand_ret : MRet rand := λ A a s, (a, s).
#[export] Instance rand_bind : MBind rand := λ A B k m s, let '(a, s') := m s in k a s'.

(** One call of [rng], in units of [2 ^ -32]. The operations work on 32 bits, and their
    signs do not matter modulo [2 ^ 32]. *)
Definition rng_bits : rand Z := λ state,
  let state := u32 (state + 0x6d2b79f5) in
  let t := u32 (Z.lxor state (Z.shiftr state 15) * Z.lor state 1) in
  let t := Z.lxor t (u32 (t + u32 (Z.lxor t (Z.shiftr t 7) * Z.lor t 61))) in
  (Z.lxor t (Z.shiftr t 14), state).

(** [Math.floor(rng() * n)] *)
Definition rng_below (n : Z) : rand Z :=
  bits ← rng_bits; mret (whole (Double.mul (Fin (inject_Z bits / inject_Z (2 ^ 32))) (num n))).

(** [rng() < q] *)
Definition rng_less (q : Q) : rand bool := bits ← rng_bits; mret (negb (Qle_bool (q * inject_Z (2 ^ 32)) (inject_Z bits))).

Fixpoint repeat_rand {A} (n : nat) (m : rand A) : rand (list A) :=
  match n with O => mret [] | S n' => a ← m; l ← repeat_rand n' m; mret (a :: l) end.

(** The four bytes are the first ones of the digest of the text. *)
Definition deriveFixtureSeed (sha256_head : string → Z * Z * Z * Z) (seed : Z) (fixtureId : string) : Z :=
  let '(d0, d1, d2, d3) := sha256_head (pretty (u32 seed) +:+ "|" +:+ fixtureId) in
  u32 (Z.lor (Z.lor (Z.lor (Z.shiftl d0 24) (Z.shiftl d1 16)) (Z.shiftl d2 8)) d3).

(** ** The surrogate model *)

Definition clamp (lo hi x : Z) : Z := Z.max lo (Z.min hi x).

Definition sum_over {A} (f : A → jsnum) (l : list A) : jsnum := foldl (λ acc x, Double.add acc (f x)) (num 0) l.

(** The quota of a technique within its window. *)
Definition allotted (p : plan) (technique : string) (c : TechniqueCoefficients) : Z :=
  clamp (whole (tc_minQuota c)) (whole (tc_maxQuota c)) (default 0 (p !! technique)).

(** The techniques of a fixture with their coefficients, which it has for each. *)
Definition coefficients (fixture : FixtureBenchmark) : list (string * TechniqueCoefficients) :=
  omap (λ t, (t,.) <$> fb_perTechnique fixture !! t) (fb_techniques fixture).

Section optimizer.
Context `{Exponential}.

Definition saturated (quota : Z) (c : TechniqueCoefficients) : jsnum :=
  if Number.ltb (num 0) (tc_killRateSaturation c)
  then Double.sub (num 1) (math_exp (Double.div (num (- quota)) (tc_killRateSaturation c)))
  else num 0.

Definition evaluatePlan (p : plan) (fixture : FixtureBenchmark) : ObjectiveVector :=
  let over (f : Z → TechniqueCoefficients → jsnum) := sum_over (λ e, f (allotted p e.1 e.2) e.2) (coefficients fixture) in
  let killNumerator := over (λ quota c, Double.mul (tc_killRateCoefficient c) (saturated quota c)) in
  let killDenominator := over (λ _ c, tc_killRateCoefficient c) in
  let coverageNumerator := over (λ quota c, Double.mul (tc_coverageCoefficient c) (num (if 0 <? quota then 1 else 0))) in
  let coverageDenominator := over (λ _ c, tc_coverageCoefficient c) in
  let ratio n d := if Number.ltb (num 0) d then Double.div n d else num 0 in
  let unit_interval n := max_zero (js_min (num 1) n) in
  {| ov_mutationKillRate := round (unit_interval (ratio killNumerator killDenominator));
     ov_techniqueCoverage := round (unit_interval (ratio coverageNumerator coverageDenominator));
     ov_tokenCost := round (max_zero (over (λ quota c, Double.mul (tc_tokensPerUnit c) (num quota))));
     ov_latencyMs := round (max_zero (over (λ quota c, Double.mul (tc_latencyMsPerUnit c) (num quota)))) |}.

Definition individual (fixture : FixtureBenchmark) (p : plan) : Individual :=
  {| in_plan := p; in_objectives := evaluatePlan p fixture; in_rank := 0; in_crowdingDistance := num 0 |}.

Fixpoint random_plan (coeffs : list (string * TechniqueCoefficients)) (p : plan) : rand plan :=
  match coeffs with
  | [] => mret p
  | (technique, c) :: rest =>
      let span := whole (tc_maxQuota c) - whole (tc_minQuota c) in
      offset ← (if span =? 0 then mret 0 else rng_below (span + 1));
      random_plan rest (<[technique := whole (tc_minQuota c) + offset]> p)
  end.

Definition buildRandomIndividual (fixture : FixtureBenchmark) : rand Individual :=
  p ← random_plan (coefficients fixture) ∅; mret (individual fixture p).

(** ** Pareto fronts *)

Fixpoint dominates_from (objectives : list Objective) (a b : ObjectiveVector) (strictlyBetter : bool) : bool :=
  match objectives with
  | [] => strictlyBetter
  | o :: rest =>
      let av := objective a o in
      let bv := objective b o in
      match COVERAGE_PLAN_OPTIMIZER_OBJECTIVE_DIRECTIONS o with
      | maximize => if Number.ltb av bv then false else dominates_from rest a b (Number.ltb bv av || strictlyBetter)
      | minimize => if Number.ltb bv av then false else dominates_from rest a b (Number.ltb av bv || strictlyBetter)
      end
  end.

Definition dominates (a b : ObjectiveVector) : bool := dominates_from COVERAGE_PLAN_OPTIMIZER_OBJECTIVES a b false.

(** What the first loop of the sort leaves for [p]: the indices it dominates, and how many
    dominate it. *)
Definition dominates_at (objectives : list ObjectiveVector) (p q : nat) : bool :=
  match objectives !! p, objectives !! q with Some a, Some b => dominates a b | _, _ => false end.

Definition dominatedBy (objectives : list ObjectiveVector) (p : nat) : list nat :=
  filter (λ q, p ≠ q ∧ dominates_at objectives p q = true) (seq 0 (length objectives)).

Definition dominationCount (objectives : list ObjectiveVector) (p : nat) : Z :=
  Z.of_nat (length (filter (λ q, p ≠ q ∧ dominates_at objectives p q = false ∧ dominates_at objectives q p = true)
                      (seq 0 (length objectives)))).

(** One turn of the loop over [dominatedBy[p]]. *)
Definition release (st : list Z * list nat) (q : nat) : list Z * list nat :=
  let '(counts, nextFront) := st in
  let count := default 0 (counts !! q) - 1 in
  (<[q := count]> counts, if count =? 0 then nextFront ++ [q] else nextFront).

Definition next_front (objectives : list ObjectiveVector) (counts : list Z) (front : list nat) : list Z * list nat :=
  foldl (λ st p, foldl release st (dominatedBy objectives p)) (counts, []) front.

(** The [while] loop: the fronts that are not empty, as lists of indices. *)
Fixpoint fronts_from (fuel : nat) (objectives : list ObjectiveVector) (counts : list Z) (front : list nat) :
    option (list (list nat)) :=
  match fuel with
  | O => None
  | S fuel' =>
      match front with
      | [] => Some []
      | _ => let '(counts', nextFront) := next_front objectives counts front in
             cons front <$> fronts_from fuel' objectives counts' nextFront
      end
  end.

Definition sort_fronts (objectives : list ObjectiveVector) : option (list (list nat)) :=
  let n := length objectives in
  let counts := dominationCount objectives <$> seq 0 n in
  fronts_from (S n) objectives counts (filter (λ p, counts !! p = Some 0) (seq 0 n)).

Definition with_rank (rank : nat) (ind : Individual) : Individual :=
  {| in_plan := in_plan ind; in_objectives := in_objectives ind; in_rank := rank; in_crowdingDistance := in_crowdingDistance ind |}.
Definition with_distance (f : jsnum → jsnum) (ind : Individual) : Individual :=
  {| in_plan := in_plan ind; in_objectives := in_objectives ind; in_rank := in_rank ind;
     in_crowdingDistance := f (in_crowdingDistance ind) |}.

Definition update_all (f : Individual → Individual) (population : list Individual) (indices : list nat) : list Individual :=
  foldl (λ pop i, alter f i pop) population indices.

(** The fronts, and the population with its ranks. *)
Definition nonDominatedSort (population : list Individual) : list Individual * list (list nat) :=
  let fronts := default [] (sort_fronts (in_objectives <$> population)) in
  (foldl (λ pop e, update_all (with_rank e.1) pop e.2) population (imap pair fronts), fronts).

(** ** Crowding *)

(** How [sort] reads the result of a comparator. *)
Definition comparison_of (n : jsnum) : comparison :=
  if Number.ltb n (num 0) then Lt else if Number.ltb (num 0) n then Gt else Eq.

Definition objective_at (population : list Individual) (o : Objective) (i : nat) : jsnum :=
  from_option (λ ind, objective (in_objectives ind) o) (num 0) (population !! i).

(** The inner loop: the middle of the sorted front, each with its two neighbours. *)
Fixpoint add_gaps (population : list Individual) (o : Objective) (range : jsnum) (sorted : list nat) (values : list Individual) :
    list Individual :=
  match sorted with
  | a :: ((b :: c :: _) as rest) =>
      let gap := Double.div (Double.sub (objective_at population o c) (objective_at population o a)) range in
      add_gaps population o range rest (alter (with_distance (λ d, Double.add d gap)) b values)
  | _ => values
  end.

Definition crowd_by (front : list nat) (population : list Individual) (o : Objective) : list Individual :=
  let sorted := js_sort (λ a b, comparison_of (Double.sub (objective_at population o a) (objective_at population o b))) front in
  match sorted, last sorted with
  | first :: _, Some final =>
      let range := Double.sub (objective_at population o final) (objective_at population o first) in
      let ends := update_all (with_distance (λ _, PosInf)) population [first; final] in
      if Number.eqb range (num 0) then ends else add_gaps population o range sorted ends
  | _, _ => population
  end.

Definition assignCrowdingDistance (population : list Individual) (front : list nat) : list Individual :=
  let zeroed := update_all (with_distance (λ _, num 0)) population front in
  if (length front <=? 2)%nat then update_all (with_distance (λ _, PosInf)) zeroed front
  else foldl (crowd_by front) zeroed COVERAGE_PLAN_OPTIMIZER_OBJECTIVES.

Definition crowdedCompare (a b : Individual) : jsnum :=
  if negb (in_rank a =? in_rank b)%nat then num (Z.of_nat (in_rank a) - Z.of_nat (in_rank b))
  else Double.sub (in_crowdingDistance b) (in_crowdingDistance a).

(** ** Variation *)

Definition binaryTournament (population : list Individual) : rand (option Individual) :=
  i ← rng_below (Z.of_nat (length population));
  j ← rng_below (Z.of_nat (length population));
  mret (a ← population !! Z.to_nat i; b ← population !! Z.to_nat j;
        Some (if Number.leb (crowdedCompare a b) (num 0) then a else b)).

(** [clampGene] of an integer. *)
Definition clampGene (c : TechniqueCoefficients) (value : Z) : Z :=
  clamp (whole (tc_minQuota c)) (whole (tc_maxQuota c)) value.

Definition gene (p : plan) (technique : string) : Z := default 0 (p !! technique).

Fixpoint cross_plans (doCross : bool) (a b : plan) (coeffs : list (string * TechniqueCoefficients)) (children : plan * plan) :
    rand (plan * plan) :=
  match coeffs with
  | [] => mret children
  | (technique, c) :: rest =>
      swap ← (if doCross then rng_less (1 # 2) else mret false);
      let x := clampGene c (gene a technique) in
      let y := clampGene c (gene b technique) in
      cross_plans doCross a b rest
        (if (swap : bool) then (<[technique := y]> children.1, <[technique := x]> children.2)
         else (<[technique := x]> children.1, <[technique := y]> children.2))
  end.

Definition crossover (fixture : FixtureBenchmark) (config : NsgaIIConfig) (parentA parentB : Individual) :
    rand (Individual * Individual) :=
  doCross ← rng_less (fin (nc_crossoverRate config));
  children ← cross_plans doCross (in_plan parentA) (in_plan parentB) (coefficients fixture) (∅, ∅);
  mret (individual fixture children.1, individual fixture children.2).

(** The plan, and whether a gene was drawn anew. *)
Fixpoint mutate_plan (config : NsgaIIConfig) (coeffs : list (string * TechniqueCoefficients)) (st : plan * bool) :
    rand (plan * bool) :=
  match coeffs with
  | [] => mret st
  | (technique, c) :: rest =>
      let span := whole (tc_maxQuota c) - whole (tc_minQuota c) in
      drawn ← rng_less (fin (nc_mutationRate config));
      if negb drawn || (span =? 0) then mutate_plan config rest st
      else
        offset ← rng_below (Z.max 1 (Qceiling (inject_Z span / 4)));
        let step := Z.max 1 offset in
        down ← rng_less (1 # 2);
        let direction := if (down : bool) then -1 else 1 in
        mutate_plan config rest
          (<[technique := clampGene c (default (whole (tc_minQuota c)) (st.1 !! technique) + direction * step)]> st.1, true)
  end.

Definition mutate (fixture : FixtureBenchmark) (config : NsgaIIConfig) (ind : Individual) : rand Individual :=
  mutated ← mutate_plan config (coefficients fixture) (in_plan ind, false);
  mret (if mutated.2 : bool then individual fixture mutated.1 else ind).

(** [canonicalJson(plan)] is the key: two plans have the same text exactly when they are equal. *)
Definition dedupe_step (st : list plan * list Individual) (ind : Individual) : list plan * list Individual :=
  let '(seen, out) := st in
  if bool_decide (in_plan ind ∈ seen) then st else (set_add seen (in_plan ind), out ++ [ind]).

Definition dedupePopulation (population : list Individual) : list Individual := (foldl dedupe_step ([], []) population).2.

(** ** Generations *)

(** The loop that fills the offspring: every turn adds one or two. *)
Fixpoint breed (fuel : nat) (fixture : FixtureBenchmark) (config : NsgaIIConfig) (size : nat) (population offspring : list Individual) :
    rand (option (list Individual)) :=
  if (size <=? length offspring)%nat then mret (Some offspring)
  else
    match fuel with
    | O => mret None
    | S fuel' =>
        parentA ← binaryTournament population;
        parentB ← binaryTournament population;
        match parentA, parentB with
        | Some a, Some b =>
            children ← crossover fixture config a b;
            childA ← mutate fixture config children.1;
            let offspring := offspring ++ [childA] in
            if (length offspring <? size)%nat
            then childB ← mutate fixture config children.2; breed fuel' fixture config size population (offspring ++ [childB])
            else breed fuel' fixture config size population offspring
        | _, _ => mret None
        end
    end.

Definition members (population : list Individual) (front : list nat) : list Individual := omap (λ i, population !! i) front.

(** Whole fronts as long as they fit, then the least crowded of the next one. *)
Fixpoint take_fronts (size : nat) (population : list Individual) (fronts : list (list nat)) (next : list Individual) : list Individual :=
  match fronts with
  | [] => next
  | front :: rest =>
      let population := assignCrowdingDistance population front in
      if (length next + length front <=? size)%nat then take_fronts size population rest (next ++ members population front)
      else
        let remaining := (size - length next)%nat in
        next ++ take remaining
          (js_sort (λ a b, comparison_of (Double.sub (in_crowdingDistance b) (in_crowdingDistance a))) (members population front))
  end.

(** [nonDominatedSort] and [assignCrowdingDistance] of every front. *)
Definition sort_and_crowd (population : list Individual) : list Individual * list (list nat) :=
  let '(ranked, fronts) := nonDominatedSort population in
  (foldl assignCrowdingDistance ranked fronts, fronts).

(** Merge, sort again, and keep the best. *)
Definition survivors (size : nat) (population offspring : list Individual) : list Individual :=
  let '(merged, fronts) := nonDominatedSort (dedupePopulation (population ++ offspring)) in
  take_fronts size merged fronts [].

Definition generation (fixture : FixtureBenchmark) (config : NsgaIIConfig) (population : list Individual) :
    rand (option (list Individual)) :=
  let size := Z.to_nat (whole (nc_populationSize config)) in
  let ranked := (sort_and_crowd population).1 in
  offspring ← breed size fixture config size ranked [];
  mret (survivors size ranked <$> offspring).

Fixpoint evolve (generations : nat) (fixture : FixtureBenchmark) (config : NsgaIIConfig) (population : list Individual) :
    rand (option (list Individual)) :=
  match generations with
  | O => mret (Some population)
  | S g =>
      next ← generation fixture config population;
      match next with Some next => evolve g fixture config next | None => mret None end
  end.

(** ** The recommended plan *)

Definition plan_json (p : plan) : json :=
  JObject ((λ e, (e.1, Json.jint e.2)) <$> js_sort (cmp_on fst String.compare) (map_to_list p)).

Context `{LocaleCompare} (json_text : json → string).

Definition by_cost : Individual → Individual → comparison :=
  cmp_then (cmp_on (ov_tokenCost ∘ in_objectives) rounded_compare)
    (cmp_then (cmp_on (λ ind, ov_mutationKillRate (in_objectives ind)) (λ a b, rounded_compare b a))
       (cmp_on (json_text ∘ plan_json ∘ in_plan) localeCompare)).

Definition killFloor (fixture : FixtureBenchmark) : jsnum := Double.mul (fb_bestKnownKillRate fixture) COVERAGE_PLAN_OPTIMIZER_KILL_RATE_FLOOR.
Definition costCeiling (fixture : FixtureBenchmark) : jsnum := Double.mul (fb_currentTokenCost fixture) COVERAGE_PLAN_OPTIMIZER_COST_CEILING.

Definition above_floor (fixture : FixtureBenchmark) (ind : Individual) : bool :=
  Number.leb (killFloor fixture) (number_of (ov_mutationKillRate (in_objectives ind))).
Definition below_ceiling (fixture : FixtureBenchmark) (ind : Individual) : bool :=
  Number.leb (number_of (ov_tokenCost (in_objectives ind))) (costCeiling fixture).

Definition selectRecommendedPlan (front : list Individual) (fixture : FixtureBenchmark) : option Individual * SelectionReason :=
  match front with
  | [] => (None, empty_front)
  | _ =>
      match filter (λ ind, above_floor fixture ind = true) front with
      | [] => (None, no_kill_rate_above_floor)
      | aboveFloor =>
          match filter (λ ind, below_ceiling fixture ind = true) aboveFloor with
          | [] => (None, no_cost_below_ceiling)
          | belowCeiling => (head (js_sort by_cost belowCeiling), selected)
          end
      end
  end.

(** ** A fixture *)

Definition baseline_plan (fixture : FixtureBenchmark) : plan :=
  foldl (λ p t, match fb_currentQuota fixture !! t with Some q => <[t := whole q]> p | None => p end) ∅ (fb_techniques fixture).

Definition check_window (fixture : FixtureBenchmark) (e : string * TechniqueCoefficients) : outcome OptimizerError unit :=
  let value := gene (baseline_plan fixture) e.1 in
  guard_throw ((value <? whole (tc_minQuota e.2)) || (whole (tc_maxQuota e.2) <? value)) (quota_outside_window (fb_fixtureId fixture) e.1).

(** [sortKeysAndRound] keeps what is not negative; an infinite distance is published as [1e18]. *)
Definition published (ind : Individual) : Individual :=
  {| in_plan := Z.max 0 <$> in_plan ind; in_objectives := in_objectives ind; in_rank := in_rank ind;
     in_crowdingDistance := if Number.isFinite (in_crowdingDistance ind) then number_of (round (in_crowdingDistance ind)) else num (10 ^ 18) |}.

Definition final_front (population : list Individual) : list Individual :=
  let '(ranked, fronts) := sort_and_crowd population in
  js_sort by_cost (published <$> members ranked (default [] (head fronts))).

Definition result_of (fixture : FixtureBenchmark) (generations : nat) (population : list Individual) : FixtureOptimizationResult :=
  let sortedFront := final_front population in
  let '(recommendedPlan, reason) := selectRecommendedPlan sortedFront fixture in
  {| fr_fixtureId := fb_fixtureId fixture; fr_paretoFront := sortedFront; fr_recommendedPlan := recommendedPlan;
     fr_satisfiesAcceptanceCriteria := match recommendedPlan with Some _ => true | None => false end;
     fr_selectionReason := reason; fr_generationsRun := generations |}.

Context (sha256_head : string → Z * Z * Z * Z).

(** [None] when the bounds of a loop are too small, which they are not. *)
Definition optimizeFixture (fixture : FixtureBenchmark) (config : option NsgaIIConfig) (seed : Z) :
    outcome OptimizerError (option FixtureOptimizationResult) :=
  outcome_bind (assertFixtureBenchmark fixture) (λ _,
  let config := default DEFAULT_NSGA_II_CONFIG config in
  outcome_bind (assertNsgaIIConfig config) (λ _,
  outcome_bind (outcome_foldl (λ _ e, check_window fixture e) tt (coefficients fixture)) (λ _,
    let size := Z.to_nat (whole (nc_populationSize config)) in
    let generations := Z.to_nat (whole (nc_generations config)) in
    let run : rand (option (list Individual)) :=
      others ← repeat_rand (size - 1) (buildRandomIndividual fixture);
      evolve generations fixture config (individual fixture (baseline_plan fixture) :: others) in
    Ok (result_of fixture generations <$> (run (u32 (deriveFixtureSeed sha256_head seed (fb_fixtureId fixture)))).1)))).

(** ** The report *)

Record OptimizerInput := {
  oi_fixtures : list FixtureBenchmark;
  oi_config : option NsgaIIConfig;
  oi_seed : option jsnum;
  oi_generatedAt : string;
}.

Definition check_unique (seenIds : list string) (fixture : FixtureBenchmark) : outcome OptimizerError (list string) :=
  if bool_decide (fb_fixtureId fixture ∈ seenIds) then Throw (duplicate_fixture (fb_fixtureId fixture))
  else Ok (set_add seenIds (fb_fixtureId fixture)).

Definition optimize_next (config : NsgaIIConfig) (seed : Z) (results : option (list FixtureOptimizationResult)) (fixture : FixtureBenchmark) :
    outcome OptimizerError (option (list FixtureOptimizationResult)) :=
  outcome_map (λ result, rs ← results; r ← result; Some (rs ++ [r])) (optimizeFixture fixture (Some config) seed).

Definition buildCoveragePlanOptimizerReport (input : OptimizerInput) : outcome OptimizerError (option CoveragePlanOptimizerReport) :=
  (guard_throw (bool_decide (oi_fixtures input = [])) no_fixtures ;;;
   guard_throw (bool_decide (oi_generatedAt input = "")) bad_generatedAt ;;;
   let config := default DEFAULT_NSGA_II_CONFIG (oi_config input) in
   assertNsgaIIConfig config ;;;
   let seed := default (num COVERAGE_PLAN_OPTIMIZER_DEFAULT_SEED) (oi_seed input) in
   guard_throw (negb (isNonNegativeSafeInteger seed)) bad_seed ;;;
   let sortedFixtures := js_sort (cmp_on fb_fixtureId localeCompare) (oi_fixtures input) in
   outcome_foldl check_unique [] sortedFixtures ;;;
   outcome_map (λ results, (λ rs,
     {| or_generatedAt := oi_generatedAt input; or_seed := whole seed; or_config := config; or_fixtureCount := length rs;
        or_fixtures := rs; or_satisfiesAcceptanceCriteria := forallb fr_satisfiesAcceptanceCriteria rs |}) <$> results)
     (outcome_foldl (optimize_next config (whole seed)) (Some []) sortedFixtures))%outcome.
End optimizer.

(** ** The reference corpus *)

Section corpus.

Definition technique (saturation killRate coverage tokens latency minQuota maxQuota : jsnum) : TechniqueCoefficients :=
  {| tc_killRateSaturation := saturation; tc_killRateCoefficient := killRate; tc_coverageCoefficient := coverage;
     tc_tokensPerUnit := tokens; tc_latencyMsPerUnit := latency; tc_minQuota := minQuota; tc_maxQuota := maxQuota |}.

Definition reference_checkout_flow : FixtureBenchmark :=
  {| fb_fixtureId := "reference-checkout-flow"; fb_techniques := ["accessibility"; "boundary_value_analysis"; "decision_table"; "equivalence_partitioning"; "use_case"];
     fb_perTechnique := list_to_map
       [("accessibility", technique (num 3) (Double.round (4 # 10)) (num 1) (num 1500) (num 100) (num 1) (num 8));
        ("boundary_value_analysis", technique (num 6) (Double.round (7 # 10)) (num 1) (num 1000) (num 70) (num 1) (num 16));
        ("decision_table", technique (num 5) (Double.round (9 # 10)) (num 1) (num 1800) (num 110) (num 1) (num 12));
        ("equivalence_partitioning", technique (num 9) (num 1) (num 1) (num 1400) (num 90) (num 1) (num 24));
        ("use_case", technique (num 4) (Double.round (5 # 10)) (num 1) (num 2200) (num 140) (num 1) (num 10))];
     fb_bestKnownKillRate := Double.round (8 # 10); fb_currentTokenCost := num 80000; fb_currentLatencyMs := num 5000;
     fb_currentQuota := list_to_map [("accessibility", num 4); ("boundary_value_analysis", num 10); ("decision_table", num 7); ("equivalence_partitioning", num 14); ("use_case", num 5)] |}.

Definition reference_login_form : FixtureBenchmark :=
  {| fb_fixtureId := "reference-login-form"; fb_techniques := ["boundary_value_analysis"; "equivalence_partitioning"];
     fb_perTechnique := list_to_map
       [("boundary_value_analysis", technique (num 4) (Double.round (8 # 10)) (num 1) (num 900) (num 70) (num 1) (num 14));
        ("equivalence_partitioning", technique (num 6) (num 1) (num 1) (num 1200) (num 80) (num 1) (num 18))];
     fb_bestKnownKillRate := Double.round (8 # 10); fb_currentTokenCost := num 21600; fb_currentLatencyMs := num 1520;
     fb_currentQuota := list_to_map [("boundary_value_analysis", num 8); ("equivalence_partitioning", num 12)] |}.

Definition reference_search_results : FixtureBenchmark :=
  {| fb_fixtureId := "reference-search-results"; fb_techniques := ["accessibility"; "boundary_value_analysis"; "equivalence_partitioning"];
     fb_perTechnique := list_to_map
       [("accessibility", technique (num 3) (Double.round (5 # 10)) (num 1) (num 1400) (num 95) (num 1) (num 8));
        ("boundary_value_analysis", technique (num 5) (Double.round (7 # 10)) (num 1) (num 950) (num 65) (num 1) (num 14));
        ("equivalence_partitioning", technique (num 7) (num 1) (num 1) (num 1300) (num 85) (num 1) (num 20))];
     fb_bestKnownKillRate := Double.round (8 # 10); fb_currentTokenCost := num 38000; fb_currentLatencyMs := num 2600;
     fb_currentQuota := list_to_map [("accessibility", num 3); ("boundary_value_analysis", num 8); ("equivalence_partitioning", num 12)] |}.

Definition REFERENCE_BENCHMARK_FIXTURES : list FixtureBenchmark := [reference_checkout_flow; reference_login_form; reference_search_results].

Definition buildCoveragePlanOptimizerBaselineReport `{Exponential} `{LocaleCompare} (json_text : json → string)
    (sha256_head : string → Z * Z * Z * Z) : outcome OptimizerError (option CoveragePlanOptimizerReport) :=
  buildCoveragePlanOptimizerReport json_text sha256_head
    {| oi_fixtures := REFERENCE_BENCHMARK_FIXTURES; oi_config := Some DEFAULT_NSGA_II_CONFIG;
       oi_seed := Some (num COVERAGE_PLAN_OPTIMIZER_DEFAULT_SEED);
       oi_generatedAt := COVERAGE_PLAN_OPTIMIZER_BASELINE_FIXED_GENERATED_AT |}.
End corpus.
