(* ===== verification/CoverageOptimizerProps.v ===== *)
(** * Coverage-plan optimizer: theorems

    The sort finds the Pareto fronts a definition by peeling gives; every plan of every
    generation stays in its windows and the loops end; a generation keeps what no other
    plan dominates; the published front and the recommended plan are what the report
    says of them. *)

From Stdlib Require Import Lqa Qpower Qabs.
From S2P Require Import Prelude JsString JsList JsValue CanonicalJson FinOpsReport CoverageOptimizer.

(** ** Dominance *)

(** At least as good on an objective, and better on it. *)
Definition no_worse (a b : ObjectiveVector) (o : Objective) : Prop :=
  match COVERAGE_PLAN_OPTIMIZER_OBJECTIVE_DIRECTIONS o with
  | maximize => Number.leb (objective b o) (objective a o) = true
  | minimize => Number.leb (objective a o) (objective b o) = true
  end.
Definition better_on (a b : ObjectiveVector) (o : Objective) : Prop := ¬ no_worse b a o.

(** Objectives are totally ordered: they are not [NaN]. *)
Lemma rounded_total a b : Number.ltb (number_of a) (number_of b) = negb (Number.leb (number_of b) (number_of a)).
Proof.
  unfold Number.ltb. destruct a as [p|], b as [q|]; cbn; try done. destruct (Qle_bool q p) eqn:E; [by rewrite andb_false_r|].
  rewrite andb_true_r. apply Qle_bool_iff, Qlt_le_weak, Qnot_le_lt. intros Hle%Qle_bool_iff. congruence.
Qed.

Lemma rounded_refl a : Number.leb (number_of a) (number_of a) = true.
Proof. destruct a as [p|]; [|done]. apply Qle_bool_iff, Qle_refl. Qed.

Lemma rounded_trans a b c :
  Number.leb (number_of a) (number_of b) = true → Number.leb (number_of b) (number_of c) = true →
  Number.leb (number_of a) (number_of c) = true.
Proof. destruct a, b, c; cbn; try done. rewrite !Qle_bool_iff. apply Qle_trans. Qed.

Lemma objective_total a b o o' : Number.ltb (objective a o) (objective b o') = negb (Number.leb (objective b o') (objective a o)).
Proof. apply rounded_total. Qed.

Lemma dominates_from_iff objectives a b flag :
  dominates_from objectives a b flag = true ↔
  (∀ o, o ∈ objectives → no_worse a b o) ∧ (flag = true ∨ ∃ o, o ∈ objectives ∧ better_on a b o).
Proof.
  revert flag. induction objectives as [|o rest IH]; intros flag; cbn [dominates_from].
  - split; [intros ->; split; [intros o Ho; by apply elem_of_nil in Ho|by left]|].
    intros [_ [?|(o & Ho & _)]]; [done|by apply elem_of_nil in Ho].
  - assert (Hstep : ∀ w s : bool, (w = true ↔ no_worse a b o) → (s = true ↔ no_worse b a o) →
      (if negb w then false else dominates_from rest a b (negb s || flag)) = true ↔
      (∀ o', o' ∈ o :: rest → no_worse a b o') ∧ (flag = true ∨ ∃ o', o' ∈ o :: rest ∧ better_on a b o')).
    { intros w s Hw Hs. destruct w; cbn [negb].
      - rewrite IH. setoid_rewrite elem_of_cons. destruct s; cbn.
        + assert (¬ better_on a b o) by (unfold better_on; tauto). assert (no_worse a b o) by tauto. naive_solver.
        + assert (better_on a b o) by (intros ?; assert (false = true) by tauto; done).
          assert (no_worse a b o) by tauto. naive_solver.
      - split; [done|]. intros [Hall _]. apply Hw, Hall. by left. }
    unfold better_on, no_worse in Hstep |- *. rewrite !objective_total.
    destruct (COVERAGE_PLAN_OPTIMIZER_OBJECTIVE_DIRECTIONS o); apply Hstep; tauto.
Qed.

(** The code's dominance is strict Pareto dominance. *)
Lemma dominates_iff a b : dominates a b = true ↔ (∀ o, no_worse a b o) ∧ ∃ o, better_on a b o.
Proof.
  unfold dominates. rewrite dominates_from_iff. split.
  - intros [Hall [?|(o & _ & Ho)]]; [done|]. split; [|by exists o]. intros o'. apply Hall. destruct o'; set_solver.
  - intros [Hall (o & Ho)]. split; [auto|]. right. exists o. split; [destruct o; set_solver|done].
Qed.

Lemma no_worse_refl a o : no_worse a a o.
Proof. unfold no_worse. destruct (COVERAGE_PLAN_OPTIMIZER_OBJECTIVE_DIRECTIONS o); apply rounded_refl. Qed.

Lemma no_worse_trans a b c o : no_worse a b o → no_worse b c o → no_worse a c o.
Proof. unfold no_worse. destruct (COVERAGE_PLAN_OPTIMIZER_OBJECTIVE_DIRECTIONS o); intros; by eapply rounded_trans. Qed.

Lemma dominates_irrefl a : dominates a a = false.
Proof. apply not_true_iff_false. rewrite dominates_iff. intros [_ [o Ho]]. apply Ho, no_worse_refl. Qed.

Lemma dominates_trans a b c : dominates a b = true → dominates b c = true → dominates a c = true.
Proof.
  rewrite !dominates_iff. intros [Hab (o & Ho)] [Hbc _]. split.
  - intros o'. eapply no_worse_trans; eauto.
  - exists o. intros Hca. apply Ho. eapply no_worse_trans; eauto.
Qed.

Lemma dominates_asym a b : dominates a b = true → dominates b a = false.
Proof.
  intros Hab. apply not_true_iff_false. intros Hba. pose proof (dominates_trans _ _ _ Hab Hba) as Haa.
  by rewrite dominates_irrefl in Haa.
Qed.

(** ** Fronts by peeling *)

Lemma filter_same {A} (P Q : A → Prop) `{∀ x, Decision (P x), ∀ x, Decision (Q x)} (l : list A) :
  (∀ x, x ∈ l → P x ↔ Q x) → filter P l = filter Q l.
Proof.
  induction l as [|x l IH]; intros Hpq; [done|]. rewrite !filter_cons, IH by (intros; apply Hpq; by right).
  specialize (Hpq x ltac:(by left)). repeat case_decide; tauto.
Qed.

(** The reference: the elements nothing in the list dominates, then those of the rest. *)
Section peel.
Context (D : nat → nat → bool).

Definition undominated (rest : list nat) (q : nat) : Prop := Forall (λ p, D p q = false) rest.

#[export] Instance undominated_dec rest q : Decision (undominated rest q).
Proof. unfold undominated. apply _. Defined.

Fixpoint peel (fuel : nat) (rest : list nat) : list (list nat) :=
  match fuel, rest with
  | S fuel', _ :: _ =>
      let front := filter (undominated rest) rest in
      front :: peel fuel' (filter (λ q, q ∉ front) rest)
  | _, _ => []
  end.

Lemma undominated_perm (rest rest' : list nat) q : rest ≡ₚ rest' → undominated rest q ↔ undominated rest' q.
Proof. intros Hp. unfold undominated. by rewrite Hp. Qed.

Lemma filter_undominated_perm rest rest' : rest ≡ₚ rest' → filter (undominated rest) rest ≡ₚ filter (undominated rest') rest'.
Proof.
  intros Hp. rewrite (filter_Permutation _ _ _ Hp).
  rewrite (list_filter_iff _ (undominated rest')); [done|]. intros q. by apply undominated_perm.
Qed.

Lemma peel_perm fuel rest rest' : rest ≡ₚ rest' → Forall2 (≡ₚ) (peel fuel rest) (peel fuel rest').
Proof.
  revert rest rest'. induction fuel as [|fuel IH]; intros rest rest' Hp; [constructor|]. cbn [peel].
  pose proof (Permutation_length Hp) as Hlen. destruct rest as [|x rest], rest' as [|x' rest']; try discriminate.
  - constructor.
  - pose proof (filter_undominated_perm _ _ Hp) as Hf. constructor; [exact Hf|]. apply IH.
    rewrite (filter_Permutation _ _ _ Hp). rewrite (list_filter_iff _ (λ q, q ∉ filter (undominated (x' :: rest')) (x' :: rest'))); [done|].
    intros q. by rewrite Hf.
Qed.

Context (Dirrefl : ∀ p, D p p = false) (Dtrans : ∀ p q r, D p q = true → D q r = true → D p r = true).

Lemma undominated_exists rest : rest ≠ [] → ∃ q, q ∈ rest ∧ undominated rest q.
Proof.
  unfold undominated. induction rest as [|x rest IH]; [done|]. intros _. destruct (decide (rest = [])) as [->|Hne].
  - exists x. split; [by left|]. by constructor.
  - destruct (IH Hne) as (m & Hm & Hall). destruct (D x m) eqn:Hx.
    + exists x. split; [by left|]. constructor; [apply Dirrefl|]. rewrite Forall_forall in Hall |- *. intros r Hr.
      destruct (D r x) eqn:Hrx; [|done]. specialize (Hall r Hr). pose proof (Dtrans r x m Hrx Hx). congruence.
    + exists m. split; [by right|]. by constructor.
Qed.

(** What is not in the front has something of the front above it. *)
Lemma dominated_by_front rest q :
  q ∈ rest → ¬ undominated rest q → ∃ p, p ∈ rest ∧ undominated rest p ∧ D p q = true.
Proof.
  intros Hq Hnot. set (above := filter (λ p, D p q = true) rest).
  assert (Hne : above ≠ []).
  { intros E. apply Hnot. unfold undominated. apply Forall_forall. intros p Hp. apply not_true_iff_false. intros Hd.
    assert (Hin : p ∈ above) by by apply list_elem_of_filter. rewrite E in Hin. by apply elem_of_nil in Hin. }
  destruct (undominated_exists above Hne) as (p & Hp & Hall). apply list_elem_of_filter in Hp as [Hd Hp].
  exists p. split; [done|]. split; [|done]. unfold undominated in *. rewrite Forall_forall in Hall |- *. intros r Hr.
  apply not_true_iff_false. intros Hrp. assert (Hra : r ∈ above) by (apply list_elem_of_filter; eauto).
  specialize (Hall r Hra). congruence.
Qed.

Lemma front_rest_perm rest :
  rest ≡ₚ filter (undominated rest) rest ++ filter (λ q, q ∉ filter (undominated rest) rest) rest.
Proof.
  assert (Hiff : filter (λ q, q ∉ filter (undominated rest) rest) rest = filter (λ q, ¬ undominated rest q) rest).
  { apply filter_same. intros q Hq. rewrite list_elem_of_filter. tauto. }
  rewrite Hiff. symmetry. apply filter_app_complement.
Qed.
End peel.

(** ** The sort *)

Definition times (q : nat) (l : list nat) : nat := length (filter (λ x, x = q) l).

Lemma times_app q l l' : times q (l ++ l') = (times q l + times q l')%nat.
Proof. unfold times. by rewrite filter_app, length_app. Qed.

Lemma times_not_elem q l : q ∉ l → times q l = 0%nat.
Proof.
  intros Hq. unfold times. destruct (filter _ l) as [|x r] eqn:E; [done|].
  assert (Hx : x ∈ filter (λ x, x = q) l) by (rewrite E; left). apply list_elem_of_filter in Hx as [-> Hx]. done.
Qed.

Lemma times_elem q l : q ∈ l → (0 < times q l)%nat.
Proof.
  intros Hq. unfold times. assert (Hin : q ∈ filter (λ x, x = q) l) by by apply list_elem_of_filter.
  destruct (filter _ l); [by apply elem_of_nil in Hin|cbn; lia].
Qed.

Lemma times_NoDup q l : NoDup l → times q l = if decide (q ∈ l) then 1%nat else 0%nat.
Proof.
  induction 1 as [|x l Hx Hnd IH]; [done|]. unfold times in *. rewrite filter_cons. destruct (decide (x = q)) as [->|E].
  - cbn [length]. rewrite decide_True by left. fold (times q l). by rewrite times_not_elem.
  - rewrite IH. apply decide_ext. set_solver.
Qed.

(** A run of decrements that takes no count below zero adds each index whose count it
    exhausts, once. *)
Lemma release_all l counts next :
  (∀ q, q ∈ l → ∃ c, counts !! q = Some c ∧ Z.of_nat (times q l) <= c) →
  ∃ added, foldl release (counts, next) l = ((foldl release (counts, next) l).1, next ++ added) ∧
    NoDup added ∧ (∀ q, q ∈ added ↔ q ∈ l ∧ counts !! q = Some (Z.of_nat (times q l))) ∧
    (∀ q c, counts !! q = Some c → (foldl release (counts, next) l).1 !! q = Some (c - Z.of_nat (times q l))).
Proof.
  revert counts next. induction l as [|q0 l IH]; intros counts next Hc; cbn [foldl].
  - exists []. rewrite app_nil_r. split; [done|]. split; [constructor|]. split; [set_solver|].
    intros q c Hq. cbn [fst]. rewrite Hq. f_equal. unfold times. cbn. lia.
  - assert (Htimes : ∀ q, times q (q0 :: l) = ((if decide (q0 = q) then 1 else 0) + times q l)%nat).
    { intros q. unfold times. rewrite filter_cons. by case_decide. }
    destruct (Hc q0 ltac:(by left)) as (c0 & Hc0 & Hle0). rewrite Htimes, decide_True in Hle0 by done.
    pose proof (lookup_lt_Some _ _ _ Hc0) as Hlt. 
    assert (Hrel : release (counts, next) q0 = (<[q0:=c0 - 1]> counts, if c0 - 1 =? 0 then next ++ [q0] else next))
      by (unfold release; by rewrite Hc0).
    rewrite Hrel.
    specialize (IH (<[q0:=c0 - 1]> counts) (if c0 - 1 =? 0 then next ++ [q0] else next)).
    destruct IH as (added & Heq & Hnd & Hadd & Hres).
    { intros q Hq. destruct (decide (q0 = q)) as [<-|Hne].
      - exists (c0 - 1). rewrite list_lookup_insert_eq by done. split; [done|lia].
      - destruct (Hc q ltac:(by right)) as (c & Hq' & Hle). exists c. rewrite list_lookup_insert_ne by done.
        split; [done|]. rewrite Htimes, decide_False in Hle by done. lia. }
    assert (Hzero : ∀ q, q0 ≠ q → <[q0:=c0 - 1]> counts !! q = counts !! q) by (intros; by apply list_lookup_insert_ne).
    assert (Hself : <[q0:=c0 - 1]> counts !! q0 = Some (c0 - 1)) by by apply list_lookup_insert_eq.
    assert (Hlast : ∀ q c, counts !! q = Some c →
      (foldl release (<[q0:=c0 - 1]> counts, if c0 - 1 =? 0 then next ++ [q0] else next) l).1 !! q = Some (c - Z.of_nat (times q (q0 :: l)))).
    { intros q c Hq. rewrite Htimes. destruct (decide (q0 = q)) as [<-|Hne].
      - rewrite (Hres q0 (c0 - 1) Hself). assert (c = c0) as -> by congruence. f_equal; lia.
      - rewrite (Hres q c) by (by rewrite Hzero). f_equal; lia. }
    destruct (Z.eqb_spec (c0 - 1) 0) as [Hz|Hnz].
    + exists (q0 :: added). split; [by rewrite Heq, <- app_assoc|].
      assert (Hl : q0 ∉ l) by (intros Hin; apply times_elem in Hin; lia).
      assert (Hqa : q0 ∉ added) by (rewrite Hadd; tauto). split; [by constructor|]. split; [|exact Hlast].
      intros q. rewrite !elem_of_cons, Hadd, Htimes. destruct (decide (q0 = q)) as [<-|Hne].
      * rewrite times_not_elem by done. split; [|by left]. intros _. split; [by left|]. rewrite Hc0. f_equal; lia.
      * rewrite Hzero by done. naive_solver.
    + exists added. split; [exact Heq|]. split; [exact Hnd|]. split; [|exact Hlast].
      intros q. rewrite Hadd, elem_of_cons, Htimes. destruct (decide (q0 = q)) as [<-|Hne].
      * rewrite Hself, Hc0. split.
        -- intros [Hin [= E]]. split; [by left|]. f_equal; lia.
        -- intros [_ [= E]]. assert (0 < times q0 l)%nat by lia. split; [|f_equal; lia].
           destruct (decide (q0 ∈ l)) as [|Hnin]; [done|]. rewrite times_not_elem in * by done. lia.
      * rewrite Hzero by done. naive_solver.
Qed.

Section sort.
Context (objectives : list ObjectiveVector).

#[local] Definition D : nat → nat → bool := dominates_at objectives.

Lemma D_irrefl p : D p p = false.
Proof. unfold D, dominates_at. destruct (objectives !! p); [apply dominates_irrefl|done]. Qed.

Lemma D_trans p q r : D p q = true → D q r = true → D p r = true.
Proof.
  unfold D, dominates_at. destruct (objectives !! p), (objectives !! q), (objectives !! r); try done.
  apply dominates_trans.
Qed.

Lemma D_bounds p q : D p q = true → (p < length objectives)%nat ∧ (q < length objectives)%nat.
Proof.
  unfold D, dominates_at. destruct (objectives !! p) eqn:Hp, (objectives !! q) eqn:Hq; try done.
  intros _. split; by eapply lookup_lt_Some.
Qed.

Lemma D_asym p q : D p q = true → D q p = false.
Proof.
  intros Hpq. apply not_true_iff_false. intros Hqp. pose proof (D_trans _ _ _ Hpq Hqp) as Hpp. by rewrite D_irrefl in Hpp.
Qed.

Lemma elem_of_dominatedBy p q : q ∈ dominatedBy objectives p ↔ D p q = true.
Proof.
  unfold dominatedBy. rewrite list_elem_of_filter, list_elem_of_In, in_seq. split; [tauto|]. intros Hd.
  pose proof (D_bounds _ _ Hd). split; [|lia]. split; [|exact Hd]. intros ->. by rewrite D_irrefl in Hd.
Qed.

(** How many of a list dominate an index. *)
Definition above (q : nat) (l : list nat) : nat := length (filter (λ p, D p q = true) l).

Lemma above_app q l l' : above q (l ++ l') = (above q l + above q l')%nat.
Proof. unfold above. by rewrite filter_app, length_app. Qed.

Lemma above_perm q l l' : l ≡ₚ l' → above q l = above q l'.
Proof. intros Hp. unfold above. by rewrite Hp. Qed.

Lemma above_0 q l : above q l = 0%nat ↔ undominated D l q.
Proof.
  unfold above, undominated. rewrite Forall_forall. split.
  - intros H0 p Hp. apply not_true_iff_false. intros Hd. apply length_zero_iff_nil in H0.
    assert (Hin : p ∈ filter (λ p, D p q = true) l) by by apply list_elem_of_filter. rewrite H0 in Hin. by apply elem_of_nil in Hin.
  - intros Hall. destruct (filter _ l) as [|p r] eqn:E; [done|].
    assert (Hin : p ∈ filter (λ p, D p q = true) l) by (rewrite E; left). apply list_elem_of_filter in Hin as [Hd Hin].
    by rewrite Hall in Hd.
Qed.

Lemma dominationCount_above p : dominationCount objectives p = Z.of_nat (above p (seq 0 (length objectives))).
Proof.
  unfold dominationCount, above. do 2 f_equal. apply filter_same. intros q _. split; [tauto|]. intros Hd.
  pose proof (D_asym _ _ Hd). split; [|done]. intros ->. by rewrite D_irrefl in Hd.
Qed.

Lemma times_released q front : times q (flat_map (dominatedBy objectives) front) = above q front.
Proof.
  induction front as [|p front IH]; [done|]. cbn [flat_map]. rewrite times_app, IH. unfold above. rewrite filter_cons.
  rewrite times_NoDup by apply NoDup_filter, NoDup_seq. repeat case_decide; rewrite elem_of_dominatedBy in *; done.
Qed.

Lemma next_front_flat counts front :
  next_front objectives counts front = foldl release (counts, []) (flat_map (dominatedBy objectives) front).
Proof.
  unfold next_front. generalize (counts, @nil nat). induction front as [|p front IH]; intros st; [done|].
  cbn [foldl flat_map]. by rewrite IH, foldl_app.
Qed.

(** The state of the loop: the current front, and the indices no front has yet. *)
Record loop_ok (counts : list Z) (front rest : list nat) : Prop := {
  lo_NoDup : NoDup (front ++ rest);
  lo_front : ∀ p, p ∈ front → undominated D (front ++ rest) p;
  lo_rest : ∀ q, q ∈ rest → counts !! q = Some (Z.of_nat (above q (front ++ rest))) ∧ ¬ undominated D (front ++ rest) q;
  lo_closed : ∀ p q, p ∈ front ++ rest → D p q = true → q ∈ front ++ rest;
}.

Lemma below_the_front counts front rest p q : loop_ok counts front rest → p ∈ front ++ rest → D p q = true → q ∈ rest.
Proof.
  intros Hok Hp Hd. pose proof (lo_closed _ _ _ Hok p q Hp Hd) as Hq. apply elem_of_app in Hq as [Hq|Hq]; [|done].
  pose proof (lo_front _ _ _ Hok q Hq) as Hu. unfold undominated in Hu. rewrite Forall_forall in Hu.
  rewrite (Hu p Hp) in Hd. done.
Qed.

Lemma next_front_ok counts front rest :
  loop_ok counts front rest →
  ∃ counts' next, next_front objectives counts front = (counts', next) ∧
    next ++ filter (λ q, q ∉ next) rest ≡ₚ rest ∧ loop_ok counts' next (filter (λ q, q ∉ next) rest).
Proof.
  intros Hok. rewrite next_front_flat. set (l := flat_map (dominatedBy objectives) front).
  assert (Hl : ∀ q, q ∈ l ↔ ∃ p, p ∈ front ∧ D p q = true).
  { intros q. unfold l. rewrite list_elem_of_In, in_flat_map. split; intros (p & Hp & Hq); exists p.
    - apply list_elem_of_In, elem_of_dominatedBy in Hq. by apply list_elem_of_In in Hp.
    - by rewrite <- !list_elem_of_In, elem_of_dominatedBy. }
  assert (Hrest : ∀ q, q ∈ l → q ∈ rest).
  { intros q (p & Hp & Hd)%Hl. eapply below_the_front; [done| |done]. apply elem_of_app. by left. }
  destruct (release_all l counts []) as (next & Heq & Hnd & Hnext & Hcounts).
  { intros q Hq. destruct (lo_rest _ _ _ Hok q (Hrest q Hq)) as [Hc _]. eexists. split; [exact Hc|].
    unfold l. rewrite times_released, above_app. lia. }
  eexists _, next. split; [exact Heq|].
  assert (Hiff : ∀ q, q ∈ next ↔ q ∈ rest ∧ undominated D rest q).
  { intros q. rewrite Hnext, <- above_0. unfold l at 2. rewrite times_released. split.
    - intros [Hq Hc]. split; [auto|]. destruct (lo_rest _ _ _ Hok q (Hrest q Hq)) as [Hc' _].
      rewrite Hc' in Hc. injection Hc as Hc. rewrite above_app in Hc. lia.
    - intros [Hq H0]. destruct (lo_rest _ _ _ Hok q Hq) as [Hc Hu]. rewrite <- above_0, above_app in Hu. split.
      + destruct (decide (q ∈ l)) as [|Hnl]; [done|]. apply times_not_elem in Hnl. unfold l in Hnl. rewrite times_released in Hnl. lia.
      + rewrite Hc. do 2 f_equal. rewrite above_app. lia. }
  pose proof (lo_NoDup _ _ _ Hok) as Hnd'. apply NoDup_app in Hnd' as (_ & _ & Hndr).
  assert (Hperm : next ++ filter (λ q, q ∉ next) rest ≡ₚ rest).
  { rewrite <- (filter_app_complement (λ q, q ∈ next) rest) at 2. apply Permutation_app_tail.
    apply NoDup_Permutation; [done|by apply NoDup_filter|]. intros q. rewrite list_elem_of_filter, Hiff. tauto. }
  split; [exact Hperm|]. constructor.
  - by rewrite Hperm.
  - intros p Hp. rewrite (undominated_perm D _ _ p Hperm). by apply Hiff.
  - intros q [Hq Hr]%list_elem_of_filter. rewrite (undominated_perm D _ _ q Hperm), (above_perm q _ _ Hperm). split.
    + destruct (lo_rest _ _ _ Hok q Hr) as [Hc _]. rewrite (Hcounts q _ Hc). unfold l. rewrite times_released, above_app. f_equal. lia.
    + intros Hu. apply Hq, Hiff. by split.
  - intros p q. rewrite Hperm. intros Hp Hd. eapply below_the_front; [done| |done]. apply elem_of_app. by right.
Qed.

Lemma fronts_are_peeled fuel k counts front rest :
  loop_ok counts front rest → (length (front ++ rest) < fuel)%nat → (length (front ++ rest) ≤ k)%nat →
  ∃ fronts, fronts_from fuel objectives counts front = Some fronts ∧ Forall2 (≡ₚ) fronts (peel D k (front ++ rest)).
Proof.
  revert k counts front rest. induction fuel as [|fuel IH]; intros k counts front rest Hok Hfuel Hk; [lia|].
  cbn [fronts_from]. destruct front as [|p0 front0].
  - exists []. split; [done|]. destruct rest as [|q rest0]; [destruct k; constructor|].
    destruct (undominated_exists D D_irrefl D_trans (q :: rest0)) as (m & Hm & Hu); [done|].
    by destruct (lo_rest _ _ _ Hok m Hm) as [_ []].
  - set (front := p0 :: front0) in *. destruct (next_front_ok counts front rest Hok) as (counts' & next & -> & Hperm & Hok').
    destruct k as [|k]; [cbn in Hk; lia|].
    assert (Hlen : length (next ++ filter (λ q, q ∉ next) rest) = length rest) by by rewrite Hperm.
    rewrite length_app in Hfuel, Hk. unfold front in Hfuel, Hk. cbn [length] in Hfuel, Hk.
    destruct (IH k counts' next (filter (λ q, q ∉ next) rest) Hok') as (fronts & -> & Hf); [lia|lia|].
    eexists. split; [done|]. unfold front at 2. cbn [app peel]. change (p0 :: front0 ++ rest) with (front ++ rest).
    assert (Hfront : front ≡ₚ filter (undominated D (front ++ rest)) (front ++ rest)).
    { pose proof (lo_NoDup _ _ _ Hok) as Hnd. apply NoDup_Permutation; [by apply NoDup_app in Hnd as (? & _)|by apply NoDup_filter|].
      intros q. rewrite list_elem_of_filter, elem_of_app. split; [intros Hq; split; [by apply (lo_front _ _ _ Hok)|by left]|].
      intros [Hu [?|Hq]]; [done|]. by destruct (lo_rest _ _ _ Hok q Hq). }
    constructor; [exact Hfront|]. etrans; [exact Hf|]. apply peel_perm. rewrite Hperm.
    rewrite (filter_same _ (λ q, q ∉ front)) by (intros q _; by rewrite <- Hfront). rewrite filter_app.
    pose proof (lo_NoDup _ _ _ Hok) as Hnd. apply NoDup_app in Hnd as (_ & Hdis & _).
    assert (E1 : filter (λ q, q ∉ front) front = []).
    { destruct (filter _ front) as [|q l] eqn:E; [done|]. assert (Hq : q ∈ filter (λ q, q ∉ front) front) by (rewrite E; left).
      apply list_elem_of_filter in Hq. tauto. }
    assert (E2 : filter (λ q, q ∉ front) rest = rest).
    { apply filter_id. apply Forall_forall. intros q Hq Hin. by apply (Hdis q). }
    by rewrite E1, E2.
Qed.

Lemma initial_loop_ok :
  let indices := seq 0 (length objectives) in
  let counts := dominationCount objectives <$> indices in
  loop_ok counts (filter (λ p, counts !! p = Some 0) indices) (filter (λ p, counts !! p ≠ Some 0) indices).
Proof.
  intros indices counts. pose proof (filter_app_complement (λ p, counts !! p = Some 0) indices) as Hperm.
  assert (Hcount : ∀ p, p ∈ indices → counts !! p = Some (Z.of_nat (above p indices))).
  { intros p Hp. unfold counts, indices in *. apply list_elem_of_In, in_seq in Hp.
    rewrite list_lookup_fmap, lookup_seq_lt by lia. cbn. by rewrite dominationCount_above. }
  constructor.
  - rewrite Hperm. apply NoDup_seq.
  - intros p [Hc Hp]%list_elem_of_filter. rewrite (undominated_perm D _ _ p Hperm), <- above_0.
    rewrite Hcount in Hc by done. injection Hc as Hc. lia.
  - intros q [Hc Hq]%list_elem_of_filter. rewrite (undominated_perm D _ _ q Hperm), (above_perm q _ _ Hperm), <- above_0.
    split; [by apply Hcount|]. intros E. apply Hc. by rewrite Hcount, E.
  - intros p q. rewrite Hperm. intros _ Hd. apply D_bounds in Hd. apply list_elem_of_In, in_seq. lia.
Qed.
End sort.

Lemma concat_perm (l l' : list (list nat)) : Forall2 (≡ₚ) l l' → concat l ≡ₚ concat l'.
Proof. induction 1 as [|x y l l' Hxy _ IH]; [done|]. cbn. by rewrite Hxy, IH. Qed.

Lemma concat_peel (D : nat → nat → bool) k rest :
  (∀ p, D p p = false) → (∀ p q r, D p q = true → D q r = true → D p r = true) →
  (length rest ≤ k)%nat → concat (peel D k rest) ≡ₚ rest.
Proof.
  intros Hi Ht. revert rest. induction k as [|k IH]; intros rest Hk; [destruct rest; [done|cbn in Hk; lia]|].
  cbn [peel]. destruct rest as [|x rest0]; [done|]. set (rest := x :: rest0) in *. cbn [concat].
  pose proof (front_rest_perm D rest) as Hperm. rewrite IH; [by rewrite <- Hperm|].
  destruct (undominated_exists D Hi Ht rest) as (m & Hm & Hu); [done|].
  assert (Hin : m ∈ filter (undominated D rest) rest) by by apply list_elem_of_filter.
  pose proof (Permutation_length Hperm) as Hlen. rewrite length_app in Hlen.
  assert (Hpos : filter (undominated D rest) rest ≠ []) by (intros E; rewrite E in Hin; by apply elem_of_nil in Hin).
  rewrite <- length_zero_iff_nil in Hpos. lia.
Qed.

(** ** Updates of a population *)

Lemma lookup_update_all f population l i :
  NoDup l → update_all f population l !! i = if decide (i ∈ l) then f <$> population !! i else population !! i.
Proof.
  intros Hnd. revert population. induction Hnd as [|x l Hx _ IH]; intros population; [done|]. cbn [update_all foldl].
  change (foldl (λ pop i, alter f i pop) ?p l) with (update_all f p l). rewrite IH.
  destruct (decide (x = i)) as [->|Hne].
  - rewrite decide_False by done. rewrite decide_True by left. apply list_lookup_alter_eq.
  - rewrite list_lookup_alter_ne by done. apply decide_ext. set_solver.
Qed.

Lemma lookup_update_all_ne f population l i : i ∉ l → update_all f population l !! i = population !! i.
Proof.
  revert population. induction l as [|x l IH]; intros population Hi; [done|]. cbn [update_all foldl].
  change (foldl (λ pop i, alter f i pop) ?p l) with (update_all f p l). rewrite IH by set_solver.
  apply list_lookup_alter_ne. set_solver.
Qed.

(** What a rank or a distance leaves alone. *)
Definition core (ind : Individual) : plan * ObjectiveVector := (in_plan ind, in_objectives ind).

Lemma core_alter f (i : nat) (population : list Individual) : (∀ ind, core (f ind) = core ind) → core <$> alter f i population = core <$> population.
Proof.
  intros Hf. apply list_eq. intros j. rewrite !list_lookup_fmap. destruct (decide (i = j)) as [->|Hne].
  - rewrite list_lookup_alter_eq. destruct (population !! j); cbn; by rewrite ?Hf.
  - by rewrite list_lookup_alter_ne.
Qed.

Lemma core_update_all f (population : list Individual) l : (∀ ind, core (f ind) = core ind) → core <$> update_all f population l = core <$> population.
Proof.
  intros Hf. unfold update_all. revert population. induction l as [|x l IH]; intros population; [done|]. cbn [foldl].
  by rewrite IH, core_alter.
Qed.

Lemma core_crowd `{Exponential} front population : core <$> assignCrowdingDistance population front = core <$> population.
Proof.
  assert (Hgaps : ∀ o range sorted pop values, core <$> add_gaps pop o range sorted values = core <$> values).
  { intros o range sorted pop. induction sorted as [|a [|b [|c rest]] IH]; intros values; try done.
    etrans; [apply (IH (alter _ b values))|]. by apply core_alter. }
  assert (Hby : ∀ pop o, core <$> crowd_by front pop o = core <$> pop).
  { intros pop o. unfold crowd_by. destruct (js_sort _ front) as [|a l]; [done|]. destruct (last _); [|done].
    case_match; rewrite ?Hgaps; by apply core_update_all. }
  unfold assignCrowdingDistance. case_match.
  - by rewrite !core_update_all.
  - generalize COVERAGE_PLAN_OPTIMIZER_OBJECTIVES. intros os.
    rewrite <- (core_update_all (with_distance (λ _, num 0)) population front) by done.
    generalize (update_all (with_distance (λ _, num 0)) population front). clear H0.
    induction os as [|o os IH]; intros pop; [done|]. cbn [foldl]. by rewrite IH, Hby.
Qed.

Lemma core_sort population : core <$> (nonDominatedSort population).1 = core <$> population.
Proof.
  unfold nonDominatedSort. cbn [fst]. generalize (imap pair (default [] (sort_fronts (in_objectives <$> population)))).
  intros es. revert population. induction es as [|e es IH]; intros population; [done|]. cbn [foldl].
  rewrite IH. by apply core_update_all.
Qed.

Lemma core_objectives (population population' : list Individual) :
  core <$> population = core <$> population' → in_objectives <$> population = in_objectives <$> population'.
Proof. intros E. apply (f_equal (fmap snd)) in E. by rewrite <- !list_fmap_compose in E. Qed.

(** Ranks are the numbers of the fronts. *)
Lemma ranked_lookup fronts population s :
  NoDup (concat fronts) → ∀ k front i, fronts !! k = Some front → i ∈ front →
  foldl (λ pop e, update_all (with_rank e.1) pop e.2) population (imap (λ k f, ((s + k)%nat, f)) fronts) !! i =
  with_rank (s + k) <$> population !! i.
Proof.
  revert population s. induction fronts as [|front0 fronts IH]; intros population s Hnd k front i Hk Hi; [done|].
  cbn [concat] in Hnd. apply NoDup_app in Hnd as (Hnd0 & Hdis & Hnd). rewrite imap_cons. cbn [foldl].
  rewrite (imap_ext _ (λ k f, ((S s + k)%nat, f))) by (intros; cbn; f_equal; lia).
  destruct k as [|k]; cbn in Hk.
  - injection Hk as ->. assert (Hout : ∀ pop s', foldl (λ pop e, update_all (with_rank e.1) pop e.2) pop (imap (λ k f, ((s' + k)%nat, f)) fronts) !! i = pop !! i).
    { specialize (Hdis i Hi). clear IH Hnd Hnd0. induction fronts as [|f fronts IHf]; intros pop s'; [done|].
      rewrite imap_cons. cbn [foldl concat] in *. rewrite elem_of_app in Hdis.
      rewrite (imap_ext _ (λ k f, ((S s' + k)%nat, f))) by (intros; cbn; f_equal; lia). rewrite IHf by tauto.
      cbn [snd]. apply lookup_update_all_ne. tauto. }
    rewrite Hout, lookup_update_all by done. rewrite decide_True by done. by rewrite Nat.add_0_r.
  - rewrite (IH _ (S s) Hnd k front i Hk Hi). rewrite lookup_update_all by done. rewrite decide_False.
    + by rewrite Nat.add_succ_r.
    + intros Hin. apply (Hdis i Hin). apply list_elem_of_In, in_concat. exists front.
      rewrite <- !list_elem_of_In. split; [by eapply list_elem_of_lookup_2|done].
Qed.

Lemma sort_fronts_peel objectives :
  ∃ fronts, sort_fronts objectives = Some fronts ∧
    Forall2 (≡ₚ) fronts (peel (dominates_at objectives) (length objectives) (seq 0 (length objectives))).
Proof.
  unfold sort_fronts. pose proof (initial_loop_ok objectives) as Hok. cbn zeta in Hok.
  set (indices := seq 0 (length objectives)) in *. set (counts := dominationCount objectives <$> indices) in *.
  pose proof (filter_app_complement (λ p, counts !! p = Some 0) indices) as Hperm.
  assert (Hlen : length indices = length objectives) by apply length_seq.
  destruct (fronts_are_peeled objectives (S (length objectives)) (length objectives) counts _ _ Hok) as (fronts & -> & Hf).
  - rewrite Hperm. lia.
  - rewrite Hperm. lia.
  - exists fronts. split; [done|]. etrans; [exact Hf|]. by apply peel_perm.
Qed.

(** C24. The fast non-dominated sort always ends and computes what its definition by
    peeling gives: the first front is the individuals nothing dominates, each further
    front those nothing left dominates. The fronts partition the population, and the rank
    of an individual is the number of its front. *)
Theorem nonDominatedSort_is_peeling population :
  let n := length population in
  let '(ranked, fronts) := nonDominatedSort population in
  sort_fronts (in_objectives <$> population) = Some fronts ∧
  Forall2 (≡ₚ) fronts (peel (dominates_at (in_objectives <$> population)) n (seq 0 n)) ∧
  concat fronts ≡ₚ seq 0 n ∧
  ∀ k front i, fronts !! k = Some front → i ∈ front →
    ∃ ind, population !! i = Some ind ∧ ranked !! i = Some (with_rank k ind).
Proof.
  unfold nonDominatedSort. destruct (sort_fronts_peel (in_objectives <$> population)) as (fronts & Hs & Hf).
  rewrite Hs. cbn [default]. rewrite length_fmap in Hf.
  assert (Hc : concat fronts ≡ₚ seq 0 (length population)).
  { rewrite (concat_perm _ _ Hf). apply concat_peel; [apply D_irrefl|apply D_trans|by rewrite length_seq]. }
  split_and!; [done|done|done|]. intros k front i Hk Hi.
  assert (Hlt : (i < length population)%nat).
  { assert (Hin : i ∈ concat fronts).
    { apply list_elem_of_In, in_concat. exists front. rewrite <- !list_elem_of_In. split; [by eapply list_elem_of_lookup_2|done]. }
    rewrite Hc in Hin. apply list_elem_of_In, in_seq in Hin. lia. }
  apply lookup_lt_is_Some in Hlt as [ind Hind]. exists ind. split; [done|].
  assert (Hnd : NoDup (concat fronts)) by (rewrite Hc; apply NoDup_seq).
  etrans; [exact (ranked_lookup fronts population 0 Hnd k front i Hk Hi)|]. by rewrite Hind.
Qed.

(** ** Random computations *)

(** Whatever the state, the value has the property. *)
Definition always {A} (m : rand A) (P : A → Prop) : Prop := ∀ s, P (m s).1.

Lemma always_ret {A} (a : A) (P : A → Prop) : P a → always (mret a) P.
Proof. intros Ha s. exact Ha. Qed.

Lemma always_bind {A B} (m : rand A) (k : A → rand B) (P : A → Prop) (Q : B → Prop) :
  always m P → (∀ a, P a → always (k a) Q) → always (m ≫= k) Q.
Proof.
  intros Hm Hk s. unfold mbind, rand_bind. specialize (Hm s). destruct (m s) as [a s']. by apply Hk.
Qed.

Lemma always_any {A} (m : rand A) : always m (λ _, True).
Proof. by intros s. Qed.

Lemma log2_bound w a : 0 < w → 0 ≤ a < 2 ^ w → Z.log2 a < w.
Proof. intros Hw Ha. destruct (Z.eq_dec a 0) as [->|]; [by cbn|]. apply Z.log2_lt_pow2; lia. Qed.

Lemma lxor_bound w a b : 0 < w → 0 ≤ a < 2 ^ w → 0 ≤ b < 2 ^ w → 0 ≤ Z.lxor a b < 2 ^ w.
Proof.
  intros Hw Ha Hb. assert (Hn : 0 ≤ Z.lxor a b) by (apply Z.lxor_nonneg; lia). split; [done|].
  destruct (Z.eq_dec (Z.lxor a b) 0) as [->|Hne]; [lia|]. apply Z.log2_lt_pow2; [lia|].
  eapply Z.le_lt_trans; [apply Z.log2_lxor; lia|]. apply Z.max_lub_lt; by apply log2_bound.
Qed.

Lemma shiftr_bound w a k : 0 ≤ k → 0 ≤ a < 2 ^ w → 0 ≤ Z.shiftr a k < 2 ^ w.
Proof.
  intros Hk Ha. rewrite Z.shiftr_div_pow2 by done.
  assert (0 < 2 ^ k) by (apply Z.pow_pos_nonneg; lia). split; [apply Z.div_pos; lia|].
  apply Z.div_lt_upper_bound; [lia|]. nia.
Qed.

Lemma u32_bound z : 0 ≤ u32 z < 2 ^ 32.
Proof. apply Z.mod_pos_bound. lia. Qed.

(** One call of the generator yields 32 bits. *)
Lemma rng_bits_bound : always rng_bits (λ b, 0 ≤ b < 2 ^ 32).
Proof.
  intros s. unfold rng_bits. cbn [fst]. set (st := u32 (s + _)). set (t := u32 (Z.lxor st _ * _)).
  set (u := Z.lxor t _). assert (Hu : 0 ≤ u < 2 ^ 32) by (apply lxor_bound; [lia| |]; apply u32_bound).
  apply lxor_bound; [lia|done|]. by apply shiftr_bound.
Qed.

Lemma pow2_Qpower k : (Double.pow2 k == 2 ^ k)%Q.
Proof.
  unfold Double.pow2. destruct (Z.leb_spec 0 k).
  - by rewrite Zpower_Qpower.
  - rewrite Zpower_Qpower by lia. rewrite <- Qpower_opp. by rewrite Z.opp_involutive.
Qed.

Lemma pow2_pos k : (0 < Double.pow2 k)%Q.
Proof. rewrite pow2_Qpower. by apply Qpower_0_lt. Qed.

Lemma pow2_add k l : (Double.pow2 (k + l) == Double.pow2 k * Double.pow2 l)%Q.
Proof. rewrite !pow2_Qpower. by apply Qpower_plus. Qed.

Lemma pow2_le k l : k ≤ l → (Double.pow2 k <= Double.pow2 l)%Q.
Proof. intros Hkl. rewrite !pow2_Qpower. by apply Qpower_le_compat_l. Qed.

Lemma pow2_Z k : 0 ≤ k → Double.pow2 k = inject_Z (2 ^ k).
Proof. intros Hk. unfold Double.pow2. by rewrite (proj2 (Z.leb_le 0 k) Hk). Qed.

(** The leading bit of a positive number. *)
Lemma leading_bit q : (0 < q)%Q → ∃ e, (Double.pow2 e <= q)%Q ∧ Double.last_bit q = Z.max (e - 52) (- 1074).
Proof.
  intros Hq. unfold Double.last_bit. set (a := Z.log2 _). set (b := Z.log2 _).
  assert (Habs : (Qabs q == q)%Q) by (apply Qabs_pos; lra).
  eexists. split; [|reflexivity]. destruct (Qle_bool _ _) eqn:E; [apply Qle_bool_iff in E; by rewrite Habs in E|]. clear E.
  assert (Hn : 0 < Qnum q) by (unfold Qlt in Hq; cbn in Hq; lia).
  assert (Ha : (Double.pow2 a <= inject_Z (Qnum q))%Q).
  { unfold a. rewrite pow2_Z by apply Z.log2_nonneg. rewrite <- Zle_Qle. rewrite Z.abs_eq by lia. by apply Z.log2_spec. }
  assert (Hb : (inject_Z (Zpos (Qden q)) <= Double.pow2 (b + 1))%Q).
  { unfold b. pose proof (Z.log2_nonneg (Zpos (Qden q))). rewrite pow2_Z by lia. rewrite <- Zle_Qle. 
    pose proof (Z.log2_spec (Zpos (Qden q)) eq_refl). unfold Z.succ in *. lia. }
  assert (Hqd : (inject_Z (Qnum q) == q * inject_Z (Zpos (Qden q)))%Q).
  { unfold Qeq, Qmult, inject_Z. cbn. lia. }
  apply (Qmult_lt_0_le_reg_r _ _ (Double.pow2 (b + 1)) (pow2_pos _)). rewrite <- pow2_add.
  replace (a - b - 1 + (b + 1)) with a by lia. eapply Qle_trans; [exact Ha|]. rewrite Hqd.
  apply Qmult_le_l; [done|exact Hb].
Qed.

Lemma round_half_even_near x : (inject_Z (Double.round_half_even x) <= x + (1 # 2))%Q.
Proof.
  unfold Double.round_half_even. pose proof (Qfloor_le x) as Hle. 
  destruct (Qcompare_spec (x - inject_Z (Qfloor x)) (1 # 2)) as [H|H|H].
  - destruct (Z.even _); [lra|]. rewrite inject_Z_plus. change (inject_Z 1) with 1%Q. lra.
  - lra.
  - rewrite inject_Z_plus. change (inject_Z 1) with 1%Q. lra.
Qed.

Lemma round_half_even_nonneg x : (0 <= x)%Q → 0 ≤ Double.round_half_even x.
Proof.
  intros Hx. unfold Double.round_half_even. assert (0 ≤ Qfloor x) by (rewrite <- (Qfloor_Z 0); by apply Qfloor_resp_le).
  destruct (Qcompare _ _); [destruct (Z.even _)| |]; lia.
Qed.

(** A number well below an integer rounds to one below it. *)
Lemma round_below q n :
  1 ≤ n ≤ 2 ^ 53 → (0 <= q)%Q → (q <= inject_Z n * (1 - (1 # 4294967296)))%Q →
  ∃ r, Double.round q = Fin r ∧ (0 <= r)%Q ∧ (r < inject_Z n)%Q.
Proof.
  intros Hn Hq0 Hq. unfold Double.round. destruct (Qeq_bool q 0) eqn:E0.
  { eexists. split; [reflexivity|]. split; [done|]. change 0%Q with (inject_Z 0). rewrite <- Zlt_Qlt. lia. }
  assert (Hpos : (0 < q)%Q) by (apply Qeq_bool_neq in E0; lra).
  destruct (leading_bit q Hpos) as (e & He & Hbit). set (unit := Double.pow2 (Double.last_bit q)).
  pose proof (pow2_pos (Double.last_bit q) : (0 < unit)%Q) as Hu.
  pose proof (round_half_even_near (q / unit)) as Hnear. set (m := Double.round_half_even (q / unit)) in *.
  assert (Hm0 : 0 ≤ m) by (apply round_half_even_nonneg, Qle_shift_div_l; lra).
  set (r := Qred (inject_Z m * unit)).
  assert (Er : (r == inject_Z m * unit)%Q) by apply Qred_correct.
  assert (Hr0 : (0 <= r)%Q).
  { rewrite Er. apply Qmult_le_0_compat; [|lra]. change 0%Q with (inject_Z 0). by rewrite <- Zle_Qle. }
  assert (Hr : (r <= q + unit * (1 # 2))%Q).
  { rewrite Er. apply (Qmult_le_compat_r _ _ unit) in Hnear; [|lra].
    assert ((q / unit + (1 # 2)) * unit == q + unit * (1 # 2))%Q by (field; lra). lra. }
  assert (Hn1 : (1 <= inject_Z n)%Q) by (change 1%Q with (inject_Z 1); rewrite <- Zle_Qle; lia).
  assert (Hlt : (r < inject_Z n)%Q).
  { assert (Hunit : (unit <= q * (1 # 4503599627370496) ∨ unit <= 1 # 4503599627370496)%Q).
    { unfold unit. rewrite Hbit. destruct (Z.max_spec (e - 52) (- 1074)) as [[_ ->]|[_ ->]]; [right|left].
      - change (1 # 4503599627370496) with (Double.pow2 (- 52)). by apply pow2_le.
      - unfold Z.sub. rewrite pow2_add. apply Qmult_le_compat_r; [exact He|]. by vm_compute. }
    destruct Hunit; lra. }
  assert (Efin : Qle_bool (Double.pow2 1024) (Qabs r) = false).
  { apply not_true_iff_false. rewrite Qle_bool_iff, Qabs_pos by done.
    assert (Hbig : (inject_Z n <= Double.pow2 1024)%Q); [|lra].
    rewrite pow2_Z by lia. rewrite <- Zle_Qle. transitivity (2 ^ 53); [lia|]. by apply Z.pow_le_mono_r. }
  exists r. fold r unit. fold unit. rewrite Efin. done.
Qed.

Lemma rng_below_bound n : 1 ≤ n ≤ 2 ^ 53 → always (rng_below n) (λ k, 0 ≤ k < n).
Proof.
  intros Hn. eapply always_bind; [apply rng_bits_bound|]. intros b [Hb0 Hb]. apply always_ret. cbn [Double.mul num].
  assert (Hb0' : (0 <= inject_Z b)%Q) by (change 0%Q with (inject_Z 0); rewrite <- Zle_Qle; lia).
  assert (Hb' : (inject_Z b <= 4294967295)%Q) by (change 4294967295%Q with (inject_Z 4294967295); rewrite <- Zle_Qle; lia).
  assert (Hn1 : (1 <= inject_Z n)%Q) by (change 1%Q with (inject_Z 1); rewrite <- Zle_Qle; lia).
  assert (Hd : (inject_Z b / inject_Z (2 ^ 32) == inject_Z b * (1 # 4294967296))%Q) by reflexivity.
  destruct (round_below (inject_Z b / inject_Z (2 ^ 32) * inject_Z n) n Hn) as (r & -> & Hr0 & Hr).
  - rewrite Hd. repeat apply Qmult_le_0_compat; [lra..|lra].
  - rewrite Hd, Qmult_comm. apply Qmult_le_l; lra.
  - unfold whole. cbn [fin]. split; [rewrite <- (Qfloor_Z 0); by apply Qfloor_resp_le|].
    pose proof (Qfloor_le r). rewrite Zlt_Qlt. lra.
Qed.

(** ** Plans stay in their windows *)

(** A window that a quota can be in. *)
Definition proper_window (c : TechniqueCoefficients) : Prop :=
  0 ≤ whole (tc_minQuota c) ∧ whole (tc_minQuota c) ≤ whole (tc_maxQuota c) < 2 ^ 53.

Definition within (c : TechniqueCoefficients) (z : Z) : Prop := whole (tc_minQuota c) ≤ z ≤ whole (tc_maxQuota c).

Lemma clamp_within c z : proper_window c → within c (clamp (whole (tc_minQuota c)) (whole (tc_maxQuota c)) z).
Proof. unfold within, clamp, proper_window. lia. Qed.

(** [p'] is [p] with a quota in its window for each of the techniques. *)
Definition filled (coeffs : list (string * TechniqueCoefficients)) (p p' : plan) : Prop :=
  (∀ t c, (t, c) ∈ coeffs → ∃ z, p' !! t = Some z ∧ within c z) ∧ (∀ t, t ∉ coeffs.*1 → p' !! t = p !! t).

Lemma filled_cons t c rest p p' z :
  NoDup (t :: rest.*1) → within c z → filled rest (<[t := z]> p) p' → filled ((t, c) :: rest) p p'.
Proof.
  intros [Ht _]%NoDup_cons Hz [Hin Hout]. split.
  - intros t' c' [[= -> ->]|Hc]%elem_of_cons; [|by apply Hin]. exists z. split; [|done].
    rewrite Hout by done. apply lookup_insert_eq.
  - intros t' Ht'. cbn [fmap list_fmap fst] in Ht'. apply not_elem_of_cons in Ht' as [Hne Hr].
    rewrite Hout by done. by apply lookup_insert_ne.
Qed.

Lemma filled_nil p : filled [] p p.
Proof. split; [|done]. intros t c Hc. by apply elem_of_nil in Hc. Qed.

Lemma random_plan_filled coeffs p :
  NoDup coeffs.*1 → Forall (λ e, proper_window e.2) coeffs → always (random_plan coeffs p) (filled coeffs p).
Proof.
  revert p. induction coeffs as [|[t c] rest IH]; intros p Hnd Hw; [apply always_ret, filled_nil|].
  apply Forall_cons in Hw as [Hc Hw]. cbn [snd] in Hc. pose proof Hnd as Hnd'. cbn [fmap list_fmap fst] in Hnd.
  apply NoDup_cons in Hnd as [Ht Hnd]. cbn [random_plan].
  set (span := whole (tc_maxQuota c) - whole (tc_minQuota c)).
  eapply (always_bind _ _ (λ offset, 0 ≤ offset ≤ span)).
  - unfold span, proper_window in *. destruct (Z.eqb_spec (whole (tc_maxQuota c) - whole (tc_minQuota c)) 0).
    + apply always_ret. lia.
    + intros s. destruct (rng_below_bound (whole (tc_maxQuota c) - whole (tc_minQuota c) + 1) ltac:(lia) s). lia.
  - intros offset Hoff s. eapply filled_cons; [exact Hnd'| |by apply IH]. unfold within, span in *. lia.
Qed.

Lemma cross_plans_filled doCross a b coeffs children :
  NoDup coeffs.*1 → Forall (λ e, proper_window e.2) coeffs →
  always (cross_plans doCross a b coeffs children) (λ r, filled coeffs children.1 r.1 ∧ filled coeffs children.2 r.2).
Proof.
  revert children. induction coeffs as [|[t c] rest IH]; intros children Hnd Hw; [apply always_ret; split; apply filled_nil|].
  apply Forall_cons in Hw as [Hc Hw]. cbn [snd] in Hc. pose proof Hnd as Hnd'. cbn [fmap list_fmap fst] in Hnd.
  apply NoDup_cons in Hnd as [Ht Hnd]. cbn [cross_plans].
  eapply (always_bind _ _ (λ _, True)); [apply always_any|]. intros swap _ s.
  assert (Hx : ∀ z, within c (clampGene c z)) by (intros; by apply clamp_within).
  destruct swap.
  all: match goal with |- context [cross_plans _ _ _ _ ?ch] => destruct (IH ch Hnd Hw s) as [H1 H2] end.
  all: split; eapply filled_cons; [exact Hnd'|apply Hx|exact H1|exact Hnd'|apply Hx|exact H2].
Qed.

(** A plan has a quota in its window for each technique, and nothing else. *)
Definition in_window (coeffs : list (string * TechniqueCoefficients)) (p : plan) : Prop :=
  (∀ t c, (t, c) ∈ coeffs → ∃ z, p !! t = Some z ∧ within c z) ∧ (∀ t, is_Some (p !! t) → t ∈ coeffs.*1).

Lemma filled_in_window coeffs p : filled coeffs ∅ p → in_window coeffs p.
Proof.
  intros [Hin Hout]. split; [exact Hin|]. intros t Hs. destruct (decide (t ∈ coeffs.*1)) as [|Hn]; [done|].
  rewrite Hout in Hs by done. by destruct Hs.
Qed.

Lemma insert_in_window coeffs p t c z :
  NoDup coeffs.*1 → in_window coeffs p → (t, c) ∈ coeffs → within c z → in_window coeffs (<[t := z]> p).
Proof.
  intros Hnd [Hin Hdom] Htc Hz. assert (Ht : t ∈ coeffs.*1) by (apply list_elem_of_fmap; by exists (t, c)). split.
  - intros t' c' Hc'. destruct (decide (t = t')) as [<-|Hne].
    + exists z. rewrite lookup_insert_eq. split; [done|]. pose proof (map_get_unique t c coeffs Hnd Htc) as E1.
      pose proof (map_get_unique t c' coeffs Hnd Hc') as E2. congruence.
    + rewrite lookup_insert_ne by done. by apply Hin.
  - intros t' Hs. destruct (decide (t = t')) as [<-|Hne]; [done|]. rewrite lookup_insert_ne in Hs by done. by apply Hdom.
Qed.

Lemma mutate_plan_in_window config all coeffs st :
  NoDup all.*1 → Forall (λ e, proper_window e.2) all → coeffs ⊆ all → in_window all st.1 →
  always (mutate_plan config coeffs st) (λ r, in_window all r.1).
Proof.
  intros Hnd Hw. revert st. induction coeffs as [|[t c] rest IH]; intros st Hsub Hst; [by apply always_ret|].
  assert (Htc : (t, c) ∈ all) by (apply Hsub; by left). assert (Hsub' : rest ⊆ all) by (intros e He; apply Hsub; by right).
  cbn [mutate_plan]. eapply (always_bind _ _ (λ _, True)); [apply always_any|]. intros drawn _.
  case_match; [by apply IH|].
  eapply (always_bind _ _ (λ _, True)); [apply always_any|]. intros offset _.
  eapply (always_bind _ _ (λ _, True)); [apply always_any|]. intros down _.
  apply IH; [done|]. apply (insert_in_window all _ t c); [done|done|done|]. apply clamp_within.
  rewrite Forall_forall in Hw. apply (Hw (t, c) Htc).
Qed.

(** ** Populations *)

Section evolution.
Context `{Exponential} (fixture : FixtureBenchmark) (config : NsgaIIConfig).

#[local] Definition coeffs : list (string * TechniqueCoefficients) := coefficients fixture.
Context (Hkeys : NoDup coeffs.*1) (Hwindows : Forall (λ e, proper_window e.2) coeffs).

(** The plan is in its windows, and the objectives are those of the plan. *)
Definition sound_core (x : plan * ObjectiveVector) : Prop := in_window coeffs x.1 ∧ x.2 = evaluatePlan x.1 fixture.
Definition sound (ind : Individual) : Prop := sound_core (core ind).

Lemma individual_sound p : in_window coeffs p → sound (individual fixture p).
Proof. by split. Qed.

Lemma random_sound : always (buildRandomIndividual fixture) sound.
Proof.
  eapply always_bind; [by apply random_plan_filled|]. intros p Hp. by apply always_ret, individual_sound, filled_in_window.
Qed.

Lemma crossover_sound a b : always (crossover fixture config a b) (λ r, sound r.1 ∧ sound r.2).
Proof.
  eapply (always_bind _ _ (λ _, True)); [apply always_any|]. intros doCross _.
  eapply always_bind; [by apply (cross_plans_filled doCross _ _ coeffs (∅, ∅))|].
  intros r [H1 H2]. apply always_ret. split; by apply individual_sound, filled_in_window.
Qed.

Lemma mutate_sound ind : sound ind → always (mutate fixture config ind) sound.
Proof.
  intros Hs. eapply always_bind; [apply (mutate_plan_in_window config coeffs coeffs (in_plan ind, false)); [done|done|done|apply Hs]|].
  intros r Hr. apply always_ret. destruct r.2; [by apply individual_sound|done].
Qed.

Lemma tournament_member population :
  population ≠ [] → Z.of_nat (length population) ≤ 2 ^ 53 → always (binaryTournament population) (λ o, ∃ a, o = Some a ∧ a ∈ population).
Proof.
  intros Hne Hmax. assert (Hlen : 0 < Z.of_nat (length population)) by (destruct population; [done|cbn; lia]).
  eapply always_bind; [apply rng_below_bound; lia|]. intros i [Hi0 Hi].
  eapply always_bind; [apply rng_below_bound; lia|]. intros j [Hj0 Hj]. apply always_ret.
  assert (Hat : ∀ k, 0 ≤ k < Z.of_nat (length population) → ∃ x, population !! Z.to_nat k = Some x ∧ x ∈ population).
  { intros k Hk. destruct (lookup_lt_is_Some_2 population (Z.to_nat k)) as [x Hx]; [lia|].
    exists x. split; [done|]. by eapply list_elem_of_lookup_2. }
  destruct (Hat i) as (a & -> & Ha); [done|]. destruct (Hat j) as (b & -> & Hb); [done|].
  eexists. split; [reflexivity|]. by case_match.
Qed.

Lemma breed_full fuel size population offspring :
  population ≠ [] → Z.of_nat (length population) ≤ 2 ^ 53 → Forall sound population → Forall sound offspring →
  (length offspring ≤ size)%nat → (size ≤ length offspring + fuel)%nat →
  always (breed fuel fixture config size population offspring) (λ o, ∃ l, o = Some l ∧ Forall sound l ∧ length l = size).
Proof.
  intros Hne Hmax Hpop. revert offspring. induction fuel as [|fuel IH]; intros offspring Hoff Hle Hfuel.
  { cbn [breed]. rewrite (proj2 (Nat.leb_le _ _)) by lia. apply always_ret. exists offspring. split; [done|]. split; [done|lia]. }
  cbn [breed]. destruct (Nat.leb_spec size (length offspring)) as [Hge|Hlt].
  { apply always_ret. exists offspring. split; [done|]. split; [done|lia]. }
  eapply always_bind; [by apply tournament_member|]. intros _ (a & -> & _).
  eapply always_bind; [by apply tournament_member|]. intros _ (b & -> & _).
  eapply always_bind; [apply crossover_sound|]. intros children [Ha Hb].
  eapply always_bind; [by apply mutate_sound|]. intros childA HA.
  assert (Hoff' : Forall sound (offspring ++ [childA])) by (apply Forall_app; split; [done|by constructor]).
  destruct (Nat.ltb_spec (length (offspring ++ [childA])) size) as [Hlt'|Hge']; rewrite length_app in *; cbn [length] in *.
  - eapply always_bind; [by apply mutate_sound|]. intros childB HB. apply IH.
    + apply Forall_app. split; [done|by constructor].
    + rewrite !length_app. cbn. lia.
    + rewrite !length_app. cbn. lia.
  - apply IH; [done| |]; rewrite length_app; cbn; lia.
Qed.

(** ** Survival *)

Lemma dedupe_spec population :
  let out := dedupePopulation population in
  NoDup (in_plan <$> out) ∧ (∀ ind, ind ∈ out → ind ∈ population) ∧
  (∀ ind, ind ∈ population → ∃ ind', ind' ∈ out ∧ in_plan ind' = in_plan ind).
Proof.
  unfold dedupePopulation.
  assert (Hinv : ∀ l st, st.1 = in_plan <$> st.2 → NoDup (in_plan <$> st.2) →
    let st' := foldl dedupe_step st l in
    NoDup (in_plan <$> st'.2) ∧ (∀ ind, ind ∈ st'.2 → ind ∈ st.2 ∨ ind ∈ l) ∧
    (∀ ind, ind ∈ st.2 ∨ ind ∈ l → ∃ ind', ind' ∈ st'.2 ∧ in_plan ind' = in_plan ind)).
  { induction l as [|x l IH]; intros [seen out] Hseen Hnd; cbn [foldl fst snd] in *.
    - split; [done|]. split; [by left|]. intros ind [?|?%elem_of_nil]; [eauto|done].
    - unfold dedupe_step at 2 4 6. case_bool_decide as Hx.
      + destruct (IH (seen, out) Hseen Hnd) as (H1 & H2 & H3). cbn [fst snd] in *. split; [done|]. split.
        * intros ind Hind. destruct (H2 ind Hind); [by left|right; by right].
        * intros ind [Hind|[->|Hind]%elem_of_cons]; [apply H3; by left| |apply H3; by right].
          rewrite Hseen in Hx. apply list_elem_of_fmap in Hx as (y & Hy & Hyo). destruct (H3 y (or_introl Hyo)) as (z & Hz & Hzy).
          exists z. split; [done|congruence].
      + destruct (IH (set_add seen (in_plan x), out ++ [x])) as (H1 & H2 & H3); cbn [fst snd].
        * rewrite fmap_app. unfold set_add. rewrite bool_decide_false by done. by rewrite Hseen.
        * rewrite fmap_app, <- Hseen. apply NoDup_app. split; [by rewrite Hseen|]. split; [|apply NoDup_singleton].
          intros y Hy Hy'. apply list_elem_of_singleton in Hy' as ->. done.
        * cbn [fst snd] in *. split; [done|]. split.
          -- intros ind Hind. destruct (H2 ind Hind) as [Ho|]; [|right; by right].
             apply elem_of_app in Ho as [|Ho]; [by left|]. apply list_elem_of_singleton in Ho as ->. right. by left.
          -- intros ind Hind. apply H3. rewrite elem_of_app. set_solver. }
  destruct (Hinv population ([], []) eq_refl (NoDup_nil_2 (A:=plan))) as (H1 & H2 & H3). split; [done|]. split.
  - intros ind Hind. by destruct (H2 ind Hind) as [?%elem_of_nil|].
  - intros ind Hind. apply H3. by right.
Qed.

Lemma core_members population population' front :
  core <$> population = core <$> population' → core <$> members population front = core <$> members population' front.
Proof.
  intros E. unfold members. induction front as [|i front IH]; [done|]. cbn.
  assert (Hi : core <$> population !! i = core <$> population' !! i) by (rewrite <- !list_lookup_fmap; by rewrite E).
  destruct (population !! i), (population' !! i); cbn in Hi |- *; try done. injection Hi as Hi1 Hi2.
  rewrite IH. unfold core. by rewrite Hi1, Hi2.
Qed.

Lemma length_members population front :
  Forall (λ i, (i < length population)%nat) front → length (members population front) = length front.
Proof.
  induction 1 as [|i front Hi _ IH]; [done|]. unfold members in *. cbn.
  apply lookup_lt_is_Some in Hi as [x ->]. cbn. by rewrite IH.
Qed.

Lemma elem_of_members population front ind : ind ∈ members population front ↔ ∃ i, i ∈ front ∧ population !! i = Some ind.
Proof. unfold members. by rewrite list_elem_of_omap. Qed.

Lemma length_crowd population front : length (assignCrowdingDistance population front) = length population.
Proof. pose proof (core_crowd front population) as E. apply (f_equal length) in E. by rewrite !length_fmap in E. Qed.

Lemma members_app population l l' : members population (l ++ l') = members population l ++ members population l'.
Proof.
  unfold members. induction l as [|i l IH]; [done|]. cbn. rewrite IH. by destruct (population !! i).
Qed.

Lemma members_all population l : l ≡ₚ seq 0 (length population) → members population l ≡ₚ population.
Proof.
  intros Hp. unfold members. rewrite Hp. clear Hp.
  assert (Hs : ∀ pre pop, omap (λ i, (pre ++ pop) !! i) (seq (length pre) (length pop)) = (pop : list Individual)).
  { intros pre pop. revert pre. induction pop as [|x pop IH]; intros pre; [done|]. cbn [length seq omap list_omap].
    rewrite list_lookup_middle by done. f_equal. specialize (IH (pre ++ [x])). rewrite <- app_assoc, length_app in IH.
    cbn [length app] in IH. by rewrite Nat.add_1_r in IH. }
  by rewrite <- (Hs [] population) at 2.
Qed.

Lemma nonDominatedSort_is_peeling_fields population :
  concat (nonDominatedSort population).2 ≡ₚ seq 0 (length population) ∧ sort_fronts (in_objectives <$> population) ≠ None.
Proof.
  destruct (sort_fronts_peel (in_objectives <$> population)) as (fronts & Hs & Hf).
  unfold nonDominatedSort. rewrite Hs. cbn [default snd]. rewrite length_fmap in Hf. split; [|done].
  rewrite (concat_perm _ _ Hf). apply concat_peel; [apply D_irrefl|apply D_trans|by rewrite length_seq].
Qed.

(** What the loop over the fronts keeps: everything of the first front when it fits, else
    as many of it as fit. *)
Lemma take_fronts_spec size population fronts next :
  (length next ≤ size)%nat → Forall (Forall (λ i, (i < length population)%nat)) fronts →
  ∃ kept, take_fronts size population fronts next = next ++ kept ∧
    length (next ++ kept) = Nat.min size (length next + length (concat fronts)) ∧
    core <$> kept ⊆+ core <$> members population (concat fronts) ∧
    match fronts with
    | [] => True
    | first :: _ =>
        ((length next + length first ≤ size)%nat → ∀ x, x ∈ core <$> members population first → x ∈ core <$> kept) ∧
        ((size < length next + length first)%nat → ∀ x, x ∈ core <$> kept → x ∈ core <$> members population first)
    end.
Proof.
  revert population next. induction fronts as [|front rest IH]; intros population next Hle Hall.
  { exists []. cbn [take_fronts concat]. rewrite app_nil_r, Nat.add_0_r. split_and!; [done|lia|constructor|done]. }
  apply Forall_cons in Hall as [Hf Hall]. cbn [take_fronts concat]. rewrite length_app.
  set (crowded := assignCrowdingDistance population front).
  assert (Hcore : core <$> crowded = core <$> population) by apply core_crowd.
  assert (Hlen : length crowded = length population) by apply length_crowd.
  assert (Hfl : length (members crowded front) = length front) by (apply length_members; by rewrite Hlen).
  assert (Hm : ∀ f, core <$> members crowded f = core <$> members population f) by (intros; by apply core_members).
  destruct (Nat.leb_spec (length next + length front) size) as [Hfit|Hover].
  - destruct (IH crowded (next ++ members crowded front)) as (kept & -> & Hl & Hk & _); [rewrite length_app; lia|by rewrite Hlen|].
    exists (members crowded front ++ kept). split; [by rewrite <- app_assoc|]. split; [|split].
    + rewrite app_assoc, Hl, length_app. lia.
    + rewrite members_app, !fmap_app, Hm. apply submseteq_app; [done|]. by rewrite <- (Hm (concat rest)).
    + split; [|lia]. intros _ x Hx. rewrite fmap_app, elem_of_app, Hm. by left.
  - set (sorted := js_sort _ (members crowded front)). eexists. split; [reflexivity|].
    assert (Hsub : ∀ x, x ∈ core <$> take (size - length next) sorted → x ∈ core <$> members population front).
    { intros x (ind & -> & Hind)%list_elem_of_fmap. apply elem_of_take in Hind as (j & Hj & _).
      apply list_elem_of_lookup_2 in Hj. unfold sorted in Hj. rewrite elem_of_js_sort in Hj.
      rewrite <- Hm. apply list_elem_of_fmap. by exists ind. }
    split_and!.
    + rewrite length_app, length_take. unfold sorted. rewrite length_js_sort. lia.
    + rewrite members_app, fmap_app, <- Hm. apply submseteq_inserts_r, fmap_submseteq.
      assert (Hperm : sorted ≡ₚ members crowded front) by apply js_sort_Permutation.
      rewrite <- Hperm. apply submseteq_take.
    + lia.
    + intros _. apply Hsub.
Qed.

Lemma fronts_in_range population front :
  front ∈ (nonDominatedSort population).2 → Forall (λ i, (i < length population)%nat) front.
Proof.
  pose proof (sort_fronts_peel (in_objectives <$> population)) as (fronts & Hs & Hf).
  unfold nonDominatedSort. rewrite Hs. cbn [default snd]. rewrite length_fmap in Hf. intros Hin.
  apply Forall_forall. intros i Hi. assert (Hc : i ∈ concat fronts) by (apply list_elem_of_In, in_concat; exists front; by rewrite <- !list_elem_of_In).
  rewrite (concat_perm _ _ Hf), concat_peel in Hc; [|apply D_irrefl|apply D_trans|by rewrite length_seq].
  apply list_elem_of_In, in_seq in Hc. lia.
Qed.

(** The first front of the sort: the members nothing dominates. *)
Definition nothing_dominates (population : list Individual) (ind : Individual) : Prop :=
  ∀ ind', ind' ∈ population → dominates (in_objectives ind') (in_objectives ind) = false.

Lemma first_front population :
  population ≠ [] →
  ∃ first rest, (nonDominatedSort population).2 = first :: rest ∧ NoDup first ∧
    (∀ i, i ∈ first ↔ ∃ ind, population !! i = Some ind ∧ nothing_dominates population ind) ∧
    length (concat (first :: rest)) = length population ∧ first ≠ [].
Proof.
  intros Hne. pose proof (sort_fronts_peel (in_objectives <$> population)) as (fronts & Hs & Hf).
  unfold nonDominatedSort. rewrite Hs. cbn [default snd]. rewrite length_fmap in Hf.
  set (d := dominates_at (in_objectives <$> population)) in *.
  assert (Hc : concat fronts ≡ₚ seq 0 (length population)).
  { rewrite (concat_perm _ _ Hf). apply concat_peel; [apply D_irrefl|apply D_trans|by rewrite length_seq]. }
  destruct (length population) as [|m] eqn:Hlen; [by destruct population|].
  cbn [peel seq] in Hf. change (0%nat :: seq 1 m) with (seq 0 (S m)) in Hf.
  inversion Hf as [|first peeled rest peeled' Hfirst _ E1 E2]; subst fronts. exists first, rest.
  change (0%nat :: seq 1 m) with (seq 0 (S m)) in Hfirst. split; [done|]. split; [|split; [|split]].
  - rewrite Hfirst. apply NoDup_filter, NoDup_seq.
  - intros i. rewrite Hfirst, list_elem_of_filter. unfold undominated. rewrite Forall_forall.
    assert (Hd : ∀ i j a b, population !! i = Some a → population !! j = Some b → d i j = dominates (in_objectives a) (in_objectives b)).
    { intros i' j' a b Ha Hb. unfold d, dominates_at. rewrite !list_lookup_fmap, Ha, Hb. done. }
    split.
    + intros [Hu Hi]. apply list_elem_of_In, in_seq in Hi. destruct (lookup_lt_is_Some_2 population i) as [ind Hind]; [lia|].
      exists ind. split; [done|]. intros ind' (j & Hj)%list_elem_of_lookup. rewrite <- (Hd j i ind' ind Hj Hind). apply Hu.
      apply list_elem_of_In, in_seq. apply lookup_lt_Some in Hj. lia.
    + intros (ind & Hind & Hu). pose proof (lookup_lt_Some _ _ _ Hind) as Hlt. split; [|apply list_elem_of_In, in_seq; lia].
      intros j Hj. apply list_elem_of_In, in_seq in Hj. destruct (lookup_lt_is_Some_2 population j) as [ind' Hind']; [lia|].
      rewrite (Hd j i ind' ind Hind' Hind). apply Hu. by eapply list_elem_of_lookup_2.
  - rewrite Hc. apply length_seq.
  - intros ->. destruct (undominated_exists d (D_irrefl _) (D_trans _) (seq 0 (S m))) as (q & Hq & Hu); [done|].
    assert (Hin : q ∈ filter (undominated d (seq 0 (S m))) (seq 0 (S m))) by by apply list_elem_of_filter.
    rewrite <- Hfirst in Hin. by apply elem_of_nil in Hin.
Qed.

(** As good on every objective. *)
Definition weakly_dominates (a b : Individual) : Prop := ∀ o, no_worse (in_objectives a) (in_objectives b) o.

(** Every member of a population is matched by one nothing dominates. *)
Lemma matched_by_best population ind :
  ind ∈ population → ∃ best, best ∈ population ∧ nothing_dominates population best ∧ weakly_dominates best ind.
Proof.
  intros Hind. set (objectives := in_objectives <$> population).
  pose proof (list_elem_of_lookup_1 _ _ Hind) as [i Hi].
  assert (Hat : ∀ j, j ∈ seq 0 (length population) → ∃ x, population !! j = Some x).
  { intros j Hj. apply list_elem_of_In, in_seq in Hj. apply lookup_lt_is_Some. lia. }
  assert (Hd : ∀ j k a b, population !! j = Some a → population !! k = Some b →
      dominates_at objectives j k = dominates (in_objectives a) (in_objectives b)).
  { intros j k a b Ha Hb. unfold dominates_at, objectives. rewrite !list_lookup_fmap, Ha, Hb. done. }
  assert (Hu : ∀ j x, population !! j = Some x → undominated (dominates_at objectives) (seq 0 (length population)) j → nothing_dominates population x).
  { intros j x Hx Hu y (k & Hk)%list_elem_of_lookup_1. unfold undominated in Hu. rewrite Forall_forall in Hu.
    rewrite <- (Hd k j y x Hk Hx). apply Hu, list_elem_of_In, in_seq. apply lookup_lt_Some in Hk. lia. }
  assert (Hin : i ∈ seq 0 (length population)) by (apply list_elem_of_In, in_seq; apply lookup_lt_Some in Hi; lia).
  destruct (decide (undominated (dominates_at objectives) (seq 0 (length population)) i)) as [Hui|Hni].
  - exists ind. split; [done|]. split; [by eapply Hu|]. intros o. apply no_worse_refl.
  - destruct (dominated_by_front (dominates_at objectives) (D_irrefl _) (D_trans _) _ i Hin Hni) as (j & Hj & Huj & Hji).
    destruct (Hat j Hj) as [x Hx]. exists x. split; [by eapply list_elem_of_lookup_2|]. split; [by eapply Hu|].
    rewrite (Hd j i x ind Hx Hi) in Hji. by apply dominates_iff in Hji as [? _].
Qed.

Lemma nothing_dominates_core population population' ind ind' :
  core <$> population = core <$> population' → core ind = core ind' → nothing_dominates population ind → nothing_dominates population' ind'.
Proof.
  intros E Ei Hn x Hx. assert (Hc : core x ∈ core <$> population) by (rewrite E; apply list_elem_of_fmap; by exists x).
  apply list_elem_of_fmap in Hc as (y & Ey & Hy). specialize (Hn y Hy). unfold core in Ei, Ey. injection Ei as Ei1 Ei2.
  injection Ey as Ey1 Ey2. by rewrite Ey2, <- Ei2.
Qed.

Lemma survivors_spec size population offspring :
  population ≠ [] → (0 < size)%nat →
  let merged := dedupePopulation (population ++ offspring) in
  let next := survivors size population offspring in
  next ≠ [] ∧ (length next ≤ size)%nat ∧ core <$> next ⊆+ core <$> merged ∧
  ((∀ ind, ind ∈ merged → nothing_dominates merged ind → core ind ∈ core <$> next) ∨
   (length next = size ∧ ∀ ind, ind ∈ next → ∃ ind', ind' ∈ merged ∧ core ind' = core ind ∧ nothing_dominates merged ind')).
Proof.
  intros Hne Hsize merged next. assert (Hm : merged ≠ []).
  { destruct (dedupe_spec (population ++ offspring)) as (_ & _ & H3). destruct population as [|x l]; [done|].
    destruct (H3 x ltac:(by left)) as (y & Hy & _). intros E. unfold merged in E. rewrite E in Hy. by apply elem_of_nil in Hy. }
  destruct (first_front merged Hm) as (first & rest & Hfronts & _ & Hfirst & Hlen & Hfne).
  pose proof (core_sort merged) as Hcore. pose proof (fronts_in_range merged) as Hrange.
  destruct (nonDominatedSort_is_peeling_fields merged) as (Hperm & _).
  unfold next, survivors. fold merged.
  destruct (nonDominatedSort merged) as [ranked fronts] eqn:Es. cbn [fst snd] in *. subst fronts.
  assert (Hlr : length ranked = length merged) by (apply (f_equal length) in Hcore; by rewrite !length_fmap in Hcore).
  destruct (take_fronts_spec size ranked (first :: rest) []) as (kept & -> & Hl & Hsub & Hfit & Hover).
  { cbn. lia. }
  { apply Forall_forall. intros f Hf. rewrite Hlr. by apply Hrange. }
  cbn [app length] in *. rewrite Hlen in Hl. rewrite Nat.add_0_l in *.
  assert (Hml : (0 < length merged)%nat) by (destruct merged; [done|cbn; lia]).
  split; [intros ->; cbn in Hl; lia|]. split; [lia|]. split.
  { etrans; [exact Hsub|]. rewrite <- Hcore. apply fmap_submseteq. by rewrite members_all by (by rewrite Hlr). }
  assert (Hmem : ∀ x, x ∈ core <$> members ranked first ↔ ∃ ind, ind ∈ merged ∧ core ind = x ∧ nothing_dominates merged ind).
  { intros x. rewrite (core_members ranked merged first Hcore), list_elem_of_fmap. setoid_rewrite elem_of_members. split.
    - intros (ind & -> & i & Hi & Hind). apply Hfirst in Hi as (ind' & Hind' & Hn). assert (ind' = ind) as -> by congruence.
      exists ind. split; [by eapply list_elem_of_lookup_2|done].
    - intros (ind & Hind & <- & Hn). apply list_elem_of_lookup_1 in Hind as [i Hi]. exists ind. split; [done|].
      exists i. split; [|done]. apply Hfirst. by exists ind. }
  destruct (decide (length first ≤ size)%nat) as [Hle|Hgt].
  - left. intros ind Hind Hn. apply Hfit; [done|]. apply Hmem. by exists ind.
  - right. split.
    + rewrite Hl. assert (length first ≤ length (concat (first :: rest)))%nat by (cbn; rewrite length_app; lia). lia.
    + intros ind Hind. assert (Hc : core ind ∈ core <$> members ranked first) by (apply Hover; [lia|apply list_elem_of_fmap; by exists ind]).
      apply Hmem in Hc as (ind' & ? & ? & ?). by exists ind'.
Qed.

(** Elitism: after a generation every plan of the old population and of the offspring
    is matched, on all objectives, by a plan that was kept; or the next population is full
    and consists of plans nothing dominates. *)
Theorem generation_keeps_the_best size population offspring :
  population ≠ [] → (0 < size)%nat →
  (∀ a b, a ∈ population ++ offspring → b ∈ population ++ offspring → in_plan a = in_plan b → in_objectives a = in_objectives b) →
  let next := survivors size population offspring in
  (∀ ind, ind ∈ population ++ offspring → ∃ best, best ∈ next ∧ weakly_dominates best ind) ∨
  (length next = size ∧ ∀ ind, ind ∈ next → nothing_dominates (population ++ offspring) ind).
Proof.
  intros Hne Hsize Hplan next. destruct (survivors_spec size population offspring Hne Hsize) as (_ & _ & _ & Hkeep).
  destruct (dedupe_spec (population ++ offspring)) as (_ & Hin & Hall). fold next in Hkeep.
  assert (Hsame : ∀ ind, ind ∈ population ++ offspring →
    ∃ ind', ind' ∈ dedupePopulation (population ++ offspring) ∧ in_objectives ind' = in_objectives ind).
  { intros ind Hind. destruct (Hall ind Hind) as (ind' & Hind' & Hp). exists ind'. split; [done|]. apply Hplan; auto. }
  destruct Hkeep as [Hbest|[Hfull Hbest]]; [left|right].
  - intros ind Hind. destruct (Hsame ind Hind) as (ind' & Hind' & Ho). destruct (matched_by_best _ _ Hind') as (best & Hb & Hn & Hw).
    pose proof (Hbest best Hb Hn) as Hc. apply list_elem_of_fmap in Hc as (kept & Ek & Hk). exists kept. split; [done|].
    intros o. rewrite <- Ho. unfold core in Ek. injection Ek as _ Ek. rewrite <- Ek. apply Hw.
  - split; [done|]. intros ind Hind x Hx. destruct (Hbest ind Hind) as (ind' & _ & Ec & Hn).
    destruct (Hsame x Hx) as (x' & Hx' & Ho). rewrite <- Ho. unfold core in Ec. injection Ec as _ Ec. rewrite <- Ec. by apply Hn.
Qed.

Lemma sound_fmap population population' : core <$> population = core <$> population' → Forall sound population → Forall sound population'.
Proof. unfold sound. intros E Hs. apply (Forall_fmap core sound_core). rewrite <- E. by apply Forall_fmap. Qed.

Lemma core_sort_and_crowd population : core <$> (sort_and_crowd population).1 = core <$> population.
Proof.
  unfold sort_and_crowd. pose proof (core_sort population) as Hs. destruct (nonDominatedSort population) as [ranked fronts].
  cbn [fst] in *. rewrite <- Hs. clear Hs. generalize ranked. induction fronts as [|f fronts IH]; intros r; [done|]. cbn [foldl].
  by rewrite IH, core_crowd.
Qed.

Lemma sound_same_plan l : Forall sound l → ∀ a b, a ∈ l → b ∈ l → in_plan a = in_plan b → in_objectives a = in_objectives b.
Proof. rewrite Forall_forall. intros Hs a b [_ Ha]%Hs [_ Hb]%Hs E. cbn in Ha, Hb. by rewrite Ha, Hb, E. Qed.

#[local] Definition size : nat := Z.to_nat (whole (nc_populationSize config)).
Context (Hsize : (0 < size)%nat) (Hsafe : Z.of_nat size ≤ 2 ^ 53).

Lemma generation_ok population :
  population ≠ [] → (length population ≤ size)%nat → Forall sound population →
  always (generation fixture config population) (λ o, ∃ next, o = Some next ∧ next ≠ [] ∧ Forall sound next ∧
    (length next ≤ size)%nat ∧ NoDup (in_plan <$> next)).
Proof.
  intros Hne Hfit Hs. unfold generation. fold size. set (ranked := (sort_and_crowd population).1).
  assert (Hr : Forall sound ranked) by (eapply sound_fmap; [symmetry; apply core_sort_and_crowd|done]).
  assert (Hrne : ranked ≠ []).
  { intros E. pose proof (core_sort_and_crowd population) as Ec. fold ranked in Ec. rewrite E in Ec. by destruct population. }
  assert (Hlr : length ranked = length population).
  { pose proof (core_sort_and_crowd population) as Ec. apply (f_equal length) in Ec. by rewrite !length_fmap in Ec. }
  eapply always_bind; [apply (breed_full size size ranked []); [done|lia|done|constructor|cbn; lia|cbn; lia]|].
  intros _ (offspring & -> & Ho & _). apply always_ret. eexists. split; [reflexivity|].
  destruct (survivors_spec size ranked offspring Hrne Hsize) as (H1 & H2 & H3 & _).
  destruct (dedupe_spec (ranked ++ offspring)) as (Hnd & Hin & _). split; [done|]. split; [|split; [done|]].
  - unfold sound. apply (Forall_fmap core sound_core). apply Forall_forall. intros x Hx. eapply elem_of_submseteq in Hx; [|exact H3].
    apply list_elem_of_fmap in Hx as (ind & -> & Hind). apply Hin in Hind.
    assert (Hall : Forall sound (ranked ++ offspring)) by by apply Forall_app. rewrite Forall_forall in Hall. by apply Hall.
  - pose proof (fmap_submseteq fst _ _ H3) as Hsub. rewrite <- !list_fmap_compose in Hsub.
    apply submseteq_Permutation in Hsub as (k & Hk). change (fst ∘ core) with in_plan in Hk. rewrite Hk in Hnd.
    by apply NoDup_app in Hnd as (? & _).
Qed.

Lemma evolve_ok generations population :
  population ≠ [] → (length population ≤ size)%nat → Forall sound population →
  always (evolve generations fixture config population) (λ o, ∃ next, o = Some next ∧ next ≠ [] ∧ Forall sound next ∧
    ((0 < generations)%nat → (length next ≤ size)%nat ∧ NoDup (in_plan <$> next))).
Proof.
  revert population. induction generations as [|g IH]; intros population Hne Hfit Hs; cbn [evolve].
  { apply always_ret. exists population. split_and!; [done|done|done|lia]. }
  eapply always_bind; [by apply generation_ok|]. intros _ (next & -> & Hn & Hsn & Hl & Hd).
  intros st. destruct (IH next Hn Hl Hsn st) as (out & E & H1 & H2 & H3). exists out. split_and!; [done|done|done|].
  intros _. destruct g as [|g]; [|apply H3; lia]. cbn in E. injection E as <-. by split.
Qed.

Lemma repeat_sound k : always (repeat_rand k (buildRandomIndividual fixture)) (λ l, Forall sound l ∧ length l = k).
Proof.
  induction k as [|k IH]; [by apply always_ret|]. cbn [repeat_rand]. eapply always_bind; [apply random_sound|]. intros a Ha.
  eapply always_bind; [exact IH|]. intros l [Hl <-]. apply always_ret. split; [by constructor|done].
Qed.
End evolution.

(** ** What validation establishes *)

#[local] Instance rounded_compare_ok : CmpOk rounded_compare.
Proof.
  split.
  - intros [p|]; [apply (cmp_refl (cmp:=Qcompare))|done].
  - intros [p|] [q|]; [apply (cmp_antisym (cmp:=Qcompare))|done..].
  - intros [p|] [q|] [r|]; cbn; try done. apply (cmp_trans (cmp:=Qcompare)).
Qed.

#[local] Instance rounded_reversed : CmpOk (λ a b, rounded_compare b a).
Proof.
  split.
  - intros x. apply (cmp_refl (cmp:=rounded_compare)).
  - intros x y. apply (cmp_antisym (cmp:=rounded_compare)).
  - intros x y z Hxy Hyz. by apply (cmp_trans (cmp:=rounded_compare) z y x).
Qed.

#[export] Instance by_cost_ok `{LocaleCompare} json_text : CmpOk (by_cost json_text).
Proof.
  unfold by_cost. apply cmp_then_ok; [apply cmp_on_ok, _|]. apply cmp_then_ok; [|apply cmp_on_ok, _].
  apply (cmp_on_ok (λ ind, ov_mutationKillRate (in_objectives ind)) (λ a b, rounded_compare b a)), _.
Qed.

Lemma safe_integer n : isNonNegativeSafeInteger n = true → ∃ q, n = Fin q ∧ 0 ≤ Qfloor q < 2 ^ 53.
Proof.
  unfold isNonNegativeSafeInteger. intros [Hi Hl]%andb_true_iff. destruct n as [| | |q]; try done. exists q. split; [done|].
  cbn in Hl. apply Qle_bool_iff, Qfloor_resp_le in Hl. change (Qfloor (inject_Z 0)) with 0 in Hl.
  unfold Number.isSafeInteger, Number.MAX_SAFE_INTEGER in Hi. apply andb_true_iff in Hi as [_ Hi%Z.leb_le].
  assert (0 ≤ Qfloor q) by (rewrite <- (Qfloor_Z 0); done). lia.
Qed.

Lemma technique_window fixtureId technique c u :
  assertTechniqueCoefficients fixtureId technique c = Ok u → proper_window c.
Proof.
  unfold assertTechniqueCoefficients. rewrite !outcome_then_Ok, !guard_throw_Ok, !negb_false_iff.
  intros (_ & _ & Hmin & Hmax & Hle). apply safe_integer in Hmin as (p & Hp & Hp0), Hmax as (q & Hq & Hq0).
  unfold proper_window, whole. rewrite Hp, Hq in *. cbn [fin]. split; [lia|].
  apply Number.ltb_Fin_false, Qfloor_resp_le in Hle. lia.
Qed.

Lemma checked_techniques fixture seen l seen' :
  NoDup seen → outcome_foldl (check_technique fixture) seen l = Ok seen' →
  NoDup (seen ++ l) ∧ ∀ t, t ∈ l → ∃ c q, fb_perTechnique fixture !! t = Some c ∧ proper_window c ∧ fb_currentQuota fixture !! t = Some q.
Proof.
  revert seen. induction l as [|t l IH]; intros seen Hnd; cbn [outcome_foldl].
  { intros _. rewrite app_nil_r. split; [done|]. intros t Ht. by apply elem_of_nil in Ht. }
  intros (seen1 & Hc & Hrest)%outcome_bind_Ok. unfold check_technique in Hc. rewrite !outcome_then_Ok, !guard_throw_Ok in Hc.
  destruct Hc as (_ & Hdup & Hc). apply bool_decide_eq_false_1 in Hdup.
  destruct (fb_perTechnique fixture !! t) as [c|] eqn:Ec; [|done]. rewrite !outcome_then_Ok, guard_throw_Ok, negb_false_iff in Hc.
  destruct Hc as (Hw & Hq & [= <-]). apply technique_window in Hw.
  destruct (IH (set_add seen t)) as [Hnd' Hall]; [by apply NoDup_set_add|done|].
  assert (Es : set_add seen t = seen ++ [t]) by (unfold set_add; by rewrite bool_decide_false).
  rewrite Es, <- app_assoc in Hnd'. split; [done|]. intros t' [->|Ht']%elem_of_cons; [|by apply Hall].
  destruct (fb_currentQuota fixture !! t) as [q|]; [|done]. by exists c, q.
Qed.

Lemma checked_fixture fixture u :
  assertFixtureBenchmark fixture = Ok u →
  NoDup (coefficients fixture).*1 ∧ Forall (λ e, proper_window e.2) (coefficients fixture) ∧
  (coefficients fixture).*1 = fb_techniques fixture ∧
  ∀ t, t ∈ fb_techniques fixture → is_Some (fb_currentQuota fixture !! t).
Proof.
  unfold assertFixtureBenchmark. rewrite !outcome_then_Ok. intros (_ & _ & Hc).
  apply outcome_bind_Ok in Hc as (seen & Hc & _). apply checked_techniques in Hc as [Hnd Hall]; [|constructor].
  cbn [app] in Hnd. unfold coefficients.
  assert (Hkeys : ∀ l, l ⊆ fb_techniques fixture → (omap (λ t, (t,.) <$> fb_perTechnique fixture !! t) l).*1 = l ∧
    Forall (λ e, proper_window e.2) (omap (λ t, (t,.) <$> fb_perTechnique fixture !! t) l)).
  { induction l as [|t l IH]; intros Hsub; [split; [done|constructor]|]. destruct IH as [IH1 IH2]; [intros x Hx; apply Hsub; by right|].
    destruct (Hall t) as (c & q & Ec & Hw & _); [apply Hsub; by left|]. cbn. rewrite Ec. cbn. split; [by rewrite IH1|by constructor]. }
  destruct (Hkeys (fb_techniques fixture)) as [H1 H2]; [done|]. rewrite H1. split_and!; [done|done|done|].
  intros t Ht. destruct (Hall t Ht) as (c & q & _ & _ & ->). by eexists.
Qed.

Lemma lookup_baseline fixture t :
  baseline_plan fixture !! t = if decide (t ∈ fb_techniques fixture) then whole <$> fb_currentQuota fixture !! t else None.
Proof.
  unfold baseline_plan.
  assert (Hl : ∀ l (p : plan), foldl (λ p t, match fb_currentQuota fixture !! t with Some q => <[t := whole q]> p | None => p end) p l !! t =
    if decide (t ∈ l) then match fb_currentQuota fixture !! t with Some q => Some (whole q) | None => p !! t end else p !! t).
  { induction l as [|x l IH]; intros p; [done|]. cbn [foldl]. rewrite IH. destruct (decide (t = x)) as [->|Hne].
    - rewrite (decide_True (P := x ∈ x :: l)) by left. destruct (fb_currentQuota fixture !! x) as [q|].
      + case_decide; [done|]. by rewrite lookup_insert_eq.
      + by case_decide.
    - assert (Hx : (match fb_currentQuota fixture !! x with Some q => <[x := whole q]> p | None => p end) !! t = p !! t).
      { destruct (fb_currentQuota fixture !! x); [by rewrite lookup_insert_ne|done]. }
      rewrite Hx. apply decide_ext. set_solver. }
  rewrite Hl. case_decide; [|apply lookup_empty]. destruct (fb_currentQuota fixture !! t); [done|apply lookup_empty].
Qed.

Lemma checked_window fixture u w :
  assertFixtureBenchmark fixture = Ok u → outcome_foldl (λ _ e, check_window fixture e) tt (coefficients fixture) = Ok w →
  in_window (coefficients fixture) (baseline_plan fixture).
Proof.
  intros Hf Hw. destruct (checked_fixture fixture u Hf) as (_ & _ & Hkeys & Hquota).
  assert (Hall : ∀ l, outcome_foldl (λ _ e, check_window fixture e) tt l = Ok w → ∀ e, e ∈ l → check_window fixture e = Ok tt).
  { induction l as [|x l IH]; intros Hl e He; [by apply elem_of_nil in He|]. cbn [outcome_foldl] in Hl.
    apply outcome_bind_Ok in Hl as ([] & Hx & Hl). apply elem_of_cons in He as [->|He]; [done|by apply IH]. }
  split.
  - intros t c Htc. pose proof (Hall _ Hw _ Htc) as Hc. unfold check_window in Hc. apply guard_throw_Ok in Hc. cbn [fst snd] in Hc.
    apply orb_false_iff in Hc as [H1%Z.ltb_ge H2%Z.ltb_ge].
    assert (Ht : t ∈ fb_techniques fixture) by (rewrite <- Hkeys; apply list_elem_of_fmap; by exists (t, c)).
    unfold gene in *. rewrite lookup_baseline, decide_True in * by done. destruct (Hquota t Ht) as [q Hq]. rewrite Hq in *.
    cbn in *. exists (whole q). split; [done|]. by split.
  - intros t Ht. rewrite lookup_baseline in Ht. rewrite Hkeys. case_decide; [done|]. by destruct Ht.
Qed.

Lemma checked_config config u : assertNsgaIIConfig config = Ok u → (8 ≤ Z.to_nat (whole (nc_populationSize config)))%nat ∧
  Z.of_nat (Z.to_nat (whole (nc_populationSize config))) ≤ 2 ^ 53 ∧ (1 ≤ Z.to_nat (whole (nc_generations config)))%nat.
Proof.
  unfold assertNsgaIIConfig. rewrite !outcome_then_Ok, !guard_throw_Ok, !orb_false_iff, !negb_false_iff.
  intros (((Hp & Hp8) & _) & (Hg & Hg1) & _).
  assert (Hge : ∀ n k, Number.isSafeInteger n = true → Number.ltb n (num k) = false → k ≤ whole n).
  { intros n k Hn Hk. destruct n as [| | |q]; try done. apply Number.ltb_Fin_false in Hk. unfold whole. cbn [fin].
    rewrite <- (Qfloor_Z k). by apply Qfloor_resp_le. }
  apply Hge in Hp8; [|done]. apply Hge in Hg1; [|done].
  assert (Hmax : whole (nc_populationSize config) ≤ 2 ^ 53).
  { destruct (nc_populationSize config) as [| | |q]; try done. cbn in Hp. apply andb_true_iff in Hp as [_ Hp%Z.leb_le].
    unfold whole, Number.MAX_SAFE_INTEGER in *. cbn [fin] in *. lia. }
  split; [lia|]. split; [lia|]. lia.
Qed.

(** ** What is published *)

Section publication.
Context `{Exponential} `{LocaleCompare} (json_text : json → string).

Lemma published_core fixture ind :
  Forall (λ e, proper_window e.2) (coefficients fixture) → sound fixture ind → core (published ind) = core ind.
Proof.
  intros Hw [[Hin Hdom] _]. cbn [core fst] in Hin, Hdom. unfold core, published. cbn [in_plan in_objectives]. f_equal. apply map_eq. intros t.
  rewrite lookup_fmap. destruct (in_plan ind !! t) as [z|] eqn:Ez; [|done]. cbn. f_equal.
  assert (Ht : t ∈ (coefficients fixture).*1) by (apply Hdom; by rewrite Ez).
  apply list_elem_of_fmap in Ht as ([t' c] & -> & Hc). destruct (Hin t' c Hc) as (z' & Hz & Hb). cbn [fst] in *.
  rewrite Forall_forall in Hw. specialize (Hw (t', c) Hc). unfold proper_window, within in *. cbn [snd] in Hw.
  assert (z' = z) as -> by congruence. lia.
Qed.

Lemma final_front_spec fixture population :
  Forall (λ e, proper_window e.2) (coefficients fixture) → population ≠ [] → Forall (sound fixture) population →
  let front := final_front json_text population in
  front ≠ [] ∧ StronglySorted (cmp_le (by_cost json_text)) front ∧
  (NoDup (in_plan <$> population) → NoDup (in_plan <$> front)) ∧
  (∀ a, a ∈ front → ∃ ind, ind ∈ population ∧ core a = core ind ∧ nothing_dominates population ind) ∧
  (∀ ind, ind ∈ population → nothing_dominates population ind → ∃ a, a ∈ front ∧ core a = core ind).
Proof.
  intros Hw Hne Hs front. destruct (first_front population Hne) as (first & rest & Hfronts & Hnd & Hfirst & _ & Hfne).
  unfold front, final_front. pose proof (core_sort_and_crowd population) as Hcore. unfold sort_and_crowd in *.
  destruct (nonDominatedSort population) as [ranked0 fronts] eqn:Es. cbn [fst snd] in *. subst fronts. change (default [] (head (first :: rest))) with first.
  set (ranked := foldl assignCrowdingDistance ranked0 (first :: rest)) in *.
  assert (Hsr : Forall (sound fixture) ranked) by (eapply sound_fmap; [symmetry; exact Hcore|done]).
  assert (Hpub : core <$> (published <$> members ranked first) = core <$> members population first).
  { rewrite <- (core_members ranked population first Hcore), <- list_fmap_compose. apply list_fmap_ext. intros i ind Hind.
    apply list_elem_of_lookup_2, elem_of_members in Hind as (j & _ & Hj). apply list_elem_of_lookup_2 in Hj.
    rewrite Forall_forall in Hsr. apply (published_core fixture); auto. }
  assert (Hmem : ∀ ind, ind ∈ members population first ↔ ind ∈ population ∧ nothing_dominates population ind).
  { intros ind. rewrite elem_of_members. setoid_rewrite Hfirst. split.
    - intros (i & (ind' & Hi & Hn) & Hi'). assert (ind' = ind) as -> by congruence. split; [by eapply list_elem_of_lookup_2|done].
    - intros [Hin Hn]. apply list_elem_of_lookup_1 in Hin as [i Hi]. exists i. split; [by exists ind|done]. }
  split_and!.
  - intros E. assert (E' : published <$> members ranked first = []).
    { apply Permutation_nil_r. by rewrite <- (js_sort_Permutation (by_cost json_text)), E. }
    rewrite E' in Hpub. destruct first as [|i first]; [done|]. destruct (proj1 (Hfirst i) ltac:(by left)) as (ind & Hi & _).
    unfold members in Hpub. cbn in Hpub. by rewrite Hi in Hpub.
  - apply js_sort_sorted, _.
  - intros Hplans. rewrite (fmap_Permutation in_plan _ _ (js_sort_Permutation (by_cost json_text) _)).
    apply (f_equal (fmap fst)) in Hpub. rewrite <- !(list_fmap_compose core fst) in Hpub.
    change (fst ∘ core) with in_plan in Hpub. rewrite Hpub.
    assert (Hall : ∀ l, NoDup l → NoDup (in_plan <$> members population l)).
    { induction 1 as [|i l Hi Hl IH]; [constructor|]. unfold members in *. cbn. destruct (population !! i) as [ind|] eqn:Ei; [|done].
      cbn. constructor; [|done]. intros (ind' & Ep & Hin')%list_elem_of_fmap. apply elem_of_members in Hin' as (j & Hj & Ej).
      assert (i = j) as ->; [|done]. eapply (NoDup_lookup (in_plan <$> population) i j (in_plan ind)); [done| |];
        rewrite list_lookup_fmap; [by rewrite Ei|by rewrite Ej, Ep]. }
    by apply Hall.
  - intros a Ha. rewrite elem_of_js_sort in Ha. assert (Hc : core a ∈ core <$> (published <$> members ranked first)) by (apply list_elem_of_fmap; by exists a).
    rewrite Hpub in Hc. apply list_elem_of_fmap in Hc as (ind & Ec & Hin). apply Hmem in Hin as [? ?]. by exists ind.
  - intros ind Hin Hn. assert (Hc : core ind ∈ core <$> (published <$> members ranked first)).
    { rewrite Hpub. apply list_elem_of_fmap. exists ind. split; [done|]. by apply Hmem. }
    apply list_elem_of_fmap in Hc as (a & Ec & Ha). exists a. split; [by rewrite elem_of_js_sort|done].
Qed.

(** The two acceptance criteria: 95 % of the best known kill rate, 80 % of the current
    cost. *)
Definition kills_enough (fixture : FixtureBenchmark) (ind : Individual) : Prop :=
  Number.leb (Double.mul (fb_bestKnownKillRate fixture) (Double.round (95 # 100)))
    (number_of (ov_mutationKillRate (in_objectives ind))) = true.
Definition costs_little (fixture : FixtureBenchmark) (ind : Individual) : Prop :=
  Number.leb (number_of (ov_tokenCost (in_objectives ind)))
    (Double.mul (fb_currentTokenCost fixture) (Double.round (8 # 10))) = true.

(** What a recommendation, or the lack of one, says of the front. *)
Definition recommendation_explained (front : list Individual) (fixture : FixtureBenchmark)
    (recommended : option Individual) (reason : SelectionReason) : Prop :=
  match recommended with
  | Some best => reason = selected ∧ best ∈ front ∧ kills_enough fixture best ∧ costs_little fixture best
  | None =>
      reason = no_kill_rate_above_floor ∧ (∀ ind, ind ∈ front → ¬ kills_enough fixture ind) ∨
      reason = no_cost_below_ceiling ∧ (∃ ind, ind ∈ front ∧ kills_enough fixture ind) ∧
        (∀ ind, ind ∈ front → kills_enough fixture ind → ¬ costs_little fixture ind)
  end.

Lemma elem_of_filter_true {A} (f : A → bool) (l : list A) x : x ∈ filter (λ y, f y = true) l ↔ f x = true ∧ x ∈ l.
Proof. exact (list_elem_of_filter (λ y, f y = true) l x). Qed.

Lemma select_spec front fixture :
  front ≠ [] →
  recommendation_explained front fixture (selectRecommendedPlan json_text front fixture).1 (selectRecommendedPlan json_text front fixture).2.
Proof.
  intros Hne. unfold selectRecommendedPlan, recommendation_explained. destruct front as [|x l]; [done|]. set (front := x :: l).
  assert (Hkills : ∀ ind, ind ∈ filter (λ ind, above_floor fixture ind = true) front ↔ kills_enough fixture ind ∧ ind ∈ front)
    by (intros; apply elem_of_filter_true).
  destruct (filter (λ ind, above_floor fixture ind = true) front) as [|y l'].
  { left. split; [done|]. intros ind Hi Hk. by apply (not_elem_of_nil ind), Hkills. }
  assert (Hboth : ∀ ind, ind ∈ filter (λ ind, below_ceiling fixture ind = true) (y :: l') ↔
    costs_little fixture ind ∧ kills_enough fixture ind ∧ ind ∈ front)
    by (intros; rewrite elem_of_filter_true, Hkills; tauto).
  destruct (filter (λ ind, below_ceiling fixture ind = true) (y :: l')) as [|z l''].
  - right. split; [done|]. split.
    + exists y. destruct (proj1 (Hkills y)) as [? ?]; [left|done].
    + intros ind Hi Hk Hc. by apply (not_elem_of_nil ind), Hboth.
  - destruct (js_sort (by_cost json_text) (z :: l'')) as [|best others] eqn:Ej.
    { pose proof (length_js_sort (by_cost json_text) (z :: l'')) as Hlen. by rewrite Ej in Hlen. }
    cbn [head fst snd]. destruct (proj1 (Hboth best)) as (Hc & Hk & Hin); [|done].
    apply (elem_of_js_sort (by_cost json_text)). rewrite Ej. left.
Qed.

Context (sha256_head : string → Z * Z * Z * Z).

End publication.

(** ** Runs to evaluate *)

(** A rough exponential of a number that is not positive. *)
Definition rough_exp : Exponential := λ n,
  let x := Double.opp n in
  let square := Double.mul x x in
  Double.div (num 1) (Double.add (Double.add (num 1) x)
    (Double.add (Double.div square (num 2)) (Double.div (Double.mul square x) (num 6)))).

Definition short_run (generations : Z) : NsgaIIConfig :=
  {| nc_populationSize := num 8; nc_generations := num generations; nc_crossoverRate := Double.round (9 # 10);
     nc_mutationRate := Double.round (15 # 100) |}.

(** A run on the login form of the reference corpus; the digest starts with these bytes. *)
Definition demo_run (generations byte : Z) : outcome OptimizerError (option FixtureOptimizationResult) :=
  @optimizeFixture rough_exp code_unit_collation (λ _, "") (λ _, (0, 0, 0, byte)) reference_login_form (Some (short_run generations)) 0.

Definition demo_result (generations byte : Z) : option FixtureOptimizationResult :=
  match demo_run generations byte with Ok r => r | Throw _ => None end.

(** The costs of the published plans. *)
Definition published_costs (result : option FixtureOptimizationResult) : list rounded :=
  match result with Some r => (λ ind, ov_tokenCost (in_objectives ind)) <$> fr_paretoFront r | None => [] end.

Lemma reference_fixtures_are_valid :
  forallb (λ f, match assertFixtureBenchmark f with Ok _ => true | Throw _ => false end) REFERENCE_BENCHMARK_FIXTURES = true.
Proof. vm_compute. reflexivity. Qed.


(** Individuals with a cost and a kill rate. *)
Definition costing (name : string) (killRate cost : Q) : Individual :=
  {| in_plan := {[name := 1]}; in_objectives := {| ov_mutationKillRate := Real killRate; ov_techniqueCoverage := Real 1; ov_tokenCost := Real cost; ov_latencyMs := Real 0 |};
     in_rank := 0; in_crowdingDistance := num 0 |}.

(** The second costs more than the first and kills less; the third costs and kills most. *)
Definition demo_population : list Individual :=
  [costing "a" (1 # 2) 10; costing "b" (1 # 3) 20; costing "c" (2 # 3) 30; costing "d" (1 # 4) 40].

Lemma nonDominatedSort_is_peeling_witness :
  (nonDominatedSort demo_population).2 = [[0; 2]; [1]; [3]]%nat ∧
  ∃ ind, (nonDominatedSort demo_population).1 !! 3%nat = Some (with_rank 2 ind).
Proof.
  pose proof (nonDominatedSort_is_peeling demo_population) as Hsort.
  assert (Hfronts : (nonDominatedSort demo_population).2 = [[0; 2]; [1]; [3]]%nat) by (vm_compute; reflexivity).
  split; [exact Hfronts|]. cbv zeta in Hsort. destruct (nonDominatedSort demo_population) as [ranked fronts].
  destruct Hsort as (_ & _ & _ & Hrank). destruct (Hrank 2%nat [3%nat] 3%nat) as (ind & _ & Hind).
  - cbn in Hfronts. rewrite Hfronts. reflexivity.
  - left.
  - exists ind. exact Hind.
Defined.

Example two_survive : (in_plan <$> survivors 2 demo_population []) = [{["a" := 1]}; {["c" := 1]}].
Proof. vm_compute. reflexivity. Qed.
