(* ===== verification/IntentDelta.v ===== *)
(** * Delta of two test intents

    [packages/core-engine/src/intent-delta.ts]: what was added, removed or changed between
    two revisions of the intent of a job, with the drift of its visual descriptions.

    Of an element the properties the delta reads are kept by name, the others are a list
    of JSON properties that only the hash of the whole intent sees. An ambiguity is its
    reason. Objects keyed by screen are finite maps; screen ids are not names every object
    inherits. Numbers are exact rationals. *)

From S2P Require Import Prelude JsString NodePath JsList JsValue CanonicalJson Contracts.
From S2P Require Import ArtifactFiles.

(** ** Intents *)

Record BusinessTestIntentScreen := {
  bs_screenId : string;
  bs_screenName : string;
  bs_screenPath : option string;
  bs_others : list (string * json);
}.

Record DetectedField := {
  df_id : string;
  df_screenId : string;
  df_label : string;
  df_type : string;
  df_defaultValue : option string;
  df_ambiguity : option string;
  df_others : list (string * json);
}.

Record DetectedAction := {
  da_id : string;
  da_screenId : string;
  da_label : string;
  da_kind : string;
  da_ambiguity : option string;
  da_others : list (string * json);
}.

Record DetectedValidation := {
  dv_id : string;
  dv_screenId : string;
  dv_rule : string;
  dv_targetFieldId : option string;
  dv_ambiguity : option string;
  dv_others : list (string * json);
}.

Record DetectedNavigation := {
  dn_id : string;
  dn_screenId : string;
  dn_targetScreenId : string;
  dn_triggerElementId : option string;
  dn_ambiguity : option string;
  dn_others : list (string * json);
}.

Record BusinessTestIntentIr := {
  ir_screens : list BusinessTestIntentScreen;
  ir_detectedFields : list DetectedField;
  ir_detectedActions : list DetectedAction;
  ir_detectedValidations : list DetectedValidation;
  ir_detectedNavigation : list DetectedNavigation;
  ir_others : list (string * json);
}.

(** ** Visual descriptions *)

Record VisualRegion := {
  vr_regionId : string;
  vr_confidence : Q;
  vr_label : option string;
  vr_controlType : option string;
  vr_visibleText : option string;
  vr_stateHints : option (list string);
  vr_validationHints : option (list string);
  vr_ambiguity : option string;
}.

Record PiiFlag := { pf_regionId : string; pf_kind : string; pf_confidence : Q }.

Record VisualScreenDescription := {
  vd_screenId : string;
  vd_sidecarDeployment : string;
  vd_regions : list VisualRegion;
  vd_min : Q;
  vd_max : Q;
  vd_mean : Q;
  vd_screenName : option string;
  vd_capturedAt : option string;
  vd_piiFlags : option (list PiiFlag);
}.

(** ** The report *)

Inductive IntentDeltaKind : Type := k_screen | k_field | k_action | k_validation | k_navigation | k_visual_screen.
Inductive IntentDeltaChangeType : Type := c_added | c_removed | c_changed | c_confidence_dropped | c_ambiguity_increased.

#[export] Instance delta_kind_eq_dec : EqDecision IntentDeltaKind.
Proof. solve_decision. Defined.
#[export] Instance change_type_eq_dec : EqDecision IntentDeltaChangeType.
Proof. solve_decision. Defined.

Record IntentDeltaEntry := {
  de_kind : IntentDeltaKind;
  de_changeType : IntentDeltaChangeType;
  de_elementId : string;
  de_screenId : option string;
  de_priorHash : option string;
  de_currentHash : option string;
  de_detail : option string;
}.

Record IntentDeltaTotals := {
  dt_added : nat;
  dt_removed : nat;
  dt_changed : nat;
  dt_confidenceDropped : nat;
  dt_ambiguityIncreased : nat;
}.

Record IntentDeltaReport := {
  dr_jobId : string;
  dr_generatedAt : string;
  dr_priorIntentHash : string;
  dr_currentIntentHash : string;
  dr_entries : list IntentDeltaEntry;
  dr_totals : IntentDeltaTotals;
}.

Definition KIND_ORDER (k : IntentDeltaKind) : Z :=
  match k with
  | k_action => 0 | k_field => 1 | k_navigation => 2 | k_screen => 3 | k_validation => 4 | k_visual_screen => 5
  end.

Definition CHANGE_TYPE_ORDER (c : IntentDeltaChangeType) : Z :=
  match c with c_added => 0 | c_ambiguity_increased => 1 | c_changed => 2 | c_confidence_dropped => 3 | c_removed => 4 end.

Definition compareDeltaEntries : IntentDeltaEntry → IntentDeltaEntry → comparison :=
  cmp_then (cmp_on (KIND_ORDER ∘ de_kind) Z.compare)
    (cmp_then (cmp_on de_elementId String.compare) (cmp_on (CHANGE_TYPE_ORDER ∘ de_changeType) Z.compare)).

Definition computeTotals (entries : list IntentDeltaEntry) : IntentDeltaTotals :=
  let count c := length (filter (λ e, de_changeType e = c) entries) in
  {| dt_added := count c_added; dt_removed := count c_removed; dt_changed := count c_changed;
     dt_confidenceDropped := count c_confidence_dropped; dt_ambiguityIncreased := count c_ambiguity_increased |}.

(** ** Elements *)

Definition or_null (o : option string) : json := from_option JString JNull o.

(** [CollectionLike] with its [HashSeed]. *)
Class CollectionLike (T : Type) := {
  cl_id : T → string;
  cl_screenId : T → string;
  hashSeed : T → json;
}.

#[export] Instance screen_collection : CollectionLike BusinessTestIntentScreen := {|
  cl_id := bs_screenId; cl_screenId := bs_screenId;
  hashSeed s := JObject [("screenName", JString (bs_screenName s)); ("screenPath", or_null (bs_screenPath s))] |}.

Definition fieldHashSeed (entry : DetectedField) : json :=
  JObject [("label", JString (df_label entry)); ("type", JString (df_type entry));
           ("defaultValue", or_null (df_defaultValue entry)); ("ambiguity", or_null (df_ambiguity entry))].
Definition actionHashSeed (entry : DetectedAction) : json :=
  JObject [("label", JString (da_label entry)); ("kind", JString (da_kind entry)); ("ambiguity", or_null (da_ambiguity entry))].
Definition validationHashSeed (entry : DetectedValidation) : json :=
  JObject [("rule", JString (dv_rule entry)); ("targetFieldId", or_null (dv_targetFieldId entry));
           ("ambiguity", or_null (dv_ambiguity entry))].
Definition navigationHashSeed (entry : DetectedNavigation) : json :=
  JObject [("targetScreenId", JString (dn_targetScreenId entry)); ("triggerElementId", or_null (dn_triggerElementId entry));
           ("ambiguity", or_null (dn_ambiguity entry))].

#[export] Instance field_collection : CollectionLike DetectedField :=
  {| cl_id := df_id; cl_screenId := df_screenId; hashSeed := fieldHashSeed |}.
#[export] Instance action_collection : CollectionLike DetectedAction :=
  {| cl_id := da_id; cl_screenId := da_screenId; hashSeed := actionHashSeed |}.
#[export] Instance validation_collection : CollectionLike DetectedValidation :=
  {| cl_id := dv_id; cl_screenId := dv_screenId; hashSeed := validationHashSeed |}.
#[export] Instance navigation_collection : CollectionLike DetectedNavigation :=
  {| cl_id := dn_id; cl_screenId := dn_screenId; hashSeed := navigationHashSeed |}.

(** [new Map(xs.map((x) => [key(x), x]))] *)
Definition map_from {T} (key : T → string) (xs : list T) : list (string * T) :=
  foldl (λ m x, map_set (key x) x m) [] xs.

Section delta.
Context `{JsonDigest}.

Section collection.
Context {T} `{CollectionLike T} (kind : IntentDeltaKind).

Definition element_hash (entry : T) : string := sha256Hex_json (hashSeed entry).

Definition element_entry (changeType : IntentDeltaChangeType) (owner : T) (prior current : option T) : IntentDeltaEntry :=
  {| de_kind := kind; de_changeType := changeType; de_elementId := cl_id owner; de_screenId := Some (cl_screenId owner);
     de_priorHash := element_hash <$> prior; de_currentHash := element_hash <$> current; de_detail := None |}.

Definition changed_element_entry (priorMap : list (string * T)) (e : string * T) : option IntentDeltaEntry :=
  prior ← map_get e.1 priorMap;
  if bool_decide (element_hash prior = element_hash e.2) then None
  else Some (element_entry c_changed e.2 (Some prior) (Some e.2)).

(** The three loops, each over the entries of one map. *)
Definition appendCollectionDeltas (prior current : list T) : list IntentDeltaEntry :=
  let priorMap := map_from cl_id prior in
  let currentMap := map_from cl_id current in
  ((λ e, element_entry c_added e.2 None (Some e.2)) <$> filter (λ e, map_has e.1 priorMap = false) currentMap) ++
  ((λ e, element_entry c_removed e.2 (Some e.2) None) <$> filter (λ e, map_has e.1 currentMap = false) priorMap) ++
  omap (changed_element_entry priorMap) currentMap.
End collection.

(** The same loops over screens, which own themselves. *)
Definition appendScreenDeltas (prior current : BusinessTestIntentIr) : list IntentDeltaEntry :=
  appendCollectionDeltas k_screen (ir_screens prior) (ir_screens current).

(** ** Visual descriptions *)

Definition strings_array (xs : list string) : json := JArray (JString <$> xs).
Definition number (q : Q) : json := JNumber (Qred q).

(** Regions with equal ids keep their order, and so do flags. *)
Definition projectRegion (r : VisualRegion) : json :=
  JObject
    [("regionId", JString (vr_regionId r)); ("label", or_null (vr_label r)); ("controlType", or_null (vr_controlType r));
     ("visibleText", or_null (vr_visibleText r)); ("confidence", number (vr_confidence r));
     ("stateHints", strings_array (js_sort String.compare (default [] (vr_stateHints r))));
     ("validationHints", strings_array (js_sort String.compare (default [] (vr_validationHints r))));
     ("ambiguity", or_null (vr_ambiguity r))].

Definition projectVisualDescription (desc : VisualScreenDescription) : json :=
  JObject
    [("sidecarDeployment", JString (vd_sidecarDeployment desc));
     ("screenName", or_null (vd_screenName desc));
     ("confidenceSummary", JObject [("min", number (vd_min desc)); ("max", number (vd_max desc)); ("mean", number (vd_mean desc))]);
     ("regions", JArray (projectRegion <$> js_sort (cmp_on vr_regionId String.compare) (vd_regions desc)));
     ("piiFlags", JArray ((λ f, JObject [("regionId", JString (pf_regionId f)); ("kind", JString (pf_kind f)); ("confidence", number (pf_confidence f))])
        <$> js_sort (cmp_on pf_regionId String.compare) (default [] (vd_piiFlags desc))))].

Definition projectVisualForHash (desc : option VisualScreenDescription) (fixtureHash : option string) : json :=
  JObject [("fixtureHash", or_null fixtureHash); ("description", from_option projectVisualDescription JNull desc)].

Definition ambiguityCount (desc : option VisualScreenDescription) : nat :=
  from_option (λ d, length (filter (λ r, is_Some (vr_ambiguity r)) (vd_regions d))) O desc.

Definition meanConfidence (desc : option VisualScreenDescription) : option Q := vd_mean <$> desc.

(** [value.toFixed(3)], of a number below [1e21]. *)
Definition to_fixed3 (value : Q) : string :=
  let positive := Qle_bool 0 value in
  let n := Qfloor ((if positive then value else - value) * 1000 + (1 # 2)) in
  let pad := if n mod 1000 <? 10 then "00" else if n mod 1000 <? 100 then "0" else "" in
  (if positive then "" else "-") +:+ pretty (n / 1000) +:+ "." +:+ pad +:+ pretty (n mod 1000).

Definition visual_entry (changeType : IntentDeltaChangeType) (screenId : string) (priorHash currentHash detail : option string) : IntentDeltaEntry :=
  {| de_kind := k_visual_screen; de_changeType := changeType; de_elementId := screenId; de_screenId := Some screenId;
     de_priorHash := priorHash; de_currentHash := currentHash; de_detail := detail |}.

Definition appendVisualDeltaForScreen (screenId : string) (priorDesc currentDesc : option VisualScreenDescription)
    (priorFixture currentFixture : option string) (driftThreshold : Q) : list IntentDeltaEntry :=
  let priorHash := sha256Hex_json (projectVisualForHash priorDesc priorFixture) in
  let currentHash := sha256Hex_json (projectVisualForHash currentDesc currentFixture) in
  let hasPrior := bool_decide (is_Some priorDesc ∨ is_Some priorFixture) in
  let hasCurrent := bool_decide (is_Some currentDesc ∨ is_Some currentFixture) in
  if hasCurrent && negb hasPrior then [visual_entry c_added screenId None (Some currentHash) None]
  else if hasPrior && negb hasCurrent then [visual_entry c_removed screenId (Some priorHash) None None]
  else
    (if bool_decide (priorHash = currentHash) then []
     else [visual_entry c_changed screenId (Some priorHash) (Some currentHash) None]) ++
    match meanConfidence priorDesc, meanConfidence currentDesc with
    | Some priorMean, Some currentMean =>
        if Qle_bool driftThreshold (priorMean - currentMean)
        then [visual_entry c_confidence_dropped screenId None None
                (Some ("mean " +:+ to_fixed3 priorMean +:+ " -> " +:+ to_fixed3 currentMean))]
        else []
    | _, _ => []
    end ++
    let priorAmb := ambiguityCount priorDesc in
    let currentAmb := ambiguityCount currentDesc in
    if (priorAmb <? currentAmb)%nat
    then [visual_entry c_ambiguity_increased screenId None None
            (Some ("regions " +:+ pretty (Z.of_nat priorAmb) +:+ " -> " +:+ pretty (Z.of_nat currentAmb)))]
    else [].

Record ComputeIntentDeltaOptions := {
  io_visualConfidenceDriftThreshold : option Q;
  io_priorFixtureHashes : gmap string string;
  io_currentFixtureHashes : gmap string string;
  io_priorVisual : list VisualScreenDescription;
  io_currentVisual : list VisualScreenDescription;
}.

(** What a caller who gives no option gets: an absent option is an empty one. *)
Definition no_options : ComputeIntentDeltaOptions :=
  {| io_visualConfidenceDriftThreshold := None; io_priorFixtureHashes := ∅; io_currentFixtureHashes := ∅;
     io_priorVisual := []; io_currentVisual := [] |}.

Record ComputeIntentDeltaInput := {
  ii_jobId : string;
  ii_generatedAt : string;
  ii_prior : BusinessTestIntentIr;
  ii_current : BusinessTestIntentIr;
  ii_options : option ComputeIntentDeltaOptions;
}.

Definition visualScreenIndex (l : list VisualScreenDescription) : list (string * VisualScreenDescription) := map_from vd_screenId l.

(** The screens of the [Set], in the order of [sort]. *)
Definition visual_screens (options : ComputeIntentDeltaOptions) : list string :=
  js_sort String.compare (set_of
    ((visualScreenIndex (io_priorVisual options)).*1 ++ (visualScreenIndex (io_currentVisual options)).*1 ++
     (map_to_list (io_priorFixtureHashes options)).*1 ++ (map_to_list (io_currentFixtureHashes options)).*1)).

Definition visual_delta (options : ComputeIntentDeltaOptions) (driftThreshold : Q) (id : string) : list IntentDeltaEntry :=
  appendVisualDeltaForScreen id
    (map_get id (visualScreenIndex (io_priorVisual options))) (map_get id (visualScreenIndex (io_currentVisual options)))
    (io_priorFixtureHashes options !! id) (io_currentFixtureHashes options !! id) driftThreshold.

Definition appendVisualDeltas (options : ComputeIntentDeltaOptions) (driftThreshold : Q) : list IntentDeltaEntry :=
  visual_screens options ≫= visual_delta options driftThreshold.

(** ** The delta *)

Definition INTENT_DELTA_DEFAULT_CONFIDENCE_DRIFT : Q := 5 # 100.

Definition screen_json (s : BusinessTestIntentScreen) : json :=
  JObject (Json.literal [("screenId", Some (JString (bs_screenId s))); ("screenName", Some (JString (bs_screenName s)));
    ("screenPath", JString <$> bs_screenPath s)] ++ bs_others s).

Definition element_json (named : list (string * option json)) (ambiguity : option string) (others : list (string * json)) : json :=
  JObject (Json.literal (named ++ [("ambiguity", (λ r, JObject [("reason", JString r)]) <$> ambiguity)]) ++ others).

Definition intent_json (ir : BusinessTestIntentIr) : json :=
  let text s := Some (JString s) in
  JObject
    ([("screens", JArray (screen_json <$> ir_screens ir));
      ("detectedFields", JArray ((λ f, element_json [("id", text (df_id f)); ("screenId", text (df_screenId f)); ("label", text (df_label f));
          ("type", text (df_type f)); ("defaultValue", JString <$> df_defaultValue f)] (df_ambiguity f) (df_others f)) <$> ir_detectedFields ir));
      ("detectedActions", JArray ((λ a, element_json [("id", text (da_id a)); ("screenId", text (da_screenId a)); ("label", text (da_label a));
          ("kind", text (da_kind a))] (da_ambiguity a) (da_others a)) <$> ir_detectedActions ir));
      ("detectedValidations", JArray ((λ v, element_json [("id", text (dv_id v)); ("screenId", text (dv_screenId v)); ("rule", text (dv_rule v));
          ("targetFieldId", JString <$> dv_targetFieldId v)] (dv_ambiguity v) (dv_others v)) <$> ir_detectedValidations ir));
      ("detectedNavigation", JArray ((λ n, element_json [("id", text (dn_id n)); ("screenId", text (dn_screenId n));
          ("targetScreenId", text (dn_targetScreenId n)); ("triggerElementId", JString <$> dn_triggerElementId n)] (dn_ambiguity n) (dn_others n))
          <$> ir_detectedNavigation ir))] ++ ir_others ir).

Inductive IntentDeltaError : Type := bad_drift_threshold.

Definition delta_entries (prior current : BusinessTestIntentIr) (options : ComputeIntentDeltaOptions) (driftThreshold : Q) : list IntentDeltaEntry :=
  appendScreenDeltas prior current ++
  appendCollectionDeltas k_field (ir_detectedFields prior) (ir_detectedFields current) ++
  appendCollectionDeltas k_action (ir_detectedActions prior) (ir_detectedActions current) ++
  appendCollectionDeltas k_validation (ir_detectedValidations prior) (ir_detectedValidations current) ++
  appendCollectionDeltas k_navigation (ir_detectedNavigation prior) (ir_detectedNavigation current) ++
  appendVisualDeltas options driftThreshold.

Definition drift_threshold (input : ComputeIntentDeltaInput) : Q :=
  default INTENT_DELTA_DEFAULT_CONFIDENCE_DRIFT (ii_options input ≫= io_visualConfidenceDriftThreshold).

Definition computeIntentDelta (input : ComputeIntentDeltaInput) : outcome IntentDeltaError IntentDeltaReport :=
  (let driftThreshold := drift_threshold input in
   guard_throw (negb (Qle_bool 0 driftThreshold && Qle_bool driftThreshold 1)) bad_drift_threshold ;;;
   let entries := js_sort compareDeltaEntries
     (delta_entries (ii_prior input) (ii_current input) (default no_options (ii_options input)) driftThreshold) in
   Ok {| dr_jobId := ii_jobId input; dr_generatedAt := ii_generatedAt input;
         dr_priorIntentHash := sha256Hex_json (intent_json (ii_prior input));
         dr_currentIntentHash := sha256Hex_json (intent_json (ii_current input));
         dr_entries := entries; dr_totals := computeTotals entries |})%outcome.
End delta.

(** ** The report file *)

Definition INTENT_DELTA_REPORT_SCHEMA_VERSION : string := "1.0.0".
Definition INTENT_DELTA_REPORT_ARTIFACT_FILENAME : string := "intent-delta-report.json".

Definition IntentDeltaKind_label (k : IntentDeltaKind) : string :=
  match k with
  | k_screen => "screen" | k_field => "field" | k_action => "action" | k_validation => "validation"
  | k_navigation => "navigation" | k_visual_screen => "visual_screen"
  end.
Definition IntentDeltaChangeType_label (c : IntentDeltaChangeType) : string :=
  match c with
  | c_added => "added" | c_removed => "removed" | c_changed => "changed"
  | c_confidence_dropped => "confidence_dropped" | c_ambiguity_increased => "ambiguity_increased"
  end.

Definition delta_entry_json (e : IntentDeltaEntry) : json :=
  JObject (Json.literal
    [("kind", Some (JString (IntentDeltaKind_label (de_kind e))));
     ("changeType", Some (JString (IntentDeltaChangeType_label (de_changeType e))));
     ("elementId", Some (JString (de_elementId e))); ("screenId", JString <$> de_screenId e);
     ("priorHash", JString <$> de_priorHash e); ("currentHash", JString <$> de_currentHash e); ("detail", JString <$> de_detail e)]).

Definition intent_delta_json (r : IntentDeltaReport) : json :=
  let n x := Json.jint (Z.of_nat x) in
  let t := dr_totals r in
  JObject
    [("schemaVersion", JString INTENT_DELTA_REPORT_SCHEMA_VERSION); ("contractVersion", JString TEST_INTELLIGENCE_CONTRACT_VERSION);
     ("jobId", JString (dr_jobId r)); ("generatedAt", JString (dr_generatedAt r));
     ("priorIntentHash", JString (dr_priorIntentHash r)); ("currentIntentHash", JString (dr_currentIntentHash r));
     ("entries", JArray (delta_entry_json <$> dr_entries r));
     ("totals", JObject [("added", n (dt_added t)); ("removed", n (dt_removed t)); ("changed", n (dt_changed t));
        ("confidenceDropped", n (dt_confidenceDropped t)); ("ambiguityIncreased", n (dt_ambiguityIncreased t))]);
     ("rawScreenshotsIncluded", JBool false); ("secretsIncluded", JBool false)].

(** The path written and the states of the disk while it is, a crash included. *)
Definition writeIntentDeltaReport (report : IntentDeltaReport) (destinationDir : string) (w : writer) (d : disk) : string * list disk :=
  let path := posix_join [destinationDir; INTENT_DELTA_REPORT_ARTIFACT_FILENAME] in
  (path, atomic_write_states path w (canonicalJson (intent_delta_json report)) d).

(** ** Maps and lists *)

(** The element a [Map] has under a key: the last one with the key. *)
Definition last_with {T} (key : T → string) (id : string) (xs : list T) : option T := last (filter (λ x, key x = id) xs).

Lemma map_from_spec {T} (key : T → string) xs :
  NoDup (map_from key xs).*1 ∧ (∀ id, map_get id (map_from key xs) = last_with key id xs) ∧
  ∀ id x, (id, x) ∈ map_from key xs → key x = id.
Proof.
  unfold map_from, last_with. induction xs as [|x xs (Hnd & Hg & Hk)] using rev_ind; [split_and!; [constructor|done|set_solver]|].
  rewrite foldl_snoc. assert (Hnd' := map_set_NoDup (key x) x _ Hnd). assert (Hg' : ∀ id, map_get id (map_set (key x) x (foldl (λ m x, map_set (key x) x m) [] xs)) = last (filter (λ x, key x = id) (xs ++ [x]))).
  { intros id. rewrite map_get_set, Hg, filter_app. simpl. rewrite filter_cons, filter_nil.
    case_bool_decide as E; case_decide as E'; try congruence; [by rewrite last_snoc|by rewrite app_nil_r]. }
  split_and!; [done|done|]. intros id y Hin. apply (map_get_unique _ _ _ Hnd') in Hin. rewrite Hg' in Hin.
  apply last_Some_elem_of in Hin. by apply list_elem_of_filter in Hin as [? _].
Qed.

(** In a map the entries of a key are the one it has. *)
Lemma filter_key {A} id (m : list (string * A)) : NoDup m.*1 →
  filter (λ e, e.1 = id) m = match map_get id m with Some v => [(id, v)] | None => [] end.
Proof.
  unfold map_get, find_by. induction m as [|[k v] m IH]; intros Hnd; [done|].
  apply NoDup_cons in Hnd as [Hk Hnd]. rewrite !filter_cons. case_decide as E; [|by apply IH]. simpl in E. subst k.
  specialize (IH Hnd). destruct (head (filter (λ x, x.1 = id) m)) as [e|] eqn:Hh; simpl in IH; [|by rewrite IH].
  exfalso. apply Hk. assert (He : (id, e.2) ∈ filter (λ x, x.1 = id) m) by (rewrite IH; left).
  apply list_elem_of_filter in He as [_ He]. by apply (list_elem_of_fmap_2 fst) in He.
Qed.

Lemma filter_fmap_key {A B} (f : A → B) (key : B → string) (keyA : A → string) id (l : list A) :
  (∀ x, x ∈ l → key (f x) = keyA x) → filter (λ y, key y = id) (f <$> l) = f <$> filter (λ x, keyA x = id) l.
Proof.
  induction l as [|x l IH]; intros Hk; [done|]. cbn [fmap list_fmap]. rewrite !filter_cons, IH by (intros; apply Hk; by right).
  rewrite (Hk x) by left. by case_decide.
Qed.

Lemma filter_omap_key {A B} (f : A → option B) (key : B → string) (keyA : A → string) id (l : list A) :
  (∀ x y, x ∈ l → f x = Some y → key y = keyA x) → filter (λ y, key y = id) (omap f l) = omap f (filter (λ x, keyA x = id) l).
Proof.
  induction l as [|x l IH]; intros Hk; [done|].
  assert (Homap : ∀ y m, omap f (y :: m) = match f y with Some z => z :: omap f m | None => omap f m end) by done.
  rewrite Homap, (filter_cons _ x).
  specialize (IH ltac:(intros; eapply Hk; [by right|done])). destruct (f x) as [y|] eqn:E; simpl.
  - rewrite filter_cons, (Hk x y) by (done || left). case_decide; [rewrite Homap, E; by f_equal|done].
  - case_decide; [by rewrite Homap, E|done].
Qed.

Lemma filter_comm {A} (P Q : A → Prop) `{∀ x, Decision (P x), ∀ x, Decision (Q x)} (l : list A) :
  filter P (filter Q l) = filter Q (filter P l).
Proof.
  induction l as [|x l IH]; [done|]. rewrite !filter_cons.
  destruct (decide (Q x)), (decide (P x)); rewrite ?filter_cons, ?decide_True, ?decide_False by done; by rewrite ?IH.
Qed.

(** A list has no key twice when no key has two members. *)
Lemma NoDup_by_key {A B} `{EqDecision B} (key : A → B) (l : list A) :
  (∀ k, (length (filter (λ x, key x = k) l) ≤ 1)%nat) → NoDup (key <$> l).
Proof.
  induction l as [|x l IH]; intros Hk; [constructor|]. cbn. constructor.
  - intros (y & Hy & Hin)%list_elem_of_fmap. specialize (Hk (key x)). rewrite filter_cons, decide_True in Hk by done. simpl in Hk.
    assert (y ∈ filter (λ z, key z = key x) l) as Hf by (by apply list_elem_of_filter).
    destruct (filter (λ z, key z = key x) l); [by apply elem_of_nil in Hf|]. simpl in Hk. lia.
  - apply IH. intros k. specialize (Hk k). rewrite filter_cons in Hk. case_decide; simpl in Hk; lia.
Qed.

(** ** What the loops over one collection report *)

Section collection_lemmas.
Context `{JsonDigest} {T} `{CollectionLike T} (kind : IntentDeltaKind).
Implicit Types prior current : list T.

Lemma filter_map_from (Q : string * T → Prop) `{∀ e, Decision (Q e)} id (l : list T) :
  filter (λ e, e.1 = id) (filter Q (map_from cl_id l)) =
  match last_with cl_id id l with Some x => if decide (Q (id, x)) then [(id, x)] else [] | None => [] end.
Proof.
  destruct (map_from_spec cl_id l) as (Hnd & Hg & _). rewrite filter_comm, filter_key, Hg by done.
  destruct (last_with cl_id id l) as [x|]; [|done]. rewrite filter_cons, filter_nil. by case_decide.
Qed.

Lemma elements_of_id changeType (f : T → option T) (g : T → option T) (Q : string * T → Prop) `{∀ e, Decision (Q e)} id (l : list T) :
  filter (λ e, de_elementId e = id) ((λ e, element_entry kind changeType e.2 (f e.2) (g e.2)) <$> filter Q (map_from cl_id l)) =
  (λ e, element_entry kind changeType e.2 (f e.2) (g e.2)) <$>
    match last_with cl_id id l with Some x => if decide (Q (id, x)) then [(id, x)] else [] | None => [] end.
Proof.
  rewrite <- filter_map_from. apply (filter_fmap_key _ de_elementId fst). intros [k x] [_ Hx]%list_elem_of_filter.
  destruct (map_from_spec cl_id l) as (_ & _ & Hk). simpl. by apply Hk in Hx.
Qed.

Lemma map_has_from id (l : list T) : map_has id (map_from cl_id l) = bool_decide (is_Some (last_with cl_id id l)).
Proof. unfold map_has. by rewrite (proj1 (proj2 (map_from_spec cl_id l))). Qed.

Lemma collection_spec prior current id :
  filter (λ e, de_elementId e = id) (appendCollectionDeltas kind prior current) =
  match last_with cl_id id prior, last_with cl_id id current with
  | None, None => []
  | None, Some c => [element_entry kind c_added c None (Some c)]
  | Some p, None => [element_entry kind c_removed p (Some p) None]
  | Some p, Some c => if bool_decide (element_hash p = element_hash c) then [] else [element_entry kind c_changed c (Some p) (Some c)]
  end.
Proof.
  unfold appendCollectionDeltas. rewrite !filter_app.
  rewrite (elements_of_id c_added (λ _, None) Some), (elements_of_id c_removed Some (λ _, None)). simpl. rewrite !map_has_from.
  destruct (map_from_spec cl_id current) as (Hnd & Hg & Hk).
  rewrite (filter_omap_key _ de_elementId fst).
  2: { intros [k x] y Hx Hy. unfold changed_element_entry in Hy. apply Hk in Hx. destruct (map_get _ _); simpl in *; [|done].
       case_bool_decide; simplify_eq/=. done. }
  rewrite filter_key, Hg by done.
  destruct (last_with cl_id id current) as [c|], (last_with cl_id id prior) as [p|] eqn:Hp; simpl; try done.
  all: unfold changed_element_entry; simpl; rewrite (proj1 (proj2 (map_from_spec cl_id prior))), Hp; simpl; try done.
  by case_bool_decide.
Qed.

Lemma collection_kind prior current e : e ∈ appendCollectionDeltas kind prior current → de_kind e = kind.
Proof.
  unfold appendCollectionDeltas. rewrite !elem_of_app, list_elem_of_omap, !list_elem_of_fmap.
  intros [(? & -> & _)|[(? & -> & _)|(x & _ & Hx)]]; [done..|].
  unfold changed_element_entry in Hx. destruct (map_get _ _); simpl in *; [|done]. case_bool_decide; by simplify_eq/=.
Qed.
End collection_lemmas.

(** A seed is read back from its canonical text. *)
Class CanonicalSeed T `{CollectionLike T} : Prop :=
  canonical_seed (x y : T) : canonicalJson (hashSeed x) = canonicalJson (hashSeed y) → hashSeed x = hashSeed y.

Ltac canonical_seed :=
  intros [] []; repeat match goal with o : option string |- _ => destruct o end;
  intros E; vm_compute in E; inversion E; by subst.

#[export] Instance screen_seed : CanonicalSeed BusinessTestIntentScreen.
Proof. canonical_seed. Qed.
#[export] Instance field_seed : CanonicalSeed DetectedField.
Proof. canonical_seed. Qed.
#[export] Instance action_seed : CanonicalSeed DetectedAction.
Proof. canonical_seed. Qed.
#[export] Instance validation_seed : CanonicalSeed DetectedValidation.
Proof. canonical_seed. Qed.
#[export] Instance navigation_seed : CanonicalSeed DetectedNavigation.
Proof. canonical_seed. Qed.

Lemma element_hash_inj `{JsonDigest} {T} `{CanonicalSeed T} (x y : T) :
  element_hash x = element_hash y → hashSeed x = hashSeed y ∨ digest_collision.
Proof.
  unfold element_hash, sha256Hex_json. intros E.
  destruct (decide (canonicalJson (hashSeed x) = canonicalJson (hashSeed y))) as [Hc|Hc]; [left; by apply canonical_seed|].
  right. by eexists _, _.
Qed.

(** ** The report *)

#[export] Instance compareDeltaEntries_ok : CmpOk compareDeltaEntries.
Proof. apply _. Qed.

(** The rows of a report about one element. *)
Definition reported (kind : IntentDeltaKind) (id : string) (report : IntentDeltaReport) : list IntentDeltaEntry :=
  filter (λ e, de_kind e = kind ∧ de_elementId e = id) (dr_entries report).

(** The rows about an element are the one change it underwent. *)
Definition element_reported `{JsonDigest} {T} `{CollectionLike T} (kind : IntentDeltaKind) (prior current : list T)
    (report : IntentDeltaReport) : Prop := ∀ id,
  match last_with cl_id id prior, last_with cl_id id current with
  | None, None => reported kind id report = []
  | None, Some c => reported kind id report = [element_entry kind c_added c None (Some c)]
  | Some p, None => reported kind id report = [element_entry kind c_removed p (Some p) None]
  | Some p, Some c =>
      reported kind id report = [] ∧ (hashSeed p = hashSeed c ∨ digest_collision) ∨
      reported kind id report = [element_entry kind c_changed c (Some p) (Some c)] ∧ hashSeed p ≠ hashSeed c
  end.

(** The rows about a screen that was looked at. *)
Definition visual_reported `{JsonDigest} (options : ComputeIntentDeltaOptions) (threshold : Q) (report : IntentDeltaReport) : Prop := ∀ id,
  let p := last_with vd_screenId id (io_priorVisual options) in
  let c := last_with vd_screenId id (io_currentVisual options) in
  let before := is_Some p ∨ is_Some (io_priorFixtureHashes options !! id) in
  let after := is_Some c ∨ is_Some (io_currentFixtureHashes options !! id) in
  let projection d f := canonicalJson (projectVisualForHash d (f !! id)) in
  let types := de_changeType <$> reported k_visual_screen id report in
  (c_added ∈ types ↔ after ∧ ¬ before) ∧
  (c_removed ∈ types ↔ before ∧ ¬ after) ∧
  (c_changed ∈ types → before ∧ after ∧ projection p (io_priorFixtureHashes options) ≠ projection c (io_currentFixtureHashes options)) ∧
  (before → after → c_changed ∉ types →
     projection p (io_priorFixtureHashes options) = projection c (io_currentFixtureHashes options) ∨ digest_collision) ∧
  (c_confidence_dropped ∈ types ↔ ∃ d d', p = Some d ∧ c = Some d' ∧ (threshold <= vd_mean d - vd_mean d')%Q) ∧
  (c_ambiguity_increased ∈ types ↔ before ∧ after ∧ (ambiguityCount p < ambiguityCount c)%nat).

Section report.
Context `{JsonDigest}.

Lemma visual_delta_entry options threshold id e :
  e ∈ visual_delta options threshold id → de_kind e = k_visual_screen ∧ de_elementId e = id.
Proof.
  unfold visual_delta, appendVisualDeltaForScreen. intros Hin.
  repeat case_match; repeat (apply elem_of_app in Hin as [Hin|Hin]); repeat case_bool_decide;
    by repeat (apply elem_of_cons in Hin as [->|Hin] || apply elem_of_nil in Hin).
Qed.

(** A screen nobody described has no row. *)
Lemma visual_delta_unknown options threshold id : id ∉ visual_screens options → visual_delta options threshold id = [].
Proof.
  unfold visual_screens. rewrite elem_of_js_sort, elem_of_set_of, !elem_of_app. intros Hid. unfold visual_delta.
  destruct (map_get id (visualScreenIndex (io_priorVisual options))) eqn:E1; [exfalso; apply Hid; left; by apply map_get_is_Some|].
  destruct (map_get id (visualScreenIndex (io_currentVisual options))) eqn:E2; [exfalso; apply Hid; right; left; by apply map_get_is_Some|].
  destruct (io_priorFixtureHashes options !! id) eqn:E3; [exfalso; apply Hid; right; right; left; by apply elem_of_map_to_list, (list_elem_of_fmap_2 fst) in E3|].
  destruct (io_currentFixtureHashes options !! id) eqn:E4; [exfalso; apply Hid; right; right; right; by apply elem_of_map_to_list, (list_elem_of_fmap_2 fst) in E4|].
  unfold appendVisualDeltaForScreen. rewrite !bool_decide_eq_false_2 by (by intros [[]|[]]). simpl. by rewrite bool_decide_eq_true_2.
Qed.

Lemma filter_bind_key {A} (f : A → list IntentDeltaEntry) (key : A → string) id (l : list A) :
  (∀ x e, e ∈ f x → de_elementId e = key x) →
  filter (λ e, de_elementId e = id) (l ≫= f) = filter (λ x, key x = id) l ≫= f.
Proof.
  intros Hf. induction l as [|x l IH]; [done|]. rewrite bind_cons, filter_app, filter_cons, IH.
  assert (Hx : filter (λ e, de_elementId e = id) (f x) = if decide (key x = id) then f x else []).
  { specialize (Hf x). induction (f x) as [|e es IHe]; [by case_decide|]. rewrite filter_cons, IHe by (intros; apply Hf; by right).
    rewrite (Hf e) by left. by case_decide. }
  rewrite Hx. by case_decide.
Qed.

Lemma visual_spec options threshold id :
  filter (λ e, de_elementId e = id) (appendVisualDeltas options threshold) = visual_delta options threshold id.
Proof.
  unfold appendVisualDeltas. rewrite (filter_bind_key _ (λ x, x)) by (intros x e He; by apply visual_delta_entry in He as [_ ?]).
  destruct (decide (id ∈ visual_screens options)) as [Hin|Hno].
  - assert (Hnd : NoDup (visual_screens options)) by apply NoDup_js_sort, NoDup_set_of.
    induction Hnd as [|x l Hx Hnd IH]; [by apply elem_of_nil in Hin|]. rewrite filter_cons. case_decide as E.
    + subst x. rewrite bind_cons. assert (Hno : filter (λ x, x = id) l = []); [|by rewrite Hno, app_nil_r].
      clear -Hx. induction l as [|y l IH]; [done|]. rewrite filter_cons. case_decide; [subst; set_solver|apply IH; set_solver].
    + apply IH. by apply elem_of_cons in Hin as [->|?].
  - rewrite visual_delta_unknown by done. induction (visual_screens options) as [|y l IH]; [done|].
    rewrite filter_cons. case_decide; [subst; set_solver|apply IH; set_solver].
Qed.
End report.

Section theorems.
Context `{JsonDigest}.
Implicit Types (prior current : BusinessTestIntentIr) (options : ComputeIntentDeltaOptions).

Lemma filter_kind k k' (l : list IntentDeltaEntry) :
  (∀ e, e ∈ l → de_kind e = k) → filter (λ e, de_kind e = k') l = if decide (k = k') then l else [].
Proof.
  intros Hk. induction l as [|e l IH]; [by case_decide|]. rewrite filter_cons, IH, (Hk e) by (left || (intros; apply Hk; by right)).
  by case_decide.
Qed.

(** The loop that reports a kind. *)
Definition loop_of (k : IntentDeltaKind) prior current options (threshold : Q) : list IntentDeltaEntry :=
  match k with
  | k_screen => appendScreenDeltas prior current
  | k_field => appendCollectionDeltas k_field (ir_detectedFields prior) (ir_detectedFields current)
  | k_action => appendCollectionDeltas k_action (ir_detectedActions prior) (ir_detectedActions current)
  | k_validation => appendCollectionDeltas k_validation (ir_detectedValidations prior) (ir_detectedValidations current)
  | k_navigation => appendCollectionDeltas k_navigation (ir_detectedNavigation prior) (ir_detectedNavigation current)
  | k_visual_screen => appendVisualDeltas options threshold
  end.

Lemma entries_of k prior current options threshold :
  filter (λ e, de_kind e = k) (delta_entries prior current options threshold) = loop_of k prior current options threshold.
Proof.
  assert (Hvisual : ∀ e, e ∈ appendVisualDeltas options threshold → de_kind e = k_visual_screen).
  { intros e (id & He & _)%list_elem_of_bind. by apply visual_delta_entry in He as [? _]. }
  unfold delta_entries, appendScreenDeltas. rewrite !filter_app.
  rewrite !(filter_kind _ k) by (apply collection_kind || apply Hvisual).
  destruct k; simpl; by rewrite ?app_nil_r.
Qed.

Lemma reported_perm k id input report :
  computeIntentDelta input = Ok report →
  reported k id report ≡ₚ filter (λ e, de_elementId e = id)
    (loop_of k (ii_prior input) (ii_current input) (default no_options (ii_options input)) (drift_threshold input)).
Proof.
  unfold computeIntentDelta. intros (_ & [= <-])%outcome_then_Ok. unfold reported. cbn [dr_entries].
  rewrite js_sort_Permutation, <- entries_of, list_filter_filter.
  erewrite list_filter_iff; [reflexivity|]. intros e. simpl. tauto.
Qed.

Lemma perm_short {A} (l l' : list A) : l ≡ₚ l' → (length l' ≤ 1)%nat → l = l'.
Proof.
  intros Hp Hl. destruct l' as [|x [|]]; simpl in Hl; [by apply Permutation_nil_r in Hp|by apply Permutation_singleton_r in Hp|lia].
Qed.

Lemma collection_reported {T} `{CanonicalSeed T} k (prior current : list T) report :
  (∀ id, reported k id report ≡ₚ filter (λ e, de_elementId e = id) (appendCollectionDeltas k prior current)) →
  element_reported k prior current report.
Proof.
  intros Hr id. specialize (Hr id). rewrite collection_spec in Hr.
  destruct (last_with cl_id id prior) as [p|], (last_with cl_id id current) as [c|];
    [case_bool_decide as E|..]; apply perm_short in Hr; try (simpl; lia); try done.
  - left. split; [done|]. by apply element_hash_inj.
  - right. split; [done|]. intros Es. apply E. unfold element_hash. by rewrite Es.
Qed.
End theorems.

Section visual_theorems.
Context `{JsonDigest}.

Lemma changed_row x id (hp hc : string) :
  x ∈ de_changeType <$> (if bool_decide (hp = hc) then [] else [visual_entry c_changed id (Some hp) (Some hc) None]) ↔ x = c_changed ∧ hp ≠ hc.
Proof. case_bool_decide; simpl; rewrite ?elem_of_nil, ?list_elem_of_singleton; naive_solver. Qed.

Lemma dropped_row x id (p c : option VisualScreenDescription) threshold :
  x ∈ de_changeType <$>
    match meanConfidence p, meanConfidence c with
    | Some priorMean, Some currentMean =>
        if Qle_bool threshold (priorMean - currentMean)
        then [visual_entry c_confidence_dropped id None None (Some ("mean " +:+ to_fixed3 priorMean +:+ " -> " +:+ to_fixed3 currentMean))]
        else []
    | _, _ => []
    end ↔ x = c_confidence_dropped ∧ ∃ d d', p = Some d ∧ c = Some d' ∧ (threshold <= vd_mean d - vd_mean d')%Q.
Proof.
  destruct p as [d|], c as [d'|]; simpl; [|rewrite elem_of_nil; naive_solver..].
  destruct (Qle_bool threshold (vd_mean d - vd_mean d')) eqn:E; simpl.
  - apply Qle_bool_iff in E. rewrite list_elem_of_singleton. split; [intros ->|by intros [-> _]]. split; [done|]. by exists d, d'.
  - rewrite elem_of_nil. split; [done|]. intros (_ & ? & ? & [= <-] & [= <-] & Hle%Qle_bool_iff). congruence.
Qed.

Lemma ambiguity_row x id (n m : nat) detail :
  x ∈ de_changeType <$> (if (n <? m)%nat then [visual_entry c_ambiguity_increased id None None detail] else []) ↔
  x = c_ambiguity_increased ∧ (n < m)%nat.
Proof. destruct (Nat.ltb_spec n m); simpl; rewrite ?elem_of_nil, ?list_elem_of_singleton; naive_solver lia. Qed.

(** What the rows of a screen are, by what is known of it before and after. *)
Lemma screen_rows id p c f g threshold :
  let before := is_Some p ∨ is_Some f in
  let after := is_Some c ∨ is_Some g in
  let types := de_changeType <$> appendVisualDeltaForScreen id p c f g threshold in
  (c_added ∈ types ↔ after ∧ ¬ before) ∧ (c_removed ∈ types ↔ before ∧ ¬ after) ∧
  (c_changed ∈ types ↔ (before ↔ after) ∧ sha256Hex_json (projectVisualForHash p f) ≠ sha256Hex_json (projectVisualForHash c g)) ∧
  (c_confidence_dropped ∈ types ↔ ∃ d d', p = Some d ∧ c = Some d' ∧ (threshold <= vd_mean d - vd_mean d')%Q) ∧
  (c_ambiguity_increased ∈ types ↔ before ∧ after ∧ (ambiguityCount p < ambiguityCount c)%nat).
Proof.
  cbv zeta. unfold appendVisualDeltaForScreen.
  set (hp := sha256Hex_json (projectVisualForHash p f)). set (hc := sha256Hex_json (projectVisualForHash c g)).
  destruct (bool_decide_reflect (is_Some p ∨ is_Some f)) as [Hb|Hb], (bool_decide_reflect (is_Some c ∨ is_Some g)) as [Ha|Ha]; simpl.
  2,3: rewrite !list_elem_of_singleton; split_and!; naive_solver.
  - rewrite !fmap_app, !elem_of_app.
    rewrite !changed_row, !dropped_row, !ambiguity_row. split_and!; naive_solver.
  - assert (p = None) as -> by (destruct p; naive_solver). assert (c = None) as -> by (destruct c; naive_solver).
    assert (f = None) as -> by (destruct f; naive_solver). assert (g = None) as -> by (destruct g; naive_solver).
    subst hp hc. rewrite bool_decide_eq_true_2 by done. simpl. split_and!; try (split; [by intros ?%elem_of_nil|]); naive_solver.
Qed.
End visual_theorems.

(** ** No row twice *)

Section strict_order.
Context `{JsonDigest}.

Definition row_key (e : IntentDeltaEntry) : IntentDeltaKind * string * IntentDeltaChangeType := (de_kind e, de_elementId e, de_changeType e).

Lemma compare_Eq_key a b : compareDeltaEntries a b = Eq → row_key a = row_key b.
Proof.
  unfold compareDeltaEntries, cmp_then, cmp_on, row_key. simpl.
  destruct (KIND_ORDER (de_kind a) ?= KIND_ORDER (de_kind b)) eqn:E1; [|done..].
  destruct (String.compare (de_elementId a) (de_elementId b)) eqn:E2; [|done..].
  intros E3%Z.compare_eq. apply Z.compare_eq in E1. apply String.compare_eq_iff in E2.
  f_equal; [f_equal|]; [by destruct (de_kind a), (de_kind b)|done|by destruct (de_changeType a), (de_changeType b)].
Qed.

Lemma screen_rows_NoDup id p c f g threshold : NoDup (de_changeType <$> appendVisualDeltaForScreen id p c f g threshold).
Proof.
  unfold appendVisualDeltaForScreen. cbv zeta.
  do 2 match goal with |- context [if ?b && ?b' then _ else _] => destruct (b && b'); [apply NoDup_singleton|] end. rewrite !fmap_app. apply NoDup_app. split_and!.
  - case_bool_decide; simpl; [apply NoDup_nil_2|apply NoDup_singleton].
  - intros x [-> _]%changed_row [[? _]%dropped_row|[? _]%ambiguity_row]%elem_of_app; done.
  - apply NoDup_app. split_and!.
    + repeat case_match; simpl; (apply NoDup_nil_2 || apply NoDup_singleton).
    + intros x [-> _]%dropped_row [? _]%ambiguity_row; done.
    + case_match; simpl; (apply NoDup_nil_2 || apply NoDup_singleton).
Qed.

Lemma reported_NoDup k id input report :
  computeIntentDelta input = Ok report → NoDup (de_changeType <$> reported k id report).
Proof.
  intros Hr. rewrite (reported_perm k id _ _ Hr). unfold loop_of, appendScreenDeltas.
  destruct k; try (rewrite collection_spec; repeat case_match; simpl; (apply NoDup_nil_2 || apply NoDup_singleton)).
  rewrite visual_spec. apply screen_rows_NoDup.
Qed.

Lemma count_by_key {A B} (key : A → B) `{EqDecision B} (l : list A) x : NoDup (key <$> l) → (length (filter (λ y, key y = x) l) ≤ 1)%nat.
Proof.
  intros Hnd. induction l as [|y l IH]; simpl; [lia|]. apply NoDup_cons in Hnd as [Hy Hnd]. rewrite filter_cons. case_decide as E; [|by apply IH].
  simpl. assert (Hno : filter (λ y, key y = x) l = []); [|rewrite Hno; simpl; lia]. clear IH Hnd. subst x.
  induction l as [|z l IH]; [done|]. rewrite filter_cons. case_decide as E; [exfalso; apply Hy; simpl; rewrite E; left|].
  apply IH. intros Hin. apply Hy. by right.
Qed.

Lemma entries_strict input report :
  computeIntentDelta input = Ok report → StronglySorted (λ a b, compareDeltaEntries a b = Lt) (dr_entries report).
Proof.
  intros Hr. assert (Hnd : NoDup (row_key <$> dr_entries report)).
  { apply NoDup_by_key. intros [[k id] ch]. pose proof (count_by_key de_changeType _ ch (reported_NoDup k id _ _ Hr)) as Hc.
    unfold reported in Hc. rewrite list_filter_filter in Hc.
    erewrite (list_filter_iff _ (λ e, row_key e = (k, id, ch))) in Hc; [exact Hc|]. intros e. unfold row_key. simpl. split; naive_solver. }
  assert (Hs : StronglySorted (cmp_le compareDeltaEntries) (dr_entries report)).
  { unfold computeIntentDelta in Hr. apply outcome_then_Ok in Hr as [_ [= <-]]. apply js_sort_sorted, _. }
  clear Hr. induction Hs as [|a l Hs IH Ha]; [constructor|]. apply NoDup_cons in Hnd as [Hn Hnd].
  constructor; [by apply IH|]. rewrite list.Forall_forall in Ha |- *. intros b Hb. specialize (Ha b Hb). unfold cmp_le in Ha.
  destruct (compareDeltaEntries a b) eqn:E; [|done|done]. exfalso. apply Hn. rewrite (compare_Eq_key a b E). by apply list_elem_of_fmap_2.
Qed.

Lemma totals_add_up (l : list IntentDeltaEntry) :
  let t := computeTotals l in
  length l = (dt_added t + dt_removed t + dt_changed t + dt_confidenceDropped t + dt_ambiguityIncreased t)%nat.
Proof.
  unfold computeTotals. simpl. induction l as [|e l IH]; [done|]. rewrite !filter_cons. simpl.
  destruct (de_changeType e); simpl; rewrite IH; lia.
Qed.

Lemma nothing_known {A B} (o : option A) (o' : option B) : ¬ (is_Some o ∨ is_Some o') → o = None ∧ o' = None.
Proof. destruct o, o'; naive_solver. Qed.

Lemma visual_report input report :
  computeIntentDelta input = Ok report →
  visual_reported (default no_options (ii_options input)) (drift_threshold input) report.
Proof.
  intros Hr id p c before after projection types.
  pose proof (reported_perm k_visual_screen id _ _ Hr) as Hp. cbn [loop_of] in Hp. rewrite visual_spec in Hp.
  assert (Ht : ∀ x, x ∈ types ↔ x ∈ de_changeType <$> visual_delta (default no_options (ii_options input)) (drift_threshold input) id).
  { intros x. subst types. by rewrite Hp. }
  unfold visual_delta, visualScreenIndex in Ht. rewrite !(proj1 (proj2 (map_from_spec vd_screenId _))) in Ht.
  match type of Ht with ∀ x, _ ↔ x ∈ _ <$> appendVisualDeltaForScreen _ ?d ?d' ?f ?g ?th => pose proof (screen_rows id d d' f g th) as Hs end.
  cbv zeta in Hs. rewrite <- !Ht in Hs. destruct Hs as (Ha & Hrm & Hc & Hd & Ham). split_and!; [exact Ha|exact Hrm| | |exact Hd|exact Ham].
  - intros [Hba Hne]%Hc. assert (Hb : before).
    { destruct (decide before) as [|Hb]; [done|exfalso]. apply Hne. assert (Ha' : ¬ after) by (intros Ha'; apply Hb, Hba, Ha').
      destruct (nothing_known _ _ Hb) as [E1 E2], (nothing_known _ _ Ha') as [E3 E4]. subst p c. by rewrite E1, E2, E3, E4. }
    split_and!; [done|by apply Hba|]. intros E. apply Hne. exact (f_equal json_digest E).
  - intros Hb Haf Hno. destruct (decide (projection p (io_priorFixtureHashes (default no_options (ii_options input))) =
      projection c (io_currentFixtureHashes (default no_options (ii_options input))))) as [|Hne]; [by left|right].
    exists (projection p (io_priorFixtureHashes (default no_options (ii_options input)))), (projection c (io_currentFixtureHashes (default no_options (ii_options input)))).
    split; [done|]. apply dec_stable. intros Hd'. apply Hno, Hc. split; [split; intros _; [exact Haf|exact Hb]|exact Hd'].
Qed.

(** What the delta says of the five kinds of elements. *)
Lemma elements_reported input report :
  computeIntentDelta input = Ok report →
  element_reported k_screen (ir_screens (ii_prior input)) (ir_screens (ii_current input)) report ∧
  element_reported k_field (ir_detectedFields (ii_prior input)) (ir_detectedFields (ii_current input)) report ∧
  element_reported k_action (ir_detectedActions (ii_prior input)) (ir_detectedActions (ii_current input)) report ∧
  element_reported k_validation (ir_detectedValidations (ii_prior input)) (ir_detectedValidations (ii_current input)) report ∧
  element_reported k_navigation (ir_detectedNavigation (ii_prior input)) (ir_detectedNavigation (ii_current input)) report.
Proof.
  intros Hr. split_and!; apply collection_reported; intros id.
  - exact (reported_perm k_screen id _ _ Hr).
  - exact (reported_perm k_field id _ _ Hr).
  - exact (reported_perm k_action id _ _ Hr).
  - exact (reported_perm k_validation id _ _ Hr).
  - exact (reported_perm k_navigation id _ _ Hr).
Qed.

(** What the delta says of the elements of a kind: added or removed when one intent has
    the element; changed when its hashed properties differ; nothing when it is the same
    in all properties. *)
Definition element_rows {T} `{CollectionLike T} (kind : IntentDeltaKind) (prior current : list T)
    (report : IntentDeltaReport) : Prop := ∀ id,
  match last_with cl_id id prior, last_with cl_id id current with
  | None, None => reported kind id report = []
  | None, Some c => reported kind id report = [element_entry kind c_added c None (Some c)]
  | Some p, None => reported kind id report = [element_entry kind c_removed p (Some p) None]
  | Some p, Some c =>
      (hashSeed p ≠ hashSeed c → reported kind id report = [element_entry kind c_changed c (Some p) (Some c)] ∨ digest_collision) ∧
      (p = c → reported kind id report = [])
  end.

Lemma element_rows_of {T} `{CollectionLike T} kind (prior current : list T) report :
  element_reported kind prior current report → element_rows kind prior current report.
Proof.
  intros Hr id. specialize (Hr id). destruct (last_with cl_id id prior) as [p|], (last_with cl_id id current) as [c|]; try done.
  split.
  - intros Hne. destruct Hr as [[_ [?|?]]|[? _]]; [done|by right|by left].
  - intros ->. by destruct Hr as [[? _]|[_ ?]].
Qed.

(** What the delta says of a screen that was looked at; of added and removed when both
    sides or neither have a picture of it. *)
Definition visual_rows (options : ComputeIntentDeltaOptions) (threshold : Q) (report : IntentDeltaReport) : Prop := ∀ id,
  let p := last_with vd_screenId id (io_priorVisual options) in
  let c := last_with vd_screenId id (io_currentVisual options) in
  let before := is_Some p ∨ is_Some (io_priorFixtureHashes options !! id) in
  let after := is_Some c ∨ is_Some (io_currentFixtureHashes options !! id) in
  let projection d f := canonicalJson (projectVisualForHash d (f !! id)) in
  let types := de_changeType <$> reported k_visual_screen id report in
  ((is_Some (io_priorFixtureHashes options !! id) ↔ is_Some (io_currentFixtureHashes options !! id)) →
     (c_added ∈ types ↔ after ∧ ¬ before) ∧ (c_removed ∈ types ↔ before ∧ ¬ after)) ∧
  (before → after →
     (c_changed ∈ types → projection p (io_priorFixtureHashes options) ≠ projection c (io_currentFixtureHashes options)) ∧
     (projection p (io_priorFixtureHashes options) ≠ projection c (io_currentFixtureHashes options) →
        c_changed ∈ types ∨ digest_collision)) ∧
  (∀ d d', p = Some d → c = Some d' → (threshold < vd_mean d - vd_mean d')%Q → c_confidence_dropped ∈ types) ∧
  (c_confidence_dropped ∈ types → ∃ d d', p = Some d ∧ c = Some d' ∧ (threshold <= vd_mean d - vd_mean d')%Q) ∧
  (c_ambiguity_increased ∈ types ↔ before ∧ after ∧ (ambiguityCount p < ambiguityCount c)%nat).

Lemma visual_rows_of options threshold report : visual_reported options threshold report → visual_rows options threshold report.
Proof.
  intros Hr id. specialize (Hr id). cbv zeta in *. destruct Hr as (Ha & Hrm & Hc & Hn & Hd & Ham).
  split; [done|]. split; [|split; [|split; [|done]]].
  - intros Hb Haf. split; [by intros (_ & _ & ?)%Hc|]. intros Hne. destruct (decide (c_changed ∈ de_changeType <$> reported k_visual_screen id report)) as [|Hno]; [by left|].
    right. by destruct (Hn Hb Haf Hno).
  - intros d d' Hp Hcu Hlt. apply Hd. exists d, d'. split_all; [done|done|]. by apply Qlt_le_weak.
  - apply Hd.
Qed.

(** C26. The delta is complete. The entries are strictly ordered by kind, element and
    change. A screen, field, action, validation or navigation that only one of the
    intents has, gets one entry, which says added or removed; one that both have gets one
    that says changed when its hashed properties differ (unless the digest collides),
    and none when nothing differs. A screen that was looked at is added or removed when
    only one side knows it, as far as its picture is given for both sides or for
    neither; changed when both sides know it and differ; its confidence dropped when the mean
    fell by more than the threshold and only when it fell by as much (in exact
    arithmetic); its ambiguity increased when more regions are ambiguous. The totals
    add up. *)
Theorem delta_reports_every_change input report :
  computeIntentDelta input = Ok report →
  let options := default no_options (ii_options input) in
  let prior := ii_prior input in
  let current := ii_current input in
  let t := dr_totals report in
  StronglySorted (λ a b, compareDeltaEntries a b = Lt) (dr_entries report) ∧
  element_rows k_screen (ir_screens prior) (ir_screens current) report ∧
  element_rows k_field (ir_detectedFields prior) (ir_detectedFields current) report ∧
  element_rows k_action (ir_detectedActions prior) (ir_detectedActions current) report ∧
  element_rows k_validation (ir_detectedValidations prior) (ir_detectedValidations current) report ∧
  element_rows k_navigation (ir_detectedNavigation prior) (ir_detectedNavigation current) report ∧
  visual_rows options (drift_threshold input) report ∧
  length (dr_entries report) = (dt_added t + dt_removed t + dt_changed t + dt_confidenceDropped t + dt_ambiguityIncreased t)%nat.
Proof.
  intros Hr. cbv zeta. destruct (elements_reported _ _ Hr) as (H1 & H2 & H3 & H4 & H5).
  split_and!; [by eapply entries_strict|by apply element_rows_of..|by apply visual_rows_of, visual_report|].
  unfold computeIntentDelta in Hr. apply outcome_then_Ok in Hr as [_ [= <-]]. apply totals_add_up.
Qed.
End strict_order.

(** ** Examples *)

(** A digest that tells one text from all others. *)
Definition marking_digest (mark : json) : JsonDigest.
Proof.
  refine {| json_digest v := if json_eqb v mark then "1111111111111111111111111111111111111111111111111111111111111111"
                             else "0000000000000000000000000000000000000000000000000000000000000000" |}.
  intros v. destruct (json_eqb v mark); reflexivity.
Defined.

Definition demo_screen (id : string) : BusinessTestIntentScreen :=
  {| bs_screenId := id; bs_screenName := "Login"; bs_screenPath := None; bs_others := [] |}.
Definition demo_field (id screenId label : string) : DetectedField :=
  {| df_id := id; df_screenId := screenId; df_label := label; df_type := "text"; df_defaultValue := None; df_ambiguity := None; df_others := [] |}.
Definition demo_action (id : string) : DetectedAction :=
  {| da_id := id; da_screenId := "s1"; da_label := "Send"; da_kind := "button"; da_ambiguity := None; da_others := [] |}.

Definition demo_intent (screens : list string) (fields : list DetectedField) (actions : list DetectedAction) : BusinessTestIntentIr :=
  {| ir_screens := demo_screen <$> screens; ir_detectedFields := fields; ir_detectedActions := actions;
     ir_detectedValidations := []; ir_detectedNavigation := []; ir_others := [] |}.

Definition demo_input (prior current : BusinessTestIntentIr) (options : option ComputeIntentDeltaOptions) : ComputeIntentDeltaInput :=
  {| ii_jobId := "job"; ii_generatedAt := "2026-01-01T00:00:00Z"; ii_prior := prior; ii_current := current; ii_options := options |}.

Definition rows_of (r : outcome IntentDeltaError IntentDeltaReport) : list (IntentDeltaKind * string * IntentDeltaChangeType) :=
  match r with Ok report => row_key <$> dr_entries report | Throw _ => [] end.

Definition demo_delta : outcome IntentDeltaError IntentDeltaReport :=
  @computeIntentDelta (marking_digest (canonicalJson (fieldHashSeed (demo_field "f1" "s1" "Mail"))))
    (demo_input (demo_intent ["s1"; "s2"] [demo_field "f1" "s1" "Name"; demo_field "f2" "s1" "City"] [])
                (demo_intent ["s1"; "s3"] [demo_field "f1" "s1" "Mail"; demo_field "f2" "s1" "City"] [demo_action "a1"]) None).

Lemma delta_reports_every_change_witness :
  rows_of demo_delta = [(k_action, "a1", c_added); (k_field, "f1", c_changed); (k_screen, "s2", c_removed); (k_screen, "s3", c_added)] ∧
  ∃ report, demo_delta = Ok report ∧ reported k_field "f2" report = [] ∧ length (dr_entries report) = 4%nat.
Proof.
  split; [vm_compute; reflexivity|].
  assert (Hrun : ∃ report, demo_delta = Ok report ∧ length (dr_entries report) = 4%nat) by (eexists; split; vm_compute; reflexivity).
  destruct Hrun as (report & Hrun & Hlen). exists report. split; [exact Hrun|].
  destruct (delta_reports_every_change _ _ Hrun) as (_ & _ & Hfields & _). split; [|exact Hlen].
  specialize (Hfields "f2"). vm_compute in Hfields. vm_compute. exact (proj2 Hfields eq_refl).
Defined.

Example threshold_is_checked :
  @computeIntentDelta zero_digest (demo_input (demo_intent [] [] []) (demo_intent [] [] [])
    (Some {| io_visualConfidenceDriftThreshold := Some (2 # 1); io_priorFixtureHashes := ∅; io_currentFixtureHashes := ∅;
             io_priorVisual := []; io_currentVisual := [] |})) = Throw bad_drift_threshold.
Proof. vm_compute. reflexivity. Qed.

(** A field that moves to another screen is no change, whatever the digest. *)
Lemma moved_field_is_not_reported `{JsonDigest} :
  rows_of (computeIntentDelta (demo_input (demo_intent ["s1"; "s2"] [demo_field "f1" "s1" "Name"] [])
                                          (demo_intent ["s1"; "s2"] [demo_field "f1" "s2" "Name"] []) None)) = [].
Proof.
  unfold rows_of, computeIntentDelta. cbn [ii_options demo_input drift_threshold default].
  set (l := delta_entries _ _ _ _). assert (El : l = []); [|by rewrite El].
  subst l. unfold delta_entries, appendScreenDeltas, appendCollectionDeltas, appendVisualDeltas, visual_screens, visualScreenIndex, map_from. simpl.
  unfold changed_element_entry, element_hash. simpl. by rewrite !bool_decide_eq_true_2.
Qed.

Definition demo_visual (mean : Q) : VisualScreenDescription :=
  {| vd_screenId := "s1"; vd_sidecarDeployment := "vision"; vd_regions := []; vd_min := mean; vd_max := mean; vd_mean := mean;
     vd_screenName := None; vd_capturedAt := None; vd_piiFlags := None |}.

Definition with_visuals (threshold : option Q) (prior current : Q) : ComputeIntentDeltaOptions :=
  {| io_visualConfidenceDriftThreshold := threshold; io_priorFixtureHashes := ∅; io_currentFixtureHashes := ∅;
     io_priorVisual := [demo_visual prior]; io_currentVisual := [demo_visual current] |}.

(** A drop of exactly the threshold counts; with the threshold 0, which is accepted, a
    confidence that stayed the same has dropped. *)
Lemma no_drop_is_a_drop :
  rows_of (@computeIntentDelta zero_digest
    (demo_input (demo_intent [] [] []) (demo_intent [] [] []) (Some (with_visuals (Some 0%Q) (9 # 10) (9 # 10))))) =
  [(k_visual_screen, "s1", c_confidence_dropped)].
Proof. vm_compute. reflexivity. Qed.

(** A picture only the current revision has, of a screen without descriptions. *)
Lemma new_picture_is_added :
  rows_of (@computeIntentDelta zero_digest
    (demo_input (demo_intent [] [] []) (demo_intent [] [] [])
       (Some {| io_visualConfidenceDriftThreshold := None; io_priorFixtureHashes := ∅; io_currentFixtureHashes := {["s1" := "abc"]};
                io_priorVisual := []; io_currentVisual := [] |}))) =
  [(k_visual_screen, "s1", c_added)].
Proof. vm_compute. reflexivity. Qed.

Example mean_detail : to_fixed3 (7 # 8) = "0.875" ∧ to_fixed3 (1 # 2) = "0.500" ∧ to_fixed3 (- (1 # 3)) = "-0.333" ∧ to_fixed3 (2 # 2001) = "0.001".
Proof. vm_compute. split_and!; reflexivity. Qed.
