(* ===== verification/TestCaseDelta.v ===== *)
(** * Duplicates and delta of generated test cases

    [packages/core-engine/src/test-case-duplicate.ts] (fingerprints and pairs that are too
    similar) and [packages/core-engine/src/test-case-delta.ts] (the verdict on every case
    of two generations, given the delta of the intents).

    Of a test case the properties the two modules read are kept: its steps are their
    actions, its traces their screens. Strings are code units below 256, for which the
    categories P and S of the regular expression are written out. *)

From Stdlib Require Import Ascii.
From S2P Require Import Prelude JsString NodePath JsList JsValue CanonicalJson Contracts.
From S2P Require Import ArtifactFiles CaseMerger IntentDelta.

(** ** Fingerprints *)

Record GeneratedTestCase := {
  gt_id : string;
  gt_title : string;
  gt_type : string;
  gt_riskCategory : string;
  gt_stepActions : list string;
  gt_traceScreens : list string;
  gt_qualitySignals : GeneratedTestCaseQualitySignals;
}.

Definition SHINGLE_SIZE : nat := 3.

(** [\p{P}] and [\p{S}] *)
Definition is_punctuation_or_symbol (c : ascii) : bool :=
  let n := nat_of_ascii c in
  existsb (λ '(a, b), ((a <=? n) && (n <=? b))%nat)
    [(33, 47); (58, 64); (91, 96); (123, 126); (161, 169); (171, 172); (174, 177); (180, 180); (182, 184); (187, 187);
     (191, 191); (215, 215); (247, 247)]%nat.

(** [s.replace(/[...]+/g, " ")] *)
Fixpoint replace_runs (p : ascii → bool) (in_run : bool) (s : string) : string :=
  match s with
  | EmptyString => EmptyString
  | String c r =>
      if p c then (if in_run then replace_runs p true r else String " "%char (replace_runs p true r))
      else String c (replace_runs p false r)
  end.

Definition normaliseString (input : string) : string :=
  trim (replace_runs is_space false (replace_runs is_punctuation_or_symbol false (to_lower input))).

Definition toShingles (input : string) : list string :=
  if (String.length input =? 0)%nat then []
  else if (String.length input <=? SHINGLE_SIZE)%nat then [input]
  else (λ i, String.substring i SHINGLE_SIZE input) <$> seq 0 (String.length input - SHINGLE_SIZE + 1).

Definition step_tokens (action : string) : list string :=
  (λ t, "step::" +:+ t) <$> filter (λ t, t ≠ "") (split_on " "%char (normaliseString action)).

Definition buildTestCaseFingerprint (testCase : GeneratedTestCase) : list string :=
  set_of (((λ s, "title::" +:+ s) <$> toShingles (normaliseString (gt_title testCase))) ++
          (gt_stepActions testCase ≫= step_tokens) ++
          ((λ s, "trace::" +:+ s) <$> gt_traceScreens testCase) ++
          ["type::" +:+ gt_type testCase; "risk::" +:+ gt_riskCategory testCase]).

(** ** Duplicates *)

Definition coverageTargetIds (testCase : GeneratedTestCase) : list string :=
  let signals := gt_qualitySignals testCase in
  set_of (((λ id, "field:" +:+ id) <$> qs_coveredFieldIds signals) ++
          ((λ id, "action:" +:+ id) <$> qs_coveredActionIds signals) ++
          ((λ id, "validation:" +:+ id) <$> qs_coveredValidationIds signals) ++
          ((λ id, "navigation:" +:+ id) <$> qs_coveredNavigationIds signals) ++
          ((λ id, "requirement:" +:+ id) <$> default [] (qs_coveredRequirementIds signals))).

Definition fieldCoverageTargetIds (testCase : GeneratedTestCase) : list string :=
  set_of (qs_coveredFieldIds (gt_qualitySignals testCase)).

(** The smaller set and the larger one. *)
Definition by_size (a b : list string) : list string * list string :=
  if (length a <=? length b)%nat then (a, b) else (b, a).

Definition no_shared_target (a b : list string) : bool :=
  let '(smaller, larger) := by_size a b in forallb (λ target, negb (bool_decide (target ∈ larger))) smaller.

Definition haveDisjointCoverageTargets (left right : GeneratedTestCase) : bool :=
  let leftFields := fieldCoverageTargetIds left in
  let rightFields := fieldCoverageTargetIds right in
  if ((0 <? length leftFields) && (0 <? length rightFields))%nat then no_shared_target leftFields rightFields
  else
    let leftTargets := coverageTargetIds left in
    let rightTargets := coverageTargetIds right in
    if ((length leftTargets =? 0) || (length rightTargets =? 0))%nat then false
    else no_shared_target leftTargets rightTargets.

Definition jaccardSimilarity (a b : list string) : Q :=
  if ((length a =? 0) && (length b =? 0))%nat then 1%Q
  else
    let '(smaller, larger) := by_size a b in
    let intersection := length (filter (λ v, v ∈ larger) smaller) in
    let union := (length a + length b - intersection)%nat in
    if (union =? 0)%nat then 0%Q else (inject_Z (Z.of_nat intersection) / inject_Z (Z.of_nat union))%Q.

Record TestCaseDuplicatePair := { dp_leftTestCaseId : string; dp_rightTestCaseId : string; dp_similarity : Q }.

Definition roundTo (value : Q) (digits : Z) : Q :=
  let factor := inject_Z (10 ^ digits) in (inject_Z (Qfloor (value * factor + (1 # 2))) / factor)%Q.

Definition compare_pairs : TestCaseDuplicatePair → TestCaseDuplicatePair → comparison :=
  cmp_then (cmp_on dp_leftTestCaseId String.compare) (cmp_on dp_rightTestCaseId String.compare).

(** The body of the inner loop. *)
Definition pair_of (fingerprints : list (string * list string)) (threshold : Q) (left right : GeneratedTestCase) : option TestCaseDuplicatePair :=
  fpLeft ← map_get (gt_id left) fingerprints;
  if haveDisjointCoverageTargets left right then None
  else
    fpRight ← map_get (gt_id right) fingerprints;
    let similarity := jaccardSimilarity fpLeft fpRight in
    if Qle_bool threshold similarity then
      let '(a, b) := match String.compare (gt_id left) (gt_id right) with Gt => (gt_id right, gt_id left) | _ => (gt_id left, gt_id right) end in
      Some {| dp_leftTestCaseId := a; dp_rightTestCaseId := b; dp_similarity := roundTo similarity 6 |}
    else None.

Fixpoint pairs_from (fingerprints : list (string * list string)) (threshold : Q) (cases : list GeneratedTestCase) : list TestCaseDuplicatePair :=
  match cases with
  | [] => []
  | leftCase :: rest => omap (pair_of fingerprints threshold leftCase) rest ++ pairs_from fingerprints threshold rest
  end.

Inductive DuplicateError : Type := bad_threshold.

Definition fingerprints_of (cases : list GeneratedTestCase) : list (string * list string) :=
  foldl (λ m tc, map_set (gt_id tc) (buildTestCaseFingerprint tc) m) [] cases.

Definition detectDuplicateTestCases (testCases : list GeneratedTestCase) (threshold : Q) : outcome DuplicateError (list TestCaseDuplicatePair) :=
  (guard_throw (negb (Qle_bool 0 threshold && Qle_bool threshold 1)) bad_threshold ;;;
   Ok (js_sort compare_pairs (pairs_from (fingerprints_of testCases) threshold testCases)))%outcome.

(** ** Verdicts *)

Inductive TestCaseDeltaVerdict : Type := v_new | v_unchanged | v_changed | v_obsolete | v_requires_review.
Inductive TestCaseDeltaReason : Type :=
| absent_in_current | absent_in_prior | fingerprint_changed | trace_screen_changed | trace_screen_removed
| visual_ambiguity_increased | visual_confidence_dropped | reconciliation_conflict.

#[export] Instance verdict_eq_dec : EqDecision TestCaseDeltaVerdict.
Proof. solve_decision. Defined.
#[export] Instance delta_reason_eq_dec : EqDecision TestCaseDeltaReason.
Proof. solve_decision. Defined.

Definition TestCaseDeltaVerdict_label (v : TestCaseDeltaVerdict) : string :=
  match v with
  | v_new => "new" | v_unchanged => "unchanged" | v_changed => "changed" | v_obsolete => "obsolete"
  | v_requires_review => "requires_review"
  end.
Definition TestCaseDeltaReason_label (r : TestCaseDeltaReason) : string :=
  match r with
  | absent_in_current => "absent_in_current" | absent_in_prior => "absent_in_prior"
  | fingerprint_changed => "fingerprint_changed" | trace_screen_changed => "trace_screen_changed"
  | trace_screen_removed => "trace_screen_removed" | visual_ambiguity_increased => "visual_ambiguity_increased"
  | visual_confidence_dropped => "visual_confidence_dropped" | reconciliation_conflict => "reconciliation_conflict"
  end.

Record TestCaseDeltaRow := {
  tr_testCaseId : string;
  tr_verdict : TestCaseDeltaVerdict;
  tr_reasons : list TestCaseDeltaReason;
  tr_affectedScreenIds : list string;
  tr_priorFingerprintHash : option string;
  tr_currentFingerprintHash : option string;
}.

Record TestCaseDeltaTotals := {
  tt_new : nat; tt_unchanged : nat; tt_changed : nat; tt_obsolete : nat; tt_requiresReview : nat;
}.

Record TestCaseDeltaReport := {
  tp_jobId : string;
  tp_generatedAt : string;
  tp_rows : list TestCaseDeltaRow;
  tp_totals : TestCaseDeltaTotals;
}.

Record VisualSidecarValidationRecord := { vs_screenId : string; vs_outcomes : list string; vs_meanConfidence : Q }.

Record ClassifyTestCaseDeltaInput := {
  ct_jobId : string;
  ct_generatedAt : string;
  ct_prior : list GeneratedTestCase;
  ct_current : list GeneratedTestCase;
  ct_currentIntent : BusinessTestIntentIr;
  ct_intentDelta : option IntentDeltaReport;
  ct_visual : list VisualSidecarValidationRecord;
  ct_visualConfidenceThreshold : option Q;
}.

Definition TEST_CASE_DELTA_DEFAULT_VISUAL_CONFIDENCE_FLOOR : Q := 7 # 10.

Definition delta_rows (delta : option IntentDeltaReport) : list IntentDeltaEntry := from_option dr_entries [] delta.

Definition collectChangedScreenIds (delta : option IntentDeltaReport) : list string :=
  set_of (omap de_screenId (filter (λ e, de_changeType e ≠ c_added ∧ de_changeType e ≠ c_removed) (delta_rows delta))).

Definition collectRemovedScreenIds (delta : option IntentDeltaReport) : list string :=
  set_of (de_elementId <$> filter (λ e, de_kind e = k_screen ∧ de_changeType e = c_removed) (delta_rows delta)).

Definition collectAmbiguityIncreasedScreenIds (delta : option IntentDeltaReport) : list string :=
  set_of (omap de_screenId (filter (λ e, de_changeType e = c_ambiguity_increased) (delta_rows delta))).

Inductive TestCaseDeltaError : Type := bad_visual_threshold.

Section classify.
Context `{JsonDigest} (input : ClassifyTestCaseDeltaInput).

Definition currentScreenIds : list string := set_of (bs_screenId <$> ir_screens (ct_currentIntent input)).

(** Mean confidence and conflict of a screen. *)
Definition visualByScreen : list (string * (Q * bool)) :=
  foldl (λ m r, map_set (vs_screenId r) (vs_meanConfidence r, bool_decide ("conflicts_with_figma_metadata" ∈ vs_outcomes r)) m)
    [] (ct_visual input).

Definition visualFloor : Q := default TEST_CASE_DELTA_DEFAULT_VISUAL_CONFIDENCE_FLOOR (ct_visualConfidenceThreshold input).

Definition fingerprint_hash (tc : GeneratedTestCase) : string :=
  sha256Hex_json (strings_json (js_sort String.compare (buildTestCaseFingerprint tc))).

(** The reasons one turn of the loop over the affected screens adds. *)
Definition visual_signals (screenId : string) : list TestCaseDeltaReason :=
  match map_get screenId visualByScreen with
  | Some (meanConfidence, conflict) =>
      (if Qle_bool visualFloor meanConfidence then [] else [visual_confidence_dropped]) ++
      (if conflict : bool then [reconciliation_conflict] else [])
  | None => []
  end ++
  (if bool_decide (screenId ∈ collectAmbiguityIncreasedScreenIds (ct_intentDelta input)) then [visual_ambiguity_increased] else []).

Definition some_in (ids set : list string) : bool := existsb (λ id, bool_decide (id ∈ set)) ids.

(** The verdict and its reasons before the visual signals. *)
Definition base_verdict (priorCase currentCase : option GeneratedTestCase) (affectedScreenIds : list string) :
    TestCaseDeltaVerdict * list TestCaseDeltaReason :=
  match currentCase, priorCase with
  | None, Some _ =>
      let everyTraceMissing := negb (some_in affectedScreenIds currentScreenIds) in
      (v_obsolete, if ((0 <? length affectedScreenIds)%nat && everyTraceMissing) then [trace_screen_removed] else [absent_in_current])
  | Some _, None => (v_new, [absent_in_prior])
  | Some c, Some p =>
      let fingerprintChanged := negb (bool_decide (fingerprint_hash p = fingerprint_hash c)) in
      let traceChanged := some_in affectedScreenIds (collectChangedScreenIds (ct_intentDelta input)) in
      let traceRemoved := some_in affectedScreenIds (collectRemovedScreenIds (ct_intentDelta input)) in
      (if fingerprintChanged || traceChanged || traceRemoved then v_changed else v_unchanged,
       (if traceRemoved then [trace_screen_removed] else []) ++ (if fingerprintChanged then [fingerprint_changed] else []) ++
       (if traceChanged then [trace_screen_changed] else []))
  | None, None => (v_unchanged, [])
  end.

Definition classifyOne (id : string) (priorCase currentCase : option GeneratedTestCase) : TestCaseDeltaRow :=
  let traceCase := match currentCase with Some c => Some c | None => priorCase end in
  let affectedScreenIds := from_option (λ tc, sortedUnique (gt_traceScreens tc)) [] traceCase in
  let '(verdict, reasons) := base_verdict priorCase currentCase affectedScreenIds in
  let signals := affectedScreenIds ≫= visual_signals in
  let escalate := negb (bool_decide (signals = [])) in
  {| tr_testCaseId := id;
     tr_verdict := if escalate && negb (bool_decide (verdict = v_obsolete)) then v_requires_review else verdict;
     tr_reasons := js_sort (cmp_on TestCaseDeltaReason_label String.compare) (set_of (reasons ++ signals));
     tr_affectedScreenIds := affectedScreenIds;
     tr_priorFingerprintHash := fingerprint_hash <$> priorCase;
     tr_currentFingerprintHash := fingerprint_hash <$> currentCase |}.

Definition computeTotals (rows : list TestCaseDeltaRow) : TestCaseDeltaTotals :=
  let count v := length (filter (λ r, tr_verdict r = v) rows) in
  {| tt_new := count v_new; tt_unchanged := count v_unchanged; tt_changed := count v_changed; tt_obsolete := count v_obsolete;
     tt_requiresReview := count v_requires_review |}.

(** The rows of the current cases, then those of the cases that are gone. *)
Definition classified_rows : list TestCaseDeltaRow :=
  let priorMap := map_from gt_id (ct_prior input) in
  let currentMap := map_from gt_id (ct_current input) in
  ((λ e, classifyOne e.1 (map_get e.1 priorMap) (Some e.2)) <$> currentMap) ++
  ((λ e, classifyOne e.1 (Some e.2) None) <$> filter (λ e, e.1 ∉ currentMap.*1) priorMap).

Definition classifyTestCaseDelta : outcome TestCaseDeltaError TestCaseDeltaReport :=
  (guard_throw (negb (Qle_bool 0 visualFloor && Qle_bool visualFloor 1)) bad_visual_threshold ;;;
   let rows := js_sort (cmp_on tr_testCaseId String.compare) classified_rows in
   Ok {| tp_jobId := ct_jobId input; tp_generatedAt := ct_generatedAt input; tp_rows := rows;
         tp_totals := computeTotals rows |})%outcome.
End classify.

(** ** The report file *)

Definition TEST_CASE_DELTA_REPORT_SCHEMA_VERSION : string := "1.0.0".
Definition TEST_CASE_DELTA_REPORT_ARTIFACT_FILENAME : string := "test-case-delta-report.json".

Definition delta_row_json (r : TestCaseDeltaRow) : json :=
  JObject (Json.literal
    [("testCaseId", Some (JString (tr_testCaseId r))); ("verdict", Some (JString (TestCaseDeltaVerdict_label (tr_verdict r))));
     ("reasons", Some (strings_json (TestCaseDeltaReason_label <$> tr_reasons r)));
     ("affectedScreenIds", Some (strings_json (tr_affectedScreenIds r)));
     ("priorFingerprintHash", JString <$> tr_priorFingerprintHash r); ("currentFingerprintHash", JString <$> tr_currentFingerprintHash r)]).

Definition test_case_delta_json (r : TestCaseDeltaReport) : json :=
  let n x := Json.jint (Z.of_nat x) in
  let t := tp_totals r in
  JObject
    [("schemaVersion", JString TEST_CASE_DELTA_REPORT_SCHEMA_VERSION); ("contractVersion", JString TEST_INTELLIGENCE_CONTRACT_VERSION);
     ("jobId", JString (tp_jobId r)); ("generatedAt", JString (tp_generatedAt r)); ("rows", JArray (delta_row_json <$> tp_rows r));
     ("totals", JObject [("new", n (tt_new t)); ("unchanged", n (tt_unchanged t)); ("changed", n (tt_changed t));
        ("obsolete", n (tt_obsolete t)); ("requiresReview", n (tt_requiresReview t))]);
     ("rawScreenshotsIncluded", JBool false); ("secretsIncluded", JBool false)].

(** The path written and the states of the disk while it is, a crash included. *)
Definition writeTestCaseDeltaReport (report : TestCaseDeltaReport) (destinationDir : string) (w : writer) (d : disk) : string * list disk :=
  let path := posix_join [destinationDir; TEST_CASE_DELTA_REPORT_ARTIFACT_FILENAME] in
  (path, atomic_write_states path w (canonicalJson (test_case_delta_json report)) d).

Example normalised : normaliseString "  Log-In: User's  Name!! " = "log in user s name".
Proof. vm_compute. reflexivity. Qed.
Example shingles : toShingles "abcd" = ["abc"; "bcd"] ∧ toShingles "ab" = ["ab"] ∧ toShingles "" = [].
Proof. vm_compute. split_and!; reflexivity. Qed.

(** ** Fingerprints and similarity *)

Lemma NoDup_fingerprint tc : NoDup (buildTestCaseFingerprint tc).
Proof. apply NoDup_set_of. Qed.

#[export] Instance JString_inj : Inj (=) (=) JString.
Proof. by intros x y [=]. Qed.

Lemma fingerprint_hash_inj `{JsonDigest} p c :
  fingerprint_hash p = fingerprint_hash c →
  (∀ t, t ∈ buildTestCaseFingerprint p ↔ t ∈ buildTestCaseFingerprint c) ∨ digest_collision.
Proof.
  unfold fingerprint_hash, sha256Hex_json, canonicalJson. rewrite !sortValue_strings. intros E.
  destruct (decide (js_sort String.compare (buildTestCaseFingerprint p) = js_sort String.compare (buildTestCaseFingerprint c))) as [Es|Hne].
  - left. intros t. by rewrite <- (elem_of_js_sort String.compare t (buildTestCaseFingerprint p)), Es, elem_of_js_sort.
  - right. eexists _, _. split; [|exact E]. intros Ej. apply Hne. unfold strings_json in Ej. injection Ej as Ej. by apply (inj (fmap (M:=list) JString)) in Ej.
Qed.

Definition as_set (l : list string) : gset string := list_to_set l.

Lemma length_filter_elem (a b : list string) : NoDup a → NoDup b →
  length (filter (λ v, v ∈ b) a) = size (list_to_set a ∩ list_to_set b : gset string).
Proof.
  intros Ha Hb. rewrite <- (size_list_to_set (C := gset string) (filter (λ v, v ∈ b) a)) by (by apply NoDup_filter).
  apply f_equal, set_eq. intros x. rewrite elem_of_list_to_set, list_elem_of_filter, elem_of_intersection, !elem_of_list_to_set. tauto.
Qed.

Lemma sizes_add_up a b : NoDup a → NoDup b →
  (size (as_set a ∪ as_set b) + size (as_set a ∩ as_set b) = length a + length b)%nat.
Proof.
  intros Ha Hb. rewrite <- (size_list_to_set (C := gset string) a), <- (size_list_to_set (C := gset string) b) by done.
  fold (as_set a) (as_set b). rewrite size_union_alt.
  assert (size (as_set b) = size (as_set b ∖ as_set a) + size (as_set a ∩ as_set b))%nat; [|lia].
  rewrite <- size_union by set_solver. f_equal. apply set_eq. intros x. destruct (decide (x ∈ as_set a)); set_solver.
Qed.

Lemma shared_tokens a b : NoDup a → NoDup b →
  length (filter (λ v, v ∈ (by_size a b).2) (by_size a b).1) = size (as_set a ∩ as_set b).
Proof.
  intros Ha Hb. unfold by_size. case_match; cbn [fst snd]; rewrite length_filter_elem by done; [done|]. f_equal. set_solver.
Qed.

(** The similarity is the number of shared tokens in the number of all tokens. *)
Lemma jaccard_spec a b : NoDup a → NoDup b → (a ≠ [] ∨ b ≠ []) →
  jaccardSimilarity a b = (inject_Z (Z.of_nat (size (as_set a ∩ as_set b))) / inject_Z (Z.of_nat (size (as_set a ∪ as_set b))))%Q.
Proof.
  intros Ha Hb Hne. unfold jaccardSimilarity. pose proof (shared_tokens a b Ha Hb) as Hi. pose proof (sizes_add_up a b Ha Hb) as Hu.
  assert (Hpos : (0 < length a + length b)%nat) by (destruct a, b; simpl; naive_solver lia).
  destruct (by_size a b) as [smaller larger]. cbn [fst snd] in Hi. rewrite Hi.
  replace (length a + length b - size (as_set a ∩ as_set b))%nat with (size (as_set a ∪ as_set b)) by lia.
  assert (Hle : (size (as_set a ∩ as_set b) ≤ size (as_set a ∪ as_set b))%nat) by (apply subseteq_size; set_solver).
  assert (Hu0 : size (as_set a ∪ as_set b) ≠ 0%nat) by lia. rewrite (proj2 (Nat.eqb_neq _ 0) Hu0).
  by destruct (Nat.eqb_spec (length a) 0), (Nat.eqb_spec (length b) 0); [lia|..].
Qed.

(** ** Duplicates *)

Lemma no_shared_target_spec a b : no_shared_target a b = true ↔ ∀ t, t ∈ a → t ∉ b.
Proof.
  unfold no_shared_target, by_size. destruct (length a <=? length b)%nat; rewrite forallb_forall; setoid_rewrite negb_true_iff; setoid_rewrite bool_decide_eq_false;
    setoid_rewrite <- list_elem_of_In; (split; intros Hx t Ht Ht'; by apply (Hx t)).
Qed.

Lemma no_shared_target_sym a b : no_shared_target a b = no_shared_target b a.
Proof. apply eq_true_iff_eq. rewrite !no_shared_target_spec. naive_solver. Qed.

Lemma haveDisjoint_sym x y : haveDisjointCoverageTargets x y = haveDisjointCoverageTargets y x.
Proof.
  unfold haveDisjointCoverageTargets. rewrite (no_shared_target_sym (fieldCoverageTargetIds x)), (no_shared_target_sym (coverageTargetIds x)).
  rewrite andb_comm. destruct (_ && _); [done|]. by rewrite orb_comm.
Qed.

Definition similarity (x y : GeneratedTestCase) : Q := jaccardSimilarity (buildTestCaseFingerprint x) (buildTestCaseFingerprint y).

Lemma fingerprint_not_nil tc : buildTestCaseFingerprint tc ≠ [].
Proof.
  intros E. assert (Hin : "type::" +:+ gt_type tc ∈ buildTestCaseFingerprint tc); [|rewrite E in Hin; by apply elem_of_nil in Hin].
  unfold buildTestCaseFingerprint. rewrite elem_of_set_of, !elem_of_app. right. right. right. left.
Qed.

Lemma similarity_spec x y :
  similarity x y = (inject_Z (Z.of_nat (size (as_set (buildTestCaseFingerprint x) ∩ as_set (buildTestCaseFingerprint y)))) /
    inject_Z (Z.of_nat (size (as_set (buildTestCaseFingerprint x) ∪ as_set (buildTestCaseFingerprint y)))))%Q.
Proof. apply jaccard_spec; [apply NoDup_fingerprint..|left; apply fingerprint_not_nil]. Qed.

Lemma similarity_sym x y : similarity x y = similarity y x.
Proof.
  rewrite !similarity_spec. set (X := as_set _). set (Y := as_set _).
  assert (X ∩ Y = Y ∩ X) as -> by set_solver. by assert (X ∪ Y = Y ∪ X) as -> by set_solver.
Qed.

Lemma fingerprints_get cases x :
  NoDup (gt_id <$> cases) → x ∈ cases → map_get (gt_id x) (fingerprints_of cases) = Some (buildTestCaseFingerprint x).
Proof.
  unfold fingerprints_of. induction cases as [|c cases IH] using rev_ind; intros Hnd Hin; [by apply elem_of_nil in Hin|].
  rewrite foldl_snoc, map_get_set. rewrite fmap_app in Hnd. apply NoDup_app in Hnd as (Hnd & Hd & _).
  apply elem_of_app in Hin as [Hin|Hin]; [|apply list_elem_of_singleton in Hin as ->; by rewrite bool_decide_eq_true_2].
  rewrite bool_decide_eq_false_2; [by apply IH|]. intros E. apply (Hd (gt_id x)); [by apply list_elem_of_fmap_2|]. rewrite E. left.
Qed.

Definition occurs_before {A} (x y : A) (l : list A) : Prop := ∃ l1 l2 l3, l = l1 ++ x :: l2 ++ y :: l3.

Lemma occurs_before_cons {A} (x y z : A) l : occurs_before x y (z :: l) ↔ x = z ∧ y ∈ l ∨ occurs_before x y l.
Proof.
  split.
  - intros ([|w l1] & l2 & l3 & E); simplify_eq/=; [left; split; [done|]; apply elem_of_app; right; left|right; by exists l1, l2, l3].
  - intros [[-> (l2 & l3 & ->)%list_elem_of_split]|(l1 & l2 & l3 & ->)]; [by exists [], l2, l3|by exists (z :: l1), l2, l3].
Qed.

Lemma elem_of_pairs fps threshold cases p :
  p ∈ pairs_from fps threshold cases ↔ ∃ x y, occurs_before x y cases ∧ pair_of fps threshold x y = Some p.
Proof.
  induction cases as [|c cases IH]; simpl.
  - rewrite elem_of_nil. split; [done|]. intros (x & y & ([|] & ? & ? & E) & _); done.
  - rewrite elem_of_app, list_elem_of_omap, IH. setoid_rewrite occurs_before_cons. naive_solver.
Qed.

Lemma occurs_before_total {A} (x y : A) l : x ∈ l → y ∈ l → x ≠ y → occurs_before x y l ∨ occurs_before y x l.
Proof.
  induction l as [|z l IH]; [set_solver|]. rewrite !elem_of_cons, !occurs_before_cons. naive_solver.
Qed.

Lemma occurs_before_elem {A} (x y : A) l : occurs_before x y l → x ∈ l ∧ y ∈ l.
Proof. intros (l1 & l2 & l3 & ->). set_solver. Qed.

Lemma occurs_before_distinct {A B} (f : A → B) x y l : NoDup (f <$> l) → occurs_before x y l → f x ≠ f y.
Proof.
  intros Hnd (l1 & l2 & l3 & ->) E. rewrite fmap_app in Hnd. apply NoDup_app in Hnd as (_ & _ & Hnd).
  rewrite fmap_cons, NoDup_cons in Hnd. apply (proj1 Hnd). rewrite E. apply list_elem_of_fmap_2. set_solver.
Qed.

(** Of cases with different ids exactly the pairs of cases are reported that may share a
    coverage target and whose similarity reaches the threshold, each with the smaller id
    first and in order, whatever the order of the cases. *)
Theorem duplicates_reported_exactly cases threshold pairs :
  NoDup (gt_id <$> cases) → detectDuplicateTestCases cases threshold = Ok pairs →
  StronglySorted (cmp_le compare_pairs) pairs ∧
  ∀ p, p ∈ pairs ↔ ∃ x y, x ∈ cases ∧ y ∈ cases ∧ String.compare (gt_id x) (gt_id y) = Lt ∧
    haveDisjointCoverageTargets x y = false ∧ (threshold <= similarity x y)%Q ∧
    p = {| dp_leftTestCaseId := gt_id x; dp_rightTestCaseId := gt_id y; dp_similarity := roundTo (similarity x y) 6 |}.
Proof.
  intros Hnd. unfold detectDuplicateTestCases. intros (_ & [= <-])%outcome_then_Ok. split; [apply js_sort_sorted, _|].
  intros p. rewrite elem_of_js_sort, elem_of_pairs.
  assert (Hpair : ∀ x y, occurs_before x y cases → pair_of (fingerprints_of cases) threshold x y = Some p ↔
    haveDisjointCoverageTargets x y = false ∧ (threshold <= similarity x y)%Q ∧
    p = let '(a, b) := match String.compare (gt_id x) (gt_id y) with Gt => (gt_id y, gt_id x) | _ => (gt_id x, gt_id y) end in
        {| dp_leftTestCaseId := a; dp_rightTestCaseId := b; dp_similarity := roundTo (similarity x y) 6 |}).
  { intros x y [Hx Hy]%occurs_before_elem. unfold pair_of. rewrite !fingerprints_get by done. simpl. fold (similarity x y).
    destruct (haveDisjointCoverageTargets x y); [naive_solver|]. destruct (Qle_bool threshold (similarity x y)) eqn:Eq.
    - apply Qle_bool_iff in Eq. destruct (String.compare _ _); naive_solver.
    - split; [done|]. intros (_ & Hle%Qle_bool_iff & _). congruence. }
  split.
  - intros (x & y & Hb & (Hd & Hle & ->)%(Hpair _ _ Hb)). destruct (occurs_before_elem _ _ _ Hb) as [Hx Hy].
    destruct (String.compare (gt_id x) (gt_id y)) eqn:E; [apply String.compare_eq_iff in E; by apply (occurs_before_distinct gt_id) in Hb|by exists x, y|].
    exists y, x. rewrite String.compare_antisym, E, haveDisjoint_sym, similarity_sym. done.
  - intros (x & y & Hx & Hy & Hlt & Hd & Hle & ->).
    assert (Hne : x ≠ y) by (intros ->; by rewrite string_compare_refl in Hlt).
    destruct (occurs_before_total x y cases Hx Hy Hne) as [Hb|Hb].
    + exists x, y. split; [done|]. apply Hpair; [done|]. by rewrite Hlt.
    + exists y, x. split; [done|]. apply Hpair; [done|]. rewrite String.compare_antisym, Hlt, haveDisjoint_sym, similarity_sym. done.
Qed.

(** ** The rows *)

Section classify_lemmas.
Context `{JsonDigest} (input : ClassifyTestCaseDeltaInput).


(** The row of a case is the classification of the last cases with its id. *)
Lemma elem_of_rows row :
  row ∈ classified_rows input ↔
  ∃ id, row = classifyOne input id (last_with gt_id id (ct_prior input)) (last_with gt_id id (ct_current input)) ∧
        (is_Some (last_with gt_id id (ct_prior input)) ∨ is_Some (last_with gt_id id (ct_current input))).
Proof.
  unfold classified_rows. rewrite elem_of_app, !list_elem_of_fmap.
  destruct (map_from_spec gt_id (ct_prior input)) as (Hnp & Hgp & _), (map_from_spec gt_id (ct_current input)) as (Hnc & Hgc & _).
  split.
  - intros [([id c] & -> & Hin)|([id p] & -> & [Hno Hin]%list_elem_of_filter)]; cbn [fst snd] in *; exists id.
    + apply (map_get_unique _ _ _ Hnc) in Hin. rewrite Hgc in Hin. rewrite Hgp, Hin. split; [done|by right].
    + apply (map_get_unique _ _ _ Hnp) in Hin. rewrite Hgp in Hin. apply map_get_None in Hno. rewrite Hgc in Hno. rewrite Hin, Hno. split; [done|by left].
  - intros (id & -> & Hsome). destruct (last_with gt_id id (ct_current input)) as [c|] eqn:Ec.
    + left. exists (id, c). rewrite <- Hgc in Ec. apply map_get_elem in Ec. cbn [fst snd]. by rewrite Hgp.
    + right. destruct (last_with gt_id id (ct_prior input)) as [p|] eqn:Ep; [|by destruct Hsome as [[]|[]]].
      exists (id, p). cbn [fst snd]. split; [done|]. apply list_elem_of_filter. split; [apply map_get_None; by rewrite Hgc|].
      apply map_get_elem. by rewrite Hgp.
Qed.

Lemma NoDup_rows : NoDup (tr_testCaseId <$> classified_rows input).
Proof.
  unfold classified_rows. rewrite fmap_app, <- !list_fmap_compose.
  assert (Hid : ∀ id p c, tr_testCaseId (classifyOne input id p c) = id) by (intros; unfold classifyOne; by destruct (base_verdict _ _ _ _)).
  destruct (map_from_spec gt_id (ct_prior input)) as (Hnp & _ & _), (map_from_spec gt_id (ct_current input)) as (Hnc & _ & _).
  rewrite (list_fmap_ext _ fst (map_from gt_id (ct_current input))) by (intros; apply Hid).
  rewrite (list_fmap_ext _ fst (filter _ _)) by (intros; apply Hid).
  apply NoDup_app. split_and!; [done| |].
  - intros id Hin (e & -> & [Hno _]%list_elem_of_filter)%list_elem_of_fmap. done.
  - clear -Hnp. induction (map_from gt_id (ct_prior input)) as [|e m IH]; [constructor|]. apply NoDup_cons in Hnp as [He Hnp].
    rewrite filter_cons. case_decide; [|by apply IH]. rewrite fmap_cons. constructor; [|by apply IH].
    intros (e' & E & [_ Hin]%list_elem_of_filter)%list_elem_of_fmap. apply He. rewrite E. by apply list_elem_of_fmap_2.
Qed.

Lemma some_in_spec ids set : some_in ids set = true ↔ ∃ id, id ∈ ids ∧ id ∈ set.
Proof.
  unfold some_in. rewrite existsb_exists. split; intros (id & H1 & H2); exists id.
  - split; [by apply list_elem_of_In|by apply bool_decide_eq_true in H2].
  - split; [by apply list_elem_of_In|by apply bool_decide_eq_true].
Qed.

End classify_lemmas.

(** What the two intents have in common on a screen has not changed. *)
Definition untouched `{JsonDigest} {T} `{CollectionLike T} (prior current : list T) (screenId : string) : Prop := ∀ id x y,
  last_with cl_id id prior = Some x → last_with cl_id id current = Some y → cl_screenId y = screenId →
  hashSeed x = hashSeed y ∨ digest_collision.

Section verdicts.
Context `{JsonDigest}.

Lemma visual_signals_nil input s :
  visual_signals input s = [] ↔
  (s ∉ collectAmbiguityIncreasedScreenIds (ct_intentDelta input)) ∧
  (∀ mean conflict, map_get s (visualByScreen input) = Some (mean, conflict) → (visualFloor input <= mean)%Q ∧ conflict = false).
Proof.
  unfold visual_signals. destruct (map_get s (visualByScreen input)) as [[mean conflict]|]; case_bool_decide as Ha.
  - split; [by intros [_ ?]%app_nil|naive_solver].
  - rewrite app_nil_r. destruct (Qle_bool (visualFloor input) mean) eqn:Hq; simpl; [destruct conflict|]; split; try done.
    + intros [_ Hall]. by destruct (Hall _ _ eq_refl) as [_ ?].
    + intros _. split; [done|]. intros ? ? [= <- <-]. split; [by apply Qle_bool_iff|done].
    + intros [_ Hall]. destruct (Hall _ _ eq_refl) as [Hle%Qle_bool_iff _]. congruence.
  - split; [done|naive_solver].
  - split; [split; [done|naive_solver]|done].
Qed.

Lemma bind_not_nil {A B} (f : A → list B) l : l ≫= f ≠ [] ↔ ∃ x, x ∈ l ∧ f x ≠ [].
Proof.
  induction l as [|x l IH]; [split; [done|intros (? & ?%elem_of_nil & _); done]|]. rewrite bind_cons. split.
  - intros Hne. destruct (f x) as [|y r] eqn:E; [|exists x; split; [left|by rewrite E]].
    apply IH in Hne as (z & Hz & Hf). exists z. split; [by right|done].
  - intros (z & [->|Hz]%elem_of_cons & Hf) [Hx Hl]%app_nil; [done|]. apply (proj2 IH); [by exists z|done].
Qed.

Lemma row_affected input id p c :
  tr_affectedScreenIds (classifyOne input id p c) =
  from_option (λ tc, sortedUnique (gt_traceScreens tc)) [] (match c with Some c => Some c | None => p end).
Proof. unfold classifyOne. by destruct (base_verdict _ _ _ _). Qed.

Lemma row_id input id p c : tr_testCaseId (classifyOne input id p c) = id.
Proof. unfold classifyOne. by destruct (base_verdict _ _ _ _). Qed.

Lemma row_verdict input id p c :
  let row := classifyOne input id p c in
  let verdict := (base_verdict input p c (tr_affectedScreenIds row)).1 in
  tr_verdict row =
    if negb (bool_decide (tr_affectedScreenIds row ≫= visual_signals input = [])) && negb (bool_decide (verdict = v_obsolete))
    then v_requires_review else verdict.
Proof. cbv zeta. rewrite row_affected. unfold classifyOne. by destruct (base_verdict _ _ _ _). Qed.

Lemma sorted_ids (rows : list TestCaseDeltaRow) :
  StronglySorted (cmp_le String.compare) (tr_testCaseId <$> js_sort (cmp_on tr_testCaseId String.compare) rows).
Proof.
  pose proof (js_sort_sorted (cmp_on tr_testCaseId String.compare) rows) as Hs.
  induction Hs as [|r l Hs IH Hr]; [constructor|]. rewrite fmap_cons. constructor; [done|].
  apply Forall_fmap. eapply Forall_impl; [exact Hr|]. done.
Qed.

(** The row of a case on every branch. *)
Lemma row_of_case input id (p c : option GeneratedTestCase) :
  let row := classifyOne input id p c in
  let signal := ∃ s, s ∈ tr_affectedScreenIds row ∧ visual_signals input s ≠ [] in
  is_Some p ∨ is_Some c →
  (∀ s, s ∈ tr_affectedScreenIds row ↔ ∃ tc, (c = Some tc ∨ c = None ∧ p = Some tc) ∧ s ∈ gt_traceScreens tc) ∧
  match p, c with
  | _, None => tr_verdict row = v_obsolete
  | None, Some _ => signal ∧ tr_verdict row = v_requires_review ∨ ¬ signal ∧ tr_verdict row = v_new
  | Some p, Some c =>
      signal ∧ tr_verdict row = v_requires_review ∨
      ¬ signal ∧ (tr_verdict row = v_unchanged ∧ fingerprint_hash p = fingerprint_hash c ∧
                   (∀ s, s ∈ tr_affectedScreenIds row →
                      (s ∉ collectChangedScreenIds (ct_intentDelta input)) ∧ (s ∉ collectRemovedScreenIds (ct_intentDelta input))) ∨
                  tr_verdict row = v_changed ∧ (fingerprint_hash p ≠ fingerprint_hash c ∨
                   ∃ s, s ∈ tr_affectedScreenIds row ∧
                      (s ∈ collectChangedScreenIds (ct_intentDelta input) ∨ s ∈ collectRemovedScreenIds (ct_intentDelta input))))
  end.
Proof.
  intros row signal Hsome. pose proof (row_verdict input id p c) as Hv. cbv zeta in Hv. fold row in Hv.
  pose proof (bind_not_nil (visual_signals input) (tr_affectedScreenIds row)) as Hsig. split.
  - intros s. subst row. rewrite row_affected. destruct c as [c|], p as [p|]; cbn [from_option].
    1-3: rewrite elem_of_sortedUnique; naive_solver.
    by destruct Hsome as [[]|[]].
  - destruct p as [p|], c as [c|]; [| | |by destruct Hsome as [[]|[]]].
    + set (changed := collectChangedScreenIds (ct_intentDelta input)) in *. set (removed := collectRemovedScreenIds (ct_intentDelta input)) in *.
      pose proof (some_in_spec (tr_affectedScreenIds row) changed) as Hc. pose proof (some_in_spec (tr_affectedScreenIds row) removed) as Hr.
      unfold base_verdict in Hv. fold changed removed in Hv. cbn [fst] in Hv.
      destruct (bool_decide_reflect (tr_affectedScreenIds row ≫= visual_signals input = [])) as [Hb|Hb]; cbn [negb andb] in Hv.
      * right. split; [intros Hs; by apply (proj2 Hsig Hs)|].
        destruct (bool_decide_reflect (fingerprint_hash p = fingerprint_hash c)), (some_in (tr_affectedScreenIds row) changed),
          (some_in (tr_affectedScreenIds row) removed); cbn in Hv; [right|right|right|left|right..]; split; try done; naive_solver.
      * left. split; [by apply Hsig|]. rewrite Hv. by destruct (_ || _ || _).
    + rewrite Hv. cbn. by rewrite andb_false_r.
    + unfold base_verdict in Hv. cbn [fst] in Hv. rewrite (bool_decide_eq_false_2 (v_new = v_obsolete)), andb_true_r in Hv by done.
      destruct (bool_decide_reflect (tr_affectedScreenIds row ≫= visual_signals input = [])) as [Hb|Hb]; [right|left]; (split; [|by rewrite Hv]).
      * intros Hs. by apply (proj2 Hsig Hs).
      * by apply Hsig.
Qed.

(** Every case of the two generations has exactly one row, in the order of the ids. It is
    obsolete exactly when the current generation does not have it; otherwise it needs a
    review exactly when a visual signal falls on a screen it traces to, and without one it
    is new when only the current generation has it, and unchanged when both have it with
    equal fingerprints and no screen it traces to changed or is gone. *)
Theorem every_case_is_classified input report :
  classifyTestCaseDelta input = Ok report →
  StronglySorted (cmp_le String.compare) (tr_testCaseId <$> tp_rows report) ∧ NoDup (tr_testCaseId <$> tp_rows report) ∧
  ∀ id, let p := last_with gt_id id (ct_prior input) in
  let c := last_with gt_id id (ct_current input) in
  ((id ∈ tr_testCaseId <$> tp_rows report) ↔ is_Some p ∨ is_Some c) ∧
  ∀ row, row ∈ tp_rows report → tr_testCaseId row = id →
    let signal := ∃ s, s ∈ tr_affectedScreenIds row ∧ visual_signals input s ≠ [] in
    (∀ s, s ∈ tr_affectedScreenIds row ↔ ∃ tc, (c = Some tc ∨ c = None ∧ p = Some tc) ∧ s ∈ gt_traceScreens tc) ∧
    match p, c with
    | _, None => tr_verdict row = v_obsolete
    | None, Some _ => signal ∧ tr_verdict row = v_requires_review ∨ ¬ signal ∧ tr_verdict row = v_new
    | Some p, Some c =>
        signal ∧ tr_verdict row = v_requires_review ∨
        ¬ signal ∧ (tr_verdict row = v_unchanged ∧ fingerprint_hash p = fingerprint_hash c ∧
                     (∀ s, s ∈ tr_affectedScreenIds row →
                        (s ∉ collectChangedScreenIds (ct_intentDelta input)) ∧ (s ∉ collectRemovedScreenIds (ct_intentDelta input))) ∨
                    tr_verdict row = v_changed ∧ (fingerprint_hash p ≠ fingerprint_hash c ∨
                     ∃ s, s ∈ tr_affectedScreenIds row ∧
                        (s ∈ collectChangedScreenIds (ct_intentDelta input) ∨ s ∈ collectRemovedScreenIds (ct_intentDelta input))))
    end.
Proof.
  unfold classifyTestCaseDelta. intros (_ & [= <-])%outcome_then_Ok. cbn [tp_rows]. split; [apply sorted_ids|].
  split; [rewrite js_sort_Permutation; apply NoDup_rows|]. intros id. split.
  - rewrite list_elem_of_fmap. setoid_rewrite elem_of_js_sort. setoid_rewrite elem_of_rows. split.
    + intros (row & -> & k & -> & Hk). by rewrite row_id.
    + intros Hk. eexists. split; [symmetry; apply row_id|]. exists id. split; [reflexivity|exact Hk].
  - intros row Hrow Hid. rewrite elem_of_js_sort in Hrow. apply elem_of_rows in Hrow as (k & -> & Hk).
    rewrite row_id in Hid. subst k. exact (row_of_case input id _ _ Hk).
Qed.
End verdicts.

(** ** Both deltas together *)

Section composition.
Context `{JsonDigest}.

Lemma reported_in k id report e : e ∈ reported k id report → e ∈ dr_entries report ∧ de_kind e = k.
Proof. unfold reported. intros [[? _] ?]%list_elem_of_filter. done. Qed.

(** An element whose change is not reported on a screen is the same there. *)
Lemma untouched_on {T} `{CanonicalSeed T} k (prior current : list T) report s :
  element_reported k prior current report → s ∉ collectChangedScreenIds (Some report) → untouched prior current s.
Proof.
  intros Hrep Hs id x y Hx Hy Hscreen. specialize (Hrep id). rewrite Hx, Hy in Hrep.
  destruct Hrep as [[_ Hsame]|[Hrows _]]; [done|]. exfalso. apply Hs.
  assert (Hin : element_entry k c_changed y (Some x) (Some y) ∈ reported k id report) by (rewrite Hrows; left).
  apply reported_in in Hin as [Hin _]. unfold collectChangedScreenIds. rewrite elem_of_set_of, list_elem_of_omap.
  exists (element_entry k c_changed y (Some x) (Some y)). split; [|by rewrite <- Hscreen]. by apply list_elem_of_filter.
Qed.

(** A screen whose removal is not reported is still there when it was there. *)
Lemma screen_still_there input report s x :
  computeIntentDelta input = Ok report → s ∉ collectRemovedScreenIds (Some report) →
  last_with bs_screenId s (ir_screens (ii_prior input)) = Some x → is_Some (last_with bs_screenId s (ir_screens (ii_current input))).
Proof.
  intros Hr Hs Hx. destruct (elements_reported _ _ Hr) as (Hscreens & _). specialize (Hscreens s). change (cl_id (T := BusinessTestIntentScreen)) with bs_screenId in Hscreens.
  rewrite Hx in Hscreens. destruct (last_with bs_screenId s (ir_screens (ii_current input))) as [y|]; [done|]. exfalso. apply Hs.
  assert (Hin : element_entry k_screen c_removed x (Some x) None ∈ reported k_screen s report) by (rewrite Hscreens; left).
  apply reported_in in Hin as [Hin _]. unfold collectRemovedScreenIds. rewrite elem_of_set_of, list_elem_of_fmap.
  exists (element_entry k_screen c_removed x (Some x) None). split; [|by apply list_elem_of_filter]. cbn.
  apply last_Some_elem_of, list_elem_of_filter in Hx as [Hx _]. by rewrite Hx.
Qed.

(** C25. When the delta of the intents is used, a case that both generations have and that is
    called unchanged has the same tokens in both; the intents agree in the compared
    (hashed) properties on every screen it traces to, of the screen itself and of every
    field, action, validation and navigation both have there; a screen that was there is
    still there; and the last visual record of it has no confidence below the floor and
    does not contradict the design. All this holds unless the digest collides. *)
Theorem unchanged_case_is_untouched intents delta input report row :
  computeIntentDelta intents = Ok delta →
  ct_intentDelta input = Some delta →
  classifyTestCaseDelta input = Ok report →
  row ∈ tp_rows report → tr_verdict row = v_unchanged →
  ∃ p c, last_with gt_id (tr_testCaseId row) (ct_prior input) = Some p ∧ last_with gt_id (tr_testCaseId row) (ct_current input) = Some c ∧
    ((∀ t, t ∈ buildTestCaseFingerprint p ↔ t ∈ buildTestCaseFingerprint c) ∨ digest_collision) ∧
    ∀ s, s ∈ gt_traceScreens c →
      let prior := ii_prior intents in
      let current := ii_current intents in
      untouched (ir_screens prior) (ir_screens current) s ∧
      untouched (ir_detectedFields prior) (ir_detectedFields current) s ∧
      untouched (ir_detectedActions prior) (ir_detectedActions current) s ∧
      untouched (ir_detectedValidations prior) (ir_detectedValidations current) s ∧
      untouched (ir_detectedNavigation prior) (ir_detectedNavigation current) s ∧
      (is_Some (last_with bs_screenId s (ir_screens prior)) → is_Some (last_with bs_screenId s (ir_screens current))) ∧
      ∀ mean conflict, map_get s (visualByScreen input) = Some (mean, conflict) → (visualFloor input <= mean)%Q ∧ conflict = false.
Proof.
  intros Hdelta Hused Hclass Hrow Hv. unfold classifyTestCaseDelta in Hclass. apply outcome_then_Ok in Hclass as [_ [= <-]].
  cbn [tp_rows] in Hrow. rewrite elem_of_js_sort in Hrow. apply elem_of_rows in Hrow as (id & -> & Hsome). rewrite row_id.
  destruct (row_of_case input id _ _ Hsome) as [Haff Hcase].
  destruct (last_with gt_id id (ct_prior input)) as [p|], (last_with gt_id id (ct_current input)) as [c|]; try (destruct Hcase as [[_ E]|[_ E]]; congruence); try congruence.
  exists p, c. split; [done|]. split; [done|].
  destruct Hcase as [[_ E]|[Hsig [(_ & Hfp & Hscreens)|(E & _)]]]; [congruence| |congruence]. split; [by apply fingerprint_hash_inj|].
  intros s Hs prior current. rewrite Hused in Hscreens. destruct (elements_reported _ _ Hdelta) as (H1 & H2 & H3 & H4 & H5).
  assert (Hin : s ∈ tr_affectedScreenIds (classifyOne input id (Some p) (Some c))) by (apply Haff; exists c; split; [by left|done]).
  destruct (Hscreens s Hin) as [Hch Hrm]. split_and!.
  1: by eapply (untouched_on k_screen). 1: by eapply (untouched_on k_field). 1: by eapply (untouched_on k_action).
  1: by eapply (untouched_on k_validation). 1: by eapply (untouched_on k_navigation).
  - intros [x Hx]. by eapply screen_still_there.
  - destruct (decide (visual_signals input s = [])) as [Hn|Hn]; [by apply visual_signals_nil in Hn as [_ ?]|]. exfalso. apply Hsig. by exists s.
Qed.
End composition.

(** ** Examples *)

Definition no_signals : GeneratedTestCaseQualitySignals :=
  {| qs_coveredFieldIds := []; qs_coveredActionIds := []; qs_coveredValidationIds := []; qs_coveredNavigationIds := [];
     qs_coveredRequirementIds := None; qs_others := JNull |}.

Definition demo_case (id title : string) (screens : list string) : GeneratedTestCase :=
  {| gt_id := id; gt_title := title; gt_type := "functional"; gt_riskCategory := "low"; gt_stepActions := ["Open the form."; "Press Send!"];
     gt_traceScreens := screens; gt_qualitySignals := no_signals |}.

Definition demo_classify (prior current : list GeneratedTestCase) (intent : BusinessTestIntentIr) (delta : option IntentDeltaReport)
    (visual : list VisualSidecarValidationRecord) : ClassifyTestCaseDeltaInput :=
  {| ct_jobId := "job"; ct_generatedAt := "2026-01-01T00:00:00Z"; ct_prior := prior; ct_current := current; ct_currentIntent := intent;
     ct_intentDelta := delta; ct_visual := visual; ct_visualConfidenceThreshold := None |}.

Definition verdicts_of (r : outcome TestCaseDeltaError TestCaseDeltaReport) : list (string * TestCaseDeltaVerdict * list TestCaseDeltaReason) :=
  match r with Ok report => (λ row, (tr_testCaseId row, tr_verdict row, tr_reasons row)) <$> tp_rows report | Throw _ => [] end.

(** The verdicts on two generations, given what the intents before and after are. *)
Definition verdicts_between (prior current : BusinessTestIntentIr) (before after : list GeneratedTestCase) : list (string * TestCaseDeltaVerdict * list TestCaseDeltaReason) :=
  match @computeIntentDelta zero_digest (demo_input prior current None) with
  | Ok delta => verdicts_of (@classifyTestCaseDelta zero_digest (demo_classify before after current (Some delta) []))
  | Throw _ => []
  end.

Definition same_intent : BusinessTestIntentIr := demo_intent ["s1"] [demo_field "f1" "s1" "Name"] [].

Definition same_cases : list GeneratedTestCase := [demo_case "t1" "Sends the form" ["s1"]].

Lemma unchanged_case_is_untouched_witness :
  ∃ delta report row,
    @computeIntentDelta zero_digest (demo_input same_intent same_intent None) = Ok delta ∧
    @classifyTestCaseDelta zero_digest (demo_classify same_cases same_cases same_intent (Some delta) []) = Ok report ∧
    tp_rows report = [row] ∧ tr_verdict row = v_unchanged ∧
    ∃ p c, last_with gt_id "t1" same_cases = Some p ∧ last_with gt_id "t1" same_cases = Some c ∧
      @untouched zero_digest _ _ (ir_detectedFields same_intent) (ir_detectedFields same_intent) "s1".
Proof.
  assert (Hd : ∃ delta, @computeIntentDelta zero_digest (demo_input same_intent same_intent None) = Ok delta) by (eexists; vm_compute; reflexivity).
  destruct Hd as [delta Hd].
  assert (Hc : ∃ report row, @classifyTestCaseDelta zero_digest (demo_classify same_cases same_cases same_intent (Some delta) []) = Ok report
     ∧ tp_rows report = [row] ∧ tr_verdict row = v_unchanged ∧ tr_testCaseId row = "t1").
  { vm_compute in Hd. injection Hd as <-. do 2 eexists. vm_compute. split_and!; reflexivity. }
  destruct Hc as (report & row & Hc & Hrows & Hv & Hid). exists delta, report, row. split_and!; [exact Hd|exact Hc|exact Hrows|exact Hv|].
  destruct (@unchanged_case_is_untouched zero_digest _ _ (demo_classify same_cases same_cases same_intent (Some delta) []) _ row Hd eq_refl Hc) as (p & c & Hp & Hcur & _ & Hall); [rewrite Hrows; left|exact Hv|].
  rewrite Hid in Hp, Hcur. exists p, c. split_and!; [exact Hp|exact Hcur|].
  assert (Hs : "s1" ∈ gt_traceScreens c) by (vm_compute in Hcur; injection Hcur as <-; left).
  exact (proj1 (proj2 (Hall "s1" Hs))).
Defined.

Lemma duplicates_reported_exactly_witness :
  ∃ pairs, detectDuplicateTestCases [demo_case "t2" "Log in" ["s1"]; demo_case "t1" "log-in!" ["s1"]] (9 # 10) = Ok pairs ∧
    ∃ p, p ∈ pairs ∧ dp_leftTestCaseId p = "t1" ∧ dp_rightTestCaseId p = "t2" ∧ (dp_similarity p == 1)%Q.
Proof.
  assert (Hr : ∃ pairs, detectDuplicateTestCases [demo_case "t2" "Log in" ["s1"]; demo_case "t1" "log-in!" ["s1"]] (9 # 10) = Ok pairs) by (eexists; vm_compute; reflexivity).
  destruct Hr as [pairs Hr]. exists pairs. split; [exact Hr|].
  assert (Hnd : NoDup (gt_id <$> [demo_case "t2" "Log in" ["s1"]; demo_case "t1" "log-in!" ["s1"]])) by (apply (bool_decide_eq_true_1 _); vm_compute; reflexivity).
  destruct (duplicates_reported_exactly _ _ _ Hnd Hr) as [_ Hin].
  eexists. split; [apply Hin; exists (demo_case "t1" "log-in!" ["s1"]), (demo_case "t2" "Log in" ["s1"]); split_and!|].
  - right. left.
  - left.
  - reflexivity.
  - vm_compute. reflexivity.
  - vm_compute. discriminate.
  - reflexivity.
  - split_and!; vm_compute; reflexivity.
Defined.

(** A field that is new on the screen of a case does not touch the case; neither does one
    that is gone. *)
Lemma new_field_goes_unnoticed :
  verdicts_between same_intent (demo_intent ["s1"] [demo_field "f1" "s1" "Name"; demo_field "f2" "s1" "IBAN"] [])
    same_cases same_cases = [("t1", v_unchanged, [])] ∧
  verdicts_between same_intent (demo_intent ["s1"] [] [])
    same_cases same_cases = [("t1", v_unchanged, [])].
Proof. split; vm_compute; reflexivity. Qed.

(** A case that was not generated again is obsolete although its screen is there. *)
Lemma dropped_case_is_obsolete :
  verdicts_between same_intent same_intent same_cases [] = [("t1", v_obsolete, [absent_in_current])].
Proof. vm_compute. reflexivity. Qed.

Example verdicts_on_all_branches :
  verdicts_between (demo_intent ["s1"; "s2"] [] []) (demo_intent ["s1"] [] [])
    [demo_case "t1" "Sends the form" ["s2"]; demo_case "t2" "Opens the form" ["s1"]; demo_case "t3" "Both" ["s1"; "s2"]]
    [demo_case "t4" "New" ["s1"]; demo_case "t3" "Both" ["s1"; "s2"]; demo_case "t2" "Opens the form" ["s1"]] =
  [("t1", v_obsolete, [trace_screen_removed]); ("t2", v_unchanged, []); ("t3", v_changed, [trace_screen_removed]); ("t4", v_new, [absent_in_prior])].
Proof. vm_compute. reflexivity. Qed.

Example low_confidence_needs_review :
  verdicts_of (@classifyTestCaseDelta zero_digest (demo_classify [] [demo_case "t1" "New" ["s1"]] same_intent None
    [{| vs_screenId := "s1"; vs_outcomes := ["conflicts_with_figma_metadata"]; vs_meanConfidence := 1 # 2 |}])) =
  [("t1", v_requires_review, [absent_in_prior; reconciliation_conflict; visual_confidence_dropped])].
Proof. vm_compute. reflexivity. Qed.
